(* ===== verification/_CoqProject ===== *)
-Q . S2P
Prelude.v
Utf8.v
Net.v
Target.v
BTree.v
Json.v
Document.v
Geoip.v
Rules.v
Groups.v
Proxy.v
Provider.v
Assets.v
Dns.v
Config.v
Route.v
Connection.v
Lifecycle.v
Probes.v
Socks.v
Http.v
HttpBody.v
Disk.v
DiskFacts.v
Bundle.v
Revision.v
RevisionFacts.v
RevisionRead.v
Store.v
CatalogFacts.v
StoreFacts.v
StoreSpec.v
StoreSafety.v
Interrupted.v
StoreDemo.v
AnyTls.v
AnyTlsSession.v
SessionFacts.v
Obfs.v
ObfsFacts.v
Api.v
ApiFacts.v
Udp.v
UdpFacts.v
ZigMap.v
Invocation.v
Override.v
ConfigYaml.v
OverrideFacts.v
YamlText.v
ConfigYamlFacts.v
ConfigDumps.v
OverrideDemo.v
OverrideSafety.v
InvocationFacts.v
Diagnostics.v
DoctorFacts.v
DoctorSound.v
DoctorDemo.v
Evidence.v
EventLog.v
Reporter.v
DirSpec.v
EventLogFacts.v
ExitFacts.v
FailureFacts.v
EvidenceFacts.v
EvidenceDemo.v
Snapshot.v
SnapshotFacts.v
Instance.v
InstanceFacts.v
Control.v
ControlFacts.v
ReadyFacts.v
CleanupFacts.v
ControlDemo.v
Cli.v
CliFacts.v
CliDemo.v
