(* ===== verification/Prelude.v ===== *)
(** * Verification of zc, a rule-based proxy client (src/src, Rust)

    zc reads a configuration, listens for SOCKS5 and HTTP clients, decides by rules which
    outbound carries each connection, and relays it directly or through a Shadowsocks,
    Trojan or AnyTLS server. A controller API lists and closes connections, and a command
    line drives everything.

    ** Parts and files

    Each file models one part; definitions carry the names of the code they translate.

    - [Prelude] (this file): byte strings, results, ASCII classes, splitting and number
      parsing of Rust's standard library, tactics, hints. [Utf8], [Net], [BTree], [Json]:
      the parts of the standard library and of serde_json's value type that the code relies
      on (UTF-8, IP and socket address syntax in both directions, ordered maps, JSON values).
    - [Target] (target.rs): destinations.
    - [Document] (config_provider.rs, first part): the bounded document visitor, JSON fast
      path, YAML fallback. The two parsers are parameters: a source gives a tree of nodes,
      possibly cut short by an error.
    - [Rules], [Groups], [Proxy], [Config] (config.rs): rule lines, select groups with their
      depth-first cycle search, proxy declarations, [Config::parse_inner], selections and
      views. [Geoip]: the built-in country table.
    - [Provider] (config_provider.rs): rule providers, their budgets and [expand].
      [Assets]: reading provider files beneath a root and downloading them, over an abstract
      file system ([FileSystem]) and HTTP answers.
    - [Dns] (dns.rs): the resolver's limits; the class [Resolver] is what routing uses.
    - [Route] (config.rs, [route_inner]): the decision for one connection, with the lookup
      shared by all rules and the address it pins.
    - [Connection] (connection.rs): registry of live connections, its JSON list and the
      validator the client applies to it. [Lifecycle] (runtime.rs): the calls connection
      tasks make on their records, as a step relation. [Probes] (connection/probes.rs):
      one-time probe tickets.
    - [AnyTls], [AnyTlsSession], [SessionFacts] (anytls.rs): padding schemes and frames, the
      session as a state machine in a small monad (pending, ready or failed), and its
      invariants.
    - [Obfs], [ObfsFacts] (simple_obfs.rs): the HTTP envelope of a Shadowsocks stream, over an
      inner stream that is a script of answers, and its invariants.
    - [Udp], [UdpFacts] (udp.rs): the frames of Trojan datagrams and a session's bounded
      queues, its worker and the tunnel as a step function over events.
    - [Api], [ApiFacts] (api.rs): reading a request from a socket, authorisation, the
      endpoints over the configuration, the registry and the tickets, and the answer. The
      daemon of a managed instance is the class [Managed] with its laws [ManagedLaws].
    - [Override], [OverrideFacts] (override_script.rs): documents and their checks,
      normalisation, the capability gate and the projection for the runtime, with panics of
      the code as values. [ConfigYaml]: the bounded writer, canonical YAML, merging and the
      dumps; [YamlText], [ConfigYamlFacts], [ConfigDumps]: what they write. [OverrideDemo]
      runs fixtures of the program's tests, [OverrideSafety] has the theorems. [ZigMap]: the
      order of rule providers in canonical YAML. [Invocation], [InvocationFacts]: options and
      the environment of a script.
    - [Diagnostics] (config/diagnostics.rs): the messages of the doctor, in order, and the
      report that keeps a bounded number of them. [DoctorFacts] (modules [DiagnosticsFacts]:
      the report, [DoctorCycles] and [DoctorFacts]), [DoctorSound]: the checks. [DoctorDemo]:
      a document of the program's tests with the errors they expect.
    - [Socks] (runtime.rs): the SOCKS5 handshake over a client's bytes, datagram headers and
      the relay of a UDP association as a step function over events. [Http] (runtime.rs,
      [http_request]): from a parsed request to the header that is forwarded. [HttpBody]
      (runtime.rs): reading headers, copying sized and chunked bodies and forwarding
      responses over a pipe (pieces to read, a writer that may fail), in the state-error
      monad of this file. The httparse crate is a parameter.
    - [Disk] (fsutil.rs): a private directory as a tree of nodes; every system call is a step
      that works, fails or is the last one before a crash, as a script of the disk says.
      [DiskFacts]: which names an operation leaves alone under every script.
    - [Bundle] (store.rs): the contents of a profile, their admission and their digests.
      [Revision]: revisions on disk, written into a staging directory and read back with
      every byte checked. [Store]: the catalog and the operations on it. SHA-256 ([Sha256]),
      the JSON encodings ([Serde], [CatalogJson]) and the parsers ([Parsers]) are classes.
    - [RevisionFacts], [RevisionRead], [CatalogFacts] (with [BundleFacts]), [StoreFacts]: lemmas of
      these parts. [StoreSpec]: the map of profiles the store implements, as a step relation,
      and the simulation. [StoreSafety]: the theorems about the store. [Interrupted]: what an
      interrupted first publication of a key leaves. [StoreDemo]: concrete instances and runs.
    - [DirSpec]: a program logic for files of one directory ([runs]: what holds of the visible
      files after every script of the disk, [sees]: what a process on a working disk reads).
    - [Evidence], [EventLog], [Reporter] (observability.rs): categories and counters of errors
      and panics, the bounded backtrace, the sampler's parser, the two log files, and the
      life of a reporter from its start over its resource lines to the exit marker.
      [EventLogFacts], [ExitFacts], [FailureFacts], [EvidenceFacts]: their theorems;
      [EvidenceDemo]: runs.
    - [Snapshot] (daemon.rs): descriptors, the key, the MAC and the contents of prepared
      snapshots; configurations come through the class [Loader], which its module
      [ConfigLoader] implements by [Override.runtime_source] and [Config.parse_with_assets]. [Instance]
      (daemon.rs): snapshots in the older format, taking one back, observing a running
      instance, and both cleanups. [Control] (daemon.rs): the store's desired state, the
      controller's status and selection, readiness and the loop of an instance; its state is
      the runtime directory, the store, the mutable fields of the code's [Control] and the
      configuration with its selections. It is an instance of [Api.Managed] with its laws
      (module [ControlApi] of [ControlFacts]). [SnapshotFacts] (with [SelectionFacts]),
      [InstanceFacts], [ControlFacts], [ReadyFacts], [CleanupFacts]: their theorems;
      [ControlDemo]: runs.
    - [Cli] (cli.rs, cli/selection.rs): from tokens to a command ([parse], [plan]), from a
      command's outcome and own output to the answer and the exit code ([respond], [run]),
      and, as module [Selection], the dialogue that chooses a proxy. What the commands do is
      an argument of [run]; clap's pages, JSON printing and Unicode lower case are parameters.
      [CliFacts]: the theorems; [CliDemo]: runs.

    ** What the theorems show

    Configurations: an accepted document respects depth, entry and key limits and everything
    within them is accepted; a parsed configuration is well-formed; the group search decides
    acyclicity and following selections always ends at a proxy; selections are applied
    atomically and restored exactly; listening beyond the loopback interface takes consent.

    Rule providers: expansion keeps order, stays within its budgets, ends in one final rule,
    and provider entries cannot choose targets; assets stay beneath their root and within
    their limits.

    Routing: the first matching rule decides; an address rule pins an address that it accepts;
    lookups fail only when a rule needed them; at most 64 run at once.

    Connections: every reachable registry serves a list its validator accepts; closing is
    final; probe tokens are used once and their history is fixed.

    AnyTLS: padding is invisible to the peer; for every behaviour of the transport and every
    interleaving of operations the writer's data reaches the wire once and in order, and the
    reader gets exactly the data of the frames received.

    simple-obfs: under the same freedom of the inner stream, the wire holds one request
    header, which counts what the first write took, and then the data, the reader gets the
    data behind one acceptable response header, and a flush completes as long as the inner
    stream keeps accepting.

    UDP: over a Trojan tunnel the wire holds the frames of the datagrams the session took, in
    order, but for the rest of a frame in hand and a queue of two, and the client receives
    datagrams the server framed, however the bytes are cut.

    Controller: without the secret a protected request gets the fixed bytes of a refusal and
    changes nothing; a request is read exactly however it is cut; every connection is answered
    without a panic; the selection the daemon sends is the one applied.

    Ingress: a SOCKS handshake reads exactly the request and answers every refusal once, the
    datagram header survives encoding and decoding, and an association only serves the client
    it was opened for; a forwarded HTTP request has one reading of its destination and body
    length, bodies and responses are copied byte for byte up to their end and no further, for
    every way the bytes arrive.

    Overrides: nothing passes the capability gate but what the runtime supports, and the
    result consists of the fields of source and patch; no document makes the code panic; dumps
    are bounded, displayable and independent of secrets; quoted strings read back; the order
    of providers is a permutation computed without running out of slots; a script's
    environment says exactly what the invocation says.

    Doctor: it always reports; the report keeps the first errors and then warnings within its
    budget, exactly, and its verdict counts every error; the nodes, providers, rules and
    checked settings of a document without errors load.

    Store: for every failure and crash the directory represents the map of profiles before or
    after the operation, never anything else; a caller with an old token changes nothing;
    every head can be read and the active profile can run in every state that is reached; a
    published revision is read back as it was and none is ever changed; what capture returns
    is within the limits that reading checks. A crash at one step of the first publication of
    a key blocks every later publication of that key, a defect the development proves.

    Evidence: in every run the exit marker of a process disappears only after the log says how
    it ended; the log files keep the latest lines whole and within their limit; the failure
    events handed to the log account for every failure; what is kept of a panic is bounded and
    anonymous.

    Daemon: a saved snapshot is loaded back exactly and overwrites nothing; selecting through
    the controller is a transaction over memory, descriptor and snapshot under every failure
    and crash; from readiness on a process can take a managed instance back at every moment;
    ending and cleaning up delete only files that are the instance's own or a dead one's. A
    snapshot whose writing was interrupted can not be saved again, a defect the development
    proves.

    Command line: the arguments the parser returns are exactly the well-formed ones; every
    command line gets one answer, behind what the command printed itself, with an exit code
    that fits, one ASCII line of JSON or displayable text, and failing subscriptions show
    nothing of the error but its code; the dialogue returns only what it displayed, and
    everything can be reached.

    ** Bounds and fuel

    Loops of the code are structural where the data allows it. Where they are not, a fuel
    argument is computed from the input and proved sufficient: the group search (one unit per
    group and edge, [Groups.dfs_fuel], which also suffices for the doctor's search,
    [DoctorCycles.cycle_nodes_decides]), draining a session (one per transport answer and
    heartbeat, [SessionFacts.drain_loop_spec]), header and body reads (one per byte,
    [read_header_fuel], [read_body_fuel]), an HTTP header (one per line of at most 16 KiB,
    [HttpBody.header_spec_fuel]), an API request's header (one per byte of its limit,
    [ApiFacts.read_head_start]), a masked stream (one per answer of the inner stream,
    [ObfsFacts.queue_loop_spec], [ObfsFacts.read_loop_spec]), the hash of a provider's name
    (its length, [ZigMap.zig_map_order_total]), number printing (the logarithm). Running out is a
    separate outcome ([None]) and is excluded by the theorems. Rounds the code itself limits
    (32 frames per read, 16 reads per shutdown poll) are the code's own. The lock file is
    opened at most twice ([Disk.open_lock]): it is created when the first attempt does not
    find it, and no other process removes it.

    ** Not modelled

    Sockets, timers and wakers (a transport is a script of answers), the TLS, Shadowsocks,
    resolver, YAML and JSON libraries (parameters with stated behaviour). A crash stops the
    process between two system calls or in the middle of one; that the kernel loses writes
    that were not synced is not modelled, nor are other processes that ignore the locks.
    In [Instance.Env] the table of processes answers for the whole of an operation, and so
    does the lock of an instance: other processes that change the same directory between two
    system calls are not modelled. Paths are valid UTF-8.
    Of store.rs the capture from files and the takeover of the legacy layout (a parameter of
    [Store.load]), of fsutil.rs reading beneath symbolic links and the cache files are left
    out. Processes and terminals: of daemon.rs spawning, the start, stop and restart
    protocols, following the log and the command line's control of connections; of service.rs
    everything but the overlay of a controller secret; user_service.rs; of cli.rs what the
    commands do (dispatch, the mirror of the catalog, downloads, diagnostic probes); of
    override_script.rs the Lua interpreter, the child processes and reading scripts, and the
    cache synchronisation of provider assets. Of api.rs the listener loop is left out. The
    connectors of outbound.rs and the relaying of bytes call libraries on sockets throughout. *)
From Stdlib Require Export ZArith Lia.
From Stdlib Require Import Ascii String.
From stdpp Require Export base list gmap sorting strings.

#[global] Open Scope Z_scope.
#[global] Arguments Z.eqb : simpl never.
#[global] Arguments Z.leb : simpl never.
#[global] Arguments Z.ltb : simpl never.

(** ** Byte strings

    A Rust [str], [String], [[u8]] or [Vec<u8>] is the list of its bytes, each
    a [Z] in [0..255]. *)

Abbreviation str := (list Z).

Definition lit (s : string) : str :=
  (λ a, Z.of_N (N_of_ascii a)) <$> list_ascii_of_string s.

Definition len {A} (l : list A) : Z := Z.of_nat (length l).

Definition is_byte (b : Z) : Prop := 0 ≤ b < 256.

(** ** Results: [anyhow::Result] with the message as the error. *)

Inductive result (E A : Type) : Type :=
| Ok (a : A)
| Err (e : E).
Arguments Ok {E A} a.
Arguments Err {E A} e.

Abbreviation res := (result string).

Definition is_ok {E A} (r : result E A) : bool :=
  match r with Ok _ => true | Err _ => false end.

Definition to_option {E A} (r : result E A) : option A :=
  match r with Ok a => Some a | Err _ => None end.

Definition ok_or {E A} (o : option A) (e : E) : result E A :=
  match o with Some a => Ok a | None => Err e end.

Definition map_err {E E' A} (f : E → E') (r : result E A) : result E' A :=
  match r with Ok a => Ok a | Err e => Err (f e) end.

Declare Scope zc_scope.
Delimit Scope zc_scope with zc.
#[global] Open Scope zc_scope.

Notation "'let!' x := m 'in' k" :=
  (match m with Ok x => k | Err e => Err e end)
  (at level 10, x name, m at level 100, k at level 200) : zc_scope.
Notation "'let!' ' x := m 'in' k" :=
  (match m with Ok x => k | Err e => Err e end)
  (at level 10, x pattern, m at level 100, k at level 200) : zc_scope.
Notation "'let?' x := m 'in' k" :=
  (match m with Some x => k | None => None end)
  (at level 10, x name, m at level 100, k at level 200) : zc_scope.
Notation "'let?' ' x := m 'in' k" :=
  (match m with Some x => k | None => None end)
  (at level 10, x pattern, m at level 100, k at level 200) : zc_scope.
Notation "'bail!' e" := (Err e%string) (at level 10, e at level 9) : zc_scope.

(** ** Panics

    A computation that may also panic: [None] is a panic, an [unwrap] of a missing value, an
    index out of range or [unreachable!]. *)

Abbreviation pres A := (option (res A)).

Definition pok {A} (a : A) : pres A := Some (Ok a).
Definition perr {A} (e : string) : pres A := Some (Err e).
Definition unwrap {A} (o : option A) : pres A := match o with Some a => pok a | None => None end.

Notation "'try!' x := m 'in' k" :=
  (match m with Some (Ok x) => k | Some (Err e) => Some (Err e) | None => None end)
  (at level 10, x name, m at level 100, k at level 200) : zc_scope.
Notation "'try!' ' x := m 'in' k" :=
  (match m with Some (Ok x) => k | Some (Err e) => Some (Err e) | None => None end)
  (at level 10, x pattern, m at level 100, k at level 200) : zc_scope.

(** [m] does not panic, and what it returns without an error satisfies [Q]. *)
Definition post {A} (Q : A → Prop) (m : pres A) : Prop :=
  match m with None => False | Some (Err _) => True | Some (Ok a) => Q a end.

Lemma post_bind {A B} (P : A → Prop) (Q : B → Prop) (m : pres A) (k : A → pres B) :
  post P m → (∀ a, P a → post Q (k a)) → post Q (try! a := m in k a).
Proof. destruct m as [[a|e]|]; simpl; auto. Qed.

Lemma post_res {A} (Q : A → Prop) (r : res A) : (∀ a, r = Ok a → Q a) → post Q (Some r).
Proof. destruct r; simpl; auto. Qed.

Lemma post_mono {A} (P Q : A → Prop) (m : pres A) : post P m → (∀ a, P a → Q a) → post Q m.
Proof. destruct m as [[a|e]|]; simpl; auto. Qed.

Lemma post_unwrap {A} (Q : A → Prop) (o : option A) a : o = Some a → Q a → post Q (unwrap o).
Proof. by intros ->. Qed.

(** An [unwrap] of a value that is there. *)
Lemma post_unwrap_bind {A B} (Q : B → Prop) (o : option A) a (k : A → pres B) :
  o = Some a → post Q (k a) → post Q (try! a := unwrap o in k a).
Proof. by intros ->. Qed.

(** A step that cannot panic. *)
Lemma post_res_bind {A B} (Q : B → Prop) (r : res A) (k : A → pres B) :
  (∀ a, r = Ok a → post Q (k a)) → post Q (try! a := Some r in k a).
Proof. destruct r; simpl; auto. Qed.

Lemma post_Ok {A} (Q : A → Prop) (m : pres A) a : post Q m → m = Some (Ok a) → Q a.
Proof. by intros H ->. Qed.

Lemma post_total {A} (Q : A → Prop) (m : pres A) : post Q m → m ≠ None.
Proof. by intros H ->. Qed.

(** [if c { bail!(e) }; k] *)
Notation "'ensure!' c 'else' e 'in' k" :=
  (if c then k else Err e%string)
  (at level 10, c at level 100, e at level 100, k at level 200) : zc_scope.

(** ** State and errors

    An operation on a connection takes its state and returns the new state with a value or
    an error; the first error ends a sequence. *)

Definition SE (S E A : Type) : Type := S → S * result E A.

Definition sret {S E A} (a : A) : SE S E A := λ s, (s, Ok a).
Definition serr {S E A} (e : E) : SE S E A := λ s, (s, Err e).
Definition sbind {S E A B} (m : SE S E A) (k : A → SE S E B) : SE S E B := λ s,
  match m s with (s, Ok a) => k a s | (s, Err e) => (s, Err e) end.

Notation "'do!' x := m 'in' k" := (sbind m (λ x, k)) (at level 10, x name, m at level 100, k at level 200) : zc_scope.

Definition is_some {A} (o : option A) : bool :=
  match o with Some _ => true | None => false end.

Definition is_some_and {A} (o : option A) (f : A → bool) : bool :=
  match o with Some a => f a | None => false end.

(** ** Bytes classes ([u8::is_ascii_*]) *)

Definition is_ascii (b : Z) : bool := b <? 128.
Definition is_ascii_digit (b : Z) : bool := (48 <=? b) && (b <=? 57).
Definition is_ascii_upper (b : Z) : bool := (65 <=? b) && (b <=? 90).
Definition is_ascii_lower (b : Z) : bool := (97 <=? b) && (b <=? 122).
Definition is_ascii_alphanumeric (b : Z) : bool :=
  is_ascii_digit b || is_ascii_upper b || is_ascii_lower b.
Definition is_ascii_whitespace (b : Z) : bool :=
  (b =? 32) || (b =? 9) || (b =? 10) || (b =? 12) || (b =? 13).
Definition is_ascii_control (b : Z) : bool := (b <? 32) || (b =? 127).
Definition is_ascii_hexdigit (b : Z) : bool :=
  is_ascii_digit b || ((65 <=? b) && (b <=? 70)) || ((97 <=? b) && (b <=? 102)).
Definition is_lower_hex (b : Z) : bool :=
  is_ascii_digit b || ((97 <=? b) && (b <=? 102)).

Definition to_ascii_lowercase_byte (b : Z) : Z := if is_ascii_upper b then b + 32 else b.
Definition to_ascii_lowercase (s : str) : str := to_ascii_lowercase_byte <$> s.

Definition eq_str (a b : str) : bool := bool_decide (a = b).
Definition eq_ignore_ascii_case (a b : str) : bool :=
  eq_str (to_ascii_lowercase a) (to_ascii_lowercase b).
(** [s] is one of the literals [names]: a Rust [matches!] on string patterns. *)
Definition one_of (s : str) (names : list string) : bool :=
  existsb (λ n, eq_str s (lit n)) names.

(** ** Slices: prefixes, splits and searches *)

Fixpoint strip_prefix (p s : str) : option str :=
  match p, s with
  | [], _ => Some s
  | x :: p, y :: s => if x =? y then strip_prefix p s else None
  | _ :: _, [] => None
  end.

Definition starts_with (p s : str) : bool := is_some (strip_prefix p s).

Definition strip_suffix (p s : str) : option str :=
  reverse <$> strip_prefix (reverse p) (reverse s).

Definition ends_with (p s : str) : bool := is_some (strip_suffix p s).

(** First index at which [p] occurs in [s] ([windows(n).position], [str::find]). *)
Fixpoint find_sub (p s : str) : option nat :=
  if starts_with p s then Some 0%nat
  else match s with
       | [] => None
       | _ :: s' => S <$> find_sub p s'
       end.

Definition contains_sub (p s : str) : bool := is_some (find_sub p s).

Definition contains_byte (c : Z) (s : str) : bool := existsb (Z.eqb c) s.

(** [str::split(c)]: never empty. *)
Fixpoint split_byte (c : Z) (s : str) : list str :=
  match s with
  | [] => [[]]
  | b :: s' =>
      if b =? c then [] :: split_byte c s'
      else match split_byte c s' with
           | [] => [[b]]
           | f :: fs => (b :: f) :: fs
           end
  end.

Fixpoint split_once (c : Z) (s : str) : option (str * str) :=
  match s with
  | [] => None
  | b :: s' =>
      if b =? c then Some ([], s')
      else match split_once c s' with
           | Some (x, y) => Some (b :: x, y)
           | None => None
           end
  end.

Definition rsplit_once (c : Z) (s : str) : option (str * str) :=
  match split_once c (reverse s) with
  | Some (x, y) => Some (reverse y, reverse x)
  | None => None
  end.

(** [str::split_terminator(c)]: a trailing empty piece is dropped. *)
Definition split_terminator (c : Z) (s : str) : list str :=
  let ps := split_byte c s in
  match last ps with
  | Some [] => removelast ps
  | _ => ps
  end.

(** [str::lines]: split at LF, dropping one trailing CR of each line. *)
Definition lines (s : str) : list str :=
  (λ l, default l (strip_suffix [13] l)) <$> split_terminator 10 s.

Fixpoint trim_start_by (f : Z → bool) (s : str) : str :=
  match s with
  | [] => []
  | b :: s' => if f b then trim_start_by f s' else s
  end.

Definition trim_end_by (f : Z → bool) (s : str) : str := reverse (trim_start_by f (reverse s)).

(** [str::trim_matches] on a set of ASCII characters. *)
Definition trim_by (f : Z → bool) (s : str) : str := trim_end_by f (trim_start_by f s).

Definition blank (b : Z) : bool := (b =? 32) || (b =? 9).
Definition trim_blank (s : str) : str := trim_by blank s.

(** ** Numbers *)

Definition u16_max : Z := 65535.
Definition u32_max : Z := 4294967295.
Definition u64_max : Z := 18446744073709551615.

Definition digits_value (s : str) : Z := foldl (λ acc b, acc * 10 + (b - 48)) 0 s.

(** [str::parse::<uN>()] with [max] the type's maximum: an optional leading plus,
    at least one digit, no overflow. *)
Definition parse_uint (max : Z) (s : str) : option Z :=
  let ds := default s (strip_prefix [43] s) in
  if bool_decide (ds = []) || negb (forallb is_ascii_digit ds) then None
  else if digits_value ds <=? max then Some (digits_value ds) else None.

Fixpoint dec_go (fuel : nat) (n : Z) : str :=
  match fuel with
  | O => []
  | S fuel => if n <? 10 then [48 + n] else dec_go fuel (n / 10) ++ [48 + n mod 10]
  end.

(** Decimal [Display] of an unsigned integer. *)
Definition print_dec (n : Z) : str := dec_go (S (Z.to_nat (Z.log2 n))) n.

Definition hex_digit (n : Z) : Z := if n <? 10 then 48 + n else 87 + n.

Fixpoint hex_go (fuel : nat) (n : Z) : str :=
  match fuel with
  | O => []
  | S fuel => if n <? 16 then [hex_digit n] else hex_go fuel (n / 16) ++ [hex_digit (n mod 16)]
  end.

(** [{:x}] *)
Definition print_hex (n : Z) : str := hex_go (S (Z.to_nat (Z.log2 n))) n.

Fixpoint pad_left (w : nat) (c : Z) (s : str) : str :=
  match w with
  | O => s
  | S w' => if (length s <? w)%nat then c :: pad_left w' c s else s
  end.

(** [char::to_digit(16)] *)
Definition hex_value (b : Z) : option Z :=
  if is_ascii_digit b then Some (b - 48)
  else if (97 <=? b) && (b <=? 102) then Some (b - 87)
  else if (65 <=? b) && (b <=? 70) then Some (b - 55)
  else None.

Definition be16 (n : Z) : str := [n / 256 mod 256; n mod 256].
Definition be32 (n : Z) : str :=
  [n / 16777216 mod 256; n / 65536 mod 256; n / 256 mod 256; n mod 256].
Definition from_be (s : str) : Z := foldl (λ acc b, acc * 256 + b) 0 s.

(** ** Ordered maps: the iteration order of a [BTreeMap] *)

Fixpoint str_ltb (a b : str) : bool :=
  match a, b with
  | _, [] => false
  | [], _ :: _ => true
  | x :: a, y :: b => (x <? y) || ((x =? y) && str_ltb a b)
  end.

(** ** Automation *)

Create HintDb zc discriminated.
Create Rewrite HintDb zc_len.

(** Case-split every [match]/[if] of a hypothesis that equates a computation
    with a result, discarding the failing branches. *)
Ltac inv_res H :=
  repeat (simplify_eq/=; case_match; simplify_eq/=; try discriminate H).

Ltac destruct_bool :=
  repeat match goal with
  | H : _ && _ = true |- _ => apply andb_prop in H as [? ?]
  | H : _ || _ = false |- _ => apply orb_false_elim in H as [? ?]
  | H : negb _ = true |- _ => apply negb_true_iff in H
  | H : negb _ = false |- _ => apply negb_false_iff in H
  | H : bool_decide _ = true |- _ => apply bool_decide_eq_true in H
  | H : bool_decide _ = false |- _ => apply bool_decide_eq_false in H
  | H : (_ <=? _) = true |- _ => apply Z.leb_le in H
  | H : (_ <=? _) = false |- _ => apply Z.leb_gt in H
  | H : (_ <? _) = true |- _ => apply Z.ltb_lt in H
  | H : (_ <? _) = false |- _ => apply Z.ltb_ge in H
  | H : (_ =? _) = true |- _ => apply Z.eqb_eq in H
  | H : (_ =? _) = false |- _ => apply Z.eqb_neq in H
  end.

(** [blia]: reflect the boolean hypotheses, then [lia]. *)
Ltac blia := destruct_bool; lia.

(** ** Lemmas on slices *)

Lemma eq_str_true a b : eq_str a b = true ↔ a = b.
Proof. apply bool_decide_eq_true. Qed.

Lemma eq_str_refl a : eq_str a a = true.
Proof. by apply eq_str_true. Qed.

Lemma eq_str_false a b : eq_str a b = false ↔ a ≠ b.
Proof. apply bool_decide_eq_false. Qed.

Lemma lit_inj a b : lit a = lit b → a = b.
Proof.
  revert b. induction a as [|x a IH]; intros [|y b]; try done. intros H.
  assert (Z.of_N (Ascii.N_of_ascii x) = Z.of_N (Ascii.N_of_ascii y) ∧ lit a = lit b) as [Hx Ha]
    by (by injection H).
  f_equal; [|by apply IH]. apply N2Z.inj in Hx.
  by rewrite <- (Ascii.ascii_N_embedding x), <- (Ascii.ascii_N_embedding y), Hx.
Qed.

Lemma strip_prefix_Some p s r : strip_prefix p s = Some r ↔ s = p ++ r.
Proof.
  revert s; induction p as [|x p IH]; intros [|y s]; simpl.
  - naive_solver.
  - naive_solver.
  - naive_solver.
  - case_match; destruct_bool; subst.
    + rewrite IH. naive_solver.
    + naive_solver.
Qed.

Lemma strip_prefix_app p r : strip_prefix p (p ++ r) = Some r.
Proof. by apply strip_prefix_Some. Qed.

Lemma starts_with_true p s : starts_with p s = true ↔ ∃ r, s = p ++ r.
Proof.
  unfold starts_with, is_some. split.
  - destruct (strip_prefix p s) as [r|] eqn:E; [|done].
    intros _. exists r. by apply strip_prefix_Some.
  - intros [r ->]. by rewrite strip_prefix_app.
Qed.

Lemma strip_suffix_Some p s r : strip_suffix p s = Some r ↔ s = r ++ p.
Proof.
  unfold strip_suffix. split.
  - destruct (strip_prefix _ _) as [t|] eqn:E; [|done]. simpl. intros [= <-].
    apply strip_prefix_Some in E.
    by rewrite <- (reverse_involutive s), E, reverse_app, reverse_involutive.
  - intros ->. rewrite reverse_app, strip_prefix_app. simpl. by rewrite reverse_involutive.
Qed.

Lemma ends_with_true p s : ends_with p s = true ↔ ∃ r, s = r ++ p.
Proof.
  unfold ends_with, is_some. split.
  - destruct (strip_suffix p s) as [r|] eqn:E; [|done].
    intros _. exists r. by apply strip_suffix_Some.
  - intros [r ->]. by rewrite (proj2 (strip_suffix_Some p (r ++ p) r) eq_refl).
Qed.

Lemma find_sub_Some p s n :
  find_sub p s = Some n →
  (∃ r, s = take n s ++ p ++ r) ∧ ∀ m, (m < n)%nat → starts_with p (drop m s) = false.
Proof.
  revert n; induction s as [|b s IH]; intros n; simpl.
  - destruct (starts_with p []) eqn:E; [|done]. intros [= <-].
    apply starts_with_true in E as [r E]. split; [exists r; by rewrite E | lia].
  - destruct (starts_with p (b :: s)) eqn:E.
    + intros [= <-]. apply starts_with_true in E as [r E]. split; [by exists r | lia].
    + destruct (find_sub p s) as [k|] eqn:F; [|done]. simpl. intros [= <-].
      destruct (IH k eq_refl) as [[r Hr] Hm]. split.
      * exists r. simpl. by f_equal.
      * intros [|m] Hlt; [done|]. apply Hm. lia.
Qed.

Lemma find_sub_None p s :
  find_sub p s = None → ∀ x y, s ≠ x ++ p ++ y.
Proof.
  intros Hf x. revert s Hf. induction x as [|b x IH]; intros s Hf y Hs.
  - assert (starts_with p s = true) as E by (apply starts_with_true; eauto).
    destruct s; simpl in Hf; by rewrite E in Hf.
  - subst s. simpl in Hf.
    destruct (starts_with p (b :: x ++ p ++ y)); [done|].
    destruct (find_sub p (x ++ p ++ y)) eqn:F; [done|].
    by eapply IH.
Qed.

Lemma find_sub_length p s n : find_sub p s = Some n → (n + length p ≤ length s)%nat.
Proof.
  intros [[r Hr] Hm]%find_sub_Some. destruct (decide (n ≤ length s)%nat) as [Hn|Hn].
  - apply (f_equal length) in Hr. rewrite !length_app, length_take in Hr. lia.
  - rewrite take_ge in Hr by lia. apply (f_equal length) in Hr. rewrite !length_app in Hr.
    assert (p = []) as -> by (apply nil_length_inv; lia). by specialize (Hm 0%nat ltac:(lia)).
Qed.

Lemma starts_with_app p s t : (length p ≤ length s)%nat → starts_with p (s ++ t) = starts_with p s.
Proof.
  intros Hl. destruct (starts_with p s) eqn:E.
  - apply starts_with_true in E as [r ->]. apply starts_with_true. exists (r ++ t). by rewrite app_assoc.
  - destruct (starts_with p (s ++ t)) eqn:E'; [|done]. apply starts_with_true in E' as [r Hr].
    assert (s = p ++ drop (length p) s) as Hs.
    { rewrite <- (take_drop (length p) s) at 1. f_equal. apply (f_equal (take (length p))) in Hr.
      rewrite take_app_le, take_app_length in Hr by done. done. }
    rewrite Hs in E. by rewrite (proj2 (starts_with_true p (p ++ _))) in E by eauto.
Qed.

(** What follows the first occurrence does not matter. *)
Lemma find_sub_app p s t n : find_sub p s = Some n → find_sub p (s ++ t) = Some n.
Proof.
  revert n. induction s as [|b s IH]; intros n Hf; pose proof (find_sub_length _ _ _ Hf) as Hl; simpl in *.
  - destruct p; [|simpl in *; lia]. destruct t; done.
  - rewrite app_comm_cons, starts_with_app by (simpl; lia). destruct (starts_with p (b :: s)); [done|].
    destruct (find_sub p s) as [k|] eqn:E; [|done]. by rewrite (IH k eq_refl).
Qed.

Lemma find_sub_take p s n : find_sub p s = Some n → find_sub p (take (n + length p) s) = Some n.
Proof.
  intros Hf. pose proof (find_sub_length _ _ _ Hf) as Hl.
  destruct (find_sub p (take (n + length p) s)) as [m|] eqn:E.
  - apply (find_sub_app _ _ (drop (n + length p) s)) in E. rewrite take_drop in E. congruence.
  - exfalso. apply find_sub_Some in Hf as [[r Hr] _]. apply (find_sub_None _ _ E (take n s) []).
    rewrite app_nil_r. rewrite Hr at 1. rewrite app_assoc, take_app_le by (rewrite length_app, length_take; lia).
    by rewrite take_ge by (rewrite length_app, length_take; lia).
Qed.

(** An occurrence in a suffix is one of the whole. *)
Lemma find_sub_is_Some p x y : is_Some (find_sub p (x ++ p ++ y)).
Proof. destruct (find_sub p (x ++ p ++ y)) eqn:E; [by eexists|]. by destruct (find_sub_None _ _ E x y). Qed.

Lemma split_byte_ne c s : split_byte c s ≠ [].
Proof. destruct s; simpl; [done|]. repeat case_match; done. Qed.

Lemma split_byte_pieces c s : Forall (λ f, c ∉ f) (split_byte c s).
Proof.
  induction s as [|b s IH]; simpl.
  - constructor; [|done]. apply not_elem_of_nil.
  - case_match; destruct_bool; subst.
    + constructor; [apply not_elem_of_nil|done].
    + destruct (split_byte c s) as [|f fs].
      * constructor; [|done]. set_solver.
      * inversion IH; subst. constructor; [|done]. set_solver.
Qed.

Lemma split_byte_no c s : c ∉ s → split_byte c s = [s].
Proof.
  induction s as [|b s IH]; simpl; [done|]. intros Hn.
  rewrite not_elem_of_cons in Hn. destruct Hn as [Hb Hn].
  rewrite (proj2 (Z.eqb_neq b c)) by done. by rewrite IH.
Qed.

Lemma split_byte_app c x s : c ∉ x → split_byte c (x ++ c :: s) = x :: split_byte c s.
Proof.
  induction x as [|b x IH]; simpl; intros Hn.
  - by rewrite Z.eqb_refl.
  - rewrite not_elem_of_cons in Hn. destruct Hn as [Hb Hn].
    rewrite (proj2 (Z.eqb_neq b c)) by done. by rewrite IH.
Qed.

Lemma split_once_Some c s x y :
  split_once c s = Some (x, y) ↔ s = x ++ c :: y ∧ c ∉ x.
Proof.
  revert x; induction s as [|b s IH]; intros x; simpl.
  - split; [done|]. intros [H _]. by destruct x.
  - case_match; destruct_bool; subst.
    + split; [intros [= <- <-]; split; [done | apply not_elem_of_nil]|].
      intros [H Hn]. destruct x as [|z x]; simplify_eq/=; [done|].
      exfalso. apply Hn. set_solver.
    + destruct (split_once c s) as [[x' y']|] eqn:E.
      * split.
        -- intros [= <- <-]. destruct (proj1 (IH x') eq_refl) as [-> Hn].
           split; [done|]. set_solver.
        -- intros [Hs Hn]. destruct x as [|z x]; simplify_eq/=.
           assert (Some (x', y') = Some (x, y)) as [= -> ->].
           { apply IH. split; [done|]. set_solver. }
           done.
      * split; [done|]. intros [Hs Hn]. destruct x as [|z x]; simplify_eq/=.
        assert (None = Some (x, y)) as ?; [|done]. apply IH. split; [done | set_solver].
Qed.

Lemma split_once_None c s : split_once c s = None ↔ c ∉ s.
Proof.
  split.
  - intros H Hin. apply list_elem_of_split_l in Hin as (x & y & -> & Hn).
    by rewrite (proj2 (split_once_Some c (x ++ c :: y) x y)) in H.
  - intros Hn. destruct (split_once c s) as [[x y]|] eqn:E; [|done].
    apply split_once_Some in E as [-> _]. exfalso. apply Hn. set_solver.
Qed.

Lemma rsplit_once_Some c s x y :
  rsplit_once c s = Some (x, y) ↔ s = x ++ c :: y ∧ c ∉ y.
Proof.
  unfold rsplit_once. split.
  - destruct (split_once c (reverse s)) as [[a b]|] eqn:E; [|done].
    intros [= <- <-]. apply split_once_Some in E as [E Hn].
    rewrite <- (reverse_involutive s), E, reverse_app, reverse_cons, <- app_assoc.
    split; [done|]. by rewrite elem_of_reverse.
  - intros [-> Hn].
    rewrite reverse_app, reverse_cons, <- app_assoc. simpl.
    rewrite (proj2 (split_once_Some c _ (reverse y) (reverse x))).
    + by rewrite !reverse_involutive.
    + split; [done|]. by rewrite elem_of_reverse.
Qed.

(** ** Lemmas on numbers *)

Lemma digits_value_app a b :
  digits_value (a ++ b) = digits_value a * 10 ^ len b + digits_value b.
Proof.
  unfold digits_value, len. rewrite foldl_app. generalize (foldl (λ acc b0, acc * 10 + (b0 - 48)) 0 a).
  induction b as [|x b IH] using rev_ind; intros z; simpl; [lia|].
  rewrite !foldl_app, length_app. simpl. rewrite IH.
  replace (Z.of_nat (length b + 1)) with (Z.succ (Z.of_nat (length b))) by lia.
  rewrite Z.pow_succ_r by lia. lia.
Qed.

Lemma digits_value_nonneg s : forallb is_ascii_digit s = true → 0 ≤ digits_value s.
Proof.
  induction s as [|x s IH] using rev_ind; [done|].
  rewrite forallb_app, digits_value_app. simpl. intros H.
  apply andb_prop in H as [H1 H2]. specialize (IH H1).
  unfold is_ascii_digit in H2. unfold digits_value at 2, len. simpl. blia.
Qed.

Lemma dec_go_value fuel n :
  0 ≤ n < 10 ^ Z.of_nat fuel → (0 < fuel)%nat →
  forallb is_ascii_digit (dec_go fuel n) = true ∧ dec_go fuel n ≠ [] ∧
  digits_value (dec_go fuel n) = n ∧
  (n ≠ 0 → head (dec_go fuel n) ≠ Some 48) ∧ (n = 0 → dec_go fuel n = [48]).
Proof.
  revert n; induction fuel as [|fuel IH]; intros n Hn Hf; [lia|]. simpl.
  destruct (n <? 10) eqn:E; destruct_bool.
  - unfold digits_value; simpl. split_and!.
    + unfold is_ascii_digit. rewrite andb_true_r.
      apply andb_true_intro. split; apply Z.leb_le; lia.
    + done.
    + lia.
    + intros Hz [= Heq]. lia.
    + intros ->. done.
  - assert (0 ≤ n / 10 < 10 ^ Z.of_nat fuel) as Hd.
    { rewrite Nat2Z.inj_succ, Z.pow_succ_r in Hn by lia.
      split; [apply Z.div_pos; lia|]. apply Z.div_lt_upper_bound; lia. }
    assert (0 < fuel)%nat as Hf'.
    { destruct fuel; [|lia]. simpl in Hn. lia. }
    destruct (IH (n / 10) Hd Hf') as (H1 & H2 & H3 & H4 & _).
    pose proof (Z.mod_pos_bound n 10 ltac:(lia)) as Hm.
    assert (n / 10 ≠ 0) as Hne.
    { intros Hz. pose proof (Z.div_mod n 10 ltac:(lia)). lia. }
    split_and!.
    + rewrite forallb_app, H1. simpl. unfold is_ascii_digit. rewrite andb_true_r.
      apply andb_true_intro. split; apply Z.leb_le; lia.
    + by destruct (dec_go fuel (n / 10)).
    + rewrite digits_value_app, H3. unfold digits_value, len; simpl.
      pose proof (Z.div_mod n 10 ltac:(lia)). lia.
    + intros _. specialize (H4 Hne). by destruct (dec_go fuel (n / 10)).
    + lia.
Qed.

Lemma log2_fuel b n : 2 ≤ b → 0 ≤ n → n < b ^ Z.of_nat (S (Z.to_nat (Z.log2 n))).
Proof.
  intros Hb Hn. rewrite Nat2Z.inj_succ, Z2Nat.id by apply Z.log2_nonneg.
  destruct (decide (n = 0)) as [->|Hz]; [simpl; lia|].
  pose proof (Z.log2_spec n ltac:(lia)) as [_ H].
  eapply Z.lt_le_trans; [exact H|]. apply Z.pow_le_mono_l. lia.
Qed.

Lemma print_dec_spec n : 0 ≤ n →
  forallb is_ascii_digit (print_dec n) = true ∧ print_dec n ≠ [] ∧
  digits_value (print_dec n) = n ∧
  (n ≠ 0 → head (print_dec n) ≠ Some 48) ∧ (n = 0 → print_dec n = [48]).
Proof. intros Hn. apply dec_go_value; [|lia]. split; [done|]. by apply log2_fuel. Qed.

Lemma parse_uint_digits max s :
  forallb is_ascii_digit s = true → s ≠ [] →
  parse_uint max s = if digits_value s <=? max then Some (digits_value s) else None.
Proof.
  intros Hd Hne. unfold parse_uint.
  assert (strip_prefix [43] s = None) as ->.
  { destruct s as [|b s]; [done|]. simpl in Hd |- *. apply andb_prop in Hd as [Hb _].
    unfold is_ascii_digit in Hb. case_match; [|done]. blia. }
  simpl. rewrite Hd, bool_decide_eq_false_2 by done. done.
Qed.

(** Printing a bounded integer and parsing it back is the identity. *)
Lemma parse_print_dec max n : 0 ≤ n ≤ max → parse_uint max (print_dec n) = Some n.
Proof.
  intros Hn. destruct (print_dec_spec n ltac:(lia)) as (H1 & H2 & H3 & _).
  rewrite parse_uint_digits by done. rewrite H3.
  by rewrite (proj2 (Z.leb_le n max)) by lia.
Qed.

Lemma parse_uint_bound max s n : parse_uint max s = Some n → 0 ≤ n ≤ max.
Proof.
  unfold parse_uint. case_match; [done|]. case_match; [|done]. intros [= <-].
  destruct_bool. split; [|done]. by apply digits_value_nonneg.
Qed.

Lemma be16_length n : length (be16 n) = 2%nat.
Proof. done. Qed.

Lemma from_be16 n : 0 ≤ n ≤ u16_max → from_be (be16 n) = n.
Proof.
  unfold from_be, be16, u16_max. cbn [foldl]. intros Hn.
  pose proof (Z.div_mod n 256 ltac:(lia)).
  assert (n / 256 < 256) by (apply Z.div_lt_upper_bound; lia).
  assert (0 ≤ n / 256) by (apply Z.div_pos; lia).
  rewrite (Z.mod_small (n / 256) 256) by lia. lia.
Qed.

Lemma from_be32 n : 0 ≤ n ≤ u32_max → from_be (be32 n) = n.
Proof.
  unfold from_be, be32, u32_max. cbn [foldl]. intros Hn.
  pose proof (Z.div_mod n 256 ltac:(lia)).
  pose proof (Z.div_mod (n / 256) 256 ltac:(lia)).
  pose proof (Z.div_mod (n / 65536) 256 ltac:(lia)).
  assert (n / 256 / 256 = n / 65536) by (rewrite Z.div_div by lia; done).
  assert (n / 65536 / 256 = n / 16777216) by (rewrite Z.div_div by lia; done).
  assert (n / 16777216 < 256) by (apply Z.div_lt_upper_bound; lia).
  assert (0 ≤ n / 16777216) by (apply Z.div_pos; lia).
  rewrite (Z.mod_small (n / 16777216) 256) by lia. lia.
Qed.

Lemma len_nonneg {A} (l : list A) : 0 ≤ len l.
Proof. unfold len. lia. Qed.

Lemma len_app {A} (a b : list A) : len (a ++ b) = len a + len b.
Proof. unfold len. rewrite length_app. lia. Qed.

Lemma len_cons {A} (x : A) l : len (x :: l) = 1 + len l.
Proof. unfold len. simpl. lia. Qed.

Lemma len_nil {A} : len (@nil A) = 0.
Proof. done. Qed.

Lemma len_take {A} n (l : list A) : len (take n l) = Z.min (Z.of_nat n) (len l).
Proof. unfold len. rewrite length_take. lia. Qed.

Lemma len_drop {A} n (l : list A) : len (drop n l) = Z.max 0 (len l - Z.of_nat n).
Proof. unfold len. rewrite length_drop. lia. Qed.

Lemma mjoin_cons {A} (x : list A) xs : mjoin (x :: xs) = x ++ mjoin xs.
Proof. done. Qed.

#[export] Hint Resolve len_nonneg : zc.
#[export] Hint Rewrite @len_app @len_cons @len_nil @len_take @len_drop : zc_len.
