(* ===== verification/Utf8.v ===== *)
(** * UTF-8: the byte strings that are Rust [str] values

    [str::from_utf8], [str::chars], [char::is_control], [str::trim] of the Rust
    standard library, which name and password validation and the wire parsers use. *)
From S2P Require Import Prelude.

(** ** Decoding *)

Definition cont (b : Z) : bool := (128 <=? b) && (b <=? 191).
Definition in_range (lo hi b : Z) : bool := (lo <=? b) && (b <=? hi).

(** One scalar value of the front of [s] (the table of [core::str::validations]). *)
Definition decode1 (s : str) : option (Z * str) :=
  match s with
  | [] => None
  | a :: s =>
    if in_range 0 127 a then Some (a, s)
    else match s with
    | [] => None
    | b :: s =>
      if in_range 194 223 a && cont b then Some ((a - 192) * 64 + (b - 128), s)
      else match s with
      | [] => None
      | c :: s =>
        if (((a =? 224) && in_range 160 191 b)
            || (in_range 225 236 a && cont b)
            || ((a =? 237) && in_range 128 159 b)
            || (in_range 238 239 a && cont b)) && cont c
        then Some ((a - 224) * 4096 + (b - 128) * 64 + (c - 128), s)
        else match s with
        | [] => None
        | d :: s =>
          if (((a =? 240) && in_range 144 191 b)
              || (in_range 241 243 a && cont b)
              || ((a =? 244) && in_range 128 143 b)) && cont c && cont d
          then Some ((a - 240) * 262144 + (b - 128) * 4096 + (c - 128) * 64 + (d - 128), s)
          else None
        end
      end
    end
  end.

Fixpoint decode_go (fuel : nat) (s : str) : option (list Z) :=
  match s with
  | [] => Some []
  | _ =>
    match fuel with
    | O => None
    | S fuel =>
      let? '(c, r) := decode1 s in
      let? cs := decode_go fuel r in
      Some (c :: cs)
    end
  end.

Definition utf8_decode (s : str) : option (list Z) := decode_go (length s) s.

(** [str::from_utf8] succeeds. *)
Definition utf8_valid (s : str) : bool := is_some (utf8_decode s).

(** [str::chars] *)
Definition chars (s : str) : list Z := default [] (utf8_decode s).

(** ** Encoding *)

Definition scalar (c : Z) : bool :=
  in_range 0 55295 c || in_range 57344 1114111 c.

Definition encode1 (c : Z) : str :=
  if c <? 128 then [c]
  else if c <? 2048 then [192 + c / 64; 128 + c mod 64]
  else if c <? 65536 then [224 + c / 4096; 128 + c / 64 mod 64; 128 + c mod 64]
  else [240 + c / 262144; 128 + c / 4096 mod 64; 128 + c / 64 mod 64; 128 + c mod 64].

Definition utf8_encode (cs : list Z) : str := mjoin (encode1 <$> cs).

(** [char::len_utf8] *)
Definition len_utf8 (c : Z) : Z := len (encode1 c).

(** ** Character classes *)

(** [char::is_control]: the Unicode category Cc. *)
Definition is_control (c : Z) : bool := in_range 0 31 c || in_range 127 159 c.

(** [char::is_whitespace]: the Unicode property White_Space. *)
Definition is_whitespace (c : Z) : bool :=
  in_range 9 13 c || (c =? 32) || (c =? 133) || (c =? 160) || (c =? 5760)
  || in_range 8192 8202 c || (c =? 8232) || (c =? 8233) || (c =? 8239)
  || (c =? 8287) || (c =? 12288).

(** [str::trim] *)
Definition trim (s : str) : str := utf8_encode (trim_by is_whitespace (chars s)).

(** ** Lemmas *)

Ltac div_mod_facts n :=
  pose proof (Z.div_mod n 64 ltac:(lia));
  pose proof (Z.mod_pos_bound n 64 ltac:(lia)).

Lemma in_range_true lo hi b : in_range lo hi b = true ↔ lo ≤ b ≤ hi.
Proof. unfold in_range. rewrite andb_true_iff, !Z.leb_le. done. Qed.

Lemma in_range_false lo hi b : in_range lo hi b = false ↔ ¬ (lo ≤ b ≤ hi).
Proof. rewrite <- in_range_true. by destruct (in_range lo hi b). Qed.

Lemma encode1_ne c : encode1 c ≠ [].
Proof. unfold encode1. by repeat case_match. Qed.

(** Decoding is prefix-stable: an encoded scalar is read back and what follows is left. *)
Lemma decode1_encode1 c r : scalar c = true → decode1 (encode1 c ++ r) = Some (c, r).
Proof.
  intros Hc. unfold scalar in Hc. rewrite orb_true_iff, !in_range_true in Hc.
  assert (∀ n, n / 64 / 64 = n / 4096) as D1 by (intros; rewrite Z.div_div by lia; done).
  assert (∀ n, n / 4096 / 64 = n / 262144) as D2 by (intros; rewrite Z.div_div by lia; done).
  unfold encode1.
  destruct (c <? 128) eqn:E1; [|destruct (c <? 2048) eqn:E2;
    [|destruct (c <? 65536) eqn:E3]]; destruct_bool; unfold decode1; cbn [app].
  - rewrite (proj2 (in_range_true 0 127 c)) by lia. done.
  - div_mod_facts c.
    rewrite (proj2 (in_range_false 0 127 _)) by lia.
    rewrite (proj2 (in_range_true 194 223 _)) by lia.
    unfold cont. change (128 <=? 128 + c mod 64) with (128 <=? 128 + c mod 64).
    rewrite (proj2 (Z.leb_le 128 _)), (proj2 (Z.leb_le _ 191)) by lia. simpl.
    f_equal. f_equal. lia.
  - div_mod_facts c. div_mod_facts (c / 64). rewrite (D1 c) in *.
    assert (0 ≤ c / 4096 < 16) by lia.
    rewrite (proj2 (in_range_false 0 127 _)) by lia.
    rewrite (proj2 (in_range_false 194 223 _)) by lia. cbn [andb].
    assert (cont (128 + c / 64 mod 64) = true) as C1 by (unfold cont; lia).
    assert (cont (128 + c mod 64) = true) as C2 by (unfold cont; lia).
    rewrite C1, C2, !andb_true_r.
    match goal with |- (if ?b then _ else _) = _ => assert (b = true) as -> end;
      [| f_equal; f_equal; lia].
    unfold in_range. lia.
  - div_mod_facts c. div_mod_facts (c / 64). div_mod_facts (c / 4096).
    rewrite (D1 c) in *. rewrite (D2 c) in *.
    assert (0 ≤ c / 262144 < 5) by lia.
    rewrite (proj2 (in_range_false 0 127 _)) by lia.
    rewrite (proj2 (in_range_false 194 223 _)) by lia. cbn [andb].
    assert (cont (128 + c / 4096 mod 64) = true) as C0 by (unfold cont; lia).
    assert (cont (128 + c / 64 mod 64) = true) as C1 by (unfold cont; lia).
    assert (cont (128 + c mod 64) = true) as C2 by (unfold cont; lia).
    rewrite C0, C1, C2, !andb_true_r.
    match goal with |- (if ?b then _ else _) = _ => assert (b = false) as -> end;
      [unfold in_range; lia|].
    match goal with |- (if ?b then _ else _) = _ => assert (b = true) as -> end;
      [unfold in_range; lia | f_equal; f_equal; lia].
Qed.

Lemma utf8_encode_cons c cs : utf8_encode (c :: cs) = encode1 c ++ utf8_encode cs.
Proof. done. Qed.

Lemma decode_go_encode cs fuel :
  forallb scalar cs = true → (length (utf8_encode cs) ≤ fuel)%nat →
  decode_go fuel (utf8_encode cs) = Some cs.
Proof.
  revert fuel; induction cs as [|c cs IH]; intros fuel Hs Hf.
  - by destruct fuel.
  - simpl in Hs. apply andb_prop in Hs as [Hc Hs].
    rewrite utf8_encode_cons in Hf |- *. rewrite length_app in Hf. pose proof (encode1_ne c) as Hne.
    destruct (encode1 c) as [|b bs] eqn:E; [done|]. destruct fuel as [|fuel]; [simpl in Hf; lia|].
    cbn [app decode_go]. rewrite app_comm_cons, <- E.
    rewrite (decode1_encode1 c _ Hc). rewrite IH; [done|done|]. simpl in Hf. lia.
Qed.

(** Encoding scalar values and decoding them is the identity. *)
Lemma utf8_roundtrip cs :
  forallb scalar cs = true → utf8_decode (utf8_encode cs) = Some cs.
Proof. intros H. by apply decode_go_encode. Qed.

Lemma ascii_decode s : forallb is_ascii s = true → Forall is_byte s → utf8_decode s = Some s.
Proof.
  intros Ha Hb. rewrite <- (utf8_roundtrip s).
  - f_equal. unfold utf8_encode. clear Hb.
    induction s as [|b s IH]; [done|]. simpl in *. apply andb_prop in Ha as [H1 H2].
    unfold encode1 at 1. unfold is_ascii in H1. rewrite H1. simpl. by f_equal; apply IH.
  - induction Hb as [|b s Hb _ IH]; [done|]. simpl in *. apply andb_prop in Ha as [H1 H2].
    apply andb_true_intro. split; [|by apply IH].
    unfold scalar, in_range, is_ascii, is_byte in *. lia.
Qed.

(** Decoding and encoding again gives the bytes back: the encoding is canonical. *)
Lemma encode1_decode1 s c r : decode1 s = Some (c, r) → s = encode1 c ++ r ∧ scalar c = true.
Proof.
  unfold decode1. intros H.
  repeat match goal with
  | H : match ?x with [] => _ | _ :: _ => _ end = Some _ |- _ => destruct x; [done|]
  | H : (if ?b then _ else _) = Some _ |- _ => destruct b eqn:?
  end; simplify_eq; unfold encode1, scalar;
  unfold cont in *;
  repeat progress rewrite ?andb_true_iff, ?orb_true_iff, ?in_range_true, ?Z.eqb_eq, ?Z.leb_le in *.
  - rewrite (proj2 (Z.ltb_lt _ _)) by lia. split; [done|lia].
  - set (x := z - 192) in *. set (y := z0 - 128).
    rewrite (proj2 (Z.ltb_ge (x * 64 + y) 128)), (proj2 (Z.ltb_lt (x * 64 + y) 2048)) by lia.
    split; [|lia].
    assert ((x * 64 + y) / 64 = x) as -> by (Z.div_mod_to_equations; lia).
    assert ((x * 64 + y) mod 64 = y) as -> by (Z.div_mod_to_equations; lia).
    simpl. repeat f_equal; lia.
  - set (v := (z - 224) * 4096 + (z0 - 128) * 64 + (z1 - 128)).
    rewrite (proj2 (Z.ltb_ge v 128)), (proj2 (Z.ltb_ge v 2048)), (proj2 (Z.ltb_lt v 65536)) by lia.
    split; [|lia].
    assert (v / 4096 = z - 224) as -> by (Z.div_mod_to_equations; lia).
    assert (v / 64 mod 64 = z0 - 128) as -> by (Z.div_mod_to_equations; lia).
    assert (v mod 64 = z1 - 128) as -> by (Z.div_mod_to_equations; lia).
    simpl. repeat f_equal; lia.
  - set (v := (z - 240) * 262144 + (z0 - 128) * 4096 + (z1 - 128) * 64 + (z2 - 128)).
    rewrite (proj2 (Z.ltb_ge v 128)), (proj2 (Z.ltb_ge v 2048)), (proj2 (Z.ltb_ge v 65536)) by lia.
    split; [|lia].
    assert (v / 262144 = z - 240) as -> by (Z.div_mod_to_equations; lia).
    assert (v / 4096 mod 64 = z0 - 128) as -> by (Z.div_mod_to_equations; lia).
    assert (v / 64 mod 64 = z1 - 128) as -> by (Z.div_mod_to_equations; lia).
    assert (v mod 64 = z2 - 128) as -> by (Z.div_mod_to_equations; lia).
    simpl. repeat f_equal; lia.
Qed.

Lemma decode_go_inv fuel s cs :
  decode_go fuel s = Some cs → s = utf8_encode cs ∧ forallb scalar cs = true.
Proof.
  revert s cs. induction fuel as [|fuel IH]; intros [|b s] cs H; cbn [decode_go] in H; simplify_eq; try by split.
  destruct (decode1 (b :: s)) as [[c r]|] eqn:E; [|done].
  destruct (decode_go fuel r) as [cs'|] eqn:Er; [|done]. simplify_eq.
  apply encode1_decode1 in E as [-> Hc]. apply IH in Er as [-> Hs].
  rewrite utf8_encode_cons. simpl. by rewrite Hc.
Qed.

Lemma utf8_decode_inv s cs : utf8_decode s = Some cs → s = utf8_encode cs ∧ forallb scalar cs = true.
Proof. apply decode_go_inv. Qed.

(** ** Trimming removes a prefix and a suffix *)

Lemma trim_start_by_suffix f (s : list Z) : ∃ p, s = p ++ trim_start_by f s.
Proof.
  induction s as [|b s [p IH]]; simpl; [by exists []|]. destruct (f b); [|by exists []].
  exists (b :: p). simpl. by f_equal.
Qed.

Lemma trim_by_infix f (s : list Z) : ∃ p q, s = p ++ trim_by f s ++ q.
Proof.
  destruct (trim_start_by_suffix f s) as [p Hp].
  destruct (trim_start_by_suffix f (reverse (trim_start_by f s))) as [q Hq].
  exists p, (reverse q). unfold trim_by, trim_end_by. rewrite Hp at 1. f_equal.
  rewrite <- reverse_app, <- Hq. by rewrite reverse_involutive.
Qed.

Lemma trim_by_length f (s : list Z) : (length (trim_by f s) ≤ length s)%nat.
Proof. destruct (trim_by_infix f s) as (p & q & H). rewrite H at 2. rewrite !length_app. lia. Qed.

Lemma trim_by_elem f (s : list Z) b : b ∈ trim_by f s → b ∈ s.
Proof. destruct (trim_by_infix f s) as (p & q & H). rewrite H at 2. set_solver. Qed.

Lemma utf8_encode_app a b : utf8_encode (a ++ b) = utf8_encode a ++ utf8_encode b.
Proof. unfold utf8_encode. by rewrite fmap_app, join_app. Qed.

Lemma trim_infix s : ∃ p q, s = p ++ trim s ++ q ∨ trim s = [].
Proof.
  unfold trim, chars. destruct (utf8_decode s) as [cs|] eqn:E; simpl; [|exists [], []; by right].
  apply utf8_decode_inv in E as [-> _]. destruct (trim_by_infix is_whitespace cs) as (p & q & H).
  exists (utf8_encode p), (utf8_encode q). left. rewrite H at 1. by rewrite !utf8_encode_app.
Qed.

Lemma trim_length s : (length (trim s) ≤ length s)%nat.
Proof.
  destruct (trim_infix s) as (p & q & [H|H]); [|rewrite H; simpl; lia].
  rewrite H at 2. rewrite !length_app. lia.
Qed.

Lemma trim_elem s b : b ∈ trim s → b ∈ s.
Proof.
  destruct (trim_infix s) as (p & q & [H|H]); [rewrite H at 2; set_solver|].
  rewrite H. by intros ?%not_elem_of_nil.
Qed.

(** ** Texts whose characters satisfy a predicate *)

Definition text (P : Z → Prop) (s : str) : Prop := ∃ cs, utf8_decode s = Some cs ∧ Forall P cs.

Lemma text_encode (P : Z → Prop) cs : forallb scalar cs = true → Forall P cs → text P (utf8_encode cs).
Proof. intros Hs HP. exists cs. split; [by apply utf8_roundtrip|done]. Qed.

Lemma text_app P a b : text P a → text P b → text P (a ++ b).
Proof.
  intros (ca & [-> Ha]%utf8_decode_inv & HPa) (cb & [-> Hb]%utf8_decode_inv & HPb).
  rewrite <- utf8_encode_app. apply text_encode; [by rewrite forallb_app, Ha, Hb|by apply Forall_app].
Qed.

Lemma text_mono (P Q : Z → Prop) s : (∀ c, P c → Q c) → text P s → text Q s.
Proof. intros H (cs & ? & ?). exists cs. split; [done|]. by eapply Forall_impl. Qed.

Lemma text_chars P s : text P s → Forall P (chars s).
Proof. intros (cs & H & HP). unfold chars. by rewrite H. Qed.

Lemma text_nil P : text P [].
Proof. by exists []. Qed.

Lemma chars_scalar s : forallb scalar (chars s) = true.
Proof. unfold chars. destruct (utf8_decode s) eqn:E; [|done]. by apply utf8_decode_inv in E as [_ ?]. Qed.

Lemma chars_encode s : utf8_valid s = true → utf8_encode (chars s) = s.
Proof.
  unfold utf8_valid, chars. destruct (utf8_decode s) eqn:E; [|done]. intros _.
  by apply utf8_decode_inv in E as [-> _].
Qed.

Lemma encode_ascii s : Forall (λ b, 0 ≤ b < 128) s → utf8_encode s = s.
Proof.
  induction 1 as [|b s Hb _ IH]; [done|]. rewrite utf8_encode_cons, IH. unfold encode1.
  by rewrite (proj2 (Z.ltb_lt b 128)) by lia.
Qed.

Lemma text_ascii (P : Z → Prop) s : Forall (λ b, 0 ≤ b < 128) s → Forall P s → text P s.
Proof.
  intros Ha HP. rewrite <- (encode_ascii s Ha). apply text_encode; [|done].
  apply forallb_forall. intros b Hb. apply list_elem_of_In in Hb. rewrite Forall_forall in Ha.
  specialize (Ha b Hb). unfold scalar. apply orb_true_iff. left. apply in_range_true. lia.
Qed.

(** A literal whose bytes pass a test that implies [P]. *)
Lemma text_lit (P : Z → Prop) (f : Z → bool) s :
  (∀ b, 0 ≤ b < 128 → f b = true → P b) →
  forallb (λ b, (0 <=? b) && (b <? 128) && f b) s = true → text P s.
Proof.
  intros Hf H. rewrite forallb_forall in H.
  apply text_ascii; apply Forall_forall; intros b Hb; apply list_elem_of_In, H in Hb; destruct_bool;
    [lia|apply Hf; [lia|done]].
Qed.
