(* ===== verification/Net.v ===== *)
(** * IP and socket addresses

    [std::net::IpAddr] and [SocketAddr] of the Rust standard library: the textual
    parser ([core::net::parser]) and the [Display] printers, which every routing
    decision, DNS pin and registry snapshot of zc goes through. *)
From S2P Require Import Prelude.

(** ** Data *)

Inductive IpAddr :=
| V4 (a b c d : Z)
| V6 (segments : list Z).

#[export] Instance IpAddr_eq_dec : EqDecision IpAddr.
Proof. solve_decision. Defined.

Record SocketAddr := mkSocketAddr { sa_ip : IpAddr; sa_port : Z }.

#[export] Instance SocketAddr_eq_dec : EqDecision SocketAddr.
Proof. solve_decision. Defined.

Definition is_ipv4 (ip : IpAddr) : bool := match ip with V4 _ _ _ _ => true | V6 _ => false end.

(** [u32::from(Ipv4Addr)] *)
Definition v4_u32 (a b c d : Z) : Z := a * 16777216 + b * 65536 + c * 256 + d.

Definition is_loopback (ip : IpAddr) : bool :=
  match ip with
  | V4 a _ _ _ => a =? 127
  | V6 segs => bool_decide (segs = [0; 0; 0; 0; 0; 0; 0; 1])
  end.

Definition is_unspecified (ip : IpAddr) : bool :=
  match ip with
  | V4 a b c d => bool_decide ([a; b; c; d] = [0; 0; 0; 0])
  | V6 segs => bool_decide (segs = [0; 0; 0; 0; 0; 0; 0; 0])
  end.

(** The values the Rust types can hold. *)
Definition octet (z : Z) : Prop := 0 ≤ z ≤ 255.
Definition ip_wf (ip : IpAddr) : Prop :=
  match ip with
  | V4 a b c d => octet a ∧ octet b ∧ octet c ∧ octet d
  | V6 segs => length segs = 8%nat ∧ Forall (λ s, 0 ≤ s ≤ 65535) segs
  end.

(** ** The parser *)

Definition to_digit (radix b : Z) : option Z :=
  if radix =? 10 then (if is_ascii_digit b then Some (b - 48) else None) else hex_value b.

Fixpoint read_digits (radix acc : Z) (count : nat) (s : str) : Z * nat * str :=
  match s with
  | [] => (acc, count, [])
  | b :: s' =>
      match to_digit radix b with
      | Some d => read_digits radix (acc * radix + d) (S count) s'
      | None => (acc, count, s)
      end
  end.

Definition read_number (radix : Z) (max_digits : option nat) (zero_prefix : bool) (max : Z)
    (s : str) : option (Z * str) :=
  let '(v, count, rest) := read_digits radix 0 0 s in
  if is_some_and max_digits (λ m, (m <? count)%nat) then None
  else if (count =? 0)%nat then None
  else if negb zero_prefix && bool_decide (head s = Some 48) && (1 <? count)%nat then None
  else if v <=? max then Some (v, rest) else None.

Definition read_given (c : Z) (s : str) : option str :=
  match s with b :: s' => if b =? c then Some s' else None | [] => None end.

(** [read_separator(sep, index, inner)]: the separator is read unless it is the first. *)
Definition read_separator {A} (sep : Z) (first : bool) (inner : str → option (A * str))
    (s : str) : option (A * str) :=
  if first then inner s else let? s' := read_given sep s in inner s'.

Definition read_octet : str → option (Z * str) := read_number 10 (Some 3%nat) false 255.

Definition read_ipv4_addr (s : str) : option (Z * Z * Z * Z * str) :=
  let? '(a, s) := read_octet s in
  let? '(b, s) := read_separator 46 false read_octet s in
  let? '(c, s) := read_separator 46 false read_octet s in
  let? '(d, s) := read_separator 46 false read_octet s in
  Some (a, b, c, d, s).

Definition read_ipv4_pair (s : str) : option ((Z * Z) * str) :=
  let? '(a, b, c, d, s) := read_ipv4_addr s in Some ((a * 256 + b, c * 256 + d), s).

Definition read_segment : str → option (Z * str) := read_number 16 (Some 4%nat) true 65535.

(** Reads at most [k] groups; the flag says that they end in an embedded IPv4 address. *)
Fixpoint read_groups (first : bool) (k : nat) (s : str) : list Z * bool * str :=
  match k with
  | O => ([], false, s)
  | S k' =>
      let v4 := if (1 <=? k')%nat then read_separator 58 first read_ipv4_pair s else None in
      match v4 with
      | Some ((x, y), r) => ([x; y], true, r)
      | None =>
          match read_separator 58 first read_segment s with
          | Some (g, r) => let '(gs, b, r') := read_groups false k' r in (g :: gs, b, r')
          | None => ([], false, s)
          end
      end
  end.

Definition read_ipv6_addr (s : str) : option (list Z * str) :=
  let '(front, v4, r) := read_groups true 8 s in
  if (length front =? 8)%nat then Some (front, r)
  else if v4 then None
  else
    let? r := read_given 58 r in
    let? r := read_given 58 r in
    let '(tail, _, r) := read_groups true (8 - (length front + 1)) r in
    Some (front ++ replicate (8 - length front - length tail) 0 ++ tail, r).

Definition parse_ipv6 (s : str) : option IpAddr :=
  match read_ipv6_addr s with Some (segs, []) => Some (V6 segs) | _ => None end.

(** [str::parse::<IpAddr>()] *)
Definition parse_ip (s : str) : option IpAddr :=
  match read_ipv4_addr s with
  | Some (a, b, c, d, []) => Some (V4 a b c d)
  | Some _ => None
  | None => parse_ipv6 s
  end.

Definition read_port (s : str) : option (Z * str) :=
  let? s := read_given 58 s in read_number 10 None true 65535 s.

(** [str::parse::<SocketAddr>()] for addresses without a scope identifier. *)
Definition parse_socket_addr (s : str) : option SocketAddr :=
  match (let? '(a, b, c, d, r) := read_ipv4_addr s in
         let? '(p, r) := read_port r in Some (a, b, c, d, p, r)) with
  | Some (a, b, c, d, p, []) => Some (mkSocketAddr (V4 a b c d) p)
  | Some _ => None
  | None =>
      let? r := read_given 91 s in
      let? '(segs, r) := read_ipv6_addr r in
      let? r := read_given 93 r in
      match read_port r with
      | Some (p, []) => Some (mkSocketAddr (V6 segs) p)
      | _ => None
      end
  end.

(** ** The printers *)

Definition print_v4 (a b c d : Z) : str :=
  print_dec a ++ 46 :: print_dec b ++ 46 :: print_dec c ++ 46 :: print_dec d.

(** [fmt_subslice] *)
Fixpoint fmt_segments (segs : list Z) : str :=
  match segs with
  | [] => []
  | [s] => print_hex s
  | s :: rest => print_hex s ++ 58 :: fmt_segments rest
  end.

(** The longest, first run of zero segments as (start, length). *)
Definition span_step (st : nat * (nat * nat) * (nat * nat)) (seg : Z) :=
  let '(i, longest, current) := st in
  if seg =? 0 then
    let current := if (current.2 =? 0)%nat then (i, 1%nat) else (current.1, S current.2) in
    (S i, (if (longest.2 <? current.2)%nat then current else longest), current)
  else (S i, longest, (0, 0)%nat).

Definition zero_span (segs : list Z) : nat * nat :=
  (foldl span_step (0, (0, 0), (0, 0))%nat segs).1.2.

(** [Ipv6Addr::to_ipv4_mapped]: the last two segments of a mapped address. *)
Definition to_ipv4_mapped (segs : list Z) : option (Z * Z) :=
  if bool_decide (take 6 segs = [0; 0; 0; 0; 0; 65535])
  then match drop 6 segs with [x; y] => Some (x, y) | _ => None end
  else None.

Definition print_v6_plain (segs : list Z) : str :=
  let '(start, n) := zero_span segs in
  if (1 <? n)%nat
  then fmt_segments (take start segs) ++ [58; 58] ++ fmt_segments (drop (start + n) segs)
  else fmt_segments segs.

Definition print_v6 (segs : list Z) : str :=
  match to_ipv4_mapped segs with
  | Some (x, y) => lit "::ffff:" ++ print_v4 (x / 256) (x mod 256) (y / 256) (y mod 256)
  | None => print_v6_plain segs
  end.

(** [IpAddr::to_string] *)
Definition print_ip (ip : IpAddr) : str :=
  match ip with
  | V4 a b c d => print_v4 a b c d
  | V6 segs => print_v6 segs
  end.

(** [SocketAddr::to_string] *)
Definition print_socket_addr (a : SocketAddr) : str :=
  match sa_ip a with
  | V4 _ _ _ _ => print_ip (sa_ip a) ++ 58 :: print_dec (sa_port a)
  | V6 _ => 91 :: print_ip (sa_ip a) ++ 93 :: 58 :: print_dec (sa_port a)
  end.

Example print_v6_ex : print_ip (V6 [8193; 3512; 0; 0; 0; 0; 0; 1]) = lit "2001:db8::1".
Proof. reflexivity. Qed.

Example parse_v6_ex : parse_ip (lit "::ffff:1.2.3.4") = Some (V6 [0;0;0;0;0;65535;258;772]).
Proof. reflexivity. Qed.

Example parse_leading_zero : parse_ip (lit "127.0.0.01") = None.
Proof. reflexivity. Qed.

(** ** Reading back one number *)

Definition radix_value (radix acc : Z) (w : str) : Z :=
  foldl (λ a b, a * radix + default 0 (to_digit radix b)) acc w.

(** [w] is a numeral of [radix], and [r] does not continue it. *)
Definition numeral (radix : Z) (w : str) : Prop := Forall (λ b, is_Some (to_digit radix b)) w.
Definition stops (radix : Z) (r : str) : Prop :=
  match r with [] => True | b :: _ => to_digit radix b = None end.

Lemma read_digits_app radix w r acc n :
  numeral radix w → stops radix r →
  read_digits radix acc n (w ++ r) = (radix_value radix acc w, (n + length w)%nat, r).
Proof.
  intros Hw Hr. revert acc n. induction Hw as [|b w [d Hd] _ IH]; intros acc n; simpl.
  - rewrite Nat.add_0_r. destruct r as [|b r]; [done|]. simpl in Hr |- *. by rewrite Hr.
  - rewrite Hd. simpl. rewrite IH. f_equal. f_equal. lia.
Qed.

Lemma dec_go_length fuel k n : (0 < k)%nat → n < 10 ^ Z.of_nat k → (length (dec_go fuel n) ≤ k)%nat.
Proof.
  revert k n; induction fuel as [|fuel IH]; intros k n Hk Hn; simpl; [lia|].
  case_match; simpl; [lia|]. destruct_bool. rewrite length_app. simpl.
  destruct k as [|[|k]]; [lia|simpl in Hn; lia|].
  assert (length (dec_go fuel (n / 10)) ≤ S k)%nat; [|lia].
  apply IH; [lia|]. rewrite Nat2Z.inj_succ, Z.pow_succ_r in Hn by lia.
  apply Z.div_lt_upper_bound; lia.
Qed.

Lemma hex_digit_value d : 0 ≤ d < 16 → hex_value (hex_digit d) = Some d.
Proof.
  intros Hd. unfold hex_digit, hex_value, is_ascii_digit. destruct (d <? 10) eqn:E; destruct_bool.
  - rewrite (proj2 (Z.leb_le 48 _)), (proj2 (Z.leb_le _ 57)) by lia. simpl. f_equal. lia.
  - rewrite (proj2 (Z.leb_le 48 _)), (proj2 (Z.leb_gt _ 57)) by lia. simpl.
    rewrite (proj2 (Z.leb_le 97 _)), (proj2 (Z.leb_le _ 102)) by lia. simpl. f_equal. lia.
Qed.

Lemma radix_value_app radix acc a b :
  radix_value radix acc (a ++ b) = radix_value radix (radix_value radix acc a) b.
Proof. unfold radix_value. by rewrite foldl_app. Qed.

Lemma hex_go_spec fuel n :
  0 ≤ n < 16 ^ Z.of_nat fuel → (0 < fuel)%nat →
  numeral 16 (hex_go fuel n) ∧ hex_go fuel n ≠ [] ∧ radix_value 16 0 (hex_go fuel n) = n.
Proof.
  revert n; induction fuel as [|fuel IH]; intros n Hn Hf; [lia|]. simpl.
  destruct (n <? 16) eqn:E; destruct_bool.
  - assert (to_digit 16 (hex_digit n) = Some n) as Hd by (apply hex_digit_value; lia).
    split_and!; [|done|].
    + constructor; [by exists n|constructor].
    + unfold radix_value. cbn [foldl]. rewrite Hd. simpl. lia.
  - assert (0 ≤ n / 16 < 16 ^ Z.of_nat fuel) as Hq.
    { rewrite Nat2Z.inj_succ, Z.pow_succ_r in Hn by lia.
      split; [apply Z.div_pos; lia|]. apply Z.div_lt_upper_bound; lia. }
    assert (0 < fuel)%nat as Hf' by (destruct fuel; [simpl in Hn; lia | lia]).
    destruct (IH (n / 16) Hq Hf') as (H1 & H2 & H3).
    pose proof (Z.mod_pos_bound n 16 ltac:(lia)) as Hm.
    assert (to_digit 16 (hex_digit (n mod 16)) = Some (n mod 16)) as Hd
      by (apply hex_digit_value; lia).
    split_and!.
    + apply Forall_app. split; [done|]. constructor; [by eexists|constructor].
    + by destruct (hex_go fuel (n / 16)).
    + rewrite radix_value_app, H3. unfold radix_value. cbn [foldl]. rewrite Hd. simpl.
      pose proof (Z.div_mod n 16 ltac:(lia)). lia.
Qed.

Lemma hex_go_length fuel k n : (0 < k)%nat → n < 16 ^ Z.of_nat k → (length (hex_go fuel n) ≤ k)%nat.
Proof.
  revert k n; induction fuel as [|fuel IH]; intros k n Hk Hn; simpl; [lia|].
  case_match; simpl; [lia|]. destruct_bool. rewrite length_app. simpl.
  destruct k as [|[|k]]; [lia|simpl in Hn; lia|].
  assert (length (hex_go fuel (n / 16)) ≤ S k)%nat; [|lia].
  apply IH; [lia|]. rewrite Nat2Z.inj_succ, Z.pow_succ_r in Hn by lia.
  apply Z.div_lt_upper_bound; lia.
Qed.

Lemma print_hex_spec n : 0 ≤ n ≤ 65535 →
  numeral 16 (print_hex n) ∧ print_hex n ≠ [] ∧ radix_value 16 0 (print_hex n) = n ∧
  (length (print_hex n) ≤ 4)%nat.
Proof.
  intros Hn. destruct (hex_go_spec (S (Z.to_nat (Z.log2 n))) n) as (H1 & H2 & H3).
  - split; [lia|]. apply log2_fuel; lia.
  - lia.
  - split_and!; [done..|]. apply hex_go_length; [lia|]. simpl. lia.
Qed.

Lemma pad_left_length w c s : (length s ≤ w)%nat → length (pad_left w c s) = w.
Proof.
  induction w as [|w IH]; simpl; intros Hl; [lia|]. destruct (_ <? _)%nat eqn:E.
  - apply Nat.ltb_lt in E. simpl. f_equal. apply IH. lia.
  - apply Nat.ltb_ge in E. lia.
Qed.

Lemma pad_left_value w s : radix_value 16 0 (pad_left w 48 s) = radix_value 16 0 s.
Proof.
  induction w as [|w IH]; simpl; [done|]. destruct (_ <? _)%nat; [|done].
  change (radix_value 16 0 (48 :: pad_left w 48 s)) with (radix_value 16 0 (pad_left w 48 s)). done.
Qed.

Lemma print_hex_value n : 0 ≤ n → radix_value 16 0 (print_hex n) = n.
Proof. intros Hn. apply hex_go_spec; [|lia]. split; [done|]. by apply log2_fuel. Qed.

(** Padding and printing give digits. *)
Lemma pad_left_Forall w c s (P : Z → Prop) : P c → Forall P s → Forall P (pad_left w c s).
Proof.
  intros Hc Hs. induction w as [|w IH]; simpl; [done|]. destruct (_ <? _)%nat; [by constructor|done].
Qed.

Lemma digit_to_digit b : is_ascii_digit b = true → to_digit 10 b = Some (b - 48).
Proof. intros H. unfold to_digit. simpl. by rewrite H. Qed.

Lemma radix_value_digits w z : forallb is_ascii_digit w = true →
  radix_value 10 z w = foldl (λ acc b, acc * 10 + (b - 48)) z w.
Proof.
  unfold radix_value. revert z. induction w as [|b w IH]; intros z Hw; [done|].
  cbn [forallb] in Hw. apply andb_prop in Hw as [Hb Hw]. cbn [foldl].
  rewrite (digit_to_digit b Hb). by apply IH.
Qed.

Lemma print_dec_numeral n : 0 ≤ n →
  numeral 10 (print_dec n) ∧ radix_value 10 0 (print_dec n) = n.
Proof.
  intros Hn. destruct (print_dec_spec n Hn) as (H1 & _ & H3 & _). split.
  - apply Forall_forall. intros b Hb. rewrite forallb_forall in H1.
    rewrite digit_to_digit; [done|]. apply H1. by apply list_elem_of_In.
  - rewrite <- H3 at 2. by apply radix_value_digits.
Qed.

Lemma read_segment_print n r :
  0 ≤ n ≤ 65535 → stops 16 r → read_segment (print_hex n ++ r) = Some (n, r).
Proof.
  intros Hn Hr. destruct (print_hex_spec n Hn) as (H1 & H2 & H3 & H4).
  unfold read_segment, read_number. rewrite read_digits_app by done. simpl.
  rewrite H3. destruct (print_hex n) as [|b w] eqn:E; [done|].
  rewrite (proj2 (Nat.ltb_ge _ _)) by done. simpl.
  by rewrite (proj2 (Z.leb_le n 65535)) by lia.
Qed.

Lemma read_dec_print max md n r :
  0 ≤ n ≤ max → stops 10 r → is_some_and md (λ m, (m <? length (print_dec n))%nat) = false →
  ∀ zp, read_number 10 md zp max (print_dec n ++ r) = Some (n, r).
Proof.
  intros Hn Hr Hl zp. destruct (print_dec_numeral n ltac:(lia)) as [H1 H3].
  destruct (print_dec_spec n ltac:(lia)) as (_ & H2 & _ & H4 & H5).
  unfold read_number. rewrite read_digits_app by done. simpl. rewrite H3, Hl.
  destruct (decide (n = 0)) as [->|Hz].
  - rewrite (H5 eq_refl). simpl. rewrite andb_false_r.
    by rewrite (proj2 (Z.leb_le 0 max)) by lia.
  - specialize (H4 Hz). destruct (print_dec n) as [|b w]; [done|]. simpl in H4 |- *.
    rewrite bool_decide_eq_false_2 by done. rewrite andb_false_r. simpl.
    by rewrite (proj2 (Z.leb_le n max)) by lia.
Qed.

Lemma read_octet_print n r : octet n → stops 10 r → read_octet (print_dec n ++ r) = Some (n, r).
Proof.
  intros Hn Hr. unfold octet in Hn. apply read_dec_print; [lia|done|]. simpl.
  apply Nat.ltb_ge. apply dec_go_length; [lia|]. simpl. lia.
Qed.

Lemma read_v4_print a b c d r :
  octet a → octet b → octet c → octet d → stops 10 r →
  read_ipv4_addr (print_v4 a b c d ++ r) = Some (a, b, c, d, r).
Proof.
  intros. unfold read_ipv4_addr, print_v4.
  repeat (rewrite <- app_assoc; cbn [app]).
  rewrite (read_octet_print a) by done. unfold read_separator, read_given. rewrite Z.eqb_refl.
  rewrite (read_octet_print b) by done. rewrite Z.eqb_refl.
  rewrite (read_octet_print c) by done. rewrite Z.eqb_refl.
  by rewrite (read_octet_print d) by done.
Qed.

(** ** Reading back an IPv6 address *)

Fixpoint sep_text (gs : list Z) : str :=
  match gs with [] => [] | g :: gs => 58 :: print_hex g ++ sep_text gs end.

(** What may follow printed segments: nothing, a colon or a closing bracket. *)
Definition seg_end (r : str) : Prop :=
  match r with [] => True | b :: _ => b = 58 ∨ b = 93 end.

(** What ends the list of segments: nothing, a double colon or a closing bracket. *)
Definition list_end (r : str) : Prop :=
  match r with [] => True | 58 :: r' => head r' = Some 58 | b :: _ => b = 93 end.

Lemma seg_end_stops r : seg_end r → stops 16 r ∧ stops 10 r.
Proof. destruct r as [|b r]; [done|]. by intros [-> | ->]. Qed.

Lemma list_end_seg r : list_end r → seg_end r.
Proof.
  destruct r as [|b r]; [done|]. intros H.
  destruct (decide (b = 58)) as [->|Hb]; [by left|]. right.
  destruct b as [|p|p]; [done| |done]. simpl in H.
  repeat (destruct p as [p|p|]; try done).
Qed.

Lemma list_end_colon r : list_end (58 :: r) → head r = Some 58.
Proof. done. Qed.

Lemma fmt_segments_cons g gs : fmt_segments (g :: gs) = print_hex g ++ sep_text gs.
Proof.
  revert g; induction gs as [|h gs IH]; intros g; [by rewrite app_nil_r|].
  change (fmt_segments (g :: h :: gs)) with (print_hex g ++ 58 :: fmt_segments (h :: gs)).
  by rewrite IH.
Qed.

Lemma sep_text_end gs r : seg_end r → seg_end (sep_text gs ++ r).
Proof. destruct gs; [done|]. simpl. by left. Qed.

Lemma read_digits_rest w r acc n :
  numeral 16 w → stops 10 r →
  ∃ v k w', read_digits 10 acc n (w ++ r) = (v, k, w' ++ r) ∧ numeral 16 w'.
Proof.
  intros Hw Hr. revert acc n. induction Hw as [|b w Hb Hw IH]; intros acc n.
  - exists acc, n, []. split; [|constructor]. destruct r as [|b r]; [done|]. simpl in Hr |- *.
    by rewrite Hr.
  - cbn [app read_digits]. destruct (to_digit 10 b); [apply IH|].
    exists acc, n, (b :: w). split; [done|by constructor].
Qed.

Lemma hex_not_dot b : is_Some (to_digit 16 b) → b ≠ 46.
Proof. intros [d Hd] ->. done. Qed.

Lemma read_v4_hex_fails w r :
  numeral 16 w → seg_end r → read_ipv4_addr (w ++ r) = None.
Proof.
  intros Hw Hr. unfold read_ipv4_addr, read_octet, read_number.
  destruct (read_digits_rest w r 0 0 Hw (proj2 (seg_end_stops r Hr))) as (v & k & w' & -> & Hw').
  repeat (case_match; try done). simplify_eq. unfold read_separator in *.
  destruct w' as [|b w']; simpl in *.
  - destruct r as [|b r]; simplify_eq. simpl in *. destruct Hr as [-> | ->]; simplify_eq.
  - inversion Hw'; subst. pose proof (hex_not_dot b ltac:(done)).
    destruct (b =? 46) eqn:Eb; [blia|]. simplify_eq.
Qed.

Lemma list_end_blocks r first :
  list_end r → read_separator 58 first read_ipv4_pair r = None ∧
               read_separator 58 first read_segment r = None.
Proof.
  intros H. pose proof (list_end_seg r H) as Hs.
  destruct r as [|b r]; [by destruct first|].
  destruct Hs as [-> | ->]; [|by destruct first].
  apply list_end_colon in H. destruct r as [|c r]; [done|]. simpl in H. simplify_eq.
  by destruct first.
Qed.

Lemma read_v4_pair_fails g gs r :
  0 ≤ g ≤ 65535 → seg_end r → read_ipv4_pair (print_hex g ++ sep_text gs ++ r) = None.
Proof.
  intros Hg Hr. unfold read_ipv4_pair. rewrite read_v4_hex_fails; [done| |].
  - by apply print_hex_spec.
  - by apply sep_text_end.
Qed.

Lemma read_groups_sep gs k r :
  Forall (λ s, 0 ≤ s ≤ 65535) gs → (length gs ≤ k)%nat → list_end r →
  read_groups false k (sep_text gs ++ r) = (gs, false, r).
Proof.
  intros Hgs. revert k. induction Hgs as [|g gs Hg Hgs IH]; intros k Hk Hr; simpl in Hk.
  - destruct k as [|k]; [done|]. cbn [sep_text app read_groups].
    destruct (list_end_blocks r false Hr) as [-> ->]. by destruct k.
  - destruct k as [|k]; [lia|]. cbn [sep_text app read_groups].
    rewrite <- app_assoc. unfold read_separator, read_given. rewrite Z.eqb_refl.
    pose proof (list_end_seg r Hr) as Hs. rewrite read_v4_pair_fails by done.
    rewrite read_segment_print; [|done|by apply seg_end_stops, sep_text_end].
    rewrite IH; [by destruct k|lia|done].
Qed.

Lemma read_groups_fmt gs k r :
  Forall (λ s, 0 ≤ s ≤ 65535) gs → (length gs ≤ k)%nat → list_end r →
  read_groups true k (fmt_segments gs ++ r) = (gs, false, r).
Proof.
  intros Hgs Hk Hr. destruct k as [|k]; [by destruct gs; [|simpl in Hk; lia]|].
  destruct Hgs as [|g gs Hg Hgs]; simpl in Hk.
  - cbn [fmt_segments app read_groups].
    destruct (list_end_blocks r true Hr) as [-> ->]. by destruct k.
  - rewrite fmt_segments_cons, <- app_assoc. cbn [read_groups].
    pose proof (list_end_seg r Hr) as Hs.
    unfold read_separator. rewrite read_v4_pair_fails by done.
    rewrite read_segment_print; [|done|by apply seg_end_stops, sep_text_end].
    rewrite read_groups_sep; [by destruct k|done|lia|done].
Qed.

Lemma read_v6_full segs r :
  length segs = 8%nat → Forall (λ s, 0 ≤ s ≤ 65535) segs → list_end r →
  read_ipv6_addr (fmt_segments segs ++ r) = Some (segs, r).
Proof.
  intros Hl Hs Hr. unfold read_ipv6_addr. rewrite read_groups_fmt by (done || lia).
  by rewrite Hl.
Qed.

Lemma read_v6_compressed front tail n r :
  (length front + n + length tail = 8)%nat → (1 < n)%nat →
  Forall (λ s, 0 ≤ s ≤ 65535) front → Forall (λ s, 0 ≤ s ≤ 65535) tail → list_end r →
  read_ipv6_addr (fmt_segments front ++ 58 :: 58 :: fmt_segments tail ++ r)
  = Some (front ++ replicate n 0 ++ tail, r).
Proof.
  intros Hl Hn Hf Ht Hr. unfold read_ipv6_addr.
  rewrite (read_groups_fmt front 8) by (done || lia).
  rewrite (proj2 (Nat.eqb_neq _ _)) by lia. unfold read_given.
  do 2 (rewrite Z.eqb_refl; cbv iota beta).
  rewrite read_groups_fmt by (done || lia).
  by replace (8 - length front - length tail)%nat with n by lia.
Qed.

(** ** The run of zeros that is compressed *)

(** [(start, n)] is a run of zero segments of [l] that ends at or before [i]. *)
Definition zero_run (l : list Z) (i : nat) (run : nat * nat) : Prop :=
  (run.1 + run.2 ≤ i)%nat ∧ take run.2 (drop run.1 l) = replicate run.2 0.

Lemma span_fold_inv done rest i longest current :
  i = length done → zero_run (done ++ rest) i longest →
  (current.2 ≠ 0%nat → (current.1 + current.2 = i)%nat) →
  zero_run (done ++ rest) i current →
  zero_run (done ++ rest) (length (done ++ rest)) (foldl span_step (i, longest, current) rest).1.2.
Proof.
  revert done i longest current. induction rest as [|s rest IH]; intros done i longest current Hi Hl Hc Hr.
  - simpl. rewrite app_nil_r in *. by rewrite <- Hi.
  - replace (done ++ s :: rest) with ((done ++ [s]) ++ rest) in * by (by rewrite <- app_assoc).
    cbn [foldl]. unfold span_step at 2. destruct (s =? 0) eqn:Es; destruct_bool.
    + set (cur := if (current.2 =? 0)%nat then (i, 1%nat) else (current.1, S current.2)).
      assert (zero_run ((done ++ [s]) ++ rest) (S i) cur) as Hcur.
      { unfold cur. destruct (current.2 =? 0)%nat eqn:E0; unfold zero_run; simpl.
        - split; [lia|]. rewrite drop_app_le by (rewrite length_app; simpl; lia).
          rewrite drop_app_length' by done. simpl. by subst s.
        - apply Nat.eqb_neq in E0. specialize (Hc E0). destruct Hr as [_ Hr].
          split; [lia|]. rewrite take_S_r with (x := 0).
          + rewrite Hr. by rewrite <- replicate_S_end.
          + rewrite lookup_drop, Hc. rewrite lookup_app_l by (rewrite length_app; simpl; lia).
            rewrite lookup_app_r by lia. replace (i - length done)%nat with 0%nat by lia.
            simpl. by subst s. }
      apply IH.
      * rewrite length_app. simpl. lia.
      * case_match; [done|]. destruct Hl as [H1 H2]. split; [lia|done].
      * intros _. unfold cur. destruct (current.2 =? 0)%nat eqn:E0; simpl; [lia|].
        apply Nat.eqb_neq in E0. specialize (Hc E0). lia.
      * done.
    + apply IH.
      * rewrite length_app. simpl. lia.
      * destruct Hl as [H1 H2]. split; [lia|done].
      * simpl. lia.
      * split; [simpl; lia|done].
Qed.

Lemma zero_span_run segs start n :
  zero_span segs = (start, n) →
  (start + n ≤ length segs)%nat ∧
  segs = take start segs ++ replicate n 0 ++ drop (start + n) segs.
Proof.
  intros H. unfold zero_span in H.
  pose proof (span_fold_inv [] segs 0 (0, 0)%nat (0, 0)%nat) as Hi. rewrite H in Hi. simpl in Hi.
  destruct Hi as [H1 H2]; [done|by split|done|by split|]. simpl in *. split; [done|].
  rewrite <- H2, <- (drop_drop segs n start). by rewrite !take_drop.
Qed.

Lemma div_mod_256 x : 0 ≤ x ≤ 65535 → octet (x / 256) ∧ octet (x mod 256) ∧ x / 256 * 256 + x mod 256 = x.
Proof.
  intros Hx. unfold octet. pose proof (Z.div_mod x 256 ltac:(lia)).
  pose proof (Z.mod_pos_bound x 256 ltac:(lia)).
  assert (0 ≤ x / 256) by (apply Z.div_pos; lia).
  assert (x / 256 < 256) by (apply Z.div_lt_upper_bound; lia). lia.
Qed.

Lemma read_v6_mapped x y r :
  0 ≤ x ≤ 65535 → 0 ≤ y ≤ 65535 → stops 10 r →
  read_ipv6_addr (lit "::ffff:" ++ print_v4 (x / 256) (x mod 256) (y / 256) (y mod 256) ++ r)
  = Some ([0; 0; 0; 0; 0; 65535; x; y], r).
Proof.
  intros Hx Hy Hr. destruct (div_mod_256 x Hx) as (X1 & X2 & X3).
  destruct (div_mod_256 y Hy) as (Y1 & Y2 & Y3).
  set (v4 := print_v4 (x / 256) (x mod 256) (y / 256) (y mod 256) ++ r).
  assert (read_groups true 7 (print_hex 65535 ++ 58 :: v4) = ([65535; x; y], true, r)) as Htail.
  { change (read_groups true 7) with (read_groups true (S 6)). cbn [read_groups].
    unfold read_separator. unfold read_ipv4_pair at 1.
    rewrite (read_v4_hex_fails (print_hex 65535)); [|by apply print_hex_spec|by left].
    cbv iota beta. rewrite (read_segment_print 65535) by done.
    unfold read_given. rewrite Z.eqb_refl. unfold read_ipv4_pair, v4.
    rewrite read_v4_print by done. simpl. by rewrite X3, Y3. }
  change (lit "::ffff:" ++ v4) with (fmt_segments [] ++ 58 :: 58 :: print_hex 65535 ++ 58 :: v4).
  unfold read_ipv6_addr. rewrite (read_groups_fmt [] 8) by (done || simpl; lia).
  cbn [length Nat.eqb]. unfold read_given. do 2 (rewrite Z.eqb_refl; cbv iota beta).
  change (8 - (0 + 1))%nat with 7%nat. by rewrite Htail.
Qed.

Lemma to_ipv4_mapped_Some segs x y :
  to_ipv4_mapped segs = Some (x, y) → segs = [0; 0; 0; 0; 0; 65535; x; y].
Proof.
  unfold to_ipv4_mapped. case_bool_decide as H; [|done].
  rewrite <- (take_drop 6 segs) at 2. rewrite H.
  destruct (drop 6 segs) as [|a [|b [|c t]]]; try done. by intros [= -> ->].
Qed.

Lemma read_v6_plain segs r :
  ip_wf (V6 segs) → list_end r → read_ipv6_addr (print_v6_plain segs ++ r) = Some (segs, r).
Proof.
  intros [Hl Hs] Hr. unfold print_v6_plain. destruct (zero_span segs) as [start n] eqn:E.
  destruct (1 <? n)%nat eqn:En; [|by apply read_v6_full].
  apply Nat.ltb_lt in En. apply zero_span_run in E as [Hle E].
  rewrite <- !app_assoc. cbn [app].
  rewrite (read_v6_compressed _ _ n); [by rewrite <- E| |done|..|done].
  - rewrite length_take, length_drop. lia.
  - by apply Forall_take.
  - by apply Forall_drop.
Qed.

Lemma read_v6_print segs r :
  ip_wf (V6 segs) → list_end r → read_ipv6_addr (print_v6 segs ++ r) = Some (segs, r).
Proof.
  intros Hwf Hr. unfold print_v6.
  destruct (to_ipv4_mapped segs) as [[x y]|] eqn:E; [|by apply read_v6_plain].
  apply to_ipv4_mapped_Some in E as ->. destruct Hwf as [_ Hs].
  rewrite <- app_assoc. rewrite !Forall_cons in Hs. destruct_and!.
  apply read_v6_mapped; [done|done|]. by apply seg_end_stops, list_end_seg.
Qed.

(** An IPv6 address is never mistaken for an IPv4 one. *)
Lemma read_v4_colon w r : Forall (λ b, b ≠ 46) w → read_ipv4_addr (w ++ 58 :: r) = None.
Proof.
  intros Hw.
  assert (∀ acc n, ∃ v k w', read_digits 10 acc n (w ++ 58 :: r) = (v, k, w' ++ 58 :: r)
                           ∧ Forall (λ b, b ≠ 46) w') as Hd.
  { induction Hw as [|b w Hb Hw IH]; intros acc n.
    - by exists acc, n, [].
    - cbn [app read_digits]. destruct (to_digit 10 b); [apply IH|].
      exists acc, n, (b :: w). split; [done|by constructor]. }
  unfold read_ipv4_addr, read_octet, read_number.
  destruct (Hd 0 0%nat) as (v & k & w' & -> & Hw').
  repeat (case_match; try done). simplify_eq. unfold read_separator, read_given in *.
  destruct w' as [|b w']; simpl in *; [by simplify_eq|].
  inversion Hw'; subst. destruct (b =? 46) eqn:Eb; [blia|]. by simplify_eq.
Qed.

Lemma print_hex_no_dot n : 0 ≤ n ≤ 65535 → Forall (λ b, b ≠ 46) (print_hex n).
Proof.
  intros Hn. destruct (print_hex_spec n Hn) as (H & _).
  eapply Forall_impl; [exact H|]. intros b. apply hex_not_dot.
Qed.

Lemma print_v6_no_v4 segs r : ip_wf (V6 segs) → read_ipv4_addr (print_v6 segs ++ r) = None.
Proof.
  intros [Hl Hs].
  assert (∀ gs t, Forall (λ s, 0 ≤ s ≤ 65535) gs →
    read_ipv4_addr (fmt_segments gs ++ 58 :: t) = None) as Hfmt.
  { intros gs t Hgs. destruct gs as [|g gs]; [by apply (read_v4_colon [])|].
    inversion Hgs; subst. rewrite fmt_segments_cons, <- app_assoc.
    destruct gs as [|h gs]; [by apply read_v4_colon, print_hex_no_dot|].
    simpl. by apply read_v4_colon, print_hex_no_dot. }
  unfold print_v6. destruct (to_ipv4_mapped segs) as [[x y]|]; [by apply (read_v4_colon [])|].
  unfold print_v6_plain. destruct (zero_span segs) as [start n]. case_match.
  - rewrite <- !app_assoc. apply Hfmt. by apply Forall_take.
  - destruct Hs as [|g gs Hg Hgs]; [done|]. rewrite fmt_segments_cons, <- app_assoc.
    destruct gs as [|h gs]; [done|]. simpl. by apply read_v4_colon, print_hex_no_dot.
Qed.

(** Printing a well-formed address and parsing it back is the identity. *)
Lemma parse_print_ip ip : ip_wf ip → parse_ip (print_ip ip) = Some ip.
Proof.
  intros Hwf. unfold parse_ip, print_ip. destruct ip as [a b c d|segs].
  - destruct Hwf as (? & ? & ? & ?).
    rewrite <- (app_nil_r (print_v4 a b c d)), read_v4_print by done. done.
  - rewrite <- (app_nil_r (print_v6 segs)), print_v6_no_v4 by done.
    unfold parse_ipv6. by rewrite read_v6_print.
Qed.

Lemma parse_print_socket_addr a :
  ip_wf (sa_ip a) → 0 ≤ sa_port a ≤ 65535 →
  parse_socket_addr (print_socket_addr a) = Some a.
Proof.
  destruct a as [ip p]. simpl. intros Hwf Hp. unfold parse_socket_addr, print_socket_addr. simpl.
  assert (read_number 10 None true 65535 (print_dec p) = Some (p, [])) as Hport.
  { rewrite <- (app_nil_r (print_dec p)). by apply read_dec_print. }
  destruct ip as [a b c d|segs].
  - destruct Hwf as (? & ? & ? & ?). simpl. rewrite read_v4_print by done.
    unfold read_port, read_given. rewrite Z.eqb_refl, Hport. done.
  - assert (∀ t, read_ipv4_addr (91 :: t) = None) as -> by done.
    unfold read_given at 1. rewrite Z.eqb_refl. simpl print_ip.
    rewrite read_v6_print by done.
    unfold read_port, read_given. rewrite !Z.eqb_refl, Hport. done.
Qed.

(** ** The parser yields well-formed addresses *)

Lemma to_digit_bound radix b d : 10 ≤ radix → to_digit radix b = Some d → 0 ≤ d < 16.
Proof.
  intros _. unfold to_digit, hex_value, is_ascii_digit. intros H.
  repeat (case_match; simplify_eq); blia.
Qed.

Lemma read_digits_nonneg radix acc n s v k r :
  10 ≤ radix → 0 ≤ acc → read_digits radix acc n s = (v, k, r) → 0 ≤ v.
Proof.
  intros Hr. revert acc n. induction s as [|b s IH]; intros acc n Ha; simpl.
  - by intros [= <- _ _].
  - destruct (to_digit radix b) as [d|] eqn:E; [|by intros [= <- _ _]].
    apply to_digit_bound in E; [|done]. apply IH. nia.
Qed.

Lemma read_number_bound radix md zp max s v r :
  10 ≤ radix → read_number radix md zp max s = Some (v, r) → 0 ≤ v ≤ max.
Proof.
  intros Hr. unfold read_number. destruct (read_digits radix 0 0 s) as [[v' k] r'] eqn:E.
  apply read_digits_nonneg in E; [|done..]. intros H. repeat (case_match; simplify_eq).
  destruct_bool. lia.
Qed.

Lemma read_octet_bound s v r : read_octet s = Some (v, r) → octet v.
Proof. by apply read_number_bound. Qed.

Lemma read_ipv4_wf s a b c d r : read_ipv4_addr s = Some (a, b, c, d, r) → ip_wf (V4 a b c d).
Proof.
  unfold read_ipv4_addr, read_separator. intros H. repeat (case_match; simplify_eq).
  repeat match goal with H : read_octet _ = Some _ |- _ => apply read_octet_bound in H end.
  repeat match goal with
  | H : (match read_given _ _ with _ => _ end) = Some _ |- _ =>
      destruct (read_given _ _); [apply read_octet_bound in H|done]
  end. done.
Qed.

Lemma read_groups_wf k first s gs b r :
  read_groups first k s = (gs, b, r) →
  Forall (λ s, 0 ≤ s ≤ 65535) gs ∧ (length gs ≤ k)%nat.
Proof.
  revert first s gs b r. induction k as [|k IH]; intros first s gs b r; cbn [read_groups].
  - intros [= <- <- <-]. done.
  - destruct (if (1 <=? k)%nat then _ else None) as [[[x y] r']|] eqn:E4.
    + intros [= <- <- <-]. destruct (1 <=? k)%nat eqn:Ek; [|done]. apply Nat.leb_le in Ek.
      assert (∀ t, read_ipv4_pair t = Some (x, y, r') → 0 ≤ x ≤ 65535 ∧ 0 ≤ y ≤ 65535) as Hp.
      { intros t. unfold read_ipv4_pair. destruct (read_ipv4_addr t) as [[[[[a b'] c] d] t']|] eqn:E; [|done].
        apply read_ipv4_wf in E. unfold ip_wf, octet in E. intros [= <- <- _]. lia. }
      split; [|simpl; lia]. unfold read_separator in E4.
      destruct first; [apply Hp in E4|destruct (read_given 58 s); [apply Hp in E4|done]];
        repeat constructor; lia.
    + destruct (read_separator 58 first read_segment s) as [[g r']|] eqn:Eg.
      * destruct (read_groups false k r') as [[gs' b'] r''] eqn:Er. intros [= <- <- <-].
        apply IH in Er as [H1 H2]. split; [|simpl; lia]. constructor; [|done].
        unfold read_separator in Eg. destruct first;
          [|destruct (read_given 58 s); [|done]]; by apply read_number_bound in Eg.
      * intros [= <- <- <-]. split; [constructor|simpl; lia].
Qed.

Lemma read_ipv6_wf s segs r : read_ipv6_addr s = Some (segs, r) → ip_wf (V6 segs).
Proof.
  unfold read_ipv6_addr. destruct (read_groups true 8 s) as [[front v4] r1] eqn:E1.
  apply read_groups_wf in E1 as [H1 H1'].
  destruct (length front =? 8)%nat eqn:El.
  - intros [= <- <-]. by apply Nat.eqb_eq in El.
  - apply Nat.eqb_neq in El. destruct v4; [done|].
    destruct (read_given 58 r1) as [r2|]; [|done]. destruct (read_given 58 r2) as [r3|]; [|done].
    destruct (read_groups true _ r3) as [[tail t] r4] eqn:E2. intros [= <- <-].
    apply read_groups_wf in E2 as [H2 H2']. split.
    + rewrite !length_app, length_replicate. lia.
    + rewrite !Forall_app. split_and!; [done| |done]. apply Forall_replicate. lia.
Qed.

Lemma parse_ip_wf s ip : parse_ip s = Some ip → ip_wf ip.
Proof.
  unfold parse_ip, parse_ipv6. destruct (read_ipv4_addr s) as [[[[[a b] c] d] r]|] eqn:E.
  - destruct r; [|done]. intros [= <-]. by eapply read_ipv4_wf.
  - destruct (read_ipv6_addr s) as [[segs r]|] eqn:E6; [|done]. destruct r; [|done].
    intros [= <-]. by eapply read_ipv6_wf.
Qed.

(** ** Length of a printed address *)

Lemma print_dec_octet_length n : octet n → (1 ≤ length (print_dec n) ≤ 3)%nat.
Proof.
  intros Hn. unfold octet in Hn. destruct (print_dec_spec n ltac:(lia)) as (_ & H & _). split.
  - destruct (print_dec n); [done|simpl; lia].
  - apply dec_go_length; [lia|]. simpl. lia.
Qed.

Lemma fmt_segments_length gs :
  Forall (λ s, 0 ≤ s ≤ 65535) gs → (length (fmt_segments gs) ≤ 5 * length gs)%nat.
Proof.
  intros Hgs. destruct Hgs as [|g gs Hg Hgs]; [done|]. rewrite fmt_segments_cons, length_app.
  destruct (print_hex_spec g Hg) as (_ & _ & _ & H4).
  assert (length (sep_text gs) ≤ 5 * length gs)%nat; [|simpl; lia].
  clear Hg H4. induction Hgs as [|h gs Hh Hgs IH]; [done|]. simpl. rewrite length_app.
  destruct (print_hex_spec h Hh) as (_ & _ & _ & H4). lia.
Qed.

Lemma print_v4_length a b c d : ip_wf (V4 a b c d) → (7 ≤ length (print_v4 a b c d) ≤ 15)%nat.
Proof.
  intros (Ha & Hb & Hc & Hd). unfold print_v4. repeat (rewrite length_app; simpl).
  pose proof (print_dec_octet_length a Ha). pose proof (print_dec_octet_length b Hb).
  pose proof (print_dec_octet_length c Hc). pose proof (print_dec_octet_length d Hd). lia.
Qed.

Lemma print_ip_length ip : ip_wf ip → (1 ≤ length (print_ip ip) ≤ 45)%nat.
Proof.
  destruct ip as [a b c d|segs]; intros Hwf.
  - pose proof (print_v4_length a b c d Hwf). simpl. lia.
  - simpl. split.
    + destruct (print_v6 segs) eqn:E; [|simpl; lia].
      pose proof (read_v6_print segs [] Hwf I) as H. by rewrite E in H.
    + unfold print_v6. destruct (to_ipv4_mapped segs) as [[x y]|] eqn:E.
      * apply to_ipv4_mapped_Some in E as ->. destruct Hwf as [_ Hs]. rewrite !Forall_cons in Hs.
        destruct_and!. rewrite length_app. change (length (lit "::ffff:")) with 7%nat.
        destruct (div_mod_256 x) as (? & ? & _); [done|]. destruct (div_mod_256 y) as (? & ? & _); [done|].
        pose proof (print_v4_length (x / 256) (x mod 256) (y / 256) (y mod 256)) as Hl.
        destruct Hl as [_ Hl]; [done|]. lia.
      * destruct Hwf as [Hl Hs]. unfold print_v6_plain.
        destruct (zero_span segs) as [start n] eqn:Ez. apply zero_span_run in Ez as [Hle _].
        pose proof (fmt_segments_length segs Hs). case_match; [|lia].
        pose proof (fmt_segments_length _ (Forall_take _ start _ Hs)) as Ht.
        pose proof (fmt_segments_length _ (Forall_drop _ (start + n)%nat _ Hs)) as Hd.
        rewrite length_take in Ht. rewrite length_drop in Hd. rewrite !length_app.
        match goal with H : (_ <? _)%nat = true |- _ => apply Nat.ltb_lt in H end.
        simpl. lia.
Qed.
