(* ===== verification/Target.v ===== *)
(** * Destinations (src/src/target.rs)

    A [Target] is a host and a nonzero port. [Target::new] admits IP literals and
    ASCII DNS names, [Target::from_socks] any nonempty SOCKS name of at most 255 bytes. *)
From S2P Require Import Prelude Utf8 Net.

Record Target := mkTarget { host : str; port : Z }.

#[export] Instance Target_eq_dec : EqDecision Target.
Proof. solve_decision. Defined.

(** The closure of [Target::new] that admits one DNS label. *)
Definition label_ok (label : str) : bool :=
  negb (bool_decide (label = [])) && (len label <=? 63)
  && forallb (λ b, is_ascii_alphanumeric b || (b =? 45)) label
  && negb (starts_with [45] label) && negb (ends_with [45] label).

(** [host.strip_suffix('.').unwrap_or(host)] *)
Definition strip_dot (host : str) : str := default host (strip_suffix [46] host).

Definition domain_ok (host : str) : bool :=
  let domain := strip_dot host in
  negb (bool_decide (domain = [])) && (len domain <=? 253)
  && forallb label_ok (split_byte 46 domain).

(** [Target::new] *)
Definition target_new (host : str) (port : Z) : res Target :=
  if port =? 0 then Err "destination port must be between 1 and 65535"
  else if negb (is_some (parse_ip host)) && negb (domain_ok host) then
    Err "destination must be an IP address or ASCII DNS name (use punycode for IDNs)"
  else Ok (mkTarget host port).

(** [Target::from_socks] *)
Definition from_socks (host : str) (port : Z) : res Target :=
  if bool_decide (host = []) || (255 <? len host) || (port =? 0)
  then Err "SOCKS destination requires a 1..255 byte name and a nonzero port"
  else Ok (mkTarget host port).

(** What every [Target] built by either constructor satisfies; [port] is a [u16]. *)
Definition target_wf (t : Target) : Prop :=
  host t ≠ [] ∧ len (host t) ≤ 255 ∧ 1 ≤ port t ≤ 65535.

(** ** Lemmas *)

Lemma read_digits_len radix acc n s v k r :
  read_digits radix acc n s = (v, k, r) → (length s + n = k + length r)%nat.
Proof.
  revert acc n. induction s as [|b s IH]; intros acc n; simpl.
  - intros [= _ <- <-]. simpl. lia.
  - destruct (to_digit radix b).
    + intros H. apply IH in H. lia.
    + intros [= _ <- <-]. simpl. lia.
Qed.

Lemma read_number_len radix m zp max s v r :
  read_number radix (Some m) zp max s = Some (v, r) → (length s ≤ m + length r)%nat.
Proof.
  unfold read_number. destruct (read_digits radix 0 0 s) as [[v' k] r'] eqn:E.
  apply read_digits_len in E. cbn [is_some_and]. destruct (m <? k)%nat eqn:Em; [done|].
  apply Nat.ltb_ge in Em. intros H. repeat (case_match; simplify_eq). lia.
Qed.

Lemma read_given_len c s r : read_given c s = Some r → length s = S (length r).
Proof. destruct s as [|b s]; simpl; [done|]. case_match; [|done]. by intros [= <-]. Qed.

Lemma read_separator_len {A} c first (p : str → option (A * str)) m s v r :
  (∀ s v r, p s = Some (v, r) → (length s ≤ m + length r)%nat) →
  read_separator c first p s = Some (v, r) → (length s ≤ S m + length r)%nat.
Proof.
  intros Hp. unfold read_separator. destruct first.
  - intros H. apply Hp in H. lia.
  - destruct (read_given c s) as [s'|] eqn:E; [|done]. apply read_given_len in E.
    intros H. apply Hp in H. lia.
Qed.

Lemma read_octet_len s v r : read_octet s = Some (v, r) → (length s ≤ 3 + length r)%nat.
Proof. apply read_number_len. Qed.

Lemma read_ipv4_len s x r : read_ipv4_addr s = Some (x, r) → (length s ≤ 15 + length r)%nat.
Proof.
  unfold read_ipv4_addr. intros H.
  destruct (read_octet s) as [[a s1]|] eqn:E1; [|done]. apply read_octet_len in E1.
  destruct (read_separator 46 false read_octet s1) as [[b s2]|] eqn:E2; [|done].
  destruct (read_separator 46 false read_octet s2) as [[c s3]|] eqn:E3; [|done].
  destruct (read_separator 46 false read_octet s3) as [[d s4]|] eqn:E4; [|done].
  simplify_eq.
  apply (read_separator_len _ _ _ 3) in E2, E3, E4; try exact read_octet_len. lia.
Qed.

Lemma read_groups_len k first s gs b r :
  read_groups first k s = (gs, b, r) → (length s ≤ 16 * k + length r)%nat.
Proof.
  revert first s gs b r. induction k as [|k IH]; intros first s gs b r; cbn [read_groups].
  - intros [= _ _ <-]. lia.
  - destruct (if (1 <=? k)%nat then _ else None) as [[[x y] r']|] eqn:E4.
    + intros [= _ _ <-]. destruct (1 <=? k)%nat; [|done].
      apply (read_separator_len _ _ _ 15) in E4; [lia|].
      intros t v t' Ht. unfold read_ipv4_pair in Ht.
      destruct (read_ipv4_addr t) as [[[[[? ?] ?] ?] ?]|] eqn:E; [|done].
      simplify_eq. by apply read_ipv4_len in E.
    + destruct (read_separator 58 first read_segment s) as [[g r']|] eqn:Eg.
      * destruct (read_groups false k r') as [[gs' b'] r''] eqn:Er. intros [= _ _ <-].
        apply IH in Er. apply (read_separator_len _ _ _ 4) in Eg; [lia|].
        intros ???. apply read_number_len.
      * intros [= _ _ <-]. lia.
Qed.

(** The text of an IP literal fits the 255 bytes of a SOCKS name. *)
Lemma parse_ip_len s ip : parse_ip s = Some ip → s ≠ [] ∧ len s ≤ 255.
Proof.
  intros H. split; [by intros ->|]. unfold parse_ip, parse_ipv6, len in *.
  destruct (read_ipv4_addr s) as [[[[[a b] c] d] r]|] eqn:E.
  - apply read_ipv4_len in E. destruct r; [simpl in E; lia|done].
  - destruct (read_ipv6_addr s) as [[segs r]|] eqn:E6; [|done]. destruct r; [|done]. clear H.
    unfold read_ipv6_addr in E6. destruct (read_groups true 8 s) as [[front v4] r1] eqn:E1.
    apply read_groups_len in E1. case_match; [simplify_eq; simpl in E1; lia|].
    destruct v4; [done|].
    destruct (read_given 58 r1) as [r2|] eqn:G1; [|done]. apply read_given_len in G1.
    destruct (read_given 58 r2) as [r3|] eqn:G2; [|done]. apply read_given_len in G2.
    destruct (read_groups true _ r3) as [[tail t] r4] eqn:E2. apply read_groups_len in E2.
    simplify_eq. simpl in E2. lia.
Qed.

Lemma strip_dot_len host : len (strip_dot host) ≤ len host ≤ 1 + len (strip_dot host).
Proof.
  unfold strip_dot. destruct (strip_suffix [46] host) as [r|] eqn:E; simpl; [|lia].
  apply strip_suffix_Some in E as ->. rewrite len_app. change (len [46]) with 1. lia.
Qed.

Lemma target_new_Ok h p t : target_new h p = Ok t →
  t = mkTarget h p ∧ p ≠ 0 ∧ (is_some (parse_ip h) = true ∨ domain_ok h = true).
Proof.
  unfold target_new. case_match; [done|]. case_match; [done|]. intros [= <-]. destruct_bool.
  split_and!; [done..|]. destruct (parse_ip h); [by left|]. right.
  by destruct (domain_ok h).
Qed.

Lemma target_new_wf h p t : 0 ≤ p ≤ 65535 → target_new h p = Ok t → target_wf t.
Proof.
  intros Hp H. apply target_new_Ok in H as (-> & Hz & H). unfold target_wf. simpl.
  assert (h ≠ [] ∧ len h ≤ 255) as [? ?]; [|split_and!; [done|done|lia..]].
  destruct H as [H|H].
  - destruct (parse_ip h) as [ip|] eqn:E; [|done]. by apply parse_ip_len in E.
  - unfold domain_ok in H. destruct_bool. pose proof (strip_dot_len h).
    split; [by intros ->|lia].
Qed.

Lemma from_socks_Ok h p t :
  from_socks h p = Ok t ↔ t = mkTarget h p ∧ h ≠ [] ∧ len h ≤ 255 ∧ p ≠ 0.
Proof.
  unfold from_socks. case_match.
  - rewrite !orb_true_iff in H. split; [done|]. intros (_ & ? & ? & ?).
    destruct H as [[H|H]|H]; destruct_bool; done || lia.
  - destruct_bool. split; [intros [= <-]; done|]. by intros (-> & _).
Qed.

Lemma from_socks_wf h p t : 0 ≤ p ≤ 65535 → from_socks h p = Ok t → target_wf t.
Proof. intros Hp H. apply from_socks_Ok in H as (-> & ? & ? & ?). split_and!; simpl; done || lia. Qed.

(** A pinned address is always a valid destination. *)
Lemma target_new_ip ip p : ip_wf ip → p ≠ 0 → target_new (print_ip ip) p = Ok (mkTarget (print_ip ip) p).
Proof.
  intros Hwf Hp. unfold target_new. rewrite (proj2 (Z.eqb_neq p 0)) by done.
  by rewrite parse_print_ip.
Qed.
