(* ===== verification/BTree.v ===== *)
(** * Ordered maps: [BTreeMap<String, A>]

    A map is the list of its entries in iteration order, which is the byte order of the
    keys. *)
From S2P Require Import Prelude.

Abbreviation bmap A := (list (str * A)).

Fixpoint bget {A} (k : str) (m : bmap A) : option A :=
  match m with
  | [] => None
  | (k', a) :: m => if eq_str k k' then Some a else bget k m
  end.

Definition bcontains {A} (k : str) (m : bmap A) : bool := is_some (bget k m).

(** [BTreeMap::insert]: in place of an equal key, else at its position in the order. *)
Fixpoint binsert {A} (k : str) (a : A) (m : bmap A) : bmap A :=
  match m with
  | [] => [(k, a)]
  | (k', a') :: m' =>
      if eq_str k k' then (k, a) :: m'
      else if str_ltb k k' then (k, a) :: m
      else (k', a') :: binsert k a m'
  end.

Definition keys {A} (m : bmap A) : list str := fst <$> m.
Definition values {A} (m : bmap A) : list A := snd <$> m.

(** The representation invariant: keys strictly increasing. *)
Definition bmap_wf {A} (m : bmap A) : Prop := StronglySorted (λ a b, str_ltb a b = true) (keys m).

(** ** Lemmas *)

Lemma str_ltb_irrefl a : str_ltb a a = false.
Proof. induction a as [|x a IH]; [done|]. simpl. rewrite Z.ltb_irrefl, Z.eqb_refl. done. Qed.

Lemma str_ltb_trans a b c : str_ltb a b = true → str_ltb b c = true → str_ltb a c = true.
Proof.
  revert b c. induction a as [|x a IH]; intros [|y b] [|z c]; simpl; try done.
  rewrite !orb_true_iff, !andb_true_iff, !Z.ltb_lt, !Z.eqb_eq.
  intros [H1|[-> H1]] [H2|[-> H2]]; [left; lia|by left|by left|]. right. eauto.
Qed.

Lemma str_ltb_total a b : a ≠ b → str_ltb a b = false → str_ltb b a = true.
Proof.
  revert b. induction a as [|x a IH]; intros [|y b]; simpl; try done.
  rewrite orb_false_iff, andb_false_iff, orb_true_iff, andb_true_iff, !Z.ltb_lt, !Z.eqb_eq, Z.ltb_ge, Z.eqb_neq.
  intros Hne [H1 [H2|H2]]; [left; lia|]. destruct (decide (x = y)) as [-> |]; [|left; lia].
  right. split; [done|]. apply IH; [congruence|done].
Qed.

Lemma bget_elem {A} k a (m : bmap A) : bget k m = Some a → (k, a) ∈ m.
Proof.
  induction m as [|[k' a'] m IH]; simpl; [done|]. destruct (eq_str k k') eqn:E.
  - apply eq_str_true in E as ->. intros [= ->]. constructor.
  - intros ?. constructor. auto.
Qed.

Lemma bget_None {A} k (m : bmap A) : bget k m = None ↔ k ∉ keys m.
Proof.
  induction m as [|[k' a'] m IH]; simpl.
  - split; [|done]. intros _. apply not_elem_of_nil.
  - rewrite elem_of_cons. destruct (eq_str k k') eqn:E.
    + apply eq_str_true in E as ->. naive_solver.
    + apply eq_str_false in E. naive_solver.
Qed.

Lemma binsert_keys {A} k (a : A) m x : x ∈ keys (binsert k a m) ↔ x = k ∨ x ∈ keys m.
Proof.
  induction m as [|[k' a'] m IH]; simpl; [by rewrite elem_of_cons|].
  destruct (eq_str k k') eqn:E; [|destruct (str_ltb k k')]; simpl; rewrite ?elem_of_cons.
  - apply eq_str_true in E as ->. naive_solver.
  - naive_solver.
  - unfold keys in IH. rewrite IH. naive_solver.
Qed.

Lemma bget_insert {A} k k' (a : A) m :
  bget k' (binsert k a m) = if decide (k' = k) then Some a else bget k' m.
Proof.
  induction m as [|[k0 a0] m IH]; simpl.
  - unfold eq_str. case_decide; [by rewrite bool_decide_eq_true_2|by rewrite bool_decide_eq_false_2].
  - destruct (eq_str k k0) eqn:E; [|destruct (str_ltb k k0) eqn:El]; simpl.
    + apply eq_str_true in E as ->. unfold eq_str. case_decide; [by rewrite bool_decide_eq_true_2|].
      by rewrite bool_decide_eq_false_2.
    + unfold eq_str at 1. case_decide; [by rewrite bool_decide_eq_true_2|]. by rewrite bool_decide_eq_false_2.
    + rewrite IH. apply eq_str_false in E. unfold eq_str.
      case_bool_decide; subst; [|done]. by rewrite decide_False by congruence.
Qed.

Lemma bget_insert_eq {A} k (a : A) m : bget k (binsert k a m) = Some a.
Proof. by rewrite bget_insert, decide_True. Qed.

Lemma bget_insert_ne {A} k k' (a : A) m : k' ≠ k → bget k' (binsert k a m) = bget k' m.
Proof. intros H. by rewrite bget_insert, decide_False. Qed.

Lemma bget_binsert {A} k k' (a : A) m :
  bmap_wf m → bget k' (binsert k a m) = if decide (k' = k) then Some a else bget k' m.
Proof. intros _. apply bget_insert. Qed.

(** [Map::remove] *)
Fixpoint bremove {A} (k : str) (m : bmap A) : bmap A :=
  match m with
  | [] => []
  | (k', a) :: m => if eq_str k k' then m else (k', a) :: bremove k m
  end.

Lemma bget_remove_ne {A} k k' (m : bmap A) : k' ≠ k → bget k' (bremove k m) = bget k' m.
Proof.
  intros Hne. induction m as [|[k0 a0] m IH]; [done|]. simpl.
  destruct (eq_str k k0) eqn:E; simpl.
  - apply eq_str_true in E as ->. by rewrite (proj2 (eq_str_false k' k0)).
  - by rewrite IH.
Qed.

Lemma bget_remove_eq {A} k (m : bmap A) : NoDup (keys m) → bget k (bremove k m) = None.
Proof.
  induction m as [|[k0 a0] m IH]; [done|]. simpl. rewrite NoDup_cons. intros [Hn Hd].
  destruct (eq_str k k0) eqn:E; simpl.
  - apply eq_str_true in E as ->. by apply bget_None.
  - rewrite E. by apply IH.
Qed.

Lemma bremove_keys {A} k (m : bmap A) x : x ∈ keys (bremove k m) → x ∈ keys m.
Proof.
  induction m as [|[k0 a0] m IH]; [done|]. simpl. destruct (eq_str k k0); simpl; rewrite ?elem_of_cons; naive_solver.
Qed.

Lemma elem_of_bremove {A} k (m : bmap A) x : x ∈ bremove k m → x ∈ m.
Proof.
  induction m as [|[k0 a0] m IH]; [done|]. simpl. destruct (eq_str k k0).
  - by constructor.
  - rewrite !elem_of_cons. naive_solver.
Qed.

Lemma elem_of_binsert {A} k (a : A) m x : x ∈ binsert k a m → x = (k, a) ∨ x ∈ m.
Proof.
  induction m as [|[k0 a0] m IH]; simpl; [rewrite !elem_of_cons; naive_solver|].
  destruct (eq_str k k0); [|destruct (str_ltb k k0)]; rewrite !elem_of_cons; naive_solver.
Qed.

Lemma binsert_wf {A} k (a : A) m : bmap_wf m → bmap_wf (binsert k a m).
Proof.
  unfold bmap_wf. induction m as [|[k0 a0] m IH]; simpl; intros Hs; [repeat constructor|].
  inversion Hs as [|? ? Hs' Hf]; subst. destruct (eq_str k k0) eqn:E; [|destruct (str_ltb k k0) eqn:El]; simpl.
  - apply eq_str_true in E as ->. done.
  - constructor; [done|]. constructor; [done|]. eapply Forall_impl; [exact Hf|].
    intros x Hx. simpl in Hx. by eapply str_ltb_trans.
  - constructor; [by apply IH|]. apply Forall_forall. intros x Hx.
    apply (binsert_keys k a m x) in Hx as [-> |Hx].
    + apply str_ltb_total; [apply eq_str_false in E; congruence|done].
    + by eapply Forall_forall in Hf.
Qed.

Lemma bmap_wf_nodup {A} (m : bmap A) : bmap_wf m → NoDup (keys m).
Proof.
  unfold bmap_wf. intros Hs. induction Hs as [|k ks _ IH Hf]; [constructor|].
  constructor; [|done]. intros Hk. eapply Forall_forall in Hf; [|done]. simpl in Hf.
  by rewrite str_ltb_irrefl in Hf.
Qed.

Lemma bremove_wf {A} k (m : bmap A) : bmap_wf m → bmap_wf (bremove k m).
Proof.
  unfold bmap_wf. induction m as [|[k0 a0] m IH]; [done|]. simpl. intros Hs.
  inversion Hs as [|? ? Hs' Hf]; subst. destruct (eq_str k k0); [done|]. simpl.
  constructor; [by apply IH|]. apply Forall_forall. intros x Hx%bremove_keys. by eapply Forall_forall in Hf.
Qed.

Lemma bmap_wf_filter {A} (P : str * A → Prop) `{∀ x, Decision (P x)} (m : bmap A) : bmap_wf m → bmap_wf (filter P m).
Proof.
  unfold bmap_wf. induction m as [|[k0 a0] m IH]; [done|]. simpl. intros Hs.
  inversion Hs as [|? ? Hs' Hf]; subst. rewrite filter_cons. case_decide; [|by apply IH]. simpl.
  constructor; [by apply IH|]. apply Forall_forall. intros x Hx.
  apply list_elem_of_fmap in Hx as (y & -> & Hy). apply list_elem_of_filter in Hy as [_ Hy].
  eapply Forall_forall in Hf; [exact Hf|]. by apply list_elem_of_fmap_2.
Qed.

(** Sorted maps with the same entries are equal. *)
Lemma bmap_ext {A} (m m' : bmap A) : bmap_wf m → bmap_wf m' → (∀ k, bget k m = bget k m') → m = m'.
Proof.
  revert m'. induction m as [|[k a] m IH]; intros [|[k' a'] m'] Hm Hm' H; [done| | |].
  - specialize (H k'). simpl in H. by rewrite eq_str_refl in H.
  - specialize (H k). simpl in H. by rewrite eq_str_refl in H.
  - assert (∀ (x : str * A) l, bmap_wf (x :: l) → Forall (λ y, str_ltb (fst x) y = true) (keys l)) as Hlt.
    { intros x l Hl. unfold bmap_wf in Hl. simpl in Hl. by inversion Hl. }
    pose proof (Hlt _ _ Hm) as H1. pose proof (Hlt _ _ Hm') as H2. simpl in H1, H2.
    assert (k = k') as ->.
    { destruct (decide (k = k')) as [|Hne]; [done|]. exfalso.
      pose proof (H k) as Hk. pose proof (H k') as Hk'. simpl in Hk, Hk'. rewrite !eq_str_refl in Hk, Hk'.
      rewrite (proj2 (eq_str_false k k')) in Hk by done. rewrite (proj2 (eq_str_false k' k)) in Hk' by done.
      symmetry in Hk. apply bget_elem in Hk, Hk'.
      rewrite Forall_forall in H1, H2. specialize (H1 k' ltac:(by apply (list_elem_of_fmap_2 fst) in Hk')).
      specialize (H2 k ltac:(by apply (list_elem_of_fmap_2 fst) in Hk)).
      pose proof (str_ltb_trans _ _ _ H1 H2) as Hc. by rewrite str_ltb_irrefl in Hc. }
    pose proof (H k') as Hk. simpl in Hk. rewrite !eq_str_refl in Hk. injection Hk as ->. f_equal.
    apply IH; [by inversion Hm|by inversion Hm'|]. intros x. specialize (H x). simpl in H.
    destruct (eq_str x k') eqn:E; [|done]. apply eq_str_true in E as ->.
    assert (∀ l : bmap A, Forall (λ y, str_ltb k' y = true) (keys l) → bget k' l = None) as Hnone.
    { intros l Hl. apply bget_None. intros Hin. rewrite Forall_forall in Hl. apply Hl in Hin.
      by rewrite str_ltb_irrefl in Hin. }
    by rewrite !Hnone.
Qed.

(** ** Collecting entries into a map *)

Lemma bmap_wf_prefix {A} (m m' : bmap A) : bmap_wf (m ++ m') → bmap_wf m.
Proof. unfold bmap_wf, keys. rewrite fmap_app. apply StronglySorted_app_1_l. Qed.

(** A key above all others goes to the end. *)
Lemma binsert_last {A} k (a : A) m : bmap_wf (m ++ [(k, a)]) → binsert k a m = m ++ [(k, a)].
Proof.
  unfold bmap_wf. induction m as [|[k0 a0] m IH]; simpl; [done|]. intros Hs. inversion Hs as [|? ? Hs' Hf]; subst.
  assert (str_ltb k0 k = true) as Hk.
  { rewrite Forall_forall in Hf. apply Hf, list_elem_of_fmap. exists (k, a). split; [done|]. apply elem_of_app. right. by left. }
  assert (eq_str k k0 = false) as -> by (apply eq_str_false; intros ->; by rewrite str_ltb_irrefl in Hk).
  destruct (str_ltb k k0) eqn:E; [|by rewrite IH]. pose proof (str_ltb_trans _ _ _ Hk E) as H. by rewrite str_ltb_irrefl in H.
Qed.

Lemma insert_all_get {A} (es : list (str * A)) (m : bmap A) k v :
  bmap_wf m → NoDup (keys es) → (k, v) ∈ es →
  bget k (foldl (λ m kv, binsert (fst kv) (snd kv) m) m es) = Some v.
Proof.
  intros Hm Hnd Hin. assert (∀ (es : list (str * A)) (m : bmap A), bmap_wf m → k ∉ keys es →
    bget k (foldl (λ m kv, binsert (fst kv) (snd kv) m) m es) = bget k m) as Hskip.
  { clear. induction es as [|[k' v'] es IH]; intros m Hm Hk; simpl; [done|]. simpl in Hk.
    rewrite elem_of_cons in Hk. rewrite IH; [|by apply binsert_wf|naive_solver].
    rewrite bget_binsert by done. by rewrite decide_False by naive_solver. }
  revert m Hm Hnd Hin. induction es as [|[k' v'] es IH]; intros m Hm Hnd; simpl; [by intros ?%not_elem_of_nil|].
  simpl in Hnd. apply NoDup_cons in Hnd as [Hk Hnd]. rewrite elem_of_cons. intros [[= <- <-]|Hin].
  - rewrite Hskip; [|by apply binsert_wf|done]. rewrite bget_binsert by done. by rewrite decide_True.
  - apply IH; [by apply binsert_wf|done|done].
Qed.

Lemma insert_all_wf {A} (es : list (str * A)) (m : bmap A) :
  bmap_wf m →
  bmap_wf (foldl (λ m kv, binsert (fst kv) (snd kv) m) m es) ∧
  (∀ k v, (k, v) ∈ foldl (λ m kv, binsert (fst kv) (snd kv) m) m es → (k, v) ∈ m ∨ (k, v) ∈ es) ∧
  (length (foldl (λ m kv, binsert (fst kv) (snd kv) m) m es) ≤ length m + length es)%nat.
Proof.
  revert m. induction es as [|[k v] es IH]; intros m Hm; simpl; [split_and!; [done|by left|lia]|].
  destruct (IH (binsert k v m)) as (H1 & H2 & H3); [by apply binsert_wf|].
  assert (∀ k' v', (k', v') ∈ binsert k v m → (k', v') = (k, v) ∨ (k', v') ∈ m) as Hin.
  { clear. intros k' v'. induction m as [|[k0 v0] m IH]; simpl; rewrite ?elem_of_cons; [naive_solver|].
    destruct (eq_str k k0); [|destruct (str_ltb k k0)]; rewrite ?elem_of_cons; naive_solver. }
  assert (length (binsert k v m) ≤ S (length m))%nat as Hlen.
  { clear. induction m as [|[k0 v0] m IH]; simpl; [done|].
    destruct (eq_str k k0); [|destruct (str_ltb k k0)]; simpl; lia. }
  split_and!; [done| |lia]. intros k' v' Hk. rewrite elem_of_cons. apply H2 in Hk as [Hk|Hk]; [|by right; right].
  apply Hin in Hk as [Hk|Hk]; auto.
Qed.
