(* ===== verification/Json.v ===== *)
(** * Documents: [serde_json::Value]

    The parsed document tree every configuration component inspects. An object is the
    list of its entries in iteration order, with distinct keys. *)
From S2P Require Import Prelude.

Inductive Number :=
| PosInt (n : Z)
| NegInt (n : Z)
| Float (bits : Z).

Inductive Value :=
| VNull
| VBool (b : bool)
| VNumber (n : Number)
| VString (s : str)
| VArray (vs : list Value)
| VObject (fields : list (str * Value)).

(** ** Accessors *)

Definition field (key : str) (fields : list (str * Value)) : option Value :=
  snd <$> List.find (λ kv, eq_str (fst kv) key) fields.

(** [value.get(key)] *)
Definition get (key : string) (v : Value) : option Value :=
  match v with VObject fields => field (lit key) fields | _ => None end.

(** [&value[key]]: [Null] when there is no such entry. *)
Definition index (key : string) (v : Value) : Value := default VNull (get key v).

Definition as_array (v : Value) : option (list Value) :=
  match v with VArray vs => Some vs | _ => None end.

Definition as_object (v : Value) : option (list (str * Value)) :=
  match v with VObject fields => Some fields | _ => None end.

Definition as_str (v : Value) : option str :=
  match v with VString s => Some s | _ => None end.

Definition as_i64 (v : Value) : option Z :=
  match v with
  | VNumber (PosInt n) => if n <=? 9223372036854775807 then Some n else None
  | VNumber (NegInt n) => Some n
  | _ => None
  end.

Definition as_u64 (v : Value) : option Z :=
  match v with VNumber (PosInt n) => Some n | _ => None end.

(** [value == "text"], [value == true], [value == 0] *)
Definition is_text (v : Value) (s : string) : bool :=
  match v with VString t => eq_str t (lit s) | _ => false end.

Definition is_bool (v : Value) (b : bool) : bool :=
  match v with VBool c => Bool.eqb b c | _ => false end.

Definition is_int (v : Value) (n : Z) : bool := bool_decide (as_i64 v = Some n).

(** ** Structural induction through arrays and objects *)

Section Induction.
Context (P : Value → Prop).
Hypothesis Hnull : P VNull.
Hypothesis Hbool : ∀ b, P (VBool b).
Hypothesis Hnumber : ∀ n, P (VNumber n).
Hypothesis Hstring : ∀ s, P (VString s).
Hypothesis Harray : ∀ vs, Forall P vs → P (VArray vs).
Hypothesis Hobject : ∀ fields, Forall (P ∘ snd) fields → P (VObject fields).

Fixpoint value_ind_strong (v : Value) : P v :=
  match v with
  | VNull => Hnull
  | VBool b => Hbool b
  | VNumber n => Hnumber n
  | VString s => Hstring s
  | VArray vs =>
      Harray vs ((fix go vs : Forall P vs :=
        match vs with
        | [] => Forall_nil_2 P
        | v :: vs => Forall_cons_2 P v vs (value_ind_strong v) (go vs)
        end) vs)
  | VObject fields =>
      Hobject fields ((fix go fs : Forall (P ∘ snd) fs :=
        match fs with
        | [] => Forall_nil_2 _
        | kv :: fs => Forall_cons_2 (P ∘ snd) kv fs (value_ind_strong (snd kv)) (go fs)
        end) fields)
  end.

End Induction.
