(* ===== verification/Document.v ===== *)
(** * Bounded documents (src/src/config_provider.rs: [ValueSeed], [on_document_stack],
      [yaml_value], [parse_document])

    Configuration sources are read by a third-party parser that drives the visitor of this
    program. What a parser delivers is an event tree [Node], in which it may report an error
    at any point; the visitor charges every collection entry against one budget, bounds the
    nesting, and rejects duplicate and merge keys. *)
From Stdlib Require Import Sorting.Permutation.
From S2P Require Import Prelude Utf8 BTree Json.

(** What a deserializer reports: a message of the visitor ([Error::custom]), its own
    resource budget, or any other failure. *)
Inductive DeError :=
| Custom (message : string)
| BudgetError
| OtherError.

Inductive Node :=
| NUnit
| NBool (b : bool)
| NI64 (n : Z)
| NU64 (n : Z)
| NF64 (bits : Z) (finite : bool)
| NStr (s : str)
| NError (e : DeError)
| NSeq (items : list Node) (fin : option DeError)
| NMap (entries : list (str * Node)) (fin : option DeError).

Definition MAX_DOCUMENT_DEPTH : Z := 129.
Definition MAX_COLLECTION_ENTRIES : Z := 262144.
Definition MAX_SOURCE_BYTES : Z := 16 * 1024 * 1024.

Abbreviation de := (result DeError).

(** ** The visitor *)

Definition entry_limit : string := "YAML collection entry limit exceeded".
Definition resource_limit : string := "YAML resource limit exceeded".

(** [remaining.get().checked_sub(1)] *)
Definition charge (remaining : Z) : de Z :=
  if remaining <? 1 then Err (Custom entry_limit) else Ok (remaining - 1).

Definition finish {A} (fin : option DeError) (a : A) : de A :=
  match fin with Some e => Err e | None => Ok a end.

(** The loop of [visit_seq]. *)
Definition visit_items (visit : Node → Z → de (Value * Z)) :=
  fix go (items : list Node) (fin : option DeError) (remaining : Z) : de (list Value * Z) :=
    match items with
    | [] => finish fin ([], remaining)
    | n :: items =>
        let! remaining := charge remaining in
        let! '(v, remaining) := visit n remaining in
        let! '(vs, remaining) := go items fin remaining in
        Ok (v :: vs, remaining)
    end.

(** The loop of [visit_map]. *)
Definition visit_entries (visit : Node → Z → de (Value * Z)) :=
  fix go (entries : list (str * Node)) (fin : option DeError) (acc : bmap Value) (remaining : Z)
      : de (bmap Value * Z) :=
    match entries with
    | [] => finish fin (acc, remaining)
    | (key, n) :: entries =>
        let! remaining := charge remaining in
        if eq_str key (lit "<<") || bcontains key acc then Err (Custom "duplicate or merge key")
        else
          let! '(v, remaining) := visit n remaining in
          go entries fin (binsert key v acc) remaining
    end.

(** [ValueSeed(remaining, depth)]: the value and what is left of the entry budget. *)
Fixpoint visit (n : Node) (depth : Z) (remaining : Z) : de (Value * Z) :=
  match n with
  | NUnit => Ok (VNull, remaining)
  | NBool b => Ok (VBool b, remaining)
  | NI64 z => Ok (VNumber (if z <? 0 then NegInt z else PosInt z), remaining)
  | NU64 z => Ok (VNumber (PosInt z), remaining)
  | NF64 bits finite =>
      if finite then Ok (VNumber (Float bits), remaining) else Err (Custom "non-finite YAML number")
  | NStr s => Ok (VString s, remaining)
  | NError e => Err e
  | NSeq items fin =>
      if MAX_DOCUMENT_DEPTH <=? depth then Err (Custom resource_limit)
      else
        let! '(vs, remaining) := visit_items (λ n, visit n (depth + 1)) items fin remaining in
        Ok (VArray vs, remaining)
  | NMap entries fin =>
      if MAX_DOCUMENT_DEPTH <=? depth then Err (Custom resource_limit)
      else
        let! '(m, remaining) := visit_entries (λ n, visit n (depth + 1)) entries fin [] remaining in
        Ok (VObject m, remaining)
  end.

(** [Document::deserialize] *)
Definition document (n : Node) : de Value :=
  let! '(v, _) := visit n 0 MAX_COLLECTION_ENTRIES in Ok v.

(** ** The parsers *)

Fixpoint exact_json_scalars (v : Value) : bool :=
  match v with
  | VNumber (PosInt n) => n <=? 9223372036854775807
  | VNumber (NegInt _) => true
  | VNumber (Float _) => false
  | VArray vs => forallb exact_json_scalars vs
  | VObject fields => forallb (λ kv, exact_json_scalars (snd kv)) fields
  | _ => true
  end.

(** The lexical scan of [on_document_stack]. *)
Fixpoint deep_from (source : str) (flow line_work : Z) : bool :=
  match source with
  | [] => false
  | b :: source =>
      let flow := if one_of [b] ["["; "{"] then flow + 1 else flow in
      let line_work := if b =? 10 then 0
                       else if one_of [b] [" "; ":"; "-"] || (b =? 9) then line_work + 1
                       else line_work in
      (16 <? flow) || (32 <? line_work) || deep_from source flow line_work
  end.

(** How the scoped parser thread ends. *)
Inductive Spawn := Joined | SpawnFailed | Panicked.

Definition on_document_stack {T} (spawn : Spawn) (source : str) (parse : res T) : res T :=
  if deep_from source 0 0 then
    match spawn with
    | Joined => parse
    | SpawnFailed => Err "cannot spawn configuration parser thread"
    | Panicked => Err "configuration parser thread failed"
    end
  else parse.

Section Parse.
(** The event trees of [serde_json::from_str] (with what it reports after the value) and of
    [serde_saphyr::from_multiple_with_options] (one per document). *)
Context (json_events : str → Node * option DeError) (yaml_events : str → list Node * option DeError).

Definition json_document (source : str) : option Value :=
  let '(n, fin) := json_events source in
  to_option (let! v := document n in finish fin v).

Fixpoint documents (ns : list Node) (fin : option DeError) : de (list Value) :=
  match ns with
  | [] => finish fin []
  | n :: ns => let! v := document n in let! vs := documents ns fin in Ok (v :: vs)
  end.

Definition yaml_error (e : DeError) : string :=
  match e with
  | BudgetError => resource_limit
  | Custom message =>
      if bool_decide (message = entry_limit) then entry_limit
      else "invalid configuration YAML: check fields, types and duplicates"
  | OtherError => "invalid configuration YAML: check fields, types and duplicates"
  end.

Definition yaml_value_inner (source : str) : res Value :=
  let '(ns, fin) := yaml_events source in
  let! vs := map_err yaml_error (documents ns fin) in
  Ok (default VNull (last vs)).

Definition yaml_value (spawn : Spawn) (source : str) : res Value :=
  if MAX_SOURCE_BYTES <? len source then Err "configuration/provider exceeds the 16 MiB source limit"
  else
    let fast :=
      if forallb is_ascii source && negb (contains_byte 127 source)
         && (starts_with (lit "{") (trim_start_by is_whitespace source)
             || starts_with (lit "[") (trim_start_by is_whitespace source))
      then match json_document source with
           | Some v => if exact_json_scalars v then Some v else None
           | None => None
           end
      else None in
    match fast with
    | Some v => Ok v
    | None => on_document_stack spawn source (yaml_value_inner source)
    end.

Definition parse_document (spawn : Spawn) (source : str) : res Value :=
  let! value := yaml_value spawn source in
  if is_some (as_object value) then Ok value else Err "configuration must be a YAML mapping".

End Parse.

(** ** What an accepted document satisfies *)

Fixpoint value_entries (v : Value) : Z :=
  match v with
  | VArray vs => foldr (λ v acc, 1 + value_entries v + acc) 0 vs
  | VObject fields => foldr (λ kv acc, 1 + value_entries (snd kv) + acc) 0 fields
  | _ => 0
  end.

(** Nesting of collections: scalars are 0. *)
Fixpoint value_depth (v : Value) : Z :=
  match v with
  | VArray vs => 1 + foldr (λ v acc, Z.max (value_depth v) acc) 0 vs
  | VObject fields => 1 + foldr (λ kv acc, Z.max (value_depth (snd kv)) acc) 0 fields
  | _ => 0
  end.

(** Objects are maps in key order without the merge key, at every level. *)
Fixpoint value_keys_ok (v : Value) : Prop :=
  match v with
  | VArray vs => foldr (λ v acc, value_keys_ok v ∧ acc) True vs
  | VObject fields =>
      bmap_wf fields ∧ (lit "<<" ∉ keys fields) ∧
      foldr (λ kv acc, value_keys_ok (snd kv) ∧ acc) True fields
  | _ => True
  end.

Definition document_wf (v : Value) : Prop :=
  value_entries v ≤ MAX_COLLECTION_ENTRIES ∧ value_depth v ≤ MAX_DOCUMENT_DEPTH ∧ value_keys_ok v.

(** What the visitor accepts of an event tree: no reported error, finite numbers, distinct
    keys without the merge key; [d] more levels of nesting. *)
Fixpoint node_ok (n : Node) (d : Z) : Prop :=
  match n with
  | NError _ => False
  | NF64 _ finite => finite = true
  | NSeq items fin => fin = None ∧ 0 < d ∧ foldr (λ n acc, node_ok n (d - 1) ∧ acc) True items
  | NMap entries fin =>
      fin = None ∧ 0 < d ∧ (lit "<<" ∉ keys entries) ∧ NoDup (keys entries) ∧
      foldr (λ kn acc, node_ok (snd kn) (d - 1) ∧ acc) True entries
  | _ => True
  end.

Fixpoint node_entries (n : Node) : Z :=
  match n with
  | NSeq items _ => foldr (λ n acc, 1 + node_entries n + acc) 0 items
  | NMap entries _ => foldr (λ kn acc, 1 + node_entries (snd kn) + acc) 0 entries
  | _ => 0
  end.

(** ** Induction on event trees *)

Section Induction.
Context (P : Node → Prop).
Hypothesis Hleaf : ∀ n, match n with NSeq _ _ | NMap _ _ => True | _ => P n end.
Hypothesis Hseq : ∀ items fin, Forall P items → P (NSeq items fin).
Hypothesis Hmap : ∀ entries fin, Forall (P ∘ snd) entries → P (NMap entries fin).

Fixpoint node_ind_strong (n : Node) : P n :=
  match n as n return match n with NSeq _ _ | NMap _ _ => True | _ => P n end → P n with
  | NSeq items fin => λ _,
      Hseq items fin ((fix go l : Forall P l :=
        match l with
        | [] => Forall_nil_2 P
        | n :: l => Forall_cons_2 P n l (node_ind_strong n) (go l)
        end) items)
  | NMap entries fin => λ _,
      Hmap entries fin ((fix go l : Forall (P ∘ snd) l :=
        match l with
        | [] => Forall_nil_2 _
        | kn :: l => Forall_cons_2 (P ∘ snd) kn l (node_ind_strong (snd kn)) (go l)
        end) entries)
  | _ => λ H, H
  end (Hleaf n).

End Induction.

(** ** Lemmas *)

Lemma charge_Ok r r' : charge r = Ok r' → 1 ≤ r ∧ r' = r - 1.
Proof. unfold charge. case_match; [done|]. intros [= <-]. blia. Qed.

Lemma foldr_perm_sum {A} (f : A → Z) l l' :
  l ≡ₚ l' → foldr (λ a acc, 1 + f a + acc) 0 l = foldr (λ a acc, 1 + f a + acc) 0 l'.
Proof. induction 1; simpl; lia. Qed.

Lemma foldr_perm_max {A} (f : A → Z) l l' :
  l ≡ₚ l' → foldr (λ a acc, Z.max (f a) acc) 0 l = foldr (λ a acc, Z.max (f a) acc) 0 l'.
Proof. induction 1; simpl; lia. Qed.

Lemma value_keys_ok_forall (l : bmap Value) :
  foldr (λ kv P, value_keys_ok (snd kv) ∧ P) True l ↔ Forall (λ kv, value_keys_ok (snd kv)) l.
Proof. induction l as [|x l IHl]; simpl; [done|]. by rewrite Forall_cons, IHl. Qed.

Lemma binsert_perm {A} k (a : A) m : bget k m = None → binsert k a m ≡ₚ (k, a) :: m.
Proof.
  induction m as [|[k' a'] m IH]; simpl; [done|]. destruct (eq_str k k'); [done|].
  destruct (str_ltb k k'); [done|]. intros H. rewrite IH by done. constructor.
Qed.

Definition visit_sound (n : Node) : Prop := ∀ d r v r',
  0 ≤ r → d ≤ MAX_DOCUMENT_DEPTH → visit n d r = Ok (v, r') →
  r' = r - value_entries v ∧ 0 ≤ r' ∧ d + value_depth v ≤ MAX_DOCUMENT_DEPTH ∧ value_keys_ok v.

Lemma visit_items_sound items fin d r vs r' :
  Forall visit_sound items → 0 ≤ r → d ≤ MAX_DOCUMENT_DEPTH →
  visit_items (λ n, visit n d) items fin r = Ok (vs, r') →
  r' = r - foldr (λ v acc, 1 + value_entries v + acc) 0 vs ∧ 0 ≤ r' ∧
  d + foldr (λ v acc, Z.max (value_depth v) acc) 0 vs ≤ MAX_DOCUMENT_DEPTH ∧
  foldr (λ v acc, value_keys_ok v ∧ acc) True vs.
Proof.
  intros Hf. revert r vs r'. induction Hf as [|n items Hn _ IH]; intros r vs r' Hr Hd H; simpl in H.
  - destruct fin; [done|]. simpl in H. simplify_eq/=. split_and!; [lia|done|lia|done].
  - destruct (charge r) as [r1|] eqn:E1; [|done]. apply charge_Ok in E1 as [? ->].
    destruct (visit n d (r - 1)) as [[v r2]|] eqn:E2; [|done].
    apply Hn in E2 as (-> & ? & ? & ?); [|lia|done].
    destruct (visit_items _ items fin _) as [[vs' r3]|] eqn:E3; [|done]. simplify_eq.
    apply IH in E3 as (-> & ? & ? & ?); [|done..]. simpl. split_and!; [lia|lia|lia|done|done].
Qed.

Lemma visit_entries_sound entries fin d acc r m r' :
  Forall (visit_sound ∘ snd) entries → 0 ≤ r → d ≤ MAX_DOCUMENT_DEPTH →
  visit_entries (λ n, visit n d) entries fin acc r = Ok (m, r') →
  d + foldr (λ kv acc, Z.max (value_depth (snd kv)) acc) 0 acc ≤ MAX_DOCUMENT_DEPTH →
  value_keys_ok (VObject acc) →
  r' = r + value_entries (VObject acc) - value_entries (VObject m) ∧ 0 ≤ r' ∧
  d + foldr (λ kv acc, Z.max (value_depth (snd kv)) acc) 0 m ≤ MAX_DOCUMENT_DEPTH ∧
  value_keys_ok (VObject m).
Proof.
  intros Hf. revert acc r m r'.
  induction Hf as [|[k n] entries Hn _ IH]; intros acc r m r' Hr Hd H Hacc Hk; simpl in H.
  - destruct fin; [done|]. simpl in H. simplify_eq/=. split_and!; try tauto; lia.
  - destruct (charge r) as [r1|] eqn:E1; [|done]. apply charge_Ok in E1 as [? ->].
    destruct (_ || _) eqn:Eb in H; [done|]. apply orb_false_elim in Eb as [Eb1 Eb2].
    destruct (visit n d (r - 1)) as [[v r2]|] eqn:E2; [|done].
    apply Hn in E2 as (-> & ? & ? & ?); [|lia|done].
    unfold bcontains in Eb2. destruct (bget k acc) eqn:Eg; [done|].
    pose proof (binsert_perm k v acc Eg) as Hp.
    destruct Hk as (Hk1 & Hk2 & Hk3).
    apply IH in H as (-> & ? & ? & ?); [|done|done| |].
    + split_and!; [|done|done|done].
      cbn [value_entries]. rewrite (foldr_perm_sum (λ kv, value_entries (snd kv)) _ _ Hp). simpl. lia.
    + rewrite (foldr_perm_max (λ kv, value_depth (snd kv)) _ _ Hp). simpl. lia.
    + simpl. split_and!; [by apply binsert_wf| |].
      * rewrite binsert_keys. apply eq_str_false in Eb1. naive_solver.
      * apply value_keys_ok_forall. rewrite Hp. constructor; [done|]. by apply value_keys_ok_forall.
Qed.

Lemma visit_sound_all n : visit_sound n.
Proof.
  apply node_ind_strong; [clear n; intros n|intros items fin IH|intros entries fin IH].
  - destruct n; try done; intros d r v r' Hr Hd H; simpl in H; repeat case_match; simplify_eq/=;
      split_and!; lia || done.
  - intros d r v r' Hr Hd H. cbn [visit] in H. destruct (_ <=? _) eqn:Ed in H; [done|]. destruct_bool.
    destruct (visit_items _ _ _ _) as [[vs r1]|] eqn:E; [|done]. simplify_eq.
    apply visit_items_sound in E as (-> & ? & ? & ?); [|done|done|lia]. simpl. split_and!; lia || done.
  - intros d r v r' Hr Hd H. cbn [visit] in H. destruct (_ <=? _) eqn:Ed in H; [done|]. destruct_bool.
    destruct (visit_entries _ _ _ _ _) as [[m r1]|] eqn:E; [|done]. simplify_eq.
    apply visit_entries_sound in E as (-> & ? & ? & ?); [|done|done|lia|simpl; lia|].
    + cbn [value_depth]. split_and!; [simpl; lia|done|lia|done].
    + simpl. split_and!; [constructor|apply not_elem_of_nil|done].
Qed.

(** The visitor accepts every well-formed tree within the limits, charging each entry once. *)
Definition visit_complete (n : Node) : Prop := ∀ d r,
  node_ok n (MAX_DOCUMENT_DEPTH - d) → node_entries n ≤ r →
  ∃ v, visit n d r = Ok (v, r - node_entries n).

Lemma entries_nonneg n : 0 ≤ node_entries n.
Proof.
  revert n. apply node_ind_strong; [by intros []| |]; intros l fin H; simpl;
    induction H as [|x l Hx _ IH]; simpl; [done| |done|]; simpl in Hx, IH; lia.
Qed.

Lemma charge_pos r : 1 ≤ r → charge r = Ok (r - 1).
Proof. intros H. unfold charge. by rewrite (proj2 (Z.ltb_ge _ _)). Qed.

Lemma visit_items_complete items d r :
  Forall visit_complete items →
  foldr (λ n acc, node_ok n (MAX_DOCUMENT_DEPTH - d) ∧ acc) True items →
  foldr (λ n acc, 1 + node_entries n + acc) 0 items ≤ r →
  ∃ vs, visit_items (λ n, visit n d) items None r =
        Ok (vs, r - foldr (λ n acc, 1 + node_entries n + acc) 0 items).
Proof.
  intros Hf. revert r. induction Hf as [|n items Hn _ IH]; intros r Hok Hr; simpl in *.
  - exists []. by rewrite Z.sub_0_r.
  - destruct Hok as [H1 H2]. pose proof (entries_nonneg n).
    assert (0 ≤ foldr (λ n acc, 1 + node_entries n + acc) 0 items).
    { clear. induction items as [|x l IH]; simpl; [done|]. pose proof (entries_nonneg x). lia. }
    rewrite charge_pos by lia. destruct (Hn d (r - 1) H1) as [v Hv]; [lia|]. rewrite Hv.
    destruct (IH (r - 1 - node_entries n) H2) as [vs Hvs]; [lia|]. rewrite Hvs.
    exists (v :: vs). do 2 f_equal. lia.
Qed.

Lemma visit_entries_complete entries d acc r :
  Forall (visit_complete ∘ snd) entries →
  foldr (λ kn acc, node_ok (snd kn) (MAX_DOCUMENT_DEPTH - d) ∧ acc) True entries →
  foldr (λ kn acc, 1 + node_entries (snd kn) + acc) 0 entries ≤ r →
  lit "<<" ∉ keys entries → NoDup (keys entries) → (∀ k, k ∈ keys entries → bget k acc = None) →
  bmap_wf acc →
  ∃ m, visit_entries (λ n, visit n d) entries None acc r =
       Ok (m, r - foldr (λ kn acc, 1 + node_entries (snd kn) + acc) 0 entries).
Proof.
  intros Hf. revert acc r. induction Hf as [|[k n] entries Hn _ IH]; intros acc r Hok Hr Hm Hnd Hacc Hwf; simpl in *.
  - exists acc. by rewrite Z.sub_0_r.
  - destruct Hok as [H1 H2]. pose proof (entries_nonneg n). rewrite elem_of_cons in Hm.
    apply NoDup_cons in Hnd as [Hk Hnd].
    assert (0 ≤ foldr (λ kn acc, 1 + node_entries (snd kn) + acc) 0 entries).
    { clear. induction entries as [|x l IH]; simpl; [done|]. pose proof (entries_nonneg (snd x)). lia. }
    rewrite charge_pos by lia. rewrite (proj2 (eq_str_false k (lit "<<"))) by naive_solver.
    unfold bcontains. rewrite Hacc by constructor. simpl.
    destruct (Hn d (r - 1) H1) as [v Hv]; [lia|]. rewrite Hv.
    destruct (IH (binsert k v acc) (r - 1 - node_entries n) H2) as [m Hvs]; [lia|naive_solver|done| | |].
    + intros k' Hk'. rewrite bget_binsert by done. rewrite decide_False by congruence.
      apply Hacc. by constructor.
    + by apply binsert_wf.
    + rewrite Hvs. exists m. do 2 f_equal. lia.
Qed.

Lemma visit_complete_all n : visit_complete n.
Proof.
  apply node_ind_strong; [clear n; intros n|intros items fin IH|intros entries fin IH].
  - destruct n; try done; intros d r Hok Hr; simpl in *; rewrite ?Z.sub_0_r; subst; naive_solver.
  - intros d r Hok Hr. simpl in Hok. destruct Hok as (-> & Hd & Hok). cbn [visit].
    rewrite (proj2 (Z.leb_gt MAX_DOCUMENT_DEPTH d)) by lia.
    destruct (visit_items_complete items (d + 1) r IH) as [vs ->]; [|done|by eexists].
    by replace (MAX_DOCUMENT_DEPTH - (d + 1)) with (MAX_DOCUMENT_DEPTH - d - 1) by lia.
  - intros d r Hok Hr. simpl in Hok. destruct Hok as (-> & Hd & Hm & Hnd & Hok). cbn [visit].
    rewrite (proj2 (Z.leb_gt MAX_DOCUMENT_DEPTH d)) by lia.
    destruct (visit_entries_complete entries (d + 1) [] r IH) as [m ->];
      [|done|done|done|done|constructor|by eexists].
    by replace (MAX_DOCUMENT_DEPTH - (d + 1)) with (MAX_DOCUMENT_DEPTH - d - 1) by lia.
Qed.

Lemma document_Ok_wf n v : document n = Ok v → document_wf v.
Proof.
  unfold document. destruct (visit n 0 _) as [[v' r]|] eqn:E; [|done]. intros [= <-].
  apply visit_sound_all in E as (-> & ? & ? & ?); [|done|done].
  unfold document_wf. split_and!; [lia|lia|done].
Qed.

Lemma documents_wf ns fin vs : documents ns fin = Ok vs → Forall document_wf vs.
Proof.
  revert vs. induction ns as [|n ns IH]; intros vs; simpl.
  - destruct fin; [done|]. intros [= <-]. constructor.
  - destruct (document n) as [v|] eqn:E; [|done]. destruct (documents ns fin) as [vs'|]; [|done].
    intros [= <-]. constructor; [by eapply document_Ok_wf|by apply IH].
Qed.

Lemma yaml_value_wf json yaml spawn s v : yaml_value json yaml spawn s = Ok v →
  document_wf v ∧ len s ≤ MAX_SOURCE_BYTES.
Proof.
  unfold yaml_value. destruct (_ <? _) eqn:El; [done|]. destruct_bool. intros H. split; [|done].
  assert (yaml_value_inner yaml s = Ok v → document_wf v) as Hin.
  { unfold yaml_value_inner. destruct (yaml s) as [ns fin].
    destruct (documents ns fin) as [vs|] eqn:E; [|done]. cbn [map_err]. intros [= <-].
    apply documents_wf in E. destruct (last vs) as [v'|] eqn:Ev; [|by unfold document_wf].
    apply last_Some in Ev as [l ->]. apply Forall_app in E as [_ E]. by inversion E. }
  assert (on_document_stack spawn s (yaml_value_inner yaml s) = Ok v → document_wf v) as Hst.
  { unfold on_document_stack. destruct (deep_from s 0 0); [|done]. by destruct spawn. }
  destruct (forallb _ _ && _ && _) in H; [|by apply Hst].
  destruct (json_document json s) as [v'|] eqn:E; [|by apply Hst].
  destruct (exact_json_scalars v'); [|by apply Hst]. simplify_eq.
  unfold json_document in E. destruct (json s) as [n fin].
  destruct (document n) as [v'|] eqn:En; [|done]. destruct fin; [done|]. simpl in E. simplify_eq.
  by eapply document_Ok_wf.
Qed.

(** ** Properties *)

(** Every document the program accepts, from the JSON fast path or from YAML, is an
    object with at most 262144 collection entries nested at most 129 deep, whose objects
    have distinct keys and no merge key at any level, and comes from at most 16 MiB. *)
Theorem parse_document_bounded json yaml spawn s v : parse_document json yaml spawn s = Ok v →
  document_wf v ∧ len s ≤ MAX_SOURCE_BYTES ∧ is_Some (as_object v).
Proof.
  unfold parse_document. destruct (yaml_value json yaml spawn s) as [v'|] eqn:E; [|done].
  destruct (as_object v') eqn:Eo; [|done]. intros [= <-]. apply yaml_value_wf in E as [? ?].
  rewrite Eo. done.
Qed.

(** The event tree of the source [mode: rule] (12 bytes with its line end). *)
Definition sample_events (_ : str) : list Node * option DeError :=
  ([NMap [(lit "mode", NStr (lit "rule")); (lit "rules", NSeq [NStr (lit "MATCH,DIRECT")] None)] None], None).

Lemma parse_document_bounded_witness :
  document_wf (VObject [(lit "mode", VString (lit "rule")); (lit "rules", VArray [VString (lit "MATCH,DIRECT")])]).
Proof.
  refine (proj1 (parse_document_bounded (λ _, (NUnit, None)) sample_events Joined (lit "mode: rule") _ _)).
  vm_compute. reflexivity.
Defined.

(** Conversely the limits are exact: an event tree without reported errors, with
    distinct non-merge keys and finite numbers, nested at most 129 deep and with at most
    262144 entries is always accepted. *)
Theorem document_complete n :
  node_ok n MAX_DOCUMENT_DEPTH → node_entries n ≤ MAX_COLLECTION_ENTRIES →
  ∃ v, document n = Ok v ∧ document_wf v.
Proof.
  intros Hok Hn. destruct (visit_complete_all n 0 MAX_COLLECTION_ENTRIES) as [v Hv]; [done|done|].
  assert (document n = Ok v) as Hd by (unfold document; by rewrite Hv).
  exists v. split; [done|]. by eapply document_Ok_wf.
Qed.

Lemma document_complete_witness :
  ∃ v, document (NMap [(lit "b", NSeq [NUnit; NI64 (-1)] None); (lit "a", NMap [] None)] None) = Ok v
       ∧ document_wf v.
Proof.
  apply document_complete.
  - cbn [node_ok foldr fst snd]. split_and!;
      first [done | apply (bool_decide_unpack _); vm_compute; exact I].
  - vm_compute. discriminate.
Defined.
