(* ===== verification/Geoip.v ===== *)
(** * GEOIP table (src/src/config.rs, [geoip_country])

    The ordered table of IPv4 ranges; the first range that contains the address names
    its country, IPv6 addresses have none. *)
From S2P Require Import Prelude Net.

Definition geoip_entries_head : list (Z * Z * string) := [
  (0x01000000, 0x01ffffff, "CN");
  (0x0a000000, 0x0affffff, "CN");
  (0x22300000, 0x223fffff, "CN");
  (0x2e000000, 0x2effffff, "CN");
  (0x3a800000, 0x3abfffff, "CN");
  (0x3c000000, 0x3dffffff, "CN");
  (0x3e000000, 0x3effffff, "CN");
  (0x59300000, 0x593fffff, "CN");
  (0x63000000, 0x63ffffff, "CN");
  (0x67000000, 0x67ffffff, "CN");
  (0xa0000000, 0xa000ffff, "CN");
  (0xa1a80000, 0xa1a8ffff, "CN");
  (0xac100000, 0xac1fffff, "CN");
  (0xb7000000, 0xb7ffffff, "CN");
  (0xbc000000, 0xbdffffff, "CN");
  (0xc0000000, 0xc0ffffff, "CN");
  (0xd8000000, 0xdfffffff, "CN");
  (0x01000000, 0x01ffffff, "US");
  (0x02000000, 0x02ffffff, "US");
  (0x03000000, 0x03ffffff, "US");
  (0x04000000, 0x04ffffff, "US");
  (0x06000000, 0x07ffffff, "US");
  (0x08000000, 0x08ffffff, "US");
  (0x09000000, 0x09ffffff, "US");
  (0x0b000000, 0x0bffffff, "US");
  (0x0c000000, 0x0dffffff, "US");
  (0x0e000000, 0x0effffff, "US");
  (0x11000000, 0x11ffffff, "US");
  (0x12000000, 0x12ffffff, "US");
  (0x17000000, 0x17ffffff, "US");
  (0x18000000, 0x18ffffff, "US");
  (0x1a000000, 0x1affffff, "US");
  (0x1b000000, 0x1bffffff, "US");
  (0x1c000000, 0x1cffffff, "US");
  (0x1d000000, 0x1dffffff, "US");
  (0x1e000000, 0x1effffff, "US");
  (0x1f000000, 0x1fffffff, "US");
  (0x20000000, 0x20ffffff, "US");
  (0x21000000, 0x21ffffff, "US");
  (0x22000000, 0x22ffffff, "US");
  (0x23000000, 0x23ffffff, "US");
  (0x24000000, 0x24ffffff, "US");
  (0x26000000, 0x26ffffff, "US");
  (0x27000000, 0x27ffffff, "US");
  (0x28000000, 0x28ffffff, "US");
  (0x29000000, 0x29ffffff, "US");
  (0x2a000000, 0x2affffff, "US");
  (0x2b000000, 0x2bffffff, "US");
  (0x2c000000, 0x2cffffff, "US");
  (0x2d000000, 0x2dffffff, "US");
  (0x2f000000, 0x2fffffff, "US");
  (0x30000000, 0x30ffffff, "US");
  (0x32000000, 0x32ffffff, "US");
  (0x33000000, 0x33ffffff, "US");
  (0x34000000, 0x35ffffff, "US");
  (0x36000000, 0x37ffffff, "US");
  (0x38000000, 0x39ffffff, "US");
  (0x3f000000, 0x3fffffff, "US");
  (0x44000000, 0x45ffffff, "US");
  (0x47000000, 0x47ffffff, "US");
  (0x48000000, 0x48ffffff, "US");
  (0x49000000, 0x49ffffff, "US");
  (0x4a000000, 0x4affffff, "US");
  (0x4b000000, 0x4bffffff, "US");
  (0x4c000000, 0x4cffffff, "US");
  (0x4d000000, 0x4dffffff, "US");
  (0x4e000000, 0x4fffffff, "US");
  (0x50000000, 0x50ffffff, "US");
  (0x52000000, 0x52ffffff, "US");
  (0x53000000, 0x53ffffff, "US");
  (0x54000000, 0x55ffffff, "US");
  (0x8b000000, 0x8bffffff, "US");
  (0x8d000000, 0x8dffffff, "US");
  (0x8e000000, 0x8effffff, "US");
  (0x91000000, 0x91ffffff, "US");
  (0x96000000, 0x96ffffff, "US");
  (0x98000000, 0x98ffffff, "US");
  (0x99000000, 0x99ffffff, "US");
  (0xc0000200, 0xc00002ff, "US");
  (0xc0586300, 0xc05863ff, "US");
  (0xc6120000, 0xc613ffff, "US");
  (0xc7000000, 0xc7ffffff, "US");
  (0x29000000, 0x29ffffff, "JP");
  (0x51000000, 0x51ffffff, "JP");
  (0x60000000, 0x60ffffff, "JP");
  (0x76000000, 0x76ffffff, "JP");
  (0x8a000000, 0x8affffff, "JP");
  (0xa2000000, 0xa2ffffff, "JP");
  (0xa9000000, 0xa9ffffff, "JP");
  (0xc2000000, 0xc2ffffff, "JP");
  (0xc5000000, 0xc5ffffff, "JP");
  (0xc6000000, 0xc6ffffff, "JP");
  (0x2b000000, 0x2bffffff, "HK");
  (0x3b400000, 0x3b7fffff, "HK");
  (0x57000000, 0x57ffffff, "HK");
  (0x61000000, 0x61ffffff, "HK");
  (0xa1000000, 0xa1ffffff, "HK");
  (0xce000000, 0xceffffff, "HK");
  (0xcf000000, 0xcfffffff, "HK");
  (0x2f000000, 0x2fffffff, "SG");
  (0x3e800000, 0x3e8fffff, "SG");
  (0x67000000, 0x67ffffff, "SG");
  (0x8c000000, 0x8cffffff, "SG");
  (0xc1000000, 0xc1ffffff, "SG");
  (0x3a000000, 0x3a3fffff, "KR");
  (0x57000000, 0x57ffffff, "KR");
  (0x7a000000, 0x7affffff, "KR");
  (0xa5000000, 0xa5ffffff, "KR");
  (0xd5000000, 0xd5ffffff, "KR");
  (0xd9000000, 0xd9ffffff, "KR");
  (0xe0000000, 0xe0ffffff, "KR");
  (0x05000000, 0x05ffffff, "RU");
  (0x1f000000, 0x1f1fffff, "RU");
  (0x2d000000, 0x2dffffff, "RU");
  (0x5f000000, 0x5fffffff, "RU");
  (0x77000000, 0x77ffffff, "RU");
  (0x7b000000, 0x7bffffff, "RU");
  (0x85000000, 0x85ffffff, "RU");
  (0x8f000000, 0x8fffffff, "RU");
  (0x90000000, 0x90ffffff, "RU");
  (0x92000000, 0x92ffffff, "RU");
  (0x94000000, 0x94ffffff, "RU");
  (0x9d000000, 0x9dffffff, "RU");
  (0xb3000000, 0xb3ffffff, "RU");
  (0xb7000000, 0xb7ffffff, "RU");
  (0xc2000000, 0xc2ffffff, "RU");
  (0xc7000000, 0xc7ffffff, "RU");
  (0xcb000000, 0xcbffffff, "RU");
  (0xd4000000, 0xd4ffffff, "RU");
  (0xd8000000, 0xd8ffffff, "RU");
  (0x02000000, 0x02ffffff, "GB");
  (0x1e000000, 0x1effffff, "GB");
  (0x5c000000, 0x5dffffff, "GB");
  (0x81000000, 0x81ffffff, "GB");
  (0x8b000000, 0x8bffffff, "GB");
  (0xa3000000, 0xa3ffffff, "GB");
  (0xb1000000, 0xb1ffffff, "GB");
  (0xb2000000, 0xb2ffffff, "GB");
  (0xb3000000, 0xb3ffffff, "GB");
  (0xb8000000, 0xb8ffffff, "GB");
  (0xb9000000, 0xb9ffffff, "GB");
  (0xc3000000, 0xc3ffffff, "GB")
].

Definition geoip_entries_tail : list (Z * Z * string) := [
  (0xc4000000, 0xc4ffffff, "GB");
  (0x03000000, 0x03ffffff, "DE");
  (0x2f000000, 0x2fffffff, "DE");
  (0x4d000000, 0x4dffffff, "DE");
  (0x53000000, 0x53ffffff, "DE");
  (0x78000000, 0x79ffffff, "DE");
  (0x87000000, 0x87ffffff, "DE");
  (0x93000000, 0x93ffffff, "DE");
  (0xa0000000, 0xa0ffffff, "DE");
  (0xa4000000, 0xa4ffffff, "DE");
  (0xae000000, 0xaeffffff, "DE");
  (0xba000000, 0xbaffffff, "DE");
  (0xc3000000, 0xc3ffffff, "DE");
  (0x05000000, 0x05ffffff, "FR");
  (0x50000000, 0x50ffffff, "FR");
  (0x5a000000, 0x5affffff, "FR");
  (0x5f000000, 0x5fffffff, "FR");
  (0x81000000, 0x81ffffff, "FR");
  (0x83000000, 0x83ffffff, "FR");
  (0x88000000, 0x88ffffff, "FR");
  (0x89000000, 0x89ffffff, "FR");
  (0x90000000, 0x90ffffff, "FR");
  (0x93000000, 0x93ffffff, "FR");
  (0x9a000000, 0x9affffff, "FR");
  (0xa7000000, 0xa7ffffff, "FR");
  (0xa9000000, 0xa9ffffff, "FR");
  (0xbc000000, 0xbcffffff, "FR");
  (0xc0000000, 0xc0ffffff, "FR");
  (0x01000000, 0x01ffffff, "AU");
  (0x1e000000, 0x1effffff, "AU");
  (0x27000000, 0x27ffffff, "AU");
  (0x2e000000, 0x2effffff, "AU");
  (0x3b000000, 0x3bffffff, "AU");
  (0x61000000, 0x61ffffff, "AU");
  (0x97000000, 0x97ffffff, "AU");
  (0x9e000000, 0x9effffff, "AU");
  (0xa5000000, 0xa5ffffff, "AU");
  (0xb7000000, 0xb7ffffff, "AU");
  (0xbd000000, 0xbdffffff, "AU");
  (0xc0000000, 0xc0ffffff, "AU");
  (0xc1000000, 0xc1ffffff, "AU");
  (0xc7000000, 0xc7ffffff, "AU");
  (0xce000000, 0xceffffff, "AU");
  (0xd4000000, 0xd4ffffff, "AU");
  (0xd9000000, 0xd9ffffff, "AU");
  (0x02000000, 0x02ffffff, "CA");
  (0x0a000000, 0x0affffff, "CA");
  (0x1c000000, 0x1cffffff, "CA");
  (0x1f000000, 0x1fffffff, "CA");
  (0x24000000, 0x24ffffff, "CA");
  (0x2f000000, 0x2fffffff, "CA");
  (0x3a000000, 0x3affffff, "CA");
  (0x47000000, 0x47ffffff, "CA");
  (0x4a000000, 0x4affffff, "CA");
  (0x54000000, 0x55ffffff, "CA");
  (0x63000000, 0x63ffffff, "CA");
  (0x64000000, 0x65ffffff, "CA");
  (0x69000000, 0x69ffffff, "CA");
  (0x6c000000, 0x6cffffff, "CA");
  (0x71000000, 0x71ffffff, "CA");
  (0x72000000, 0x72ffffff, "CA");
  (0x7d000000, 0x7dffffff, "CA");
  (0x80000000, 0x80ffffff, "CA");
  (0x84000000, 0x84ffffff, "CA");
  (0x86000000, 0x86ffffff, "CA");
  (0x8c000000, 0x8cffffff, "CA");
  (0x92000000, 0x92ffffff, "CA");
  (0x96000000, 0x96ffffff, "CA");
  (0x9a000000, 0x9affffff, "CA");
  (0xa3000000, 0xa3ffffff, "CA");
  (0xa6000000, 0xa6ffffff, "CA");
  (0xa7000000, 0xa7ffffff, "CA");
  (0xb2000000, 0xb2ffffff, "CA");
  (0xb4000000, 0xb4ffffff, "CA");
  (0xb8000000, 0xb8ffffff, "CA");
  (0xc2000000, 0xc2ffffff, "CA");
  (0xc3000000, 0xc3ffffff, "CA");
  (0xc4000000, 0xc4ffffff, "CA");
  (0xc5000000, 0xc5ffffff, "CA");
  (0xc7000000, 0xc7ffffff, "CA");
  (0xca000000, 0xcaffffff, "CA");
  (0xd4000000, 0xd4ffffff, "CA");
  (0xd6000000, 0xd6ffffff, "CA");
  (0x05000000, 0x05ffffff, "NL");
  (0x31000000, 0x31ffffff, "NL");
  (0x4d000000, 0x4dffffff, "NL");
  (0x81000000, 0x81ffffff, "NL");
  (0x83000000, 0x83ffffff, "NL");
  (0x91000000, 0x91ffffff, "NL");
  (0x94000000, 0x94ffffff, "NL");
  (0x9d000000, 0x9dffffff, "NL");
  (0xa2000000, 0xa2ffffff, "NL");
  (0xa9000000, 0xa9ffffff, "NL");
  (0xba000000, 0xbaffffff, "NL");
  (0xc0000000, 0xc0ffffff, "NL");
  (0xc1000000, 0xc1ffffff, "NL");
  (0xc2000000, 0xc2ffffff, "NL");
  (0xc3000000, 0xc3ffffff, "NL");
  (0x01000000, 0x01ffffff, "IN");
  (0x2f000000, 0x2fffffff, "IN");
  (0x59000000, 0x59ffffff, "IN");
  (0x61000000, 0x61ffffff, "IN");
  (0x9e000000, 0x9effffff, "IN");
  (0xa4000000, 0xa4ffffff, "IN");
  (0xc0000000, 0xc0ffffff, "IN");
  (0x01000000, 0x01ffffff, "TW");
  (0x3b400000, 0x3b7fffff, "TW");
  (0x57000000, 0x57ffffff, "TW");
  (0x61000000, 0x61ffffff, "TW");
  (0xa1000000, 0xa1ffffff, "TW");
  (0xce000000, 0xceffffff, "TW");
  (0xcf000000, 0xcfffffff, "TW");
  (0x01000000, 0x01ffffff, "BR");
  (0x5f000000, 0x5fffffff, "BR");
  (0x64000000, 0x65ffffff, "BR");
  (0x8d000000, 0x8dffffff, "BR");
  (0x96000000, 0x96ffffff, "BR");
  (0xa9000000, 0xa9ffffff, "BR");
  (0xb1000000, 0xb1ffffff, "BR");
  (0xb2000000, 0xb2ffffff, "BR");
  (0xb7000000, 0xb7ffffff, "BR");
  (0xbd000000, 0xbdffffff, "BR");
  (0xc0000000, 0xc0ffffff, "BR");
  (0xc1000000, 0xc1ffffff, "BR");
  (0xc2000000, 0xc2ffffff, "BR");
  (0xc3000000, 0xc3ffffff, "BR");
  (0xc4000000, 0xc4ffffff, "BR");
  (0xc5000000, 0xc5ffffff, "BR");
  (0xc7000000, 0xc7ffffff, "BR");
  (0xc8000000, 0xc8ffffff, "BR");
  (0xc9000000, 0xc9ffffff, "BR");
  (0xca000000, 0xcaffffff, "BR");
  (0xcb000000, 0xcbffffff, "BR");
  (0xcc000000, 0xccffffff, "BR");
  (0xcd000000, 0xcdffffff, "BR");
  (0xce000000, 0xceffffff, "BR");
  (0xcf000000, 0xcfffffff, "BR")
].
Definition geoip_entries : list (Z * Z * string) := geoip_entries_head ++ geoip_entries_tail.

Definition in_entry (ip : Z) (e : Z * Z * string) : bool :=
  let '(first, last, _) := e in (first <=? ip) && (ip <=? last).

(** [ENTRIES.iter().find(...).map(|entry| entry.2)] *)
Fixpoint find_country (ip : Z) (es : list (Z * Z * string)) : option string :=
  match es with
  | [] => None
  | e :: es => if in_entry ip e then Some e.2 else find_country ip es
  end.

Definition geoip_country (ip : IpAddr) : option str :=
  match ip with
  | V4 a b c d => lit <$> find_country (v4_u32 a b c d) geoip_entries
  | V6 _ => None
  end.

(** ** Deciding that a country is never the answer

    [covered es lo hi]: every address of [lo..hi] lies in some range of [es]. The check
    walks upwards from [lo], each step jumping behind a range that contains the point. *)

Definition jump (es : list (Z * Z * string)) (p : Z) : Z :=
  foldr (λ e m, let '(first, last, _) := e in
                if (first <=? p) && (p <=? last) then Z.max m (last + 1) else m) p es.

Fixpoint covered (fuel : nat) (es : list (Z * Z * string)) (lo hi : Z) : bool :=
  if hi <? lo then true
  else match fuel with
       | O => false
       | S fuel => let next := jump es lo in if lo <? next then covered fuel es next hi else false
       end.

(** Every range of [country] in the table is covered by the ranges before it. *)
Fixpoint shadowed (fuel : nat) (country : string) (before es : list (Z * Z * string)) : bool :=
  match es with
  | [] => true
  | (first, last, c) :: es' =>
      (if bool_decide (c = country) then covered fuel before first last else true)
      && shadowed fuel country (before ++ [(first, last, c)]) es'
  end.

Lemma find_country_app ip a b :
  find_country ip (a ++ b) = match find_country ip a with Some c => Some c | None => find_country ip b end.
Proof. induction a as [|e a IH]; simpl; [done|]. by destruct (in_entry ip e). Qed.

Lemma jump_spec es p q : p ≤ q < jump es p → is_Some (find_country q es).
Proof.
  induction es as [|[[f l] c] es IH]; [simpl; lia|]. intros Hq. cbn in Hq. fold (jump es p) in Hq.
  cbn [find_country]. unfold in_entry.
  destruct ((f <=? q) && (q <=? l)) eqn:E; [done|].
  apply IH. destruct ((f <=? p) && (p <=? l)) eqn:Ep; [|done].
  destruct_bool. apply andb_false_iff in E as [E|E]; destruct_bool; lia.
Qed.

Lemma covered_spec fuel es lo hi q :
  covered fuel es lo hi = true → lo ≤ q ≤ hi → is_Some (find_country q es).
Proof.
  revert lo. induction fuel as [|fuel IH]; intros lo; simpl; intros Hc Hq.
  - destruct (hi <? lo) eqn:E; [blia|done].
  - destruct (hi <? lo) eqn:E; [blia|].
    destruct (lo <? jump es lo) eqn:Ej; [|done].
    destruct (decide (q < jump es lo)).
    + apply (jump_spec es lo). lia.
    + apply (IH (jump es lo)); [done|lia].
Qed.

Lemma shadowed_spec fuel country before es ip :
  shadowed fuel country before es = true → find_country ip before = None →
  find_country ip es ≠ Some country.
Proof.
  revert before. induction es as [|[[f l] c] es IH]; intros before; [done|].
  intros H Hb. cbn [shadowed] in H. apply andb_prop in H as [H1 H2]. cbn [find_country].
  destruct (in_entry ip (f, l, c)) eqn:E.
  - simpl. intros [= ->]. rewrite bool_decide_eq_true_2 in H1 by done.
    unfold in_entry in E. destruct_bool.
    destruct (covered_spec _ _ _ _ ip H1) as [x Hx]; [lia|]. congruence.
  - eapply IH; [exact H2|]. rewrite find_country_app, Hb. cbn [find_country]. by rewrite E.
Qed.

(** A country whose every range is shadowed is never the country of an address. *)
Lemma geoip_shadowed country ip :
  shadowed 600 country [] geoip_entries = true → geoip_country ip ≠ Some (lit country).
Proof.
  intros H. destruct ip as [a b c d|segs]; [|done]. unfold geoip_country.
  destruct (find_country (v4_u32 a b c d) geoip_entries) as [x|] eqn:E; [|done]. simpl. intros [= Hx].
  apply lit_inj in Hx as ->. revert E. by apply (shadowed_spec 600 country []).
Qed.

(** The first matching range decides: an answer comes from an entry of the table that
    contains the address, and no earlier entry contains it. *)
Lemma find_country_first ip es c :
  find_country ip es = Some c →
  ∃ before f l after, es = before ++ (f, l, c) :: after ∧ f ≤ ip ≤ l ∧
    Forall (λ e, in_entry ip e = false) before.
Proof.
  induction es as [|[[f l] x] es IH]; [done|]. cbn [find_country].
  destruct (in_entry ip (f, l, x)) eqn:E.
  - intros [= <-]. exists [], f, l, es. unfold in_entry in E. destruct_bool. done.
  - intros H. destruct (IH H) as (b & f' & l' & a & -> & Hr & Hf).
    exists ((f, l, x) :: b), f', l', a. split_and!; try done || lia. by constructor.
Qed.

Example geoip_10 : geoip_country (V4 10 1 2 3) = Some (lit "CN").
Proof. vm_compute. reflexivity. Qed.

(** The table's first match decides, which makes the last country of the table
    unreachable: every range it lists for [TW] lies inside ranges listed earlier for other
    countries, so no address is ever classified as [TW] and a [GEOIP,TW] rule never matches. *)
Theorem geoip_tw_unreachable ip : geoip_country ip ≠ Some (lit "TW").
Proof. apply geoip_shadowed. vm_compute. reflexivity. Qed.
