(* ===== verification/Rules.v ===== *)
(** * Routing rules (src/src/config.rs: [Rule], [Matcher], [parse_port])

    The textual rules of a configuration, parsed into matchers that name a proxy or
    group by index. CIDR networks are the [ipnet] crate's, an interface here. *)
From S2P Require Import Prelude Utf8 Net Target.

(** ** The [ipnet] interface *)

Class IpNetLib := {
  IpNet : Type;
  (** [str::parse::<IpNet>()] *)
  ipnet_parse : str → option IpNet;
  (** [network.addr().is_ipv4()] *)
  ipnet_is_ipv4 : IpNet → bool;
  (** [network.contains(&ip)] *)
  ipnet_contains : IpNet → IpAddr → bool;
}.

Inductive Matcher `{IpNetLib} :=
| Domain (name : str)
| DomainSuffix (name : str)
| DomainKeyword (name : str)
| Ip (network : IpNet) (no_resolve : bool)
| DestinationPort (first last : Z)
| SourcePort (first last : Z)
| SourceIp (network : IpNet)
| ProcessName (name : str)
| GeoIp (country : str) (no_resolve : bool)
| Match.

Record Rule `{IpNetLib} := mkRule {
  matcher : Matcher;
  proxy : nat;
  kind : str;
  payload : str;
}.

Arguments mkRule {_} _ _ _ _.
Arguments matcher {_} _.
Arguments proxy {_} _.
Arguments kind {_} _.
Arguments payload {_} _.

(** ** Operations *)

Definition parse_port (port : str) : res Z :=
  if bool_decide (port = []) || negb (forallb is_ascii_digit port)
  then Err "DST-PORT requires a decimal port or port range"
  else
    let! port := ok_or (parse_uint u16_max port) "DST-PORT must be between 1 and 65535" in
    if port =? 0 then Err "DST-PORT must be between 1 and 65535" else Ok port.

Definition controller_message : string :=
  "external-controller must be explicit 127.0.0.1:<port> or 0.0.0.0:<port>".

Definition parse_controller_endpoint (endpoint : str) : res SocketAddr :=
  let! '(host, port) := ok_or (split_once 58 endpoint) controller_message in
  let! address :=
    (if eq_str host (lit "127.0.0.1") then Ok (V4 127 0 0 1)
     else if eq_str host (lit "0.0.0.0") then Ok (V4 0 0 0 0)
     else Err controller_message) in
  let! port := parse_port port in
  Ok (mkSocketAddr address port).

Definition canonical_domain (domain : str) : str := to_ascii_lowercase (strip_dot domain).

(** [source.split(',').take(5).map(|f| f.trim_matches([' ', '\t']))] *)
Definition rule_fields (source : str) : list str := trim_blank <$> take 5 (split_byte 44 source).

Definition unsupported_rule : string :=
  "unsupported or invalid rule; PROCESS-PATH and recursive RULE-SET are not supported".

Section Parse.
Context `{IpNetLib}.

Definition domain_matcher (kind payload : str) : res Matcher :=
  let! _ :=
    (if negb (eq_str kind (lit "DOMAIN-KEYWORD"))
     then map_err (λ _, "domain rule payload must be a valid ASCII DNS name"%string) (target_new payload 1)
     else Ok (mkTarget [] 0)) in
  let payload := canonical_domain payload in
  if bool_decide (payload = []) || negb (forallb is_ascii payload)
     || existsb (λ b, is_ascii_whitespace b || is_ascii_control b) payload
  then Err "domain rule payload must be nonempty ASCII without whitespace or control characters"
  else Ok (if eq_str kind (lit "DOMAIN") then Domain payload
           else if eq_str kind (lit "DOMAIN-SUFFIX") then DomainSuffix payload
           else DomainKeyword payload).

Definition ip_matcher (kind payload : str) (no_resolve : bool) : res Matcher :=
  let! network := ok_or (ipnet_parse payload) "IP rule requires a valid CIDR network"%string in
  if negb (Bool.eqb (eq_str kind (lit "IP-CIDR")) (ipnet_is_ipv4 network))
  then Err "IP-CIDR requires IPv4; IP-CIDR6 requires IPv6"
  else Ok (Ip network no_resolve).

Definition source_ip_matcher (payload : str) : res Matcher :=
  let! network := ok_or (ipnet_parse payload) "source IP rule requires a valid IPv4 CIDR network"%string in
  if negb (ipnet_is_ipv4 network) then Err "SRC-IP-CIDR requires IPv4"
  else Ok (SourceIp network).

Definition port_matcher (kind payload : str) : res Matcher :=
  let '(first, last) := default (payload, payload) (split_once 45 payload) in
  let! first := parse_port first in
  let! last := parse_port last in
  if last <? first then Err "DST-PORT range must be ascending"
  else Ok (if eq_str kind (lit "DST-PORT") then DestinationPort first last
           else SourcePort first last).

(** The [match fields.as_slice()] of [Rule::parse]: the matcher and the target's name. *)
Definition rule_matcher (fields : list str) : res (Matcher * str) :=
  match fields with
  | [kind; name] =>
      if eq_str kind (lit "MATCH") then Ok (Match, name) else Err unsupported_rule
  | [kind; payload; name] =>
      if one_of kind ["DOMAIN"; "DOMAIN-SUFFIX"; "DOMAIN-KEYWORD"] then
        let! m := domain_matcher kind payload in Ok (m, name)
      else if one_of kind ["IP-CIDR"; "IP-CIDR6"] then
        let! m := ip_matcher kind payload false in Ok (m, name)
      else if eq_str kind (lit "SRC-IP-CIDR") then
        let! m := source_ip_matcher payload in Ok (m, name)
      else if eq_str kind (lit "PROCESS-NAME") && negb (bool_decide (payload = [])) then
        Ok (ProcessName payload, name)
      else if eq_str kind (lit "GEOIP") && negb (bool_decide (payload = [])) then
        Ok (GeoIp payload false, name)
      else if one_of kind ["DST-PORT"; "SRC-PORT"] then
        let! m := port_matcher kind payload in Ok (m, name)
      else Err unsupported_rule
  | [kind; payload; name; option] =>
      if negb (eq_str option (lit "no-resolve")) then Err unsupported_rule
      else if one_of kind ["IP-CIDR"; "IP-CIDR6"] then
        let! m := ip_matcher kind payload true in Ok (m, name)
      else if eq_str kind (lit "GEOIP") && negb (bool_decide (payload = [])) then
        Ok (GeoIp payload true, name)
      else Err unsupported_rule
  | _ => Err unsupported_rule
  end.

Definition unknown_target : string := "rule references an unknown proxy or group".

(** [Rule::parse] *)
Definition rule_parse (source : str) (names : gmap str nat) : res Rule :=
  let fields := rule_fields source in
  let! '(m, name) := rule_matcher fields in
  let! proxy := ok_or (names !! name) unknown_target in
  let kind := default [] (fields !! 0%nat) in
  Ok (mkRule m proxy kind
        (if eq_str kind (lit "MATCH") then [] else default [] (fields !! 1%nat))).

(** [inherit_no_resolve] (config_provider.rs) *)
Definition inherit_no_resolve (r : Rule) : Rule :=
  match matcher r with
  | Ip network _ => mkRule (Ip network true) (proxy r) (kind r) (payload r)
  | GeoIp country _ => mkRule (GeoIp country true) (proxy r) (kind r) (payload r)
  | _ => r
  end.

Definition is_match (r : Rule) : bool := match matcher r with Match => true | _ => false end.

(** ** What a parsed matcher satisfies *)

Definition domain_payload_wf (p : str) : Prop :=
  p ≠ [] ∧ Forall (λ b, b < 128 ∧ 32 < b ∧ b ≠ 127 ∧ is_ascii_upper b = false) p.

Definition port_range_wf (first last : Z) : Prop := 1 ≤ first ∧ first ≤ last ∧ last ≤ 65535.

(** The matcher agrees with the rule's keyword and its operands are in range. *)
Definition matcher_wf (kind : str) (m : Matcher) : Prop :=
  match m with
  | Domain p => kind = lit "DOMAIN" ∧ domain_payload_wf p
  | DomainSuffix p => kind = lit "DOMAIN-SUFFIX" ∧ domain_payload_wf p
  | DomainKeyword p => kind = lit "DOMAIN-KEYWORD" ∧ domain_payload_wf p
  | Ip n _ => (kind = lit "IP-CIDR" ∧ ipnet_is_ipv4 n = true) ∨
              (kind = lit "IP-CIDR6" ∧ ipnet_is_ipv4 n = false)
  | DestinationPort a b => kind = lit "DST-PORT" ∧ port_range_wf a b
  | SourcePort a b => kind = lit "SRC-PORT" ∧ port_range_wf a b
  | SourceIp n => kind = lit "SRC-IP-CIDR" ∧ ipnet_is_ipv4 n = true
  | ProcessName p => kind = lit "PROCESS-NAME" ∧ p ≠ []
  | GeoIp c _ => kind = lit "GEOIP" ∧ c ≠ []
  | Match => kind = lit "MATCH"
  end.

(** ** Lemmas *)

Lemma parse_port_Ok s p : parse_port s = Ok p →
  1 ≤ p ≤ 65535 ∧ s ≠ [] ∧ forallb is_ascii_digit s = true ∧ digits_value s = p.
Proof.
  unfold parse_port. destruct (_ || _) eqn:E; [done|]. destruct_bool.
  rewrite parse_uint_digits by done. destruct (digits_value s <=? u16_max) eqn:El; simpl; [|done].
  pose proof (digits_value_nonneg s ltac:(done)). unfold u16_max in *.
  case_match; [done|]. intros [= <-]. destruct_bool. split_and!; done || lia.
Qed.

Lemma parse_port_print p : 1 ≤ p ≤ 65535 → parse_port (print_dec p) = Ok p.
Proof.
  intros Hp. destruct (print_dec_spec p ltac:(lia)) as (H1 & H2 & _).
  unfold parse_port. rewrite H1, bool_decide_eq_false_2 by done. simpl.
  rewrite parse_print_dec by (unfold u16_max; lia). simpl.
  by rewrite (proj2 (Z.eqb_neq p 0)) by lia.
Qed.

Lemma one_of_true s names : one_of s names = true ↔ ∃ n, n ∈ names ∧ s = lit n.
Proof.
  unfold one_of. rewrite existsb_exists. split; intros (n & H1 & H2); exists n.
  - apply eq_str_true in H2. split; [by apply list_elem_of_In|done].
  - apply eq_str_true in H2. split; [by apply list_elem_of_In|done].
Qed.

Lemma to_lower_not_upper b : is_ascii_upper (to_ascii_lowercase_byte b) = false.
Proof.
  unfold to_ascii_lowercase_byte, is_ascii_upper.
  destruct ((65 <=? b) && (b <=? 90)) eqn:E; [|done].
  destruct_bool. apply andb_false_iff. right. apply Z.leb_gt. lia.
Qed.

Lemma domain_matcher_wf kind p m :
  one_of kind ["DOMAIN"; "DOMAIN-SUFFIX"; "DOMAIN-KEYWORD"] = true →
  domain_matcher kind p = Ok m → matcher_wf kind m.
Proof.
  intros Hk. unfold domain_matcher.
  destruct (if negb _ then _ else _) as [?|?]; [|done]. destruct (_ || _) eqn:E; [done|].
  rewrite !orb_false_iff in E. destruct E as [[E1 E2] E3]. destruct_bool. intros [= <-].
  assert (domain_payload_wf (canonical_domain p)) as Hwf.
  { split; [done|]. apply Forall_forall. intros b Hb.
    rewrite forallb_forall in E2. rewrite <- not_true_iff_false, existsb_exists in E3.
    assert (is_ascii b = true) as Ha by (apply E2; by apply list_elem_of_In).
    assert (is_ascii_whitespace b || is_ascii_control b = false) as Hc.
    { apply not_true_iff_false. intros Hc. apply E3. exists b. split; [by apply list_elem_of_In|done]. }
    unfold canonical_domain, to_ascii_lowercase in Hb.
    apply list_elem_of_fmap in Hb as (b' & -> & _). pose proof (to_lower_not_upper b').
    unfold is_ascii, is_ascii_whitespace, is_ascii_control in *.
    rewrite !orb_false_iff in Hc. destruct_and!. destruct_bool. split_and!; done || lia. }
  apply one_of_true in Hk as (n & Hn & ->).
  rewrite !elem_of_cons in Hn. destruct Hn as [->|[->|[->|Hn]]]; [done..|]. by apply not_elem_of_nil in Hn.
Qed.

Lemma ip_matcher_wf kind p nr m :
  one_of kind ["IP-CIDR"; "IP-CIDR6"] = true → ip_matcher kind p nr = Ok m →
  matcher_wf kind m ∧ ∃ n, m = Ip n nr.
Proof.
  intros Hk. unfold ip_matcher. destruct (ipnet_parse p) as [n|]; [|done]. simpl.
  case_match eqn:E; [done|]. apply negb_false_iff, eqb_prop in E. intros [= <-].
  split; [|by exists n]. simpl.
  apply one_of_true in Hk as (k & Hn & ->).
  rewrite !elem_of_cons in Hn. destruct Hn as [->|[->|Hn]].
  - by left.
  - by right.
  - by apply not_elem_of_nil in Hn.
Qed.

Lemma port_matcher_wf kind p m :
  one_of kind ["DST-PORT"; "SRC-PORT"] = true → port_matcher kind p = Ok m → matcher_wf kind m.
Proof.
  intros Hk. unfold port_matcher. destruct (default _ _) as [a b].
  destruct (parse_port a) as [x|] eqn:Ea; [|done]. destruct (parse_port b) as [y|] eqn:Eb; [|done].
  apply parse_port_Ok in Ea as (Ha & _). apply parse_port_Ok in Eb as (Hb & _).
  case_match; [done|]. destruct_bool. intros [= <-].
  assert (port_range_wf x y) by (unfold port_range_wf; lia).
  apply one_of_true in Hk as (k & Hn & ->).
  rewrite !elem_of_cons in Hn. destruct Hn as [->|[->|Hn]]; [done..|]. by apply not_elem_of_nil in Hn.
Qed.

Lemma rule_matcher_wf fields m name :
  rule_matcher fields = Ok (m, name) →
  matcher_wf (default [] (fields !! 0%nat)) m.
Proof.
  unfold rule_matcher. intros Hr.
  destruct fields as [|kd [|a [|b [|c [|? ?]]]]]; try done; simpl.
  - case_match eqn:E; [|done]. simplify_eq. by apply eq_str_true in E.
  - destruct (one_of kd ["DOMAIN"; _; _]) eqn:Ed.
    { destruct (domain_matcher kd a) eqn:E; [|done]. simplify_eq. by eapply domain_matcher_wf. }
    destruct (one_of kd ["IP-CIDR"; _]) eqn:Ei.
    { destruct (ip_matcher kd a false) eqn:E; [|done]. simplify_eq. by eapply ip_matcher_wf. }
    destruct (eq_str kd (lit "SRC-IP-CIDR")) eqn:Es.
    { apply eq_str_true in Es. unfold source_ip_matcher in Hr.
      destruct (ipnet_parse a) as [n|]; [|done]. simpl in Hr.
      destruct (ipnet_is_ipv4 n) eqn:E4; [|done]. simplify_eq/=. done. }
    destruct (eq_str kd (lit "PROCESS-NAME") && _) eqn:Ep.
    { apply andb_prop in Ep as [Ep1 Ep2]. apply eq_str_true in Ep1. destruct_bool.
      simplify_eq/=. done. }
    destruct (eq_str kd (lit "GEOIP") && _) eqn:Eg.
    { apply andb_prop in Eg as [Ep1 Ep2]. apply eq_str_true in Ep1. destruct_bool.
      simplify_eq/=. done. }
    destruct (one_of kd ["DST-PORT"; _]) eqn:Eo; [|done].
    destruct (port_matcher kd a) eqn:E; [|done]. simplify_eq. by eapply port_matcher_wf.
  - destruct (negb _); [done|].
    destruct (one_of kd ["IP-CIDR"; _]) eqn:Ei.
    { destruct (ip_matcher kd a true) eqn:E; [|done]. simplify_eq. by eapply ip_matcher_wf. }
    destruct (eq_str kd (lit "GEOIP") && _) eqn:Eg; [|done].
    apply andb_prop in Eg as [Ep1 Ep2]. apply eq_str_true in Ep1. destruct_bool.
    simplify_eq/=. done.
Qed.

Lemma rule_parse_inv source names r :
  rule_parse source names = Ok r →
  ∃ name, rule_matcher (rule_fields source) = Ok (matcher r, name) ∧
          names !! name = Some (proxy r) ∧
          kind r = default [] (rule_fields source !! 0%nat).
Proof.
  unfold rule_parse. destruct (rule_matcher _) as [[m name]|]; [|done].
  destruct (names !! name) as [p|] eqn:En; [|done]. simpl. intros [= <-]. by exists name.
Qed.

Lemma inherit_no_resolve_match r : is_match (inherit_no_resolve r) = is_match r.
Proof. unfold inherit_no_resolve, is_match. by destruct (matcher r) eqn:E; simpl; rewrite ?E. Qed.

Lemma inherit_no_resolve_proxy r : proxy (inherit_no_resolve r) = proxy r.
Proof. unfold inherit_no_resolve. by destruct (matcher r). Qed.

Lemma inherit_no_resolve_wf r :
  matcher_wf (kind r) (matcher r) →
  matcher_wf (kind (inherit_no_resolve r)) (matcher (inherit_no_resolve r)).
Proof. unfold inherit_no_resolve. by destruct (matcher r) eqn:E; simpl; rewrite ?E. Qed.

End Parse.
