(* ===== verification/Groups.v ===== *)
(** * Proxy groups (src/src/config.rs: [validate_name], [resolve_groups],
      [Config::resolve_proxy])

    Names of groups are resolved to node indices (proxies first, groups after them), every
    edge is checked by an explicit-stack depth-first search, and a selection is followed
    from a group to a proxy. *)
From S2P Require Import Prelude Utf8.

Record RawGroup := mkRawGroup { rg_name : str; rg_kind : str; rg_proxies : list str }.
Record Group := mkGroup { g_name : str; members : list nat }.

(** ** Operations *)

Definition validate_name (name : str) : res unit :=
  if bool_decide (name = []) || negb (eq_str (trim name) name)
     || contains_byte 44 name || existsb is_control (chars name)
  then Err "proxy/group name must be nonempty, unpadded and contain no commas or control characters"
  else Ok tt.

Definition duplicate_name : string := "duplicate or reserved proxy/group name".
Definition cycle_message : string := "proxy-group cycle detected, including unselected branches".

(** The first loop of [resolve_groups]: validate and name every group. *)
Fixpoint name_groups (index : nat) (groups : list RawGroup) (names : gmap str nat)
    : res (gmap str nat) :=
  match groups with
  | [] => Ok names
  | g :: gs =>
      let! _ := validate_name (rg_name g) in
      if negb (eq_str (rg_kind g) (lit "select")) || bool_decide (rg_proxies g = [])
      then Err "proxy-group must be select with at least one member"
      else if is_some (names !! rg_name g) then Err duplicate_name
      else name_groups (S index) gs (<[rg_name g := index]> names)
  end.

Fixpoint resolve_members (names : gmap str nat) (ms : list str) : res (list nat) :=
  match ms with
  | [] => Ok []
  | m :: ms =>
      let! i := ok_or (names !! m) "proxy-group references an unknown proxy or group"%string in
      let! rest := resolve_members names ms in
      Ok (i :: rest)
  end.

Fixpoint resolve_edges (names : gmap str nat) (groups : list RawGroup) : res (list (list nat)) :=
  match groups with
  | [] => Ok []
  | g :: gs =>
      let! ms := resolve_members names (rg_proxies g) in
      let! rest := resolve_edges names gs in
      Ok (ms :: rest)
  end.

(** One iteration of the [while let Some(&(node, next)) = stack.last()] loop; the stack's
    top is the head of the list. [None] is an index out of range, which panics. *)
Inductive DfsOut :=
| DfsDone
| DfsNext (state : list Z) (stack : list (nat * nat))
| DfsCycle.

Definition dfs_step (pc : nat) (edges : list (list nat)) (state : list Z)
    (stack : list (nat * nat)) : option DfsOut :=
  match stack with
  | [] => Some DfsDone
  | (node, next) :: rest =>
      let? ms := edges !! (node - pc)%nat in
      if (next =? length ms)%nat then Some (DfsNext (<[node := 2]> state) rest)
      else
        let? child := ms !! next in
        let? c := state !! child in
        let stack := (node, S next) :: rest in
        if c =? 0 then Some (DfsNext (<[child := 1]> state) ((child, 0%nat) :: stack))
        else if c =? 1 then Some DfsCycle
        else Some (DfsNext state stack)
  end.

(** The whole loop; [None] also when the fuel runs out. *)
Fixpoint dfs_loop (fuel : nat) (pc : nat) (edges : list (list nat)) (state : list Z)
    (stack : list (nat * nat)) : option (res (list Z)) :=
  match fuel with
  | O => None
  | S fuel =>
      let? out := dfs_step pc edges state stack in
      match out with
      | DfsDone => Some (Ok state)
      | DfsCycle => Some (Err cycle_message)
      | DfsNext state stack => dfs_loop fuel pc edges state stack
      end
  end.

(** [for root in proxy_count..total] *)
Fixpoint dfs_roots (fuel pc : nat) (edges : list (list nat)) (roots : list nat) (state : list Z)
    : option (res (list Z)) :=
  match roots with
  | [] => Some (Ok state)
  | root :: roots =>
      let? s := state !! root in
      if s =? 2 then dfs_roots fuel pc edges roots state
      else
        let? r := dfs_loop fuel pc edges (<[root := 1]> state) [(root, 0%nat)] in
        match r with
        | Ok state => dfs_roots fuel pc edges roots state
        | Err e => Some (Err e)
        end
  end.

(** Steps the search can take: one per edge and one per group. *)
Definition dfs_fuel (edges : list (list nat)) : nat := S (sum_list_with (λ ms, S (length ms)) edges).

Definition check_cycles (pc : nat) (edges : list (list nat)) : option (res (list Z)) :=
  dfs_roots (dfs_fuel edges) pc edges (seq pc (length edges))
    (replicate pc 2 ++ replicate (length edges) 0).

(** [resolve_groups]: the groups and the extended names; [None] would be a panic. *)
Definition resolve_groups (groups : list RawGroup) (names : gmap str nat) (pc : nat)
    : option (res (list Group * gmap str nat)) :=
  match name_groups pc groups names with
  | Err e => Some (Err e)
  | Ok names =>
      match resolve_edges names groups with
      | Err e => Some (Err e)
      | Ok edges =>
          let? r := check_cycles pc edges in
          match r with
          | Err e => Some (Err e)
          | Ok _ => Some (Ok (zip_with (λ g ms, mkGroup (rg_name g) ms) groups edges, names))
          end
      end
  end.

(** [Config::resolve_proxy]: [groups.len() + 1] rounds; [None] is its [unreachable!] or an
    index out of range. *)
Fixpoint resolve_proxy_go (fuel pc : nat) (groups : list Group) (selections : list nat)
    (index : nat) : option nat :=
  match fuel with
  | O => None
  | S fuel =>
      if (index <? pc)%nat then Some index
      else
        let group := (index - pc)%nat in
        let? g := groups !! group in
        let? sel := selections !! group in
        let? next := members g !! sel in
        resolve_proxy_go fuel pc groups selections next
  end.

Definition resolve_proxy (pc : nat) (groups : list Group) (selections : list nat) (index : nat)
    : option nat := resolve_proxy_go (S (length groups)) pc groups selections index.

(** ** Specification *)

(** [i] is a group that has [j] as a member. *)
Definition edge (pc : nat) (edges : list (list nat)) (i j : nat) : Prop :=
  (pc ≤ i)%nat ∧ ∃ ms, edges !! (i - pc)%nat = Some ms ∧ j ∈ ms.

Definition child_of (pc : nat) (edges : list (list nat)) (j i : nat) : Prop := edge pc edges i j.

(** No node reaches itself. *)
Definition acyclic (pc : nat) (edges : list (list nat)) : Prop :=
  ∀ i, ¬ tc (edge pc edges) i i.

(** Every member is a node. *)
Definition edges_wf (pc : nat) (edges : list (list nat)) : Prop :=
  Forall (Forall (λ j, (j < pc + length edges)%nat)) edges.

(** A selection per group, each an index of its members. *)
Definition selections_wf (groups : list Group) (selections : list nat) : Prop :=
  Forall2 (λ g s, (s < length (members g))%nat) groups selections.

(** ** The depth-first search decides acyclicity *)

Section Dfs.
Context (pc : nat) (edges : list (list nat)).
Context (Hwf : edges_wf pc edges).

Abbreviation R := (edge pc edges).
Abbreviation C := (child_of pc edges).

Definition black (state : list Z) (i : nat) : Prop := state !! i = Some 2.

(** The frame below the one of [n]: [n] is the member it is visiting. *)
Fixpoint below (state : list Z) (n : nat) (stack : list (nat * nat)) : Prop :=
  match stack with
  | [] => True
  | (m, k) :: rest =>
      (pc ≤ m)%nat ∧ (∃ ms k', edges !! (m - pc)%nat = Some ms ∧ k = S k' ∧ ms !! k' = Some n ∧
        Forall (black state) (take k' ms)) ∧ below state m rest
  end.

Definition frames (state : list Z) (stack : list (nat * nat)) : Prop :=
  match stack with
  | [] => True
  | (n, k) :: rest =>
      (pc ≤ n)%nat ∧ (∃ ms, edges !! (n - pc)%nat = Some ms ∧ (k ≤ length ms)%nat ∧
        Forall (black state) (take k ms)) ∧ below state n rest
  end.

Record dfs_inv (state : list Z) (stack : list (nat * nat)) : Prop := {
  inv_len : length state = (pc + length edges)%nat;
  inv_proxies : ∀ i, (i < pc)%nat → black state i;
  inv_colors : ∀ i c, state !! i = Some c → c = 0 ∨ c = 1 ∨ c = 2;
  inv_acc : ∀ i, black state i → Acc C i;
  inv_gray : ∀ i, state !! i = Some 1 ↔ i ∈ stack.*1;
  inv_nodup : NoDup stack.*1;
  inv_frames : frames state stack;
}.

Lemma black_insert_2 state i n : (n < length state)%nat → black state i → black (<[n:=2]> state) i.
Proof.
  intros Hn. unfold black. destruct (decide (i = n)) as [->|Hne].
  - intros _. by apply list_lookup_insert_eq.
  - by rewrite list_lookup_insert_ne.
Qed.

Lemma black_insert_1 state i n : state !! n ≠ Some 2 → black state i → black (<[n:=1]> state) i.
Proof.
  intros Hn Hb. unfold black in *. rewrite list_lookup_insert_ne; [done|]. by intros ->.
Qed.

Lemma below_mono state state' n stack :
  (∀ i, black state i → black state' i) → below state n stack → below state' n stack.
Proof.
  intros Hm. revert n. induction stack as [|[m k] rest IH]; intros n; [done|]. simpl.
  intros (? & (ms & k' & ? & ? & ? & Hf) & ?). split_and!; [done| |by apply IH].
  exists ms, k'. split_and!; [done..|]. by eapply Forall_impl.
Qed.

(** The nodes of the stack lie on one path that ends in its top. *)
Lemma below_path state n stack m :
  below state n stack → m ∈ stack.*1 → tc R m n.
Proof.
  revert n. induction stack as [|[a k] rest IH]; intros n Hb Hin; simpl in *.
  - by apply not_elem_of_nil in Hin.
  - destruct Hb as (Ha & (ms & k' & Hms & -> & Hn & _) & Hb).
    assert (R a n) as Han.
    { split; [done|]. exists ms. split; [done|]. by eapply list_elem_of_lookup_2. }
    apply elem_of_cons in Hin as [->|Hin]; [by apply tc_once|].
    eapply tc_r; [|exact Han]. by apply IH.
Qed.

Lemma edge_bound i j : R i j → (j < pc + length edges)%nat.
Proof.
  intros (_ & ms & Hms & Hj). unfold edges_wf in Hwf. rewrite Forall_lookup in Hwf.
  specialize (Hwf _ _ Hms). rewrite Forall_forall in Hwf. by apply Hwf.
Qed.

Lemma node_bound n ms : (pc ≤ n)%nat → edges !! (n - pc)%nat = Some ms → (n < pc + length edges)%nat.
Proof. intros Hn H. apply lookup_lt_Some in H. lia. Qed.

Lemma not_black_group state i : (∀ i, (i < pc)%nat → black state i) → state !! i = Some 0 → (pc ≤ i)%nat.
Proof.
  intros Hprox Hi. destruct (decide (pc ≤ i)%nat) as [|Hlt]; [done|]. exfalso.
  assert (black state i) as Hb by (apply Hprox; lia). unfold black in Hb. congruence.
Qed.

(** A group all of whose members are finished is finished. *)
Lemma dfs_pop_inv state n k rest ms :
  dfs_inv state ((n, k) :: rest) → edges !! (n - pc)%nat = Some ms → k = length ms →
  dfs_inv (<[n:=2]> state) rest.
Proof.
  intros [Hlen Hprox Hcol Hacc Hgray Hnd Hfr] Hms ->.
  destruct Hfr as (Hn & (ms0 & Hms0 & _ & Hblk) & Hbelow).
  assert (ms0 = ms) as -> by congruence.
  pose proof (node_bound n ms Hn Hms) as Hnb. rewrite take_ge in Hblk by lia.
  assert (black (<[n:=2]> state) n) as Hbn by (apply list_lookup_insert_eq; lia).
  assert (∀ i, black state i → black (<[n:=2]> state) i) as Hmono
    by (intros i; apply black_insert_2; lia).
  simpl in Hnd. apply NoDup_cons in Hnd as [Hnr Hnd]. split.
  - by rewrite length_insert.
  - intros i Hi. by apply Hmono, Hprox.
  - intros i c. destruct (decide (i = n)) as [->|Hne].
    + rewrite list_lookup_insert_eq by lia. naive_solver.
    + rewrite list_lookup_insert_ne by done. apply Hcol.
  - intros i Hi. destruct (decide (i = n)) as [->|Hne].
    + constructor. intros j (_ & ms' & Hms' & Hj). simplify_eq.
      apply Hacc. rewrite Forall_forall in Hblk. by apply Hblk.
    + apply Hacc. unfold black in *. by rewrite list_lookup_insert_ne in Hi.
  - intros i. destruct (decide (i = n)) as [->|Hne].
    + rewrite list_lookup_insert_eq by lia. split; [done|]. by intros ?%Hnr.
    + rewrite list_lookup_insert_ne by done. rewrite Hgray. simpl.
      rewrite elem_of_cons. naive_solver.
  - done.
  - destruct rest as [|[m k'] rest']; [done|]. simpl in Hbelow |- *.
    destruct Hbelow as (Hm & (ms' & k'' & Hms' & -> & Hlk & Hb') & Hbelow).
    split_and!; [done| |by eapply below_mono].
    exists ms'. split_and!; [done| |].
    + apply lookup_lt_Some in Hlk. lia.
    + rewrite (take_S_r _ _ _ Hlk), Forall_app. split; [by eapply Forall_impl|by constructor].
Qed.

(** An unvisited member is entered. *)
Lemma dfs_push_inv state n k rest ms child :
  dfs_inv state ((n, k) :: rest) → edges !! (n - pc)%nat = Some ms → ms !! k = Some child →
  state !! child = Some 0 →
  dfs_inv (<[child:=1]> state) ((child, 0%nat) :: (n, S k) :: rest).
Proof.
  intros [Hlen Hprox Hcol Hacc Hgray Hnd Hfr] Hms Hc Hsc.
  destruct Hfr as (Hn & (ms0 & Hms0 & _ & Hblk) & Hbelow).
  assert (ms0 = ms) as -> by congruence.
  pose proof (lookup_lt_Some _ _ _ Hsc) as Hcb.
  pose proof (not_black_group _ _ Hprox Hsc) as Hpc.
  assert (child ∉ ((n, k) :: rest).*1) as Hcn by (by rewrite <- Hgray, Hsc).
  assert (∀ i, black state i → black (<[child:=1]> state) i) as Hmono.
  { intros i. apply black_insert_1. by rewrite Hsc. }
  split.
  - by rewrite length_insert.
  - intros i Hi. by apply Hmono, Hprox.
  - intros i c. destruct (decide (i = child)) as [->|Hne].
    + rewrite list_lookup_insert_eq by lia. naive_solver.
    + rewrite list_lookup_insert_ne by done. apply Hcol.
  - intros i Hi. apply Hacc. unfold black in *. destruct (decide (i = child)) as [->|Hne].
    + by rewrite list_lookup_insert_eq in Hi by lia.
    + by rewrite list_lookup_insert_ne in Hi.
  - intros i. simpl. rewrite !elem_of_cons. destruct (decide (i = child)) as [->|Hne].
    + rewrite list_lookup_insert_eq by lia. naive_solver.
    + rewrite list_lookup_insert_ne by done. rewrite Hgray. simpl.
      rewrite elem_of_cons. naive_solver.
  - simpl. simpl in Hnd, Hcn. apply NoDup_cons. split; [done|done].
  - destruct (lookup_lt_is_Some_2 edges (child - pc)) as [ms' Hms']; [lia|].
    simpl. split_and!; [done| |done| |by eapply below_mono].
    + exists ms'. split_and!; [done|lia|]. rewrite take_0. constructor.
    + exists ms, k. split_and!; [done..|]. by eapply Forall_impl.
Qed.

(** A finished member is passed over. *)
Lemma dfs_skip_inv state n k rest ms child :
  dfs_inv state ((n, k) :: rest) → edges !! (n - pc)%nat = Some ms → ms !! k = Some child →
  black state child → dfs_inv state ((n, S k) :: rest).
Proof.
  intros [Hlen Hprox Hcol Hacc Hgray Hnd Hfr] Hms Hc Hb.
  destruct Hfr as (Hn & (ms0 & Hms0 & _ & Hblk) & Hbelow).
  assert (ms0 = ms) as -> by congruence.
  split; [done..|]. simpl. split_and!; [done| |done].
  exists ms. split_and!; [done| |].
  - apply lookup_lt_Some in Hc. lia.
  - rewrite (take_S_r _ _ _ Hc), Forall_app. split; [done|by constructor].
Qed.

(** A member that is on the stack closes a cycle. *)
Lemma dfs_gray_cycle state n k rest ms child :
  dfs_inv state ((n, k) :: rest) → edges !! (n - pc)%nat = Some ms → ms !! k = Some child →
  state !! child = Some 1 → ¬ acyclic pc edges.
Proof.
  intros [_ _ _ _ Hgray _ Hfr] Hms Hc Hsc Hac. destruct Hfr as (Hn & _ & Hbelow).
  assert (R n child) as HR.
  { split; [done|]. exists ms. split; [done|]. by eapply list_elem_of_lookup_2. }
  apply Hgray in Hsc. simpl in Hsc. apply (Hac child).
  apply elem_of_cons in Hsc as [->|Hin]; [by apply tc_once|].
  eapply tc_r; [|exact HR]. by eapply below_path.
Qed.

(** ** The search terminates: a potential that every step decreases *)

Definition weight (i : nat) : nat := S (length (default [] (edges !! i))).

(** The weight of the groups not yet entered. *)
Definition white (state : list Z) : nat :=
  sum_list_with (λ i, if bool_decide (state !! (pc + i)%nat = Some 0) then weight i else 0%nat)
    (seq 0 (length edges)).

Definition frame_weight (f : nat * nat) : nat := (weight (f.1 - pc) - f.2)%nat.

#[local] Arguments frame_weight : simpl never.
#[local] Arguments weight : simpl never.

Definition potential (state : list Z) (stack : list (nat * nat)) : nat :=
  (white state + sum_list_with frame_weight stack)%nat.

Lemma sum_list_with_ext {A} (f g : A → nat) l :
  (∀ x, x ∈ l → f x = g x) → sum_list_with f l = sum_list_with g l.
Proof.
  induction l as [|x l IH]; [done|]. simpl. intros H. rewrite (H x) by (apply elem_of_cons; by left).
  rewrite IH; [done|]. intros y Hy. apply H. apply elem_of_cons. by right.
Qed.

Lemma white_insert state n v :
  state !! n ≠ Some 0 → v ≠ 0 → white (<[n:=v]> state) = white state.
Proof.
  intros Hn Hv. apply sum_list_with_ext. intros i _.
  destruct (decide (n = (pc + i)%nat)) as [->|Hne]; [|by rewrite list_lookup_insert_ne].
  rewrite (bool_decide_eq_false_2 (state !! _ = _)) by done.
  rewrite bool_decide_eq_false_2; [done|].
  destruct (decide (pc + i < length state)%nat).
  - rewrite list_lookup_insert_eq by lia. naive_solver.
  - by rewrite list_insert_ge by lia.
Qed.

Lemma seq_split n k : (k < n)%nat → seq 0 n = seq 0 k ++ k :: seq (S k) (n - S k).
Proof.
  intros Hk. rewrite <- (Nat.sub_add k n) at 1 by lia. rewrite Nat.add_comm, seq_app. simpl.
  by replace (n - k)%nat with (S (n - S k)) by lia.
Qed.

Lemma white_enter state child :
  (pc ≤ child < pc + length edges)%nat → state !! child = Some 0 →
  (white (<[child:=1%Z]> state) + weight (child - pc) = white state)%nat.
Proof.
  intros Hc Hs. unfold white. rewrite (seq_split (length edges) (child - pc)) by lia.
  rewrite !sum_list_with_app. simpl.
  replace (pc + (child - pc))%nat with child by lia.
  rewrite list_lookup_insert_eq by (by apply lookup_lt_Some in Hs).
  rewrite (bool_decide_eq_false_2 (Some 1 = Some 0)) by done.
  rewrite (bool_decide_eq_true_2 (state !! child = Some 0)) by done.
  assert (∀ l, (child - pc)%nat ∉ l →
    sum_list_with (λ i, if bool_decide (<[child:=1%Z]> state !! (pc + i)%nat = Some 0%Z) then weight i else 0%nat) l =
    sum_list_with (λ i, if bool_decide (state !! (pc + i)%nat = Some 0) then weight i else 0%nat) l) as Hext.
  { intros l Hl. apply sum_list_with_ext. intros i Hi.
    rewrite list_lookup_insert_ne; [done|]. intros ->. apply Hl.
    by replace (pc + i - pc)%nat with i by lia. }
  rewrite !Hext; [lia|rewrite elem_of_seq; lia..].
Qed.

Lemma dfs_step_next state stack state' stack' :
  dfs_inv state stack → dfs_step pc edges state stack = Some (DfsNext state' stack') →
  dfs_inv state' stack' ∧ (potential state' stack' < potential state stack)%nat ∧
  (∀ i, state !! i ≠ Some 0 → state' !! i ≠ Some 0).
Proof.
  intros Hinv. destruct stack as [|[n k] rest]; [done|].
  pose proof (inv_frames _ _ Hinv) as (Hn & (ms & Hms & Hk & _) & _).
  pose proof (inv_len _ _ Hinv) as Hlen. pose proof (node_bound n ms Hn Hms) as Hnb.
  assert (state !! n = Some 1) as Hgn by (apply (inv_gray _ _ Hinv); simpl; apply elem_of_cons; by left).
  assert (weight (n - pc) = S (length ms)) as Hw by (unfold weight; by rewrite Hms).
  assert (∀ j, frame_weight (n, j) = (S (length ms) - j)%nat) as Hfn
    by (intros j; unfold frame_weight; simpl; by rewrite Hw).
  simpl. rewrite Hms. unfold potential. simpl. rewrite Hfn.
  destruct (k =? length ms)%nat eqn:Ek.
  - apply Nat.eqb_eq in Ek. intros [= <- <-]. split_and!.
    + by eapply dfs_pop_inv.
    + rewrite white_insert by (rewrite ?Hgn; done). subst k. lia.
    + intros i Hi. destruct (decide (i = n)) as [->|Hne].
      * rewrite list_lookup_insert_eq by lia. done.
      * by rewrite list_lookup_insert_ne.
  - apply Nat.eqb_neq in Ek. destruct (ms !! k) as [child|] eqn:Hc; [|done].
    destruct (state !! child) as [c|] eqn:Hsc; [|done].
    destruct (c =? 0) eqn:E0; [|destruct (c =? 1) eqn:E1; [done|]]; destruct_bool; subst.
    + intros [= <- <-]. pose proof (not_black_group _ _ (inv_proxies _ _ Hinv) Hsc) as Hpc.
      pose proof (lookup_lt_Some _ _ _ Hsc) as Hb. split_and!.
      * by eapply dfs_push_inv.
      * assert (frame_weight (child, 0%nat) = weight (child - pc)) as Hfc
          by (unfold frame_weight; cbn [fst snd]; apply Nat.sub_0_r).
        cbn [sum_list_with]. rewrite Hfc, Hfn.
        pose proof (white_enter state child ltac:(lia) Hsc). lia.
      * intros i Hi. destruct (decide (i = child)) as [->|Hne].
        -- rewrite list_lookup_insert_eq by lia. done.
        -- by rewrite list_lookup_insert_ne.
    + intros [= <- <-]. split_and!.
      * eapply dfs_skip_inv; [done..|]. unfold black. rewrite Hsc.
        destruct (inv_colors _ _ Hinv _ _ Hsc) as [?|[?|?]]; congruence || lia.
      * simpl. rewrite Hfn. lia.
      * done.
Qed.

Lemma dfs_step_progress state stack :
  dfs_inv state stack → stack ≠ [] →
  (∃ state' stack', dfs_step pc edges state stack = Some (DfsNext state' stack')) ∨
  (dfs_step pc edges state stack = Some DfsCycle ∧ ¬ acyclic pc edges).
Proof.
  intros Hinv Hne. destruct stack as [|[n k] rest]; [done|].
  pose proof (inv_frames _ _ Hinv) as (Hn & (ms & Hms & Hk & _) & _). simpl. rewrite Hms.
  destruct (k =? length ms)%nat eqn:Ek; [by left; eauto|]. apply Nat.eqb_neq in Ek.
  destruct (lookup_lt_is_Some_2 ms k) as [child Hc]; [lia|]. rewrite Hc.
  assert (R n child) as HR.
  { split; [done|]. exists ms. split; [done|]. by eapply list_elem_of_lookup_2. }
  pose proof (edge_bound n child HR) as Hcb. pose proof (inv_len _ _ Hinv) as Hlen.
  destruct (lookup_lt_is_Some_2 state child) as [c Hsc]; [lia|]. rewrite Hsc.
  destruct (c =? 0); [by left; eauto|]. destruct (c =? 1) eqn:E1; [|by left; eauto].
  destruct_bool; subst. right. split; [done|]. by eapply dfs_gray_cycle.
Qed.

(** With fuel above the potential the loop ends: with every entered node finished, or on a
    genuine cycle. *)
Lemma dfs_loop_total fuel state stack :
  dfs_inv state stack → (potential state stack < fuel)%nat →
  (∃ state', dfs_loop fuel pc edges state stack = Some (Ok state') ∧ dfs_inv state' [] ∧
     (white state' ≤ potential state stack)%nat ∧ (∀ i, state !! i ≠ Some 0 → state' !! i ≠ Some 0)) ∨
  (dfs_loop fuel pc edges state stack = Some (Err cycle_message) ∧ ¬ acyclic pc edges).
Proof.
  revert state stack. induction fuel as [|fuel IH]; intros state stack Hinv Hf; [lia|]. simpl.
  destruct stack as [|f rest].
  - left. exists state. split_and!; [done|done| |done]. unfold potential. simpl. lia.
  - destruct (dfs_step_progress state (f :: rest) Hinv) as [(st' & sk' & Hs)|[Hs Hc]]; [done| |].
    + rewrite Hs. destruct (dfs_step_next _ _ _ _ Hinv Hs) as (Hinv' & Hp & Hm).
      destruct (IH st' sk' Hinv') as [(st'' & H1 & H2 & H3 & H4)|H]; [lia| |by right].
      left. exists st''. split_and!; [done|done|lia|]. intros i Hi. by apply H4, Hm.
    + rewrite Hs. by right.
Qed.

Lemma dfs_enter_root state root :
  dfs_inv state [] → (pc ≤ root < pc + length edges)%nat → state !! root ≠ Some 2 →
  dfs_inv (<[root:=1]> state) [(root, 0%nat)] ∧ state !! root = Some 0 ∧
  potential (<[root:=1]> state) [(root, 0%nat)] = white state.
Proof.
  intros [Hlen Hprox Hcol Hacc Hgray Hnd Hfr] Hr Hns.
  destruct (lookup_lt_is_Some_2 state root) as [c Hc]; [lia|].
  assert (c = 0) as ->.
  { destruct (Hcol _ _ Hc) as [? | [-> | ->]]; [done| |done].
    apply Hgray in Hc. simpl in Hc. by apply not_elem_of_nil in Hc. }
  split_and!; [split|done|].
  - by rewrite length_insert.
  - intros i Hi. unfold black. rewrite list_lookup_insert_ne by lia. by apply Hprox.
  - intros i c. destruct (decide (i = root)) as [->|Hne].
    + rewrite list_lookup_insert_eq by lia. naive_solver.
    + rewrite list_lookup_insert_ne by done. apply Hcol.
  - intros i Hi. apply Hacc. unfold black in *. destruct (decide (i = root)) as [->|Hne].
    + by rewrite list_lookup_insert_eq in Hi by lia.
    + by rewrite list_lookup_insert_ne in Hi.
  - intros i. simpl. rewrite elem_of_cons. destruct (decide (i = root)) as [->|Hne].
    + rewrite list_lookup_insert_eq by lia. naive_solver.
    + rewrite list_lookup_insert_ne by done. rewrite Hgray. simpl. naive_solver.
  - simpl. apply NoDup_singleton.
  - destruct (lookup_lt_is_Some_2 edges (root - pc)) as [ms Hms]; [lia|].
    simpl. split_and!; [lia| |done]. exists ms. split_and!; [done|lia|]. rewrite take_0. constructor.
  - unfold potential, frame_weight. cbn [sum_list_with fst snd].
    pose proof (white_enter state root Hr Hc). lia.
Qed.

Lemma dfs_roots_total fuel roots state :
  dfs_inv state [] → (white state < fuel)%nat →
  Forall (λ r, (pc ≤ r < pc + length edges)%nat) roots →
  (∃ state', dfs_roots fuel pc edges roots state = Some (Ok state') ∧ dfs_inv state' [] ∧
     (∀ i, state !! i ≠ Some 0 → state' !! i ≠ Some 0) ∧ Forall (λ r, state' !! r ≠ Some 0) roots) ∨
  (dfs_roots fuel pc edges roots state = Some (Err cycle_message) ∧ ¬ acyclic pc edges).
Proof.
  revert state. induction roots as [|r roots IH]; intros state Hinv Hf Hr.
  - left. exists state. done.
  - inversion Hr; subst. pose proof (inv_len _ _ Hinv) as Hlen. simpl.
    destruct (lookup_lt_is_Some_2 state r) as [c Hc]; [lia|]. rewrite Hc.
    destruct (c =? 2) eqn:E2; destruct_bool; subst.
    + destruct (IH state) as [(st' & H1' & H2' & H3' & H4')|H]; [done..| |by right].
      left. exists st'. split_and!; [done..|]. constructor; [|done]. apply H3'. by rewrite Hc.
    + destruct (dfs_enter_root state r) as (Hinv' & H0 & Hp); [done|done|congruence|].
      destruct (dfs_loop_total fuel _ _ Hinv') as [(st' & G1 & G2 & G3 & G4)|[-> ?]];
        [lia| |by right].
      rewrite G1. destruct (IH st') as [(st'' & H1' & H2' & H3' & H4')|H]; [done|lia|done| |by right].
      assert (∀ i, <[r:=1]> state !! i ≠ Some 0 ∨ state !! i = Some 0) as Hcases.
      { intros i. destruct (decide (i = r)) as [->|Hne]; [by right|].
        rewrite list_lookup_insert_ne by done. destruct (decide (state !! i = Some 0)); tauto. }
      left. exists st''. split_and!; [done|done| |].
      * intros i Hi. apply H3', G4. by destruct (Hcases i).
      * constructor; [|done]. apply H3', G4. rewrite list_lookup_insert_eq by lia. done.
Qed.

Lemma tc_first i k : tc R i k → ∃ j, R i j ∧ rtc R j k.
Proof. inversion 1; subst; eauto using rtc_refl, tc_rtc. Qed.

Lemma acc_irrefl i : Acc C i → ¬ tc R i i.
Proof.
  induction 1 as [i _ IH]. intros Ht. destruct (tc_first i i Ht) as (j & Hj & Hr).
  apply (IH j Hj). eapply tc_rtc_l; [exact Hr|by apply tc_once].
Qed.

Lemma dfs_init_inv : dfs_inv (replicate pc 2 ++ replicate (length edges) 0) [].
Proof.
  assert (∀ i, (i < pc)%nat → (replicate pc 2 ++ replicate (length edges) 0) !! i = Some 2) as Hp.
  { intros i Hi. rewrite lookup_app_l by (rewrite length_replicate; lia).
    by apply lookup_replicate_2. }
  assert (∀ i c, (replicate pc 2 ++ replicate (length edges) 0) !! i = Some c →
    (c = 2 ∧ (i < pc)%nat) ∨ (c = 0 ∧ (pc ≤ i)%nat)) as Hc.
  { intros i c. rewrite lookup_app_Some, length_replicate.
    intros [H|[? H]]; apply lookup_replicate in H; naive_solver. }
  split.
  - by rewrite length_app, !length_replicate.
  - apply Hp.
  - intros i c H. destruct (Hc _ _ H); naive_solver.
  - intros i H. destruct (Hc _ _ H) as [[_ Hi]|[? _]]; [|done].
    constructor. intros j (Hge & _). lia.
  - intros i. split; [intros H; destruct (Hc _ _ H); naive_solver|]. simpl. by intros ?%not_elem_of_nil.
  - constructor.
  - done.
Qed.

Lemma white_bound state : (white state ≤ sum_list_with (λ ms, S (length ms)) edges)%nat.
Proof.
  unfold white.
  assert (∀ l off, (∀ i ms, l !! i = Some ms → edges !! (off + i)%nat = Some ms) →
    (sum_list_with (λ i, if bool_decide (state !! (pc + i)%nat = Some 0%Z) then weight i else 0%nat)
       (seq off (length l)) ≤ sum_list_with (λ ms, S (length ms)) l)%nat) as Hgen.
  { induction l as [|ms l IH]; intros off Hl; [done|]. simpl.
    assert (weight off = S (length ms)) as Hw.
    { unfold weight. specialize (Hl 0%nat ms eq_refl). rewrite Nat.add_0_r in Hl. by rewrite Hl. }
    specialize (IH (S off)). ospecialize (IH _).
    { intros i ms' Hi. specialize (Hl (S i) ms' Hi). by rewrite Nat.add_succ_r in Hl. }
    case_bool_decide; lia. }
  by apply Hgen.
Qed.

(** The search decides acyclicity, and never panics or runs out of fuel. *)
Lemma check_cycles_correct :
  (∃ state, check_cycles pc edges = Some (Ok state) ∧ acyclic pc edges) ∨
  (check_cycles pc edges = Some (Err cycle_message) ∧ ¬ acyclic pc edges).
Proof.
  unfold check_cycles. set (init := replicate pc 2 ++ _).
  assert (white init < dfs_fuel edges)%nat as Hw.
  { pose proof (white_bound init). unfold dfs_fuel. lia. }
  destruct (dfs_roots_total (dfs_fuel edges) (seq pc (length edges)) init)
    as [(st & H1 & H2 & _ & H4)|H]; [apply dfs_init_inv|done| | |by right].
  { apply Forall_forall. intros r. rewrite elem_of_seq. lia. }
  left. exists st. split; [done|]. intros i Ht.
  apply (acc_irrefl i); [|done]. apply (inv_acc _ _ H2).
  assert ((pc ≤ i < pc + length edges)%nat) as Hi.
  { destruct (tc_first i i Ht) as (j & (? & ms & Hms & _) & _). apply lookup_lt_Some in Hms. lia. }
  rewrite Forall_forall in H4. specialize (H4 i). rewrite elem_of_seq in H4. specialize (H4 Hi).
  pose proof (inv_len _ _ H2). destruct (lookup_lt_is_Some_2 st i) as [c Hc]; [lia|].
  unfold black. destruct (inv_colors _ _ H2 _ _ Hc) as [-> | [-> | ->]]; [done| |done].
  apply (inv_gray _ _ H2) in Hc. simpl in Hc. by apply not_elem_of_nil in Hc.
Qed.

End Dfs.

(** ** What [resolve_groups] establishes *)

(** Every member is a node, every group has a member, and no group reaches itself. *)
Definition groups_wf (pc : nat) (groups : list Group) : Prop :=
  edges_wf pc (members <$> groups) ∧ acyclic pc (members <$> groups) ∧
  Forall (λ g, members g ≠ []) groups.

(** All named nodes are below [n]. *)
Definition names_below (n : nat) (names : gmap str nat) : Prop :=
  ∀ name i, names !! name = Some i → (i < n)%nat.

Lemma name_groups_below index groups names names' :
  names_below index names → name_groups index groups names = Ok names' →
  names_below (index + length groups) names' ∧
  Forall (λ g, validate_name (rg_name g) = Ok tt ∧ rg_kind g = lit "select" ∧ rg_proxies g ≠ []) groups.
Proof.
  revert index names. induction groups as [|g gs IH]; intros index names Hb; simpl.
  - intros [= <-]. rewrite Nat.add_0_r. done.
  - destruct (validate_name (rg_name g)) as [[]|] eqn:Ev; [|done].
    destruct (_ || _) eqn:E; [done|]. apply orb_false_elim in E as [E1 E2]. destruct_bool.
    apply eq_str_true in E1. case_match; [done|]. intros Hn.
    destruct (IH (S index) (<[rg_name g:=index]> names)) as [H1 H2]; [|done|].
    + intros name i. rewrite lookup_insert. case_decide; [intros [= <-]; lia|].
      intros Hi. apply Hb in Hi. lia.
    + split; [|by constructor]. intros name i Hi. apply H1 in Hi. lia.
Qed.

Lemma resolve_members_inv names ms ids :
  resolve_members names ms = Ok ids → Forall2 (λ m i, names !! m = Some i) ms ids.
Proof.
  revert ids. induction ms as [|m ms IH]; intros ids; simpl; [by intros [= <-]|].
  destruct (names !! m) as [i|] eqn:E; simpl; [|done].
  destruct (resolve_members names ms) as [rest|]; [|done]. intros [= <-]. constructor; [done|].
  by apply IH.
Qed.

Lemma resolve_edges_inv names groups edges :
  resolve_edges names groups = Ok edges →
  Forall2 (λ g ids, Forall2 (λ m i, names !! m = Some i) (rg_proxies g) ids) groups edges.
Proof.
  revert edges. induction groups as [|g gs IH]; intros edges; simpl; [by intros [= <-]|].
  destruct (resolve_members names (rg_proxies g)) as [ids|] eqn:E; [|done].
  destruct (resolve_edges names gs) as [rest|]; [|done]. intros [= <-]. constructor; [|by apply IH].
  by apply resolve_members_inv.
Qed.

Lemma resolved_edges_wf n names groups edges pc :
  names_below n names → (n = pc + length groups)%nat →
  Forall2 (λ g ids, Forall2 (λ m i, names !! m = Some i) (rg_proxies g) ids) groups edges →
  edges_wf pc edges.
Proof.
  intros Hb -> Hf. unfold edges_wf. rewrite <- (Forall2_length _ _ _ Hf).
  revert Hb. generalize (pc + length groups)%nat. intros n Hb.
  induction Hf as [|g ids gs es Hg Hf IH]; [done|]. constructor; [|done].
  apply Forall_lookup. intros k i Hi. eapply Forall2_lookup_r in Hg as (m & _ & Hm); [|done].
  by apply Hb in Hm.
Qed.

Lemma members_zip (groups : list RawGroup) edges :
  length groups = length edges →
  members <$> zip_with (λ g ms, mkGroup (rg_name g) ms) groups edges = edges.
Proof.
  revert edges. induction groups as [|g gs IH]; intros [|e es]; simpl; try done.
  intros [= Hl]. f_equal. by apply IH.
Qed.

(** [resolve_groups] always returns; it succeeds exactly when the names resolve and the
    graph of all edges is acyclic, and then the groups are well formed. *)
Lemma resolve_groups_spec groups names pc :
  names_below pc names →
  ∃ r, resolve_groups groups names pc = Some r ∧
  match name_groups pc groups names with
  | Err e => r = Err e
  | Ok names' =>
      match resolve_edges names' groups with
      | Err e => r = Err e
      | Ok edges =>
          (∃ gs, r = Ok (gs, names') ∧ acyclic pc edges ∧ groups_wf pc gs ∧
             members <$> gs = edges ∧ g_name <$> gs = rg_name <$> groups) ∨
          (r = Err cycle_message ∧ ¬ acyclic pc edges)
      end
  end.
Proof.
  intros Hb. unfold resolve_groups.
  destruct (name_groups pc groups names) as [names'|e] eqn:En; [|by eexists].
  destruct (name_groups_below _ _ _ _ Hb En) as [Hb' Hg].
  destruct (resolve_edges names' groups) as [edges|e] eqn:Ee; [|by eexists].
  apply resolve_edges_inv in Ee. pose proof (Forall2_length _ _ _ Ee) as Hl.
  pose proof (resolved_edges_wf _ _ _ _ pc Hb' eq_refl Ee) as Hwf.
  destruct (check_cycles_correct pc edges Hwf) as [(st & -> & Hac)|[-> Hac]]; [|by eexists; eauto].
  eexists. split; [done|]. left. eexists. split_and!; [done|done| |by apply members_zip|].
  - unfold groups_wf. rewrite members_zip by done. split_and!; [done|done|].
    clear -Ee Hg. induction Ee as [|g ids gs es H _ IH]; [constructor|].
    inversion Hg as [|? ? (_ & _ & Hp) Hg']; subst.
    constructor; [|by apply IH]. simpl. intros ->. apply Hp. by apply Forall2_nil_inv_r in H.
  - clear -Hl. revert edges Hl. induction groups as [|g gs IH]; intros [|e es]; simpl; try done.
    intros [= Hl]. f_equal. by apply IH.
Qed.

(** ** Following selections *)

Lemma selected_edge pc groups i g s next :
  (pc ≤ i)%nat → groups !! (i - pc)%nat = Some g → members g !! s = Some next →
  edge pc (members <$> groups) i next.
Proof.
  intros Hi Hg Hn. split; [done|]. exists (members g).
  rewrite list_lookup_fmap, Hg. split; [done|]. by eapply list_elem_of_lookup_2.
Qed.

Lemma resolve_proxy_go_total pc groups selections fuel index visited :
  groups_wf pc groups → selections_wf groups selections →
  (index < pc + length groups)%nat → NoDup visited →
  Forall (λ v, (pc ≤ v < pc + length groups)%nat ∧ tc (edge pc (members <$> groups)) v index) visited →
  (S (length groups) ≤ fuel + length visited)%nat →
  ∃ leaf, resolve_proxy_go fuel pc groups selections index = Some leaf ∧ (leaf < pc)%nat ∧
          rtc (edge pc (members <$> groups)) index leaf.
Proof.
  intros (Hwf & Hac & Hne) Hsel. revert index visited.
  induction fuel as [|fuel IH]; intros index visited Hi Hnd Hv Hf.
  - exfalso. assert (visited ⊆+ seq pc (length groups)) as Hsub.
    { apply NoDup_submseteq; [done|]. intros x Hx. rewrite Forall_forall in Hv.
      apply Hv in Hx as [Hx _]. by apply elem_of_seq. }
    apply submseteq_length in Hsub. rewrite length_seq in Hsub. lia.
  - simpl. destruct (index <? pc)%nat eqn:E.
    + apply Nat.ltb_lt in E. exists index. split_and!; [done|done|apply rtc_refl].
    + apply Nat.ltb_ge in E.
      destruct (lookup_lt_is_Some_2 groups (index - pc)) as [g Hg]; [lia|]. rewrite Hg.
      destruct (Forall2_lookup_l _ _ _ _ _ Hsel Hg) as (s & Hs & Hlt). rewrite Hs.
      destruct (lookup_lt_is_Some_2 (members g) s Hlt) as [next Hnext]. rewrite Hnext.
      pose proof (selected_edge pc groups index g s next E Hg Hnext) as He.
      destruct (IH next (index :: visited)) as (leaf & H1 & H2 & H3).
      * pose proof (edge_bound pc (members <$> groups) Hwf _ _ He) as Hb.
        by rewrite length_fmap in Hb.
      * apply NoDup_cons. split; [|done]. intros Hin. rewrite Forall_forall in Hv.
        apply Hv in Hin as [_ Ht]. by apply (Hac index).
      * constructor; [split; [lia|by apply tc_once]|].
        eapply Forall_impl; [exact Hv|]. intros v [? ?]. split; [done|]. by eapply tc_r.
      * simpl. lia.
      * exists leaf. split_and!; [done|done|]. by eapply rtc_l.
Qed.

(** The bounded loop of [resolve_proxy] always reaches a proxy. *)
Lemma resolve_proxy_total pc groups selections index :
  groups_wf pc groups → selections_wf groups selections → (index < pc + length groups)%nat →
  ∃ leaf, resolve_proxy pc groups selections index = Some leaf ∧ (leaf < pc)%nat ∧
          rtc (edge pc (members <$> groups)) index leaf.
Proof.
  intros Hwf Hsel Hi. eapply (resolve_proxy_go_total _ _ _ _ _ []); [done..| |constructor|].
  - apply NoDup_nil_2.
  - simpl. lia.
Qed.

(** ** Properties *)

(** C13: resolving groups always returns, and decides exactly what it promises: it fails on a
    bad or unknown name, it fails with the cycle message exactly when the graph of all
    declared edges (selected or not) has a cycle, and otherwise returns the groups in order
    with every member resolved to an existing node. *)
Theorem resolve_groups_decides groups names pc :
  names_below pc names →
  ∃ r, resolve_groups groups names pc = Some r ∧
  match name_groups pc groups names with
  | Err e => r = Err e
  | Ok names' =>
      match resolve_edges names' groups with
      | Err e => r = Err e
      | Ok edges =>
          (∃ gs, r = Ok (gs, names') ∧ acyclic pc edges ∧ groups_wf pc gs ∧
             members <$> gs = edges ∧ g_name <$> gs = rg_name <$> groups) ∨
          (r = Err cycle_message ∧ ¬ acyclic pc edges)
      end
  end.
Proof. apply resolve_groups_spec. Qed.

Definition cyclic_groups : list RawGroup :=
  [mkRawGroup (lit "a") (lit "select") [lit "DIRECT"; lit "b"];
   mkRawGroup (lit "b") (lit "select") [lit "DIRECT"; lit "a"]].

(** Two groups that only name each other as their second, unselected member are rejected. *)
Lemma resolve_groups_decides_witness : ¬ acyclic 1 [[0%nat; 2%nat]; [0%nat; 1%nat]].
Proof.
  destruct (resolve_groups_decides cyclic_groups {[ lit "DIRECT" := 0%nat ]} 1) as (r & Hr & H).
  - intros name i Hi. apply lookup_singleton_Some in Hi as [_ <-]. lia.
  - vm_compute in Hr. injection Hr as <-. vm_compute name_groups in H. vm_compute resolve_edges in H.
    destruct H as [(gs & Hgs & _)|[_ H]]; [discriminate Hgs|exact H].
Defined.
