(* ===== verification/Proxy.v ===== *)
(** * Proxies (src/src/config.rs: [RawProxy::build], [ProxyKind], [validate_anytls_fields])

    One declared proxy is checked and turned into the outbound it describes. Whether a
    name is acceptable to the TLS library is the parameter [server_name_ok]. *)
From S2P Require Import Prelude Utf8 Net Target Json.

Record RawObfs := mkRawObfs { ro_mode : str; ro_host : str }.

Record RawProxy := mkRawProxy {
  rp_name : str;
  rp_kind : str;
  rp_server : str;
  rp_port : Z;
  rp_password : str;
  rp_cipher : option str;
  rp_sni : option str;
  rp_skip_cert_verify : option bool;
  rp_tls : option bool;
  rp_network : option str;
  rp_udp : bool;
  rp_plugin : option str;
  rp_disable_reuse : option bool;
  rp_plugin_opts : option RawObfs;
}.

Record ObfsHttp := mkObfsHttp { obfs_host : str }.

Inductive ProxyKind :=
| Direct
| Reject
| Shadowsocks (server : str) (port : Z) (password cipher : str)
| AnyTls (server : str) (port : Z) (password : str) (sni : option str) (skip_cert_verify : bool)
| Trojan (server : str) (port : Z) (password : str) (sni : option str) (skip_cert_verify : bool).

Record Proxy := mkProxy {
  p_name : str;
  p_kind : ProxyKind;
  p_udp : bool;
  p_obfs : option ObfsHttp;
}.

(** ** Operations *)

Definition obfs_host_ok (host : str) : bool :=
  negb (bool_decide (host = [])) && (len host <=? 255)
  && negb (existsb (λ b, (b =? 0) || (b =? 13) || (b =? 10)) host).

(** The [let obfs = match ..] of [RawProxy::build]. *)
Definition build_obfs (p : RawProxy) : res (option ObfsHttp) :=
  match rp_plugin p, rp_plugin_opts p with
  | None, None => Ok None
  | Some plugin, Some options =>
      if one_of plugin ["obfs"; "obfs-local"] && eq_str (rp_kind p) (lit "ss") then
        if negb (eq_str (ro_mode options) (lit "http")) || negb (obfs_host_ok (ro_host options))
        then Err "simple-obfs requires mode: http and a nonempty host of at most 255 bytes without NUL/CR/LF"
        else Ok (Some (mkObfsHttp (ro_host options)))
      else Err "only Shadowsocks obfs/obfs-local with explicit HTTP options is supported"
  | _, _ => Err "only Shadowsocks obfs/obfs-local with explicit HTTP options is supported"
  end.

(** The supported ciphers under their canonical names. *)
Definition canonical_cipher (cipher : str) : option str :=
  if eq_str cipher (lit "aes-128-gcm") then Some (lit "aes-128-gcm")
  else if eq_str cipher (lit "aes-256-gcm") then Some (lit "aes-256-gcm")
  else if one_of cipher ["chacha20-ietf-poly1305"; "chacha20-poly1305"]
  then Some (lit "chacha20-ietf-poly1305")
  else None.

(** The [ss] arm of [RawProxy::build]. *)
Definition build_ss (p : RawProxy) : res ProxyKind :=
  if bool_decide (rp_tls p = Some true) || is_some (rp_sni p) || is_some (rp_skip_cert_verify p)
  then Err "Shadowsocks TLS metadata is unsupported"
  else
    let! cipher := ok_or (rp_cipher p ≫= canonical_cipher)
                     "Shadowsocks requires a supported classic AEAD cipher"%string in
    Ok (Shadowsocks (rp_server p) (rp_port p) (rp_password p) cipher).

Section Build.
(** [rustls::pki_types::ServerName::try_from(name).is_ok()] *)
Context (server_name_ok : str → bool).

(** The [trojan | anytls] arm of [RawProxy::build]. *)
Definition build_tls (p : RawProxy) : res ProxyKind :=
  let anytls := eq_str (rp_kind p) (lit "anytls") in
  let protocol := if anytls then "AnyTLS"%string else "Trojan"%string in
  if anytls && (rp_udp p || bool_decide (rp_tls p = Some true)) then
    Err "AnyTLS supports native TLS/TCP only, without UDP or TLS options"
  else if (eq_str (rp_kind p) (lit "trojan") && bool_decide (rp_tls p = Some false))
          || is_some (rp_cipher p) then
    Err (protocol +:+ " requires native TLS without cipher metadata")
  else
    let! _ :=
      match rp_sni p with
      | Some sni =>
          if ends_with [46] sni || is_some (parse_ip sni) then
            Err (protocol +:+ " SNI must be a DNS hostname without a trailing root dot, not an IP address")
          else map_err (λ _, protocol +:+ " SNI must be a valid ASCII DNS hostname") (target_new sni 1)
      | None =>
          if negb (bool_decide (rp_skip_cert_verify p = Some true)) && is_some (parse_ip (rp_server p))
          then Err ("verified " +:+ protocol +:+ " IP server requires SNI matching the certificate's DNS hostname")
          else Ok (mkTarget [] 0)
      end in
    let tls_name := default (rp_server p) (rp_sni p) in
    if negb (server_name_ok (strip_dot tls_name)) then
      Err ("invalid " +:+ protocol +:+ " TLS server name; configure a valid SNI hostname")
    else
      Ok ((if anytls then AnyTls else Trojan) (rp_server p) (rp_port p) (rp_password p)
            (rp_sni p) (default false (rp_skip_cert_verify p))).

Definition unsupported_proxy : string :=
  "unsupported proxy type; only direct, reject, ss, trojan and anytls are supported".

(** [RawProxy::build] *)
Definition build (p : RawProxy) : res Proxy :=
  if is_some_and (rp_network p) (λ network, negb (eq_str network (lit "tcp"))) then
    Err "only native proxy transport is supported; use network: tcp"
  else if is_some (rp_disable_reuse p)
          && (negb (eq_str (rp_kind p) (lit "anytls"))
              || negb (bool_decide (rp_disable_reuse p = Some true))) then
    Err "disable-reuse is supported only as true for AnyTLS"
  else
    let! obfs := build_obfs p in
    if one_of (rp_kind p) ["direct"; "reject"] then
      Ok (mkProxy (rp_name p) (if eq_str (rp_kind p) (lit "direct") then Direct else Reject)
            (rp_udp p) None)
    else if bool_decide (rp_password p = []) || existsb is_control (chars (rp_password p)) then
      Err "proxy password must be nonempty and contain no control characters"
    else
      let! _ := map_err (λ _, "proxy server/port must be a valid IP or ASCII DNS name and nonzero port"%string)
                  (target_new (rp_server p) (rp_port p)) in
      let! kind :=
        (if eq_str (rp_kind p) (lit "ss") then build_ss p
         else if one_of (rp_kind p) ["trojan"; "anytls"] then build_tls p
         else Err unsupported_proxy) in
      Ok (mkProxy (rp_name p) kind (rp_udp p) obfs).

(** ** What a built proxy satisfies *)

Definition password_wf (password : str) : Prop :=
  password ≠ [] ∧ existsb is_control (chars password) = false.

(** A TLS outbound never verifies a certificate against an IP address. *)
Definition tls_wf (server : str) (port : Z) (password : str) (sni : option str) (skip : bool) : Prop :=
  target_wf (mkTarget server port) ∧ password_wf password ∧
  match sni with
  | Some name => parse_ip name = None ∧ ends_with [46] name = false ∧ domain_ok name = true
  | None => skip = false → parse_ip server = None
  end ∧
  server_name_ok (strip_dot (default server sni)) = true.

Definition proxy_wf (p : Proxy) : Prop :=
  match p_kind p with
  | Direct | Reject => p_obfs p = None
  | Shadowsocks server port password cipher =>
      target_wf (mkTarget server port) ∧ password_wf password ∧
      one_of cipher ["aes-128-gcm"; "aes-256-gcm"; "chacha20-ietf-poly1305"] = true ∧
      match p_obfs p with Some o => obfs_host_ok (obfs_host o) = true | None => True end
  | AnyTls server port password sni skip =>
      tls_wf server port password sni skip ∧ p_udp p = false ∧ p_obfs p = None
  | Trojan server port password sni skip =>
      tls_wf server port password sni skip ∧ p_obfs p = None
  end.

End Build.

(** ** [validate_anytls_fields] *)

Definition anytls_field_allowed (key : str) (value : Value) : bool :=
  if one_of key ["name"; "type"; "server"; "port"; "password"; "sni"; "skip-cert-verify"] then true
  else if eq_str key (lit "network") then is_text value "tcp"
  else if one_of key ["udp"; "tls"] then is_bool value false
  else if eq_str key (lit "alterId") then is_int value 0
  else if eq_str key (lit "disable-reuse") then is_bool value true
  else false.

Definition validate_anytls_proxy (p : Value) : res unit :=
  if negb (is_text (index "type" p) "anytls") then Ok tt
  else
    let! fields := ok_or (as_object p) "invalid AnyTLS node"%string in
    if forallb (λ kv, anytls_field_allowed (fst kv) (snd kv)) fields then Ok tt
    else Err "UnsupportedCapability: AnyTLS supports only native TLS/TCP fields; no pooling, UDP or extended TLS options".

Fixpoint validate_all {A} (f : A → res unit) (l : list A) : res unit :=
  match l with
  | [] => Ok tt
  | x :: l => let! _ := f x in validate_all f l
  end.

Definition validate_anytls_fields (document : Value) : res unit :=
  validate_all validate_anytls_proxy (default [] (as_array (index "proxies" document))).

(** ** Lemmas *)

Lemma canonical_cipher_wf c c' : canonical_cipher c = Some c' →
  one_of c' ["aes-128-gcm"; "aes-256-gcm"; "chacha20-ietf-poly1305"] = true.
Proof. unfold canonical_cipher. intros H. repeat case_match; by simplify_eq. Qed.

Lemma build_obfs_Ok p o : build_obfs p = Ok o →
  match o with
  | None => True
  | Some o => rp_kind p = lit "ss" ∧ obfs_host_ok (obfs_host o) = true
  end.
Proof.
  unfold build_obfs. destruct (rp_plugin p), (rp_plugin_opts p); try (by intros [= <-]); try done.
  destruct (one_of _ _ && _) eqn:E; [|done]. destruct (_ || _) eqn:E2; [done|]. intros [= <-].
  destruct_bool. simpl. split; [by apply eq_str_true|done].
Qed.

Lemma build_tls_Ok ok p k : build_tls ok p = Ok k → 0 ≤ rp_port p ≤ 65535 →
  password_wf (rp_password p) → target_wf (mkTarget (rp_server p) (rp_port p)) →
  tls_wf ok (rp_server p) (rp_port p) (rp_password p) (rp_sni p)
    (default false (rp_skip_cert_verify p)) ∧
  (rp_kind p = lit "anytls" → rp_udp p = false) ∧
  k = (if eq_str (rp_kind p) (lit "anytls") then AnyTls else Trojan) (rp_server p) (rp_port p)
        (rp_password p) (rp_sni p) (default false (rp_skip_cert_verify p)).
Proof.
  unfold build_tls. intros H Hport Hpw Ht.
  destruct (_ && _) eqn:Ea in H; [done|]. destruct (_ || _) eqn:Eb in H; [done|].
  destruct (match rp_sni p with Some _ => _ | None => _ end) eqn:Es in H; [|done].
  destruct (ok _) eqn:Eo in H; [|done]. cbn [negb] in H. simplify_eq.
  split_and!; [|intros Hk|done].
  - split_and!; [done|done| |done]. destruct (rp_sni p) as [sni|].
    + destruct (_ || _) eqn:E in Es; [done|]. apply orb_false_elim in E as [E1 E2].
      destruct (parse_ip sni) eqn:Eip; [done|]. split_and!; [done|done|].
      unfold target_new in Es. rewrite Eip in Es. simpl in Es.
      by destruct (domain_ok sni).
    + intros Hs. destruct (parse_ip (rp_server p)); [|done].
      rewrite bool_decide_eq_false_2 in Es; [done|]. intros Hc. by rewrite Hc in Hs.
  - rewrite Hk, eq_str_refl in Ea. simpl in Ea. by apply orb_false_elim in Ea as [? _].
Qed.

Lemma build_Ok ok p x : 0 ≤ rp_port p ≤ 65535 → build ok p = Ok x →
  proxy_wf ok x ∧ p_name x = rp_name p ∧ p_udp x = rp_udp p.
Proof.
  intros Hp. unfold build. destruct (is_some_and _ _); [done|]. destruct (_ && _); [done|].
  destruct (build_obfs p) as [o|] eqn:Eo; [|done]. apply build_obfs_Ok in Eo.
  destruct (one_of _ ["direct"; _]).
  { intros [= <-]. simpl. split; [|done]. unfold proxy_wf. simpl. by destruct (eq_str _ _). }
  destruct (_ || _) eqn:Epw; [done|]. apply orb_false_elim in Epw as [Epw1 Epw2].
  destruct (target_new (rp_server p) (rp_port p)) as [t|] eqn:Et; [|done]. cbn [map_err].
  assert (password_wf (rp_password p)) as Hpw by (split; [by apply bool_decide_eq_false in Epw1|done]).
  assert (target_wf (mkTarget (rp_server p) (rp_port p))) as Hwf.
  { pose proof (target_new_wf _ _ _ Hp Et) as H. apply target_new_Ok in Et as [-> _]. done. }
  destruct (eq_str (rp_kind p) (lit "ss")) eqn:Ess.
  - destruct (build_ss p) as [k|] eqn:Ek; [|done]. intros [= <-]. split; [|done].
    unfold build_ss in Ek. destruct (_ || _) in Ek; [done|].
    destruct (rp_cipher p ≫= canonical_cipher) as [c|] eqn:Ec; [|done]. simpl in Ek. simplify_eq.
    unfold proxy_wf. simpl. split_and!; [done|done| |by destruct o as [?|]; [destruct Eo|]].
    destruct (rp_cipher p); [|done]. by eapply canonical_cipher_wf.
  - destruct (one_of _ ["trojan"; _]); [|done].
    destruct (build_tls ok p) as [k|] eqn:Ek; [|done]. intros [= <-]. split; [|done].
    apply build_tls_Ok in Ek as (H1 & H2 & ->); [|done..].
    assert (o = None) as ->.
    { destruct o; [|done]. destruct Eo as [Eo _]. apply eq_str_false in Ess. done. }
    unfold proxy_wf. simpl. destruct (eq_str (rp_kind p) (lit "anytls")) eqn:E; [|done].
    apply eq_str_true in E. auto.
Qed.

Lemma validate_all_Ok {A} (f : A → res unit) l :
  validate_all f l = Ok tt ↔ Forall (λ x, f x = Ok tt) l.
Proof.
  induction l as [|x l IH]; simpl; [done|]. rewrite Forall_cons, <- IH.
  destruct (f x) as [[]|]; [naive_solver|]. split; [done|]. by intros [? _].
Qed.
