(* ===== verification/Provider.v ===== *)
(** * Rule providers (src/src/config_provider.rs)

    Rules may be kept in separate assets. Declarations are validated, assets are read,
    captured or downloaded within byte budgets, their entries are normalised to rules whose
    target the referencing [RULE-SET] decides, and the configuration's rule list is expanded
    to a flat list that ends in its only MATCH. *)
From S2P Require Import Prelude Utf8 Net Target BTree Json Rules Groups Document.

Definition MAX_PROVIDERS : Z := 4096.
Definition MAX_AGGREGATE_BYTES : Z := 64 * 1024 * 1024.
Definition MAX_RULES : Z := 262144.
Definition usize_max : Z := u64_max.

Record Provider := mkProvider {
  pv_kind : str;
  pv_behavior : str;
  pv_path : str;
  pv_url : option str;
  pv_interval : Z;
}.

(** ** Declarations and budgets *)

Definition default_interval : Z := 86400.

Definition bad_declaration : string :=
  "invalid rule-provider declaration: require file/http, classical/domain/ipcidr, path and positive interval".

Section Validate.
(** [reqwest::Url::parse]: the scheme and the host, when there is one. *)
Context (url_parse : str → option (str * option str)).

Definition validate_url (url : str) : res unit :=
  let! '(scheme, host) := ok_or (url_parse url) "invalid rule-provider URL"%string in
  if negb (one_of scheme ["http"; "https"]) || negb (is_some host)
  then Err "rule-provider URL must use HTTP or HTTPS with a host"
  else Ok tt.

Definition validate_provider (name : str) (p : Provider) : res unit :=
  let! _ := validate_name name in
  if negb (one_of (pv_kind p) ["file"; "http"])
     || negb (one_of (pv_behavior p) ["classical"; "domain"; "ipcidr"])
     || bool_decide (pv_path p = []) || contains_byte 0 (pv_path p) || (pv_interval p =? 0)
  then Err bad_declaration
  else if eq_str (pv_kind p) (lit "http") && negb (is_some (pv_url p))
  then Err "HTTP rule-provider requires a URL"
  else match pv_url p with Some url => validate_url url | None => Ok tt end.

Fixpoint validate_each (providers : bmap Provider) : res unit :=
  match providers with
  | [] => Ok tt
  | (name, p) :: providers => let! _ := validate_provider name p in validate_each providers
  end.

Definition validate (providers : bmap Provider) : res unit :=
  if MAX_PROVIDERS <? len providers then Err "rule-provider count limit exceeded"
  else validate_each providers.

End Validate.

(** [add_budget(&mut total, amount, max, message)]: the new total. *)
Definition add_budget (total amount max : Z) (message : string) : res Z :=
  let next := total + amount in
  if (next <=? usize_max) && (next <=? max) then Ok next else Err message.

Definition source_bytes_limit : string := "rule-provider aggregate source bytes limit exceeded".

Fixpoint asset_bytes (assets : list str) (total : Z) : res unit :=
  match assets with
  | [] => Ok tt
  | bytes :: assets =>
      if MAX_SOURCE_BYTES <? len bytes then Err "rule-provider file exceeds the 16 MiB source limit"
      else
        let! total := add_budget total (len bytes) MAX_AGGREGATE_BYTES source_bytes_limit in
        asset_bytes assets total
  end.

Definition asset_budget (assets : bmap str) : res unit :=
  if MAX_PROVIDERS <? len assets then Err "rule-provider asset count limit exceeded"
  else asset_bytes (values assets) 0.

(** ** Reading the entries of an asset *)

(** [str::trim_end] *)
Definition trim_end (s : str) : str := utf8_encode (trim_end_by is_whitespace (chars s)).

(** [trim_matches([' ', '\t', '\r'])] *)
Definition trim_line (s : str) : str := trim_by (λ b, blank b || (b =? 13)) s.

Definition strip_bom (source : str) : str := default source (strip_prefix [239; 187; 191] source).

Definition first_entry (source : str) : str :=
  default [] (List.find (λ line, negb (bool_decide (line = [])) && negb (starts_with (lit "#") line))
                (trim <$> lines source)).

Definition raw_classical (behavior first : str) : bool :=
  eq_str behavior (lit "classical")
  && is_some_and (split_once 44 first) (λ kp,
       one_of (trim (fst kp)) ["DOMAIN"; "DOMAIN-SUFFIX"; "DOMAIN-KEYWORD"; "IP-CIDR"; "IP-CIDR6";
                               "GEOIP"; "RULE-SET"; "SRC-IP-CIDR"; "SRC-PORT"; "DST-PORT";
                               "PROCESS-NAME"; "MATCH"]).

(** [line.as_bytes().windows(2).any(|w| w[0] == b':' && w[1].is_ascii_whitespace())] *)
Fixpoint colon_space (line : str) : bool :=
  match line with
  | a :: ((b :: _) as rest) => ((a =? 58) && is_ascii_whitespace b) || colon_space rest
  | _ => false
  end.

Definition structured (source first : str) : bool :=
  existsb (λ c, starts_with (lit c) first) ["{"; "["; "-"; "!"; "&"; "*"]
  || existsb (λ line, eq_str (trim line) (lit "...") || colon_space line
                      || ends_with (lit ":") (trim_end line)) (lines source).

Fixpoint payload_strings (vs : list Value) : res (list str) :=
  match vs with
  | [] => Ok []
  | v :: vs =>
      let! s := ok_or (as_str v) "rule-provider payload entries must be strings"%string in
      let! rest := payload_strings vs in
      Ok (s :: rest)
  end.

(** The line with its surrounding quotes removed. *)
Definition unquote (line : str) : str :=
  if (2 <=? len line)
     && ((starts_with [34] line && ends_with [34] line) || (starts_with [39] line && ends_with [39] line))
  then take (length line - 2) (drop 1 line)
  else line.

Fixpoint line_entries (ls : list str) (count : Z) : res (list str) :=
  match ls with
  | [] => Ok []
  | line :: ls =>
      let line := trim_line line in
      if bool_decide (line = []) || starts_with (lit "#") line then line_entries ls count
      else if count =? MAX_RULES then Err "rule-provider entry count limit exceeded"
      else let! rest := line_entries ls (count + 1) in Ok (unquote line :: rest)
  end.

Section Providers.
Context `{IpNetLib}.
(** [yaml_value] and [reqwest::Url::parse] *)
Context (yaml : str → res Value) (url_parse : str → option (str * option str)).

Definition entries (source behavior : str) : res (list str) :=
  let source := strip_bom source in
  let first := first_entry source in
  if negb (raw_classical behavior first) && structured source first then
    let! value := yaml source in
    let! payload := ok_or (get "payload" value ≫= as_array) "rule-provider YAML requires a payload sequence"%string in
    payload_strings payload
  else line_entries (lines source) 0.

(** ** Normalising one entry *)

Definition strip_any (prefixes : list string) (s : str) : str :=
  foldr (λ p k, match strip_prefix (lit p) s with Some r => r | None => k end) s prefixes.

(** The three parts of a rule source joined by commas. *)
Definition rule_source (kind payload target : str) : str := kind ++ lit "," ++ payload ++ lit "," ++ target.

Definition bad_option : string := "classical provider entries cannot declare targets or unknown options".

Fixpoint options_no_resolve (options : list str) (acc : bool) : res bool :=
  match options with
  | [] => Ok acc
  | o :: options =>
      if eq_str o (lit "no-resolve") then options_no_resolve options true
      else if bool_decide (o = []) then options_no_resolve options acc
      else Err bad_option
  end.

Definition classical_source (entry : str) : res (str * bool) :=
  match trim_blank <$> split_byte 44 entry with
  | [] => Err "invalid classical rule"
  | kind :: fields =>
      if eq_str kind (lit "RULE-SET") then Err "recursive rule-provider RULE-SET is unsupported"
      else if eq_str kind (lit "MATCH") then
        let! no_resolve := options_no_resolve fields false in
        Ok (lit "MATCH,DIRECT", no_resolve)
      else
        match fields with
        | [] => Err "classical rule requires payload"
        | payload :: options =>
            let! no_resolve := options_no_resolve options false in
            Ok (rule_source kind payload (lit "DIRECT"), no_resolve)
        end
  end.

(** [None] is the [unreachable!] arm. *)
Definition entry_source (entry behavior : str) : option (res (str * bool)) :=
  let entry := trim_line entry in
  if eq_str behavior (lit "domain") then
    let domain := trim (strip_any ["DOMAIN-SUFFIX,"; "DOMAIN,"; "+."; "."] entry) in
    Some (Ok (rule_source (lit "DOMAIN-SUFFIX") domain (lit "DIRECT"), false))
  else if eq_str behavior (lit "ipcidr") then
    let cidr := trim (strip_any ["IP-CIDR,"; "IP-CIDR6,"] entry) in
    let kind := if contains_byte 58 cidr then lit "IP-CIDR6" else lit "IP-CIDR" in
    Some (Ok (rule_source kind cidr (lit "DIRECT"), false))
  else if eq_str behavior (lit "classical") then Some (classical_source entry)
  else None.

Definition provider_rule (entry behavior : str) (names : gmap str nat) : res Rule :=
  match entry_source entry behavior with
  | None => Err "internal error: entered unreachable code: provider behavior validated"
  | Some r =>
      let! '(source, no_resolve) := r in
      let! rule := rule_parse source names in
      Ok (if no_resolve then inherit_no_resolve rule else rule)
  end.

(** ** Expansion *)

Definition normalized_bytes_limit : string := "rule-provider aggregate normalized bytes limit exceeded".

(** The loop over one provider's entries: its rules, the new total and its own bytes. *)
Fixpoint entry_rules (es : list str) (behavior : str) (names : gmap str nat) (normalized_bytes : Z)
    : res (list Rule * Z * Z) :=
  match es with
  | [] => Ok ([], normalized_bytes, 0)
  | e :: es =>
      let! normalized_bytes := add_budget normalized_bytes (len e) MAX_AGGREGATE_BYTES normalized_bytes_limit in
      let! r := provider_rule e behavior names in
      let! '(rules, normalized_bytes, entry_bytes) := entry_rules es behavior names normalized_bytes in
      Ok (r :: rules, normalized_bytes, len e + entry_bytes)
  end.

Abbreviation Templates := (gmap str (list Rule * Z)).

Definition missing_asset : string :=
  "missing immutable rule-provider asset; capture files or fetch HTTP providers before parsing".

(** The first loop of [expand]. *)
Fixpoint build_templates (providers : bmap Provider) (assets : bmap str) (names : gmap str nat)
    (raw_bytes normalized_count normalized_bytes : Z) (templates : Templates) : res Templates :=
  match providers with
  | [] => Ok templates
  | (name, p) :: providers =>
      let! bytes := ok_or (bget (pv_path p) assets) missing_asset in
      let! raw_bytes := add_budget raw_bytes (len bytes) MAX_AGGREGATE_BYTES source_bytes_limit in
      if negb (utf8_valid bytes) then Err "rule-provider source must be UTF-8"
      else
        let! es := entries bytes (pv_behavior p) in
        let! normalized_count := add_budget normalized_count (len es) MAX_RULES
                                   "rule-provider aggregate entry count limit exceeded" in
        let! '(rules, normalized_bytes, entry_bytes) := entry_rules es (pv_behavior p) names normalized_bytes in
        build_templates providers assets names raw_bytes normalized_count normalized_bytes
          (<[name := (rules, entry_bytes)]> templates)
  end.

Inductive Planned :=
| PlannedRule (r : Rule)
| PlannedProvider (rules : list Rule) (proxy : nat) (no_resolve : bool).

Definition count_limit : string := "expanded rule count limit exceeded".
Definition bytes_limit : string := "expanded rule bytes limit exceeded".

(** A [RULE-SET] declaration: the provider, the target and [no-resolve]. *)
Definition rule_set (fields : list str) : res (str * str * bool) :=
  match fields with
  | [_; name; target] => Ok (name, target, false)
  | [_; name; target; option] =>
      if eq_str option (lit "no-resolve") then Ok (name, target, true)
      else Err "invalid RULE-SET declaration"
  | _ => Err "invalid RULE-SET declaration"
  end.

Definition is_rule_set (fields : list str) : bool :=
  is_some_and (head fields) (λ f, eq_str f (lit "RULE-SET")).

(** One iteration of the planning loop. *)
Definition plan_one (source : str) (templates : Templates) (names : gmap str nat) (count bytes : Z)
    : res (Planned * Z * Z) :=
  let fields := rule_fields source in
  if is_rule_set fields then
    let! '(name, target, no_resolve) := rule_set fields in
    let! '(rules, entry_bytes) := ok_or (templates !! name) "RULE-SET references unknown provider"%string in
    let! proxy := ok_or (names !! target) "rule references unknown proxy or group"%string in
    let! count := add_budget count (len rules) MAX_RULES count_limit in
    let target_bytes := len target * len rules in
    if usize_max <? target_bytes then Err bytes_limit
    else
      let! bytes := add_budget bytes target_bytes MAX_AGGREGATE_BYTES bytes_limit in
      let! bytes := add_budget bytes entry_bytes MAX_AGGREGATE_BYTES bytes_limit in
      Ok (PlannedProvider rules proxy no_resolve, count, bytes)
  else
    let! rule := rule_parse source names in
    let! count := add_budget count 1 MAX_RULES count_limit in
    let target := default [] (fields !! (if bool_decide (fields !! 0%nat = Some (lit "MATCH")) then 1%nat else 2%nat)) in
    let! bytes := add_budget bytes (len (payload rule) + len target) MAX_AGGREGATE_BYTES bytes_limit in
    Ok (PlannedRule rule, count, bytes).

Fixpoint plan_rules (sources : list str) (templates : Templates) (names : gmap str nat) (count bytes : Z)
    : res (list Planned * Z * Z) :=
  match sources with
  | [] => Ok ([], count, bytes)
  | s :: sources =>
      let! '(item, count, bytes) := plan_one s templates names count bytes in
      let! '(plan, count, bytes) := plan_rules sources templates names count bytes in
      Ok (item :: plan, count, bytes)
  end.

Definition planned_match (item : Planned) : bool :=
  match item with PlannedRule r => is_match r | PlannedProvider _ _ _ => false end.

(** The fail-closed final rule that managed provider preparation inserts. *)
Definition add_final (providers : bmap Provider) (names : gmap str nat) (plan : list Planned) (count bytes : Z)
    : res (list Planned) :=
  if negb (bool_decide (providers = [])) && negb (existsb planned_match plan) then
    let! _ := add_budget count 1 MAX_RULES count_limit in
    let! _ := add_budget bytes (len (lit "REJECT")) MAX_AGGREGATE_BYTES bytes_limit in
    let! r := rule_parse (lit "MATCH,REJECT") names in
    Ok (plan ++ [PlannedRule r])
  else Ok plan.

Definition retarget (proxy : nat) (no_resolve : bool) (r : Rule) : Rule :=
  let r := mkRule (matcher r) proxy (kind r) (payload r) in
  if no_resolve then inherit_no_resolve r else r.

Definition expand_item (item : Planned) : list Rule :=
  match item with
  | PlannedRule r => [r]
  | PlannedProvider rules proxy no_resolve => retarget proxy no_resolve <$> rules
  end.

(** The indices of the MATCH rules, from [i]. *)
Fixpoint finals (i : nat) (rules : list Rule) : list nat :=
  match rules with
  | [] => []
  | r :: rules => if is_match r then i :: finals (S i) rules else finals (S i) rules
  end.

Definition final_message : string := "expanded provider rules require exactly one final MATCH at the end".

Definition expand (source_rules : list str) (providers : bmap Provider) (assets : bmap str)
    (names : gmap str nat) : res (list Rule) :=
  let! _ := validate url_parse providers in
  let! _ := asset_budget assets in
  let! templates := build_templates providers assets names 0 0 0 ∅ in
  let! '(plan, count, bytes) := plan_rules source_rules templates names 0 0 in
  let! plan := add_final providers names plan count bytes in
  let expanded := mjoin (expand_item <$> plan) in
  if negb (bool_decide (providers = []))
     && (negb (bool_decide (finals 0 expanded = [pred (length expanded)])) || bool_decide (expanded = []))
  then Err final_message
  else Ok expanded.

(** [validate_rule_declarations]: the declarations without their assets. *)
Fixpoint check_rule_declarations (sources : list str) (providers : bmap Provider) (names : gmap str nat)
    : res unit :=
  match sources with
  | [] => Ok tt
  | s :: sources =>
      let fields := trim <$> take 5 (split_byte 44 s) in
      let! _ :=
        (if is_rule_set fields then
           let! '(name, target, _) := rule_set fields in
           if negb (bcontains name providers) then Err "RULE-SET references unknown provider"
           else if negb (is_some (names !! target)) then Err unknown_target
           else Ok tt
         else let! _ := rule_parse s names in Ok tt) in
      check_rule_declarations sources providers names
  end.

Definition validate_rule_declarations (sources : list str) (providers : bmap Provider) (names : gmap str nat)
    : res unit :=
  let! _ := validate url_parse providers in
  check_rule_declarations sources providers names.

(** [validate_candidate]: the entries of one downloaded or cached asset; the new totals. *)
Fixpoint candidate_entries (es : list str) (behavior : str) (count normalized : Z) : res (Z * Z) :=
  match es with
  | [] => Ok (count, normalized)
  | e :: es =>
      let! count := add_budget count 1 MAX_RULES "rule-provider aggregate entry count limit exceeded" in
      let! normalized := add_budget normalized (len e) MAX_AGGREGATE_BYTES normalized_bytes_limit in
      let! _ := provider_rule e behavior {[ lit "DIRECT" := 0%nat; lit "REJECT" := 1%nat ]} in
      candidate_entries es behavior count normalized
  end.

Definition validate_candidate (p : Provider) (bytes : str) (count normalized : Z) : res (Z * Z) :=
  if negb (utf8_valid bytes) then Err "rule-provider source must be UTF-8"
  else
    let! es := entries bytes (pv_behavior p) in
    candidate_entries es (pv_behavior p) count normalized.

End Providers.

(** ** Lemmas *)

Lemma add_budget_Ok total amount max m next :
  add_budget total amount max m = Ok next → next = total + amount ∧ next ≤ max.
Proof. unfold add_budget. case_match eqn:E; [|done]. intros [= <-]. blia. Qed.

Lemma split_byte_join c x y : split_byte c (x ++ c :: y) = split_byte c x ++ split_byte c y.
Proof.
  induction x as [|b x IH]; simpl; [by rewrite Z.eqb_refl|]. destruct (b =? c); [by rewrite IH|].
  rewrite IH. pose proof (split_byte_ne c x) as Hne. by destruct (split_byte c x).
Qed.

Lemma split_byte_head c s x fs : split_byte c s = x :: fs → (length x ≤ length s)%nat.
Proof.
  revert x fs. induction s as [|b s IH]; intros x fs; simpl.
  - by intros [= <- _].
  - destruct (b =? c); [intros [= <- _]; simpl; lia|].
    pose proof (split_byte_ne c s) as Hne. destruct (split_byte c s) as [|y ys] eqn:E; [done|].
    intros [= <- _]. simpl. specialize (IH _ _ eq_refl). lia.
Qed.

Lemma split_byte_elem c s x : x ∈ split_byte c s → (length x ≤ length s)%nat ∧ c ∉ x.
Proof.
  intros Hx. split; [|by eapply Forall_forall in Hx; [|apply split_byte_pieces]].
  revert x Hx. induction s as [|b s IH]; intros x; simpl.
  - rewrite elem_of_cons. by intros [-> |?%not_elem_of_nil].
  - destruct (b =? c); rewrite ?elem_of_cons.
    + intros [-> |Hx]; simpl; [lia|]. specialize (IH _ Hx). lia.
    + pose proof (split_byte_ne c s). destruct (split_byte c s) as [|y ys]; [done|].
      rewrite elem_of_cons. intros [-> |Hx]; simpl.
      * specialize (IH y ltac:(constructor)). lia.
      * specialize (IH x ltac:(by constructor)). lia.
Qed.

Lemma strip_any_length ps s : (length (strip_any ps s) ≤ length s)%nat.
Proof.
  induction ps as [|p ps IH]; simpl; [done|]. unfold strip_any in *. simpl.
  destruct (strip_prefix (lit p) s) as [r|] eqn:E; [|done].
  apply strip_prefix_Some in E as ->. rewrite length_app. lia.
Qed.

Section ProviderLemmas.
Context `{IpNetLib}.

(** A successful rule has its target where the matcher expects it. *)
Lemma rule_matcher_fields fields m name :
  rule_matcher fields = Ok (m, name) →
  (∃ k, fields = [k; name] ∧ k = lit "MATCH") ∨
  (∃ k p, fields = [k; p; name] ∧ k ≠ lit "MATCH") ∨
  (∃ k p, fields = [k; p; name; lit "no-resolve"] ∧ k ≠ lit "MATCH").
Proof.
  intros Hr. pose proof (rule_matcher_wf _ _ _ Hr) as Hwf. revert Hr Hwf. unfold rule_matcher.
  destruct fields as [|k [|p [|n [|o [|? ?]]]]]; try done; cbn [lookup list_lookup default from_option id].
  - case_match eqn:E; [|done]. intros [= <- <-] _. apply eq_str_true in E. left. by exists k.
  - intros Hr Hwf. right. left. exists k, p.
    assert (n = name) as -> by (repeat case_match; by simplify_eq). split; [done|].
    intros ->. by vm_compute in Hr.
  - destruct (eq_str o (lit "no-resolve")) eqn:Eo; [|done]. apply eq_str_true in Eo as ->. cbn [negb].
    intros Hr Hwf. right. right. exists k, p.
    assert (n = name) as -> by (repeat case_match; by simplify_eq). split; [done|].
    intros ->. by vm_compute in Hr.
Qed.

Lemma trim_blank_direct : trim_blank (lit "DIRECT") = lit "DIRECT".
Proof. done. Qed.

Lemma rule_source_fields k p t :
  44 ∉ k → 44 ∉ t →
  rule_fields (rule_source k p t) = trim_blank <$> take 5 (k :: split_byte 44 p ++ [t]).
Proof.
  intros Hk Ht. unfold rule_fields, rule_source. f_equal. f_equal.
  change (lit ",") with [44]. cbn [app]. rewrite split_byte_app by done.
  rewrite split_byte_join. by rewrite (split_byte_no 44 t).
Qed.

(** What a rule built as [kind,payload,DIRECT] is: its target is DIRECT and its payload is
    no longer than the given one, whatever commas the payload holds. *)
Lemma rule_source_direct k p names r :
  44 ∉ k → rule_parse (rule_source k p (lit "DIRECT")) names = Ok r →
  names !! lit "DIRECT" = Some (proxy r) ∧ (length (payload r) ≤ length p)%nat ∧
  matcher_wf (kind r) (matcher r).
Proof.
  intros Hk Hr. assert (44 ∉ lit "DIRECT") as Hd by (apply (bool_decide_unpack _); vm_compute; exact I).
  unfold rule_parse in Hr. rewrite rule_source_fields in Hr by done.
  destruct (rule_matcher _) as [[m name]|] eqn:Em; [|done].
  pose proof (rule_matcher_wf _ _ _ Em) as Hwf.
  destruct (names !! name) as [i|] eqn:En; [|done]. cbn [ok_or] in Hr. simplify_eq.
  pose proof (split_byte_ne 44 p) as Hne. pose proof (split_byte_head 44 p) as Hh.
  destruct (split_byte 44 p) as [|x xs]; [done|]. specialize (Hh _ _ eq_refl).
  cbn [proxy payload kind matcher]. split_and!; [| |done].
  - apply rule_matcher_fields in Em as [(? & He & _)|[(? & ? & He & _)|(? & ? & He & _)]].
    + by destruct xs.
    + destruct xs as [|? [|? ?]]; by simplify_eq/=.
    + destruct xs as [|? [|? [|? ?]]]; by simplify_eq/=.
  - case_match; [simpl; lia|]. simpl. etrans; [apply trim_by_length|done].
Qed.

Lemma inherit_no_resolve_payload r : payload (inherit_no_resolve r) = payload r.
Proof. unfold inherit_no_resolve. by destruct (matcher r). Qed.

Lemma classical_source_inv e s nr : classical_source e = Ok (s, nr) →
  s = lit "MATCH,DIRECT" ∨
  ∃ k p, s = rule_source k p (lit "DIRECT") ∧ (44 ∉ k) ∧ (length p ≤ length e)%nat.
Proof.
  unfold classical_source. pose proof (split_byte_elem 44 e) as He.
  destruct (split_byte 44 e) as [|k fs]; [done|]. cbn [fmap list_fmap].
  destruct (eq_str _ (lit "RULE-SET")); [done|]. destruct (eq_str _ (lit "MATCH")).
  - destruct (options_no_resolve _ _); [|done]. intros [= <- _]. by left.
  - destruct fs as [|p fs]; [done|]. cbn [fmap list_fmap].
    destruct (options_no_resolve _ _); [|done]. intros [= <- _]. right.
    exists (trim_blank k), (trim_blank p). split_and!; [done| |].
    + intros Hin. apply trim_by_elem in Hin. destruct (He k) as [_ ?]; [by constructor|done].
    + etrans; [apply trim_by_length|]. by apply He; do 2 constructor.
Qed.

Lemma match_direct_rule names r : rule_parse (lit "MATCH,DIRECT") names = Ok r →
  names !! lit "DIRECT" = Some (proxy r) ∧ payload r = [] ∧ matcher_wf (kind r) (matcher r).
Proof.
  unfold rule_parse. change (rule_fields (lit "MATCH,DIRECT")) with [lit "MATCH"; lit "DIRECT"].
  cbn [rule_matcher]. rewrite eq_str_refl. destruct (names !! lit "DIRECT"); [|done].
  cbn [ok_or]. intros [= <-]. simpl. done.
Qed.

(** An entry of a provider never chooses where it routes to. *)
Lemma provider_rule_spec e b names r : provider_rule e b names = Ok r →
  names !! lit "DIRECT" = Some (proxy r) ∧ (length (payload r) ≤ length e)%nat ∧
  matcher_wf (kind r) (matcher r).
Proof.
  unfold provider_rule, entry_source. intros Hr.
  pose proof (trim_by_length (λ b, blank b || (b =? 13)) e) as Ht. fold (trim_line e) in Ht.
  assert (∀ k ps r, 44 ∉ k →
    rule_parse (rule_source k (trim (strip_any ps (trim_line e))) (lit "DIRECT")) names = Ok r →
    names !! lit "DIRECT" = Some (proxy r) ∧ (length (payload r) ≤ length e)%nat ∧
    matcher_wf (kind r) (matcher r)) as Hgen.
  { intros k ps r' Hk Hr'. apply rule_source_direct in Hr' as (? & Hl & ?); [|done].
    split_and!; [done| |done]. pose proof (trim_length (strip_any ps (trim_line e))).
    pose proof (strip_any_length ps (trim_line e)). lia. }
  destruct (eq_str b (lit "domain")); [|destruct (eq_str b (lit "ipcidr"))].
  - destruct (rule_parse _ _) eqn:E; [|done]. simplify_eq. eapply Hgen; [|exact E].
    apply (bool_decide_unpack _); vm_compute; exact I.
  - destruct (rule_parse _ _) eqn:E; [|done]. simplify_eq. eapply Hgen; [|exact E].
    destruct (contains_byte _ _); apply (bool_decide_unpack _); vm_compute; exact I.
  - destruct (eq_str b (lit "classical")); [|done].
    destruct (classical_source _) as [[s nr]|] eqn:Es; [|done].
    destruct (rule_parse s names) as [r'|] eqn:Er; [|done]. simplify_eq.
    assert (names !! lit "DIRECT" = Some (proxy r') ∧ (length (payload r') ≤ length e)%nat ∧
            matcher_wf (kind r') (matcher r')) as (H1 & H2 & H3).
    { apply classical_source_inv in Es as [-> |(k & p & -> & Hk & Hl)].
      - apply match_direct_rule in Er as (? & -> & ?). split_and!; [done|simpl; lia|done].
      - apply rule_source_direct in Er as (? & ? & ?); [|done]. split_and!; [done|lia|done]. }
    destruct nr; [|done]. rewrite inherit_no_resolve_proxy, inherit_no_resolve_payload.
    split_and!; [done|done|]. by apply inherit_no_resolve_wf.
Qed.

(** ** Expansion *)

Definition payload_bytes (rules : list Rule) : Z := foldr (λ r acc, len (payload r) + acc) 0 rules.

(** The rule is well formed and its target is a known node. *)
Definition rule_ok (names : gmap str nat) (r : Rule) : Prop :=
  matcher_wf (kind r) (matcher r) ∧ ∃ name, names !! name = Some (proxy r).

Definition templates_ok (names : gmap str nat) (ts : gmap str (list Rule * Z)) : Prop :=
  ∀ name rules eb, ts !! name = Some (rules, eb) →
    0 ≤ eb ∧ payload_bytes rules ≤ eb ∧ Forall (rule_ok names) rules.

(** What one source rule contributes, given the rules of each provider. *)
Inductive expands_to (ts : gmap str (list Rule * Z)) (names : gmap str nat) : str → list Rule → Prop :=
| expands_rule s r :
    is_rule_set (rule_fields s) = false → rule_parse s names = Ok r → expands_to ts names s [r]
| expands_set s name target nr rules eb proxy :
    is_rule_set (rule_fields s) = true → rule_set (rule_fields s) = Ok (name, target, nr) →
    ts !! name = Some (rules, eb) → names !! target = Some proxy →
    expands_to ts names s (retarget proxy nr <$> rules).

Lemma join_cons {A} (x : list A) xs : mjoin (x :: xs) = x ++ mjoin xs.
Proof. done. Qed.

Lemma payload_bytes_nonneg rules : 0 ≤ payload_bytes rules.
Proof. induction rules as [|r rs IH]; simpl; [done|]. pose proof (len_nonneg (payload r)). lia. Qed.

Lemma payload_bytes_app a b : payload_bytes (a ++ b) = payload_bytes a + payload_bytes b.
Proof. induction a as [|r a IH]; simpl; [done|]. lia. Qed.

Lemma retarget_spec p nr r :
  proxy (retarget p nr r) = p ∧ payload (retarget p nr r) = payload r ∧
  is_match (retarget p nr r) = is_match r ∧
  (matcher_wf (kind r) (matcher r) → matcher_wf (kind (retarget p nr r)) (matcher (retarget p nr r))).
Proof.
  unfold retarget. destruct nr; [|done].
  rewrite inherit_no_resolve_proxy, inherit_no_resolve_payload, inherit_no_resolve_match.
  split_and!; [done..|]. intros Hwf. by apply inherit_no_resolve_wf.
Qed.

Lemma payload_bytes_retarget p nr rules : payload_bytes (retarget p nr <$> rules) = payload_bytes rules.
Proof.
  induction rules as [|r rs IH]; [done|]. rewrite fmap_cons. cbn [payload_bytes foldr].
  destruct (retarget_spec p nr r) as (_ & -> & _). unfold payload_bytes in IH. by rewrite IH.
Qed.

Lemma entry_rules_spec es b names nb rules nb' eb : entry_rules es b names nb = Ok (rules, nb', eb) →
  0 ≤ eb ∧ payload_bytes rules ≤ eb ∧ Forall (rule_ok names) rules.
Proof.
  revert nb rules nb' eb. induction es as [|e es IH]; intros nb rules nb' eb; simpl.
  - intros [= <- _ <-]. simpl. done.
  - destruct (add_budget _ _ _ _) as [nb1|]; [|done].
    destruct (provider_rule e b names) as [r|] eqn:Er; [|done].
    destruct (entry_rules es b names nb1) as [[[rs nb2] eb']|] eqn:Ee; [|done]. intros [= <- _ <-].
    apply IH in Ee as (? & ? & ?). apply provider_rule_spec in Er as (Hd & Hl & Hwf).
    pose proof (len_nonneg e). simpl. unfold len in *. split_and!; [lia|lia|].
    constructor; [|done]. split; [done|by eexists].
Qed.

Lemma build_templates_ok yaml ps assets names rb nc nb ts ts' :
  templates_ok names ts → build_templates yaml ps assets names rb nc nb ts = Ok ts' →
  templates_ok names ts'.
Proof.
  revert rb nc nb ts. induction ps as [|[name p] ps IH]; intros rb nc nb ts Hts; simpl; [by intros [= <-]|].
  destruct (bget _ _) as [bytes|]; [|done]. cbn [ok_or]. destruct (add_budget _ _ _ _); [|done].
  destruct (negb _); [done|]. destruct (entries _ _ _) as [es|]; [|done].
  destruct (add_budget _ _ MAX_RULES _); [|done].
  destruct (entry_rules _ _ _ _) as [[[rules nb'] eb]|] eqn:Ee; [|done]. apply IH.
  intros name' rules' eb'. rewrite lookup_insert. case_decide; [|apply Hts].
  intros [= <- <-]. by eapply entry_rules_spec.
Qed.

Lemma plan_one_spec s ts names c b item c' b' :
  templates_ok names ts → plan_one s ts names c b = Ok (item, c', b') →
  c' = c + len (expand_item item) ∧ c' ≤ MAX_RULES ∧
  b + payload_bytes (expand_item item) ≤ b' ∧ b' ≤ MAX_AGGREGATE_BYTES ∧
  Forall (rule_ok names) (expand_item item) ∧ expands_to ts names s (expand_item item).
Proof.
  intros Hts. unfold plan_one. destruct (is_rule_set _) eqn:Es.
  - destruct (rule_set _) as [[[name target] nr]|] eqn:Er; [|done].
    destruct (ts !! name) as [[rules eb]|] eqn:Et; [|done]. cbn [ok_or].
    destruct (names !! target) as [px|] eqn:En; [|done]. cbn [ok_or].
    destruct (add_budget c _ _ _) as [c1|] eqn:Ec; [|done]. destruct (_ <? _); [done|].
    destruct (add_budget b _ _ _) as [b1|] eqn:Eb1; [|done].
    destruct (add_budget b1 _ _ _) as [b2|] eqn:Eb2; [|done]. intros [= <- <- <-].
    apply add_budget_Ok in Ec as [-> ?]. apply add_budget_Ok in Eb1 as [-> ?]. apply add_budget_Ok in Eb2 as [-> ?].
    destruct (Hts _ _ _ Et) as (? & ? & Hok). cbn [expand_item]. rewrite payload_bytes_retarget.
    pose proof (len_nonneg target). pose proof (len_nonneg rules).
    split_and!; [unfold len; by rewrite length_fmap|done|nia|done| |by eapply expands_set].
    apply Forall_fmap. eapply Forall_impl; [exact Hok|]. intros r [Hwf _].
    destruct (retarget_spec px nr r) as (Hp & _ & _ & Hw). split; [by apply Hw|]. exists target. by rewrite Hp.
  - destruct (rule_parse s names) as [r|] eqn:Er; [|done].
    destruct (add_budget c _ _ _) as [c1|] eqn:Ec; [|done].
    destruct (add_budget b _ _ _) as [b1|] eqn:Eb1; [|done]. intros [= <- <- <-].
    apply add_budget_Ok in Ec as [-> ?]. apply add_budget_Ok in Eb1 as [-> ?].
    cbn [expand_item payload_bytes foldr]. pose proof (len_nonneg (default [] (rule_fields s !! (if bool_decide (rule_fields s !! 0%nat = Some (lit "MATCH")) then 1%nat else 2%nat)))).
    split_and!; [done|done|lia|done| |by apply expands_rule].
    apply Forall_singleton. apply rule_parse_inv in Er as (name & Hm & Hn & Hk).
    split; [rewrite Hk; by eapply rule_matcher_wf|by eexists].
Qed.

Lemma plan_rules_spec ss ts names c b plan c' b' :
  templates_ok names ts → c ≤ MAX_RULES → b ≤ MAX_AGGREGATE_BYTES →
  plan_rules ss ts names c b = Ok (plan, c', b') →
  c' = c + len (mjoin (expand_item <$> plan)) ∧ c' ≤ MAX_RULES ∧
  b + payload_bytes (mjoin (expand_item <$> plan)) ≤ b' ∧ b' ≤ MAX_AGGREGATE_BYTES ∧
  Forall (rule_ok names) (mjoin (expand_item <$> plan)) ∧
  Forall2 (expands_to ts names) ss (expand_item <$> plan).
Proof.
  intros Hts. revert c b plan. induction ss as [|s ss IH]; intros c b plan Hc Hb; simpl.
  - intros [= <- <- <-]. simpl. unfold len. simpl. split_and!; [lia|done|lia|done|constructor|constructor].
  - destruct (plan_one s ts names c b) as [[[item c1] b1]|] eqn:E1; [|done].
    destruct (plan_rules ss ts names c1 b1) as [[[plan' c2] b2]|] eqn:E2; [|done]. intros [= <- <- <-].
    apply plan_one_spec in E1 as (-> & ? & ? & ? & ? & ?); [|done].
    apply IH in E2 as (-> & ? & ? & ? & ? & ?); [|done..].
    rewrite fmap_cons, (join_cons (expand_item item)), payload_bytes_app, len_app. split_and!; [lia|done|lia|done|by apply Forall_app|by constructor].
Qed.

Lemma finals_app i a b : finals i (a ++ b) = finals i a ++ finals (i + length a) b.
Proof.
  revert i. induction a as [|r a IH]; intros i; simpl; [by rewrite Nat.add_0_r|].
  rewrite IH. replace (S i + length a)%nat with (i + S (length a))%nat by lia. by destruct (is_match r).
Qed.

Lemma finals_lt i a j : j ∈ finals i a → (j < i + length a)%nat.
Proof.
  revert i. induction a as [|r a IH]; intros i; simpl; [by intros ?%not_elem_of_nil|].
  destruct (is_match r); rewrite ?elem_of_cons; [intros [-> |Hj]; [lia|]|intros Hj]; apply IH in Hj; lia.
Qed.

Lemma finals_nil i a : finals i a = [] ↔ Forall (λ r, is_match r = false) a.
Proof.
  revert i. induction a as [|r a IH]; intros i; simpl; [done|]. rewrite Forall_cons.
  destruct (is_match r); [naive_solver|]. rewrite IH. naive_solver.
Qed.

(** The check on [finals] says what its message says. *)
Lemma finals_single l :
  finals 0 l = [pred (length l)] → l ≠ [] →
  ∃ pre r, l = pre ++ [r] ∧ is_match r = true ∧ Forall (λ r, is_match r = false) pre.
Proof.
  intros Hf Hne. destruct (exists_last Hne) as (pre & r & ->). exists pre, r. split; [done|].
  rewrite finals_app, length_app in Hf. cbn [length finals] in Hf.
  replace (pred (length pre + 1)) with (length pre) in Hf by lia.
  destruct (finals 0 pre) as [|j js] eqn:Ej.
  - apply finals_nil in Ej. by destruct (is_match r).
  - exfalso. simpl in Hf. simplify_eq. pose proof (finals_lt 0 pre (length pre)) as Hlt.
    rewrite Ej in Hlt. specialize (Hlt ltac:(constructor)). lia.
Qed.

Lemma match_reject_rule names r : rule_parse (lit "MATCH,REJECT") names = Ok r →
  rule_ok names r ∧ payload r = [] ∧ is_match r = true ∧ names !! lit "REJECT" = Some (proxy r).
Proof.
  unfold rule_parse. change (rule_fields (lit "MATCH,REJECT")) with [lit "MATCH"; lit "REJECT"].
  cbn [rule_matcher]. rewrite eq_str_refl. destruct (names !! lit "REJECT") eqn:E; [|done].
  cbn [ok_or]. intros [= <-]. split_and!; [|done|done|done]. split; [done|by eexists].
Qed.

(** What [add_final] appends: nothing, or the rule that rejects. *)
Lemma add_final_spec ps names plan c b plan' :
  add_final ps names plan c b = Ok plan' →
  plan' = plan ∨
  ∃ r, plan' = plan ++ [PlannedRule r] ∧ ps ≠ [] ∧ c + 1 ≤ MAX_RULES ∧
       rule_parse (lit "MATCH,REJECT") names = Ok r.
Proof.
  unfold add_final. destruct (_ && _) eqn:E; [|intros [= <-]; by left]. apply andb_prop in E as [E _].
  destruct (add_budget c _ _ _) eqn:Ec; [|done]. destruct (add_budget b _ _ _) eqn:Eb; [|done].
  destruct (rule_parse _ _) as [r|] eqn:Er; [|done]. intros [= <-]. right. exists r.
  apply add_budget_Ok in Ec as [-> ?]. destruct_bool. done.
Qed.

Lemma expand_inv yaml url srules ps assets names out :
  expand yaml url srules ps assets names = Ok out →
  validate url ps = Ok tt ∧ asset_budget assets = Ok tt ∧
  (ps ≠ [] → finals 0 out = [pred (length out)] ∧ out ≠ []) ∧
  ∃ ts plan c b plan',
    build_templates yaml ps assets names 0 0 0 ∅ = Ok ts ∧
    plan_rules srules ts names 0 0 = Ok (plan, c, b) ∧
    add_final ps names plan c b = Ok plan' ∧ out = mjoin (expand_item <$> plan').
Proof.
  unfold expand. destruct (validate url ps) as [[]|]; [|done]. destruct (asset_budget assets) as [[]|]; [|done].
  destruct (build_templates _ _ _ _ _ _ _ _) as [ts|] eqn:Et; [|done].
  destruct (plan_rules _ _ _ _ _) as [[[plan c] b]|] eqn:Ep; [|done].
  destruct (add_final _ _ _ _ _) as [plan'|] eqn:Ef; [|done].
  destruct (_ && _) eqn:E; [done|]. intros [= <-]. split_and!; [done|done| |by do 5 eexists].
  intros Hps. rewrite bool_decide_eq_false_2 in E by done. cbn [negb andb] in E.
  apply orb_false_elim in E as [E1 E2]. destruct_bool. done.
Qed.

Lemma expand_within yaml url srules ps assets names out :
  expand yaml url srules ps assets names = Ok out →
  len out ≤ MAX_RULES ∧ payload_bytes out ≤ MAX_AGGREGATE_BYTES ∧ Forall (rule_ok names) out.
Proof.
  intros He. apply expand_inv in He as (_ & _ & _ & ts & plan & c & b & plan' & Ht & Hp & Hf & ->).
  apply build_templates_ok in Ht; [|by intros ? ? ?]. apply plan_rules_spec in Hp as (-> & ? & ? & ? & ? & _); [|done..].
  apply add_final_spec in Hf as [-> |(r & -> & _ & ? & Hr)]; [split_and!; lia || done|].
  apply match_reject_rule in Hr as (Hok & Hpay & _ & _).
  rewrite fmap_app, join_app, len_app, payload_bytes_app.
  change (mjoin (expand_item <$> [PlannedRule r])) with [r]. cbn [payload_bytes foldr]. rewrite Hpay. autorewrite with zc_len. split_and!; [lia|lia|]. by apply Forall_app; split; [|by apply Forall_singleton].
Qed.

End ProviderLemmas.

(** ** Properties *)

Section Properties.
Context `{IpNetLib}.

(** A configuration with rule providers expands to a list that ends in its only MATCH
    rule: no provider entry or declaration can put a catch-all before the end, hide a second
    one, or leave traffic without a final rule. *)
Theorem expand_single_final yaml url srules ps assets names out :
  expand yaml url srules ps assets names = Ok out → ps ≠ [] →
  ∃ pre final, out = pre ++ [final] ∧ is_match final = true ∧ Forall (λ r, is_match r = false) pre.
Proof. intros He Hps. apply expand_inv in He as (_ & _ & Hf & _). apply finals_single; by apply Hf. Qed.

(** C29: expansion stays within its reservations: at most 262144 rules, at most 64 MiB of
    rule payloads, and every rule is well formed and targets a declared proxy or group. *)
Theorem expand_bounds yaml url srules ps assets names out :
  expand yaml url srules ps assets names = Ok out →
  len out ≤ MAX_RULES ∧ payload_bytes out ≤ MAX_AGGREGATE_BYTES ∧ Forall (rule_ok names) out.
Proof. apply expand_within. Qed.

(** Expansion is order preserving and complete: the result is the concatenation, in
    declaration order, of what each source rule stands for (itself, or its provider's rules
    with the target that the RULE-SET names), followed at most by the rule that rejects. *)
Theorem expand_order yaml url srules ps assets names out :
  expand yaml url srules ps assets names = Ok out →
  ∃ ts parts final,
    build_templates yaml ps assets names 0 0 0 ∅ = Ok ts ∧
    Forall2 (expands_to ts names) srules parts ∧ out = mjoin parts ++ final ∧
    (final = [] ∨ ∃ r, final = [r] ∧ is_match r = true ∧ names !! lit "REJECT" = Some (proxy r)).
Proof.
  intros He. apply expand_inv in He as (_ & _ & _ & ts & plan & c & b & plan' & Ht & Hp & Hf & ->).
  pose proof (build_templates_ok _ _ _ _ _ _ _ ∅ ts (λ n r e Hn, ltac:(by apply lookup_empty_Some in Hn)) Ht) as Hts.
  apply plan_rules_spec in Hp as (_ & _ & _ & _ & _ & Hp); [|done..].
  exists ts, (expand_item <$> plan). apply add_final_spec in Hf as [-> |(r & -> & _ & _ & Hr)].
  - exists []. rewrite app_nil_r. naive_solver.
  - exists [r]. rewrite fmap_app, join_app. split_and!; [done|done|done|]. right. exists r.
    apply match_reject_rule in Hr as (_ & _ & ? & ?). done.
Qed.

(** A provider's entry cannot choose its target or smuggle fields: whatever commas it
    holds, the rule it becomes is bound to DIRECT until a RULE-SET retargets it, its payload
    is no longer than the entry, and its matcher agrees with its keyword. *)
Theorem provider_rule_contained e b names r : provider_rule e b names = Ok r →
  names !! lit "DIRECT" = Some (proxy r) ∧ (length (payload r) ≤ length e)%nat ∧
  matcher_wf (kind r) (matcher r).
Proof. apply provider_rule_spec. Qed.

End Properties.

(** ** Witnesses *)

(** IPv4 networks written [address/prefix], a concrete [ipnet]. *)
#[local] Instance ipv4_nets : IpNetLib := {|
  IpNet := (Z * Z)%type;
  ipnet_parse s :=
    let? '(a, n) := split_once 47 s in
    let? n := parse_uint 32 n in
    let? ip := parse_ip a in
    match ip with V4 a b c d => Some (v4_u32 a b c d, n) | V6 _ => None end;
  ipnet_is_ipv4 _ := true;
  ipnet_contains '(net, n) ip :=
    match ip with
    | V4 a b c d => Z.shiftr (v4_u32 a b c d) (32 - n) =? Z.shiftr net (32 - n)
    | V6 _ => false
    end;
|}.

Definition demo_names : gmap str nat :=
  {[ lit "DIRECT" := 0%nat; lit "REJECT" := 1%nat; lit "node" := 2%nat ]}.
Definition demo_providers : bmap Provider :=
  [(lit "ads", mkProvider (lit "file") (lit "domain") (lit "ads.txt") None 86400)].
Definition demo_assets : bmap str := [(lit "ads.txt", lit "+.ads.example" ++ [10] ++ lit ".tracker.example" ++ [10])].
Definition demo_rules : list str := [lit "RULE-SET,ads,REJECT"; lit "IP-CIDR,10.0.0.0/8,DIRECT,no-resolve"].
Definition demo_yaml (_ : str) : res Value := Err "no YAML".
Definition demo_url (_ : str) : option (str * option str) := None.

(** What the demonstration expands to: two rejected suffixes, a network, the final reject. *)
Definition demo_expanded : list Rule := [
  mkRule (DomainSuffix (lit "ads.example")) 1 (lit "DOMAIN-SUFFIX") (lit "ads.example");
  mkRule (DomainSuffix (lit "tracker.example")) 1 (lit "DOMAIN-SUFFIX") (lit "tracker.example");
  mkRule (Ip (167772160, 8) true) 0 (lit "IP-CIDR") (lit "10.0.0.0/8");
  mkRule Match 1 (lit "MATCH") []].

Lemma expand_single_final_witness :
  ∃ pre final, demo_expanded = pre ++ [final] ∧ is_match final = true ∧
    Forall (λ r, is_match r = false) pre.
Proof.
  apply (expand_single_final demo_yaml demo_url demo_rules demo_providers demo_assets demo_names).
  - vm_cast_no_check (eq_refl (Ok (E:=string) demo_expanded)).
  - discriminate.
Defined.

Lemma expand_bounds_witness : len demo_expanded ≤ MAX_RULES.
Proof.
  refine (proj1 (expand_bounds demo_yaml demo_url demo_rules demo_providers demo_assets demo_names _ _)).
  vm_cast_no_check (eq_refl (Ok (E:=string) demo_expanded)).
Defined.

Lemma expand_order_witness :
  ∃ ts parts final,
    build_templates demo_yaml demo_providers demo_assets demo_names 0 0 0 ∅ = Ok ts ∧
    Forall2 (expands_to ts demo_names) demo_rules parts ∧ demo_expanded = mjoin parts ++ final ∧
    (final = [] ∨ ∃ r, final = [r] ∧ is_match r = true ∧ demo_names !! lit "REJECT" = Some (proxy r)).
Proof. apply (expand_order demo_yaml demo_url). vm_cast_no_check (eq_refl (Ok (E:=string) demo_expanded)). Defined.

Lemma provider_rule_contained_witness :
  demo_names !! lit "DIRECT" = Some 0%nat ∧ (length (lit "ads.example") ≤ length (lit "+.ads.example"))%nat ∧
  matcher_wf (lit "DOMAIN-SUFFIX") (DomainSuffix (lit "ads.example")).
Proof.
  apply (provider_rule_contained (lit "+.ads.example") (lit "domain") demo_names
           (mkRule (DomainSuffix (lit "ads.example")) 0 (lit "DOMAIN-SUFFIX") (lit "ads.example"))).
  vm_cast_no_check (eq_refl (Ok (E:=string)
    (mkRule (DomainSuffix (lit "ads.example")) 0 (lit "DOMAIN-SUFFIX") (lit "ads.example")))).
Defined.

(** The declaration check is laxer than the parser it stands for: it trims Unicode white
    space around the fields of a RULE-SET where expansion trims only blanks, so it accepts a
    declaration that every load of the configuration then rejects. *)
Theorem declarations_laxer_than_expand :
  let rules := [lit "RULE-SET,ads," ++ [194; 160] ++ lit "REJECT"; lit "MATCH,DIRECT"] in
  validate_rule_declarations demo_url rules demo_providers demo_names = Ok tt ∧
  expand demo_yaml demo_url rules demo_providers demo_assets demo_names
    = Err "rule references unknown proxy or group"%string.
Proof.
  split; [vm_cast_no_check (eq_refl (Ok (E:=string) tt))|].
  vm_cast_no_check (eq_refl (Err (A:=list Rule) "rule references unknown proxy or group"%string)).
Qed.
