(* ===== verification/Assets.v ===== *)
(** * Obtaining provider assets (src/src/config_provider.rs: [read_asset],
      [capture_file_assets], [download], [fetch_http_assets])

    Local assets are read through descriptor-relative opens below the configuration's root;
    remote ones are downloaded. Both are charged against the aggregate byte budget. The file
    system and the HTTP client are parameters. *)
From S2P Require Import Prelude Utf8 BTree Json Document Rules Provider.

(** ** Paths: [std::path::Path::components] on Unix *)

Inductive Component :=
| RootDir
| CurDir
| ParentDir
| Normal (name : str).

Definition component (first : bool) (piece : str) : list Component :=
  if bool_decide (piece = []) then []
  else if eq_str piece (lit ".") then (if first then [CurDir] else [])
  else if eq_str piece (lit "..") then [ParentDir]
  else [Normal piece].

Definition components (path : str) : list Component :=
  let rooted := starts_with (lit "/") path in
  match split_byte 47 path with
  | [] => []
  | p :: ps =>
      (if rooted then [RootDir] else []) ++ component (negb rooted) p ++ mjoin (component false <$> ps)
  end.

Definition normal_name (c : Component) : option str :=
  match c with Normal name => Some name | _ => None end.

(** ** The file system below the root *)

Class FileSystem := {
  Fd : Type;
  root_fd : option Fd;
  (** [openat(fd, name, NOFOLLOW | ..)], with [DIRECTORY] when the flag is set. *)
  openat : Fd → str → bool → option Fd;
  (** [metadata()]: whether it is a regular file, and its size. *)
  fstat : Fd → option (bool * Z);
  (** Everything a read to the end would return. *)
  contents : Fd → option str;
}.

Section Local.
Context `{FileSystem}.

(** The loop over the components: all but the last are opened as directories. *)
Fixpoint open_beneath (fd : Fd) (names : list str) : option Fd :=
  match names with
  | [] => Some fd
  | name :: names =>
      let? fd := openat fd name (negb (bool_decide (names = []))) in
      open_beneath fd names
  end.

Definition source_limit : string := "rule-provider source bytes limit exceeded".

Definition read_asset (path : str) (limit : Z) : res str :=
  let parts := take 65 (components path) in
  match mapM normal_name parts with
  | None => Err "local rule-provider path must be relative and root-contained"
  | Some names =>
      if bool_decide (names = []) || (64 <? len names)
      then Err "local rule-provider path must be relative and root-contained"
      else
        let! fd := ok_or root_fd "cannot open rule-provider root directory"%string in
        let! fd := ok_or (open_beneath fd names) "cannot open root-contained rule-provider asset"%string in
        let! '(is_file, size) := ok_or (fstat fd) "input/output error"%string in
        if negb is_file then Err "rule-provider asset must be a regular file"
        else if limit <? size then Err source_limit
        else
          let! all := ok_or (contents fd) "input/output error"%string in
          let bytes := take (Z.to_nat (limit + 1)) all in
          if limit <? len bytes then Err source_limit else Ok bytes
  end.

(** The loop of [capture_file_assets] over the providers without a URL. *)
Fixpoint capture (providers : list Provider) (assets : bmap str) (total : Z) : res (bmap str) :=
  match providers with
  | [] => Ok assets
  | p :: providers =>
      if is_some (pv_url p) then capture providers assets total
      else
        let! bytes := read_asset (pv_path p) (Z.min MAX_SOURCE_BYTES (MAX_AGGREGATE_BYTES - total)) in
        capture providers (binsert (pv_path p) bytes assets) (total + len bytes)
  end.

End Local.

(** ** Declarations of a source *)

Section Declarations.
Context (document : str → res Value) (deserialize : Value → option (bmap Provider))
  (url_parse : str → option (str * option str)).

(** [declarations], with [parse_document] and the derived deserializer as parameters. *)
Definition declarations (source : str) : res (bmap Provider) :=
  let! d := document source in
  let! providers :=
    match get "rule-providers" d with
    | None => Ok []
    | Some value => ok_or (deserialize value) "invalid rule-provider declarations"%string
    end in
  let! _ := validate url_parse providers in
  Ok providers.

Definition capture_file_assets `{FileSystem} (source : str) : res (bmap str) :=
  let! providers := declarations source in
  capture (values providers) [] 0.

End Declarations.

(** ** Downloads *)

(** What one request delivers: the announced length, whether the status is 200, the body in
    chunks, and whether the body ends cleanly. *)
Inductive Sent :=
| SendFailed
| Response (content_length : option Z) (success : bool) (chunks : list str) (clean : bool).

Definition body_limit : string := "rule-provider HTTP body exceeds source byte limit".

(** The chunk loop: the body ([None] on a transport error) and the new total. *)
Fixpoint download_chunks (limit : Z) (chunks : list str) (clean : bool) (bytes : str) (total : Z)
    : res (option str * Z) :=
  match chunks with
  | [] => if clean then Ok (Some bytes, total) else Ok (None, total + (limit - len bytes))
  | chunk :: chunks =>
      if limit - len bytes <? len chunk then Err body_limit
      else download_chunks limit chunks clean (bytes ++ chunk) (total + len chunk)
  end.

Definition download (sent : Sent) (total : Z) : res (option str * Z) :=
  let limit := Z.min MAX_SOURCE_BYTES (MAX_AGGREGATE_BYTES - total) in
  if limit =? 0 then Err source_bytes_limit
  else
    match sent with
    | SendFailed => Ok (None, total + limit)
    | Response content_length success chunks clean =>
        if is_some_and content_length (λ n, limit <? n) then Err body_limit
        else
          let! '(bytes, total) := download_chunks limit chunks clean [] total in
          Ok (if success then bytes else None, total)
    end.

Section Remote.
(** The response to a request for a URL; [client] is whether the HTTP client can be built. *)
Context (client : bool) (send : str → Sent).

(** The loop of [fetch_http_assets] over the providers with a URL. *)
Fixpoint fetch (providers : list Provider) (assets : bmap str) (total : Z) : res (bmap str) :=
  match providers with
  | [] => Ok assets
  | p :: providers =>
      match pv_url p with
      | None => fetch providers assets total
      | Some url =>
          if negb client then Err "cannot initialize rule-provider HTTP client"
          else
            let! '(body, total) := download (send url) total in
            let! bytes := ok_or body "rule-provider download failed or timed out"%string in
            if bcontains (pv_path p) assets
            then Err "multiple HTTP providers cannot publish the same asset path"
            else fetch providers (binsert (pv_path p) bytes assets) total
      end
  end.

End Remote.

Definition fetch_http_assets (client : bool) (send : str → Sent) (document : str → res Value)
    (deserialize : Value → option (bmap Provider)) (url_parse : str → option (str * option str))
    (source : str) : res (bmap str) :=
  let! providers := declarations document deserialize url_parse source in
  fetch client send (values providers) [] 0.

(** ** What obtained assets satisfy *)

Definition total_bytes (assets : list str) : Z := foldr (λ b acc, len b + acc) 0 assets.

(** Within [total] bytes, each at most the source limit. *)
Definition assets_within (total : Z) (assets : bmap str) : Prop :=
  total_bytes (values assets) ≤ total ∧ Forall (λ b, len b ≤ MAX_SOURCE_BYTES) (values assets).

(** ** Lemmas *)

Lemma component_normal first p name : Normal name ∈ component first p →
  name = p ∧ name ≠ [] ∧ name ≠ lit "." ∧ name ≠ lit "..".
Proof.
  unfold component. destruct (bool_decide (p = [])) eqn:E; [by intros ?%not_elem_of_nil|].
  destruct (eq_str p (lit ".")) eqn:E1; [destruct first; intros Hn; by inversion Hn as [|? ? ? Hn']; inversion Hn'|].
  destruct (eq_str p (lit "..")) eqn:E2; [intros Hn; by inversion Hn as [|? ? ? Hn']; inversion Hn'|].
  rewrite list_elem_of_singleton. intros [= ->]. destruct_bool.
  apply eq_str_false in E1, E2. done.
Qed.

(** A name that is opened is a plain directory entry. *)
Definition plain_name (name : str) : Prop :=
  name ≠ [] ∧ name ≠ lit "." ∧ name ≠ lit ".." ∧ (47 ∉ name).

Lemma components_plain path name : Normal name ∈ components path → plain_name name.
Proof.
  unfold components. pose proof (split_byte_elem 47 path) as Hp.
  destruct (split_byte 47 path) as [|p ps]; [by intros ?%not_elem_of_nil|].
  rewrite !elem_of_app. intros [Hr|[Hc|Hc]].
  - destruct (starts_with _ _); [|by apply not_elem_of_nil in Hr].
    by apply list_elem_of_singleton in Hr.
  - apply component_normal in Hc as (-> & ? & ? & ?). repeat split; try done. by apply Hp; constructor.
  - apply list_elem_of_join in Hc as (l & Hc & Hl). apply list_elem_of_fmap in Hl as (q & -> & Hq).
    apply component_normal in Hc as (-> & ? & ? & ?). repeat split; try done. by apply Hp; constructor.
Qed.

Lemma mapM_normal parts names : mapM normal_name parts = Some names → parts = Normal <$> names.
Proof.
  intros Hm. apply mapM_Some in Hm. induction Hm as [|c name parts names Hc _ IH]; [done|].
  simpl. rewrite IH. by destruct c; simplify_eq/=.
Qed.

Lemma total_bytes_nonneg l : 0 ≤ total_bytes l.
Proof. induction l as [|b l IH]; simpl; [done|]. pose proof (len_nonneg b). lia. Qed.

Lemma binsert_total k b (m : bmap str) :
  total_bytes (values (binsert k b m)) ≤ total_bytes (values m) + len b.
Proof.
  induction m as [|[k' b'] m IH]; simpl; [lia|].
  destruct (eq_str k k'); [|destruct (str_ltb k k')]; simpl; pose proof (len_nonneg b'); lia.
Qed.

Lemma binsert_values {A} (P : A → Prop) k a (m : bmap A) :
  P a → Forall P (values m) → Forall P (values (binsert k a m)).
Proof.
  intros Ha. induction m as [|[k' b'] m IH]; simpl; intros Hm; [by constructor|]. inversion Hm; subst.
  destruct (eq_str k k'); [|destruct (str_ltb k k')]; constructor; auto.
Qed.

Lemma binsert_length {A} k (a : A) m : (length (binsert k a m) ≤ S (length m))%nat.
Proof.
  induction m as [|[k' b'] m IH]; simpl; [lia|].
  destruct (eq_str k k'); [|destruct (str_ltb k k')]; simpl; lia.
Qed.

Lemma asset_bytes_Ok l total :
  0 ≤ total → Forall (λ b, len b ≤ MAX_SOURCE_BYTES) l → total + total_bytes l ≤ MAX_AGGREGATE_BYTES →
  asset_bytes l total = Ok tt.
Proof.
  intros Ht Hf. revert total Ht. induction Hf as [|b l Hb _ IH]; intros total Ht Hl; [done|]. simpl in *.
  pose proof (len_nonneg b). pose proof (total_bytes_nonneg l).
  rewrite (proj2 (Z.ltb_ge _ _)) by done. unfold add_budget.
  assert (total + len b <= usize_max) by (unfold MAX_AGGREGATE_BYTES, usize_max, u64_max in *; lia).
  rewrite (proj2 (Z.leb_le _ usize_max)), (proj2 (Z.leb_le _ MAX_AGGREGATE_BYTES)) by lia. cbn [andb].
  apply IH; lia.
Qed.

(** The providers' count bounds the assets obtained for them. *)
Lemma assets_pass_budget assets :
  assets_within MAX_AGGREGATE_BYTES assets → len assets ≤ MAX_PROVIDERS → asset_budget assets = Ok tt.
Proof.
  intros [Ht Hf] Hl. unfold asset_budget. rewrite (proj2 (Z.ltb_ge _ _)) by done.
  apply asset_bytes_Ok; [done|done|lia].
Qed.

Lemma assets_within_insert total assets k bytes :
  assets_within total assets → len bytes ≤ MAX_SOURCE_BYTES →
  assets_within (total + len bytes) (binsert k bytes assets).
Proof.
  intros [Ht Hf] Hb. split; [|by apply binsert_values]. pose proof (binsert_total k bytes assets). lia.
Qed.

Lemma declarations_count document deserialize url source ps :
  declarations document deserialize url source = Ok ps → len ps ≤ MAX_PROVIDERS.
Proof.
  unfold declarations. destruct (document source) as [d|]; [|done].
  destruct (match get _ d with Some _ => _ | None => _ end) as [providers|]; [|done].
  unfold validate. destruct (_ <? _) eqn:E; [done|]. destruct (validate_each _ _); [|done].
  intros [= <-]. blia.
Qed.

Section LocalLemmas.
Context `{FileSystem}.

Lemma read_asset_spec path limit bytes : read_asset path limit = Ok bytes →
  len bytes ≤ limit ∧
  ∃ names fd0 fd, Forall plain_name names ∧ 1 ≤ len names ≤ 64 ∧ root_fd = Some fd0 ∧
    open_beneath fd0 names = Some fd ∧ is_Some (fstat fd).
Proof.
  unfold read_asset. destruct (mapM _ _) as [names|] eqn:Em; [|done].
  destruct (_ || _) eqn:Eb; [done|]. apply orb_false_elim in Eb as [E1 E2].
  destruct root_fd as [fd0|]; [|done]. cbn [ok_or].
  destruct (open_beneath fd0 names) as [fd|] eqn:Eo; [|done]. cbn [ok_or].
  destruct (fstat fd) as [[reg size]|] eqn:Es; [|done]. cbn [ok_or].
  destruct (negb reg); [done|]. destruct (limit <? size); [done|].
  destruct (contents fd) as [all|]; [|done]. cbn [ok_or].
  destruct (limit <? _) eqn:El; [done|]. intros [= <-]. destruct_bool. split; [done|].
  exists names, fd0, fd. split_and!; [| |done|done|done|by eexists].
  - apply mapM_normal in Em. apply Forall_forall. intros name Hn. apply (components_plain path).
    assert (Normal name ∈ take 65 (components path)) as Ht by (rewrite Em; by apply list_elem_of_fmap_2).
    apply elem_of_take in Ht as (i & Hi & _). by eapply list_elem_of_lookup_2.
  - unfold len. destruct names; [done|]. simpl. lia.
Qed.

Lemma capture_within ps assets total out :
  assets_within total assets → total ≤ MAX_AGGREGATE_BYTES →
  capture ps assets total = Ok out →
  assets_within MAX_AGGREGATE_BYTES out ∧ (length out ≤ length assets + length ps)%nat.
Proof.
  revert assets total. induction ps as [|p ps IH]; intros assets total Hw Ht; simpl.
  - intros [= <-]. destruct Hw. split; [split; [lia|done]|lia].
  - destruct (is_some (pv_url p)).
    + intros Hc. apply IH in Hc as [? ?]; [|done..]. split; [done|lia].
    + destruct (read_asset _ _) as [bytes|] eqn:Er; [|done]. intros Hc.
      apply read_asset_spec in Er as [Hl _].
      apply IH in Hc as [? ?]; [|by apply assets_within_insert; [|lia]|lia].
      split; [done|]. pose proof (binsert_length (pv_path p) bytes assets). lia.
Qed.

End LocalLemmas.

Lemma download_chunks_spec limit chunks clean bytes total body total' :
  len bytes ≤ limit → download_chunks limit chunks clean bytes total = Ok (body, total') →
  match body with
  | Some b => b = bytes ++ mjoin chunks ∧ len b ≤ limit ∧ total' = total + (len b - len bytes) ∧ clean = true
  | None => total' = total + (limit - len bytes)
  end.
Proof.
  revert bytes total. induction chunks as [|c cs IH]; intros bytes total Hb; simpl.
  - destruct clean; intros [= <- <-]; [|done]. rewrite app_nil_r. split_and!; [done|done|lia|done].
  - destruct (_ <? _) eqn:E; [done|]. destruct_bool. intros Hd.
    apply IH in Hd; [|rewrite len_app; lia]. rewrite len_app in Hd. destruct body as [b|]; [|lia].
    destruct Hd as (-> & ? & -> & ->). rewrite <- app_assoc in *. split_and!; [done|done|lia|done].
Qed.

Lemma download_spec sent total body total' :
  0 ≤ total ≤ MAX_AGGREGATE_BYTES → download sent total = Ok (body, total') →
  total ≤ total' ≤ MAX_AGGREGATE_BYTES ∧
  match body with
  | Some b => total + len b = total' ∧ len b ≤ MAX_SOURCE_BYTES ∧
              ∃ n chunks, sent = Response n true chunks true ∧ b = mjoin chunks
  | None => True
  end.
Proof.
  intros Ht. unfold download. set (limit := Z.min _ _).
  assert (0 ≤ limit) by (unfold MAX_SOURCE_BYTES in limit; lia).
  destruct (limit =? 0) eqn:E; [done|]. destruct sent as [|n ok chunks clean].
  - intros [= <- <-]. split; [lia|done].
  - destruct (is_some_and _ _); [done|].
    destruct (download_chunks _ _ _ _ _) as [[b t]|] eqn:Ed; [|done]. intros [= <- <-].
    apply download_chunks_spec in Ed; [|done]. change (len []) with 0 in Ed. destruct b as [b|].
    + destruct Ed as (-> & Hl & -> & ->). pose proof (len_nonneg ([] ++ mjoin chunks)).
      split; [lia|]. destruct ok; [|done]. split_and!; [lia|lia|]. by exists n, chunks.
    + subst t. split; [lia|by destruct ok].
Qed.

Lemma fetch_within client send ps assets total out :
  assets_within total assets → 0 ≤ total ≤ MAX_AGGREGATE_BYTES →
  fetch client send ps assets total = Ok out →
  assets_within MAX_AGGREGATE_BYTES out ∧ (length out ≤ length assets + length ps)%nat.
Proof.
  revert assets total. induction ps as [|p ps IH]; intros assets total Hw Ht; simpl.
  - intros [= <-]. destruct Hw. split; [split; [lia|done]|lia].
  - destruct (pv_url p) as [url|].
    + destruct (negb client); [done|]. destruct (download _ _) as [[body t]|] eqn:Ed; [|done].
      apply download_spec in Ed as [Ht' Hb]; [|done]. destruct body as [b|]; [|done]. cbn [ok_or].
      destruct Hb as (<- & Hl & _). destruct (bcontains _ _); [done|]. intros Hf.
      apply IH in Hf as [? ?]; [|by apply assets_within_insert|lia].
      split; [done|]. pose proof (binsert_length (pv_path p) b assets). lia.
    + intros Hf. apply IH in Hf as [? ?]; [|done..]. split; [done|lia].
Qed.

(** ** Properties *)

(** A local asset is reached only by descending from the root through 1 to 64 plain
    directory entries (never an absolute path, a parent step or a slash inside a name), and
    no more than the requested number of bytes is returned. *)
Theorem read_asset_contained `{FileSystem} path limit bytes : read_asset path limit = Ok bytes →
  len bytes ≤ limit ∧
  ∃ names fd0 fd, Forall plain_name names ∧ 1 ≤ len names ≤ 64 ∧ root_fd = Some fd0 ∧
    open_beneath fd0 names = Some fd ∧ is_Some (fstat fd).
Proof. apply read_asset_spec. Qed.

(** A root with one file, [rules/ads.txt]. *)
#[local] Instance demo_fs : FileSystem := {|
  Fd := (list str);
  root_fd := Some [];
  openat fd name dir := Some (fd ++ [name]);
  fstat fd := Some (bool_decide (fd = [lit "rules"; lit "ads.txt"]), 3);
  contents _ := Some (lit "a.b");
|}.

Lemma read_asset_contained_witness : len (lit "a.b") ≤ 10.
Proof.
  refine (proj1 (read_asset_contained (lit "rules/./ads.txt") 10 (lit "a.b") _)). vm_compute. reflexivity.
Defined.

(** Whatever the file system holds and the servers send, the assets that capturing or
    fetching returns are accepted by the budget check of expansion: at most 4096 of them,
    each at most 16 MiB, together at most 64 MiB. *)
Theorem obtained_assets_pass_budget `{FileSystem} client send document deserialize url source assets :
  capture_file_assets document deserialize url source = Ok assets ∨
  fetch_http_assets client send document deserialize url source = Ok assets →
  asset_budget assets = Ok tt.
Proof.
  assert (assets_within 0 []) as H0 by (split; [done|constructor]).
  unfold capture_file_assets, fetch_http_assets.
  intros [Ha|Ha]; destruct (declarations _ _ _ _) as [ps|] eqn:Ed; try done; apply declarations_count in Ed.
  - apply capture_within in Ha as [Hw Hl]; [|done|done]. apply assets_pass_budget; [done|].
    unfold len in *. simpl in Hl. unfold values in Hl. rewrite length_fmap in Hl. lia.
  - apply fetch_within in Ha as [Hw Hl]; [|done|done]. apply assets_pass_budget; [done|].
    unfold len in *. simpl in Hl. unfold values in Hl. rewrite length_fmap in Hl. lia.
Qed.

Lemma obtained_assets_pass_budget_witness : asset_budget [(lit "rules/ads.txt", lit "a.b")] = Ok tt.
Proof.
  apply (obtained_assets_pass_budget true (λ _, SendFailed)
           (λ _, Ok (VObject [(lit "rule-providers", VObject [])]))
           (λ _, Some [(lit "ads", mkProvider (lit "file") (lit "domain") (lit "rules/ads.txt") None 1)])
           (λ _, None) []).
  left. vm_compute. reflexivity.
Defined.

(** A download never exceeds its budget: the running total stays within 64 MiB and
    never decreases, and a body is delivered only when the status was 200 and the transfer
    ended cleanly, complete, within 16 MiB and charged in full. *)
Theorem download_bounded sent total body total' :
  0 ≤ total ≤ MAX_AGGREGATE_BYTES → download sent total = Ok (body, total') →
  total ≤ total' ≤ MAX_AGGREGATE_BYTES ∧
  match body with
  | Some b => total + len b = total' ∧ len b ≤ MAX_SOURCE_BYTES ∧
              ∃ n chunks, sent = Response n true chunks true ∧ b = mjoin chunks
  | None => True
  end.
Proof. apply download_spec. Qed.

Lemma download_bounded_witness : 0 ≤ 4 ≤ MAX_AGGREGATE_BYTES.
Proof.
  refine (proj1 (download_bounded (Response (Some 4) true [lit "a."; lit "b "] true) 0 (Some (lit "a.b ")) 4 _ _)).
  - done.
  - vm_compute. reflexivity.
Defined.
