(* ===== verification/Dns.v ===== *)
(** * Name resolution (src/src/dns.rs)

    Literal addresses resolve to themselves; other names are looked up within two of 64
    slots and two seconds, and an answer must hold between 1 and 64 addresses. What the
    router relies on is the interface [Resolver]; this file provides its instance. *)
From S2P Require Import Prelude Net Target.

Definition LIMIT : Z := 64.

(** ** What the router relies on *)

(** [resolve n t] is the answer to the [n]-th resolution: answers may change over time. *)
Class Resolver := {
  resolve : nat → Target → res (list IpAddr);
  resolve_nonempty n t addrs : resolve n t = Ok addrs → addrs ≠ [];
  resolve_ip_wf n t addrs : resolve n t = Ok addrs → Forall ip_wf addrs;
}.

(** ** The implementation *)

(** How one lookup of the resolver library ends. *)
Inductive Lookup :=
| Answer (addresses : list IpAddr)
| LookupFailed
| TimedOut
| Unavailable (message : string).

(** [resolve_inner], with the number of free slots. *)
Definition resolve_inner (free : Z) (lookup : Lookup) (t : Target) : res (list IpAddr) :=
  match parse_ip (host t) with
  | Some ip => Ok [ip]
  | None =>
      if free <? 2 then Err "DNS concurrency limit of 64 reached; retry later"
      else
        match lookup with
        | Unavailable message => Err message
        | LookupFailed => Err "DNS lookup failed; check system DNS and destination name"
        | TimedOut => Err "DNS lookup timed out after 2 seconds; connection denied"
        | Answer all =>
            let addresses := take (Z.to_nat (LIMIT + 1)) all in
            if bool_decide (addresses = []) || (LIMIT <? len addresses)
            then Err "DNS lookup must return between 1 and 64 addresses; connection denied"
            else Ok addresses
        end
  end.

(** A resolver configuration: the connections of each name server and the search list. *)
Record ResolverConfig := mkResolverConfig { name_servers : list Z; search : list str }.

Definition validate_config (c : ResolverConfig) : res unit :=
  if bool_decide (name_servers c = [])
  then Err "no DNS nameservers configured; configure system DNS (no public DNS fallback)"
  else if (LIMIT <? len (name_servers c)) || (LIMIT <? len (search c))
          || (LIMIT <? foldr Z.add 0 (name_servers c))
  then Err "DNS configuration exceeds the 64-entry resource limit"
  else Ok tt.

(** ** Concurrent lookups

    A lookup holds two slots from its start to its end, however it ends. *)
Record DnsState := mkDnsState { free_slots : Z; in_flight : list nat }.

Definition dns_init : DnsState := mkDnsState LIMIT [].

Inductive DnsStep : DnsState → DnsState → Prop :=
| lookup_start s id :
    2 ≤ free_slots s → DnsStep s (mkDnsState (free_slots s - 2) (id :: in_flight s))
| lookup_end s before id after :
    in_flight s = before ++ id :: after →
    DnsStep s (mkDnsState (free_slots s + 2) (before ++ after)).

(** ** Lemmas *)

Lemma resolve_inner_Ok free lookup t addrs : resolve_inner free lookup t = Ok addrs →
  1 ≤ len addrs ≤ LIMIT ∧
  match parse_ip (host t) with
  | Some ip => addrs = [ip]
  | None => lookup = Answer addrs
  end.
Proof.
  unfold resolve_inner. destruct (parse_ip (host t)) as [ip|]; [intros [= <-]; done|].
  destruct (free <? 2); [done|]. destruct lookup as [all| | |]; try done.
  destruct (_ || _) eqn:E; [done|]. apply orb_false_elim in E as [E1 E2]. intros [= <-]. destruct_bool.
  assert (take (Z.to_nat (LIMIT + 1)) all = all) as Hall.
  { apply take_ge. destruct (decide (length all ≤ Z.to_nat (LIMIT + 1))%nat); [done|].
    rewrite len_take in E2. unfold len in E2. unfold LIMIT in *. lia. }
  rewrite Hall in *. split; [|done]. unfold len in *. destruct all; [done|]. simpl in *. lia.
Qed.

(** The implementation behind the interface: slots and lookups as the environment grants
    them; the library's addresses are octets and segments by type. *)
Section Instance.
Context (free : nat → Z) (lookup : nat → Target → Lookup).
Context (lookup_wf : ∀ n t addrs, lookup n t = Answer addrs → Forall ip_wf addrs).

#[export, refine] Instance dns_resolver : Resolver := {
  resolve n t := resolve_inner (free n) (lookup n t) t;
}.
Proof.
  - intros n t addrs H%resolve_inner_Ok. destruct H as [H _].
    intros ->. rewrite len_nil in H. lia.
  - intros n t addrs H%resolve_inner_Ok. destruct H as [_ H].
    destruct (parse_ip (host t)) as [ip|] eqn:E; [|by eapply lookup_wf].
    rewrite H. apply Forall_singleton. by eapply parse_ip_wf.
Defined.

End Instance.

(** The slots account for the lookups in flight. *)
Definition slots_inv (s : DnsState) : Prop :=
  0 ≤ free_slots s ∧ free_slots s + 2 * len (in_flight s) = LIMIT.

Lemma dns_step_inv s s' : slots_inv s → DnsStep s s' → slots_inv s'.
Proof.
  intros [H1 H2] Hs. inversion Hs as [? id Hf|? before id after He]; subst; unfold slots_inv; simpl.
  - rewrite len_cons. lia.
  - rewrite He in H2. rewrite len_app, len_cons in H2. rewrite len_app. lia.
Qed.

(** ** Properties *)

(** At most 32 lookups, so at most 64 wire queries (A and AAAA), are ever in flight, in
    every interleaving of starts and ends. *)
Theorem dns_queries_bounded s : rtc DnsStep dns_init s → 2 * len (in_flight s) ≤ 64.
Proof.
  intros Hr. assert (slots_inv s) as [? ?]; [|unfold LIMIT in *; lia].
  assert (slots_inv dns_init) as H0 by done. induction Hr as [|a b c Hab _ IH]; [done|].
  apply IH. by eapply dns_step_inv.
Qed.

Lemma dns_queries_bounded_witness : 2 * len (in_flight (mkDnsState 62 [7%nat])) ≤ 64.
Proof. apply dns_queries_bounded. apply rtc_once. by apply (lookup_start dns_init 7). Defined.
