(* ===== verification/Config.v ===== *)
(** * Configurations (src/src/config.rs: [Config])

    A parsed configuration: its proxies, groups, rules and controller settings, and the
    mutable selection of every group. *)
From S2P Require Import Prelude Utf8 Net Target BTree Json Document Rules Groups Proxy Provider.

Definition MAX_PROXIES : Z := 4096.
Definition MAX_GROUPS : Z := 1024.
Definition MAX_MIXED_PROXIES : Z := MAX_PROXIES + MAX_GROUPS.
Definition MAX_MEMBERS : Z := 5122.

Inductive RawEntry :=
| EntryProxy (p : RawProxy)
| EntryGroup (g : RawGroup).

Record RawConfig := mkRawConfig {
  rc_proxies : list RawEntry;
  rc_proxy_groups : list RawGroup;
  rc_rules : list str;
  rc_rule_providers : bmap Provider;
  rc_allow_lan : bool;
  rc_bind_address : option str;
  rc_mixed_port : option Z;
  rc_port : option Z;
  rc_socks_port : option Z;
  rc_mode : option str;
  rc_log_level : option str;
  rc_external_controller : option str;
  rc_secret : option str;
}.

Record Config `{IpNetLib} := mkConfig {
  bind_address : IpAddr;
  proxies : list Proxy;
  rules : list Rule;
  groups : list Group;
  selections : list nat;
  mode : str;
  controller : option SocketAddr;
  secret : str;
  document : Value;
}.

Arguments mkConfig {_} _ _ _ _ _ _ _ _ _.
Arguments bind_address {_} _.
Arguments proxies {_} _.
Arguments rules {_} _.
Arguments groups {_} _.
Arguments selections {_} _.
Arguments mode {_} _.
Arguments controller {_} _.
Arguments secret {_} _.
Arguments document {_} _.

(** ** Collections of a document *)

(** [bounded::<_, _, LIMIT>]: each element the deserializer delivers can be read as an [A]
    or skipped ([IgnoredAny]); beyond [limit] elements a further one, whatever it holds,
    exceeds the limit. *)
Fixpoint bounded {A} (limit : nat) (elements : list (res A * res unit)) : res (list A) :=
  match limit, elements with
  | _, [] => Ok []
  | O, (_, ignored) :: _ => let! _ := ignored in Err "configuration collection limit exceeded"
  | S limit, (typed, _) :: elements =>
      let! a := typed in
      let! rest := bounded limit elements in
      Ok (a :: rest)
  end.

Definition over_limit (v : option Value) (limit : Z) : bool :=
  is_some_and (v ≫= as_array) (λ entries, limit <? len entries).

Definition collection_limits (d : Value) : res unit :=
  if over_limit (get "proxies" d) MAX_MIXED_PROXIES || over_limit (get "proxy-groups" d) MAX_GROUPS
     || over_limit (get "rules" d) MAX_RULES
  then Err "configuration collection limit exceeded"
  else if existsb (λ field, existsb (λ entry, over_limit (get "proxies" entry) MAX_MEMBERS)
                     (default [] (get field d ≫= as_array))) ["proxies"; "proxy-groups"]%string
  then Err "proxy-group member limit exceeded"
  else Ok tt.

(** ** Scalar settings *)

Definition check_listeners (raw : RawConfig) : res unit :=
  if (default 0 (rc_mixed_port raw) =? 0)
     && (negb (default 0 (rc_port raw) =? 0) || negb (default 0 (rc_socks_port raw) =? 0))
  then Err "standalone port/socks-port listeners are unsupported; use mixed-port or the CLI port override"
  else Ok tt.

Definition check_mode (raw : RawConfig) : res unit :=
  if is_some_and (rc_mode raw) (λ mode, negb (one_of mode ["rule"; "global"; "direct"]))
  then Err "mode must be rule, global or direct" else Ok tt.

Definition check_log_level (raw : RawConfig) : res unit :=
  if is_some_and (rc_log_level raw)
       (λ level, negb (one_of level ["silent"; "error"; "warning"; "info"; "debug"]))
  then Err "log-level must be silent, error, warning, info or debug" else Ok tt.

Definition parse_controller (raw : RawConfig) : res (option SocketAddr) :=
  match rc_external_controller raw with
  | None => Ok None
  | Some endpoint => let! a := parse_controller_endpoint endpoint in Ok (Some a)
  end.

Definition parse_bind_address (raw : RawConfig) : res IpAddr :=
  let! address :=
    match rc_bind_address raw with
    | Some a =>
        if eq_str a (lit "*") then Ok (V4 0 0 0 0)
        else ok_or (parse_ip a) "bind-address must be an IP address or '*'"%string
    | None => Ok (if rc_allow_lan raw then V4 0 0 0 0 else V4 127 0 0 1)
    end in
  if negb (rc_allow_lan raw) && negb (is_loopback address)
  then Err "non-loopback bind-address requires allow-lan: true"
  else Ok address.

(** ** Nodes *)

Definition builtin_proxies : list Proxy :=
  [mkProxy (lit "DIRECT") Direct true None; mkProxy (lit "REJECT") Reject false None].

Section Nodes.
Context (server_name_ok : str → bool).

(** The loop over [raw.proxies]: built proxies and inline groups. *)
Fixpoint build_entries (es : list RawEntry) (proxies : list Proxy) (raw_groups : list RawGroup)
    : res (list Proxy * list RawGroup) :=
  match es with
  | [] => Ok (proxies, raw_groups)
  | EntryProxy p :: es =>
      if len proxies =? MAX_PROXIES + 2 then Err "proxy count limit exceeded"
      else
        let! built := build server_name_ok p in
        build_entries es (proxies ++ [built]) raw_groups
  | EntryGroup g :: es => build_entries es proxies (raw_groups ++ [g])
  end.

End Nodes.

Fixpoint name_proxies (index : nat) (ps : list Proxy) (names : gmap str nat) : res (gmap str nat) :=
  match ps with
  | [] => Ok names
  | p :: ps =>
      let! _ := validate_name (p_name p) in
      if is_some (names !! p_name p) then Err duplicate_name
      else name_proxies (S index) ps (<[p_name p := index]> names)
  end.

(** ** Parsing *)

Section Parsing.
Context `{IpNetLib}.
(** [parse_document], [yaml_value], the derived [RawConfig::deserialize], [Url::parse] and
    [ServerName::try_from]. *)
Context (parse_document yaml : str → res Value) (deserialize : Value → option RawConfig)
  (url_parse : str → option (str * option str)) (server_name_ok : str → bool).

Definition bad_fields : string :=
  "invalid configuration: check supported fields, types and collection limits".

(** What precedes the nodes: the document, its limits and the scalar settings. *)
Definition parse_settings (source : str) : res (Value * RawConfig * option SocketAddr * IpAddr) :=
  let! d := parse_document source in
  let! _ := validate_anytls_fields d in
  let! _ := collection_limits d in
  let! raw := ok_or (deserialize d) bad_fields in
  let! _ := check_listeners raw in
  let! _ := check_mode raw in
  let! controller := parse_controller raw in
  let! _ := check_log_level raw in
  let! address := parse_bind_address raw in
  Ok (d, raw, controller, address).

(** The proxies, the groups to resolve, and the names of the proxies. *)
Definition parse_proxies (raw : RawConfig) : res (list Proxy * list RawGroup * gmap str nat) :=
  let! '(ps, gs) := build_entries server_name_ok (rc_proxies raw) builtin_proxies [] in
  let gs := gs ++ rc_proxy_groups raw in
  if MAX_GROUPS <? len gs then Err "proxy-group count limit exceeded"
  else
    let! names := name_proxies 0 ps ∅ in
    Ok (ps, gs, names).

Definition parse_rules (raw : RawConfig) (assets : option (bmap str)) (names : gmap str nat) : res (list Rule) :=
  match assets with
  | Some assets => expand yaml url_parse (rc_rules raw) (rc_rule_providers raw) assets names
  | None =>
      let! _ := validate_rule_declarations url_parse (rc_rules raw) (rc_rule_providers raw) names in
      Ok []
  end.

(** [Config::parse_inner]; [None] would be a panic of the group search. *)
Definition parse_inner (source : str) (assets : option (bmap str)) : option (res Config) :=
  match parse_settings source with
  | Err e => Some (Err e)
  | Ok (d, raw, controller, address) =>
      match parse_proxies raw with
      | Err e => Some (Err e)
      | Ok (ps, raw_groups, names) =>
          let? r := resolve_groups raw_groups names (length ps) in
          Some (let! '(gs, names) := r in
                let! rs := parse_rules raw assets names in
                Ok (mkConfig address ps rs gs (replicate (length gs) 0%nat)
                      (default (lit "rule") (rc_mode raw)) controller (default [] (rc_secret raw)) d))
      end
  end.

Definition parse_with_assets (source : str) (assets : bmap str) : option (res Config) :=
  parse_inner source (Some assets).

Definition parse (source : str) : option (res Config) := parse_with_assets source [].

Definition validate_declarations (source : str) : option (res unit) :=
  (λ r, let! _ := r in Ok tt) <$> parse_inner source None.

End Parsing.

(** ** Controller settings and views *)

Section Views.
Context `{IpNetLib}.

(** Local control clients never connect to an unspecified bind address. *)
Definition controller_client_endpoint (c : Config) : option SocketAddr :=
  (λ a, mkSocketAddr (V4 127 0 0 1) (sa_port a)) <$> controller c.

Definition controller_requires_auth (c : Config) : bool :=
  is_some_and (controller c) (λ a, is_unspecified (sa_ip a)).

Definition validate_controller_auth (c : Config) : res unit :=
  if controller_requires_auth c && bool_decide (secret c = [])
  then Err "START_CONTROLLER_SECRET_REQUIRED: 0.0.0.0 controller requires a nonempty secret; configure secret or load a managed profile for automatic authentication"
  else Ok tt.

Definition set_runtime_controller_secret (c : Config) (s : str) : Config :=
  mkConfig (bind_address c) (proxies c) (rules c) (groups c) (selections c) (mode c) (controller c) s (document c).

(** [node_name]: [None] is an index out of range. *)
Definition node_name (c : Config) (index : nat) : option str :=
  if (index <? length (proxies c))%nat then p_name <$> proxies c !! index
  else g_name <$> groups c !! (index - length (proxies c))%nat.

Definition group_names (c : Config) : list str := g_name <$> groups c.

Record RuleView := mkRuleView { rv_index : nat; rv_kind : str; rv_payload : str; rv_target : str }.
Record ProxyView := mkProxyView { xv_name : str; xv_kind : string }.

Definition kind_name (k : ProxyKind) : string :=
  match k with
  | Direct => "Direct"
  | Reject => "Reject"
  | Shadowsocks _ _ _ _ => "Shadowsocks"
  | Trojan _ _ _ _ _ => "Trojan"
  | AnyTls _ _ _ _ _ => "AnyTLS"
  end.

Definition rule_view (c : Config) (index : nat) : option RuleView :=
  let? r := rules c !! index in
  let? target := node_name c (proxy r) in
  Some (mkRuleView index (kind r) (payload r) target).

Definition proxy_view (c : Config) (index : nat) : option ProxyView :=
  let? p := proxies c !! index in
  Some (mkProxyView (p_name p) (kind_name (p_kind p))).

Definition proxy_json (p : Proxy) : Value :=
  let '(server, port) :=
    match p_kind p with
    | Shadowsocks server port _ _ | AnyTls server port _ _ _ | Trojan server port _ _ _ => (server, port)
    | Direct | Reject => ([], 0)
    end in
  VObject [(lit "name", VString (p_name p)); (lit "port", VNumber (PosInt port));
           (lit "server", VString server); (lit "type", VString (lit (kind_name (p_kind p))))].

Definition proxies_json (c : Config) : Value :=
  VObject [(lit "proxies", VArray (proxy_json <$> drop 2 (proxies c)))].

Definition rule_json (c : Config) (r : Rule) : option Value :=
  let? target := node_name c (proxy r) in
  Some (VObject [(lit "payload", VString (payload r)); (lit "target", VString target);
                 (lit "type", VString (kind r))]).

Definition rules_json (c : Config) : option Value :=
  let? rs := mapM (rule_json c) (rules c) in
  Some (VObject [(lit "rules", VArray rs)]).

(** ** Selections *)

(** [Config::selected]; [None] is an index out of range. *)
Definition selected_entry (c : Config) (g : Group) (s : nat) : option (str * str) :=
  let? m := members g !! s in
  let? name := node_name c m in
  Some (g_name g, name).

Definition selected (c : Config) : option (bmap str) :=
  let? es := mapM (λ gs, selected_entry c (fst gs) (snd gs)) (zip (groups c) (selections c)) in
  Some (foldl (λ m kv, binsert (fst kv) (snd kv) m) [] es).

(** [Iterator::position] *)
Fixpoint position {A} (f : A → bool) (l : list A) : option nat :=
  match l with
  | [] => None
  | a :: l => if f a then Some 0%nat else S <$> position f l
  end.

Definition selection (c : Config) (group px : str) : res (nat * nat) :=
  let! index := ok_or (position (λ g, eq_str (g_name g) group) (groups c)) "unknown selectable proxy-group"%string in
  let! member :=
    ok_or (groups c !! index ≫= λ g, position (λ n, bool_decide (node_name c n = Some px)) (members g))
      "selection must be a direct member of the proxy-group"%string in
  Ok (index, member).

Definition with_selections (c : Config) (s : list nat) : Config :=
  mkConfig (bind_address c) (proxies c) (rules c) (groups c) s (mode c) (controller c) (secret c) (document c).

Fixpoint apply_selections (c : Config) (wanted : bmap str) (next : list nat) : res (list nat) :=
  match wanted with
  | [] => Ok next
  | (group, px) :: wanted =>
      let! '(index, member) := selection c group px in
      apply_selections c wanted (<[index := member]> next)
  end.

(** The configuration afterwards and the result. *)
Definition set_selections (c : Config) (wanted : bmap str) : Config * res unit :=
  if MAX_GROUPS <? len wanted then (c, Err "persisted selection count limit exceeded")
  else
    match apply_selections c wanted (replicate (length (groups c)) 0%nat) with
    | Err e => (c, Err e)
    | Ok next => (with_selections c next, Ok tt)
    end.

Definition select (c : Config) (group px : str) : Config * res unit :=
  match selection c group px with
  | Err e => (c, Err e)
  | Ok (index, member) => (with_selections c (<[index := member]> (selections c)), Ok tt)
  end.

End Views.

(** ** What a configuration satisfies *)

Section Invariant.
Context `{IpNetLib} (server_name_ok : str → bool).

(** The names of all nodes, proxies first. *)
Definition all_names (ps : list Proxy) (gs : list Group) : list str := (p_name <$> ps) ++ (g_name <$> gs).

Definition node_count (c : Config) : nat := (length (proxies c) + length (groups c))%nat.

Definition controller_wf (a : option SocketAddr) : Prop :=
  match a with
  | None => True
  | Some a => (sa_ip a = V4 127 0 0 1 ∨ sa_ip a = V4 0 0 0 0) ∧ 1 ≤ sa_port a ≤ 65535
  end.

Record config_wf (c : Config) : Prop := {
  wf_builtin : take 2 (proxies c) = builtin_proxies;
  wf_proxies : Forall (proxy_wf server_name_ok) (proxies c);
  wf_proxy_count : len (proxies c) ≤ MAX_PROXIES + 2;
  wf_group_count : len (groups c) ≤ MAX_GROUPS;
  wf_names : NoDup (all_names (proxies c) (groups c));
  wf_groups : groups_wf (length (proxies c)) (groups c);
  wf_selections : selections_wf (groups c) (selections c);
  wf_rules : Forall (λ r, matcher_wf (kind r) (matcher r) ∧ (proxy r < node_count c)%nat) (rules c);
  wf_rule_count : len (rules c) ≤ MAX_RULES;
  wf_controller : controller_wf (controller c);
  wf_mode : one_of (mode c) ["rule"; "global"; "direct"] = true;
}.

End Invariant.

(** ** Lemmas: node names *)

(** The map inverts the list of names. *)
Definition names_exact (names : gmap str nat) (l : list str) : Prop :=
  ∀ n i, names !! n = Some i ↔ l !! i = Some n.

Lemma names_exact_nodup names l : names_exact names l → NoDup l.
Proof.
  intros Hx. apply NoDup_alt. intros i j n Hi Hj. apply Hx in Hi, Hj. congruence.
Qed.

Lemma names_exact_below names l : names_exact names l → names_below (length l) names.
Proof. intros Hx n i Hi. apply Hx in Hi. by eapply lookup_lt_Some. Qed.

Lemma names_exact_snoc names l n :
  names_exact names l → names !! n = None → names_exact (<[n := length l]> names) (l ++ [n]).
Proof.
  intros Hx Hn m i. rewrite lookup_insert. case_decide as Hd.
  - subst m. rewrite lookup_app_Some, list_lookup_singleton_Some. split.
    + intros [= <-]. right. split; [lia|]. split; [lia|done].
    + intros [Hi|(? & ? & _)]; [apply Hx in Hi; congruence|]. f_equal. lia.
  - rewrite (Hx m i), lookup_app_Some, list_lookup_singleton_Some. naive_solver.
Qed.

Lemma name_proxies_exact index ps names names' l :
  names_exact names l → index = length l → name_proxies index ps names = Ok names' →
  names_exact names' (l ++ (p_name <$> ps)).
Proof.
  revert index names l. induction ps as [|p ps IH]; intros index names l Hx -> Hn; simpl in *.
  - simplify_eq. by rewrite app_nil_r.
  - destruct (validate_name _); [|done]. destruct (names !! p_name p) eqn:E; [done|]. simpl in Hn.
    apply (IH _ _ (l ++ [p_name p])) in Hn; [|by apply names_exact_snoc|rewrite length_app; simpl; lia].
    by rewrite <- app_assoc in Hn.
Qed.

Lemma name_groups_exact index gs names names' l :
  names_exact names l → index = length l → name_groups index gs names = Ok names' →
  names_exact names' (l ++ (rg_name <$> gs)).
Proof.
  revert index names l. induction gs as [|g gs IH]; intros index names l Hx -> Hn; simpl in *.
  - simplify_eq. by rewrite app_nil_r.
  - destruct (validate_name _); [|done]. destruct (_ || _); [done|].
    destruct (names !! rg_name g) eqn:E; [done|]. simpl in Hn.
    apply (IH _ _ (l ++ [rg_name g])) in Hn; [|by apply names_exact_snoc|rewrite length_app; simpl; lia].
    by rewrite <- app_assoc in Hn.
Qed.

(** ** Lemmas: parsing *)

Definition entry_wf (e : RawEntry) : Prop :=
  match e with EntryProxy p => 0 ≤ rp_port p ≤ 65535 | EntryGroup _ => True end.

Section ParseLemmas.
Context `{IpNetLib}.
Context (parse_document yaml : str → res Value) (deserialize : Value → option RawConfig)
  (url_parse : str → option (str * option str)) (server_name_ok : str → bool).
(** [port] is a [u16] of [RawProxy], so the derived deserializer delivers no other value. *)
Hypothesis deserialize_u16 : ∀ d raw, deserialize d = Some raw → Forall entry_wf (rc_proxies raw).

Lemma build_entries_spec es ps gs ps' gs' :
  Forall entry_wf es → Forall (proxy_wf server_name_ok) ps → len ps ≤ MAX_PROXIES + 2 →
  build_entries server_name_ok es ps gs = Ok (ps', gs') →
  Forall (proxy_wf server_name_ok) ps' ∧ len ps' ≤ MAX_PROXIES + 2 ∧ ∃ rest, ps' = ps ++ rest.
Proof.
  intros He. revert ps gs. induction He as [|e es He _ IH]; intros ps gs Hf Hl; simpl.
  - intros [= <- <-]. split_and!; [done|done|]. exists []. by rewrite app_nil_r.
  - destruct e as [p|g]; [|by apply IH]. destruct (_ =? _) eqn:El; [done|].
    destruct (build server_name_ok p) as [x|] eqn:Eb; [|done]. intros Hb.
    apply build_Ok in Eb as [Hx _]; [|done].
    apply IH in Hb as (? & ? & rest & ->).
    + split_and!; [done|done|]. exists (x :: rest). by rewrite <- app_assoc.
    + apply Forall_app. split; [done|by apply Forall_singleton].
    + rewrite len_app. change (len [x]) with 1. blia.
Qed.

Lemma parse_proxies_spec raw ps gs names :
  Forall entry_wf (rc_proxies raw) → parse_proxies server_name_ok raw = Ok (ps, gs, names) →
  Forall (proxy_wf server_name_ok) ps ∧ len ps ≤ MAX_PROXIES + 2 ∧ take 2 ps = builtin_proxies ∧
  len gs ≤ MAX_GROUPS ∧ names_exact names (p_name <$> ps).
Proof.
  intros Hw. unfold parse_proxies. destruct (build_entries _ _ _ _) as [[ps' gs']|] eqn:Eb; [|done].
  destruct (_ <? _) eqn:El; [done|]. destruct (name_proxies 0 ps' ∅) as [names'|] eqn:En; [|done].
  intros [= <- <- <-]. apply build_entries_spec in Eb as (? & ? & rest & ->); [|done| |done].
  - split_and!; [done|done|done|blia|]. by apply (name_proxies_exact _ _ _ _ []) in En.
  - unfold builtin_proxies. repeat constructor.
Qed.

Lemma parse_controller_wf raw a : parse_controller raw = Ok a → controller_wf a.
Proof.
  unfold parse_controller. destruct (rc_external_controller raw) as [e|]; [|by intros [= <-]].
  unfold parse_controller_endpoint. destruct (split_once 58 e) as [[h p]|]; [|done]. cbn [ok_or].
  destruct (if eq_str h _ then _ else _) as [ip|] eqn:Eh; [|done].
  destruct (parse_port p) as [port|] eqn:Ep; [|done]. intros [= <-]. apply parse_port_Ok in Ep as [Hp _].
  simpl. split; [|done]. repeat case_match; simplify_eq; auto.
Qed.

Lemma parse_settings_spec source d raw a ip :
  parse_settings parse_document deserialize source = Ok (d, raw, a, ip) →
  deserialize d = Some raw ∧ controller_wf a ∧
  one_of (default (lit "rule") (rc_mode raw)) ["rule"; "global"; "direct"] = true ∧
  parse_bind_address raw = Ok ip ∧ parse_document source = Ok d.
Proof.
  unfold parse_settings. destruct (parse_document source) as [d'|]; [|done].
  destruct (validate_anytls_fields d'); [|done]. destruct (collection_limits d'); [|done].
  destruct (deserialize d') as [raw'|] eqn:Ed; [|done]. cbn [ok_or].
  destruct (check_listeners raw'); [|done]. destruct (check_mode raw') eqn:Em; [|done].
  destruct (parse_controller raw') as [a'|] eqn:Ec; [|done]. destruct (check_log_level raw'); [|done].
  destruct (parse_bind_address raw') as [ip'|] eqn:Ei; [|done]. intros [= <- <- <- <-].
  split_and!; [done|by eapply parse_controller_wf| |done|done].
  unfold check_mode in Em. destruct (rc_mode raw') as [m|]; [|done].
  cbn [is_some_and default from_option id] in *. by destruct (one_of m _).
Qed.

Lemma expanded_rules_wf srules ps assets names l rs :
  names_exact names l → expand yaml url_parse srules ps assets names = Ok rs →
  Forall (λ r, matcher_wf (kind r) (matcher r) ∧ (proxy r < length l)%nat) rs ∧ len rs ≤ MAX_RULES.
Proof.
  intros Hx He. apply expand_within in He as (Hl & _ & Hf). split; [|done].
  eapply Forall_impl; [exact Hf|]. intros r [Hw [n Hn]]. split; [done|].
  by apply (names_exact_below _ _ Hx) in Hn.
Qed.

Lemma parse_inner_spec source assets :
  ∃ r, parse_inner parse_document yaml deserialize url_parse server_name_ok source assets = Some r ∧
       ∀ c, r = Ok c → config_wf server_name_ok c ∧ parse_document source = Ok (document c).
Proof.
  unfold parse_inner.
  destruct (parse_settings _ _ _) as [[[[d raw] a] ip]|] eqn:Es; [|by eexists].
  apply parse_settings_spec in Es as (Hd & Ha & Hm & Hip & Hdoc). pose proof (deserialize_u16 _ _ Hd) as Hw.
  destruct (parse_proxies _ _) as [[[ps raw_groups] names]|] eqn:Ep; [|by eexists].
  apply parse_proxies_spec in Ep as (Hps & Hpl & Hb & Hgl & Hx); [|done].
  destruct (resolve_groups_spec raw_groups names (length ps)) as (r & -> & Hr).
  { pose proof (names_exact_below _ _ Hx) as Hbelow. by rewrite length_fmap in Hbelow. }
  eexists. split; [done|]. intros c Hc.
  destruct r as [[gs names']|]; [|done].
  destruct (name_groups (length ps) raw_groups names) as [names''|] eqn:En; [|done].
  apply (name_groups_exact _ _ _ _ (p_name <$> ps)) in En; [|done|by rewrite length_fmap].
  destruct (resolve_edges names'' raw_groups) as [edges|]; [|done].
  destruct Hr as [(gs' & [= <- <-] & _ & Hgw & _ & Hgn)|[? _]]; [|done].
  destruct (parse_rules _ _ _ _ _) as [rs|] eqn:Er; [|done]. simplify_eq. split; [|done].
  rewrite <- Hgn in En. assert (length gs = length raw_groups) as Hlg.
  { apply (f_equal length) in Hgn. by rewrite !length_fmap in Hgn. }
  assert (Forall (λ r, matcher_wf (kind r) (matcher r) ∧ (proxy r < length ps + length gs)%nat) rs ∧
          len rs ≤ MAX_RULES) as [Hrs Hrl].
  { unfold parse_rules in Er. destruct assets as [assets|].
    - eapply expanded_rules_wf in Er; [|exact En]. by rewrite length_app, !length_fmap in Er.
    - destruct (validate_rule_declarations _ _ _ _); [|done]. simplify_eq. split; [constructor|done]. }
  split; try done; simpl.
  - unfold len in *. by rewrite Hlg.
  - by eapply names_exact_nodup.
  - unfold selections_wf. apply Forall2_same_length_lookup_2; [by rewrite length_replicate|].
    intros i g s Hg Hs. apply lookup_replicate in Hs as [-> _].
    destruct Hgw as (_ & _ & Hne). eapply Forall_lookup in Hne; [|done]. by destruct (members g); simpl; [|lia].
Qed.

End ParseLemmas.

(** ** Lemmas: selections *)

Lemma position_Some {A} (f : A → bool) l i : position f l = Some i → ∃ a, l !! i = Some a ∧ f a = true.
Proof.
  revert i. induction l as [|a l IH]; intros i; simpl; [done|]. destruct (f a) eqn:E.
  - intros [= <-]. by exists a.
  - destruct (position f l) as [j|]; [|done]. intros [= <-]. by apply IH.
Qed.

Lemma position_first {A} (f : A → bool) l i a :
  l !! i = Some a → f a = true → ∃ j, position f l = Some j.
Proof.
  revert i. induction l as [|b l IH]; intros i; simpl; [done|]. destruct (f b) eqn:E; [by eexists|].
  destruct i as [|i]; intros Hi Hf; simpl in Hi; [congruence|]. destruct (IH i Hi Hf) as [j ->]. by eexists.
Qed.

Section SelectionLemmas.
Context `{IpNetLib}.

Lemma selection_Ok c group px i m : selection c group px = Ok (i, m) →
  ∃ g n, groups c !! i = Some g ∧ g_name g = group ∧ members g !! m = Some n ∧ node_name c n = Some px.
Proof.
  unfold selection. destruct (position _ (groups c)) as [j|] eqn:Ei; [|done]. cbn [ok_or].
  destruct (groups c !! j) as [g|] eqn:Eg; [|done]. cbn [mbind option_bind].
  destruct (position _ (members g)) as [k|] eqn:Em; [|done]. cbn [ok_or]. intros [= <- <-].
  apply position_Some in Ei as (g' & Hg' & Hn). apply position_Some in Em as (n & Hn' & Hp).
  rewrite Eg in Hg'. injection Hg' as <-. apply eq_str_true in Hn. destruct_bool. by exists g, n.
Qed.

Definition group_names_nodup (c : Config) : Prop := NoDup (g_name <$> groups c).

Lemma group_index c i j g g' : group_names_nodup c →
  groups c !! i = Some g → groups c !! j = Some g' → g_name g = g_name g' → i = j.
Proof.
  intros Hnd Hi Hj He. unfold group_names_nodup in Hnd. rewrite NoDup_alt in Hnd.
  apply (Hnd i j (g_name g)); rewrite list_lookup_fmap, ?Hi, ?Hj; simpl; congruence.
Qed.

(** The members of the group at [i] that are named. *)
Lemma selection_total c i g m n px : group_names_nodup c →
  groups c !! i = Some g → members g !! m = Some n → node_name c n = Some px →
  ∃ m', selection c (g_name g) px = Ok (i, m').
Proof.
  intros Hnd Hg Hm Hn. unfold selection.
  destruct (position_first (λ g', eq_str (g_name g') (g_name g)) (groups c) i g) as [j Hj]; [done|apply eq_str_refl|].
  rewrite Hj. cbn [ok_or]. apply position_Some in Hj as (g' & Hg' & He). apply eq_str_true in He.
  assert (j = i) as -> by by eapply group_index. rewrite Hg. cbn [mbind option_bind].
  destruct (position_first (λ n, bool_decide (node_name c n = Some px)) (members g) m n) as [k Hk]; [done|by apply bool_decide_eq_true|].
  rewrite Hk. by exists k.
Qed.

Lemma apply_selections_spec c wanted next next' :
  group_names_nodup c → NoDup (keys wanted) → length next = length (groups c) →
  apply_selections c wanted next = Ok next' →
  length next' = length (groups c) ∧
  ∀ i g, groups c !! i = Some g →
    match bget (g_name g) wanted with
    | Some px => ∃ m, selection c (g_name g) px = Ok (i, m) ∧ next' !! i = Some m
    | None => next' !! i = next !! i
    end.
Proof.
  intros Hg. revert next. induction wanted as [|[k px] wanted IH]; intros next Hnd Hl; simpl.
  - intros [= <-]. done.
  - simpl in Hnd. apply NoDup_cons in Hnd as [Hk Hnd].
    destruct (selection c k px) as [[i m]|] eqn:Es; [|done]. intros Ha.
    apply IH in Ha as [Hl' Ha]; [|done|by rewrite length_insert]. split; [done|]. intros j g Hj.
    specialize (Ha j g Hj). destruct (selection_Ok _ _ _ _ _ Es) as (g0 & n & Hg0 & Hgn & _ & _).
    destruct (eq_str (g_name g) k) eqn:E.
    + apply eq_str_true in E. assert (i = j) as -> by (eapply group_index; [done|done|done|congruence]).
      rewrite (proj2 (bget_None (g_name g) wanted)) in Ha by (by rewrite E). rewrite E. exists m. split; [done|].
      rewrite Ha. apply list_lookup_insert_eq. rewrite Hl. by eapply lookup_lt_Some.
    + apply eq_str_false in E. destruct (bget (g_name g) wanted); [done|]. rewrite Ha.
      apply list_lookup_insert_ne. intros ->. simplify_eq.
Qed.

Lemma apply_selections_total c wanted next :
  (∀ k px, (k, px) ∈ wanted → ∃ im, selection c k px = Ok im) →
  ∃ next', apply_selections c wanted next = Ok next'.
Proof.
  revert next. induction wanted as [|[k px] wanted IH]; intros next Hw; simpl; [by eexists|].
  destruct (Hw k px) as [[i m] ->]; [constructor|]. apply IH. intros ? ? ?. apply Hw. by constructor.
Qed.

(** Selections that agree on the chosen node of every group route alike. *)
Definition same_choice (gs : list Group) (s s' : list nat) : Prop :=
  length s = length s' ∧
  ∀ i g a b, gs !! i = Some g → s !! i = Some a → s' !! i = Some b → members g !! a = members g !! b.

Lemma resolve_proxy_same pc gs s s' fuel index : same_choice gs s s' →
  resolve_proxy_go fuel pc gs s index = resolve_proxy_go fuel pc gs s' index.
Proof.
  intros [Hl Hs]. revert index. induction fuel as [|fuel IH]; intros index; [done|]. simpl.
  destruct (_ <? _)%nat; [done|]. destruct (gs !! _) as [g|] eqn:Eg; [|done].
  destruct (s !! _) as [a|] eqn:Ea, (s' !! _) as [b|] eqn:Eb; try done.
  - rewrite (Hs _ _ _ _ Eg Ea Eb). by destruct (members g !! b).
  - apply lookup_lt_Some in Ea. apply lookup_ge_None in Eb. lia.
  - apply lookup_lt_Some in Eb. apply lookup_ge_None in Ea. lia.
Qed.

(** Node names are distinct, so a name determines its node. *)
Lemma node_name_inj c a b n : NoDup (all_names (proxies c) (groups c)) →
  node_name c a = Some n → node_name c b = Some n → a = b.
Proof.
  intros Hnd. assert (∀ i, node_name c i = Some n → all_names (proxies c) (groups c) !! i = Some n) as Hi.
  { intros i. unfold node_name, all_names. destruct (i <? _)%nat eqn:E.
    - apply Nat.ltb_lt in E. rewrite lookup_app_l by (by rewrite length_fmap). by rewrite list_lookup_fmap.
    - apply Nat.ltb_ge in E. rewrite lookup_app_r by (by rewrite length_fmap).
      by rewrite length_fmap, list_lookup_fmap. }
  rewrite NoDup_alt in Hnd. eauto.
Qed.

Lemma node_name_total c i : (i < node_count c)%nat → is_Some (node_name c i).
Proof.
  unfold node_count, node_name. intros Hi. destruct (i <? _)%nat eqn:E; rewrite fmap_is_Some.
  - apply Nat.ltb_lt in E. by apply lookup_lt_is_Some.
  - apply Nat.ltb_ge in E. apply lookup_lt_is_Some. lia.
Qed.

Lemma wf_group_names ok c : config_wf ok c → group_names_nodup c.
Proof. intros Hwf. pose proof (wf_names _ _ Hwf) as Hnd. by apply NoDup_app in Hnd as (_ & _ & ?). Qed.

Lemma with_selections_wf ok c s : config_wf ok c → selections_wf (groups c) s → config_wf ok (with_selections c s).
Proof. intros [] Hs. by split. Qed.

Lemma set_selections_spec ok c wanted : config_wf ok c → NoDup (keys wanted) →
  (∃ e, set_selections c wanted = (c, Err e)) ∨
  ∃ next, set_selections c wanted = (with_selections c next, Ok tt) ∧
    config_wf ok (with_selections c next) ∧
    ∀ i g, groups c !! i = Some g →
      match bget (g_name g) wanted with
      | Some px => ∃ m n, next !! i = Some m ∧ members g !! m = Some n ∧ node_name c n = Some px
      | None => next !! i = Some 0%nat
      end.
Proof.
  intros Hwf Hnd. unfold set_selections. destruct (_ <? _); [left; by eexists|].
  destruct (apply_selections _ _ _) as [next|e] eqn:Ea; [|left; by eexists]. right. exists next. split; [done|].
  pose proof (wf_group_names _ _ Hwf) as Hgn.
  apply apply_selections_spec in Ea as [Hl Ha]; [|done|done|by rewrite length_replicate].
  assert (∀ i g, groups c !! i = Some g →
    match bget (g_name g) wanted with
    | Some px => ∃ m n, next !! i = Some m ∧ members g !! m = Some n ∧ node_name c n = Some px
    | None => next !! i = Some 0%nat
    end) as Hspec.
  { intros i g Hg. specialize (Ha i g Hg). destruct (bget _ _) as [px|].
    - destruct Ha as (m & Hs & Hm). apply selection_Ok in Hs as (g' & n & ? & _ & ? & ?). simplify_eq. eauto.
    - rewrite Ha. apply lookup_replicate_2. by eapply lookup_lt_Some. }
  split; [|done]. apply with_selections_wf; [done|]. apply Forall2_same_length_lookup_2; [done|].
  intros i g m Hg Hm. specialize (Hspec i g Hg). destruct (bget _ _) as [px|].
  - destruct Hspec as (m' & n & ? & Hn & _). simplify_eq. by eapply lookup_lt_Some.
  - simplify_eq. destruct (wf_groups _ _ Hwf) as (_ & _ & Hne). eapply Forall_lookup in Hne; [|done].
    destruct (members g); [done|]. simpl. lia.
Qed.

Lemma select_spec ok c group px : config_wf ok c →
  (∃ e, select c group px = (c, Err e)) ∨
  ∃ i m g n, select c group px = (with_selections c (<[i := m]> (selections c)), Ok tt) ∧
    config_wf ok (with_selections c (<[i := m]> (selections c))) ∧
    groups c !! i = Some g ∧ g_name g = group ∧ members g !! m = Some n ∧ node_name c n = Some px.
Proof.
  intros Hwf. unfold select. destruct (selection c group px) as [[i m]|e] eqn:Es; [|left; by eexists].
  right. apply selection_Ok in Es as (g & n & Hg & Hgn & Hm & Hn). exists i, m, g, n. split_and!; try done.
  apply with_selections_wf; [done|]. apply Forall2_same_length_lookup_2.
  { rewrite length_insert. exact (Forall2_length _ _ _ (wf_selections _ _ Hwf)). }
  intros j g' s Hg' Hs. apply list_lookup_insert_Some in Hs as [(-> & -> & _)|[? Hs]].
  - simplify_eq. by eapply lookup_lt_Some.
  - pose proof (wf_selections _ _ Hwf) as Hsel. eapply Forall2_lookup_lr in Hsel; done.
Qed.

(** ** The snapshot of the selections *)

(** [selected] never panics: an entry for every group, naming the node it chose. *)
Lemma selected_total ok c : config_wf ok c →
  ∃ m, selected c = Some m ∧ bmap_wf m ∧ len m ≤ MAX_GROUPS ∧
    (∀ i g s, groups c !! i = Some g → selections c !! i = Some s →
       ∃ n name, members g !! s = Some n ∧ node_name c n = Some name ∧ bget (g_name g) m = Some name) ∧
    (∀ k name, (k, name) ∈ m → ∃ i g s n, groups c !! i = Some g ∧ g_name g = k ∧
       members g !! s = Some n ∧ node_name c n = Some name).
Proof.
  intros Hwf. unfold selected. pose proof (wf_selections _ _ Hwf) as Hsel.
  assert (Forall (λ gs, is_Some (selected_entry c (fst gs) (snd gs))) (zip (groups c) (selections c))) as Hall.
  { apply Forall_lookup. intros i [g s] Hgs. apply lookup_zip_with_Some in Hgs as (? & ? & [= <- <-] & Hg & Hs).
    eapply Forall2_lookup_lr in Hsel; [|done..]. destruct (lookup_lt_is_Some_2 _ _ Hsel) as [n Hn].
    unfold selected_entry. simpl. rewrite Hn. destruct (node_name_total c n) as [name Hname]; [|rewrite Hname; by eexists].
    destruct (wf_groups _ _ Hwf) as (He & _ & _). unfold edges_wf in He. rewrite length_fmap in He.
    rewrite Forall_lookup in He. specialize (He i (members g)). rewrite list_lookup_fmap, Hg in He.
    specialize (He eq_refl). rewrite Forall_lookup in He. by apply (He s). }
  apply mapM_is_Some_2 in Hall as [es Hes]. rewrite Hes. apply mapM_Some in Hes.
  assert (keys es = g_name <$> groups c) as Hkeys.
  { apply Forall2_length in Hsel. revert Hes Hsel. generalize (selections c). generalize (groups c) at 1 2 3.
    intros gs. revert es. induction gs as [|g gs IH]; intros es [|s ss] Hes Hl; try done; inversion Hes as [|? e ? es' He Hes']; subst; [done|].
    cbn [keys fmap list_fmap]. unfold selected_entry in He. simpl in He.
    destruct (members g !! s); [|done]. destruct (node_name c _); [|done]. simplify_eq.
    f_equal. apply (IH es' ss); [done|]. simpl in Hl. lia. }
  assert (bmap_wf (@nil (str * str))) as Hnil by constructor.
  destruct (insert_all_wf es [] Hnil) as (H1 & H2 & H3).
  eexists. split; [done|]. split_and!; [done| | |].
  - pose proof (wf_group_count _ _ Hwf). apply (f_equal length) in Hkeys. unfold keys in Hkeys.
    rewrite !length_fmap in Hkeys. unfold len in *. simpl in H3. lia.
  - intros i g s Hg Hs. assert (zip (groups c) (selections c) !! i = Some (g, s)) as Hz by (apply lookup_zip_with_Some; eauto).
    eapply Forall2_lookup_l in Hes as ([k name] & He & Hent); [|done]. unfold selected_entry in Hent. simpl in Hent.
    destruct (members g !! s) as [n|] eqn:Em; [|done]. destruct (node_name c n) as [nm|] eqn:En; [|done]. simplify_eq.
    exists n, name. split_and!; [done|done|]. apply insert_all_get; [done| |by eapply list_elem_of_lookup_2].
    rewrite Hkeys. by eapply wf_group_names.
  - intros k name Hk. apply H2 in Hk as [Hk|Hk]; [by apply not_elem_of_nil in Hk|].
    apply list_elem_of_lookup in Hk as [i Hi]. eapply Forall2_lookup_r in Hes as ([g s] & Hz & Hent); [|done].
    apply lookup_zip_with_Some in Hz as (? & ? & [= <- <-] & Hg & Hs). unfold selected_entry in Hent. simpl in Hent.
    destruct (members g !! s) as [n|] eqn:Em; [|done]. destruct (node_name c n) as [nm|] eqn:En; [|done]. simplify_eq.
    by exists i, g, s, n.
Qed.

(** Restoring the snapshot restores every choice. *)
Lemma restore_selected ok c : config_wf ok c →
  ∃ m next, selected c = Some m ∧ set_selections c m = (with_selections c next, Ok tt) ∧
    same_choice (groups c) next (selections c).
Proof.
  intros Hwf. destruct (selected_total ok c Hwf) as (m & Hm & Hmw & Hml & Hget & Hall).
  pose proof (wf_group_names _ _ Hwf) as Hgn.
  destruct (apply_selections_total c m (replicate (length (groups c)) 0%nat)) as [next Hnext].
  { intros k px Hk. destruct (Hall k px Hk) as (i & g & s & n & Hg & <- & Hs & Hn).
    destruct (selection_total c i g s n px) as [m' ?]; [done..|]. by eexists. }
  exists m, next. split; [done|]. unfold set_selections. rewrite (proj2 (Z.ltb_ge _ _)) by done. rewrite Hnext.
  split; [done|]. apply apply_selections_spec in Hnext as [Hl Hsp]; [|done|by apply bmap_wf_nodup|by rewrite length_replicate].
  split; [by rewrite Hl, (Forall2_length _ _ _ (wf_selections _ _ Hwf))|]. intros i g a b Hg Ha Hb.
  destruct (Hget i g b Hg Hb) as (n & name & Hn & Hname & Hbg). specialize (Hsp i g Hg). rewrite Hbg in Hsp.
  destruct Hsp as (a' & Hs & Ha'). simplify_eq. apply selection_Ok in Hs as (g' & n' & Hg' & _ & Hn' & Hname'). simplify_eq.
  rewrite Hn', Hn. f_equal. by eapply node_name_inj; [apply (wf_names _ _ Hwf)|..].
Qed.

End SelectionLemmas.

(** ** Properties *)

Section Properties.
Context `{IpNetLib}.

(** C12: parsing always returns (no panic of the group search), and a configuration it
    returns is well formed: the two built-in proxies come first, every proxy and rule passed
    its checks, names are unique, groups are acyclic and nonempty with valid selections,
    every rule targets an existing node, and all collections are within their limits. *)
Theorem parse_config_wf pd yaml deserialize url sn source assets
    (deserialize_u16 : ∀ d raw, deserialize d = Some raw → Forall entry_wf (rc_proxies raw)) :
  ∃ r, parse_inner pd yaml deserialize url sn source assets = Some r ∧
       ∀ c, r = Ok c → config_wf sn c ∧ pd source = Ok (document c).
Proof. by apply parse_inner_spec. Qed.

(** Exposure is opt-in: a configuration listens beyond loopback only with allow-lan, its
    controller only ever binds 127.0.0.1 or 0.0.0.0 on a nonzero port, and when the
    authentication check passes an exposed controller has a secret; local clients always
    dial loopback. *)
Theorem exposure_requires_consent pd yaml deserialize url sn source assets raw d c
    (deserialize_u16 : ∀ d raw, deserialize d = Some raw → Forall entry_wf (rc_proxies raw)) :
  pd source = Ok d → deserialize d = Some raw →
  parse_inner pd yaml deserialize url sn source assets = Some (Ok c) →
  (is_loopback (bind_address c) = true ∨ rc_allow_lan raw = true) ∧
  controller_wf (controller c) ∧
  (validate_controller_auth c = Ok tt →
   match controller c with
   | Some a => is_loopback (sa_ip a) = true ∨ secret c ≠ []
   | None => True
   end) ∧
  match controller_client_endpoint c with Some a => is_loopback (sa_ip a) = true | None => True end.
Proof.
  intros Hpd Hd Hp. destruct (parse_inner_spec pd yaml deserialize url sn deserialize_u16 source assets) as (r & Hr & Hwf).
  rewrite Hp in Hr. injection Hr as <-. destruct (Hwf c eq_refl) as [Hc _].
  pose proof (wf_controller _ _ Hc) as Hctl. split_and!; [|done| |].
  - unfold parse_inner in Hp. destruct (parse_settings _ _ _) as [[[[d' raw'] a] ip]|] eqn:Es; [|done].
    apply parse_settings_spec in Es as (Hd' & _ & _ & Hip & Hpd').
    rewrite Hpd in Hpd'. injection Hpd' as <-. rewrite Hd in Hd'. injection Hd' as <-.
    destruct (parse_proxies _ _) as [[[ps gs] names]|]; [|done].
    destruct (resolve_groups _ _ _) as [[[gs' names']|]|]; [|done..].
    destruct (parse_rules _ _ _ _ _) as [rs|]; [|done]. simplify_eq. simpl.
    unfold parse_bind_address in Hip. destruct (match rc_bind_address raw with Some _ => _ | None => _ end); [|done].
    destruct (_ && _) eqn:E in Hip; [done|]. simplify_eq. apply andb_false_iff in E as [E|E]; [right|left]; by apply negb_false_iff in E.
  - intros Ha. unfold validate_controller_auth, controller_requires_auth in Ha. destruct (controller c) as [a|]; [|done].
    simpl in Ha, Hctl. destruct Hctl as [[Hip|Hip] _]; rewrite Hip in *; [by left|right]. simpl in Ha.
    case_bool_decide; [done|done].
  - unfold controller_client_endpoint. by destruct (controller c).
Qed.

(** Applying a persisted snapshot is atomic: either it is rejected and nothing changes,
    or every group named in it selects the named member and every other group returns to its
    first member; the configuration stays well formed. *)
Theorem set_selections_atomic ok c wanted : config_wf ok c → NoDup (keys wanted) →
  (∃ e, set_selections c wanted = (c, Err e)) ∨
  ∃ next, set_selections c wanted = (with_selections c next, Ok tt) ∧
    config_wf ok (with_selections c next) ∧
    ∀ i g, groups c !! i = Some g →
      match bget (g_name g) wanted with
      | Some px => ∃ m n, next !! i = Some m ∧ members g !! m = Some n ∧ node_name c n = Some px
      | None => next !! i = Some 0%nat
      end.
Proof. apply set_selections_spec. Qed.

(** Persisting the selections and restoring them is faithful: the snapshot is always
    accepted and afterwards every node resolves to the same proxy as before. *)
Theorem selections_roundtrip ok c : config_wf ok c →
  ∃ m c', selected c = Some m ∧ set_selections c m = (c', Ok tt) ∧
    ∀ index, resolve_proxy (length (proxies c')) (groups c') (selections c') index =
             resolve_proxy (length (proxies c)) (groups c) (selections c) index.
Proof.
  intros Hwf. destruct (restore_selected ok c Hwf) as (m & next & Hm & Hs & Hsame).
  exists m, (with_selections c next). split_and!; [done|done|]. intros index. by apply resolve_proxy_same.
Qed.

(** C14: following selections from any node of a parsed configuration reaches a proxy: the
    unreachable branch of the resolver is never taken, and no index is out of range, after
    any sequence of selection changes. *)
Theorem resolve_proxy_reaches_leaf ok c (changes : list (str * str)) index :
  config_wf ok c → (index < node_count c)%nat →
  let c' := foldl (λ c gp, fst (select c (fst gp) (snd gp))) c changes in
  ∃ leaf, resolve_proxy (length (proxies c')) (groups c') (selections c') index = Some leaf ∧
          (leaf < length (proxies c))%nat.
Proof.
  intros Hwf Hi. simpl.
  assert (∀ c, config_wf ok c →
    let c' := foldl (λ c gp, fst (select c (fst gp) (snd gp))) c changes in
    config_wf ok c' ∧ proxies c' = proxies c ∧ groups c' = groups c) as Hch.
  { clear. induction changes as [|[g p] changes IH]; intros c Hwf; simpl; [done|].
    destruct (select_spec ok c g p Hwf) as [[e ->]|(i & m & g' & n & -> & Hwf' & _)]; simpl; [by apply IH|].
    apply IH in Hwf'. done. }
  destruct (Hch c Hwf) as (Hwf' & Hp & Hg).
  destruct (resolve_proxy_total _ _ _ index (wf_groups _ _ Hwf') (wf_selections _ _ Hwf')) as (leaf & H1 & H2 & _).
  - rewrite Hp, Hg. done.
  - exists leaf. split; [done|]. by rewrite Hp in H2.
Qed.

End Properties.

(** ** Witnesses *)

#[local] Instance no_nets : IpNetLib := {|
  IpNet := unit; ipnet_parse _ := None; ipnet_is_ipv4 _ := true; ipnet_contains _ _ := false |}.

Definition demo_raw : RawConfig := mkRawConfig
  [EntryProxy (mkRawProxy (lit "node") (lit "ss") (lit "192.0.2.1") 8388 (lit "secret")
     (Some (lit "aes-128-gcm")) None None None None true None None None)]
  [mkRawGroup (lit "main") (lit "select") [lit "node"; lit "DIRECT"; lit "backup"];
   mkRawGroup (lit "backup") (lit "select") [lit "REJECT"; lit "node"]]
  [lit "DOMAIN-SUFFIX,example.com,main"; lit "MATCH,REJECT"] [] false None None None None None None
  (Some (lit "0.0.0.0:9090")) (Some (lit "token")).
Definition demo_document : Value := VObject [].
Definition demo_parse : option (res Config) :=
  parse (λ _, Ok demo_document) (λ _, Err "no YAML"%string) (λ _, Some demo_raw) (λ _, None) (λ _, true) [].

Definition demo_config : Config := mkConfig (V4 127 0 0 1)
  (builtin_proxies ++ [mkProxy (lit "node") (Shadowsocks (lit "192.0.2.1") 8388 (lit "secret") (lit "aes-128-gcm")) true None])
  [mkRule (DomainSuffix (lit "example.com")) 3 (lit "DOMAIN-SUFFIX") (lit "example.com");
   mkRule Match 1 (lit "MATCH") []]
  [mkGroup (lit "main") [2%nat; 0%nat; 4%nat]; mkGroup (lit "backup") [1%nat; 2%nat]]
  [0%nat; 0%nat] (lit "rule") (Some (mkSocketAddr (V4 0 0 0 0) 9090)) (lit "token") demo_document.

Lemma demo_u16 : ∀ d raw, (λ _ : Value, Some demo_raw) d = Some raw → Forall entry_wf (rc_proxies raw).
Proof. intros d raw [= <-]. repeat constructor; simpl; lia. Qed.

Lemma demo_parsed : demo_parse = Some (Ok demo_config).
Proof. vm_compute. reflexivity. Qed.

Lemma demo_config_wf : config_wf (λ _, true) demo_config.
Proof.
  destruct (parse_inner_spec (λ _, Ok demo_document) (λ _, Err "no YAML"%string) _ (λ _, None) (λ _, true)
              demo_u16 [] (Some [])) as (r & Hr & Hwf).
  pose proof demo_parsed as Hp. unfold demo_parse, parse, parse_with_assets in Hp. rewrite Hr in Hp.
  injection Hp as ->. by apply (Hwf demo_config).
Qed.

Lemma parse_config_wf_witness : config_wf (λ _, true) demo_config.
Proof.
  destruct (parse_config_wf (λ _, Ok demo_document) (λ _, Err "no YAML"%string) _ (λ _, None) (λ _, true)
              [] (Some []) demo_u16) as (r & Hr & Hwf).
  pose proof demo_parsed as Hp. unfold demo_parse, parse, parse_with_assets in Hp. rewrite Hr in Hp.
  injection Hp as ->. by apply (Hwf demo_config).
Defined.

Lemma exposure_requires_consent_witness : is_loopback (bind_address demo_config) = true ∨ rc_allow_lan demo_raw = true.
Proof.
  refine (proj1 (exposure_requires_consent (λ _, Ok demo_document) (λ _, Err "no YAML"%string) _ (λ _, None)
            (λ _, true) [] (Some []) demo_raw demo_document demo_config demo_u16 eq_refl eq_refl _)).
  exact demo_parsed.
Defined.

Lemma set_selections_atomic_witness :
  ∃ next, set_selections demo_config [(lit "main", lit "backup")] = (with_selections demo_config next, Ok tt).
Proof.
  destruct (set_selections_atomic (λ _, true) demo_config [(lit "main", lit "backup")] demo_config_wf) as [[e He]|(next & Hn & _)].
  - apply (bool_decide_unpack _). vm_compute. exact I.
  - exfalso. vm_compute in He. discriminate He.
  - by exists next.
Defined.

Lemma selections_roundtrip_witness :
  ∃ m c', selected demo_config = Some m ∧ set_selections demo_config m = (c', Ok tt).
Proof.
  destruct (selections_roundtrip (λ _, true) demo_config demo_config_wf) as (m & c' & H1 & H2 & _). by exists m, c'.
Defined.

Lemma resolve_proxy_reaches_leaf_witness :
  ∃ leaf, resolve_proxy 3 (groups demo_config) [2%nat; 0%nat] 3 = Some leaf ∧ (leaf < 3)%nat.
Proof.
  apply (resolve_proxy_reaches_leaf (λ _, true) demo_config [(lit "main", lit "backup")] 3 demo_config_wf).
  vm_compute. lia.
Defined.
