(* ===== verification/Route.v ===== *)
(** * Routing (src/src/config.rs: [Config::route_inner])

    A destination is matched against the rules in order. Address rules resolve a name at
    most once per decision and pin the address they matched; a name is left to a remote
    proxy only after nothing but statically DIRECT address rules were visited. *)
From S2P Require Import Prelude Net Target Geoip Rules Groups Proxy Provider Config Dns.

Record MatchContext := mkMatchContext {
  source_ip : option IpAddr;
  source_port : option Z;
  process_name : option str;
}.

(** The chosen proxy is [proxies !! leaf_index]. *)
Record Route := mkRoute { rule_index : nat; leaf_index : nat; route_target : Target }.

(** ** The decision *)

(** The DNS snapshot of a decision, and the resolutions made so far. *)
Record Snapshot := mkSnapshot { resolved : option (list IpAddr); lookups : nat }.

Section Routing.
Context `{IpNetLib} `{Resolver}.
Context (c : Config) (target : Target) (context : MatchContext).

Definition literal_ip : option IpAddr := parse_ip (host target).

Definition domain : option str :=
  match literal_ip with Some _ => None | None => Some (canonical_domain (host target)) end.

(** [if resolved.is_none() { resolved = Some(self.dns.resolve(target).await?) }] *)
Definition resolve_once (s : Snapshot) : Snapshot * res (list IpAddr) :=
  match resolved s with
  | Some addrs => (s, Ok addrs)
  | None =>
      match resolve (lookups s) target with
      | Ok addrs => (mkSnapshot (Some addrs) (S (lookups s)), Ok addrs)
      | Err e => (mkSnapshot None (S (lookups s)), Err e)
      end
  end.

(** An address rule: whether it matches and the address it pins. *)
Definition match_address (accepts : IpAddr → bool) (no_resolve : bool) (s : Snapshot)
    : Snapshot * res (bool * option IpAddr) :=
  match literal_ip with
  | Some ip => (s, Ok (accepts ip, None))
  | None =>
      if no_resolve then (s, Ok (false, None))
      else
        let '(s, r) := resolve_once s in
        (s, let! addrs := r in
            let pinned := List.find accepts addrs in
            Ok (is_some pinned, pinned))
  end.

Definition in_country (country : str) (ip : IpAddr) : bool := bool_decide (geoip_country ip = Some country).
Definition in_port_range (first last port : Z) : bool := (first <=? port) && (port <=? last).

Definition domain_suffix_matches (suffix domain : str) : bool :=
  eq_str domain suffix || is_some_and (strip_suffix suffix domain) (ends_with [46]).

(** The [match &rule.matcher]. *)
Definition match_rule (m : Matcher) (s : Snapshot) : Snapshot * res (bool * option IpAddr) :=
  match m with
  | Match => (s, Ok (true, None))
  | SourceIp network => (s, Ok (is_some_and (source_ip context) (ipnet_contains network), None))
  | SourcePort first last => (s, Ok (is_some_and (source_port context) (in_port_range first last), None))
  | ProcessName name => (s, Ok (is_some_and (process_name context) (eq_str name), None))
  | GeoIp country no_resolve => match_address (in_country country) no_resolve s
  | DestinationPort first last => (s, Ok (in_port_range first last (port target), None))
  | Ip network no_resolve => match_address (ipnet_contains network) no_resolve s
  | Domain expected => (s, Ok (is_some_and domain (λ d, eq_str d expected), None))
  | DomainSuffix suffix => (s, Ok (is_some_and domain (domain_suffix_matches suffix), None))
  | DomainKeyword keyword => (s, Ok (is_some_and domain (contains_sub keyword), None))
  end.

(** An address rule that may resolve. *)
Definition address_rule (m : Matcher) : bool :=
  match m with Ip _ false | GeoIp _ false => true | _ => false end.

Definition statically_direct (index : nat) : bool :=
  is_some_and (proxies c !! index) (λ p, match p_kind p with Direct => true | _ => false end).

Definition is_remote (p : Proxy) : bool :=
  match p_kind p with
  | Shadowsocks _ _ _ _ | Trojan _ _ _ _ _ | AnyTls _ _ _ _ _ => true
  | Direct | Reject => false
  end.

Definition no_rule_matched : string := "no routing rule matched; connection denied".

(** The branch of a matching rule; [None] is a panic (an index out of range or the
    unreachable branch of [resolve_proxy]). *)
Definition finish_route (i : nat) (r : Rule) (allowed : bool) (pinned : option IpAddr) (s : Snapshot)
    : option (res Route) :=
  let? leaf := resolve_proxy (length (proxies c)) (groups c) (selections c) (proxy r) in
  let? p := proxies c !! leaf in
  let? address :=
    match pinned with
    | Some ip => Some (Some ip)
    | None =>
        if allowed && is_remote p then Some None
        else match resolved s with
             | None => Some None
             | Some addrs => let? a := head addrs in Some (Some a)
             end
    end in
  Some (let! t := match address with
                  | Some ip => target_new (print_ip ip) (port target)
                  | None => Ok target
                  end in
        Ok (mkRoute i leaf t)).

(** The loop over the rules from index [i]. *)
Fixpoint route_rules (i : nat) (rs : list Rule) (allowed : bool) (s : Snapshot)
    : Snapshot * option (res Route) :=
  match rs with
  | [] => (s, Some (Err no_rule_matched))
  | r :: rs =>
      let allowed := if address_rule (matcher r) then allowed && statically_direct (proxy r) else allowed in
      let '(s, m) := match_rule (matcher r) s in
      match m with
      | Err e => (s, Some (Err e))
      | Ok (true, pinned) => (s, finish_route i r allowed pinned s)
      | Ok (false, _) => route_rules (S i) rs allowed s
      end
  end.

(** [route_inner]: the resolutions it made and its result. *)
Definition route_inner (remote_domain_allowed : bool) : nat * option (res Route) :=
  let '(s, r) := route_rules 0 (rules c) remote_domain_allowed (mkSnapshot None 0) in (lookups s, r).

(** TCP and UDP destinations. *)
Definition route_with_context : nat * option (res Route) := route_inner true.
Definition route_udp_with_context : nat * option (res Route) := route_inner false.

(** ** The reference: matching against one fixed answer *)

(** The only answer a decision can see. *)
Definition answer : res (list IpAddr) := resolve 0 target.

(** Whether [m] matches, given the addresses of the name. *)
Definition rule_matches (addrs : list IpAddr) (m : Matcher) : bool :=
  match m with
  | Ip network no_resolve =>
      match literal_ip with
      | Some ip => ipnet_contains network ip
      | None => negb no_resolve && existsb (ipnet_contains network) addrs
      end
  | GeoIp country no_resolve =>
      match literal_ip with
      | Some ip => in_country country ip
      | None => negb no_resolve && existsb (in_country country) addrs
      end
  | Match => true
  | SourceIp network => is_some_and (source_ip context) (ipnet_contains network)
  | SourcePort first last => is_some_and (source_port context) (in_port_range first last)
  | ProcessName name => is_some_and (process_name context) (eq_str name)
  | DestinationPort first last => in_port_range first last (port target)
  | Domain expected => is_some_and domain (λ d, eq_str d expected)
  | DomainSuffix suffix => is_some_and domain (domain_suffix_matches suffix)
  | DomainKeyword keyword => is_some_and domain (contains_sub keyword)
  end.

(** Whether the rule consults the answer. *)
Definition needs_dns (m : Matcher) : bool := negb (is_some literal_ip) && address_rule m.

(** The addresses the rule accepts. *)
Definition accepts (m : Matcher) (ip : IpAddr) : bool :=
  match m with
  | Ip network _ => ipnet_contains network ip
  | GeoIp country _ => in_country country ip
  | _ => false
  end.

(** A decision state is the initial one, or holds the answer after one resolution. *)
Definition snapshot_ok (addrs : list IpAddr) (s : Snapshot) : Prop :=
  (resolved s = None ∧ lookups s = 0%nat) ∨ (resolved s = Some addrs ∧ lookups s = 1%nat).

(** The state after visiting rules of which some consult the answer. *)
Definition visited (addrs : list IpAddr) (s : Snapshot) (consulted : bool) : Snapshot :=
  if consulted then mkSnapshot (Some addrs) 1 else s.

(** ** Lemmas *)

Lemma find_existsb {A} (f : A → bool) l : is_some (List.find f l) = existsb f l.
Proof. induction l as [|a l IH]; [done|]. simpl. by destruct (f a). Qed.

(** One rule, against the reference: with an answer, the loop's match is the reference's,
    and the rule pins the first address it accepts. *)
Lemma match_rule_spec addrs m s : answer = Ok addrs → snapshot_ok addrs s →
  match_rule m s =
    (visited addrs s (needs_dns m),
     Ok (rule_matches addrs m, if needs_dns m then List.find (accepts m) addrs else None)).
Proof.
  intros Ha Hs. unfold needs_dns.
  assert (∀ f, literal_ip = None → match_address f false s = (mkSnapshot (Some addrs) 1, Ok (existsb f addrs, List.find f addrs))) as Hma.
  { intros f Hl. unfold match_address. rewrite Hl. unfold resolve_once.
    destruct Hs as [[H1 H2]|[H1 H2]]; rewrite H1; [rewrite H2|]; unfold answer in Ha.
    - rewrite Ha. by rewrite find_existsb.
    - destruct s; simpl in *; subst. by rewrite find_existsb. }
  destruct m; simpl; try by (destruct (negb _)).
  - destruct literal_ip as [ip|] eqn:El; simpl.
    + unfold match_address. rewrite El. done.
    + destruct no_resolve; simpl; [unfold match_address; by rewrite El|]. by rewrite Hma.
  - destruct literal_ip as [ip|] eqn:El; simpl.
    + unfold match_address. rewrite El. done.
    + destruct no_resolve; simpl; [unfold match_address; by rewrite El|]. by rewrite Hma.
Qed.

Lemma visited_ok addrs s b : snapshot_ok addrs s → snapshot_ok addrs (visited addrs s b).
Proof. intros Hs. destruct b; [by right|done]. Qed.

(** Without an answer, a rule either does not consult it or ends the decision. *)
Lemma match_rule_fail e m s : answer = Err e → resolved s = None → lookups s = 0%nat →
  match_rule m s =
    if needs_dns m then (mkSnapshot None 1, Err e) else (s, Ok (rule_matches [] m, None)).
Proof.
  intros Ha Hr Hl. unfold needs_dns, answer in *.
  assert (∀ f, literal_ip = None → match_address f false s = (mkSnapshot None 1, Err e)) as Hma.
  { intros f Hlit. unfold match_address, resolve_once. rewrite Hlit, Hr, Hl, Ha. done. }
  destruct m; simpl; try by (destruct (negb _)).
  - destruct literal_ip as [ip|] eqn:El; simpl; [unfold match_address; by rewrite El|].
    destruct no_resolve; simpl; [unfold match_address; by rewrite El|]. by rewrite Hma.
  - destruct literal_ip as [ip|] eqn:El; simpl; [unfold match_address; by rewrite El|].
    destruct no_resolve; simpl; [unfold match_address; by rewrite El|]. by rewrite Hma.
Qed.

(** Whether the remote name survives the rules [rs]. *)
Definition allowed_after (allowed : bool) (rs : list Rule) : bool :=
  allowed && forallb (λ r, negb (address_rule (matcher r)) || statically_direct (proxy r)) rs.

(** The whole loop against the reference, given an answer: it skips the rules that do not
    match, and finishes at the first that does. *)
Lemma route_rules_spec addrs i rs allowed s : answer = Ok addrs → snapshot_ok addrs s →
  match list_find (λ r, rule_matches addrs (matcher r) = true) rs with
  | None =>
      route_rules i rs allowed s =
        (visited addrs s (existsb (λ r, needs_dns (matcher r)) rs), Some (Err no_rule_matched))
  | Some (k, r) =>
      let seen := take (S k) rs in
      let s' := visited addrs s (existsb (λ r, needs_dns (matcher r)) seen) in
      route_rules i rs allowed s =
        (s', finish_route (i + k) r (allowed_after allowed seen)
               (if needs_dns (matcher r) then List.find (accepts (matcher r)) addrs else None) s')
  end.
Proof.
  intros Ha. revert i allowed s. induction rs as [|r rs IH]; intros i allowed s Hs; [done|].
  cbn [list_find route_rules]. rewrite (match_rule_spec addrs) by done.
  set (allowed' := if address_rule (matcher r) then _ else _).
  assert (∀ l, allowed_after allowed (r :: l) = allowed_after allowed' l) as Hal.
  { intros l. unfold allowed_after, allowed'. simpl. destruct (address_rule _); simpl; [|done]. by rewrite andb_assoc. }
  case_decide as Hm.
  - rewrite Hm. cbn [take existsb]. rewrite take_0, orb_false_r, Nat.add_0_r.
    rewrite Hal. unfold allowed_after. simpl. by rewrite andb_true_r.
  - apply not_true_is_false in Hm. rewrite Hm.
    specialize (IH (S i) allowed' _ (visited_ok addrs s (needs_dns (matcher r)) Hs)).
    assert (∀ b, visited addrs (visited addrs s (needs_dns (matcher r))) b = visited addrs s (needs_dns (matcher r) || b)) as Hv.
    { intros []; destruct (needs_dns (matcher r)); done. }
    destruct (list_find _ rs) as [[k r']|]; simpl.
    + cbv zeta in IH. rewrite IH, Hv. simpl.
      rewrite Hal. by replace (i + S k)%nat with (S (i + k))%nat by lia.
    + rewrite IH, Hv. done.
Qed.

(** The loop when the name does not resolve: the rules before the first that consults the
    answer decide, else the failure is the result. *)
Lemma route_rules_fail e i rs allowed s : answer = Err e → resolved s = None → lookups s = 0%nat →
  (∃ k r, list_find (λ r, needs_dns (matcher r) = true ∨ rule_matches [] (matcher r) = true) rs = Some (k, r) ∧
     route_rules i rs allowed s =
       if needs_dns (matcher r) then (mkSnapshot None 1, Some (Err e))
       else (s, finish_route (i + k) r (allowed_after allowed (take (S k) rs)) None s)) ∨
  route_rules i rs allowed s = (s, Some (Err no_rule_matched)).
Proof.
  intros Ha Hr Hl. revert i allowed. induction rs as [|r rs IH]; intros i allowed; [by right|].
  cbn [list_find route_rules]. rewrite (match_rule_fail e) by done.
  set (allowed' := if address_rule (matcher r) then _ else _).
  assert (∀ l, allowed_after allowed (r :: l) = allowed_after allowed' l) as Hal.
  { intros l. unfold allowed_after, allowed'. simpl. destruct (address_rule _); simpl; [|done]. by rewrite andb_assoc. }
  case_decide as Hd.
  - left. exists 0%nat, r. split; [done|]. destruct (needs_dns (matcher r)); [done|].
    destruct Hd as [?|Hd]; [done|]. rewrite Hd. cbn [take]. rewrite take_0, Nat.add_0_r, Hal.
    unfold allowed_after. simpl. by rewrite andb_true_r.
  - apply Decidable.not_or in Hd as [H1%not_true_is_false H2%not_true_is_false]. rewrite H1, H2.
    destruct (IH (S i) allowed') as [(k & r' & Hf & Hk)|Hk]; [left|by right].
    rewrite Hf. exists (S k), r'. split; [done|]. rewrite Hk. destruct (needs_dns (matcher r')); [done|].
    cbn [take]. rewrite Hal. by replace (i + S k)%nat with (S i + k)%nat by lia.
Qed.

(** ** Finishing a decision *)

(** The destination a decision hands to the outbound, given what it saw. *)
Definition final_target (remote_name : bool) (pinned : option IpAddr) (s : Snapshot) : Target :=
  match pinned with
  | Some ip => mkTarget (print_ip ip) (port target)
  | None =>
      if remote_name then target
      else match resolved s with
           | Some (ip :: _) => mkTarget (print_ip ip) (port target)
           | _ => target
           end
  end.

Lemma finish_route_total ok i r allowed pinned s :
  config_wf ok c → (proxy r < node_count c)%nat → port target ≠ 0 →
  match pinned with Some ip => ip_wf ip | None => True end →
  match resolved s with Some addrs => addrs ≠ [] ∧ Forall ip_wf addrs | None => True end →
  ∃ leaf p, resolve_proxy (length (proxies c)) (groups c) (selections c) (proxy r) = Some leaf ∧
    proxies c !! leaf = Some p ∧
    finish_route i r allowed pinned s =
      Some (Ok (mkRoute i leaf (final_target (allowed && is_remote p) pinned s))).
Proof.
  intros Hwf Hr Hp Hpin Hs.
  destruct (resolve_proxy_total _ _ _ (proxy r) (wf_groups _ _ Hwf) (wf_selections _ _ Hwf) Hr) as (leaf & Hleaf & Hlt & _).
  destruct (lookup_lt_is_Some_2 _ _ Hlt) as [p Hpx]. exists leaf, p. split; [done|]. split; [done|].
  unfold finish_route, final_target. rewrite Hleaf, Hpx. destruct pinned as [ip|].
  - by rewrite target_new_ip.
  - destruct (allowed && is_remote p); [done|]. destruct (resolved s) as [addrs|]; [|done].
    destruct Hs as [Hne Hf]. destruct addrs as [|a addrs]; [done|]. simpl. inversion Hf; subst.
    by rewrite target_new_ip.
Qed.

Lemma rules_in_range ok r : config_wf ok c → r ∈ rules c → (proxy r < node_count c)%nat.
Proof. intros Hwf Hr. pose proof (wf_rules _ _ Hwf) as Hf. rewrite Forall_forall in Hf. by apply Hf. Qed.

(** The complete behaviour when the name resolves (or need not). *)
Lemma route_inner_spec ok allowed addrs : config_wf ok c → port target ≠ 0 → answer = Ok addrs →
  match list_find (λ r, rule_matches addrs (matcher r) = true) (rules c) with
  | None => ∃ n, (n ≤ 1)%nat ∧ route_inner allowed = (n, Some (Err no_rule_matched))
  | Some (k, r) =>
      let seen := take (S k) (rules c) in
      let consulted := existsb (λ r, needs_dns (matcher r)) seen in
      ∃ leaf p, resolve_proxy (length (proxies c)) (groups c) (selections c) (proxy r) = Some leaf ∧
        proxies c !! leaf = Some p ∧
        route_inner allowed =
          (if consulted then 1%nat else 0%nat,
           Some (Ok (mkRoute k leaf
             (final_target (allowed_after allowed seen && is_remote p)
                (if needs_dns (matcher r) then List.find (accepts (matcher r)) addrs else None)
                (visited addrs (mkSnapshot None 0) consulted)))))
  end.
Proof.
  intros Hwf Hp Ha. unfold route_inner.
  pose proof (route_rules_spec addrs 0 (rules c) allowed (mkSnapshot None 0) Ha ltac:(by left)) as Hr.
  pose proof (resolve_nonempty _ _ _ Ha) as Hne. pose proof (resolve_ip_wf _ _ _ Ha) as Hf.
  destruct (list_find _ (rules c)) as [[k r]|] eqn:El.
  - cbv zeta in Hr. rewrite Hr. clear Hr. cbn [Nat.add]. apply list_find_Some in El as (Hk & Hm & _).
    set (consulted := existsb _ _).
    set (pinned := if needs_dns (matcher r) then _ else _).
    assert (match pinned with Some ip => ip_wf ip | None => True end) as Hpin.
    { unfold pinned. destruct (needs_dns _); [|done]. destruct (List.find _ addrs) as [ip|] eqn:E; [|done].
      apply find_some in E as [Hin _]. rewrite Forall_forall in Hf. apply Hf. by apply list_elem_of_In. }
    destruct (finish_route_total ok k r (allowed_after allowed (take (S k) (rules c))) pinned
                (visited addrs (mkSnapshot None 0) consulted)) as (leaf & p & H1 & H2 & H3).
    { done. } { eapply rules_in_range; [done|by eapply list_elem_of_lookup_2]. } { done. } { done. }
    { by destruct consulted. }
    exists leaf, p. split_and!; [done|done|]. rewrite H3. by destruct consulted.
  - rewrite Hr. destruct (existsb _ _); simpl; eexists; (split; [|done]); lia.
Qed.

(** The complete behaviour when the name does not resolve. *)
Lemma route_inner_fail ok allowed e : config_wf ok c → port target ≠ 0 → answer = Err e →
  (route_inner allowed = (1%nat, Some (Err e)) ∧ ∃ k r, rules c !! k = Some r ∧ needs_dns (matcher r) = true) ∨
  route_inner allowed = (0%nat, Some (Err no_rule_matched)) ∨
  ∃ rt, route_inner allowed = (0%nat, Some (Ok rt)) ∧ route_target rt = target.
Proof.
  intros Hwf Hp Ha. unfold route_inner.
  destruct (route_rules_fail e 0 (rules c) allowed (mkSnapshot None 0) Ha eq_refl eq_refl) as [(k & r & Hf & Hk)|Hk].
  - rewrite Hk. apply list_find_Some in Hf as (Hr & _). destruct (needs_dns (matcher r)) eqn:En.
    + left. split; [done|]. by exists k, r.
    + right. right.
      destruct (finish_route_total ok (0 + k) r (allowed_after allowed (take (S k) (rules c))) None
                  (mkSnapshot None 0)) as (leaf & p & _ & _ & H3).
      { done. } { eapply rules_in_range; [done|by eapply list_elem_of_lookup_2]. } { done. } { done. } { done. }
      eexists. split; [by rewrite H3|]. simpl. by destruct (_ && _).
  - right. left. by rewrite Hk.
Qed.

(** What every route satisfies. *)
Lemma pinned_target_wf ip : target_wf target → ip_wf ip → target_wf (mkTarget (print_ip ip) (port target)).
Proof.
  intros (_ & _ & Hp) Hip. pose proof (print_ip_length ip Hip) as Hl. unfold target_wf, len. simpl.
  split_and!; [by destruct (print_ip ip); simpl in *; [lia|]|lia|lia|lia].
Qed.

Lemma route_result ok allowed n rt : config_wf ok c → target_wf target →
  route_inner allowed = (n, Some (Ok rt)) →
  (rule_index rt < length (rules c))%nat ∧ (leaf_index rt < length (proxies c))%nat ∧
  target_wf (route_target rt).
Proof.
  intros Hwf Ht Hr. assert (port target ≠ 0) as Hp by (destruct Ht; lia).
  destruct answer as [addrs|e] eqn:Ha.
  - pose proof (route_inner_spec ok allowed addrs Hwf Hp Ha) as Hs.
    pose proof (resolve_ip_wf _ _ _ Ha) as Hf. rewrite Hr in Hs.
    destruct (list_find _ (rules c)) as [[k r]|] eqn:El; [|by destruct Hs as (? & _ & [= _ ?])].
    destruct Hs as (leaf & p & _ & Hpx & [= _ ->]). apply list_find_Some in El as (Hk & _). simpl.
    split_and!; [by eapply lookup_lt_Some|by eapply lookup_lt_Some|].
    unfold final_target. destruct (if needs_dns _ then _ else _) as [ip|] eqn:Ep.
    + apply pinned_target_wf; [done|]. destruct (needs_dns _); [|done]. apply find_some in Ep as [Hin _].
      rewrite Forall_forall in Hf. apply Hf. by apply list_elem_of_In.
    + destruct (_ && _); [done|]. destruct (existsb _ _); [|done]. simpl.
      destruct addrs as [|ip addrs]; [done|]. apply pinned_target_wf; [done|]. by inversion Hf.
  - destruct (route_rules_fail e 0 (rules c) allowed (mkSnapshot None 0) Ha eq_refl eq_refl) as [(k & r & Hf & Hk)|Hk];
      unfold route_inner in Hr; rewrite Hk in Hr; [|done].
    apply list_find_Some in Hf as (Hrule & _). destruct (needs_dns (matcher r)); [done|]. injection Hr as _ Hr.
    destruct (finish_route_total ok (0 + k) r (allowed_after allowed (take (S k) (rules c))) None
                (mkSnapshot None 0)) as (leaf & p & _ & Hpx & H3); [done| |done..|].
    { eapply rules_in_range; [done|by eapply list_elem_of_lookup_2]. }
    cbn [Nat.add] in *. rewrite H3 in Hr. injection Hr as <-. simpl.
    split_and!; [by eapply lookup_lt_Some|by eapply lookup_lt_Some|]. by destruct (_ && _).
Qed.

End Routing.

(** ** Properties *)

Section Properties.
Context `{IpNetLib} `{Resolver}.

(** C1: a routing decision is a function of one consistent DNS snapshot: it makes at most
    one resolution however many address rules there are, never panics, picks the first rule
    that matches under that snapshot (no earlier rule matches), and denies the connection
    exactly when no rule matches. *)
Theorem route_first_match ok c t ctx allowed addrs :
  config_wf ok c → port t ≠ 0 → resolve 0 t = Ok addrs →
  ∃ n r, route_inner c t ctx allowed = (n, Some r) ∧ (n ≤ 1)%nat ∧
  match r with
  | Ok rt =>
      ∃ rule, rules c !! rule_index rt = Some rule ∧
        rule_matches t ctx addrs (matcher rule) = true ∧
        (∀ j r', (j < rule_index rt)%nat → rules c !! j = Some r' → rule_matches t ctx addrs (matcher r') = false) ∧
        resolve_proxy (length (proxies c)) (groups c) (selections c) (proxy rule) = Some (leaf_index rt)
  | Err e => e = no_rule_matched ∧ Forall (λ r, rule_matches t ctx addrs (matcher r) = false) (rules c)
  end.
Proof.
  intros Hwf Hp Ha. pose proof (route_inner_spec c t ctx ok allowed addrs Hwf Hp Ha) as Hr.
  destruct (list_find _ (rules c)) as [[k r]|] eqn:El.
  - destruct Hr as (leaf & p & H1 & H2 & ->). do 2 eexists. split; [done|]. split; [destruct (existsb _ _); lia|].
    apply list_find_Some in El as (Hk & Hm & Hb). exists r. split_and!; [done|done| |done].
    intros j r' Hj Hr'. apply not_true_is_false. by eapply Hb.
  - destruct Hr as (n & Hn & ->). do 2 eexists. split; [done|]. split; [done|]. split; [done|].
    apply list_find_None in El. eapply Forall_impl; [exact El|]. intros r Hr. by apply not_true_is_false.
Qed.

(** C2: address safety: when a decision consulted DNS, the destination handed on is an
    address of the snapshot. If an address rule decided, it is an address that rule accepts.
    The one exception is a TCP name left to a remote proxy, and then every address rule
    visited was statically DIRECT and none of them decided. UDP never leaves a name. *)
Theorem route_pins_address ok c t ctx allowed addrs rt :
  config_wf ok c → port t ≠ 0 → resolve 0 t = Ok addrs →
  route_inner c t ctx allowed = (1%nat, Some (Ok rt)) →
  ∃ rule, rules c !! rule_index rt = Some rule ∧
  ((∃ ip, ip ∈ addrs ∧ route_target rt = mkTarget (print_ip ip) (port t) ∧
      (needs_dns t (matcher rule) = true → accepts (matcher rule) ip = true)) ∨
   (route_target rt = t ∧ allowed = true ∧ needs_dns t (matcher rule) = false ∧
    (∃ p, proxies c !! leaf_index rt = Some p ∧ is_remote p = true) ∧
    ∀ j r, (j ≤ rule_index rt)%nat → rules c !! j = Some r → address_rule (matcher r) = true →
      statically_direct c (proxy r) = true)).
Proof.
  intros Hwf Hp Ha Hr. pose proof (route_inner_spec c t ctx ok allowed addrs Hwf Hp Ha) as Hs.
  pose proof (resolve_nonempty _ _ _ Ha) as Hne.
  destruct (list_find _ (rules c)) as [[k r]|] eqn:El; [|destruct Hs as (n & _ & Hs); congruence].
  destruct Hs as (leaf & p & H1 & H2 & Hs). rewrite Hr in Hs. clear Hr.
  apply list_find_Some in El as (Hk & Hm & _).
  destruct (existsb _ _) eqn:Ec; [|done]. injection Hs as ->. exists r. split; [done|]. simpl.
  destruct (needs_dns t (matcher r)) eqn:En.
  - left. destruct (List.find (accepts (matcher r)) addrs) as [ip|] eqn:Ef.
    + apply find_some in Ef as [Hin Hacc]. exists ip. split_and!; [by apply list_elem_of_In|done|done].
    + exfalso. unfold needs_dns in En. apply andb_prop in En as [En1 En2].
      pose proof (find_existsb (accepts (matcher r)) addrs) as Hx. rewrite Ef in Hx. simpl in Hx.
      unfold rule_matches in Hm. destruct (literal_ip t); [done|].
      destruct (matcher r) as [| | |? []| | | | |? []|]; simpl in Hm, En2; try done;
        match type of Hm with existsb ?f _ = _ => change (false = existsb f addrs) in Hx end; congruence.
  - unfold final_target. destruct (allowed_after c allowed _ && is_remote p) eqn:E.
    + right. apply andb_prop in E as [E1 E2]. unfold allowed_after in E1. apply andb_prop in E1 as [-> E1].
      split_and!; [done|done|done|by exists p|]. intros j r' Hj Hr' Hadr.
      rewrite forallb_forall in E1. assert (r' ∈ take (S k) (rules c)) as Hin.
      { simpl in Hj. eapply (list_elem_of_lookup_2 _ j). rewrite lookup_take_lt by lia. done. }
      apply list_elem_of_In, E1 in Hin. rewrite Hadr in Hin. done.
    + left. destruct addrs as [|ip addrs]; [done|]. exists ip. simpl. split_and!; [constructor|done|done].
Qed.

(** Failing closed: when the name does not resolve, the decision never falls through to
    a later rule: it reports the resolver's error at the first rule that needs the answer,
    and otherwise was decided (or denied) without any resolution, leaving the name as is. *)
Theorem route_dns_failure ok c t ctx allowed e :
  config_wf ok c → port t ≠ 0 → resolve 0 t = Err e →
  (route_inner c t ctx allowed = (1%nat, Some (Err e)) ∧ ∃ k r, rules c !! k = Some r ∧ needs_dns t (matcher r) = true) ∨
  route_inner c t ctx allowed = (0%nat, Some (Err no_rule_matched)) ∨
  ∃ rt, route_inner c t ctx allowed = (0%nat, Some (Ok rt)) ∧ route_target rt = t.
Proof. apply route_inner_fail. Qed.

End Properties.

(** ** Witnesses *)

#[local] Instance demo_nets : IpNetLib := {|
  IpNet := Z; ipnet_parse _ := None; ipnet_is_ipv4 _ := true;
  ipnet_contains net ip := match ip with V4 a _ _ _ => a =? net | V6 _ => false end |}.

Definition demo_answer : list IpAddr := [V4 192 0 2 7; V4 10 1 2 3].

(** A resolver that always gives the same two addresses. *)
#[local, refine] Instance demo_resolver : Resolver := { resolve _ _ := Ok demo_answer }.
Proof.
  - by intros ? ? ? [= <-].
  - intros ? ? ? [= <-]. repeat constructor; unfold octet; lia.
Defined.

(** An address rule for 10.0.0.0/8 to DIRECT, then everything to REJECT. *)
Definition demo_routing : Config := mkConfig (V4 127 0 0 1) builtin_proxies
  [mkRule (Ip 10 false) 0 (lit "IP-CIDR") (lit "10.0.0.0/8"); mkRule Match 1 (lit "MATCH") []]
  [] [] (lit "rule") None [] (Json.VObject []).

Lemma demo_routing_acyclic : groups_wf 2 [].
Proof.
  split_and!; [constructor| |constructor]. intros i Ht.
  assert (∀ i j, ¬ edge 2 [] i j) as Hno by (intros ? ? (_ & ms & Hms & _); done).
  inversion Ht; subst; by eapply Hno.
Qed.

Lemma demo_routing_wf : config_wf (λ _, true) demo_routing.
Proof.
  split; cbn [proxies groups selections rules controller mode demo_routing];
    first [ done | exact demo_routing_acyclic | constructor; done
          | apply (bool_decide_unpack _); vm_compute; exact I
          | unfold node_count; simpl; repeat constructor; simpl; (lia || done || by left) ].
Qed.

Definition demo_target : Target := mkTarget (lit "example.com") 443.
Definition demo_context : MatchContext := mkMatchContext None None None.

Lemma route_first_match_witness :
  ∃ n r, route_inner demo_routing demo_target demo_context true = (n, Some r) ∧ (n ≤ 1)%nat.
Proof.
  destruct (route_first_match (λ _, true) demo_routing demo_target demo_context true demo_answer
              demo_routing_wf ltac:(done) eq_refl) as (n & r & H1 & H2 & _). by exists n, r.
Defined.

(** The second address is the one inside the network, and it is the one pinned. *)
Lemma route_pins_address_witness :
  ∃ ip, ip ∈ demo_answer ∧ mkTarget (lit "10.1.2.3") 443 = mkTarget (print_ip ip) 443.
Proof.
  destruct (route_pins_address (λ _, true) demo_routing demo_target demo_context true demo_answer
              (mkRoute 0 0 (mkTarget (lit "10.1.2.3") 443)) demo_routing_wf ltac:(done) eq_refl)
    as (rule & Hr & [(ip & H1 & H2 & _)|(Hbad & _)]).
  - vm_cast_no_check (eq_refl (1%nat, Some (Ok (E:=string) (mkRoute 0 0 (mkTarget (lit "10.1.2.3") 443))))).
  - exists ip. split; [exact H1|exact H2].
  - exfalso. apply (f_equal host) in Hbad. vm_compute in Hbad. discriminate Hbad.
Defined.

Section Failing.
#[local, refine] Instance failing_resolver : Resolver := { resolve _ _ := Err "DNS lookup failed"%string }.
Proof. all: by intros. Defined.

Lemma route_dns_failure_witness :
  route_inner demo_routing demo_target demo_context true = (1%nat, Some (Err "DNS lookup failed"%string)).
Proof.
  destruct (route_dns_failure (λ _, true) demo_routing demo_target demo_context true "DNS lookup failed"%string
              demo_routing_wf ltac:(done) eq_refl) as [[H _]|[H|(rt & H & _)]].
  - exact H.
  - exfalso. apply (f_equal fst) in H. vm_compute in H. discriminate H.
  - exfalso. apply (f_equal fst) in H. vm_compute in H. discriminate H.
Defined.

End Failing.
