(* ===== verification/Connection.v ===== *)
(** * The connection registry (src/src/connection.rs)

    Every accepted connection has an entry under its sequence number; its task updates the
    entry through a guard, the API may ask for it to close, and clients validate the list
    the API serves. Addresses are IP and port (a scope or flow label is not modelled). *)
From S2P Require Import Prelude Utf8 Net Target BTree Json Rules Groups Proxy Config Route.

Module Registry.

Definition LIMIT : Z := 1024.

Inductive Phase := Handshake | Routing | Connecting | Active | Idle | UdpWait | Rejected | Closing.
Inductive Protocol := Tcp | Udp.
Inductive Inbound := HttpConnect | HttpForward | Socks5Connect | Socks5Udp.

#[export] Instance Phase_eq_dec : EqDecision Phase.
Proof. solve_decision. Defined.
#[export] Instance Inbound_eq_dec : EqDecision Inbound.
Proof. solve_decision. Defined.

Record Metadata := mkMetadata {
  id : str;
  source : SocketAddr;
  protocol : Protocol;
  phase : Phase;
  inbound : option Inbound;
  target : option Target;
  routed_target : option Target;
  datagram_source : option SocketAddr;
  target_scope : option str;
}.

(** [cancel] is the value of the watch channel. *)
Record Entry := mkEntry { metadata : Metadata; route : option (nat * nat); cancel : bool }.

(** Entries in key order, as the [BTreeMap<u64, Entry>] iterates. *)
Record State := mkState { sequence : Z; entries : list (Z * Entry) }.

Inductive CloseError := Invalid | Instance | Missing.

Definition init : State := mkState 0 [].

(** ** Operations *)

Definition entry_of (s : State) (seq : Z) : option Entry :=
  snd <$> List.find (λ e, fst e =? seq) (entries s).

Definition update_entry (f : Entry → Entry) (seq : Z) (l : list (Z * Entry)) : list (Z * Entry) :=
  (λ e, if fst e =? seq then (fst e, f (snd e)) else e) <$> l.

(** [BTreeMap::insert] of a key that is not present. *)
Fixpoint insert_entry (seq : Z) (e : Entry) (l : list (Z * Entry)) : list (Z * Entry) :=
  match l with
  | [] => [(seq, e)]
  | (k, e') :: l' => if seq <? k then (seq, e) :: l else (k, e') :: insert_entry seq e l'
  end.

Definition connection_id (nonce : str) (seq : Z) : str := nonce ++ lit "-" ++ print_dec seq.

Definition fresh_entry (nonce : str) (seq : Z) (src : SocketAddr) : Entry :=
  mkEntry (mkMetadata (connection_id nonce seq) src Tcp Handshake None None None None None) None false.

(** [register]: the guard's sequence number and the new state. *)
Definition register (nonce : str) (src : SocketAddr) (s : State) : option (Z * State) :=
  if LIMIT <=? len (entries s) then None
  else if u64_max <? sequence s + 1 then None
  else
    let seq := sequence s + 1 in
    Some (seq, mkState seq (insert_entry seq (fresh_entry nonce seq src) (entries s))).

Definition split_id (i : str) : option (str * Z) :=
  let? '(nonce, seq) := rsplit_once 45 i in
  if negb (len nonce =? 32) || negb (forallb is_lower_hex nonce)
     || starts_with (lit "0") seq || negb (forallb is_ascii_digit seq)
  then None
  else let? n := parse_uint u64_max seq in Some (nonce, n).

Definition set_phase (p : Phase) (m : Metadata) : Metadata :=
  mkMetadata (id m) (source m) (protocol m) p (inbound m) (target m) (routed_target m)
    (datagram_source m) (target_scope m).

Definition close (nonce : str) (i : str) (s : State) : State * result CloseError unit :=
  match split_id i with
  | None => (s, Err Invalid)
  | Some (n, seq) =>
      if negb (eq_str n nonce) then (s, Err Instance)
      else if negb (is_some (entry_of s seq)) then (s, Err Missing)
      else
        (mkState (sequence s)
           (update_entry (λ e, mkEntry (set_phase Closing (metadata e)) (route e) true) seq (entries s)),
         Ok tt)
  end.

(** [Guard::update]: a closing entry no longer changes. *)
Definition guard_update (seq : Z) (change : Entry → Entry) (s : State) : State :=
  mkState (sequence s)
    (update_entry (λ e, if bool_decide (phase (metadata e) = Closing) then e else change e) seq (entries s)).

Definition guard_phase (p : Phase) (e : Entry) : Entry :=
  mkEntry (set_phase p (metadata e)) (route e) (cancel e).

Definition guard_inbound (i : Inbound) (e : Entry) : Entry :=
  let m := metadata e in
  let udp := bool_decide (i = Socks5Udp) in
  mkEntry (mkMetadata (id m) (source m) (if udp then Udp else protocol m) (if udp then UdpWait else phase m)
             (Some i) (target m) (routed_target m) (datagram_source m) (target_scope m))
    (route e) (cancel e).

Definition guard_target (t : Target) (ds : option SocketAddr) (i : Inbound) (e : Entry) : Entry :=
  let m := metadata e in
  mkEntry (mkMetadata (id m) (source m) (protocol m) Routing (Some i) (Some t) None ds
             ((λ _, lit "first_datagram") <$> ds))
    None (cancel e).

Definition guard_routed (rt : Route) (e : Entry) : Entry :=
  let m := metadata e in
  mkEntry (mkMetadata (id m) (source m) (protocol m) Connecting (inbound m) (target m)
             (Some (route_target rt)) (datagram_source m) (target_scope m))
    (Some (rule_index rt, leaf_index rt)) (cancel e).

Definition guard_idle (e : Entry) : Entry :=
  let m := metadata e in
  mkEntry (mkMetadata (id m) (source m) (protocol m) Idle (inbound m) None None (datagram_source m)
             (target_scope m))
    None (cancel e).

(** [Drop for Guard] *)
Definition guard_drop (seq : Z) (s : State) : State :=
  mkState (sequence s) (List.filter (λ e, negb (fst e =? seq)) (entries s)).

(** ** The served list *)

Definition phase_name (p : Phase) : string :=
  match p with
  | Handshake => "handshake" | Routing => "routing" | Connecting => "connecting" | Active => "active"
  | Idle => "idle" | UdpWait => "udp_wait" | Rejected => "rejected" | Closing => "closing"
  end.
Definition protocol_name (p : Protocol) : string := match p with Tcp => "tcp" | Udp => "udp" end.
Definition inbound_name (i : Inbound) : string :=
  match i with
  | HttpConnect => "http_connect" | HttpForward => "http_forward"
  | Socks5Connect => "socks5_connect" | Socks5Udp => "socks5_udp"
  end.

Definition text (s : string) : Value := VString (lit s).
Definition number (n : Z) : Value := VNumber (PosInt n).

(** An object from its serialized fields. *)
Definition object (fields : list (str * Value)) : Value :=
  VObject (foldl (λ m kv, binsert (fst kv) (snd kv) m) [] fields).

(** A field that is skipped when absent. *)
Definition opt {A} (key : string) (f : A → Value) (o : option A) : list (str * Value) :=
  match o with Some a => [(lit key, f a)] | None => [] end.

Definition target_json (t : Target) : Value :=
  object [(lit "host", VString (host t)); (lit "port", number (port t))].
Definition address_json (a : SocketAddr) : Value := VString (print_socket_addr a).

Definition rule_view_json (v : RuleView) : Value :=
  object [(lit "index", number (Z.of_nat (rv_index v))); (lit "type", VString (rv_kind v));
          (lit "payload", VString (rv_payload v)); (lit "target", VString (rv_target v))].
Definition proxy_view_json (v : ProxyView) : Value :=
  object [(lit "name", VString (xv_name v)); (lit "type", text (xv_kind v))].

Definition view_json (m : Metadata) (rule : option RuleView) (px : option ProxyView) : Value :=
  object
    ([(lit "id", VString (id m)); (lit "source", address_json (source m));
      (lit "protocol", text (protocol_name (protocol m))); (lit "phase", text (phase_name (phase m)))]
     ++ opt "inbound" (λ i, text (inbound_name i)) (inbound m)
     ++ opt "target" target_json (target m)
     ++ opt "routed_target" target_json (routed_target m)
     ++ opt "datagram_source" address_json (datagram_source m)
     ++ opt "target_scope" VString (target_scope m)
     ++ opt "rule" rule_view_json rule
     ++ opt "proxy" proxy_view_json px).

Section List.
Context `{IpNetLib}.

(** One connection of the list; [None] is an index out of range of the configuration. *)
Definition entry_json (c : Config) (e : Entry) : option Value :=
  match route e with
  | None => Some (view_json (metadata e) None None)
  | Some (r, leaf) =>
      let? rv := rule_view c r in
      let? pv := proxy_view c leaf in
      Some (view_json (metadata e) (Some rv) (Some pv))
  end.

(** [write_list], as the document it writes. *)
Definition write_list (c : Config) (s : State) : option Value :=
  let? es := mapM (λ ke, entry_json c (snd ke)) (entries s) in
  Some (object [(lit "connections", VArray es)]).

End List.

(** ** Validation by the client: [valid_response] *)

Definition keys_ok (v : Value) (required optional : list string) : bool :=
  is_some_and (as_object v) (λ m,
    forallb (λ k, bcontains (lit k) m) required
    && forallb (λ k, one_of k required || one_of k optional) (keys m)).

Definition valid_target (v : Value) : bool :=
  keys_ok v ["host"; "port"] []
  && is_some_and (as_str (index "host" v)) (λ s, negb (bool_decide (s = [])) && (len s <=? 255))
  && is_some_and (as_u64 (index "port" v)) (λ p, (1 <=? p) && (p <=? 65535)).

Definition valid_address (v : Value) : bool :=
  is_some (as_str v ≫= parse_socket_addr).

Definition has (key : string) (e : Value) : bool := is_some (get key e).

(** [if let Some(v) = e.get(key)]: absent or accepted. *)
Definition when (key : string) (e : Value) (f : Value → bool) : bool :=
  match get key e with Some v => f v | None => true end.

Definition str_in (v : Value) (names : list string) : bool :=
  is_some_and (as_str v) (λ s, one_of s names).

Definition valid_close (v : Value) (i : str) : bool :=
  keys_ok v ["id"; "phase"; "close_requested"] []
  && bool_decide (as_str (index "id" v) = Some i)
  && is_text (index "phase" v) "closing" && is_bool (index "close_requested" v) true.

Definition valid_identity (nonce : str) (e : Value) : bool :=
  keys_ok e ["id"; "source"; "protocol"; "phase"]
    ["inbound"; "target"; "routed_target"; "rule"; "proxy"; "datagram_source"; "target_scope"]
  && is_some_and (as_str (index "id" e)) (λ i, is_some_and (split_id i) (λ ns, eq_str (fst ns) nonce)).

Definition valid_scalars (e : Value) : bool :=
  valid_address (index "source" e)
  && str_in (index "protocol" e) ["tcp"; "udp"]
  && str_in (index "phase" e)
       ["handshake"; "routing"; "connecting"; "active"; "idle"; "udp_wait"; "rejected"; "closing"]
  && when "inbound" e (λ v, str_in v ["http_connect"; "http_forward"; "socks5_connect"; "socks5_udp"])
  && when "target" e valid_target && when "routed_target" e valid_target
  && when "datagram_source" e valid_address
  && when "target_scope" e (λ v, is_text v "first_datagram" && is_text (index "protocol" e) "udp"
                                 && has "datagram_source" e).

Definition valid_views (e : Value) : bool :=
  Bool.eqb (has "rule" e) (has "proxy" e) && Bool.eqb (has "rule" e) (has "routed_target" e)
  && when "rule" e (λ v,
       keys_ok v ["index"; "type"; "payload"; "target"] []
       && is_some_and (as_u64 (index "index" v)) (λ i, i <? 262144)
       && is_some (as_str (index "type" v)) && is_some (as_str (index "payload" v))
       && is_some (as_str (index "target" v)))
  && when "proxy" e (λ v,
       keys_ok v ["name"; "type"] [] && is_some (as_str (index "name" v))
       && str_in (index "type" v) ["Direct"; "Reject"; "Shadowsocks"; "Trojan"; "AnyTLS"]).

(** What each phase requires. *)
Definition valid_phase (e : Value) : bool :=
  let ph := index "phase" e in
  let udp := is_text (index "protocol" e) "udp" in
  let datagram := udp && has "target" e in
  negb (str_in ph ["idle"; "handshake"; "udp_wait"] && (has "target" e || has "rule" e))
  && negb (str_in ph ["active"; "connecting"; "rejected"]
           && (negb (has "target" e) || negb (has "rule" e) || negb (has "inbound" e)))
  && negb (is_text ph "routing" && (negb (has "target" e) || has "rule" e))
  && Bool.eqb udp (is_text (index "inbound" e) "socks5_udp")
  && negb (is_text ph "udp_wait" && negb udp) && negb (is_text ph "handshake" && udp)
  && Bool.eqb (has "datagram_source" e) datagram && Bool.eqb (has "target_scope" e) datagram
  && negb (is_text ph "idle" && negb (is_text (index "inbound" e) "http_forward"))
  && (negb (has "routed_target" e) || has "target" e).

Definition valid_entry (nonce : str) (e : Value) : bool :=
  valid_identity nonce e && valid_scalars e && valid_views e && valid_phase e.

(** The [all] over the entries, with the identifiers seen so far. *)
Fixpoint valid_entries (nonce : str) (es : list Value) (ids : list str) : bool :=
  match es with
  | [] => true
  | e :: es =>
      let i := default [] (as_str (index "id" e)) in
      valid_entry nonce e && negb (bool_decide (i ∈ ids)) && valid_entries nonce es (i :: ids)
  end.

Definition valid_response (v : Value) (nonce : str) (i : option str) : bool :=
  match i with
  | Some i => valid_close v i
  | None =>
      keys_ok v ["connections"] []
      && is_some_and (as_array (index "connections" v)) (λ es,
           (len es <=? LIMIT) && valid_entries nonce es [])
  end.

End Registry.
