(* ===== verification/Lifecycle.v ===== *)
(** * Connection lifecycles (src/src/connection.rs with the calls of src/src/runtime.rs)

    The tasks of [runtime::serve], [associate], [udp_relay] and [dial] drive the registry
    through their guards while clients close connections and tasks end at any point. This
    file is that interleaving as a step relation, and proves that every list the API can
    serve is one its clients accept. *)
From S2P Require Import Prelude Utf8 Net Target BTree Json Rules Groups Proxy Provider Config Dns Route Connection.

Module Lifecycle.
Import Registry.

(** ** Tasks *)

(** Where the task of a connection is between two updates of its entry. *)
Inductive Pc :=
| AtHandshake
| AtTarget (i : Inbound)
| AtRouted (i : Inbound)
| AtActive (i : Inbound)
| AtRejected (i : Inbound)
| AtIdle
| AtUdpWait.

Record World := mkWorld { registry : State; tasks : gmap Z Pc }.

Definition world_init : World := mkWorld init ∅.

Definition socket_wf (a : SocketAddr) : Prop := ip_wf (sa_ip a) ∧ 0 ≤ sa_port a ≤ 65535.

(** The task at [seq] updates its entry and moves on. *)
Definition task_step (seq : Z) (change : Entry → Entry) (pc : Pc) (w : World) : World :=
  mkWorld (guard_update seq change (registry w)) (<[seq := pc]> (tasks w)).

Section Steps.
Context `{IpNetLib} `{Resolver} (c : Config) (nonce : str).

(** A route that [dial] or [udp_relay] obtained from the configuration. *)
Definition routed_by_config (rt : Route) : Prop :=
  ∃ t ctx allowed n, target_wf t ∧ route_inner c t ctx allowed = (n, Some (Ok rt)).

Inductive step (w : World) : World → Prop :=
| step_accept src seq reg :
    socket_wf src → register nonce src (registry w) = Some (seq, reg) →
    step w (mkWorld reg (<[seq := AtHandshake]> (tasks w)))
| step_socks_target seq t :
    tasks w !! seq = Some AtHandshake → target_wf t →
    step w (task_step seq (guard_target t None Socks5Connect) (AtTarget Socks5Connect) w)
| step_http_target seq t i :
    tasks w !! seq = Some AtHandshake ∨ tasks w !! seq = Some AtIdle → target_wf t →
    i = HttpConnect ∨ i = HttpForward →
    step w (task_step seq (guard_target t None i) (AtTarget i) w)
| step_associate seq :
    tasks w !! seq = Some AtHandshake →
    step w (task_step seq (guard_inbound Socks5Udp) AtUdpWait w)
| step_datagram seq t sender :
    tasks w !! seq = Some AtUdpWait → target_wf t → socket_wf sender →
    step w (task_step seq (guard_target t (Some sender) Socks5Udp) (AtTarget Socks5Udp) w)
| step_routed seq i rt :
    tasks w !! seq = Some (AtTarget i) → routed_by_config rt →
    step w (task_step seq (guard_routed rt) (AtRouted i) w)
| step_rejected seq i :
    tasks w !! seq = Some (AtRouted i) →
    step w (task_step seq (guard_phase Rejected) (AtRejected i) w)
| step_active seq i :
    tasks w !! seq = Some (AtRouted i) →
    step w (task_step seq (guard_phase Active) (AtActive i) w)
| step_idle seq :
    tasks w !! seq = Some (AtActive HttpForward) →
    step w (task_step seq guard_idle AtIdle w)
| step_close i :
    step w (mkWorld (fst (close nonce i (registry w))) (tasks w))
| step_end seq :
    is_Some (tasks w !! seq) →
    step w (mkWorld (guard_drop seq (registry w)) (delete seq (tasks w))).

(** ** Invariant *)

Definition phase_at (pc : Pc) : Phase :=
  match pc with
  | AtHandshake => Handshake
  | AtTarget _ => Routing
  | AtRouted _ => Connecting
  | AtActive _ => Active
  | AtRejected _ => Rejected
  | AtIdle => Idle
  | AtUdpWait => UdpWait
  end.

Definition protocol_of (i : Inbound) : Protocol := if bool_decide (i = Socks5Udp) then Udp else Tcp.

(** Datagram metadata is there exactly for UDP. *)
Definition datagram_ok (i : Inbound) (m : Metadata) : Prop :=
  if bool_decide (i = Socks5Udp)
  then target_scope m = Some (lit "first_datagram") ∧ ∃ a, datagram_source m = Some a ∧ socket_wf a
  else target_scope m = None ∧ datagram_source m = None.

Definition no_target (e : Entry) : Prop :=
  target (metadata e) = None ∧ routed_target (metadata e) = None ∧ route e = None ∧
  datagram_source (metadata e) = None ∧ target_scope (metadata e) = None.

Definition route_in_range (r : nat * nat) : Prop :=
  (fst r < length (rules c))%nat ∧ (snd r < length (proxies c))%nat.

(** The contents of an entry whose task is at [pc], phase aside. *)
Definition shape (pc : Pc) (e : Entry) : Prop :=
  let m := metadata e in
  match pc with
  | AtHandshake => protocol m = Tcp ∧ inbound m = None ∧ no_target e
  | AtIdle => protocol m = Tcp ∧ inbound m = Some HttpForward ∧ no_target e
  | AtUdpWait => protocol m = Udp ∧ inbound m = Some Socks5Udp ∧ no_target e
  | AtTarget i =>
      protocol m = protocol_of i ∧ inbound m = Some i ∧ datagram_ok i m ∧
      (∃ t, target m = Some t ∧ target_wf t) ∧ routed_target m = None ∧ route e = None
  | AtRouted i | AtActive i | AtRejected i =>
      protocol m = protocol_of i ∧ inbound m = Some i ∧ datagram_ok i m ∧
      (∃ t, target m = Some t ∧ target_wf t) ∧ (∃ t, routed_target m = Some t ∧ target_wf t) ∧
      ∃ r, route e = Some r ∧ route_in_range r
  end.

(** The entry at [seq] while its task is at [pc]: it follows the task, or it is closing
    and keeps what it had when the close was requested. *)
Definition entry_inv (seq : Z) (pc : Pc) (e : Entry) : Prop :=
  id (metadata e) = connection_id nonce seq ∧ socket_wf (source (metadata e)) ∧
  ((phase (metadata e) = phase_at pc ∧ shape pc e ∧ cancel e = false) ∨
   (phase (metadata e) = Closing ∧ cancel e = true ∧ ∃ pc', shape pc' e)).

Definition sorted_keys (l : list (Z * Entry)) : Prop := StronglySorted Z.lt (fst <$> l).

Record world_inv (w : World) : Prop := {
  inv_limit : len (entries (registry w)) ≤ LIMIT;
  inv_sequence : 0 ≤ sequence (registry w) ≤ u64_max;
  inv_sorted : sorted_keys (entries (registry w));
  inv_range : Forall (λ ke, 1 ≤ fst ke ≤ sequence (registry w)) (entries (registry w));
  inv_entries : ∀ seq e, (seq, e) ∈ entries (registry w) → ∃ pc, tasks w !! seq = Some pc ∧ entry_inv seq pc e;
}.

(** ** Lemmas: keys *)

Lemma insert_last seq e (l : list (Z * Entry)) :
  Forall (λ ke, fst ke < seq) l → insert_entry seq e l = l ++ [(seq, e)].
Proof.
  induction 1 as [|[k e'] l Hk _ IH]; simpl; [done|]. simpl in Hk.
  rewrite (proj2 (Z.ltb_ge _ _)) by lia. by rewrite IH.
Qed.

Lemma update_keys f seq l : fst <$> update_entry f seq l = fst <$> l.
Proof.
  unfold update_entry. rewrite <- list_fmap_compose. apply list_fmap_ext. intros i [k e] _. simpl.
  by destruct (k =? seq).
Qed.

Lemma update_elem f seq l k e : (k, e) ∈ update_entry f seq l →
  ∃ e', (k, e') ∈ l ∧ e = if k =? seq then f e' else e'.
Proof.
  unfold update_entry. intros Hin. apply list_elem_of_fmap in Hin as ([k' e'] & He & Hin). simpl in He.
  destruct (k' =? seq) eqn:E; simplify_eq; exists e'; by rewrite E.
Qed.

Lemma filter_elem (f : Z * Entry → bool) l x : x ∈ List.filter f l ↔ x ∈ l ∧ f x = true.
Proof. rewrite !list_elem_of_In. apply filter_In. Qed.

Lemma filter_sorted f l : sorted_keys l → sorted_keys (List.filter f l).
Proof.
  unfold sorted_keys. induction l as [|[k e] l IH]; simpl; [done|]. intros Hs. inversion Hs as [|? ? Hs' Hf]; subst.
  destruct (f (k, e)); [|by apply IH]. simpl. constructor; [by apply IH|].
  apply Forall_forall. intros x Hx. apply list_elem_of_fmap in Hx as ([k' e'] & -> & Hx).
  apply filter_elem in Hx as [Hx _]. rewrite Forall_forall in Hf. apply Hf.
  by apply (list_elem_of_fmap_2 fst).
Qed.

Lemma filter_length f (l : list (Z * Entry)) : (length (List.filter f l) ≤ length l)%nat.
Proof. induction l as [|x l IH]; simpl; [done|]. destruct (f x); simpl; lia. Qed.

Lemma sorted_keys_functional l k e e' : sorted_keys l → (k, e) ∈ l → (k, e') ∈ l → e = e'.
Proof.
  unfold sorted_keys. induction l as [|[k0 e0] l IH]; simpl; [by intros _ ?%not_elem_of_nil|].
  intros Hs. inversion Hs as [|? ? Hs' Hf]; subst. rewrite !elem_of_cons.
  assert (∀ x, (k0, x) ∉ l) as Hno.
  { intros x Hx. rewrite Forall_forall in Hf. specialize (Hf k0). ospecialize (Hf _); [|lia].
    by apply (list_elem_of_fmap_2 fst) in Hx. }
  intros [H1|H1] [H2|H2]; simplify_eq; try done; [by apply Hno in H2|by apply Hno in H1|by apply IH].
Qed.

(** ** Lemmas: one update *)

Lemma register_inv src seq reg w :
  world_inv w → socket_wf src → register nonce src (registry w) = Some (seq, reg) →
  world_inv (mkWorld reg (<[seq := AtHandshake]> (tasks w))).
Proof.
  intros Hw Hsrc. unfold register. destruct (LIMIT <=? _) eqn:El; [done|]. destruct (u64_max <? _) eqn:Eu; [done|].
  intros [= <- <-]. destruct_bool. destruct Hw as [H1 H2 H3 H4 H5].
  assert (Forall (λ ke : Z * Entry, fst ke < sequence (registry w) + 1) (entries (registry w))) as Hlt.
  { eapply Forall_impl; [exact H4|]. intros [k e] ?. simpl in *. lia. }
  rewrite (insert_last _ _ _ Hlt). split; simpl.
  - rewrite len_app. change (len [_]) with 1. unfold len in *. lia.
  - lia.
  - unfold sorted_keys in *. rewrite fmap_app. simpl. clear -H3 Hlt.
    induction (entries (registry w)) as [|[k e] l IH]; simpl in *; [repeat constructor|].
    inversion H3 as [|? ? H3' Hf]; inversion Hlt as [|? ? Hk Hlt']; subst. constructor; [by apply IH|].
    apply Forall_app. split; [done|]. apply Forall_singleton. exact Hk.
  - apply Forall_app. split; [|apply Forall_singleton; simpl; lia].
    eapply Forall_impl; [exact H4|]. intros [k e] ?. simpl in *. lia.
  - intros k e. rewrite elem_of_app, list_elem_of_singleton. intros [Hin|[= -> ->]].
    + rewrite lookup_insert_ne; [by apply H5|]. intros <-. rewrite Forall_forall in Hlt.
      apply Hlt in Hin. simpl in Hin. lia.
    + rewrite lookup_insert_eq. eexists. split; [done|]. split_and!; [done|done|].
      left. split_and!; [done| |done]. simpl. unfold no_target. simpl. done.
Qed.

(** An update by the task at [pc] that takes entries of its shape to the next shape. *)
Lemma task_step_inv w seq pc pc' change :
  world_inv w → tasks w !! seq = Some pc →
  (∀ e, shape pc e → shape pc' (change e) ∧ phase (metadata (change e)) = phase_at pc' ∧
        id (metadata (change e)) = id (metadata e) ∧ source (metadata (change e)) = source (metadata e) ∧
        cancel (change e) = cancel e) →
  world_inv (task_step seq change pc' w).
Proof.
  intros [H1 H2 H3 H4 H5] Hpc Hch. split; simpl.
  - unfold len in *. unfold update_entry. by rewrite length_fmap.
  - done.
  - unfold sorted_keys. by rewrite update_keys.
  - clear -H4. unfold update_entry. apply Forall_fmap. eapply Forall_impl; [exact H4|].
    intros [k e] Hk. simpl. by destruct (k =? seq).
  - intros k e Hin. apply update_elem in Hin as (e' & Hin & ->). destruct (H5 _ _ Hin) as (pc0 & Hpc0 & Hinv).
    destruct (k =? seq) eqn:E; destruct_bool.
    + subst k. rewrite lookup_insert_eq. exists pc'. split; [done|]. simplify_eq.
      destruct Hinv as (Hid & Hsrc & [(Hph & Hsh & Hc)|(Hph & Hc & Hsh)]).
      * rewrite bool_decide_eq_false_2 by (rewrite Hph; by destruct pc).
        destruct (Hch e' Hsh) as (? & ? & Hi & Hs & Hcc). split_and!; [by rewrite Hi|by rewrite Hs|].
        left. split_and!; [done|done|congruence].
      * rewrite bool_decide_eq_true_2 by done. split_and!; [done|done|]. by right.
    + rewrite lookup_insert_ne by congruence. by exists pc0.
Qed.

Lemma close_inv w i : world_inv w → world_inv (mkWorld (fst (close nonce i (registry w))) (tasks w)).
Proof.
  intros Hw. pose proof Hw as [H1 H2 H3 H4 H5]. destruct w as [reg ts]. simpl in *. unfold close.
  destruct (split_id i) as [[n seq]|]; [|done]. destruct (negb (eq_str n nonce)); [done|].
  destruct (negb _); [done|]. simpl. split; simpl.
  - unfold len in *. unfold update_entry. by rewrite length_fmap.
  - done.
  - unfold sorted_keys. by rewrite update_keys.
  - unfold update_entry. apply Forall_fmap. eapply Forall_impl; [exact H4|].
    intros [k e] Hk. simpl. by destruct (k =? seq).
  - intros k e Hin. apply update_elem in Hin as (e' & Hin & ->). destruct (H5 _ _ Hin) as (pc0 & Hpc0 & Hid & Hsrc & Hsh).
    exists pc0. split; [done|]. destruct (k =? seq); [|done]. split_and!; [done|done|]. right. split_and!; [done|done|].
    assert (∃ pc', shape pc' e') as [pc' Hsh'] by (destruct Hsh as [(? & ? & _)|(_ & _ & ?)]; eauto).
    exists pc'. by destruct pc'.
Qed.

Lemma end_inv w seq : world_inv w → world_inv (mkWorld (guard_drop seq (registry w)) (delete seq (tasks w))).
Proof.
  intros [H1 H2 H3 H4 H5]. split; simpl.
  - pose proof (filter_length (λ e, negb (fst e =? seq)) (entries (registry w))). unfold len in *. lia.
  - done.
  - by apply filter_sorted.
  - apply Forall_forall. intros x Hx. apply filter_elem in Hx as [Hx _]. rewrite Forall_forall in H4. by apply H4.
  - intros k e Hin. apply filter_elem in Hin as [Hin Hne]. simpl in Hne. destruct_bool.
    rewrite lookup_delete_ne by congruence. by apply H5.
Qed.

Lemma step_inv ok w w' : config_wf ok c → world_inv w → step w w' → world_inv w'.
Proof.
  intros Hc Hw Hs. destruct Hs as [src seq reg Hsrc Hr|seq t Hpc Ht|seq t i Hpc Ht Hi|seq Hpc|seq t sender Hpc Ht Hsd
                                  |seq i rt Hpc Hrt|seq i Hpc|seq i Hpc|seq Hpc|i|seq Hpc].
  - by eapply register_inv.
  - eapply task_step_inv; [done|done|]. intros e (Hp & _ & _ & _ & _ & Hds & Hsc). simpl.
    split_and!; try done; by exists t.
  - destruct Hpc as [Hpc|Hpc]; (eapply task_step_inv; [done|done|]); intros e (Hp & _ & _ & _ & _ & Hds & Hsc); simpl;
      unfold datagram_ok, protocol_of; destruct Hi as [-> | ->]; split_and!; try done; by exists t.
  - eapply task_step_inv; [done|done|]. intros e (Hp & _ & Hn). simpl. done.
  - eapply task_step_inv; [done|done|]. intros e (Hp & _ & Hn). simpl.
    split_and!; try done; [split; [done|by exists sender]|by exists t].
  - destruct Hrt as (t & ctx & allowed & n & Ht & Hrt). eapply route_result in Hrt as (H1 & H2 & H3); [|done|done].
    eapply task_step_inv; [done|done|]. intros e (Hp & Hi & Hd & Htg & _ & _). simpl.
    split_and!; try done; [by exists (route_target rt)|]. by exists (rule_index rt, leaf_index rt).
  - eapply task_step_inv; [done|done|]. intros e He. done.
  - eapply task_step_inv; [done|done|]. intros e He. done.
  - eapply task_step_inv; [done|done|]. intros e (Hp & Hi & [Hd1 Hd2] & _). simpl. done.
  - by apply close_inv.
  - by apply end_inv.
Qed.

Lemma reachable_inv ok w : config_wf ok c → rtc step world_init w → world_inv w.
Proof.
  intros Hc Hr. assert (world_inv world_init) as Hinit.
  { split; simpl; [done|done|constructor|constructor|by intros ? ? ?%not_elem_of_nil]. }
  induction Hr as [|a b d Hab _ IH]; [done|]. apply IH. by eapply step_inv.
Qed.

End Steps.

(** ** The served list is accepted *)

Lemma obj_get fields k :
  NoDup (keys fields) → get k (object fields) = bget (lit k) fields.
Proof.
  intros Hnd. unfold object, get.
  assert (∀ m : bmap Value, field (lit k) m = bget (lit k) m) as Hfg.
  { induction m as [|[k' v] m IH]; [done|]. unfold field in *. simpl. unfold eq_str in *.
    rewrite (bool_decide_ext (k' = lit k) (lit k = k')) by done. by destruct (bool_decide (lit k = k')). }
  rewrite Hfg. destruct (bget (lit k) fields) as [v|] eqn:E.
  - apply insert_all_get; [constructor|done|]. by apply bget_elem.
  - apply bget_None. apply bget_None in E. intros Hin. apply E. clear -Hin.
    apply list_elem_of_fmap in Hin as ([k' v] & -> & Hin). simpl.
    destruct (insert_all_wf fields [] ltac:(constructor)) as (_ & H2 & _).
    apply H2 in Hin as [Hin|Hin]; [by apply not_elem_of_nil in Hin|]. by apply (list_elem_of_fmap_2 fst) in Hin.
Qed.

Lemma obj_keys fields m k : as_object (object fields) = Some m → k ∈ keys m → k ∈ keys fields.
Proof.
  intros [= <-] Hin. apply list_elem_of_fmap in Hin as ([k' v] & -> & Hin). simpl.
  destruct (insert_all_wf fields [] ltac:(constructor)) as (_ & H2 & _).
  apply H2 in Hin as [Hin|Hin]; [by apply not_elem_of_nil in Hin|]. by apply (list_elem_of_fmap_2 fst) in Hin.
Qed.

Lemma keys_ok_object fields required optional :
  NoDup (keys fields) → forallb (λ k, is_some (bget (lit k) fields)) required = true →
  forallb (λ k, one_of k required || one_of k optional) (keys fields) = true →
  keys_ok (object fields) required optional = true.
Proof.
  intros Hnd Hreq Hall. unfold keys_ok. simpl. apply andb_true_intro. split.
  - rewrite forallb_forall in Hreq |- *. intros k Hk. specialize (Hreq k Hk).
    pose proof (obj_get fields k Hnd) as Hg. unfold object, get in Hg. unfold bcontains.
    destruct (bget (lit k) fields) as [v|] eqn:E; [|done].
    rewrite (insert_all_get fields [] (lit k) v); [done|constructor|done|by apply bget_elem].
  - rewrite forallb_forall in Hall |- *. intros k Hk. apply Hall. apply list_elem_of_In in Hk.
    apply list_elem_of_In. by eapply obj_keys.
Qed.

(** Looking a literal key up in literal fields. *)
Lemma lit_eqb a b : eq_str (lit a) (lit b) = String.eqb a b.
Proof.
  destruct (String.eqb_spec a b) as [-> |Hne]; [apply eq_str_refl|]. apply eq_str_false.
  intros He. by apply lit_inj in He.
Qed.

Lemma bget_lit k k' (v : Value) l :
  bget (lit k) ((lit k', v) :: l) = if String.eqb k k' then Some v else bget (lit k) l.
Proof. simpl. by rewrite lit_eqb. Qed.

Lemma bget_opt {A} k k' (f : A → Value) o l :
  bget (lit k) (opt k' f o ++ l) =
  if String.eqb k k' then (match o with Some a => Some (f a) | None => bget (lit k) l end) else bget (lit k) l.
Proof. destruct o as [a|]; simpl; [by rewrite lit_eqb|by destruct (String.eqb k k')]. Qed.

Lemma keys_opt {A} k (f : A → Value) o : keys (opt k f o) `sublist_of` [lit k].
Proof. destruct o; simpl; repeat constructor. Qed.

Definition view_fields (m : Metadata) (rule : option RuleView) (px : option ProxyView) : list (str * Value) :=
  [(lit "id", VString (id m)); (lit "source", address_json (source m));
   (lit "protocol", text (protocol_name (protocol m))); (lit "phase", text (phase_name (phase m)))]
  ++ opt "inbound" (λ i, text (inbound_name i)) (inbound m)
  ++ opt "target" target_json (target m)
  ++ opt "routed_target" target_json (routed_target m)
  ++ opt "datagram_source" address_json (datagram_source m)
  ++ opt "target_scope" VString (target_scope m)
  ++ opt "rule" rule_view_json rule
  ++ opt "proxy" proxy_view_json px ++ [].

Definition view_keys : list str :=
  lit <$> ["id"; "source"; "protocol"; "phase"; "inbound"; "target"; "routed_target"; "datagram_source";
           "target_scope"; "rule"; "proxy"]%string.

Lemma view_fields_keys m r p : keys (view_fields m r p) `sublist_of` view_keys.
Proof.
  unfold view_fields, keys. rewrite !fmap_app. cbn [fmap list_fmap].
  change view_keys with
    ([lit "id"; lit "source"; lit "protocol"; lit "phase"] ++ [lit "inbound"] ++ [lit "target"]
     ++ [lit "routed_target"] ++ [lit "datagram_source"] ++ [lit "target_scope"] ++ [lit "rule"] ++ [lit "proxy"] ++ []).
  repeat (apply sublist_app; [first [done | apply keys_opt]|]). done.
Qed.

Lemma view_fields_nodup m r p : NoDup (keys (view_fields m r p)).
Proof.
  eapply sublist_NoDup; [|apply view_fields_keys]. apply (bool_decide_unpack _). vm_compute. exact I.
Qed.

Lemma view_get m r p k : get k (view_json m r p) = bget (lit k) (view_fields m r p).
Proof.
  rewrite <- obj_get by apply view_fields_nodup. unfold view_json, view_fields. by rewrite app_nil_r.
Qed.

Ltac view_lookup :=
  rewrite view_get; unfold view_fields; cbn [app]; rewrite ?bget_lit, ?bget_opt; reflexivity.

(** The fields a client reads back. *)
Lemma view_lookups m r p :
  let e := view_json m r p in
  get "id" e = Some (VString (id m)) ∧ get "source" e = Some (address_json (source m)) ∧
  get "protocol" e = Some (text (protocol_name (protocol m))) ∧
  get "phase" e = Some (text (phase_name (phase m))) ∧
  get "inbound" e = (λ i, text (inbound_name i)) <$> inbound m ∧
  get "target" e = target_json <$> target m ∧ get "routed_target" e = target_json <$> routed_target m ∧
  get "datagram_source" e = address_json <$> datagram_source m ∧
  get "target_scope" e = VString <$> target_scope m ∧
  get "rule" e = rule_view_json <$> r ∧ get "proxy" e = proxy_view_json <$> p.
Proof. cbv zeta. split_and!; view_lookup. Qed.

Lemma view_keys_ok m r p :
  keys_ok (view_json m r p) ["id"; "source"; "protocol"; "phase"]
    ["inbound"; "target"; "routed_target"; "rule"; "proxy"; "datagram_source"; "target_scope"] = true.
Proof.
  assert (view_json m r p = object (view_fields m r p)) as ->.
  { unfold view_json, view_fields. by rewrite app_nil_r. }
  apply keys_ok_object; [apply view_fields_nodup| |].
  - unfold view_fields. cbn [app forallb]. rewrite !bget_lit. done.
  - apply forallb_forall. intros k Hk. apply list_elem_of_In in Hk.
    eapply sublist_subseteq in Hk; [|apply view_fields_keys].
    apply list_elem_of_fmap in Hk as (n & -> & Hn).
    repeat (apply elem_of_cons in Hn as [-> |Hn]; [vm_compute; reflexivity|]). by apply not_elem_of_nil in Hn.
Qed.

(** ** Identifiers *)

(** What [fsutil::nonce] produces. *)
Definition nonce_ok (nonce : str) : Prop := len nonce = 32 ∧ forallb is_lower_hex nonce = true.

Lemma split_connection_id nonce seq : nonce_ok nonce → 1 ≤ seq ≤ u64_max →
  split_id (connection_id nonce seq) = Some (nonce, seq).
Proof.
  intros [Hl Hh] Hs. destruct (print_dec_spec seq ltac:(lia)) as (Hd & Hne & Hv & Hz & _).
  unfold split_id, connection_id. change (lit "-") with [45]. cbn [app].
  rewrite (proj2 (rsplit_once_Some 45 _ nonce (print_dec seq))).
  - rewrite Hl, Hh, Hd. simpl. destruct (starts_with (lit "0") (print_dec seq)) eqn:E.
    + apply starts_with_true in E as [r Hr]. exfalso. apply Hz; [lia|]. by rewrite Hr.
    + rewrite parse_print_dec by lia. done.
  - split; [done|]. intros Hin. rewrite forallb_forall in Hd.
    apply list_elem_of_In, Hd in Hin. done.
Qed.

Lemma connection_id_inj nonce a b : nonce_ok nonce → 1 ≤ a ≤ u64_max → 1 ≤ b ≤ u64_max →
  connection_id nonce a = connection_id nonce b → a = b.
Proof.
  intros Hn Ha Hb He. pose proof (split_connection_id nonce a Hn Ha) as H1.
  rewrite He, split_connection_id in H1 by done. congruence.
Qed.

(** ** One entry *)

Lemma valid_target_json t : target_wf t → valid_target (target_json t) = true.
Proof.
  intros (Hne & Hl & Hp). unfold valid_target, target_json, index.
  rewrite !obj_get by (apply (bool_decide_unpack _); vm_compute; exact I).
  rewrite keys_ok_object; [|apply (bool_decide_unpack _); vm_compute; exact I|done|done].
  rewrite !bget_lit. simpl. rewrite bool_decide_eq_false_2 by done. simpl. blia.
Qed.

Lemma valid_address_json a : socket_wf a → valid_address (address_json a) = true.
Proof. intros [H1 H2]. unfold valid_address. simpl. by rewrite parse_print_socket_addr. Qed.

Section Served.
Context `{IpNetLib} (ok : str → bool) (c : Config) (nonce : str).
Hypothesis Hc : config_wf ok c.
Hypothesis Hnonce : nonce_ok nonce.

Lemma views_in_range r : route_in_range c r →
  ∃ rv pv, rule_view c (fst r) = Some rv ∧ proxy_view c (snd r) = Some pv ∧
    rv_index rv = fst r ∧ Z.of_nat (fst r) < 262144 ∧ ∃ p, xv_kind pv = kind_name (p_kind p).
Proof.
  intros [H1 H2]. destruct (lookup_lt_is_Some_2 _ _ H1) as [rule Hr]. destruct (lookup_lt_is_Some_2 _ _ H2) as [p Hp].
  pose proof (wf_rules _ _ Hc) as Hf. rewrite Forall_lookup in Hf. destruct (Hf _ _ Hr) as [_ Hlt].
  destruct (node_name_total c (proxy rule) Hlt) as [name Hn].
  unfold rule_view, proxy_view. rewrite Hr, Hn, Hp. do 2 eexists. split_and!; [done|done|done| |by exists p].
  pose proof (wf_rule_count _ _ Hc) as Hl. unfold len, MAX_RULES in Hl. lia.
Qed.

Lemma valid_rule_json rv : Z.of_nat (rv_index rv) < 262144 →
  let v := rule_view_json rv in
  keys_ok v ["index"; "type"; "payload"; "target"] [] && is_some_and (as_u64 (index "index" v)) (λ i, i <? 262144)
  && is_some (as_str (index "type" v)) && is_some (as_str (index "payload" v))
  && is_some (as_str (index "target" v)) = true.
Proof.
  intros Hi. cbv zeta. unfold rule_view_json, index.
  rewrite !obj_get by (apply (bool_decide_unpack _); vm_compute; exact I).
  rewrite keys_ok_object; [|apply (bool_decide_unpack _); vm_compute; exact I|done|done].
  rewrite !bget_lit. simpl. blia.
Qed.

Lemma valid_proxy_json pv : (∃ p, xv_kind pv = kind_name (p_kind p)) →
  let v := proxy_view_json pv in
  keys_ok v ["name"; "type"] [] && is_some (as_str (index "name" v))
  && str_in (index "type" v) ["Direct"; "Reject"; "Shadowsocks"; "Trojan"; "AnyTLS"] = true.
Proof.
  intros [p Hp]. cbv zeta. unfold proxy_view_json, index.
  rewrite !obj_get by (apply (bool_decide_unpack _); vm_compute; exact I).
  rewrite keys_ok_object; [|apply (bool_decide_unpack _); vm_compute; exact I|done|done].
  rewrite !bget_lit. rewrite Hp. by destruct (p_kind p).
Qed.

Lemma valid_identity_view seq m r p : id m = connection_id nonce seq → 1 ≤ seq ≤ u64_max →
  valid_identity nonce (view_json m r p) = true.
Proof.
  intros Hid Hs. unfold valid_identity, index. rewrite view_keys_ok.
  destruct (view_lookups m r p) as (-> & _). simpl. rewrite Hid, split_connection_id by done. simpl.
  apply eq_str_refl.
Qed.

(** The three checks on the contents, for an entry of some shape that is in the phase of
    that shape or closing. *)
Lemma valid_contents pc e rv pv :
  shape c pc e → phase (metadata e) = phase_at pc ∨ phase (metadata e) = Closing →
  socket_wf (source (metadata e)) →
  match route e with
  | None => rv = None ∧ pv = None
  | Some r => ∃ a b, rv = Some a ∧ pv = Some b ∧ Z.of_nat (rv_index a) < 262144 ∧
                     ∃ p, xv_kind b = kind_name (p_kind p)
  end →
  valid_scalars (view_json (metadata e) rv pv) = true ∧ valid_views (view_json (metadata e) rv pv) = true ∧
  valid_phase (view_json (metadata e) rv pv) = true.
Proof.
  intros Hsh Hph Hsrc Hr. destruct (view_lookups (metadata e) rv pv) as (_ & H2 & H3 & H4 & H5 & H6 & H7 & H8 & H9 & H10 & H11).
  unfold valid_scalars, valid_views, valid_phase, when, has, index.
  rewrite H2, H3, H4, H5, H6, H7, H8, H9, H10, H11. clear H2 H3 H4 H5 H6 H7 H8 H9 H10 H11.
  cbn [default from_option Datatypes.id]. rewrite (valid_address_json _ Hsrc).
  assert (∀ i, datagram_ok i (metadata e) →
    (i = Socks5Udp ∧ ∃ a, target_scope (metadata e) = Some (lit "first_datagram") ∧ datagram_source (metadata e) = Some a ∧ valid_address (address_json a) = true)
    ∨ (i ≠ Socks5Udp ∧ target_scope (metadata e) = None ∧ datagram_source (metadata e) = None)) as Hdg.
  { intros i. unfold datagram_ok. case_bool_decide as Hi; [|naive_solver]. intros (? & a & ? & ?). left.
    split; [done|]. exists a. by split_and!; [| |apply valid_address_json]. }
  destruct pc as [|i|i|i|i| |]; cbn [shape] in Hsh; unfold no_target in Hsh.
  1, 6, 7: destruct Hsh as (Hp & Hi & Ht & Hrt & Hro & Hds & Hts); rewrite Hro in Hr; destruct Hr as [-> ->];
    rewrite Hp, Hi, Ht, Hrt, Hds, Hts; destruct Hph as [-> | ->]; done.
  { destruct Hsh as (Hp & Hi & Hd & (t & Ht & Htw) & Hrt & Hro). rewrite Hro in Hr. destruct Hr as [-> ->].
    rewrite Hp, Hi, Ht, Hrt. cbn [fmap option_fmap option_map]. rewrite (valid_target_json t Htw). unfold protocol_of.
    destruct (Hdg _ Hd) as [(-> & a & -> & -> & Ha)|(Hne & -> & ->)]; cbn [fmap option_fmap option_map]; rewrite ?Ha.
    + destruct Hph as [-> | ->]; done.
    + rewrite bool_decide_eq_false_2 by done. destruct i; try done; destruct Hph as [-> | ->]; done. }
  all: destruct Hsh as (Hp & Hi & Hd & (t & Ht & Htw) & (t' & Hrt & Htw') & r & Hro & _); rewrite Hro in Hr;
    destruct Hr as (a & b & -> & -> & Ha & Hb);
    pose proof (valid_rule_json a Ha) as Hra; pose proof (valid_proxy_json b Hb) as Hpb; cbv zeta in Hra, Hpb; unfold index in Hra, Hpb;
    rewrite Hp, Hi, Ht, Hrt; cbn [fmap option_fmap option_map];
    rewrite Hra, Hpb, (valid_target_json t Htw), (valid_target_json t' Htw'); unfold protocol_of; clear Hra Hpb;
    destruct (Hdg _ Hd) as [(-> & ad & -> & -> & Had)|(Hne & -> & ->)]; cbn [fmap option_fmap option_map]; rewrite ?Had;
    [by destruct Hph as [-> | ->]|].
  all: rewrite bool_decide_eq_false_2 by done; destruct i; try done; by destruct Hph as [-> | ->].
Qed.

Lemma entry_served seq pc e : 1 ≤ seq ≤ u64_max → entry_inv c nonce seq pc e →
  ∃ v, entry_json c e = Some v ∧ valid_entry nonce v = true ∧
       index "id" v = VString (connection_id nonce seq).
Proof.
  intros Hs (Hid & Hsrc & Hsh).
  assert (∃ pc', shape c pc' e ∧ (phase (metadata e) = phase_at pc' ∨ phase (metadata e) = Closing)) as (pc' & Hpc & Hph)
    by (destruct Hsh as [(? & ? & _)|(? & _ & pc' & ?)]; eauto).
  assert (∃ rv pv, entry_json c e = Some (view_json (metadata e) rv pv) ∧
    match route e with
    | None => rv = None ∧ pv = None
    | Some r => ∃ a b, rv = Some a ∧ pv = Some b ∧ Z.of_nat (rv_index a) < 262144 ∧ ∃ p, xv_kind b = kind_name (p_kind p)
    end) as (rv & pv & Hj & Hr).
  { unfold entry_json. destruct (route e) as [[r leaf]|] eqn:Er; [|by exists None, None].
    assert (route_in_range c (r, leaf)) as Hrange.
    { destruct pc'; simpl in Hpc; unfold no_target in Hpc; naive_solver. }
    destruct (views_in_range _ Hrange) as (rv & pv & H1 & H2 & H3 & H4 & H5). simpl in *. rewrite H1, H2.
    exists (Some rv), (Some pv). split; [done|]. exists rv, pv. rewrite H3. done. }
  eexists. split; [exact Hj|]. split.
  - destruct (valid_contents pc' e rv pv) as (H1 & H2 & H3); [done..|]. unfold valid_entry.
    rewrite (valid_identity_view seq), H1, H2, H3 by done. done.
  - unfold index. destruct (view_lookups (metadata e) rv pv) as (-> & _). simpl. by rewrite Hid.
Qed.

(** The whole list, with the identifiers seen so far. *)
Lemma entries_served l n : 0 ≤ n ≤ u64_max →
  sorted_keys l → Forall (λ ke, 1 ≤ fst ke ≤ n) l → (∀ seq e, (seq, e) ∈ l → ∃ pc, entry_inv c nonce seq pc e) →
  ∃ vs, mapM (λ ke, entry_json c (snd ke)) l = Some vs ∧ length vs = length l ∧
    ∀ ids, (∀ seq e, (seq, e) ∈ l → connection_id nonce seq ∉ ids) → valid_entries nonce vs ids = true.
Proof.
  intros Hn. induction l as [|[k e] l IH]; intros Hs Hr He; [by exists []|].
  unfold sorted_keys in Hs. simpl in Hs. inversion Hs as [|? ? Hs' Hf]; inversion Hr as [|? ? Hk Hr']; subst. simpl in Hk.
  destruct IH as (vs & Hvs & Hl & Hval); [done|done| |].
  { intros seq e' Hin. apply (He seq e'). by constructor. }
  destruct (He k e ltac:(constructor)) as [pc Hinv].
  destruct (entry_served k pc e) as (v & Hv & Hval1 & Hid); [lia|done|].
  exists (v :: vs). split; [simpl; rewrite Hv; simpl; by rewrite Hvs|]. split; [simpl; lia|].
  intros ids Hids. simpl. rewrite Hval1, Hid. simpl.
  rewrite bool_decide_eq_false_2 by (eapply Hids; constructor). simpl. apply Hval.
  intros seq e' Hin. rewrite elem_of_cons. intros [Heq|Hbad].
  - apply connection_id_inj in Heq; [|done| |lia].
    + subst seq. rewrite Forall_forall in Hf. specialize (Hf k). ospecialize (Hf _); [|lia].
      by apply (list_elem_of_fmap_2 fst) in Hin.
    + rewrite Forall_forall in Hr'. apply Hr' in Hin. simpl in Hin. lia.
  - revert Hbad. apply (Hids seq e'). by constructor.
Qed.

End Served.

(** ** Properties *)

Section Properties.
Context `{IpNetLib} `{Resolver}.

(** C15: every list of connections the API can serve is accepted by the client's validator,
    in every interleaving of accepted connections, SOCKS, HTTP and UDP tasks, close requests
    and task ends: at most 1024 entries with distinct identifiers of this instance, in
    which phase, protocol, target, route and datagram metadata agree. *)
Theorem served_list_accepted ok c nonce w :
  config_wf ok c → nonce_ok nonce → rtc (step c nonce) world_init w →
  ∃ v, write_list c (registry w) = Some v ∧ valid_response v nonce None = true.
Proof.
  intros Hc Hn Hr. apply (reachable_inv c nonce ok) in Hr as [H1 H2 H3 H4 H5]; [|done].
  destruct (entries_served ok c nonce Hc Hn (entries (registry w)) (sequence (registry w))) as (vs & Hvs & Hl & Hval);
    [done|done|done|naive_solver|].
  unfold write_list. rewrite Hvs. eexists. split; [done|]. unfold valid_response, index.
  rewrite keys_ok_object; [|apply (bool_decide_unpack _); vm_compute; exact I|done|done].
  rewrite obj_get by (apply (bool_decide_unpack _); vm_compute; exact I). simpl.
  apply andb_true_intro. split; [unfold len in *; rewrite Hl; by apply Z.leb_le|].
  apply Hval. intros ? ? _. apply not_elem_of_nil.
Qed.

(** A close request is final: once an entry is closing its cancellation is signalled and
    no later step of any task changes it, until its task ends and it is removed. *)
Theorem closing_is_sticky c nonce w w' seq e :
  sorted_keys (entries (registry w)) → Forall (λ ke, fst ke ≤ sequence (registry w)) (entries (registry w)) →
  (seq, e) ∈ entries (registry w) → phase (metadata e) = Closing → cancel e = true → step c nonce w w' →
  (seq, e) ∈ entries (registry w') ∨ entry_of (registry w') seq = None.
Proof.
  intros Hsort Hle Hin Hph Hcan Hs.
  assert (∀ f, f e = e → (seq, e) ∈ update_entry f seq (entries (registry w))) as Hself.
  { intros f Hf. unfold update_entry. apply list_elem_of_fmap. exists (seq, e). simpl. rewrite Z.eqb_refl. by rewrite Hf. }
  assert (∀ f k, (k = seq → f e = e) → (seq, e) ∈ update_entry f k (entries (registry w))) as Hupd.
  { intros f k Hk. destruct (decide (k = seq)) as [-> |Hne]; [by apply Hself, Hk|].
    unfold update_entry. apply list_elem_of_fmap. exists (seq, e). simpl. by rewrite (proj2 (Z.eqb_neq seq k)) by done. }
  assert (∀ k change, (seq, e) ∈ entries (guard_update k change (registry w))) as Hguard.
  { intros k change. apply Hupd. intros _. by rewrite bool_decide_eq_true_2. }
  destruct Hs; try (left; apply Hguard).
  - left. unfold register in *. destruct (LIMIT <=? _); [done|]. destruct (u64_max <? _); [done|]. simplify_eq. simpl.
    rewrite insert_last; [apply elem_of_app; by left|].
    eapply Forall_impl; [exact Hle|]. intros [k e'] ?. simpl in *. lia.
  - left. unfold close. simpl. destruct (split_id i) as [[n k]|]; [|done]. destruct (negb (eq_str n nonce)); [done|].
    destruct (negb _); [done|]. simpl. apply Hupd. intros _. destruct e as [m r cn]. simpl in *. subst cn.
    f_equal. destruct m. simpl in *. by subst.
  - simpl. destruct (decide (seq0 = seq)) as [-> |Hne].
    + right. unfold entry_of. simpl. destruct (List.find _ _) as [[k e']|] eqn:E; [|done].
      apply find_some in E as [Hf Hk]. apply filter_In in Hf as [_ Hf]. simpl in *. blia.
    + left. apply filter_elem. split; [done|]. simpl. by rewrite (proj2 (Z.eqb_neq seq seq0)) by done.
Qed.

End Properties.

(** ** Witnesses *)

Definition demo_nonce : str := replicate 32 97.
Definition demo_peer : SocketAddr := mkSocketAddr (V4 127 0 0 1) 50000.
Definition demo_registry : State := mkState 1 [(1, fresh_entry demo_nonce 1 demo_peer)].
Definition demo_accepted : World := mkWorld demo_registry {[ 1 := AtHandshake ]}.

Lemma demo_accept : @step demo_nets demo_resolver demo_routing demo_nonce world_init demo_accepted.
Proof.
  apply (step_accept demo_routing demo_nonce world_init demo_peer 1 demo_registry).
  - split; simpl; [repeat split; unfold octet; lia|lia].
  - vm_compute. reflexivity.
Qed.

(** One accepted connection, and then the task that parsed a SOCKS request. *)
Lemma served_list_accepted_witness :
  ∃ v, write_list demo_routing
         (registry (task_step 1 (guard_target demo_target None Socks5Connect) (AtTarget Socks5Connect) demo_accepted))
       = Some v ∧ valid_response v demo_nonce None = true.
Proof.
  apply (@served_list_accepted demo_nets demo_resolver (λ _, true) demo_routing demo_nonce).
  - exact demo_routing_wf.
  - split; reflexivity.
  - eapply rtc_l; [exact demo_accept|]. apply rtc_once.
    apply step_socks_target; [reflexivity|]. unfold target_wf, len. simpl. split_and!; [discriminate|lia|lia|lia].
Defined.

Definition demo_closing : Entry :=
  mkEntry (set_phase Closing (metadata (fresh_entry demo_nonce 1 demo_peer))) None true.

Lemma closing_is_sticky_witness :
  (1, demo_closing) ∈ entries (registry (task_step 1 (guard_phase Active) (AtActive HttpConnect)
                         (mkWorld (mkState 1 [(1, demo_closing)]) {[ 1 := AtRouted HttpConnect ]}))) ∨
  entry_of (registry (task_step 1 (guard_phase Active) (AtActive HttpConnect)
                         (mkWorld (mkState 1 [(1, demo_closing)]) {[ 1 := AtRouted HttpConnect ]}))) 1 = None.
Proof.
  apply (@closing_is_sticky demo_nets demo_resolver demo_routing demo_nonce
           (mkWorld (mkState 1 [(1, demo_closing)]) {[ 1 := AtRouted HttpConnect ]})).
  - repeat constructor.
  - repeat constructor; simpl; lia.
  - constructor.
  - reflexivity.
  - reflexivity.
  - apply step_active. reflexivity.
Defined.

End Lifecycle.
