(* ===== verification/Probes.v ===== *)
(** * Probe tickets (src/src/connection/probes.rs)

    A client reserves a one-time ticket for a target; the connection that presents it claims
    it before dialling, and the first route it takes is recorded. Tickets expire after two
    minutes. Instants are nanoseconds of the monotonic clock. *)
From S2P Require Import Prelude Net Target BTree Route Connection Lifecycle.

Module Probes.
Import Registry Lifecycle.

Definition LIMIT : Z := 256.
Definition RETENTION : Z := 120 * 1000000000.

Inductive ProbeError :=
| Invalid | Instance | Missing | Consumed | TargetMismatch | Quota | Unavailable | ResponseTooLarge.

Record Claim := mkClaim { claim_id : str; request_index : Z; claim_route : option (nat * nat) }.
Record Ticket := mkTicket { reserved : Z; ticket_target : Target; claim : option Claim }.
Record Tickets := mkTickets { issued : Z; tickets : bmap Ticket }.

Definition init : Tickets := mkTickets 0 [].

(** ** Operations *)

(** [now.duration_since(t.reserved) < RETENTION], saturating. *)
Definition alive (now : Z) (t : Ticket) : bool := Z.max 0 (now - reserved t) <? RETENTION.

Definition expire (now : Z) (s : Tickets) : Tickets :=
  mkTickets (issued s) (List.filter (λ kt, alive now (snd kt)) (tickets s)).

Definition normalized (t : Target) : result ProbeError Target :=
  let host :=
    match parse_ip (host t) with
    | Some ip => print_ip ip
    | None => to_ascii_lowercase (host t)
    end in
  map_err (λ _, Invalid) (target_new host (port t)).

Definition hex32 (s : str) : bool := (len s =? 32) && forallb is_lower_hex s.

Definition validate_probe_token (nonce token : str) : result ProbeError unit :=
  let! '(n, random) := ok_or (split_once 46 token) Invalid in
  if negb (hex32 n) || negb (hex32 random) then Err Invalid
  else if negb (eq_str n nonce) then Err Instance
  else Ok tt.

(** [{:02x}] of each byte, and [{:08x}] of the counter. *)
Definition hex_bytes (random : list Z) : str := mjoin ((λ b, pad_left 2 48 (print_hex b)) <$> random).
Definition hex_counter (sequence : Z) : str := pad_left 8 48 (print_hex sequence).

Definition probe_token (nonce : str) (random : list Z) (sequence : Z) : str :=
  nonce ++ lit "." ++ hex_bytes random ++ hex_counter sequence.

(** [reserve_probe]: [now] and [later] are its two readings of the clock, [random] the 12
    bytes of the system's generator when it works. *)
Definition reserve_probe (nonce : str) (now later : Z) (random : option (list Z)) (t : Target) (s : Tickets)
    : Tickets * result ProbeError str :=
  let s := expire now s in
  match normalized t with
  | Err e => (s, Err e)
  | Ok t =>
      if LIMIT <=? len (tickets s) then (s, Err Quota)
      else if u32_max <? issued s + 1 then (s, Err Quota)
      else
        match random with
        | None => (s, Err Unavailable)
        | Some random =>
            let sequence := issued s + 1 in
            let token := probe_token nonce random sequence in
            (mkTickets sequence (binsert token (mkTicket later t None) (tickets s)), Ok token)
        end
  end.

Definition remove (token : str) (m : bmap Ticket) : bmap Ticket :=
  List.filter (λ kt, negb (eq_str (fst kt) token)) m.

Definition release_probe (nonce : str) (now : Z) (token : str) (s : Tickets) : Tickets * result ProbeError unit :=
  let s := expire now s in
  match validate_probe_token nonce token with
  | Err e => (s, Err e)
  | Ok _ =>
      match bget token (tickets s) with
      | None => (s, Err Missing)
      | Some _ => (mkTickets (issued s) (remove token (tickets s)), Ok tt)
      end
  end.

(** What [write_probe] reports of a ticket: its state and the routed proxy. *)
Inductive ProbeState := Reserved | Claimed | Routed.

Definition probe_state (t : Ticket) : ProbeState :=
  match claim t with
  | None => Reserved
  | Some c => match claim_route c with Some _ => Routed | None => Claimed end
  end.

Definition read_probe (nonce : str) (now : Z) (token : str) (s : Tickets) : Tickets * result ProbeError Ticket :=
  let s := expire now s in
  match validate_probe_token nonce token with
  | Err e => (s, Err e)
  | Ok _ => (s, ok_or (bget token (tickets s)) Missing)
  end.

Definition set_ticket (token : str) (t : Ticket) (s : Tickets) : Tickets :=
  mkTickets (issued s) (binsert token t (tickets s)).

(** [Guard::claim_probe] of the connection with the given sequence number. *)
Definition claim_probe (nonce : str) (now : Z) (seq : Z) (token : str) (t : Target) (index : Z) (s : Tickets)
    : Tickets * result ProbeError unit :=
  let s := expire now s in
  match validate_probe_token nonce token with
  | Err e => (s, Err e)
  | Ok _ =>
      match normalized t with
      | Err e => (s, Err e)
      | Ok t =>
          match bget token (tickets s) with
          | None => (s, Err Missing)
          | Some ticket =>
              if is_some (claim ticket) then (s, Err Consumed)
              else if negb (bool_decide (ticket_target ticket = t)) then (s, Err TargetMismatch)
              else
                (set_ticket token
                   (mkTicket (reserved ticket) (ticket_target ticket)
                      (Some (mkClaim (connection_id nonce seq) index None))) s, Ok tt)
          end
      end
  end.

(** [Probe::routed] *)
Definition probe_routed (now : Z) (token : str) (rt : Route) (s : Tickets) : Tickets :=
  let s := expire now s in
  match bget token (tickets s) with
  | Some (mkTicket r tg (Some (mkClaim i n None))) =>
      set_ticket token (mkTicket r tg (Some (mkClaim i n (Some (rule_index rt, leaf_index rt))))) s
  | _ => s
  end.

(** ** Histories *)

Inductive Op :=
| OpReserve (now later : Z) (random : option (list Z)) (t : Target)
| OpRelease (now : Z) (token : str)
| OpRead (now : Z) (token : str)
| OpClaim (now seq : Z) (token : str) (t : Target) (index : Z)
| OpRouted (now : Z) (token : str) (rt : Route).

(** What a successful operation tells: an issued or a claimed token. *)
Inductive Event := Issued (token : str) | ClaimedToken (token : str).

Definition apply_op (nonce : str) (o : Op) (s : Tickets) : Tickets * list Event :=
  match o with
  | OpReserve now later random t =>
      let '(s, r) := reserve_probe nonce now later random t s in
      (s, match r with Ok token => [Issued token] | Err _ => [] end)
  | OpRelease now token => (fst (release_probe nonce now token s), [])
  | OpRead now token => (fst (read_probe nonce now token s), [])
  | OpClaim now seq token t index =>
      let '(s, r) := claim_probe nonce now seq token t index s in
      (s, match r with Ok _ => [ClaimedToken token] | Err _ => [] end)
  | OpRouted now token rt => (probe_routed now token rt s, [])
  end.

(** The events of a history, latest first. *)
Fixpoint run (nonce : str) (ops : list Op) (s : Tickets) (events : list Event) : Tickets * list Event :=
  match ops with
  | [] => (s, events)
  | o :: ops => let '(s, es) := apply_op nonce o s in run nonce ops s (es ++ events)
  end.

(** The generator delivers 12 bytes. *)
Definition op_ok (o : Op) : Prop :=
  match o with
  | OpReserve _ _ (Some random) _ => length random = 12%nat ∧ Forall is_byte random
  | _ => True
  end.

(** ** Lemmas: tokens *)

Lemma hex_counter_spec n : 0 ≤ n ≤ u32_max →
  length (hex_counter n) = 8%nat ∧ radix_value 16 0 (hex_counter n) = n.
Proof.
  intros Hn. unfold hex_counter. split.
  - apply pad_left_length. apply hex_go_length; [lia|]. unfold u32_max in Hn. simpl. lia.
  - rewrite pad_left_value. apply print_hex_value. lia.
Qed.

Lemma hex_bytes_length random : Forall is_byte random → length (hex_bytes random) = (2 * length random)%nat.
Proof.
  unfold hex_bytes. induction 1 as [|b l Hb _ IH]; [done|]. rewrite fmap_cons.
  change (mjoin (?x :: ?xs)) with (x ++ mjoin xs). rewrite length_app, IH, pad_left_length; [simpl; lia|].
  apply hex_go_length; [lia|]. unfold is_byte in Hb. simpl. lia.
Qed.

(** The counter makes tokens unique, whatever the generator delivers. *)
Lemma probe_token_inj nonce r r' n n' :
  length r = 12%nat → length r' = 12%nat → Forall is_byte r → Forall is_byte r' →
  0 ≤ n ≤ u32_max → 0 ≤ n' ≤ u32_max → probe_token nonce r n = probe_token nonce r' n' → n = n'.
Proof.
  intros Hl Hl' Hb Hb' Hn Hn' He. unfold probe_token in He. apply app_inv_head in He. apply app_inv_head in He.
  assert (hex_counter n = hex_counter n') as Hc.
  { eapply app_inj_1; [|exact He]. rewrite !hex_bytes_length by done. lia. }
  destruct (hex_counter_spec n Hn) as [_ <-]. destruct (hex_counter_spec n' Hn') as [_ <-]. by rewrite Hc.
Qed.

(** ** Lemmas: the map *)

Lemma filter_bmap_wf {A} f (m : bmap A) : bmap_wf m → bmap_wf (List.filter f m).
Proof.
  unfold bmap_wf. induction m as [|[k a] m IH]; simpl; [done|]. intros Hs. inversion Hs as [|? ? Hs' Hf]; subst.
  destruct (f (k, a)); [|by apply IH]. simpl. constructor; [by apply IH|].
  apply Forall_forall. intros x Hx. apply list_elem_of_fmap in Hx as ([k' a'] & -> & Hx).
  apply list_elem_of_In, filter_In in Hx as [Hx _]. rewrite Forall_forall in Hf. apply Hf.
  apply list_elem_of_In in Hx. by apply (list_elem_of_fmap_2 fst) in Hx.
Qed.

Lemma bget_filter {A} f (m : bmap A) k : bmap_wf m →
  bget k (List.filter f m) =
  match bget k m with Some a => if f (k, a) then Some a else None | None => None end.
Proof.
  unfold bmap_wf. induction m as [|[k0 a0] m IH]; simpl; [done|]. intros Hs. inversion Hs as [|? ? Hs' Hf]; subst.
  specialize (IH Hs'). destruct (eq_str k k0) eqn:E.
  - apply eq_str_true in E as ->. destruct (f (k0, a0)); simpl; [by rewrite eq_str_refl|].
    rewrite IH. rewrite (proj2 (bget_None k0 m)); [done|]. intros Hin.
    rewrite Forall_forall in Hf. apply Hf in Hin. by rewrite str_ltb_irrefl in Hin.
  - destruct (f (k0, a0)); simpl; [rewrite E|]; done.
Qed.

Lemma filter_len {A} f (m : list A) : len (List.filter f m) ≤ len m.
Proof. unfold len. induction m as [|x m IH]; simpl; [done|]. destruct (f x); simpl; lia. Qed.

Lemma expire_get now s k : bmap_wf (tickets s) →
  bget k (tickets (expire now s)) =
  match bget k (tickets s) with Some t => if alive now t then Some t else None | None => None end.
Proof. intros Hw. unfold expire. simpl. by rewrite bget_filter. Qed.

Lemma binsert_len {A} k (a : A) m : len (binsert k a m) ≤ 1 + len m.
Proof.
  unfold len. induction m as [|[k' a'] m IH]; simpl; [lia|].
  destruct (eq_str k k'); [|destruct (str_ltb k k')]; simpl in *; lia.
Qed.

Lemma binsert_len_present {A} k (a : A) m : is_Some (bget k m) → bmap_wf m → len (binsert k a m) = len m.
Proof.
  unfold bmap_wf. intros Hk. unfold len. induction m as [|[k' a'] m IH]; simpl; [by destruct Hk|]. intros Hs.
  inversion Hs as [|? ? Hs' Hf]; subst. simpl in Hk. destruct (eq_str k k') eqn:E; [done|].
  destruct (str_ltb k k') eqn:El; simpl.
  - exfalso. destruct Hk as [x Hx]. apply bget_elem in Hx. apply (list_elem_of_fmap_2 fst) in Hx.
    rewrite Forall_forall in Hf. apply Hf in Hx. simpl in Hx. pose proof (str_ltb_trans _ _ _ El Hx) as Hbad.
    by rewrite str_ltb_irrefl in Hbad.
  - specialize (IH Hk Hs'). lia.
Qed.

(** ** The invariant of a history *)

Definition issued_tokens (es : list Event) : list str :=
  omap (λ e, match e with Issued t => Some t | ClaimedToken _ => None end) es.
Definition claimed_tokens (es : list Event) : list str :=
  omap (λ e, match e with ClaimedToken t => Some t | Issued _ => None end) es.

Record history_inv (nonce : str) (s : Tickets) (es : list Event) : Prop := {
  inv_wf : bmap_wf (tickets s);
  inv_count : len (tickets s) ≤ LIMIT;
  inv_issued : 0 ≤ issued s ≤ u32_max;
  inv_tokens : ∀ tok, tok ∈ issued_tokens es → ∃ r n, tok = probe_token nonce r n ∧ length r = 12%nat ∧
                 Forall is_byte r ∧ 1 ≤ n ≤ issued s;
  inv_fresh : NoDup (issued_tokens es);
  inv_keys : ∀ tok, is_Some (bget tok (tickets s)) → tok ∈ issued_tokens es;
  inv_once : NoDup (claimed_tokens es);
  inv_claimed : ∀ tok, tok ∈ claimed_tokens es → tok ∈ issued_tokens es ∧
                 ∀ t, bget tok (tickets s) = Some t → claim t ≠ None;
}.

(** Removing tickets keeps the invariant. *)
Lemma filter_inv nonce s es f : history_inv nonce s es →
  history_inv nonce (mkTickets (issued s) (List.filter f (tickets s))) es.
Proof.
  intros [H1 H2 H3 H4 H5 H6 H7 H8]. split; simpl; try done.
  - by apply filter_bmap_wf.
  - pose proof (filter_len f (tickets s)). lia.
  - intros tok Hk. apply H6. rewrite bget_filter in Hk by done.
    destruct (bget tok (tickets s)); [by eexists|by destruct Hk].
  - intros tok Hc. destruct (H8 tok Hc) as [Hi Hn]. split; [done|]. intros t. rewrite bget_filter by done.
    destruct (bget tok (tickets s)) as [t'|] eqn:E; [|done]. destruct (f _); [|done]. intros [= <-]. by apply Hn.
Qed.

(** Replacing a ticket that is there keeps it too, if a claim is not withdrawn. *)
Lemma replace_inv nonce s es tok t t' : history_inv nonce s es → bget tok (tickets s) = Some t →
  (claim t ≠ None → claim t' ≠ None) → history_inv nonce (set_ticket tok t' s) es.
Proof.
  intros [H1 H2 H3 H4 H5 H6 H7 H8] Hg Hcl. split; simpl; try done.
  - by apply binsert_wf.
  - rewrite binsert_len_present; [done|by eexists|done].
  - intros k. rewrite bget_binsert by done. case_decide; [|apply H6]. subst k. intros _. apply H6. by eexists.
  - intros k Hc. destruct (H8 k Hc) as [Hi Hn]. split; [done|]. intros u. rewrite bget_binsert by done.
    case_decide; [|apply Hn]. subst k. intros [= <-]. by apply Hcl, Hn.
Qed.

Lemma history_step nonce o s es : op_ok o → history_inv nonce s es →
  history_inv nonce (fst (apply_op nonce o s)) (snd (apply_op nonce o s) ++ es).
Proof.
  intros Ho Hi. assert (∀ now, history_inv nonce (expire now s) es) as He by (intros now; by apply filter_inv).
  destruct o as [now later random t|now token|now token|now seq token t index|now token rt]; simpl.
  - unfold reserve_probe. specialize (He now). destruct (normalized t) as [t'|]; [|done].
    destruct (LIMIT <=? _) eqn:El; [done|]. destruct (u32_max <? _) eqn:Eu; [done|]. destruct random as [r|]; [|done].
    simpl. destruct Ho as [Hr Hb]. destruct_bool.
    destruct He as [H1 H2 H3 H4 H5 H6 H7 H8]. simpl in *.
    set (tok := probe_token nonce r (issued s + 1)).
    assert (tok ∉ issued_tokens es) as Hnew.
    { intros Hin. destruct (H4 tok Hin) as (r' & n & He & Hr' & Hb' & Hn).
      apply probe_token_inj in He; [lia|done|done|done|done|lia|lia]. }
    split; simpl.
    + by apply binsert_wf.
    + pose proof (binsert_len tok (mkTicket later t' None) (List.filter (λ kt, alive now (snd kt)) (tickets s))).
      unfold len in *. lia.
    + lia.
    + intros k. rewrite elem_of_cons. intros [-> |Hk]; [exists r, (issued s + 1); split_and!; done || lia|].
      destruct (H4 k Hk) as (r' & n & ? & ? & ? & ?). exists r', n. split_and!; done || lia.
    + by constructor.
    + intros k. rewrite bget_binsert by done. rewrite elem_of_cons. case_decide; [by left|]. right. by apply H6.
    + done.
    + intros k Hk. destruct (H8 k Hk) as [Hki Hn]. split; [by right|]. intros u. rewrite bget_binsert by done.
      case_decide; [|apply Hn]. subst k. done.
  - unfold release_probe. destruct (validate_probe_token nonce token); [|apply He].
    destruct (bget token _); [|apply He]. simpl. exact (filter_inv nonce (expire now s) es _ (He now)).
  - unfold read_probe. destruct (validate_probe_token nonce token); apply He.
  - unfold claim_probe. destruct (validate_probe_token nonce token); [|apply He]. destruct (normalized t) as [t'|]; [|apply He].
    destruct (bget token (tickets (expire now s))) as [tk|] eqn:Eg; [|apply He].
    destruct (claim tk) eqn:Ec; [apply He|]. simpl. destruct (negb _); [apply He|]. simpl.
    eapply (replace_inv _ _ _ _ _ (mkTicket (reserved tk) (ticket_target tk) (Some (mkClaim (connection_id nonce seq) index None)))) in Eg as Hr;
      [|apply He|done].
    destruct (He now) as [H1 _ _ _ _ H6 H7 H8]. destruct Hr as [K1 K2 K3 K4 K5 K6 K7 K8]. split; simpl; try done.
    + constructor; [|done]. intros Hin. destruct (H8 token Hin) as [_ Hn]. by apply (Hn tk).
    + intros k. rewrite elem_of_cons. intros [-> |Hk]; [|by apply K8]. split; [apply H6; by eexists|].
      intros u. rewrite bget_binsert by exact H1. rewrite decide_True by done. by intros [= <-].
  - unfold probe_routed. destruct (bget token (tickets (expire now s))) as [[r tg [[i n [?|]]|]]|] eqn:Eg; try apply He.
    eapply replace_inv; [apply He|exact Eg|]. done.
Qed.

Lemma run_inv nonce ops s es : Forall op_ok ops → history_inv nonce s es →
  history_inv nonce (fst (run nonce ops s es)) (snd (run nonce ops s es)).
Proof.
  intros Hops. revert s es. induction Hops as [|o ops Ho _ IH]; intros s es Hi; simpl; [done|].
  pose proof (history_step nonce o s es Ho Hi) as Hst. destruct (apply_op nonce o s) as [s' es']. by apply IH.
Qed.

Lemma init_inv nonce : history_inv nonce init [].
Proof. split; simpl; try done; try constructor; try (by intros ? ?%not_elem_of_nil); by intros ? []. Qed.

(** ** Properties *)

(** C38: in every history of reservations, releases, reads, claims and routes, with any
    clock and any output of the random generator: no token is ever issued twice, no token is
    ever claimed twice, and at most 256 tickets are held. *)
Theorem probe_tokens_single_use nonce ops :
  Forall op_ok ops →
  let '(s, events) := run nonce ops init [] in
  NoDup (issued_tokens events) ∧ NoDup (claimed_tokens events) ∧ len (tickets s) ≤ 256.
Proof.
  intros Ho. pose proof (run_inv nonce ops init [] Ho (init_inv nonce)) as [].
  destruct (run nonce ops init []) as [s events]. simpl in *. done.
Qed.

Definition demo_target : Target := mkTarget (lit "Example.com") 443.
Definition demo_ops : list Op :=
  [OpReserve 0 1 (Some (replicate 12 7)) demo_target;
   OpClaim 2 5 (probe_token demo_nonce (replicate 12 7) 1) (mkTarget (lit "example.COM") 443) 0;
   OpClaim 3 6 (probe_token demo_nonce (replicate 12 7) 1) demo_target 0;
   OpReserve 4 5 (Some (replicate 12 7)) demo_target].

(** The second claim of the demonstration fails, and the second reservation gets a new
    token although the generator repeated itself. *)
Lemma probe_tokens_single_use_witness :
  NoDup [probe_token demo_nonce (replicate 12 7) 2; probe_token demo_nonce (replicate 12 7) 1].
Proof.
  assert (Forall op_ok demo_ops) as Ho.
  { repeat constructor; try (apply Forall_replicate); unfold is_byte; try lia; done. }
  pose proof (probe_tokens_single_use demo_nonce demo_ops Ho) as H.
  assert (run demo_nonce demo_ops init [] =
    (fst (run demo_nonce demo_ops init []),
     [Issued (probe_token demo_nonce (replicate 12 7) 2); ClaimedToken (probe_token demo_nonce (replicate 12 7) 1);
      Issued (probe_token demo_nonce (replicate 12 7) 1)])) as Hr by (vm_compute; reflexivity).
  rewrite Hr in H. exact (proj1 H).
Defined.

(** A claim records its route once: after any operation a ticket is either gone or still
    names the same target, and a claimed ticket still names the connection that claimed it
    and the first route it took. *)
Theorem probe_history_fixed nonce o s token t :
  bmap_wf (tickets s) → bget token (tickets s) = Some t → (∀ now later r x, o = OpReserve now later (Some r) x →
    probe_token nonce r (issued s + 1) ≠ token) →
  match bget token (tickets (fst (apply_op nonce o s))) with
  | None => True
  | Some t' =>
      ticket_target t' = ticket_target t ∧
      match claim t with
      | None => True
      | Some c => ∃ c', claim t' = Some c' ∧ claim_id c' = claim_id c ∧ request_index c' = request_index c ∧
                        match claim_route c with Some r => claim_route c' = Some r | None => True end
      end
  end.
Proof.
  intros Hw Hg Hfresh.
  assert (match claim t with
          | None => True
          | Some c => ∃ c', claim t = Some c' ∧ claim_id c' = claim_id c ∧ request_index c' = request_index c ∧
                            match claim_route c with Some r => claim_route c' = Some r | None => True end
          end) as Hsame.
  { destruct (claim t) as [c|]; [|done]. exists c. split_and!; try done. by destruct (claim_route c). }
  assert (∀ now, bmap_wf (tickets (expire now s)) ∧
    (bget token (tickets (expire now s)) = Some t ∨ bget token (tickets (expire now s)) = None)) as Hexp.
  { intros now. split; [by apply filter_bmap_wf|]. rewrite expire_get, Hg by done. destruct (alive now t); auto. }
  assert (∀ now, match bget token (tickets (expire now s)) with None => True | Some t' =>
      ticket_target t' = ticket_target t ∧ match claim t with None => True | Some c =>
        ∃ c', claim t' = Some c' ∧ claim_id c' = claim_id c ∧ request_index c' = request_index c ∧
              match claim_route c with Some r => claim_route c' = Some r | None => True end end end) as Hkeep.
  { intros now. destruct (Hexp now) as [_ [-> | ->]]; done. }
  destruct o as [now later random x|now tok|now tok|now seq tok x index|now tok rt]; simpl.
  - unfold reserve_probe. destruct (normalized x); [|apply Hkeep]. destruct (_ <=? _); [apply Hkeep|].
    destruct (_ <? _); [apply Hkeep|]. destruct random as [r|]; [|apply Hkeep]. simpl.
    rewrite bget_binsert by apply Hexp. rewrite decide_False; [apply Hkeep|].
    intros ->. by eapply Hfresh.
  - unfold release_probe. destruct (validate_probe_token nonce tok); [|apply Hkeep].
    destruct (bget tok _); [|apply Hkeep]. simpl. unfold remove. rewrite bget_filter by apply Hexp.
    specialize (Hkeep now). cbn [tickets expire] in Hkeep. destruct (bget token (List.filter _ _)); [|done].
    destruct (negb _); [apply Hkeep|done].
  - unfold read_probe. destruct (validate_probe_token nonce tok); apply Hkeep.
  - unfold claim_probe. destruct (validate_probe_token nonce tok); [|apply Hkeep].
    destruct (normalized x); [|apply Hkeep]. destruct (bget tok _) as [tk|] eqn:Et; [|apply Hkeep].
    destruct (claim tk) eqn:Ec; [apply Hkeep|]. simpl. destruct (negb _); [apply Hkeep|]. simpl.
    rewrite bget_binsert by apply Hexp. case_decide; [|apply Hkeep]. subst tok.
    destruct (Hexp now) as [_ [Hx|Hx]]; rewrite Hx in Et; simplify_eq. by rewrite Ec.
  - unfold probe_routed. destruct (bget tok (tickets (expire now s))) as [[r tg [[i n [?|]]|]]|] eqn:Et; try apply Hkeep.
    simpl. rewrite bget_binsert by apply Hexp. case_decide; [|apply Hkeep]. subst tok.
    destruct (Hexp now) as [_ [Hx|Hx]]; rewrite Hx in Et; simplify_eq. simpl. split; [done|]. by eexists.
Qed.

Definition demo_ticket : Ticket :=
  mkTicket 1 (mkTarget (lit "example.com") 443) (Some (mkClaim (connection_id demo_nonce 5) 0 (Some (0%nat, 0%nat)))).

Definition demo_tickets : Tickets := mkTickets 1 [(lit "t", demo_ticket)].
Definition demo_late_route : Op := OpRouted 9 (lit "t") (mkRoute 3 1 demo_target).

(** A second route of a routed ticket leaves the first. *)
Lemma probe_history_fixed_witness :
  bmap_wf (tickets demo_tickets) ∧
  match bget (lit "t") (tickets (fst (apply_op demo_nonce demo_late_route demo_tickets))) with
  | None => True
  | Some t' => ∃ c', claim t' = Some c' ∧ claim_route c' = Some (0%nat, 0%nat)
  end.
Proof.
  assert (bmap_wf (tickets demo_tickets)) as Hw by repeat constructor. split; [exact Hw|].
  pose proof (probe_history_fixed demo_nonce demo_late_route demo_tickets (lit "t") demo_ticket Hw eq_refl
                ltac:(discriminate)) as H.
  destruct (bget _ _) as [t'|]; [|exact I]. destruct H as (_ & c' & H1 & _ & _ & H2). exists c'. done.
Defined.

End Probes.
