(* ===== verification/Socks.v ===== *)
(** * SOCKS5 ingress (src/src/runtime.rs: [socks_*], [udp_request], [udp_response];
      src/src/outbound.rs: [destination])

    A client is the bytes it sends before it stops, the bytes written to it, and how many
    more writes succeed. The address encoding of the shadowsocks crate is the class
    [AddressCodec]: RFC 1928, section 5. *)
From S2P Require Import Prelude Utf8 Net Target Rules Groups Proxy Dns Config Route.

Module Socks.

(** [udp.rs] *)
Definition MAX_WIRE_BYTES : Z := 65507.

(** ** Addresses on the wire *)

Inductive Address :=
| SocketAddress (a : SocketAddr)
| DomainNameAddress (name : str) (port : Z).

Class AddressCodec := {
  write_to_buf : Address → str;
  write_v4 : ∀ a b c d p, write_to_buf (SocketAddress (mkSocketAddr (V4 a b c d) p)) = [1; a; b; c; d] ++ be16 p;
  write_v6 : ∀ segs p, write_to_buf (SocketAddress (mkSocketAddr (V6 segs) p)) = [4] ++ mjoin (be16 <$> segs) ++ be16 p;
  write_domain : ∀ name p, len name ≤ 255 → write_to_buf (DomainNameAddress name p) = [3; len name] ++ name ++ be16 p;
}.

(** [destination] (outbound.rs) *)
Definition destination (t : Target) : Address :=
  match parse_ip (host t) with
  | Some ip => SocketAddress (mkSocketAddr ip (port t))
  | None => DomainNameAddress (host t) (port t)
  end.

(** [Ipv6Addr::from([u8; 16])] *)
Fixpoint be_pairs (bytes : str) : list Z :=
  match bytes with
  | a :: b :: rest => from_be [a; b] :: be_pairs rest
  | _ => []
  end.

(** [Ipv4Addr::from([u8; 4]).to_string()] and [Ipv6Addr::from([u8; 16]).to_string()] *)
Definition ipv4_text (bytes : str) : str :=
  match bytes with [a; b; c; d] => print_ip (V4 a b c d) | _ => [] end.
Definition ipv6_text (bytes : str) : str := print_ip (V6 (be_pairs bytes)).

(** ** The client *)

Record Client := mkClient { input : str; output : str; writes : nat }.

Abbreviation Io E A := (SE Client E A).

(** [read_exact] of [n] bytes, with the error its caller makes of a short input. *)
Definition read_exact {E} (e : E) (n : nat) : Io E str := λ c,
  if (length (input c) <? n)%nat then (mkClient [] (output c) (writes c), Err e)
  else (mkClient (drop n (input c)) (output c) (writes c), Ok (take n (input c))).

Definition read_u8 {E} (e : E) : Io E Z := do! b := read_exact e 1 in sret (from_be b).
Definition read_u16 {E} (e : E) : Io E Z := do! b := read_exact e 2 in sret (from_be b).

Definition write_all (bytes : str) : Io string unit := λ c,
  match writes c with
  | O => (c, Err "write failed"%string)
  | S n => (mkClient (input c) (output c ++ bytes) n, Ok tt)
  end.

(** ** Requests *)

(** What kind of [io::Error] a failed connection had. *)
Inductive ConnectFailure :=
| PermissionDenied | NetworkUnreachable | HostUnreachable | ConnectionRefused | TimedOut | OtherKind.

(** [socks_connect_error]: the first [io::Error] of the chain decides. *)
Definition socks_connect_error (chain : list (option ConnectFailure)) : Z :=
  match head (omap (λ k, k) chain) with
  | Some PermissionDenied => 2
  | Some NetworkUnreachable => 3
  | Some HostUnreachable => 4
  | Some ConnectionRefused => 5
  | Some TimedOut => 6
  | _ => 1
  end.

Definition reply_bytes (code : Z) : str := [5; code; 0; 1; 0; 0; 0; 0; 0; 0].
Definition socks_reply (code : Z) : Io string unit := write_all (reply_bytes code).

Inductive SocksRequest :=
| Connect (t : Target)
| Associate (a : SocketAddr).

(** The host of a request of address type [kind]. *)
Definition socks_host (kind : Z) : Io Z str :=
  if kind =? 1 then do! b := read_exact 1 4 in sret (ipv4_text b)
  else if kind =? 4 then do! b := read_exact 1 16 in sret (ipv6_text b)
  else if kind =? 3 then
    do! length := read_u8 1 in
    if length =? 0 then serr 8
    else
      do! bytes := read_exact 1 (Z.to_nat length) in
      if utf8_valid bytes then sret bytes else serr 8
  else serr 8.

Definition socks_request : Io Z SocksRequest :=
  do! head := read_exact 1 4 in
  let at_ i := default 0 (head !! (i : nat)) in
  if negb (at_ 0%nat =? 5) || negb (at_ 2%nat =? 0) then serr 1
  else if negb ((at_ 1%nat =? 1) || (at_ 1%nat =? 3)) then serr 7
  else
    do! host := socks_host (at_ 3%nat) in
    do! port := read_u16 1 in
    if at_ 1%nat =? 3 then
      match parse_ip host with
      | Some ip => sret (Associate (mkSocketAddr ip port))
      | None => serr 8
      end
    else
      match from_socks host port with
      | Ok t => sret (Connect t)
      | Err _ => serr 8
      end.

Definition eof : string := "unexpected end of file".

Definition socks_handshake : Io string (option SocksRequest) :=
  do! version := read_u8 eof in
  do! count := read_u8 eof in
  do! methods := read_exact eof (Z.to_nat count) in
  if negb (version =? 5) || negb (existsb (Z.eqb 0) methods) then
    do! _ := write_all [5; 255] in sret None
  else
    do! _ := write_all [5; 0] in
    λ c,
      match socks_request c with
      | (c, Ok r) => (c, Ok (Some r))
      | (c, Err code) => (do! _ := socks_reply code in sret None) c
      end.

Definition match_context (source : SocketAddr) : MatchContext :=
  mkMatchContext (Some (sa_ip source)) (Some (sa_port source)) None.

(** ** Datagrams *)

(** [bytes.get(a..b)] *)
Definition get_range (a b : nat) (bytes : str) : option str :=
  if (length bytes <? b)%nat then None else Some (take (b - a) (drop a bytes)).

(** The host of a datagram and where its port starts. *)
Definition datagram_host (bytes : str) : res (str * nat) :=
  match bytes !! 3%nat with
  | Some 1 =>
      let! ip := ok_or (get_range 4 8 bytes) "truncated IPv4 address"%string in Ok (ipv4_text ip, 8%nat)
  | Some 4 =>
      let! ip := ok_or (get_range 4 20 bytes) "truncated IPv6 address"%string in Ok (ipv6_text ip, 20%nat)
  | Some 3 =>
      let! n := ok_or (bytes !! 4%nat) "truncated domain length"%string in
      let finish := (5 + Z.to_nat n)%nat in
      let! name := ok_or (get_range 5 finish bytes) "truncated domain"%string in
      if utf8_valid name then Ok (name, finish) else Err "invalid utf-8"
  | _ => Err "unsupported UDP address type"
  end.

Definition udp_request (bytes : str) : res (Target * str) :=
  if (MAX_WIRE_BYTES <? len bytes) || negb (starts_with [0; 0; 0] bytes)
  then Err "invalid SOCKS5 UDP header or fragmentation"
  else
    let! '(host, finish) := datagram_host bytes in
    let! port := ok_or (get_range finish (finish + 2) bytes) "truncated port"%string in
    let! t := from_socks host (from_be port) in
    Ok (t, drop (finish + 2) bytes).

Definition udp_response `{AddressCodec} (source : Target) (payload : str) : res str :=
  let bytes := [0; 0; 0] ++ write_to_buf (destination source) in
  if MAX_WIRE_BYTES <? len bytes + len payload then Err "SOCKS5 UDP response exceeds wire limit"
  else Ok (bytes ++ payload).

(** ** UDP associations *)

Section Relay.
Context `{IpNetLib} `{Resolver} `{AddressCodec}.

(** [proxy.udp && matches!(proxy.kind, Shadowsocks | Trojan)] *)
Definition carries_udp (p : Proxy) : bool :=
  p_udp p && match p_kind p with Shadowsocks _ _ _ _ | Trojan _ _ _ _ _ => true | _ => false end.

(** The checks of [associate]: the code of the refusal, or the association goes on. [permit]
    and [bound] are whether a permit was free and the socket could be bound. *)
Definition associate_refusal (c : Config) (requested source : SocketAddr) (permit bound : bool) : option Z :=
  if negb (existsb carries_udp (proxies c)) then Some 7
  else if negb (is_unspecified (sa_ip requested)) && negb (bool_decide (sa_ip requested = sa_ip source)) then Some 2
  else if negb permit then Some 1
  else if negb bound then Some 1
  else None.

(** The relay's own state: the client's address once known, whether the outbound session is
    open, and when the association ends. Times are in nanoseconds. *)
Record Relay := mkRelay { pinned : option SocketAddr; opened : bool; deadline : Z }.

(** How opening the session within the handshake time ended. *)
Inductive OpenOutcome := RoutingTimedOut | OpenFailed | Opened.

Inductive Event :=
| ClientDatagram (now later : Z) (sender : SocketAddr) (bytes : str) (outcome : OpenOutcome) (sent : bool)
| ServerDatagram (now later : Z) (source : Target) (payload : str) (sent : bool)
| ReceiveFailed
| SessionFailed
| DeadlinePassed.

(** What the relay does to the outside. *)
Inductive Action :=
| Open (leaf : nat) (t : Target)
| Send (payload : str) (t : Target)
| Reply (bytes : str) (client : SocketAddr).

Inductive RelayNext := Continue (r : Relay) | Ended.

Definition UDP_IDLE_TIMEOUT : Z := 300 * 1000000000.

Definition relay_init (source_ip : IpAddr) (requested_port now : Z) : Relay :=
  mkRelay (if requested_port =? 0 then None else Some (mkSocketAddr source_ip requested_port)) false
    (now + UDP_IDLE_TIMEOUT).

(** The block under [timeout]: the route of the first datagram, when it can be carried. *)
Definition relay_route (c : Config) (t : Target) (sender : SocketAddr) : option (nat * Target) :=
  match snd (route_udp_with_context c t (match_context sender)) with
  | Some (Ok rt) =>
      let? p := proxies c !! leaf_index rt in
      if carries_udp p then Some (leaf_index rt, route_target rt) else None
  | _ => None
  end.

(** A datagram the client is allowed to send and that can be read. *)
Definition accept_datagram (source_ip : IpAddr) (r : Relay) (sender : SocketAddr) (bytes : str) : option (Target * str) :=
  if negb (bool_decide (sa_ip sender = source_ip)) || (sa_port sender =? 0)
     || is_some_and (pinned r) (λ p, negb (bool_decide (p = sender)))
  then None
  else to_option (udp_request bytes).

Definition relay_step (c : Config) (source_ip : IpAddr) (r : Relay) (e : Event) : list Action * RelayNext :=
  match e with
  | ReceiveFailed | SessionFailed | DeadlinePassed => ([], Ended)
  | ClientDatagram now later sender bytes outcome sent =>
      if deadline r <=? now then ([], Ended)
      else
        match accept_datagram source_ip r sender bytes with
        | None => ([], Continue r)
        | Some (t, payload) =>
            let forward t := ([Send payload t],
              Continue (mkRelay (Some sender) true (if sent then later + UDP_IDLE_TIMEOUT else deadline r))) in
            if opened r then forward t
            else
              match relay_route c t sender with
              | None => ([], Ended)
              | Some (leaf, t') =>
                  match outcome with
                  | RoutingTimedOut => ([], Ended)
                  | OpenFailed => ([Open leaf t'], Ended)
                  | Opened => let '(actions, next) := forward t' in (Open leaf t' :: actions, next)
                  end
              end
        end
  | ServerDatagram now later source payload sent =>
      if deadline r <=? now then ([], Ended)
      else if negb (opened r) then ([], Continue r)
      else
        match pinned r with
        | None => ([], Continue r)
        | Some client =>
            match udp_response source payload with
            | Err _ => ([], Continue r)
            | Ok bytes =>
                ([Reply bytes client],
                 Continue (mkRelay (pinned r) true (if sent then later + UDP_IDLE_TIMEOUT else deadline r)))
            end
        end
  end.

(** A run: each event with the configuration (its selections may change). *)
Fixpoint relay_run (source_ip : IpAddr) (r : Relay) (es : list (Config * Event)) : list Action :=
  match es with
  | [] => []
  | (c, e) :: es =>
      let '(actions, next) := relay_step c source_ip r e in
      actions ++ match next with Continue r => relay_run source_ip r es | Ended => [] end
  end.

End Relay.

(** ** What a target becomes on the wire *)

(** An address is named by its canonical text. *)
Definition canonical (t : Target) : Target :=
  match parse_ip (host t) with Some ip => mkTarget (print_ip ip) (port t) | None => t end.

Definition request_wf (r : SocksRequest) : Prop :=
  match r with
  | Connect t => target_wf t
  | Associate a => ip_wf (sa_ip a) ∧ 0 ≤ sa_port a ≤ 65535
  end.

(** ** Lemmas *)

Lemma be_pairs_be16 segs : Forall (λ s, 0 ≤ s ≤ 65535) segs → be_pairs (mjoin (be16 <$> segs)) = segs.
Proof.
  induction 1 as [|x segs Hx _ IH]; [done|]. rewrite fmap_cons. change (mjoin (?x :: ?xs)) with (x ++ mjoin xs).
  pose proof (from_be16 x ltac:(unfold u16_max; lia)) as H16. unfold be16 in *. cbn [app be_pairs].
  by rewrite H16, IH.
Qed.

Lemma be16_all_length (segs : list Z) : length (mjoin (be16 <$> segs)) = (2 * length segs)%nat.
Proof.
  induction segs as [|x segs IH]; [done|]. rewrite fmap_cons. change (mjoin (?x :: ?xs)) with (x ++ mjoin xs).
  rewrite length_app, be16_length, IH. simpl. lia.
Qed.

Lemma read_exact_app {E} (e : E) a r o w :
  read_exact e (length a) (mkClient (a ++ r) o w) = (mkClient r o w, Ok a).
Proof.
  unfold read_exact. cbn [input output writes]. rewrite (proj2 (Nat.ltb_ge _ _)) by (rewrite length_app; lia).
  by rewrite drop_app_length, take_app_length.
Qed.

Lemma read_u8_cons {E} (e : E) b r o w : read_u8 e (mkClient (b :: r) o w) = (mkClient r o w, Ok b).
Proof. unfold read_u8, sbind, read_exact. cbn. by rewrite drop_0. Qed.

Lemma read_u16_app {E} (e : E) p r o w : 0 ≤ p ≤ u16_max →
  read_u16 e (mkClient (be16 p ++ r) o w) = (mkClient r o w, Ok p).
Proof.
  intros Hp. unfold read_u16, sbind. pose proof (read_exact_app e (be16 p) r o w) as H. rewrite be16_length in H.
  rewrite H. unfold sret. by rewrite from_be16.
Qed.

(** The three forms of an encoded target. *)
Lemma destination_encoded `{AddressCodec} t : target_wf t → utf8_valid (host t) = true →
  ∃ kind body, write_to_buf (destination t) = [kind] ++ body ++ be16 (port t) ∧
    (∀ r o w, socks_host kind (mkClient (body ++ r) o w) = (mkClient r o w, Ok (host (canonical t)))) ∧
    (∀ r, datagram_host ([0; 0; 0; kind] ++ body ++ r) = Ok (host (canonical t), (4 + length body)%nat)) ∧
    len body ≤ 256.
Proof.
  intros (Hne & Hl & Hp) Hu. unfold destination, canonical. destruct (parse_ip (host t)) as [ip|] eqn:Eip.
  - pose proof (parse_ip_wf _ _ Eip) as Hwf. destruct ip as [a b c d|segs].
    + exists 1, [a; b; c; d]. rewrite write_v4. split_and!; [done| |done|by compute].
      intros r o w. unfold socks_host. change (1 =? 1) with true. cbn iota. unfold sbind.
      pose proof (read_exact_app 1 [a; b; c; d] r o w) as HR. cbn [length] in HR. by rewrite HR.
    + destruct Hwf as [H8 Hs]. exists 4, (mjoin (be16 <$> segs)). rewrite write_v6.
      pose proof (be16_all_length segs) as Hlen. rewrite H8 in Hlen. change (2 * 8)%nat with 16%nat in Hlen. split_and!; [done| | |].
      * intros r o w. unfold socks_host. change (4 =? 1) with false. change (4 =? 4) with true. cbn iota. unfold sbind.
        rewrite <- Hlen, read_exact_app. unfold sret, ipv6_text. by rewrite be_pairs_be16.
      * intros r. unfold datagram_host. cbn [app lookup list_lookup]. unfold get_range.
        rewrite (proj2 (Nat.ltb_ge _ _)) by (simpl; rewrite length_app, Hlen; lia). cbn [ok_or drop Nat.sub].
        rewrite drop_0, <- Hlen, take_app_length, Hlen. unfold ipv6_text. by rewrite be_pairs_be16.
      * unfold len. rewrite Hlen. lia.
  - exists 3, (len (host t) :: host t). rewrite write_domain by done.
    assert (0 < len (host t)) as Hpos by (destruct (host t); [done|unfold len; simpl; lia]). split_and!; [done| | |].
    + intros r o w. unfold socks_host. change (3 =? 1) with false. change (3 =? 4) with false. change (3 =? 3) with true. cbn iota.
      unfold read_u8, sbind. pose proof (read_exact_app 1 [len (host t)] (host t ++ r) o w) as HR. cbn [length app] in HR |- *. rewrite HR. cbn [sret from_be foldl].
      replace (0 * 256 + len (host t)) with (len (host t)) by lia. rewrite (proj2 (Z.eqb_neq _ _)) by lia.
      replace (Z.to_nat (len (host t))) with (length (host t)) by (unfold len; lia).
      by rewrite read_exact_app, Hu.
    + intros r. unfold datagram_host. cbn [app lookup list_lookup ok_or].
      replace (Z.to_nat (len (host t))) with (length (host t)) by (unfold len; lia). unfold get_range.
      rewrite (proj2 (Nat.ltb_ge _ _)) by (simpl; rewrite length_app; lia). cbn [ok_or drop Nat.sub Nat.add].
      rewrite Nat.sub_0_r, drop_0, take_app_length, Hu. done.
    + rewrite len_cons. lia.
Qed.

Lemma canonical_socks t : target_wf t → from_socks (host (canonical t)) (port t) = Ok (canonical t).
Proof.
  intros (Hne & Hl & Hp). apply from_socks_Ok. unfold canonical. destruct (parse_ip (host t)) as [ip|] eqn:E.
  - pose proof (print_ip_length ip (parse_ip_wf _ _ E)) as Hlen. simpl. split_and!; [done| |unfold len; lia|lia].
    intros Hn. rewrite Hn in Hlen. simpl in Hlen. lia.
  - destruct t as [h p]. simpl in *. split_and!; [done|done|done|lia].
Qed.

Lemma from_be_byte_range s : Forall is_byte s → 0 ≤ from_be s < 256 ^ Z.of_nat (length s).
Proof.
  unfold from_be. intros Hs.
  assert (∀ acc, 0 ≤ acc → 0 ≤ foldl (λ a b, a * 256 + b) acc s < (acc + 1) * 256 ^ Z.of_nat (length s)) as H.
  { induction Hs as [|b s Hb _ IH]; intros acc Ha; [simpl; lia|]. cbn [foldl length]. unfold is_byte in Hb.
    specialize (IH (acc * 256 + b) ltac:(lia)). rewrite Nat2Z.inj_succ, Z.pow_succ_r by lia. nia. }
  specialize (H 0 ltac:(lia)). lia.
Qed.

(** Reading keeps the input a sequence of bytes and writes nothing; [R] holds of errors. *)
Definition reads_only {E A} (R : E → Prop) (m : Io E A) (Q : A → Prop) : Prop :=
  ∀ c, Forall is_byte (input c) →
    match m c with
    | (c', r) => output c' = output c ∧ writes c' = writes c ∧ Forall is_byte (input c') ∧
                 match r with Ok a => Q a | Err e => R e end
    end.

Section Reads.
Context {E : Type} (R : E → Prop).

Lemma socks_reads_bind {A B} (m : Io E A) (k : A → Io E B) P Q :
  reads_only R m P → (∀ a, P a → reads_only R (k a) Q) → reads_only R (sbind m k) Q.
Proof.
  intros Hm Hk c Hc. unfold sbind. specialize (Hm c Hc). destruct (m c) as [c1 [a|e]]; [|naive_solver].
  destruct Hm as (Ho & Hw & Hb & Hp). specialize (Hk a Hp c1 Hb). destruct (k a c1) as [c2 r].
  rewrite Ho, Hw in Hk. done.
Qed.

Lemma socks_reads_ret {A} (a : A) (Q : A → Prop) : Q a → reads_only R (sret a) Q.
Proof. intros HQ c Hc. done. Qed.

Lemma socks_reads_err {A} (e : E) (Q : A → Prop) : R e → reads_only R (serr e) Q.
Proof. intros He c Hc. done. Qed.

Lemma reads_exact e n : R e → reads_only R (read_exact e n) (λ s, length s = n ∧ Forall is_byte s).
Proof.
  intros He c Hc. unfold read_exact. destruct (length (input c) <? n)%nat eqn:El; [by split_and!|].
  apply Nat.ltb_ge in El. cbn. split_and!; [done|done|by apply Forall_drop|rewrite length_take; lia|by apply Forall_take].
Qed.

Lemma reads_u8 e : R e → reads_only R (read_u8 e) (λ n, 0 ≤ n < 256).
Proof.
  intros He. eapply socks_reads_bind; [by apply reads_exact|]. intros s [Hl Hs]. apply socks_reads_ret.
  pose proof (from_be_byte_range s Hs) as Hr. by rewrite Hl in Hr.
Qed.

Lemma reads_u16 e : R e → reads_only R (read_u16 e) (λ n, 0 ≤ n ≤ 65535).
Proof.
  intros He. eapply socks_reads_bind; [by apply reads_exact|]. intros s [Hl Hs]. apply socks_reads_ret.
  pose proof (from_be_byte_range s Hs) as Hr. rewrite Hl in Hr. change (256 ^ Z.of_nat 2) with 65536 in Hr. lia.
Qed.
End Reads.

(** The codes of a request that is refused while it is read. *)
Definition refusal (code : Z) : Prop := code ∈ [1; 7; 8].

Lemma refusals : refusal 1 ∧ refusal 7 ∧ refusal 8.
Proof. split_and!; repeat constructor. Qed.

Lemma reads_host kind : reads_only refusal (socks_host kind) (λ _, True).
Proof.
  destruct refusals as (H1 & _ & H8). unfold socks_host.
  destruct (kind =? 1); [|destruct (kind =? 4); [|destruct (kind =? 3); [|by apply socks_reads_err]]].
  - eapply socks_reads_bind; [by apply reads_exact|]. intros. by apply socks_reads_ret.
  - eapply socks_reads_bind; [by apply reads_exact|]. intros. by apply socks_reads_ret.
  - eapply socks_reads_bind; [by apply reads_u8|]. intros n _. destruct (n =? 0); [by apply socks_reads_err|].
    eapply socks_reads_bind; [by apply reads_exact|]. intros s _. destruct (utf8_valid s); [by apply socks_reads_ret|by apply socks_reads_err].
Qed.

Lemma reads_request : reads_only refusal socks_request request_wf.
Proof.
  destruct refusals as (H1 & H7 & H8). unfold socks_request. eapply socks_reads_bind; [by apply reads_exact|]. intros h _. cbn zeta.
  destruct (_ || _); [by apply socks_reads_err|]. destruct (negb _); [by apply socks_reads_err|].
  eapply socks_reads_bind; [apply reads_host|]. intros host _. eapply socks_reads_bind; [by apply reads_u16|]. intros p Hp.
  destruct (_ =? 3).
  - destruct (parse_ip host) as [ip|] eqn:E; [|by apply socks_reads_err]. apply socks_reads_ret. split; [by eapply parse_ip_wf|done].
  - destruct (from_socks host p) as [t|] eqn:E; [|by apply socks_reads_err]. apply socks_reads_ret. exact (from_socks_wf _ _ _ Hp E).
Qed.

(** ** Associations *)

Section RelayFacts.
Context `{IpNetLib} `{Resolver} `{AddressCodec}.

Lemma udp_response_bound t payload bytes : udp_response t payload = Ok bytes → len bytes ≤ MAX_WIRE_BYTES.
Proof.
  unfold udp_response. set (b := [0; 0; 0] ++ _). destruct (MAX_WIRE_BYTES <? _) eqn:E; [done|].
  intros Hb. assert (bytes = b ++ payload) as -> by congruence. rewrite len_app. by destruct_bool.
Qed.

Lemma accept_datagram_sender source_ip r sender bytes x : accept_datagram source_ip r sender bytes = Some x →
  sa_ip sender = source_ip ∧ ∀ p, pinned r = Some p → p = sender.
Proof.
  unfold accept_datagram. destruct (_ || _) eqn:E; [done|]. rewrite !orb_false_iff in E. destruct E as [[E1 _] E2].
  intros _. destruct_bool. split; [done|]. intros p Hp. rewrite Hp in E2. simpl in E2. by destruct_bool.
Qed.

(** An address the association may talk to. *)
Definition own_client (source_ip : IpAddr) (requested_port : Z) (a : SocketAddr) : Prop :=
  sa_ip a = source_ip ∧ (requested_port ≠ 0 → sa_port a = requested_port).

Definition relay_ok (source_ip : IpAddr) (requested_port : Z) (r : Relay) : Prop :=
  match pinned r with
  | Some p => own_client source_ip requested_port p
  | None => requested_port = 0
  end.

(** What a step may do, and the state it continues in. *)
Definition step_ok (c : Config) (source_ip : IpAddr) (port : Z) (r : Relay) (actions : list Action) (next : RelayNext)
    : Prop :=
  (∀ bytes a, Reply bytes a ∈ actions → pinned r = Some a ∧ len bytes ≤ MAX_WIRE_BYTES) ∧
  (match next with
   | Continue r' => relay_ok source_ip port r' ∧ (∀ p, pinned r = Some p → pinned r' = Some p) ∧
                    (opened r = true → opened r' = true)
   | Ended => True
   end) ∧
  (if opened r then ∀ leaf t, Open leaf t ∉ actions
   else (actions = [] ∧ ∀ r', next = Continue r' → opened r' = false) ∨
        ∃ leaf t rest p, actions = Open leaf t :: rest ∧ (∀ leaf' t', Open leaf' t' ∉ rest) ∧
          proxies c !! leaf = Some p ∧ carries_udp p = true ∧ ∀ r', next = Continue r' → opened r' = true).

Lemma step_quiet c source_ip port r actions next : relay_ok source_ip port r →
  ([], Ended) = (actions, next) ∨ ([], Continue r) = (actions, next) → step_ok c source_ip port r actions next.
Proof.
  intros Hok Hq. assert (actions = [] ∧ (next = Ended ∨ next = Continue r)) as [-> Hn] by naive_solver.
  split_and!; [intros ? ? Hx; by apply not_elem_of_nil in Hx|by destruct Hn as [-> | ->]|].
  destruct (opened r) eqn:Eo; [intros ? ? Hx; by apply not_elem_of_nil in Hx|]. left. split; [done|].
  intros r' Hr'. destruct Hn; congruence.
Qed.

Lemma relay_step_ok c source_ip port r e actions next :
  relay_ok source_ip port r → relay_step c source_ip r e = (actions, next) → step_ok c source_ip port r actions next.
Proof.
  intros Hok. pose proof (step_quiet c source_ip port r actions next Hok) as Hquiet.
  destruct e as [now later sender bytes outcome sent|now later source payload sent| | |]; cbn [relay_step];
    try (intros Hr; apply Hquiet; by left).
  - destruct (deadline r <=? now); [intros Hr; apply Hquiet; by left|].
    destruct (accept_datagram source_ip r sender bytes) as [[t pl]|] eqn:Ea; [|intros Hr; apply Hquiet; by right].
    apply accept_datagram_sender in Ea as [Hip Hpin].
    assert (∀ d, relay_ok source_ip port (mkRelay (Some sender) true d)) as Hok'.
    { intros d. split; [done|]. intros Hp. unfold relay_ok in Hok. destruct (pinned r) as [p|] eqn:Ep; [|done].
      rewrite <- (Hpin p eq_refl). by apply Hok. }
    assert (∀ p, pinned r = Some p → Some sender = Some p) as Hkeep by (intros p Hp; f_equal; symmetry; by apply Hpin).
    destruct (opened r) eqn:Eo.
    + intros [= <- <-]. unfold step_ok; rewrite Eo; split; [|split]; [intros b a Hx; by rewrite list_elem_of_singleton in Hx|(split; [apply Hok'|split; [exact Hkeep|done]])|].
      intros leaf t' Hx. by rewrite list_elem_of_singleton in Hx.
    + unfold relay_route. destruct (route_udp_with_context c t _) as [n o]. cbn [snd].
      destruct o as [[rt|]|]; try (intros Hr; apply Hquiet; by left).
      destruct (proxies c !! leaf_index rt) as [p|] eqn:Ep; [|intros Hr; apply Hquiet; by left].
      destruct (carries_udp p) eqn:Ec; [|intros Hr; apply Hquiet; by left].
      destruct outcome; [intros Hr; apply Hquiet; by left| |].
      * intros [= <- <-]. unfold step_ok; rewrite Eo; split; [|split]; [intros b a Hx; by rewrite list_elem_of_singleton in Hx|done|].
        right. exists (leaf_index rt), (route_target rt), [], p. split_and!; try done. intros ? ? Hx. by apply not_elem_of_nil in Hx.
      * intros [= <- <-]. unfold step_ok. rewrite Eo. split; [|split].
        -- intros b a Hx. rewrite elem_of_cons, list_elem_of_singleton in Hx. by destruct Hx.
        -- (split; [apply Hok'|split; [exact Hkeep|done]]).
        -- right. exists (leaf_index rt), (route_target rt), [Send pl (route_target rt)], p. split_and!; try done.
           ++ intros ? ? Hx. by rewrite list_elem_of_singleton in Hx.
           ++ by intros r' [= <-].
  - destruct (deadline r <=? now); [intros Hr; apply Hquiet; by left|].
    destruct (opened r) eqn:Eo; cbn [negb]; [|intros Hr; apply Hquiet; by right].
    destruct (pinned r) as [client|] eqn:Ep; [|intros Hr; apply Hquiet; by right].
    destruct (udp_response source payload) as [b|] eqn:Eu; [|intros Hr; apply Hquiet; by right].
    intros [= <- <-]. unfold step_ok. rewrite Eo. split; [|split].
    + intros b' a Hx. rewrite list_elem_of_singleton in Hx. injection Hx as -> ->. split; [done|]. by eapply udp_response_bound.
    + unfold relay_ok in *. cbn. rewrite Ep in Hok. split; [done|]. split; [congruence|done].
    + intros leaf t Hx. by rewrite list_elem_of_singleton in Hx.
Qed.

Lemma relay_run_replies source_ip port r es : relay_ok source_ip port r →
  ∃ client, own_client source_ip port client ∧ (∀ p, pinned r = Some p → p = client) ∧
    ∀ bytes a, Reply bytes a ∈ relay_run source_ip r es → a = client ∧ len bytes ≤ MAX_WIRE_BYTES.
Proof.
  revert r. induction es as [|[c e] es IH]; intros r Hok; cbn [relay_run].
  - exists (default (mkSocketAddr source_ip port) (pinned r)). unfold relay_ok in Hok.
    split; [by destruct (pinned r)|]. split; [by intros p ->|]. intros ? ? Hx. by apply not_elem_of_nil in Hx.
  - destruct (relay_step c source_ip r e) as [actions next] eqn:E.
    destruct (relay_step_ok _ _ port _ _ _ _ Hok E) as (Hrep & Hnext & _). destruct next as [r'|].
    + destruct Hnext as (Hok' & Hpin & _). destruct (IH r' Hok') as (client & Hown & Heq & Hall).
      exists client. split; [done|]. split; [intros p Hp; by apply Heq, Hpin|]. intros bytes a Hx.
      apply elem_of_app in Hx as [Hx|Hx]; [|by eapply Hall]. destruct (Hrep _ _ Hx) as [Ha Hl].
      split; [by apply Heq, Hpin|done].
    + exists (default (mkSocketAddr source_ip port) (pinned r)). unfold relay_ok in Hok.
      split; [by destruct (pinned r)|]. split; [by intros p ->|]. intros bytes a Hx. rewrite app_nil_r in Hx.
      destruct (Hrep _ _ Hx) as [-> Hl]. done.
Qed.

Lemma relay_run_opened source_ip port r es : relay_ok source_ip port r → opened r = true →
  ∀ leaf t, Open leaf t ∉ relay_run source_ip r es.
Proof.
  revert r. induction es as [|[c e] es IH]; intros r Hok Ho leaf t; cbn [relay_run]; [apply not_elem_of_nil|].
  destruct (relay_step c source_ip r e) as [actions next] eqn:E.
  destruct (relay_step_ok _ _ port _ _ _ _ Hok E) as (_ & Hnext & Hopen). rewrite Ho in Hopen.
  intros Hx. apply elem_of_app in Hx as [Hx|Hx]; [by apply Hopen in Hx|]. destruct next as [r'|]; [|by apply not_elem_of_nil in Hx].
  destruct Hnext as (Hok' & _ & Ho'). by apply (IH r' Hok' (Ho' Ho)) in Hx.
Qed.

Lemma relay_run_opens source_ip port r es : relay_ok source_ip port r → opened r = false →
  relay_run source_ip r es = [] ∨
  ∃ leaf t rest c p, relay_run source_ip r es = Open leaf t :: rest ∧ (∀ leaf' t', Open leaf' t' ∉ rest) ∧
    c ∈ es.*1 ∧ proxies c !! leaf = Some p ∧ carries_udp p = true.
Proof.
  revert r. induction es as [|[c e] es IH]; intros r Hok Ho; cbn [relay_run]; [by left|].
  destruct (relay_step c source_ip r e) as [actions next] eqn:E.
  destruct (relay_step_ok _ _ port _ _ _ _ Hok E) as (_ & Hnext & Hopen). rewrite Ho in Hopen.
  destruct Hopen as [[-> Hclosed]|(leaf & t & rest & p & -> & Hrest & Hp & Hc & Hop)].
  - destruct next as [r'|]; [|by left]. destruct Hnext as (Hok' & _ & _).
    destruct (IH r' Hok' (Hclosed r' eq_refl)) as [Hr|(leaf & t & rest & c' & p & Hr & Hn & Hin & Hp & Hc)]; [by left|].
    right. exists leaf, t, rest, c', p. split; [done|]. split; [done|]. split; [by constructor|done].
  - right. exists leaf, t, (rest ++ match next with Continue r' => relay_run source_ip r' es | Ended => [] end), c, p.
    split; [done|]. split; [|split; [constructor|done]]. intros leaf' t' Hx. apply elem_of_app in Hx as [Hx|Hx]; [by apply Hrest in Hx|].
    destruct next as [r'|]; [|by apply not_elem_of_nil in Hx]. destruct Hnext as (Hok' & _ & _).
    by apply (relay_run_opened source_ip port r' es Hok' (Hop r' eq_refl)) in Hx.
Qed.

End RelayFacts.

(** ** Properties *)

(** The SOCKS handshake answers every client, whatever it sends and wherever it stops,
    with exactly one of: refusal of the methods, acceptance and a request whose destination is
    well-formed, or acceptance followed by one reply with code 1, 7 or 8; an error of the
    connection leaves at most the method answer written. *)
Theorem socks_handshake_answers c : Forall is_byte (input c) →
  match socks_handshake c with
  | (c', Ok (Some r)) => output c' = output c ++ [5; 0] ∧ request_wf r
  | (c', Ok None) => output c' = output c ++ [5; 255] ∨
                     ∃ code, refusal code ∧ output c' = output c ++ [5; 0] ++ reply_bytes code
  | (c', Err _) => output c' = output c ∨ output c' = output c ++ [5; 0]
  end.
Proof.
  intros Hc. set (R := λ _ : string, True). unfold socks_handshake.
  pose proof (reads_u8 R eof I c Hc) as H1. unfold sbind at 1. destruct (read_u8 eof c) as [c1 [ver|e]]; [|left; tauto].
  destruct H1 as (Ho1 & Hw1 & Hb1 & _). pose proof (reads_u8 R eof I c1 Hb1) as H2.
  unfold sbind at 1. destruct (read_u8 eof c1) as [c2 [n|e]]; [|left; destruct H2; congruence].
  destruct H2 as (Ho2 & Hw2 & Hb2 & _). pose proof (reads_exact R eof (Z.to_nat n) I c2 Hb2) as H3.
  unfold sbind at 1. destruct (read_exact eof _ c2) as [c3 [ms|e]]; [|left; destruct H3; congruence].
  destruct H3 as (Ho3 & Hw3 & Hb3 & _). assert (output c3 = output c) as Ho by congruence.
  destruct (_ || _); unfold sbind at 1, write_all at 1; destruct (writes c3) as [|w]; try (left; done); cbn.
  { left. by rewrite Ho. }
  pose proof (reads_request (mkClient (input c3) (output c3 ++ [5; 0]) w) Hb3) as H4.
  destruct (socks_request _) as [c4 [r|code]]; destruct H4 as (Ho4 & _ & _ & Hq); cbn in Ho4.
  - by rewrite Ho4, Ho.
  - unfold sbind, socks_reply, write_all. destruct (writes c4) as [|w4]; cbn; rewrite Ho4, Ho; [by right|].
    right. exists code. by rewrite <- app_assoc.
Qed.

(** C26: a client that asks to connect to a destination is understood exactly: after offering
    methods that include no authentication and sending the request in the encoding of RFC
    1928, the handshake yields that destination (addresses in canonical text) and has
    consumed nothing of what follows the request. *)
Theorem socks_connect_exact `{AddressCodec} t methods rest w :
  target_wf t → utf8_valid (host t) = true → 0 ∈ methods → len methods ≤ 255 →
  socks_handshake (mkClient ([5; len methods] ++ methods ++ [5; 1; 0] ++ write_to_buf (destination t) ++ rest) [] (S w))
  = (mkClient rest [5; 0] w, Ok (Some (Connect (canonical t)))).
Proof.
  intros Ht Hu Hm Hl. destruct (destination_encoded t Ht Hu) as (kind & body & -> & Hh & _ & _).
  unfold socks_handshake. cbn [app]. unfold sbind at 1. rewrite read_u8_cons. unfold sbind at 1. rewrite read_u8_cons.
  unfold sbind at 1. replace (Z.to_nat (len methods)) with (length methods) by (unfold len; lia).
  rewrite read_exact_app. change (5 =? 5) with true. cbn [negb orb].
  assert (existsb (Z.eqb 0) methods = true) as ->.
  { apply existsb_exists. exists 0. split; [by apply list_elem_of_In|done]. }
  cbn [negb]. unfold sbind at 1, write_all at 1. cbn [writes input output app].
  unfold socks_request, sbind at 1.
  pose proof (read_exact_app 1 [5; 1; 0; kind] ((body ++ be16 (port t)) ++ rest) [5; 0] w) as HR. cbn [length app] in HR.
  rewrite HR. cbn zeta. cbn [lookup list_lookup default]. unfold Datatypes.id. change (5 =? 5) with true. change (0 =? 0) with true.
  change (1 =? 1) with true. change (1 =? 3) with false. cbn [negb orb].
  unfold sbind at 1. cbv beta. rewrite <- app_assoc, Hh. unfold sbind at 1.
  rewrite read_u16_app by (destruct Ht as (_ & _ & ?); unfold u16_max; lia). by rewrite canonical_socks.
Qed.

(** A datagram put on the wire for a client is understood by the same format's reader:
    unwrapping what [udp_response] built gives back the source (addresses in canonical text)
    and the payload unchanged, and it never exceeds the wire limit. *)
Theorem socks_udp_roundtrip `{AddressCodec} t payload bytes :
  target_wf t → utf8_valid (host t) = true → udp_response t payload = Ok bytes →
  udp_request bytes = Ok (canonical t, payload) ∧ len bytes ≤ MAX_WIRE_BYTES.
Proof.
  intros Ht Hu Hr. pose proof (udp_response_bound _ _ _ Hr) as Hb. split; [|done].
  destruct (destination_encoded t Ht Hu) as (kind & body & He & _ & Hd & _). unfold udp_response in Hr. rewrite He in Hr.
  destruct (MAX_WIRE_BYTES <? _); [done|].
  assert (bytes = [0; 0; 0; kind] ++ body ++ be16 (port t) ++ payload) as ->.
  { assert (bytes = ([0; 0; 0] ++ [kind] ++ body ++ be16 (port t)) ++ payload) as -> by congruence. by rewrite <- !app_assoc. }
  unfold udp_request. rewrite (proj2 (Z.ltb_ge _ _)) by done. cbn [app starts_with strip_prefix]. cbn [orb negb].
  change (0 :: 0 :: 0 :: kind :: ?x) with ([0; 0; 0; kind] ++ x).
  assert (starts_with [0; 0; 0] ([0; 0; 0; kind] ++ body ++ be16 (port t) ++ payload) = true) as -> by done.
  cbn [negb orb]. rewrite Hd.
  assert (∀ l, drop (4 + length body) ([0; 0; 0; kind] ++ body ++ l) = l) as Hdrop.
  { intros l. set (h := [0; 0; 0; kind]). change (4 + length body)%nat with (length h + length body)%nat.
    rewrite app_assoc, <- length_app. apply drop_app_length. }
  unfold get_range. rewrite (proj2 (Nat.ltb_ge _ _)) by (rewrite !length_app, be16_length; simpl; lia).
  cbn [ok_or]. rewrite Hdrop. replace (4 + length body + 2 - (4 + length body))%nat with (length (be16 (port t))) by (rewrite be16_length; lia).
  rewrite take_app_length, from_be16 by (destruct Ht as (_ & _ & ?); unfold u16_max; lia).
  rewrite canonical_socks by done. do 2 f_equal. rewrite <- drop_drop, Hdrop. apply (drop_app_length (be16 (port t))).
Qed.

(** C27: a UDP association serves one client only: every datagram it returns goes to a single
    address whose IP is the TCP peer's (and whose port is the requested one, if the client
    named it), whatever else arrives; it opens at most one outbound session, before sending
    anything, and only through a proxy that is declared to carry UDP. *)
Theorem udp_association_confined `{IpNetLib} `{Resolver} `{AddressCodec} source_ip requested_port now es :
  let actions := relay_run source_ip (relay_init source_ip requested_port now) es in
  (∃ client, sa_ip client = source_ip ∧ (requested_port ≠ 0 → sa_port client = requested_port) ∧
     ∀ bytes a, Reply bytes a ∈ actions → a = client ∧ len bytes ≤ MAX_WIRE_BYTES) ∧
  (actions = [] ∨
   ∃ leaf t rest c p, actions = Open leaf t :: rest ∧ (∀ leaf' t', Open leaf' t' ∉ rest) ∧
     c ∈ es.*1 ∧ proxies c !! leaf = Some p ∧ carries_udp p = true).
Proof.
  assert (relay_ok source_ip requested_port (relay_init source_ip requested_port now)) as Hok.
  { unfold relay_ok, relay_init. cbn. destruct (requested_port =? 0) eqn:E; destruct_bool; done. }
  split; [|by apply (relay_run_opens source_ip requested_port)].
  destruct (relay_run_replies source_ip requested_port _ es Hok) as (client & [? ?] & _ & Hall). exists client. done.
Qed.

(** ** Witnesses *)

#[local] Instance rfc1928 : AddressCodec := {|
  write_to_buf a :=
    match a with
    | SocketAddress (mkSocketAddr (V4 a b c d) p) => [1; a; b; c; d] ++ be16 p
    | SocketAddress (mkSocketAddr (V6 segs) p) => [4] ++ mjoin (be16 <$> segs) ++ be16 p
    | DomainNameAddress name p => [3; len name] ++ name ++ be16 p
    end;
  write_v4 _ _ _ _ _ := eq_refl;
  write_v6 _ _ := eq_refl;
  write_domain _ _ _ := eq_refl;
|}.

Definition demo_name : Target := mkTarget (lit "example.com") 443.

Lemma demo_name_wf : target_wf demo_name.
Proof. repeat split; vm_compute; congruence. Qed.

Lemma socks_handshake_answers_witness :
  socks_handshake (mkClient [5; 1; 0; 5; 2; 0; 1] [] 2) = (mkClient [] ([5; 0] ++ reply_bytes 7) 0, Ok None) ∧
  ∃ code, refusal code ∧ [5; 0] ++ reply_bytes 7 = [5; 0] ++ reply_bytes code.
Proof.
  assert (socks_handshake (mkClient [5; 1; 0; 5; 2; 0; 1] [] 2) = (mkClient [] ([5; 0] ++ reply_bytes 7) 0, Ok None)) as E
    by (vm_compute; reflexivity).
  split; [exact E|]. pose proof (socks_handshake_answers (mkClient [5; 1; 0; 5; 2; 0; 1] [] 2)) as H. rewrite E in H.
  destruct H as [H|H]; [|discriminate H|exact H].
  unfold is_byte. apply (bool_decide_unpack _). vm_compute. exact I.
Defined.

Lemma socks_connect_exact_witness :
  socks_handshake (mkClient ([5; len [2; 0]] ++ [2; 0] ++ [5; 1; 0] ++ write_to_buf (destination demo_name) ++ lit "hello") [] 3)
  = (mkClient (lit "hello") [5; 0] 2, Ok (Some (Connect (canonical demo_name)))).
Proof.
  apply (socks_connect_exact demo_name [2; 0] (lit "hello") 2).
  - exact demo_name_wf.
  - vm_compute. reflexivity.
  - right. left.
  - vm_compute. congruence.
Defined.

Lemma socks_udp_roundtrip_witness : ∃ bytes, udp_response demo_name (lit "ping") = Ok bytes ∧
  udp_request bytes = Ok (canonical demo_name, lit "ping").
Proof.
  destruct (udp_response demo_name (lit "ping")) as [bytes|e] eqn:E; [|exfalso; vm_compute in E; discriminate E].
  exists bytes. split; [reflexivity|].
  exact (proj1 (socks_udp_roundtrip demo_name (lit "ping") bytes demo_name_wf ltac:(vm_compute; reflexivity) E)).
Defined.

End Socks.
