(* ===== verification/Http.v ===== *)
(** * HTTP ingress (src/src/runtime.rs: [authority] to [http_handshake], [copy_exact] to
      [forward_response])

    Requests and responses are read line by line from whatever pieces the connection
    delivers. The request and response syntax is parsed by the httparse crate, a parameter
    here: it turns the bytes of a header into a method, a path, a version, a status and
    fields. Everything the program decides from those is modelled. *)
From S2P Require Import Prelude Utf8 Net Target.

Module Http.

Definition MAX_HEADER : nat := 16 * 1024.
Definition MAX_BODY : Z := 16 * 1024 * 1024.
Definition PROBE_HEADER : string := "x-zc-probe-token".
Definition CRLF : str := [13; 10].

(** ** Authorities *)

Definition authority_port (value : str) : res Z :=
  if bool_decide (value = []) || negb (forallb is_ascii_digit value)
  then Err "authority port must contain decimal digits"
  else ok_or (parse_uint u16_max value) "number too large to fit in target type"%string.

Definition authority (value : str) (default_port : option Z) : res Target :=
  let! '(host, port) :=
    match strip_prefix (lit "[") value with
    | Some rest =>
        let! '(host, suffix) := ok_or (split_once 93 rest) "invalid IPv6 authority"%string in
        let! _ := ok_or (parse_ipv6 host) "invalid IPv6 address"%string in
        let! port :=
          match strip_prefix (lit ":") suffix with
          | Some p => let! p := authority_port p in Ok (Some p)
          | None => Ok (if bool_decide (suffix = []) then default_port else None)
          end in
        let! port := ok_or port "missing or invalid port"%string in
        Ok (host, port)
    | None =>
        match split_once 58 value with
        | Some (host, port) => let! port := authority_port port in Ok (host, port)
        | None => let! port := ok_or default_port "missing port"%string in Ok (value, port)
        end
    end in
  target_new host port.

Definition same_target (left right : Target) : bool :=
  if negb (port left =? port right) then false
  else
    match parse_ip (host left), parse_ip (host right) with
    | Some l, Some r => bool_decide (l = r)
    | _, _ => eq_ignore_ascii_case (host left) (host right)
    end.

(** ** Requests *)

(** What httparse read of a request. *)
Record RawRequest := mkRawRequest {
  rq_method : option str;
  rq_path : option str;
  rq_version : option Z;
  rq_headers : list (str * str);
}.

Record Forward := mkForward {
  fw_header : str;
  fw_length : Z;
  fw_chunked : bool;
  fw_keep_alive : bool;
  fw_head : bool;
  fw_tls : bool;
}.

Record HttpRequest := mkHttpRequest { hr_target : Target; hr_forward : option Forward; hr_probe_token : option str }.

(** [b.is_ascii_alphanumeric() || b"!#$%&'*+-.^_`|~".contains(&b)] *)
Definition is_tchar (b : Z) : bool :=
  is_ascii_alphanumeric b
  || bool_decide (b ∈ [33; 35; 36; 37; 38; 39; 42; 43; 45; 46; 94; 95; 96; 124; 126]).

Definition forbidden_trailers : list string :=
  ["host"; "content-length"; "transfer-encoding"; "connection"; "trailer"; "authorization"; "proxy-authorization";
   PROBE_HEADER; "upgrade"; "expect"; "te"; "proxy-connection"; "keep-alive"].

Definition validate_trailer (name : str) : res unit :=
  if bool_decide (name = []) || negb (forallb is_tchar name) then Err "invalid HTTP trailer name"
  else if existsb (λ f, eq_ignore_ascii_case name (lit f)) forbidden_trailers
  then Err "trailer conflicts with routing or framing"
  else Ok tt.

Fixpoint validate_trailers (names : list str) : res unit :=
  match names with
  | [] => Ok tt
  | n :: names => let! _ := validate_trailer n in validate_trailers names
  end.

(** The first position of a byte that satisfies [f]. *)
Fixpoint find_byte (f : Z → bool) (s : str) : option nat :=
  match s with
  | [] => None
  | b :: s => if f b then Some O else S <$> find_byte f s
  end.

Definition text_of (value : str) : res str := if utf8_valid value then Ok value else Err "invalid utf-8".

Definition find_header (name : string) (hs : list (str * str)) : option str :=
  snd <$> List.find (λ h, eq_ignore_ascii_case (fst h) (lit name)) hs.

(** The destination and the path to ask the origin for. *)
Definition request_target (method path : str) (headers : list (str * str)) : res (Target * str) :=
  let default_port := if starts_with (lit "https://") path then 443 else 80 in
  if eq_str method (lit "CONNECT") then let! t := authority path None in Ok (t, [])
  else if starts_with (lit "/") path || eq_str path (lit "*") then
    let! value := ok_or (find_header "host" headers) "origin-form requires Host"%string in
    let! value := text_of value in
    let! t := authority (trim_blank value) (Some 80) in
    Ok (t, path)
  else
    let! url := ok_or (match strip_prefix (lit "http://") path with
                       | Some u => Some u
                       | None => strip_prefix (lit "https://") path
                       end) "unsupported URL scheme"%string in
    let finish := default (length url) (find_byte (λ b, (b =? 47) || (b =? 63)) url) in
    let! t := authority (take finish url) (Some default_port) in
    let tail := drop finish url in
    Ok (t, if bool_decide (tail = []) then lit "/"
           else if starts_with (lit "?") tail then lit "/" ++ tail else tail).

(** The loop variables of [http_request]. *)
Record Scan := mkScan {
  sc_length : option Z;
  sc_chunked : bool;
  sc_expect : bool;
  sc_trailers : bool;
  sc_host : bool;
  sc_probe : option str;
  sc_connection : list str;
}.

Definition scan_init : Scan := mkScan None false false false false None [].

Definition framing_options : list string :=
  ["host"; "content-length"; "transfer-encoding"; "upgrade"; "expect"; "trailer"].

Fixpoint connection_options (tokens : list str) (acc : list str) : res (list str) :=
  match tokens with
  | [] => Ok acc
  | token :: tokens =>
      let token := to_ascii_lowercase (trim_blank token) in
      if bool_decide (token = []) || negb (forallb is_tchar token) then Err "invalid Connection option"
      else if one_of token framing_options then Err "Connection option conflicts with framing"
      else connection_options tokens (acc ++ [token])
  end.

(** The body of the loop over the headers. *)
Definition scan_field (connect : bool) (version : option Z) (target : Target) (default_port : Z) (s : Scan)
    (h : str * str) : res Scan :=
  let '(raw_name, value) := h in
  let name := to_ascii_lowercase raw_name in
  if eq_str name (lit PROBE_HEADER) then
    if is_some (sc_probe s) || connect then Err "invalid probe header"
    else
      let! token := text_of value in
      if negb (len token =? 65) then Err "invalid probe header"
      else Ok (mkScan (sc_length s) (sc_chunked s) (sc_expect s) (sc_trailers s) (sc_host s) (Some token) (sc_connection s))
  else if eq_str name (lit "transfer-encoding") then
    if sc_chunked s || connect || negb (bool_decide (version = Some 1)) || negb (eq_ignore_ascii_case value (lit "chunked"))
    then Err "unsupported or duplicate Transfer-Encoding"
    else Ok (mkScan (sc_length s) true (sc_expect s) (sc_trailers s) (sc_host s) (sc_probe s) (sc_connection s))
  else if eq_str name (lit "expect") then
    if sc_expect s || connect || negb (bool_decide (version = Some 1)) || negb (eq_ignore_ascii_case value (lit "100-continue"))
    then Err "unsupported or duplicate Expect"
    else Ok (mkScan (sc_length s) (sc_chunked s) true (sc_trailers s) (sc_host s) (sc_probe s) (sc_connection s))
  else if eq_str name (lit "trailer") then
    let! value := text_of value in
    let! _ := validate_trailers (trim_blank <$> split_byte 44 value) in
    Ok (mkScan (sc_length s) (sc_chunked s) (sc_expect s) true (sc_host s) (sc_probe s) (sc_connection s))
  else if eq_str name (lit "upgrade") then Err "HTTP upgrade is unsupported"
  else if eq_str name (lit "host") then
    if sc_host s then Err "duplicate Host"
    else
      let! value := text_of value in
      let! host := authority (trim_blank value) (Some (if connect then port target else default_port)) in
      if negb (same_target target host) then Err "Host conflicts with request target"
      else Ok (mkScan (sc_length s) (sc_chunked s) (sc_expect s) (sc_trailers s) true (sc_probe s) (sc_connection s))
  else if eq_str name (lit "content-length") then
    if is_some (sc_length s) then Err "duplicate Content-Length"
    else
      let! value := text_of value in
      let value := trim_blank value in
      if bool_decide (value = []) || negb (forallb is_ascii_digit value) then Err "invalid Content-Length"
      else
        let! count := ok_or (parse_uint u64_max value) "number too large to fit in target type"%string in
        if (MAX_BODY <? count) || (connect && negb (count =? 0)) then Err "unsupported request body length"
        else Ok (mkScan (Some count) (sc_chunked s) (sc_expect s) (sc_trailers s) (sc_host s) (sc_probe s) (sc_connection s))
  else if eq_str name (lit "connection") then
    let! value := text_of value in
    let! options := connection_options (split_byte 44 value) (sc_connection s) in
    Ok (mkScan (sc_length s) (sc_chunked s) (sc_expect s) (sc_trailers s) (sc_host s) (sc_probe s) options)
  else Ok s.

Fixpoint scan_fields (connect : bool) (version : option Z) (target : Target) (default_port : Z) (hs : list (str * str))
    (s : Scan) : res Scan :=
  match hs with
  | [] => Ok s
  | h :: hs =>
      let! s := scan_field connect version target default_port s h in
      scan_fields connect version target default_port hs s
  end.

Definition dropped_fields : list string :=
  ["host"; "content-length"; "connection"; "proxy-authorization"; "proxy-connection"; PROBE_HEADER; "keep-alive"; "te"].

(** Whether a field of the request is passed on. *)
Definition passed_on (connection : list str) (h : str * str) : bool :=
  let name := to_ascii_lowercase (fst h) in
  negb (one_of name dropped_fields || bool_decide (name ∈ connection)).

Definition field_line (h : str * str) : str := fst h ++ lit ": " ++ snd h ++ CRLF.

Definition host_value (target : Target) : str :=
  (if contains_byte 58 (host target) then lit "[" ++ host target ++ lit "]" else host target)
  ++ lit ":" ++ print_dec (port target).

(** The fields sent to the origin, in order. *)
Definition forward_fields (target : Target) (s : Scan) (hs : list (str * str)) : list (str * str) :=
  [(lit "Host", host_value target)]
  ++ filter (λ h, passed_on (sc_connection s) h = true) hs
  ++ match sc_length s with Some n => [(lit "Content-Length", print_dec n)] | None => [] end
  ++ [(lit "Connection", lit "close")].

Definition request_line (method origin : str) : str := method ++ lit " " ++ origin ++ lit " HTTP/1.1".

Definition forward_header (method origin : str) (target : Target) (s : Scan) (hs : list (str * str)) : str :=
  request_line method origin ++ CRLF ++ mjoin (field_line <$> forward_fields target s hs) ++ CRLF.

Definition bad_target_byte (b : Z) : bool := negb ((33 <=? b) && (b <=? 126)) || (b =? 35) || (b =? 92).

Definition http_request (r : RawRequest) : res HttpRequest :=
  let! method := ok_or (rq_method r) "missing method"%string in
  let! path := ok_or (rq_path r) "missing request target"%string in
  if existsb bad_target_byte path then Err "invalid request target"
  else
    let connect := eq_str method (lit "CONNECT") in
    let tls := starts_with (lit "https://") path in
    let! '(target, origin) := request_target method path (rq_headers r) in
    let! s := scan_fields connect (rq_version r) target (if tls then 443 else 80) (rq_headers r) scan_init in
    if sc_chunked s && is_some (sc_length s) then Err "conflicting HTTP body framing"
    else if sc_trailers s && negb (sc_chunked s) then Err "trailers require chunked framing"
    else if bool_decide (rq_version r = Some 1) && negb (sc_host s) then Err "HTTP/1.1 requires Host"
    else if connect then Ok (mkHttpRequest target None None)
    else
      Ok (mkHttpRequest target
            (Some (mkForward (forward_header method origin target s (rq_headers r)) (default 0 (sc_length s)) (sc_chunked s)
                     (negb (bool_decide (lit "close" ∈ sc_connection s))
                      && (bool_decide (rq_version r = Some 1) || bool_decide (lit "keep-alive" ∈ sc_connection s)))
                     (eq_str method (lit "HEAD")) tls))
            (sc_probe s)).

(** ** What is forwarded *)

(** The values of the fields with a given name, whatever its case. *)
Definition named (n : string) (hs : list (str * str)) : list str :=
  snd <$> filter (λ h, to_ascii_lowercase (fst h) = lit n) hs.

(** The options a Connection field lists. *)
Definition options_of (value : str) : list str := (λ t, to_ascii_lowercase (trim_blank t)) <$> split_byte 44 value.

Lemma named_app n a b : named n (a ++ b) = named n a ++ named n b.
Proof. unfold named. by rewrite filter_app, fmap_app. Qed.

Lemma named_cons n h hs : named n (h :: hs) = named n [h] ++ named n hs.
Proof. apply (named_app n [h]). Qed.

Lemma named_one n h : named n [h] = if bool_decide (to_ascii_lowercase (fst h) = lit n) then [snd h] else [].
Proof. unfold named. rewrite filter_cons, filter_nil. case_decide; [by rewrite bool_decide_eq_true_2|by rewrite bool_decide_eq_false_2]. Qed.

Lemma named_nil n hs : (∀ h, h ∈ hs → to_ascii_lowercase (fst h) ≠ lit n) → named n hs = [].
Proof.
  intros Hn. unfold named. assert (filter (λ h, to_ascii_lowercase (fst h) = lit n) hs = []) as ->; [|done].
  induction hs as [|h hs IH]; [done|]. rewrite filter_cons, decide_False by (apply Hn; constructor).
  apply IH. intros h' Hh'. apply Hn. by constructor.
Qed.

Lemma named_filter n (P : str * str → bool) hs : (∀ h, to_ascii_lowercase (fst h) = lit n → P h = true) →
  named n (filter (λ h, P h = true) hs) = named n hs.
Proof.
  intros HP. induction hs as [|h hs IH]; [done|]. rewrite filter_cons, (named_cons n h hs). case_decide as Hd.
  - by rewrite named_cons, IH.
  - rewrite IH, named_one, bool_decide_eq_false_2; [done|]. intros Hn. by apply Hd, HP.
Qed.

Lemma connection_options_spec tokens acc acc' : connection_options tokens acc = Ok acc' →
  let opts := (λ t, to_ascii_lowercase (trim_blank t)) <$> tokens in
  acc' = acc ++ opts ∧ Forall (λ o, one_of o framing_options = false) opts.
Proof.
  revert acc. induction tokens as [|t ts IH]; intros acc; cbn [connection_options fmap list_fmap]; cbn zeta; [intros [= <-]; by rewrite app_nil_r|].
  destruct (_ || _); [done|]. destruct (one_of _ framing_options) eqn:Eo; [done|]. intros H. apply IH in H as [-> Hf].
  rewrite <- app_assoc. split; [done|]. by constructor.
Qed.

(** What the scan learnt from a list of fields. *)
Record scanned (hs : list (str * str)) (s s' : Scan) : Prop := {
  sn_chunked : (named "transfer-encoding" hs = [] ∧ sc_chunked s' = sc_chunked s) ∨
               (sc_chunked s = false ∧ sc_chunked s' = true ∧
                ∃ v, named "transfer-encoding" hs = [v] ∧ eq_ignore_ascii_case v (lit "chunked") = true);
  sn_upgrade : named "upgrade" hs = [];
  sn_length : sc_length s' = sc_length s ∨ ∃ n, sc_length s' = Some n ∧ 0 ≤ n ≤ MAX_BODY;
  sn_options : ∃ opts, sc_connection s' = sc_connection s ++ opts ∧
               Forall (λ o, one_of o framing_options = false) opts ∧
               ∀ v, v ∈ named "connection" hs → ∀ o, o ∈ options_of v → o ∈ opts;
}.

Lemma named_other n m h : to_ascii_lowercase (fst h) = lit n → lit n ≠ lit m → named m [h] = [].
Proof. intros Hn Hm. rewrite named_one, bool_decide_eq_false_2; [done|]. congruence. Qed.

(** A field that changes nothing the framing depends on. *)
Lemma scanned_plain h s s' :
  named "transfer-encoding" [h] = [] → named "upgrade" [h] = [] → named "connection" [h] = [] →
  sc_chunked s' = sc_chunked s → sc_connection s' = sc_connection s →
  sc_length s' = sc_length s ∨ (∃ n, sc_length s' = Some n ∧ 0 ≤ n ≤ MAX_BODY) → scanned [h] s s'.
Proof.
  intros Ht Hu Hc Ech Eco El. split; [by left|done|done|]. exists []. rewrite app_nil_r. split_and!; [done|done|].
  rewrite Hc. intros v Hv. by apply not_elem_of_nil in Hv.
Qed.

Lemma scan_field_spec connect version target dp s h s' :
  scan_field connect version target dp s h = Ok s' → scanned [h] s s'.
Proof.
  destruct h as [rn v]. unfold scan_field. cbn zeta. set (h := (rn, v)).
  assert (∀ n, eq_str (to_ascii_lowercase rn) (lit n) = true → to_ascii_lowercase (fst h) = lit n) as Hn.
  { intros n Hn. by apply eq_str_true in Hn. }
  assert (∀ n, eq_str (to_ascii_lowercase rn) (lit n) = false → named n [h] = []) as Hno.
  { intros n Hf. apply eq_str_false in Hf. rewrite named_one. by rewrite bool_decide_eq_false_2. }
  assert (∀ n s'', eq_str (to_ascii_lowercase rn) (lit n) = true →
    lit n ≠ lit "transfer-encoding" → lit n ≠ lit "upgrade" → lit n ≠ lit "connection" →
    sc_chunked s'' = sc_chunked s → sc_connection s'' = sc_connection s →
    sc_length s'' = sc_length s ∨ (∃ k, sc_length s'' = Some k ∧ 0 ≤ k ≤ MAX_BODY) → scanned [h] s s'') as Hplain.
  { intros n s'' He H1 H2 H3. apply Hn in He. apply scanned_plain; by eapply named_other. }
  destruct (eq_str _ (lit PROBE_HEADER)) eqn:E1.
  { destruct (_ || _); [done|]. destruct (text_of v); [|done]. destruct (negb _); [done|]. intros [= <-].
    apply (Hplain _ _ E1); try done; by left. }
  destruct (eq_str _ (lit "transfer-encoding")) eqn:E2.
  { destruct (_ || _) eqn:Eb; [done|]. rewrite !orb_false_iff in Eb. destruct Eb as [[[Ec _] _] Ev]. apply negb_false_iff in Ev.
    intros [= <-]. apply Hn in E2. split; [right|by eapply named_other|by left|].
    - split; [done|]. split; [done|]. exists v. split; [|done]. rewrite named_one. by rewrite bool_decide_eq_true_2.
    - exists []. rewrite app_nil_r. split_and!; [done|done|]. rewrite (named_other "transfer-encoding") by done.
      intros x Hx. by apply not_elem_of_nil in Hx. }
  destruct (eq_str _ (lit "expect")) eqn:E3.
  { destruct (_ || _); [done|]. intros [= <-]. apply (Hplain _ _ E3); try done; by left. }
  destruct (eq_str _ (lit "trailer")) eqn:E4.
  { destruct (text_of v); [|done]. destruct (validate_trailers _); [|done]. intros [= <-].
    apply (Hplain _ _ E4); try done; by left. }
  destruct (eq_str _ (lit "upgrade")) eqn:E5; [done|].
  destruct (eq_str _ (lit "host")) eqn:E6.
  { destruct (sc_host s); [done|]. destruct (text_of v); [|done]. destruct (authority _ _); [|done].
    destruct (negb _); [done|]. intros [= <-]. apply (Hplain _ _ E6); try done; by left. }
  destruct (eq_str _ (lit "content-length")) eqn:E7.
  { destruct (is_some _); [done|]. destruct (text_of v); [|done]. destruct (_ || _); [done|].
    destruct (parse_uint _ _) as [n|] eqn:Ep; [|done]. cbn [ok_or]. destruct (_ || _) eqn:Eb; [done|].
    apply orb_false_elim in Eb as [Eb _]. apply parse_uint_bound in Ep. intros [= <-].
    apply (Hplain _ _ E7); try done. right. exists n. split; [done|]. destruct_bool. lia. }
  destruct (eq_str _ (lit "connection")) eqn:E8.
  { unfold text_of. destruct (utf8_valid v); [|done]. destruct (connection_options _ _) as [o|] eqn:Eo; [|done].
    apply connection_options_spec in Eo as [-> Hf]. intros [= <-]. apply Hn in E8.
    split; [left; split; [by eapply named_other|done]|by eapply named_other|by left|].
    eexists. split; [done|]. split; [done|]. intros x Hx o Ho.
    rewrite named_one, bool_decide_eq_true_2 in Hx by done. apply list_elem_of_singleton in Hx as ->. done. }
  intros [= <-]. apply scanned_plain; [by apply Hno|by apply Hno|by apply Hno|done|done|by left].
Qed.

Lemma scan_fields_spec connect version target dp hs s s' :
  scan_fields connect version target dp hs s = Ok s' → scanned hs s s'.
Proof.
  revert s. induction hs as [|h hs IH]; intros s; simpl.
  - intros [= <-]. split; [by left|done|by left|]. exists []. rewrite app_nil_r. split_and!; [done|done|].
    intros v Hv. by apply not_elem_of_nil in Hv.
  - destruct (scan_field connect version target dp s h) as [s1|] eqn:E; [|done]. intros H.
    apply scan_field_spec in E as [C1 U1 L1 (o1 & O1 & F1 & A1)]. apply IH in H as [C2 U2 L2 (o2 & O2 & F2 & A2)]. split.
    + rewrite named_cons. destruct C1 as [[-> E1]|(C1 & C1' & v & -> & Hv)]; [by rewrite E1 in C2|].
      destruct C2 as [[-> ->]|(C2 & _)]; [|congruence]. right. split; [done|]. split; [done|]. by exists v.
    + rewrite named_cons. by rewrite U1, U2.
    + destruct L2 as [E2|?]; [by rewrite E2|by right].
    + exists (o1 ++ o2). rewrite O2, O1, app_assoc. split_and!; [done|by apply Forall_app|].
      intros v Hv o Ho. rewrite named_cons in Hv. apply elem_of_app.
      apply elem_of_app in Hv as [Hv|Hv]; [left; by eapply A1|right; by eapply A2].
Qed.

Lemma one_of_lit n names : one_of (lit n) names = true ↔ n ∈ names.
Proof.
  unfold one_of. rewrite existsb_exists. split.
  - intros (m & Hm & He). apply eq_str_true, lit_inj in He as ->. by apply list_elem_of_In.
  - intros Hn. exists n. split; [by apply list_elem_of_In|by apply eq_str_true].
Qed.

(** A name that is always dropped, or that the client listed as an option. *)
Lemma passed_none n connection hs : n ∈ dropped_fields ∨ lit n ∈ connection →
  named n (filter (λ h, passed_on connection h = true) hs) = [].
Proof.
  intros Hn. apply named_nil. intros h Hh He. apply list_elem_of_filter in Hh as [Hh _]. unfold passed_on in Hh.
  rewrite He in Hh. apply negb_true_iff, orb_false_elim in Hh as [H1 H2]. destruct_bool.
  destruct Hn as [Hn|Hn]; [|done]. apply one_of_lit in Hn. congruence.
Qed.

Lemma passed_all n connection hs : n ∉ dropped_fields → lit n ∉ connection →
  named n (filter (λ h, passed_on connection h = true) hs) = named n hs.
Proof.
  intros H1 H2. apply named_filter. intros h Hh. unfold passed_on. rewrite Hh.
  rewrite (bool_decide_eq_false_2 (lit n ∈ connection)) by done.
  destruct (one_of (lit n) dropped_fields) eqn:E; [|done]. by apply one_of_lit in E.
Qed.

Lemma named_forward n target s hs :
  named n (forward_fields target s hs) =
    (if bool_decide (n = "host"%string) then [host_value target] else []) ++
    named n (filter (λ h, passed_on (sc_connection s) h = true) hs) ++
    (if bool_decide (n = "content-length"%string) then match sc_length s with Some k => [print_dec k] | None => [] end else []) ++
    (if bool_decide (n = "connection"%string) then [lit "close"] else []).
Proof.
  assert (∀ a m v, to_ascii_lowercase (lit a) = lit m →
    named n [(lit a, v)] = if bool_decide (n = m) then [v] else []) as H1.
  { intros a m v Ha. rewrite named_one. cbn [fst snd]. rewrite Ha. rewrite (bool_decide_ext (lit m = lit n) (n = m)); [done|].
    split; [intros H; symmetry; by apply lit_inj|by intros ->]. }
  unfold forward_fields. rewrite !named_app. rewrite (H1 "Host"%string "host"%string) by done.
  rewrite (H1 "Connection"%string "connection"%string) by done. do 2 f_equal. f_equal.
  destruct (sc_length s) as [k|]; [by rewrite (H1 "Content-Length"%string "content-length"%string)|].
  by destruct (bool_decide _).
Qed.

(** ** Lines of the forwarded header *)

Definition no_newline (s : str) : Prop := 10 ∉ s.

(** What httparse promises of a request: no line feed inside a part. *)
Definition request_clean (r : RawRequest) : Prop :=
  (∀ m, rq_method r = Some m → no_newline m) ∧ ∀ h, h ∈ rq_headers r → no_newline (fst h) ∧ no_newline (snd h).

Lemma split_once_elem c s a b x : split_once c s = Some (a, b) → x ∈ a ∨ x ∈ b → x ∈ s.
Proof. intros H. apply split_once_Some in H as [-> _]. rewrite elem_of_app, elem_of_cons. tauto. Qed.

Lemma authority_host value dp t b : authority value dp = Ok t → b ∈ host t → b ∈ value.
Proof.
  unfold authority. intros H Hb.
  destruct (strip_prefix (lit "[") value) as [rest|] eqn:Es.
  - apply strip_prefix_Some in Es as ->. destruct (split_once 93 rest) as [[h suffix]|] eqn:Eo; [|done]. cbn [ok_or] in H.
    destruct (parse_ipv6 h); [|done]. cbn [ok_or] in H.
    destruct (match strip_prefix (lit ":") suffix with Some _ => _ | None => _ end) as [p|]; [|done].
    destruct p as [p|]; [|done]. cbn [ok_or] in H. apply target_new_Ok in H as (-> & _). simpl in Hb.
    apply elem_of_app. right. eapply split_once_elem; [exact Eo|by left].
  - destruct (split_once 58 value) as [[h p]|] eqn:Eo.
    + destruct (authority_port p); [|done]. apply target_new_Ok in H as (-> & _). simpl in Hb.
      eapply split_once_elem; [exact Eo|by left].
    + destruct dp; [|done]. cbn [ok_or] in H. by apply target_new_Ok in H as (-> & _).
Qed.

Lemma request_target_clean method path hs t origin :
  no_newline path → (∀ h, h ∈ hs → no_newline (snd h)) → request_target method path hs = Ok (t, origin) →
  no_newline (host t) ∧ no_newline origin.
Proof.
  unfold no_newline. intros Hp Hh. unfold request_target. destruct (eq_str method _).
  { destruct (authority path None) as [t'|] eqn:Ea; [|done]. intros [= <- <-]. split; [|apply not_elem_of_nil].
    intros Hb. by apply Hp, (authority_host _ _ _ _ Ea). }
  destruct (_ || _).
  { unfold find_header. destruct (List.find _ hs) as [[n v]|] eqn:Ef; [|done]. apply find_some in Ef as [Hin _].
    cbn. unfold text_of. destruct (utf8_valid v); [|done]. destruct (authority _ _) as [t'|] eqn:Ea; [|done].
    intros [= <- <-]. split; [|done]. intros Hb. apply (authority_host _ _ _ _ Ea), trim_by_elem in Hb.
    apply (Hh (n, v)); [by apply list_elem_of_In|done]. }
  destruct (match strip_prefix (lit "http://") path with Some u => Some u | None => _ end) as [url|] eqn:Eu; [|done].
  assert (10 ∉ url) as Hu.
  { destruct (strip_prefix (lit "http://") path) as [u|] eqn:E1.
    - injection Eu as <-. apply strip_prefix_Some in E1. subst path. intros Hb. apply Hp, elem_of_app. by right.
    - apply strip_prefix_Some in Eu. subst path. intros Hb. apply Hp, elem_of_app. by right. }
  cbn [ok_or]. set (n := default (length url) _). rewrite <- (take_drop n url), elem_of_app in Hu.
  apply Decidable.not_or in Hu as [Hfront Htail].
  destruct (authority _ _) as [t'|] eqn:Ea; [|done]. intros [= <- <-]. split.
  - intros Hb. by apply (authority_host _ _ _ _ Ea) in Hb.
  - set (tail := drop n url) in *.
    assert (10 ∉ lit "/") as Hslash by (apply (bool_decide_unpack _); vm_compute; exact I).
    destruct (bool_decide (tail = [])); [exact Hslash|]. destruct (starts_with (lit "?") tail); [|exact Htail].
    intros Hb. apply elem_of_cons in Hb as [Hb|Hb]; [discriminate Hb|by apply Htail].
Qed.

Lemma split_lines line rest : no_newline line → split_byte 10 (line ++ CRLF ++ rest) = (line ++ [13]) :: split_byte 10 rest.
Proof.
  intros Hl. change (line ++ CRLF ++ rest) with (line ++ ([13] ++ 10 :: rest)). rewrite app_assoc.
  apply split_byte_app. intros Hb. apply elem_of_app in Hb as [Hb|Hb]; [done|]. by rewrite list_elem_of_singleton in Hb.
Qed.

Definition field_text (h : str * str) : str := fst h ++ lit ": " ++ snd h.

Lemma split_fields fields : Forall (λ h, no_newline (field_text h)) fields →
  split_byte 10 (mjoin (field_line <$> fields) ++ CRLF) = ((λ h, field_text h ++ [13]) <$> fields) ++ [[13]; []].
Proof.
  induction 1 as [|h fields Hh _ IH]; [done|]. rewrite !fmap_cons. change (mjoin (?x :: ?xs)) with (x ++ mjoin xs).
  assert (field_line h = field_text h ++ CRLF) as -> by (unfold field_line, field_text; by rewrite <- !app_assoc).
  rewrite <- !app_assoc, split_lines by done. by rewrite IH.
Qed.

Lemma no_newline_app a b : no_newline (a ++ b) ↔ no_newline a ∧ no_newline b.
Proof. unfold no_newline. rewrite elem_of_app. tauto. Qed.

Lemma no_newline_lit n : bool_decide (10 ∉ lit n) = true → no_newline (lit n).
Proof. apply bool_decide_eq_true. Qed.

Lemma print_dec_no_newline n : 0 ≤ n → no_newline (print_dec n).
Proof.
  intros Hn Hb. destruct (print_dec_spec n Hn) as (Hd & _). rewrite forallb_forall in Hd.
  apply list_elem_of_In, Hd in Hb. done.
Qed.

Lemma forward_fields_clean target s hs :
  no_newline (host target) → 0 ≤ port target → (∀ n, sc_length s = Some n → 0 ≤ n) →
  (∀ h, h ∈ hs → no_newline (fst h) ∧ no_newline (snd h)) →
  Forall (λ h, no_newline (field_text h)) (forward_fields target s hs).
Proof.
  intros Ht Hp Hl Hh. unfold forward_fields.
  assert (∀ a v, bool_decide (10 ∉ lit a) = true → no_newline v → no_newline (field_text (lit a, v))) as Hf.
  { intros a v Ha Hv. unfold field_text. rewrite !no_newline_app. split_and!; [by apply no_newline_lit|by apply no_newline_lit|done]. }
  rewrite !Forall_app, Forall_singleton, Forall_singleton. split_and!.
  - apply Hf; [done|]. unfold host_value. rewrite !no_newline_app.
    split_and!; [|by apply no_newline_lit|by apply print_dec_no_newline].
    destruct (contains_byte 58 (host target)); [|done]. rewrite !no_newline_app.
    split_and!; [by apply no_newline_lit|done|by apply no_newline_lit].
  - apply Forall_forall. intros h Hin. apply list_elem_of_filter in Hin as [_ Hin]. destruct (Hh h Hin).
    unfold field_text. rewrite !no_newline_app. split_and!; [done|by apply no_newline_lit|done].
  - destruct (sc_length s) as [n|] eqn:E; [|constructor]. apply Forall_singleton, Hf; [done|].
    apply print_dec_no_newline. by apply Hl.
  - apply Hf; [done|]. by apply no_newline_lit.
Qed.

Lemma request_target_port method path hs t origin : request_target method path hs = Ok (t, origin) → 1 ≤ port t ≤ 65535.
Proof.
  assert (∀ v dp t', (∀ d, dp = Some d → 0 ≤ d ≤ 65535) → authority v dp = Ok t' → 1 ≤ port t' ≤ 65535) as Ha.
  { intros v dp t' Hd. unfold authority.
    assert (∀ p n, authority_port p = Ok n → 0 ≤ n ≤ 65535) as Hport.
    { intros p n. unfold authority_port. destruct (_ || _); [done|]. destruct (parse_uint u16_max p) eqn:E; [|done].
      intros [= <-]. by apply parse_uint_bound in E. }
    assert (∀ h p, 0 ≤ p ≤ 65535 → target_new h p = Ok t' → 1 ≤ port t' ≤ 65535) as Hnew.
    { intros h p Hp Ht. by apply target_new_wf in Ht as (_ & _ & ?). }
    destruct (strip_prefix _ v) as [rest|].
    - destruct (split_once 93 rest) as [[h suffix]|]; [|done]. cbn [ok_or]. destruct (parse_ipv6 h); [|done]. cbn [ok_or].
      destruct (strip_prefix (lit ":") suffix) as [p|].
      + destruct (authority_port p) as [n|] eqn:E; [|done]. cbn [ok_or]. apply Hnew. by eapply Hport.
      + destruct (bool_decide _); [|done]. destruct dp as [d|]; [|done]. cbn [ok_or]. apply Hnew. by apply Hd.
    - destruct (split_once 58 v) as [[h p]|].
      + destruct (authority_port p) as [n|] eqn:E; [|done]. apply Hnew. by eapply Hport.
      + destruct dp as [d|]; [|done]. cbn [ok_or]. apply Hnew. by apply Hd. }
  unfold request_target. destruct (eq_str _ _).
  { destruct (authority _ _) eqn:E; [|done]. intros [= <- <-]. by eapply Ha; [|exact E]. }
  destruct (_ || _).
  { destruct (find_header _ _); [|done]. cbn [ok_or]. destruct (text_of _); [|done]. destruct (authority _ _) eqn:E; [|done].
    intros [= <- <-]. eapply Ha; [|exact E]. intros d [= <-]. lia. }
  destruct (match strip_prefix (lit "http://") path with Some u => Some u | None => _ end); [|done]. cbn [ok_or].
  destruct (authority _ _) eqn:E; [|done]. intros [= <- <-]. eapply Ha; [|exact E]. intros d [= <-].
  destruct (starts_with _ _); lia.
Qed.

Section Forwarded.
Context (target : Target) (hs : list (str * str)) (sc : Scan).
Hypothesis Hsc : scanned hs scan_init sc.

Lemma scanned_length n : sc_length sc = Some n → 0 ≤ n ≤ MAX_BODY.
Proof. intros Hn. destruct (sn_length _ _ _ Hsc) as [L|(k & L & Hk)]; [by rewrite Hn in L|]. rewrite Hn in L. by injection L as ->. Qed.

Lemma framing_not_option n : n ∈ framing_options → lit n ∉ sc_connection sc.
Proof.
  intros Hn Hin. destruct (sn_options _ _ _ Hsc) as (opts & O & F & _). change (sc_connection scan_init) with (@nil str) in O.
  simpl in O. rewrite O in Hin. rewrite Forall_forall in F. apply F in Hin. apply one_of_lit in Hn. congruence.
Qed.

(** The field is neither dropped nor added by the proxy. *)
Lemma named_kept n : n ∉ dropped_fields → n ∈ framing_options → named n (forward_fields target sc hs) = named n hs.
Proof.
  intros Hd Hf. rewrite named_forward, passed_all; [|done|by apply framing_not_option].
  rewrite !bool_decide_eq_false_2; [by rewrite app_nil_l, !app_nil_r|..]; intros ->; apply Hd, one_of_lit; done.
Qed.

Lemma named_dropped n : n ∈ dropped_fields ∨ lit n ∈ sc_connection sc →
  n ∉ ["host"; "content-length"; "connection"]%string → named n (forward_fields target sc hs) = [].
Proof.
  intros Hd Hn. rewrite named_forward, passed_none by done.
  rewrite !bool_decide_eq_false_2; [done|..]; intros ->; apply Hn; apply (bool_decide_unpack _); vm_compute; exact I.
Qed.

Lemma named_own :
  named "host" (forward_fields target sc hs) = [host_value target] ∧
  named "connection" (forward_fields target sc hs) = [lit "close"] ∧
  named "content-length" (forward_fields target sc hs) = match sc_length sc with Some k => [print_dec k] | None => [] end.
Proof.
  rewrite !named_forward, !passed_none by (left; apply one_of_lit; done).
  split_and!; [done|done|]. cbn. by rewrite app_nil_r.
Qed.

Lemma forward_framing : sc_chunked sc && is_some (sc_length sc) = false →
  if sc_chunked sc
  then named "content-length" (forward_fields target sc hs) = [] ∧
       ∃ v, named "transfer-encoding" (forward_fields target sc hs) = [v] ∧ eq_ignore_ascii_case v (lit "chunked") = true
  else named "transfer-encoding" (forward_fields target sc hs) = [] ∧
       (named "content-length" (forward_fields target sc hs) = [] ∧ default 0 (sc_length sc) = 0 ∨
        named "content-length" (forward_fields target sc hs) = [print_dec (default 0 (sc_length sc))]).
Proof.
  destruct named_own as (_ & _ & ->). rewrite (named_kept "transfer-encoding")
    by (apply (bool_decide_unpack _); vm_compute; exact I).
  destruct (sn_chunked _ _ _ Hsc) as [[-> ->]|(_ & -> & v & -> & Hv)].
  - intros _. cbn [sc_chunked scan_init]. split; [done|]. destruct (sc_length sc); [by right|by left].
  - destruct (sc_length sc); [done|]. intros _. split; [done|]. by exists v.
Qed.

End Forwarded.

(** ** Properties *)

(** C18: a request the proxy forwards cannot be read two ways by the origin: the header it
    sends has exactly one Host, the chosen destination's; it frames the body either by one
    chunked Transfer-Encoding and no Content-Length or by at most one Content-Length, the
    length that will be copied, of at most 16 MiB; no proxy credentials, probe token, upgrade
    or other hop-by-hop field and none the client listed as a Connection option is passed on;
    and when no part of the parsed request contains a line feed, the header's lines are
    exactly the request line and those fields. *)
Theorem http_forward_unambiguous r q f :
  http_request r = Ok q → hr_forward q = Some f →
  ∃ line fields,
    fw_header f = line ++ CRLF ++ mjoin (field_line <$> fields) ++ CRLF ∧
    named "host" fields = [host_value (hr_target q)] ∧ named "connection" fields = [lit "close"] ∧
    (if fw_chunked f
     then named "content-length" fields = [] ∧
          ∃ v, named "transfer-encoding" fields = [v] ∧ eq_ignore_ascii_case v (lit "chunked") = true
     else named "transfer-encoding" fields = [] ∧
          (named "content-length" fields = [] ∧ fw_length f = 0 ∨
           named "content-length" fields = [print_dec (fw_length f)])) ∧
    0 ≤ fw_length f ≤ MAX_BODY ∧
    (∀ n, n ∈ ["proxy-authorization"; "proxy-connection"; PROBE_HEADER; "keep-alive"; "te"; "upgrade"]%string →
       named n fields = []) ∧
    (∀ v n, v ∈ named "connection" (rq_headers r) → lit n ∈ options_of v → n ≠ "connection"%string → named n fields = []) ∧
    (request_clean r → split_byte 10 (fw_header f) = (line ++ [13]) :: ((λ h, field_text h ++ [13]) <$> fields) ++ [[13]; []]).
Proof.
  unfold http_request. destruct (rq_method r) as [method|] eqn:Em; [|done]. destruct (rq_path r) as [path|] eqn:Ep; [|done].
  cbn [ok_or]. destruct (existsb bad_target_byte path) eqn:Eb; [done|].
  destruct (request_target method path (rq_headers r)) as [[target origin]|] eqn:Et; [|done].
  destruct (scan_fields _ _ _ _ _ _) as [sc|] eqn:Es; [|done]. destruct (_ && _) eqn:Ec; [done|].
  destruct (sc_trailers sc && _); [done|]. destruct (bool_decide (rq_version r = Some 1) && _); [done|].
  destruct (eq_str method (lit "CONNECT")); [by intros [= <-]|]. intros [= <-]. cbn [hr_forward hr_target]. intros [= <-].
  cbn [fw_header fw_chunked fw_length]. apply scan_fields_spec in Es. rename Es into Hsc.
  exists (request_line method origin), (forward_fields target sc (rq_headers r)).
  destruct (named_own target (rq_headers r) sc) as (Hh & Hc & _). split; [done|]. split; [done|]. split; [done|].
  split; [by apply forward_framing|]. pose proof (scanned_length _ _ Hsc) as Hlen.
  split; [destruct (sc_length sc) as [n|]; [by apply Hlen|by compute]|]. split; [|split].
  - intros n Hn. rewrite !elem_of_cons in Hn.
    destruct Hn as [->|[->|[->|[->|[->|[->|Hn]]]]]]; [..|by apply not_elem_of_nil in Hn];
      try (apply named_dropped; [left|]; apply (bool_decide_unpack _); vm_compute; exact I).
    rewrite named_kept by (try exact Hsc; apply (bool_decide_unpack _); vm_compute; exact I). apply Hsc.
  - intros v n Hv Hn Hne. destruct (sn_options _ _ _ Hsc) as (opts & O & _ & A). cbn in O.
    assert (lit n ∈ sc_connection sc) as Hin by (rewrite O; by eapply A).
    apply named_dropped; [by right|]. rewrite !elem_of_cons. intros [->|[->|[->|Hx]]]; [..|done|by apply not_elem_of_nil in Hx];
      (eapply framing_not_option; [exact Hsc| |exact Hin]); apply (bool_decide_unpack _); vm_compute; exact I.
  - intros [Hm Hf]. unfold forward_header.
    assert (no_newline path) as Hp.
    { intros Hb. rewrite <- not_true_iff_false, existsb_exists in Eb. apply Eb. exists 10. split; [by apply list_elem_of_In|done]. }
    destruct (request_target_clean _ _ _ _ _ Hp (λ h Hin, proj2 (Hf h Hin)) Et) as [Ht Ho].
    rewrite split_lines; [|unfold request_line; rewrite !no_newline_app; split_and!; [by apply Hm|by apply no_newline_lit|done|by apply no_newline_lit]].
    f_equal. apply split_fields, forward_fields_clean; [done| |intros n Hn; by apply Hlen|done].
    pose proof (request_target_port _ _ _ _ _ Et). lia.
Qed.

(** ** Witness *)

Definition demo_request : RawRequest :=
  mkRawRequest (Some (lit "POST")) (Some (lit "http://a.example:8080/x?y")) (Some 1)
    [(lit "Host", lit "a.example:8080"); (lit "Connection", lit "keep-alive, X-Hop"); (lit "X-Hop", lit "1");
     (lit "Proxy-Authorization", lit "secret"); (lit "Content-Length", lit "5")].

Lemma http_forward_unambiguous_witness : ∃ q f line fields,
  http_request demo_request = Ok q ∧ hr_forward q = Some f ∧
  fw_header f = line ++ CRLF ++ mjoin (field_line <$> fields) ++ CRLF ∧ fw_length f = 5 ∧
  named "host" fields = [lit "a.example:8080"] ∧ named "x-hop" fields = [] ∧
  split_byte 10 (fw_header f) = (line ++ [13]) :: ((λ h, field_text h ++ [13]) <$> fields) ++ [[13]; []].
Proof.
  destruct (http_request demo_request) as [q|e] eqn:Eq; [|vm_compute in Eq; discriminate Eq].
  destruct (hr_forward q) as [f|] eqn:Ef; [|vm_compute in Eq; injection Eq as <-; discriminate Ef].
  destruct (http_forward_unambiguous demo_request q f Eq Ef) as (line & fields & Hh & Hhost & _ & _ & _ & _ & Hopt & Hsplit).
  exists q, f, line, fields. vm_compute in Eq. injection Eq as <-. injection Ef as <-.
  split; [reflexivity|]. split; [reflexivity|]. split; [exact Hh|]. split; [reflexivity|].
  split; [rewrite Hhost; reflexivity|]. split.
  - apply (Hopt (lit "keep-alive, X-Hop") "x-hop"%string); [apply (bool_decide_unpack _); vm_compute; exact I..|discriminate].
  - apply Hsplit. split.
    + intros m [= <-]. apply (bool_decide_unpack _). vm_compute. exact I.
    + intros h Hin. simpl in Hin. rewrite !elem_of_cons in Hin.
      destruct Hin as [->|[->|[->|[->|[->|Hin]]]]]; [..|by apply not_elem_of_nil in Hin];
        split; apply (bool_decide_unpack _); vm_compute; exact I.
Defined.

End Http.
