(* ===== verification/HttpBody.v ===== *)
(** * HTTP bodies and responses (src/src/runtime.rs: [http_line] to [http_handshake],
      [copy_exact], [copy_chunked], [forward_response])

    A pipe is what one direction of a forwarded connection reads from and writes to: the
    pieces the reader still delivers and whether it then ends in an error, how many bytes and
    flushes the writer still takes, and what was written. The functions of the httparse crate
    are parameters. *)
From S2P Require Import Prelude Utf8 Net Target Http.

Module HttpBody.
Import Http.

Record Pipe := mkPipe { chunks : list str; broken : bool; room : nat; flushes : nat; written : str }.

Abbreviation PM := (SE Pipe string).

(** ** Reading and writing *)

Definition with_chunks (p : Pipe) (cs : list str) : Pipe := mkPipe cs (broken p) (room p) (flushes p) (written p).

Definition truncated : string := "incomplete HTTP framing".

(** [consume] of the first piece. *)
Definition consume (n : nat) (available : str) (rest : list str) : list str :=
  if bool_decide (drop n available = []) then rest else drop n available :: rest.

(** The loop of [http_line], with the line so far. *)
Fixpoint http_line_go (cs : list str) (limit : nat) (line : str) : list str * res str :=
  match cs with
  | [] => ([], Err truncated)
  | available :: rest =>
      let count := match find_byte (Z.eqb 10) available with Some n => S n | None => length available end in
      if (limit <? length line + count)%nat then (cs, Err "HTTP line exceeds limit")
      else
        let line := line ++ take count available in
        let cs := consume count available rest in
        if ends_with [10] line then
          if negb (ends_with CRLF line) || contains_byte 13 (take (length line - 2) line)
          then (cs, Err "HTTP requires CRLF")
          else (cs, Ok line)
        else http_line_go rest limit line
  end.

Definition http_line (limit : nat) : PM str := λ p,
  let '(cs, r) := http_line_go (chunks p) limit [] in (with_chunks p cs, r).

(** Lines up to the empty one; every line takes at least two bytes of the limit. *)
Fixpoint http_header_go (fuel : nat) (bytes : str) : PM str :=
  match fuel with
  | O => serr "out of fuel"%string
  | S fuel =>
      do! line := http_line (MAX_HEADER - length bytes) in
      if eq_str line CRLF then sret (bytes ++ line) else http_header_go fuel (bytes ++ line)
  end.

Definition http_header : PM str := http_header_go (S MAX_HEADER) [].

(** The first [n] bytes the reader has. *)
Fixpoint take_bytes (n : nat) (cs : list str) : str * list str :=
  match cs with
  | [] => ([], [])
  | c :: cs =>
      if (length c <=? n)%nat then let '(b, r) := take_bytes (n - length c) cs in (c ++ b, r)
      else (take n c, drop n c :: cs)
  end.

Definition write_all (bytes : str) : PM unit := λ p,
  if (length bytes <=? room p)%nat
  then (mkPipe (chunks p) (broken p) (room p - length bytes) (flushes p) (written p ++ bytes), Ok tt)
  else (mkPipe (chunks p) (broken p) 0 (flushes p) (written p ++ take (room p) bytes), Err "write failed"%string).

Definition flush : PM unit := λ p,
  match flushes p with
  | O => (p, Err "flush failed"%string)
  | S n => (mkPipe (chunks p) (broken p) (room p) n (written p), Ok tt)
  end.

Definition read_upto (n : nat) : PM str := λ p,
  let '(b, cs) := take_bytes n (chunks p) in (with_chunks p cs, Ok b).

(** A copy that is cut short has passed on what it read; [tokio::io::copy] ends with a
    flush. *)
Definition copy_exact (n : nat) : PM unit :=
  do! b := read_upto n in
  do! _ := write_all b in
  do! _ := flush in
  if (length b =? n)%nat then sret tt else serr truncated.

Definition read_exact (n : nat) : PM str :=
  do! b := read_upto n in if (length b =? n)%nat then sret b else serr truncated.

(** [tokio::io::copy] to the end of the input. *)
Definition copy_rest : PM unit :=
  do! b := (λ p, (with_chunks p [], Ok (mjoin (chunks p)))) in
  do! _ := write_all b in
  λ p, if broken p then (p, Err "read failed"%string) else flush p.

Section Parsers.
(** The functions of httparse; [None] is a partial parse. *)
Context (parse_request : str → res (option RawRequest)).
Context (parse_chunk_size : str → res (option (nat * N))).
Context (parse_headers : str → res (option (list (str * str)))).

Definition http_handshake : PM HttpRequest :=
  do! bytes := http_header in
  λ p, (p,
    let! parsed := parse_request bytes in
    let! r := ok_or parsed "incomplete HTTP header"%string in
    let! method := ok_or (rq_method r) "missing method"%string in
    let! path := ok_or (rq_path r) "missing target"%string in
    let! version := ok_or (rq_version r) "missing version"%string in
    if negb (starts_with (method ++ lit " " ++ path ++ lit " HTTP/1." ++ print_dec version ++ CRLF) bytes)
    then Err "invalid request line"
    else http_request r).

(** ** Chunked bodies *)

Definition size_line_ok (line : str) : bool :=
  is_ascii_hexdigit (default 0 (line !! 0%nat))
  && forallb (λ b, (32 <=? b) && (b <=? 126)) (take (length line - 2) line).

Definition chunk_size (line : str) : res Z :=
  if negb (size_line_ok line) then Err "invalid chunk size line"
  else
    let! parsed := map_err (λ _, "invalid chunk size"%string) (parse_chunk_size line) in
    let! '(finish, size) := ok_or parsed "incomplete chunk size"%string in
    if negb (finish =? length line)%nat then Err "invalid chunk size line" else Ok (Z.of_N size).

Definition check_trailers (bytes : str) : res unit :=
  let! parsed := parse_headers bytes in
  let! fields := ok_or parsed "incomplete HTTP trailers"%string in
  validate_trailers (fst <$> fields).

Definition lift {A} (r : res A) : PM A := λ p, (p, r).

(** The loop over the chunks, with the payload so far. *)
Fixpoint copy_chunks (rounds : nat) (limit total : Z) : PM unit :=
  match rounds with
  | O => serr "HTTP chunk count exceeds limit"%string
  | S rounds =>
      do! line := http_line 4096 in
      do! size := lift (chunk_size line) in
      if u64_max <? total + size then serr "HTTP body size overflow"%string
      else if limit <? total + size then serr "HTTP body exceeds limit"%string
      else if size =? 0 then
        do! trailers := http_header in
        do! _ := lift (check_trailers trailers) in
        do! _ := write_all line in
        write_all trailers
      else
        do! _ := write_all line in
        do! _ := copy_exact (Z.to_nat size) in
        do! crlf := read_exact 2 in
        if negb (eq_str crlf CRLF) then serr "invalid chunk delimiter"%string
        else
          do! _ := write_all crlf in
          do! _ := flush in
          copy_chunks rounds limit (total + size)
  end.

Definition copy_chunked (limit : Z) : PM unit := copy_chunks (Z.to_nat 262144) limit 0.

(** ** Responses *)

(** What httparse read of a response. *)
Record RawResponse := mkRawResponse { rs_code : option Z; rs_headers : list (str * str) }.

Context (parse_response : str → res (option RawResponse)).

Record Framing := mkFraming { fr_length : option Z; fr_chunked : bool; fr_connection : list str }.

Fixpoint response_options (tokens : list str) (acc : list str) : res (list str) :=
  match tokens with
  | [] => Ok acc
  | token :: tokens =>
      let token := to_ascii_lowercase (trim token) in
      if one_of token ["content-length"; "transfer-encoding"] then Err "response Connection conflicts with framing"
      else response_options tokens (acc ++ [token])
  end.

Definition scan_response_field (s : Framing) (h : str * str) : res Framing :=
  let '(name, value) := h in
  if eq_ignore_ascii_case name (lit "content-length") then
    let! text := text_of value in
    let text := trim_blank text in
    if is_some (fr_length s) || bool_decide (text = []) || negb (forallb is_ascii_digit text)
    then Err "invalid response Content-Length"
    else
      let! n := ok_or (parse_uint u64_max text) "number too large to fit in target type"%string in
      Ok (mkFraming (Some n) (fr_chunked s) (fr_connection s))
  else if eq_ignore_ascii_case name (lit "transfer-encoding") then
    if fr_chunked s || negb (eq_ignore_ascii_case value (lit "chunked")) then Err "unsupported response Transfer-Encoding"
    else Ok (mkFraming (fr_length s) true (fr_connection s))
  else if eq_ignore_ascii_case name (lit "connection") then
    let! text := text_of value in
    let! options := response_options (split_byte 44 text) (fr_connection s) in
    Ok (mkFraming (fr_length s) (fr_chunked s) options)
  else Ok s.

Fixpoint scan_response (hs : list (str * str)) (s : Framing) : res Framing :=
  match hs with
  | [] => Ok s
  | h :: hs => let! s := scan_response_field s h in scan_response hs s
  end.

(** The header of a response the connection survives. *)
Definition response_field_kept (connection : list str) (h : str * str) : bool :=
  let name := to_ascii_lowercase (fst h) in
  negb (one_of name ["connection"; "keep-alive"; "proxy-connection"] || bool_decide (name ∈ connection)).

Definition persistent_header (line : str) (connection : list str) (hs : list (str * str)) : str :=
  line ++ mjoin (field_line <$> filter (λ h, response_field_kept connection h = true) hs)
  ++ lit "Connection: keep-alive" ++ CRLF ++ CRLF.

(** A response header: its status and framing. *)
Definition response_head (bytes : str) : res (Z * Framing * list (str * str)) :=
  let! parsed := parse_response bytes in
  let! r := (if negb (starts_with (lit "HTTP/1.") bytes) then Err "invalid HTTP response"%string
             else ok_or parsed "invalid HTTP response"%string) in
  let! status := ok_or (rs_code r) "missing HTTP status"%string in
  let! f := scan_response (rs_headers r) (mkFraming None false []) in
  if is_some (fr_length f) && fr_chunked f then Err "conflicting response framing"
  else if status =? 101 then Err "HTTP upgrade is unsupported"
  else Ok (status, f, rs_headers r).

(** The body of a final response. *)
Definition response_body (empty : bool) (f : Framing) : PM unit :=
  if empty then sret tt
  else if fr_chunked f then copy_chunked u64_max
  else match fr_length f with
       | Some n => copy_exact (Z.to_nat n)
       | None => copy_rest
       end.

(** The loop over interim responses. *)
Fixpoint forward_responses (rounds : nat) (fw : Forward) : PM bool :=
  match rounds with
  | O => serr "too many interim HTTP responses"%string
  | S rounds =>
      do! bytes := http_header in
      do! head := lift (response_head bytes) in
      let '(status, f, hs) := head in
      if status <? 200 then do! _ := write_all bytes in forward_responses rounds fw
      else
        let empty := fw_head fw || (status =? 204) || (status =? 304) in
        let persistent := fw_keep_alive fw && (empty || is_some (fr_length f) || fr_chunked f) in
        do! _ := (if persistent then
                    do! end_ := lift (ok_or (find_sub CRLF bytes) "missing response line"%string) in
                    write_all (persistent_header (take (end_ + 2) bytes) (fr_connection f) hs)
                  else write_all bytes) in
        do! _ := response_body empty f in
        do! _ := flush in
        sret persistent
  end.

Definition forward_response (fw : Forward) : PM bool := forward_responses 16 fw.

End Parsers.

(** ** Lines do not depend on how the bytes arrive *)

Definition pieces_ok (cs : list str) : Prop := Forall (λ c, c ≠ []) cs.

Definition line_bad (line : str) : bool :=
  negb (ends_with CRLF line) || contains_byte 13 (take (length line - 2) line).

(** The first line of a byte sequence, and what follows it. *)
Definition line_spec (limit : nat) (s : str) : res (str * str) :=
  match find_byte (Z.eqb 10) s with
  | None => Err (if (limit <? length s)%nat then "HTTP line exceeds limit"%string else truncated)
  | Some n =>
      if (limit <? S n)%nat then Err "HTTP line exceeds limit"
      else if line_bad (take (S n) s) then Err "HTTP requires CRLF"
      else Ok (take (S n) s, drop (S n) s)
  end.

Lemma find_byte_app f a b :
  find_byte f (a ++ b) = match find_byte f a with Some n => Some n | None => Nat.add (length a) <$> find_byte f b end.
Proof.
  induction a as [|x a IH]; simpl; [by destruct (find_byte f b)|]. destruct (f x); [done|]. rewrite IH.
  destruct (find_byte f a); [done|]. by destruct (find_byte f b).
Qed.

Lemma find_byte_Some f s n : find_byte f s = Some n → (n < length s)%nat ∧ ∃ x, s !! n = Some x ∧ f x = true.
Proof.
  revert n. induction s as [|x s IH]; intros n; simpl; [done|]. destruct (f x) eqn:E.
  - intros [= <-]. split; [lia|]. by exists x.
  - destruct (find_byte f s) as [m|]; [|done]. simpl. intros [= <-]. destruct (IH m eq_refl) as [? ?]. split; [lia|done].
Qed.

Lemma ends_with_lf a b n : find_byte (Z.eqb 10) b = Some n → ends_with [10] (a ++ take (S n) b) = true.
Proof.
  intros Hf. apply find_byte_Some in Hf as (Hl & x & Hx & He). apply Z.eqb_eq in He as <-.
  apply ends_with_true. exists (a ++ take n b). rewrite (take_S_r b n 10) by done. by rewrite app_assoc.
Qed.

Lemma no_lf_not_ends a : find_byte (Z.eqb 10) a = None → ends_with [10] a = false.
Proof.
  intros Hf. apply not_true_iff_false. intros He. apply ends_with_true in He as (r & ->).
  rewrite find_byte_app in Hf. by destruct (find_byte (Z.eqb 10) r).
Qed.

Lemma consume_join n a rest : take n a ++ mjoin (consume n a rest) = a ++ mjoin rest.
Proof.
  unfold consume. destruct (bool_decide _) eqn:E; destruct_bool.
  - rewrite <- (take_drop n a) at 2. by rewrite E, app_nil_r.
  - rewrite mjoin_cons, app_assoc, take_drop. done.
Qed.

Lemma consume_ok n a rest : pieces_ok rest → pieces_ok (consume n a rest).
Proof. intros Hr. unfold consume. destruct (bool_decide _) eqn:E; [done|]. constructor; [by destruct_bool|done]. Qed.

Lemma http_line_go_spec cs limit line :
  pieces_ok cs → find_byte (Z.eqb 10) line = None → (length line ≤ limit)%nat →
  match http_line_go cs limit line with
  | (cs', Ok l) => line_spec limit (line ++ mjoin cs) = Ok (l, mjoin cs') ∧ pieces_ok cs' ∧ line ++ mjoin cs = l ++ mjoin cs'
  | (cs', Err e) => line_spec limit (line ++ mjoin cs) = Err e ∧ pieces_ok cs' ∧ ∃ i, mjoin cs = i ++ mjoin cs'
  end.
Proof.
  intros Hcs. revert line. induction Hcs as [|a cs Ha Hcs IH]; intros line Hn Hl; cbn [http_line_go].
  - change (mjoin []) with (@nil Z). rewrite app_nil_r. unfold line_spec. rewrite Hn, (proj2 (Nat.ltb_ge _ _)) by done.
    split; [done|]. split; [constructor|by exists []].
  - set (s := line ++ mjoin (a :: cs)).
    assert (find_byte (Z.eqb 10) s = match find_byte (Z.eqb 10) a with
              | Some n => Some (length line + n)%nat
              | None => Nat.add (length line) <$> (Nat.add (length a) <$> find_byte (Z.eqb 10) (mjoin cs)) end) as Hs.
    { unfold s. rewrite find_byte_app, Hn, mjoin_cons, find_byte_app. by destruct (find_byte (Z.eqb 10) a). }
    assert (length s = length line + length a + length (mjoin cs))%nat as Hls.
    { unfold s. rewrite length_app, mjoin_cons, length_app. lia. }
    destruct (find_byte (Z.eqb 10) a) as [n|] eqn:Ef.
    + unfold line_spec. rewrite Hs. replace (S (length line + n)) with (length line + S n)%nat by lia.
      destruct (limit <? length line + S n)%nat; [split; [done|]; split; [by constructor|by exists []]|].
      rewrite ends_with_lf by done. pose proof (find_byte_Some _ _ _ Ef) as [Hlt _].
      assert (take (length line + S n) s = line ++ take (S n) a) as ->.
      { unfold s. rewrite take_app_add, mjoin_cons, take_app_le by lia. done. }
      assert (drop (length line + S n) s = mjoin (consume (S n) a cs)) as ->.
      { unfold s. rewrite drop_app_add. apply (app_inv_head (take (S n) a)).
        rewrite consume_join, mjoin_cons. rewrite <- (take_app_le a (mjoin cs)) by lia. apply take_drop. }
      fold (line_bad (line ++ take (S n) a)). destruct (line_bad _).
      * split; [done|]. split; [by apply consume_ok|]. exists (take (S n) a). by rewrite consume_join.
      * split; [done|]. split; [by apply consume_ok|]. rewrite <- app_assoc, consume_join. done.
    + rewrite take_ge by lia. destruct (limit <? length line + length a)%nat eqn:El.
      { apply Nat.ltb_lt in El. split; [|split; [by constructor|by exists []]]. unfold line_spec. rewrite Hs.
        destruct (find_byte (Z.eqb 10) (mjoin cs)) as [m|]; cbn [fmap option_fmap option_map].
        - by rewrite (proj2 (Nat.ltb_lt _ _)) by lia.
        - by rewrite (proj2 (Nat.ltb_lt _ _)) by lia. }
      apply Nat.ltb_ge in El.
      assert (find_byte (Z.eqb 10) (line ++ a) = None) as Hn' by (by rewrite find_byte_app, Hn, Ef).
      rewrite no_lf_not_ends by done. specialize (IH (line ++ a) Hn' ltac:(rewrite length_app; lia)).
      assert ((line ++ a) ++ mjoin cs = s) as Hj by (unfold s; by rewrite mjoin_cons, app_assoc). rewrite Hj in IH.
      destruct (http_line_go cs limit (line ++ a)) as [cs' [l|e]]; [done|].
      destruct IH as (? & ? & i & Hi). split; [done|]. split; [done|]. exists (a ++ i). by rewrite mjoin_cons, Hi, app_assoc.
Qed.

(** A line is complete by itself: what follows it does not matter. *)
Lemma line_spec_fix limit s l r : line_spec limit s = Ok (l, r) →
  s = l ++ r ∧ (1 ≤ length l ≤ limit)%nat ∧ ends_with CRLF l = true ∧ ∀ r', line_spec limit (l ++ r') = Ok (l, r').
Proof.
  unfold line_spec. destruct (find_byte _ s) as [n|] eqn:Ef; [|done]. destruct (limit <? S n)%nat eqn:El; [done|].
  destruct (line_bad _) eqn:Eb; [done|]. intros [= <- <-]. pose proof (find_byte_Some _ _ _ Ef) as [Hn _].
  assert (length (take (S n) s) = S n) as Hl by (rewrite length_take; lia). split; [by rewrite take_drop|].
  split; [apply Nat.ltb_ge in El; lia|].
  split; [unfold line_bad in Eb; apply orb_false_elim in Eb as [Eb _]; by apply negb_false_iff in Eb|]. intros r'.
  assert (find_byte (Z.eqb 10) (take (S n) s) = Some n) as Ht.
  { rewrite <- (take_drop (S n) s), find_byte_app in Ef. destruct (find_byte _ (take (S n) s)); [done|].
    destruct (find_byte _ (drop (S n) s)); [|done]. injection Ef as Ef. lia. }
  rewrite find_byte_app, Ht, El. rewrite take_app_length', drop_app_length' by done. by rewrite Eb.
Qed.

(** ** What an operation read and wrote *)

Definition moved (p p' : Pipe) (i o : str) : Prop :=
  mjoin (chunks p) = i ++ mjoin (chunks p') ∧ written p' = written p ++ o ∧ pieces_ok (chunks p') ∧ broken p' = broken p.

Lemma moved_refl p : pieces_ok (chunks p) → moved p p [] [].
Proof. intros Hp. split_and!; [done|by rewrite app_nil_r|done|done]. Qed.

Lemma moved_trans p1 p2 p3 i o i' o' : moved p1 p2 i o → moved p2 p3 i' o' → moved p1 p3 (i ++ i') (o ++ o').
Proof.
  intros (H1 & H2 & _ & H4) (H5 & H6 & H7 & H8).
  split_and!; [by rewrite H1, H5, app_assoc|by rewrite H6, H2, app_assoc|done|congruence].
Qed.

(** [delivers m i a w f]: given the bytes [i], and whatever follows them, and a writer that
    takes [w] bytes and [f] flushes, [m] returns [a] having read exactly [i]. *)
Definition delivers {A} (m : PM A) (i : str) (a : A) (w f : nat) : Prop :=
  ∀ p rest, pieces_ok (chunks p) → mjoin (chunks p) = i ++ rest → (w ≤ room p)%nat → (f ≤ flushes p)%nat →
    ∃ p', m p = (p', Ok a) ∧ pieces_ok (chunks p') ∧ mjoin (chunks p') = rest ∧
      (room p - w ≤ room p')%nat ∧ (flushes p - f ≤ flushes p')%nat.

Lemma delivers_bind {A B} (m : PM A) (k : A → PM B) i i' a b w w' f f' :
  delivers m i a w f → delivers (k a) i' b w' f' → delivers (sbind m k) (i ++ i') b (w + w') (f + f').
Proof.
  intros Hm Hk p rest Hp Hj Hw Hf. rewrite <- app_assoc in Hj.
  destruct (Hm p _ Hp Hj) as (p1 & E1 & Hp1 & Hj1 & Hw1 & Hf1); [lia..|].
  destruct (Hk p1 _ Hp1 Hj1) as (p2 & E2 & Hp2 & Hj2 & Hw2 & Hf2); [lia..|].
  exists p2. unfold sbind. rewrite E1. split; [done|]. split; [done|]. split; [done|]. lia.
Qed.

Lemma delivers_weaken {A} (m : PM A) i i' a w w' f f' :
  delivers m i a w f → i' = i → (w ≤ w')%nat → (f ≤ f')%nat → delivers m i' a w' f'.
Proof.
  intros Hm -> Hw Hf p rest Hp Hj HW HF. destruct (Hm p rest Hp Hj) as (p' & ? & ? & ? & ? & ?); [lia..|].
  exists p'. split; [done|]. split; [done|]. split; [done|]. lia.
Qed.

Lemma delivers_ret {A} (a : A) : delivers (sret a) [] a 0 0.
Proof. intros p rest Hp Hj _ _. exists p. split; [done|]. split; [done|]. split; [done|]. lia. Qed.

Lemma delivers_lift {A} (r : res A) a : r = Ok a → delivers (lift r) [] a 0 0.
Proof. intros ->. apply delivers_ret. Qed.

Lemma delivers_write b : delivers (write_all b) [] tt (length b) 0.
Proof.
  intros p rest Hp Hj Hw _. unfold write_all. rewrite (proj2 (Nat.leb_le _ _)) by done. eexists. split; [done|].
  split; [done|]. split; [done|]. simpl. lia.
Qed.

Lemma delivers_flush : delivers flush [] tt 0 1.
Proof.
  intros p rest Hp Hj _ Hf. unfold flush. destruct (flushes p) as [|n]; [lia|]. eexists. split; [done|].
  split; [done|]. split; [done|]. simpl. lia.
Qed.

Lemma delivers_line limit l : line_spec limit l = Ok (l, []) → delivers (http_line limit) l l 0 0.
Proof.
  intros Hl p rest Hp Hj _ _. apply line_spec_fix in Hl as (_ & _ & _ & Hl). unfold http_line.
  pose proof (http_line_go_spec (chunks p) limit [] Hp eq_refl ltac:(simpl; lia)) as Hg. simpl app in Hg.
  rewrite Hj, Hl in Hg. destruct (http_line_go (chunks p) limit []) as [cs [l'|e]]; destruct Hg as (Hg & Hok & _); [|done].
  injection Hg as <- Hr. exists (with_chunks p cs). split; [done|]. split; [done|]. split; [done|]. simpl. lia.
Qed.

(** [pipes h m Q]: with the bytes [h] read but not yet written, [m] writes only what was
    read, in order; when it returns, [Q] relates the value, what is then held, and what it
    read. *)
Definition pipes {A} (h : str) (m : PM A) (Q : A → str → str → Prop) : Prop :=
  ∀ p, pieces_ok (chunks p) →
    match m p with
    | (p', Ok a) => ∃ i o h', moved p p' i o ∧ h ++ i = o ++ h' ∧ Q a h' i
    | (p', Err _) => ∃ i o, moved p p' i o ∧ o `prefix_of` h ++ i
    end.

Lemma pipes_bind {A B} h (m : PM A) (k : A → PM B) Q R :
  pipes h m Q → (∀ a h' i, Q a h' i → pipes h' (k a) (λ b h'' i', R b h'' (i ++ i'))) → pipes h (sbind m k) R.
Proof.
  intros Hm Hk p Hp. specialize (Hm p Hp). unfold sbind. destruct (m p) as [p1 [a|e]]; [|done].
  destruct Hm as (i & o & h' & Hmv & Hh & HQ). pose proof Hmv as (_ & _ & Hp1 & _). specialize (Hk a h' i HQ p1 Hp1).
  destruct (k a p1) as [p2 [b|e]].
  - destruct Hk as (i' & o' & h'' & Hmv' & Hh' & HR). exists (i ++ i'), (o ++ o'), h''.
    split; [by eapply moved_trans|]. split; [|done]. by rewrite app_assoc, Hh, <- !app_assoc, Hh'.
  - destruct Hk as (i' & o' & Hmv' & x & Hx). exists (i ++ i'), (o ++ o'). split; [by eapply moved_trans|].
    exists x. by rewrite app_assoc, Hh, <- !app_assoc, Hx.
Qed.

Lemma pipes_weaken {A} h (m : PM A) (Q R : A → str → str → Prop) :
  pipes h m Q → (∀ a h' i, Q a h' i → R a h' i) → pipes h m R.
Proof. intros Hm HQ p Hp. specialize (Hm p Hp). destruct (m p) as [p' [a|e]]; [|done]. naive_solver. Qed.

Lemma pipes_ret {A} h (a : A) (Q : A → str → str → Prop) : Q a h [] → pipes h (sret a) Q.
Proof. intros HQ p Hp. exists [], [], h. split; [by apply moved_refl|]. by rewrite app_nil_r. Qed.

Lemma pipes_err {A} h e (Q : A → str → str → Prop) : pipes h (serr e) Q.
Proof. intros p Hp. exists [], []. split; [by apply moved_refl|apply prefix_nil]. Qed.

Lemma pipes_lift {A} h (r : res A) : pipes h (lift r) (λ a h' i, r = Ok a ∧ h' = h ∧ i = []).
Proof. intros p Hp. destruct r as [a|e]; [|by apply pipes_err]. exists [], [], h. split; [by apply moved_refl|]. by rewrite app_nil_r. Qed.

Lemma pipes_write h b rest : h = b ++ rest → pipes h (write_all b) (λ _ h' i, h' = rest ∧ i = []).
Proof.
  intros -> p Hp. unfold write_all. destruct (_ <=? _)%nat.
  - exists [], b, rest. split; [by split_and!|]. by rewrite app_nil_r.
  - exists [], (take (room p) b). split; [by split_and!|]. rewrite app_nil_r. exists (drop (room p) b ++ rest).
    by rewrite app_assoc, take_drop.
Qed.

Lemma pipes_flush h : pipes h flush (λ _ h' i, h' = h ∧ i = []).
Proof.
  intros p Hp. unfold flush. destruct (flushes p) as [|n].
  - exists [], []. split; [by apply moved_refl|apply prefix_nil].
  - exists [], [], h. split; [|by rewrite app_nil_r]. split_and!; [done|by rewrite app_nil_r|done|done].
Qed.

Lemma pipes_line h limit : pipes h (http_line limit) (λ l h' i, i = l ∧ h' = h ++ l ∧ line_spec limit l = Ok (l, [])).
Proof.
  intros p Hp. unfold http_line. pose proof (http_line_go_spec (chunks p) limit [] Hp eq_refl ltac:(simpl; lia)) as Hg.
  simpl app in Hg. destruct (http_line_go (chunks p) limit []) as [cs [l|e]]; destruct Hg as (Hs & Hok & Hj).
  - exists l, [], (h ++ l). split; [split_and!; [done|by rewrite app_nil_r|done|done]|]. split; [done|].
    apply line_spec_fix in Hs as (_ & _ & _ & Hs). split; [done|]. split; [done|]. by rewrite <- (Hs []), app_nil_r.
  - destruct Hj as (i & Hi). exists i, []. split; [split_and!; [done|by rewrite app_nil_r|done|done]|apply prefix_nil].
Qed.

Lemma take_bytes_spec n cs : pieces_ok cs →
  mjoin cs = fst (take_bytes n cs) ++ mjoin (snd (take_bytes n cs)) ∧ pieces_ok (snd (take_bytes n cs)) ∧
  (length (fst (take_bytes n cs)) ≤ n)%nat.
Proof.
  intros Hcs. revert n. induction Hcs as [|c cs Hc Hcs IH]; intros n; simpl; [split_and!; [done|constructor|lia]|].
  destruct (length c <=? n)%nat eqn:E.
  - apply Nat.leb_le in E. specialize (IH (n - length c)%nat). destruct (take_bytes (n - length c) cs) as [b r].
    simpl in *. destruct IH as (IH & ? & ?). split_and!; [by rewrite IH, app_assoc|done|rewrite length_app; lia].
  - apply Nat.leb_gt in E. simpl. rewrite app_assoc, take_drop. split_and!; [done| |rewrite length_take; lia].
    constructor; [|done]. intros Hd. apply (f_equal length) in Hd. rewrite length_drop in Hd. simpl in Hd. lia.
Qed.

Lemma take_bytes_whole b cs rest : pieces_ok cs → mjoin cs = b ++ rest → take_bytes (length b) cs = (b, snd (take_bytes (length b) cs)).
Proof.
  intros Hcs. revert b. induction Hcs as [|c cs Hc Hcs IH]; intros b Hj; [by destruct b|]. cbn [take_bytes].
  rewrite mjoin_cons in Hj. destruct (length c <=? length b)%nat eqn:E.
  - apply Nat.leb_le in E. assert (b = c ++ drop (length c) b) as Hb.
    { rewrite <- (take_drop (length c) b) at 1. f_equal. rewrite <- (take_app_le b rest), <- Hj by done. by rewrite take_app_length. }
    assert (mjoin cs = drop (length c) b ++ rest) as Hj'.
    { apply (app_inv_head c). by rewrite Hj, app_assoc, <- Hb. }
    specialize (IH _ Hj'). rewrite length_drop in IH. rewrite IH. cbn [snd]. by rewrite <- Hb.
  - apply Nat.leb_gt in E. cbn [snd]. f_equal. rewrite <- (take_app_le c (mjoin cs)), Hj by lia. by rewrite take_app_length.
Qed.

Lemma delivers_upto b : delivers (read_upto (length b)) b b 0 0.
Proof.
  intros p rest Hp Hj _ _. unfold read_upto. destruct (take_bytes_spec (length b) (chunks p) Hp) as (Hs & Hok & _).
  rewrite (take_bytes_whole b (chunks p) rest) in Hs |- * by done. cbn [fst snd] in Hs. rewrite Hj in Hs.
  apply app_inv_head in Hs. eexists. split; [done|]. split; [done|]. split; [done|]. simpl. lia.
Qed.

Lemma delivers_exact b : delivers (read_exact (length b)) b b 0 0.
Proof.
  eapply delivers_weaken.
  - eapply delivers_bind; [apply delivers_upto|]. cbv beta. rewrite Nat.eqb_refl. apply delivers_ret.
  - by rewrite app_nil_r.
  - lia.
  - lia.
Qed.

Lemma delivers_copy b : delivers (copy_exact (length b)) b tt (length b) 1.
Proof.
  eapply delivers_weaken.
  - eapply delivers_bind; [apply delivers_upto|]. eapply delivers_bind; [apply delivers_write|].
    eapply delivers_bind; [apply delivers_flush|]. cbv beta. rewrite Nat.eqb_refl. apply delivers_ret.
  - by rewrite !app_nil_r.
  - lia.
  - lia.
Qed.

Lemma pipes_upto h n : pipes h (read_upto n) (λ b h' i, i = b ∧ h' = h ++ b ∧ (length b ≤ n)%nat).
Proof.
  intros p Hp. unfold read_upto. destruct (take_bytes_spec n (chunks p) Hp) as (Hj & Hok & Hl).
  destruct (take_bytes n (chunks p)) as [b cs]. simpl in *. exists b, [], (h ++ b).
  split; [|done]. split_and!; [done|by rewrite app_nil_r|done|done].
Qed.

Lemma pipes_exact h n : pipes h (read_exact n) (λ b h' i, i = b ∧ h' = h ++ b ∧ length b = n).
Proof.
  eapply pipes_bind; [apply pipes_upto|]. intros b h' i (-> & -> & _). destruct (length b =? n)%nat eqn:E; [|apply pipes_err].
  apply Nat.eqb_eq in E. apply pipes_ret. by rewrite app_nil_r.
Qed.

Lemma pipes_copy n : pipes [] (copy_exact n) (λ _ h' i, h' = [] ∧ length i = n).
Proof.
  eapply pipes_bind; [apply pipes_upto|]. intros b h' i (-> & -> & _).
  eapply pipes_bind; [apply (pipes_write _ b []); by rewrite app_nil_r|]. intros [] h' i [-> ->].
  eapply pipes_bind; [apply pipes_flush|]. intros [] h' i [-> ->].
  destruct (length b =? n)%nat eqn:E; [|apply pipes_err]. apply Nat.eqb_eq in E. apply pipes_ret. by rewrite !app_nil_r.
Qed.

(** ** Headers *)

(** [http_header] on the bytes as a whole. *)
Fixpoint header_spec (fuel : nat) (bytes s : str) : res (str * str) :=
  match fuel with
  | O => Err "out of fuel"
  | S fuel =>
      let! '(line, rest) := line_spec (MAX_HEADER - length bytes) s in
      if eq_str line CRLF then Ok (bytes ++ line, rest) else header_spec fuel (bytes ++ line) rest
  end.

Lemma http_header_go_spec fuel bytes p : pieces_ok (chunks p) →
  match http_header_go fuel bytes p with
  | (p', Ok h) => header_spec fuel bytes (mjoin (chunks p)) = Ok (h, mjoin (chunks p'))
  | (_, Err e) => header_spec fuel bytes (mjoin (chunks p)) = Err e
  end.
Proof.
  revert bytes p. induction fuel as [|fuel IH]; intros bytes p Hp; [done|]. cbn [http_header_go header_spec].
  unfold sbind, http_line. set (n := (MAX_HEADER - length bytes)%nat).
  pose proof (http_line_go_spec (chunks p) n [] Hp eq_refl ltac:(simpl; lia)) as Hg. simpl app in Hg.
  destruct (http_line_go (chunks p) n []) as [cs [l|e]]; destruct Hg as (-> & Hok & _); [|done].
  destruct (eq_str l CRLF); [done|]. apply (IH (bytes ++ l) (with_chunks p cs)). done.
Qed.

Lemma header_spec_fuel fuel bytes s : (length bytes ≤ MAX_HEADER < length bytes + fuel)%nat →
  header_spec fuel bytes s ≠ Err "out of fuel".
Proof.
  revert bytes s. induction fuel as [|fuel IH]; intros bytes s Hf; [lia|]. cbn [header_spec].
  destruct (line_spec _ s) as [[l r]|e] eqn:El.
  - apply line_spec_fix in El as (_ & ? & _). destruct (eq_str l CRLF); [done|]. apply IH. rewrite length_app. lia.
  - unfold line_spec in El. repeat case_match; by simplify_eq.
Qed.

(** So is a header, which keeps within the limit. *)
Lemma header_spec_fix fuel bytes s h r : header_spec fuel bytes s = Ok (h, r) → (length bytes ≤ MAX_HEADER)%nat →
  ∃ i, h = bytes ++ i ∧ s = i ++ r ∧ (length h ≤ MAX_HEADER)%nat ∧ ends_with CRLF h = true ∧
    ∀ r', header_spec fuel bytes (i ++ r') = Ok (h, r').
Proof.
  revert bytes s. induction fuel as [|fuel IH]; intros bytes s; [done|]. cbn [header_spec].
  destruct (line_spec _ s) as [[l rest]|e] eqn:El; [|done]. apply line_spec_fix in El as (-> & Hlen & He & Hfix).
  destruct (eq_str l CRLF) eqn:E.
  - intros [= <- <-] Hb. exists l. split; [done|]. split; [done|]. split; [rewrite length_app; lia|].
    split; [apply eq_str_true in E as ->; apply ends_with_true; by exists bytes|]. intros r'. by rewrite Hfix, E.
  - intros Hh Hb. destruct (IH _ _ Hh) as (i & -> & -> & Hl & Hc & Hi); [rewrite length_app; lia|].
    exists (l ++ i). split; [by rewrite app_assoc|]. split; [by rewrite app_assoc|]. split; [done|]. split; [done|].
    intros r'. by rewrite <- app_assoc, Hfix, E, Hi.
Qed.

Definition whole_header (h : str) : Prop := header_spec (S MAX_HEADER) [] h = Ok (h, []).

Lemma whole_header_bounds h : whole_header h → (length h ≤ MAX_HEADER)%nat ∧ ends_with CRLF h = true.
Proof. intros H. apply header_spec_fix in H as (i & _ & _ & ? & ? & _); [done|simpl; lia]. Qed.

Lemma http_header_ok p s : pieces_ok (chunks p) → header_spec (S MAX_HEADER) [] (mjoin (chunks p)) = s →
  match http_header p with
  | (p', Ok h) => s = Ok (h, mjoin (chunks p')) ∧ whole_header h
  | (_, Err e) => s = Err e
  end.
Proof.
  intros Hp <-. pose proof (http_header_go_spec (S MAX_HEADER) [] p Hp) as H. fold http_header in H.
  destruct (http_header p) as [p' [h|e]]; [|done]. split; [done|].
  apply header_spec_fix in H as (i & -> & _ & _ & _ & H); [|simpl; lia]. unfold whole_header. by rewrite <- (H []), app_nil_r.
Qed.

Lemma delivers_header_go fuel bytes s h : header_spec fuel bytes s = Ok (h, []) → delivers (http_header_go fuel bytes) s h 0 0.
Proof.
  revert bytes s. induction fuel as [|fuel IH]; intros bytes s; [done|]. cbn [http_header_go header_spec].
  destruct (line_spec _ s) as [[l rest]|e] eqn:El; [|done]. apply line_spec_fix in El as (-> & _ & _ & Hfix).
  intros Hh. specialize (Hfix []). rewrite app_nil_r in Hfix.
  change 0%nat with (0 + 0)%nat. eapply delivers_bind; [by apply delivers_line|]. cbv beta.
  destruct (eq_str l CRLF); [|by apply IH]. injection Hh as -> ->. apply delivers_ret.
Qed.

Lemma delivers_header h : whole_header h → delivers http_header h h 0 0.
Proof. apply delivers_header_go. Qed.

Lemma pipes_header_go h fuel bytes : pipes h (http_header_go fuel bytes) (λ hd h' i, hd = bytes ++ i ∧ h' = h ++ i).
Proof.
  revert h bytes. induction fuel as [|fuel IH]; intros h bytes; [apply pipes_err|]. cbn [http_header_go].
  eapply pipes_bind; [apply pipes_line|]. intros l h' i (-> & -> & _).
  destruct (eq_str l CRLF) eqn:E.
  - apply pipes_ret. by rewrite !app_nil_r.
  - eapply pipes_weaken; [apply IH|]. intros hd h' i (-> & ->). by rewrite !app_assoc.
Qed.

Lemma pipes_header h : pipes h http_header (λ hd h' i, i = hd ∧ h' = h ++ hd ∧ whole_header hd).
Proof.
  intros p Hp. pose proof (pipes_header_go h (S MAX_HEADER) [] p Hp) as H. fold http_header in H.
  pose proof (http_header_ok p _ Hp eq_refl) as Hok. destruct (http_header p) as [p' [hd|e]]; [|done].
  destruct H as (i & o & h' & ? & ? & -> & ->). exists i, o, (h ++ i). by destruct Hok.
Qed.

(** ** Chunked bodies *)

Section Chunked.
Context (parse_chunk_size : str → res (option (nat * N))) (parse_headers : str → res (option (list (str * str)))).

(** A complete chunked body of [n] chunks before the last, whose payload, after [total]
    bytes, stays within the limit. *)
Inductive chunked_body (limit : Z) : nat → Z → str → Prop :=
| body_last total line trailers :
    line_spec 4096 line = Ok (line, []) → chunk_size parse_chunk_size line = Ok 0 → total ≤ limit →
    whole_header trailers → check_trailers parse_headers trailers = Ok tt →
    chunked_body limit 0 total (line ++ trailers)
| body_chunk n total line data rest :
    line_spec 4096 line = Ok (line, []) → chunk_size parse_chunk_size line = Ok (len data) → data ≠ [] →
    total + len data ≤ limit → chunked_body limit n (total + len data) rest →
    chunked_body limit (S n) total (line ++ data ++ CRLF ++ rest).

Lemma chunk_size_nonneg line n : chunk_size parse_chunk_size line = Ok n → 0 ≤ n.
Proof.
  unfold chunk_size. destruct (negb _); [done|]. destruct (parse_chunk_size line) as [[[e k]|]|]; [|done|done].
  cbn. destruct (negb _); [done|]. intros [= <-]. lia.
Qed.

Lemma copy_chunks_pipes rounds limit total :
  pipes [] (copy_chunks parse_chunk_size parse_headers rounds limit total)
    (λ _ h' i, h' = [] ∧ ∃ n, (n < rounds)%nat ∧ chunked_body limit n total i).
Proof.
  revert total. induction rounds as [|rounds IH]; intros total; [apply pipes_err|]. cbn [copy_chunks].
  eapply pipes_bind; [apply pipes_line|]. intros line h1 i1 (-> & -> & Hline).
  eapply pipes_bind; [apply pipes_lift|]. intros size h2 i2 (Hsize & -> & ->).
  destruct (u64_max <? _); [apply pipes_err|]. destruct (limit <? total + size) eqn:El; [apply pipes_err|].
  pose proof (chunk_size_nonneg _ _ Hsize) as Hpos. destruct (size =? 0) eqn:E0; destruct_bool.
  - subst size. eapply pipes_bind; [apply pipes_header|]. intros trailers h3 i3 (-> & -> & Htr).
    eapply pipes_bind; [apply pipes_lift|]. intros [] h4 i4 (Hcheck & -> & ->).
    eapply pipes_bind; [by apply (pipes_write _ line trailers)|]. intros [] h5 i5 [-> ->].
    eapply pipes_weaken; [apply (pipes_write _ trailers []); by rewrite app_nil_r|]. intros [] h6 i6 [-> ->].
    split; [done|]. exists 0%nat. split; [lia|]. rewrite !app_nil_r. simpl. apply body_last; try done. lia.
  - eapply pipes_bind; [apply (pipes_write _ line []); by rewrite app_nil_r|]. intros [] h3 i3 [-> ->].
    eapply pipes_bind; [apply pipes_copy|]. intros [] h4 data [-> Hdata].
    eapply pipes_bind; [apply pipes_exact|]. intros crlf h5 i5 (-> & -> & _).
    destruct (eq_str crlf CRLF) eqn:Ec; [|apply pipes_err]. apply eq_str_true in Ec as ->. cbn [negb].
    eapply pipes_bind; [apply (pipes_write _ CRLF []); by rewrite app_nil_r|]. intros [] h6 i6 [-> ->].
    eapply pipes_bind; [apply pipes_flush|]. intros [] h7 i7 [-> ->].
    eapply pipes_weaken; [apply IH|]. intros [] h8 rest (-> & n & Hn & Hrest). split; [done|]. simpl.
    assert (size = len data) as Hs by (unfold len; lia). rewrite Hs in *.
    exists (S n). split; [lia|]. apply body_chunk; try done. intros ->. done.
Qed.

(** A complete body is copied whatever follows it, if the writer takes its bytes and two
    flushes per chunk. *)
Lemma copy_chunks_delivers rounds limit n total body :
  chunked_body limit n total body → (n < rounds)%nat → limit ≤ u64_max →
  delivers (copy_chunks parse_chunk_size parse_headers rounds limit total) body tt (length body) (2 * n).
Proof.
  intros Hb Hn Hlim. revert rounds Hn.
  induction Hb as [total line trailers Hl Hsz Ht Htr Hck|n total line data rest Hl Hsz Hd Ht Hb IH];
    intros [|rounds] Hn; try lia; cbn [copy_chunks]; eapply delivers_weaken.
  - eapply delivers_bind; [by apply delivers_line|]. eapply delivers_bind; [by apply delivers_lift|]. cbv beta.
    rewrite !(proj2 (Z.ltb_ge _ _)) by lia. cbn [Z.eqb]. eapply delivers_bind; [by apply delivers_header|].
    eapply delivers_bind; [by apply delivers_lift|]. eapply delivers_bind; [apply delivers_write|apply delivers_write].
  - by rewrite !app_nil_r.
  - rewrite length_app. lia.
  - lia.
  - eapply delivers_bind; [by apply delivers_line|]. eapply delivers_bind; [by apply delivers_lift|]. cbv beta.
    rewrite !(proj2 (Z.ltb_ge _ _)) by lia.
    rewrite (proj2 (Z.eqb_neq _ _)) by (unfold len; destruct data; [done|simpl; lia]).
    eapply delivers_bind; [apply delivers_write|]. eapply delivers_bind; [unfold len; rewrite Nat2Z.id; apply delivers_copy|].
    eapply delivers_bind; [apply (delivers_exact CRLF)|]. cbn [eq_str]. cbv beta. rewrite eq_str_refl. cbn [negb].
    eapply delivers_bind; [apply delivers_write|]. eapply delivers_bind; [apply delivers_flush|]. apply IH. lia.
  - by rewrite !app_nil_l.
  - rewrite !length_app. lia.
  - lia.
Qed.

End Chunked.

(** ** Responses *)

(** [steps m Q]: when [m] returns, [Q] relates the value, what it read, what it wrote and the
    pipe it leaves. *)
Definition steps {A} (m : PM A) (Q : A → str → str → Pipe → Prop) : Prop :=
  ∀ p, pieces_ok (chunks p) →
    match m p with
    | (p', Ok a) => ∃ i o, moved p p' i o ∧ Q a i o p'
    | (p', Err _) => True
    end.

Lemma steps_bind {A B} (m : PM A) (k : A → PM B) Q R :
  steps m Q → (∀ a i o, (∃ p, Q a i o p) → steps (k a) (λ b i' o' p', R b (i ++ i') (o ++ o') p')) → steps (sbind m k) R.
Proof.
  intros Hm Hk p Hp. specialize (Hm p Hp). unfold sbind. destruct (m p) as [p1 [a|e]]; [|done].
  destruct Hm as (i & o & Hmv & HQ). pose proof Hmv as (_ & _ & Hp1 & _).
  specialize (Hk a i o (ex_intro _ p1 HQ) p1 Hp1). destruct (k a p1) as [p2 [b|e]]; [|done].
  destruct Hk as (i' & o' & Hmv' & HR). exists (i ++ i'), (o ++ o'). split; [by eapply moved_trans|done].
Qed.

Lemma steps_weaken {A} (m : PM A) (Q R : A → str → str → Pipe → Prop) :
  steps m Q → (∀ a i o p, Q a i o p → R a i o p) → steps m R.
Proof. intros Hm HQ p Hp. specialize (Hm p Hp). destruct (m p) as [p' [a|e]]; [|done]. naive_solver. Qed.

Lemma steps_err {A} e (Q : A → str → str → Pipe → Prop) : steps (serr e) Q.
Proof. by intros p Hp. Qed.

Lemma pipes_steps {A} (m : PM A) Q : pipes [] m Q → steps m (λ a i o _, ∃ h', i = o ++ h' ∧ Q a h' i).
Proof.
  intros Hm p Hp. specialize (Hm p Hp). destruct (m p) as [p' [a|e]]; [|done].
  destruct Hm as (i & o & h' & ? & ? & ?). exists i, o. split; [done|]. by exists h'.
Qed.

Lemma steps_write b : steps (write_all b) (λ _ i o _, i = [] ∧ o = b).
Proof. intros p Hp. unfold write_all. destruct (_ <=? _)%nat; [|done]. exists [], b. split; [by split_and!|done]. Qed.

Lemma steps_lift {A} (r : res A) : steps (lift r) (λ a i o _, r = Ok a ∧ i = [] ∧ o = []).
Proof. intros p Hp. destruct r as [a|e]; [|done]. exists [], []. split; [by apply moved_refl|done]. Qed.

Lemma steps_header : steps http_header (λ hd i o _, i = hd ∧ o = [] ∧ whole_header hd).
Proof.
  eapply steps_weaken; [apply pipes_steps, pipes_header|]. intros hd i o _ (h' & Hi & -> & -> & Hw). split; [done|]. split; [|done].
  simpl in Hi. apply (f_equal length) in Hi. rewrite length_app in Hi. destruct o; [done|simpl in Hi; lia].
Qed.

Section Responses.
Context (parse_chunk_size : str → res (option (nat * N))) (parse_headers : str → res (option (list (str * str)))).
Context (parse_response : str → res (option RawResponse)).

(** The body a framing announces; without a length it lasts to the end of the input. *)
Definition framed (empty : bool) (f : Framing) (body : str) (at_end : Prop) : Prop :=
  if empty then body = []
  else if fr_chunked f then ∃ n, (n < Z.to_nat 262144)%nat ∧ chunked_body parse_chunk_size parse_headers u64_max n 0 body
  else match fr_length f with
       | Some n => len body = Z.max 0 n
       | None => at_end
       end.

Definition drained (p : Pipe) : Prop := mjoin (chunks p) = [] ∧ broken p = false.

Lemma steps_body empty f :
  steps (response_body parse_chunk_size parse_headers empty f) (λ _ i o p, o = i ∧ framed empty f i (drained p)).
Proof.
  unfold response_body, framed. destruct empty.
  { intros p Hp. exists [], []. split; [by apply moved_refl|done]. }
  destruct (fr_chunked f).
  { eapply steps_weaken; [apply pipes_steps, copy_chunks_pipes|]. intros [] i o _ (h' & -> & -> & Hb).
    rewrite app_nil_r in *. done. }
  destruct (fr_length f) as [n|].
  { eapply steps_weaken; [apply pipes_steps, pipes_copy|]. intros [] i o _ (h' & -> & -> & Hb).
    rewrite app_nil_r in *. split; [done|]. unfold len. lia. }
  intros p Hp. unfold copy_rest, sbind, write_all. cbn [chunks with_chunks room].
  destruct (_ <=? _)%nat; [|done]. cbn [broken with_chunks]. destruct (broken p) eqn:Eb; [done|].
  unfold flush. cbn [flushes with_chunks]. destruct (flushes p); [done|].
  exists (mjoin (chunks p)), (mjoin (chunks p)). split; [split_and!; [by rewrite app_nil_r|done|constructor|done]|].
  split; [done|]. by split.
Qed.

Lemma steps_body_flushed {A} empty f (a : A) :
  steps (do! _ := response_body parse_chunk_size parse_headers empty f in do! _ := flush in sret a)
    (λ b i o p, b = a ∧ o = i ∧ framed empty f i (drained p)).
Proof.
  intros p Hp. pose proof (steps_body empty f p Hp) as Hb. unfold sbind at 1.
  destruct (response_body _ _ empty f p) as [p1 [[]|e]]; [|done]. destruct Hb as (i & o & Hmv & -> & Hf).
  unfold sbind, flush. destruct (flushes p1); [done|]. exists i, i. split; [by destruct Hmv as (? & ? & ? & ?)|]. done.
Qed.

(** One final response after some interim ones. *)
Definition response_copied (fw : Forward) (rounds : nat) (persistent : bool) (i o : str) (at_end : Prop) : Prop :=
  ∃ interim head body status f hs,
    i = mjoin interim ++ head ++ body ∧ (length interim < rounds)%nat ∧
    Forall (λ b, whole_header b ∧ ∃ st g hs', response_head parse_response b = Ok (st, g, hs') ∧ st < 200) interim ∧
    whole_header head ∧ response_head parse_response head = Ok (status, f, hs) ∧ 200 ≤ status ∧
    let empty := fw_head fw || (status =? 204) || (status =? 304) in
    persistent = fw_keep_alive fw && (empty || is_some (fr_length f) || fr_chunked f) ∧
    framed empty f body at_end ∧
    (if persistent
     then ∃ n, find_sub CRLF head = Some n ∧
       o = mjoin interim ++ persistent_header (take (n + 2) head) (fr_connection f) hs ++ body
     else o = mjoin interim ++ head ++ body).

Lemma forward_responses_spec rounds fw :
  steps (forward_responses parse_chunk_size parse_headers parse_response rounds fw) 
    (λ persistent i o p, response_copied fw rounds persistent i o (drained p)).
Proof.
  induction rounds as [|rounds IH]; [apply steps_err|]. cbn [forward_responses].
  eapply steps_bind; [apply steps_header|]. intros head i1 o1 [_ (-> & -> & Hw)].
  eapply steps_bind; [apply steps_lift|]. intros [[status f] hs] i2 o2 [_ (Hhead & -> & ->)].
  destruct (status <? 200) eqn:Es; destruct_bool.
  - eapply steps_bind; [apply steps_write|]. intros [] i3 o3 [_ [-> ->]].
    eapply steps_weaken; [exact IH|]. intros b i o p (interim & hd & body & st & g & hs' & -> & Hl & Hf & Hw' & Hh & Hst & Hp & Hfr & Ho).
    exists (head :: interim), hd, body, st, g, hs'.
    split; [cbn [mjoin list_join app]; by rewrite ?app_nil_l, <- ?app_assoc|]. split; [simpl; lia|]. split; [constructor; [split; [done|by exists status, f, hs]|done]|].
    split; [done|]. split; [done|]. split; [done|]. split; [done|]. split; [done|].
    destruct b; [destruct Ho as (n & ? & ->); exists n; split; [done|]|rewrite Ho]; cbn [mjoin list_join app]; by rewrite <- ?app_assoc.
  - cbn zeta. set (empty := fw_head fw || _ || _). set (persistent := fw_keep_alive fw && _).
    eapply (steps_bind _ _ (λ _ i o _, i = [] ∧ if persistent then ∃ n, find_sub CRLF head = Some n ∧
        o = persistent_header (take (n + 2) head) (fr_connection f) hs else o = head)).
    { destruct persistent; [|apply steps_write]. eapply steps_bind; [apply steps_lift|]. intros n i o [_ (Hn & -> & ->)].
      eapply steps_weaken; [apply steps_write|]. intros [] i o _ [-> ->]. split; [done|]. exists n. split; [|done].
      by destruct (find_sub CRLF head); [injection Hn as ->|]. }
    intros [] i3 o3 [_ [-> Ho3]]. eapply steps_weaken; [apply steps_body_flushed|]. intros b i o p (-> & -> & Hf).
    exists [], head, i, status, f, hs. simpl app. split; [done|]. split; [simpl; lia|]. split; [constructor|]. split; [done|].
    split; [done|]. split; [done|]. split; [done|]. split; [done|]. fold empty persistent. destruct persistent.
    + destruct Ho3 as (n & Hn & ->). by exists n.
    + by rewrite Ho3.
Qed.

(** The bytes of a body and of chunks before its last take at least one byte each. *)
Lemma chunked_body_count limit n total body : chunked_body parse_chunk_size parse_headers limit n total body → (2 * n ≤ length body)%nat.
Proof.
  induction 1; [simpl; lia|]. rewrite !length_app. change (length CRLF) with 2%nat. lia.
Qed.

Lemma body_delivers empty f body : framed empty f body False →
  delivers (response_body parse_chunk_size parse_headers empty f) body tt (length body) (length body + 1).
Proof.
  unfold framed, response_body. destruct empty; [intros ->; eapply delivers_weaken; [apply delivers_ret|done|simpl; lia..]|].
  destruct (fr_chunked f).
  { intros (n & Hn & Hb). eapply delivers_weaken; [by apply (copy_chunks_delivers _ _ _ _ _ _ _ Hb Hn)|done|lia|].
    apply chunked_body_count in Hb. lia. }
  destruct (fr_length f) as [k|]; [|done]. intros Hk.
  replace (Z.to_nat k) with (length body) by (unfold len in Hk; lia). eapply delivers_weaken; [apply delivers_copy|done|lia..].
Qed.

Lemma forward_responses_delivers rounds fw persistent i o : response_copied fw rounds persistent i o False →
  delivers (forward_responses parse_chunk_size parse_headers parse_response rounds fw) i persistent (length o) (length i + 2).
Proof.
  intros (interim & head & body & status & f & hs & -> & Hl & Hf & Hw & Hh & Hst & Hp & Hfr & Ho).
  revert rounds Hl o Ho. induction Hf as [|b interim (Hb & st & g & hs' & Hbh & Hbs) Hf IH]; intros [|rounds] Hl o Ho; try (simpl in Hl; lia);
    cbn [forward_responses]; eapply delivers_weaken.
  - eapply delivers_bind; [by apply delivers_header|]. eapply delivers_bind; [by apply delivers_lift|]. cbv beta iota zeta.
    rewrite (proj2 (Z.ltb_ge _ _)) by lia. rewrite <- Hp.
    eapply (delivers_bind _ _ [] _ tt _ (length o - length body)%nat _ 0%nat).
    { destruct persistent.
      - destruct Ho as (n & Hn & ->). eapply delivers_weaken.
        + eapply delivers_bind; [by apply delivers_lift; rewrite Hn|]. apply delivers_write.
        + done.
        + rewrite !length_app. simpl. lia.
        + lia.
      - rewrite Ho. eapply delivers_weaken; [apply delivers_write|done|rewrite !length_app; simpl; lia|lia]. }
    eapply delivers_bind; [by apply body_delivers|]. eapply delivers_bind; [apply delivers_flush|apply delivers_ret].
  - by rewrite !app_nil_l, app_nil_r.
  - assert (length body ≤ length o)%nat by (destruct persistent; [destruct Ho as (n & _ & ->)|rewrite Ho]; rewrite !length_app; lia). lia.
  - rewrite !length_app. simpl. lia.
  - eapply delivers_bind; [by apply (delivers_header b)|]. eapply delivers_bind; [by apply delivers_lift|]. cbv beta iota.
    rewrite (proj2 (Z.ltb_lt _ _)) by lia. eapply delivers_bind; [apply delivers_write|].
    apply (IH rounds ltac:(simpl in Hl; lia) (drop (length b) o)).
    destruct persistent; [destruct Ho as (n & Hn & ->); exists n; split; [done|]|rewrite Ho];
      rewrite mjoin_cons, <- app_assoc; by rewrite drop_app_length.
  - by rewrite mjoin_cons, !app_nil_l, <- app_assoc.
  - assert (length b ≤ length o)%nat by (destruct persistent; [destruct Ho as (n & _ & ->)|rewrite Ho]; rewrite mjoin_cons, !length_app; lia).
    rewrite length_drop. lia.
  - rewrite mjoin_cons, !length_app. lia.
Qed.

End Responses.

(** ** Properties *)

(** Reading a request or response header never depends on how the bytes are cut into
    pieces, always ends by itself, takes at most 16 KiB, and consumes exactly the header: what
    follows it stays for the body. *)
Theorem http_header_exact p : pieces_ok (chunks p) →
  match http_header p with
  | (p', r) => r ≠ Err "out of fuel" ∧
      (∀ h, r = Ok h → mjoin (chunks p) = h ++ mjoin (chunks p') ∧ ends_with CRLF h = true ∧ (length h ≤ MAX_HEADER)%nat) ∧
      ∀ q, pieces_ok (chunks q) → mjoin (chunks q) = mjoin (chunks p) →
        snd (http_header q) = r ∧ (is_ok r = true → mjoin (chunks (fst (http_header q))) = mjoin (chunks p'))
  end.
Proof.
  intros Hp. pose proof (http_header_ok p _ Hp eq_refl) as Hs. pose proof (steps_header p Hp) as Hst.
  destruct (http_header p) as [p' r] eqn:E. split; [|split].
  - intros ->. eapply header_spec_fuel; [|exact Hs]. simpl. lia.
  - intros h ->. destruct Hst as (i & o & (Hj & _) & -> & _ & Hw). split; [done|]. by apply and_comm, whole_header_bounds.
  - intros q Hq Hj. pose proof (http_header_ok q _ Hq eq_refl) as Hs'. rewrite Hj in Hs'.
    destruct (http_header q) as [q' r']. cbn [fst snd].
    destruct r as [h|e], r' as [h'|e'].
    + destruct Hs as [Hs _], Hs' as [Hs' _]. rewrite Hs in Hs'. by injection Hs' as -> ->.
    + destruct Hs as [Hs _]. by rewrite Hs in Hs'.
    + destruct Hs' as [Hs' _]. by rewrite Hs in Hs'.
    + rewrite Hs in Hs'. by injection Hs' as ->.
Qed.

(** C19: a chunked body is passed through unchanged: the copy succeeds exactly when the input
    starts with a complete chunked body within the payload limit, of fewer than 262144 chunks,
    whose size lines and trailers are all acceptable (and the writer takes it); what was then
    written is byte for byte that body, and nothing after it was consumed. When it fails, only
    a prefix of what was read has been written. *)
Theorem chunked_copy_exact parse_chunk_size parse_headers limit p :
  pieces_ok (chunks p) → limit ≤ u64_max →
  match copy_chunked parse_chunk_size parse_headers limit p with
  | (p', Ok _) => ∃ n body, (n < Z.to_nat 262144)%nat ∧ chunked_body parse_chunk_size parse_headers limit n 0 body ∧
      mjoin (chunks p) = body ++ mjoin (chunks p') ∧ written p' = written p ++ body
  | (p', Err _) =>
      (∃ i o, mjoin (chunks p) = i ++ mjoin (chunks p') ∧ written p' = written p ++ o ∧ o `prefix_of` i) ∧
      ¬ ∃ n body rest, (n < Z.to_nat 262144)%nat ∧ chunked_body parse_chunk_size parse_headers limit n 0 body ∧
          mjoin (chunks p) = body ++ rest ∧ (length body ≤ room p)%nat ∧ (2 * n ≤ flushes p)%nat
  end.
Proof.
  intros Hp Hlim. pose proof (copy_chunks_pipes parse_chunk_size parse_headers (Z.to_nat 262144) limit 0 p Hp) as H.
  unfold copy_chunked. destruct (copy_chunks _ _ _ limit 0 p) as [p' [u|e]] eqn:E.
  - destruct H as (i & o & h' & (Hj & Hw & _) & Hi & -> & n & Hn & Hb). simpl in Hi. rewrite app_nil_r in Hi. subst o. by exists n, i.
  - destruct H as (i & o & (Hj & Hw & _) & Ho). split; [by exists i, o|]. intros (n & body & rest & Hn & Hb & Hr & Hroom & Hfl).
    destruct (copy_chunks_delivers _ _ _ _ _ _ _ Hb Hn Hlim p rest Hp Hr Hroom Hfl) as (p1 & E1 & _). congruence.
Qed.

(** C20: forwarding a response succeeds only on one final response (after at most 15 interim
    ones, passed on unchanged) and leaves the reader exactly behind it; the body written is
    the body read and is what the response's framing announces; the connection is reported as
    reusable only if the client asked for it and the body's end was framed, never when it
    lasted until the server closed. Conversely, whenever the input starts with such a response
    whose body is framed and the writer takes what is to be written, forwarding succeeds. *)
Theorem http_response_exact parse_chunk_size parse_headers parse_response fw p :
  pieces_ok (chunks p) →
  (∀ p' persistent, forward_response parse_chunk_size parse_headers parse_response fw p = (p', Ok persistent) →
    ∃ i o, mjoin (chunks p) = i ++ mjoin (chunks p') ∧ written p' = written p ++ o ∧
      response_copied parse_chunk_size parse_headers parse_response fw 16 persistent i o (drained p')) ∧
  (∀ persistent i o rest, response_copied parse_chunk_size parse_headers parse_response fw 16 persistent i o False →
    mjoin (chunks p) = i ++ rest → (length o ≤ room p)%nat → (length i + 2 ≤ flushes p)%nat →
    ∃ p', forward_response parse_chunk_size parse_headers parse_response fw p = (p', Ok persistent) ∧ mjoin (chunks p') = rest).
Proof.
  intros Hp. split.
  - intros p' persistent Hf. pose proof (forward_responses_spec parse_chunk_size parse_headers parse_response 16 fw p Hp) as H.
    unfold forward_response in Hf. rewrite Hf in H. destruct H as (i & o & (Hj & Hw & _) & Hr). by exists i, o.
  - intros persistent i o rest Hr Hj Hroom Hfl.
    destruct (forward_responses_delivers _ _ _ _ _ _ _ _ Hr p rest Hp Hj Hroom Hfl) as (p' & E & _ & Hrest & _). by exists p'.
Qed.

(** ** Witnesses *)

Definition demo_pieces : list str := [lit "5" ++ CRLF ++ lit "hel"; lit "lo"; CRLF; lit "0" ++ CRLF ++ CRLF ++ lit "next"].
Definition demo_pipe : Pipe := mkPipe demo_pieces false 100 10 [].
Definition demo_sizes (line : str) : res (option (nat * N)) :=
  if eq_str line (lit "5" ++ CRLF) then Ok (Some (3%nat, 5%N))
  else if eq_str line (lit "0" ++ CRLF) then Ok (Some (3%nat, 0%N)) else Err "size".
Definition demo_trailers (_ : str) : res (option (list (str * str))) := Ok (Some []).

Lemma demo_pieces_ok : pieces_ok (chunks demo_pipe).
Proof. repeat constructor; done. Qed.

Definition demo_block : Pipe :=
  mkPipe [lit "GET / HTTP/1.1" ++ [13]; [10] ++ lit "Host: a" ++ CRLF ++ [13]; [10] ++ lit "body"] false 0 0 [].

Lemma demo_block_ok : pieces_ok (chunks demo_block).
Proof. repeat constructor; done. Qed.

Lemma http_header_exact_witness :
  snd (http_header demo_block) = Ok (lit "GET / HTTP/1.1" ++ CRLF ++ lit "Host: a" ++ CRLF ++ CRLF) ∧
  snd (http_header (mkPipe [mjoin (chunks demo_block)] false 0 0 [])) = snd (http_header demo_block).
Proof.
  split; [vm_compute; reflexivity|]. pose proof (http_header_exact demo_block demo_block_ok) as H.
  destruct (http_header demo_block) as [p' r] eqn:E. destruct H as (_ & _ & H).
  refine (proj1 (H (mkPipe [mjoin (chunks demo_block)] false 0 0 []) _ _)).
  - repeat constructor; done.
  - vm_compute. reflexivity.
Defined.

Lemma chunked_copy_exact_witness :
  ∃ n body, chunked_body demo_sizes demo_trailers 1000 n 0 body ∧
    mjoin (chunks demo_pipe) = body ++ mjoin (chunks (fst (copy_chunked demo_sizes demo_trailers 1000 demo_pipe))).
Proof.
  assert (1000 ≤ u64_max) as Hlim by (vm_compute; discriminate).
  pose proof (chunked_copy_exact demo_sizes demo_trailers 1000 demo_pipe demo_pieces_ok Hlim) as H.
  assert (is_ok (snd (copy_chunked demo_sizes demo_trailers 1000 demo_pipe)) = true) as Hok by (vm_compute; reflexivity).
  destruct (copy_chunked demo_sizes demo_trailers 1000 demo_pipe) as [p' [u|e]]; [|discriminate Hok].
  destruct H as (n & body & _ & Hb & Hj & _). exists n, body. split; [exact Hb|exact Hj].
Defined.

Definition demo_forward : Forward := mkForward [] 0 false true false false.
Definition demo_response (bytes : str) : res (option RawResponse) :=
  Ok (Some (mkRawResponse (Some 200) [(lit "Content-Length", lit "2")])).
Definition demo_reply : Pipe :=
  mkPipe [lit "HTTP/1.1 200 OK" ++ CRLF ++ lit "Content-Length: 2" ++ CRLF ++ CRLF ++ lit "h"; lit "iNEXT"] false 200 3 [].

Lemma http_response_exact_witness : ∃ p' i o,
  forward_response demo_sizes demo_trailers demo_response demo_forward demo_reply = (p', Ok true) ∧
  mjoin (chunks demo_reply) = i ++ lit "NEXT" ∧
  response_copied demo_sizes demo_trailers demo_response demo_forward 16 true i o (drained p').
Proof.
  destruct (http_response_exact demo_sizes demo_trailers demo_response demo_forward demo_reply) as [H _].
  { repeat constructor; done. }
  destruct (H (fst (forward_response demo_sizes demo_trailers demo_response demo_forward demo_reply)) true)
    as (i & o & Hj & _ & Hr); [vm_compute; reflexivity|].
  eexists _, i, o. split; [vm_compute; reflexivity|]. split; [rewrite Hj; vm_compute (chunks (fst _)); reflexivity|exact Hr].
Defined.

End HttpBody.
