(* ===== verification/Disk.v ===== *)
(** * Files beneath a private directory (src/src/fsutil.rs: [SecureDir], [FileLock])

    The directory a [SecureDir] stands for is a tree of nodes, a handle is the path from the
    root of that tree. Every system call is a primitive step that may take effect, fail, or
    be the last one the process makes: the disk carries a script of such fates, so that a
    statement about every script covers every failure and every crash. After a crash no step
    has an effect. *)
From S2P Require Import Prelude.

Module Disk.

(** ** The tree *)

(** A regular file of the owner with one link; one of the two names of a file that has two
    links, with the other name in the same directory; a private directory; anything the
    checks reject (a symbolic link, a foreign or shared file, a device). *)
Inductive Node :=
| File (bytes : str)
| Linked (bytes : str) (other : str)
| Dir (entries : gmap str Node)
| Unsafe.

Abbreviation Entries := (gmap str Node).

Fixpoint node_at (p : list str) (x : Node) : option Node :=
  match p with
  | [] => Some x
  | n :: p => match x with
              | Dir t => match t !! n with Some y => node_at p y | None => None end
              | _ => None
              end
  end.

Fixpoint set_at (p : list str) (y : Node) (x : Node) : Node :=
  match p with
  | [] => y
  | n :: p => match x with
              | Dir t => match t !! n with Some z => Dir (<[n := set_at p y z]> t) | None => x end
              | _ => x
              end
  end.

(** ** Steps *)

(** [std::io::ErrorKind], as far as the callers look at it. *)
Inductive IoError :=
| NotFound
| AlreadyExists
| Invalid (message : string)
| Crashed.

(** What happens to a step: it fails or the process dies in it, the number saying how much
    of its effect it had by then. *)
Inductive Fate :=
| Fine
| Faulty (n : nat)
| Crash (n : nat).

Record Disk := mkDisk { root : Node; script : list Fate; random : list str; crashed : bool }.

Abbreviation IO := (SE Disk IoError).

Definition prim {A} (act : Node → result IoError (Node * A)) (torn : nat → Node → Node) : IO A := λ d,
  if crashed d then (d, Err Crashed)
  else match script d with
       | Faulty n :: s => (mkDisk (torn n (root d)) s (random d) false, Err (Invalid "I/O error"))
       | Crash n :: s => (mkDisk (torn n (root d)) s (random d) true, Err Crashed)
       | fates =>
           match act (root d) with
           | Ok (x, a) => (mkDisk x (tail fates) (random d) false, Ok a)
           | Err e => (mkDisk (root d) (tail fates) (random d) false, Err e)
           end
       end.

(** The effect of an interrupted step: none, or all of it. *)
Definition whole {A} (act : Node → result IoError (Node * A)) (n : nat) (x : Node) : Node :=
  match n with
  | O => x
  | S _ => match act x with Ok (y, _) => y | Err _ => x end
  end.

Definition atomic {A} (act : Node → result IoError (Node * A)) : IO A := prim act (whole act).

(** A step on the entries of the directory a handle names. *)
Definition in_dir {A} (dir : list str) (f : Entries → result IoError (Entries * A)) (x : Node) :
    result IoError (Node * A) :=
  match node_at dir x with
  | Some (Dir t) => let! '(t', a) := f t in Ok (set_at dir (Dir t') x, a)
  | _ => Err (Invalid "stale directory")
  end.

(** The result of an operation as a value: [match op() { Ok(..) => .., Err(..) => .. }]. *)
Definition tried {S E A} (m : SE S E A) : SE S E (result E A) := λ d, let '(d, r) := m d in (d, Ok r).

Definition lifted {S E A} (r : result E A) : SE S E A := λ d, (d, r).

Definition getrandom (n : nat) : IO str := λ d,
  if crashed d then (d, Err Crashed)
  else match random d with
       | b :: bs => if (length b =? n)%nat then (mkDisk (root d) (script d) bs false, Ok b)
                    else (mkDisk (root d) (script d) bs false, Err (Invalid "random"))
       | [] => (d, Err (Invalid "random"))
       end.

(** [format!("{b:02x}")] of every byte *)
Definition hex (bytes : str) : str := mjoin ((λ b, pad_left 2 48 (print_hex b)) <$> bytes).

(** ** Operations *)

Definition single_component (name : str) : bool :=
  negb (bool_decide (name = [])) && negb (eq_str name (lit ".")) && negb (eq_str name (lit ".."))
  && negb (existsb (λ b, (b =? 47) || (b =? 92) || (b =? 0)) name).

Definition component (name : str) : IO unit :=
  if single_component name then sret tt else serr (Invalid "invalid storage path").

Definition nonce : IO str := do! bytes := getrandom 16 in sret (hex bytes).

(** [mkdirat] *)
Definition mkdirat (dir : list str) (name : str) : IO unit :=
  atomic (in_dir dir (λ t, match t !! name with
                           | Some _ => Err AlreadyExists
                           | None => Ok (<[name := Dir ∅]> t, tt)
                           end)).

(** A step that has no effect on the tree but may fail: reading metadata, a deadline. *)
Definition chance : IO unit := atomic (λ x, Ok (x, tt)).

Definition sync : IO unit := chance.

(** Opening a directory and checking it. *)
Definition open_directory (dir : list str) (name : str) : IO (list str) :=
  atomic (in_dir dir (λ t, match t !! name with
                           | Some (Dir _) => Ok (t, dir ++ [name])
                           | Some _ => Err (Invalid "not a regular file or directory")
                           | None => Err NotFound
                           end)).

Definition child (dir : list str) (name : str) (create : bool) : IO (list str) :=
  do! _ := component name in
  do! _ := (if create then
              do! made := tried (mkdirat dir name) in
              match made with
              | Ok _ => sync
              | Err AlreadyExists => sret tt
              | Err e => serr e
              end
            else sret tt) in
  open_directory dir name.

Definition unsafe_file : string := "unsafe file ownership or hard links".

(** Opening an existing file, and the check that it is the owner's and has one link. *)
Definition open_file (dir : list str) (name : str) : IO str :=
  do! _ := component name in
  atomic (in_dir dir (λ t, match t !! name with
                           | Some (File b) => Ok (t, b)
                           | Some _ => Err (Invalid unsafe_file)
                           | None => Err NotFound
                           end)).

(** Creating a file that must not exist. *)
Definition create_file (dir : list str) (name : str) : IO unit :=
  do! _ := component name in
  atomic (in_dir dir (λ t, match t !! name with
                           | Some _ => Err AlreadyExists
                           | None => Ok (<[name := File []]> t, tt)
                           end)).

(** Writing an open file: an interrupted write leaves a prefix. *)
Definition put (dir : list str) (name : str) (bytes : str) (x : Node) : Node := set_at (dir ++ [name]) (File bytes) x.

Definition write_file (dir : list str) (name : str) (bytes : str) : IO unit :=
  prim (λ x, Ok (put dir name bytes x, tt)) (λ n x, put dir name (take n bytes) x).

Definition read (dir : list str) (name : str) (limit : Z) : IO str :=
  do! bytes := open_file dir name in
  do! _ := chance in
  if limit <? len bytes then serr (Invalid "file exceeds byte limit") else sret bytes.

Definition exists_ (dir : list str) (name : str) : IO bool :=
  do! _ := component name in
  atomic (in_dir dir (λ t, Ok (t, is_some (t !! name)))).

Definition write_new (dir : list str) (name : str) (bytes : str) : IO unit :=
  do! _ := create_file dir name in
  do! _ := write_file dir name bytes in
  sync.

(** Removing a name: a file with two links has one left. *)
Definition unlink (name : str) (t : Entries) : Entries :=
  match t !! name with
  | Some (Linked b other) =>
      match t !! other with
      | Some (Linked _ _) => <[other := File b]> (delete name t)
      | _ => delete name t
      end
  | _ => delete name t
  end.

Definition remove_file (dir : list str) (name : str) : IO unit :=
  do! _ := component name in
  atomic (in_dir dir (λ t, match t !! name with
                           | Some (Dir _) => Err (Invalid "is a directory")
                           | Some _ => Ok (unlink name t, tt)
                           | None => Err NotFound
                           end)).

(** [renameat]: a file replaces a file, a directory replaces nothing or an empty directory. *)
Definition rename_entry (from to : str) (t : Entries) : result IoError (Entries * unit) :=
  match t !! from with
  | None => Err NotFound
  | Some x =>
      if bool_decide (from = to) then Ok (t, tt)
      else match x, t !! to with
           | Dir _, None => Ok (<[to := x]> (delete from t), tt)
           | Dir _, Some (Dir u) =>
               if bool_decide (map_to_list u = []) then Ok (<[to := x]> (delete from t), tt)
               else Err (Invalid "directory not empty")
           | Dir _, Some _ => Err (Invalid "not a directory")
           | _, Some (Dir _) => Err (Invalid "is a directory")
           | Linked b other, _ =>
               if bool_decide (other = to) then Ok (t, tt)
               else Ok (<[other := Linked b to]> (<[to := x]> (delete from (unlink to t))), tt)
           | _, _ => Ok (<[to := x]> (delete from (unlink to t)), tt)
           end
  end.

Definition rename (dir : list str) (from to : str) : IO unit :=
  do! _ := component from in
  do! _ := component to in
  atomic (in_dir dir (rename_entry from to)).

(** [WriteReceipt]: the sync error of a write that is visible. *)
Definition receipt (synced : result IoError unit) : option IoError :=
  match synced with Ok _ => None | Err e => Some e end.

Definition atomic_write (dir : list str) (name : str) (bytes : str) : IO (option IoError) :=
  do! _ := component name in
  do! present := exists_ dir name in
  do! _ := (if present then do! _ := open_file dir name in sret tt else sret tt) in
  do! n := nonce in
  let temp := lit ".write-" ++ n in
  do! result := tried (do! _ := write_new dir temp bytes in
                       do! _ := rename dir temp name in
                       do! synced := tried sync in
                       sret (receipt synced)) in
  do! _ := tried (remove_file dir temp) in
  lifted result.

(** [linkat] within a directory *)
Definition linkat (dir : list str) (from to : str) : IO unit :=
  atomic (in_dir dir (λ t, match t !! from, t !! to with
                           | None, _ => Err NotFound
                           | Some _, Some _ => Err AlreadyExists
                           | Some (File b), None => Ok (<[to := Linked b from]> (<[from := Linked b to]> t), tt)
                           | Some _, None => Err (Invalid unsafe_file)
                           end)).

Definition install_new (dir : list str) (name : str) (bytes : str) : IO (option IoError) :=
  do! _ := component name in
  do! n := nonce in
  let temp := lit ".install-" ++ n in
  do! result := tried (do! _ := write_new dir temp bytes in
                       do! _ := linkat dir temp name in
                       do! _ := remove_file dir temp in
                       do! synced := tried sync in
                       sret (receipt synced)) in
  do! _ := tried (remove_file dir temp) in
  lifted result.

(** [FileLock::validate]: the lock's name still opens. No other process removes it while
    this one runs, so it is the same file. *)
Definition validate (dir : list str) (name : str) : IO unit := do! _ := open_file dir name in sret tt.

(** Opening the lock file, creating it first if it is missing; the deadline is checked
    after every attempt to create it. *)
Fixpoint open_lock (rounds : nat) (dir : list str) (name : str) : IO unit :=
  match rounds with
  | O => serr (Invalid "storage lock creation deadline exceeded")
  | S rounds =>
      do! opened := tried (open_file dir name) in
      match opened with
      | Ok _ => sret tt
      | Err NotFound =>
          do! created := tried (create_file dir name) in
          do! _ := match created with
                   | Ok _ => do! _ := sync in sync
                   | Err AlreadyExists => sret tt
                   | Err e => serr e
                   end in
          do! _ := chance in
          open_lock rounds dir name
      | Err e => serr e
      end
  end.

(** A lock that is taken elsewhere until the deadline is a step that fails. *)
Definition lock (dir : list str) (name : str) : IO unit :=
  do! _ := open_lock 2 dir name in
  do! _ := chance in
  validate dir name.

(** The length of a checked file. *)
Definition file_metadata (dir : list str) (name : str) : IO Z :=
  do! bytes := open_file dir name in
  do! _ := chance in
  sret (len bytes).

(** Writing at the end of an open file that holds [old]; only the caller writes to it, under
    a lock. An interrupted write leaves a prefix. *)
Definition append_file (dir : list str) (name : str) (old bytes : str) : IO unit :=
  prim (λ x, Ok (put dir name (old ++ bytes) x, tt)) (λ n x, put dir name (old ++ take n bytes) x).

Definition append_bounded (dir : list str) (name : str) (bytes : str) (limit : Z) : IO unit :=
  if limit <? len bytes then serr (Invalid "log record exceeds limit")
  else
    do! opened := tried (open_file dir name) in
    do! old := match opened with
               | Ok old => sret old
               | Err NotFound => do! _ := create_file dir name in sret []
               | Err e => serr e
               end in
    do! _ := chance in
    if limit <? len old + len bytes then do! _ := atomic_write dir name bytes in sret tt
    else do! _ := chance in append_file dir name old bytes.

(** [set_len(0)] of an open file. *)
Definition truncate (dir : list str) (name : str) : IO unit :=
  atomic (in_dir dir (λ t, match t !! name with
                           | Some (File _) => Ok (<[name := File []]> t, tt)
                           | _ => Err (Invalid "stale file")
                           end)).

(** [FileLock::write_contents] *)
Definition write_contents (dir : list str) (name bytes : str) : IO unit :=
  do! _ := truncate dir name in
  do! _ := write_file dir name bytes in
  sync.

(** [SecureDir::validate_path]: walking the path again leads to the same directory. A handle
    is its path here, so only the system calls can fail. *)
Definition validate_path (dir : list str) : IO unit := do! _ := chance in chance.

End Disk.
