(* ===== verification/DiskFacts.v ===== *)
(** * What operations on a private directory leave alone

    Every step changes entries of one directory. Paths are sealed when nothing may change
    them once they are there, and names of the root are kept when they may neither appear,
    change nor disappear; an operation is stable if it respects both whatever its fate. *)
From S2P Require Import Prelude Disk.

Module DiskFacts.
Import Disk.

Implicit Types (dir p q : list str) (x y z : Node) (t : Entries).

(** ** Paths *)

Lemma node_at_app p q x : node_at (p ++ q) x = match node_at p x with Some y => node_at q y | None => None end.
Proof.
  revert x. induction p as [|n p IH]; intros x; [done|]. simpl. destruct x as [| |t|]; try done.
  destruct (t !! n); [apply IH|done].
Qed.

Lemma node_at_snoc p n x t : node_at p x = Some (Dir t) → node_at (p ++ [n]) x = t !! n.
Proof. intros H. rewrite node_at_app, H. simpl. by destruct (t !! n). Qed.

Lemma node_at_set p q y x z : node_at p x = Some z → node_at (p ++ q) (set_at p y x) = node_at q y.
Proof.
  revert x. induction p as [|n p IH]; intros x; simpl; [done|]. destruct x as [| |t|]; try done.
  destruct (t !! n) as [u|] eqn:E; [|done]. intros H. rewrite lookup_insert_eq. by apply IH.
Qed.

Lemma node_at_set_eq p y x z : node_at p x = Some z → node_at p (set_at p y x) = Some y.
Proof. intros H. rewrite <- (app_nil_r p) at 1. by rewrite (node_at_set p [] y x z H). Qed.

Lemma node_at_set_other p q y x : ¬ p `prefix_of` q → ¬ q `prefix_of` p → node_at q (set_at p y x) = node_at q x.
Proof.
  revert q x. induction p as [|n p IH]; intros q x Hp Hq; [by destruct Hp; apply prefix_nil|].
  destruct q as [|m q]; [by destruct Hq; apply prefix_nil|]. simpl. destruct x as [| |t|]; try done.
  destruct (t !! n) as [z|] eqn:E; [|done]. destruct (decide (n = m)) as [->|Hne].
  - rewrite lookup_insert_eq, E. apply IH; intros ?; [apply Hp|apply Hq]; by apply prefix_cons.
  - by rewrite lookup_insert_ne.
Qed.

Lemma set_at_snoc p n y x t z : node_at p x = Some (Dir t) → t !! n = Some z →
  set_at (p ++ [n]) y x = set_at p (Dir (<[n := y]> t)) x.
Proof.
  revert x. induction p as [|m p IH]; intros x; simpl.
  - intros [= ->] ->. done.
  - destruct x as [| |u|]; try done. destruct (u !! m) as [v|]; [|done]. intros H Hz. by rewrite IH.
Qed.

Lemma set_at_set p y z x : set_at p y (set_at p z x) = set_at p y x.
Proof.
  revert x. induction p as [|n p IH]; intros x; simpl; [done|]. destruct x as [| |t|]; try done.
  destruct (t !! n) as [u|] eqn:E; [|by rewrite E]. by rewrite lookup_insert_eq, IH, insert_insert_eq.
Qed.

(** ** Steps *)

Lemma prim_cases {A} (act : Node → result IoError (Node * A)) torn d :
  let '(d', r) := prim act torn d in
  (root d' = root d ∨ (∃ n, root d' = torn n (root d)) ∨ ∃ a, act (root d) = Ok (root d', a)) ∧
  ∀ a, r = Ok a → act (root d) = Ok (root d', a).
Proof.
  unfold prim. destruct (crashed d); [split; [by left|done]|]. destruct (script d) as [|[|n|n] s]; simpl.
  - destruct (act (root d)) as [[x a]|e] eqn:E; simpl; (split; [|intros ? [= <-] || done]); eauto.
  - destruct (act (root d)) as [[x a]|e] eqn:E; simpl; (split; [|intros ? [= <-] || done]); eauto.
  - split; [eauto|done].
  - split; [eauto|done].
Qed.

Lemma atomic_cases {A} (act : Node → result IoError (Node * A)) d :
  let '(d', r) := atomic act d in
  (root d' = root d ∨ ∃ a, act (root d) = Ok (root d', a)) ∧ ∀ a, r = Ok a → act (root d) = Ok (root d', a).
Proof.
  pose proof (prim_cases act (whole act) d) as H. unfold atomic. destruct (prim act (whole act) d) as [d' r].
  destruct H as [H Hr]. split; [|done]. destruct H as [H|[[n H]|H]]; [by left| |by right].
  unfold whole in H. destruct n; [by left|]. destruct (act (root d)) as [[x a]|e] eqn:E; [|by left].
  right. exists a. by rewrite H.
Qed.

Lemma in_dir_Ok {A} (dir : list str) (f : Entries → result IoError (Entries * A)) x y a :
  in_dir dir f x = Ok (y, a) →
  ∃ t t', node_at dir x = Some (Dir t) ∧ f t = Ok (t', a) ∧ y = set_at dir (Dir t') x.
Proof.
  unfold in_dir. destruct (node_at dir x) as [[| |t|]|]; try done. destruct (f t) as [[t' b]|e] eqn:E; [|done].
  intros [= <- <-]. by exists t, t'.
Qed.

(** ** Stability *)

Definition settled (x : Node) : Prop := match x with Linked _ _ => False | _ => True end.

Section Stable.
Context (sealed : list str → Prop) (kept : str → Prop).

Record stable (x y : Node) : Prop := {
  st_sealed p z : sealed p → node_at p x = Some z → settled z → node_at p y = Some z;
  st_kept n : kept n → (∀ b o, node_at [n] x ≠ Some (Linked b o)) → node_at [n] x = node_at [n] y;
}.

#[export] Instance stable_preorder : PreOrder stable.
Proof.
  split.
  - by intros x.
  - intros x y z [H1 H2] [H3 H4]. split; [eauto|]. intros n Hn Hl. rewrite (H2 n Hn Hl). apply H4; [done|]. by rewrite <- (H2 n Hn Hl).
Qed.

(** A directory none of whose ancestors is sealed, and a path that may change freely. *)
Definition unsealed (dir : list str) : Prop :=
  (∀ q, sealed q → ¬ q `prefix_of` dir) ∧ match dir with [] => True | n :: _ => ¬ kept n end.

Definition free (p : list str) : Prop :=
  unsealed p ∧ ∀ q, sealed q → ¬ p `prefix_of` q.

Lemma stable_set p y x : p ≠ [] → free p → stable x (set_at p y x).
Proof.
  intros Hne [[Hu Hk] Hf]. split.
  - intros q z Hq Hx _. rewrite node_at_set_other; auto.
  - intros n Hn _. destruct p as [|m p]; [done|]. symmetry. simpl. destruct x as [| |t|]; try done.
    destruct (t !! m) as [u|]; [|done]. rewrite lookup_insert_ne; [done|]. congruence.
Qed.

(** Which entries of a directory may change. *)
Definition may_change (dir : list str) (t : Entries) (name : str) : Prop :=
  (t !! name = None ∨ (∃ b o, t !! name = Some (Linked b o)) ∨ ∀ q, sealed q → ¬ (dir ++ [name]) `prefix_of` q) ∧
  (dir = [] → kept name → ∃ b o, t !! name = Some (Linked b o)).

Lemma stable_entries dir t t' x :
  node_at dir x = Some (Dir t) → unsealed dir → (∀ name, t' !! name = t !! name ∨ may_change dir t name) →
  stable x (set_at dir (Dir t') x).
Proof.
  intros Hd [Hu Hk] Hc. split.
  - intros q z Hq Hx Hz. destruct (decide (dir `prefix_of` q)) as [[r ->]|Hn].
    2: { rewrite node_at_set_other; auto. }
    rewrite (node_at_set dir r (Dir t') x (Dir t) Hd). rewrite node_at_app, Hd in Hx. destruct r as [|n r].
    + rewrite app_nil_r in Hq. by destruct (Hu _ Hq).
    + simpl in *. destruct (Hc n) as [->|[[H|[(b & o & H)|H]] _]]; [done|..].
      * by rewrite H in Hx.
      * rewrite H in Hx. destruct r; [|done]. injection Hx as <-. done.
      * destruct (H _ Hq). exists r. by rewrite <- app_assoc.
  - intros n Hn Hl. destruct dir as [|m dir].
    + simpl in *. injection Hd as ->. destruct (Hc n) as [->|[_ H]]; [done|].
      destruct (H eq_refl Hn) as (b & o & E). destruct (Hl b o). by rewrite E.
    + symmetry. simpl. destruct x as [| |u|]; try done. destruct (u !! m) as [v|]; [|done].
      rewrite lookup_insert_ne; [done|]. congruence.
Qed.

(** ** Operations that respect the seals

    [safe P m Q]: from a tree satisfying [P], whatever its fate, [m] is stable and its result
    and the tree it leaves satisfy [Q]. *)

Definition safe {E A} (P : Node → Prop) (m : SE Disk E A) (Q : result E A → Node → Prop) : Prop :=
  ∀ d, P (root d) → let '(d', r) := m d in stable (root d) (root d') ∧ Q r (root d').

(** What holds of a success. *)
Definition ok {E A} (Q : A → Node → Prop) (r : result E A) (x : Node) : Prop := ∀ a, r = Ok a → Q a x.

Lemma safe_bind {E A B} P (m : SE Disk E A) (k : A → SE Disk E B) Q S :
  safe P m Q → (∀ a, safe (Q (Ok a)) (k a) S) → (∀ e x, Q (Err e) x → S (Err e) x) → safe P (sbind m k) S.
Proof.
  intros Hm Hk He d Hd. specialize (Hm d Hd). unfold sbind. destruct (m d) as [d1 [a|e]]; destruct Hm as [H1 HQ].
  - specialize (Hk a d1 HQ). destruct (k a d1) as [d2 r]. destruct Hk as [H2 HS]. split; [by etrans|done].
  - split; [done|]. by apply He.
Qed.

Lemma safe_seq {E A B} P (m : SE Disk E A) (k : A → SE Disk E B) Q S :
  safe P m (ok Q) → (∀ a, safe (Q a) (k a) (ok S)) → safe P (sbind m k) (ok S).
Proof.
  intros Hm Hk. eapply safe_bind; [exact Hm| |by intros e x _ a].
  intros a d Hd. apply Hk. by apply Hd.
Qed.

Lemma safe_weaken {E A} (P P' : Node → Prop) (m : SE Disk E A) (Q Q' : result E A → Node → Prop) :
  safe P m Q → (∀ x, P' x → P x) → (∀ r x, Q r x → Q' r x) → safe P' m Q'.
Proof. intros Hm HP HQ d Hd. specialize (Hm d (HP _ Hd)). destruct (m d). destruct Hm. auto. Qed.

Lemma safe_ret {E A} P (a : A) : safe P (sret (E:=E) a) (ok (λ b x, b = a ∧ P x)).
Proof. intros d Hd. split; [done|]. by intros b [= ->]. Qed.

Lemma safe_err {E A} P (e : E) (Q : A → Node → Prop) : safe P (serr e) (ok Q).
Proof. intros d Hd. by split. Qed.

Lemma safe_lifted {E A} P (r : result E A) : safe P (lifted r) (λ r' x, r' = r ∧ P x).
Proof. intros d Hd. by split. Qed.

Lemma safe_tried {E A} P (m : SE Disk E A) Q : safe P m Q → safe P (tried m) (λ r x, ∃ r', r = Ok r' ∧ Q r' x).
Proof. intros Hm d Hd. specialize (Hm d Hd). unfold tried. destruct (m d) as [d' r]. destruct Hm. eauto. Qed.

(** From an exactly known tree. *)
Lemma safe_exact {E A} (P : Node → Prop) (m : SE Disk E A) Q : (∀ x, P x → safe (eq x) m Q) → safe P m Q.
Proof. intros H d Hd. exact (H (root d) Hd d eq_refl). Qed.

Lemma safe_atomic {A} x (act : Node → result IoError (Node * A)) (Q : A → Node → Prop) :
  (∀ y a, act x = Ok (y, a) → stable x y ∧ Q a y) → safe (eq x) (atomic act) (ok Q).
Proof.
  intros H d ->. pose proof (atomic_cases act d) as Hc. destruct (atomic act d) as [d' r]. destruct Hc as [Hc Hr]. split.
  - destruct Hc as [->|[a Ha]]; [done|]. by apply (H _ a).
  - intros a ->. by apply H, Hr.
Qed.

Lemma safe_in_dir {A} x dir (f : Entries → result IoError (Entries * A)) (Q : A → Node → Prop) :
  unsealed dir →
  (∀ t t' a, node_at dir x = Some (Dir t) → f t = Ok (t', a) →
     (∀ n, t' !! n = t !! n ∨ may_change dir t n) ∧ Q a (set_at dir (Dir t') x)) →
  safe (eq x) (atomic (in_dir dir f)) (ok Q).
Proof.
  intros Hu H. apply safe_atomic. intros y a Hy. apply in_dir_Ok in Hy as (t & t' & Hd & Hf & ->).
  destruct (H t t' a Hd Hf) as [Hc HQ]. split; [|done]. by eapply stable_entries.
Qed.

Lemma set_at_same p x y : node_at p x = Some y → set_at p y x = x.
Proof.
  revert x. induction p as [|n p IH]; intros x; simpl; [by intros [= ->]|]. destruct x as [| |t|]; try done.
  destruct (t !! n) as [z|] eqn:E; [|done]. intros H. by rewrite (IH z H), insert_id.
Qed.

(** Looking at a directory. *)
Lemma safe_look {A} x dir (f : Entries → result IoError (Entries * A)) (Q : A → Entries → Prop) :
  (∀ t t' a, f t = Ok (t', a) → t' = t ∧ Q a t) →
  safe (eq x) (atomic (in_dir dir f)) (ok (λ a y, y = x ∧ ∃ t, node_at dir x = Some (Dir t) ∧ Q a t)).
Proof.
  intros H. apply safe_atomic. intros y a Hy. apply in_dir_Ok in Hy as (t & t' & Hd & Hf & ->).
  destruct (H _ _ _ Hf) as [-> HQ]. rewrite set_at_same by done. split; [done|]. eauto.
Qed.

Lemma safe_chance x : safe (eq x) chance (ok (λ _ y, y = x)).
Proof. apply safe_atomic. by intros y [] [= <-]. Qed.

Lemma safe_still x : safe (eq x) chance (λ _ y, y = x).
Proof.
  intros d ->. pose proof (atomic_cases (λ x, Ok (x, tt)) d) as H. unfold chance. destruct (atomic _ d) as [d' r].
  destruct H as [[->|[[] [= ->]]] _]; done.
Qed.

Lemma safe_component x n : safe (eq x) (component n) (ok (λ _ y, y = x ∧ single_component n = true)).
Proof. intros d ->. unfold component. destruct (single_component n) eqn:E; (split; [done|]); by intros a Ha. Qed.

Lemma safe_getrandom x n : safe (eq x) (getrandom n) (ok (λ b y, y = x ∧ length b = n)).
Proof.
  intros d ->. unfold getrandom. destruct (crashed d); [done|]. destruct (random d) as [|b bs]; [done|].
  destruct (length b =? n)%nat eqn:E; [|done]. split; [done|]. intros ? [= <-]. split; [done|]. by apply Nat.eqb_eq.
Qed.

(** Steps from a known tree in sequence. *)
Lemma safe_then {E A B} x (m : SE Disk E A) (k : A → SE Disk E B) (Q : A → Node → Prop) S :
  safe (eq x) m (ok Q) → (∀ a y, Q a y → safe (eq y) (k a) (ok S)) → safe (eq x) (sbind m k) (ok S).
Proof. intros Hm Hk. eapply safe_seq; [exact Hm|]. intros a. apply safe_exact. auto. Qed.

Lemma safe_mono {E A} P (m : SE Disk E A) (Q Q' : A → Node → Prop) :
  safe P m (ok Q) → (∀ a x, Q a x → Q' a x) → safe P m (ok Q').
Proof. intros Hm HQ. eapply safe_weaken; [exact Hm|done|]. intros r x H a Ha. auto. Qed.

(** An entry is added where there was none. *)
Definition added dir (n : str) (z : Node) x y : Prop :=
  ∃ t, node_at dir x = Some (Dir t) ∧ t !! n = None ∧ y = set_at dir (Dir (<[n := z]> t)) x.

Lemma may_add dir t n z : (dir = [] → ¬ kept n) → t !! n = None →
  ∀ m, <[n := z]> t !! m = t !! m ∨ may_change dir t m.
Proof.
  intros Hk Hn m. destruct (decide (m = n)) as [->|Hne]; [|by rewrite lookup_insert_ne; auto].
  right. split; [by left|]. intros -> ?. by destruct (Hk eq_refl).
Qed.

(** A step refused because of what was there changed nothing. *)
Lemma atomic_refused {A} (act : Node → result IoError (Node * A)) d :
  match atomic act d with
  | (d', Err NotFound) | (d', Err AlreadyExists) => root d' = root d
  | _ => True
  end.
Proof.
  unfold atomic, prim. destruct (crashed d); [done|]. destruct (script d) as [|[] s]; simpl; try done;
    destruct (act (root d)) as [[y a]|[]]; done.
Qed.

Definition refused {A} x (r : result IoError A) y : Prop :=
  match r with Err NotFound | Err AlreadyExists => y = x | _ => True end.

Lemma safe_refused {A} x (act : Node → result IoError (Node * A)) Q :
  safe (eq x) (atomic act) Q → safe (eq x) (atomic act) (λ r y, Q r y ∧ refused x r y).
Proof.
  intros H d Hd. specialize (H d Hd). pose proof (atomic_refused act d) as Hr. destruct (atomic act d) as [d' r].
  destruct H as [? ?]. split; [done|]. split; [done|]. by destruct r as [|[]]; simpl; subst.
Qed.

Lemma safe_mkdirat x dir n : unsealed dir → (dir = [] → ¬ kept n) →
  safe (eq x) (mkdirat dir n) (λ r y, ok (λ _ y, added dir n (Dir ∅) x y) r y ∧ refused x r y).
Proof.
  intros Hu Hk. apply safe_refused, safe_in_dir; [done|]. intros t t' [] Hd Hf. destruct (t !! n) eqn:E; [done|]. injection Hf as <-.
  split; [by apply may_add|]. by exists t.
Qed.

Lemma safe_open_directory x dir n :
  safe (eq x) (open_directory dir n) (ok (λ p y, y = x ∧ p = dir ++ [n] ∧ ∃ t, node_at p x = Some (Dir t))).
Proof.
  eapply safe_mono.
  - apply (safe_look x dir _ (λ p t, p = dir ++ [n] ∧ ∃ u, t !! n = Some (Dir u))).
    intros t t' a. destruct (t !! n) as [[| |u|]|]; try done. intros [= <- <-]. eauto.
  - intros p y (-> & t & Hd & -> & u & Hu). split; [done|]. split; [done|]. exists u. by rewrite (node_at_snoc _ _ _ t).
Qed.

Lemma safe_child x dir n (create : bool) : unsealed dir → (dir = [] → ¬ kept n) →
  safe (eq x) (child dir n create)
    (ok (λ p y, p = dir ++ [n] ∧ single_component n = true ∧
       ((y = x ∧ ∃ t, node_at p x = Some (Dir t)) ∨ (create = true ∧ added dir n (Dir ∅) x y)))).
Proof.
  intros Hu Hk. eapply safe_then; [apply safe_component|]. intros [] y [-> Hc].
  eapply (safe_then _ _ _ (λ _ y, y = x ∨ (create = true ∧ added dir n (Dir ∅) x y))).
  { destruct create; [|eapply safe_mono; [apply safe_ret|]; intros [] z [_ <-]; by left].
    eapply safe_bind; [eapply safe_tried, safe_mkdirat; done| |by intros e z (r' & ? & _) ?].
    intros made. apply safe_exact. intros z (r' & [= <-] & Hr & Hx). destruct made as [[]|[]]; try apply safe_err.
    - eapply safe_mono; [apply safe_chance|]. intros [] w ->. right. split; [done|]. by apply (Hr tt).
    - eapply safe_mono; [apply safe_ret|]. intros [] w [_ <-]. by left. }
  intros [] z Hz. eapply safe_mono; [apply safe_open_directory|]. intros p w (-> & -> & Ht).
  split; [done|]. split; [done|]. destruct Hz as [->|Hz]; [left|right]; done.
Qed.

Lemma free_unsealed dir n : free (dir ++ [n]) → unsealed dir ∧ (dir = [] → ¬ kept n) ∧ ∀ q, sealed q → ¬ (dir ++ [n]) `prefix_of` q.
Proof.
  intros [[Hu Hk] Hf]. split; [split|split; [|done]].
  - intros q Hq H. apply (Hu q Hq). by apply prefix_app_r.
  - by destruct dir.
  - by intros ->.
Qed.

Lemma safe_open_file x dir n : safe (eq x) (open_file dir n) (ok (λ b y, y = x ∧ node_at (dir ++ [n]) x = Some (File b))).
Proof.
  eapply safe_then; [apply safe_component|]. intros [] y [-> _]. eapply safe_mono.
  - apply (safe_look x dir _ (λ b t, t !! n = Some (File b))). intros t t' a. destruct (t !! n) as [[b| | |]|]; try done.
    by intros [= <- <-].
  - intros b y (-> & t & Hd & Ht). split; [done|]. by rewrite (node_at_snoc _ _ _ t).
Qed.

Lemma safe_exists x dir n :
  safe (eq x) (exists_ dir n) (ok (λ b y, y = x ∧ ∃ t, node_at dir x = Some (Dir t) ∧ b = is_some (t !! n))).
Proof.
  eapply safe_then; [apply safe_component|]. intros [] y [-> _]. apply safe_look. by intros t t' a [= <- <-].
Qed.

Lemma safe_read x dir n limit :
  safe (eq x) (read dir n limit) (ok (λ b y, y = x ∧ node_at (dir ++ [n]) x = Some (File b) ∧ len b ≤ limit)).
Proof.
  eapply safe_then; [apply safe_open_file|]. intros b y [-> Hb]. eapply safe_then; [apply safe_chance|]. intros [] y ->.
  destruct (limit <? len b) eqn:E; [apply safe_err|]. eapply safe_mono; [apply safe_ret|]. intros c z [-> <-].
  destruct_bool. done.
Qed.

Lemma safe_create x dir n : unsealed dir → (dir = [] → ¬ kept n) →
  safe (eq x) (create_file dir n) (ok (λ _ y, added dir n (File []) x y)).
Proof.
  intros Hu Hk. eapply safe_then; [apply safe_component|]. intros [] y [-> _]. apply safe_in_dir; [done|].
  intros t t' [] Hd Hf. destruct (t !! n) eqn:E; [done|]. injection Hf as <-. split; [by apply may_add|]. by exists t.
Qed.

Lemma added_at dir n z x y : added dir n z x y → node_at (dir ++ [n]) y = Some z.
Proof. intros (t & Hd & Hn & ->). rewrite (node_at_set _ _ _ _ _ Hd). simpl. by rewrite lookup_insert_eq. Qed.

Lemma added_put dir n z b x y : added dir n z x y → added dir n (File b) x (put dir n b y).
Proof.
  intros (t & Hd & Hn & ->). exists t. split; [done|]. split; [done|]. unfold put.
  rewrite (set_at_snoc _ _ _ _ (<[n := z]> t) z); [|by eapply node_at_set_eq|by rewrite lookup_insert_eq].
  by rewrite set_at_set, insert_insert_eq.
Qed.

Lemma safe_write_new x dir n b : free (dir ++ [n]) → safe (eq x) (write_new dir n b) (ok (λ _ y, added dir n (File b) x y)).
Proof.
  intros Hf. destruct (free_unsealed _ _ Hf) as (Hu & Hk & _). assert (dir ++ [n] ≠ []) as Hne by (by destruct dir).
  eapply safe_then; [by apply safe_create|]. intros [] y Hy. eapply (safe_then _ _ _ (λ _ z, added dir n (File b) x z)).
  - intros d ->. pose proof (prim_cases (λ x, Ok (put dir n b x, tt)) (λ k x, put dir n (take k b) x) d) as Hc.
    unfold write_file. destruct (prim _ _ d) as [d' r]. destruct Hc as [Hc Hr]. split.
    + destruct Hc as [->|[[k ->]|[[] [= <-]]]]; [done|by apply stable_set..].
    + intros [] ->. injection (Hr tt eq_refl) as <-. by eapply added_put.
  - intros [] z Hz. eapply safe_mono; [apply safe_chance|]. by intros [] w ->.
Qed.

(** Removing a name of one's own. *)
Lemma unlink_changes dir t n : (∀ q, sealed q → ¬ (dir ++ [n]) `prefix_of` q) → (dir = [] → ¬ kept n) →
  ∀ m, unlink n t !! m = t !! m ∨ may_change dir t m.
Proof.
  intros Hf Hk m. destruct (decide (m = n)) as [->|Hne].
  { right. split; [by right; right|]. intros -> ?. by destruct (Hk eq_refl). }
  unfold unlink. destruct (t !! n) as [[|b o| |]|]; try (left; by rewrite lookup_delete_ne).
  destruct (t !! o) as [[|b' o'| |]|] eqn:Eo; try (left; by rewrite lookup_delete_ne).
  destruct (decide (m = o)) as [->|]; [|left; by rewrite lookup_insert_ne, lookup_delete_ne].
  right. split; [right; left; eauto|]. eauto.
Qed.

Lemma safe_remove x dir n : free (dir ++ [n]) →
  safe (eq x) (remove_file dir n) (ok (λ _ y, ∃ t, node_at dir x = Some (Dir t) ∧ y = set_at dir (Dir (unlink n t)) x)).
Proof.
  intros Hf. destruct (free_unsealed _ _ Hf) as (Hu & Hk & Hs). eapply safe_then; [apply safe_component|]. intros [] y [-> _].
  apply safe_in_dir; [done|]. intros t t' [] Hd Ht. assert (t' = unlink n t) as -> by (destruct (t !! n) as [[]|]; congruence).
  split; [by apply unlink_changes|]. by exists t.
Qed.

(** Removing a name that is not there changes nothing. *)
Lemma safe_remove_absent x dir n t : node_at dir x = Some (Dir t) → t !! n = None →
  safe (eq x) (tried (remove_file dir n)) (ok (λ _ y, y = x)).
Proof.
  intros Hd Hn d ->. unfold tried, remove_file, sbind, component. destruct (single_component n); simpl; [|by split; [|intros ? _]].
  pose proof (atomic_cases (in_dir dir (λ t, match t !! n with
    | Some (Dir _) => Err (Invalid "is a directory") | Some _ => Ok (unlink n t, tt) | None => Err NotFound end)) d) as Hc.
  destruct (atomic _ d) as [d' r]. destruct Hc as [Hc _].
  assert (root d' = root d) as ->; [|by split; [|intros ? _]].
  destruct Hc as [->|[a Ha]]; [done|]. unfold in_dir in Ha. by rewrite Hd, Hn in Ha.
Qed.

(** A directory is moved from a name of one's own to one that is not taken. *)
Lemma safe_rename_dir x dir from to t u : node_at dir x = Some (Dir t) → t !! from = Some (Dir u) → t !! to = None →
  free (dir ++ [from]) → (dir = [] → ¬ kept to) →
  safe (eq x) (rename dir from to) (ok (λ _ y, y = set_at dir (Dir (<[to := Dir u]> (delete from t))) x)).
Proof.
  intros Hd Hu Ht Hf Hkt. destruct (free_unsealed _ _ Hf) as (Hun & Hk & Hs).
  eapply safe_then; [apply safe_component|]. intros [] y [-> _]. eapply safe_then; [apply safe_component|]. intros [] y [-> _].
  apply safe_in_dir; [done|]. intros v v' [] Hd' Hv. rewrite Hd in Hd'. injection Hd' as <-.
  unfold rename_entry in Hv. rewrite Hu, Ht in Hv. rewrite bool_decide_eq_false_2 in Hv by congruence. injection Hv as <-.
  split; [|done]. intros m. destruct (decide (m = to)) as [->|]; [|destruct (decide (m = from)) as [->|]].
  - right. split; [by left|]. intros -> ?. by destruct (Hkt eq_refl).
  - right. split; [by right; right|]. intros -> ?. by destruct (Hk eq_refl).
  - left. by rewrite lookup_insert_ne, lookup_delete_ne.
Qed.

Lemma safe_open_lock x rounds dir n : unsealed dir → (dir = [] → ¬ kept n) → safe (eq x) (open_lock rounds dir n) (ok (λ _ _, True)).
Proof.
  intros Hu Hk. revert x. induction rounds as [|rounds IH]; intros x; [apply safe_err|]. cbn [open_lock].
  eapply safe_bind; [eapply safe_tried, safe_open_file| |by intros e z (r' & ? & _) ?].
  intros r. apply safe_exact. intros y (r' & [= <-] & _). destruct r as [b|[]]; try apply safe_err.
  { eapply safe_mono; [apply safe_ret|done]. }
  eapply safe_bind; [by eapply safe_tried, safe_create| |by intros e z (r' & ? & _) ?].
  intros r. apply safe_exact. intros z (r' & [= <-] & _). eapply (safe_then _ _ _ (λ _ _, True)).
  - destruct r as [[]|[]]; try apply safe_err.
    + eapply safe_then; [apply safe_chance|]. intros [] w ->. eapply safe_mono; [apply safe_chance|done].
    + eapply safe_mono; [apply safe_ret|done].
  - intros [] w _. eapply safe_then; [apply safe_chance|]. intros [] v ->. apply IH.
Qed.

Lemma safe_lock x dir n : unsealed dir → (dir = [] → ¬ kept n) → safe (eq x) (lock dir n) (ok (λ _ _, True)).
Proof.
  intros Hu Hk. eapply safe_then; [by apply safe_open_lock|]. intros [] y _. eapply safe_then; [apply safe_chance|]. intros [] z ->.
  eapply safe_then; [apply safe_open_file|]. intros b w [-> _]. eapply safe_mono; [apply safe_ret|done].
Qed.

Lemma safe_nonce x : safe (eq x) nonce (ok (λ _ y, y = x)).
Proof. eapply safe_then; [apply safe_getrandom|]. intros b y [-> _]. eapply safe_mono; [apply safe_ret|]. by intros c z [_ <-]. Qed.

(** A file installed under a new name is complete. *)
Lemma safe_linkat x dir from to t b : node_at dir x = Some (Dir t) → t !! from = Some (File b) →
  free (dir ++ [from]) → (dir = [] → ¬ kept to) →
  safe (eq x) (linkat dir from to) (ok (λ _ y, t !! to = None ∧
    y = set_at dir (Dir (<[to := Linked b from]> (<[from := Linked b to]> t))) x)).
Proof.
  intros Hd Hb Hf Hkt. destruct (free_unsealed _ _ Hf) as (Hun & Hk & Hs). apply safe_in_dir; [done|].
  intros v v' [] Hd' Hv. rewrite Hd in Hd'. injection Hd' as <-. rewrite Hb in Hv. destruct (t !! to) eqn:Et; [done|].
  injection Hv as <-. split; [|done]. intros m. destruct (decide (m = to)) as [->|]; [|destruct (decide (m = from)) as [->|]].
  - right. split; [by left|]. intros -> ?. by destruct (Hkt eq_refl).
  - right. split; [by right; right|]. intros -> ?. by destruct (Hk eq_refl).
  - left. by rewrite !lookup_insert_ne.
Qed.

Lemma safe_install x dir n bytes : (∀ s, free (dir ++ [lit ".install-" ++ s])) → (dir = [] → ¬ kept n) →
  (∀ s, n ≠ lit ".install-" ++ s) →
  safe (eq x) (install_new dir n bytes) (ok (λ _ y, node_at (dir ++ [n]) y = Some (File bytes))).
Proof.
  intros Hfree Hkn Hne. eapply safe_then; [apply safe_component|]. intros [] y [-> _].
  eapply safe_then; [apply safe_nonce|]. intros s y ->. set (temp := lit ".install-" ++ s). specialize (Hfree s). fold temp in Hfree.
  specialize (Hne s). fold temp in Hne.
  eapply (safe_bind _ _ _ (λ r y, ∃ r', r = Ok r' ∧ ok (λ _ y, ∃ t, node_at dir y = Some (Dir t) ∧ t !! n = Some (File bytes) ∧ t !! temp = None) r' y)).
  - apply safe_tried. eapply safe_then; [by apply safe_write_new|]. intros [] y (t & Hd & Ht & ->).
    set (t1 := <[temp := File bytes]> t). set (x1 := set_at dir (Dir t1) x).
    assert (node_at dir x1 = Some (Dir t1)) as Hd1 by (by eapply node_at_set_eq).
    eapply safe_then; [apply (safe_linkat x1 dir temp n t1 bytes); [done|by apply lookup_insert_eq|done|done]|].
    intros [] y (Hn & ->). set (t2 := <[n := Linked bytes temp]> _). set (x2 := set_at dir (Dir t2) x1).
    assert (node_at dir x2 = Some (Dir t2)) as Hd2 by (by eapply node_at_set_eq).
    eapply safe_then; [by apply safe_remove|]. intros [] y (t3 & Hd3 & ->). rewrite Hd2 in Hd3. injection Hd3 as <-.
    eapply safe_bind; [eapply safe_tried, safe_still| |by intros e z (r' & ? & _) ?].
    intros r. apply safe_exact. intros z (r' & [= <-] & ->). eapply safe_mono; [apply safe_ret|]. intros c w [_ <-].
    exists (unlink temp t2). split; [by eapply node_at_set_eq|]. unfold unlink, t2.
    rewrite lookup_insert_ne, lookup_insert_eq by done. rewrite lookup_insert_eq.
    rewrite lookup_insert_eq, lookup_insert_ne, lookup_delete_eq by done. done.
  - intros r. apply safe_exact. intros y (r' & [= <-] & Hr). destruct r as [c|e].
    + destruct (Hr c eq_refl) as (t & Hd & Hn & Ht). eapply safe_then; [by eapply safe_remove_absent|]. intros r y' ->.
      eapply safe_weaken; [apply safe_lifted|done|]. intros r0 w [-> <-] c' _. by rewrite (node_at_snoc _ _ _ t).
    + eapply safe_bind; [by eapply safe_tried, safe_remove| |by intros e' z (r' & ? & _) ?].
      intros r. apply safe_exact. intros z _. eapply safe_weaken; [apply safe_lifted|done|]. by intros r0 w [-> _] c'.
  - by intros e z (r' & ? & _) ?.
Qed.

End Stable.

(** ** Replacing a file of the root *)

Section Replace.
Context (sealed : list str → Prop) (kept : str → Prop) (name : str) (bytes : str).
Hypothesis Hroot : ¬ sealed [].
Hypothesis Hkept : ¬ kept name.
Hypothesis Hsealed : ∀ q, sealed q → ¬ [name] `prefix_of` q.
Let kept' (n : str) : Prop := kept n ∨ n = name.
Hypothesis Htemp : ∀ s, free sealed kept' [lit ".write-" ++ s].
Hypothesis Hname : ∀ s, name ≠ lit ".write-" ++ s.

Definition unlinked x : Prop := ∀ b o, node_at [name] x ≠ Some (Linked b o).

Lemma safe_narrow {E A} x (m : SE Disk E A) Q : unlinked x → safe sealed kept' (eq x) m Q →
  safe sealed kept (eq x) m (λ r y, Q r y ∧ node_at [name] y = node_at [name] x).
Proof.
  intros Hl Hm d ->. specialize (Hm d eq_refl). destruct (m d) as [d' r]. destruct Hm as [[H1 H2] HQ].
  split; [split; [done|]; intros n Hn; apply H2; by left|]. split; [done|]. symmetry. apply H2; [by right|done].
Qed.

Lemma free_kept p : free sealed kept' p → free sealed kept p.
Proof. intros [[H1 H2] H3]. split; [split; [done|]|done]. destruct p; [done|]. intros ?. apply H2. by left. Qed.

Definition old_or_new x y : Prop := node_at [name] y = node_at [name] x ∨ node_at [name] y = Some (File bytes).

(** The step at which the new contents appear. *)
Lemma safe_switch temp t : t !! temp = Some (File bytes) → temp ≠ name → (t !! name = None ∨ ∃ b, t !! name = Some (File b)) →
  free sealed kept' [temp] →
  safe sealed kept (eq (Dir t)) (rename [] temp name) (λ r y, old_or_new (Dir t) y ∧ ok (λ _ y, node_at [name] y = Some (File bytes)) r y).
Proof.
  intros Ht Hne Hn Hf. set (x := Dir t).
  assert (∀ n, safe sealed kept (eq x) (component n) (λ _ y, y = x)) as Hc.
  { intros n d ->. unfold component. by destruct (single_component n). }
  assert (∀ e y, y = x → old_or_new x y ∧ ok (λ (_ : unit) y, node_at [name] y = Some (File bytes)) (Err (E:=IoError) e) y) as He.
  { intros e y ->. split; [by left|done]. }
  unfold rename. eapply safe_bind; [apply Hc| |apply He]. intros [].
  eapply safe_bind; [eapply safe_weaken; [apply Hc|by intros y ->|done]| |apply He]. intros [].
  intros d Hd. pose proof (atomic_cases (in_dir [] (rename_entry temp name)) d) as Ha. destruct (atomic _ d) as [d' r].
  destruct Ha as [Ha Hr]. rewrite Hd in Ha, Hr |- *. clear Hd. set (t' := <[name := File bytes]> (delete temp (delete name t))).
  assert (∀ y a, in_dir [] (rename_entry temp name) x = Ok (y, a) → y = Dir t') as Heff.
  { intros y a. unfold in_dir, x. simpl. unfold rename_entry. rewrite Ht, bool_decide_eq_false_2 by done. unfold unlink.
    destruct Hn as [Hn|[b Hn]]; rewrite Hn; by intros [= <- _]. }
  assert (stable sealed kept x (Dir t')) as Hst.
  { apply (stable_entries sealed kept [] t t' x eq_refl); [split; [|done]|].
    - intros [|n q] Hq Hp; [done|]. by apply prefix_nil_not in Hp.
    - intros m. destruct (decide (m = name)) as [->|]; [|destruct (decide (m = temp)) as [->|]].
      + right. split; [right; right; apply Hsealed|]. intros _ ?. done.
      + right. destruct Hf as [[_ Hk] Hf]. split; [right; right; apply Hf|]. intros _ ?. destruct Hk. by left.
      + left. unfold t'. by rewrite lookup_insert_ne, !lookup_delete_ne. }
  assert (node_at [name] (Dir t') = Some (File bytes)) as Hnew by (simpl; unfold t'; by rewrite lookup_insert_eq).
  destruct Ha as [Ha|[a Ha]].
  - rewrite Ha in *. split; [done|]. split; [by left|]. intros [] ->. by rewrite (Heff _ _ (Hr tt eq_refl)).
  - apply Heff in Ha. rewrite Ha. split; [done|]. split; [by right|]. by intros [] _.
Qed.

Lemma safe_atomic_write x : unlinked x →
  safe sealed kept (eq x) (atomic_write [] name bytes)
    (λ r y, old_or_new x y ∧ ok (λ _ y, node_at [name] y = Some (File bytes)) r y).
Proof.
  intros Hl. unfold atomic_write.
  assert (∀ (r : result IoError (option IoError)) y, is_ok r = false → node_at [name] y = node_at [name] x →
    old_or_new x y ∧ ok (λ _ y, node_at [name] y = Some (File bytes)) r y) as Hfail.
  { intros r y Hr Hy. split; [by left|]. by intros a ->. }
  assert (∀ A (m : SE Disk IoError A) (k : A → IO (option IoError)) Q,
    safe sealed kept' (eq x) m (ok (λ a y, y = x ∧ Q a)) →
    (∀ a, Q a → safe sealed kept (eq x) (k a) (λ r y, old_or_new x y ∧ ok (λ _ y, node_at [name] y = Some (File bytes)) r y)) →
    safe sealed kept (eq x) (sbind m k) (λ r y, old_or_new x y ∧ ok (λ _ y, node_at [name] y = Some (File bytes)) r y)) as Hlook.
  { intros A m k Q Hm Hk. eapply safe_bind; [by apply safe_narrow| |by intros e y [_ Hy]; apply Hfail].
    intros a. apply safe_exact. intros y [Hok _]. destruct (Hok a eq_refl) as [-> HQ]. by apply Hk. }
  eapply (Hlook _ _ _ (λ _, True)); [eapply safe_mono; [apply safe_component|]; by intros [] y [-> _]|]. intros [] _.
  eapply (Hlook _ _ _ (λ b, ∃ t, x = Dir t ∧ b = is_some (t !! name))).
  { eapply safe_mono; [apply safe_exists|]. intros b y (-> & t & [= ->] & ->). split; [done|]. by exists t. }
  intros present (t & -> & ->).
  eapply (Hlook _ _ _ (λ _, t !! name = None ∨ ∃ b, t !! name = Some (File b))).
  { destruct (t !! name) as [z|] eqn:E; simpl.
    - eapply safe_then; [apply safe_open_file|]. intros b y [-> Hb]. eapply safe_mono; [apply safe_ret|]. intros [] y [_ <-].
      split; [done|]. right. exists b. simpl in Hb. rewrite E in Hb. by rewrite <- Hb.
    - eapply safe_mono; [apply safe_ret|]. intros [] y [_ <-]. split; [done|by left]. }
  intros [] Hn. eapply (Hlook _ _ _ (λ _, True)); [eapply safe_mono; [apply safe_nonce|]; by intros s y ->|]. intros s _.
  set (temp := lit ".write-" ++ s). pose proof (Htemp s) as Hf. fold temp in Hf. pose proof (Hname s) as Hne. fold temp in Hne.
  eapply (safe_bind _ _ _ _ _ (λ r y, ∃ r', r = Ok r' ∧ old_or_new (Dir t) y ∧ ok (λ _ y, node_at [name] y = Some (File bytes)) r' y)).
  - apply safe_tried. eapply safe_bind; [apply safe_narrow; [done|]; by apply safe_write_new| |by intros e y [_ Hy]; apply Hfail].
    intros []. apply safe_exact. intros y [Hok Hy]. destruct (Hok tt eq_refl) as (t0 & [= <-] & Ht & ->). simpl.
    eapply safe_bind; [apply safe_switch; [apply lookup_insert_eq|done|by rewrite lookup_insert_ne|done]| |].
    + intros []. apply safe_exact. intros z [_ Hz]. specialize (Hz tt eq_refl).
      eapply safe_bind; [eapply safe_tried, safe_still| |by intros e w (r' & ? & _)].
      intros r. apply safe_exact. intros w (r' & [= <-] & ->). intros d Hd. subst z.
      split; [done|]. split; [by right|]. by intros c _.
    + intros e z [Hz _]. split; [|done]. destruct Hz as [Hz|Hz]; [left|by right]. by rewrite Hz, <- Hy.
  - intros r. apply safe_exact. intros y (r' & [= <-] & Hy & Hok).
    assert (unlinked y) as Hly by (intros b o; destruct Hy as [-> | ->]; [apply Hl|done]).
    eapply safe_bind; [apply safe_narrow; [done|]; by eapply safe_tried, safe_remove| |by intros e w [(r' & ? & _) _]].
    intros r'. apply safe_exact. intros z [_ Hz]. eapply safe_weaken; [apply safe_lifted|done|]. intros r0 w [-> <-].
    unfold old_or_new. rewrite Hz. split; [done|]. intros c Hc. rewrite Hz. by apply (Hok c).
  - by intros e w (r' & ? & _).
Qed.

End Replace.

(** ** Operations that only read

    A failure can make reading fail but never changes what is read: a success is what a
    disk without failures gives. *)

Definition still x : Disk := mkDisk x [] [] false.

Definition reads {E A} (m : SE Disk E A) : Prop := ∀ d,
  root (fst (m d)) = root d ∧ ∀ a, snd (m d) = Ok a → m (still (root d)) = (still (root d), Ok a).

Lemma reads_bind {E A B} (m : SE Disk E A) (k : A → SE Disk E B) : reads m → (∀ a, reads (k a)) → reads (sbind m k).
Proof.
  intros Hm Hk d. destruct (Hm d) as [Hr Ho]. unfold sbind. destruct (m d) as [d1 [a|e]]; simpl in *; [|done].
  rewrite (Ho a eq_refl). destruct (Hk a d1) as [Hr' Ho']. rewrite Hr in *. done.
Qed.

Lemma reads_ret {E A} (a : A) : reads (sret (S:=Disk) (E:=E) a).
Proof. intros d. split; [done|]. by intros b [= ->]. Qed.

Lemma reads_err {E A} (e : E) : reads (serr (S:=Disk) (A:=A) e).
Proof. by intros d. Qed.

Lemma reads_lifted {E A} (r : result E A) : reads (lifted (S:=Disk) r).
Proof. intros d. split; [done|]. intros a Ha. simpl in Ha. subst. done. Qed.

Lemma reads_atomic {A} (act : Node → result IoError (Node * A)) : (∀ x y a, act x = Ok (y, a) → y = x) → reads (atomic act).
Proof.
  intros H d. pose proof (atomic_cases act d) as Hc. destruct (atomic act d) as [d' r]. destruct Hc as [Hc Hr]. simpl.
  split; [destruct Hc as [Hc|[a Ha]]; [done|by eapply H]|]. intros a ->. specialize (Hr a eq_refl).
  pose proof (H _ _ _ Hr) as Hx. unfold atomic, prim, still. simpl. rewrite Hr, Hx. done.
Qed.

Lemma reads_look {A} dir (f : Entries → result IoError (Entries * A)) :
  (∀ t t' a, f t = Ok (t', a) → t' = t) → reads (atomic (in_dir dir f)).
Proof.
  intros H. apply reads_atomic. intros x y a Hy. apply in_dir_Ok in Hy as (t & t' & Hd & Hf & ->).
  rewrite (H _ _ _ Hf). by apply set_at_same.
Qed.

Lemma reads_component n : reads (component n).
Proof. unfold component. destruct (single_component n); [apply reads_ret|apply reads_err]. Qed.

Lemma reads_chance : reads chance.
Proof. apply reads_atomic. by intros x y [] [= ->]. Qed.

Lemma reads_open_file dir n : reads (open_file dir n).
Proof.
  apply reads_bind; [apply reads_component|]. intros []. apply reads_look. intros t t' b. destruct (t !! n) as [[]|]; congruence.
Qed.

Lemma reads_read dir n limit : reads (read dir n limit).
Proof.
  apply reads_bind; [apply reads_open_file|]. intros b. apply reads_bind; [apply reads_chance|]. intros [].
  destruct (limit <? len b); [apply reads_err|apply reads_ret].
Qed.

Lemma reads_exists dir n : reads (exists_ dir n).
Proof. apply reads_bind; [apply reads_component|]. intros []. apply reads_look. by intros t t' b [= <- _]. Qed.

Lemma reads_child dir n : reads (child dir n false).
Proof.
  apply reads_bind; [apply reads_component|]. intros []. apply reads_bind; [apply reads_ret|]. intros [].
  apply reads_look. intros t t' b. destruct (t !! n) as [[]|]; congruence.
Qed.

(** What reading gives on a disk without failures. *)
Lemma still_look {A} x dir t (f : Entries → result IoError (Entries * A)) a :
  node_at dir x = Some (Dir t) → f t = Ok (t, a) → atomic (in_dir dir f) (still x) = (still x, Ok a).
Proof. intros Hd Hf. unfold atomic, prim, still, in_dir. simpl. rewrite Hd, Hf, (set_at_same _ _ _ Hd). done. Qed.

Lemma still_exists x dir t n : single_component n = true → node_at dir x = Some (Dir t) →
  exists_ dir n (still x) = (still x, Ok (is_some (t !! n))).
Proof. intros Hn Hd. unfold exists_, sbind, component. rewrite Hn. simpl. by apply (still_look x dir t). Qed.

Lemma still_read x dir t n b limit : single_component n = true → node_at dir x = Some (Dir t) → t !! n = Some (File b) →
  len b ≤ limit → read dir n limit (still x) = (still x, Ok b).
Proof.
  intros Hn Hd Hb Hl. unfold read, sbind at 1. unfold open_file, sbind at 1, component. rewrite Hn. simpl.
  rewrite (still_look x dir t _ b) by (done || by rewrite Hb). unfold sbind, chance, atomic, prim. simpl.
  rewrite (proj2 (Z.ltb_ge _ _)) by done. done.
Qed.

Lemma still_child x dir t n u : single_component n = true → node_at dir x = Some (Dir t) → t !! n = Some (Dir u) →
  child dir n false (still x) = (still x, Ok (dir ++ [n])).
Proof.
  intros Hn Hd Hu. unfold child, sbind, component. rewrite Hn. simpl. apply (still_look x dir t); [done|]. by rewrite Hu.
Qed.

(** ** Names that stay unused

    An operation is tidy if it uses no name of a given kind that was not in use, and draws
    its random names from the supply in order. *)

Section Tidy.
Context (fresh : str → Prop).

Definition unused x y : Prop := ∀ p n, fresh n → node_at (p ++ [n]) x = None → node_at (p ++ [n]) y = None.

Definition tidy {E A} (m : SE Disk E A) : Prop := ∀ d,
  unused (root d) (root (fst (m d))) ∧ random (fst (m d)) `suffix_of` random d.

Definition leaf (z : Node) : Prop := match z with Dir t => t = ∅ | _ => True end.

Lemma leaf_below z n q : leaf z → node_at (n :: q) z = None.
Proof. destruct z; simpl; try done. intros ->. by rewrite lookup_empty. Qed.

Lemma set_at_absent p y x : node_at p x = None → set_at p y x = x.
Proof.
  revert x. induction p as [|n p IH]; intros x; [done|]. simpl. destruct x as [| |t|]; try done.
  destruct (t !! n) as [z|] eqn:E; [|done]. intros H. by rewrite (IH z H), insert_id.
Qed.

Lemma unused_set p y x : (∀ q n, fresh n → node_at p x ≠ None → node_at (p ++ q ++ [n]) x = None → node_at (q ++ [n]) y = None) →
  unused x (set_at p y x).
Proof.
  intros H q n Hn Hx. destruct (node_at p x) as [z|] eqn:Ez; [|by rewrite set_at_absent].
  destruct (decide (p `prefix_of` q ++ [n])) as [[r Hr]|Hp].
  - destruct (decide (r = [])) as [->|Hne].
    { rewrite app_nil_r in Hr. rewrite Hr, Ez in Hx. done. }
    destruct (exists_last Hne) as (r' & m & ->). rewrite Hr in *. rewrite (node_at_set _ _ _ _ _ Ez).
    rewrite app_assoc in Hr. apply app_inj_tail in Hr as [_ ->]. by apply H.
  - destruct (decide (q ++ [n] `prefix_of` p)) as [[r ->]|Hq]; [by rewrite node_at_app, Hx in Ez|].
    by rewrite node_at_set_other.
Qed.

Lemma unused_entries dir t t' x : node_at dir x = Some (Dir t) →
  (∀ m, t' !! m = t !! m ∨ t' !! m = None ∨ ∃ z, t' !! m = Some z ∧ leaf z ∧ (fresh m → t !! m ≠ None)) →
  unused x (set_at dir (Dir t') x).
Proof.
  intros Hd H. apply unused_set. intros q n Hn _. rewrite node_at_app, Hd. intros Hx.
  destruct q as [|m q]; simpl in *.
  - destruct (H n) as [->|[->|(z & _ & _ & Hz)]]; [done|done|]. destruct (Hz Hn). by destruct (t !! n).
  - destruct (H m) as [->|[->|(z & -> & Hz & _)]]; [done|done|]. destruct q as [|m' q]; by apply leaf_below.
Qed.

Lemma tidy_bind {E A B} (m : SE Disk E A) (k : A → SE Disk E B) : tidy m → (∀ a, tidy (k a)) → tidy (sbind m k).
Proof.
  intros Hm Hk d. destruct (Hm d) as [H1 H2]. unfold sbind. destruct (m d) as [d1 [a|e]]; [|done].
  destruct (Hk a d1) as [H3 H4]. simpl in *. split; [|by etrans]. intros p n Hn Hx. auto.
Qed.

Lemma tidy_same {E A} (m : SE Disk E A) : (∀ d, fst (m d) = d) → tidy m.
Proof. intros H d. rewrite H. split; [by intros p n _|done]. Qed.

Lemma tidy_ret {E A} (a : A) : tidy (sret (S:=Disk) (E:=E) a).
Proof. by apply tidy_same. Qed.

Lemma tidy_err {E A} (e : E) : tidy (serr (S:=Disk) (A:=A) e).
Proof. by apply tidy_same. Qed.

Lemma tidy_lifted {E A} (r : result E A) : tidy (lifted (S:=Disk) r).
Proof. by apply tidy_same. Qed.

Lemma tidy_tried {E A} (m : SE Disk E A) : tidy m → tidy (tried m).
Proof. intros Hm d. specialize (Hm d). unfold tried. by destruct (m d). Qed.

Lemma prim_random {A} (act : Node → result IoError (Node * A)) torn d : random (fst (prim act torn d)) = random d.
Proof. unfold prim. destruct (crashed d); [done|]. destruct (script d) as [|[] s]; simpl; try done; by destruct (act (root d)) as [[]|]. Qed.

Lemma tidy_in_dir {A} dir (f : Entries → result IoError (Entries * A)) :
  (∀ t t' a, f t = Ok (t', a) →
     ∀ m, t' !! m = t !! m ∨ t' !! m = None ∨ ∃ z, t' !! m = Some z ∧ leaf z ∧ (fresh m → t !! m ≠ None)) →
  tidy (atomic (in_dir dir f)).
Proof.
  intros H d. pose proof (atomic_cases (in_dir dir f) d) as Hc. unfold atomic in *. rewrite prim_random. split; [|done].
  destruct (prim _ _ d) as [d' r]. destruct Hc as [[Hc|[a Ha]] _]; simpl.
  - rewrite Hc. by intros p n _.
  - apply in_dir_Ok in Ha as (t & t' & Hd & Hf & ->). eapply unused_entries; [exact Hd|]. by eapply H.
Qed.

Lemma tidy_look {A} dir (f : Entries → result IoError (Entries * A)) : (∀ t t' a, f t = Ok (t', a) → t' = t) → tidy (atomic (in_dir dir f)).
Proof. intros H. apply tidy_in_dir. intros t t' a Hf m. left. by rewrite (H _ _ _ Hf). Qed.

Lemma tidy_chance : tidy chance.
Proof.
  intros d. pose proof (atomic_cases (λ x, Ok (x, tt)) d) as Hc. unfold chance, atomic in *. rewrite prim_random. split; [|done].
  destruct (prim _ _ d) as [d' r]. destruct Hc as [[Hc|[a [= Ha]]] _]; simpl; [rewrite Hc|rewrite <- Ha]; by intros p n _.
Qed.

Lemma tidy_component n : tidy (component n).
Proof. apply tidy_same. intros d. unfold component. by destruct (single_component n). Qed.

Lemma tidy_nonce : tidy nonce.
Proof.
  apply tidy_bind; [|intros b; apply tidy_ret]. intros d. unfold getrandom. destruct (crashed d); [split; [by intros p n _|done]|].
  destruct (random d) as [|b bs] eqn:E; [simpl; rewrite E; split; [by intros p n _|done]|]. destruct (_ =? _)%nat; simpl; (split; [by intros p n _|]); by exists [b].
Qed.

Lemma tidy_open_file dir n : tidy (open_file dir n).
Proof. apply tidy_bind; [apply tidy_component|]. intros []. apply tidy_look. intros t t' b. destruct (t !! n) as [[]|]; congruence. Qed.

Lemma tidy_exists dir n : tidy (exists_ dir n).
Proof. apply tidy_bind; [apply tidy_component|]. intros []. apply tidy_look. by intros t t' b [= <- _]. Qed.

Lemma tidy_read dir n limit : tidy (read dir n limit).
Proof.
  apply tidy_bind; [apply tidy_open_file|]. intros b. apply tidy_bind; [apply tidy_chance|]. intros [].
  destruct (limit <? len b); [apply tidy_err|apply tidy_ret].
Qed.

Lemma tidy_add t n z t' (a a' : unit) : ¬ fresh n → leaf z →
  match t !! n with Some _ => Err AlreadyExists | None => Ok (<[n := z]> t, a) end = Ok (t', a') →
  ∀ m, t' !! m = t !! m ∨ t' !! m = None ∨ ∃ z, t' !! m = Some z ∧ leaf z ∧ (fresh m → t !! m ≠ None).
Proof.
  intros Hn Hz Hf m. destruct (t !! n) eqn:E; [done|]. injection Hf as <- _. destruct (decide (m = n)) as [->|].
  - right; right. exists z. by rewrite lookup_insert_eq.
  - left. by rewrite lookup_insert_ne.
Qed.

Lemma tidy_child dir n create : ¬ fresh n → tidy (child dir n create).
Proof.
  intros Hn. apply tidy_bind; [apply tidy_component|]. intros [].
  apply tidy_bind; [|intros []; apply tidy_look; intros t t' b; destruct (t !! n) as [[]|]; congruence].
  destruct create; [|apply tidy_ret]. apply tidy_bind.
  - apply tidy_tried, tidy_in_dir. intros t t' a. by eapply tidy_add.
  - intros [[]|[]]; try apply tidy_err; [apply tidy_chance|apply tidy_ret].
Qed.

Lemma tidy_create dir n : ¬ fresh n → tidy (create_file dir n).
Proof.
  intros Hn. apply tidy_bind; [apply tidy_component|]. intros []. apply tidy_in_dir. intros t t' a. by eapply tidy_add.
Qed.

Lemma tidy_write_new dir n b : ¬ fresh n → tidy (write_new dir n b).
Proof.
  intros Hn. apply tidy_bind; [by apply tidy_create|]. intros []. apply tidy_bind; [|intros []; apply tidy_chance].
  intros d. pose proof (prim_cases (λ x, Ok (put dir n b x, tt)) (λ k x, put dir n (take k b) x) d) as Hc.
  unfold write_file. rewrite prim_random. split; [|done]. destruct (prim _ _ d) as [d' r]. destruct Hc as [Hc _]. simpl.
  assert (∀ c, unused (root d) (put dir n c (root d))) as Hput.
  { intros c. apply unused_set. intros q m _ _ _. destruct q; [|done]. done. }
  destruct Hc as [->|[[k ->]|[[] [= <-]]]]; [by intros p m _|apply Hput..].
Qed.

Lemma tidy_remove dir n : tidy (remove_file dir n).
Proof.
  apply tidy_bind; [apply tidy_component|]. intros []. apply tidy_in_dir. intros t t' [] Hf m.
  assert (t' = unlink n t) as -> by (destruct (t !! n) as [[]|]; congruence). unfold unlink.
  assert (delete n t !! m = t !! m ∨ delete n t !! m = None) as Hd.
  { destruct (decide (m = n)) as [->|]; [right; apply lookup_delete_eq|left; by rewrite lookup_delete_ne]. }
  destruct (t !! n) as [[|b o| |]|]; try naive_solver. destruct (t !! o) as [[|b' o'| |]|] eqn:Eo; try naive_solver.
  destruct (decide (m = o)) as [->|]; [|rewrite lookup_insert_ne by done; naive_solver].
  right; right. exists (File b). rewrite lookup_insert_eq. split; [done|]. split; [done|]. by rewrite Eo.
Qed.

Lemma tidy_linkat dir from to : ¬ fresh to → tidy (linkat dir from to).
Proof.
  intros Hto. apply tidy_in_dir. intros t t' [] Hf m. destruct (t !! from) as [[b| | |]|] eqn:Ef; destruct (t !! to) eqn:Et; try done.
  injection Hf as <-. destruct (decide (m = to)) as [->|]; [|destruct (decide (m = from)) as [->|]].
  - right; right. eexists. rewrite lookup_insert_eq. by split.
  - right; right. eexists. rewrite lookup_insert_ne, lookup_insert_eq by done. split; [done|]. split; [done|]. by rewrite Ef.
  - left. by rewrite !lookup_insert_ne.
Qed.

Lemma tidy_install dir n b : ¬ fresh n → (∀ s, ¬ fresh (lit ".install-" ++ s)) → tidy (install_new dir n b).
Proof.
  intros Hn Ht. apply tidy_bind; [apply tidy_component|]. intros []. apply tidy_bind; [apply tidy_nonce|]. intros s.
  apply tidy_bind; [|intros r; apply tidy_bind; [apply tidy_tried, tidy_remove|intros r'; apply tidy_lifted]].
  apply tidy_tried, tidy_bind; [by apply tidy_write_new|]. intros []. apply tidy_bind; [by apply tidy_linkat|]. intros [].
  apply tidy_bind; [apply tidy_remove|]. intros []. apply tidy_bind; [apply tidy_tried, tidy_chance|]. intros r. apply tidy_ret.
Qed.

Lemma tidy_lock dir n : ¬ fresh n → tidy (lock dir n).
Proof.
  intros Hn. apply tidy_bind; [|intros []; apply tidy_bind; [apply tidy_chance|];
    intros []; apply tidy_bind; [apply tidy_open_file|intros b; apply tidy_ret]].
  generalize 2%nat. intros rounds. induction rounds as [|rounds IH]; [apply tidy_err|]. cbn [open_lock].
  apply tidy_bind; [apply tidy_tried, tidy_open_file|]. intros [b|[]]; try apply tidy_err; [apply tidy_ret|].
  apply tidy_bind; [by apply tidy_tried, tidy_create|]. intros r. apply tidy_bind.
  - destruct r as [[]|[]]; try apply tidy_err; [|apply tidy_ret]. apply tidy_bind; [apply tidy_chance|]. intros []. apply tidy_chance.
  - intros []. apply tidy_bind; [apply tidy_chance|]. intros []. apply IH.
Qed.

End Tidy.

End DiskFacts.
