(* ===== verification/Bundle.v ===== *)
(** * Profile contents (src/src/store.rs: [Bundle], [FrozenOverride], [Metadata], the digests)

    What one revision of a profile holds: its source, what an override made of it, the local
    rule-provider files and the remote providers, with the checks that admit it to the
    catalog and the digests that name it. SHA-256 and the parsers are parameters. *)
From S2P Require Import Prelude Utf8 BTree Json Disk.

Module Bundle.
Import Disk.

Definition FILE_LIMIT : Z := 16 * 1024 * 1024.
Definition AGGREGATE_LIMIT : Z := 64 * 1024 * 1024.
Definition CATALOG_LIMIT : Z := 4 * 1024 * 1024.
Definition MANIFEST_LIMIT : Z := 1024 * 1024.

Record Param := mkParam { pm_key : str; pm_value : str }.

Record Metadata := mkMetadata { md_url : option str; md_filename : option str; md_params : list Param }.

Record FrozenOverride := mkFrozen {
  fo_script_name : str;
  fo_script_bytes : str;
  fo_command : str;
  fo_config_path : option str;
  fo_timeout_ms : Z;
  fo_args : list Param;
  fo_patch_bytes : str;
}.

Record Asset := mkAsset { as_target : str; as_bytes : str }.

Record RemoteProvider := mkRemote { rm_name : str; rm_path : str; rm_deferred : bool }.

Record Bundle := mkBundle {
  b_source : str;
  b_materialized : option str;
  b_assets : bmap Asset;
  b_remotes : list RemoteProvider;
}.

Definition effective_source (b : Bundle) : str := default (b_source b) (b_materialized b).

Definition resolve_local (b : Bundle) (logical : str) : res str :=
  ok_or (as_bytes <$> bget logical (b_assets b)) "AssetNotDeclared"%string.

Definition option_len (o : option str) : Z := match o with Some b => len b | None => 0 end.

Definition aggregate (b : Bundle) : Z :=
  len (b_source b) + option_len (b_materialized b) + foldr (λ a acc, len (as_bytes a) + acc) 0 (values (b_assets b)).

Definition local_asset_bytes (b : Bundle) : bmap str := (λ kv, (fst kv, as_bytes (snd kv))) <$> b_assets b.

(** [slice::sort_by] on a byte-ordered key: stable. *)
Fixpoint insert_by {A} (key : A → str) (a : A) (l : list A) : list A :=
  match l with
  | [] => [a]
  | b :: l' => if str_ltb (key b) (key a) then b :: insert_by key a l' else a :: l
  end.

Definition sort_by {A} (key : A → str) (l : list A) : list A := foldr (insert_by key) [] l.

(** [windows(2).all(..)] *)
Fixpoint adjacent {A} (f : A → A → bool) (l : list A) : bool :=
  match l with
  | a :: (b :: _) as l' => f a b && adjacent f l'
  | _ => true
  end.

(** [map.remove(key)] *)
Definition remove_field (key : str) (fields : list (str * Value)) : list (str * Value) :=
  List.filter (λ kv, negb (eq_str (fst kv) key)) fields.

(** ** References of a document *)

Section References.

(** The local paths, in the order of a [BTreeSet], and the remote providers. *)
Fixpoint refs_of (providers : list (str * Value)) (local : bmap unit) (remote : list RemoteProvider) :
    res (bmap unit * list RemoteProvider) :=
  match providers with
  | [] => Ok (local, remote)
  | (name, provider) :: providers =>
      let! path := ok_or (get "path" provider ≫= as_str) "InvalidRuleProviderPath"%string in
      if is_some_and (get "url" provider) (λ v, match v with VNull => false | _ => true end)
      then refs_of providers local (remote ++ [mkRemote name path true])
      else refs_of providers (binsert path tt local) remote
  end.

Definition provider_refs (doc : Value) : res (list str * list RemoteProvider) :=
  match get "rule-providers" doc with
  | None => Ok ([], [])
  | Some value =>
      let! providers := ok_or (as_object value) "InvalidRuleProviders"%string in
      if 4096 <? len providers then Err "TooManyAssets"
      else
        let! '(local, remote) := refs_of providers [] [] in
        Ok (keys local, sort_by rm_name remote)
  end.

End References.

(** The parsers the store calls, of which nothing is assumed: [config::parse_document] on
    text, [Url::parse] with the scheme and host, [override_script::runtime_source],
    [Config::parse_with_assets] and [serde_json::to_vec]. *)
Class Parsers := {
  parse_doc : str → res Value;
  url_parse : str → option (str * option str);
  runtime_source : str → res str;
  parse_config : str → bmap str → res unit;
  value_vec : Value → str;
}.

Section Admission.
Context `{Parsers}.

Definition parse_document (bytes : str) : res Value :=
  if FILE_LIMIT <? len bytes then Err "SourceTooLarge"
  else if utf8_valid bytes then parse_doc bytes else Err "invalid utf-8".

Definition validate_deferred_provider (name : str) (value : Value) : res unit :=
  let! fields := ok_or (as_object value) "InvalidRuleProvider"%string in
  if negb (negb (bool_decide (name = [])) && eq_str (trim name) name && negb (contains_byte 44 name)
           && negb (existsb is_control (chars name))) then Err "InvalidRuleProviderName"
  else if negb (forallb (λ kv, one_of (fst kv) ["type"; "behavior"; "url"; "path"; "interval"]) fields)
  then Err "InvalidRuleProvider"
  else if negb (is_some_and (get "type" value ≫= as_str) (λ s, one_of s ["http"; "file"]))
  then Err "InvalidRuleProviderType"
  else if negb (is_some_and (get "behavior" value ≫= as_str) (λ s, one_of s ["domain"; "ipcidr"; "classical"]))
  then Err "InvalidRuleProviderBehavior"
  else if negb (is_some_and (get "path" value ≫= as_str) (λ s, negb (bool_decide (s = [])) && negb (contains_byte 0 s)))
  then Err "InvalidRuleProviderPath"
  else if negb (match get "interval" value with
                | None => true
                | Some v => is_some_and (as_u64 v) (λ n, (0 <? n) && (n <=? u32_max))
                end) then Err "InvalidRuleProviderInterval"
  else
    let! url := ok_or (get "url" value ≫= as_str) "InvalidRuleProviderUrl"%string in
    let! '(scheme, host) := ok_or (url_parse url) "relative URL without a base"%string in
    if one_of scheme ["http"; "https"] && is_some host then Ok tt else Err "InvalidRuleProviderUrl".

(** A rule that uses a deferred provider. *)
Definition uses_provider (name : str) (rule : Value) : bool :=
  match as_str rule with
  | Some text =>
      match trim_blank <$> split_byte 44 text with
      | kind :: provider :: _ => eq_str kind (lit "RULE-SET") && eq_str provider name
      | _ => false
      end
  | None => false
  end.

(** [document.get_mut("rule-providers")] without one entry. *)
Definition without_provider (name : str) (document : Value) : res (Value * Value) :=
  let! providers := ok_or (get "rule-providers" document ≫= as_object) "InvalidRuleProviders"%string in
  let! declaration := ok_or (field name providers) "InvalidRuleProviders"%string in
  let document' := match document with
    | VObject fields =>
        VObject ((λ kv, if eq_str (fst kv) (lit "rule-providers")
                        then (fst kv, VObject (remove_field name providers)) else kv) <$> fields)
    | _ => document
    end in
  Ok (document', declaration).

Fixpoint offline_remotes (assets : bmap str) (remotes : list RemoteProvider) (document : Value) : res Value :=
  match remotes with
  | [] => Ok document
  | r :: remotes =>
      if bcontains (rm_path r) assets then Err "ConflictingProviderAssetPath"
      else if is_some_and (get "rules" document ≫= as_array) (existsb (uses_provider (rm_name r)))
      then Err "ManagedRemoteRuleProviderUnsupported"
      else
        let! '(document, declaration) := without_provider (rm_name r) document in
        let! _ := validate_deferred_provider (rm_name r) declaration in
        offline_remotes assets remotes document
  end.

Definition validate_offline (b : Bundle) (source : str) : res unit :=
  let! document := parse_doc source in
  let assets := local_asset_bytes b in
  let! document := offline_remotes assets (b_remotes b) document in
  let! source := runtime_source (value_vec document) in
  parse_config source assets.

(** A Shadowsocks proxy without its plugin fields, and whether there were any. *)
Definition strip_plugin (proxy : Value) : Value * bool :=
  match proxy with
  | VObject fields =>
      if is_some_and (get "type" proxy ≫= as_str) (λ s, eq_str s (lit "ss")) then
        (VObject (List.filter (λ kv, negb (one_of (fst kv) ["plugin"; "plugin-opts"; "plugin_opts"])) fields),
         existsb (λ kv, one_of (fst kv) ["plugin"; "plugin-opts"; "plugin_opts"]) fields)
      else (proxy, false)
  | _ => (proxy, false)
  end.

Definition strip_plugins (doc : Value) : Value * bool :=
  match doc, get "proxies" doc ≫= as_array with
  | VObject fields, Some proxies =>
      (VObject ((λ kv, if eq_str (fst kv) (lit "proxies") then (fst kv, VArray (fst ∘ strip_plugin <$> proxies)) else kv)
                <$> fields),
       existsb (snd ∘ strip_plugin) proxies)
  | _, _ => (doc, false)
  end.

Definition catalog_ready (b : Bundle) : res bool :=
  if negb (utf8_valid (effective_source b)) then Err "invalid utf-8"
  else match validate_offline b (effective_source b) with
       | Ok _ => Ok true
       | Err runtime_error =>
           if is_some (b_materialized b) then Err runtime_error
           else
             let! doc := parse_document (b_source b) in
             let '(doc, removed) := strip_plugins doc in
             if removed && is_ok (validate_offline b (value_vec doc)) then Ok false else Err runtime_error
       end.

(** The files of the local providers, within the limits. *)
Fixpoint capture_assets (paths : list str) (available : bmap Asset) (total : Z) (assets : bmap Asset) :
    res (bmap Asset) :=
  match paths with
  | [] => Ok assets
  | path :: paths =>
      let! asset := ok_or (bget path available) "AssetNotDeclared: local providers require captured assets"%string in
      if FILE_LIMIT <? len (as_bytes asset) then Err "AssetTooLarge"
      else
        let total := total + len (as_bytes asset) in
        if AGGREGATE_LIMIT <? total then Err "AggregateTooLarge"
        else capture_assets paths available total (binsert path asset assets)
  end.

Definition capture_memory (source : str) (materialized : option str) (available : bmap Asset) : res Bundle :=
  if (FILE_LIMIT <? len source) || is_some_and materialized (λ v, FILE_LIMIT <? len v) then Err "SourceTooLarge"
  else
    let! document := parse_document (default source materialized) in
    let! '(paths, remotes) := provider_refs document in
    let! assets := capture_assets paths available (len source + option_len materialized) [] in
    Ok (mkBundle source materialized assets remotes).

Definition from_memory (source : str) (materialized : option str) (available : bmap Asset) : res Bundle :=
  let! bundle := capture_memory source materialized available in
  let! _ := catalog_ready bundle in
  Ok bundle.

(** The runtime configuration of a profile, once its remote providers were fetched. *)
Fixpoint with_fetched (remotes : list RemoteProvider) (fetched assets : bmap str) : res (bmap str) :=
  match remotes with
  | [] => Ok assets
  | r :: remotes =>
      let! bytes := ok_or (bget (rm_path r) fetched) "ProfileNotRuntimeReady"%string in
      if bcontains (rm_path r) assets then Err "ConflictingProviderAssetPath"
      else with_fetched remotes fetched (binsert (rm_path r) bytes assets)
  end.

Definition runtime_config_with_assets (b : Bundle) (fetched : bmap str) : res unit :=
  let! assets := with_fetched (b_remotes b) fetched (local_asset_bytes b) in
  let! source := runtime_source (effective_source b) in
  parse_config source assets.

End Admission.

(** ** Digests *)

Class Sha256 := {
  sha256 : str → str;
  sha256_length b : length (sha256 b) = 32%nat;
  sha256_bytes b : Forall is_byte (sha256 b);
}.

Definition be64 (n : Z) : str := be32 (n / 4294967296) ++ be32 n.

Section Digests.
Context `{Sha256}.

Definition digest (bytes : str) : str := hex (sha256 bytes).

Definition hash_bytes (bytes : str) : str := be64 (len bytes) ++ bytes.

Definition hash_optional (value : option str) : str :=
  match value with Some s => [1] ++ hash_bytes s | None => [0] end.

Definition hash_params (params : list Param) : str :=
  mjoin ((λ p, hash_bytes (pm_key p) ++ hash_bytes (pm_value p)) <$> params) ++ be64 (len params).

Definition hash_content (bytes : str) : str := be64 (len bytes) ++ sha256 bytes.

Definition storage_id (key : str) : str := hex (sha256 (lit "zc.profile-storage.v1" ++ hash_bytes key)).

Definition legacy_revision (key : str) : str := hex (take 16 (sha256 (lit "zc.legacy-key.v1" ++ hash_bytes key))).

Definition revision_id (key content : str) : str :=
  let incarnation := sha256 (lit "zc.migration-incarnation.v1" ++ hash_bytes key ++ content) in
  hex (take 16 (sha256 (lit "zc.revision.v1" ++ content ++ incarnation))).

Definition hash_frozen (v : FrozenOverride) : str :=
  lit "zc.override-materialization.v1" ++ hash_bytes (fo_script_name v) ++ hash_bytes (fo_script_bytes v)
  ++ hash_bytes (fo_command v) ++ hash_optional (fo_config_path v) ++ be64 (fo_timeout_ms v)
  ++ hash_params (fo_args v) ++ hash_bytes (fo_patch_bytes v).

(** What [content_digest] feeds to the hash. *)
Definition content_preimage (key : str) (b : Bundle) (meta : Metadata) (frozen : option FrozenOverride) : str :=
  lit "zc.revision-content.v1" ++ hash_bytes key ++ hash_optional (md_url meta) ++ hash_optional (md_filename meta)
  ++ hash_params (md_params meta)
  ++ match frozen with Some v => hash_frozen v | None => [] end
  ++ hash_content (b_source b)
  ++ match b_materialized b with Some v => [1] ++ hash_content v | None => [0] end
  ++ be64 (aggregate b)
  ++ mjoin ((λ kv, hash_bytes (fst kv) ++ hash_bytes (as_target (snd kv)) ++ hash_content (as_bytes (snd kv))) <$> b_assets b)
  ++ be64 (len (b_assets b))
  ++ mjoin ((λ r, hash_bytes (rm_name r) ++ hash_bytes (rm_path r)) <$> b_remotes b)
  ++ be64 (len (b_remotes b)).

Definition content_digest (key : str) (b : Bundle) (meta : Metadata) (frozen : option FrozenOverride) : str :=
  sha256 (content_preimage key b meta frozen).

End Digests.

(** ** Checks of names, metadata and overrides *)

(** [unhex] as a check: the text is the lowercase hexadecimal form of [count] bytes. *)
Definition is_hex (text : str) (count : nat) : bool := (length text =? count * 2)%nat && forallb is_lower_hex text.

Definition safe_char (c : Z) : bool :=
  negb (in_range 0 31 c || in_range 127 159 c || (c =? 1564) || (c =? 8206) || (c =? 8207) || in_range 8232 8238 c
        || in_range 8294 8297 c || (c =? 65279)).

Definition safe_text (s : str) : bool := negb (bool_decide (s = [])) && forallb safe_char (chars s).

Definition stored_key (key : str) : bool := (len key <=? 255) && single_component key && safe_text key.

Definition valid_key (key : str) : bool := (len key <=? 250) && stored_key key.

Definition validate_metadata (meta : Metadata) : bool :=
  forallb (λ p, negb (bool_decide (pm_key p = []))) (md_params meta)
  && adjacent (λ a b, str_ltb (pm_key a) (pm_key b)) (md_params meta).

Definition frozen_ok (v : FrozenOverride) : bool :=
  single_component (fo_script_name v) && negb (bool_decide (fo_script_bytes v = []))
  && (len (fo_script_bytes v) <=? MANIFEST_LIMIT) && (len (fo_patch_bytes v) <=? MANIFEST_LIMIT)
  && negb (bool_decide (fo_command v = [])) && negb (contains_byte 0 (fo_command v))
  && match fo_config_path v with Some s => negb (contains_byte 0 s) | None => true end
  && forallb (λ a, negb (bool_decide (pm_key a = [])) && negb (contains_byte 0 (pm_key a)) && negb (contains_byte 0 (pm_value a)))
       (fo_args v).

Definition validate_override (b : Bundle) (frozen : option FrozenOverride) : res unit :=
  match frozen with
  | None => Ok tt
  | Some v =>
      if negb (is_some (b_materialized b)) then Err "OverrideMaterializationMismatch"
      else if frozen_ok v then Ok tt else Err "InvalidOverrideMaterialization"
  end.

End Bundle.
