(* ===== verification/Revision.v ===== *)
(** * Revisions on disk (src/src/store.rs: [publish_revision], [read_revision])

    A revision is a directory beneath profiles/<storage id>/revisions, written into a staging
    directory and renamed into place when complete; reading one checks every byte of it
    against its manifest and its name. JSON encoding is a parameter for each type that is
    stored ([Serde]). *)
From S2P Require Import Prelude Utf8 BTree Json Disk DiskFacts Bundle.

Module Revision.
Import Disk Bundle.

Inductive StoreError :=
| CorruptCatalog
| CorruptRevision
| UnknownFormat (schema : Z)
| LegacyTakeoverRequired
| Conflict
| ProfileNotFound
| ProfileNotRuntimeReady.

Inductive Error :=
| Io (e : IoError)
| Failed (e : StoreError)
| Message (m : string).

Abbreviation SM := (SE Disk Error).

Definition io {A} (m : IO A) : SM A := λ d, let '(d, r) := m d in (d, map_err Io r).

Definition checked {A} (r : res A) : SM A := lifted (map_err Message r).

Definition ensure (c : bool) (e : Error) : SM unit := if c then sret tt else serr e.

(** [.context(e)] *)
Definition context {A} (e : Error) (m : SM A) : SM A := λ d, let '(d, r) := m d in (d, map_err (λ _, e) r).

(** [serde_json::to_vec] and [serde_json::from_slice] of a stored type: what was written,
    with a final newline, is read back. *)
Class Serde (A : Type) := {
  to_vec : A → str;
  from_slice : str → option A;
  from_slice_line a : from_slice (to_vec a ++ [10]) = Some a;
}.

Definition line `{Serde A} (a : A) : str := to_vec a ++ [10].

(** ** What is stored *)

Record Identity := mkIdentity { id_schema : Z; id_key : str; id_storage : str }.

Record Content := mkContent { c_size : Z; c_sha256 : str }.

Record DiskOverride := mkDiskOverride {
  do_script_name : str;
  do_script : Content;
  do_command : str;
  do_config_path : option str;
  do_timeout_ms : Z;
  do_args : list Param;
  do_patch : Content;
}.

Record DiskAsset := mkDiskAsset {
  da_logical : str;
  da_target : str;
  da_object : str;
  da_size : Z;
  da_sha256 : str;
}.

Record Manifest := mkManifest {
  mf_schema : Z;
  mf_key : str;
  mf_storage : str;
  mf_revision : str;
  mf_digest : str;
  mf_metadata : Metadata;
  mf_frozen : option DiskOverride;
  mf_source : Content;
  mf_materialized : option Content;
  mf_aggregate : Z;
  mf_assets : list DiskAsset;
  mf_remotes : list RemoteProvider;
}.

Record RevisionView := mkView {
  rv_key : str;
  rv_storage : str;
  rv_revision : str;
  rv_digest : str;
  rv_metadata : Metadata;
  rv_frozen : option FrozenOverride;
  rv_bundle : Bundle;
}.

Section Revisions.
Context `{Sha256, Serde Identity, Serde Manifest}.

Definition content_of (bytes : str) : Content := mkContent (len bytes) (digest bytes).

Definition disk_override (v : FrozenOverride) : DiskOverride :=
  mkDiskOverride (fo_script_name v) (content_of (fo_script_bytes v)) (fo_command v) (fo_config_path v)
    (fo_timeout_ms v) (fo_args v) (content_of (fo_patch_bytes v)).

Definition disk_asset (kv : str * Asset) : DiskAsset :=
  let bytes := as_bytes (snd kv) in
  mkDiskAsset (fst kv) (as_target (snd kv)) (digest bytes) (len bytes) (digest bytes).

Definition identity_of (key : str) : Identity := mkIdentity 1 key (storage_id key).

Definition manifest_of (key revision content : str) (b : Bundle) (meta : Metadata) (frozen : option FrozenOverride) :
    Manifest :=
  mkManifest 1 key (storage_id key) revision (hex content) meta (disk_override <$> frozen)
    (content_of (b_source b)) (content_of <$> b_materialized b) (aggregate b) (disk_asset <$> b_assets b) (b_remotes b).

Definition IDENTITY_LIMIT : Z := 64 * 1024.

Definition encode_revision (key revision content : str) (b : Bundle) (meta : Metadata) (frozen : option FrozenOverride) :
    SM (str * str) :=
  let bytes := line (manifest_of key revision content b meta frozen) in
  do! _ := ensure (len bytes <=? MANIFEST_LIMIT) (Message "ManifestTooLarge") in
  let identity := line (identity_of key) in
  do! _ := ensure (len identity <=? IDENTITY_LIMIT) (Message "IdentityTooLarge") in
  sret (identity, bytes).

(** ** Reading *)

Definition PROFILES : str := lit "profiles".
Definition REVISIONS : str := lit "revisions".
Definition IDENTITY : str := lit "identity.json".

Definition profile_dir (key : str) (create : bool) : SM (list str) :=
  do! profiles := io (child [] PROFILES create) in
  io (child profiles (storage_id key) create).

Definition verify_identity (dir : list str) (key : str) : SM unit :=
  do! bytes := io (read dir IDENTITY IDENTITY_LIMIT) in
  do! identity := lifted (ok_or (from_slice bytes) (Message "invalid JSON")) in
  ensure ((id_schema identity =? 1) && eq_str (id_key identity) key && eq_str (id_storage identity) (storage_id key))
    (Message "IdentityMismatch").

Definition read_content (dir : list str) (name : str) (identity : Content) (limit : Z) : SM str :=
  do! _ := ensure (c_size identity <=? limit) (Message "ContentTooLarge") in
  do! _ := ensure (is_hex (c_sha256 identity) 32) (Message "InvalidDigest") in
  do! bytes := io (read dir name limit) in
  do! _ := ensure ((len bytes =? c_size identity) && eq_str (digest bytes) (c_sha256 identity)) (Message "ContentMismatch") in
  sret bytes.

Definition read_materialized (dir : list str) (c : option Content) : SM (option str) :=
  match c with
  | Some c => do! bytes := read_content dir (lit "materialized.yaml") c FILE_LIMIT in sret (Some bytes)
  | None =>
      do! present := io (exists_ dir (lit "materialized.yaml")) in
      do! _ := ensure (negb present) (Message "UnexpectedMaterialization") in
      sret None
  end.

Definition read_override (dir : list str) (v : option DiskOverride) : SM (option FrozenOverride) :=
  match v with
  | Some v =>
      do! script := read_content dir (lit "override-script") (do_script v) MANIFEST_LIMIT in
      do! patch := read_content dir (lit "override-output.yaml") (do_patch v) MANIFEST_LIMIT in
      sret (Some (mkFrozen (do_script_name v) script (do_command v) (do_config_path v) (do_timeout_ms v) (do_args v) patch))
  | None =>
      do! script := io (exists_ dir (lit "override-script")) in
      do! output := (if script then sret true else io (exists_ dir (lit "override-output.yaml"))) in
      do! _ := ensure (negb script && negb output) (Message "UnexpectedOverride") in
      sret None
  end.

Fixpoint read_assets (objects : list str) (limit : Z) (das : list DiskAsset) (total : Z) (assets : bmap Asset) :
    SM (bmap Asset * Z) :=
  match das with
  | [] => sret (assets, total)
  | a :: das =>
      let total := total + da_size a in
      do! _ := ensure (total <=? u64_max) (Message "AggregateTooLarge") in
      do! _ := ensure ((total <=? limit) && (total <=? AGGREGATE_LIMIT)) (Message "AggregateTooLarge") in
      do! _ := ensure (is_hex (da_object a) 32) (Message "InvalidDigest") in
      do! _ := ensure (eq_str (da_object a) (da_sha256 a)) (Message "ObjectDigestMismatch") in
      do! bytes := read_content objects (da_object a) (mkContent (da_size a) (da_sha256 a)) FILE_LIMIT in
      read_assets objects limit das total (binsert (da_logical a) (mkAsset (da_target a) bytes) assets)
  end.

Definition read_revision (key revision : str) : SM RevisionView :=
  do! _ := ensure (stored_key key) (Message "InvalidKey") in
  do! _ := ensure (is_hex revision 16) (Message "InvalidDigest") in
  do! profile := profile_dir key false in
  do! _ := verify_identity profile key in
  do! revisions := io (child profile REVISIONS false) in
  do! dir := io (child revisions revision false) in
  do! bytes := io (read dir (lit "manifest.json") MANIFEST_LIMIT) in
  do! m := lifted (ok_or (from_slice bytes) (Message "invalid JSON")) in
  do! _ := ensure ((mf_schema m =? 1) && eq_str (mf_key m) key && eq_str (mf_storage m) (storage_id key)
                   && eq_str (mf_revision m) revision) (Message "RevisionIdentityMismatch") in
  do! _ := ensure ((len (mf_assets m) <=? 4096) && (len (mf_remotes m) <=? 4096) && (mf_aggregate m <=? AGGREGATE_LIMIT))
                  (Message "RevisionLimitExceeded") in
  do! _ := ensure (validate_metadata (mf_metadata m)) (Message "InvalidMetadata") in
  do! source := read_content dir (lit "source.yaml") (mf_source m) FILE_LIMIT in
  do! materialized := read_materialized dir (mf_materialized m) in
  do! frozen := read_override dir (mf_frozen m) in
  do! objects := io (child dir (lit "objects") false) in
  do! _ := ensure (adjacent (λ a b, str_ltb (da_logical a) (da_logical b)) (mf_assets m)) (Message "UnsortedAssets") in
  do! at_ := read_assets objects (mf_aggregate m) (mf_assets m) (len source + option_len materialized) [] in
  let '(assets, total) := at_ in
  do! _ := ensure (total =? mf_aggregate m) (Message "AggregateMismatch") in
  do! _ := ensure (forallb rm_deferred (mf_remotes m)
                   && adjacent (λ a b, str_ltb (rm_name a) (rm_name b)) (mf_remotes m)) (Message "InvalidRemotes") in
  let bundle := mkBundle source materialized assets (mf_remotes m) in
  do! _ := checked (validate_override bundle frozen) in
  let computed := content_digest key bundle (mf_metadata m) frozen in
  do! _ := ensure (eq_str (hex computed) (mf_digest m) && eq_str (revision_id key computed) revision)
                  (Message "ContentDigestMismatch") in
  sret (mkView key (mf_storage m) revision (mf_digest m) (mf_metadata m) frozen bundle).

Definition read_bundle (key revision : str) : SM RevisionView :=
  context (Failed CorruptRevision) (read_revision key revision).

(** ** Writing *)

Definition store_identity (profile : list str) (key identity : str) : SM unit :=
  do! present := io (exists_ profile IDENTITY) in
  if present then verify_identity profile key
  else
    do! installed := tried (io (install_new profile IDENTITY identity)) in
    match installed with
    | Ok None => sret tt
    | Ok (Some error) => serr (Io error)
    | Err (Io AlreadyExists) => verify_identity profile key
    | Err e => serr e
    end.

Fixpoint write_objects (objects : list str) (assets : list Asset) : SM unit :=
  match assets with
  | [] => sret tt
  | a :: assets =>
      let id := digest (as_bytes a) in
      do! present := io (exists_ objects id) in
      do! _ := (if present then sret tt else io (write_new objects id (as_bytes a))) in
      write_objects objects assets
  end.

(** The files of a revision, written into its staging directory. *)
Definition write_staging (staging : list str) (b : Bundle) (frozen : option FrozenOverride) (manifest : str) : SM unit :=
  do! _ := io (write_new staging (lit "source.yaml") (b_source b)) in
  do! _ := match b_materialized b with
           | Some bytes => io (write_new staging (lit "materialized.yaml") bytes)
           | None => sret tt
           end in
  do! _ := match frozen with
           | Some v =>
               do! _ := io (write_new staging (lit "override-script") (fo_script_bytes v)) in
               io (write_new staging (lit "override-output.yaml") (fo_patch_bytes v))
           | None => sret tt
           end in
  do! objects := io (child staging (lit "objects") true) in
  do! _ := write_objects objects (values (b_assets b)) in
  do! _ := io sync in
  do! _ := io (write_new staging (lit "manifest.json") manifest) in
  io sync.

(** The directory of a profile's revisions, with its identity in place, locked. *)
Definition open_revisions (key identity : str) : SM (list str) :=
  do! profile := profile_dir key true in
  do! _ := store_identity profile key identity in
  do! revisions := io (child profile REVISIONS true) in
  do! _ := io (lock revisions (lit ".publish.lock")) in
  sret revisions.

(** A complete staging directory gets the name of the revision. *)
Definition write_revision (revisions : list str) (staging_name revision : str) (b : Bundle)
    (frozen : option FrozenOverride) (manifest : str) : SM unit :=
  do! staging := io (child revisions staging_name true) in
  do! _ := write_staging staging b frozen manifest in
  do! _ := io (rename revisions staging_name revision) in
  io sync.

Definition publish_revision (key revision content : str) (b : Bundle) (meta : Metadata) (frozen : option FrozenOverride) :
    SM unit :=
  do! encoded := encode_revision key revision content b meta frozen in
  let '(identity, manifest) := encoded in
  do! revisions := open_revisions key identity in
  do! present := io (exists_ revisions revision) in
  if present then
    do! _ := read_bundle key revision in
    io sync
  else
    do! n := io nonce in
    write_revision revisions (lit ".staging-" ++ n) revision b frozen manifest.

End Revisions.

End Revision.
