(* ===== verification/RevisionFacts.v ===== *)
(** * Revisions are written whole and read back

    The files of a revision never change once its directory has its name, whatever fails and
    whenever the process dies; a revision that was published is read back as it was. *)
From S2P Require Import Prelude Utf8 BTree Json Disk DiskFacts Bundle Revision.

Module RevisionFacts.
Import Disk DiskFacts Bundle Revision.

(** ** Names *)

Definition hidden (s : str) : bool := match s with b :: _ => b =? 46 | [] => false end.

Lemma hex_byte b : is_byte b →
  length (pad_left 2 48 (print_hex b)) = 2%nat ∧ Forall (λ c, is_lower_hex c = true) (pad_left 2 48 (print_hex b)).
Proof.
  intros Hb.
  assert (forallb (λ b, (length (pad_left 2 48 (print_hex b)) =? 2)%nat && forallb is_lower_hex (pad_left 2 48 (print_hex b)))
    (Z.of_nat <$> seq 0 256) = true) as H by (vm_compute; reflexivity).
  rewrite forallb_forall in H. specialize (H b).
  assert (In b (Z.of_nat <$> seq 0 256)) as Hin.
  { apply list_elem_of_In, list_elem_of_fmap. exists (Z.to_nat b). unfold is_byte in Hb. split; [lia|]. apply elem_of_seq. lia. }
  apply H, andb_true_iff in Hin as [H1 H2]. split; [by apply Nat.eqb_eq|]. apply Forall_forall. intros c Hc.
  rewrite forallb_forall in H2. apply H2. by apply list_elem_of_In.
Qed.

Lemma hex_spec s : Forall is_byte s → length (hex s) = (2 * length s)%nat ∧ Forall (λ c, is_lower_hex c = true) (hex s).
Proof.
  induction 1 as [|b s Hb Hs [IH1 IH2]]; [by split|]. unfold hex in *. rewrite fmap_cons, mjoin_cons, length_app, IH1.
  destruct (hex_byte b Hb) as [H1 H2]. rewrite H1. simpl length. split; [lia|]. by apply Forall_app.
Qed.

Lemma lower_hex_name s : s ≠ [] → Forall (λ c, is_lower_hex c = true) s → single_component s = true ∧ hidden s = false.
Proof.
  intros Hne Hs.
  assert (∀ c, is_lower_hex c = true → (c =? 47) || (c =? 92) || (c =? 0) = false ∧ c ≠ 46) as Hc.
  { intros c Hc. unfold is_lower_hex, is_ascii_digit in Hc. rewrite orb_true_iff, !andb_true_iff, !Z.leb_le in Hc.
    rewrite !orb_false_iff, !Z.eqb_neq. lia. }
  unfold single_component. rewrite bool_decide_eq_false_2 by done.
  assert (∀ n : string, hidden (lit n) = true → eq_str s (lit n) = false) as Hn.
  { intros n Hn. apply eq_str_false. intros ->. destruct (lit n) as [|c l]; [done|]. simpl in Hn. apply Z.eqb_eq in Hn as ->.
    apply Forall_cons in Hs as [Hs _]. by destruct (Hc _ Hs). }
  rewrite (Hn "."), (Hn "..") by reflexivity. split.
  - apply negb_true_iff, not_true_iff_false. rewrite existsb_exists. intros (c & Hin & E).
    rewrite Forall_forall in Hs. destruct (Hc c) as [H _]; [by apply Hs, list_elem_of_In|]. congruence.
  - destruct s as [|c s]; [done|]. simpl. apply Z.eqb_neq. apply Forall_cons in Hs as [Hs _]. by apply Hc.
Qed.

Lemma is_hex_name s n : is_hex s n = true → n ≠ 0%nat → single_component s = true ∧ hidden s = false.
Proof.
  unfold is_hex. rewrite andb_true_iff, Nat.eqb_eq. intros [Hl Hf] Hn. apply lower_hex_name.
  - intros ->. simpl in Hl. lia.
  - apply Forall_forall. intros c Hc. rewrite forallb_forall in Hf. by apply Hf, list_elem_of_In.
Qed.

Lemma hex_is_hex s : Forall is_byte s → is_hex (hex s) (length s) = true.
Proof.
  intros Hs. destruct (hex_spec s Hs) as [Hl Hf]. unfold is_hex. apply andb_true_iff. rewrite Nat.eqb_eq. split; [lia|].
  apply forallb_forall. intros c Hc. rewrite Forall_forall in Hf. by apply Hf, list_elem_of_In.
Qed.

Section Names.
Context `{Sha256}.

Lemma digest_hex b : is_hex (digest b) 32 = true.
Proof. unfold digest. rewrite <- (sha256_length b). apply hex_is_hex, sha256_bytes. Qed.

Lemma storage_id_name key : single_component (storage_id key) = true ∧ hidden (storage_id key) = false.
Proof. apply (is_hex_name _ 32); [apply digest_hex|done]. Qed.

Lemma revision_id_hex key content : is_hex (revision_id key content) 16 = true.
Proof.
  unfold revision_id. generalize (lit "zc.revision.v1" ++ content ++ sha256 (lit "zc.migration-incarnation.v1" ++ hash_bytes key ++ content)).
  intros s. pose proof (sha256_length s) as Hl. pose proof (sha256_bytes s) as Hb.
  replace 16%nat with (length (take 16 (sha256 s))) at 2 by (rewrite length_take; lia). apply hex_is_hex. by apply Forall_take.
Qed.

End Names.

(** ** Sealed paths *)

(** What a profile's directory never changes once it is there: the identity and every
    revision. *)
Definition sealed (p : list str) : Prop :=
  ∃ id, hidden id = false ∧
    (p = [PROFILES; id; IDENTITY] ∨ ∃ rev, hidden rev = false ∧ p = [PROFILES; id; REVISIONS; rev]).

(** The names of the root the catalog's state is read from. *)
Definition CATALOG : str := lit "state-v2.json".
Definition legacy_names : list str := [lit "meta.json"; lit "configs"].

Definition kept (n : str) : Prop := n = CATALOG ∨ n ∈ legacy_names.

Ltac break_sealed :=
  repeat match goal with
  | H : sealed _ |- _ => destruct H as (? & ? & [->|(? & ? & ->)])
  | H : _ `prefix_of` _ |- _ => destruct H as [? H]
  end; simplify_eq/=.

Lemma kept_profiles : ¬ kept PROFILES.
Proof. intros [H|H]; [done|]. apply (bool_decide_eq_true _) in H. vm_compute in H. done. Qed.

Lemma unsealed_root : unsealed sealed kept [].
Proof. split; [|done]. intros q Hq Hp. break_sealed. Qed.

Lemma unsealed_dir r : (∀ q, sealed q → ¬ q `prefix_of` (PROFILES :: r)) → unsealed sealed kept (PROFILES :: r).
Proof. intros Hq. split; [done|apply kept_profiles]. Qed.

Lemma unsealed_profiles : unsealed sealed kept [PROFILES].
Proof. apply unsealed_dir. intros q Hq Hp. break_sealed. Qed.

Lemma unsealed_profile id : unsealed sealed kept [PROFILES; id].
Proof. apply unsealed_dir. intros q Hq Hp. break_sealed. Qed.

Lemma unsealed_revisions id : unsealed sealed kept [PROFILES; id; REVISIONS].
Proof. apply unsealed_dir. intros q Hq Hp. break_sealed. Qed.

(** Hidden names are the writer's own. *)
Lemma free_staging id n r : hidden n = true → free sealed kept (PROFILES :: id :: REVISIONS :: n :: r).
Proof.
  intros Hn. split; [apply unsealed_dir|]; intros q Hq Hp; break_sealed; congruence.
Qed.

Lemma free_install id n r : hidden n = true → free sealed kept (PROFILES :: id :: n :: r).
Proof.
  intros Hn. split; [apply unsealed_dir|]; intros q Hq Hp; break_sealed; congruence.
Qed.

(** ** Lifting *)

Lemma safe_io {A} P (m : IO A) Q : safe sealed kept P m (ok Q) → safe sealed kept P (io m) (ok Q).
Proof.
  intros Hm d Hd. specialize (Hm d Hd). unfold io. destruct (m d) as [d' r]. destruct Hm as [? Hr]. split; [done|].
  intros a Ha. destruct r; [|done]. injection Ha as ->. by apply Hr.
Qed.

Lemma safe_ensure x c e : safe sealed kept (eq x) (ensure c e) (ok (λ _ y, y = x ∧ c = true)).
Proof. intros d ->. unfold ensure. destruct c; [|by split]. split; [done|]. by intros [] _. Qed.

Lemma reads_io {A} (m : IO A) : reads m → reads (io m).
Proof.
  intros Hm d. destruct (Hm d) as [Hr Ho]. unfold io. destruct (m d) as [d' r]. simpl in *. split; [done|].
  intros a Ha. destruct r as [b|]; [|done]. injection Ha as ->. by rewrite (Ho a eq_refl).
Qed.

Lemma reads_ensure c e : reads (ensure c e).
Proof. destruct c; [apply reads_ret|apply reads_err]. Qed.

Lemma reads_context {A} e (m : SM A) : reads m → reads (context e m).
Proof.
  intros Hm d. destruct (Hm d) as [Hr Ho]. unfold context. destruct (m d) as [d' r]. simpl in *. split; [done|].
  intros a Ha. destruct r as [b|]; [|done]. injection Ha as ->. by rewrite (Ho a eq_refl).
Qed.

(** A reader is safe. *)
Lemma safe_reads {E A} x (m : SE Disk E A) : reads m →
  safe sealed kept (eq x) m (ok (λ a y, y = x ∧ m (still x) = (still x, Ok a))).
Proof.
  intros Hm d ->. destruct (Hm d) as [Hr Ho]. destruct (m d) as [d' r]. simpl in *. rewrite Hr. split; [done|].
  intros a ->. split; [done|]. by apply Ho.
Qed.

Ltac reads_tac :=
  repeat (match goal with
  | |- reads (sbind _ _) => apply reads_bind; [|intros ?]
  | |- reads (io _) => apply reads_io
  | |- reads (ensure _ _) => apply reads_ensure
  | |- reads (sret _) => apply reads_ret
  | |- reads (serr _) => apply reads_err
  | |- reads (lifted _) => apply reads_lifted
  | |- reads (checked _) => apply reads_lifted
  | |- reads (child _ _ false) => apply reads_child
  | |- reads (read _ _ _) => apply reads_read
  | |- reads (exists_ _ _) => apply reads_exists
  | |- reads (match ?x with _ => _ end) => destruct x
  end).

Section Facts.
Context `{HS : Sha256, HI : Serde Identity, HM : Serde Manifest}.

Lemma reads_identity dir key : reads (verify_identity dir key).
Proof. unfold verify_identity. reads_tac. Qed.

Lemma reads_content dir n c limit : reads (read_content dir n c limit).
Proof. unfold read_content. reads_tac. Qed.

Lemma reads_assets objects limit das total assets : reads (read_assets objects limit das total assets).
Proof.
  revert total assets. induction das as [|a das IH]; intros total assets; cbn [read_assets]; [apply reads_ret|].
  reads_tac; [apply reads_content|apply IH].
Qed.

Lemma reads_bundle key revision : reads (read_bundle key revision).
Proof.
  apply reads_context. unfold read_revision, profile_dir, read_materialized, read_override.
  reads_tac; try apply reads_identity; try apply reads_content; apply reads_assets.
Qed.

(** ** Writing *)

Abbreviation safe' := (safe sealed kept).

Definition identity_matches (key : str) (i : Identity) : bool :=
  (id_schema i =? 1) && eq_str (id_key i) key && eq_str (id_storage i) (storage_id key).

Definition identity_ok (key : str) (x : Node) : Prop :=
  ∃ b i, node_at [PROFILES; storage_id key; IDENTITY] x = Some (File b) ∧ len b ≤ IDENTITY_LIMIT ∧
    from_slice b = Some i ∧ identity_matches key i = true.

Lemma node_at_up dir n x z : node_at (dir ++ [n]) x = Some z → ∃ t, node_at dir x = Some (Dir t) ∧ t !! n = Some z.
Proof.
  rewrite node_at_app. destruct (node_at dir x) as [[| |t|]|]; try done. simpl. intros Hz. exists t. split; [done|].
  by destruct (t !! n).
Qed.

Lemma identity_ok_still key x : identity_ok key x → verify_identity [PROFILES; storage_id key] key (still x) = (still x, Ok tt).
Proof.
  intros (b & i & Hb & Hl & Hi & Hm). apply (node_at_up [PROFILES; storage_id key]) in Hb as (t & Hd & Ht).
  unfold verify_identity, sbind, io. rewrite (still_read x _ t IDENTITY b IDENTITY_LIMIT eq_refl Hd Ht Hl). simpl. unfold lifted. rewrite Hi.
  simpl. unfold identity_matches in Hm. by rewrite Hm.
Qed.

Lemma identity_ok_stable k key x y : stable sealed k x y → identity_ok key x → identity_ok key y.
Proof.
  intros [Hs _] (b & i & Hb & Hr). exists b, i. split; [|done]. apply Hs; [|done|done].
  exists (storage_id key). split; [apply storage_id_name|by left].
Qed.

Lemma added_dir dir n z x y t : added dir n z x y → node_at dir x = Some (Dir t) →
  t !! n = None ∧ node_at dir y = Some (Dir (<[n := z]> t)).
Proof.
  intros (t' & Hd & Hn & ->) Ht. rewrite Hd in Ht. injection Ht as ->. split; [done|]. by eapply node_at_set_eq.
Qed.

Lemma child_dir dir n create x y : (y = x ∧ (∃ t, node_at (dir ++ [n]) x = Some (Dir t))) ∨ (create = true ∧ added dir n (Dir ∅) x y) →
  ∃ t, node_at (dir ++ [n]) y = Some (Dir t).
Proof. intros [[-> ?]|[_ H]]; [done|]. apply added_at in H. eauto. Qed.

Lemma safe_profile_dir x key :
  safe' (eq x) (profile_dir key true) (ok (λ p y, p = [PROFILES; storage_id key] ∧ ∃ t, node_at p y = Some (Dir t))).
Proof.
  eapply safe_then; [apply safe_io, safe_child; [apply unsealed_root|intros _; apply kept_profiles]|].
  intros p y (-> & _ & _). eapply safe_mono; [apply safe_io, safe_child; [apply unsealed_profiles|done]|].
  intros p z (-> & _ & Hz). split; [done|]. by eapply child_dir.
Qed.

Lemma identity_ok_read key x : verify_identity [PROFILES; storage_id key] key (still x) = (still x, Ok tt) → identity_ok key x.
Proof.
  intros Hv. unfold verify_identity, sbind at 1 in Hv.
  assert (safe' (eq x) (io (read [PROFILES; storage_id key] IDENTITY IDENTITY_LIMIT)) (ok (λ b y, y = x ∧
    node_at ([PROFILES; storage_id key] ++ [IDENTITY]) x = Some (File b) ∧ len b ≤ IDENTITY_LIMIT))) as Hr by apply safe_io, safe_read.
  specialize (Hr (still x) eq_refl). destruct (io _ (still x)) as [d [b|]]; [|done]. destruct Hr as [_ Hr].
  destruct (Hr b eq_refl) as (_ & Hb & Hl). unfold sbind, lifted, ensure in Hv. destruct (from_slice b) as [i|] eqn:Ei; [|done].
  simpl in Hv. exists b, i. split; [done|]. split; [done|]. split; [done|]. unfold identity_matches. by destruct (_ && _ && _).
Qed.

Lemma own_identity key x : node_at [PROFILES; storage_id key; IDENTITY] x = Some (File (line (identity_of key))) →
  len (line (identity_of key)) ≤ IDENTITY_LIMIT → identity_ok key x.
Proof.
  intros Hb Hl. exists (line (identity_of key)), (identity_of key). split; [done|]. split; [done|].
  split; [apply from_slice_line|]. unfold identity_matches, eq_str. simpl. by rewrite !bool_decide_eq_true_2.
Qed.

Lemma safe_identity x key : len (line (identity_of key)) ≤ IDENTITY_LIMIT →
  safe' (eq x) (store_identity [PROFILES; storage_id key] key (line (identity_of key))) (ok (λ _ y, identity_ok key y)).
Proof.
  intros Hl.
  assert (∀ x, safe' (eq x) (verify_identity [PROFILES; storage_id key] key) (ok (λ _ y, identity_ok key y))) as Hv.
  { intros y. eapply safe_mono; [apply safe_reads, reads_identity|]. intros [] z [-> Hz]. by apply identity_ok_read. }
  eapply safe_then; [apply safe_io, safe_exists|]. intros present y (-> & _). destruct present; [apply Hv|].
  eapply safe_bind; [eapply safe_tried, safe_io, safe_install| |by intros e z (r' & ? & _) ?].
  - intros s. by apply free_install.
  - done.
  - intros s. done.
  - intros r. apply safe_exact. intros y (r' & [= <-] & Hr).
    destruct r as [[e|]|[[]| |]]; try apply safe_err; [|apply Hv].
    eapply safe_mono; [apply safe_ret|]. intros [] z [_ <-]. apply own_identity; [|done]. exact (Hr None eq_refl).
Qed.

(** The relation a safe operation establishes can be part of its postcondition. *)
Lemma safe_stable {E A} x (m : SE Disk E A) Q : safe' (eq x) m (ok Q) → safe' (eq x) m (ok (λ a y, Q a y ∧ stable sealed kept x y)).
Proof. intros Hm d ->. specialize (Hm d eq_refl). destruct (m d) as [d' r]. destruct Hm as [Hs Hr]. split; [done|]. intros a Ha. auto. Qed.

Lemma safe_open_revisions x key : len (line (identity_of key)) ≤ IDENTITY_LIMIT →
  safe' (eq x) (open_revisions key (line (identity_of key)))
    (ok (λ p y, p = [PROFILES; storage_id key; REVISIONS] ∧ identity_ok key y)).
Proof.
  intros Hl. eapply safe_then; [apply safe_profile_dir|]. intros p y [-> Hy].
  eapply safe_then; [by apply safe_identity|]. intros [] z Hz.
  eapply safe_mono.
  - apply (safe_stable _ _ (λ p _, p = [PROFILES; storage_id key; REVISIONS])). eapply safe_then; [apply safe_io, safe_child; [apply unsealed_profile|done]|]. intros p w (-> & _ & _).
    eapply safe_then; [apply safe_io, safe_lock; [apply unsealed_revisions|done]|]. intros [] v _.
    eapply safe_mono; [apply safe_ret|]. by intros p u [-> _].
  - intros p w [-> Hs]. split; [done|]. by eapply identity_ok_stable.
Qed.

(** *** The staging directory *)

(** The directory of a complete revision. *)
Definition add_object (o : Entries) (a : Asset) : Entries :=
  if is_some (o !! digest (as_bytes a)) then o else <[digest (as_bytes a) := File (as_bytes a)]> o.

Definition revision_entries (b : Bundle) (frozen : option FrozenOverride) (manifest : str) : Entries :=
  let t := <[lit "source.yaml" := File (b_source b)]> ∅ in
  let t := match b_materialized b with Some m => <[lit "materialized.yaml" := File m]> t | None => t end in
  let t := match frozen with
           | Some v => <[lit "override-output.yaml" := File (fo_patch_bytes v)]>
                         (<[lit "override-script" := File (fo_script_bytes v)]> t)
           | None => t
           end in
  <[lit "manifest.json" := File manifest]> (<[lit "objects" := Dir (foldl add_object ∅ (values (b_assets b)))]> t).

Section Staging.
Context (id n : str) (rt : Entries).
Hypothesis Hn : hidden n = true.
Abbreviation RP := [PROFILES; id; REVISIONS].
Abbreviation SP := [PROFILES; id; REVISIONS; n].

(** Beside the other revisions, the staging directory holds [t]. *)
Definition staged (t : Entries) (x : Node) : Prop := node_at RP x = Some (Dir (<[n := Dir t]> rt)).

Lemma staged_at t x : staged t x → node_at SP x = Some (Dir t).
Proof. intros Hx. change SP with (RP ++ [n]). rewrite (node_at_snoc RP n x _ Hx). by rewrite lookup_insert_eq. Qed.

Lemma staged_set t t' x : staged t x → staged t' (set_at SP (Dir t') x).
Proof.
  intros Hx. unfold staged. change SP with (RP ++ [n]). rewrite (set_at_snoc RP n (Dir t') x _ (Dir t) Hx) by (by rewrite lookup_insert_eq).
  rewrite insert_insert_eq. by eapply node_at_set_eq.
Qed.

Lemma staged_added t name z x y : staged t x → added SP name z x y → t !! name = None ∧ staged (<[name := z]> t) y.
Proof.
  intros Hx (t' & Ht & Hnone & ->). rewrite (staged_at t x Hx) in Ht. injection Ht as <-. split; [done|]. by eapply staged_set.
Qed.

(** One more file in the staging directory. *)
Lemma safe_file x t name bytes : staged t x →
  safe' (eq x) (io (write_new SP name bytes)) (ok (λ _ y, staged (<[name := File bytes]> t) y)).
Proof.
  intros Ht. eapply safe_mono; [apply safe_io, safe_write_new; by apply free_staging|]. intros [] y Hy.
  by eapply staged_added.
Qed.

Lemma safe_objects assets x t o : staged t x → t !! lit "objects" = Some (Dir o) →
  safe' (eq x) (write_objects (SP ++ [lit "objects"]) assets)
    (ok (λ _ y, staged (<[lit "objects" := Dir (foldl add_object o assets)]> t) y)).
Proof.
  revert x t o. induction assets as [|a assets IH]; intros x t o Ht Ho; cbn [write_objects foldl].
  { eapply safe_mono; [apply safe_ret|]. intros [] y [_ <-]. by rewrite insert_id. }
  pose proof (staged_at t x Ht) as Hs.
  assert (node_at (SP ++ [lit "objects"]) x = Some (Dir o)) as Hobj by (by rewrite (node_at_snoc _ _ _ t)).
  eapply safe_then; [apply safe_io, safe_exists|]. intros present y (-> & o' & Ho' & ->).
  rewrite Hobj in Ho'. injection Ho' as <-.
  eapply (safe_then _ _ _ _ _ (λ _ y, staged (<[lit "objects" := Dir (add_object o a)]> t) y)).
  - unfold add_object. destruct (o !! digest (as_bytes a)) as [z|]; cbn [is_some].
    + eapply safe_mono; [apply safe_ret|]. intros [] y [_ <-]. by rewrite insert_id.
    + eapply safe_mono; [apply safe_io, safe_write_new; by apply free_staging|]. intros [] y (o' & Ho' & Hd & ->).
      rewrite Hobj in Ho'. injection Ho' as <-. rewrite (set_at_snoc _ _ _ _ _ _ Hs Ho). by eapply staged_set.
  - intros [] y Hy. eapply safe_mono; [apply (IH y _ (add_object o a) Hy); by rewrite lookup_insert_eq|].
    intros [] z. by rewrite insert_insert_eq.
Qed.

Lemma safe_write_staging x b frozen manifest : staged ∅ x →
  safe' (eq x) (write_staging SP b frozen manifest) (ok (λ _ y, staged (revision_entries b frozen manifest) y)).
Proof.
  intros Ht. unfold write_staging, revision_entries. eapply safe_then; [by apply safe_file|]. intros [] x1 H1.
  set (t1 := <[_ := _]> ∅) in *.
  eapply (safe_then _ _ _ _ _ (λ _ y, staged (match b_materialized b with Some m => <[lit "materialized.yaml" := File m]> t1 | None => t1 end) y)).
  { destruct (b_materialized b); [by apply safe_file|]. eapply safe_mono; [apply safe_ret|]. by intros [] y [_ <-]. }
  intros [] x2 H2. set (t2 := match b_materialized b with Some _ => _ | None => _ end) in *.
  eapply (safe_then _ _ _ _ _ (λ _ y, staged (match frozen with Some v => <[lit "override-output.yaml" := File (fo_patch_bytes v)]>
                         (<[lit "override-script" := File (fo_script_bytes v)]> t2) | None => t2 end) y)).
  { destruct frozen; [|eapply safe_mono; [apply safe_ret|]; by intros [] y [_ <-]].
    eapply safe_then; [by apply safe_file|]. intros [] y Hy. by apply safe_file. }
  intros [] x3 H3. set (t3 := match frozen with Some _ => _ | None => _ end) in *.
  assert (t3 !! lit "objects" = None) as Hobj.
  { unfold t3, t2, t1. destruct frozen, (b_materialized b); rewrite ?lookup_insert_ne by done; apply lookup_empty. }
  eapply safe_then; [apply safe_io, safe_child; [apply free_staging; done|done]|]. intros p x4 (-> & _ & H4).
  destruct H4 as [[-> [u Hu]]|[_ H4]]; [rewrite (node_at_snoc _ _ _ t3) in Hu by (by apply staged_at); congruence|].
  eapply staged_added in H4 as [_ H4]; [|exact H3].
  eapply safe_then; [apply (safe_objects _ _ _ ∅ H4); by rewrite lookup_insert_eq|]. intros [] x5 H5.
  rewrite insert_insert_eq in H5. eapply safe_then; [apply safe_io, safe_chance|]. intros [] y ->.
  eapply safe_then; [by apply safe_file|]. intros [] x6 H6. eapply safe_mono; [apply safe_io, safe_chance|]. by intros [] y ->.
Qed.

(** A staging directory that is not there yet becomes the revision. *)
Lemma safe_write_revision x rev b frozen manifest : hidden rev = false →
  node_at RP x = Some (Dir rt) → rt !! rev = None → rt !! n = None →
  safe' (eq x) (write_revision RP n rev b frozen manifest)
    (ok (λ _ y, node_at [PROFILES; id; REVISIONS; rev] y = Some (Dir (revision_entries b frozen manifest)))).
Proof.
  intros Hv Hd Hrev Hnone. assert (n ≠ rev) as Hne by congruence. unfold write_revision.
  eapply safe_then; [apply safe_io, safe_child; [apply unsealed_revisions|done]|]. intros p x1 (-> & _ & H1).
  destruct H1 as [[-> [u Hu]]|[_ H1]]; [rewrite (node_at_snoc _ _ _ rt) in Hu by done; congruence|].
  eapply added_dir in H1 as [_ H1]; [|exact Hd]. eapply safe_then; [by apply safe_write_staging|]. intros [] x2 H2.
  eapply safe_then.
  { eapply safe_io, safe_rename_dir; [exact H2|by rewrite lookup_insert_eq|by rewrite lookup_insert_ne|by apply free_staging|done]. }
  intros [] y ->. eapply safe_mono; [apply safe_io, safe_chance|]. intros [] z ->.
  change [PROFILES; id; REVISIONS; rev] with (RP ++ [rev]). rewrite (node_at_set _ _ _ _ _ H2).
  unfold node_at. by rewrite lookup_insert_eq.
Qed.

End Staging.

(** ** Reading back *)

Record bundle_wf (b : Bundle) : Prop := {
  bw_source : len (b_source b) ≤ FILE_LIMIT;
  bw_materialized m : b_materialized b = Some m → len m ≤ FILE_LIMIT;
  bw_sorted : bmap_wf (b_assets b);
  bw_sizes k a : (k, a) ∈ b_assets b → len (as_bytes a) ≤ FILE_LIMIT;
  bw_assets : len (b_assets b) ≤ 4096;
  bw_aggregate : aggregate b ≤ AGGREGATE_LIMIT;
  bw_remotes : len (b_remotes b) ≤ 4096;
  bw_deferred : forallb rm_deferred (b_remotes b) = true;
  bw_names : adjacent (λ a b, str_ltb (rm_name a) (rm_name b)) (b_remotes b) = true;
}.

(** No two different files of the bundle have the same digest. *)
Definition digests_differ (b : Bundle) : Prop :=
  ∀ a a', a ∈ values (b_assets b) → a' ∈ values (b_assets b) → digest (as_bytes a) = digest (as_bytes a') → as_bytes a = as_bytes a'.

Definition view_of (key revision content : str) (b : Bundle) (meta : Metadata) (frozen : option FrozenOverride) : RevisionView :=
  mkView key (storage_id key) revision (hex content) meta frozen b.

Lemma bind_still {E A B} x (m : SE Disk E A) (k : A → SE Disk E B) a :
  m (still x) = (still x, Ok a) → sbind m k (still x) = k a (still x).
Proof. intros H. unfold sbind. by rewrite H. Qed.

Lemma io_still {A} x (m : IO A) a : m (still x) = (still x, Ok a) → io m (still x) = (still x, Ok a).
Proof. intros H. unfold io. by rewrite H. Qed.

Lemma ensure_still x c e : c = true → ensure c e (still x) = (still x, Ok tt).
Proof. by intros ->. Qed.

Lemma read_content_still x dir t name bytes limit : single_component name = true → node_at dir x = Some (Dir t) →
  t !! name = Some (File bytes) → len bytes ≤ limit →
  read_content dir name (content_of bytes) limit (still x) = (still x, Ok bytes).
Proof.
  intros Hn Hd Ht Hl. unfold read_content. rewrite (bind_still _ _ _ tt) by (apply ensure_still; simpl; by apply Z.leb_le).
  rewrite (bind_still _ _ _ tt) by (apply ensure_still, digest_hex).
  rewrite (bind_still _ _ _ bytes) by (apply io_still; by eapply still_read).
  rewrite (bind_still _ _ _ tt); [done|]. apply ensure_still. simpl. by rewrite Z.eqb_refl, eq_str_refl.
Qed.

(** *** Objects *)

Lemma foldl_objects assets o id z : o !! id = Some z → foldl add_object o assets !! id = Some z.
Proof.
  revert o. induction assets as [|a assets IH]; intros o Ho; simpl; [done|]. apply IH. unfold add_object.
  destruct (o !! digest (as_bytes a)) eqn:E; simpl; [done|]. rewrite lookup_insert_ne; [done|]. congruence.
Qed.

Lemma objects_lookup assets a : a ∈ assets →
  (∀ a', a' ∈ assets → digest (as_bytes a) = digest (as_bytes a') → as_bytes a = as_bytes a') →
  foldl add_object ∅ assets !! digest (as_bytes a) = Some (File (as_bytes a)).
Proof.
  assert (∀ o, (∀ z, o !! digest (as_bytes a) = Some z → z = File (as_bytes a)) → a ∈ assets →
    (∀ a', a' ∈ assets → digest (as_bytes a) = digest (as_bytes a') → as_bytes a = as_bytes a') →
    foldl add_object o assets !! digest (as_bytes a) = Some (File (as_bytes a))) as H; [|apply H; by rewrite lookup_empty].
  induction assets as [|a' assets IH]; intros o Ho Ha Hd; [by apply not_elem_of_nil in Ha|]. simpl.
  assert (∀ z, add_object o a' !! digest (as_bytes a) = Some z → z = File (as_bytes a)) as Ho'.
  { intros z. unfold add_object. destruct (o !! digest (as_bytes a')) eqn:E; simpl; [apply Ho|].
    destruct (decide (digest (as_bytes a) = digest (as_bytes a'))) as [He|He].
    - rewrite He, lookup_insert_eq. intros [= <-]. f_equal. symmetry. apply Hd; [left|done].
    - rewrite lookup_insert_ne by done. apply Ho. }
  assert (∀ a'', a'' ∈ assets → digest (as_bytes a) = digest (as_bytes a'') → as_bytes a = as_bytes a'') as Hd'.
  { intros a'' Ha''. apply Hd. by right. }
  apply elem_of_cons in Ha as [->|Ha]; [|by apply IH]. apply foldl_objects. unfold add_object in *.
  destruct (o !! digest (as_bytes a')) as [z|] eqn:E; simpl; [by rewrite E, (Ho z eq_refl)|apply lookup_insert_eq].
Qed.

Definition sizes (m : bmap Asset) : Z := foldr (λ a acc, len (as_bytes a) + acc) 0 (values m).

Lemma sizes_nonneg m : 0 ≤ sizes m.
Proof. unfold sizes. induction (values m) as [|a l IH]; simpl; [lia|]. unfold len in *. lia. Qed.

Lemma read_assets_still x objects o limit m : ∀ total acc,
  node_at objects x = Some (Dir o) → bmap_wf (acc ++ m) → 0 ≤ total → total + sizes m ≤ limit → limit ≤ AGGREGATE_LIMIT →
  (∀ kv, kv ∈ m → o !! digest (as_bytes (snd kv)) = Some (File (as_bytes (snd kv))) ∧ len (as_bytes (snd kv)) ≤ FILE_LIMIT) →
  read_assets objects limit (disk_asset <$> m) total acc (still x) = (still x, Ok (acc ++ m, total + sizes m)).
Proof.
  induction m as [|[k a] m IH]; intros total acc Ho Hw H0 Hl Ha Hm.
  { rewrite app_nil_r. unfold sizes. simpl. by rewrite Z.add_0_r. }
  assert (sizes ((k, a) :: m) = len (as_bytes a) + sizes m) as Hs by done.
  pose proof (sizes_nonneg m) as Hn. assert (0 ≤ len (as_bytes a)) as Hla by (unfold len; lia). rewrite Hs in *.
  assert (AGGREGATE_LIMIT ≤ u64_max) as Hu by (vm_compute; done). destruct (Hm (k, a)) as [Hobj Hf]; [left|]. simpl in Hobj, Hf.
  cbn [fmap list_fmap read_assets disk_asset fst snd da_size da_object da_sha256 da_logical da_target].
  rewrite (bind_still _ _ _ tt) by (apply ensure_still, Z.leb_le; lia).
  rewrite (bind_still _ _ _ tt) by (apply ensure_still, andb_true_iff; rewrite !Z.leb_le; lia).
  rewrite (bind_still _ _ _ tt) by (apply ensure_still, digest_hex).
  rewrite (bind_still _ _ _ tt) by (apply ensure_still, eq_str_refl).
  rewrite (bind_still _ _ _ (as_bytes a)).
  2: { eapply read_content_still; [|done..]. by eapply is_hex_name; [apply digest_hex|]. }
  replace (mkAsset (as_target a) (as_bytes a)) with a by (by destruct a).
  rewrite binsert_last.
  2: { replace ((k, a) :: m) with ([(k, a)] ++ m) in Hw by done. rewrite app_assoc in Hw. by eapply bmap_wf_prefix. }
  rewrite IH; [by rewrite <- app_assoc, Z.add_assoc|done|by rewrite <- app_assoc|lia|lia|done|].
  intros kv Hkv. apply Hm. by right.
Qed.

(** *** The files of a revision *)

Section Entries.
Context (b : Bundle) (frozen : option FrozenOverride) (manifest : str).
Let t := revision_entries b frozen manifest.

Ltac entries := unfold t, revision_entries; destruct frozen, (b_materialized b);
  repeat (rewrite lookup_insert_ne by done); rewrite ?lookup_insert_eq, ?lookup_empty; done.

Lemma entry_manifest : t !! lit "manifest.json" = Some (File manifest).
Proof. apply lookup_insert_eq. Qed.

Lemma entry_objects : t !! lit "objects" = Some (Dir (foldl add_object ∅ (values (b_assets b)))).
Proof. entries. Qed.

Lemma entry_source : t !! lit "source.yaml" = Some (File (b_source b)).
Proof. entries. Qed.

Lemma entry_materialized : t !! lit "materialized.yaml" = File <$> b_materialized b.
Proof. entries. Qed.

Lemma entry_script : t !! lit "override-script" = File ∘ fo_script_bytes <$> frozen.
Proof. entries. Qed.

Lemma entry_patch : t !! lit "override-output.yaml" = File ∘ fo_patch_bytes <$> frozen.
Proof. entries. Qed.

End Entries.

Lemma absent_still x dir t n : single_component n = true → node_at dir x = Some (Dir t) → t !! n = None →
  io (exists_ dir n) (still x) = (still x, Ok false).
Proof. intros Hn Hdir Hnone. apply io_still. rewrite (still_exists _ _ _ _ Hn Hdir). by rewrite Hnone. Qed.

Section ReadBack.
Context (x : Node) (dir : list str) (b : Bundle) (frozen : option FrozenOverride) (manifest : str).
Hypothesis Hdir : node_at dir x = Some (Dir (revision_entries b frozen manifest)).
Hypothesis Hwf : bundle_wf b.
Hypothesis Hover : validate_override b frozen = Ok tt.
Hypothesis Hdigests : digests_differ b.

Lemma read_materialized_still : read_materialized dir (content_of <$> b_materialized b) (still x) = (still x, Ok (b_materialized b)).
Proof.
  pose proof (entry_materialized b frozen manifest) as He. pose proof (bw_materialized b Hwf) as Hm. unfold read_materialized.
  destruct (b_materialized b) as [m|]; simpl in *.
  - by rewrite (bind_still _ _ _ m) by (eapply read_content_still; eauto; reflexivity).
  - rewrite (bind_still _ _ _ false); [done|]. by eapply absent_still.
Qed.

Lemma read_override_still : read_override dir (disk_override <$> frozen) (still x) = (still x, Ok frozen).
Proof.
  pose proof (entry_script b frozen manifest) as Hs. pose proof (entry_patch b frozen manifest) as Hp. unfold read_override.
  destruct frozen as [v|] eqn:Ef; cbn [fmap option_fmap option_map] in *.
  - unfold validate_override in Hover. destruct (is_some (b_materialized b)); [|done]. simpl in Hover.
    destruct (frozen_ok v) eqn:Eo; [|done]. unfold frozen_ok in Eo. rewrite !andb_true_iff, !Z.leb_le in Eo.
    rewrite (bind_still _ _ _ (fo_script_bytes v)) by (eapply read_content_still; [reflexivity|exact Hdir|done|tauto]).
    rewrite (bind_still _ _ _ (fo_patch_bytes v)) by (eapply read_content_still; [reflexivity|exact Hdir|done|tauto]).
    by destruct v.
  - rewrite (bind_still _ _ _ false) by (by eapply absent_still).
    rewrite (bind_still _ _ _ false); [done|]. by eapply absent_still.
Qed.

Lemma read_objects_still :
  read_assets (dir ++ [lit "objects"]) (aggregate b) (disk_asset <$> b_assets b)
    (len (b_source b) + option_len (b_materialized b)) [] (still x) = (still x, Ok (b_assets b, aggregate b)).
Proof.
  destruct Hwf as [H1 H2 H3 H4 H5 H6 H7 H8 H9].
  eapply read_assets_still; [rewrite (node_at_snoc _ _ _ _ Hdir); apply entry_objects|done| |reflexivity|done|].
  - unfold option_len, len. destruct (b_materialized b); lia.
  - intros [k a] Hka. assert (a ∈ values (b_assets b)) as Ha by (apply list_elem_of_fmap; by exists (k, a)).
    split; [|by eapply H4]. apply objects_lookup; [done|]. intros a' Ha'. by apply Hdigests.
Qed.

End ReadBack.

Lemma sorted_adjacent (m : bmap Asset) : bmap_wf m → adjacent (λ a b, str_ltb (da_logical a) (da_logical b)) (disk_asset <$> m) = true.
Proof.
  unfold bmap_wf. induction m as [|[k a] m IH]; [done|]. intros Hs. inversion Hs as [|? ? Hs' Hf]; subst.
  destruct m as [|[k' a'] m]; [done|]. cbn. apply andb_true_iff. split; [by apply Forall_cons in Hf as [Hf _]|by apply IH].
Qed.

(** A complete revision beside a good identity is read back as it was written. *)
Lemma read_back key b meta frozen x :
  let content := content_digest key b meta frozen in
  let rev := revision_id key content in
  let manifest := line (manifest_of key rev content b meta frozen) in
  identity_ok key x →
  node_at [PROFILES; storage_id key; REVISIONS; rev] x = Some (Dir (revision_entries b frozen manifest)) →
  stored_key key = true → validate_metadata meta = true → validate_override b frozen = Ok tt → bundle_wf b → digests_differ b →
  len manifest ≤ MANIFEST_LIMIT →
  read_bundle key rev (still x) = (still x, Ok (view_of key rev content b meta frozen)).
Proof.
  intros content rev manifest Hid Hrev Hkey Hmeta Hover Hwf Hdig Hlen.
  destruct (node_at_up [PROFILES; storage_id key; REVISIONS] rev x _ Hrev) as (tr & Hr & Htr).
  destruct (node_at_up [PROFILES; storage_id key] REVISIONS x _ Hr) as (tp & Hp & Htp).
  destruct (node_at_up [PROFILES] (storage_id key) x _ Hp) as (ts & Hs & Hts).
  destruct (node_at_up [] PROFILES x _ Hs) as (t0 & H0 & Ht0).
  pose proof (revision_id_hex key content) as Hhex. fold rev in Hhex.
  destruct (is_hex_name _ _ Hhex ltac:(done)) as [Hname _]. destruct (storage_id_name key) as [Hsid _].
  pose proof Hwf as [W1 W2 W3 W4 W5 W6 W7 W8 W9].
  unfold read_bundle, context. enough (read_revision key rev (still x) = (still x, Ok (view_of key rev content b meta frozen))) as -> by done.
  unfold read_revision. do 2 rewrite (bind_still _ _ _ tt) by (by apply ensure_still).
  rewrite (bind_still _ _ _ [PROFILES; storage_id key]).
  2: { unfold profile_dir. rewrite (bind_still _ _ _ [PROFILES]) by (apply io_still; by eapply still_child). apply io_still. by eapply still_child. }
  rewrite (bind_still _ _ _ tt) by (by apply identity_ok_still).
  rewrite (bind_still _ _ _ [PROFILES; storage_id key; REVISIONS]) by (apply io_still; by eapply still_child).
  rewrite (bind_still _ _ _ [PROFILES; storage_id key; REVISIONS; rev]) by (apply io_still; by eapply still_child).
  rewrite (bind_still _ _ _ manifest) by (apply io_still; eapply still_read; [done..|apply entry_manifest|done]).
  rewrite (bind_still _ _ _ (manifest_of key rev content b meta frozen)).
  2: { unfold lifted, manifest, line. by rewrite from_slice_line. }
  cbn [manifest_of mf_schema mf_key mf_storage mf_revision mf_assets mf_remotes mf_aggregate mf_metadata mf_source mf_materialized mf_frozen mf_digest].
  rewrite (bind_still _ _ _ tt) by (apply ensure_still; by rewrite !eq_str_refl).
  rewrite (bind_still _ _ _ tt).
  2: { apply ensure_still. unfold len in *. rewrite length_fmap, !andb_true_iff, !Z.leb_le. done. }
  rewrite (bind_still _ _ _ tt) by (by apply ensure_still).
  rewrite (bind_still _ _ _ (b_source b)) by (eapply read_content_still; [done..|apply entry_source|done]).
  rewrite (bind_still _ _ _ (b_materialized b)) by (by eapply read_materialized_still).
  rewrite (bind_still _ _ _ frozen) by (by eapply read_override_still).
  rewrite (bind_still _ _ _ ([PROFILES; storage_id key; REVISIONS; rev] ++ [lit "objects"])) by (apply io_still; eapply still_child; [done..|apply entry_objects]).
  rewrite (bind_still _ _ _ tt) by (by apply ensure_still, sorted_adjacent).
  rewrite (bind_still _ _ _ (b_assets b, aggregate b)) by (by eapply read_objects_still).
  rewrite (bind_still _ _ _ tt) by (apply ensure_still, Z.eqb_refl).
  rewrite (bind_still _ _ _ tt) by (apply ensure_still; by rewrite W8, W9).
  replace (mkBundle (b_source b) (b_materialized b) (b_assets b) (b_remotes b)) with b by (by destruct b).
  rewrite (bind_still _ _ _ tt) by (unfold checked, lifted; by rewrite Hover).
  rewrite (bind_still _ _ _ tt) by (apply ensure_still; fold content; fold rev; by rewrite !eq_str_refl).
  done.
Qed.

End Facts.

End RevisionFacts.
