(* ===== verification/RevisionRead.v ===== *)
(** * Reading a revision (src/src/store.rs: [read_revision], [publish_revision])

    What a revision that was read looks like, that it is read the same after any safe
    operation, and that a published revision is read back. *)
From S2P Require Import Prelude Utf8 BTree Json Disk DiskFacts Bundle Revision RevisionFacts.

Module RevisionRead.
Import Disk DiskFacts Bundle Revision RevisionFacts.

(** ** Success on a disk without failures *)

Lemma bind_inv {E A B} x (m : SE Disk E A) (k : A → SE Disk E B) d b : reads m →
  sbind m k (still x) = (d, Ok b) → ∃ a, m (still x) = (still x, Ok a) ∧ k a (still x) = (d, Ok b).
Proof.
  intros Hm. destruct (Hm (still x)) as [_ Ho]. unfold sbind. destruct (m (still x)) as [d' [a|e]] eqn:E'; [|done].
  specialize (Ho a eq_refl). change (root (still x)) with x in Ho. rewrite E' in Ho. injection Ho as ->. intros H. by exists a.
Qed.

Lemma io_inv {A} x (m : IO A) a : io m (still x) = (still x, Ok a) → m (still x) = (still x, Ok a).
Proof. unfold io. destruct (m (still x)) as [d [b|e]]; [|done]. by intros [= -> ->]. Qed.

Lemma ensure_inv x c e u : ensure c e (still x) = (still x, Ok u) → c = true.
Proof. by destruct c. Qed.

Lemma lifted_inv {A} x (r : result Error A) a : lifted r (still x) = (still x, Ok a) → r = Ok a.
Proof. unfold lifted. congruence. Qed.

(** The postcondition of a safe operation, at a success. *)
Lemma safe_at {E A} x (m : SE Disk E A) Q a d : safe (λ _, False) (λ _, False) (eq x) m (ok Q) → m (still x) = (d, Ok a) → Q a (root d).
Proof. intros Hm Ha. specialize (Hm (still x) eq_refl). rewrite Ha in Hm. destruct Hm as [_ Hm]. by apply Hm. Qed.

Lemma read_inv x dir n limit b : io (read dir n limit) (still x) = (still x, Ok b) →
  node_at (dir ++ [n]) x = Some (File b) ∧ len b ≤ limit.
Proof. intros Hb. apply io_inv in Hb. eapply safe_at in Hb; [|apply safe_read]. by destruct Hb as [_ Hb]. Qed.

Lemma child_inv x dir n p : io (child dir n false) (still x) = (still x, Ok p) → p = dir ++ [n] ∧ ∃ t, node_at p x = Some (Dir t).
Proof.
  intros Hp. apply io_inv in Hp. eapply safe_at in Hp; [|apply safe_child; [split; [by intros ?|destruct dir; tauto]|tauto]].
  destruct Hp as (-> & _ & [[_ Hp]|[? _]]); done.
Qed.

(** Takes a successful read apart, one operation at a time. *)
Ltac step H := let a := fresh "a" in let Ha := fresh "Ha" in
  apply bind_inv in H as (a & Ha & H); [|by reads_tac; try apply reads_identity; try apply reads_content; try apply reads_assets].

Section Read.
Context `{HS : Sha256, HI : Serde Identity, HM : Serde Manifest}.

Lemma read_content_inv x dir n c limit b : read_content dir n c limit (still x) = (still x, Ok b) →
  node_at (dir ++ [n]) x = Some (File b) ∧ len b ≤ limit ∧ c = content_of b.
Proof.
  intros H. unfold read_content in H. do 4 step H. injection H as ->. apply read_inv in Ha1 as [Hb Hl].
  apply ensure_inv in Ha2. apply andb_true_iff in Ha2 as [H1 H2]. split; [done|]. split; [done|].
  destruct c as [size sha]. simpl in *. unfold content_of. apply Z.eqb_eq in H1 as <-. by apply eq_str_true in H2 as <-.
Qed.

Lemma adjacent_sorted {A} (key : A → str) l : adjacent (λ a b, str_ltb (key a) (key b)) l = true →
  StronglySorted (λ a b, str_ltb a b = true) (key <$> l).
Proof.
  intros H. apply Sorted_StronglySorted; [intros a b c; apply str_ltb_trans|].
  induction l as [|a [|b l] IH]; [constructor|repeat constructor|]. simpl in H. apply andb_true_iff in H as [H1 H2].
  constructor; [by apply IH|]. by constructor.
Qed.

Lemma read_assets_inv x objects limit das : ∀ total acc assets total',
  read_assets objects limit das total acc (still x) = (still x, Ok (assets, total')) →
  StronglySorted (λ a b, str_ltb a b = true) (keys acc ++ (da_logical <$> das)) →
  ∃ m, assets = acc ++ m ∧ das = disk_asset <$> m ∧ total' = total + sizes m ∧
    ∀ kv, kv ∈ m → node_at (objects ++ [digest (as_bytes (snd kv))]) x = Some (File (as_bytes (snd kv))) ∧ len (as_bytes (snd kv)) ≤ FILE_LIMIT.
Proof.
  induction das as [|a das IH]; intros total acc assets total' H Hs.
  { injection H as <- <-. exists []. rewrite app_nil_r. unfold sizes. simpl. split; [done|]. split; [done|]. split; [lia|].
    intros kv Hkv. by apply not_elem_of_nil in Hkv. }
  cbn [read_assets] in H. do 5 step H. apply ensure_inv in Ha2. apply eq_str_true in Ha2.
  apply read_content_inv in Ha3 as (Hb & Hl & Hc). injection Hc as Hsize Hsha. rename a4 into bytes.
  set (kv := (da_logical a, mkAsset (da_target a) bytes)).
  assert (keys (acc ++ [kv]) = keys acc ++ [da_logical a]) as Hk by (unfold keys; by rewrite fmap_app).
  replace (keys acc ++ (da_logical <$> a :: das)) with (keys (acc ++ [kv]) ++ (da_logical <$> das)) in Hs.
  2: { rewrite Hk, <- app_assoc. done. }
  assert (binsert (da_logical a) (mkAsset (da_target a) bytes) acc = acc ++ [kv]) as Eb.
  { apply binsert_last. unfold bmap_wf. by eapply StronglySorted_app_1_l. }
  rewrite Eb in H.
  apply (IH _ (acc ++ [kv])) in H as (m & -> & -> & -> & Hm); [|done]. exists (kv :: m). split; [by rewrite <- app_assoc|].
  split; [|split].
  - cbn. f_equal. unfold disk_asset. simpl. destruct a; simpl in *. congruence.
  - rewrite Hsize. unfold sizes. simpl. lia.
  - intros kv' Hkv. apply elem_of_cons in Hkv as [->|Hkv]; [|by apply Hm]. split; [|done]. simpl. by rewrite <- Hsha, <- Ha2.
Qed.

(** What a profile's head must be for its files to be written and read back. *)
Record revision_ok (key : str) (b : Bundle) (meta : Metadata) (frozen : option FrozenOverride) : Prop := {
  ro_key : stored_key key = true;
  ro_metadata : validate_metadata meta = true;
  ro_override : validate_override b frozen = Ok tt;
  ro_bundle : bundle_wf b;
  ro_digests : digests_differ b;
}.

Definition view_ok (key rev : str) (v : RevisionView) : Prop :=
  let '(b, meta, frozen) := (rv_bundle v, rv_metadata v, rv_frozen v) in
  v = view_of key rev (content_digest key b meta frozen) b meta frozen ∧
  rev = revision_id key (content_digest key b meta frozen) ∧ revision_ok key b meta frozen.

Lemma read_materialized_inv x dir c m : read_materialized dir c (still x) = (still x, Ok m) →
  ∀ bytes, m = Some bytes → len bytes ≤ FILE_LIMIT.
Proof.
  intros H bytes ->. unfold read_materialized in H. destruct c; [|by do 2 step H]. step H. injection H as ->.
  by apply read_content_inv in Ha as (_ & ? & _).
Qed.

Lemma context_inv {A} e x (m : SM A) d a : context e m (still x) = (d, Ok a) → m (still x) = (d, Ok a).
Proof. unfold context. destruct (m (still x)) as [d' [b|e']]; [|done]. by intros [= -> ->]. Qed.

Lemma profile_dir_inv x key p : profile_dir key false (still x) = (still x, Ok p) → p = [PROFILES; storage_id key].
Proof. intros H. unfold profile_dir in H. step H. apply child_inv in Ha as [-> _]. by apply child_inv in H as [-> _]. Qed.

Lemma same_objects x objects (m : bmap Asset) :
  (∀ kv, kv ∈ m → node_at (objects ++ [digest (as_bytes (snd kv))]) x = Some (File (as_bytes (snd kv)))) →
  ∀ a a', a ∈ values m → a' ∈ values m → digest (as_bytes a) = digest (as_bytes a') → as_bytes a = as_bytes a'.
Proof.
  intros Hm a a' Ha Ha' E. apply list_elem_of_fmap in Ha as (kv & -> & Hkv), Ha' as (kv' & -> & Hkv').
  pose proof (Hm _ Hkv) as H1. rewrite E, (Hm _ Hkv') in H1. congruence.
Qed.

Lemma reads_profile_dir key : reads (profile_dir key false).
Proof. unfold profile_dir. reads_tac. Qed.

Lemma reads_materialized dir c : reads (read_materialized dir c).
Proof. unfold read_materialized. reads_tac; apply reads_content. Qed.

Lemma reads_override dir v : reads (read_override dir v).
Proof. unfold read_override. reads_tac; apply reads_content. Qed.

(** A revision that was read, and where it was read from. *)
Lemma read_bundle_inv x key rev v d : read_bundle key rev (still x) = (d, Ok v) →
  view_ok key rev v ∧ identity_ok key x ∧ (∃ t, node_at [PROFILES; storage_id key; REVISIONS; rev] x = Some (Dir t)) ∧ hidden rev = false.
Proof.
  intros H. apply context_inv in H. unfold read_revision in H.
  step H. step H. apply ensure_inv in Ha as Hkey, Ha0 as Hhex.
  apply bind_inv in H as (p & Hp & H); [|apply reads_profile_dir]. apply profile_dir_inv in Hp as ->.
  apply bind_inv in H as ([] & Hi & H); [|apply reads_identity]. apply identity_ok_read in Hi.
  step H. apply child_inv in Ha1 as [-> _]. step H. apply child_inv in Ha1 as [-> Hdir]. do 2 step H.
  apply lifted_inv in Ha2. do 3 step H. apply ensure_inv in Ha3, Ha4, Ha5. rename a into u1, a2 into m.
  apply bind_inv in H as (source & Hsource & H); [|apply reads_content]. apply read_content_inv in Hsource as (_ & Hsource & _).
  apply bind_inv in H as (mat & Hmat & H); [|apply reads_materialized]. pose proof (read_materialized_inv _ _ _ _ Hmat) as Hml.
  apply bind_inv in H as (frozen & Hfrozen & H); [|apply reads_override].
  step H. apply child_inv in Ha6 as [-> _]. step H. apply ensure_inv, adjacent_sorted in Ha6.
  apply bind_inv in H as ([assets total] & Hassets & H); [|apply reads_assets].
  destruct (read_assets_inv _ _ _ _ _ [] _ _ Hassets Ha6) as (l & El & Hl & Et & Hobj). simpl in El. subst assets total.
  rename Ha6 into Hsorted.
  do 4 step H. injection H as <- <-. apply ensure_inv in Ha6, Ha7, Ha9.
  rewrite !andb_true_iff, !eq_str_true in Ha3. destruct Ha3 as [[[_ Hk] Hsid] Hrev].
  apply andb_true_iff in Ha9 as [Hdig Hid]. apply eq_str_true in Hdig, Hid. apply andb_true_iff in Ha7 as [Hdef Hnames].
  rewrite !andb_true_iff, !Z.leb_le in Ha4. destruct Ha4 as [[Hn Hr] Hagg]. apply Z.eqb_eq in Ha6.
  unfold checked, lifted in Ha8. destruct (validate_override _ _) as [[]|] eqn:Hover; [|done].
  split; [|split; [done|split; [done|by eapply is_hex_name]]]. unfold view_ok. cbn [rv_bundle rv_metadata rv_frozen].
  split; [unfold view_of; congruence|]. split; [done|]. constructor; try done.
  - constructor; cbn [b_source b_materialized b_assets b_remotes]; try done.
    + unfold bmap_wf, keys. rewrite Hl in Hsorted. by rewrite <- list_fmap_compose in Hsorted.
    + intros k a' Hka. by apply (Hobj (k, a')).
    + unfold len in *. by rewrite Hl, length_fmap in Hn.
    + unfold aggregate. cbn [b_source b_materialized b_assets]. fold (sizes l). lia.
  - intros b1 b2. eapply (same_objects x _ l). intros kv Hkv. by apply Hobj.
Qed.

(** ** Reading is stable *)

Section Agree.
Context (x y : Node).

Definition agrees {E A} (m : SE Disk E A) : Prop := ∀ a, m (still x) = (still x, Ok a) → m (still y) = (still y, Ok a).

Lemma agrees_then {E A B} (m : SE Disk E A) (k : A → SE Disk E B) : reads m → agrees m →
  (∀ a, m (still x) = (still x, Ok a) → agrees (k a)) → agrees (sbind m k).
Proof. intros Hr Hm Hk b H. apply bind_inv in H as (a & Ha & H); [|done]. rewrite (bind_still _ _ _ a) by auto. by eapply Hk. Qed.

Lemma agrees_bind {E A B} (m : SE Disk E A) (k : A → SE Disk E B) : reads m → agrees m → (∀ a, agrees (k a)) → agrees (sbind m k).
Proof. intros Hr Hm Hk. by apply agrees_then. Qed.

Lemma agrees_const {E A} (r : result E A) : agrees (λ d, (d, r)).
Proof. intros a [= ->]. done. Qed.

Lemma agrees_ensure c e : agrees (ensure c e).
Proof. destruct c; apply agrees_const. Qed.

Lemma agrees_io {A} (m : IO A) : agrees m → agrees (io m).
Proof. intros Hm a H. by apply io_still, Hm, io_inv. Qed.

Lemma agrees_component n : agrees (component n).
Proof. unfold component. destruct (single_component n); apply agrees_const. Qed.

Lemma agrees_look {A} (dir : list str) (f : Entries → result IoError (Entries * A)) : (∀ t t' a, f t = Ok (t', a) → t' = t) →
  node_at dir x = node_at dir y → agrees (atomic (in_dir dir f)).
Proof.
  intros Hf Hd a H. unfold atomic, prim, in_dir in H. cbn in H.
  destruct (node_at dir x) as [[| |t|]|] eqn:Ed; try done. symmetry in Hd. destruct (f t) as [[t' a']|] eqn:Ef; [|done].
  injection H as _ ->. eapply still_look; [done|]. by rewrite Ef, (Hf _ _ _ Ef).
Qed.

Section Below.
Context (dir : list str).
Hypothesis Hdir : node_at dir x = node_at dir y.

Lemma agrees_read n limit : agrees (io (read dir n limit)).
Proof.
  apply agrees_io, agrees_bind; [apply reads_open_file| |].
  - apply agrees_bind; [apply reads_component|apply agrees_component|]. intros _. apply agrees_look; [|done].
    intros t t' a. destruct (t !! n) as [[]|]; congruence.
  - intros b. apply agrees_bind; [apply reads_chance| |]; [by intros [] _|]. intros _. destruct (limit <? len b); apply agrees_const.
Qed.

Lemma agrees_exists n : agrees (io (exists_ dir n)).
Proof.
  apply agrees_io, agrees_bind; [apply reads_component|apply agrees_component|]. intros _. apply agrees_look; [|done].
  by intros t t' a [= <- _].
Qed.

Lemma agrees_child n : agrees (io (child dir n false)).
Proof.
  apply agrees_io, agrees_bind; [apply reads_component|apply agrees_component|]. intros _.
  apply agrees_bind; [apply reads_ret|apply agrees_const|]. intros _. apply agrees_look; [|done].
  intros t t' a. destruct (t !! n) as [[]|]; congruence.
Qed.

Lemma agrees_content n c limit : agrees (read_content dir n c limit).
Proof.
  unfold read_content. repeat (apply agrees_bind; [reads_tac|first [apply agrees_ensure|apply agrees_read]|intros ?]). apply agrees_const.
Qed.

Lemma agrees_materialized c : agrees (read_materialized dir c).
Proof.
  unfold read_materialized. destruct c; (apply agrees_bind; [first [apply reads_content|reads_tac]|first [apply agrees_content|apply agrees_exists]|intros ?]).
  - apply agrees_const.
  - apply agrees_bind; [reads_tac|apply agrees_ensure|]. intros _. apply agrees_const.
Qed.

Lemma agrees_override v : agrees (read_override dir v).
Proof.
  unfold read_override. destruct v as [v|].
  - do 2 (apply agrees_bind; [apply reads_content|apply agrees_content|intros ?]). apply agrees_const.
  - apply agrees_bind; [reads_tac|apply agrees_exists|]. intros script. apply agrees_bind; [reads_tac| |].
    { destruct script; [apply agrees_const|apply agrees_exists]. }
    intros output. apply agrees_bind; [reads_tac|apply agrees_ensure|]. intros _. apply agrees_const.
Qed.

Lemma agrees_assets limit das : ∀ total assets, agrees (read_assets dir limit das total assets).
Proof.
  induction das as [|a das IH]; intros total assets; cbn [read_assets]; [apply agrees_const|].
  do 4 (apply agrees_bind; [reads_tac|apply agrees_ensure|intros _]).
  apply agrees_bind; [apply reads_content|apply agrees_content|]. intros bytes. apply IH.
Qed.

End Below.

Lemma agrees_child_to dir n t : single_component n = true → node_at (dir ++ [n]) y = Some (Dir t) → agrees (io (child dir n false)).
Proof.
  intros Hn Hy p Hp. apply child_inv in Hp as [-> _]. apply node_at_up in Hy as (u & Hu & Ht). apply io_still. by eapply still_child.
Qed.

(** The identity is good, and the revision's directory is the same. *)
Lemma agrees_revision key rev t : let p := [PROFILES; storage_id key] in single_component rev = true → identity_ok key y →
  node_at ((p ++ [REVISIONS]) ++ [rev]) x = Some (Dir t) → node_at ((p ++ [REVISIONS]) ++ [rev]) y = Some (Dir t) →
  agrees (read_bundle key rev).
Proof.
  intros p Hn Hi Hx Hy v Hv. apply context_inv in Hv. unfold read_bundle, context.
  enough (agrees (read_revision key rev)) as H by (by rewrite (H v Hv)). clear v Hv.
  pose proof Hy as H3. apply node_at_up in H3 as (t3 & H3 & _). pose proof H3 as H2. apply node_at_up in H2 as (t2 & H2 & _).
  pose proof H2 as H1. apply (node_at_up [PROFILES]) in H1 as (t1 & H1 & _). destruct (storage_id_name key) as [Hs _].
  unfold read_revision. do 2 (apply agrees_bind; [reads_tac|apply agrees_ensure|intros _]).
  apply agrees_then; [apply reads_profile_dir| |].
  { apply agrees_then; [reads_tac|by eapply agrees_child_to|]. intros q Hq. apply child_inv in Hq as [-> _].
    by eapply agrees_child_to. }
  intros q Hq. apply profile_dir_inv in Hq as ->. apply agrees_bind; [apply reads_identity| |intros _].
  { intros [] _. by apply identity_ok_still. }
  apply agrees_then; [reads_tac|by eapply agrees_child_to|]. intros q Hq. apply child_inv in Hq as [-> _].
  apply agrees_then; [reads_tac|by eapply agrees_child_to|]. intros q Hq. apply child_inv in Hq as [-> _].
  rewrite <- Hy in Hx. fold p. set (dir := (p ++ [REVISIONS]) ++ [rev]) in *.
  apply agrees_bind; [reads_tac|by apply agrees_read|]. intros bytes. apply agrees_bind; [reads_tac|apply agrees_const|]. intros m.
  do 3 (apply agrees_bind; [reads_tac|apply agrees_ensure|intros _]).
  apply agrees_bind; [apply reads_content|by apply agrees_content|]. intros source.
  apply agrees_bind; [apply reads_materialized|by apply agrees_materialized|]. intros mat.
  apply agrees_bind; [apply reads_override|by apply agrees_override|]. intros frozen.
  apply agrees_then; [reads_tac|by apply agrees_child|]. intros q Hq. apply child_inv in Hq as [-> _].
  apply agrees_bind; [reads_tac|apply agrees_ensure|intros _].
  apply agrees_bind; [apply reads_assets|apply agrees_assets; by rewrite !(node_at_app dir), Hx|]. intros [assets total].
  do 2 (apply agrees_bind; [reads_tac|apply agrees_ensure|intros _]). apply agrees_bind; [reads_tac|apply agrees_const|]. intros _.
  apply agrees_bind; [reads_tac|apply agrees_ensure|intros _]. apply agrees_const.
Qed.

End Agree.

(** A revision that can be read is read the same after any safe operation. *)
Lemma read_bundle_stable k x y key rev v : stable sealed k x y →
  read_bundle key rev (still x) = (still x, Ok v) → read_bundle key rev (still y) = (still y, Ok v).
Proof.
  intros Hs Hv. destruct (read_bundle_inv _ _ _ _ _ Hv) as ((_ & Hr & _) & Hi & [t Ht] & Hh).
  assert (single_component rev = true) as Hn by (rewrite Hr; eapply is_hex_name; [apply revision_id_hex|done]).
  apply (agrees_revision x y key rev t); [done|by eapply identity_ok_stable|done| |done].
  apply (st_sealed _ _ _ _ Hs); [|done|done]. exists (storage_id key). split; [apply storage_id_name|]. right. by exists rev.
Qed.

(** ** Publishing *)

(** The names drawn from the random supply are not in use. *)
Definition fresh_names (d : Disk) : Prop := ∀ s p, s ∈ random d → node_at (p ++ [lit ".staging-" ++ hex s]) (root d) = None.

Lemma tidy_io {A} fresh (m : IO A) : tidy fresh m → tidy fresh (io m).
Proof. intros Hm d. specialize (Hm d). unfold io. by destruct (m d). Qed.

Lemma tidy_identity fresh dir key : tidy fresh (verify_identity dir key).
Proof.
  apply tidy_bind; [apply tidy_io, tidy_read|]. intros bytes. apply tidy_bind; [apply tidy_lifted|]. intros i.
  unfold ensure. destruct (_ && _ && _); [apply tidy_ret|apply tidy_err].
Qed.

Section OneKey.
Context (key rev : str).
Hypothesis Hrev : is_hex rev 16 = true.

(** The names that belong to the revision being published. *)
Definition own (n : str) : Prop := n = rev ∨ ∃ s, n = lit ".staging-" ++ s.

Lemma not_own n : (length n ≠ 32)%nat ∨ hidden n = true → (∀ s, n ≠ lit ".staging-" ++ s) → ¬ own n.
Proof.
  destruct (is_hex_name _ _ Hrev ltac:(done)) as [_ Hh]. pose proof Hrev as Hl. unfold is_hex in Hl. apply andb_true_iff in Hl as [Hl _].
  apply Nat.eqb_eq in Hl. intros [Hn|Hn] Hs [->|[s ->]]; try (by destruct (Hs s)); [lia|congruence].
Qed.

Lemma not_own_id : ¬ own (storage_id key).
Proof.
  pose proof (digest_hex (lit "zc.profile-storage.v1" ++ hash_bytes key)) as Hd. unfold is_hex in Hd. apply andb_true_iff in Hd as [Hl _].
  apply Nat.eqb_eq in Hl. apply not_own; [left; unfold storage_id, digest in *; lia|]. intros s E.
  destruct (storage_id_name key) as [_ Hh]. by rewrite E in Hh.
Qed.

Lemma not_own_lit (m : string) : negb (length (lit m) =? 32)%nat && negb (starts_with (lit ".staging-") (lit m)) = true → ¬ own (lit m).
Proof.
  rewrite andb_true_iff, !negb_true_iff, Nat.eqb_neq. intros [Hl Hs]. apply not_own; [by left|]. intros s E. unfold starts_with in Hs.
  by rewrite E, strip_prefix_app in Hs.
Qed.

Lemma tidy_open_revisions identity : tidy own (open_revisions key identity).
Proof.
  apply tidy_bind; [apply tidy_bind; [|intros p]; apply tidy_io, tidy_child; [by apply not_own_lit|apply not_own_id]|]. intros p.
  apply tidy_bind.
  - apply tidy_bind; [apply tidy_io, tidy_exists|]. intros []; [apply tidy_identity|].
    apply tidy_bind; [|intros [[e|]|[[]| |]]; try apply tidy_err; [apply tidy_ret|apply tidy_identity]].
    apply tidy_tried, tidy_io, tidy_install; [by apply not_own_lit|]. intros s. apply not_own; [by right|done].
  - intros _. apply tidy_bind; [apply tidy_io, tidy_child; by apply not_own_lit|]. intros q.
    apply tidy_bind; [apply tidy_io, tidy_lock; by apply not_own_lit|]. intros _. apply tidy_ret.
Qed.

End OneKey.

(** No other contents are stored under the name of the revision. *)
Definition no_collision (key rev : str) (v : RevisionView) (x : Node) : Prop := ∀ y v',
  stable sealed kept x y → unused (own rev) x y → read_bundle key rev (still y) = (still y, Ok v') → v' = v.

Lemma nonce_spec d d' r : io nonce d = (d', r) → root d' = root d ∧ ∀ n, r = Ok n → ∃ s, s ∈ random d ∧ n = hex s.
Proof.
  unfold io, nonce, sbind, getrandom. destruct (crashed d); [by intros [= <- <-]|]. destruct (random d) as [|b bs]; [by intros [= <- <-]|].
  destruct (_ =? _)%nat; intros [= <- <-]; (split; [done|]); [|done]. intros n [= <-]. exists b. split; [left|done].
Qed.

Lemma encode_cases key rev content b meta frozen d :
  let manifest := line (manifest_of key rev content b meta frozen) in
  (∃ e, encode_revision key rev content b meta frozen d = (d, Err e)) ∨
  (encode_revision key rev content b meta frozen d = (d, Ok (line (identity_of key), manifest)) ∧
   len manifest ≤ MANIFEST_LIMIT ∧ len (line (identity_of key)) ≤ IDENTITY_LIMIT).
Proof.
  intros manifest. unfold encode_revision, sbind, ensure. fold manifest. destruct (len manifest <=? MANIFEST_LIMIT) eqn:Em; [|eauto].
  destruct (len (line (identity_of key)) <=? IDENTITY_LIMIT) eqn:Ei; [|eauto]. apply Z.leb_le in Em, Ei. auto.
Qed.

Lemma tidy_exists_io fresh dir n : tidy fresh (io (exists_ dir n)).
Proof. apply tidy_io, tidy_exists. Qed.

(** The part of [publish_revision] that has the lock. *)
Definition publish_locked (key rev : str) (b : Bundle) (frozen : option FrozenOverride) (manifest : str) (revisions : list str) : SM unit :=
  do! present := io (exists_ revisions rev) in
  if present then
    do! _ := read_bundle key rev in
    io sync
  else
    do! n := io nonce in
    write_revision revisions (lit ".staging-" ++ n) rev b frozen manifest.

Lemma publish_locked_spec d key b meta frozen :
  let content := content_digest key b meta frozen in
  let rev := revision_id key content in
  let v := view_of key rev content b meta frozen in
  let manifest := line (manifest_of key rev content b meta frozen) in
  fresh_names d → revision_ok key b meta frozen → identity_ok key (root d) → len manifest ≤ MANIFEST_LIMIT →
  (∀ v', read_bundle key rev (still (root d)) = (still (root d), Ok v') → v' = v) →
  let '(d', r) := publish_locked key rev b frozen manifest [PROFILES; storage_id key; REVISIONS] d in
  stable sealed kept (root d) (root d') ∧ (r = Ok tt → read_bundle key rev (still (root d')) = (still (root d'), Ok v)).
Proof.
  intros content rev v manifest Hfresh [O1 O2 O3 O4 O5] Hid Hm Hcol.
  destruct (is_hex_name _ _ (revision_id_hex key content) ltac:(done)) as [_ Hh]. fold rev in Hh. unfold publish_locked.
  pose proof (safe_io _ _ _ (safe_exists sealed kept (root d) [PROFILES; storage_id key; REVISIONS] rev) d eq_refl) as H1.
  destruct (tidy_exists_io (λ _, False) [PROFILES; storage_id key; REVISIONS] rev d) as [_ Hr]. unfold sbind at 1.
  destruct (io (exists_ _ rev) d) as [d1 [present|e]]; [|by destruct H1]. destruct H1 as [_ H1].
  destruct (H1 _ eq_refl) as (E1 & tr & Htr & ->). simpl in Hr. rewrite <- E1 in *. destruct (tr !! rev) as [z|] eqn:Erev; cbn [is_some].
  - assert (safe sealed kept (eq (root d1)) (sbind (read_bundle key rev) (λ _, io sync))
      (ok (λ _ y, read_bundle key rev (still y) = (still y, Ok v)))) as H2.
    { eapply safe_then; [apply safe_reads, reads_bundle|]. intros v' y [-> Hv]. rewrite (Hcol v' Hv) in Hv.
      eapply safe_mono; [apply safe_io, safe_chance|]. by intros [] y ->. }
    specialize (H2 d1 eq_refl). destruct (sbind _ _ d1) as [d2 r]. destruct H2 as [H2 Hv]. split; [done|]. apply Hv.
  - unfold sbind at 1. destruct (io nonce d1) as [d2 r2] eqn:En. apply nonce_spec in En as [E2 Hn].
    destruct r2 as [n|e]; [|by rewrite E2]. destruct (Hn n eq_refl) as (s & Hs & ->). rewrite <- E2 in *.
    assert (s ∈ random d) as Hsd by (destruct Hr as [l ->]; apply elem_of_app; by right).
    pose proof (Hfresh s [PROFILES; storage_id key; REVISIONS] Hsd) as Hst. rewrite <- E1, (node_at_snoc _ _ _ _ Htr) in Hst.
    pose proof (safe_write_revision (storage_id key) (lit ".staging-" ++ hex s) tr eq_refl (root d2) rev b frozen manifest Hh Htr Erev Hst) as H2.
    apply safe_stable in H2. specialize (H2 d2 eq_refl). destruct (write_revision _ _ _ _ _ _ d2) as [d3 r]. destruct H2 as [H2 H3]. split; [done|].
    intros ->. destruct (H3 tt eq_refl) as [H4 _]. apply read_back; try done. by eapply identity_ok_stable.
Qed.

(** Whatever happens no revision changes, and on success the revision is read back. *)
Lemma publish_spec d key b meta frozen :
  let content := content_digest key b meta frozen in
  let rev := revision_id key content in
  let v := view_of key rev content b meta frozen in
  fresh_names d → revision_ok key b meta frozen → no_collision key rev v (root d) →
  let '(d', r) := publish_revision key rev content b meta frozen d in
  stable sealed kept (root d) (root d') ∧ (r = Ok tt → read_bundle key rev (still (root d')) = (still (root d'), Ok v)).
Proof.
  intros content rev v Hfresh Hok Hcol. pose proof (revision_id_hex key content) as Hhex. fold rev in Hhex.
  unfold publish_revision, sbind at 1. destruct (encode_cases key rev content b meta frozen d) as [[e ->]|(-> & Hm & Hi)]; [done|].
  pose proof (safe_open_revisions (root d) key Hi d eq_refl) as H1.
  destruct (tidy_open_revisions key rev Hhex (line (identity_of key)) d) as [Hu Hr]. unfold sbind at 1.
  destruct (open_revisions key _ d) as [d1 [p|e]]; [|by destruct H1]. destruct H1 as [Hs H1]. destruct (H1 p eq_refl) as [-> Hid].
  assert (fresh_names d1) as Hf1.
  { intros s q Hq. apply Hu; [right; by eexists|]. apply Hfresh. destruct Hr as [l ->]. apply elem_of_app. by right. }
  pose proof (publish_locked_spec d1 key b meta frozen Hf1 Hok Hid Hm) as H2.
  assert (∀ v', read_bundle key rev (still (root d1)) = (still (root d1), Ok v') → v' = v) as Hc by (intros v'; by apply Hcol).
  specialize (H2 Hc). unfold publish_locked in H2. fold content rev v in H2. destruct (sbind (io (exists_ _ rev)) _ d1) as [d2 r].
  destruct H2 as [H2 H3]. split; [by etrans|done].
Qed.

End Read.

End RevisionRead.
