(* ===== verification/Store.v ===== *)
(** * The catalog (src/src/store.rs: [Store])

    The catalog is one file that names the head of every profile, what is selected in it and
    which profile is active. Every change reads it under a lock, compares its token with the
    one the caller saw, publishes what is new and replaces the file. *)
From S2P Require Import Prelude Utf8 BTree Json Disk DiskFacts Bundle Revision.

Module Store.
Import Disk Bundle Revision.

Record Selection := mkSelection { sl_group : str; sl_proxy : str }.

Record Desired := mkDesired { de_generation : Z; de_selections : list Selection }.

Record Profile := mkProfile {
  p_key : str;
  p_storage : str;
  p_head : str;
  p_desired : Desired;
  p_secret : option str;
}.

Record ActiveIdentity := mkActive { ac_key : str; ac_revision : str }.

Record Catalog := mkCatalog {
  ct_schema : Z;
  ct_sequence : Z;
  ct_active : option ActiveIdentity;
  ct_profiles : list Profile;
}.

Inductive StateFormat := Missing | CatalogV2.

Record StateToken := mkToken { tk_format : StateFormat; tk_sequence : Z; tk_digest : str }.

#[export] Instance format_eq_dec : EqDecision StateFormat.
Proof. solve_decision. Defined.

#[export] Instance token_eq_dec : EqDecision StateToken.
Proof. solve_decision. Defined.

Record Snapshot := mkSnapshot { sn_uncertain : bool; sn_token : StateToken; sn_catalog : Catalog }.

Record Receipt := mkReceipt { rc_token : StateToken; rc_error : option IoError }.

(** The [Store]: the directory, and whether one of its commits was not synced. *)
Record Handle := mkHandle { disk : Disk; uncertain : bool }.

Abbreviation SH := (SE Handle Error).

Definition on_disk {A} (m : SM A) : SH A := λ h, let '(d, r) := m (disk h) in (mkHandle d (uncertain h), r).

Definition require (c : bool) (e : Error) : SH unit := if c then sret tt else serr e.

Definition given {A} (r : res A) : SH A := lifted (map_err Message r).

Definition found {A} (o : option A) (e : Error) : SH A := lifted (ok_or o e).

(** The catalog's JSON read as any document has the catalog's version. *)
Class CatalogJson `{Serde Catalog} := {
  value_of : str → option Value;
  value_schema c : ct_schema c = 2 → value_of (line c) ≫= (λ v, get "schema_version" v ≫= as_u64) = Some 2;
}.

Definition CATALOG_NAME : str := lit "state-v2.json".
Definition LOCK_NAME : str := lit "state-v2.lock".
Definition CUTOVER_NAME : str := lit "legacy-cutover.lock".

(** The check of [AutoControllerSecret::deserialize]. *)
Definition secret_ok (s : str) : bool := (length s =? 64)%nat && forallb is_lower_hex s.

(** ** The catalog's canonical form *)

Definition validate_selections (selections : list Selection) : res (list Selection) :=
  if 1024 <? len selections then Err "PersistedSelectionCountLimitExceeded"
  else
    let selections := sort_by sl_group selections in
    if forallb (λ s, safe_text (sl_group s) && safe_text (sl_proxy s)) selections
       && adjacent (λ a b, negb (eq_str (sl_group a) (sl_group b))) selections
    then Ok selections else Err "InvalidSelections".

Section Catalogs.
Context `{HS : Sha256, HI : Serde Identity, HM : Serde Manifest, HC : Serde Catalog, HJ : !CatalogJson, HP : Parsers}.

Fixpoint canonical_profiles (profiles : list Profile) : res (list Profile) :=
  match profiles with
  | [] => Ok []
  | p :: ps =>
      if negb (stored_key (p_key p) && eq_str (p_storage p) (storage_id (p_key p))) then Err "InvalidCatalog"
      else if negb (is_hex (p_head p) 16) then Err "InvalidDigest"
      else
        let! selections := validate_selections (de_selections (p_desired p)) in
        let! ps := canonical_profiles ps in
        Ok (mkProfile (p_key p) (p_storage p) (p_head p) (mkDesired (de_generation (p_desired p)) selections) (p_secret p) :: ps)
  end.

Definition active_listed (active : option ActiveIdentity) (profiles : list Profile) : bool :=
  match active with
  | Some a => existsb (λ p, eq_str (p_key p) (ac_key a) && eq_str (p_head p) (ac_revision a)) profiles
  | None => true
  end.

(** The catalog [canonical] encodes. *)
Definition normal (c : Catalog) : res Catalog :=
  if negb (ct_schema c =? 2) then Err "InvalidCatalog"
  else
    let profiles := sort_by p_key (ct_profiles c) in
    if negb (adjacent (λ a b, negb (eq_str (p_key a) (p_key b))) profiles) then Err "InvalidCatalog"
    else
      let! profiles := canonical_profiles profiles in
      if active_listed (ct_active c) profiles then Ok (mkCatalog (ct_schema c) (ct_sequence c) (ct_active c) profiles)
      else Err "InvalidCatalog".

Definition canonical (c : Catalog) : res str :=
  let! c := normal c in
  let bytes := line c in
  if len bytes <=? CATALOG_LIMIT then Ok bytes else Err "CatalogTooLarge".

Definition with_sequence (c : Catalog) (sequence : Z) : Catalog :=
  mkCatalog (ct_schema c) sequence (ct_active c) (ct_profiles c).

Definition canonical_next (c : Catalog) : res str :=
  if u64_max <? ct_sequence c + 1 then Err "SequenceOverflow"
  else canonical (with_sequence c (ct_sequence c + 1)).

Definition token (bytes : option str) (sequence : Z) : StateToken :=
  match bytes with
  | Some bytes => mkToken CatalogV2 sequence (hex (sha256 (lit "zc.state-token.v1" ++ hash_bytes bytes)))
  | None => mkToken Missing sequence (hex (sha256 (lit "zc.state.missing.v1")))
  end.

(** ** Reading and replacing the catalog *)

Definition lock_state : SH unit := on_disk (context (Message "acquire catalog lock") (io (lock [] LOCK_NAME))).

Definition empty_catalog : Catalog := mkCatalog 2 0 None [].

(** [serde_json::from_slice] of a [Catalog]. *)
Definition parse_catalog (bytes : str) : option Catalog :=
  match from_slice bytes with
  | Some c => if forallb (λ p, match p_secret p with Some s => secret_ok s | None => true end) (ct_profiles c) then Some c else None
  | None => None
  end.

(** The catalog some bytes are. *)
Definition decode_catalog (bytes : str) : result StoreError Catalog :=
  let! doc := ok_or (value_of bytes) CorruptCatalog in
  let! schema := ok_or (get "schema_version" doc ≫= as_u64) CorruptCatalog in
  if schema =? 1 then Err LegacyTakeoverRequired
  else if negb (schema =? 2) then Err (UnknownFormat schema)
  else
    let! catalog := ok_or (parse_catalog bytes) CorruptCatalog in
    let! encoded := map_err (λ _, CorruptCatalog) (canonical catalog) in
    if eq_str encoded bytes then Ok catalog else Err CorruptCatalog.

Definition durability_uncertain : SH bool := λ h, (h, Ok (uncertain h)).

Definition inspect : SH Snapshot :=
  do! bytes := tried (on_disk (io (read [] CATALOG_NAME CATALOG_LIMIT))) in
  match bytes with
  | Ok bytes =>
      do! catalog := lifted (map_err Failed (decode_catalog bytes)) in
      do! uncertain := durability_uncertain in
      sret (mkSnapshot uncertain (token (Some bytes) (ct_sequence catalog)) catalog)
  | Err (Io NotFound) =>
      do! meta := on_disk (io (exists_ [] (lit "meta.json"))) in
      do! configs := (if meta then sret true else on_disk (io (exists_ [] (lit "configs")))) in
      if meta || configs then serr (Failed LegacyTakeoverRequired)
      else
        do! uncertain := durability_uncertain in
        sret (mkSnapshot uncertain (token None 0) empty_catalog)
  | Err _ => serr (Failed CorruptCatalog)
  end.

Fixpoint read_heads (profiles : list Profile) : SH unit :=
  match profiles with
  | [] => sret tt
  | p :: ps => do! _ := on_disk (read_bundle (p_key p) (p_head p)) in read_heads ps
  end.

Definition load_existing : SH Snapshot :=
  do! _ := lock_state in
  do! snapshot := inspect in
  do! _ := require (bool_decide (tk_format (sn_token snapshot) = CatalogV2)) (Failed CorruptCatalog) in
  do! _ := read_heads (ct_profiles (sn_catalog snapshot)) in
  sret snapshot.

(** [load]; taking over a legacy layout is the caller's. *)
Definition load (takeover : SH Snapshot) : SH Snapshot :=
  do! _ := lock_state in
  do! found := tried inspect in
  match found with
  | Ok snapshot => do! _ := read_heads (ct_profiles (sn_catalog snapshot)) in sret snapshot
  | Err (Failed LegacyTakeoverRequired) => takeover
  | Err e => serr e
  end.

Definition expected (token : StateToken) : SH Catalog :=
  do! snapshot := inspect in
  do! _ := require (bool_decide (sn_token snapshot = token)) (Failed Conflict) in
  sret (sn_catalog snapshot).

Definition mark_uncertain : SH unit := λ h, (mkHandle (disk h) true, Ok tt).

Definition commit (c : Catalog) : SH Receipt :=
  do! _ := on_disk (io (validate [] LOCK_NAME)) in
  do! _ := require (ct_sequence c + 1 <=? u64_max) (Message "SequenceOverflow") in
  let c := with_sequence c (ct_sequence c + 1) in
  do! bytes := given (canonical c) in
  do! error := on_disk (io (atomic_write [] CATALOG_NAME bytes)) in
  do! _ := (if is_some error then mark_uncertain else sret tt) in
  sret (mkReceipt (token (Some bytes) (ct_sequence c)) error).

(** ** Operations *)

Definition find_profile (key : str) (profiles : list Profile) : option (nat * Profile) :=
  list_find (λ p, p_key p = key) profiles.

Definition is_active (key : str) (c : Catalog) : bool := is_some_and (ct_active c) (λ a, eq_str (ac_key a) key).

Definition with_profiles (c : Catalog) (profiles : list Profile) : Catalog :=
  mkCatalog (ct_schema c) (ct_sequence c) (ct_active c) profiles.

Definition with_active (c : Catalog) (active : option ActiveIdentity) : Catalog :=
  mkCatalog (ct_schema c) (ct_sequence c) active (ct_profiles c).

(** Whether a document has a group with that name and that member. *)
Definition selectable (document : Value) (s : Selection) : bool :=
  existsb (λ group,
      is_some_and (get "name" group ≫= as_str) (eq_str (sl_group s))
      && is_some_and (get "proxies" group ≫= as_array)
           (existsb (λ member, is_some_and (as_str member) (eq_str (sl_proxy s)))))
    (mjoin (omap (λ k, get k document ≫= as_array) ["proxies"%string; "proxy-groups"%string])).

Definition retain_selections (document : Value) (d : Desired) : res Desired :=
  let kept := List.filter (selectable document) (de_selections d) in
  if len kept =? len (de_selections d) then Ok (mkDesired (de_generation d) kept)
  else if u64_max <? de_generation d + 1 then Err "GenerationOverflow"
  else Ok (mkDesired (de_generation d + 1) kept).

Definition sorted_metadata (meta : Metadata) : Metadata :=
  mkMetadata (md_url meta) (md_filename meta) (sort_by pm_key (md_params meta)).

(** The catalog a publication leads to, from the catalog that was read. *)
Definition published (c : Catalog) (key : str) (expected_head : option str) (b : Bundle) (meta : Metadata)
    (frozen : option FrozenOverride) (activate : bool) : result Error (Catalog * str * str) :=
  let index := find_profile key (ct_profiles c) in
  if negb (bool_decide ((λ ip, p_head (snd ip)) <$> index = expected_head)) then Err (Failed Conflict)
  else if negb (if is_some index then stored_key key else valid_key key) then Err (Message "InvalidKey")
  else
    let! r := map_err Message (catalog_ready b) in
    let active := activate || is_active key c in
    if negb (negb active || r) then Err (Failed ProfileNotRuntimeReady)
    else if negb (validate_metadata meta) then Err (Message "InvalidMetadata")
    else
      let! _ := map_err Message (validate_override b frozen) in
      let content := content_digest key b meta frozen in
      let revision := revision_id key content in
      let desired := match index with Some (_, p) => p_desired p | None => mkDesired 0 [] end in
      let! document := map_err Message (parse_document (effective_source b)) in
      let! desired := map_err Message (retain_selections document desired) in
      let secret := match index with Some (_, p) => p_secret p | None => None end in
      let profile := mkProfile key (storage_id key) revision desired secret in
      let profiles := match index with
                      | Some (i, _) => <[i := profile]> (ct_profiles c)
                      | None => ct_profiles c ++ [profile]
                      end in
      let c := with_profiles c profiles in
      Ok (if active then with_active c (Some (mkActive key revision)) else c, revision, content).

Definition publish_frozen (expected_token : StateToken) (key : str) (expected_head : option str) (b : Bundle)
    (meta : Metadata) (frozen : option FrozenOverride) (activate : bool) : SH Receipt :=
  do! _ := (if bool_decide (tk_format expected_token = Missing) then on_disk (io (lock [] CUTOVER_NAME)) else sret tt) in
  do! _ := lock_state in
  do! c := expected expected_token in
  let meta := sorted_metadata meta in
  do! next := lifted (published c key expected_head b meta frozen activate) in
  let '(c, revision, content) := next in
  do! _ := require (ct_sequence c <? u64_max) (Message "SequenceOverflow") in
  do! _ := given (canonical_next c) in
  do! _ := on_disk (publish_revision key revision content b meta frozen) in
  commit c.

Definition publish (expected_token : StateToken) (key : str) (expected_head : option str) (b : Bundle)
    (meta : Metadata) (activate : bool) : SH Receipt :=
  publish_frozen expected_token key expected_head b meta None activate.

Definition activate (expected_token : StateToken) (key : option str) : SH Receipt :=
  do! _ := require (bool_decide (tk_format expected_token = CatalogV2)) (Message "Schema2CatalogRequired") in
  do! _ := lock_state in
  do! c := expected expected_token in
  do! active :=
    match key with
    | Some key =>
        do! ip := found (find_profile key (ct_profiles c)) (Failed ProfileNotFound) in
        do! view := on_disk (read_bundle (p_key (snd ip)) (p_head (snd ip))) in
        do! r := given (catalog_ready (rv_bundle view)) in
        do! _ := require r (Failed ProfileNotRuntimeReady) in
        sret (Some (mkActive (p_key (snd ip)) (p_head (snd ip))))
    | None => sret None
    end in
  commit (with_active c active).

Definition delete (expected_token : StateToken) (key head : str) : SH Receipt :=
  do! _ := lock_state in
  do! c := expected expected_token in
  do! ip := found (find_profile key (ct_profiles c)) (Failed ProfileNotFound) in
  do! _ := require (eq_str (p_head (snd ip)) head) (Failed Conflict) in
  let c' := with_profiles c (base.delete (fst ip) (ct_profiles c)) in
  commit (if is_active key c then with_active c' None else c').

(** The catalog after a profile got another key. *)
Definition renamed (c : Catalog) (i : nat) (p : Profile) (new_key revision : str) : Catalog :=
  let c' := with_profiles c (<[i := mkProfile new_key (storage_id new_key) revision (p_desired p) (p_secret p)]> (ct_profiles c)) in
  if is_active (p_key p) c then with_active c' (Some (mkActive new_key revision)) else c'.

Definition rename (expected_token : StateToken) (key head new_key : str) : SH Receipt :=
  do! _ := require (valid_key new_key) (Message "InvalidKey") in
  do! _ := lock_state in
  do! c := expected expected_token in
  do! _ := require (negb (existsb (λ p, eq_str (p_key p) new_key) (ct_profiles c))) (Message "ProfileAlreadyExists") in
  do! ip := found (find_profile key (ct_profiles c)) (Failed ProfileNotFound) in
  do! _ := require (eq_str (p_head (snd ip)) head) (Failed Conflict) in
  do! view := on_disk (read_bundle key head) in
  let content := content_digest new_key (rv_bundle view) (rv_metadata view) (rv_frozen view) in
  let revision := revision_id new_key content in
  let c := renamed c (fst ip) (snd ip) new_key revision in
  do! _ := require (ct_sequence c <? u64_max) (Message "SequenceOverflow") in
  do! _ := given (canonical_next c) in
  do! _ := on_disk (publish_revision new_key revision content (rv_bundle view) (rv_metadata view) (rv_frozen view)) in
  commit c.

Definition with_secret (c : Catalog) (i : nat) (p : Profile) (secret : str) : Catalog :=
  with_profiles c (<[i := mkProfile (p_key p) (p_storage p) (p_head p) (p_desired p) (Some secret)]> (ct_profiles c)).

Definition unconfirmed : Error := Message "automatic controller secret durability unconfirmed".

Definition ensure_auto_controller_secret (expected_token : StateToken) (key head : str) : SH str :=
  do! _ := lock_state in
  do! c := expected expected_token in
  do! ip := found (find_profile key (ct_profiles c)) (Failed ProfileNotFound) in
  do! _ := require (eq_str (p_head (snd ip)) head) (Failed Conflict) in
  do! _ := on_disk (read_bundle key head) in
  match p_secret (snd ip) with
  | Some secret =>
      do! _ := on_disk (io (validate [] LOCK_NAME)) in
      do! _ := on_disk (context unconfirmed (io sync)) in
      sret secret
  | None =>
      do! bytes := on_disk (io (getrandom 32)) in
      let secret := hex bytes in
      do! receipt := commit (with_secret c (fst ip) (snd ip) secret) in
      match rc_error receipt with
      | Some error => serr unconfirmed
      | None => sret secret
      end
  end.

Definition with_desired (c : Catalog) (i : nat) (p : Profile) (d : Desired) : Catalog :=
  with_profiles c (<[i := mkProfile (p_key p) (p_storage p) (p_head p) d (p_secret p)]> (ct_profiles c)).

Definition select (expected_token : StateToken) (key head : str) (generation : Z) (selections : list Selection) : SH Receipt :=
  do! selections := given (validate_selections selections) in
  do! _ := lock_state in
  do! c := expected expected_token in
  do! ip := found (find_profile key (ct_profiles c)) (Failed ProfileNotFound) in
  do! _ := require (eq_str (p_head (snd ip)) head && (de_generation (p_desired (snd ip)) =? generation)) (Failed Conflict) in
  do! _ := on_disk (read_bundle key head) in
  do! _ := require (generation + 1 <=? u64_max) (Message "GenerationOverflow") in
  commit (with_desired c (fst ip) (snd ip) (mkDesired (generation + 1) selections)).

End Catalogs.

End Store.
