(* ===== verification/CatalogFacts.v ===== *)
(** * The canonical form of the catalog

    A catalog has one encoding: what [canonical] writes is what [decode_catalog] accepts, and
    it has the profiles of the catalog it was made from, sorted by key. The module
    [BundleFacts]: what [Bundle::from_memory] accepts can be stored. *)
From S2P Require Import Prelude Utf8 BTree Json Disk DiskFacts Bundle Revision Store.

Module CatalogFacts.
Import Disk Bundle Revision Store.

(** ** Sorting by a key *)

Section Sort.
Context {A : Type} (key : A → str).

Definition increasing (l : list A) : Prop := StronglySorted (λ a b, str_ltb a b = true) (key <$> l).

Lemma insert_by_perm a l : insert_by key a l ≡ₚ a :: l.
Proof. induction l as [|b l IH]; simpl; [done|]. destruct (str_ltb (key b) (key a)); [|done]. rewrite IH. apply perm_swap. Qed.

Lemma sort_by_perm l : sort_by key l ≡ₚ l.
Proof. induction l as [|a l IH]; simpl; [done|]. by rewrite insert_by_perm, IH. Qed.

Lemma increasing_cons a l : increasing (a :: l) → increasing l ∧ ∀ b, b ∈ l → str_ltb (key a) (key b) = true.
Proof.
  intros H. inversion H as [|? ? Hs Hf]; subst. split; [done|]. intros b Hb. rewrite Forall_forall in Hf.
  apply Hf, list_elem_of_fmap. by exists b.
Qed.

Lemma increasing_nodup l : increasing l → NoDup (key <$> l).
Proof.
  induction l as [|a l IH]; intros H; [constructor|]. apply increasing_cons in H as [H Ha]. constructor; [|by apply IH].
  intros Hin. apply list_elem_of_fmap in Hin as (b & E & Hb). specialize (Ha b Hb). by rewrite E, str_ltb_irrefl in Ha.
Qed.

(** A list in strict order is left alone. *)
Lemma sort_by_id l : increasing l → sort_by key l = l.
Proof.
  induction l as [|a l IH]; intros H; [done|]. apply increasing_cons in H as [H Ha]. simpl. rewrite IH by done.
  destruct l as [|b l]; [done|]. simpl. specialize (Ha b ltac:(left)). destruct (str_ltb (key b) (key a)) eqn:E; [|done].
  pose proof (str_ltb_trans _ _ _ Ha E) as Hx. by rewrite str_ltb_irrefl in Hx.
Qed.

(** In ascending order, equal keys next to each other. *)
Definition ascending (l : list A) : Prop := StronglySorted (λ a b, str_ltb (key b) (key a) = false) l.

Lemma str_leb_trans (a b c : str) : str_ltb b a = false → str_ltb c b = false → str_ltb c a = false.
Proof.
  intros H1 H2. destruct (str_ltb c a) eqn:E; [|done]. destruct (decide (b = c)) as [->|Hne]; [congruence|].
  pose proof (str_ltb_total c b ltac:(congruence) H2) as H3. rewrite (str_ltb_trans _ _ _ H3 E) in H1. done.
Qed.

Lemma insert_by_ascending a l : ascending l → ascending (insert_by key a l).
Proof.
  induction 1 as [|b l Hl IH Hf]; simpl; [repeat constructor|]. destruct (str_ltb (key b) (key a)) eqn:E.
  - constructor; [done|]. rewrite Forall_forall in *. intros c Hc. rewrite insert_by_perm in Hc. apply elem_of_cons in Hc as [->|Hc]; [|by apply Hf].
    destruct (str_ltb (key a) (key b)) eqn:E'; [|done]. pose proof (str_ltb_trans _ _ _ E E') as Hx. by rewrite str_ltb_irrefl in Hx.
  - constructor; [by constructor|]. constructor; [done|]. rewrite Forall_forall in *. intros c Hc. specialize (Hf c Hc). simpl in Hf.
    by eapply str_leb_trans.
Qed.

Lemma sort_by_ascending l : ascending (sort_by key l).
Proof. induction l as [|a l IH]; simpl; [constructor|]. by apply insert_by_ascending. Qed.

Lemma ascending_distinct l : ascending l → adjacent (λ a b, negb (eq_str (key a) (key b))) l = true → increasing l.
Proof.
  intros Hl Hd. apply Sorted_StronglySorted; [intros a b c; apply str_ltb_trans|].
  induction Hl as [|a l Hl IH Hf]; [constructor|]. destruct l as [|b l]; [repeat constructor|].
  simpl in Hd. apply andb_true_iff in Hd as [H1 H2]. apply Forall_cons in Hf as [Hf _]. constructor; [by apply IH|]. constructor. simpl.
  apply negb_true_iff, eq_str_false in H1. apply str_ltb_total; [congruence|done].
Qed.

Lemma sort_by_increasing l : adjacent (λ a b, negb (eq_str (key a) (key b))) (sort_by key l) = true → increasing (sort_by key l).
Proof. apply ascending_distinct, sort_by_ascending. Qed.

Lemma increasing_distinct l : increasing l → adjacent (λ a b, negb (eq_str (key a) (key b))) l = true.
Proof.
  induction l as [|a l IH]; [done|]. intros H. apply increasing_cons in H as [H Ha]. destruct l as [|b l]; [done|].
  cbn. apply andb_true_iff. split; [|by apply IH]. apply negb_true_iff, eq_str_false. intros E. specialize (Ha b ltac:(left)).
  by rewrite E, str_ltb_irrefl in Ha.
Qed.

End Sort.

Lemma validate_selections_id l l' : validate_selections l = Ok l' → validate_selections l' = Ok l'.
Proof.
  unfold validate_selections. destruct (1024 <? len l) eqn:E; [done|]. destruct (_ && _) eqn:Ec; [|done]. intros [= <-].
  apply andb_true_iff in Ec as [H1 H2]. pose proof (sort_by_increasing _ _ H2) as Hi. rewrite (sort_by_id _ _ Hi), H1, H2. simpl.
  unfold len in *. by rewrite (Permutation_length (sort_by_perm sl_group l)), E.
Qed.

(** ** Catalogs *)

Section Catalogs.
Context `{HS : Sha256, HI : Serde Identity, HM : Serde Manifest, HC : Serde Catalog, HJ : !CatalogJson, HP : Parsers}.

(** A profile with its selections in order. *)
Definition ordered (p p' : Profile) : Prop := ∃ selections, validate_selections (de_selections (p_desired p)) = Ok selections ∧
  p' = mkProfile (p_key p) (p_storage p) (p_head p) (mkDesired (de_generation (p_desired p)) selections) (p_secret p).

Definition profile_ok (p : Profile) : Prop :=
  stored_key (p_key p) = true ∧ p_storage p = storage_id (p_key p) ∧ is_hex (p_head p) 16 = true ∧
  validate_selections (de_selections (p_desired p)) = Ok (de_selections (p_desired p)).

Lemma canonical_profiles_inv l l' : canonical_profiles l = Ok l' → Forall2 ordered l l' ∧ Forall profile_ok l'.
Proof.
  revert l'. induction l as [|p l IH]; intros l' H; simpl in H; [by injection H as <-|].
  destruct (stored_key (p_key p)) eqn:E1; [|done]. destruct (eq_str (p_storage p) _) eqn:E2; [|done]. simpl in H.
  destruct (is_hex (p_head p) 16) eqn:E3; [|done]. simpl in H.
  destruct (validate_selections _) as [s|] eqn:E4; [|done]. simpl in H. destruct (canonical_profiles l) as [ps|]; [|done].
  injection H as <-. destruct (IH ps eq_refl) as [H1 H2]. split; constructor; try done; [by exists s|].
  apply eq_str_true in E2. unfold profile_ok. simpl. by rewrite (validate_selections_id _ _ E4).
Qed.

Lemma canonical_profiles_id l : Forall profile_ok l → canonical_profiles l = Ok l.
Proof.
  induction 1 as [|p l (H1 & H2 & H3 & H4) Hl IH]; simpl; [done|]. rewrite H1, H3, H2, eq_str_refl. simpl. rewrite H4. simpl. rewrite IH. simpl.
  by destruct p as [k st h [g se] sec]; simpl in *; subst.
Qed.

Lemma ordered_keys l l' : Forall2 ordered l l' → p_key <$> l' = p_key <$> l.
Proof. induction 1 as [|p p' l l' (s & _ & ->) _ IH]; [done|]. rewrite !fmap_cons, IH. done. Qed.

Record normalized (c c' : Catalog) : Prop := {
  nz_schema : ct_schema c = 2;
  nz_schema' : ct_schema c' = 2;
  nz_sequence : ct_sequence c' = ct_sequence c;
  nz_active : ct_active c' = ct_active c;
  nz_profiles : Forall2 ordered (sort_by p_key (ct_profiles c)) (ct_profiles c');
  nz_ok : Forall profile_ok (ct_profiles c');
  nz_order : increasing p_key (ct_profiles c');
  nz_listed : active_listed (ct_active c') (ct_profiles c') = true;
}.

Lemma normal_inv c c' : normal c = Ok c' → normalized c c'.
Proof.
  unfold normal. destruct (ct_schema c =? 2) eqn:E1; [|done]. apply Z.eqb_eq in E1. cbn [negb].
  destruct (adjacent _ _) eqn:E2; [|done]. cbn [negb]. destruct (canonical_profiles _) as [ps|] eqn:E3; [|done]. simpl.
  destruct (active_listed _ _) eqn:E4; [|done]. intros [= <-]. apply canonical_profiles_inv in E3 as [H1 H2].
  constructor; try done. unfold increasing. cbn [ct_profiles]. rewrite (ordered_keys _ _ H1). by apply (sort_by_increasing p_key).
Qed.

(** The canonical form of a canonical form is itself. *)
Lemma normal_id c c' : normal c = Ok c' → normal c' = Ok c'.
Proof.
  intros H. apply normal_inv in H as [_ H1 _ _ _ H2 H3 H4]. unfold normal. rewrite H1. simpl.
  rewrite (sort_by_id _ _ H3), (increasing_distinct _ _ H3). simpl. rewrite (canonical_profiles_id _ H2). simpl. rewrite H4. destruct c'. simpl in *. by subst.
Qed.

Definition secrets_ok (l : list Profile) : Prop := ∀ p s, p ∈ l → p_secret p = Some s → secret_ok s = true.

Lemma normalized_profile c c' p' : normalized c c' → p' ∈ ct_profiles c' → ∃ p, p ∈ ct_profiles c ∧ ordered p p'.
Proof.
  intros Hn Hp. apply list_elem_of_lookup in Hp as [i Hi]. destruct (Forall2_lookup_r _ _ _ _ _ (nz_profiles _ _ Hn) Hi) as (p & Hp & Ho).
  exists p. split; [|done]. rewrite <- (sort_by_perm p_key). by eapply list_elem_of_lookup_2.
Qed.

Lemma normalized_profile' c c' p : normalized c c' → p ∈ ct_profiles c → ∃ p', p' ∈ ct_profiles c' ∧ ordered p p'.
Proof.
  intros Hn Hp. rewrite <- (sort_by_perm p_key) in Hp. apply list_elem_of_lookup in Hp as [i Hi].
  destruct (Forall2_lookup_l _ _ _ _ _ (nz_profiles _ _ Hn) Hi) as (p' & Hp & Ho). exists p'. split; [|done]. by eapply list_elem_of_lookup_2.
Qed.

Lemma parse_catalog_line c : secrets_ok (ct_profiles c) → parse_catalog (line c) = Some c.
Proof.
  intros Hs. unfold parse_catalog, line. rewrite from_slice_line. assert (forallb _ (ct_profiles c) = true) as ->; [|done].
  apply forallb_forall. intros p Hp. destruct (p_secret p) as [s|] eqn:E; [|done]. by apply (Hs p); [apply list_elem_of_In|].
Qed.

(** What [canonical] writes is read back. *)
Lemma decode_canonical c bytes : canonical c = Ok bytes → secrets_ok (ct_profiles c) →
  ∃ c', normalized c c' ∧ bytes = line c' ∧ len bytes ≤ CATALOG_LIMIT ∧ decode_catalog bytes = Ok c'.
Proof.
  unfold canonical. destruct (normal c) as [c'|] eqn:En; [|done]. simpl. destruct (len (line c') <=? CATALOG_LIMIT) eqn:El; [|done].
  intros [= <-] Hs. pose proof (normal_inv _ _ En) as Hn. exists c'. split; [done|]. split; [done|]. apply Z.leb_le in El as Hl. split; [done|].
  assert (secrets_ok (ct_profiles c')) as Hs'.
  { intros p' s Hp He. destruct (normalized_profile _ _ _ Hn Hp) as (p & Hin & sel & _ & ->). by apply (Hs p). }
  unfold decode_catalog. pose proof (value_schema c' (nz_schema' _ _ Hn)) as Hv. destruct (value_of (line c')) as [doc|]; [|done].
  simpl in *. rewrite Hv. simpl. rewrite (parse_catalog_line _ Hs'). simpl. unfold canonical. rewrite (normal_id _ _ En). simpl. rewrite El. simpl.
  by rewrite eq_str_refl.
Qed.

(** A catalog that was read is in canonical form. *)
Lemma decode_inv bytes c : decode_catalog bytes = Ok c → bytes = line c ∧ normalized c c ∧ secrets_ok (ct_profiles c).
Proof.
  unfold decode_catalog. destruct (value_of bytes) as [doc|]; [|done]. simpl. destruct (get _ doc ≫= as_u64) as [n|]; [|done]. simpl.
  destruct (n =? 1); [done|]. destruct (n =? 2); [|done]. simpl. unfold parse_catalog. destruct (from_slice bytes) as [c0|] eqn:Ef; [|done].
  destruct (forallb _ (ct_profiles c0)) eqn:Es; [|done]. simpl. unfold canonical. destruct (normal c0) as [c1|] eqn:En; [|done]. simpl.
  destruct (len (line c1) <=? CATALOG_LIMIT); [|done]. simpl. destruct (eq_str _ bytes) eqn:Eb; [|done]. intros [= <-].
  apply eq_str_true in Eb as <-. unfold line in Ef. rewrite from_slice_line in Ef. injection Ef as ->. split; [done|]. split; [by apply normal_inv|].
  intros p s Hp He. rewrite forallb_forall in Es. apply list_elem_of_In, Es in Hp. by rewrite He in Hp.
Qed.

End Catalogs.

End CatalogFacts.

(** * Captured profiles are within the limits

    What [Bundle::from_memory] accepts can be stored: the limits that reading a revision
    checks hold of it. *)
From S2P Require Import RevisionFacts RevisionRead.

Module BundleFacts.
Import Bundle RevisionFacts CatalogFacts.

Section Sorting.
Context {A : Type} (key : A → str).

Lemma ascending_nodup l : ascending key l → NoDup (key <$> l) → increasing key l.
Proof.
  intros Hl Hnd. apply Sorted_StronglySorted; [intros a b c; apply str_ltb_trans|].
  induction Hl as [|a l Hl IH Hf]; [constructor|]. rewrite fmap_cons, NoDup_cons in Hnd. destruct Hnd as [Ha Hnd].
  destruct l as [|b l]; [repeat constructor|]. apply Forall_cons in Hf as [Hf _]. constructor; [by apply IH|]. constructor. simpl.
  apply str_ltb_total; [|done]. intros E. apply Ha. rewrite fmap_cons, <- E. left.
Qed.

Lemma increasing_adjacent l : increasing key l → adjacent (λ a b, str_ltb (key a) (key b)) l = true.
Proof.
  induction l as [|a l IH]; [done|]. intros H. apply increasing_cons in H as [H Ha]. destruct l as [|b l]; [done|].
  cbn. apply andb_true_iff. split; [apply Ha; left|by apply IH].
Qed.

Lemma sort_by_adjacent l : NoDup (key <$> l) → adjacent (λ a b, str_ltb (key a) (key b)) (sort_by key l) = true.
Proof.
  intros Hnd. apply increasing_adjacent, ascending_nodup; [apply sort_by_ascending|]. by rewrite (sort_by_perm key l).
Qed.

End Sorting.

Lemma binsert_grows {A} k (a : A) m : (length (binsert k a m) ≤ Datatypes.S (length m))%nat.
Proof. induction m as [|[k' a'] m IH]; simpl; [lia|]. destruct (eq_str k k'); simpl; [lia|]. destruct (str_ltb k k'); simpl; lia. Qed.

Lemma refs_of_inv ps : ∀ local remote local' remote', refs_of ps local remote = Ok (local', remote') → bmap_wf local →
  bmap_wf local' ∧ ∃ new, remote' = remote ++ new ∧ forallb rm_deferred new = true ∧ (rm_name <$> new) `sublist_of` (fst <$> ps) ∧
    (length local' + length new ≤ length local + length ps)%nat.
Proof.
  induction ps as [|[name provider] ps IH]; intros local remote local' remote' H Hw.
  { injection H as <- <-. split; [done|]. exists []. rewrite app_nil_r. simpl. split_and!; [done|done|done|lia]. }
  cbn [refs_of] in H. destruct (ok_or _ _) as [path|]; [|done]. cbn in H. destruct (is_some_and _ _).
  - apply IH in H as (H1 & new & -> & H2 & H3 & H4); [|done]. split; [done|]. exists (mkRemote name path true :: new).
    rewrite <- app_assoc. simpl. split_and!; [done|done|by apply sublist_skip|lia].
  - apply IH in H as (H1 & new & -> & H2 & H3 & H4); [|by apply binsert_wf]. split; [done|]. exists new. simpl.
    pose proof (binsert_grows path tt local). split_and!; [done|done|by apply sublist_cons|lia].
Qed.

Lemma capture_assets_inv available paths : ∀ total acc assets, capture_assets paths available total acc = Ok assets →
  StronglySorted (λ a b, str_ltb a b = true) (keys acc ++ paths) → total ≤ AGGREGATE_LIMIT →
  ∃ m, assets = acc ++ m ∧ keys m = paths ∧ total + sizes m ≤ AGGREGATE_LIMIT ∧
    ∀ k a, (k, a) ∈ m → bget k available = Some a ∧ len (as_bytes a) ≤ FILE_LIMIT.
Proof.
  induction paths as [|path paths IH]; intros total acc assets H Hs Ht.
  { injection H as <-. exists []. rewrite app_nil_r. split_and!; [done|done|unfold sizes; simpl; lia|]. intros k a Hka. by apply not_elem_of_nil in Hka. }
  cbn [capture_assets] in H. destruct (bget path available) as [a|] eqn:Ea; [|done]. cbn in H.
  destruct (FILE_LIMIT <? len (as_bytes a)) eqn:E1; [done|]. destruct (AGGREGATE_LIMIT <? total + len (as_bytes a)) eqn:E2; [done|].
  apply Z.ltb_ge in E1, E2. replace (path :: paths) with ([path] ++ paths) in Hs by done. rewrite app_assoc in Hs.
  assert (keys acc ++ [path] = keys (acc ++ [(path, a)])) as Hk by (unfold keys; by rewrite fmap_app). rewrite Hk in Hs.
  assert (binsert path a acc = acc ++ [(path, a)]) as Eb by (apply binsert_last; unfold bmap_wf; by eapply StronglySorted_app_1_l).
  rewrite Eb in H. apply IH in H as (m & -> & <- & Hm & Hall); [|done|done]. exists ((path, a) :: m). rewrite <- app_assoc. split_and!; [done|done| |].
  - unfold sizes in *. simpl. lia.
  - intros k b Hkb. apply elem_of_cons in Hkb as [[= -> ->]|Hkb]; [done|by apply Hall].
Qed.

(** The providers of a document have distinct names, as the keys of an object. *)
Definition distinct_providers (document : Value) : Prop :=
  ∀ providers, get "rule-providers" document ≫= as_object = Some providers → NoDup (fst <$> providers).

Lemma provider_refs_inv document paths remotes : provider_refs document = Ok (paths, remotes) → distinct_providers document →
  StronglySorted (λ a b, str_ltb a b = true) paths ∧ (length paths + length remotes ≤ 4096)%nat ∧ forallb rm_deferred remotes = true ∧
  adjacent (λ a b, str_ltb (rm_name a) (rm_name b)) remotes = true.
Proof.
  unfold provider_refs, distinct_providers. destruct (get _ document) as [value|]; [|intros [= <- <-] _; split_and!; [constructor|simpl; lia|done|done]].
  simpl. destruct (as_object value) as [ps|]; [|done]. cbn. destruct (4096 <? len ps) eqn:El; [done|]. apply Z.ltb_ge in El.
  destruct (refs_of ps [] []) as [[local remote]|] eqn:Er; [|done]. cbn. intros [= <- <-] Hnd. specialize (Hnd ps eq_refl).
  apply refs_of_inv in Er as (H1 & new & -> & H2 & H3 & H4); [|constructor]. simpl in *. split_and!.
  - exact H1.
  - unfold keys. rewrite length_fmap, (Permutation_length (sort_by_perm rm_name new)). unfold len in El. lia.
  - apply forallb_forall. intros r Hr. apply list_elem_of_In in Hr. rewrite (sort_by_perm rm_name new) in Hr. rewrite forallb_forall in H2.
    by apply H2, list_elem_of_In.
  - apply sort_by_adjacent. by eapply sublist_NoDup.
Qed.

Section Capture.
Context `{HP : Parsers}.

(** What is captured can be stored. A bundle that [from_memory] returns holds the given
    bytes and, for each local provider of the document, the given file; it is within every
    limit that reading a revision checks, its files and remote providers in strict order. *)
Theorem from_memory_wf source materialized available b :
  (∀ document, parse_document (default source materialized) = Ok document → distinct_providers document) →
  from_memory source materialized available = Ok b →
  bundle_wf b ∧ b_source b = source ∧ b_materialized b = materialized ∧
  ∀ k a, (k, a) ∈ b_assets b → bget k available = Some a.
Proof.
  intros Hdoc H. unfold from_memory, capture_memory in H. destruct (FILE_LIMIT <? len source) eqn:E1; [done|].
  destruct (is_some_and materialized _) eqn:E2; [done|]. cbn [orb] in H. apply Z.ltb_ge in E1.
  destruct (parse_document _) as [document|] eqn:Ed; [|done]. cbn in H. destruct (provider_refs document) as [[paths remotes]|] eqn:Er; [|done].
  cbn in H. destruct (capture_assets _ _ _ _) as [assets|] eqn:Ea; [|done]. cbn in H. destruct (catalog_ready _) as [ready|]; [|done]. injection H as <-.
  apply provider_refs_inv in Er as (R1 & R2 & R3 & R4); [|by apply Hdoc].
  assert (∀ m, materialized = Some m → len m ≤ FILE_LIMIT) as Hm by (intros m ->; by apply Z.ltb_ge).
  assert (len source + option_len materialized ≤ AGGREGATE_LIMIT) as Ht.
  { assert (FILE_LIMIT + FILE_LIMIT ≤ AGGREGATE_LIMIT) by (vm_compute; done). assert (0 ≤ FILE_LIMIT) by (vm_compute; done).
    unfold option_len. destruct materialized as [m|]; [specialize (Hm m eq_refl)|]; lia. }
  apply (capture_assets_inv _ _ _ []) in Ea as (l & -> & <- & Hl & Hall); [|done|done]. simpl.
  split; [|split_and!; [done|done|]; intros k a Hka; by apply Hall]. constructor; cbn [b_source b_materialized b_assets b_remotes]; try done.
  - intros k a Hka. by apply (Hall k).
  - unfold len, keys in *. rewrite length_fmap in R2. lia.
  - unfold len. unfold len in R2. lia.
Qed.

End Capture.

(** A document with a local and a remote provider. *)
Definition sample_provider (path : string) (url : list (str * Value)) : Value :=
  VObject ([(lit "type", VString (lit "http")); (lit "behavior", VString (lit "domain")); (lit "path", VString (lit path))] ++ url).

Definition sample_document : Value :=
  VObject [(lit "rule-providers", VObject
    [(lit "ads", sample_provider "ads.txt" []);
     (lit "cn", sample_provider "cn.txt" [(lit "url", VString (lit "https://example.com/cn.txt"))])])].

Definition sample_parsers : Parsers :=
  {| parse_doc _ := Ok sample_document; url_parse _ := Some (lit "https", Some (lit "example.com"));
     runtime_source s := Ok s; parse_config _ _ := Ok tt; value_vec _ := [] |}.

Definition sample_files : bmap Asset := [(lit "ads.txt", mkAsset (lit "ads.txt") (lit "ads.example"))].

Definition sample_bundle : Bundle :=
  mkBundle (lit "rule-providers: ...") None sample_files [mkRemote (lit "cn") (lit "cn.txt") true].

Lemma from_memory_wf_witness :
  bundle_wf sample_bundle ∧ b_source sample_bundle = lit "rule-providers: ..." ∧ b_materialized sample_bundle = None ∧
  ∀ k a, (k, a) ∈ b_assets sample_bundle → bget k sample_files = Some a.
Proof.
  apply (from_memory_wf (HP := sample_parsers) (lit "rule-providers: ...") None sample_files sample_bundle); [|vm_compute; reflexivity].
  intros document Hd ps Hps. injection Hd as <-. vm_compute in Hps. injection Hps as <-. apply (bool_decide_eq_true_1 _). vm_compute. reflexivity.
Defined.

End BundleFacts.
