(* ===== verification/StoreFacts.v ===== *)
(** * The catalog changes in one step

    Every operation of the store, whatever fails and wherever the process dies in it, leaves
    the catalog as it was or replaces it with the next one, and leaves every revision that
    could be read as it was. *)
From S2P Require Import Prelude Utf8 BTree Json Disk DiskFacts Bundle Revision RevisionFacts RevisionRead Store CatalogFacts.

Module StoreFacts.
Import Disk DiskFacts Bundle Revision RevisionFacts RevisionRead Store CatalogFacts.

(** ** Steps before the commit *)

(** Names that only a publication uses. *)
Definition reserved (n : str) : Prop := is_hex n 16 = true ∨ ∃ s, n = lit ".staging-" ++ s.

Definition legacy (n : str) : Prop := n ∈ legacy_names.

Abbreviation Root h := (root (disk h)).

Record quiet (h h' : Handle) : Prop := {
  qt_stable : stable sealed kept (Root h) (Root h');
  qt_unused : unused reserved (Root h) (Root h');
  qt_random : random (disk h') `suffix_of` random (disk h);
}.

#[export] Instance quiet_preorder : PreOrder quiet.
Proof.
  split.
  - intros h. split; [done|by intros p n|done].
  - intros h1 h2 h3 [A1 A2 A3] [B1 B2 B3]. split; [by etrans| |by etrans]. intros p n Hn Hx. auto.
Qed.

(** What the random supply must be: bytes, and names that are not in use. *)
Definition supply_ok (d : Disk) : Prop := fresh_names d ∧ ∀ s, s ∈ random d → Forall is_byte s.

Lemma quiet_supply h h' : quiet h h' → supply_ok (disk h) → supply_ok (disk h').
Proof.
  intros [H1 H2 [l H3]] [Hf Hb]. split.
  - intros s p Hs. apply H2; [right; by eexists|]. apply Hf. rewrite H3. apply elem_of_app. by right.
  - intros s Hs. apply Hb. rewrite H3. apply elem_of_app. by right.
Qed.

Definition prep {A} (h : Handle) (m : SH A) (Q : A → Handle → Prop) : Prop :=
  let '(h', r) := m h in quiet h h' ∧ ∀ a, r = Ok a → Q a h'.

Lemma prep_bind {A B} h (m : SH A) (k : A → SH B) Q R :
  prep h m Q → (∀ a h', quiet h h' → Q a h' → prep h' (k a) R) → prep h (sbind m k) R.
Proof.
  unfold prep, sbind. intros Hm Hk. destruct (m h) as [h1 [a|e]]; [|by destruct Hm]. destruct Hm as [H1 HQ].
  specialize (Hk a h1 H1 (HQ a eq_refl)). destruct (k a h1) as [h2 r]. destruct Hk as [H2 HR]. split; [by etrans|done].
Qed.

Lemma prep_lifted {A} h (r : result Error A) : prep h (lifted r) (λ a h', h' = h ∧ r = Ok a).
Proof. unfold prep, lifted. split; [done|]. by intros a ->. Qed.

Lemma prep_ret {A} h (a : A) : prep h (sret a) (λ b h', h' = h ∧ b = a).
Proof. unfold prep, sret. split; [done|]. by intros b [= ->]. Qed.

Lemma prep_err {A} h e (Q : A → Handle → Prop) : prep h (serr e) Q.
Proof. unfold prep, serr. by split. Qed.

Lemma prep_require h c e : prep h (require c e) (λ _ h', h' = h ∧ c = true).
Proof. destruct c; [|apply prep_err]. unfold prep, require, sret. by split. Qed.

Lemma prep_mono {A} h (m : SH A) (Q Q' : A → Handle → Prop) : prep h m Q → (∀ a h', Q a h' → Q' a h') → prep h m Q'.
Proof. unfold prep. intros Hm HQ. destruct (m h) as [h' r]. destruct Hm as [H1 H2]. split; [done|]. auto. Qed.

Lemma prep_disk {A} h (m : SM A) (Q : A → Node → Prop) : tidy reserved m → safe sealed kept (eq (Root h)) m (ok Q) →
  prep h (on_disk m) (λ a h', Q a (Root h') ∧ uncertain h' = uncertain h).
Proof.
  unfold prep, on_disk. intros Ht Hs. destruct (Ht (disk h)) as [H1 H2]. specialize (Hs (disk h) eq_refl).
  destruct (m (disk h)) as [d r]. destruct Hs as [H3 H4]. split; [by split|]. intros a Ha. split; [by apply H4|done].
Qed.

Lemma tidy_context {A} fresh e (m : SM A) : tidy fresh m → tidy fresh (context e m).
Proof. intros Hm d. specialize (Hm d). unfold context. by destruct (m d). Qed.

Lemma safe_context {A} x e (m : SM A) (Q : A → Node → Prop) : safe sealed kept (eq x) m (ok Q) → safe sealed kept (eq x) (context e m) (ok Q).
Proof.
  intros Hm d Hd. specialize (Hm d Hd). unfold context. destruct (m d) as [d' r]. destruct Hm as [H1 H2]. split; [done|].
  intros a. destruct r; [|done]. intros [= <-]. by apply H2.
Qed.

(** *** Reading is quiet *)

Lemma tidy_open fresh dir n : tidy fresh (child dir n false).
Proof.
  apply tidy_bind; [apply tidy_component|]. intros _. apply tidy_bind; [apply tidy_ret|]. intros _. apply tidy_look.
  intros t t' a. destruct (t !! n) as [[]|]; congruence.
Qed.

Lemma tidy_ensure fresh c e : tidy fresh (ensure c e).
Proof. destruct c; [apply tidy_ret|apply tidy_err]. Qed.

Ltac tidy_tac :=
  repeat (match goal with
  | |- tidy _ (sbind _ _) => apply tidy_bind; [|intros ?]
  | |- tidy _ (io _) => apply tidy_io
  | |- tidy _ (ensure _ _) => apply tidy_ensure
  | |- tidy _ (sret _) => apply tidy_ret
  | |- tidy _ (serr _) => apply tidy_err
  | |- tidy _ (lifted _) => apply tidy_lifted
  | |- tidy _ (checked _) => apply tidy_lifted
  | |- tidy _ (child _ _ false) => apply tidy_open
  | |- tidy _ (read _ _ _) => apply tidy_read
  | |- tidy _ (exists_ _ _) => apply tidy_exists
  | |- tidy _ (verify_identity _ _) => apply tidy_identity
  | |- tidy _ (match ?x with _ => _ end) => destruct x
  end).

Section Store.
Context `{HS : Sha256, HI : Serde Identity, HM : Serde Manifest, HC : Serde Catalog, HJ : !CatalogJson, HP : Parsers}.

Lemma tidy_assets fresh objects limit das : ∀ total assets, tidy fresh (read_assets objects limit das total assets).
Proof. induction das as [|a das IH]; intros total assets; cbn [read_assets]; unfold read_content; tidy_tac. apply IH. Qed.

Lemma tidy_bundle fresh key rev : tidy fresh (read_bundle key rev).
Proof.
  apply tidy_context. unfold read_revision, profile_dir, read_content, read_materialized, read_override, read_content. tidy_tac.
  apply tidy_assets.
Qed.

Lemma prep_read_bundle h key rev :
  prep h (on_disk (read_bundle key rev)) (λ v h', Root h' = Root h ∧ uncertain h' = uncertain h ∧
    read_bundle key rev (still (Root h)) = (still (Root h), Ok v)).
Proof.
  eapply prep_mono; [apply prep_disk; [apply tidy_bundle|apply safe_reads, reads_bundle]|]. intros v h' [[H1 H2] H3]. done.
Qed.

Lemma not_reserved_lit (m : string) : negb (is_hex (lit m) 16) && negb (starts_with (lit ".staging-") (lit m)) = true → ¬ reserved (lit m).
Proof.
  rewrite andb_true_iff, !negb_true_iff. intros [H1 H2] [H|[s E]]; [congruence|]. unfold starts_with in H2. by rewrite E, strip_prefix_app in H2.
Qed.

Lemma not_kept_lit (m : string) : negb (eq_str (lit m) CATALOG) && negb (bool_decide (lit m ∈ legacy_names)) = true → ¬ kept (lit m).
Proof.
  rewrite andb_true_iff, !negb_true_iff. intros [H1 H2] [H|H]; [by apply eq_str_false in H1|].
  by apply bool_decide_eq_false in H2.
Qed.

Lemma prep_lock h (m : string) : negb (is_hex (lit m) 16) && negb (starts_with (lit ".staging-") (lit m)) = true →
  negb (eq_str (lit m) CATALOG) && negb (bool_decide (lit m ∈ legacy_names)) = true →
  prep h (on_disk (io (lock [] (lit m)))) (λ _ h', uncertain h' = uncertain h).
Proof.
  intros H1 H2. eapply prep_mono; [apply (prep_disk _ _ (λ _ _, True))|by intros [] h' [_ ?]].
  - apply tidy_io, tidy_lock. by apply not_reserved_lit.
  - apply safe_io, safe_lock; [apply unsealed_root|]. intros _. by apply not_kept_lit.
Qed.

Lemma prep_lock_state h : prep h lock_state (λ _ h', uncertain h' = uncertain h).
Proof.
  eapply prep_mono; [apply (prep_disk _ _ (λ _ _, True))|by intros [] h' [_ ?]].
  - apply tidy_context, tidy_io, tidy_lock. by apply not_reserved_lit.
  - apply safe_context, safe_io, safe_lock; [apply unsealed_root|]. intros _. by apply not_kept_lit.
Qed.

(** *** The catalog on disk *)

(** The directory holds this catalog, in these bytes or because nothing is there. *)
Definition holds (x : Node) (bytes : option str) (c : Catalog) : Prop :=
  match bytes with
  | Some b => node_at [CATALOG] x = Some (File b) ∧ len b ≤ CATALOG_LIMIT ∧ decode_catalog b = Ok c
  | None => c = empty_catalog ∧ node_at [CATALOG] x = None ∧ ∀ n, n ∈ legacy_names → node_at [n] x = None
  end.

Lemma holds_unlinked x bytes c : holds x bytes c → unlinked CATALOG x.
Proof. destruct bytes as [b|]; intros H b' o; [destruct H as (H & _)|destruct H as (_ & H & _)]; by rewrite H. Qed.

Lemma holds_unique x bytes c bytes' c' : holds x bytes c → holds x bytes' c' → bytes = bytes' ∧ c = c'.
Proof.
  destruct bytes as [b|], bytes' as [b'|]; simpl; [intros (H1 & _ & H2) (H3 & _ & H4)|intros (H1 & _) (_ & H & _)|
    intros (_ & H & _) (H1 & _)|intros (-> & _) (-> & _)]; split; congruence.
Qed.

(** The token of a state. *)
Definition token_of (bytes : option str) (c : Catalog) : StateToken := token bytes (ct_sequence c).

Lemma prim_not_found {A} (act : Node → result IoError (Node * A)) torn d : snd (prim act torn d) = Err NotFound → act (root d) = Err NotFound.
Proof.
  unfold prim. destruct (crashed d); [done|]. destruct (script d) as [|[] s]; try done; destruct (act (root d)) as [[]|]; simpl; congruence.
Qed.

(** A file that is not found is not there. *)
Lemma read_not_found (dir : list str) n limit d d' : read dir n limit d = (d', Err NotFound) → ∃ t, node_at dir (root d) = Some (Dir t) ∧ t !! n = None.
Proof.
  unfold read, open_file, sbind, component. destruct (single_component n); [|done]. cbn [sret].
  destruct (atomic _ d) as [d1 [b|e]] eqn:E.
  - pose proof (prim_not_found (λ x, Ok (x, tt)) (whole (λ x, Ok (x, tt))) d1) as Hc. unfold chance, atomic in *.
    destruct (prim _ _ d1) as [d2 [[]|e]]; [destruct (limit <? len b); unfold serr, sret; congruence|].
    intros [= -> ->]. by specialize (Hc eq_refl).
  - intros [= -> ->]. pose proof (prim_not_found _ _ d (f_equal snd E)) as Hn. unfold in_dir in Hn.
    destruct (node_at dir (root d)) as [[| |t|]|]; try done. exists t. split; [done|]. by destruct (t !! n) as [[]|].
Qed.

Lemma prep_exists h n : prep h (on_disk (io (exists_ [] n))) (λ b h', Root h' = Root h ∧ uncertain h' = uncertain h ∧
  ∃ t, Root h = Dir t ∧ b = is_some (t !! n)).
Proof.
  eapply prep_mono; [apply prep_disk; [apply tidy_io, tidy_exists|apply safe_io, safe_exists]|].
  intros b h' [(H1 & t & Ht & ->) H2]. split; [done|]. split; [done|]. exists t. simpl in Ht. split; [congruence|done].
Qed.

Lemma prep_read_catalog h : prep h (tried (on_disk (io (read [] CATALOG_NAME CATALOG_LIMIT)))) (λ r h', Root h' = Root h ∧ uncertain h' = uncertain h ∧
  (∀ b, r = Ok b → node_at [CATALOG] (Root h) = Some (File b) ∧ len b ≤ CATALOG_LIMIT) ∧
  (r = Err (Io NotFound) → ∃ t, Root h = Dir t ∧ t !! CATALOG = None)).
Proof.
  unfold prep, tried, on_disk, io. destruct (reads_read [] CATALOG_NAME CATALOG_LIMIT (disk h)) as [H1 _].
  destruct (tidy_read reserved [] CATALOG_NAME CATALOG_LIMIT (disk h)) as [H2 H3].
  pose proof (safe_read sealed kept (Root h) [] CATALOG_NAME CATALOG_LIMIT (disk h) eq_refl) as H4.
  destruct (read _ _ _ (disk h)) as [d r] eqn:E. simpl in *. destruct H4 as [H4 H5]. split; [by split|]. intros r' [= <-].
  split; [done|]. split; [done|]. split.
  - intros b Hb. destruct r as [b'|]; [|done]. injection Hb as ->. by destruct (H5 b eq_refl) as (_ & H6 & H7).
  - intros Hb. destruct r as [|[]]; try done. apply read_not_found in E as (t & Ht & Hn). exists t. split; [|done]. simpl in Ht. by injection Ht.
Qed.

Lemma prep_uncertain h : prep h durability_uncertain (λ u h', h' = h ∧ u = uncertain h).
Proof. unfold prep, durability_uncertain. split; [done|]. by intros u [= ->]. Qed.

Lemma prep_inspect h : prep h inspect (λ s h', Root h' = Root h ∧ uncertain h' = uncertain h ∧
  ∃ bytes, holds (Root h) bytes (sn_catalog s) ∧ sn_token s = token_of bytes (sn_catalog s) ∧ sn_uncertain s = uncertain h).
Proof.
  eapply prep_bind; [apply prep_read_catalog|]. intros r h1 _ (E1 & U1 & Hok & Hnone).
  destruct r as [b|[[]| |]]; try apply prep_err.
  - destruct (Hok b eq_refl) as [Hb Hl]. eapply prep_bind; [apply prep_lifted|]. intros c h2 _ [-> Hc].
    eapply prep_bind; [apply prep_uncertain|]. intros u h2 _ [-> ->].
    eapply prep_mono; [apply prep_ret|]. intros s h2 [-> ->]. split; [done|]. split; [done|]. exists (Some b). split; [|done].
    split; [done|]. split; [done|]. destruct (decode_catalog b) as [c'|]; [|done]. by injection Hc as ->.
  - destruct (Hnone eq_refl) as (t & Ht & Hn). eapply prep_bind; [apply prep_exists|]. intros meta h2 _ (E2 & U2 & t2 & Ht2 & ->).
    eapply (prep_bind _ _ _ (λ b h', Root h' = Root h ∧ uncertain h' = uncertain h ∧ (is_some (t !! lit "meta.json") || b = is_some (t !! lit "meta.json") || is_some (t !! lit "configs")))).
    + destruct (is_some (t2 !! lit "meta.json")) eqn:Em.
      * eapply prep_mono; [apply prep_ret|]. intros b h3 [-> ->]. split; [congruence|]. split; [congruence|].
        replace t with t2 by congruence. by rewrite Em.
      * eapply prep_mono; [apply prep_exists|]. intros b h3 (E3 & U3 & t3 & Ht3 & ->). split; [congruence|]. split; [congruence|].
        by replace t3 with t by congruence.
    + intros b h3 _ (E3 & U3 & Hb). replace t2 with t by congruence. rewrite Hb. destruct (t !! lit "meta.json") eqn:Em; [apply prep_err|].
      destruct (t !! lit "configs") eqn:Ec; [apply prep_err|]. simpl. eapply prep_bind; [apply prep_uncertain|]. intros u h4 _ [-> ->].
      eapply prep_mono; [apply prep_ret|]. intros s h4 [-> ->].
      split; [done|]. split; [done|]. exists None. split; [|done]. rewrite Ht. split; [done|]. simpl. split; [by rewrite Hn|].
      intros n Hn'. unfold legacy_names in Hn'. rewrite !elem_of_cons, elem_of_nil in Hn'. destruct Hn' as [->|[->|[]]]; [by rewrite Em|by rewrite Ec].
Qed.

Lemma prep_expected h tok : prep h (expected tok) (λ c h', Root h' = Root h ∧ uncertain h' = uncertain h ∧
  ∃ bytes, holds (Root h) bytes c ∧ tok = token_of bytes c).
Proof.
  eapply prep_bind; [apply prep_inspect|]. intros s h1 _ (E1 & U1 & bytes & H1 & H2 & _).
  eapply prep_bind; [apply prep_require|]. intros _ h2 _ [-> Ht]. apply bool_decide_eq_true in Ht.
  eapply prep_mono; [apply prep_ret|]. intros c h2 [-> ->]. split; [done|]. split; [done|]. exists bytes. split; [done|]. congruence.
Qed.

(** ** The commit *)

Definition runs {A} (h : Handle) (m : SH A) (R : result Error A → Handle → Prop) : Prop := let '(h', r) := m h in R r h'.

Lemma runs_bind {A B} h (m : SH A) (k : A → SH B) R :
  runs h m (λ r h', match r with Ok a => runs h' (k a) R | Err e => R (Err e) h' end) → runs h (sbind m k) R.
Proof. unfold runs, sbind. by destruct (m h) as [h' [a|e]]. Qed.

(** Quiet steps first. *)
Lemma runs_prep {A B} h (m : SH A) (k : A → SH B) Q R : prep h m Q →
  (∀ e h', quiet h h' → R (Err e) h') → (∀ a h', quiet h h' → Q a h' → runs h' (k a) R) → runs h (sbind m k) R.
Proof. intros Hm He Hk. apply runs_bind. unfold prep in Hm. unfold runs at 1. destruct (m h) as [h' [a|e]], Hm as [H1 H2]; auto. Qed.

Lemma runs_mono {A} h (m : SH A) (R R' : result Error A → Handle → Prop) : runs h m R → (∀ r h', R r h' → R' r h') → runs h m R'.
Proof. unfold runs. destruct (m h). auto. Qed.

Lemma stable_weaken (k k' : str → Prop) x y : (∀ n, k' n → k n) → stable sealed k x y → stable sealed k' x y.
Proof. intros Hk [H1 H2]. split; auto. Qed.

Lemma legacy_kept n : legacy n → kept n.
Proof. by right. Qed.

(** The catalog file is new, everything else as before. *)
Definition replaced (x : Node) (c : Catalog) (bytes : str) (y : Node) : Prop :=
  stable sealed legacy x y ∧ canonical c = Ok bytes ∧ node_at [CATALOG] y = Some (File bytes).

Lemma commit_free s : free sealed (λ n, legacy n ∨ n = CATALOG) [lit ".write-" ++ s].
Proof.
  split; [split|]; [intros q Hq Hp; break_sealed| |intros q Hq Hp; break_sealed].
  intros [H|H]; [|done]. unfold legacy, legacy_names in H. rewrite !elem_of_cons, elem_of_nil in H. by destruct H as [H|[H|[]]].
Qed.

Lemma runs_write h bytes : unlinked CATALOG (Root h) →
  runs h (on_disk (io (atomic_write [] CATALOG_NAME bytes))) (λ r h',
    (stable sealed kept (Root h) (Root h') ∧ is_ok r = false) ∨
    (stable sealed legacy (Root h) (Root h') ∧ node_at [CATALOG] (Root h') = Some (File bytes))).
Proof.
  intros Hl. pose proof (safe_atomic_write sealed legacy CATALOG bytes) as H.
  assert (¬ sealed []) as H1 by (by intros (id & _ & [H1|(rev & _ & H1)])). assert (¬ legacy CATALOG) as H2.
  { intros Hc. apply (bool_decide_eq_true _) in Hc. vm_compute in Hc. done. }
  assert (∀ q, sealed q → ¬ [CATALOG] `prefix_of` q) as H3 by (intros q Hq Hp; break_sealed).
  specialize (H H1 H2 H3 commit_free ltac:(done) (Root h) Hl (disk h) eq_refl). unfold runs, on_disk, io.
  destruct (atomic_write [] CATALOG_NAME bytes (disk h)) as [d r] eqn:E. change CATALOG_NAME with CATALOG in E. rewrite E in H.
  destruct H as [Hs [[Ho|Hn] Hok]]; simpl; [|right; by split].
  destruct r as [a|e]; [right; split; [done|]; by apply (Hok a)|left]. split; [|done]. destruct Hs as [S1 S2]. split; [done|].
  intros n [->|Hn] Hx; [done|by apply S2].
Qed.

Lemma runs_commit h c : unlinked CATALOG (Root h) →
  runs h (commit c) (λ r h',
    (stable sealed kept (Root h) (Root h') ∧ is_ok r = false) ∨
    ∃ bytes, ct_sequence c + 1 ≤ u64_max ∧ replaced (Root h) (with_sequence c (ct_sequence c + 1)) bytes (Root h') ∧
      ∀ rc, r = Ok rc → rc_token rc = token (Some bytes) (ct_sequence c + 1)).
Proof.
  intros Hl. unfold commit. eapply runs_prep.
  { apply (prep_disk _ _ (λ _ y, y = Root h)); [apply tidy_io, tidy_bind; [apply tidy_open_file|intros b; apply tidy_ret]|].
    apply safe_io. eapply safe_then; [apply safe_open_file|]. intros b y [-> _]. eapply safe_mono; [apply safe_ret|]. by intros [] y [_ <-]. }
  { intros e h' Hq. left. split; [apply Hq|done]. }
  intros [] h1 Q1 [E1 _]. eapply runs_prep; [apply prep_require| |].
  { intros e h' Hq. left. split; [|done]. rewrite <- E1. apply Hq. }
  intros [] h2 _ [-> Hs]. apply Z.leb_le in Hs. eapply runs_prep; [apply prep_lifted| |].
  { intros e h' Hq. left. split; [|done]. rewrite <- E1. apply Hq. }
  intros bytes h2 _ [-> Hc]. destruct (canonical _) as [bytes'|] eqn:Ec; [|done]. injection Hc as ->.
  apply runs_bind. eapply runs_mono; [apply runs_write; by rewrite E1|]. rewrite E1.
  intros r h' [[H1 H2]|[H1 H2]]; [destruct r; [done|]; by left|].
  destruct r as [e|e]; [apply runs_bind; unfold runs; destruct (is_some e); simpl|]; right; exists bytes;
    (split; [done|]; split; [done|]); by intros rc [= <-].
Qed.

End Store.

End StoreFacts.
