(* ===== verification/StoreSpec.v ===== *)
(** * What the store promises

    A profile store is a map from keys to profiles with at most one of them active. The
    operations of src/src/store.rs implement the operations of that map: each takes effect
    at one moment or not at all, whatever fails and wherever the process dies. *)
From S2P Require Import Prelude Utf8 BTree Json Disk DiskFacts Bundle Revision RevisionFacts RevisionRead Store CatalogFacts StoreFacts.

Module StoreSpec.
Import Disk DiskFacts Bundle Revision RevisionFacts RevisionRead Store CatalogFacts StoreFacts.

(** ** The map *)

Record AProfile := mkAProfile {
  a_view : RevisionView;
  a_generation : Z;
  a_selections : gmap str str;
  a_secret : option str;
}.

Record AState := mkAState { a_sequence : Z; a_active : option str; a_profiles : gmap str AProfile }.

Inductive Op :=
| Publish (key : str) (head : option str) (b : Bundle) (meta : Metadata) (frozen : option FrozenOverride) (activate : bool)
| Activate (key : option str)
| Delete (key head : str)
| Rename (key head new_key : str)
| Secret (key head : str)
| Select (key head : str) (generation : Z) (selections : list Selection).

Definition a_head (a : AProfile) : str := rv_revision (a_view a).

Definition next (S : AState) (active : option str) (profiles : gmap str AProfile) : AState := mkAState (a_sequence S + 1) active profiles.

Definition selection_map (l : list Selection) : gmap str str := list_to_map ((λ s, (sl_group s, sl_proxy s)) <$> l).

Section Spec.
Context `{HS : Sha256, HI : Serde Identity, HM : Serde Manifest, HC : Serde Catalog, HJ : !CatalogJson, HP : Parsers}.

(** Contents under the key of a profile. *)
Definition keyed (key : str) (b : Bundle) (meta : Metadata) (frozen : option FrozenOverride) : RevisionView :=
  let content := content_digest key b meta frozen in view_of key (revision_id key content) content b meta frozen.

Definition rekey (key : str) (v : RevisionView) : RevisionView := keyed key (rv_bundle v) (rv_metadata v) (rv_frozen v).

(** The selections a document still has, and their generation. *)
Definition retained (document : Value) (generation : Z) (m : gmap str str) : Z * gmap str str :=
  let m' := filter (λ gp, selectable document (mkSelection (fst gp) (snd gp)) = true) m in
  (if bool_decide (m' = m) then generation else generation + 1, m').

Inductive astep : Op → AState → AState → Prop :=
| step_publish S key head b meta frozen act document :
    a_head <$> a_profiles S !! key = head →
    (if is_some (a_profiles S !! key) then stored_key key else valid_key key) = true →
    (act || bool_decide (a_active S = Some key) = true → catalog_ready b = Ok true) →
    validate_metadata (sorted_metadata meta) = true → validate_override b frozen = Ok tt →
    parse_document (effective_source b) = Ok document →
    let old := a_profiles S !! key in
    let '(generation, selections) := retained document (from_option a_generation 0 old) (from_option a_selections ∅ old) in
    astep (Publish key head b meta frozen act) S
      (next S (if act then Some key else a_active S)
        (<[key := mkAProfile (keyed key b (sorted_metadata meta) frozen) generation selections (old ≫= a_secret)]> (a_profiles S)))
| step_activate S key a :
    a_profiles S !! key = Some a → catalog_ready (rv_bundle (a_view a)) = Ok true →
    astep (Activate (Some key)) S (next S (Some key) (a_profiles S))
| step_deactivate S : astep (Activate None) S (next S None (a_profiles S))
| step_delete S key a :
    a_profiles S !! key = Some a →
    astep (Delete key (a_head a)) S
      (next S (if bool_decide (a_active S = Some key) then None else a_active S) (base.delete key (a_profiles S)))
| step_rename S key new_key a :
    valid_key new_key = true → a_profiles S !! key = Some a → a_profiles S !! new_key = None →
    astep (Rename key (a_head a) new_key) S
      (next S (if bool_decide (a_active S = Some key) then Some new_key else a_active S)
        (<[new_key := mkAProfile (rekey new_key (a_view a)) (a_generation a) (a_selections a) (a_secret a)]>
          (base.delete key (a_profiles S))))
| step_secret S key a secret :
    a_profiles S !! key = Some a → a_secret a = None → secret_ok secret = true →
    astep (Secret key (a_head a)) S
      (next S (a_active S) (<[key := mkAProfile (a_view a) (a_generation a) (a_selections a) (Some secret)]> (a_profiles S)))
| step_select S key a selections selections' :
    a_profiles S !! key = Some a → validate_selections selections = Ok selections' →
    astep (Select key (a_head a) (a_generation a) selections) S
      (next S (a_active S)
        (<[key := mkAProfile (a_view a) (a_generation a + 1) (selection_map selections') (a_secret a)]> (a_profiles S))).

(** The active profile can run. *)
Definition active_ready (S : AState) : Prop := ∀ key, a_active S = Some key →
  ∃ a, a_profiles S !! key = Some a ∧ catalog_ready (rv_bundle (a_view a)) = Ok true.

Lemma ready_insert (key k : str) (a' : AProfile) (m : gmap str AProfile) :
  (k = key → catalog_ready (rv_bundle (a_view a')) = Ok true) →
  (k ≠ key → ∃ a, m !! k = Some a ∧ catalog_ready (rv_bundle (a_view a)) = Ok true) →
  ∃ a, <[key := a']> m !! k = Some a ∧ catalog_ready (rv_bundle (a_view a)) = Ok true.
Proof.
  intros H1 H2. destruct (decide (k = key)) as [->|Hne]; [exists a'; rewrite lookup_insert_eq; auto|].
  rewrite lookup_insert_ne by done. auto.
Qed.

Lemma astep_ready op S S' : astep op S S' → active_ready S → active_ready S'.
Proof.
  intros Hs Ha. destruct Hs as [S key head b meta frozen act document _ _ Hr _ _ _|S key a Hk Hr|S|S key a Hk|S key new_key a _ Hk Hn|S key a secret Hk _ _|
    S key a sel sel' Hk _]; intros k; unfold next; cbn [a_active a_profiles retained]; intros Hact.
  - apply ready_insert; cbn [a_view rv_bundle keyed view_of].
    + intros ->. apply Hr. destruct act; [done|]. by apply bool_decide_eq_true.
    + intros Hne. apply Ha. destruct act; congruence.
  - injection Hact as <-. by exists a.
  - done.
  - case_bool_decide; [done|]. rewrite lookup_delete_ne by congruence. by apply Ha.
  - case_bool_decide as Hc.
    + injection Hact as <-. apply ready_insert; [|done]. intros _. destruct (Ha key Hc) as (a' & Ha' & Hr). by replace a with a' by congruence.
    + apply ready_insert; [intros ->; destruct (Ha _ Hact) as (a' & Ha' & _); congruence|]. intros _.
      rewrite lookup_delete_ne by congruence. by apply Ha.
  - destruct (Ha k Hact) as (a' & Ha' & Hr). apply ready_insert; [|by exists a']. intros ->. by replace a with a' by congruence.
  - destruct (Ha k Hact) as (a' & Ha' & Hr). apply ready_insert; [|by exists a']. intros ->. by replace a with a' by congruence.
Qed.

(** ** What a directory represents *)

Record abstracts (x : Node) (p : Profile) (a : AProfile) : Prop := {
  ab_view : read_bundle (p_key p) (p_head p) (still x) = (still x, Ok (a_view a));
  ab_generation : a_generation a = de_generation (p_desired p);
  ab_selections : a_selections a = selection_map (de_selections (p_desired p));
  ab_secret : a_secret a = p_secret p;
}.

Record lists (x : Node) (l : list Profile) (m : gmap str AProfile) : Prop := {
  ls_sound k a : m !! k = Some a → ∃ p, p ∈ l ∧ p_key p = k;
  ls_complete p : p ∈ l → ∃ a, m !! p_key p = Some a ∧ abstracts x p a;
}.

Definition represents (x : Node) (S : AState) : Prop :=
  ∃ bytes c, holds x bytes c ∧ a_sequence S = ct_sequence c ∧ a_active S = ac_key <$> ct_active c ∧ lists x (ct_profiles c) (a_profiles S).

(** *** Selections *)

Lemma selections_nodup l : increasing sl_group l → NoDup (((λ s, (sl_group s, sl_proxy s)) <$> l).*1).
Proof.
  intros H. rewrite <- list_fmap_compose. by apply increasing_nodup.
Qed.

Lemma validated_map l l' : validate_selections l = Ok l' → selection_map l' = selection_map l ∧ increasing sl_group l' ∧ l' ≡ₚ l.
Proof.
  unfold validate_selections. destruct (1024 <? len l); [done|]. destruct (_ && _) eqn:Ec; [|done]. intros [= <-].
  apply andb_true_iff in Ec as [_ H2]. pose proof (sort_by_increasing _ _ H2) as Hi. pose proof (sort_by_perm sl_group l) as Hp.
  split; [|done]. unfold selection_map. apply list_to_map_proper; [by apply selections_nodup|]. by apply fmap_Permutation.
Qed.

Lemma ordered_abstracts x p p' a : ordered p p' → abstracts x p a → abstracts x p' a.
Proof.
  intros (sel & Hv & ->) [H1 H2 H3 H4]. apply validated_map in Hv as [Hv _]. constructor; cbn [p_key p_head p_desired p_secret de_generation de_selections]; congruence.
Qed.

Lemma abstracts_stable k x y p a : stable sealed k x y → abstracts x p a → abstracts y p a.
Proof. intros Hs [H1 H2 H3 H4]. constructor; [by eapply read_bundle_stable|done..]. Qed.

Lemma lists_stable k x y l m : stable sealed k x y → lists x l m → lists y l m.
Proof. intros Hs [H1 H2]. constructor; [done|]. intros p Hp. destruct (H2 p Hp) as (a & Ha & Hab). exists a. split; [done|]. by eapply abstracts_stable. Qed.

Lemma lists_normal x c c' m : normalized c c' → lists x (ct_profiles c) m → lists x (ct_profiles c') m.
Proof.
  intros Hn [H1 H2]. constructor.
  - intros k a Ha. destruct (H1 k a Ha) as (p & Hp & <-). destruct (normalized_profile' _ _ _ Hn Hp) as (p' & Hp' & sel & _ & ->). by eexists.
  - intros p' Hp'. destruct (normalized_profile _ _ _ Hn Hp') as (p & Hp & Ho). destruct (H2 p Hp) as (a & Ha & Hab). exists a.
    split; [|by eapply ordered_abstracts]. destruct Ho as (sel & _ & ->). done.
Qed.

(** The state after the catalog was replaced. *)
Lemma replaced_represents x y c bytes S : replaced x c bytes y → secrets_ok (ct_profiles c) →
  a_sequence S = ct_sequence c → a_active S = ac_key <$> ct_active c → lists x (ct_profiles c) (a_profiles S) → represents y S.
Proof.
  intros (Hs & Hc & Hy) Hsec Hseq Hact Hl. destruct (decode_canonical _ _ Hc Hsec) as (c' & Hn & _ & Hlen & Hd).
  exists (Some bytes), c'. split; [done|]. rewrite (nz_sequence _ _ Hn), (nz_active _ _ Hn). split; [done|]. split; [done|].
  eapply lists_normal; [done|]. by eapply lists_stable.
Qed.

Lemma holds_stable x y bytes c : stable sealed kept x y → holds x bytes c → holds y bytes c.
Proof.
  intros Hs Hh. pose proof (holds_unlinked _ _ _ Hh) as Hl.
  assert (node_at [CATALOG] x = node_at [CATALOG] y) as Hc by (apply (st_kept _ _ _ _ Hs); [by left|done]).
  unfold holds in *. destruct bytes as [b|]; [by rewrite <- Hc|]. destruct Hh as (H1 & H2 & H3). split; [done|]. split; [congruence|].
  intros n Hn. rewrite <- (st_kept _ _ _ _ Hs n); [by apply H3|by right|]. intros b o. by rewrite (H3 n Hn).
Qed.

Lemma represents_stable x y S : stable sealed kept x y → represents x S → represents y S.
Proof.
  intros Hs (bytes & c & H1 & H2 & H3 & H4). exists bytes, c. split; [by eapply holds_stable|]. split; [done|]. split; [done|]. by eapply lists_stable.
Qed.

(** *** What a document keeps of the selections *)

Lemma selection_map_cons s l : selection_map (s :: l) = <[sl_group s := sl_proxy s]> (selection_map l).
Proof. done. Qed.

Lemma selection_map_none l g : g ∉ (sl_group <$> l) → selection_map l !! g = None.
Proof.
  intros Hg. apply not_elem_of_list_to_map_1. rewrite <- list_fmap_compose. exact Hg.
Qed.

Lemma selection_map_filter f l : NoDup (sl_group <$> l) →
  selection_map (List.filter f l) = filter (λ gp, f (mkSelection (fst gp) (snd gp)) = true) (selection_map l).
Proof.
  induction l as [|s l IH]; intros Hnd; [symmetry; apply map_filter_empty|]. apply NoDup_cons in Hnd as [Hs Hnd].
  assert (s = mkSelection (sl_group s) (sl_proxy s)) as Es by (by destruct s). simpl List.filter. rewrite selection_map_cons.
  destruct (f s) eqn:Ef.
  - rewrite selection_map_cons, IH, map_filter_insert_True by (simpl; by rewrite <- ?Es). done.
  - rewrite map_filter_insert_False by (simpl; rewrite <- Es; congruence). rewrite IH by done. by rewrite delete_id by (by apply selection_map_none).
Qed.

Lemma selection_map_size l : NoDup (sl_group <$> l) → size (selection_map l) = length l.
Proof.
  induction l as [|s l IH]; intros Hnd; [done|]. apply NoDup_cons in Hnd as [Hs Hnd]. rewrite selection_map_cons, map_size_insert_None by (by apply selection_map_none).
  simpl. by rewrite IH.
Qed.

Lemma retained_length {A} (f : A → bool) l : (length (List.filter f l) ≤ length l)%nat ∧ (length (List.filter f l) = length l → List.filter f l = l).
Proof.
  induction l as [|a l [IH1 IH2]]; simpl; [done|]. destruct (f a); simpl; [split; [lia|]; intros E; f_equal; apply IH2; lia|split; [lia|]; intros E; lia].
Qed.

Lemma filter_nodup f (l : list Selection) : NoDup (sl_group <$> l) → NoDup (sl_group <$> List.filter f l).
Proof.
  induction l as [|s l IH]; [done|]. rewrite fmap_cons, NoDup_cons. intros [Hs Hnd]. simpl. destruct (f s); [|by apply IH].
  rewrite fmap_cons, NoDup_cons. split; [|by apply IH]. intros Hin. apply Hs. apply list_elem_of_fmap in Hin as (s' & -> & Hin).
  apply list_elem_of_fmap. exists s'. split; [done|]. apply list_elem_of_In in Hin. apply filter_In in Hin as [Hin _]. by apply list_elem_of_In.
Qed.

Lemma retain_map document d d' : increasing sl_group (de_selections d) → retain_selections document d = Ok d' →
  retained document (de_generation d) (selection_map (de_selections d)) = (de_generation d', selection_map (de_selections d')).
Proof.
  intros Hi. pose proof (increasing_nodup _ _ Hi) as Hnd. unfold retain_selections, retained.
  rewrite <- (selection_map_filter (selectable document)) by done. set (kept := List.filter _ _).
  destruct (retained_length (selectable document) (de_selections d)) as [_ Hlen]. fold kept in Hlen.
  destruct (len kept =? len (de_selections d)) eqn:E.
  - intros [= <-]. apply Z.eqb_eq in E. unfold len in E. rewrite Hlen by lia. simpl. by rewrite bool_decide_eq_true_2.
  - destruct (u64_max <? _); [done|]. intros [= <-]. simpl. rewrite bool_decide_eq_false_2; [done|]. intros Hm.
    apply Z.eqb_neq in E. apply E. unfold len. pose proof (selection_map_size _ Hnd) as Hs. rewrite <- Hm, selection_map_size in Hs by (by apply filter_nodup). lia.
Qed.

(** *** Finding and replacing profiles *)

Lemma holds_order x bytes c : holds x bytes c → increasing p_key (ct_profiles c) ∧ secrets_ok (ct_profiles c) ∧ Forall profile_ok (ct_profiles c).
Proof.
  destruct bytes as [b|]; simpl.
  - intros (_ & _ & Hd). apply decode_inv in Hd as (_ & Hn & Hs). split; [apply Hn|]. split; [done|apply Hn].
  - intros (-> & _). split; [constructor|]. split; [|constructor]. intros p s Hp. by apply not_elem_of_nil in Hp.
Qed.

Section Lists.
Context (x : Node) (l : list Profile) (m : gmap str AProfile).
Hypothesis Hl : lists x l m.
Hypothesis Hi : increasing p_key l.

Lemma find_some key i p : find_profile key l = Some (i, p) →
  l !! i = Some p ∧ p_key p = key ∧ ∃ a, m !! key = Some a ∧ abstracts x p a.
Proof.
  intros H. apply list_find_Some in H as (H1 & H2 & _). split; [done|]. split; [done|]. rewrite <- H2.
  apply (ls_complete _ _ _ Hl). by eapply list_elem_of_lookup_2.
Qed.

Lemma find_none key : find_profile key l = None → m !! key = None.
Proof.
  intros H. apply list_find_None in H. destruct (m !! key) as [a|] eqn:E; [|done]. destruct (ls_sound _ _ _ Hl _ _ E) as (p & Hp & Hk).
  rewrite Forall_forall in H. by destruct (H p Hp).
Qed.

Lemma key_unique i j p q : l !! i = Some p → l !! j = Some q → p_key p = p_key q → i = j.
Proof.
  intros H1 H2 E. pose proof (increasing_nodup _ _ Hi) as Hnd.
  eapply NoDup_lookup; [done|rewrite list_lookup_fmap, H1; done|]. rewrite list_lookup_fmap, H2. simpl. by rewrite E.
Qed.

Lemma lists_replace i p p' a' : l !! i = Some p → (p_key p' = p_key p ∨ m !! p_key p' = None) → abstracts x p' a' →
  lists x (<[i := p']> l) (<[p_key p' := a']> (base.delete (p_key p) m)).
Proof.
  intros Hp Hk Hab. assert (i < length l)%nat as Hlt by (by eapply lookup_lt_Some). constructor.
  - intros k a Ha. destruct (decide (k = p_key p')) as [->|Hne].
    + exists p'. split; [|done]. by apply list_elem_of_lookup_2 with i, list_lookup_insert_eq.
    + rewrite lookup_insert_ne in Ha by done. apply lookup_delete_Some in Ha as [Hnp Ha].
      destruct (ls_sound _ _ _ Hl _ _ Ha) as (q & Hq & <-). apply list_elem_of_lookup in Hq as [j Hj]. exists q. split; [|done].
      apply list_elem_of_lookup_2 with j. rewrite list_lookup_insert_ne; [done|]. intros ->. congruence.
  - intros q Hq. apply list_elem_of_lookup in Hq as [j Hj]. destruct (decide (i = j)) as [<-|Hne].
    + rewrite list_lookup_insert_eq in Hj by done. injection Hj as <-. exists a'. by rewrite lookup_insert_eq.
    + rewrite list_lookup_insert_ne in Hj by done. destruct (ls_complete _ _ _ Hl q) as (a & Ha & Haq); [by eapply list_elem_of_lookup_2|].
      exists a. split; [|done]. assert (p_key q ≠ p_key p) as Hqp by (intros E; by destruct (Hne (key_unique _ _ _ _ Hp Hj (eq_sym E)))).
      rewrite lookup_insert_ne; [by rewrite lookup_delete_ne|]. intros E. destruct Hk as [Hk|Hk]; congruence.
Qed.

Lemma lists_add p' a' : m !! p_key p' = None → abstracts x p' a' → lists x (l ++ [p']) (<[p_key p' := a']> m).
Proof.
  intros Hn Hab. constructor.
  - intros k a Ha. apply lookup_insert_Some in Ha as [[<- _]|[Hne Ha]]; [exists p'; split; [|done]; apply elem_of_app; right; by left|].
    destruct (ls_sound _ _ _ Hl _ _ Ha) as (q & Hq & <-). exists q. split; [|done]. apply elem_of_app. by left.
  - intros q Hq. apply elem_of_app in Hq as [Hq|Hq].
    + destruct (ls_complete _ _ _ Hl q Hq) as (a & Ha & Haq). exists a. split; [|done]. rewrite lookup_insert_ne; [done|]. congruence.
    + apply list_elem_of_singleton in Hq as ->. exists a'. by rewrite lookup_insert_eq.
Qed.

Lemma lists_remove i p : l !! i = Some p → lists x (base.delete i l) (base.delete (p_key p) m).
Proof.
  intros Hp. assert (∀ q, q ∈ base.delete i l ↔ q ∈ l ∧ p_key q ≠ p_key p) as Hmem.
  { intros q. rewrite delete_take_drop, elem_of_app, !list_elem_of_lookup. setoid_rewrite lookup_take_Some. setoid_rewrite lookup_drop. split.
    - intros [(j & Hj & Hlt)|[j Hj]].
      + split; [by exists j|]. intros E. pose proof (key_unique _ _ _ _ Hj Hp E). lia.
      + split; [by eexists|]. intros E. pose proof (key_unique _ _ _ _ Hj Hp E). lia.
    - intros [[j Hj] Hne]. destruct (decide (j < i)%nat); [left; by exists j|]. destruct (decide (j = i)) as [->|]; [congruence|].
      right. exists (j - S i)%nat. by replace (S i + (j - S i))%nat with j by lia. }
  constructor.
  - intros k a Ha. apply lookup_delete_Some in Ha as [Hne Ha]. destruct (ls_sound _ _ _ Hl _ _ Ha) as (q & Hq & <-). exists q. split; [|done].
    apply Hmem. split; [done|congruence].
  - intros q Hq. apply Hmem in Hq as [Hq Hne]. destruct (ls_complete _ _ _ Hl q Hq) as (a & Ha & Haq). exists a. split; [|done].
    by rewrite lookup_delete_ne.
Qed.

End Lists.

(** ** The operations implement the map *)

Definition run (tok : StateToken) (op : Op) : SH unit :=
  match op with
  | Publish key head b meta frozen act => do! _ := publish_frozen tok key head b meta frozen act in sret tt
  | Activate key => do! _ := activate tok key in sret tt
  | Delete key head => do! _ := delete tok key head in sret tt
  | Rename key head new_key => do! _ := Store.rename tok key head new_key in sret tt
  | Secret key head => do! _ := ensure_auto_controller_secret tok key head in sret tt
  | Select key head generation selections => do! _ := select tok key head generation selections in sret tt
  end.

(** The caller has seen this state. *)
Definition current (x : Node) (tok : StateToken) : Prop := ∃ bytes c, holds x bytes c ∧ tok = token_of bytes c.

(** Asking for a secret that is there changes nothing. *)
Definition idle (op : Op) (S : AState) : Prop :=
  match op with
  | Secret key head => ∃ a, a_profiles S !! key = Some a ∧ a_head a = head ∧ is_Some (a_secret a)
  | _ => False
  end.

(** Nothing happened, or the operation took effect on the state the caller had seen. *)
Definition outcome (h : Handle) (tok : StateToken) (op : Op) (S : AState) {A} (r : result Error A) (h' : Handle) : Prop :=
  (stable sealed kept (Root h) (Root h') ∧ (is_ok r = true → current (Root h) tok ∧ idle op S)) ∨
  (current (Root h) tok ∧ stable sealed legacy (Root h) (Root h') ∧ ∃ S', astep op S S' ∧ represents (Root h') S').

Section Outcome.
Context (h0 : Handle) (tok : StateToken) (op : Op) (S : AState).
Hypothesis Hrep : represents (Root h0) S.

Lemma outcome_err {A} h e : quiet h0 h → outcome h0 tok op S (Err (A:=A) e) h.
Proof. intros Hq. left. split; [apply Hq|done]. Qed.

Lemma runs_step {A B} h (m : SH A) (k : A → SH B) Q : quiet h0 h → prep h m Q →
  (∀ a h', quiet h0 h' → Q a h' → runs h' (k a) (outcome h0 tok op S)) → runs h (sbind m k) (outcome h0 tok op S).
Proof.
  intros Hq Hm Hk. eapply runs_prep; [exact Hm| |].
  - intros e h' Hq'. apply outcome_err. by etrans.
  - intros a h' Hq' HQ. apply Hk; [by etrans|done].
Qed.

Lemma runs_done {A} h (m : SH A) : runs h m (outcome h0 tok op S) → runs h (do! _ := m in sret tt) (outcome h0 tok op S).
Proof. intros Hm. apply runs_bind. eapply runs_mono; [exact Hm|]. intros [a|e] h' H; exact H. Qed.

(** What the operation reads, and what it was given. *)
Record seen (c : Catalog) (h : Handle) : Prop := {
  se_quiet : quiet h0 h;
  se_current : current (Root h0) tok;
  se_order : increasing p_key (ct_profiles c);
  se_secrets : secrets_ok (ct_profiles c);
  se_ok : Forall profile_ok (ct_profiles c);
  se_sequence : a_sequence S = ct_sequence c;
  se_active : a_active S = ac_key <$> ct_active c;
  se_lists : lists (Root h) (ct_profiles c) (a_profiles S);
  se_unlinked : unlinked CATALOG (Root h);
}.

Lemma runs_expected {B} h (k : Catalog → SH B) : quiet h0 h →
  (∀ c h', seen c h' → runs h' (k c) (outcome h0 tok op S)) → runs h (sbind (expected tok) k) (outcome h0 tok op S).
Proof.
  intros Hq Hk. destruct Hrep as (bytes0 & c0 & H1 & H2 & H3 & H4). pose proof (holds_stable _ _ _ _ (qt_stable _ _ Hq) H1) as H1'.
  eapply runs_step; [done|apply prep_expected|]. intros c h' Hq' (E & _ & bytes & Hh & Ht).
  destruct (holds_unique _ _ _ _ _ H1' Hh) as [-> ->]. destruct (holds_order _ _ _ H1) as (O1 & O2 & O3). apply Hk. split; try done.
  - by exists bytes, c.
  - eapply lists_stable; [apply Hq'|done].
  - rewrite E. by eapply holds_unlinked.
Qed.

Lemma seen_quiet c h h' : seen c h → quiet h h' → seen c h'.
Proof.
  intros [S1 S2 S3 S4 S5 S6 S7 S8 S9] Hq. split; try done; [by etrans|eapply lists_stable; [apply Hq|done]|].
  intros b o Hb. rewrite <- (st_kept _ _ _ _ (qt_stable _ _ Hq) CATALOG) in Hb by (by left || done). by apply (S9 b o).
Qed.

(** The commit of a catalog that the operation leads to. *)
Lemma runs_commit_step c c' h h' S' : seen c h → stable sealed kept (Root h) (Root h') →
  ct_sequence c' = ct_sequence c → secrets_ok (ct_profiles c') →
  a_sequence S' = a_sequence S + 1 → a_active S' = ac_key <$> ct_active c' → lists (Root h') (ct_profiles c') (a_profiles S') →
  astep op S S' → runs h' (commit c') (outcome h0 tok op S).
Proof.
  intros Hseen Hs Hseq Hsec H1 H2 H3 Hstep.
  assert (unlinked CATALOG (Root h')) as Hl.
  { intros b o Hb. rewrite <- (st_kept _ _ _ _ Hs CATALOG) in Hb by (by left || apply Hseen). by apply (se_unlinked _ _ Hseen b o). }
  assert (stable sealed kept (Root h0) (Root h')) as Hs0 by (etrans; [apply Hseen|done]).
  eapply runs_mono; [by apply runs_commit|]. intros r h1 [[Ha Hb]|(bytes & Hseq' & Hr & _)].
  - left. split; [by etrans|]. by rewrite Hb.
  - right. split; [apply Hseen|]. split; [etrans; [by eapply stable_weaken; [apply legacy_kept|]|apply Hr]|]. exists S'. split; [done|].
    eapply replaced_represents; [done|done| |done|done]. cbn [with_sequence ct_sequence]. rewrite H1, (se_sequence _ _ Hseen). lia.
Qed.

End Outcome.

Lemma prep_found {A} h (o : option A) e : prep h (found o e) (λ a h', h' = h ∧ o = Some a).
Proof. eapply prep_mono; [apply prep_lifted|]. intros a h' [-> Ha]. split; [done|]. destruct o; [|done]. by injection Ha as ->. Qed.

Lemma prep_given {A} h (r : res A) : prep h (given r) (λ a h', h' = h ∧ r = Ok a).
Proof. eapply prep_mono; [apply prep_lifted|]. intros a h' [-> Ha]. split; [done|]. destruct r; [|done]. by injection Ha as ->. Qed.

Lemma listed_secrets (l l' : list Profile) : secrets_ok l → (∀ p, p ∈ l' → p ∈ l ∨ ∀ s, p_secret p = Some s → secret_ok s = true) → secrets_ok l'.
Proof. intros Hl H p s Hp Hs. destruct (H p Hp) as [Hin|Hok]; [by apply (Hl p)|by apply Hok]. Qed.

Lemma elem_of_replace {A} (l : list A) i a b : b ∈ <[i := a]> l → b ∈ l ∨ b = a.
Proof.
  intros Hb. apply list_elem_of_lookup in Hb as [j Hj]. apply list_lookup_insert_Some in Hj as [(-> & -> & _)|[_ Hj]]; [by right|left].
  by eapply list_elem_of_lookup_2.
Qed.

Lemma outcome_change {A B} h tok op S (r : result Error A) (r' : result Error B) h' : outcome h tok op S r h' →
  (is_ok r' = true → is_ok r = true) → outcome h tok op S r' h'.
Proof. intros [[H1 H2]|H] Hr; [left; split; [done|]; auto|by right]. Qed.

Lemma prep_random h n : prep h (on_disk (io (getrandom n))) (λ b h', Root h' = Root h ∧ length b = n ∧ b ∈ random (disk h)).
Proof.
  unfold prep, on_disk, io, getrandom.
  assert (quiet h (mkHandle (disk h) (uncertain h))) as Hq by (split; simpl; [done|by intros p m|done]).
  destruct (crashed (disk h)); [by split|]. destruct (random (disk h)) as [|b bs] eqn:E; [by split|].
  destruct (_ =? _)%nat eqn:El; simpl; (split; [split; simpl; [done|by intros p m|rewrite E; by exists [b]]|]); [|done].
  intros b' [= <-]. split; [done|]. split; [by apply Nat.eqb_eq|left].
Qed.

Section Operations.
Context (h : Handle) (tok : StateToken) (S : AState).
Hypothesis Hrep : represents (Root h) S.

Lemma active_key c h' : seen h tok S c h' → ∀ key, is_active key c = bool_decide (a_active S = Some key).
Proof.
  intros Hseen key. rewrite (se_active _ _ _ _ _ Hseen). unfold is_active. destruct (ct_active c) as [a|]; [|done].
  cbn [is_some_and fmap option_fmap option_map]. unfold eq_str. apply bool_decide_ext. naive_solver.
Qed.

Lemma runs_activate key : runs h (activate tok key) (outcome h tok (Activate key) S).
Proof.
  unfold activate. eapply runs_step; [done|apply prep_require|]. intros [] h1 Q1 _. eapply runs_step; [done|apply prep_lock_state|]. intros [] h2 Q2 _.
  eapply runs_expected; [done|done|]. intros c h3 Hseen. destruct key as [key|].
  - eapply (runs_step _ _ _ _ _ _ _ (λ active h', Root h' = Root h3 ∧ ∃ p a, active = Some (mkActive key (p_head p)) ∧
      a_profiles S !! key = Some a ∧ catalog_ready (rv_bundle (a_view a)) = Ok true)); [apply Hseen| |].
    + eapply prep_bind; [apply prep_found|]. intros [i p] h4 _ [-> Hf].
      destruct (find_some _ _ _ (se_lists _ _ _ _ _ Hseen) _ _ _ Hf) as (Hi & Hk & a & Ha & Hab).
      eapply prep_bind; [apply prep_read_bundle|]. intros v h4 _ (E4 & _ & Hv). cbn [snd] in Hv. rewrite (ab_view _ _ _ Hab) in Hv. injection Hv as <-.
      eapply prep_bind; [apply prep_given|]. intros r h5 _ [-> Hr]. eapply prep_bind; [apply prep_require|]. intros [] h5 _ [-> ->].
      eapply prep_mono; [apply prep_ret|]. intros active h5 [-> ->]. split; [done|]. exists p, a. cbn [snd]. by rewrite Hk.
    + intros active h4 Q4 (E4 & p & a & -> & Ha & Hr). eapply (runs_commit_step _ _ _ _ c); [exact Hseen|by rewrite E4|done|apply Hseen| | | |by eapply step_activate].
      * done.
      * done.
      * rewrite E4. apply Hseen.
  - eapply runs_step; [apply Hseen|apply prep_ret|]. intros active h4 Q4 [-> ->].
    eapply (runs_commit_step _ _ _ _ c); [exact Hseen|done|done|apply Hseen| | | |by eapply step_deactivate]; [done|done|apply Hseen].
Qed.

Lemma seen_profile c h' key i p : seen h tok S c h' → find_profile key (ct_profiles c) = Some (i, p) →
  ct_profiles c !! i = Some p ∧ p_key p = key ∧ ∃ a, a_profiles S !! key = Some a ∧ a_head a = p_head p ∧ abstracts (Root h') p a.
Proof.
  intros Hseen Hf. destruct (find_some _ _ _ (se_lists _ _ _ _ _ Hseen) _ _ _ Hf) as (Hi & Hk & a & Ha & Hab).
  split; [done|]. split; [done|]. exists a. split; [done|]. split; [|done]. pose proof (ab_view _ _ _ Hab) as Hv.
  apply read_bundle_inv in Hv as ((Hv & _) & _). unfold a_head. by rewrite Hv.
Qed.

Lemma runs_delete key head : runs h (delete tok key head) (outcome h tok (Delete key head) S).
Proof.
  unfold delete. eapply runs_step; [done|apply prep_lock_state|]. intros [] h2 Q2 _.
  eapply runs_expected; [done|done|]. intros c h3 Hseen. eapply runs_step; [apply Hseen|apply prep_found|]. intros [i p] h4 _ [-> Hf].
  destruct (seen_profile _ _ _ _ _ Hseen Hf) as (Hi & Hk & a & Ha & Hh & Hab).
  eapply runs_step; [apply Hseen|apply prep_require|]. intros [] h4 _ [-> He]. cbn [fst snd] in *. apply eq_str_true in He. rewrite <- Hh in He. subst head.
  eapply (runs_commit_step _ _ _ _ c); [exact Hseen|done| | | | | |by apply step_delete].
  - by destruct (is_active key c).
  - eapply listed_secrets; [apply Hseen|]. intros q Hq. left. eapply elem_of_submseteq; [|apply sublist_submseteq, (sublist_delete _ i)].
    by destruct (is_active key c).
  - done.
  - cbn [a_active next]. rewrite (active_key _ _ Hseen key). destruct (bool_decide _); [done|]. apply Hseen.
  - replace (ct_profiles (if is_active key c then _ else _)) with (base.delete i (ct_profiles c)) by (by destruct (is_active key c)).
    cbn [a_profiles next]. rewrite <- Hk. apply lists_remove; [apply Hseen|apply Hseen|done].
Qed.

(** A profile of the catalog is replaced. *)
Lemma runs_replace op c h1 h2 i p p' a' S' : seen h tok S c h1 → stable sealed kept (Root h1) (Root h2) → ct_profiles c !! i = Some p →
  (p_key p' = p_key p ∨ a_profiles S !! p_key p' = None) → abstracts (Root h2) p' a' →
  (∀ s, p_secret p' = Some s → secret_ok s = true) →
  S' = next S (a_active S) (<[p_key p' := a']> (base.delete (p_key p) (a_profiles S))) → astep op S S' →
  runs h2 (commit (with_profiles c (<[i := p']> (ct_profiles c)))) (outcome h tok op S).
Proof.
  intros Hseen Hs Hi Hk Hab Hsec -> Hstep. eapply (runs_commit_step _ _ _ _ c); [exact Hseen|exact Hs|done| | | | |exact Hstep]; [|done|apply Hseen|].
  - eapply listed_secrets; [apply Hseen|]. intros q Hq. apply elem_of_replace in Hq as [Hq| ->]; auto.
  - apply lists_replace; [eapply lists_stable; [exact Hs|apply Hseen]|apply Hseen|done..].
Qed.

Lemma abstracts_secret c h' p a : seen h tok S c h' → p ∈ ct_profiles c → abstracts (Root h') p a → ∀ s, p_secret p = Some s → secret_ok s = true.
Proof. intros Hseen Hp Hab s Hs. by apply (se_secrets _ _ _ _ _ Hseen p). Qed.

Lemma runs_select key head generation selections :
  runs h (select tok key head generation selections) (outcome h tok (Select key head generation selections) S).
Proof.
  unfold select. eapply runs_step; [done|apply prep_given|]. intros sel h1 _ [-> Hsel]. eapply runs_step; [done|apply prep_lock_state|]. intros [] h2 Q2 _.
  eapply runs_expected; [done|done|]. intros c h3 Hseen. eapply runs_step; [apply Hseen|apply prep_found|]. intros [i p] h4 _ [-> Hf].
  destruct (seen_profile _ _ _ _ _ Hseen Hf) as (Hi & Hk & a & Ha & Hh & Hab). cbn [fst snd].
  eapply runs_step; [apply Hseen|apply prep_require|]. intros [] h4 _ [-> He]. apply andb_true_iff in He as [He Hg].
  apply eq_str_true in He. apply Z.eqb_eq in Hg. rewrite <- Hh in He. rewrite <- (ab_generation _ _ _ Hab) in Hg. subst head generation.
  eapply runs_step; [apply Hseen|apply prep_read_bundle|]. intros v h4 Q4 (E4 & _ & _).
  eapply runs_step; [done|apply prep_require|]. intros [] h5 _ [-> _]. unfold with_desired.
  eapply (runs_replace _ c h3 h4 i p); [done|by rewrite E4|done|by left| |intros s; cbn; intros Hs; eapply abstracts_secret; eauto; by eapply list_elem_of_lookup_2|
    reflexivity|].
  - rewrite E4. destruct Hab as [A1 A2 A3 A4].
    apply (Build_abstracts _ _ (mkAProfile (a_view a) (a_generation a + 1) (selection_map sel) (a_secret a))); done.
  - cbn [p_key]. rewrite insert_delete_eq, Hk. by eapply step_select.
Qed.

Lemma runs_secret key head : supply_ok (disk h) →
  runs h (ensure_auto_controller_secret tok key head) (outcome h tok (Secret key head) S).
Proof.
  intros Hsupply. unfold ensure_auto_controller_secret. eapply runs_step; [done|apply prep_lock_state|]. intros [] h2 Q2 _.
  eapply runs_expected; [done|done|]. intros c h3 Hseen. eapply runs_step; [apply Hseen|apply prep_found|]. intros [i p] h4 _ [-> Hf].
  destruct (seen_profile _ _ _ _ _ Hseen Hf) as (Hi & Hk & a & Ha & Hh & Hab). cbn [fst snd].
  eapply runs_step; [apply Hseen|apply prep_require|]. intros [] h4 _ [-> He]. apply eq_str_true in He. rewrite <- Hh in He. subst head.
  eapply runs_step; [apply Hseen|apply prep_read_bundle|]. intros v h4 Q4 (E4 & _ & _). destruct (p_secret p) as [secret|] eqn:Es.
  - eapply runs_step; [done|apply (prep_disk _ _ (λ _ _, True))|].
    { apply tidy_io, tidy_bind; [apply tidy_open_file|intros b; apply tidy_ret]. }
    { apply safe_io. eapply safe_then; [apply safe_open_file|]. intros b y [-> _]. by eapply safe_mono; [apply safe_ret|]. }
    intros [] h5 Q5 _. eapply runs_step; [done|apply (prep_disk _ _ (λ _ _, True)); [apply tidy_context, tidy_io, tidy_chance|]|].
    { apply safe_context, safe_io. by eapply safe_mono; [apply safe_chance|]. }
    intros [] h6 Q6 _. left. split; [apply Q6|]. intros _. split; [apply Hseen|]. exists a. rewrite (ab_secret _ _ _ Hab), Es. eauto.
  - eapply runs_step; [done|apply prep_random|]. intros bytes h5 Q5 (E5 & Hlen & Hin). apply runs_bind.
    assert (secret_ok (hex bytes) = true) as Hok.
    { destruct (hex_spec bytes) as [H1 H2]; [apply (quiet_supply _ _ Q4 Hsupply), Hin|]. unfold secret_ok. apply andb_true_iff. split; [apply Nat.eqb_eq; lia|].
      apply forallb_forall. intros b Hb. rewrite Forall_forall in H2. by apply H2, list_elem_of_In. }
    eapply runs_mono; [eapply (runs_replace (Secret key (a_head a)) c h3 h5 i p); [done|by rewrite E5, E4|done|by left| | |reflexivity|]|].
    + rewrite E5, E4. destruct Hab as [A1 A2 A3 A4]. apply (Build_abstracts _ _ (mkAProfile (a_view a) (a_generation a) (a_selections a) (Some (hex bytes)))); done.
    + by intros s [= <-].
    + cbn [p_key]. rewrite insert_delete_eq, Hk. eapply step_secret; [done| |done]. by rewrite (ab_secret _ _ _ Hab).
    + intros r h6 Ho. destruct r as [rc|e]; [|by eapply outcome_change; [exact Ho|]]. unfold runs.
      destruct (rc_error rc); (eapply outcome_change; [exact Ho|done]).
Qed.

(** No other contents are stored under the name of the new revision. *)
Definition uncollided (v : RevisionView) (x : Node) : Prop := no_collision (rv_key v) (rv_revision v) v x.

Lemma uncollided_quiet h1 v key : rv_revision v = revision_id (rv_key v) key → quiet h h1 → uncollided v (Root h) → uncollided v (Root h1).
Proof.
  intros Hrev [Q1 Q2 _] Hc y v' Hs Hu Hv. apply (Hc y v'); [by etrans| |done]. intros p n Hn Hx. apply Hu; [done|]. apply Q2; [|done].
  destruct Hn as [->|Hn]; [left; rewrite Hrev; apply revision_id_hex|by right].
Qed.

Lemma runs_publish_revision h1 key b meta frozen : quiet h h1 → supply_ok (disk h) → revision_ok key b meta frozen →
  uncollided (keyed key b meta frozen) (Root h) →
  runs h1 (on_disk (publish_revision key (revision_id key (content_digest key b meta frozen)) (content_digest key b meta frozen) b meta frozen))
    (λ r h2, stable sealed kept (Root h1) (Root h2) ∧ (r = Ok tt →
      read_bundle key (revision_id key (content_digest key b meta frozen)) (still (Root h2)) = (still (Root h2), Ok (keyed key b meta frozen)))).
Proof.
  intros Hq Hsup Hok Hcol. pose proof (uncollided_quiet h1 (keyed key b meta frozen) _ eq_refl Hq Hcol) as Hcol1.
  destruct (quiet_supply _ _ Hq Hsup) as [Hfresh _].
  pose proof (publish_spec (disk h1) key b meta frozen Hfresh Hok Hcol1) as H. unfold runs, on_disk. by destruct (publish_revision _ _ _ _ _ _ (disk h1)) as [d r].
Qed.

Lemma stored_of_valid key : valid_key key = true → stored_key key = true.
Proof. unfold valid_key. by intros [_ ?]%andb_true_iff. Qed.

(** What [published] computes. *)
Lemma published_inv c key head b meta frozen act c' rev content : published c key head b meta frozen act = Ok (c', rev, content) →
  let index := find_profile key (ct_profiles c) in
  (λ ip, p_head (snd ip)) <$> index = head ∧ (if is_some index then stored_key key else valid_key key) = true ∧
  (act || is_active key c = true → catalog_ready b = Ok true) ∧ validate_metadata meta = true ∧ validate_override b frozen = Ok tt ∧
  content = content_digest key b meta frozen ∧ rev = revision_id key content ∧
  ∃ document d, parse_document (effective_source b) = Ok document ∧
    retain_selections document (match index with Some (_, p) => p_desired p | None => mkDesired 0 [] end) = Ok d ∧
    let p' := mkProfile key (storage_id key) rev d (match index with Some (_, p) => p_secret p | None => None end) in
    ct_sequence c' = ct_sequence c ∧
    ct_profiles c' = match index with Some (i, _) => <[i := p']> (ct_profiles c) | None => ct_profiles c ++ [p'] end ∧
    ct_active c' = (if act || is_active key c then Some (mkActive key rev) else ct_active c).
Proof.
  unfold published. set (index := find_profile key (ct_profiles c)). intros H.
  destruct (bool_decide _) eqn:E1; [|done]. apply bool_decide_eq_true in E1. cbn [negb] in H.
  destruct (if is_some index then _ else _) eqn:E2; [|done]. cbn [negb] in H.
  destruct (catalog_ready b) as [r|]; [|done]. cbn in H. destruct (act || is_active key c) eqn:Eact; cbn [negb orb] in H.
  - destruct r; [|done]. cbn [negb] in H. destruct (validate_metadata meta) eqn:E4; [|done]. cbn [negb] in H.
    destruct (validate_override b frozen) as [[]|] eqn:E5; [|done]. cbn in H. destruct (parse_document _) as [doc|]; [|done]. cbn in H.
    destruct (retain_selections _ _) as [d|] eqn:E7; [|done]. injection H as <- <- <-. do 7 (split; [done|]). exists doc, d. done.
  - destruct (validate_metadata meta) eqn:E4; [|done]. cbn [negb] in H.
    destruct (validate_override b frozen) as [[]|] eqn:E5; [|done]. cbn in H. destruct (parse_document _) as [doc|]; [|done]. cbn in H.
    destruct (retain_selections _ _) as [d|] eqn:E7; [|done]. injection H as <- <- <-. do 7 (split; [done|]). exists doc, d. done.
Qed.

Lemma astep_publish key head b meta frozen act document generation selections S' :
  a_head <$> a_profiles S !! key = head →
  (if is_some (a_profiles S !! key) then stored_key key else valid_key key) = true →
  (act || bool_decide (a_active S = Some key) = true → catalog_ready b = Ok true) →
  validate_metadata (sorted_metadata meta) = true → validate_override b frozen = Ok tt → parse_document (effective_source b) = Ok document →
  let old := a_profiles S !! key in
  retained document (from_option a_generation 0 old) (from_option a_selections ∅ old) = (generation, selections) →
  S' = next S (if act then Some key else a_active S)
         (<[key := mkAProfile (keyed key b (sorted_metadata meta) frozen) generation selections (old ≫= a_secret)]> (a_profiles S)) →
  astep (Publish key head b meta frozen act) S S'.
Proof.
  intros H1 H2 H3 H4 H5 H6 old Hr ->. pose proof (step_publish S key head b meta frozen act document H1 H2 H3 H4 H5 H6) as H. fold old in H.
  cbv zeta in H. by rewrite Hr in H.
Qed.

(** The profile a publication writes, and the profiles with it. *)
Lemma publish_lists c h1 h2 key rev d v document profiles :
  seen h tok S c h1 → stable sealed kept (Root h1) (Root h2) → read_bundle key rev (still (Root h2)) = (still (Root h2), Ok v) →
  let index := find_profile key (ct_profiles c) in
  retain_selections document (match index with Some (_, p) => p_desired p | None => mkDesired 0 [] end) = Ok d →
  let p' := mkProfile key (storage_id key) rev d (match index with Some (_, p) => p_secret p | None => None end) in
  profiles = match index with Some (i, _) => <[i := p']> (ct_profiles c) | None => ct_profiles c ++ [p'] end →
  let old := a_profiles S !! key in
  retained document (from_option a_generation 0 old) (from_option a_selections ∅ old) = (de_generation d, selection_map (de_selections d)) ∧
  (λ ip, p_head (snd ip)) <$> index = a_head <$> old ∧ is_some index = is_some old ∧ secrets_ok profiles ∧
  lists (Root h2) profiles (<[key := mkAProfile v (de_generation d) (selection_map (de_selections d)) (old ≫= a_secret)]> (a_profiles S)).
Proof.
  intros Hseen Hs Hv index Hret p' -> old.
  assert (lists (Root h2) (ct_profiles c) (a_profiles S)) as Hl by (eapply lists_stable; [exact Hs|apply Hseen]).
  destruct index as [[i p]|] eqn:Ef.
  - destruct (seen_profile _ _ _ _ _ Hseen Ef) as (Hi & Hk & a & Ha & Hh & Hab). assert (old = Some a) as -> by done.
    assert (p ∈ ct_profiles c) as Hin by (by eapply list_elem_of_lookup_2).
    assert (increasing sl_group (de_selections (p_desired p))) as Hinc.
    { pose proof (se_ok _ _ _ _ _ Hseen) as Hf. rewrite Forall_forall in Hf. destruct (Hf p Hin) as (_ & _ & _ & Hval).
      apply validated_map in Hval as (_ & ? & _). done. }
    destruct Hab as [A1 A2 A3 A4]. simpl. rewrite A2, A3, Hh. split; [by apply retain_map|]. split; [done|]. split; [done|]. split.
    + eapply listed_secrets; [apply Hseen|]. intros q Hq. apply elem_of_replace in Hq as [Hq| ->]; [by left|]. right. intros s Hsec.
      by apply (se_secrets _ _ _ _ _ Hseen p).
    + rewrite <- (insert_delete_eq (a_profiles S)). subst key.
      apply (lists_replace _ _ _ Hl (se_order _ _ _ _ _ Hseen) i p p'); [done|by left|]. by constructor.
  - assert (old = None) as Hold by (by eapply find_none; [apply Hseen|]). rewrite Hold. cbn [from_option]. split; [apply (retain_map _ (mkDesired 0 [])); [constructor|done]|]. split; [done|]. split; [done|]. split.
    + eapply listed_secrets; [apply Hseen|]. intros q Hq. apply elem_of_app in Hq as [Hq|Hq]; [by left|]. apply list_elem_of_singleton in Hq as ->. by right.
    + apply (lists_add _ _ _ Hl p'); [done|]. by constructor.
Qed.

Lemma runs_publish key head b meta frozen act : supply_ok (disk h) → bundle_wf b → digests_differ b →
  uncollided (keyed key b (sorted_metadata meta) frozen) (Root h) →
  runs h (publish_frozen tok key head b meta frozen act) (outcome h tok (Publish key head b meta frozen act) S).
Proof.
  intros Hsup Hwf Hdig Hcol. unfold publish_frozen. eapply (runs_step _ _ _ _ _ _ _ (λ _ _, True)); [done| |].
  { case_bool_decide; [|by eapply prep_mono; [apply prep_ret|]]. eapply prep_mono; [by apply prep_lock|done]. }
  intros [] h1 Q1 _. eapply runs_step; [done|apply prep_lock_state|]. intros [] h2 Q2 _.
  eapply runs_expected; [done|done|]. intros c h3 Hseen. eapply runs_step; [apply Hseen|apply prep_lifted|]. intros [[c' rev] content] h4 _ [-> Hpub].
  apply published_inv in Hpub as (P1 & P2 & P3 & P4 & P5 & -> & -> & document & d & P6 & P7 & P8 & P9 & P10).
  eapply runs_step; [apply Hseen|apply prep_require|]. intros [] h4 _ [-> _]. eapply runs_step; [apply Hseen|apply prep_given|]. intros _ h4 _ [-> _].
  apply runs_bind. eapply runs_mono; [apply runs_publish_revision; [apply Hseen|done| |done]|].
  { constructor; try done. destruct (is_some _); [done|]. by apply stored_of_valid. }
  intros r h4 [Hs Hr]. destruct r as [[]|e]; [|left; split; [|done]; etrans; [apply Hseen|done]].
  destruct (publish_lists c h3 h4 key _ d _ document _ Hseen Hs (Hr eq_refl) P7 P9) as (L1 & L2 & L3 & L4 & L5).
  eapply (runs_commit_step _ _ _ _ c c' h3); [exact Hseen|exact Hs|exact P8|exact L4| | | |
    eapply astep_publish; [| | |exact P4|exact P5|exact P6|exact L1|reflexivity]].
  - done.
  - cbn [next a_active]. rewrite P10, (active_key _ _ Hseen). destruct act; [done|]. cbn [orb]. case_bool_decide as Ha; [by rewrite Ha|apply Hseen].
  - exact L5.
  - by rewrite <- L2.
  - by rewrite <- L3.
  - by rewrite <- (active_key _ _ Hseen).
Qed.

Lemma runs_rename key head new_key : supply_ok (disk h) →
  (∀ a, a_profiles S !! key = Some a → a_head a = head → uncollided (rekey new_key (a_view a)) (Root h)) →
  runs h (Store.rename tok key head new_key) (outcome h tok (Rename key head new_key) S).
Proof.
  intros Hsup Hcol. unfold Store.rename. eapply runs_step; [done|apply prep_require|]. intros [] h1 _ [-> Hvalid].
  eapply runs_step; [done|apply prep_lock_state|]. intros [] h2 Q2 _.
  eapply runs_expected; [done|done|]. intros c h3 Hseen. eapply runs_step; [apply Hseen|apply prep_require|]. intros [] h4 _ [-> Hnew].
  eapply runs_step; [apply Hseen|apply prep_found|]. intros [i p] h4 _ [-> Hf]. cbn [fst snd].
  destruct (seen_profile _ _ _ _ _ Hseen Hf) as (Hi & Hk & a & Ha & Hh & Hab).
  eapply runs_step; [apply Hseen|apply prep_require|]. intros [] h4 _ [-> He]. apply eq_str_true in He. rewrite <- Hh in He. subst head.
  eapply runs_step; [apply Hseen|apply prep_read_bundle|]. intros v h4 Q4 (E4 & _ & Hv).
  pose proof (ab_view _ _ _ Hab) as Hv'. rewrite Hk, <- Hh, Hv in Hv'. injection Hv' as ->.
  destruct (read_bundle_inv _ _ _ _ _ Hv) as ((_ & _ & [O1 O2 O3 O4 O5]) & _).
  set (rev := revision_id new_key _). set (c' := renamed c i p new_key rev).
  eapply runs_step; [done|apply prep_require|]. intros [] h5 _ [-> _]. eapply runs_step; [done|apply prep_given|]. intros _ h5 _ [-> _].
  apply runs_bind. eapply runs_mono; [apply runs_publish_revision; [exact Q4|done| |by apply Hcol]|].
  { constructor; try done. by apply stored_of_valid. }
  intros r h5 [Hs Hr]. destruct r as [[]|e]; [|left; split; [|done]; etrans; [apply Q4|done]].
  assert (a_profiles S !! new_key = None) as Hfresh.
  { destruct (a_profiles S !! new_key) as [b|] eqn:E; [|done]. destruct (ls_sound _ _ _ (se_lists _ _ _ _ _ Hseen) _ _ E) as (q & Hq & Hqk).
    apply negb_true_iff, not_true_iff_false in Hnew. destruct Hnew. apply existsb_exists. exists q. split; [by apply list_elem_of_In|]. by apply eq_str_true. }
  set (p' := mkProfile new_key (storage_id new_key) rev (p_desired p) (p_secret p)).
  assert (ct_profiles c' = <[i := p']> (ct_profiles c)) as Ep by (unfold c', renamed; by destruct (is_active (p_key p) c)).
  eapply (runs_commit_step _ _ _ _ c c' h3); [exact Hseen|by rewrite <- E4|unfold c', renamed; by destruct (is_active (p_key p) c)| | | | |by apply step_rename].
  - rewrite Ep. eapply listed_secrets; [apply Hseen|]. intros q Hq. apply elem_of_replace in Hq as [Hq| ->]; [by left|]. right.
    intros s Hsec. apply (se_secrets _ _ _ _ _ Hseen p); [by eapply list_elem_of_lookup_2|done].
  - done.
  - cbn [next a_active]. unfold c', renamed. rewrite Hk, (active_key _ _ Hseen). case_bool_decide as Hact; [done|apply Hseen].
  - cbn [next a_profiles]. rewrite Ep, <- Hk. eapply (lists_replace _ _ _ _ (se_order _ _ _ _ _ Hseen) i p p'); [done|by right|].
    destruct Hab as [A1 A2 A3 A4]. constructor; try done. exact (Hr eq_refl).
  Unshelve. eapply lists_stable; [|apply Hseen]. by rewrite <- E4.
Qed.

End Operations.

(** C25: Round trip of a revision. Publishing the contents of a profile changes no revision that
    could be read before, whatever fails; and if it reports success, reading the revision
    gives exactly those contents back. *)
Theorem revision_roundtrip d key b meta frozen :
  let content := content_digest key b meta frozen in
  let rev := revision_id key content in
  fresh_names d → revision_ok key b meta frozen → uncollided (keyed key b meta frozen) (root d) →
  let '(d', r) := publish_revision key rev content b meta frozen d in
  (r = Ok tt → read_bundle key rev (still (root d')) = (still (root d'), Ok (keyed key b meta frozen))) ∧
  ∀ key' rev' v, read_bundle key' rev' (still (root d)) = (still (root d), Ok v) →
    read_bundle key' rev' (still (root d')) = (still (root d'), Ok v).
Proof.
  intros content rev Hfresh Hok Hcol. pose proof (publish_spec d key b meta frozen Hfresh Hok Hcol) as H.
  fold content rev in H. destruct (publish_revision _ _ _ _ _ _ d) as [d' r]. destruct H as [H1 H2]. split; [done|].
  intros key' rev' v Hv. by eapply read_bundle_stable.
Qed.

End Spec.

End StoreSpec.
