(* ===== verification/StoreSafety.v ===== *)
(** * The store is crash safe

    The theorems about the store as a whole: it refines the map of profiles under every
    failure and crash, concurrent callers never lose an update, and every directory that the
    operations lead to has readable heads and an active profile that can run. *)
From S2P Require Import Prelude Utf8 BTree Json Disk DiskFacts Bundle Revision RevisionFacts RevisionRead Store CatalogFacts StoreFacts StoreSpec.

Module StoreSafety.
Import Disk DiskFacts Bundle Revision RevisionFacts RevisionRead Store CatalogFacts StoreFacts StoreSpec.

Section Safety.
Context `{HS : Sha256, HI : Serde Identity, HM : Serde Manifest, HC : Serde Catalog, HJ : !CatalogJson, HP : Parsers}.

(** What the operations rely on: random names that are not in use, a bundle within the limits
    (as [from_memory] makes it) whose files have distinct digests, and that the name of the
    new revision, a digest of its contents, is not the name of other contents. *)
Definition permitted (h : Handle) (op : Op) : Prop :=
  supply_ok (disk h) ∧
  match op with
  | Publish key _ b meta frozen _ => bundle_wf b ∧ digests_differ b ∧ uncollided (keyed key b (sorted_metadata meta) frozen) (Root h)
  | Rename key head new_key => ∀ v, read_bundle key head (still (Root h)) = (still (Root h), Ok v) → uncollided (rekey new_key v) (Root h)
  | _ => True
  end.

(** There is nothing under the name of the new revision. *)
Lemma uncollided_fresh v x : node_at [PROFILES; storage_id (rv_key v); REVISIONS; rv_revision v] x = None → uncollided v x.
Proof.
  intros Hx y v' _ Hu Hv. destruct (read_bundle_inv _ _ _ _ _ Hv) as (_ & _ & [t Ht] & _).
  pose proof (Hu [PROFILES; storage_id (rv_key v); REVISIONS] (rv_revision v) ltac:(by left) Hx) as Hy. cbn [app] in Hy. congruence.
Qed.

Lemma represents_view x S key a : represents x S → a_profiles S !! key = Some a →
  read_bundle key (a_head a) (still x) = (still x, Ok (a_view a)).
Proof.
  intros (bytes & c & H1 & _ & _ & Hl) Ha. destruct (ls_sound _ _ _ Hl _ _ Ha) as (p & Hp & Hk).
  destruct (ls_complete _ _ _ Hl p Hp) as (a' & Ha' & Hab). rewrite Hk, Ha in Ha'. injection Ha' as <-.
  pose proof (ab_view _ _ _ Hab) as Hv. destruct (read_bundle_inv _ _ _ _ _ Hv) as ((Hv' & _) & _).
  assert (a_head a = p_head p) as -> by (unfold a_head; by rewrite Hv'). by rewrite <- Hk.
Qed.

Lemma run_outcome h tok op S : represents (Root h) S → permitted h op → runs h (run tok op) (outcome h tok op S).
Proof.
  intros Hrep [Hsup Hop]. destruct op; cbn [run]; apply runs_done.
  - destruct Hop as (H1 & H2 & H3). by apply runs_publish.
  - by apply runs_activate.
  - by apply runs_delete.
  - apply runs_rename; [done|done|]. intros a Ha Hh. apply Hop. rewrite <- Hh. by eapply represents_view.
  - by apply runs_secret.
  - by apply runs_select.
Qed.

(** C7: Refinement under failures and crashes. A directory that represents a map of profiles
    represents, after any operation and whatever system call of it fails or is the last one
    before a crash, either the same map or the map the operation of the abstract store leads
    to; the latter only if the caller's token was that of the current state, and always if
    the operation reports success (unless there was nothing to do). *)
Theorem store_refines h tok op S : represents (Root h) S → permitted h op →
  let '(h', r) := run tok op h in
  (represents (Root h') S ∧ (r = Ok tt → idle op S)) ∨
  (current (Root h) tok ∧ ∃ S', astep op S S' ∧ represents (Root h') S').
Proof.
  intros Hrep Hop. pose proof (run_outcome h tok op S Hrep Hop) as H. unfold runs in H. destruct (run tok op h) as [h' r].
  destruct H as [[H1 H2]|(H1 & _ & H2)]; [left|by right]. split; [by eapply represents_stable|]. intros ->. by apply H2.
Qed.

Lemma current_sequence x tok S : current x tok → represents x S → tk_sequence tok = a_sequence S.
Proof.
  intros (bytes & c & H1 & ->) (bytes' & c' & H2 & H3 & _). destruct (holds_unique _ _ _ _ _ H1 H2) as [-> ->].
  rewrite H3. unfold token_of, token. by destruct bytes'.
Qed.

Lemma astep_sequence op S S' : astep op S S' → a_sequence S' = a_sequence S + 1.
Proof. by destruct 1. Qed.

(** C8: No update is lost. Once an operation has changed the store, every operation of a
    caller that still holds the earlier token is refused and changes nothing. *)
Theorem store_no_lost_update h tok op1 op2 S h1 : represents (Root h) S → permitted h op1 → run tok op1 h = (h1, Ok tt) → ¬ idle op1 S →
  permitted h1 op2 →
  ∃ S1, astep op1 S S1 ∧ let '(h2, r2) := run tok op2 h1 in r2 ≠ Ok tt ∧ represents (Root h2) S1.
Proof.
  intros Hrep Hop1 E Hidle Hop2. pose proof (run_outcome h tok op1 S Hrep Hop1) as H. unfold runs in H. rewrite E in H.
  destruct H as [[_ H]|(Hcur & _ & S1 & Hstep & Hrep1)]; [by destruct Hidle; apply H|]. exists S1. split; [done|].
  assert (¬ current (Root h1) tok) as Hstale.
  { intros Hc. pose proof (current_sequence _ _ _ Hc Hrep1) as H1. rewrite (current_sequence _ _ _ Hcur Hrep), (astep_sequence _ _ _ Hstep) in H1. lia. }
  pose proof (run_outcome h1 tok op2 S1 Hrep1 Hop2) as H. unfold runs in H. destruct (run tok op2 h1) as [h2 r2].
  destruct H as [[H1 H2]|(Hc & _)]; [|done]. split; [|by eapply represents_stable]. intros ->. by destruct (H2 eq_refl).
Qed.

(** ** Every history *)

Definition initial : AState := mkAState 0 None ∅.

(** The directories that operations lead to, from an empty one: each runs with some schedule of
    failures, and after a crash the next one starts from what is there. *)
Inductive reaches : Node → Prop :=
| reach_empty : reaches (Dir ∅)
| reach_run h tok op : reaches (Root h) → permitted h op → reaches (Root (fst (run tok op h))).

(** The maps the abstract operations lead to. *)
Definition history : AState → AState → Prop := rtc (λ S S', ∃ op, astep op S S').

Lemma represents_initial : represents (Dir ∅) initial.
Proof.
  exists None, empty_catalog. split; [split; [done|split; [done|by intros]]|]. split; [done|]. split; [done|].
  split; [by intros k a|]. intros p Hp. by apply not_elem_of_nil in Hp.
Qed.

(** C9: Invariant of every history. Whatever operations ran, failed and crashed, the
    directory represents a map that operations of the specification lead to from the empty
    one, in which the revision of every profile can be read and the active profile, if there is one, can run. *)
Theorem store_always_ready x : reaches x →
  ∃ S, history initial S ∧ represents x S ∧ active_ready S ∧
    ∀ key a, a_profiles S !! key = Some a → read_bundle key (a_head a) (still x) = (still x, Ok (a_view a)).
Proof.
  intros H. assert (∃ S, history initial S ∧ represents x S ∧ active_ready S) as (S & H1 & H2 & H3).
  - induction H as [|h tok op _ (S & H1 & H2 & H3) Hop].
    { exists initial. split; [constructor|]. split; [apply represents_initial|done]. }
    pose proof (run_outcome h tok op S H2 Hop) as H. unfold runs in H. destruct (run tok op h) as [h' r]. cbn [fst].
    destruct H as [[H4 _]|(_ & _ & S' & Hs & H4)].
    + exists S. split; [done|]. split; [by eapply represents_stable|done].
    + exists S'. split; [eapply rtc_r; [done|by exists op]|]. split; [done|]. by eapply astep_ready.
  - exists S. do 3 (split; [done|]). intros key a. by apply represents_view.
Qed.

(** ** An identity that was being installed

    [install_new] links the new file to its name before it removes the name it was written
    under. *)

Definition fixes {E A} (x : Node) (m : SE Disk E A) (Q : A → Prop) : Prop := ∀ d, root d = x →
  let '(d', r) := m d in root d' = x ∧ ∀ a, r = Ok a → Q a.

Lemma fixes_bind {E A B} x (m : SE Disk E A) (k : A → SE Disk E B) Q R : fixes x m Q → (∀ a, Q a → fixes x (k a) R) → fixes x (sbind m k) R.
Proof.
  intros Hm Hk d Hd. specialize (Hm d Hd). unfold sbind. destruct (m d) as [d1 [a|e]]; [|by destruct Hm]. destruct Hm as [H1 H2].
  exact (Hk a (H2 a eq_refl) d1 H1).
Qed.

Lemma fixes_reads {E A} x (m : SE Disk E A) Q : reads m → (∀ a, m (still x) = (still x, Ok a) → Q a) → fixes x m Q.
Proof.
  intros Hm HQ d <-. destruct (Hm d) as [H1 H2]. destruct (m d) as [d' r]. simpl in *. split; [done|]. intros a ->. by apply HQ, H2.
Qed.

Lemma fixes_io {A} x (m : IO A) Q : fixes x m Q → fixes x (io m) Q.
Proof. intros Hm d Hd. specialize (Hm d Hd). unfold io. destruct (m d) as [d' r]. destruct Hm as [H1 H2]. split; [done|]. intros a. destruct r; [|done]. intros [= <-]. by apply H2. Qed.

(** A directory that is there is opened. *)
Lemma fixes_child x (dir : list str) n create t : node_at (dir ++ [n]) x = Some (Dir t) → fixes x (child dir n create) (λ p, p = dir ++ [n]).
Proof.
  intros Ht. apply node_at_up in Ht as (u & Hu & Hn). eapply (fixes_bind _ _ _ (λ _, True)); [by apply fixes_reads; [apply reads_component|]|]. intros _ _.
  eapply (fixes_bind _ _ _ (λ _, True)).
  - destruct create; [|by apply fixes_reads; [apply reads_ret|]]. eapply (fixes_bind _ _ _ (λ _, True)).
    + intros d Hd. unfold tried, mkdirat. pose proof (atomic_cases (in_dir dir (λ t, match t !! n with Some _ => Err AlreadyExists | None => Ok (<[n := Dir ∅]> t, tt) end)) d) as Hc.
      destruct (atomic _ d) as [d' r]. destruct Hc as [[Hc|[a Ha]] _]; [by rewrite Hc|]. rewrite Hd in Ha. unfold in_dir in Ha. by rewrite Hu, Hn in Ha.
    + intros [[]|[]] _; apply fixes_reads; try done; try apply reads_err; [apply reads_chance|apply reads_ret].
  - intros _ _. apply fixes_reads.
    + apply reads_look. intros t' t'' a. destruct (t' !! n) as [[]|]; congruence.
    + intros p Hp. unfold open_directory in Hp. erewrite still_look in Hp; [|exact Hu|by rewrite Hn]. by injection Hp.
Qed.

Lemma linked_unreadable x key b o : node_at [PROFILES; storage_id key; IDENTITY] x = Some (Linked b o) →
  fixes x (verify_identity [PROFILES; storage_id key] key) (λ _, False).
Proof.
  intros Hx. apply fixes_reads; [apply reads_identity|]. intros [] Hv. apply identity_ok_read in Hv as (b' & i & Hb & _). congruence.
Qed.

(** A publication finds an identity with two names, and fails. *)
Lemma linked_identity_blocks x key revision content bundle meta frozen b o :
  node_at [PROFILES; storage_id key; IDENTITY] x = Some (Linked b o) →
  fixes x (publish_revision key revision content bundle meta frozen) (λ _, False).
Proof.
  intros Hx. pose proof Hx as H2. apply (node_at_up [PROFILES; storage_id key]) in H2 as (t2 & H2 & Hi).
  pose proof H2 as H1. apply (node_at_up [PROFILES]) in H1 as (t1 & H1 & _).
  eapply (fixes_bind _ _ _ (λ _, True)).
  { intros d Hd. destruct (encode_cases key revision content bundle meta frozen d) as [[e ->]|(-> & _)]; done. }
  intros [identity manifest] _. eapply (fixes_bind _ _ _ (λ _, False)); [|done].
  eapply (fixes_bind _ _ _ (λ p, p = [PROFILES; storage_id key])).
  { eapply fixes_bind; [apply fixes_io; by eapply (fixes_child x [])|]. intros p ->. apply fixes_io. by eapply fixes_child. }
  intros p ->. eapply (fixes_bind _ _ _ (λ _, False)); [|done].
  eapply (fixes_bind _ _ _ (λ b, b = true)).
  { apply fixes_reads; [apply reads_io, reads_exists|]. intros present Hp. apply io_inv in Hp. erewrite still_exists in Hp; [|done|exact H2].
    injection Hp as <-. by rewrite Hi. }
  intros present ->. by eapply linked_unreadable.
Qed.

End Safety.

End StoreSafety.
