(* ===== verification/Interrupted.v ===== *)
(** * A publication that was interrupted blocks its key

    [install_new] links a new file to its name before it removes the name it was written
    under. A process that dies in between leaves an identity with two names, and reading
    refuses files with more than one link: no later publication of the key succeeds, and
    publications of other keys do not touch its directory. *)
From S2P Require Import Prelude Utf8 BTree Json Disk DiskFacts Bundle Revision RevisionFacts RevisionRead Store CatalogFacts StoreFacts StoreSpec StoreSafety.

Module Interrupted.
Import Disk DiskFacts Bundle Revision RevisionFacts RevisionRead StoreSafety.

Implicit Types (dir p q : list str) (x y : Node) (t : Entries).

(** ** What an operation leaves alone *)

(** [m] leaves the node at [q] as it is, if there is one, and its result satisfies [Q]. *)
Definition spares {E A} q (m : SE Disk E A) (Q : A → Prop) : Prop := ∀ d, is_Some (node_at q (root d)) →
  let '(d', r) := m d in node_at q (root d') = node_at q (root d) ∧ ∀ a, r = Ok a → Q a.

Lemma spares_bind {E A B} q (m : SE Disk E A) (k : A → SE Disk E B) Q R :
  spares q m Q → (∀ a, Q a → spares q (k a) R) → spares q (sbind m k) R.
Proof.
  intros Hm Hk d Hd. specialize (Hm d Hd). unfold sbind. destruct (m d) as [d1 [a|e]]; destruct Hm as [H1 H2]; [|done].
  specialize (Hk a (H2 a eq_refl) d1). rewrite <- H1 in Hd |- *. by apply Hk.
Qed.

Lemma spares_seq {E A B} q (m : SE Disk E A) (k : A → SE Disk E B) R :
  spares q m (λ _, True) → (∀ a, spares q (k a) R) → spares q (sbind m k) R.
Proof. intros Hm Hk. eapply spares_bind; [exact Hm|auto]. Qed.

Lemma spares_weaken {E A} q (m : SE Disk E A) (Q : A → Prop) : spares q m Q → spares q m (λ _, True).
Proof. intros H d Hd. specialize (H d Hd). destruct (m d) as [d' r]. by destruct H. Qed.

Lemma spares_same {E A} q (m : SE Disk E A) : (∀ d, root (fst (m d)) = root d) → spares q m (λ _, True).
Proof. intros H d _. specialize (H d). destruct (m d) as [d' r]. simpl in H. by rewrite H. Qed.

Lemma spares_reads {E A} q (m : SE Disk E A) : reads m → spares q m (λ _, True).
Proof. intros H. apply spares_same. intros d. apply (H d). Qed.

Lemma spares_ret {E A} q (a : A) (Q : A → Prop) : Q a → spares q (sret (S:=Disk) (E:=E) a) Q.
Proof. intros Ha d _. split; [done|]. by intros ? [= <-]. Qed.

Lemma spares_err {E A} q (e : E) (Q : A → Prop) : spares q (serr (S:=Disk) (A:=A) e) Q.
Proof. intros d _. by split. Qed.

Lemma spares_io {A} q (m : IO A) Q : spares q m Q → spares q (io m) Q.
Proof.
  intros H d Hd. specialize (H d Hd). unfold io. destruct (m d) as [d' r]. destruct H as [H1 H2]. split; [done|].
  intros a. destruct r; [|done]. intros [= <-]. by apply H2.
Qed.

Lemma spares_tried {E A} q (m : SE Disk E A) : spares q m (λ _, True) → spares q (tried m) (λ _, True).
Proof. intros H d Hd. specialize (H d Hd). unfold tried. destruct (m d) as [d' r]. by destruct H. Qed.

Lemma spares_atomic {A} q (act : Node → result IoError (Node * A)) :
  (∀ x y a, act x = Ok (y, a) → is_Some (node_at q x) → node_at q y = node_at q x) → spares q (atomic act) (λ _, True).
Proof.
  intros H d Hd. pose proof (atomic_cases act d) as Hc. destruct (atomic act d) as [d' r]. split; [|done].
  destruct Hc as [[->|[a Ha]] _]; [done|]. by eapply H.
Qed.

(** ** Directories that have nothing to do with a path *)

Definition apart p q : Prop := ¬ p `prefix_of` q ∧ ¬ q `prefix_of` p.

Lemma apart_below p r q : apart p q → apart (p ++ r) q.
Proof.
  intros [H1 H2]. split; intros H; [apply H1|].
  - etrans; [|exact H]. by apply prefix_app_r.
  - destruct (prefix_weak_total q p (p ++ r)) as [?|?]; [done|by apply prefix_app_r|done|done].
Qed.

Lemma spares_in_dir {A} q dir (f : Entries → result IoError (Entries * A)) :
  apart dir q → spares q (atomic (in_dir dir f)) (λ _, True).
Proof.
  intros [H1 H2]. apply spares_atomic. intros x y a Hy _. apply in_dir_Ok in Hy as (t & t' & _ & _ & ->).
  by apply node_at_set_other.
Qed.

Lemma spares_component q n : spares q (component n) (λ _, True).
Proof. apply spares_reads, reads_component. Qed.

Lemma spares_chance q : spares q chance (λ _, True).
Proof. apply spares_reads, reads_chance. Qed.

Lemma spares_nonce q : spares q nonce (λ _, True).
Proof.
  apply spares_same. intros d. unfold nonce, getrandom, sbind. destruct (crashed d); [done|].
  destruct (random d) as [|b bs]; [done|]. by destruct (_ =? _)%nat.
Qed.

(** A new directory leaves alone what is there. *)
Lemma spares_mkdirat q dir n : ¬ q `prefix_of` dir → spares q (mkdirat dir n) (λ _, True).
Proof.
  intros Hq. apply spares_atomic. intros x y a Hy Hx. apply in_dir_Ok in Hy as (t & t' & Hd & Hf & ->).
  destruct (t !! n) eqn:En; [done|]. injection Hf as <-. destruct (decide (dir `prefix_of` q)) as [[r ->]|Hn].
  - rewrite (node_at_set dir r _ x _ Hd). rewrite node_at_app, Hd in Hx |- *. destruct r as [|m r]; [by rewrite app_nil_r in Hq; destruct Hq|].
    simpl in *. destruct (decide (m = n)) as [->|Hne]; [rewrite En in Hx; by destruct Hx|]. by rewrite lookup_insert_ne.
  - by apply node_at_set_other.
Qed.

Lemma spares_child q dir n create : ¬ q `prefix_of` dir → spares q (child dir n create) (λ p, p = dir ++ [n]).
Proof.
  intros Hq. unfold child. apply spares_seq; [apply spares_component|]. intros _. apply spares_seq.
  - destruct create; [|by apply spares_ret]. apply spares_seq; [by apply spares_tried, spares_mkdirat|].
    intros [[]|[]]; first [apply spares_chance|by apply spares_ret|apply spares_err].
  - intros _ d Hd. unfold open_directory.
    pose proof (atomic_cases (in_dir dir (λ t, match t !! n with Some (Dir _) => Ok (t, dir ++ [n])
      | Some _ => Err (Invalid "not a regular file or directory") | None => Err NotFound end)) d) as Hc.
    destruct (atomic _ d) as [d' r]. destruct Hc as [Hc Hr]. split.
    + destruct Hc as [->|[a Ha]]; [done|]. apply in_dir_Ok in Ha as (t & t' & H1 & H2 & ->).
      destruct (t !! n) as [[]|]; try done. injection H2 as <- <-. by rewrite set_at_same.
    + intros a ->. destruct (in_dir_Ok _ _ _ _ _ (Hr a eq_refl)) as (t & t' & _ & H2 & _).
      destruct (t !! n) as [[]|]; try done. by injection H2 as <- <-.
Qed.

(** *** Files in such a directory *)

Section Apart.
Context (dir q : list str) (Hapart : apart dir q).

Lemma spares_create n : spares q (create_file dir n) (λ _, True).
Proof. apply spares_seq; [apply spares_component|]. intros _. by apply spares_in_dir. Qed.

Lemma spares_write n bytes : spares q (write_file dir n bytes) (λ _, True).
Proof.
  intros d _. unfold write_file. pose proof (prim_cases (λ x, Ok (put dir n bytes x, tt)) (λ k x, put dir n (take k bytes) x) d) as Hc.
  assert (∀ b x, node_at q (put dir n b x) = node_at q x) as Hput.
  { intros b x. unfold put. destruct (apart_below dir [n] q Hapart). by apply node_at_set_other. }
  destruct (prim _ _ d) as [d' r]. split; [|done]. destruct Hc as [[->|[[k ->]|[a Ha]]] _]; [done|apply Hput|].
  injection Ha as <- _. apply Hput.
Qed.

Lemma spares_write_new n bytes : spares q (write_new dir n bytes) (λ _, True).
Proof.
  apply spares_seq; [apply spares_create|]. intros _. apply spares_seq; [apply spares_write|]. intros _. apply spares_chance.
Qed.

Lemma spares_remove n : spares q (remove_file dir n) (λ _, True).
Proof. apply spares_seq; [apply spares_component|]. intros _. by apply spares_in_dir. Qed.

Lemma spares_rename a b : spares q (rename dir a b) (λ _, True).
Proof. do 2 (apply spares_seq; [apply spares_component|]; intros _). by apply spares_in_dir. Qed.

Lemma spares_install n bytes : spares q (install_new dir n bytes) (λ _, True).
Proof.
  apply spares_seq; [apply spares_component|]. intros _. apply spares_seq; [apply spares_nonce|]. intros s. cbv zeta.
  apply spares_seq.
  - apply spares_tried. apply spares_seq; [apply spares_write_new|]. intros _. apply spares_seq; [by apply spares_in_dir|].
    intros _. apply spares_seq; [apply spares_remove|]. intros _. apply spares_seq; [apply spares_tried, spares_chance|].
    intros r. by apply spares_ret.
  - intros r. apply spares_seq; [apply spares_tried, spares_remove|]. intros _. by apply spares_same.
Qed.

Lemma spares_open_lock rounds n : spares q (open_lock rounds dir n) (λ _, True).
Proof.
  induction rounds as [|rounds IH]; simpl; [apply spares_err|].
  apply spares_seq; [apply spares_tried, spares_reads, reads_open_file|].
  intros [b|[]]; first [by apply spares_ret|apply spares_err|idtac].
  apply spares_seq; [apply spares_tried, spares_create|]. intros created. apply spares_seq.
  - destruct created as [|[]]; first [by apply spares_ret|apply spares_err|apply spares_seq; [|intros _]; apply spares_chance].
  - intros _. apply spares_seq; [apply spares_chance|]. intros _. exact IH.
Qed.

Lemma spares_lock n : spares q (lock dir n) (λ _, True).
Proof.
  apply spares_seq; [apply spares_open_lock|]. intros _. apply spares_seq; [apply spares_chance|]. intros _.
  apply spares_seq; [apply spares_reads, reads_open_file|]. intros _. by apply spares_ret.
Qed.

End Apart.

(** ** Publishing another key *)

Section Publishing.
Context `{HS : Sha256, HI : Serde Identity, HM : Serde Manifest}.

Definition profile (key : str) : list str := [PROFILES; storage_id key].
Definition identity_path (key : str) : list str := profile key ++ [IDENTITY].

Lemma spares_verify q dir key : spares q (verify_identity dir key) (λ _, True).
Proof. apply spares_reads, reads_identity. Qed.

Lemma spares_identity q dir key identity : apart dir q → spares q (store_identity dir key identity) (λ _, True).
Proof.
  intros Ha. apply spares_seq; [apply spares_io, spares_reads, reads_exists|]. intros [|]; [apply spares_verify|].
  apply spares_seq; [by apply spares_tried, spares_io, spares_install|].
  intros [[e|]|[[]|m|e]]; first [by apply spares_ret|apply spares_err|apply spares_verify].
Qed.

Lemma spares_objects q dir assets : apart dir q → spares q (write_objects dir assets) (λ _, True).
Proof.
  intros Ha. induction assets as [|a assets IH]; simpl; [by apply spares_ret|].
  apply spares_seq; [apply spares_io, spares_reads, reads_exists|]. intros [|].
  - apply spares_seq; [by apply spares_ret|]. by intros _.
  - apply spares_seq; [by apply spares_io, spares_write_new|]. by intros _.
Qed.

Lemma spares_staging q dir b frozen manifest : apart dir q → spares q (write_staging dir b frozen manifest) (λ _, True).
Proof.
  intros Ha. assert (∀ n bytes, spares q (io (write_new dir n bytes)) (λ _, True)) as Hw by (intros; by apply spares_io, spares_write_new).
  assert (spares q (io sync) (λ _, True)) as Hsync by apply spares_io, spares_chance.
  apply spares_seq; [apply Hw|]. intros _. apply spares_seq; [destruct (b_materialized b); [apply Hw|by apply spares_ret]|]. intros _.
  apply spares_seq.
  { destruct frozen as [v|]; [|by apply spares_ret]. apply spares_seq; [apply Hw|]. intros _. apply Hw. }
  intros _. eapply spares_bind; [apply spares_io, spares_child, Ha|]. intros objects ->.
  apply spares_seq; [by apply spares_objects, apart_below|]. intros _. apply spares_seq; [apply Hsync|]. intros _.
  apply spares_seq; [apply Hw|]. intros _. apply Hsync.
Qed.

Lemma spares_revision q dir n revision b frozen manifest : apart dir q → spares q (write_revision dir n revision b frozen manifest) (λ _, True).
Proof.
  intros Ha. eapply spares_bind; [apply spares_io, spares_child, Ha|]. intros staging ->.
  apply spares_seq; [by apply spares_staging, apart_below|]. intros _.
  apply spares_seq; [by apply spares_io, spares_rename|]. intros _. apply spares_io, spares_chance.
Qed.

Lemma apart_profile key key' : storage_id key' ≠ storage_id key → apart (profile key') (identity_path key).
Proof. intros Hne. split; intros [r Hr]; unfold profile, identity_path in Hr; simpl in Hr; simplify_eq. Qed.

Lemma spares_open q key identity : apart (profile key) q → ¬ q `prefix_of` [PROFILES] →
  spares q (open_revisions key identity) (λ p, p = profile key ++ [REVISIONS]).
Proof.
  intros Ha Hp. eapply (spares_bind _ _ _ (λ p, p = profile key)).
  { eapply spares_bind; [apply spares_io, spares_child|].
    - intros Hq. apply Hp. etrans; [exact Hq|]. by exists [PROFILES].
    - intros p ->. by apply spares_io, spares_child. }
  intros p ->. apply spares_seq; [by apply spares_identity|]. intros _.
  eapply spares_bind; [apply spares_io, spares_child, Ha|]. intros p ->.
  apply spares_seq; [by apply spares_io, spares_lock, apart_below|]. intros _. by apply spares_ret.
Qed.

Lemma spares_publish key key' revision content b meta frozen : storage_id key' ≠ storage_id key →
  spares (identity_path key) (publish_revision key' revision content b meta frozen) (λ _, True).
Proof.
  intros Hne. pose proof (apart_profile key key' Hne) as Ha.
  apply spares_seq; [apply spares_same; intros d; by destruct (encode_cases key' revision content b meta frozen d) as [[e ->]|(-> & _)]|].
  intros [identity manifest]. eapply spares_bind; [apply spares_open; [done|]|].
  { intros [r Hr]. done. }
  intros p ->. apply spares_seq; [apply spares_io, spares_reads, reads_exists|]. intros [|].
  - apply spares_seq; [apply spares_reads, reads_bundle|]. intros _. apply spares_io, spares_chance.
  - apply spares_seq; [apply spares_io, spares_nonce|]. intros n. by apply spares_revision, apart_below.
Qed.

(** ** The interruption *)

Lemma atomic_fine {A} dir (f : Entries → result IoError (Entries * A)) x t t' a rest names :
  node_at dir x = Some (Dir t) → f t = Ok (t', a) →
  atomic (in_dir dir f) (mkDisk x (Fine :: rest) names false) = (mkDisk (set_at dir (Dir t') x) rest names false, Ok a).
Proof. intros Hd Hf. unfold atomic, prim, in_dir. simpl. by rewrite Hd, Hf. Qed.

Lemma seq_ok {E A B} (m : SE Disk E A) (k : A → SE Disk E B) d d' a : m d = (d', Ok a) → sbind m k d = k a d'.
Proof. intros H. unfold sbind. by rewrite H. Qed.

Lemma temporary_component s : Forall is_byte s → single_component (lit ".install-" ++ hex s) = true.
Proof.
  intros Hs. destruct (hex_spec s Hs) as [_ Hh]. unfold single_component. rewrite existsb_app.
  assert (existsb (λ b, (b =? 47) || (b =? 92) || (b =? 0)) (hex s) = false) as ->.
  { apply not_true_iff_false. rewrite existsb_exists. intros (c & Hc & Hx). rewrite Forall_forall in Hh.
    apply list_elem_of_In, Hh in Hc. unfold is_lower_hex, is_ascii_digit in Hc. blia. }
  done.
Qed.

(** The file written under a temporary name and linked to its own. *)
Lemma install_linked dir n temp bytes x t rest names : node_at dir x = Some (Dir t) → t !! n = None → t !! temp = None →
  single_component temp = true → n ≠ temp →
  let both := <[n := Linked bytes temp]> (<[temp := Linked bytes n]> t) in
  sbind (write_new dir temp bytes) (λ _, linkat dir temp n) (mkDisk x ([Fine; Fine; Fine; Fine] ++ rest) names false) =
  (mkDisk (set_at dir (Dir both) x) rest names false, Ok tt).
Proof.
  intros Hd Hn Ht Hc Hne both. set (x1 := set_at dir (Dir (<[temp := File []]> t)) x).
  assert (node_at dir x1 = Some (Dir (<[temp := File []]> t))) as H1 by by eapply node_at_set_eq.
  set (x2 := set_at dir (Dir (<[temp := File bytes]> t)) x).
  assert (node_at dir x2 = Some (Dir (<[temp := File bytes]> t))) as H2 by by eapply node_at_set_eq.
  rewrite (seq_ok _ _ _ (mkDisk x2 (Fine :: rest) names false) tt).
  - unfold linkat. erewrite atomic_fine; [|exact H2|rewrite lookup_insert_eq, lookup_insert_ne, Hn by done; reflexivity].
    unfold x2. by rewrite set_at_set, insert_insert_eq.
  - unfold write_new. rewrite (seq_ok _ _ _ (mkDisk x1 ([Fine; Fine; Fine] ++ rest) names false) tt).
    + assert (put dir temp bytes x1 = x2) as Hput; [|by rewrite <- Hput].
      unfold put. rewrite (set_at_snoc dir temp _ _ _ (File []) H1) by (by rewrite lookup_insert_eq).
      unfold x1, x2. by rewrite set_at_set, insert_insert_eq.
    + unfold create_file. rewrite (seq_ok _ _ _ (mkDisk x ([Fine; Fine; Fine; Fine] ++ rest) names false) tt)
        by (unfold component; by rewrite Hc).
      eapply atomic_fine; [exact Hd|]. by rewrite Ht.
Qed.

(** What [install_new] leaves when its process dies having linked the file and before it
    removes the temporary name: both names. *)
Lemma install_cut dir n bytes x t s rest names : node_at dir x = Some (Dir t) → t !! n = None →
  single_component n = true → length s = 16%nat → Forall is_byte s →
  let temp := lit ".install-" ++ hex s in
  t !! temp = None → n ≠ temp →
  let both := <[n := Linked bytes temp]> (<[temp := Linked bytes n]> t) in
  let '(d, r) := install_new dir n bytes (mkDisk x ([Fine; Fine; Fine; Fine; Crash 0] ++ rest) (s :: names) false) in
  r = Err Crashed ∧ root d = set_at dir (Dir both) x.
Proof.
  intros Hd Hn Hc Hs Hb temp Ht Hne both. unfold install_new.
  set (d0 := mkDisk x ([Fine; Fine; Fine; Fine; Crash 0] ++ rest) names false).
  set (d1 := mkDisk (set_at dir (Dir both) x) (Crash 0 :: rest) names false).
  rewrite (seq_ok _ _ _ (mkDisk x ([Fine; Fine; Fine; Fine; Crash 0] ++ rest) (s :: names) false) tt) by (unfold component; by rewrite Hc).
  rewrite (seq_ok _ _ _ d0 (hex s)) by (unfold nonce, getrandom, sbind; simpl; by rewrite Hs). cbv zeta. fold temp.
  pose proof (install_linked dir n temp bytes x t (Crash 0 :: rest) names Hd Hn Ht (temporary_component s Hb) Hne) as Hl.
  pose proof (temporary_component s Hb) as Htemp. fold temp in Htemp. cbv zeta in Hl. fold both in Hl.
  change (mkDisk x _ names false) with d0 in Hl. change (mkDisk (set_at dir (Dir both) x) (Crash 0 :: rest) names false) with d1 in Hl. unfold tried, sbind in Hl |- *.
  destruct (write_new dir temp bytes d0) as [dw [[]|e]]; [|done]. rewrite Hl.
  unfold remove_file, sbind, component. rewrite Htemp. done.
Qed.

(** ** Publications that follow *)

(** A publication, and the disk it finds: what its system calls do and its random names. *)
Record Attempt := mkAttempt {
  at_key : str; at_revision : str; at_content : str; at_bundle : Bundle; at_meta : Metadata; at_frozen : option FrozenOverride;
  at_script : list Fate; at_random : list str;
}.

(** One after another, with the keys of those that succeeded. *)
Fixpoint publish_all (attempts : list Attempt) (x : Node) : Node * list str :=
  match attempts with
  | [] => (x, [])
  | a :: attempts =>
      let '(d, r) := publish_revision (at_key a) (at_revision a) (at_content a) (at_bundle a) (at_meta a) (at_frozen a)
                       (mkDisk x (at_script a) (at_random a) false) in
      let '(y, done) := publish_all attempts (root d) in
      (y, if is_ok r then at_key a :: done else done)
  end.

Lemma publish_all_blocked key b o attempts x : node_at (identity_path key) x = Some (Linked b o) →
  let '(y, done) := publish_all attempts x in node_at (identity_path key) y = Some (Linked b o) ∧ key ∉ done.
Proof.
  revert x. induction attempts as [|a attempts IH]; intros x Hx; simpl; [split; [done|by intros ?%not_elem_of_nil]|].
  set (d := mkDisk x (at_script a) (at_random a) false).
  assert (let '(d', r) := publish_revision (at_key a) (at_revision a) (at_content a) (at_bundle a) (at_meta a) (at_frozen a) d in
    node_at (identity_path key) (root d') = Some (Linked b o) ∧ (is_ok r = true → at_key a ≠ key)) as Ha.
  { destruct (decide (storage_id (at_key a) = storage_id key)) as [E|E].
    - unfold identity_path, profile in Hx |- *. rewrite <- E in Hx |- *.
      pose proof (linked_identity_blocks x (at_key a) (at_revision a) (at_content a) (at_bundle a) (at_meta a) (at_frozen a) b o Hx d eq_refl) as H.
      destruct (publish_revision _ _ _ _ _ _ d) as [d' r]. destruct H as [-> H]. split; [done|]. destruct r as [[]|]; [by destruct (H tt)|done].
    - pose proof (spares_publish key (at_key a) (at_revision a) (at_content a) (at_bundle a) (at_meta a) (at_frozen a) E d) as H.
      destruct (publish_revision _ _ _ _ _ _ d) as [d' r]. destruct H as [-> _]; [by eexists|]. split; [done|]. intros _ Hk. apply E. by rewrite Hk. }
  destruct (publish_revision _ _ _ _ _ _ d) as [d' r]. destruct Ha as [H1 H2]. specialize (IH (root d') H1).
  destruct (publish_all attempts (root d')) as [y done]. destruct IH as [H3 H4]. split; [done|]. destruct (is_ok r); [|done].
  intros [Hk|Hk]%elem_of_cons; [by apply (H2 eq_refl)|done].
Qed.

(** C40: An interrupted first publication of a key blocks the key. The process dies in
    [install_new] after it linked the new identity file to its name and before it removed the
    temporary name. Then the identity has two names; and whatever publications of this key
    and of others follow, with whatever contents, failures, crashes and random names, it
    keeps both, and none of the key succeeds: reading refuses a file with two links, and
    publishing never removes the other name. *)
Theorem interrupted_identity_blocks_key key bytes x t s rest names attempts :
  node_at (profile key) x = Some (Dir t) → t !! IDENTITY = None → length s = 16%nat → Forall is_byte s →
  let temp := lit ".install-" ++ hex s in t !! temp = None →
  let '(d, r) := install_new (profile key) IDENTITY bytes
                   (mkDisk x ([Fine; Fine; Fine; Fine; Crash 0] ++ rest) (s :: names) false) in
  let '(y, done) := publish_all attempts (root d) in
  r = Err Crashed ∧ node_at (identity_path key) y = Some (Linked bytes temp) ∧ key ∉ done.
Proof.
  intros Hd Hn Hs Hb temp Ht. pose proof (install_cut (profile key) IDENTITY bytes x t s rest names Hd Hn eq_refl Hs Hb Ht ltac:(done)) as H.
  destruct (install_new _ _ _ _) as [d r]. destruct H as [-> Hroot].
  pose proof (publish_all_blocked key bytes temp attempts (root d)) as Hp. destruct (publish_all attempts (root d)) as [y done].
  split; [done|]. apply Hp. rewrite Hroot. unfold identity_path. erewrite node_at_snoc; [|by eapply node_at_set_eq].
  by rewrite lookup_insert_eq.
Qed.

End Publishing.

End Interrupted.
