(* ===== verification/StoreDemo.v ===== *)
(** * A store to run

    Concrete instances of what the store is parametric in, a directory and the histories that
    the examples run: they show that the assumptions of the theorems about the store can
    hold, and what happens to a publication that is cut off. *)
From stdpp Require Import countable.
From S2P Require Import Prelude Utf8 BTree Json Disk DiskFacts Bundle Revision RevisionFacts RevisionRead Store CatalogFacts StoreFacts StoreSpec StoreSafety Interrupted.

Module StoreDemo.
Import Disk DiskFacts Bundle Revision RevisionFacts RevisionRead Store CatalogFacts StoreFacts StoreSpec StoreSafety Interrupted.

(** ** A digest *)

Definition checksum (b : str) : Z := foldl (λ n x, (n * 257 + x + 1) mod (2 ^ 256)) 7 b.

Definition digest_bytes (b : str) : str := let n := checksum b in (λ i, n / 256 ^ Z.of_nat i mod 256) <$> seq 0 32.

#[export, refine] Instance demo_sha : Sha256 := { sha256 := digest_bytes }.
Proof.
  - intros b. unfold digest_bytes. by rewrite length_fmap, length_seq.
  - intros b. apply Forall_forall. intros x Hx. apply list_elem_of_fmap in Hx as (i & -> & _). unfold is_byte.
    pose proof (Z.mod_pos_bound (checksum b / 256 ^ Z.of_nat i) 256). lia.
Defined.

(** ** Encodings *)

Definition serde_of (A : Type) `{Countable A} : Serde A.
Proof.
  refine {| to_vec a := [Zpos (encode a)]; from_slice b := match b with [Zpos p; 10] => decode p | _ => None end |}.
  intros a. simpl. apply decode_encode.
Defined.

#[export] Instance param_eq : EqDecision Param. Proof. solve_decision. Defined.
#[export] Instance metadata_eq : EqDecision Metadata. Proof. solve_decision. Defined.
#[export] Instance content_eq : EqDecision Content. Proof. solve_decision. Defined.
#[export] Instance override_eq : EqDecision DiskOverride. Proof. solve_decision. Defined.
#[export] Instance disk_asset_eq : EqDecision DiskAsset. Proof. solve_decision. Defined.
#[export] Instance remote_eq : EqDecision RemoteProvider. Proof. solve_decision. Defined.
#[export] Instance manifest_eq : EqDecision Manifest. Proof. solve_decision. Defined.
#[export] Instance identity_eq : EqDecision Identity. Proof. solve_decision. Defined.
#[export] Instance selection_eq : EqDecision Selection. Proof. solve_decision. Defined.
#[export] Instance desired_eq : EqDecision Desired. Proof. solve_decision. Defined.
#[export] Instance profile_eq : EqDecision Profile. Proof. solve_decision. Defined.
#[export] Instance active_eq : EqDecision ActiveIdentity. Proof. solve_decision. Defined.
#[export] Instance catalog_eq : EqDecision Catalog. Proof. solve_decision. Defined.

#[export] Instance param_countable : Countable Param.
Proof. by refine (inj_countable' (λ p, (pm_key p, pm_value p)) (λ '(a, b), mkParam a b) _); intros []. Defined.
#[export] Instance metadata_countable : Countable Metadata.
Proof. by refine (inj_countable' (λ m, (md_url m, md_filename m, md_params m)) (λ '(a, b, c), mkMetadata a b c) _); intros []. Defined.
#[export] Instance content_countable : Countable Content.
Proof. by refine (inj_countable' (λ c, (c_size c, c_sha256 c)) (λ '(a, b), mkContent a b) _); intros []. Defined.
#[export] Instance override_countable : Countable DiskOverride.
Proof.
  by refine (inj_countable' (λ v, (do_script_name v, do_script v, do_command v, do_config_path v, do_timeout_ms v, do_args v, do_patch v))
    (λ '(a, b, c, d, e, f, g), mkDiskOverride a b c d e f g) _); intros [].
Defined.
#[export] Instance disk_asset_countable : Countable DiskAsset.
Proof.
  by refine (inj_countable' (λ v, (da_logical v, da_target v, da_object v, da_size v, da_sha256 v)) (λ '(a, b, c, d, e), mkDiskAsset a b c d e) _); intros [].
Defined.
#[export] Instance remote_countable : Countable RemoteProvider.
Proof. by refine (inj_countable' (λ r, (rm_name r, rm_path r, rm_deferred r)) (λ '(a, b, c), mkRemote a b c) _); intros []. Defined.
#[export] Instance manifest_countable : Countable Manifest.
Proof.
  by refine (inj_countable' (λ m, (mf_schema m, mf_key m, mf_storage m, mf_revision m, mf_digest m, mf_metadata m, mf_frozen m, mf_source m,
      mf_materialized m, mf_aggregate m, mf_assets m, mf_remotes m))
    (λ '(a, b, c, d, e, f, g, h, i, j, k, l), mkManifest a b c d e f g h i j k l) _); intros [].
Defined.
#[export] Instance identity_countable : Countable Identity.
Proof. by refine (inj_countable' (λ i, (id_schema i, id_key i, id_storage i)) (λ '(a, b, c), mkIdentity a b c) _); intros []. Defined.
#[export] Instance selection_countable : Countable Selection.
Proof. by refine (inj_countable' (λ s, (sl_group s, sl_proxy s)) (λ '(a, b), mkSelection a b) _); intros []. Defined.
#[export] Instance desired_countable : Countable Desired.
Proof. by refine (inj_countable' (λ d, (de_generation d, de_selections d)) (λ '(a, b), mkDesired a b) _); intros []. Defined.
#[export] Instance profile_countable : Countable Profile.
Proof.
  by refine (inj_countable' (λ p, (p_key p, p_storage p, p_head p, p_desired p, p_secret p)) (λ '(a, b, c, d, e), mkProfile a b c d e) _); intros [].
Defined.
#[export] Instance active_countable : Countable ActiveIdentity.
Proof. by refine (inj_countable' (λ a, (ac_key a, ac_revision a)) (λ '(a, b), mkActive a b) _); intros []. Defined.
#[export] Instance catalog_countable : Countable Catalog.
Proof.
  by refine (inj_countable' (λ c, (ct_schema c, ct_sequence c, ct_active c, ct_profiles c)) (λ '(a, b, c, d), mkCatalog a b c d) _); intros [].
Defined.

#[export] Instance demo_identity : Serde Identity := serde_of Identity.
#[export] Instance demo_manifest : Serde Manifest := serde_of Manifest.
#[export] Instance demo_catalog : Serde Catalog := serde_of Catalog.

#[export, refine] Instance demo_json : CatalogJson :=
  { value_of _ := Some (VObject [(lit "schema_version", VNumber (PosInt 2))]) }.
Proof. done. Defined.

#[export] Instance demo_parsers : Parsers :=
  { parse_doc _ := Ok (VObject []); url_parse _ := None; runtime_source s := Ok s; parse_config _ _ := Ok tt; value_vec _ := [] }.

(** ** Running *)

Definition boot (x : Node) (fates : list Fate) (names : list str) : Handle := mkHandle (mkDisk x fates names false) false.

Definition name_of (n : Z) : str := repeat n 16.

Definition demo_bundle : Bundle := mkBundle (lit "mode: rule") None [] [].

Definition demo_publish : Op := Publish (lit "home") None demo_bundle (mkMetadata None None []) None true.

Definition names : list str := [name_of 1; name_of 2; name_of 3].

Definition first : Handle := boot (Dir ∅) [] names.

Definition second : Handle := fst (run (token None 0) demo_publish first).

Lemma empty_unused p n : node_at (p ++ [n]) (Dir ∅) = None.
Proof. destruct p; simpl; by rewrite lookup_empty. Qed.

Lemma boot_supply fates : supply_ok (disk (boot (Dir ∅) fates names)).
Proof.
  split; [intros s p _; apply empty_unused|]. intros s Hs. unfold boot, disk, random, names in Hs.
  rewrite !elem_of_cons, elem_of_nil in Hs. destruct Hs as [->|[->|[->|[]]]]; repeat (constructor; [unfold is_byte; lia|]); constructor.
Qed.

Lemma demo_bundle_wf : bundle_wf demo_bundle ∧ digests_differ demo_bundle.
Proof.
  split.
  - constructor; try done; [constructor|]. intros k a Ha. by apply not_elem_of_nil in Ha.
  - intros a a' Ha. by apply not_elem_of_nil in Ha.
Qed.

Lemma demo_permitted fates : permitted (boot (Dir ∅) fates names) demo_publish.
Proof.
  split; [apply boot_supply|]. destruct demo_bundle_wf as [H1 H2]. split; [done|]. split; [done|]. apply uncollided_fresh.
  apply (empty_unused [_; _; _]).
Qed.

Lemma second_supply : supply_ok (disk second).
Proof.
  assert (random (disk second) = []) as E by (vm_compute; reflexivity).
  split; [intros s p Hs|intros s Hs]; rewrite E in Hs; exfalso; exact (not_elem_of_nil s Hs).
Qed.

Example demo_runs : snd (run (token None 0) demo_publish first) = Ok tt.
Proof. vm_compute. reflexivity. Qed.

(** A crash while the identity of a new profile is being installed. *)
Definition cut : Handle := boot (Dir ∅) (repeat Fine 30 ++ [Crash 0]) names.

Lemma cut_permitted : permitted cut demo_publish.
Proof. apply demo_permitted. Qed.

Lemma first_permitted : permitted first demo_publish.
Proof. apply demo_permitted. Qed.

Lemma store_refines_witness :
  let '(h', r) := run (token None 0) demo_publish cut in
  (represents (Root h') initial ∧ (r = Ok tt → idle demo_publish initial)) ∨
  (current (Root cut) (token None 0) ∧ ∃ S', astep demo_publish initial S' ∧ represents (Root h') S').
Proof. apply (store_refines cut (token None 0) demo_publish initial); [exact represents_initial|exact cut_permitted]. Defined.

Lemma revision_roundtrip_witness :
  let meta := mkMetadata None None [] in
  let content := content_digest (lit "home") demo_bundle meta None in
  let rev := revision_id (lit "home") content in
  let '(d', r) := publish_revision (lit "home") rev content demo_bundle meta None (disk first) in
  (r = Ok tt → read_bundle (lit "home") rev (still (root d')) = (still (root d'), Ok (keyed (lit "home") demo_bundle meta None))) ∧
  ∀ key' rev' v, read_bundle key' rev' (still (root (disk first))) = (still (root (disk first)), Ok v) →
    read_bundle key' rev' (still (root d')) = (still (root d'), Ok v).
Proof.
  destruct demo_bundle_wf as [H1 H2].
  apply (revision_roundtrip (disk first) (lit "home") demo_bundle (mkMetadata None None []) None).
  - apply (boot_supply []).
  - constructor; [reflexivity|reflexivity|reflexivity|exact H1|exact H2].
  - apply uncollided_fresh. apply (empty_unused [_; _; _]).
Defined.

Lemma store_no_lost_update_witness :
  ∃ S1, astep demo_publish initial S1 ∧
    let '(h2, r2) := run (token None 0) (Delete (lit "home") []) second in r2 ≠ Ok tt ∧ represents (Root h2) S1.
Proof.
  apply (store_no_lost_update first (token None 0) demo_publish (Delete (lit "home") []) initial second represents_initial first_permitted).
  - unfold second. pose proof demo_runs as E. destruct (run (token None 0) demo_publish first) as [h r]. cbn [fst snd] in *. by rewrite E.
  - intros [].
  - split; [apply second_supply|exact I].
Defined.

Lemma store_always_ready_witness :
  ∃ S, history initial S ∧ represents (Root second) S ∧ active_ready S ∧
    ∀ key a, a_profiles S !! key = Some a → read_bundle key (a_head a) (still (Root second)) = (still (Root second), Ok (a_view a)).
Proof.
  apply (store_always_ready (Root second)). unfold second. apply (reach_run first); [exact reach_empty|exact first_permitted].
Defined.

(** A publication whose process dies while the identity is being installed leads to a
    directory in which the identity has two names. *)
Example cut_links :
  match node_at (identity_path (lit "home")) (Root (fst (run (token None 0) demo_publish cut))) with
  | Some (Linked _ _) => true
  | _ => false
  end = true.
Proof. vm_compute. reflexivity. Qed.

Definition profiles_only : Node := Dir {[ PROFILES := Dir {[ storage_id (lit "home") := Dir ∅ ]} ]}.

Definition demo_attempt (key : string) (names : list str) : Attempt :=
  mkAttempt (lit key) (lit "0123456789abcdef0123456789abcdef") (lit "content") demo_bundle (mkMetadata None None []) None [] names.

(** The key again, another key, and the key once more. *)
Definition demo_attempts : list Attempt :=
  [demo_attempt "home" [name_of 2; name_of 3]; demo_attempt "other" [name_of 2; name_of 3]; demo_attempt "home" [name_of 4; name_of 5]].

Definition demo_cut : Disk :=
  fst (install_new (profile (lit "home")) IDENTITY (lit "{}")
    (mkDisk profiles_only ([Fine; Fine; Fine; Fine; Crash 0] ++ []) (name_of 1 :: []) false)).

Example demo_attempts_done : snd (publish_all demo_attempts (root demo_cut)) = [lit "other"].
Proof. vm_compute. reflexivity. Qed.

Lemma interrupted_identity_blocks_key_witness :
  let '(y, done) := publish_all demo_attempts (root demo_cut) in
  node_at (identity_path (lit "home")) y = Some (Linked (lit "{}") (lit ".install-" ++ hex (name_of 1))) ∧ lit "home" ∉ done.
Proof.
  assert (Forall is_byte (name_of 1)) as Hb by (repeat (constructor; [unfold is_byte; lia|]); constructor).
  pose proof (interrupted_identity_blocks_key (lit "home") (lit "{}") profiles_only ∅ (name_of 1) [] [] demo_attempts) as H.
  specialize (H ltac:(vm_compute; reflexivity) ltac:(reflexivity) ltac:(reflexivity) Hb ltac:(reflexivity)).
  unfold demo_cut. destruct (install_new _ _ _ _) as [d r]. cbn [fst].
  destruct (publish_all demo_attempts (root d)) as [y done]. destruct H as [_ H]. exact H.
Defined.

End StoreDemo.
