(* ===== verification/AnyTls.v ===== *)
(** * AnyTLS padding and frames (src/src/anytls.rs: [fields], [Padding], [packets],
      [random_size], [append_frame])

    The server may replace the padding scheme; a scheme is a bounded text that says into
    which packet sizes each write is cut and how much waste is added. Frames are a command,
    a stream identifier and a length-prefixed body. *)
From S2P Require Import Prelude Utf8 BTree.

Module AnyTls.

Definition DEFAULT : str :=
  lit "stop=8" ++ [10] ++ lit "0=30-30" ++ [10] ++ lit "1=100-400" ++ [10]
  ++ lit "2=400-500,c,500-1000,c,500-1000,c,500-1000,c,500-1000" ++ [10] ++ lit "3=9-9,500-1000" ++ [10]
  ++ lit "4=500-1000" ++ [10] ++ lit "5=500-1000" ++ [10] ++ lit "6=500-1000" ++ [10] ++ lit "7=500-1000".
Definition MAX_TEXT : Z := 4096.
Definition MAX_FRAME : Z := u16_max.
Definition MAX_STOP : Z := 32.
Definition MAX_PADDING : Z := 65536.
Definition MAX_HEARTS : Z := 32.
Definition MAX_CLOSE_DRAIN : Z := 1024 * 1024.

(** The kinds of [io::Error] this component produces or inspects. *)
Inductive IoError :=
| InvalidData
| BrokenPipe
| WriteZero
| UnexpectedEof
| TimedOut
| PermissionDenied
| ConnectionRefused
| OtherError.

Abbreviation io := (result IoError).

Inductive PadStep :=
| Size (min max : Z)
| CheckStep.

Record Padding := mkPadding { md5 : str; stop : Z; pad_groups : gmap Z (list PadStep) }.

(** ** Parsing a scheme *)

(** The loop of [fields], with the entries so far. *)
Fixpoint field_lines (ls : list str) (fields : bmap str) : io (bmap str) :=
  match ls with
  | [] => Ok fields
  | line :: ls =>
      let! '(key, value) := ok_or (split_once 61 line) InvalidData in
      if bool_decide (key = []) || bool_decide (value = []) || existsb is_control (chars line)
         || (len fields =? 33) || bcontains key fields
      then Err InvalidData
      else field_lines ls (fields ++ [(key, value)])
  end.

Definition fields (raw : str) : io (bmap str) :=
  if bool_decide (raw = []) || (MAX_TEXT <? len raw) then Err InvalidData
  else if negb (utf8_valid raw) then Err InvalidData
  else field_lines (split_terminator 10 raw) [].

Definition number (text : str) : io Z :=
  if bool_decide (text = []) || negb (forallb is_ascii_digit text) then Err InvalidData
  else ok_or (parse_uint u64_max text) InvalidData.

(** [for step in value.split(',')]: the steps and the running overhead. *)
Fixpoint parse_steps (group : Z) (pieces : list str) (steps : list PadStep) (overhead : Z)
    : io (list PadStep * Z) :=
  match pieces with
  | [] => Ok (steps, overhead)
  | step :: pieces =>
      if len steps =? 16 then Err InvalidData
      else if eq_str step (lit "c") && negb (group =? 0) then
        parse_steps group pieces (steps ++ [CheckStep]) overhead
      else
        let! '(min, max) := ok_or (split_once 45 step) InvalidData in
        let! min := number min in
        let! max := number max in
        let limit := if group =? 0 then 4096 - 34 else 16384 in
        if (min =? 0) || (max <? min) || (limit <? max) then Err InvalidData
        else
          let overhead := overhead + (max + 7) in
          if MAX_PADDING <? overhead then Err InvalidData
          else parse_steps group pieces (steps ++ [Size min max]) overhead
  end.

(** [for (key, value) in fields] *)
Fixpoint parse_groups (stop : Z) (fs : bmap str) (groups : gmap Z (list PadStep)) (overhead : Z)
    : io (gmap Z (list PadStep)) :=
  match fs with
  | [] => Ok groups
  | (key, value) :: fs =>
      let! group := number key in
      if (stop <=? group) || negb (eq_str key (print_dec group)) then Err InvalidData
      else
        let! '(steps, overhead) := parse_steps group (split_byte 44 value) [] overhead in
        if (group =? 0) && negb (len steps =? 1) then Err InvalidData
        else parse_groups stop fs (<[group := steps]> groups) overhead
  end.

Definition remove_key (key : str) (fs : bmap str) : bmap str :=
  List.filter (λ kv, negb (eq_str (fst kv) key)) fs.

Section Parse.
(** [Md5::digest] *)
Context (digest : str → list Z).

Definition padding_parse (raw : str) : io Padding :=
  let! fs := fields raw in
  let! stop := ok_or (bget (lit "stop") fs) InvalidData in
  let! stop := number stop in
  if (stop <? 1) || (MAX_STOP <? stop) then Err InvalidData
  else
    let! groups := parse_groups stop (remove_key (lit "stop") fs) ∅ 0 in
    Ok (mkPadding (mjoin ((λ b, pad_left 2 48 (print_hex b)) <$> digest raw)) stop groups).

End Parse.

(** ** Random sizes

    The random source delivers 32-bit numbers; when it is exhausted it has failed. *)
Fixpoint draw (bound : Z) (rng : list Z) : io (Z * list Z) :=
  match rng with
  | [] => Err OtherError
  | n :: rng => if n <? bound then Ok (n, rng) else draw bound rng
  end.

Definition random_size (min max : Z) (rng : list Z) : io (Z * list Z) :=
  if min =? max then Ok (min, rng)
  else
    let span := max - min in
    let bound := u32_max - u32_max mod span in
    let! '(n, rng) := draw bound rng in
    Ok (min + n mod span, rng).

Definition auth_size (p : Padding) (rng : list Z) : io (Z * list Z) :=
  match pad_groups p !! 0 ≫= head with
  | Some (Size min max) => random_size min max rng
  | _ => Ok (0, rng)
  end.

(** ** Frames *)

(** What [append_frame] appends: the length is the low 16 bits of the body's. *)
Definition frame (cmd id : Z) (body : str) : str :=
  [cmd] ++ be32 id ++ be16 (len body mod 65536) ++ body.

Definition zeros (n : Z) : str := replicate (Z.to_nat n) 0.

(** [packets]: the loop over the steps. *)
Fixpoint pad_steps (steps : list PadStep) (rest : str) (packets : list str) (rng : list Z)
    : io (list str * str * list Z) :=
  match steps with
  | [] => Ok (packets, rest, rng)
  | CheckStep :: steps =>
      if bool_decide (rest = []) then Ok (packets, rest, rng) else pad_steps steps rest packets rng
  | Size min max :: steps =>
      let! '(size, rng) := random_size min max rng in
      if size <? len rest then
        pad_steps steps (drop (Z.to_nat size) rest) (packets ++ [take (Z.to_nat size) rest]) rng
      else if negb (bool_decide (rest = [])) then
        let packet :=
          if len rest + 7 <? size then rest ++ frame 0 0 (zeros (size - len rest - 7)) else rest in
        pad_steps steps [] (packets ++ [packet]) rng
      else pad_steps steps [] (packets ++ [frame 0 0 (zeros size)]) rng
  end.

Definition packets (p : Padding) (group : Z) (data : str) (rng : list Z) : io (list str * list Z) :=
  let steps := if group <? stop p then default [] (pad_groups p !! group) else [] in
  let! '(ps, rest, rng) := pad_steps steps data [] rng in
  Ok (if bool_decide (rest = []) then ps else ps ++ [rest], rng).

(** ** Reading frames back: the peer's view *)

Record Frame := mkFrame { f_cmd : Z; f_id : Z; f_body : str }.

Definition frame_bytes (f : Frame) : str := frame (f_cmd f) (f_id f) (f_body f).

(** The first frame of a byte stream, when it is complete. *)
Definition read_frame (s : str) : option (Frame * str) :=
  match s with
  | cmd :: i1 :: i2 :: i3 :: i4 :: l1 :: l2 :: rest =>
      let n := Z.to_nat (from_be [l1; l2]) in
      if (length rest <? n)%nat then None
      else Some (mkFrame cmd (from_be [i1; i2; i3; i4]) (take n rest), drop n rest)
  | _ => None
  end.

(** Whether the stream is a sequence of frames; each is at least 7 bytes. *)
Fixpoint read_frames (fuel : nat) (s : str) : option (list Frame) :=
  match s, fuel with
  | [], _ => Some []
  | _, O => None
  | _, S fuel =>
      let? '(f, s) := read_frame s in
      let? fs := read_frames fuel s in
      Some (f :: fs)
  end.

Definition decode_frames (s : str) : option (list Frame) := read_frames (length s) s.

(** ** What a scheme satisfies *)

Definition step_wf (group : Z) (s : PadStep) : Prop :=
  match s with
  | Size min max => 1 ≤ min ∧ min ≤ max ∧ max ≤ (if group =? 0 then 4062 else 16384)
  | CheckStep => group ≠ 0
  end.

(** The most bytes the steps may add. *)
Definition steps_overhead (steps : list PadStep) : Z :=
  foldr (λ s acc, match s with Size _ max => max + 7 | CheckStep => 0 end + acc) 0 steps.

Record padding_wf (p : Padding) : Prop := {
  wf_stop : 1 ≤ stop p ≤ MAX_STOP;
  wf_steps : ∀ g steps, pad_groups p !! g = Some steps →
    0 ≤ g < stop p ∧ len steps ≤ 16 ∧ Forall (step_wf g) steps ∧ steps_overhead steps ≤ MAX_PADDING;
  wf_auth : ∀ steps, pad_groups p !! 0 = Some steps → ∃ min max, steps = [Size min max];
}.

Definition frame_wf (f : Frame) : Prop :=
  0 ≤ f_cmd f < 256 ∧ 0 ≤ f_id f ≤ u32_max ∧ len (f_body f) ≤ MAX_FRAME.

(** ** Lemmas *)

Lemma number_Ok t n : number t = Ok n → 0 ≤ n ≤ u64_max ∧ t ≠ [] ∧ digits_value t = n.
Proof.
  unfold number. destruct (_ || _) eqn:E; [done|]. apply orb_false_elim in E as [E1 E2]. destruct_bool.
  rewrite parse_uint_digits by done. destruct (digits_value t <=? u64_max) eqn:El; [|done]. intros [= <-].
  pose proof (digits_value_nonneg t ltac:(done)). split_and!; [lia|blia|done|done].
Qed.

Lemma steps_overhead_app a b : steps_overhead (a ++ b) = steps_overhead a + steps_overhead b.
Proof. induction a as [|s a IH]; simpl; [done|]. unfold steps_overhead in *. lia. Qed.

Lemma parse_steps_spec group pieces steps overhead steps' overhead' :
  Forall (step_wf group) steps → len steps ≤ 16 → overhead ≤ MAX_PADDING →
  parse_steps group pieces steps overhead = Ok (steps', overhead') →
  Forall (step_wf group) steps' ∧ len steps' ≤ 16 ∧
  overhead' = overhead + (steps_overhead steps' - steps_overhead steps) ∧
  overhead ≤ overhead' ∧ overhead' ≤ MAX_PADDING.
Proof.
  revert steps overhead. induction pieces as [|p pieces IH]; intros steps overhead Hf Hl Ho; simpl.
  - intros [= <- <-]. split_and!; [done|done|lia|lia|done].
  - destruct (len steps =? 16) eqn:E16; [done|]. destruct_bool. destruct (eq_str p (lit "c") && _) eqn:Ec.
    + intros Hp. apply IH in Hp as (? & ? & -> & ? & ?); [| |rewrite len_app; change (len [_]) with 1; lia|done].
      * rewrite steps_overhead_app in *. simpl in *. split_and!; [done|done|lia|lia|done].
      * apply Forall_app. split; [done|]. apply Forall_singleton. simpl. apply andb_prop in Ec as [_ Ec]. blia.
    + destruct (split_once 45 p) as [[a b]|]; [|done]. cbn [ok_or].
      destruct (number a) as [mn|] eqn:Ea; [|done]. destruct (number b) as [mx|] eqn:Eb; [|done].
      apply number_Ok in Ea as [Ha _]. apply number_Ok in Eb as [Hb _].
      destruct (_ || _ || _) eqn:Em; [done|]. rewrite !orb_false_iff in Em. destruct Em as [[Em1 Em2] Em3].
      destruct (MAX_PADDING <? _) eqn:Eo; [done|]. destruct_bool. intros Hp.
      assert (step_wf group (Size mn mx)) as Hwf.
      { simpl. destruct (group =? 0); split_and!; lia. }
      apply IH in Hp as (? & ? & -> & ? & ?); [| |rewrite len_app; change (len [_]) with 1; lia|done].
      * rewrite steps_overhead_app in *. simpl in *. split_and!; [done|done|lia|lia|done].
      * apply Forall_app. split; [done|]. by apply Forall_singleton.
Qed.

Lemma parse_groups_spec stop fs groups overhead groups' :
  0 ≤ overhead ≤ MAX_PADDING → parse_groups stop fs groups overhead = Ok groups' →
  (∀ g steps, groups !! g = Some steps → 0 ≤ g < stop ∧ len steps ≤ 16 ∧ Forall (step_wf g) steps ∧
     steps_overhead steps ≤ MAX_PADDING ∧ (g = 0 → len steps = 1)) →
  ∀ g steps, groups' !! g = Some steps → 0 ≤ g < stop ∧ len steps ≤ 16 ∧ Forall (step_wf g) steps ∧
     steps_overhead steps ≤ MAX_PADDING ∧ (g = 0 → len steps = 1).
Proof.
  revert groups overhead. induction fs as [|[k v] fs IH]; intros groups overhead Ho; simpl; [by intros [= <-]|].
  destruct (number k) as [g|] eqn:Ek; [|done]. apply number_Ok in Ek as [Hg _].
  destruct (_ || _) eqn:Es; [done|]. apply orb_false_elim in Es as [Es _].
  destruct (parse_steps g _ [] overhead) as [[steps o]|] eqn:Ep; [|done].
  destruct (_ && _) eqn:E0; [done|]. intros Hp Hinv. destruct_bool.
  apply parse_steps_spec in Ep as (H1 & H2 & -> & H3 & H4); [|constructor|done|lia].
  eapply IH; [|exact Hp|]; [lia|]. intros g' steps'. rewrite lookup_insert. case_decide; [|apply Hinv].
  intros [= <-]. subst g'. simpl in H3, H4. split_and!; [lia|lia|done|done|lia|].
  intros ->. simpl in E0. apply negb_false_iff in E0. blia.
Qed.

Lemma padding_parse_wf digest raw p : padding_parse digest raw = Ok p → padding_wf p.
Proof.
  unfold padding_parse. destruct (fields raw) as [fs|]; [|done]. destruct (bget _ fs) as [st|]; [|done]. cbn [ok_or].
  destruct (number st) as [n|]; [|done]. destruct (_ || _) eqn:E; [done|]. apply orb_false_elim in E as [E1 E2].
  destruct (parse_groups _ _ _ _) as [gs|] eqn:Eg; [|done]. intros [= <-]. destruct_bool.
  assert (0 ≤ 0 ≤ MAX_PADDING) as H0 by done.
  pose proof (parse_groups_spec _ _ _ _ _ H0 Eg (λ g st Hg, ltac:(by apply lookup_empty_Some in Hg))) as Hs.
  split; simpl; [lia| |].
  - intros g steps Hg. destruct (Hs g steps Hg) as (? & ? & ? & ? & _). done.
  - intros steps Hg. destruct (Hs 0 steps Hg) as (_ & _ & Hf & _ & H1). specialize (H1 eq_refl).
    destruct steps as [|s [|? ?]]; [done| |unfold len in H1; simpl in H1; lia].
    inversion Hf as [|? ? Hs0 _]; subst. destruct s as [mn mx|]; [by exists mn, mx|]. by simpl in Hs0.
Qed.

Lemma draw_bound bound rng n rng' : draw bound rng = Ok (n, rng') → n ∈ rng ∧ n < bound.
Proof.
  induction rng as [|x rng IH]; simpl; [done|]. destruct (x <? bound) eqn:E.
  - intros [= <- _]. destruct_bool. split; [constructor|done].
  - intros Hd. apply IH in Hd as [? ?]. split; [by constructor|done].
Qed.

(** A random size is in the half-open range, or the single value of a degenerate one. *)
Lemma random_size_range min max rng n rng' : min ≤ max → random_size min max rng = Ok (n, rng') →
  (min = max ∧ n = min) ∨ (min ≤ n < max).
Proof.
  intros Hm. unfold random_size. destruct (min =? max) eqn:E; destruct_bool.
  - intros [= <- _]. by left.
  - destruct (draw _ rng) as [[x r]|]; [|done]. intros [= <- _]. right.
    pose proof (Z.mod_pos_bound x (max - min) ltac:(lia)). lia.
Qed.

Lemma frame_length cmd id body : len (frame cmd id body) = 7 + len body.
Proof. unfold frame. rewrite !len_app. unfold len at 1 2 3. simpl. lia. Qed.

Lemma zeros_len n : 0 ≤ n → len (zeros n) = n.
Proof. intros Hn. unfold zeros, len. rewrite length_replicate. lia. Qed.

(** A frame with a body that fits is read back, whatever follows it. *)
Lemma read_frame_app f r : frame_wf f → read_frame (frame_bytes f ++ r) = Some (f, r).
Proof.
  intros (Hc & Hi & Hb). unfold frame_bytes, frame. pose proof (len_nonneg (f_body f)) as H0.
  rewrite Z.mod_small by (unfold MAX_FRAME, u16_max in Hb; lia).
  pose proof (from_be32 (f_id f) Hi) as H32. pose proof (from_be16 (len (f_body f)) ltac:(unfold MAX_FRAME in Hb; lia)) as H16.
  unfold be32, be16 in *. cbn [app]. unfold read_frame. rewrite H32, H16.
  assert (Z.to_nat (len (f_body f)) = length (f_body f)) as -> by (unfold len; lia).
  rewrite (proj2 (Nat.ltb_ge _ _)) by (rewrite length_app; lia).
  rewrite take_app_length, drop_app_length. by destruct f.
Qed.

Lemma frame_bytes_ne f : frame_bytes f ≠ [].
Proof. done. Qed.

Lemma read_frames_app fs fuel : Forall frame_wf fs → (length (mjoin (frame_bytes <$> fs)) ≤ fuel)%nat →
  read_frames fuel (mjoin (frame_bytes <$> fs)) = Some fs.
Proof.
  intros Hf. revert fuel. induction Hf as [|f fs Hf _ IH]; intros fuel Hl; [by destruct fuel|].
  rewrite fmap_cons in *. change (mjoin (?x :: ?xs)) with (x ++ mjoin xs) in *.
  rewrite length_app in Hl. assert (7 ≤ length (frame_bytes f))%nat as H7.
  { pose proof (frame_length (f_cmd f) (f_id f) (f_body f)) as Hlen. pose proof (len_nonneg (f_body f)).
    unfold frame_bytes, len in *. lia. }
  destruct fuel as [|fuel]; [lia|]. pose proof (read_frame_app f (mjoin (frame_bytes <$> fs)) Hf) as Hr.
  destruct (frame_bytes f ++ mjoin (frame_bytes <$> fs)) as [|b s] eqn:E; [by destruct (frame_bytes f)|].
  cbn [read_frames]. rewrite Hr, IH; [done|lia].
Qed.

Lemma decode_encode_frames fs : Forall frame_wf fs → decode_frames (mjoin (frame_bytes <$> fs)) = Some fs.
Proof. intros Hf. by apply read_frames_app. Qed.

(** ** Padding transparency *)

Definition waste (f : Frame) : Prop := f_cmd f = 0 ∧ f_id f = 0 ∧ Forall (λ b, b = 0) (f_body f).

Definition is_waste (n : Z) (fs : list Frame) : Prop :=
  Forall (λ f, waste f ∧ frame_wf f) fs ∧ len (mjoin (frame_bytes <$> fs)) ≤ n.

Lemma waste_frame n : 0 ≤ n ≤ MAX_FRAME → waste (mkFrame 0 0 (zeros n)) ∧ frame_wf (mkFrame 0 0 (zeros n)).
Proof.
  intros Hn. split; [split_and!; [done|done|]|split_and!; simpl; try lia].
  - simpl. unfold zeros. apply Forall_replicate. done.
  - unfold u32_max. lia.
  - rewrite zeros_len; lia.
Qed.

(** The steps deliver the data in order, followed by waste frames of bounded size. *)
Lemma pad_steps_spec group steps rest ps rng ps' rest' rng' :
  Forall (step_wf group) steps → pad_steps steps rest ps rng = Ok (ps', rest', rng') →
  ∃ out ws, ps' = ps ++ out ∧ (length out ≤ length steps)%nat ∧
    (rest' ≠ [] → ws = []) ∧ mjoin out ++ rest' = rest ++ mjoin (frame_bytes <$> ws) ∧
    is_waste (steps_overhead steps) ws.
Proof.
  intros Hf. revert rest ps rng. induction Hf as [|s steps Hs Hf' IH]; intros rest ps rng; simpl.
  - intros [= <- <- _]. exists [], []. rewrite !app_nil_r. split_and!; [done|done|done|done|]. by split.
  - assert (0 ≤ steps_overhead steps) as Hpos.
    { clear -Hf'. induction Hf' as [|s l Hs _ IH]; simpl; [done|]. unfold steps_overhead in *.
      destruct s; simpl in Hs; lia. }
    destruct s as [mn mx|].
    + destruct Hs as (H1 & H2 & H3). assert (mx ≤ 16384) as Hmx by (destruct (group =? 0); lia).
      destruct (random_size mn mx rng) as [[n r]|] eqn:Er; [|done].
      apply random_size_range in Er; [|done]. assert (1 ≤ n ≤ mx) as Hn by lia.
      destruct (n <? len rest) eqn:En; [|destruct (negb (bool_decide (rest = []))) eqn:Ene]; destruct_bool; intros Hp.
      * apply IH in Hp as (out & ws & -> & Hl & Hw & Hj & Hws). exists (take (Z.to_nat n) rest :: out), ws.
        split_and!; [by rewrite <- app_assoc|simpl; lia|done| |].
        -- change (mjoin (?x :: ?xs)) with (x ++ mjoin xs). rewrite <- app_assoc, Hj, app_assoc. by rewrite take_drop.
        -- destruct Hws as [? ?]. split; [done|]. unfold steps_overhead in *. lia.
      * apply IH in Hp as (out & ws & -> & Hl & Hw & Hj & Hws). simpl in Hj.
        set (m := n - len rest - 7) in *.
        destruct (len rest + 7 <? n) eqn:Em; destruct_bool.
        -- pose proof (waste_frame m ltac:(unfold m, MAX_FRAME, u16_max; pose proof (len_nonneg rest); lia)) as Hwf.
           exists ((rest ++ frame 0 0 (zeros m)) :: out), (mkFrame 0 0 (zeros m) :: ws).
           split_and!; [by rewrite <- app_assoc|simpl; lia| | |].
           ++ intros Hr. specialize (Hw Hr). subst ws. simpl in Hj. by destruct (mjoin out), rest'.
           ++ rewrite fmap_cons. change (mjoin (?x :: ?xs)) with (x ++ mjoin xs).
              rewrite <- !app_assoc, Hj. done.
           ++ destruct Hws as [? ?]. split; [by constructor|]. rewrite fmap_cons.
              change (mjoin (?x :: ?xs)) with (x ++ mjoin xs). rewrite len_app. unfold frame_bytes at 1. simpl.
              rewrite frame_length, zeros_len by lia. unfold steps_overhead in *. pose proof (len_nonneg rest). lia.
        -- exists (rest :: out), ws. split_and!; [by rewrite <- app_assoc|simpl; lia|done| |].
           ++ change (mjoin (?x :: ?xs)) with (x ++ mjoin xs). by rewrite <- app_assoc, Hj.
           ++ destruct Hws as [? ?]. split; [done|]. unfold steps_overhead in *. lia.
      * subst rest. apply IH in Hp as (out & ws & -> & Hl & Hw & Hj & Hws). simpl in Hj.
        pose proof (waste_frame n ltac:(unfold MAX_FRAME, u16_max; lia)) as Hwf.
        exists (frame 0 0 (zeros n) :: out), (mkFrame 0 0 (zeros n) :: ws).
        split_and!; [by rewrite <- app_assoc|simpl; lia| | |].
        -- intros Hr. specialize (Hw Hr). subst ws. simpl in Hj. by destruct (mjoin out), rest'.
        -- rewrite fmap_cons. change (mjoin (?x :: ?xs)) with (x ++ mjoin xs). rewrite <- app_assoc, Hj. done.
        -- destruct Hws as [? ?]. split; [by constructor|]. rewrite fmap_cons.
           change (mjoin (?x :: ?xs)) with (x ++ mjoin xs). rewrite len_app. unfold frame_bytes at 1. simpl.
           rewrite frame_length, zeros_len by lia. unfold steps_overhead in *. lia.
    + destruct (bool_decide (rest = [])) eqn:E.
      * intros [= <- <- _]. exists [], []. rewrite !app_nil_r. split_and!; [done|simpl; lia|done|done|]. split; [done|].
        change (len (mjoin (frame_bytes <$> []))) with 0. lia.
      * intros Hp. apply IH in Hp as (out & ws & ? & ? & ? & ? & ?). exists out, ws. split_and!; try done. simpl. lia.
Qed.

Lemma packets_spec p group data rng ps rng' : padding_wf p → packets p group data rng = Ok (ps, rng') →
  ∃ ws, mjoin ps = data ++ mjoin (frame_bytes <$> ws) ∧ is_waste MAX_PADDING ws ∧ len ps ≤ 17.
Proof.
  intros Hwf. unfold packets. set (steps := if group <? stop p then _ else _).
  assert (Forall (step_wf group) steps ∧ len steps ≤ 16 ∧ steps_overhead steps ≤ MAX_PADDING) as (Hf & Hl & Ho).
  { unfold steps. destruct (group <? stop p); [|by split_and!].
    destruct (pad_groups p !! group) as [st|] eqn:E; [|by split_and!].
    destruct (wf_steps _ Hwf _ _ E) as (_ & ? & ? & ?). done. }
  destruct (pad_steps steps data [] rng) as [[[out rest] r]|] eqn:Ep; [|done]. intros [= <- _].
  apply (pad_steps_spec group) in Ep as (out' & ws & -> & Hlen & Hw & Hj & Hws); [|done]. simpl in *.
  exists ws. destruct Hws as [Hws1 Hws2]. split_and!; [|split; [done|lia]|].
  - destruct (bool_decide (rest = [])) eqn:E; destruct_bool.
    + subst rest. by rewrite app_nil_r in Hj.
    + rewrite join_app. simpl. by rewrite app_nil_r, Hj.
  - unfold len in *. destruct (bool_decide (rest = [])); [lia|]. rewrite length_app. simpl. lia.
Qed.

(** ** Properties *)

(** A padding scheme a server sends is accepted only within fixed bounds: it stops
    within 32 groups, each of at most 16 steps, whose sizes fit a frame and together add at
    most 64 KiB, and the authentication group is a single size that fits one TLS record. *)
Theorem padding_scheme_bounded digest raw p : padding_parse digest raw = Ok p →
  padding_wf p ∧ len raw ≤ MAX_TEXT.
Proof.
  intros Hp. split; [by eapply padding_parse_wf|]. unfold padding_parse, fields in Hp.
  destruct (_ || _) eqn:E in Hp; [done|]. apply orb_false_elim in E as [_ E]. blia.
Qed.

(** The built-in scheme is valid, so the program's [expect] on it never fails. *)
Lemma padding_scheme_bounded_witness : ∃ p, padding_parse (λ _, []) DEFAULT = Ok p ∧ padding_wf p.
Proof.
  destruct (padding_parse (λ _, []) DEFAULT) as [p|e] eqn:E.
  - exists p. split; [reflexivity|]. exact (proj1 (padding_scheme_bounded _ _ _ E)).
  - exfalso. vm_compute in E. discriminate E.
Defined.

(** C39: padding is invisible to the peer: for every scheme, every random choice and every
    sequence of frames written as one group, the packets put on the wire decode to exactly
    those frames in order, followed only by waste frames it must ignore; at most 17 packets
    and 64 KiB of waste per write. *)
Theorem padding_transparent p group fs rng ps rng' :
  padding_wf p → Forall frame_wf fs → packets p group (mjoin (frame_bytes <$> fs)) rng = Ok (ps, rng') →
  ∃ ws, decode_frames (mjoin ps) = Some (fs ++ ws) ∧ Forall waste ws ∧
        len (mjoin (frame_bytes <$> ws)) ≤ MAX_PADDING ∧ len ps ≤ 17.
Proof.
  intros Hwf Hf Hp. apply packets_spec in Hp as (ws & Hj & [Hws Hl] & Hn); [|done].
  exists ws. split_and!; [|by eapply Forall_impl; [exact Hws|]; intros ? []|done|done].
  rewrite Hj, <- join_app, <- fmap_app. apply decode_encode_frames. apply Forall_app. split; [done|].
  by eapply Forall_impl; [exact Hws|]; intros ? [].
Qed.

Definition demo_padding : Padding := mkPadding [] 3 {[ 2 := [Size 5 5; CheckStep; Size 20 40; Size 6 6] ]}.

Lemma demo_padding_wf : padding_wf demo_padding.
Proof.
  split; simpl; [unfold MAX_STOP; lia| |].
  - intros g steps Hg. apply lookup_singleton_Some in Hg as [<- <-].
    split_and!; [lia|lia|done| |done]. repeat constructor; simpl; lia.
  - intros steps Hg. by rewrite lookup_singleton_ne in Hg.
Qed.

Definition demo_packets : list str :=
  [take 5 (frame 2 1 (lit "hello")); drop 5 (frame 2 1 (lit "hello")) ++ frame 0 0 (zeros 9);
   frame 0 0 (zeros 6)].

Lemma padding_transparent_witness :
  ∃ ws, decode_frames (mjoin demo_packets) = Some ([mkFrame 2 1 (lit "hello")] ++ ws).
Proof.
  destruct (padding_transparent demo_padding 2 [mkFrame 2 1 (lit "hello")] [23] demo_packets [] demo_padding_wf)
    as (ws & H & _).
  - repeat constructor; simpl; unfold u32_max, MAX_FRAME, u16_max, len; simpl; lia.
  - vm_compute. reflexivity.
  - exists ws. exact H.
Defined.

End AnyTls.
