(* ===== verification/AnyTlsSession.v ===== *)
(** * AnyTLS sessions (src/src/anytls.rs: [AnyTls] as a stream)

    One stream over one TLS transport. Writes are framed and padded into a queue that is
    drained before anything else is queued; reads assemble frames from whatever pieces the
    transport delivers. The transport, its timer and the random source are scripts: what
    each poll answers, in order; an exhausted script stays pending. *)
From S2P Require Import Prelude BTree AnyTls.

Module Session.
Import AnyTls.

(** ** The transport *)

Inductive Poll (A : Type) := Pending | Ready (a : A).
Arguments Pending {A}.
Arguments Ready {A} a.

Inductive WriteAnswer := WPending | WAccept (n : nat) | WError (e : IoError).
Inductive ReadAnswer := RPending | RData (bytes : str) | REof | RError (e : IoError).
Inductive UnitAnswer := UPending | UReady | UError (e : IoError).

(** What passed so far: the bytes the transport accepted, the bytes frames were read from,
    the bytes handed to [queue], the data accepted from the writer and the data delivered to
    the reader; and whether an assertion failed: [queue] replacing packets that were not yet
    written, or a transport used through [unwrap] after it was dropped. *)
Record Trace := mkTrace {
  wire : str;
  consumed : str;
  queued : str;
  accepted : str;
  output : str;
  fault : bool;
}.

Record Env := mkEnv {
  writes : list WriteAnswer;
  flushes : list UnitAnswer;
  shutdowns : list UnitAnswer;
  reads : list ReadAnswer;
  timer : list bool;
  rng : list Z;
  trace : Trace;
}.

Definition log (v : Env) (t : Trace) : Env :=
  mkEnv (writes v) (flushes v) (shutdowns v) (reads v) (timer v) (rng v) t.

Record Stream := mkStream {
  inner : bool;
  padding : Padding;
  shared : Padding;
  group : Z;
  outgoing : list str;
  written : nat;
  hearts : list Z;
  reply_pending : bool;
  header : str;
  body_size : nat;
  body : str;
  delivered : nat;
  data_ready : bool;
  v2 : bool;
  acknowledged : bool;
  fin_queued : bool;
  write_closed : bool;
  peer_closed : bool;
  closing : bool;
  close_drained : Z;
  failure : option IoError;
  whole_closed : bool;
}.

(** Field updates. *)
Definition set_out (s : Stream) (o : list str) (w : nat) : Stream :=
  mkStream (inner s) (padding s) (shared s) (group s) o w (hearts s) (reply_pending s) (header s) (body_size s)
    (body s) (delivered s) (data_ready s) (v2 s) (acknowledged s) (fin_queued s) (write_closed s) (peer_closed s)
    (closing s) (close_drained s) (failure s) (whole_closed s).
Definition set_group (s : Stream) (g : Z) : Stream :=
  mkStream (inner s) (padding s) (shared s) g (outgoing s) (written s) (hearts s) (reply_pending s) (header s)
    (body_size s) (body s) (delivered s) (data_ready s) (v2 s) (acknowledged s) (fin_queued s) (write_closed s)
    (peer_closed s) (closing s) (close_drained s) (failure s) (whole_closed s).
Definition set_hearts (s : Stream) (h : list Z) (r : bool) : Stream :=
  mkStream (inner s) (padding s) (shared s) (group s) (outgoing s) (written s) h r (header s) (body_size s)
    (body s) (delivered s) (data_ready s) (v2 s) (acknowledged s) (fin_queued s) (write_closed s) (peer_closed s)
    (closing s) (close_drained s) (failure s) (whole_closed s).
Definition set_input (s : Stream) (h : str) (n : nat) (b : str) (d : nat) (ready : bool) : Stream :=
  mkStream (inner s) (padding s) (shared s) (group s) (outgoing s) (written s) (hearts s) (reply_pending s) h n b d
    ready (v2 s) (acknowledged s) (fin_queued s) (write_closed s) (peer_closed s) (closing s) (close_drained s)
    (failure s) (whole_closed s).
Definition set_proto (s : Stream) (sh : Padding) (v a : bool) : Stream :=
  mkStream (inner s) (padding s) sh (group s) (outgoing s) (written s) (hearts s) (reply_pending s) (header s)
    (body_size s) (body s) (delivered s) (data_ready s) v a (fin_queued s) (write_closed s) (peer_closed s)
    (closing s) (close_drained s) (failure s) (whole_closed s).
Definition set_close (s : Stream) (fin wc pc cl : bool) (d : Z) : Stream :=
  mkStream (inner s) (padding s) (shared s) (group s) (outgoing s) (written s) (hearts s) (reply_pending s) (header s)
    (body_size s) (body s) (delivered s) (data_ready s) (v2 s) (acknowledged s) fin wc pc cl d (failure s)
    (whole_closed s).
Definition set_failure (s : Stream) (e : IoError) : Stream :=
  mkStream (inner s) (padding s) (shared s) (group s) (outgoing s) (written s) (hearts s) (reply_pending s) (header s)
    (body_size s) (body s) (delivered s) (data_ready s) (v2 s) (acknowledged s) (fin_queued s) (write_closed s)
    (peer_closed s) (closing s) (close_drained s) (Some e) (whole_closed s).

(** [finish] *)
Definition finish (s : Stream) : Stream :=
  mkStream false (padding s) (shared s) (group s) [] (written s) [] (reply_pending s) (header s) (body_size s)
    (body s) (delivered s) (data_ready s) (v2 s) (acknowledged s) (fin_queued s) (write_closed s) (peer_closed s)
    false (close_drained s) (failure s) (if is_some (failure s) then whole_closed s else true).

(** ** Operations: state passing, stopping at the first pending or failed step *)

Definition State : Type := Stream * Env.
Definition M (A : Type) : Type := State → State * Poll (io A).

Definition ret {A} (a : A) : M A := λ st, (st, Ready (Ok a)).
Definition err {A} (e : IoError) : M A := λ st, (st, Ready (Err e)).
Definition pending {A} : M A := λ st, (st, Pending).
Definition bind {A B} (m : M A) (k : A → M B) : M B := λ st,
  match m st with
  | (st, Ready (Ok a)) => k a st
  | (st, Ready (Err e)) => (st, Ready (Err e))
  | (st, Pending) => (st, Pending)
  end.
Definition get_stream : M Stream := λ st, (st, Ready (Ok (fst st))).
Definition put_stream (f : Stream → Stream) : M unit := λ '(s, e), ((f s, e), Ready (Ok tt)).

(** [fail]: the error is remembered and the transport dropped. An unexpected end of the
    transport is reported as the truncation error of the caller's layer, of the same kind. *)
Definition fail {A} (e : IoError) : M A := λ '(s, v), ((finish (set_failure s e), v), Ready (Err e)).

Definition check_error : M unit := λ st,
  match failure (fst st) with Some e => (st, Ready (Err e)) | None => (st, Ready (Ok tt)) end.

(** ** Transport polls *)

(** [poll_write(data)]: at most the offered bytes are accepted. *)
Definition poll_write (data : str) : M nat := λ '(s, v),
  match writes v with
  | [] => ((s, v), Pending)
  | a :: ws =>
      let v := mkEnv ws (flushes v) (shutdowns v) (reads v) (timer v) (rng v) (trace v) in
      match a with
      | WPending => ((s, v), Pending)
      | WAccept n =>
          let t := trace v in
          ((s, log v (mkTrace (wire t ++ take n data) (consumed t) (queued t) (accepted t) (output t) (fault t))),
           Ready (Ok (length (take n data))))
      | WError e => ((s, v), Ready (Err e))
      end
  end.

Definition unit_answer (a : UnitAnswer) : Poll (io unit) :=
  match a with UPending => Pending | UReady => Ready (Ok tt) | UError e => Ready (Err e) end.

Definition poll_transport_flush : M unit := λ '(s, v),
  match flushes v with
  | [] => ((s, v), Pending)
  | a :: fs => ((s, mkEnv (writes v) fs (shutdowns v) (reads v) (timer v) (rng v) (trace v)), unit_answer a)
  end.

Definition poll_transport_shutdown : M unit := λ '(s, v),
  match shutdowns v with
  | [] => ((s, v), Pending)
  | a :: sh => ((s, mkEnv (writes v) (flushes v) sh (reads v) (timer v) (rng v) (trace v)), unit_answer a)
  end.

(** [poll_read] into a buffer of [n] bytes: what does not fit stays for the next read. *)
Definition poll_transport_read (n : nat) : M str := λ '(s, v),
  match reads v with
  | [] => ((s, v), Pending)
  | a :: rs =>
      let with_reads rs := mkEnv (writes v) (flushes v) (shutdowns v) rs (timer v) (rng v) (trace v) in
      match a with
      | RPending => ((s, with_reads rs), Pending)
      | REof => ((s, with_reads rs), Ready (Ok []))
      | RError e => ((s, with_reads rs), Ready (Err e))
      | RData bytes =>
          let rest := drop n bytes in
          ((s, with_reads (if bool_decide (rest = []) then rs else RData rest :: rs)), Ready (Ok (take n bytes)))
      end
  end.

Definition poll_timer : M bool := λ '(s, v),
  match timer v with
  | [] => ((s, v), Ready (Ok false))
  | b :: ts => ((s, mkEnv (writes v) (flushes v) (shutdowns v) (reads v) ts (rng v) (trace v)), Ready (Ok b))
  end.

(** A failed transport poll fails the session; [ready!] passes pending on. *)
Definition or_fail {A} (m : M A) : M A := λ st,
  match m st with
  | (st, Ready (Err e)) => fail e st
  | r => r
  end.

(** [inner.as_mut().ok_or_else(closed)?] *)
Definition need_inner : M unit := λ st,
  if inner (fst st) then (st, Ready (Ok tt)) else (st, Ready (Err BrokenPipe)).

(** [inner.as_mut().unwrap()] *)
Definition unwrap_inner : M unit := λ '(s, v),
  let t := trace v in
  ((s, log v (mkTrace (wire t) (consumed t) (queued t) (accepted t) (output t) (fault t || negb (inner s)))),
   Ready (Ok tt)).

(** ** Writing *)

(** [queue]: the packets replace the queue, which must be empty. *)
Definition queue (cmd id : Z) (data : str) : M unit := λ '(s, v),
  match packets (padding s) (group s) (frame cmd id data) (rng v) with
  | Err e => ((s, v), Ready (Err e))
  | Ok (ps, rng') =>
      let t := trace v in
      ((set_group (set_out s ps (written s)) (Z.min (group s + 1) MAX_STOP),
        mkEnv (writes v) (flushes v) (shutdowns v) (reads v) (timer v) rng'
          (mkTrace (wire t) (consumed t) (queued t ++ mjoin ps) (accepted t ++ if cmd =? 2 then data else [])
             (output t) (fault t || negb (bool_decide (outgoing s = []))))),
       Ready (Ok tt))
  end.

(** One poll of the front packet. *)
Definition write_front (packet : str) : M unit :=
  bind need_inner (λ _,
  bind get_stream (λ s,
  bind (or_fail (poll_write (drop (written s) packet))) (λ n,
    if (n =? 0)%nat then fail WriteZero
    else put_stream (λ s,
      if (written s + n =? length packet)%nat then set_out s (tail (outgoing s)) 0
      else set_out s (outgoing s) (written s + n))))).

(** [drain]; the fuel is the polls and heartbeats there can be. [None] is out of fuel. *)
Fixpoint drain_loop (fuel : nat) (st : State) : option (State * Poll (io unit)) :=
  match fuel with
  | O => None
  | S fuel =>
      match outgoing (fst st) with
      | packet :: _ =>
          match write_front packet st with
          | (st, Ready (Ok _)) => drain_loop fuel st
          | r => Some r
          end
      | [] =>
          match hearts (fst st) with
          | id :: hs =>
              match bind (put_stream (λ s, set_hearts s hs (reply_pending s))) (λ _, queue 9 id []) st with
              | (st, Ready (Ok _)) => drain_loop fuel st
              | r => Some r
              end
          | [] => Some (bind need_inner (λ _, or_fail poll_transport_flush) st)
          end
      end
  end.

Definition drain_fuel (st : State) : nat := S (length (writes (snd st)) + length (hearts (fst st))).

Definition drain : M unit := λ st, default (st, Pending) (drain_loop (drain_fuel st) st).

Definition stream_write (data : str) : M nat :=
  bind check_error (λ _,
  bind get_stream (λ s,
    if closing s || negb (inner s) then err BrokenPipe
    else if bool_decide (data = []) then ret 0%nat
    else
      bind drain (λ _,
        let n := Nat.min (length data) (Z.to_nat MAX_FRAME) in
        bind (or_fail (queue 2 1 (take n data))) (λ _, ret n)))).

Definition stream_flush : M unit :=
  bind check_error (λ _,
  bind get_stream (λ s,
    if negb (inner s) then ret tt else if write_closed s then ret tt else drain)).

Definition shutdown_write : M unit :=
  bind drain (λ _,
  bind get_stream (λ s,
  bind (if fin_queued s then ret tt
        else bind (put_stream (λ s, set_close s true (write_closed s) (peer_closed s) (closing s) (close_drained s)))
               (λ _, or_fail (queue 3 1 []))) (λ _,
  bind drain (λ _,
  bind unwrap_inner (λ _,
  bind (or_fail poll_transport_shutdown) (λ _,
    put_stream (λ s, set_close s (fin_queued s) true (peer_closed s) (closing s) (close_drained s)))))))).

(** ** Opening *)

(** [write(data).await] and [flush().await] on the transport: polled until they are ready;
    [None] when the script never answers. *)
Fixpoint await_write (data : str) (ws : list WriteAnswer) : option (io str * list WriteAnswer) :=
  match ws with
  | [] => None
  | WPending :: ws => await_write data ws
  | WAccept n :: ws => Some (Ok (take n data), ws)
  | WError e :: ws => Some (Err e, ws)
  end.

Fixpoint await_unit (us : list UnitAnswer) : option (io unit * list UnitAnswer) :=
  match us with
  | [] => None
  | UPending :: us => await_unit us
  | UReady :: us => Some (Ok tt, us)
  | UError e :: us => Some (Err e, us)
  end.

(** [stream.flush().await]: every pending poll used up an answer of the script. *)
Fixpoint await_flush (fuel : nat) (st : State) : option (io State) :=
  match fuel with
  | O => None
  | S fuel =>
      match stream_flush st with
      | (st, Ready (Ok _)) => Some (Ok st)
      | (_, Ready (Err e)) => Some (Err e)
      | (st, Pending) => await_flush fuel st
      end
  end.

(** The authentication record: digest of the password, padding size, padding. *)
Definition auth_record (digest : str) (size : Z) : str := digest ++ be16 size ++ zeros size.

(** Settings, stream opening and the destination, sent as one padded group. *)
Definition first_frames (version : str) (p : Padding) (address : str) : list Frame :=
  [mkFrame 4 0 (lit "v=2" ++ [10] ++ lit "client=zc/" ++ version ++ [10] ++ lit "padding-md5=" ++ md5 p);
   mkFrame 1 1 [];
   mkFrame 2 1 address].

Definition fresh_stream (p : Padding) (outgoing : list str) : Stream :=
  mkStream true p p 2 outgoing 0 [] false [] 0 [] 0 false false false false false false false 0 None false.

Definition open (sha256 : str → str) (version address password : str) (p : Padding) (v : Env) : option (io State) :=
  match auth_size p (rng v) with
  | Err e => Some (Err e)
  | Ok (size, rng1) =>
      let auth := auth_record (sha256 password) size in
      let? '(n, ws) := await_write auth (writes v) in
      match n with
      | Err e => Some (Err e)
      | Ok sent =>
          if negb (len sent =? len auth) then Some (Err OtherError)
          else
            let? '(flushed, fs) := await_unit (flushes v) in
            match flushed with
            | Err e => Some (Err e)
            | Ok _ =>
                match packets p 1 (mjoin (frame_bytes <$> first_frames version p address)) rng1 with
                | Err e => Some (Err e)
                | Ok (ps, rng2) =>
                    let t := mkTrace sent [] (auth ++ mjoin ps) address [] false in
                    let v := mkEnv ws fs (shutdowns v) (reads v) (timer v) rng2 t in
                    await_flush (S (length ws + length fs)) (fresh_stream p ps, v)
                end
            end
      end
  end.

(** ** Reading *)

Definition header_cmd (h : str) : Z := default 0 (h !! 0%nat).
Definition header_id (h : str) : Z := from_be (take 4 (drop 1 h)).
Definition header_len (h : str) : Z := from_be (take 2 (drop 5 h)).

Definition validate_header (s : Stream) : bool :=
  let cmd := header_cmd (header s) in
  let id := header_id (header s) in
  let n := header_len (header s) in
  if cmd =? 0 then id =? 0
  else if cmd =? 2 then id =? 1
  else if cmd =? 3 then (id =? 1) && (n =? 0)
  else if (cmd =? 5) || (cmd =? 6) then (id =? 0) && (n <=? MAX_TEXT)
  else if cmd =? 7 then v2 s && negb (acknowledged s) && (id =? 1) && (n <=? MAX_TEXT)
  else if (cmd =? 8) || (cmd =? 9) then v2 s && (n =? 0)
  else if cmd =? 10 then negb (v2 s) && (id =? 0) && (n <=? MAX_TEXT)
  else false.

Section Control.
Context (digest : str → list Z).

(** [control]: the completed frame takes effect. *)
Definition control : M unit :=
  bind get_stream (λ s,
    let cmd := header_cmd (header s) in
    if (cmd =? 0) || (cmd =? 9) then ret tt
    else if cmd =? 2 then
      put_stream (λ s, set_input s (header s) (body_size s) (body s) (delivered s) (negb (bool_decide (body s = []))))
    else if cmd =? 3 then put_stream finish
    else if cmd =? 5 then err PermissionDenied
    else if cmd =? 6 then
      match padding_parse digest (body s) with
      | Ok p => put_stream (λ s, set_proto s p (v2 s) (acknowledged s))
      | Err e => err e
      end
    else if cmd =? 7 then
      bind (put_stream (λ s, set_proto s (shared s) (v2 s) true)) (λ _,
        if bool_decide (body s = []) then ret tt else err ConnectionRefused)
    else if cmd =? 8 then
      if len (hearts s) =? MAX_HEARTS then err InvalidData
      else put_stream (λ s, set_hearts s (hearts s ++ [header_id (header s)]) true)
    else if cmd =? 10 then
      match fields (body s) with
      | Err e => err e
      | Ok fs =>
          match bget (lit "v") fs with
          | None => err InvalidData
          | Some v =>
              match number v with
              | Err e => err e
              | Ok n => if (n <? 2) || (u16_max <? n) then err InvalidData
                        else put_stream (λ s, set_proto s (shared s) true (acknowledged s))
              end
          end
      end
    else err InvalidData).

Definition log_consumed (bytes : str) : M unit := λ '(s, v),
  let t := trace v in
  ((s, log v (mkTrace (wire t) (consumed t ++ bytes) (queued t) (accepted t) (output t) (fault t))), Ready (Ok tt)).

Definition log_output (bytes : str) : M unit := λ '(s, v),
  let t := trace v in
  ((s, log v (mkTrace (wire t) (consumed t) (queued t) (accepted t) (output t ++ bytes) (fault t))), Ready (Ok tt)).

(** A read that must deliver something. *)
Definition read_some (n : nat) : M str :=
  bind unwrap_inner (λ _,
  bind (or_fail (poll_transport_read n)) (λ bytes,
    if bool_decide (bytes = []) then fail UnexpectedEof else bind (log_consumed bytes) (λ _, ret bytes))).

(** [while self.header_read < 7]; every read delivers at least a byte. *)
Fixpoint read_header (fuel : nat) : M unit :=
  bind get_stream (λ s,
    if (7 <=? length (header s))%nat then ret tt
    else
      match fuel with
      | O => pending
      | S fuel =>
          bind (read_some (7 - length (header s))) (λ bytes,
          bind (put_stream (λ s, set_input s (header s ++ bytes) (body_size s) (body s) (delivered s) (data_ready s))) (λ _,
          bind get_stream (λ s,
            if (length (header s) =? 7)%nat then
              if negb (validate_header s) then fail InvalidData
              else
                bind (put_stream (λ s, set_input s (header s) (Z.to_nat (header_len (header s))) [] 0 (data_ready s)))
                  (λ _, read_header fuel)
            else read_header fuel)))
      end).

(** [while self.body_read < self.body.len()] *)
Fixpoint read_body (fuel : nat) : M unit :=
  bind get_stream (λ s,
    if (body_size s <=? length (body s))%nat then ret tt
    else
      match fuel with
      | O => pending
      | S fuel =>
          bind (read_some (body_size s - length (body s))) (λ bytes,
          bind (put_stream (λ s, set_input s (header s) (body_size s) (body s ++ bytes) (delivered s) (data_ready s)))
            (λ _, read_body fuel))
      end).

(** A ready drain ends the pending reply; a pending one does not block reading. *)
Definition try_reply : M unit := λ st,
  if reply_pending (fst st) then
    match drain st with
    | ((s, v), Ready (Ok _)) => ((set_hearts s (hearts s) false, v), Ready (Ok tt))
    | (st, Ready (Err e)) => (st, Ready (Err e))
    | (st, Pending) => (st, Ready (Ok tt))
    end
  else (st, Ready (Ok tt)).

(** [receive] with room for [cap] bytes and [rounds] frames left: the bytes put out. *)
Fixpoint receive_loop (rounds : nat) (cap : nat) : M str :=
  match rounds with
  | O => pending
  | S rounds =>
      bind get_stream (λ s,
        if data_ready s then
          let n := Nat.min cap (length (body s) - delivered s) in
          let bytes := take n (drop (delivered s) (body s)) in
          bind (log_output bytes) (λ _,
          bind (put_stream (λ s, set_input s (header s) (body_size s) (body s) (delivered s + n)
                                   (negb (delivered s + n =? length (body s))%nat)))
            (λ _, ret bytes))
        else if negb (inner s) then ret []
        else if closing s then pending
        else
          bind try_reply (λ _,
          bind (read_header 7) (λ _,
          bind get_stream (λ s,
          bind (read_body (body_size s)) (λ _,
          bind (or_fail control) (λ _,
          bind (put_stream (λ s, set_input s [] (body_size s) (body s) (delivered s) (data_ready s))) (λ _,
            receive_loop rounds cap)))))))
  end.

Definition receive (cap : nat) : M str := bind check_error (λ _, receive_loop 32 cap).

Definition stream_read (cap : nat) : M str := if (cap =? 0)%nat then ret [] else receive cap.

End Control.

(** ** Closing *)

(** The bounded drain of the peer's bytes in [poll_shutdown]. *)
Fixpoint drain_peer (rounds : nat) : M unit :=
  match rounds with
  | O => ret tt
  | S rounds =>
      bind get_stream (λ s,
        if peer_closed s then ret tt
        else
          let room := Z.to_nat (Z.min (MAX_CLOSE_DRAIN - close_drained s + 1) 16384) in
          let close_peer := put_stream (λ s, set_close s (fin_queued s) (write_closed s) true (closing s) (close_drained s)) in
          bind unwrap_inner (λ _ st,
            match poll_transport_read room st with
            | (st, Pending) => (st, Pending)
            | (st, Ready (Ok [])) => bind close_peer (λ _, drain_peer rounds) st
            | (st, Ready (Ok bytes)) =>
                bind (put_stream (λ s, set_close s (fin_queued s) (write_closed s) (peer_closed s) (closing s)
                                         (close_drained s + len bytes))) (λ _,
                bind get_stream (λ s,
                  if MAX_CLOSE_DRAIN <? close_drained s then fail InvalidData else drain_peer rounds)) st
            | (st, Ready (Err UnexpectedEof)) => bind close_peer (λ _, drain_peer rounds) st
            | (st, Ready (Err e)) => fail e st
            end))
  end.

(** [if !write_closed && let Ready(result) = shutdown_write(..) { result? }] *)
Definition try_shutdown_write : M unit := λ st,
  if write_closed (fst st) then (st, Ready (Ok tt))
  else match shutdown_write st with
       | (st, Ready r) => (st, Ready r)
       | (st, Pending) => (st, Ready (Ok tt))
       end.

Definition stream_shutdown : M unit :=
  bind check_error (λ _,
  bind get_stream (λ s,
    if negb (inner s) then ret tt
    else
      bind (put_stream (λ s, set_close s (fin_queued s) (write_closed s) (peer_closed s) true (close_drained s))) (λ _,
      bind poll_timer (λ expired,
        if (expired : bool) then fail TimedOut
        else
          bind try_shutdown_write (λ _,
          bind (drain_peer 16) (λ _,
          bind get_stream (λ s,
            if peer_closed s && write_closed s then put_stream finish else pending))))))).

End Session.
