(* ===== verification/SessionFacts.v ===== *)
(** * What an AnyTLS session guarantees (src/src/anytls.rs)

    An invariant over every interleaving of reads, writes, flushes and shutdowns and every
    behaviour of the transport: what is put on the wire is a prefix of a sequence of whole
    frames whose data is what the writer handed over, and what the reader gets is the data of
    the whole frames received. Proved with a small program logic for the session monad. *)
From S2P Require Import Prelude BTree AnyTls AnyTlsSession.

Module SessionFacts.
Import AnyTls.
Import Session.

(** ** The two views of a byte stream *)

(** The data carried by a sequence of frames. *)
Definition payload (fs : list Frame) : str := mjoin ((λ f, if f_cmd f =? 2 then f_body f else []) <$> fs).

(** The bytes a transport script still delivers. *)
Definition script_bytes (rs : list ReadAnswer) : str :=
  mjoin ((λ a, match a with RData b => b | _ => [] end) <$> rs).

(** The part of the next frame that has been read, and the received data the reader has not
    taken yet. *)
Definition partial (s : Stream) : str := header s ++ if (length (header s) =? 7)%nat then body s else [].
Definition undelivered (s : Stream) : str := if data_ready s then drop (delivered s) (body s) else [].

Lemma payload_app a b : payload (a ++ b) = payload a ++ payload b.
Proof. unfold payload. by rewrite fmap_app, join_app. Qed.

(** ** Invariants *)

Section Invariants.
(** The authentication record, and everything the transport will ever deliver. *)
Context (auth incoming : str) (incoming_bytes : Forall is_byte incoming).

Record write_inv (s : Stream) (t : Trace) : Prop := {
  wi_padding : padding_wf (padding s);
  wi_fault : fault t = false;
  wi_live : inner s = true → wire t ++ drop (written s) (mjoin (outgoing s)) = queued t;
  wi_wire : wire t `prefix_of` queued t;
  wi_front : inner s = true →
    match outgoing s with [] => written s = 0%nat | p :: _ => (written s < length p)%nat end;
  wi_packets : Forall (λ p, p ≠ []) (outgoing s);
  wi_hearts : Forall (λ id, 0 ≤ id ≤ u32_max) (hearts s);
  wi_bounds : len (outgoing s) ≤ 17 ∧ len (hearts s) ≤ MAX_HEARTS;
  wi_frames : ∃ fs, Forall frame_wf fs ∧ queued t = auth ++ mjoin (frame_bytes <$> fs) ∧ payload fs = accepted t;
}.

Record read_inv (s : Stream) (v : Env) : Prop := {
  ri_header : inner s = true → (length (header s) ≤ 7)%nat ∧ Forall is_byte (header s);
  ri_body : inner s = true → length (header s) = 7%nat →
    body_size s = Z.to_nat (header_len (header s)) ∧ (length (body s) ≤ body_size s)%nat ∧ delivered s = 0%nat;
  ri_ready : data_ready s = true → header s = [] ∧ (delivered s ≤ length (body s))%nat;
  ri_frames : ∃ fs rest, Forall frame_wf fs ∧ consumed (trace v) = mjoin (frame_bytes <$> fs) ++ rest ∧
    output (trace v) ++ undelivered s = payload fs ∧ (inner s = true → rest = partial s);
  ri_script : ∃ dropped, incoming = consumed (trace v) ++ dropped ++ script_bytes (reads v) ∧
    (dropped ≠ [] → inner s = true → closing s = true);
}.

Definition Inv (st : State) : Prop := write_inv (fst st) (trace (snd st)) ∧ read_inv (fst st) (snd st).
Definition Live (st : State) : Prop := Inv st ∧ inner (fst st) = true.
Definition Drained (st : State) : Prop := Live st ∧ outgoing (fst st) = [].

(** ** Framing: an operation of one side leaves the other side's invariant alone *)

Lemma write_frame s t s' t' :
  padding s' = padding s → inner s' = inner s → outgoing s' = outgoing s → written s' = written s →
  hearts s' = hearts s → wire t' = wire t → queued t' = queued t → accepted t' = accepted t → fault t' = fault t →
  write_inv s t → write_inv s' t'.
Proof. intros Ep Ei Eo Ew Eh Ewi Eq Ea Ef []. split; rewrite ?Ep, ?Ei, ?Eo, ?Ew, ?Eh, ?Ewi, ?Eq, ?Ea, ?Ef; done. Qed.

Lemma write_finish s t : write_inv s t → write_inv (finish s) t.
Proof. intros [? ? ? ? ? ? ? [? ?] ?]. split; simpl; try done; by constructor. Qed.

Lemma read_frame_inv s v s' v' :
  header s' = header s → body_size s' = body_size s → body s' = body s → delivered s' = delivered s →
  data_ready s' = data_ready s → (inner s' = true → inner s = true ∧ closing s' = closing s) →
  reads v' = reads v → consumed (trace v') = consumed (trace v) → output (trace v') = output (trace v) →
  read_inv s v → read_inv s' v'.
Proof.
  intros Eh En Eb Ed Er Ei Ers Ec Eo [H1 H2 H3 H4 H5].
  split; unfold partial, undelivered in *; rewrite ?Eh, ?En, ?Eb, ?Ed, ?Er, ?Ers, ?Ec, ?Eo; try naive_solver.
Qed.

Lemma inv_finish s v e : Inv (s, v) → Inv (finish (set_failure s e), v) ∧ Inv (finish s, v).
Proof.
  intros [Hw Hr]. split; (split; cbn [fst snd] in *; [|by apply (read_frame_inv s v)]).
  - apply write_finish. by eapply write_frame; [..|exact Hw].
  - by apply write_finish.
Qed.

(** ** A program logic: what holds after an operation that returned, is pending or failed *)

Definition triple {A} (P : State → Prop) (m : M A) (Q : A → State → Prop) (W : State → Prop) : Prop :=
  ∀ st, P st →
    match m st with
    | (st', Ready (Ok a)) => Q a st'
    | (st', Ready (Err _)) => Inv st'
    | (st', Pending) => W st'
    end.

Lemma triple_bind {A B} P (m : M A) Q W (k : A → M B) R :
  triple P m Q W → (∀ a, triple (Q a) (k a) R W) → triple P (bind m k) R W.
Proof.
  intros Hm Hk st HP. specialize (Hm st HP). unfold bind. destruct (m st) as [st' [|[a|e]]]; [done| |done].
  by apply Hk.
Qed.

Lemma triple_weaken {A} (P P' : State → Prop) (m : M A) Q Q' (W W' : State → Prop) :
  (∀ st, P' st → P st) → (∀ a st, Q a st → Q' a st) → (∀ st, W st → W' st) → triple P m Q W → triple P' m Q' W'.
Proof.
  intros HP HQ HW Hm st Hst. specialize (Hm st (HP st Hst)). destruct (m st) as [st' [|[a|e]]]; [by apply HW|by apply HQ|done].
Qed.

Lemma triple_get {A} P (k : Stream → M A) R W :
  (∀ s, triple (λ st, P st ∧ fst st = s) (k s) R W) → triple P (bind get_stream k) R W.
Proof. intros Hk st HP. unfold bind, get_stream. by apply (Hk (fst st)). Qed.

Lemma triple_put (P : State → Prop) f (Q : unit → State → Prop) W :
  (∀ s v, P (s, v) → Q tt (f s, v)) → triple P (put_stream f) Q W.
Proof. intros Hf [s v] HP. by apply Hf. Qed.

Lemma triple_ret {A} (P : State → Prop) (a : A) (Q : A → State → Prop) W : (∀ st, P st → Q a st) → triple P (ret a) Q W.
Proof. intros H st HP. by apply H. Qed.

Lemma triple_err {A} (P : State → Prop) e (Q : A → State → Prop) W : (∀ st, P st → Inv st) → triple P (err e) Q W.
Proof. intros H st HP. by apply H. Qed.

Lemma triple_fail {A} (P : State → Prop) e (Q : A → State → Prop) W : (∀ st, P st → Inv st) → triple P (fail e) Q W.
Proof. intros H [s v] HP. exact (proj1 (inv_finish _ _ e (H _ HP))). Qed.

Lemma triple_or_fail {A} P (m : M A) Q W : triple P m Q W → triple P (or_fail m) Q W.
Proof.
  intros Hm st HP. specialize (Hm st HP). unfold or_fail. destruct (m st) as [[s v] [|[a|e]]]; [done|done|].
  exact (proj1 (inv_finish _ _ e Hm)).
Qed.

Lemma triple_check {A} (P : State → Prop) (k : unit → M A) R W :
  (∀ st, P st → Inv st) → triple P (k tt) R W → triple P (bind check_error k) R W.
Proof.
  intros HI Hk st HP. unfold bind, check_error. destruct (failure (fst st)); [by eapply HI|]. exact (Hk st HP).
Qed.

Lemma triple_unwrap {A} (P : State → Prop) (k : unit → M A) R W :
  (∀ st, P st → Live st) → triple P (k tt) R W → triple P (bind unwrap_inner k) R W.
Proof.
  intros HI Hk [s v] HP. unfold bind, unwrap_inner.
  assert (log v (mkTrace (wire (trace v)) (consumed (trace v)) (queued (trace v)) (accepted (trace v))
            (output (trace v)) (fault (trace v) || negb (inner s))) = v) as ->.
  { destruct (HI _ HP) as [_ Hi]. cbn in Hi. rewrite Hi, orb_false_r. by destruct v as [? ? ? ? ? ? []]. }
  by apply Hk.
Qed.

Lemma live_inv st : Live st → Inv st.
Proof. by intros []. Qed.
Lemma drained_live st : Drained st → Live st.
Proof. by intros []. Qed.
Lemma drained_inv st : Drained st → Inv st.
Proof. by intros [[]]. Qed.
Hint Resolve live_inv drained_live drained_inv : core.

(** ** Writing *)

Lemma pad_steps_nonempty group steps rest ps rng ps' rest' rng' :
  Forall (step_wf group) steps → Forall (λ p, p ≠ []) ps → pad_steps steps rest ps rng = Ok (ps', rest', rng') →
  Forall (λ p, p ≠ []) ps'.
Proof.
  intros Hf. revert rest ps rng. induction Hf as [|s steps Hs _ IH]; intros rest ps rng Hp; simpl; [by intros [= <- _ _]|].
  assert (∀ q, q ≠ [] → Forall (λ p : str, p ≠ []) (ps ++ [q])) as Hadd.
  { intros q Hq. apply Forall_app. by split; [|apply Forall_singleton]. }
  destruct s as [mn mx|]; [|destruct (bool_decide _); [by intros [= <- _ _]|by apply IH]].
  destruct Hs as (H1 & H2 & _). destruct (random_size mn mx rng) as [[n r]|] eqn:Er; [|done].
  apply random_size_range in Er; [|done]. destruct (n <? len rest) eqn:En; destruct_bool.
  - apply IH, Hadd. destruct rest; [unfold len in En; simpl in En; lia|]. by destruct (Z.to_nat n) eqn:E; [lia|].
  - destruct (bool_decide (rest = [])) eqn:Ee; simpl; destruct_bool; apply IH, Hadd; [by unfold frame|].
    destruct (_ <? n); [|done]. by destruct rest.
Qed.

Lemma packets_nonempty p group data rng ps rng' : padding_wf p → packets p group data rng = Ok (ps, rng') →
  Forall (λ q, q ≠ []) ps.
Proof.
  intros Hwf. unfold packets. set (steps := if group <? stop p then _ else _).
  assert (Forall (step_wf group) steps) as Hf.
  { unfold steps. destruct (group <? stop p); [|done].
    destruct (pad_groups p !! group) as [st|] eqn:E; [|done]. by destruct (wf_steps _ Hwf _ _ E) as (_ & _ & ? & _). }
  destruct (pad_steps steps data [] rng) as [[[out rest] r]|] eqn:Ep; [|done]. intros [= <- _].
  apply (pad_steps_nonempty group) in Ep; [|done|done]. destruct (bool_decide (rest = [])) eqn:E; [done|].
  apply Forall_app. split; [done|]. apply Forall_singleton. by destruct_bool.
Qed.

(** A frame is queued only when nothing is left to write: nothing is overwritten. *)
Lemma queue_spec cmd id data :
  frame_wf (mkFrame cmd id data) → triple Drained (queue cmd id data) (λ _, Live) Live.
Proof.
  intros Hwf [s v] [[[Hw Hr] Hi] Ho]. cbn [fst snd] in *. unfold queue.
  destruct (packets (padding s) (group s) _ (rng v)) as [[ps rng']|e] eqn:Ep; [|by split].
  pose proof (packets_nonempty _ _ _ _ _ _ (wi_padding _ _ Hw) Ep) as Hne.
  apply packets_spec in Ep as (ws & Hj & [Hws _] & Hlen); [|apply Hw].
  destruct Hw as [H1 H2 H3 H4 H5 H6 H7 [_ H8] (fs & Hfs & Hq & Ha)].
  specialize (H3 Hi). specialize (H5 Hi). rewrite Ho in H3, H5. rewrite H5 in H3. cbn in H3. rewrite app_nil_r in H3.
  split; [|done]. split; cbn [fst snd]; [|by eapply read_frame_inv; [..|exact Hr]].
  split; cbn; try done.
  - by rewrite H2, Ho.
  - intros _. by rewrite H5, H3.
  - rewrite <- H3. by eexists.
  - intros _. rewrite H5. destruct ps as [|p ps]; [done|]. apply Forall_cons in Hne as [? _]. destruct p; [done|simpl; lia].
  - exists (fs ++ mkFrame cmd id data :: ws). split_and!.
    + apply Forall_app. split; [done|]. constructor; [done|]. by eapply Forall_impl; [exact Hws|]; intros ? [].
    + rewrite Hj, Hq, fmap_app, join_app, fmap_cons, mjoin_cons, <- app_assoc. done.
    + rewrite payload_app, Ha. f_equal. change (mkFrame cmd id data :: ws) with ([mkFrame cmd id data] ++ ws).
      rewrite payload_app. cbn. rewrite app_nil_r.
      assert (payload ws = []) as ->; [|by rewrite app_nil_r].
      clear -Hws. induction Hws as [|f ws [[Hc _] _] _ IH]; [done|].
      change (f :: ws) with ([f] ++ ws). rewrite payload_app, IH. cbn. by rewrite Hc.
Qed.

(** What writing never touches. *)
Definition keeps (st st' : State) : Prop :=
  data_ready (fst st') = data_ready (fst st) ∧ closing (fst st') = closing (fst st) ∧
  write_closed (fst st') = write_closed (fst st).

Lemma keeps_trans a b c : keeps a b → keeps b c → keeps a c.
Proof. unfold keeps. intuition congruence. Qed.

Definition work (st : State) : nat := (length (writes (snd st)) + length (hearts (fst st)))%nat.

(** The invariant when the transport takes [n] bytes of the front packet. *)
Lemma write_advance s t packet ps n :
  write_inv s t → inner s = true → outgoing s = packet :: ps →
  let taken := take n (drop (written s) packet) in
  taken ≠ [] →
  let t' := mkTrace (wire t ++ taken) (consumed t) (queued t) (accepted t) (output t) (fault t) in
  write_inv (if (written s + length taken =? length packet)%nat then set_out s (tail (outgoing s)) 0
             else set_out s (outgoing s) (written s + length taken)) t'.
Proof.
  intros [H1 H2 H3 H4 H5 H6 H7 [Hb1 Hb2] H8] Hi Ho taken Hne t'. specialize (H3 Hi). specialize (H5 Hi). rewrite Ho in *. cbn in H5.
  rewrite mjoin_cons, drop_app_le in H3 by lia.
  assert (drop (written s) packet = taken ++ drop (written s + length taken) packet) as Ht.
  { rewrite <- drop_drop. unfold taken. rewrite <- (take_drop n (drop (written s) packet)) at 1. f_equal.
    rewrite length_take. destruct (decide (n ≤ length (drop (written s) packet))%nat).
    - by rewrite Nat.min_l.
    - rewrite Nat.min_r by lia. rewrite !drop_ge by lia. done. }
  apply Forall_cons in H6 as [_ H6].
  assert (wire t ++ taken `prefix_of` queued t) as Hpre.
  { rewrite <- H3, Ht. exists (drop (written s + length taken) packet ++ mjoin ps). by rewrite !app_assoc. }
  assert (length taken ≤ length packet - written s)%nat as Hlen.
  { unfold taken. rewrite length_take, length_drop. lia. }
  destruct (_ =? length packet)%nat eqn:E; [apply Nat.eqb_eq in E|apply Nat.eqb_neq in E].
  - split; cbn; try done.
    + intros _. rewrite <- H3, Ht, (drop_ge packet) by lia. by rewrite drop_0, app_nil_r, <- app_assoc.
    + intros _. destruct ps as [|p ps]; [done|]. apply Forall_cons in H6 as [? _]. destruct p; [done|simpl; lia].
    + rewrite len_cons in Hb1. split; [lia|done].
  - split; cbn; try done.
    + intros _. rewrite drop_app_le by lia. by rewrite <- H3, Ht, <- !app_assoc.
    + intros _. lia.
    + constructor; [|done]. intros ->. simpl in H5. lia.
Qed.

Lemma write_front_spec packet ps st : Live st → outgoing (fst st) = packet :: ps →
  match write_front packet st with
  | (st', Ready (Ok _)) => Live st' ∧ keeps st st' ∧ (work st' < work st)%nat
  | (st', Ready (Err _)) => Inv st'
  | (st', Pending) => Live st' ∧ keeps st st'
  end.
Proof.
  destruct st as [s v]. intros [[Hw Hr] Hi] Ho. cbn [fst snd] in *.
  unfold write_front, bind, need_inner, get_stream, or_fail, poll_write. cbn [fst]. rewrite Hi. cbn [fst].
  assert (∀ v', reads v' = reads v → trace v' = trace v → Inv (s, v')) as Hv.
  { intros v' Er Et. split; cbn [fst snd]; [by rewrite Et|]. by eapply read_frame_inv; [..|exact Hr]; rewrite ?Et. }
  destruct (writes v) as [|[|n|e] ws] eqn:Ews; cbn beta iota zeta.
  - split; [|done]. split; [by apply Hv|done].
  - split; [|done]. split; [by apply Hv|done].
  - destruct (length _ =? 0)%nat eqn:E0; [apply Nat.eqb_eq in E0|apply Nat.eqb_neq in E0].
    + apply (inv_finish s _ WriteZero). split; cbn [fst snd trace log]; [|by eapply read_frame_inv; [..|exact Hr]].
      destruct (take n _) eqn:Et; [|done]. eapply write_frame; [..|exact Hw]; try done. cbn. by rewrite app_nil_r.
    + pose proof (write_advance s (trace v) packet ps n Hw Hi Ho) as Hadv. cbn zeta in Hadv.
      cbn [put_stream]. split_and!.
      * split; [|by destruct (_ =? length packet)%nat]. split; cbn [fst snd log trace].
        -- apply Hadv. by intros Hn; rewrite Hn in E0.
        -- by destruct (_ =? length packet)%nat; (eapply read_frame_inv; [..|exact Hr]).
      * by destruct (_ =? length packet)%nat.
      * unfold work. cbn [fst snd log writes]. rewrite Ews. destruct (_ =? length packet)%nat; simpl; lia.
  - apply (inv_finish s _ e), Hv; done.
Qed.

Lemma empty_frame_wf cmd id : 0 ≤ cmd < 256 → 0 ≤ id ≤ u32_max → frame_wf (mkFrame cmd id []).
Proof. intros. split_and!; simpl; try lia. by unfold MAX_FRAME, u16_max. Qed.

Lemma queue_keeps cmd id data st :
  match queue cmd id data st with
  | (st', Ready (Ok _)) => keeps st st' ∧ work st' = work st
  | (st', Ready (Err _)) => st' = st
  | (st', Pending) => False
  end.
Proof. destruct st as [s v]. unfold queue. by destruct (packets _ _ _ _) as [[ps r]|e]. Qed.

Definition drain_post (st : State) (r : State * Poll (io unit)) : Prop :=
  match r with
  | (st', Ready (Ok _)) => Drained st' ∧ hearts (fst st') = [] ∧ keeps st st'
  | (st', Ready (Err _)) => Inv st'
  | (st', Pending) => Live st' ∧ keeps st st'
  end.

Lemma drain_post_trans a b r : keeps a b → drain_post b r → drain_post a r.
Proof.
  intros Hk. destruct r as [st [|[u|e]]]; simpl; [|intros (? & ? & ?)|done].
  - intros [? ?]. split; [done|]. by eapply keeps_trans.
  - split_and!; [done|done|]. by eapply keeps_trans.
Qed.

Lemma flush_spec st : Drained st → hearts (fst st) = [] →
  drain_post st (bind need_inner (λ _, or_fail poll_transport_flush) st).
Proof.
  destruct st as [s v]. intros [[[Hw Hr] Hi] Ho] Hh. cbn [fst snd] in *.
  unfold bind, need_inner, or_fail, poll_transport_flush. cbn [fst]. rewrite Hi. cbn [fst].
  assert (∀ v', reads v' = reads v → trace v' = trace v → Inv (s, v')) as Hv.
  { intros v' Er Et. split; cbn [fst snd]; [by rewrite Et|]. by eapply read_frame_inv; [..|exact Hr]; rewrite ?Et. }
  destruct (flushes v) as [|[| |e] fs]; cbn.
  - split; [|done]. split; [by apply Hv|done].
  - split; [|done]. split; [by apply Hv|done].
  - split_and!; [|done|done]. split; [|done]. split; [by apply Hv|done].
  - apply (inv_finish s _ e), Hv; done.
Qed.

(** The fuel of [drain] is enough: it ends by itself, with everything written. *)
Lemma drain_loop_spec fuel st : Live st → (work st < fuel)%nat →
  ∃ r, drain_loop fuel st = Some r ∧ drain_post st r.
Proof.
  revert st. induction fuel as [|fuel IH]; intros st HL Hf; [lia|]. cbn [drain_loop].
  destruct (outgoing (fst st)) as [|packet ps] eqn:Eo.
  - destruct (hearts (fst st)) as [|id hs] eqn:Eh.
    + eexists. split; [done|]. by apply flush_spec.
    + destruct st as [s v]. unfold bind, put_stream. cbn [fst snd] in *.
      set (st1 := (set_hearts s hs (reply_pending s), v)).
      destruct HL as [[Hw Hr] Hi]. cbn [fst snd] in *.
      assert (Drained st1 ∧ 0 ≤ id ≤ u32_max) as [HD Hid].
      { pose proof (wi_hearts _ _ Hw) as Hall. rewrite Eh in Hall. apply Forall_cons in Hall as [Hid Hall].
        split; [|done]. split; [split; [split; cbn [fst snd]|done]|done].
        - destruct Hw as [? ? ? ? ? ? ? [? Hb] ?]. rewrite Eh, len_cons in Hb. split; try done. split; [done|cbn; lia].
        - by eapply read_frame_inv; [..|exact Hr]. }
      pose proof (queue_spec 9 id [] (empty_frame_wf 9 id ltac:(lia) Hid) st1 HD) as Hq.
      pose proof (queue_keeps 9 id [] st1) as Hk.
      destruct (queue 9 id [] st1) as [st2 [|[u|e]]]; [done| |eexists; by split].
      destruct Hk as [Hk Hwork]. destruct (IH st2 Hq) as (r & Hr' & Hpost).
      { rewrite Hwork. unfold work, st1 in *. cbn [fst snd hearts set_hearts] in *. rewrite Eh in Hf. simpl in Hf. lia. }
      exists r. split; [done|]. by apply (drain_post_trans _ st2); [|done].
  - pose proof (write_front_spec packet ps st HL Eo) as Hwf.
    destruct (write_front packet st) as [st' [|[u|e]]]; [eexists; by split| |eexists; by split].
    destruct Hwf as (HL' & Hk & Hwork). destruct (IH st' HL') as (r & Hr & Hpost); [lia|].
    exists r. split; [done|]. by apply (drain_post_trans _ st').
Qed.

Lemma drain_spec st : Live st → drain_post st (drain st).
Proof.
  intros HL. unfold drain, drain_fuel. destruct (drain_loop_spec (S (work st)) st HL) as (r & Hr & Hp); [lia|].
  fold (work st). by rewrite Hr.
Qed.

Lemma drain_triple : triple Live drain (λ _, Drained) Live.
Proof. intros st HL. pose proof (drain_spec st HL) as H. destruct (drain st) as [st' [|[u|e]]]; simpl in H; naive_solver. Qed.

Lemma stream_write_inv data : triple Inv (stream_write data) (λ _, Inv) Inv.
Proof.
  unfold stream_write. apply triple_check; [done|]. apply triple_get. intros s.
  destruct (closing s || negb (inner s)) eqn:Ei; [apply triple_err; naive_solver|].
  destruct (bool_decide (data = [])); [apply triple_ret; naive_solver|].
  apply orb_false_elim in Ei as [_ Ei]. apply negb_false_iff in Ei.
  eapply triple_bind.
  { eapply triple_weaken; [..|exact drain_triple]; [|done|by apply live_inv]. intros st [? Hs]. split; [done|by rewrite Hs]. }
  intros []. eapply (triple_bind _ _ (λ _, Inv)); [|intros []; by apply triple_ret].
  apply triple_or_fail. eapply triple_weaken; [..|apply queue_spec]; [done|by intros; apply live_inv|by apply live_inv|].
  split_and!; simpl; [lia|lia|lia|by unfold u32_max|]. rewrite len_take. unfold MAX_FRAME, u16_max. lia.
Qed.

Lemma stream_flush_inv : triple Inv stream_flush (λ _, Inv) Inv.
Proof.
  unfold stream_flush. apply triple_check; [done|]. apply triple_get. intros s.
  destruct (inner s) eqn:Ei; simpl; [|apply triple_ret; naive_solver].
  destruct (write_closed s); [apply triple_ret; naive_solver|].
  eapply triple_weaken; [..|exact drain_triple]; [|by intros; apply drained_inv|by apply live_inv].
  intros st [? Hs]. split; [done|by rewrite Hs].
Qed.

Lemma set_close_inv s v fin wc pc cl d : Inv (s, v) → (closing s = true → cl = true) →
  Inv (set_close s fin wc pc cl d, v).
Proof.
  intros [Hw Hr] Hc. split; cbn [fst snd] in *; [by destruct Hw|].
  destruct Hr as [H1 H2 H3 H4 (dr & Hd & Hcl)]. split; [done|done|done|done|]. exists dr. naive_solver.
Qed.

(** ** Reading *)

Definition Reading (st : State) : Prop :=
  Live st ∧ data_ready (fst st) = false ∧ closing (fst st) = false.

Lemma reading_live st : Reading st → Live st.
Proof. by intros []. Qed.
Lemma reading_inv st : Reading st → Inv st.
Proof. by intros [[]]. Qed.
Hint Resolve reading_live reading_inv : core.

Lemma try_reply_spec : triple Reading try_reply (λ _, Reading) Inv.
Proof.
  intros st [HL [Hd Hc]]. unfold try_reply. destruct (reply_pending (fst st)); [|done].
  pose proof (drain_spec st HL) as HD. destruct (drain st) as [[s v] [|[u|e]]]; simpl in HD; [| |done].
  - destruct HD as [HL' (Hk1 & Hk2 & _)]. split; [done|]. by rewrite Hk1, Hk2.
  - destruct HD as [[[[Hw Hr] Hi] Ho] [Hh (Hk1 & Hk2 & _)]]. cbn [fst snd] in *.
    split; [|by cbn; rewrite Hk1, Hk2]. split; [|done]. split; cbn [fst snd].
    + by eapply write_frame; [..|exact Hw].
    + by eapply read_frame_inv; [..|exact Hr].
Qed.

(** The transport delivered [bytes] from state [v] to state [v']. *)
Definition received (bytes : str) (v v' : Env) : Prop :=
  let t := trace v in
  trace v' = mkTrace (wire t) (consumed t ++ bytes) (queued t) (accepted t) (output t) (fault t) ∧
  script_bytes (reads v) = bytes ++ script_bytes (reads v').

Lemma poll_read_spec n s v :
  match poll_transport_read n (s, v) with
  | (st', Ready (Ok bytes)) => ∃ v', st' = (s, v') ∧ trace v' = trace v ∧ (length bytes ≤ n)%nat ∧
      script_bytes (reads v) = bytes ++ script_bytes (reads v')
  | (st', _) => ∃ v', st' = (s, v') ∧ trace v' = trace v ∧ script_bytes (reads v') = script_bytes (reads v)
  end.
Proof.
  unfold poll_transport_read. destruct (reads v) as [|[|bytes| |e] rs] eqn:Er; cbn beta iota zeta.
  - exists v. by rewrite Er.
  - by eexists.
  - eexists. split_and!; [done|done|rewrite length_take; lia|]. cbn [reads]. unfold script_bytes. rewrite fmap_cons, mjoin_cons.
    destruct (bool_decide _) eqn:E; destruct_bool.
    + rewrite <- (take_drop n bytes) at 1. by rewrite E, app_nil_r.
    + rewrite fmap_cons, mjoin_cons, app_assoc, take_drop. done.
  - eexists. split_and!; [done|done|simpl; lia|done].
  - by eexists.
Qed.

(** Consuming part of the script without using it: only while the stream is being closed. *)
Lemma script_frame s v v' : read_inv s v → trace v' = trace v → script_bytes (reads v') = script_bytes (reads v) →
  read_inv s v'.
Proof. intros [H1 H2 H3 H4 H5] Et Es. split; rewrite ?Et, ?Es; done. Qed.

Lemma read_some_spec n st : Live st →
  match read_some n st with
  | (st', Ready (Ok bytes)) => ∃ v', st' = (fst st, v') ∧ received bytes (snd st) v' ∧ bytes ≠ [] ∧ (length bytes ≤ n)%nat
  | (st', _) => Inv st'
  end.
Proof.
  destruct st as [s v]. intros HL. cut (triple (λ st, Live st ∧ st = (s, v)) (read_some n)
    (λ bytes st', ∃ v', st' = (s, v') ∧ received bytes v v' ∧ bytes ≠ [] ∧ (length bytes ≤ n)%nat) Inv).
  { intros HT. specialize (HT (s, v) (conj HL eq_refl)). by destruct (read_some n (s, v)) as [? [|[|]]]. }
  unfold read_some. apply triple_unwrap; [naive_solver|].
  intros st [[[Hw Hr] Hi] ->]. cbn [fst snd] in *. unfold bind, or_fail. pose proof (poll_read_spec n s v) as Hp.
  assert (∀ v', trace v' = trace v → script_bytes (reads v') = script_bytes (reads v) → Inv (s, v')) as Hv.
  { intros v' Et Es. split; cbn [fst snd]; [by rewrite Et|]. by eapply script_frame. }
  destruct (poll_transport_read n (s, v)) as [st' [|[bytes|e]]]; destruct Hp as (v' & -> & Et & Hs).
  - by apply Hv.
  - destruct Hs as [Hl Hs]. destruct (bool_decide (bytes = [])) eqn:E; destruct_bool.
    + subst bytes. apply (inv_finish s v' UnexpectedEof), Hv; [done|]. by rewrite Hs.
    + cbn. eexists. split; [done|]. split; [|done]. split; cbn; [by rewrite Et|done].
  - apply (inv_finish s v' e), Hv; done.
Qed.

(** The invariant after [bytes] more of the next frame have been read. *)
Lemma read_advance s v s' v' bytes :
  Reading (s, v) → received bytes v v' → data_ready s' = false →
  (inner s' = true → closing s' = false) →
  (Forall is_byte bytes → inner s' = true → (length (header s') ≤ 7)%nat ∧ Forall is_byte (header s')) →
  (inner s' = true → length (header s') = 7%nat →
    body_size s' = Z.to_nat (header_len (header s')) ∧ (length (body s') ≤ body_size s')%nat ∧ delivered s' = 0%nat) →
  (inner s' = true → partial s' = partial s ++ bytes) → read_inv s' v'.
Proof.
  intros [[[_ Hr] Hi] [Hd Hc]] [Et Es] Hd' Hc' Hh Hb Hp. cbn [fst snd] in *.
  destruct Hr as [H1 H2 H3 (fs & rest & Hfs & Hcon & Hout & Hrest) (dr & Hin & Hdr)].
  assert (dr = []) as ->. { destruct dr; [done|]. specialize (Hdr ltac:(done) Hi). congruence. }
  split; try done.
  - intros Hi'. apply Hh; [|done]. rewrite Hin, Es in incoming_bytes. cbn in incoming_bytes.
    rewrite !Forall_app in incoming_bytes. tauto.
  - intros Hr. congruence.
  - exists fs, (rest ++ bytes). rewrite Et. cbn. split_and!; [done|by rewrite Hcon, app_assoc| |].
    + rewrite <- Hout. unfold undelivered. by rewrite Hd, Hd'.
    + intros Hi'. by rewrite (Hrest Hi), Hp.
  - exists []. rewrite Et. cbn. split; [|done]. rewrite Hin, Es. cbn. by rewrite app_assoc.
Qed.

Lemma write_received s v s' v' bytes : Reading (s, v) → received bytes v v' →
  padding s' = padding s → inner s' = inner s → outgoing s' = outgoing s → written s' = written s → hearts s' = hearts s →
  write_inv s' (trace v').
Proof. intros [[[Hw _] _] _] [Et _] ? ? ? ? ?. eapply write_frame; [..|exact Hw]; try done; by rewrite Et. Qed.

Definition HeaderRead (st : State) : Prop := Reading st ∧ length (header (fst st)) = 7%nat.

Lemma read_header_spec fuel : triple Reading (read_header fuel) (λ _, HeaderRead) Inv.
Proof.
  induction fuel as [|fuel IH]; intros [s v] HR; unfold read_header; fold read_header; unfold bind at 1, get_stream at 1; cbn [fst].
  - destruct (7 <=? length (header s))%nat eqn:E; [|by apply reading_inv].
    apply Nat.leb_le in E. split; [done|]. destruct HR as [[[_ Hr] Hi] _]. pose proof (ri_header _ _ Hr Hi). simpl in *. lia.
  - destruct (7 <=? length (header s))%nat eqn:E.
    { apply Nat.leb_le in E. split; [done|]. destruct HR as [[[_ Hr] Hi] _]. pose proof (ri_header _ _ Hr Hi). simpl in *. lia. }
    apply Nat.leb_gt in E. unfold bind at 1.
    pose proof (read_some_spec (7 - length (header s)) (s, v) (reading_live _ HR)) as Hs.
    destruct (read_some _ (s, v)) as [st' [|[bytes|e]]]; [done| |done]. destruct Hs as (v' & -> & Hrec & Hne & Hl). cbn [fst snd] in *.
    unfold bind, put_stream, get_stream. cbn [fst header set_input].
    pose proof HR as [[[Hw Hr] Hi] [Hd Hc]]. cbn [fst snd] in *. destruct (ri_header _ _ Hr Hi) as [Hhl Hhb].
    assert (partial s = header s) as Hpart.
    { unfold partial. destruct (length (header s) =? 7)%nat eqn:E7; [apply Nat.eqb_eq in E7; lia|by rewrite app_nil_r]. }
    destruct (length (header s ++ bytes) =? 7)%nat eqn:E7.
    + destruct (negb (validate_header _)).
      * split; cbn [fst snd]; [|by apply (read_advance s v _ v' bytes)].
        apply write_finish. by apply (write_received s v _ v' bytes).
      * apply IH. split; [split; [split|done]|done]; cbn [fst snd].
        -- by apply (write_received s v _ v' bytes).
        -- apply (read_advance s v _ v' bytes); try done; cbn [inner header set_input body_size body].
           ++ intros Hb _. apply Nat.eqb_eq in E7. split; [lia|]. by apply Forall_app.
           ++ intros _ _. split_and!; [done|apply Nat.le_0_l|done].
           ++ intros _. rewrite Hpart. unfold partial. cbn [inner header set_input body_size body]. rewrite E7. by rewrite app_nil_r.
    + apply IH. split; [split; [split|done]|done]; cbn [fst snd].
      * by apply (write_received s v _ v' bytes).
      * apply (read_advance s v _ v' bytes); try done; cbn [inner header set_input body_size body].
        -- intros Hb _. rewrite length_app. split; [lia|]. by apply Forall_app.
        -- intros _ E'. apply Nat.eqb_neq in E7. lia.
        -- intros _. rewrite Hpart. unfold partial. cbn [inner header set_input body_size body]. rewrite E7. by rewrite app_nil_r.
Qed.

Definition FrameRead (st : State) : Prop := HeaderRead st ∧ length (body (fst st)) = body_size (fst st).

Lemma read_body_spec fuel : triple HeaderRead (read_body fuel) (λ _, FrameRead) Inv.
Proof.
  induction fuel as [|fuel IH]; intros [s v] HR; unfold read_body; fold read_body; unfold bind at 1, get_stream at 1; cbn [fst];
    pose proof HR as [[[[Hw Hr] Hi] [Hd Hc]] H7]; cbn [fst snd] in *; destruct (ri_body _ _ Hr Hi H7) as (Hbs & Hbl & Hbd);
    destruct (body_size s <=? length (body s))%nat eqn:E.
  - apply Nat.leb_le in E. split; [done|]. simpl. lia.
  - by split.
  - apply Nat.leb_le in E. split; [done|]. simpl. lia.
  - apply Nat.leb_gt in E. unfold bind at 1. destruct HR as [HR _].
    pose proof (read_some_spec (body_size s - length (body s)) (s, v) (reading_live _ HR)) as Hs.
    destruct (read_some _ (s, v)) as [st' [|[bytes|e]]]; [done| |done]. destruct Hs as (v' & -> & Hrec & Hne & Hl). cbn [fst snd] in *.
    unfold bind, put_stream. apply IH. split; [|done]. split; [split; [split|done]|done]; cbn [fst snd].
    + by apply (write_received s v _ v' bytes).
    + apply (read_advance s v _ v' bytes); try done; cbn [inner header set_input body_size body].
      * intros _ _. by apply Hr.
      * intros _ _. rewrite length_app. split_and!; [done|lia|done].
      * intros _. unfold partial. cbn [header set_input body]. apply Nat.eqb_eq in H7. by rewrite H7, app_assoc.
Qed.

Lemma be16_from_be a b : is_byte a → is_byte b → be16 (from_be [a; b]) = [a; b].
Proof.
  unfold is_byte, be16, from_be. cbn [foldl]. intros Ha Hb. f_equal; [|f_equal]; Z.div_mod_to_equations; lia.
Qed.

Lemma be32_from_be a b c d : is_byte a → is_byte b → is_byte c → is_byte d →
  be32 (from_be [a; b; c; d]) = [a; b; c; d] ∧ 0 ≤ from_be [a; b; c; d] ≤ u32_max.
Proof.
  unfold is_byte, be32, from_be, u32_max. cbn [foldl]. intros Ha Hb Hc Hd. split; [|lia].
  do 3 (f_equal; [Z.div_mod_to_equations; lia|]). f_equal. Z.div_mod_to_equations; lia.
Qed.

(** A complete header and body are the encoding of the frame they announce. *)
Lemma header_frame h b : length h = 7%nat → Forall is_byte h → length b = Z.to_nat (header_len h) →
  let f := mkFrame (header_cmd h) (header_id h) b in frame_bytes f = h ++ b ∧ frame_wf f.
Proof.
  intros Hl Hb Hlen. destruct h as [|c [|i1 [|i2 [|i3 [|i4 [|l1 [|l2 [|? ?]]]]]]]]; try done.
  rewrite !Forall_cons in Hb. destruct Hb as (Hc & H1 & H2 & H3 & H4 & H5 & H6 & _).
  change (header_len _) with (from_be [l1; l2]) in Hlen. cbn zeta.
  change (header_id _) with (from_be [i1; i2; i3; i4]). change (header_cmd _) with c.
  destruct (be32_from_be i1 i2 i3 i4) as [E32 Hid]; [done..|]. pose proof (be16_from_be l1 l2 H5 H6) as E16.
  assert (0 ≤ from_be [l1; l2] ≤ u16_max) as Hn by (unfold is_byte, from_be, u16_max in *; simpl; lia).
  unfold frame_bytes, frame, frame_wf. cbn [f_cmd f_id f_body].
  assert (len b = from_be [l1; l2]) as -> by (unfold len; lia).
  rewrite Z.mod_small by (unfold u16_max in Hn; lia).
  rewrite E32, E16. split; [done|]. split_and!; [unfold is_byte in Hc; lia..|by apply Hn].
Qed.

(** The reader's state after the frame took effect and the header was reset. *)
Definition reset (s : Stream) : Stream := set_input s [] (body_size s) (body s) (delivered s) (data_ready s).

Definition Done (st : State) : Prop := Inv (reset (fst st), snd st).

Lemma frame_done s v s' :
  FrameRead (s, v) → header s' = header s → body s' = body s → delivered s' = delivered s →
  data_ready s' = (if header_cmd (header s) =? 2 then negb (bool_decide (body s = [])) else false) →
  (inner s' = true → closing s' = false) → read_inv (reset s') v.
Proof.
  intros [[[[[_ Hr] Hi] [Hd Hc]] H7] Hb] Eh Eb Ed Er Hcl. cbn [fst snd] in *.
  destruct (ri_header _ _ Hr Hi) as [_ Hby]. destruct (ri_body _ _ Hr Hi H7) as (Hbs & _ & Hdel).
  destruct (header_frame (header s) (body s) H7 Hby ltac:(lia)) as [Hfb Hfw].
  destruct Hr as [_ _ _ (fs & rest & Hfs & Hcon & Hout & Hrest) (dr & Hin & Hdr)].
  split; cbn [reset set_input header body_size body delivered data_ready inner].
  - intros _. by split; [simpl; lia|].
  - done.
  - intros _. split; [done|]. rewrite Ed, Hdel. lia.
  - exists (fs ++ [mkFrame (header_cmd (header s)) (header_id (header s)) (body s)]), []. split_and!.
    + apply Forall_app. by split; [|apply Forall_singleton].
    + rewrite Hcon, (Hrest Hi), fmap_app, join_app, app_nil_r. f_equal.
      change (frame_bytes <$> [_]) with [frame_bytes (mkFrame (header_cmd (header s)) (header_id (header s)) (body s))].
      rewrite mjoin_cons, Hfb. unfold partial. apply Nat.eqb_eq in H7. rewrite H7. by rewrite app_nil_r.
    + unfold undelivered in *. rewrite Hd, app_nil_r in Hout. rewrite payload_app, Hout. f_equal.
      cbn [reset set_input header body_size body delivered data_ready]. rewrite Er, Ed, Hdel, Eb.
      unfold payload. cbn. destruct (_ =? 2); [|done]. rewrite app_nil_r.
      destruct (bool_decide _) eqn:E; destruct_bool; [done|by rewrite drop_0].
    + done.
  - exists dr. split; [done|]. intros Hne Hi'. exfalso. specialize (Hdr Hne Hi). congruence.
Qed.

Lemma control_spec digest : triple FrameRead (control digest) (λ _, Done) Inv.
Proof.
  unfold control. apply triple_get. intros s0 [s v] [HF Hs]. cbn in Hs. subst s0.
  pose proof HF as [[HR H7] Hb]. pose proof HR as [[HI Hi] [Hd Hc]]. pose proof HI as [Hw Hr]. cbn [fst snd] in *.
  assert (∀ s', header s' = header s → body s' = body s → delivered s' = delivered s →
    data_ready s' = (if header_cmd (header s) =? 2 then negb (bool_decide (body s = [])) else false) →
    (inner s' = true → closing s' = false) → write_inv s' (trace v) → Done (s', v)) as Hdone.
  { intros s' ? ? ? ? ? Hw'. split; cbn [fst snd]; [by eapply write_frame; [..|exact Hw']|]. by eapply frame_done. }
  assert (∀ sh a b, write_inv (set_proto s sh a b) (trace v)) as Hproto.
  { intros. by eapply write_frame; [..|exact Hw]. }
  destruct (header_cmd (header s) =? 2) eqn:E2; destruct_bool.
  { rewrite E2. cbn. apply Hdone; try done. by eapply write_frame; [..|exact Hw]. }
  destruct (_ || _); [by apply Hdone|].
  destruct (_ =? 3). { apply Hdone; try done. by apply write_finish. }
  destruct (_ =? 5); [done|].
  destruct (_ =? 6). { destruct (padding_parse _ _); [|done]. by apply Hdone. }
  destruct (_ =? 7).
  { cbn. destruct (bool_decide _); [by apply Hdone|]. split; cbn [fst snd]; [apply Hproto|].
    by eapply read_frame_inv; [..|exact Hr]. }
  destruct (_ =? 8).
  { destruct (len (hearts s) =? _) eqn:Eh; [done|]. apply Hdone; try done. destruct Hw as [? ? ? ? ? ? ? [? ?] ?].
    destruct_bool. split; try done; cbn; [|by rewrite len_app; split; [|change (len [_]) with 1; lia]].
    apply Forall_app. split; [done|]. apply Forall_singleton.
    by apply (header_frame (header s) (body s)); [done|apply Hr|destruct (ri_body _ _ Hr Hi H7) as (? & _); lia]. }
  destruct (_ =? 10); [|done].
  destruct (fields (body s)); [|done]. destruct (bget _ _); [|done]. destruct (number _); [|done].
  destruct (_ || _); [done|]. by apply Hdone.
Qed.

Lemma receive_loop_spec digest rounds cap : triple Inv (receive_loop digest rounds cap) (λ _, Inv) Inv.
Proof.
  induction rounds as [|rounds IH]; [by intros st|]. cbn [receive_loop]. apply triple_get. intros s.
  destruct (data_ready s) eqn:Hd.
  - intros [s' v] [[Hw Hr] Hs]. cbn in Hs. subst s'. cbn [fst snd] in *. cbn. split; cbn [fst snd].
    + by eapply write_frame; [..|exact Hw].
    + destruct (ri_ready _ _ Hr Hd) as [Hh Hdel].
      destruct Hr as [H1 H2 H3 (fs & rest & Hfs & Hcon & Hout & Hrest) H5].
      set (n := (cap `min` _)%nat). assert (n ≤ length (body s) - delivered s)%nat as Hn by lia.
      split; cbn [header body_size body delivered data_ready inner trace log output consumed set_input]; try done.
      * intros _ H'. rewrite Hh in H'. done.
      * intros _. split; [done|lia].
      * exists fs, rest. split_and!; [done|done| |done]. rewrite <- Hout, <- app_assoc. f_equal.
        unfold undelivered. cbn [data_ready set_input body delivered]. rewrite Hd.
        rewrite <- (take_drop n (drop (delivered s) (body s))) at 2. f_equal. rewrite drop_drop.
        destruct (_ =? _)%nat eqn:E; cbn [negb]; [|done]. apply Nat.eqb_eq in E. rewrite drop_ge; [done|lia].
  - destruct (inner s) eqn:Hi; cbn [negb]; [|apply triple_ret; naive_solver].
    destruct (closing s) eqn:Hc; [by intros st [? _]|].
    eapply triple_bind.
    { eapply triple_weaken; [..|exact try_reply_spec]; [|done|done]. intros st [? Hs].
      split; [split; [done|by rewrite Hs]|by rewrite Hs]. }
    intros []. eapply triple_bind; [apply read_header_spec|]. intros []. apply triple_get. intros s1.
    eapply triple_bind. { eapply triple_weaken; [..|apply read_body_spec]; [by intros ? [? _]|done|done]. }
    intros []. eapply triple_bind; [apply triple_or_fail, control_spec|].
    intros []. eapply (triple_bind _ _ (λ _, Inv)); [|by intros []].
    apply triple_put. intros s2 v HD. exact HD.
Qed.

Lemma stream_read_inv digest cap : triple Inv (stream_read digest cap) (λ _, Inv) Inv.
Proof.
  unfold stream_read, receive. destruct (cap =? 0)%nat; [by apply triple_ret|].
  apply triple_check; [done|]. apply receive_loop_spec.
Qed.

(** ** Closing *)

(** Bytes of the peer are dropped only while the stream is being closed. *)
Lemma drop_bytes s v v' bytes : Inv (s, v) → closing s = true → trace v' = trace v →
  script_bytes (reads v) = bytes ++ script_bytes (reads v') → Inv (s, v').
Proof.
  intros [Hw Hr] Hc Et Es. split; cbn [fst snd] in *; [by rewrite Et|].
  destruct Hr as [H1 H2 H3 H4 (dr & Hin & Hdr)]. split; rewrite ?Et; try done.
  exists (dr ++ bytes). split; [|done]. by rewrite Hin, Es, <- app_assoc.
Qed.

Definition Closing (st : State) : Prop := Live st ∧ closing (fst st) = true.
Definition ClosingDrained (st : State) : Prop := Drained st ∧ closing (fst st) = true.

Lemma closing_inv st : Closing st → Inv st.
Proof. by intros [[]]. Qed.
Hint Resolve closing_inv : core.

Lemma drain_closing : triple Closing drain (λ _, ClosingDrained) Closing.
Proof.
  intros st [HL Hc]. pose proof (drain_spec st HL) as H. destruct (drain st) as [st' [|[u|e]]]; simpl in H; [| |done].
  - destruct H as [? (_ & Hk & _)]. split; [done|by rewrite Hk].
  - destruct H as (? & _ & (_ & Hk & _)). split; [done|by rewrite Hk].
Qed.

Lemma queue_fin : triple ClosingDrained (or_fail (queue 3 1 [])) (λ _, Closing) Closing.
Proof.
  apply triple_or_fail. intros st [HD Hc]. pose proof (queue_spec 3 1 [] (empty_frame_wf 3 1 ltac:(lia) ltac:(unfold u32_max; lia)) st HD) as Hq.
  pose proof (queue_keeps 3 1 [] st) as Hk. destruct (queue 3 1 [] st) as [st' [|[u|e]]]; [done| |done].
  destruct Hk as [(_ & Hk & _) _]. split; [done|by rewrite Hk].
Qed.

Lemma shutdown_write_inv : triple Closing shutdown_write (λ _, Closing) Closing.
Proof.
  unfold shutdown_write. eapply triple_bind; [exact drain_closing|]. intros []. apply triple_get. intros s.
  eapply (triple_bind _ _ (λ _, Closing)).
  { destruct (fin_queued s); [apply triple_ret; intros st [[[? _] ?] _]; by split|].
    eapply (triple_bind _ _ (λ _, ClosingDrained)); [|intros []; exact queue_fin].
    apply triple_put. intros s' v [[[[HI Hi] Ho] Hc] _]. split; [|done]. split; [split; [|done]|done]. by apply set_close_inv. }
  intros []. eapply triple_bind; [exact drain_closing|]. intros []. apply triple_unwrap; [by intros ? [[? _] _]|].
  eapply (triple_bind _ _ (λ _, Closing)).
  - apply triple_or_fail. intros [s' v] [[[[Hw Hr] Hi] Ho] Hc]. unfold poll_transport_shutdown. cbn [fst snd] in *.
    assert (∀ v', reads v' = reads v → trace v' = trace v → Closing (s', v')) as Hv.
    { intros v' Er Et. split; [|done]. split; [|done]. split; cbn [fst snd]; [by rewrite Et|].
      by eapply read_frame_inv; [..|exact Hr]; rewrite ?Et. }
    destruct (shutdowns v) as [|[| |e] sh]; cbn; try (by apply Hv); by apply closing_inv, Hv.
  - intros []. apply triple_put. intros s' v [[HI Hi] Hc]. split; [|done]. split; [|done]. by apply set_close_inv.
Qed.

Lemma drain_peer_spec rounds : triple Closing (drain_peer rounds) (λ _, Closing) Inv.
Proof.
  induction rounds as [|rounds IH]; [by apply triple_ret|]. cbn [drain_peer]. apply triple_get. intros s.
  destruct (peer_closed s); [apply triple_ret; naive_solver|]. apply triple_unwrap; [by intros ? [[? _] _]|].
  intros [s' v] [[[HI Hi] Hc] Hs]. cbn in Hs. subst s'. cbn [fst snd] in *.
  assert (∀ v' bytes f p d, trace v' = trace v → script_bytes (reads v) = bytes ++ script_bytes (reads v') →
    Closing (set_close s f (write_closed s) p (closing s) d, v')) as Hclose.
  { intros. split; [|done]. split; [|done]. apply set_close_inv; [|done]. by eapply drop_bytes. }
  set (n := Z.to_nat _). pose proof (poll_read_spec n s v) as Hp.
  destruct (poll_transport_read n (s, v)) as [st' [|[bytes|e]]]; destruct Hp as (v' & -> & Et & Hs).
  - by apply (drop_bytes s v v' []).
  - destruct Hs as [_ Hs]. destruct bytes as [|b bytes]; [by apply IH, (Hclose v' [])|].
    unfold bind, put_stream, get_stream. cbn [fst]. destruct (MAX_CLOSE_DRAIN <? _); [|by apply IH, (Hclose v' (b :: bytes))].
    refine (proj1 (inv_finish _ _ _ _)). by destruct (Hclose v' (b :: bytes) (fin_queued s) (peer_closed s) (close_drained s + len (b :: bytes)) Et Hs) as [[? _] _].
  - destruct e; try (refine (proj1 (inv_finish _ _ _ _)); by apply (drop_bytes s v v' [])). by apply IH, (Hclose v' []).
Qed.

Lemma try_shutdown_write_spec : triple Closing try_shutdown_write (λ _, Closing) Inv.
Proof.
  intros st HC. unfold try_shutdown_write. destruct (write_closed (fst st)); [done|].
  pose proof (shutdown_write_inv st HC) as H. by destruct (shutdown_write st) as [st' [|[[]|e]]].
Qed.

Lemma stream_shutdown_inv : triple Inv stream_shutdown (λ _, Inv) Inv.
Proof.
  unfold stream_shutdown. apply triple_check; [done|]. apply triple_get. intros s.
  destruct (inner s) eqn:Hi; cbn [negb]; [|apply triple_ret; naive_solver].
  eapply (triple_bind _ _ (λ _, Closing)).
  { apply triple_put. intros s' v [HI Hs]. cbn in Hs. subst s'. split; [|done]. split; [|done]. by apply set_close_inv. }
  intros []. eapply (triple_bind _ _ (λ _, Closing)).
  { intros [s' v] [[[Hw Hr] Hi'] Hc]. unfold poll_timer. destruct (timer v) as [|b ts]; [by split|].
    split; [|done]. split; [|done]. split; cbn [fst snd trace]; [done|]. by eapply read_frame_inv; [..|exact Hr]. }
  intros [].
  { apply triple_fail. exact closing_inv. }
  eapply triple_bind; [exact try_shutdown_write_spec|]. intros []. eapply triple_bind; [apply drain_peer_spec|].
  intros []. apply triple_get. intros s1. destruct (peer_closed s1 && write_closed s1).
  - apply triple_put. intros s' v [HC _]. exact (proj2 (inv_finish s' v OtherError (closing_inv _ HC))).
  - intros st [HC _]. by apply closing_inv.
Qed.

End Invariants.

(** ** What an operation accepts and delivers *)

Definition logs (st st' : State) (a o : str) : Prop :=
  accepted (trace (snd st')) = accepted (trace (snd st)) ++ a ∧ output (trace (snd st')) = output (trace (snd st)) ++ o.

(** An operation that neither accepts data from the writer nor delivers data. *)
Definition quiet {A} (m : M A) : Prop := ∀ st, logs st (fst (m st)) [] [].

Lemma logs_refl st : logs st st [] [].
Proof. split; by rewrite app_nil_r. Qed.

Lemma logs_trans st1 st2 st3 a b o p : logs st1 st2 a o → logs st2 st3 b p → logs st1 st3 (a ++ b) (o ++ p).
Proof. intros [H1 H2] [H3 H4]. split; [rewrite H3, H1|rewrite H4, H2]; by rewrite app_assoc. Qed.

Lemma quiet_bind {A B} (m : M A) (k : A → M B) : quiet m → (∀ a, quiet (k a)) → quiet (bind m k).
Proof.
  intros Hm Hk st. specialize (Hm st). unfold bind. destruct (m st) as [st' [|[a|e]]]; [done| |done].
  exact (logs_trans _ _ _ [] [] [] [] Hm (Hk a st')).
Qed.

Lemma quiet_or_fail {A} (m : M A) : quiet m → quiet (or_fail m).
Proof. intros Hm st. specialize (Hm st). unfold or_fail. by destruct (m st) as [[s v] [|[a|e]]]. Qed.

Lemma quiet_ret {A} (a : A) : quiet (ret a).
Proof. intros st. apply logs_refl. Qed.
Lemma quiet_err {A} e : quiet (A := A) (err e).
Proof. intros st. apply logs_refl. Qed.
Lemma quiet_pending {A} : quiet (A := A) pending.
Proof. intros st. apply logs_refl. Qed.
Lemma quiet_get : quiet get_stream.
Proof. intros st. apply logs_refl. Qed.
Lemma quiet_put f : quiet (put_stream f).
Proof. intros [s v]. apply (logs_refl (s, v)). Qed.
Lemma quiet_fail {A} e : quiet (A := A) (fail e).
Proof. intros [s v]. apply (logs_refl (s, v)). Qed.
Lemma quiet_check : quiet check_error.
Proof. intros st. unfold check_error. destruct (failure _); apply logs_refl. Qed.
Lemma quiet_need : quiet need_inner.
Proof. intros st. unfold need_inner. destruct (inner _); apply logs_refl. Qed.
Lemma quiet_unwrap : quiet unwrap_inner.
Proof. intros [s v]. split; cbn; by rewrite app_nil_r. Qed.
Lemma quiet_poll_write data : quiet (poll_write data).
Proof. intros [s v]. unfold poll_write. destruct (writes v) as [|[]]; split; cbn; by rewrite app_nil_r. Qed.
Lemma quiet_poll_flush : quiet poll_transport_flush.
Proof. intros [s v]. unfold poll_transport_flush. destruct (flushes v); split; cbn; by rewrite app_nil_r. Qed.
Lemma quiet_poll_shutdown : quiet poll_transport_shutdown.
Proof. intros [s v]. unfold poll_transport_shutdown. destruct (shutdowns v); split; cbn; by rewrite app_nil_r. Qed.
Lemma quiet_poll_read n : quiet (poll_transport_read n).
Proof. intros [s v]. unfold poll_transport_read. destruct (reads v) as [|[]]; split; cbn; by rewrite app_nil_r. Qed.
Lemma quiet_poll_timer : quiet poll_timer.
Proof. intros [s v]. unfold poll_timer. destruct (timer v); split; cbn; by rewrite app_nil_r. Qed.
Lemma quiet_consumed b : quiet (log_consumed b).
Proof. intros [s v]. split; cbn; by rewrite app_nil_r. Qed.
Lemma quiet_queue cmd id : cmd ≠ 2 → quiet (queue cmd id []).
Proof.
  intros Hc [s v]. unfold queue. destruct (packets _ _ _ _) as [[]|]; [|apply (logs_refl (s, v))].
  split; cbn; rewrite ?app_nil_r; [|done]. by destruct (cmd =? 2); rewrite app_nil_r.
Qed.

Create HintDb quiet.
#[local] Hint Constants Opaque : quiet.
#[local] Hint Resolve quiet_ret quiet_err quiet_pending quiet_get quiet_put quiet_fail quiet_check
  quiet_need quiet_unwrap quiet_poll_write quiet_poll_flush quiet_poll_shutdown quiet_poll_read quiet_poll_timer
  quiet_consumed : quiet.

(** Follows the structure of an operation: binds, conditionals and matches. *)
Ltac quiet_solve :=
  repeat lazymatch goal with
    | |- forall _, _ => intros ?
    | |- quiet (bind _ _) => apply quiet_bind
    | |- quiet (or_fail _) => apply quiet_or_fail
    | |- quiet (if ?b then _ else _) => destruct b
    | |- quiet (match ?x with _ => _ end) => destruct x
    | |- _ => solve [eauto 2 with quiet]
    end.

Lemma quiet_write_front packet : quiet (write_front packet).
Proof. unfold write_front. quiet_solve. Qed.

Lemma quiet_drain : quiet drain.
Proof.
  intros st. unfold drain. generalize (drain_fuel st). intros fuel.
  cut (∀ r, drain_loop fuel st = Some r → logs st (fst r) [] []).
  { intros H. destruct (drain_loop fuel st); simpl; [by apply H|apply logs_refl]. }
  revert st. induction fuel as [|fuel IH]; intros st r; [done|]. cbn [drain_loop].
  assert (∀ (m : M unit) r', quiet m →
    match m st with (st, Ready (Ok _)) => drain_loop fuel st | r => Some r end = Some r' → logs st (fst r') [] []) as Hstep.
  { intros m r' Hm Hr. specialize (Hm st). destruct (m st) as [st' [|[[]|e]]]; [by injection Hr as <-| |by injection Hr as <-].
    exact (logs_trans _ _ _ [] [] [] [] Hm (IH _ _ Hr)). }
  destruct (outgoing (fst st)); [destruct (hearts (fst st))|].
  - intros [= <-]. assert (quiet (bind need_inner (λ _, or_fail poll_transport_flush))) as Hq by quiet_solve. apply Hq.
  - apply Hstep. apply quiet_bind; [apply quiet_put|]. intros []. by apply quiet_queue.
  - apply Hstep, quiet_write_front.
Qed.
#[local] Hint Resolve quiet_drain quiet_queue : quiet.

Lemma quiet_flush : quiet stream_flush.
Proof. unfold stream_flush. quiet_solve. Qed.

Lemma quiet_shutdown_write : quiet shutdown_write.
Proof. unfold shutdown_write. quiet_solve. Qed.

Lemma quiet_drain_peer rounds : quiet (drain_peer rounds).
Proof.
  induction rounds as [|rounds IH]; [apply quiet_ret|]. cbn [drain_peer]. apply quiet_bind; [apply quiet_get|]. intros s.
  destruct (peer_closed s); [apply quiet_ret|]. apply quiet_bind; [apply quiet_unwrap|]. intros [].
  set (n := Z.to_nat _). intros st. pose proof (quiet_poll_read n st) as Hp.
  assert (∀ st' (m : M unit), logs st st' [] [] → quiet m → logs st (fst (m st')) [] []) as Hk.
  { intros st' m Hl Hm. exact (logs_trans _ _ _ [] [] [] [] Hl (Hm st')). }
  assert (quiet (bind (put_stream (λ s, set_close s (fin_queued s) (write_closed s) true (closing s) (close_drained s)))
    (λ _, drain_peer rounds))) as Hpeer by (by apply quiet_bind; [apply quiet_put|intros []]).
  destruct (poll_transport_read n st) as [st' [|[[|b bytes]|e]]]; cbn [fst] in Hp; [done|by apply Hk| |].
  - apply Hk; [done|]. apply quiet_bind; [apply quiet_put|]. intros []. apply quiet_bind; [apply quiet_get|]. intros s'.
    destruct (MAX_CLOSE_DRAIN <? _); [apply quiet_fail|done].
  - destruct e; by apply Hk; [|first [done|apply quiet_fail]].
Qed.

#[local] Hint Resolve quiet_drain_peer : quiet.

Lemma quiet_shutdown : quiet stream_shutdown.
Proof.
  assert (quiet try_shutdown_write) as Ht; [|unfold stream_shutdown; quiet_solve].
  intros st. unfold try_shutdown_write. destruct (write_closed _); [apply logs_refl|].
  pose proof (quiet_shutdown_write st) as H. by destruct (shutdown_write st) as [st' [|[|]]].
Qed.

Lemma quiet_read_some n : quiet (read_some n).
Proof. unfold read_some. quiet_solve. Qed.

#[local] Hint Resolve quiet_read_some : quiet.

Lemma quiet_read_header fuel : quiet (read_header fuel).
Proof. induction fuel; cbn [read_header]; quiet_solve. Qed.

Lemma quiet_read_body fuel : quiet (read_body fuel).
Proof. induction fuel; cbn [read_body]; quiet_solve. Qed.

Lemma quiet_control digest : quiet (control digest).
Proof. unfold control. quiet_solve. Qed.

Lemma quiet_try_reply : quiet try_reply.
Proof.
  intros st. unfold try_reply. destruct (reply_pending _); [|apply logs_refl].
  pose proof (quiet_drain st) as H. by destruct (drain st) as [[s v] [|[|]]].
Qed.

(** The value a ready operation returned. *)
Definition got {A} (d : A) (r : Poll (io A)) : A := match r with Ready (Ok a) => a | _ => d end.

(** A write that returns [n] accepted the first [n] bytes, any other one nothing. *)
Lemma stream_write_logs data st :
  logs st (fst (stream_write data st)) (take (got 0%nat (snd (stream_write data st))) data) [].
Proof.
  unfold stream_write, bind, check_error. destruct (failure (fst st)); [apply logs_refl|]. cbn [get_stream].
  destruct (_ || _); [apply logs_refl|]. destruct (bool_decide _); [apply logs_refl|].
  pose proof (quiet_drain st) as Hd. destruct (drain st) as [[s v] [|[u|e]]]; [done| |done]. cbn [fst] in Hd.
  unfold or_fail, queue. destruct (packets _ _ _ _) as [[ps r]|e]; [|done]. cbn.
  destruct Hd as [Ha Ho]. split; cbn in *; [|by rewrite Ho]. by rewrite Ha, app_nil_r.
Qed.

Lemma bind_get {A} (k : Stream → M A) st : bind get_stream k st = k (fst st) st.
Proof. done. Qed.

Lemma receive_loop_logs digest rounds cap st :
  logs st (fst (receive_loop digest rounds cap st)) [] (got [] (snd (receive_loop digest rounds cap st))).
Proof.
  revert st. induction rounds as [|rounds IH]; intros st; [apply logs_refl|]. cbn [receive_loop].
  rewrite bind_get. destruct (data_ready (fst st)).
  { destruct st as [s v]. split; cbn; [by rewrite app_nil_r|done]. }
  destruct (negb _); [apply logs_refl|]. destruct (closing _); [apply logs_refl|].
  assert (∀ {A} (m : M A) (k : A → M str) st, quiet m →
    (∀ a st, logs st (fst (k a st)) [] (got [] (snd (k a st)))) →
    logs st (fst (bind m k st)) [] (got [] (snd (bind m k st)))) as Hb.
  { intros A m k st0 Hm Hk. specialize (Hm st0). unfold bind. destruct (m st0) as [st' [|[a|e]]]; [done| |done].
    exact (logs_trans _ _ _ [] [] [] _ Hm (Hk a st')). }
  repeat (apply Hb; [|intros ? ?]); auto using quiet_try_reply, quiet_read_header, quiet_get, quiet_read_body,
    quiet_or_fail, quiet_control, quiet_put.
Qed.

(** A read delivers what it returns, and accepts nothing. *)
Lemma stream_read_logs digest cap st :
  logs st (fst (stream_read digest cap st)) [] (got [] (snd (stream_read digest cap st))).
Proof.
  unfold stream_read. destruct (cap =? 0)%nat; [apply logs_refl|]. unfold receive, bind, check_error.
  destruct (failure (fst st)); [apply logs_refl|apply receive_loop_logs].
Qed.

(** ** Reading loops: the fuel is enough *)

Lemma read_some_length n st st' bytes : read_some n st = (st', Ready (Ok bytes)) → bytes ≠ [] ∧ fst st' = fst st.
Proof.
  destruct st as [s v]. unfold read_some, bind, unwrap_inner, or_fail, poll_transport_read. cbn.
  destruct (reads v) as [|[|b| |e] rs]; cbn; try done.
  destruct (bool_decide _) eqn:E; [done|]. intros [= <- <-]. destruct_bool. done.
Qed.

Lemma bind_ext {A B} (m : M A) (k k' : A → M B) st :
  (∀ a st', m st = (st', Ready (Ok a)) → k a st' = k' a st') → bind m k st = bind m k' st.
Proof. intros H. unfold bind. destruct (m st) as [st' [|[a|e]]]; [done|by apply H|done]. Qed.

(** A header of 7 bytes takes at most 7 reads, so the bound of the loop is never met. *)
Lemma read_header_fuel fuel fuel' st : (7 ≤ length (header (fst st)) + fuel)%nat → (fuel ≤ fuel')%nat →
  read_header fuel' st = read_header fuel st.
Proof.
  revert fuel' st. induction fuel as [|fuel IH]; intros fuel' st Hf Hle.
  - destruct fuel'; [done|]. cbn [read_header]. rewrite !bind_get, (proj2 (Nat.leb_le 7 _)) by lia. done.
  - destruct fuel' as [|fuel']; [lia|]. cbn [read_header]. rewrite !bind_get.
    destruct (7 <=? length (header (fst st)))%nat; [done|]. apply bind_ext. intros bytes [s v] E.
    apply read_some_length in E as [Hne Hs].
    cbn [fst] in Hs. subst s. unfold bind, put_stream, get_stream. cbn [fst header set_input].
    destruct bytes as [|b bytes]; [done|].
    destruct (_ =? 7)%nat; [destruct (negb _); [done|]|]; apply IH; cbn [fst header set_input]; rewrite ?length_app; simpl; lia.
Qed.

Lemma read_body_fuel fuel fuel' st : (body_size (fst st) ≤ length (body (fst st)) + fuel)%nat → (fuel ≤ fuel')%nat →
  read_body fuel' st = read_body fuel st.
Proof.
  revert fuel' st. induction fuel as [|fuel IH]; intros fuel' st Hf Hle.
  - destruct fuel'; [done|]. cbn [read_body]. rewrite !bind_get, (proj2 (Nat.leb_le _ _)) by lia. done.
  - destruct fuel' as [|fuel']; [lia|]. cbn [read_body]. rewrite !bind_get.
    destruct (_ <=? length (body (fst st)))%nat; [done|]. apply bind_ext. intros bytes [s v] E.
    apply read_some_length in E as [Hne Hs].
    cbn [fst] in Hs. subst s. unfold bind, put_stream. destruct bytes as [|b bytes]; [done|].
    apply IH; cbn [fst body body_size set_input]; rewrite ?length_app; simpl; lia.
Qed.

(** ** Sessions *)

Inductive Op := OpRead (cap : nat) | OpWrite (data : str) | OpFlush | OpShutdown.

(** One operation: the state, the data it accepted and the data it delivered. *)
Definition perform (digest : str → str) (op : Op) (st : State) : State * str * str :=
  match op with
  | OpRead cap => let '(st', r) := stream_read digest cap st in (st', [], got [] r)
  | OpWrite data => let '(st', r) := stream_write data st in (st', take (got 0%nat r) data, [])
  | OpFlush => (fst (stream_flush st), [], [])
  | OpShutdown => (fst (stream_shutdown st), [], [])
  end.

(** Any interleaving of operations; what was written and read in all. *)
Fixpoint run (digest : str → str) (ops : list Op) (st : State) : State * str * str :=
  match ops with
  | [] => (st, [], [])
  | op :: ops =>
      let '(st1, w, r) := perform digest op st in
      let '(st2, ws, rs) := run digest ops st1 in
      (st2, w ++ ws, r ++ rs)
  end.

Lemma triple_ends {A} auth inc (m : M A) st :
  triple auth inc (Inv auth inc) m (λ _, Inv auth inc) (Inv auth inc) → Inv auth inc st → Inv auth inc (fst (m st)).
Proof. intros Hm HI. specialize (Hm st HI). by destruct (m st) as [st' [|[a|e]]]. Qed.

Lemma perform_spec digest auth inc op st st' w r :
  Forall is_byte inc → Inv auth inc st → perform digest op st = (st', w, r) → Inv auth inc st' ∧ logs st st' w r.
Proof.
  intros Hb HI. destruct op as [cap|data| |]; simpl.
  - pose proof (triple_ends _ _ _ _ (stream_read_inv auth inc Hb digest cap) HI) as H1.
    pose proof (stream_read_logs digest cap st) as H2. destruct (stream_read digest cap st). by intros [= <- <- <-].
  - pose proof (triple_ends _ _ _ _ (stream_write_inv auth inc Hb data) HI) as H1.
    pose proof (stream_write_logs data st) as H2. destruct (stream_write data st). by intros [= <- <- <-].
  - intros [= <- <- <-]. split; [|apply quiet_flush]. apply triple_ends, HI. by apply stream_flush_inv.
  - intros [= <- <- <-]. split; [|apply quiet_shutdown]. apply triple_ends, HI. by apply stream_shutdown_inv.
Qed.

Lemma run_spec digest auth inc ops st st' w r :
  Forall is_byte inc → Inv auth inc st → run digest ops st = (st', w, r) → Inv auth inc st' ∧ logs st st' w r.
Proof.
  intros Hb. revert st w r. induction ops as [|op ops IH]; intros st w r HI; simpl.
  - intros [= <- <- <-]. split; [done|apply logs_refl].
  - destruct (perform digest op st) as [[st1 w1] r1] eqn:E1. destruct (run digest ops st1) as [[st2 w2] r2] eqn:E2.
    intros [= <- <- <-]. eapply perform_spec in E1 as [HI1 Hl1]; [|done|done].
    destruct (IH _ _ _ HI1 E2) as [HI2 Hl2]. split; [done|]. by eapply logs_trans.
Qed.

Lemma await_flush_spec auth inc fuel st st' : Forall is_byte inc → Inv auth inc st → await_flush fuel st = Some (Ok st') →
  Inv auth inc st' ∧ logs st st' [] [].
Proof.
  intros Hb. revert st. induction fuel as [|fuel IH]; intros st HI; [done|]. cbn [await_flush].
  pose proof (triple_ends _ _ _ _ (stream_flush_inv auth inc Hb) HI) as HI'. pose proof (quiet_flush st) as Hl.
  destruct (stream_flush st) as [st1 [|[u|e]]]; cbn [fst] in *; [|by intros [= <-]|done].
  intros Hf. destruct (IH _ HI' Hf) as [? Hl']. split; [done|]. exact (logs_trans _ _ _ [] [] [] [] Hl Hl').
Qed.

(** A session that opened starts in the invariant, with the destination as its first data. *)
Lemma open_spec sha256 version address password p v st :
  padding_wf p → Forall frame_wf (first_frames version p address) → Forall is_byte (script_bytes (reads v)) →
  open sha256 version address password p v = Some (Ok st) →
  ∃ size, Inv (auth_record (sha256 password) size) (script_bytes (reads v)) st ∧
          accepted (trace (snd st)) = address ∧ output (trace (snd st)) = [].
Proof.
  intros Hwf Hff Hby. unfold open. destruct (auth_size p (rng v)) as [[size rng1]|]; [|done].
  set (auth := auth_record _ size). destruct (await_write auth (writes v)) as [[[sent|e] ws]|] eqn:Ew; [|done|done].
  destruct (len sent =? len auth) eqn:El; [|done]. cbn [negb].
  destruct (await_unit (flushes v)) as [[[[]|e] fs]|]; [|done|done].
  destruct (packets p 1 _ rng1) as [[ps rng2]|] eqn:Ep; [|done]. intros Hf.
  assert (sent = auth) as ->.
  { clear -Ew El. revert Ew. induction (writes v) as [|[|n|e] l IH]; simpl; [done|done| |done]. intros [= <- _].
    destruct_bool. rewrite len_take in El. apply take_ge. unfold len in El. lia. }
  pose proof (packets_nonempty _ _ _ _ _ _ Hwf Ep) as Hne. apply packets_spec in Ep as (w & Hj & [Hw _] & Hl); [|done].
  exists size. apply (await_flush_spec auth (script_bytes (reads v))) in Hf as [HI [Ha Ho]]; [|done|].
  { cbn in Ha, Ho. rewrite app_nil_r in Ha. by split. }
  split; cbn [fst snd trace].
  - split; cbn; try done.
    + by eexists.
    + intros _. destruct ps as [|q ps]; [done|]. apply Forall_cons in Hne as [? _]. destruct q; [done|simpl; lia].
    + exists (first_frames version p address ++ w). split_and!.
      * apply Forall_app. split; [done|]. by eapply Forall_impl; [exact Hw|]; intros ? [].
      * by rewrite Hj, fmap_app, join_app.
      * rewrite payload_app. assert (payload w = []) as ->; [|by cbn; rewrite !app_nil_r].
        clear -Hw. induction Hw as [|f l [[Hc _] _] _ IH]; [done|].
        change (f :: l) with ([f] ++ l). rewrite payload_app, IH. cbn. by rewrite Hc.
  - split; cbn; try done.
    + intros _. split; [lia|done].
    + exists [], []. by split_and!.
    + exists []. by split.
Qed.

(** ** Properties *)

(** C3: whatever the transport does and however reads, writes, flushes and shutdowns are
    interleaved after a successful [open], no unwritten packet is ever overwritten and no
    dropped transport is used; the bytes on the wire are a prefix of the authentication record
    followed by whole well-formed frames, and the data in those frames is exactly the
    destination followed by what the writes reported as accepted, each byte once and in order;
    at most 17 packets and 32 heartbeat replies are held. A flush that succeeds on an open
    stream leaves nothing behind. *)
Theorem session_writes_faithful sha256 digest version address password p v st0 ops st w r :
  padding_wf p → Forall frame_wf (first_frames version p address) → Forall is_byte (script_bytes (reads v)) →
  open sha256 version address password p v = Some (Ok st0) → run digest ops st0 = (st, w, r) →
  ∃ size fs, Forall frame_wf fs ∧ payload fs = address ++ w ∧
    let sent := auth_record (sha256 password) size ++ mjoin (frame_bytes <$> fs) in
    wire (trace (snd st)) `prefix_of` sent ∧ fault (trace (snd st)) = false ∧
    len (outgoing (fst st)) ≤ 17 ∧ len (hearts (fst st)) ≤ MAX_HEARTS ∧
    ∀ st', stream_flush st = (st', Ready (Ok tt)) → inner (fst st) = true → write_closed (fst st) = false →
      ∃ fs', payload fs' = payload fs ∧
        wire (trace (snd st')) = auth_record (sha256 password) size ++ mjoin (frame_bytes <$> fs').
Proof.
  intros Hwf Hff Hby Ho Hr. destruct (open_spec _ _ _ _ _ _ _ Hwf Hff Hby Ho) as (size & HI & Ha & _).
  destruct (run_spec _ _ _ _ _ _ _ _ Hby HI Hr) as [HI' [Hl _]]. destruct (wi_frames _ _ _ (proj1 HI')) as (fs & Hfs & Hq & Hp).
  exists size, fs. cbn zeta. rewrite Hp, Hl, Ha. split_and!; [done|done|rewrite <- Hq; apply HI'|apply HI'|apply HI'|apply HI'|].
  intros st' Hf Hi Hwc. pose proof (quiet_flush st) as [Hqa _]. rewrite Hf in Hqa. cbn in Hqa. rewrite app_nil_r in Hqa.
  unfold stream_flush, bind, check_error in Hf. destruct (failure (fst st)); [done|]. cbn [get_stream] in Hf. rewrite Hi, Hwc in Hf. cbn [negb] in Hf.
  pose proof (drain_spec _ _ Hby st (conj HI' Hi)) as Hd. rewrite Hf in Hd. destruct Hd as ([[[Hw _] Hi'] Hout] & _).
  destruct (wi_frames _ _ _ Hw) as (fs' & _ & Hq' & Hp'). exists fs'. split; [by rewrite Hp', Hqa, Hl, Ha|].
  rewrite <- Hq', <- (wi_live _ _ _ Hw Hi'), Hout. cbn. by rewrite drop_nil, app_nil_r.
Qed.

(** C4: whatever pieces the transport delivers bytes in and however the operations are
    interleaved, the data the reads return is, byte for byte and in order, the data of whole
    frames at the front of the incoming bytes, less at most the tail of one frame that is held
    for the next read: nothing is lost, duplicated, reordered or taken from a control frame. *)
Theorem session_reads_faithful sha256 digest version address password p v st0 ops st w r :
  padding_wf p → Forall frame_wf (first_frames version p address) → Forall is_byte (script_bytes (reads v)) →
  open sha256 version address password p v = Some (Ok st0) → run digest ops st0 = (st, w, r) →
  ∃ fs rest, Forall frame_wf fs ∧ script_bytes (reads v) = mjoin (frame_bytes <$> fs) ++ rest ∧
    payload fs = r ++ undelivered (fst st).
Proof.
  intros Hwf Hff Hby Ho Hr. destruct (open_spec _ _ _ _ _ _ _ Hwf Hff Hby Ho) as (size & HI & _ & Hout).
  destruct (run_spec _ _ _ _ _ _ _ _ Hby HI Hr) as [[_ HR] [_ Hl]]. rewrite Hout in Hl. cbn in Hl.
  destruct (ri_frames _ _ _ HR) as (fs & rest & Hfs & Hc & Hp & _). destruct (ri_script _ _ _ HR) as (dr & Hin & _).
  exists fs, (rest ++ dr ++ script_bytes (reads (snd st))). split_and!; [done| |by rewrite <- Hp, Hl].
  by rewrite Hin, Hc, <- app_assoc.
Qed.

(** A server that acknowledges version 2, asks for a heartbeat in the middle of its data and
    cuts everything at awkward places, over a transport that takes a few bytes at a time. *)
Definition demo_incoming : str :=
  frame 10 0 (lit "v=2") ++ frame 2 1 (lit "hel") ++ frame 8 7 [] ++ frame 2 1 (lit "lo") ++ frame 0 0 (zeros 3).

Definition demo_env : Env :=
  mkEnv ([WAccept 100; WAccept 20] ++ replicate 10 (WAccept 9) ++ [WPending] ++ replicate 12 (WAccept 4))
    (replicate 9 UReady) [] [RData (take 9 demo_incoming); RPending; RData (take 11 (drop 9 demo_incoming)); RData (drop 20 demo_incoming)]
    [] [23] (mkTrace [] [] [] [] [] false).

Definition demo_open : option (io State) :=
  open (λ _, replicate 32 1) (lit "1.0") [1; 9; 9; 9; 9; 0; 80] (lit "secret") demo_padding demo_env.

Definition demo_stream : State := match demo_open with Some (Ok st) => st | _ => (fresh_stream demo_padding [], demo_env) end.

Definition demo_ops : list Op := [OpRead 4; OpWrite (lit "ping"); OpRead 2; OpRead 9; OpFlush; OpRead 9; OpFlush; OpShutdown].

Definition demo_end : State := fst (fst (run (λ _, []) demo_ops demo_stream)).

Lemma demo_first_frames : Forall frame_wf (first_frames (lit "1.0") demo_padding [1; 9; 9; 9; 9; 0; 80]).
Proof. repeat constructor; vm_compute; congruence. Qed.

Lemma demo_incoming_bytes : Forall is_byte (script_bytes (reads demo_env)).
Proof. unfold is_byte. apply (bool_decide_unpack _). vm_compute. exact I. Qed.

Lemma session_writes_faithful_witness :
  open (λ _, replicate 32 1) (lit "1.0") [1; 9; 9; 9; 9; 0; 80] (lit "secret") demo_padding demo_env = Some (Ok demo_stream) ∧
  ∃ fs, payload fs = [1; 9; 9; 9; 9; 0; 80] ++ lit "ping".
Proof.
  assert (open (λ _, replicate 32 1) (lit "1.0") [1; 9; 9; 9; 9; 0; 80] (lit "secret") demo_padding demo_env = Some (Ok demo_stream)) as Ho
    by (vm_compute; reflexivity).
  split; [exact Ho|].
  destruct (session_writes_faithful _ (λ _, []) _ _ _ _ _ _ demo_ops demo_end (lit "ping") (lit "hello")
    demo_padding_wf demo_first_frames demo_incoming_bytes Ho) as (size & fs & _ & H & _).
  - vm_compute. reflexivity.
  - exists fs. exact H.
Defined.

Lemma session_reads_faithful_witness :
  ∃ fs rest, script_bytes (reads demo_env) = mjoin (frame_bytes <$> fs) ++ rest ∧
    payload fs = lit "hello" ++ undelivered (fst demo_end).
Proof.
  destruct (session_reads_faithful (λ _, replicate 32 1) (λ _, []) (lit "1.0") [1; 9; 9; 9; 9; 0; 80] (lit "secret")
    demo_padding demo_env demo_stream demo_ops demo_end (lit "ping") (lit "hello")
    demo_padding_wf demo_first_frames demo_incoming_bytes) as (fs & rest & _ & H1 & H2).
  - vm_compute. reflexivity.
  - vm_compute. reflexivity.
  - exists fs, rest. split; [exact H1|exact H2].
Defined.

End SessionFacts.
