(* ===== verification/Obfs.v ===== *)
(** * simple-obfs (src/src/simple_obfs.rs: [HttpObfsStream])

    A stream below the Shadowsocks cipher whose first write and first read wear an HTTP
    envelope. The inner stream, the timer and the random source are scripts, as for AnyTLS
    sessions: what each poll answers, in order; an exhausted script stays pending. *)
From S2P Require Import Prelude AnyTls AnyTlsSession.

Module Obfs.
Import AnyTls.
Import Session(Poll, Pending, Ready, WriteAnswer, WPending, WAccept, WError, ReadAnswer, RPending, RData, REof, RError,
  UnitAnswer, UPending, UReady, UError, unit_answer).

Definition HEADER_LIMIT : nat := Z.to_nat 8192.
Definition FIRST_WRITE_LIMIT : nat := Z.to_nat 65536.
Definition CRLF : str := [13; 10].

(** The inner stream: its script, and the bytes that went over it in each direction. *)
Record Inner := mkInner {
  writes : list WriteAnswer;
  flushes : list UnitAnswer;
  shutdowns : list UnitAnswer;
  reads : list ReadAnswer;
  timer : list bool;
  random : list (option str);
  wire : str;
  received : str;
}.

(** [deadline]: whether the timer is armed. *)
Record HttpObfsStream := mkStream {
  host : str;
  port : Z;
  started : bool;
  pending : str;
  written : nat;
  response : str;
  tail : nat;
  upgraded : bool;
  deadline : bool;
  failed : bool;
}.

Definition validate_host (host : str) : io unit :=
  if bool_decide (host = []) || (255 <? len host) || existsb (λ b, (b =? 0) || (b =? 13) || (b =? 10)) host
  then Err InvalidData else Ok tt.

Definition new (host : str) (port : Z) : io HttpObfsStream :=
  let! _ := validate_host host in
  if port =? 0 then Err InvalidData
  else Ok (mkStream host port false [] 0 [] 0 false false false).

(** ** State and polls *)

Definition State : Type := HttpObfsStream * Inner.
Definition M (A : Type) : Type := State → State * Poll (io A).

Definition set_failed (s : HttpObfsStream) : HttpObfsStream :=
  mkStream (host s) (port s) (started s) (pending s) (written s) (response s) (tail s) (upgraded s) (deadline s) true.
Definition set_pending (s : HttpObfsStream) (started : bool) (pending : str) (written : nat) (deadline : bool) : HttpObfsStream :=
  mkStream (host s) (port s) started pending written (response s) (tail s) (upgraded s) deadline (failed s).
Definition set_response (s : HttpObfsStream) (response : str) (tail : nat) (upgraded deadline : bool) : HttpObfsStream :=
  mkStream (host s) (port s) (started s) (pending s) (written s) response tail upgraded deadline (failed s).

(** [this.failed = true; return Poll::Ready(Err(e))] *)
Definition fail {A} (e : IoError) : M A := λ '(s, v), ((set_failed s, v), Ready (Err e)).

Definition inner_write (data : str) : M nat := λ '(s, v),
  match writes v with
  | [] => ((s, v), Pending)
  | a :: ws =>
      let v' w := mkInner ws (flushes v) (shutdowns v) (reads v) (timer v) (random v) w (received v) in
      match a with
      | WPending => ((s, v' (wire v)), Pending)
      | WAccept n => ((s, v' (wire v ++ take n data)), Ready (Ok (length (take n data))))
      | WError e => ((s, v' (wire v)), Ready (Err e))
      end
  end.

Definition inner_flush : M unit := λ '(s, v),
  match flushes v with
  | [] => ((s, v), Pending)
  | a :: fs => ((s, mkInner (writes v) fs (shutdowns v) (reads v) (timer v) (random v) (wire v) (received v)), unit_answer a)
  end.

Definition inner_shutdown : M unit := λ '(s, v),
  match shutdowns v with
  | [] => ((s, v), Pending)
  | a :: sh => ((s, mkInner (writes v) (flushes v) sh (reads v) (timer v) (random v) (wire v) (received v)), unit_answer a)
  end.

(** A read into a buffer of [n] bytes; what does not fit stays for the next one. *)
Definition inner_read (n : nat) : M str := λ '(s, v),
  match reads v with
  | [] => ((s, v), Pending)
  | a :: rs =>
      let v' rs got := mkInner (writes v) (flushes v) (shutdowns v) rs (timer v) (random v) (wire v) (received v ++ got) in
      match a with
      | RPending => ((s, v' rs []), Pending)
      | REof => ((s, v' rs []), Ready (Ok []))
      | RError e => ((s, v' rs []), Ready (Err e))
      | RData bytes =>
          let rest := drop n bytes in
          ((s, v' (if bool_decide (rest = []) then rs else RData rest :: rs) (take n bytes)), Ready (Ok (take n bytes)))
      end
  end.

(** Whether the armed timer is over. *)
Definition deadline_over (st : State) : State * bool :=
  let '(s, v) := st in
  if negb (deadline s) then (st, false)
  else
    match timer v with
    | [] => (st, false)
    | b :: ts => ((s, mkInner (writes v) (flushes v) (shutdowns v) (reads v) ts (random v) (wire v) (received v)), b)
    end.

(** The 18 bytes of [getrandom], when it works. *)
Definition getrandom (v : Inner) : Inner * option str :=
  match random v with
  | [] => (v, None)
  | r :: rs => (mkInner (writes v) (flushes v) (shutdowns v) (reads v) (timer v) rs (wire v) (received v), r)
  end.

(** ** Writing *)

(** The loop of [drain]; [None] is out of fuel, of which a write answer takes one. *)
Fixpoint drain_loop (fuel : nat) (st : State) : option (State * Poll (io unit)) :=
  match fuel with
  | O => None
  | S fuel =>
      let s := fst st in
      if (written s <? length (pending s))%nat then
        match inner_write (drop (written s) (pending s)) st with
        | (st, Pending) => Some (st, Pending)
        | (st, Ready (Ok O)) => Some (fail WriteZero st)
        | ((s, v), Ready (Ok n)) => drain_loop fuel (set_pending s (started s) (pending s) (written s + n) (deadline s), v)
        | (st, Ready (Err e)) => Some (fail e st)
        end
      else Some (st, Ready (Ok tt))
  end.

Definition drain : M unit := λ st,
  if failed (fst st) then (st, Ready (Err InvalidData))
  else
    match drain_loop (S (length (writes (snd st)))) st with
    | Some ((s, v), Ready (Ok _)) =>
        ((if bool_decide (pending s = []) then s
          else set_pending s (started s) [] 0 (if upgraded s then deadline s else true), v), Ready (Ok tt))
    | Some r => r
    | None => (st, Pending)
    end.

(** [ready!(m)?] *)
Definition bind {A B} (m : M A) (k : A → M B) : M B := λ st,
  match m st with
  | (st, Ready (Ok a)) => k a st
  | (st, Ready (Err e)) => (st, Ready (Err e))
  | (st, Pending) => (st, Pending)
  end.

Section Encoding.
(** [base64::engine::general_purpose::STANDARD.encode] *)
Context (base64 : str → str).

Definition request_header (host : str) (port : Z) (random : str) (count : Z) : str :=
  let host := if port =? 80 then host else host ++ lit ":" ++ print_dec port in
  lit "GET / HTTP/1.1" ++ CRLF ++ lit "Host: " ++ host ++ CRLF
  ++ lit "User-Agent: curl/7." ++ print_dec (default 0 (random !! 0%nat) mod 51) ++ lit "."
  ++ print_dec (default 0 (random !! 1%nat) mod 2) ++ CRLF
  ++ lit "Upgrade: websocket" ++ CRLF ++ lit "Connection: Upgrade" ++ CRLF
  ++ lit "Sec-WebSocket-Key: " ++ base64 (drop 2 random) ++ CRLF
  ++ lit "Content-Length: " ++ print_dec count ++ CRLF ++ CRLF.

Definition poll_write (data : str) : M nat :=
  bind drain (λ _ '(s, v),
    if bool_decide (data = []) then ((s, v), Ready (Ok 0%nat))
    else if started s then inner_write data (s, v)
    else
      let count := Nat.min (length data) FIRST_WRITE_LIMIT in
      match getrandom v with
      | (v, None) => ((s, v), Ready (Err OtherError))
      | (v, Some random) =>
          let bytes := request_header (host s) (port s) random (Z.of_nat count) ++ take count data in
          ((set_pending s true bytes (written s) (deadline s), v), Ready (Ok count))
      end).

End Encoding.

Definition poll_flush : M unit := bind drain (λ _, inner_flush).

Definition poll_shutdown : M unit := bind drain (λ _, inner_shutdown).

(** ** Reading *)

(** The branch of an upgraded stream: what came behind the header, then the inner stream. *)
Definition deliver (n : nat) : M str := λ '(s, v),
  if (tail s <? length (response s))%nat then
    let k := Nat.min n (length (response s) - tail s) in
    let out := take k (drop (tail s) (response s)) in
    let t := (tail s + k)%nat in
    ((if (t =? length (response s))%nat then set_response s [] 0 (upgraded s) (deadline s)
      else set_response s (response s) t (upgraded s) (deadline s), v), Ready (Ok out))
  else inner_read n (s, v).

(** The check of the status line, when the response holds a header. *)
Definition status_ok (response : str) : option bool :=
  let? line_end := find_sub CRLF response in
  let status := take line_end response in
  Some (starts_with (lit "HTTP/1.1 101") status
        && negb ((12 <? length status)%nat && negb (is_some_and (status !! 12%nat) (λ b, (b =? 32) || (b =? 9))))).

(** What the loop does with a response that grew: fail, go on reading, or upgrade; [None] is
    the [expect] that would panic. *)
Inductive Checked := Refused | More | Upgraded (tail : nat).

Definition check_response (response : str) : option Checked :=
  match find_sub (CRLF ++ CRLF) response with
  | Some e => let? ok := status_ok response in Some (if ok then Upgraded (e + 4) else Refused)
  | None => Some (if (length response =? HEADER_LIMIT)%nat then Refused else More)
  end.

(** The loop of [poll_read] into [n] free bytes; [None] is out of fuel, of which a read answer
    takes one, or a panic. *)
Fixpoint read_loop (fuel : nat) (n : nat) (st : State) : option (State * Poll (io str)) :=
  match fuel with
  | O => None
  | S fuel =>
      if upgraded (fst st) then Some (deliver n st)
      else
        let '(st, over) := deadline_over st in
        if over then Some (fail TimedOut st)
        else
          match inner_read (HEADER_LIMIT - length (response (fst st))) st with
          | (st, Pending) => Some (st, Pending)
          | (st, Ready (Err e)) => Some (fail e st)
          | (st, Ready (Ok [])) => Some (fail UnexpectedEof st)
          | ((s, v), Ready (Ok bytes)) =>
              let response := response s ++ bytes in
              let? checked := check_response response in
              match checked with
              | Refused => Some (fail InvalidData (set_response s response (tail s) false (deadline s), v))
              | More => read_loop fuel n (set_response s response (tail s) false (deadline s), v)
              | Upgraded t => read_loop fuel n (set_response s response t true false, v)
              end
          end
  end.

Definition read_fuel (st : State) : nat := S (S (length (reads (snd st)))).

(** The bytes put into a buffer with [n] free bytes. *)
Definition poll_read (n : nat) : M str := λ st,
  if (n =? 0)%nat then (st, Ready (Ok []))
  else bind drain (λ _ st, default (st, Pending) (read_loop (read_fuel st) n st)) st.

(** Polling a flush until it is done, at most [polls] more times. *)
Fixpoint flush_until (polls : nat) (st : State) : State * Poll (io unit) :=
  match poll_flush st, polls with
  | (st, Pending), S polls => flush_until polls st
  | r, _ => r
  end.

(** ** Histories *)

Inductive Op := OpWrite (data : str) | OpFlush | OpShutdown | OpRead (n : nat).

(** The state, the data the writes took and the data the reads gave. *)
Record History := mkHistory { now : State; accepted : str; output : str }.

Definition apply_op (base64 : str → str) (o : Op) (h : History) : History :=
  match o with
  | OpWrite data =>
      match poll_write base64 data (now h) with
      | (st, Ready (Ok n)) => mkHistory st (accepted h ++ take n data) (output h)
      | (st, _) => mkHistory st (accepted h) (output h)
      end
  | OpFlush => mkHistory (fst (poll_flush (now h))) (accepted h) (output h)
  | OpShutdown => mkHistory (fst (poll_shutdown (now h))) (accepted h) (output h)
  | OpRead n =>
      match poll_read n (now h) with
      | (st, Ready (Ok bytes)) => mkHistory st (accepted h) (output h ++ bytes)
      | (st, _) => mkHistory st (accepted h) (output h)
      end
  end.

Definition run (base64 : str → str) (ops : list Op) (h : History) : History := foldl (λ h o, apply_op base64 o h) h ops.

End Obfs.
