(* ===== verification/ObfsFacts.v ===== *)
(** * simple-obfs: what goes over the wire

    For every behaviour of the inner stream and every interleaving of operations: the bytes
    written are one HTTP request followed by the data, in order; the bytes read are the data
    behind one acceptable response header. *)
From S2P Require Import Prelude AnyTls AnyTlsSession Obfs.

Module ObfsFacts.
Import AnyTls Obfs.
Import Session(Poll, Pending, Ready, WriteAnswer, WPending, WAccept, WError, ReadAnswer, RPending, RData, REof, RError,
  UnitAnswer, UPending, UReady, UError, unit_answer).

#[local] Arguments inner_write : simpl never.
#[local] Arguments inner_read : simpl never.
#[local] Arguments check_response : simpl never.

Lemma first_write_pos : (0 < FIRST_WRITE_LIMIT)%nat.
Proof. unfold FIRST_WRITE_LIMIT. lia. Qed.

Lemma header_limit_pos : (0 < HEADER_LIMIT)%nat.
Proof. unfold HEADER_LIMIT. lia. Qed.

#[local] Opaque request_header HEADER_LIMIT FIRST_WRITE_LIMIT.

(** ** Draining *)

Definition queued (s : HttpObfsStream) : str := drop (written s) (pending s).

(** What writing the queue leaves alone. *)
Record drains (st st' : State) : Prop := {
  dr_host : host (fst st') = host (fst st);
  dr_port : port (fst st') = port (fst st);
  dr_started : started (fst st') = started (fst st);
  dr_response : response (fst st') = response (fst st);
  dr_tail : tail (fst st') = tail (fst st);
  dr_upgraded : upgraded (fst st') = upgraded (fst st);
  dr_flushes : flushes (snd st') = flushes (snd st);
  dr_reads : reads (snd st') = reads (snd st);
  dr_received : received (snd st') = received (snd st);
  dr_bytes : wire (snd st') ++ queued (fst st') = wire (snd st) ++ queued (fst st);
  dr_written : (written (fst st) ≤ length (pending (fst st)) → written (fst st') ≤ length (pending (fst st')))%nat;
  dr_idle : pending (fst st) = [] → pending (fst st') = [];
  dr_failed : failed (fst st) = true → failed (fst st') = true;
}.

Lemma drains_refl st : drains st st.
Proof. by split. Qed.

Lemma drains_trans a b c : drains a b → drains b c → drains a c.
Proof. intros [] []. split; eauto using eq_trans. Qed.

Lemma drains_fail {A} e st : drains st (fst (@fail A e st)).
Proof. destruct st as [s v]. by split. Qed.

(** One write of the rest of the queue. *)
Lemma inner_write_spec data s v :
  ∃ n ws, inner_write data (s, v) =
    ((s, mkInner ws (flushes v) (shutdowns v) (reads v) (timer v) (random v) (wire v ++ take n data) (received v)),
     snd (inner_write data (s, v))) ∧
    (length ws ≤ length (writes v))%nat ∧
    match snd (inner_write data (s, v)) with
    | Ready (Ok k) => k = length (take n data) ∧ (length ws < length (writes v))%nat
    | _ => n = 0%nat
    end.
Proof.
  unfold inner_write. destruct (writes v) as [|[|n|e] ws] eqn:E; simpl.
  - exists 0%nat, []. rewrite take_0, app_nil_r. split; [destruct v; simpl in *; by subst|done].
  - exists 0%nat, ws. rewrite take_0, app_nil_r. split_and!; [done|lia|done].
  - exists n, ws. split_and!; [done|lia|done|lia].
  - exists 0%nat, ws. rewrite take_0, app_nil_r. split_and!; [done|lia|done].
Qed.

Lemma queue_loop_spec fuel st : (length (writes (snd st)) < fuel)%nat →
  ∃ st' r, drain_loop fuel st = Some (st', r) ∧ drains st st' ∧
    (r = Ready (Ok tt) → failed (fst st') = failed (fst st) ∧ (length (pending (fst st')) ≤ written (fst st'))%nat).
Proof.
  revert st. induction fuel as [|fuel IH]; intros [s v] Hf; simpl in *; [lia|].
  destruct (written s <? length (pending s))%nat eqn:El; [apply Nat.ltb_lt in El|apply Nat.ltb_ge in El].
  2: { exists (s, v), (Ready (Ok tt)). split; [done|]. split; [apply drains_refl|done]. }
  destruct (inner_write_spec (drop (written s) (pending s)) s v) as (n & ws & Hw & Hlen & Hr). rewrite Hw. clear Hw.
  set (v' := mkInner _ _ _ _ _ _ _ _).
  destruct (snd _) as [|[k|e]].
  - subst n v'. rewrite take_0, app_nil_r. do 2 eexists. split; [done|]. split; [by split|done].
  - destruct Hr as [-> Hlt]. destruct (length (take n _)) as [|k] eqn:Ek.
    + exists (set_failed s, v'), (Ready (Err WriteZero)). apply nil_length_inv in Ek. subst v'. rewrite Ek, app_nil_r.
      split; [done|]. split; [by split|done].
    + edestruct (IH (set_pending s (started s) (pending s) (written s + S k) (deadline s), v')) as (st' & r & He & Hd & Hok).
      { simpl. lia. }
      exists st', r. split; [done|]. split; [|done]. eapply drains_trans; [|done]. rewrite length_take, length_drop in Ek.
      split; try done; simpl; [|lia]. unfold queued. simpl. rewrite <- app_assoc. f_equal.
      rewrite <- (take_drop n (drop (written s) (pending s))) at 2. f_equal. rewrite drop_drop.
      destruct (decide (n ≤ length (pending s) - written s)%nat); [f_equal; lia|]. by rewrite !drop_ge by lia.
  - exists (set_failed s, v'), (Ready (Err e)). subst n v'. rewrite take_0, app_nil_r. split; [done|]. split; [by split|done].
Qed.

Lemma queue_drain_spec st : (written (fst st) ≤ length (pending (fst st)))%nat →
  ∃ st' r, drain st = (st', r) ∧ drains st st' ∧
    (r = Ready (Ok tt) → pending (fst st') = [] ∧ written (fst st') = 0%nat ∧ failed (fst st') = false).
Proof.
  intros Hw. unfold drain. destruct (failed (fst st)) eqn:Ef; [exists st, (Ready (Err InvalidData)); split; [done|]; split; [apply drains_refl|done]|].
  destruct (queue_loop_spec (S (length (writes (snd st)))) st) as ([s v] & r & He & Hd & Hok); [lia|]. rewrite He.
  pose proof (dr_written _ _ Hd Hw) as Hw'.
  destruct r as [|[[]|e]]; [by do 2 eexists| |by do 2 eexists]. destruct (Hok eq_refl) as [Hf' Hl]. simpl in *.
  do 2 eexists. split; [done|]. case_bool_decide as Hp.
  - split; [done|]. intros _. rewrite Hp in Hw'. simpl in *. split; [done|]. split; [lia|congruence].
  - split; [|intros _; simpl; by rewrite Hf', Ef]. eapply drains_trans; [done|]. split; try done; simpl.
    unfold queued. simpl. by rewrite !drop_ge by (simpl; lia).
Qed.

(** ** What was sent *)

Section Sent.
Context (base64 : str → str) (h : str) (p : Z) (first : str).

(** The bytes on the wire and in the queue are the request header, counting [first], and all
    data accepted, which starts with [first]. *)
Record sent (st : State) (acc : str) : Prop := {
  se_host : host (fst st) = h;
  se_port : port (fst st) = p;
  se_written : (written (fst st) ≤ length (pending (fst st)))%nat;
  se_bytes :
    if started (fst st) then
      ∃ random, first ≠ [] ∧ (length first ≤ FIRST_WRITE_LIMIT)%nat ∧ first `prefix_of` acc ∧
        wire (snd st) ++ queued (fst st) = request_header base64 h p random (len first) ++ acc
    else pending (fst st) = [] ∧ wire (snd st) = [] ∧ acc = [];
}.

Lemma sent_drains st st' acc : sent st acc → drains st st' → sent st' acc.
Proof.
  intros [H1 H2 H3 H4] D. split.
  - by rewrite (dr_host _ _ D).
  - by rewrite (dr_port _ _ D).
  - by apply (dr_written _ _ D).
  - rewrite (dr_started _ _ D), (dr_bytes _ _ D). destruct (started (fst st)); [done|].
    destruct H4 as (Hp & Hw & Ha). pose proof (dr_idle _ _ D Hp) as Hp'. split; [done|]. split; [|done].
    pose proof (dr_bytes _ _ D) as Hb. unfold queued in Hb. rewrite Hp, Hp', Hw, !drop_nil in Hb.
    by rewrite app_nil_r in Hb.
Qed.

(** Changes of what a stream holds for its reader do not matter. *)
Lemma sent_same s v s' v' acc : sent (s, v) acc → host s' = host s → port s' = port s → started s' = started s →
  pending s' = pending s → written s' = written s → wire v' = wire v → sent (s', v') acc.
Proof.
  intros [H1 H2 H3 H4] ? ? Es Ep Ew Ev. split; simpl in *; try congruence. unfold queued in *.
  by rewrite Es, Ep, Ew, Ev.
Qed.

End Sent.

(** ** What was received *)

(** A response header that upgrades the stream: at most 8192 bytes up to the first empty
    line, with an acceptable status. *)
Definition upgrade_header (hd : str) : Prop :=
  (length hd ≤ HEADER_LIMIT)%nat ∧ find_sub (CRLF ++ CRLF) hd = Some (length hd - 4)%nat ∧ status_ok hd = Some true.

(** The bytes received are a header, the data given to the reader and the data kept for it;
    before that no header is complete. *)
Record got (st : State) (out : str) : Prop := {
  go_tail : (tail (fst st) ≤ length (response (fst st)))%nat;
  go_bytes :
    if upgraded (fst st) then
      ∃ hd, upgrade_header hd ∧ received (snd st) = hd ++ out ++ drop (tail (fst st)) (response (fst st))
    else
      out = [] ∧ received (snd st) = response (fst st) ∧ tail (fst st) = 0%nat ∧
      (failed (fst st) = false →
       find_sub (CRLF ++ CRLF) (response (fst st)) = None ∧ (length (response (fst st)) < HEADER_LIMIT)%nat);
}.

Lemma got_drains st st' out : got st out → drains st st' → got st' out.
Proof.
  intros [H1 H2] D. split; rewrite (dr_response _ _ D), (dr_tail _ _ D); [done|].
  rewrite (dr_upgraded _ _ D), (dr_received _ _ D). destruct (upgraded (fst st)); [done|].
  destruct H2 as (? & ? & ? & Hf). split_and!; try done. intros Hf'. apply Hf.
  destruct (failed (fst st)) eqn:E; [|done]. by rewrite (dr_failed _ _ D) in Hf'.
Qed.

(** What reading leaves alone. *)
Definition quiet (st st' : State) : Prop :=
  host (fst st') = host (fst st) ∧ port (fst st') = port (fst st) ∧ started (fst st') = started (fst st) ∧
  pending (fst st') = pending (fst st) ∧ written (fst st') = written (fst st) ∧ wire (snd st') = wire (snd st).

Lemma quiet_refl st : quiet st st.
Proof. by split_and!. Qed.

Lemma quiet_trans a b c : quiet a b → quiet b c → quiet a c.
Proof. unfold quiet. intros. destruct_and!. split_and!; congruence. Qed.

Lemma sent_quiet base64 h p f st st' acc : sent base64 h p f st acc → quiet st st' → sent base64 h p f st' acc.
Proof.
  intros Hs (? & ? & ? & ? & ? & ?). destruct st as [s v], st' as [s' v']. by eapply sent_same.
Qed.

Lemma inner_read_spec n s v :
  ∃ rs b, inner_read n (s, v) =
    ((s, mkInner (writes v) (flushes v) (shutdowns v) rs (timer v) (random v) (wire v) (received v ++ b)),
     snd (inner_read n (s, v))) ∧
    match snd (inner_read n (s, v)) with
    | Ready (Ok b') => b' = b ∧ (length b ≤ n)%nat ∧ (length b = n ∨ (length rs < length (reads v))%nat)
    | _ => b = []
    end.
Proof.
  unfold inner_read. destruct (reads v) as [|[|bytes| |e] rs] eqn:E; simpl.
  - exists [], []. rewrite app_nil_r. split; [destruct v; simpl in *; by subst|done].
  - by exists rs, [].
  - do 2 eexists. split; [done|]. rewrite length_take. split; [done|]. split; [lia|].
    case_bool_decide as Hd; [right; lia|left]. apply (f_equal length) in Hd || idtac.
    destruct (decide (n ≤ length bytes)%nat); [lia|]. by rewrite drop_ge in Hd by lia.
  - exists rs, []. split; [done|]. simpl. split_and!; [done|lia|right; lia].
  - by exists rs, [].
Qed.

Lemma check_response_spec r :
  ∃ c, check_response r = Some c ∧
    match c with
    | Refused => True
    | More => find_sub (CRLF ++ CRLF) r = None ∧ length r ≠ HEADER_LIMIT
    | Upgraded t => (t ≤ length r)%nat ∧ find_sub (CRLF ++ CRLF) (take t r) = Some (t - 4)%nat ∧ (4 ≤ t)%nat ∧
                    status_ok (take t r) = Some true
    end.
Proof.
  unfold check_response. destruct (find_sub (CRLF ++ CRLF) r) as [e|] eqn:E.
  - pose proof (find_sub_length _ _ _ E) as Hl. pose proof (find_sub_take _ _ _ E) as Ht.
    change (length (CRLF ++ CRLF)) with 4%nat in *.
    assert (∃ l, find_sub CRLF (take (e + 4) r) = Some l) as [l Hfl].
    { apply find_sub_Some in Ht as [[x Hx] _]. rewrite Hx. apply (find_sub_is_Some CRLF _ (CRLF ++ x)). }
    pose proof (find_sub_app _ _ (drop (e + 4) r) _ Hfl) as Hfr. rewrite take_drop in Hfr.
    pose proof (find_sub_length _ _ _ Hfl) as Hll. rewrite length_take in Hll.
    assert (status_ok (take (e + 4) r) = status_ok r) as Hst.
    { unfold status_ok. rewrite Hfl, Hfr. rewrite take_take. by replace (l `min` (e + 4))%nat with l by (simpl in Hll; lia). }
    rewrite <- Hst. unfold status_ok at 1. rewrite Hfl.
    match goal with |- context [Some (if ?b then _ else _)] => destruct b eqn:Eb end; eexists; (split; [done|]); [|done].
    cbv beta iota. rewrite Ht. split; [lia|]. split; [f_equal; lia|]. split; [lia|]. unfold status_ok. by rewrite Hfl, Eb.
  - destruct (_ =? _)%nat eqn:El; eexists; (split; [done|]); [done|]. apply Nat.eqb_neq in El. done.
Qed.

(** What a read leads to. *)
Definition reads_on (n : nat) (out : str) (st : State) (st' : State) (r : Poll (io str)) : Prop :=
  quiet st st' ∧
  match r with
  | Ready (Ok b) => got st' (out ++ b) ∧ (length b ≤ n)%nat
  | _ => got st' out
  end.

Lemma deliver_spec n s v out : upgraded s = true → got (s, v) out →
  ∃ st' r, deliver n (s, v) = (st', r) ∧ reads_on n out (s, v) st' r.
Proof.
  intros Hu [Ht Hb]. simpl in *. rewrite Hu in Hb. destruct Hb as (hd & Hh & Hr). unfold deliver.
  destruct (tail s <? length (response s))%nat eqn:El.
  - apply Nat.ltb_lt in El. do 2 eexists. split; [done|]. split; [by destruct (_ =? _)%nat|].
    set (k := (n `min` (length (response s) - tail s))%nat). split; [|rewrite length_take; lia].
    destruct (_ =? _)%nat eqn:Ek; split; simpl; try (rewrite Hu; exists hd; split; [done|]); try lia.
    + apply Nat.eqb_eq in Ek. rewrite Hr, app_nil_r. by rewrite take_ge by (rewrite length_drop; lia).
    + by rewrite Hr, <- app_assoc, <- drop_drop, take_drop.
  - apply Nat.ltb_ge in El. destruct (inner_read_spec n s v) as (rs & b & He & Hcase). rewrite He.
    set (st' := (s, mkInner _ _ _ _ _ _ _ _)). exists st', (snd (inner_read n (s, v))). split; [done|]. split; [done|].
    assert (got st' (out ++ b)) as Hg.
    { split; simpl; [done|]. rewrite Hu. exists hd. split; [done|]. rewrite Hr, drop_ge, !app_nil_r by done. by rewrite app_assoc. }
    destruct (snd _) as [|[b'|e]]; [|by destruct Hcase as (-> & ? & _)|]; subst b; by rewrite app_nil_r in Hg.
Qed.

Lemma got_fail s v out : got (s, v) out → got (set_failed s, v) out.
Proof.
  intros [Ht Hb]. split; simpl in *; [done|]. destruct (upgraded s); [done|].
  destruct Hb as (? & ? & ? & _). done.
Qed.

(** A response that grew by [b]: refused, to be continued, or the end of the header. *)
Lemma got_grown s v b out : upgraded s = false → failed s = false → got (s, v) out →
  (length b ≤ HEADER_LIMIT - length (response s))%nat →
  let v' rs := mkInner (writes v) (flushes v) (shutdowns v) rs (timer v) (random v) (wire v) (received v ++ b) in
  ∃ c, check_response (response s ++ b) = Some c ∧
    match c with
    | Refused => ∀ rs d, got (set_failed (set_response s (response s ++ b) (tail s) false d), v' rs) out
    | More => (length b < HEADER_LIMIT - length (response s))%nat ∧
              ∀ rs d, got (set_response s (response s ++ b) (tail s) false d, v' rs) out
    | Upgraded t => ∀ rs d, got (set_response s (response s ++ b) t true d, v' rs) out
    end.
Proof.
  intros Hu Hf [Ht Hb] Hl v'. simpl in Ht, Hb. rewrite Hu in Hb. destruct Hb as (-> & Hr & Ht0 & Hn). specialize (Hn Hf) as [_ Hlen].
  destruct (check_response_spec (response s ++ b)) as (c & Hc & Hcase). exists c. split; [done|]. destruct c as [| |t].
  - intros rs d. split; simpl; [lia|]. rewrite Hr. done.
  - rewrite length_app in Hcase. split; [lia|]. intros rs d. split; simpl; [lia|]. rewrite Hr. split_and!; [done|done|done|].
    intros _. rewrite length_app. split; [apply Hcase|lia].
  - destruct Hcase as (Htl & Hfs & H4 & Hst). intros rs d. split; simpl; [done|]. exists (take t (response s ++ b)).
    split; [|by rewrite Hr, take_drop]. rewrite length_app in Htl. split; [rewrite length_take, length_app; lia|].
    split; [|done]. rewrite Hfs. f_equal. rewrite length_take, length_app. lia.
Qed.

Lemma read_loop_spec fuel n st out :
  (if upgraded (fst st) then 1 ≤ fuel else 2 + length (reads (snd st)) ≤ fuel)%nat →
  (upgraded (fst st) = false → failed (fst st) = false) → got st out →
  ∃ st' r, read_loop fuel n st = Some (st', r) ∧ reads_on n out st st' r.
Proof.
  revert st. induction fuel as [|fuel IH]; intros [s v] Hfuel Hf Hg; simpl in Hfuel, Hf; [destruct (upgraded s); lia|].
  cbn [read_loop fst snd]. destruct (upgraded s) eqn:Eu.
  { destruct (deliver_spec n s v out Eu Hg) as (st' & r & -> & Hr). eauto. }
  specialize (Hf eq_refl).
  assert (∃ ts over, deadline_over (s, v) =
    ((s, mkInner (writes v) (flushes v) (shutdowns v) (reads v) ts (random v) (wire v) (received v)), over)) as (ts & over & Hd).
  { unfold deadline_over. destruct (negb _); [exists (timer v); eexists; by destruct v|].
    destruct (timer v) eqn:E; [exists (timer v); eexists; by destruct v|by do 2 eexists]. }
  rewrite Hd. clear Hd. set (v1 := mkInner _ _ _ _ _ _ _ _).
  assert (got (s, v1) out) as Hg1 by (destruct Hg; by split).
  destruct over.
  { exists (set_failed s, v1), (Ready (Err TimedOut)). split; [done|]. split; [done|]. by apply got_fail. }
  cbn [fst]. destruct (inner_read_spec (HEADER_LIMIT - length (response s)) s v1) as (rs & b & He & Hcase). rewrite He.
  set (v2 := mkInner (writes v1) (flushes v1) (shutdowns v1) rs (timer v1) (random v1) (wire v1) (received v1 ++ b)) in *.
  assert (b = [] → got (s, v2) out) as Hg2 by (intros ->; destruct Hg1; subst v2; split; simpl; [done|by rewrite app_nil_r]).
  destruct (snd _) as [|[b'|e]].
  - do 2 eexists. split; [done|]. split; [done|]. by apply Hg2.
  - destruct Hcase as (-> & Hl & Hrs).
    destruct (got_grown s v1 b out Eu Hf Hg1 Hl) as (c & Hc & Hgc).
    destruct b as [|x b].
    { exists (set_failed s, v2), (Ready (Err UnexpectedEof)). split; [done|]. split; [done|]. by apply got_fail, Hg2. }
    cbn [response]. rewrite Hc. destruct c as [| |t].
    + eexists (_, _), _. split; [done|]. split; [done|]. apply Hgc.
    + destruct Hgc as [Hlt Hgc]. change (reads v1) with (reads v) in Hrs.
      edestruct (IH (set_response s (response s ++ x :: b) (tail s) false (deadline s), v2)) as (st' & r & Hr & Hq & Hres);
        [cbn [fst upgraded set_response]; change (reads (snd (_, v2))) with rs; lia|done|apply Hgc|].
      exists st', r. split; [done|]. split; [|done]. by eapply quiet_trans.
    + edestruct (IH (set_response s (response s ++ x :: b) t true false, v2)) as (st' & r & Hr & Hq & Hres);
        [simpl; lia|done|apply Hgc|]. exists st', r. split; [done|]. split; [|done]. by eapply quiet_trans.
  - exists (set_failed s, v2), (Ready (Err e)). split; [done|]. split; [done|]. by apply got_fail, Hg2.
Qed.

(** ** Every operation *)

Section Histories.
Context (base64 : str → str) (h : str) (p : Z) (f : str).

Definition faithful (hist : History) : Prop := sent base64 h p f (now hist) (accepted hist) ∧ got (now hist) (output hist).

(** An operation that drains first and then does [k]. *)
Lemma bind_drain {A} (k : unit → M A) st acc out (Q : State → Poll (io A) → Prop) :
  sent base64 h p f st acc → got st out →
  (∀ st' r, drains st st' → sent base64 h p f st' acc → got st' out → match r with Ready (Ok _) => False | _ => True end → Q st' r) →
  (∀ st', drains st st' → sent base64 h p f st' acc → got st' out → pending (fst st') = [] → written (fst st') = 0%nat →
     failed (fst st') = false → Q (fst (k tt st')) (snd (k tt st'))) →
  Q (fst (bind drain k st)) (snd (bind drain k st)).
Proof.
  intros Hs Hg Hstop Hk. unfold bind. destruct (queue_drain_spec st (se_written _ _ _ _ _ _ Hs)) as (st' & r & -> & Hd & Hr).
  pose proof (sent_drains _ _ _ _ _ _ _ Hs Hd) as Hs'. pose proof (got_drains _ _ _ Hg Hd) as Hg'.
  destruct r as [|[[]|e]]; [by apply Hstop| |by apply Hstop]. destruct (Hr eq_refl) as (? & ? & ?). by apply Hk.
Qed.

Lemma inner_write_sent data s v acc out : started s = true → pending s = [] → written s = 0%nat →
  sent base64 h p f (s, v) acc → got (s, v) out →
  let '(st', r) := inner_write data (s, v) in
  sent base64 h p f st' (match r with Ready (Ok n) => acc ++ take n data | _ => acc end) ∧ got st' out ∧
  started (fst st') = true.
Proof.
  intros Hst Hp Hw Hs [Hg1 Hg2]. destruct (inner_write_spec data s v) as (n & ws & He & _ & Hr). rewrite He.
  split; [|split; [by split|done]]. destruct Hs as [H1 H2 H3 H4]. simpl in *. rewrite Hst in H4. destruct H4 as (rd & Hf & Hfl & Hpre & Hb).
  assert (∀ k, k = n → sent base64 h p f (s, mkInner ws (flushes v) (shutdowns v) (reads v) (timer v) (random v)
    (wire v ++ take n data) (received v)) (acc ++ take k data)) as Hgo.
  { intros k ->. split; simpl; try done. rewrite Hst. exists rd. split_and!; [done|done|by apply prefix_app_r|].
    unfold queued in *. rewrite Hp, drop_nil, app_nil_r in *. by rewrite Hb, app_assoc. }
  destruct (snd _) as [|[k|e]].
  - specialize (Hgo 0%nat (eq_sym Hr)). by rewrite take_0, app_nil_r in Hgo.
  - destruct Hr as [-> _]. rewrite length_take. specialize (Hgo n eq_refl).
    destruct (decide (n ≤ length data)%nat); [by rewrite Nat.min_l by done|].
    rewrite Nat.min_r by lia. by assert (take (length data) data = take n data) as -> by (by rewrite !take_ge by lia).
  - specialize (Hgo 0%nat (eq_sym Hr)). by rewrite take_0, app_nil_r in Hgo.
Qed.

(** Whether a write took data. *)
Definition took (data : str) (r : Poll (io nat)) : bool :=
  match r with Ready (Ok _) => negb (bool_decide (data = [])) | _ => false end.

Lemma poll_write_faithful data st acc out :
  (started (fst st) = false → took data (snd (poll_write base64 data st)) = true →
   f = take (length data `min` FIRST_WRITE_LIMIT) data) →
  sent base64 h p f st acc → got st out →
  let '(st', r) := poll_write base64 data st in
  sent base64 h p f st' (match r with Ready (Ok n) => acc ++ take n data | _ => acc end) ∧ got st' out ∧
  started (fst st') = started (fst st) || took data r.
Proof.
  intros Hfirst Hs Hg. revert Hfirst. unfold poll_write.
  match goal with |- context [bind drain ?k st] => rewrite (surjective_pairing (bind drain k st)) end.
  refine (bind_drain _ st acc out (λ st' r, (_ → took data r = true → _) → sent base64 h p f st'
    (match r with Ready (Ok n) => acc ++ take n data | _ => acc end) ∧ got st' out ∧
    started (fst st') = started (fst st) || took data r) Hs Hg _ _).
  { intros st' [|[n|e]] D **; try done; (split_and!; [done|done|simpl; by rewrite (dr_started _ _ D), orb_false_r]). }
  intros [s v] D. rewrite <- (dr_started _ _ D). clear st D Hs Hg. intros Hs Hg Hp Hw Hf Hfirst.
  simpl in Hp, Hw, Hf, Hfirst |- *. unfold took in *. case_bool_decide as Hd.
  { simpl. by rewrite take_0, app_nil_r, orb_false_r. }
  destruct (started s) eqn:Es.
  { pose proof (inner_write_sent data s v acc out Es Hp Hw Hs Hg) as H. by destruct (inner_write data (s, v)). }
  destruct Hs as [H1 H2 H3 H4]. simpl in *. rewrite Es in H4. destruct H4 as (_ & Hwire & ->).
  assert (∃ rs, fst (getrandom v) = mkInner (writes v) (flushes v) (shutdowns v) (reads v) (timer v) rs (wire v) (received v))
    as [rs Hrs].
  { unfold getrandom. destruct (random v) eqn:E; [exists (random v); by destruct v|by eexists]. }
  destruct (getrandom v) as [v' [rd|]]; simpl in Hrs, Hfirst; subst v'; simpl.
  - split; [|split; [destruct Hg; by split|done]]. split; simpl; try done; [rewrite Hw; lia|].
    set (count := (length data `min` FIRST_WRITE_LIMIT)%nat) in *. exists rd. rewrite Hfirst by done.
    assert (length (take count data) = count) as Hc by (rewrite length_take; lia).
    assert (count ≠ 0%nat) as H0. { subst count. destruct data; [done|]. pose proof first_write_pos. simpl length. lia. }
    split_and!; [by destruct (take count data)|lia|done|]. unfold queued, len. simpl. by rewrite Hwire, Hw, Hc, H1, H2.
  - split; [|split; [destruct Hg; by split|done]]. split; simpl; try done. by rewrite Es.
Qed.

Lemma unit_poll_faithful (m : M unit) st acc out :
  (∀ s v, ∃ v', fst (m (s, v)) = (s, v') ∧ wire v' = wire v ∧ received v' = received v) →
  sent base64 h p f st acc → got st out →
  let st' := fst (bind drain (λ _, m) st) in
  sent base64 h p f st' acc ∧ got st' out ∧ started (fst st') = started (fst st).
Proof.
  intros Hm Hs Hg. refine (bind_drain _ st acc out (λ st' _, sent base64 h p f st' acc ∧ got st' out ∧
    started (fst st') = started (fst st)) Hs Hg _ _).
  { intros st' r D **. split_and!; [done|done|apply (dr_started _ _ D)]. }
  intros [s v] D. rewrite <- (dr_started _ _ D). clear st D Hs Hg. intros Hs [Hg1 Hg2] _ _ _.
  destruct (Hm s v) as (v' & -> & Hw & Hr). split_and!; [by eapply sent_same| |done].
  split; simpl in *; [done|]. by rewrite Hr.
Qed.

Lemma poll_read_faithful n st acc out : sent base64 h p f st acc → got st out →
  let '(st', r) := poll_read n st in
  sent base64 h p f st' acc ∧ started (fst st') = started (fst st) ∧
  match r with Ready (Ok b) => got st' (out ++ b) ∧ (length b ≤ n)%nat | _ => got st' out end.
Proof.
  intros Hs Hg. unfold poll_read. destruct (n =? 0)%nat; [simpl; rewrite app_nil_r; split_and!; [done..|lia]|].
  match goal with |- context [bind drain ?k st] => rewrite (surjective_pairing (bind drain k st)) end.
  refine (bind_drain _ st acc out (λ st' r, sent base64 h p f st' acc ∧ started (fst st') = started (fst st) ∧
    match r with Ready (Ok b) => got st' (out ++ b) ∧ (length b ≤ n)%nat | _ => got st' out end) Hs Hg _ _).
  { intros st' [|[b|e]] D; pose proof (dr_started _ _ D); done. }
  intros st' D. rewrite <- (dr_started _ _ D). clear st D Hs Hg. intros Hs Hg _ _ Hf.
  destruct (read_loop_spec (read_fuel st') n st' out) as (st2 & r & -> & Hq & Hr); [|done|done|].
  - unfold read_fuel. destruct (upgraded (fst st')); lia.
  - simpl. split; [by eapply sent_quiet|]. split; [apply Hq|done].
Qed.

(** Whether an operation is a write that takes data, and which. *)
Definition taken (o : Op) (hist : History) : option str :=
  match o with
  | OpWrite data => if took data (snd (poll_write base64 data (now hist))) then Some data else None
  | _ => None
  end.

Lemma taken_some data r : bool_decide (is_Some (if took data r then Some data else None)) = took data r.
Proof. destruct (took data r); [by apply bool_decide_true|by apply bool_decide_false; intros [? [=]]]. Qed.

Lemma apply_op_faithful o hist :
  (started (fst (now hist)) = false → ∀ data, taken o hist = Some data → f = take (length data `min` FIRST_WRITE_LIMIT) data) →
  faithful hist →
  faithful (apply_op base64 o hist) ∧
  started (fst (now (apply_op base64 o hist))) = started (fst (now hist)) || bool_decide (is_Some (taken o hist)).
Proof.
  intros Hf [Hs Hg]. unfold faithful. destruct o as [data| | |n]; simpl in *.
  - pose proof (poll_write_faithful data (now hist) (accepted hist) (output hist)) as H.
    specialize (H ltac:(intros He Ht; apply Hf; [done|by rewrite Ht]) Hs Hg).
    destruct (poll_write base64 data (now hist)) as [st' r]. destruct H as (H1 & H2 & Hst).
    rewrite <- (taken_some data r) in Hst. by destruct r as [|[n|e]].
  - rewrite orb_false_r. edestruct (unit_poll_faithful inner_flush) as (H1 & H2 & H3); [|done..|done].
    intros s v. unfold inner_flush. destruct (flushes v); by eexists.
  - rewrite orb_false_r. edestruct (unit_poll_faithful inner_shutdown) as (H1 & H2 & H3); [|done..|done].
    intros s v. unfold inner_shutdown. destruct (shutdowns v); by eexists.
  - rewrite orb_false_r.
    pose proof (poll_read_faithful n _ _ _ Hs Hg) as H. destruct (poll_read n (now hist)) as [st' [|[b|e]]]; simpl in *; naive_solver.
Qed.

(** The data offered to the first write of a run that takes any. *)
Fixpoint first_write (ops : list Op) (hist : History) : option str :=
  match ops with
  | [] => None
  | o :: ops =>
      match taken o hist with
      | Some data => Some data
      | None => first_write ops (apply_op base64 o hist)
      end
  end.

(** A run that starts the stream has the data of its first write behind the header. *)
Lemma run_faithful ops hist :
  (started (fst (now hist)) = false → ∀ data, first_write ops hist = Some data → f = take (length data `min` FIRST_WRITE_LIMIT) data) →
  faithful hist →
  faithful (run base64 ops hist) ∧
  started (fst (now (run base64 ops hist))) = started (fst (now hist)) || bool_decide (is_Some (first_write ops hist)).
Proof.
  revert hist. induction ops as [|o ops IH]; intros hist Hf Hh; simpl.
  { split; [done|]. by rewrite orb_false_r. }
  simpl in Hf. destruct (apply_op_faithful o hist) as [Hh' Hst]; [|done|].
  { intros Hn data Ht. apply Hf; [done|by rewrite Ht]. }
  destruct (taken o hist) as [data|] eqn:Et.
  - rewrite (bool_decide_true (is_Some (Some data))), orb_true_r in Hst |- * by eauto.
    destruct (IH (apply_op base64 o hist)) as [H1 H2]; [by rewrite Hst|done|]. split; [done|].
    unfold run in *. rewrite H2, Hst. done.
  - rewrite (bool_decide_false (is_Some None)), orb_false_r in Hst by (intros [? [=]]).
    destruct (IH (apply_op base64 o hist)) as [H1 H2]; [by rewrite Hst|done|]. split; [done|].
    unfold run in *. by rewrite H2, Hst.
Qed.

End Histories.

Lemma new_faithful base64 h p f s v : new h p = Ok s → wire v = [] → received v = [] →
  faithful base64 h p f (mkHistory (s, v) [] []) ∧ started s = false.
Proof.
  unfold new. destruct (validate_host h) as [[]|]; [|done]. destruct (p =? 0); [done|]. intros [= <-] Hw Hr.
  split; [|done]. split; split; simpl; try done. rewrite Hr. split_and!; try done. intros _. split; [done|].
  pose proof header_limit_pos. lia.
Qed.

(** What a stream has sent after any run from its creation. *)
Lemma run_new base64 h p s v ops : new h p = Ok s → wire v = [] → received v = [] →
  let hist := run base64 ops (mkHistory (s, v) [] []) in
  (∃ f, faithful base64 h p f hist) ∧
  match first_write base64 ops (mkHistory (s, v) [] []) with
  | None => accepted hist = [] ∧ wire (snd (now hist)) = []
  | Some data => ∃ random, let first := take (length data `min` FIRST_WRITE_LIMIT) data in
      data ≠ [] ∧ first `prefix_of` accepted hist ∧
      wire (snd (now hist)) ++ queued (fst (now hist)) = request_header base64 h p random (len first) ++ accepted hist
  end.
Proof.
  intros Hn Hw Hr. cbv zeta. set (start := mkHistory (s, v) [] []).
  set (f := match first_write base64 ops start with Some data => take (length data `min` FIRST_WRITE_LIMIT) data | None => [] end).
  destruct (new_faithful base64 h p f s v Hn Hw Hr) as [Hf Hst].
  destruct (run_faithful base64 h p f ops start) as [Hf' Hst']; [|done|].
  { intros _ data Hd. subst f. by rewrite Hd. }
  split; [by exists f|]. destruct Hf' as [[_ _ _ Hb] _]. rewrite Hst' in Hb. simpl in Hb. rewrite Hst in Hb. simpl in Hb.
  subst f. destruct (first_write base64 ops start) as [data|] eqn:E.
  - rewrite bool_decide_true in Hb by eauto. destruct Hb as (rd & Hne & _ & Hpre & Hb). exists rd. split_and!; [|done|done].
    intros ->. by rewrite take_nil in Hne.
  - rewrite bool_decide_false in Hb by (intros [? [=]]). by destruct Hb as (_ & ? & ?).
Qed.

(** ** Progress *)

(** An inner stream that keeps accepting: it never fails and has as many non-empty writes
    ahead as bytes are queued. *)
Definition is_accept (a : WriteAnswer) : bool := match a with WAccept _ => true | _ => false end.

Definition accepting (st : State) : Prop :=
  failed (fst st) = false ∧ (written (fst st) ≤ length (pending (fst st)))%nat ∧
  Forall (λ a, match a with WPending => True | WAccept n => (0 < n)%nat | WError _ => False end) (writes (snd st)) ∧
  (length (queued (fst st)) ≤ length (List.filter is_accept (writes (snd st))))%nat.

Lemma drain_loop_progress fuel st : (length (writes (snd st)) < fuel)%nat → accepting st →
  ∃ st' r, drain_loop fuel st = Some (st', r) ∧
    ((r = Pending ∧ accepting st' ∧ (length (writes (snd st')) < length (writes (snd st)))%nat) ∨
     (r = Ready (Ok tt) ∧ accepting st' ∧ (length (writes (snd st')) ≤ length (writes (snd st)))%nat)).
Proof.
  revert st. induction fuel as [|fuel IH]; intros [s v] Hf (H1 & H2 & H3 & H4); simpl in *; [lia|].
  destruct (written s <? length (pending s))%nat eqn:El; [apply Nat.ltb_lt in El|].
  2: { exists (s, v), (Ready (Ok tt)). split; [done|]. right. done. }
  unfold queued in H4. rewrite length_drop in H4. unfold inner_write.
  destruct (writes v) as [|a ws] eqn:Ew; [simpl in *; lia|]. apply Forall_cons in H3 as [Ha H3].
  destruct a as [|n|e]; [| |done].
  - do 2 eexists. split; [done|]. left. split; [done|]. split; [|simpl; lia]. split_and!; try done. simpl in *.
    unfold queued. by rewrite length_drop.
  - simpl in H4. destruct (length (take n _)) as [|k] eqn:Ek; rewrite length_take, length_drop in Ek; [lia|].
    edestruct (IH (set_pending s (started s) (pending s) (written s + S k) (deadline s),
      mkInner ws (flushes v) (shutdowns v) (reads v) (timer v) (random v) (wire v ++ take n (drop (written s) (pending s))) (received v)))
      as (st' & r & He & Hr); [simpl in *; lia| |].
    { split_and!; simpl; try done; [lia|]. unfold queued. simpl. rewrite length_drop. lia. }
    exists st', r. split; [exact He|]. simpl in Hr |- *. destruct Hr as [(-> & ? & ?)|(-> & ? & ?)]; [left|right]; split_and!; auto with lia.
Qed.

Lemma drain_progress st : accepting st →
  ∃ st' r, drain st = (st', r) ∧ drains st st' ∧ accepting st' ∧
    ((r = Pending ∧ (length (writes (snd st')) < length (writes (snd st)))%nat) ∨
     (r = Ready (Ok tt) ∧ pending (fst st') = [] ∧ (length (writes (snd st')) ≤ length (writes (snd st)))%nat)).
Proof.
  intros Ha. pose proof Ha as (H1 & H2 & H3 & H4). destruct (queue_drain_spec st H2) as (st' & r & He & Hd & Hr).
  exists st', r. split; [done|]. split; [done|]. unfold drain in He. rewrite H1 in He.
  destruct (drain_loop_progress (S (length (writes (snd st)))) st) as (st1 & r1 & E & Hcase); [lia|done|]. rewrite E in He.
  destruct Hcase as [(-> & Ha' & Hl)|(-> & (A1 & A2 & A3 & A4) & Hl)].
  - destruct st1 as [s1 v1]. injection He as <- <-. split; [done|]. left. done.
  - destruct st1 as [s1 v1]. injection He as <- <-. destruct (Hr eq_refl) as (Hp & Hw & Hf). simpl in *.
    split; [|right; done]. split_and!; simpl; [done|rewrite Hw; lia|done|]. unfold queued. rewrite Hp, drop_nil. simpl. lia.
Qed.

(** An accepting stream whose flush will be ready. *)
Definition flushing (st : State) : Prop :=
  accepting st ∧ ∃ j fs, flushes (snd st) = replicate j UPending ++ UReady :: fs.

Lemma poll_flush_progress st : flushing st →
  ∃ st' r, poll_flush st = (st', r) ∧ wire (snd st') ++ queued (fst st') = wire (snd st) ++ queued (fst st) ∧
    ((r = Pending ∧ flushing st' ∧
      (length (writes (snd st')) + length (flushes (snd st')) < length (writes (snd st)) + length (flushes (snd st)))%nat) ∨
     (r = Ready (Ok tt) ∧ queued (fst st') = [])).
Proof.
  intros [Ha (j & fs & Hfl)]. destruct (drain_progress st Ha) as ([s v] & r & He & Hd & Ha' & Hcase).
  unfold poll_flush, bind. rewrite He. pose proof (dr_flushes _ _ Hd) as Hf. pose proof (dr_bytes _ _ Hd) as Hb. simpl in Hf, Hb.
  destruct Hcase as [[-> Hl]|(-> & Hp & Hl)].
  - do 2 eexists. split; [done|]. split; [done|]. left. simpl in *. rewrite Hf. split_and!; [done| |lia].
    split; [done|]. exists j, fs. simpl. congruence.
  - unfold inner_flush. rewrite Hf, Hfl. destruct j as [|j]; simpl.
    + do 2 eexists. split; [done|]. split; [done|]. right. split; [done|]. simpl in *. unfold queued. by rewrite Hp, drop_nil.
    + do 2 eexists. split; [done|]. split; [done|]. left. simpl in *. split_and!; [done| |lia].
      split; [by destruct Ha' as (? & ? & ? & ?)|]. by exists j, fs.
Qed.

(** Polling until the flush is done. *)
Lemma flush_until_progress n st : flushing st → (length (writes (snd st)) + length (flushes (snd st)) ≤ n)%nat →
  ∃ st', flush_until n st = (st', Ready (Ok tt)) ∧ wire (snd st') = wire (snd st) ++ queued (fst st).
Proof.
  revert st. induction n as [|n IH]; intros st Hfl Hn;
    destruct (poll_flush_progress st Hfl) as (st' & r & He & Hb & [(-> & Hfl' & Hlt)|(-> & Hq)]); simpl; rewrite He; [lia| | |].
  - exists st'. split; [done|]. by rewrite Hq, app_nil_r in Hb.
  - destruct (IH st' Hfl') as (st2 & H2 & Hw); [lia|]. exists st2. split; [done|]. by rewrite Hw.
  - exists st'. split; [done|]. by rewrite Hq, app_nil_r in Hb.
Qed.

(** A flush that succeeds has written the queue. *)
Lemma flushed_wire st st' : (written (fst st) ≤ length (pending (fst st)))%nat → poll_flush st = (st', Ready (Ok tt)) →
  wire (snd st') = wire (snd st) ++ queued (fst st).
Proof.
  intros Hw. unfold poll_flush, bind. destruct (queue_drain_spec st Hw) as ([s1 v1] & r & -> & Hd & Hok).
  destruct r as [|[[]|e]]; try done. destruct (Hok eq_refl) as (Hp & _ & _). pose proof (dr_bytes _ _ Hd) as Hb.
  unfold queued in Hb at 1. simpl in Hb, Hp. rewrite Hp, drop_nil, app_nil_r in Hb. rewrite <- Hb. unfold inner_flush.
  by destruct (flushes v1); intros ?; simplify_eq.
Qed.

(** ** Properties *)

(** C5: whatever the inner stream does and however operations are interleaved, both directions
    are faithful. Until a write has taken data nothing is on the wire. From then on what the
    stream puts on the wire is one HTTP request header followed by the data its writes
    accepted, in order, nothing lost or repeated; the header's Content-Length is the number of
    bytes the first of those writes took, which is all of its data up to 65536 bytes; what is
    not on the wire yet is held in the queue, and a flush that succeeds has emptied it. The
    reader gets nothing until a response header of at most 8192 bytes with an acceptable
    status is complete, then exactly the bytes behind it, once and in order. *)
Theorem obfs_stream_faithful base64 h p s v ops :
  new h p = Ok s → wire v = [] → received v = [] →
  let start := mkHistory (s, v) [] [] in
  let hist := run base64 ops start in
  let st := now hist in
  match first_write base64 ops start with
  | None => accepted hist = [] ∧ wire (snd st) = []
  | Some data =>
      ∃ random, let first := take (length data `min` FIRST_WRITE_LIMIT) data in
      let sent := request_header base64 h p random (len first) ++ accepted hist in
      data ≠ [] ∧ first `prefix_of` accepted hist ∧
      wire (snd st) ++ queued (fst st) = sent ∧
      ∀ st', poll_flush st = (st', Ready (Ok tt)) → wire (snd st') = sent
  end ∧
  ((upgraded (fst st) = false ∧ output hist = []) ∨
   ∃ hd, upgrade_header hd ∧ received (snd st) = hd ++ output hist ++ drop (tail (fst st)) (response (fst st))).
Proof.
  intros Hn Hw Hr. cbv zeta. destruct (run_new base64 h p s v ops Hn Hw Hr) as [[f [Hs Hg]] Hsent]. split.
  - destruct (first_write _ _ _) as [data|]; [|done]. destruct Hsent as (rd & H1 & H2 & Hb). exists rd. split_and!; try done.
    intros st' Hfl'. rewrite <- Hb. apply flushed_wire; [apply Hs|done].
  - destruct Hg as [_ Hg]. destruct (upgraded _); [by right|left]. by destruct Hg as [-> _].
Qed.

(** C6: progress: as long as the inner stream keeps accepting writes and its flush becomes
    ready, polling the flush at most once per answer of the inner stream completes it, with
    the request header and every byte accepted so far on the wire. *)
Theorem obfs_flush_completes base64 h p s v ops :
  new h p = Ok s → wire v = [] → received v = [] →
  let hist := run base64 ops (mkHistory (s, v) [] []) in
  let st := now hist in
  flushing st → accepted hist ≠ [] →
  ∃ st' random (first : str), flush_until (length (writes (snd st)) + length (flushes (snd st))) st = (st', Ready (Ok tt)) ∧
    first `prefix_of` accepted hist ∧
    wire (snd st') = request_header base64 h p random (len first) ++ accepted hist.
Proof.
  intros Hn Hw Hr. cbv zeta. intros Hfl Hne.
  destruct (run_new base64 h p s v ops Hn Hw Hr) as [_ Hsent].
  destruct (flush_until_progress _ _ Hfl (le_n _)) as (st' & He & Hst). destruct (first_write _ _ _) as [data|]; [|by destruct Hsent].
  destruct Hsent as (rd & _ & Hpre & Hb). do 3 eexists. split; [done|]. split; [done|]. by rewrite Hst, Hb.
Qed.

(** ** Witnesses *)

Definition demo_response : str := lit "HTTP/1.1 101 Switching Protocols" ++ CRLF ++ lit "Server: nginx" ++ CRLF ++ CRLF.

Definition demo_inner : Inner := mkInner
  ([WPending; WAccept 7; WPending] ++ replicate 400 (WAccept 1)) [UPending; UPending; UReady] []
  [RData (take 20 demo_response); RPending; RData (drop 20 demo_response ++ lit "wor"); RData (lit "ld")]
  [] [Some (replicate 18 65)] [] [].

Definition demo_stream : HttpObfsStream := mkStream (lit "bing.com") 80 false [] 0 [] 0 false false false.

Definition demo_ops : list Op := [OpWrite (lit "hello"); OpFlush].

Definition demo_hist : History := run (λ s, s) demo_ops (mkHistory (demo_stream, demo_inner) [] []).

Lemma demo_new : new (lit "bing.com") 80 = Ok demo_stream.
Proof. vm_compute. reflexivity. Qed.

Lemma demo_accepted : accepted demo_hist = lit "hello".
Proof. vm_compute. reflexivity. Qed.

Definition demo_reads : list Op := [OpWrite (lit "hello"); OpFlush; OpFlush; OpFlush] ++ [OpRead 100; OpRead 2; OpRead 10; OpRead 10].

Definition demo_start : History := mkHistory (demo_stream, demo_inner) [] [].

Lemma demo_both_data : accepted (run (λ s, s) demo_reads demo_start) = lit "hello" ∧
  output (run (λ s, s) demo_reads demo_start) = lit "world".
Proof. vm_compute. done. Qed.

Lemma demo_first : first_write (λ s, s) demo_reads demo_start = Some (lit "hello").
Proof. vm_compute. reflexivity. Qed.

(** A stream that writes and then reads a response that arrives in pieces. *)
Lemma obfs_stream_faithful_witness :
  let hist := run (λ s, s) demo_reads demo_start in
  ∃ random (hd : str), upgrade_header hd ∧
  wire (snd (now hist)) ++ queued (fst (now hist)) =
    request_header (λ s, s) (lit "bing.com") 80 random 5 ++ lit "hello" ∧
  hd ++ lit "world" `prefix_of` received (snd (now hist)).
Proof.
  pose proof (obfs_stream_faithful (λ s, s) (lit "bing.com") 80 demo_stream demo_inner demo_reads demo_new eq_refl eq_refl) as H.
  fold demo_start in H. pose proof demo_both_data as [Hacc Hout]. cbv zeta in *. rewrite demo_first in H. revert H Hacc Hout.
  generalize (run (λ s, s) demo_reads demo_start). intros hist [(rd & _ & _ & Hw & _) Hr] Hacc Hout.
  rewrite Hacc in Hw. rewrite Hout in Hr.
  destruct Hr as [[_ Ho]|(hd & Hh & Hr)]; [discriminate Ho|].
  exists rd, hd. split; [exact Hh|]. split; [exact Hw|]. rewrite Hr. exists (drop (tail (fst (now hist))) (response (fst (now hist)))).
  by rewrite <- app_assoc.
Defined.

Lemma demo_flushing : flushing (now demo_hist).
Proof.
  split; [|exists 2%nat, []; vm_compute; reflexivity].
  split; [vm_compute; reflexivity|]. split; [apply Nat.leb_le; vm_compute; reflexivity|].
  split; [|apply Nat.leb_le; vm_compute; reflexivity].
  assert (writes (snd (now demo_hist)) = WAccept 7 :: WPending :: replicate 400 (WAccept 1)) as -> by (vm_compute; reflexivity).
  constructor; [lia|]. constructor; [done|]. apply Forall_replicate. lia.
Qed.

Lemma obfs_flush_completes_witness : ∃ st' random (first : str),
  flush_until 405 (now demo_hist) = (st', Ready (Ok tt)) ∧
  wire (snd st') = request_header (λ s, s) (lit "bing.com") 80 random (len first) ++ lit "hello".
Proof.
  destruct (obfs_flush_completes (λ s, s) (lit "bing.com") 80 demo_stream demo_inner demo_ops demo_new eq_refl eq_refl demo_flushing)
    as (st' & rd & f & He & _ & Hw).
  - pose proof demo_accepted as H. unfold demo_hist in H. rewrite H. discriminate.
  - exists st', rd, f. rewrite <- demo_accepted. split; [exact He|exact Hw].
Defined.

End ObfsFacts.
