(* ===== verification/Api.v ===== *)
(** * The controller API (src/src/api.rs)

    One request per connection: its header and body are read within limits, the request is
    authenticated and routed, and one bounded response is written. A socket is the pieces in
    which the client's bytes arrive and how it ends; JSON and httparse are parameters, and so
    is the daemon behind a managed instance, through the interface [Managed]. *)
From S2P Require Import Prelude Utf8 Net Target BTree Json Rules Groups Proxy Config Connection Probes Http HttpBody Bundle.

Module Api.
Import Registry.

Definition HEADER_LIMIT : nat := Z.to_nat (16 * 1024).
(** The size of the buffer each read of the header uses. *)
Definition CHUNK : nat := Z.to_nat 4096.
Definition BODY_LIMIT : Z := 64 * 1024.
Definition RESPONSE_LIMIT : Z := 4 * 1024 * 1024.
Definition INSTANCE_HEADER : string := "x-zc-instance-nonce".
Definition VERSION : string := "1.1.0-rc1".

Record Request := mkRequest {
  method : str;
  path : str;
  authorization : option str;
  instance : option str;
  body : str;
}.

Record HttpError := mkHttpError { code : Z; reason : string }.

Definition BAD : HttpError := mkHttpError 400 "Bad Request".
Definition TOO_LARGE : HttpError := mkHttpError 413 "Payload Too Large".

Definition from_probe_error (e : Probes.ProbeError) : HttpError :=
  match e with
  | Probes.Invalid => BAD
  | Probes.Instance => mkHttpError 409 "Connection instance changed"
  | Probes.Missing => mkHttpError 404 "Probe not found"
  | Probes.Consumed => mkHttpError 409 "Probe already claimed"
  | Probes.TargetMismatch => mkHttpError 409 "Probe target mismatch"
  | Probes.Quota => mkHttpError 429 "Probe quota exceeded"
  | Probes.Unavailable => mkHttpError 500 "Probe unavailable"
  | Probes.ResponseTooLarge => mkHttpError 500 "Response Too Large"
  end.

(** ** Reading a request *)

(** How the client's bytes end: closed, with an error, or not before the timeout. *)
Inductive End := Closed | Broken | Stalled.

Record Socket := mkSocket { pieces : list str; ending : End }.

(** Why there is no request: refused, the timeout, or (never) out of fuel. *)
Inductive Stop := Refused (e : HttpError) | TimedOut | OutOfFuel.

Abbreviation RM := (SE Socket Stop).

(** A read into a buffer of [n] bytes. *)
Definition read (n : nat) : RM str := λ k,
  match pieces k with
  | [] => (k, match ending k with Closed => Ok [] | Broken => Err (Refused BAD) | Stalled => Err TimedOut end)
  | c :: cs => (mkSocket (HttpBody.consume n c cs) (ending k), Ok (take n c))
  end.

Definition read_exact (n : nat) : RM str := λ k,
  let '(b, cs) := HttpBody.take_bytes n (pieces k) in
  (mkSocket cs (ending k),
   if (length b =? n)%nat then Ok b
   else match ending k with Stalled => Err TimedOut | _ => Err (Refused BAD) end).

Definition header_end_mark : str := [13; 10; 13; 10].

(** The loop that reads up to the end of the header; every round reads a byte. *)
Fixpoint read_head (fuel : nat) (bytes : str) : RM (str * nat) :=
  match fuel with
  | O => serr OutOfFuel
  | S fuel =>
      match find_sub header_end_mark bytes with
      | Some e => if (HEADER_LIMIT <? e + 4)%nat then serr (Refused TOO_LARGE) else sret (bytes, (e + 4)%nat)
      | None =>
          if (HEADER_LIMIT <=? length bytes)%nat then serr (Refused TOO_LARGE)
          else
            do! chunk := read CHUNK in
            if bool_decide (chunk = []) then serr (Refused BAD) else read_head fuel (bytes ++ chunk)
      end
  end.

Definition head_fuel : nat := S (S HEADER_LIMIT).

(** The check of line breaks; [prev] is the byte before. The header ends in a line feed, so
    a carriage return is never its last byte. *)
Fixpoint breaks_ok (prev : option Z) (s : str) : bool :=
  match s with
  | [] => true
  | b :: s =>
      negb ((b =? 13) && negb (bool_decide (head s = Some 10)))
      && negb ((b =? 10) && negb (bool_decide (prev = Some 13)))
      && breaks_ok (Some b) s
  end.

Record Headers := mkHeaders { hd_length : option Z; hd_authorization : option str; hd_instance : option str }.

Definition content_length (seen : option Z) (value : str) : result HttpError Z :=
  if is_some seen || bool_decide (value = []) || negb (forallb is_ascii_digit value) then Err BAD
  else
    let! count := ok_or (parse_uint u64_max value) BAD in
    if BODY_LIMIT <? count then Err TOO_LARGE else Ok count.

(** One header of the loop. *)
Definition scan_header (s : Headers) (h : str * str) : result HttpError Headers :=
  let '(name, value) := h in
  let named n := eq_ignore_ascii_case name (lit n) in
  let! s := (if named INSTANCE_HEADER then
               if is_some (hd_instance s) then Err BAD
               else Ok (mkHeaders (hd_length s) (hd_authorization s) (Some value))
             else Ok s) in
  if named "transfer-encoding"%string then Err (mkHttpError 501 "Transfer Encoding Unsupported")
  else
    let! s := (if named "content-length"%string then
                 let! count := content_length (hd_length s) value in
                 Ok (mkHeaders (Some count) (hd_authorization s) (hd_instance s))
               else Ok s) in
    if named "authorization"%string then
      if is_some (hd_authorization s) then Err BAD
      else Ok (mkHeaders (hd_length s) (Some value) (hd_instance s))
    else Ok s.

Fixpoint scan_headers (s : Headers) (hs : list (str * str)) : result HttpError Headers :=
  match hs with
  | [] => Ok s
  | h :: hs => let! s := scan_header s h in scan_headers s hs
  end.

Section Parsing.
(** [httparse::Request::parse]: the bytes consumed and the fields; [None] is incomplete. *)
Context (parse_request : str → res (option (nat * Http.RawRequest))).

(** From the bytes of a header to its request line, headers and body length. *)
Definition check_head (header : str) : result HttpError (str * str * Headers) :=
  if negb (breaks_ok None header) then Err BAD
  else
    let! parsed := map_err (λ _, BAD) (parse_request header) in
    match parsed with
    | Some (n, r) =>
        if negb (n =? length header)%nat then Err BAD
        else
          let! method := ok_or (Http.rq_method r) BAD in
          let! path := ok_or (Http.rq_path r) BAD in
          if negb (starts_with (lit "/") path) || negb (is_some_and (Http.rq_version r) (λ v, (v =? 0) || (v =? 1)))
          then Err BAD
          else
            let! hd := scan_headers (mkHeaders None None None) (Http.rq_headers r) in
            if eq_str method (lit "PUT") && negb (is_some (hd_length hd)) then Err (mkHttpError 411 "Length Required")
            else Ok (method, path, hd)
    | None => Err BAD
    end.

Definition body_length (hd : Headers) : nat := Z.to_nat (default 0 (hd_length hd)).

Definition read_request : RM Request :=
  do! got := read_head head_fuel [] in
  let '(bytes, header_end) := got in
  match check_head (take header_end bytes) with
  | Err e => serr (Refused e)
  | Ok (method, path, hd) =>
      let total := (header_end + body_length hd)%nat in
      if (total <? length bytes)%nat then serr (Refused BAD)
      else
        do! rest := read_exact (total - length bytes) in
        sret (mkRequest method path (hd_authorization hd) (hd_instance hd) (drop header_end (bytes ++ rest)))
  end.

End Parsing.

(** ** Group names in paths *)

Fixpoint decode_bytes (s : str) : option str :=
  match s with
  | [] => Some []
  | b :: s' =>
      if b =? 37 then
        match s' with
        | x :: y :: s'' =>
            let? a := hex_value x in
            let? b := hex_value y in
            let? r := decode_bytes s'' in
            Some ((a * 16 + b) mod 256 :: r)
        | _ => None
        end
      else let? r := decode_bytes s' in Some (b :: r)
  end.

Definition decode_group (path : str) : option str :=
  let? s := decode_bytes path in if utf8_valid s then Some s else None.

(** The path segment [apply_selection] of daemon.rs sends. *)
Definition upper_hex (n : Z) : Z := if n <? 10 then 48 + n else 55 + n.

Definition encode_byte (b : Z) : str :=
  if is_ascii_alphanumeric b || contains_byte b (lit "-._~") then [b]
  else [37; upper_hex (b / 16); upper_hex (b mod 16)].

Definition encode_group (group : str) : str := mjoin (encode_byte <$> group).

(** ** Bounded responses *)

(** [BoundedResponse::write], and a writer of pieces on top of it. *)
Definition bounded_write (buffer bytes : str) : option str :=
  if Z.max 0 (RESPONSE_LIMIT - len buffer) <? len bytes then None else Some (buffer ++ bytes).

Fixpoint write_pieces (buffer : str) (ps : list str) : option str :=
  match ps with
  | [] => Some buffer
  | p :: ps => let? buffer := bounded_write buffer p in write_pieces buffer ps
  end.

(** serde_json: the pieces in which it writes a document, those in which the derived
    serializers write the view that reads back as a document, and its parsers. *)
Class ApiJson := {
  value_pieces : Value → list str;
  view_pieces : Value → list str;
  parse_value : str → option Value;
  parse_reservation : str → option (str * Z);
}.

(** ** What the API needs of a managed instance: the trait [Managed]

    The instance shares the configuration with the server. *)
Class Managed `{IpNetLib} (D : Type) := {
  managed_status : D * Config → (D * Config) * res Value;
  managed_select : str → str → Value → D * Config → (D * Config) * res bool;
}.

(** The server relies on the instance to change nothing of the configuration but the
    selections, and those within their groups. *)
Definition reselected `{IpNetLib} (c c' : Config) : Prop :=
  ∃ sel, c' = with_selections c sel ∧ (selections_wf (groups c) (selections c) → selections_wf (groups c) sel).

Class ManagedLaws `{IpNetLib} (D : Type) `{!Managed D} := {
  managed_status_keeps d c : reselected c (snd (fst (managed_status (d, c))));
  managed_select_keeps g p b d c : reselected c (snd (fst (managed_select g p b (d, c))));
}.

(** ** Routing *)

Section Routing.
Context `{IpNetLib, ApiJson} {D : Type} `{!Managed D} (nonce : str).

Record State := mkState {
  config : Config;
  managed : option D;
  transient : bmap unit;
  connections : Registry.State;
  tickets : Probes.Tickets;
}.

(** What a request finds: two readings of the clock and the random generator. *)
Record Env := mkEnv { now : Z; later : Z; random : option (list Z) }.

Definition with_tickets (s : State) (t : Probes.Tickets) : State :=
  mkState (config s) (managed s) (transient s) (connections s) t.

(** A handler's outcome; [None] is a panic. *)
Definition Handler : Type := State → option (State * result HttpError Value).

Definition refuse (e : HttpError) : Handler := λ s, Some (s, Err e).
Definition reply (v : Value) : Handler := λ s, Some (s, Ok v).

(** [selected]: every group in declaration order with its selection; [None] is an index out
    of range. *)
Definition selected_view (c : Config) (source : str → string) : option Value :=
  let? selections := selected c in
  let? entries := mapM (λ group,
    let? proxy := bget group selections in
    Some (object [(lit "group", VString group); (lit "proxy", VString proxy); (lit "source", text (source group))]))
    (group_names c) in
  Some (VArray entries).

(** [selected_json] *)
Definition selected_json (c : Config) (persisted : bmap unit) : option Value :=
  selected_view c (λ group, if bcontains group persisted then "persisted" else "default")%string.

(** A view written into a bounded response and read back. *)
Definition reread (too_large : HttpError) (v : Value) : result HttpError Value :=
  let! bytes := ok_or (write_pieces [] (view_pieces v)) too_large in
  ok_or (parse_value bytes) (mkHttpError 500 "Internal Server Error").

Definition put_probe (e : Env) (r : Request) : Handler := λ s,
  match parse_reservation (body r) with
  | None => refuse BAD s
  | Some (host, port) =>
      match target_new host port with
      | Err _ => refuse BAD s
      | Ok t =>
          let '(ts, out) := Probes.reserve_probe nonce (now e) (later e) (random e) t (tickets s) in
          Some (with_tickets s ts,
                match out with
                | Ok token => Ok (object [(lit "token", VString token)])
                | Err e => Err (from_probe_error e)
                end)
      end
  end.

(** The view of [write_probe]; [None] is an index out of range. *)
Definition probe_view (c : Config) (token : str) (t : Probes.Ticket) : option Value :=
  let claim := Probes.claim t in
  let route := claim ≫= Probes.claim_route in
  let? px := match route with Some (_, leaf) => let? v := proxy_view c leaf in Some (Some v) | None => Some None end in
  Some (object
    ([(lit "token", VString token);
      (lit "state", text (if is_some route then "routed" else if is_some claim then "claimed" else "reserved")%string);
      (lit "target", target_json (Probes.ticket_target t))]
     ++ opt "connection_id" (λ c, VString (Probes.claim_id c)) claim
     ++ opt "request_index" (λ c, number (Probes.request_index c)) claim
     ++ opt "proxy" proxy_view_json px)).

Definition get_probe (e : Env) (token : str) : Handler := λ s,
  let '(ts, out) := Probes.read_probe nonce (now e) token (tickets s) in
  match out with
  | Err e => Some (with_tickets s ts, Err (from_probe_error e))
  | Ok t =>
      let? v := probe_view (config s) token t in
      Some (with_tickets s ts, reread (from_probe_error Probes.ResponseTooLarge) v)
  end.

Definition delete_probe (e : Env) (token : str) : Handler := λ s,
  let '(ts, out) := Probes.release_probe nonce (now e) token (tickets s) in
  Some (with_tickets s ts,
        match out with
        | Ok _ => Ok (object [(lit "released", VBool true)])
        | Err e => Err (from_probe_error e)
        end).

Definition get_connections : Handler := λ s,
  let? v := write_list (config s) (connections s) in
  Some (s, reread (mkHttpError 500 "Response Too Large") v).

Definition delete_connection (i : str) : Handler := λ s,
  let '(reg, out) := close nonce i (connections s) in
  Some (mkState (config s) (managed s) (transient s) reg (tickets s),
        match out with
        | Ok _ => Ok (object [(lit "id", VString i); (lit "close_requested", VBool true); (lit "phase", text "closing")])
        | Err Invalid => Err BAD
        | Err Instance => Err (mkHttpError 409 "Connection instance changed")
        | Err Missing => Err (mkHttpError 404 "Connection not found")
        end).

Definition get_status : Handler := λ s,
  match managed s with
  | Some d =>
      let '((d, c), out) := managed_status (d, config s) in
      Some (mkState c (Some d) (transient s) (connections s) (tickets s),
            map_err (λ _, mkHttpError 409 "Runtime changed") out)
  | None =>
      let? v := selected_view (config s) (λ group, if bcontains group (transient s) then "transient" else "default")%string in
      Some (s, Ok (object [(lit "config_key", VNull); (lit "selected_proxies", v)]))
  end.

(** ** Selecting a proxy *)

(** The declaration of a group in the document. *)
Definition group_definition (c : Config) (group : str) : option Value :=
  List.find (λ entry, match index "name" entry with VString n => eq_str n group | _ => false end && is_some (get "proxies" entry))
    (mjoin (omap (λ k, get k (document c) ≫= as_array) ["proxy-groups"; "proxies"]%string)).

Definition has_member (definition : Value) (px : str) : bool :=
  is_some_and (as_array (index "proxies" definition)) (existsb (λ m, bool_decide (as_str m = Some px))).

Definition metadata_fields : list string := ["instance_nonce"; "identity_key"; "identity_revision"; "generation"].

Definition metadata_count (b : Value) : nat := length (List.filter (λ k, is_some (get k b)) metadata_fields).

Definition metadata_ok (b : Value) : bool :=
  let hex k := is_some_and (as_str (index k b)) Probes.hex32 in
  forallb (λ k, is_some (as_str (index k b))) (take 3 metadata_fields)
  && negb (default 0 (as_u64 (index "generation" b)) =? 0)
  && hex "instance_nonce"%string && hex "identity_revision"%string
  && is_some_and (as_str (index "identity_key" b)) Bundle.valid_key.

Definition select_live (group px : str) : Handler := λ s,
  match select (config s) group px with
  | (c, Ok _) =>
      Some (mkState c (managed s) (binsert group tt (transient s)) (connections s) (tickets s),
            Ok (object [(lit "ok", VBool true); (lit "group", VString group); (lit "proxy", VString px)]))
  | (_, Err _) => refuse (mkHttpError 404 "Proxy or group not found") s
  end.

Definition selection_changed : HttpError := mkHttpError 409 "Selection changed during apply".

Definition select_managed (group px : str) (b : Value) (d : D) : Handler := λ s,
  let '((d, c), out) := managed_select group px b (d, config s) in
  Some (mkState c (Some d) (transient s) (connections s) (tickets s),
        match out with
        | Ok true => Ok (object [(lit "ok", VBool true); (lit "group", VString group); (lit "proxy", VString px)])
        | _ => Err selection_changed
        end).

Definition put_proxy (name : str) (r : Request) : Handler := λ s,
  match decode_group name with
  | None => refuse BAD s
  | Some group =>
      match parse_value (body r) with
      | None => refuse BAD s
      | Some b =>
          match get "name" b ≫= as_str with
          | None => refuse (mkHttpError 400 "Missing name in body") s
          | Some px =>
              match group_definition (config s) group with
              | None => refuse (mkHttpError 404 "Group not found") s
              | Some definition =>
                  let count := metadata_count b in
                  if negb (has_member definition px) then refuse (mkHttpError 404 "Proxy not found in group") s
                  else if negb (count =? 0)%nat && (negb (count =? 4)%nat || negb (metadata_ok b))
                  then refuse (mkHttpError 400 "Invalid managed selection metadata") s
                  else
                    match managed s with
                    | Some d =>
                        if (count =? 0)%nat then refuse (mkHttpError 409 "Managed selection metadata required") s
                        else select_managed group px b d s
                    | None => if negb (count =? 0)%nat then refuse selection_changed s else select_live group px s
                    end
              end
          end
      end
  end.

(** ** The dispatcher *)

Definition connection_request (r : Request) : bool :=
  eq_str (path r) (lit "/connections") || starts_with (lit "/connections/") (path r).

Definition probe_request (r : Request) : bool :=
  eq_str (path r) (lit "/connections/probes") || starts_with (lit "/connections/probes/") (path r).

Definition bearer_ok (c : Config) (r : Request) : bool :=
  let a := default [] (authorization r) in
  negb ((len a <? 7) || negb (eq_ignore_ascii_case (take 7 a) (lit "Bearer ")) || negb (eq_str (drop 7 a) (secret c))).

(** The requests for which the secret is compared. *)
Definition needs_secret (c : Config) (r : Request) : bool :=
  controller_requires_auth c
  || ((eq_str (method r) (lit "PUT") || connection_request r) && negb (bool_decide (secret c = []))).

Definition is_method (r : Request) (m : string) : bool := eq_str (method r) (lit m).

(** The match on method and path. *)
Definition dispatch (e : Env) (r : Request) : Handler := λ s,
  let at_path p := eq_str (path r) (lit p) in
  let below p := strip_prefix (lit p) (path r) in
  if is_method r "PUT" && at_path "/connections/probes"%string then put_probe e r s
  else
    match is_method r "GET", is_method r "DELETE", below "/connections/probes/"%string with
    | true, _, Some token => get_probe e token s
    | _, true, Some token => delete_probe e token s
    | _, _, _ =>
        if probe_request r then refuse (mkHttpError 405 "Method Not Allowed") s
        else if is_method r "GET" && at_path "/connections"%string then get_connections s
        else
          match is_method r "DELETE", below "/connections/"%string with
          | true, Some i => delete_connection i s
          | _, _ =>
              if is_method r "GET" && at_path "/"%string then
                reply (object [(lit "version", text VERSION); (lit "hello", text "zc")]) s
              else if is_method r "GET" && at_path "/version"%string then reply (object [(lit "version", text VERSION)]) s
              else if is_method r "GET" && at_path "/proxies"%string then reply (proxies_json (config s)) s
              else if is_method r "GET" && at_path "/rules"%string then let? v := rules_json (config s) in reply v s
              else if is_method r "GET" && at_path "/status"%string then get_status s
              else
                match is_method r "PUT", below "/proxies/"%string with
                | true, Some name => put_proxy name r s
                | _, _ =>
                    if is_method r "GET" || is_method r "PUT" then refuse (mkHttpError 404 "Not Found") s
                    else refuse (mkHttpError 405 "Method Not Allowed") s
                end
          end
    end.

(** [State::route]: the state afterwards, [authenticated_connection] and the result. *)
Definition route (e : Env) (r : Request) (s : State) : option (State * bool * result HttpError Value) :=
  let connection := connection_request r in
  if connection && bool_decide (secret (config s) = []) then Some (s, false, Err (mkHttpError 403 "Connection secret required"))
  else if needs_secret (config s) r && negb (bearer_ok (config s) r) then Some (s, false, Err (mkHttpError 401 "Unauthorized"))
  else if connection && is_some_and (instance r) (λ n, negb (eq_str n nonce))
  then Some (s, connection, Err (mkHttpError 409 "Connection instance changed"))
  else if probe_request r && negb (is_some (instance r)) then Some (s, connection, Err BAD)
  else let? '(s, out) := dispatch e r s in Some (s, connection, out).

(** ** Answering *)

Definition error_body (reason : string) : str := mjoin (value_pieces (object [(lit "error", text reason)])).

(** Status code, reason and body. *)
Definition response (out : result HttpError Value) : Z * string * str :=
  match out with
  | Ok v =>
      match write_pieces [] (value_pieces v) with
      | None => (500, "Response Too Large", error_body "Response Too Large")%string
      | Some bytes => (200, "OK"%string, bytes)
      end
  | Err e => (code e, reason e, error_body (reason e))
  end.

Definition CRLF : str := [13; 10].

Definition response_bytes (authenticated : bool) (out : result HttpError Value) : str :=
  let '(code, reason, body) := response out in
  lit "HTTP/1.1 " ++ print_dec code ++ lit " " ++ lit reason ++ CRLF
  ++ lit "Content-Type: application/json" ++ CRLF ++ lit "Connection: close" ++ CRLF
  ++ (if authenticated then lit "X-Zc-Instance-Nonce: " ++ nonce ++ CRLF else [])
  ++ lit "Content-Length: " ++ print_dec (len body) ++ CRLF ++ CRLF ++ body.

(** [serve]: the state afterwards and the bytes written. *)
Definition serve (parse_request : str → res (option (nat * Http.RawRequest))) (e : Env) (k : Socket) (s : State)
    : option (State * str) :=
  match snd (read_request parse_request k) with
  | Ok r => let? '(s, authenticated, out) := route e r s in Some (s, response_bytes authenticated out)
  | Err (Refused e) => Some (s, response_bytes false (Err e))
  | Err TimedOut => Some (s, response_bytes false (Err (mkHttpError 408 "Request Timeout")))
  | Err OutOfFuel => None
  end.

End Routing.

End Api.
