(* ===== verification/ApiFacts.v ===== *)
(** * The controller API: requests

    A request is read whole and no further in whatever pieces it arrives; without the secret
    nothing is learned or changed; routing never panics; the daemon's path names the group it
    means. *)
From S2P Require Import Prelude Utf8 Net Target BTree Json Rules Groups Proxy Config Connection Lifecycle Probes Http HttpBody Bundle Api.

Module ApiFacts.
Import Registry Api.
Import HttpBody(pieces_ok, take_bytes, take_bytes_spec, take_bytes_whole, consume, consume_join, consume_ok).

Lemma chunk_pos : (0 < CHUNK)%nat.
Proof. unfold CHUNK. lia. Qed.

#[local] Opaque HEADER_LIMIT CHUNK.

(** ** Reading the header *)

(** The bytes of a header: up to the first empty line, within the limit. *)
Definition header_of (h : str) : Prop :=
  find_sub header_end_mark h = Some (length h - 4)%nat ∧ (length h ≤ HEADER_LIMIT)%nat.

(** The input not read yet. *)
Definition unread (k : Socket) : str := mjoin (pieces k).

(** The outcome of reading up to the header's end. *)
Definition head_read (bytes : str) (k : Socket) (out : Socket * result Stop (str * nat)) : Prop :=
  pieces_ok (pieces (fst out)) ∧ ending (fst out) = ending k ∧
  match snd out with
  | Ok (bytes', e) =>
      bytes ++ unread k = bytes' ++ unread (fst out) ∧ (4 ≤ e ≤ HEADER_LIMIT)%nat ∧
      find_sub header_end_mark bytes' = Some (e - 4)%nat
  | Err stop => stop ≠ OutOfFuel ∧
      ∀ x, find_sub header_end_mark (bytes ++ unread k) = Some x → (HEADER_LIMIT < x + 4)%nat
  end.

Lemma mark_seen x s t : find_sub header_end_mark (s ++ t) = Some x → find_sub header_end_mark s = None →
  (length s < x + 4)%nat.
Proof.
  intros Hx Hs. destruct (decide (x + 4 ≤ length s)%nat) as [Hl|]; [|lia]. exfalso.
  apply find_sub_take in Hx. change (length header_end_mark) with 4%nat in Hx.
  rewrite take_app_le in Hx by done. apply (find_sub_app _ _ (drop (x + 4) s)) in Hx. rewrite take_drop in Hx. congruence.
Qed.

Lemma read_head_spec fuel bytes k : pieces_ok (pieces k) → (HEADER_LIMIT < fuel + length bytes)%nat → (0 < fuel)%nat →
  head_read bytes k (read_head fuel bytes k).
Proof.
  revert bytes k. induction fuel as [|fuel IH]; intros bytes k Hp Hf H0; [lia|]. cbn [read_head].
  destruct (find_sub header_end_mark bytes) as [e|] eqn:Ee.
  - destruct (HEADER_LIMIT <? e + 4)%nat eqn:El.
    + apply Nat.ltb_lt in El. split_and!; try done. simpl. split; [done|]. intros x Hx.
      rewrite (find_sub_app _ _ _ _ Ee) in Hx. congruence.
    + apply Nat.ltb_ge in El. split_and!; try done. simpl. split; [done|]. split; [lia|]. rewrite Ee. f_equal. lia.
  - destruct (HEADER_LIMIT <=? length bytes)%nat eqn:El.
    + apply Nat.leb_le in El. split_and!; try done. simpl. split; [done|]. intros x Hx.
      pose proof (mark_seen _ _ _ Hx Ee). lia.
    + apply Nat.leb_gt in El. unfold sbind, read, head_read, unread. destruct k as [[|c cs] en]; simpl.
      * rewrite app_nil_r. split_and!; destruct en; simpl; try done; (split; [done|]); congruence.
      * inversion Hp as [|? ? Hc Hcs]; subst. pose proof chunk_pos as HC.
        assert (length (take CHUNK c) ≠ 0%nat) as Hl. { rewrite length_take. destruct c; [done|]. simpl. lia. }
        rewrite bool_decide_eq_false_2 by (by intros H; rewrite H in Hl).
        set (k' := mkSocket (consume CHUNK c cs) en).
        destruct (IH (bytes ++ take CHUNK c) k') as (Hp' & He' & Hr).
        -- by apply consume_ok.
        -- rewrite length_app. lia.
        -- lia.
        -- split; [done|]. split; [done|]. unfold unread in Hr. subst k'. simpl in Hr.
           by rewrite <- app_assoc, consume_join in Hr.
Qed.

Lemma read_head_start k : pieces_ok (pieces k) → head_read [] k (read_head head_fuel [] k).
Proof. intros Hp. apply read_head_spec; [done|unfold head_fuel; simpl; lia|unfold head_fuel; lia]. Qed.

#[local] Opaque head_fuel.

Lemma header_of_take bytes e : (4 ≤ e ≤ HEADER_LIMIT)%nat → find_sub header_end_mark bytes = Some (e - 4)%nat →
  header_of (take e bytes) ∧ (e ≤ length bytes)%nat.
Proof.
  intros He Hf. pose proof (find_sub_length _ _ _ Hf) as Hl. pose proof (find_sub_take _ _ _ Hf) as Ht.
  change (length header_end_mark) with 4%nat in *. replace (e - 4 + 4)%nat with e in * by lia.
  split; [|done]. unfold header_of. rewrite Ht, length_take. split; [f_equal; lia|lia].
Qed.

(** ** Reading the body *)

Section Reading.
Context (parse_request : str → res (option (nat * Http.RawRequest))).

(** The request a header and a body are. *)
Definition request_of (h b : str) (r : Request) : Prop :=
  ∃ hd, check_head parse_request h = Ok (method r, path r, hd) ∧ authorization r = hd_authorization hd ∧
    instance r = hd_instance hd ∧ body r = b ∧ length b = body_length hd.

Lemma read_request_sound k k' r : pieces_ok (pieces k) → read_request parse_request k = (k', Ok r) →
  ∃ h b, header_of h ∧ request_of h b r ∧ unread k = h ++ b ++ unread k'.
Proof.
  intros Hp. unfold read_request, sbind at 1.
  destruct (read_head_start k Hp) as (Hp1 & He1 & Hr).
  destruct (read_head _ _ _) as [k1 [[bytes e]|stop]]; [|done]. simpl in *. destruct Hr as (Hb & He & Hf).
  destruct (header_of_take bytes e He Hf) as [Hh Hel].
  destruct (check_head _ _) as [[[m p] hd]|] eqn:Ec; [|done].
  destruct (_ <? _)%nat eqn:Et; [done|]. apply Nat.ltb_ge in Et. unfold sbind, read_exact, unread in *.
  set (n := (e + body_length hd - length bytes)%nat).
  destruct (take_bytes_spec n (pieces k1) Hp1) as (Hj & _ & _). destruct (take_bytes n (pieces k1)) as [rest cs].
  simpl in *. destruct (_ =? _)%nat eqn:En; [|by destruct (ending k1)]. apply Nat.eqb_eq in En. intros [= <- <-].
  exists (take e bytes), (drop e (bytes ++ rest)). split; [done|]. split.
  - exists hd. simpl. split_and!; try done. rewrite length_drop, length_app. lia.
  - simpl. rewrite Hb, Hj, drop_app_le by done. by rewrite !app_assoc, take_drop.
Qed.

Lemma read_request_complete k h b r : pieces_ok (pieces k) → header_of h → request_of h b r → unread k = h ++ b →
  ∃ k', read_request parse_request k = (k', Ok r) ∧ unread k' = [].
Proof.
  intros Hp [Hh Hl] (hd & Hc & Ha & Hi & Hbody & Hlen) Hu. unfold read_request, sbind at 1.
  destruct (read_head_start k Hp) as (Hp1 & _ & Hr). simpl in Hr.
  pose proof (find_sub_app _ _ b _ Hh) as Hx. rewrite <- Hu in Hx.
  pose proof (find_sub_length _ _ _ Hh) as H4. change (length header_end_mark) with 4%nat in H4.
  destruct (read_head _ _ _) as [k1 [[bytes e]|stop]]; simpl in *; [|destruct Hr as [_ Hr]; specialize (Hr _ Hx); lia].
  destruct Hr as (Hb & He & Hf). pose proof (find_sub_app _ _ (unread k1) _ Hf) as Hf'. rewrite <- Hb in Hf'.
  destruct (header_of_take bytes e He Hf) as [_ Hel].
  assert (e = length h) as -> by (rewrite Hx in Hf'; injection Hf'; lia).
  assert (take (length h) bytes = h) as Ht.
  { rewrite <- (take_app_le bytes (unread k1)) by done. by rewrite <- Hb, Hu, take_app_length. }
  rewrite Ht, Hc. rewrite <- Hlen. set (rest := drop (length bytes - length h) b).
  assert (bytes = h ++ take (length bytes - length h) b ∧ unread k1 = rest) as [Hbytes Hrest].
  { rewrite Hu in Hb. assert (bytes = h ++ drop (length h) bytes) as Hd by (by rewrite <- Ht at 1; rewrite take_drop).
    rewrite Hd, <- app_assoc in Hb. apply app_inv_head in Hb. rewrite Hb at 1. rewrite <- length_drop.
    rewrite take_app_length. split; [done|]. subst rest. rewrite <- length_drop. rewrite Hb. by rewrite drop_app_length. }
  assert (length bytes ≤ length h + length b)%nat as Hlb.
  { rewrite Hbytes, length_app, length_take. lia. }
  rewrite (proj2 (Nat.ltb_ge _ _)) by done. unfold sbind, read_exact.
  assert ((length h + length b - length bytes)%nat = length rest) as -> by (subst rest; rewrite length_drop; lia).
  unfold unread in Hrest. rewrite (take_bytes_whole rest (pieces k1) []) by (done || by rewrite app_nil_r).
  assert (drop (length h) (bytes ++ rest) = b) as Hd.
  { rewrite Hbytes, <- app_assoc, drop_app_length. subst rest. by rewrite take_drop. }
  rewrite Nat.eqb_refl. eexists. split.
  - rewrite Hd. destruct r as [m p a i bd]. simpl in *. subst a i bd. done.
  - unfold unread. simpl. destruct (take_bytes_spec (length rest) (pieces k1) Hp1) as (Hj & _ & _).
    rewrite (take_bytes_whole rest (pieces k1) []) in Hj by (done || by rewrite app_nil_r). simpl in Hj. rewrite Hrest in Hj.
    rewrite <- (app_nil_r rest) in Hj at 1. by apply app_inv_head in Hj.
Qed.

Lemma read_request_fuel k : pieces_ok (pieces k) → snd (read_request parse_request k) ≠ Err OutOfFuel.
Proof.
  intros Hp. unfold read_request, sbind at 1.
  destruct (read_head_start k Hp) as (_ & _ & Hr).
  destruct (read_head _ _ _) as [k1 [[bytes e]|stop]]; simpl in *; [|intros [= ->]; by destruct Hr].
  destruct (check_head _ _) as [[[m p] hd]|]; [|done]. destruct (_ <? _)%nat; [done|]. unfold sbind, read_exact.
  destruct (take_bytes _ _) as [b cs]. destruct (_ =? _)%nat; [done|]. by destruct (ending k1).
Qed.

End Reading.

(** ** Paths *)

Lemma hex_value_upper d : 0 ≤ d < 16 → hex_value (upper_hex d) = Some d.
Proof.
  intros Hd. unfold upper_hex, hex_value, is_ascii_digit. destruct (d <? 10) eqn:E; destruct_bool.
  - rewrite (proj2 (Z.leb_le 48 _)), (proj2 (Z.leb_le _ 57)) by lia. simpl. f_equal. lia.
  - rewrite (proj2 (Z.leb_le 48 _)), (proj2 (Z.leb_gt _ 57)) by lia. simpl.
    rewrite (proj2 (Z.leb_gt 97 _)) by lia. simpl.
    rewrite (proj2 (Z.leb_le 65 _)), (proj2 (Z.leb_le _ 70)) by lia. simpl. f_equal. lia.
Qed.

Lemma decode_encode_byte b rest : is_byte b → decode_bytes (encode_byte b ++ rest) = (λ r, b :: r) <$> decode_bytes rest.
Proof.
  intros Hb. unfold encode_byte. destruct (_ || _) eqn:E.
  - assert ((b =? 37) = false) as Hn.
    { destruct (b =? 37) eqn:E'; [|done]. apply Z.eqb_eq in E' as ->. by vm_compute in E. }
    simpl. rewrite Hn. by destruct (decode_bytes rest).
  - unfold is_byte in Hb. simpl. rewrite !hex_value_upper by (pose proof (Z.div_mod b 16); pose proof (Z.mod_pos_bound b 16); lia).
    destruct (decode_bytes rest); [|done]. simpl. f_equal. f_equal.
    rewrite (Z.mod_small _ 256); pose proof (Z.div_mod b 16); pose proof (Z.mod_pos_bound b 16); lia.
Qed.

Lemma decode_encode_group g : Forall is_byte g → utf8_valid g = true → decode_group (encode_group g) = Some g.
Proof.
  intros Hb Hu. unfold decode_group. assert (decode_bytes (encode_group g) = Some g) as ->; [|by rewrite Hu].
  clear Hu. unfold encode_group. induction Hb as [|b g Hb _ IH]; [done|]. rewrite fmap_cons, mjoin_cons.
  rewrite decode_encode_byte by done. by rewrite IH.
Qed.

(** ** Handlers *)

Section Handlers.
Context `{IpNetLib, ApiJson} {D : Type} `{!Managed D, !ManagedLaws D} (ok : str → bool) (nonce : str).

(** A route that was recorded names a rule and a proxy of the configuration. *)
Definition recorded (c : Config) (r : option (nat * nat)) : Prop :=
  match r with Some r => Lifecycle.route_in_range c r | None => True end.

Record api_wf (s : State (D:=D)) : Prop := {
  aw_config : config_wf ok (config s);
  aw_connections : Forall (λ ke, recorded (config s) (Registry.route (snd ke))) (entries (connections s));
  aw_tickets : Forall (λ kt, recorded (config s) (Probes.claim (snd kt) ≫= Probes.claim_route)) (Probes.tickets (tickets s));
}.

(** A handler answers, keeps the state well formed, and when it refuses changes nothing but
    the tickets, in an instance that is not managed. *)
Definition answers (h : Handler (D:=D)) : Prop := ∀ s, api_wf s →
  ∃ s' out, h s = Some (s', out) ∧ api_wf s' ∧
    (managed s = None → ∀ e, out = Err e →
     config s' = config s ∧ transient s' = transient s ∧ connections s' = connections s).

Lemma answers_refuse e : answers (refuse e).
Proof. intros s Hs. by exists s, (Err e). Qed.

Lemma answers_reply v : answers (reply v).
Proof. intros s Hs. by exists s, (Ok v). Qed.

Lemma wf_tickets s ts : api_wf s →
  Forall (λ kt, recorded (config s) (Probes.claim (snd kt) ≫= Probes.claim_route)) (Probes.tickets ts) →
  api_wf (with_tickets s ts).
Proof. intros []. by split. Qed.

Lemma filter_Forall {A} (P : A → Prop) f l : Forall P l → Forall P (List.filter f l).
Proof. induction 1 as [|x l Hx _ IH]; simpl; [done|]. destruct (f x); auto. Qed.

Lemma binsert_Forall {A} (P : str * A → Prop) k a m : P (k, a) → Forall P m → Forall P (binsert k a m).
Proof.
  intros Hk. induction 1 as [|[k' a'] m Hx Hm IH]; simpl; [auto|]. destruct (eq_str k k'); [auto|]. destruct (str_ltb k k'); auto.
Qed.

Lemma expire_wf now s ts : api_wf s → ts = Probes.expire now (tickets s) → api_wf (with_tickets s ts).
Proof. intros Hs ->. apply wf_tickets; [done|]. simpl. apply filter_Forall, Hs. Qed.

Lemma put_probe_answers e r : answers (put_probe nonce e r).
Proof.
  intros s Hs. unfold put_probe. destruct (parse_reservation (body r)) as [[host port]|]; [|by apply answers_refuse].
  destruct (target_new host port) as [t|]; [|by apply answers_refuse].
  unfold Probes.reserve_probe.
  assert (api_wf (with_tickets s (Probes.expire (now e) (tickets s)))) as He by (by eapply expire_wf).
  destruct (Probes.normalized t) as [t'|]; [|by do 2 eexists]. destruct (_ <=? _); [by do 2 eexists|].
  destruct (_ <? _); [by do 2 eexists|]. destruct (random e) as [rd|]; [|by do 2 eexists].
  do 2 eexists. split; [done|]. split; [|done]. apply wf_tickets; [done|]. apply binsert_Forall; [done|].
  apply (aw_tickets _ He).
Qed.

Lemma delete_probe_answers e token : answers (delete_probe nonce e token).
Proof.
  intros s Hs. unfold delete_probe, Probes.release_probe.
  assert (api_wf (with_tickets s (Probes.expire (now e) (tickets s)))) as He by (by eapply expire_wf).
  destruct (Probes.validate_probe_token nonce token) as [[]|]; [|by do 2 eexists].
  destruct (bget token _); [|by do 2 eexists]. do 2 eexists. split; [done|]. split; [|done].
  apply wf_tickets; [done|]. apply filter_Forall, (aw_tickets _ He).
Qed.

Lemma proxy_view_total c (r : nat * nat) : Lifecycle.route_in_range c r → is_Some (proxy_view c (snd r)).
Proof. intros [_ Hl]. unfold proxy_view. destruct (lookup_lt_is_Some_2 _ _ Hl) as [p ->]. by eexists. Qed.

Lemma get_probe_answers e token : answers (get_probe nonce e token).
Proof.
  intros s Hs. unfold get_probe, Probes.read_probe.
  assert (api_wf (with_tickets s (Probes.expire (now e) (tickets s)))) as He by (by eapply expire_wf).
  destruct (Probes.validate_probe_token nonce token) as [[]|]; [|by do 2 eexists].
  destruct (bget token _) as [t|] eqn:Et; [|by do 2 eexists]. cbn [ok_or].
  assert (is_Some (probe_view (config s) token t)) as [v ->]; [|by do 2 eexists].
  apply bget_elem in Et. pose proof (aw_tickets _ He) as Ht. rewrite Forall_forall in Ht. specialize (Ht _ Et). simpl in Ht.
  unfold probe_view. destruct (Probes.claim t ≫= Probes.claim_route) as [[r leaf]|]; [|by eexists].
  destruct (proxy_view_total _ _ Ht) as [pv Hv]. simpl in Hv. rewrite Hv. by eexists.
Qed.

Lemma get_connections_answers : answers get_connections.
Proof.
  intros s Hs. unfold get_connections, write_list.
  assert (is_Some (mapM (λ ke, entry_json (config s) (snd ke)) (entries (connections s)))) as [vs ->]; [|by do 2 eexists].
  apply mapM_is_Some_2. eapply Forall_impl; [apply (aw_connections _ Hs)|]. intros [k en] Hr. unfold entry_json. simpl in *.
  destruct (Registry.route en) as [[r leaf]|]; [|by eexists].
  destruct (Lifecycle.views_in_range ok _ (aw_config _ Hs) _ Hr) as (rv & pv & H1 & H2 & _). simpl in *. rewrite H1, H2. by eexists.
Qed.

Lemma delete_connection_answers i : answers (delete_connection nonce i).
Proof.
  intros s Hs. unfold delete_connection, close. destruct s as [c m t reg ts]. cbn [connections config managed transient tickets].
  destruct (split_id i) as [[n seq]|]; [|by do 2 eexists]. destruct (negb _); [by do 2 eexists|].
  destruct (negb _); [by do 2 eexists|]. do 2 eexists. split; [done|]. split; [|done]. destruct Hs as [H1 H2 H3]. simpl in *.
  split; simpl; [done| |done]. unfold update_entry. apply Forall_fmap. eapply Forall_impl; [exact H2|].
  intros [k en] Hr. simpl in *. by destruct (_ =? _).
Qed.

Lemma reselected_wf s c m t : api_wf s → reselected (config s) c → api_wf (mkState c m t (connections s) (tickets s)).
Proof.
  intros [H1 H2 H3] (sel & -> & Hsel). split; simpl; [|done|done].
  apply with_selections_wf; [done|]. apply Hsel, H1.
Qed.

Lemma selected_view_total c source : config_wf ok c → is_Some (selected_view c source).
Proof.
  intros Hc. unfold selected_view. destruct (selected_total ok c Hc) as (m & -> & _ & _ & Hget & _).
  match goal with |- context [mapM ?f (group_names c)] => assert (is_Some (mapM f (group_names c))) as [vs ->] end; [|by eexists].
  apply mapM_is_Some_2, Forall_lookup. intros i name Hn. unfold group_names in Hn. rewrite list_lookup_fmap in Hn.
  destruct (groups c !! i) as [g|] eqn:Eg; [|done]. injection Hn as <-. unfold compose.
  destruct (selections c !! i) as [sel|] eqn:Es.
  - destruct (Hget i g sel Eg Es) as (n & px & _ & _ & ->). by eexists.
  - apply lookup_lt_Some in Eg. apply lookup_ge_None in Es. pose proof (Forall2_length _ _ _ (wf_selections _ _ Hc)). lia.
Qed.

Lemma get_status_answers : answers get_status.
Proof.
  intros s Hs. unfold get_status. destruct (managed s) as [d|] eqn:Em.
  - pose proof (managed_status_keeps d (config s)) as Hk. destruct (managed_status _) as [[d' c] out]. simpl in Hk.
    do 2 eexists. split; [done|]. split; [by apply reselected_wf|done].
  - match goal with |- context [selected_view ?c ?f] => destruct (selected_view_total c f (aw_config _ Hs)) as [v ->] end.
    do 2 eexists. split; [done|]. split; [done|done].
Qed.

Lemma rules_json_total c : config_wf ok c → is_Some (rules_json c).
Proof.
  intros Hc. unfold rules_json. assert (is_Some (mapM (rule_json c) (rules c))) as [vs ->]; [|by eexists].
  apply mapM_is_Some_2. eapply Forall_impl; [apply (wf_rules _ _ Hc)|]. intros r [_ Hr]. unfold compose, rule_json.
  destruct (node_name_total c _ Hr) as [n ->]. by eexists.
Qed.

Lemma put_proxy_answers name r : answers (put_proxy name r).
Proof.
  intros s Hs. unfold put_proxy. destruct (decode_group name) as [group|]; [|by apply answers_refuse].
  destruct (parse_value (body r)) as [b|]; [|by apply answers_refuse].
  destruct (get "name" b ≫= as_str) as [px|]; [|by apply answers_refuse].
  destruct (group_definition (config s) group) as [def|]; [|by apply answers_refuse].
  destruct (negb (has_member def px)); [by apply answers_refuse|]. destruct (negb _ && _); [by apply answers_refuse|].
  destruct (managed s) as [d|] eqn:Em; (destruct (negb _) || destruct (_ =? _)%nat); try (do 2 eexists; split; [reflexivity|]; done).
  - unfold select_managed. pose proof (managed_select_keeps group px b d (config s)) as Hk.
    destruct (managed_select _ _ _ _) as [[d' c] out]. simpl in Hk. do 2 eexists. split; [done|].
    split; [by apply reselected_wf|done].
  - unfold select_live. destruct (select_spec ok (config s) group px (aw_config _ Hs)) as [[e ->]|(i & m & g & n & -> & Hwf & _)].
    + do 2 eexists. split; [reflexivity|]. done.
    + do 2 eexists. split; [done|]. split; [|done]. destruct Hs as [H1 H2 H3]. by split.
Qed.

Lemma dispatch_answers e r : answers (dispatch nonce e r).
Proof.
  intros s Hs. unfold dispatch. destruct (rules_json_total _ (aw_config _ Hs)) as [rules ->].
  repeat match goal with
  | |- ∃ _ _, (if ?b then _ else _) = _ ∧ _ => destruct b
  | |- ∃ _ _, (match ?x with _ => _ end) = _ ∧ _ => destruct x
  end;
    first [by apply answers_refuse|by apply answers_reply|by apply put_probe_answers|by apply get_probe_answers
          |by apply delete_probe_answers|by apply get_connections_answers|by apply delete_connection_answers
          |by apply get_status_answers|by apply put_proxy_answers].
Qed.

Lemma route_answers e r s : api_wf s →
  ∃ s' a out, Api.route nonce e r s = Some (s', a, out) ∧ api_wf s' ∧
    (managed s = None → ∀ err, out = Err err →
     config s' = config s ∧ transient s' = transient s ∧ connections s' = connections s).
Proof.
  intros Hs. unfold Api.route. destruct (_ && bool_decide _); [by do 3 eexists|]. destruct (_ && negb _); [by do 3 eexists|].
  destruct (_ && is_some_and _ _); [by do 3 eexists|]. destruct (_ && negb _); [by do 3 eexists|].
  destruct (dispatch_answers e r s Hs) as (s' & out & -> & Hwf & Herr). by do 3 eexists.
Qed.

End Handlers.

(** ** Selections *)

(** Selecting a member of one group changes what that group shows and no other. *)
Lemma selected_insert `{IpNetLib} ok c i g m n px : config_wf ok c →
  config_wf ok (with_selections c (<[i := m]> (selections c))) →
  groups c !! i = Some g → members g !! m = Some n → node_name c n = Some px →
  ∃ before after, selected c = Some before ∧ selected (with_selections c (<[i := m]> (selections c))) = Some after ∧
    ∀ name, bget name after = if decide (name = g_name g) then Some px else bget name before.
Proof.
  intros Hc Hc' Hg Hm Hn. destruct (selected_total ok _ Hc) as (m0 & H0 & _ & _ & Hget0 & Hall0).
  destruct (selected_total ok _ Hc') as (m1 & H1 & _ & _ & Hget1 & Hall1). exists m0, m1. split; [done|]. split; [done|].
  cbn [groups selections with_selections] in Hget1, Hall1.
  pose proof (Forall2_length _ _ _ (wf_selections _ _ Hc)) as Hlen.
  assert (∀ j g', groups c !! j = Some g' → bget (g_name g') m1 = if decide (g_name g' = g_name g) then Some px else bget (g_name g') m0) as Hj.
  { intros j g' Hg'. pose proof (lookup_lt_Some _ _ _ Hg') as Hlt. case_decide as He.
    - assert (i = j) as <- by (by eapply (group_index c); [by eapply wf_group_names|done..]).
      assert (g' = g) as -> by congruence. destruct (Hget1 i g m Hg) as (n1 & nm & Hn1 & Hnm & ->); [by apply list_lookup_insert_eq; lia|].
      rewrite Hm in Hn1. injection Hn1 as <-. unfold node_name in *. simpl in *. congruence.
    - destruct (lookup_lt_is_Some_2 (selections c) j) as [sel Hsel]; [lia|].
      destruct (Hget0 j g' sel Hg' Hsel) as (n0 & nm0 & A0 & B0 & ->).
      destruct (Hget1 j g' sel Hg') as (n1 & nm1 & A1 & B1 & ->).
      { rewrite list_lookup_insert_ne; [done|]. intros ->. simplify_eq. }
      rewrite A0 in A1. injection A1 as <-. change (node_name (with_selections c _) n0) with (node_name c n0) in B1. congruence. }
  intros name. destruct (decide (name ∈ g_name <$> groups c)) as [Hin|Hno].
  { apply list_elem_of_fmap in Hin as (g' & -> & Hg'). apply list_elem_of_lookup in Hg' as [j Hg']. by apply (Hj j). }
  rewrite decide_False by (intros ->; apply Hno, list_elem_of_fmap; eexists; split; [done|]; by eapply list_elem_of_lookup_2).
  destruct (bget name m1) as [x|] eqn:E1; [|destruct (bget name m0) as [x|] eqn:E0; [|done]]; exfalso; apply Hno.
  - destruct (Hall1 _ _ (bget_elem _ _ _ E1)) as (j & g' & _ & _ & Hg' & <- & _).
    apply list_elem_of_fmap. eexists. split; [done|]. by eapply list_elem_of_lookup_2.
  - destruct (Hall0 _ _ (bget_elem _ _ _ E0)) as (j & g' & _ & _ & Hg' & <- & _).
    apply list_elem_of_fmap. eexists. split; [done|]. by eapply list_elem_of_lookup_2.
Qed.

(** ** Properties *)

Section Properties.
Context `{IpNetLib, ApiJson} {D : Type} `{!Managed D}.
Context (parse_request : str → res (option (nat * Http.RawRequest))).

(** What is protected: everything of an exposed controller, everything about connections,
    and changes where a secret is set. *)
Definition about_connections (r : Request) : Prop :=
  path r = lit "/connections" ∨ ∃ rest, path r = lit "/connections/" ++ rest.

Definition protected (c : Config) (r : Request) : Prop :=
  (∃ a, controller c = Some a ∧ is_unspecified (sa_ip a) = true) ∨ about_connections r ∨ (method r = lit "PUT" ∧ secret c ≠ []).

Lemma about_connections_request r : about_connections r → connection_request r = true.
Proof.
  unfold connection_request. intros [->|[rest ->]]; [done|]. by rewrite orb_true_r.
Qed.

(** The bytes of a refusal, which name nothing but its reason. *)
Definition refusal (code reason : string) : str :=
  let body := mjoin (value_pieces (VObject [(lit "error", VString (lit reason))])) in
  lit "HTTP/1.1 " ++ lit code ++ lit " " ++ lit reason ++ CRLF ++ lit "Content-Type: application/json" ++ CRLF
  ++ lit "Connection: close" ++ CRLF ++ lit "Content-Length: " ++ print_dec (len body) ++ CRLF ++ CRLF ++ body.

(** A request that carries the secret as a bearer token. *)
Definition presents (c : Config) (r : Request) : Prop :=
  secret c ≠ [] ∧ ∃ scheme, authorization r = Some (scheme ++ secret c) ∧ length scheme = 7%nat ∧
    eq_ignore_ascii_case scheme (lit "Bearer ") = true.

Lemma bearer_presents c r : secret c ≠ [] → bearer_ok c r = true → presents c r.
Proof.
  intros Hs Hb. unfold bearer_ok in Hb. apply negb_true_iff in Hb. destruct_bool.
  destruct (authorization r) as [a|] eqn:Ea; simpl in *; [|unfold len in *; simpl in *; lia].
  match goal with H : eq_str (drop 7 a) _ = true |- _ => apply eq_str_true in H; rename H into Hd end.
  split; [done|]. exists (take 7 a). rewrite <- Hd, take_drop. split; [done|]. split; [|done].
  rewrite length_take. unfold len in *. lia.
Qed.

Lemma presents_bearer c r : presents c r → bearer_ok c r = true.
Proof.
  intros (_ & scheme & Ha & Hl & Hs). unfold bearer_ok. rewrite Ha. simpl default. unfold len. rewrite length_app, Hl.
  rewrite (proj2 (Z.ltb_ge _ 7)) by lia. rewrite take_app_le, (take_ge scheme), Hs by lia.
  rewrite drop_app_ge, Hl, Nat.sub_diag by lia. by rewrite drop_0, eq_str_refl.
Qed.

(** A [PUT] of a selection gets to its handler. *)
Lemma route_put_proxy nonce e r (s : State (D:=D)) name : method r = lit "PUT" → path r = lit "/proxies/" ++ name →
  (needs_secret (config s) r = true → presents (config s) r) →
  Api.route nonce e r s = let? '(s, out) := put_proxy name r s in Some (s, false, out).
Proof.
  intros Hm Hpath Ha. unfold Api.route.
  assert (connection_request r = false ∧ probe_request r = false) as [-> ->]
    by (unfold connection_request, probe_request; by rewrite Hpath).
  assert (needs_secret (config s) r && negb (bearer_ok (config s) r) = false) as ->.
  { destruct (needs_secret (config s) r); [|done]. by rewrite presents_bearer by auto. }
  assert (dispatch nonce e r s = put_proxy name r s) as ->; [|done].
  unfold dispatch, is_method, probe_request. rewrite Hm, Hpath. rewrite strip_prefix_app.
  repeat match goal with
  | |- context [eq_str (lit ?a) (lit ?b)] =>
      let v := eval vm_compute in (eq_str (lit a) (lit b)) in change (eq_str (lit a) (lit b)) with v
  end.
  assert (eq_str (lit "/proxies/" ++ name) (lit "/connections/probes") = false) as -> by done.
  by destruct (put_proxy name r s).
Qed.

(** C16: without the secret nothing is learned and nothing is changed. A request to an exposed
    controller, about connections, or to change something where a secret is set, that does
    not carry the secret is refused: whatever the connections, tickets, instance nonce and
    managed state are, the answer is the bytes of [401 Unauthorized], or, when no secret is
    set, of [403 Connection secret required], whose body is that reason only; and the state
    stays as it is. *)
Theorem api_protects (c : Config) (r : Request) k nonce e (s : State (D:=D)) :
  validate_controller_auth c = Ok tt → protected c r → ¬ presents c r → snd (read_request parse_request k) = Ok r →
  config s = c →
  serve nonce parse_request e k s =
    Some (s, if bool_decide (secret c = []) then refusal "403" "Connection secret required" else refusal "401" "Unauthorized").
Proof.
  intros Hv [(a & Ha & Hu)|Hp] Hn Hk <-; unfold serve; rewrite Hk; unfold Api.route, needs_secret; unfold validate_controller_auth in Hv.
  { assert (controller_requires_auth (config s) = true) as E by (unfold controller_requires_auth; by rewrite Ha).
    rewrite E in *. simpl in Hv |- *. case_bool_decide as Hs; [done|]. rewrite andb_false_r.
    destruct (bearer_ok (config s) r) eqn:Eb; [by destruct Hn; apply bearer_presents|done]. }
  assert (secret (config s) = [] → connection_request r = true) as Hopen
    by (intros Hs; destruct Hp as [Hp|[_ Hp]]; [by apply about_connections_request|done]).
  case_bool_decide as Hs; [by rewrite Hopen|]. rewrite andb_false_r.
  destruct (bearer_ok (config s) r) eqn:Eb; [by destruct Hn; apply bearer_presents|].
  destruct Hp as [Hp%about_connections_request|[-> _]]; [rewrite Hp|]; simpl; rewrite !orb_true_r; done.
Qed.

(** C17: a request is read exactly, in whatever pieces it arrives. What reading returns are
    the bytes up to the first empty line, at most 16384, as httparse understands them, and a
    body of the announced length; the bytes after it are not touched. And every such request
    is read, however the connection ends behind it. *)
Theorem api_request_exact k (Hp : pieces_ok (pieces k)) :
  (∀ k' r, read_request parse_request k = (k', Ok r) →
     ∃ h b, header_of h ∧ request_of parse_request h b r ∧ unread k = h ++ b ++ unread k') ∧
  (∀ h b r, header_of h → request_of parse_request h b r → unread k = h ++ b →
     ∃ k', read_request parse_request k = (k', Ok r) ∧ unread k' = []).
Proof. split; intros *; [by apply read_request_sound|by apply read_request_complete]. Qed.

(** The API never panics: in a state whose configuration is well formed and whose recorded
    routes name its rules and proxies, every connection gets an answer, whatever its bytes,
    and the state stays so. A request that is refused changes neither the configuration nor
    the connections. *)
Theorem api_serve_total ok nonce e k (s : State (D:=D)) `{!ManagedLaws D} :
  pieces_ok (pieces k) → api_wf ok s →
  ∃ s' bytes, serve nonce parse_request e k s = Some (s', bytes) ∧ api_wf ok s' ∧
    ∀ r, snd (read_request parse_request k) = Ok r → managed s = None →
    ∀ a err, Api.route nonce e r s = Some (s', a, Err err) →
    config s' = config s ∧ transient s' = transient s ∧ connections s' = connections s.
Proof.
  intros Hp Hs. unfold serve. pose proof (read_request_fuel parse_request k Hp) as Hf.
  destruct (snd (read_request parse_request k)) as [r|[err| |]]; [|by do 2 eexists..|done].
  destruct (route_answers ok nonce e r s Hs) as (s' & a & out & Hr & Hwf & Herr). rewrite Hr.
  do 2 eexists. split; [done|]. split; [done|]. intros ? [= <-] Hm a' err Hr'. rewrite Hr in Hr'.
  simplify_eq. by apply (Herr Hm err).
Qed.

(** A selection is applied as it was meant. The path the daemon builds for a group names
    that group, whatever bytes its name has; when the configuration has the group and the
    member, the request succeeds, afterwards the group shows that member and every other
    group what it showed before, and connections and tickets are untouched. *)
Theorem api_selection_applied ok nonce e r (s : State (D:=D)) group px b definition i g m n :
  config_wf ok (config s) → managed s = None → Forall is_byte group → utf8_valid group = true →
  method r = lit "PUT" → path r = lit "/proxies/" ++ encode_group group →
  (needs_secret (config s) r = true → presents (config s) r) →
  parse_value (body r) = Some b → get "name" b ≫= as_str = Some px → metadata_count b = 0%nat →
  group_definition (config s) group = Some definition → has_member definition px = true →
  groups (config s) !! i = Some g → g_name g = group → members g !! m = Some n → node_name (config s) n = Some px →
  ∃ s' v before after, Api.route nonce e r s = Some (s', false, Ok v) ∧
    connections s' = connections s ∧ tickets s' = tickets s ∧ config_wf ok (config s') ∧
    selected (config s) = Some before ∧ selected (config s') = Some after ∧
    ∀ name, bget name after = if decide (name = group) then Some px else bget name before.
Proof.
  intros Hc Hman Hb Hu Hm Hpath Ha Hbody Hname Hcount Hdef Hmem Hg Hgn Hmn Hnn.
  rewrite (route_put_proxy nonce e r s (encode_group group) Hm Hpath Ha). unfold put_proxy.
  rewrite (decode_encode_group group Hb Hu), Hbody, Hname, Hdef, Hmem, Hcount, Hman. cbn [Nat.eqb negb andb]. unfold select_live.
  destruct (selection_total (config s) i g m n px) as [m' Hsel]; [by eapply wf_group_names|done..|].
  destruct (select_spec ok (config s) group px Hc) as [[err Hs]|(i' & m1 & g1 & n1 & Hs & Hwf & Hg1 & Hgn1 & Hm1 & Hn1)].
  { unfold select in Hs. rewrite <- Hgn, Hsel in Hs. done. }
  rewrite Hs. destruct (selected_insert ok (config s) i' g1 m1 n1 px Hc Hwf Hg1 Hm1 Hn1) as (before & after & Hbefore & Hafter & Hget).
  do 2 eexists. exists before, after. split; [done|]. cbn [config connections tickets]. rewrite Hgn1 in Hget. done.
Qed.

End Properties.

(** ** Witnesses *)

#[local] Instance demo_nets : IpNetLib := {|
  IpNet := unit; ipnet_parse _ := None; ipnet_is_ipv4 _ := true; ipnet_contains _ _ := false |}.

(** A JSON library that knows one body. *)
Definition demo_body : str := lit "{}".
Definition demo_selection : Value := VObject [(lit "name", VString (lit "DIRECT"))].

#[local] Instance demo_json : ApiJson := {|
  value_pieces _ := [demo_body];
  view_pieces _ := [demo_body];
  parse_value s := if eq_str s demo_body then Some demo_selection else None;
  parse_reservation _ := None;
|}.

#[local] Instance demo_managed : Managed unit := {|
  managed_status dc := (dc, Err "not managed"%string);
  managed_select _ _ _ dc := (dc, Ok false);
|}.

#[local] Instance demo_managed_laws : ManagedLaws unit.
Proof. split; intros; by exists (selections c); destruct c. Qed.

Definition demo_group : str := lit "main group".

Definition demo_document : Value :=
  VObject [(lit "proxy-groups", VArray [VObject [(lit "name", VString demo_group);
     (lit "proxies", VArray [VString (lit "REJECT"); VString (lit "DIRECT")])]])].

Definition demo_raw : RawConfig := mkRawConfig [] [mkRawGroup demo_group (lit "select") [lit "REJECT"; lit "DIRECT"]]
  [lit "MATCH,main group"] [] false None None None None None None (Some (lit "0.0.0.0:9090")) (Some (lit "token")).

Definition demo_config : Config := mkConfig (V4 127 0 0 1) builtin_proxies
  [mkRule Match 2 (lit "MATCH") []] [mkGroup demo_group [1%nat; 0%nat]] [0%nat] (lit "rule")
  (Some (mkSocketAddr (V4 0 0 0 0) 9090)) (lit "token") demo_document.

Lemma demo_wf : config_wf (λ _, true) demo_config.
Proof.
  assert (∀ d raw, (λ _ : Value, Some demo_raw) d = Some raw → Forall entry_wf (rc_proxies raw)) as Hu
    by (intros d raw [= <-]; constructor).
  destruct (parse_inner_spec (λ _, Ok demo_document) (λ _, Err "no YAML"%string) _ (λ _, None) (λ _, true) Hu [] (Some []))
    as (r & Hr & Hwf).
  assert (parse_inner (λ _, Ok demo_document) (λ _, Err "no YAML"%string) (λ _, Some demo_raw) (λ _, None) (λ _, true) [] (Some [])
    = Some (Ok demo_config)) as Hp by (vm_compute; reflexivity).
  rewrite Hr in Hp. injection Hp as ->. by apply (Hwf demo_config).
Qed.

Definition demo_state : State (D:=unit) := mkState demo_config None [] Registry.init Probes.init.

Definition demo_request : Request :=
  mkRequest (lit "PUT") (lit "/proxies/" ++ encode_group demo_group) (Some (lit "bearer token")) None demo_body.

Definition demo_env : Env := mkEnv 0 1 None.

(** The header and the body of the request in three pieces. *)
Definition demo_header : str := lit "PUT" ++ [13; 10; 13; 10].

Definition demo_parse (h : str) : res (option (nat * Http.RawRequest)) :=
  Ok (Some (length h, Http.mkRawRequest (Some (lit "PUT")) (Some (lit "/proxies/" ++ encode_group demo_group)) (Some 1)
    [(lit "Content-Length", lit "2"); (lit "authorization", lit "bearer token")])).

Definition demo_anonymous (h : str) : res (option (nat * Http.RawRequest)) :=
  Ok (Some (length h, Http.mkRawRequest (Some (lit "GET")) (Some (lit "/connections")) (Some 1) [])).

Definition demo_socket : Socket := mkSocket [take 4 demo_header; drop 4 demo_header ++ lit "{"; lit "}"] Closed.

Lemma demo_header_of : header_of demo_header.
Proof. split; [vm_compute; reflexivity|]. apply Nat.leb_le. vm_compute. reflexivity. Qed.

Lemma demo_request_of : request_of demo_parse demo_header demo_body demo_request.
Proof. eexists. split; [vm_compute; reflexivity|]. done. Qed.

(** The list of connections is refused to a client without the secret. *)
Lemma api_protects_witness :
  serve [] demo_anonymous demo_env (mkSocket [demo_header] Closed) demo_state = Some (demo_state, refusal "401" "Unauthorized").
Proof.
  apply (api_protects demo_anonymous demo_config (mkRequest (lit "GET") (lit "/connections") None None [])
    (mkSocket [demo_header] Closed) [] demo_env demo_state).
  - vm_compute. reflexivity.
  - right. left. left. reflexivity.
  - intros (_ & scheme & H & _). discriminate H.
  - vm_compute. reflexivity.
  - reflexivity.
Defined.

Lemma api_request_exact_witness : ∃ k', read_request demo_parse demo_socket = (k', Ok demo_request) ∧ unread k' = [].
Proof.
  assert (pieces_ok (pieces demo_socket)) as Hp by (repeat constructor; discriminate).
  apply (proj2 (api_request_exact demo_parse demo_socket Hp) demo_header demo_body demo_request demo_header_of demo_request_of).
  vm_compute. reflexivity.
Defined.

Lemma demo_state_wf : api_wf (λ _, true) demo_state.
Proof. split; simpl; [exact demo_wf|constructor|constructor]. Qed.

Lemma api_serve_total_witness : ∃ s' bytes, serve [] demo_parse demo_env demo_socket demo_state = Some (s', bytes).
Proof.
  assert (pieces_ok (pieces demo_socket)) as Hp by (repeat constructor; discriminate).
  destruct (api_serve_total demo_parse (λ _, true) [] demo_env demo_socket demo_state Hp demo_state_wf) as (s' & bytes & H & _).
  exists s', bytes. exact H.
Defined.

(** A group whose name needs escaping. *)
Lemma api_selection_applied_witness : ∃ s' v after, Api.route [] demo_env demo_request demo_state = Some (s', false, Ok v) ∧
  selected (config s') = Some after ∧ bget demo_group after = Some (lit "DIRECT").
Proof.
  destruct (api_selection_applied (λ _, true) [] demo_env demo_request demo_state demo_group (lit "DIRECT") demo_selection
    (VObject [(lit "name", VString demo_group); (lit "proxies", VArray [VString (lit "REJECT"); VString (lit "DIRECT")])])
    0 (mkGroup demo_group [1%nat; 0%nat]) 1 0 demo_wf) as (s' & v & before & after & Hr & _ & _ & _ & _ & Ha & Hget);
    try (vm_compute; reflexivity).
  - apply Forall_forall. intros x Hx. unfold is_byte.
    assert (Forall (λ x, 0 <= x < 256) demo_group) as Hf by (apply (bool_decide_unpack _); vm_compute; exact I).
    rewrite Forall_forall in Hf. by apply Hf.
  - intros _. split; [discriminate|]. exists (lit "bearer "). split; [reflexivity|]. split; reflexivity.
  - exists s', v, after. split; [exact Hr|]. split; [exact Ha|]. rewrite Hget. reflexivity.
Defined.

End ApiFacts.
