(* ===== verification/Udp.v ===== *)
(** * UDP sessions (src/src/udp.rs)

    A session sends and receives datagrams directly, through a Shadowsocks server, or as
    frames on a Trojan stream. The Trojan session is a state machine over events: calls of
    its owner and steps of its worker, whose two loops end together. The address codec of the
    shadowsocks crate is the class [AddressCodec] of [Socks] with its reader. *)
From S2P Require Import Prelude Utf8 Net Target Socks.

Module Udp.
Import Socks(Address, SocketAddress, DomainNameAddress, AddressCodec, write_to_buf, destination, canonical, MAX_WIRE_BYTES).

Record Datagram := mkDatagram { source : Target; payload : str }.

Definition address_target (a : Address) : res Target :=
  match a with
  | SocketAddress a => target_new (print_ip (sa_ip a)) (sa_port a)
  | DomainNameAddress host port => from_socks host port
  end.

(** [Address::read_from] on what a stream holds: the address and what follows it; [None] is
    an invalid or truncated address. It reads what [write_to_buf] wrote. *)
Class AddressReader `{AddressCodec} := {
  read_from : str → option (Address * str);
  read_from_destination t rest : target_wf t → (parse_ip (host t) = None → utf8_valid (host t) = true) →
    read_from (write_to_buf (destination t) ++ rest) = Some (destination t, rest);
}.

(** ** Direct and Shadowsocks sessions *)

Definition payload_limit (trojan : bool) : Z := if trojan then u16_max else MAX_WIRE_BYTES.

Definition check_payload (trojan : bool) (payload : str) : res unit :=
  if payload_limit trojan <? len payload then Err "UDP datagram exceeds protocol payload limit" else Ok tt.

(** The datagram a direct send gives to its IPv4 or IPv6 socket; the addresses are what the
    resolver answered, of which there is at least one. *)
Definition send_direct (ipv6 : bool) (dns : res (list IpAddr)) (payload : str) (t : Target) : option (res (SocketAddr * str)) :=
  match check_payload false payload with
  | Err e => Some (Err e)
  | Ok _ =>
      match dns with
      | Err e => Some (Err e)
      | Ok addresses =>
          let? ip := head addresses in
          match ip with
          | V6 _ => if ipv6 then Some (Ok (mkSocketAddr ip (port t), payload)) else Some (Err "IPv6 UDP is unavailable"%string)
          | V4 _ _ _ _ => Some (Ok (mkSocketAddr ip (port t), payload))
          end
      end
  end.

Section Codec.
Context `{AddressReader}.

(** What a Shadowsocks send gives to the library, which adds [overhead] bytes. *)
Definition send_shadowsocks (overhead : Z) (payload : str) (t : Target) : res (Address * str) :=
  let! _ := check_payload false payload in
  let address := destination t in
  if MAX_WIRE_BYTES <? len payload + len (write_to_buf address) + overhead
  then Err "Shadowsocks UDP wire datagram exceeds 65507 bytes"
  else Ok (address, payload).

(** What the library receives. *)
Inductive Received :=
| Packet (payload : str) (from : Address) (wire : Z)
| ProtocolError
| IoFailed.

(** The receive loop: packets that are too large, fail authentication or name no source are
    skipped; [None] waits for more. *)
Fixpoint recv_shadowsocks (arrived : list Received) : option (res Datagram) :=
  match arrived with
  | [] => None
  | IoFailed :: _ => Some (Err "Shadowsocks UDP receive failed"%string)
  | ProtocolError :: arrived => recv_shadowsocks arrived
  | Packet bytes from wire :: arrived =>
      if wire <=? MAX_WIRE_BYTES then
        match address_target from with
        | Ok t => Some (Ok (mkDatagram t bytes))
        | Err _ => recv_shadowsocks arrived
        end
      else recv_shadowsocks arrived
  end.

Fixpoint recv_direct (arrived : list (SocketAddr * str)) : option (res Datagram) :=
  match arrived with
  | [] => None
  | (a, bytes) :: arrived =>
      if MAX_WIRE_BYTES <? len bytes then recv_direct arrived
      else Some (let! t := target_new (print_ip (sa_ip a)) (sa_port a) in Ok (mkDatagram t bytes))
  end.

(** ** Trojan frames *)

Definition CRLF : str := [13; 10].

Definition frame (t : Target) (payload : str) : str :=
  write_to_buf (destination t) ++ be16 (len payload) ++ CRLF ++ payload.

(** Some bytes off the front of the stream. *)
Definition take_exact (e : string) (n : nat) (s : str) : res (str * str) :=
  if (length s <? n)%nat then Err e else Ok (take n s, drop n s).

(** One packet of the reader's loop and what follows it. *)
Definition read_packet (s : str) : res (Datagram * str) :=
  let! '(address, s) := ok_or (read_from s) "invalid or truncated Trojan UDP address"%string in
  let! source := map_err (λ _, "invalid Trojan UDP source"%string) (address_target address) in
  let! '(size, s) := take_exact "truncated Trojan UDP length" 2 s in
  let! '(delimiter, s) := take_exact "truncated Trojan UDP delimiter" 2 s in
  if negb (eq_str delimiter CRLF) then Err "invalid Trojan UDP CRLF"
  else
    let! '(payload, s) := take_exact "truncated Trojan UDP payload" (Z.to_nat (from_be size)) s in
    Ok (mkDatagram source payload, s).

(** ** The Trojan session *)

(** Both channels hold two items. *)
Definition CAPACITY : nat := 2.

(** The worker: running, holding an error it has to report, or gone. *)
Inductive Worker := Running | Ending (e : string) | Gone.

(** [input] is what the server has sent and the worker not read, [wire] what the worker
    wrote; [outgoing] and [incoming] are the channels. [writing] is the frame the writer has
    taken from its queue and is not done with: the bytes of it that are still to be written. *)
Record Session := mkSession {
  worker : Worker;
  outgoing : list str;
  writing : option str;
  incoming : list (res Datagram);
  cache : option (Target * Target);
  input : str;
  wire : str;
}.

Definition trojan (input : str) : Session := mkSession Running [] None [] None input [].

Definition with_cache (s : Session) (cache : option (Target * Target)) : Session :=
  mkSession (worker s) (outgoing s) (writing s) (incoming s) cache (input s) (wire s).

Definition is_running (s : Session) : bool := match worker s with Running => true | _ => false end.

(** A new answer for a name, which is cached; [None] is the index of an empty answer. *)
Definition lookup_target (dns : res (list IpAddr)) (t : Target) (s : Session) : option (Session * res Target) :=
  match dns with
  | Err e => Some (s, Err e)
  | Ok addresses =>
      let? ip := head addresses in
      match target_new (print_ip ip) (port t) with
      | Ok resolved => Some (with_cache s (Some (t, resolved)), Ok resolved)
      | Err e => Some (s, Err e)
      end
  end.

(** The address a send goes to: a literal, the cached answer or a new one. *)
Definition resolve_target (dns : res (list IpAddr)) (t : Target) (s : Session) : option (Session * res Target) :=
  if is_some (parse_ip (host t)) then Some (s, Ok t)
  else
    match cache s with
    | Some (original, resolved) => if bool_decide (original = t) then Some (s, Ok resolved) else lookup_target dns t s
    | None => lookup_target dns t s
    end.

(** [try_send] of a frame. *)
Definition enqueue (f : str) (s : Session) : Session * res unit :=
  if negb (is_running s) then (s, Err "Trojan UDP session closed"%string)
  else if (CAPACITY <=? length (outgoing s))%nat then (s, Err "Trojan UDP send queue full; packet dropped"%string)
  else (mkSession (worker s) (outgoing s ++ [f]) (writing s) (incoming s) (cache s) (input s) (wire s), Ok tt).

(** [send_to] of a Trojan session: the target the payload was framed for. *)
Definition send_to (dns : res (list IpAddr)) (payload : str) (t : Target) (s : Session) : option (Session * res Target) :=
  match check_payload true payload with
  | Err e => Some (s, Err e)
  | Ok _ =>
      let? '(s, r) := resolve_target dns t s in
      match r with
      | Err e => Some (s, Err e)
      | Ok t =>
          match enqueue (frame t payload) s with
          | (s, Ok _) => Some (s, Ok t)
          | (s, Err e) => Some (s, Err e)
          end
      end
  end.

(** [recv_from]: [None] waits. *)
Definition recv_from (s : Session) : option (Session * res Datagram) :=
  match incoming s with
  | x :: rest => Some (mkSession (worker s) (outgoing s) (writing s) rest (cache s) (input s) (wire s), x)
  | [] => match worker s with Gone => Some (s, Err "Trojan UDP session closed"%string) | _ => None end
  end.

(** The worker stops: its queue and the write are dropped, an error waits to be reported. *)
Definition stop (e : string) (s : Session) : Session :=
  mkSession (Ending e) [] None (incoming s) (cache s) (input s) (wire s).

(** What the writer's loop does next: take a frame, which frees its place in the queue; go on
    with [write_all], of which the transport takes [n] bytes more; see the flush done; or fail
    in one of these, or after ten seconds of them. Between two of these steps it is pending,
    and sends and reads go on. *)
Inductive WriterStep := Take | Write (n : nat) | Flushed | Failed (e : string).

Definition worker_write (w : WriterStep) (s : Session) : Session :=
  match worker s, writing s, w with
  | Running, None, Take =>
      match outgoing s with
      | f :: rest => mkSession Running rest (Some f) (incoming s) (cache s) (input s) (wire s)
      | [] => s
      end
  | Running, Some f, Write n => mkSession Running (outgoing s) (Some (drop n f)) (incoming s) (cache s) (input s) (wire s ++ take n f)
  | Running, Some [], Flushed => mkSession Running (outgoing s) None (incoming s) (cache s) (input s) (wire s)
  | Running, Some _, Failed e => stop e s
  | _, _, _ => s
  end.

(** The reader's loop reads a packet, which is dropped when the channel is full, or fails
    ([expired] after five minutes without one). *)
Definition worker_read (expired : bool) (s : Session) : Session :=
  match worker s with
  | Running =>
      if expired then stop "UDP receive idle expired" s
      else
        match read_packet (input s) with
        | Err e => stop e s
        | Ok (d, rest) =>
            mkSession Running (outgoing s) (writing s)
              (if (length (incoming s) <? CAPACITY)%nat then incoming s ++ [Ok d] else incoming s)
              (cache s) rest (wire s)
        end
  | _ => s
  end.

(** The last step of the worker: the error is sent once there is room, then the channel closes. *)
Definition worker_end (s : Session) : Session :=
  match worker s with
  | Ending e =>
      if (length (incoming s) <? CAPACITY)%nat
      then mkSession Gone (outgoing s) (writing s) (incoming s ++ [Err e]) (cache s) (input s) (wire s) else s
  | _ => s
  end.

Inductive Event :=
| EvSend (dns : res (list IpAddr)) (payload : str) (t : Target)
| EvRecv
| EvWrite (w : WriterStep)
| EvRead (expired : bool)
| EvEnd.

(** The state, what was accepted for sending and what was received, in order; [None] is a
    panic. *)
Record History := mkHistory { now : Session; accepted : list (Target * str); received : list (res Datagram) }.

Definition apply_event (v : Event) (h : History) : option History :=
  match v with
  | EvSend dns payload t =>
      let? '(s, r) := send_to dns payload t (now h) in
      Some (mkHistory s (match r with Ok t => accepted h ++ [(t, payload)] | Err _ => accepted h end) (received h))
  | EvRecv =>
      match recv_from (now h) with
      | Some (s, x) => Some (mkHistory s (accepted h) (received h ++ [x]))
      | None => Some h
      end
  | EvWrite w => Some (mkHistory (worker_write w (now h)) (accepted h) (received h))
  | EvRead expired => Some (mkHistory (worker_read expired (now h)) (accepted h) (received h))
  | EvEnd => Some (mkHistory (worker_end (now h)) (accepted h) (received h))
  end.

Fixpoint run (events : list Event) (h : History) : option History :=
  match events with
  | [] => Some h
  | v :: events => let? h := apply_event v h in run events h
  end.

End Codec.

End Udp.
