(* ===== verification/UdpFacts.v ===== *)
(** * UDP sessions: what arrives

    A Trojan frame is read as it was written, a session's frames reach the wire once and in
    order, and what it receives is what the server sent, in order. *)
From S2P Require Import Prelude Utf8 Net Target Socks Udp.

Module UdpFacts.
Import Socks(Address, SocketAddress, DomainNameAddress, AddressCodec, write_to_buf, destination, canonical, MAX_WIRE_BYTES).
Import Udp.

(** ** Frames *)

Lemma address_target_destination t : target_wf t → address_target (destination t) = Ok (canonical t).
Proof.
  intros (Hne & Hl & Hp). unfold destination, canonical. destruct (parse_ip (host t)) as [ip|] eqn:E; simpl.
  - rewrite target_new_ip; [done|by eapply parse_ip_wf|lia].
  - destruct t as [h p]. simpl in *. apply from_socks_Ok. simpl. split_and!; [done|done|done|lia].
Qed.

Section Frames.
Context `{AddressReader}.

Definition sendable (t : Target) (payload : str) : Prop :=
  target_wf t ∧ (parse_ip (host t) = None → utf8_valid (host t) = true) ∧ len payload ≤ u16_max.

Lemma take_exact_app e a s : take_exact e (length a) (a ++ s) = Ok (a, s).
Proof.
  unfold take_exact. rewrite (proj2 (Nat.ltb_ge _ _)) by (rewrite length_app; lia).
  by rewrite take_app_length, drop_app_length.
Qed.

Lemma read_packet_frame t bytes rest : sendable t bytes →
  read_packet (frame t bytes ++ rest) = Ok (mkDatagram (canonical t) bytes, rest).
Proof.
  intros (Ht & Hu & Hl). unfold read_packet, frame. rewrite <- !app_assoc, read_from_destination by done. cbn [ok_or].
  rewrite address_target_destination by done. cbn [map_err].
  pose proof (take_exact_app "truncated Trojan UDP length" (be16 (len bytes)) (CRLF ++ bytes ++ rest)) as H1.
  rewrite be16_length in H1. rewrite H1.
  pose proof (take_exact_app "truncated Trojan UDP delimiter" CRLF (bytes ++ rest)) as H2. simpl length in H2. rewrite H2.
  rewrite eq_str_refl. cbn [negb]. rewrite from_be16 by (pose proof (len_nonneg bytes); lia). unfold len. rewrite Nat2Z.id.
  by rewrite take_exact_app.
Qed.

(** The packets at the front of a stream and what follows them. *)
Inductive packets : str → list Datagram → str → Prop :=
| packets_nil s : packets s [] s
| packets_cons s d s' ds rest : read_packet s = Ok (d, s') → packets s' ds rest → packets s (d :: ds) rest.

Lemma packets_snoc s ds rest d rest' : packets s ds rest → read_packet rest = Ok (d, rest') → packets s (ds ++ [d]) rest'.
Proof. induction 1 as [s|s d0 s' ds rest Hr _ IH]; intros Hd; simpl; econstructor; eauto using packets_nil. Qed.

(** What a peer reads of a sequence of frames. *)
Lemma packets_frames l rest : Forall (λ tp, sendable (fst tp) (snd tp)) l →
  packets (mjoin ((λ tp, frame (fst tp) (snd tp)) <$> l) ++ rest) ((λ tp, mkDatagram (canonical (fst tp)) (snd tp)) <$> l) rest.
Proof.
  induction 1 as [|[t bytes] l Hs _ IH]; [simpl; constructor|].
  rewrite !fmap_cons, mjoin_cons. cbn [fst snd]. rewrite <- app_assoc. econstructor; [by apply read_packet_frame|done].
Qed.

(** ** The invariant *)

(** An address, so that it is framed as one. *)
Definition literal (t : Target) : Prop := target_wf t ∧ is_Some (parse_ip (host t)).

Lemma literal_sendable t bytes : literal t → len bytes ≤ u16_max → sendable t bytes.
Proof. intros [Ht [ip Hip]] Hl. split; [done|]. split; [by rewrite Hip|done]. Qed.

Definition frames (l : list (Target * str)) : str := mjoin ((λ tp, frame (fst tp) (snd tp)) <$> l).

(** What a session that runs still has to write: the rest of the frame in hand and the queue. *)
Definition unwritten (s : Session) : str := default [] (writing s) ++ mjoin (outgoing s).

Record session_inv (start : str) (h : History) : Prop := {
  si_out : (length (outgoing (now h)) ≤ CAPACITY)%nat;
  si_in : (length (incoming (now h)) ≤ CAPACITY)%nat;
  si_accepted : Forall (λ tp, literal (fst tp) ∧ len (snd tp) ≤ u16_max) (accepted h);
  si_cache : match cache (now h) with Some (_, r) => literal r | None => True end;
  si_wire : wire (now h) `prefix_of` frames (accepted h);
  si_queue : worker (now h) = Running → wire (now h) ++ unwritten (now h) = frames (accepted h);
  si_read : ∃ ds xs es, packets start ds (input (now h)) ∧
    received h ++ incoming (now h) = (Ok <$> xs) ++ (Err <$> es) ∧ xs `sublist_of` ds ∧ (worker (now h) ≠ Gone → es = []);
}.

(** A call of the owner: the target is one and the resolver answers with addresses. *)
Definition event_ok (v : Event) : Prop :=
  match v with
  | EvSend dns _ t => target_wf t ∧ ∀ l, dns = Ok l → l ≠ [] ∧ Forall ip_wf l
  | _ => True
  end.

Lemma frames_snoc l t bytes : frames (l ++ [(t, bytes)]) = frames l ++ frame t bytes.
Proof. unfold frames. rewrite fmap_app, join_app. simpl. by rewrite app_nil_r. Qed.

Lemma literal_new ip p : ip_wf ip → 1 ≤ p ≤ 65535 → target_new (print_ip ip) p = Ok (mkTarget (print_ip ip) p) ∧ literal (mkTarget (print_ip ip) p).
Proof.
  intros Hw Hp. split; [apply target_new_ip; [done|lia]|]. pose proof (print_ip_length ip Hw) as Hl. split.
  - split_and!; simpl; [|unfold len; lia|lia|lia]. intros Hn. rewrite Hn in Hl. simpl in Hl. lia.
  - simpl. rewrite parse_print_ip by done. by eexists.
Qed.

Lemma resolve_target_spec dns t s : target_wf t → (∀ l, dns = Ok l → l ≠ [] ∧ Forall ip_wf l) →
  match cache s with Some (_, r) => literal r | None => True end →
  ∃ c r, resolve_target dns t s = Some (with_cache s c, r) ∧ match c with Some (_, r) => literal r | None => True end ∧
    match r with Ok t' => literal t' | Err _ => True end.
Proof.
  intros Ht Hdns Hc. assert (with_cache s (cache s) = s) as Hsame by (by destruct s).
  assert (∃ c r, lookup_target dns t s = Some (with_cache s c, r) ∧ match c with Some (_, r) => literal r | None => True end ∧
    match r with Ok t' => literal t' | Err _ => True end) as Hl.
  { unfold lookup_target. destruct dns as [l|e]; [|exists (cache s); eexists; by rewrite Hsame].
    destruct (Hdns l eq_refl) as [Hne Hip]. destruct l as [|ip l]; [done|]. inversion Hip; subst. simpl.
    destruct (literal_new ip (port t)) as [-> Hlit]; [done|apply Ht|]. by do 2 eexists. }
  unfold resolve_target. destruct (parse_ip (host t)) as [ip|] eqn:Eip; simpl.
  - exists (cache s), (Ok t). rewrite Hsame. split; [done|]. split; [done|]. split; [done|]. by eexists.
  - destruct (cache s) as [[o r]|] eqn:Ec; [|done]. case_bool_decide; [|done].
    exists (Some (o, r)), (Ok r). by rewrite Hsame.
Qed.

Lemma check_payload_Ok bytes : check_payload true bytes = Ok tt → len bytes ≤ u16_max.
Proof. unfold check_payload, payload_limit. destruct (_ <? _) eqn:E; [done|]. intros _. blia. Qed.

Lemma send_to_inv start h dns bytes t : session_inv start h → event_ok (EvSend dns bytes t) →
  ∃ h', apply_event (EvSend dns bytes t) h = Some h' ∧ session_inv start h'.
Proof.
  intros Hi [Ht Hdns]. simpl. unfold send_to.
  assert (session_inv start (mkHistory (now h) (accepted h) (received h))) as Hsame by (by destruct h).
  destruct (check_payload true bytes) as [[]|e] eqn:Ec; [|by eexists]. apply check_payload_Ok in Ec.
  destruct (resolve_target_spec dns t (now h) Ht Hdns (si_cache _ _ Hi)) as (c & r & -> & Hc & Hr).
  assert (session_inv start (mkHistory (with_cache (now h) c) (accepted h) (received h))) as Hi1 by (destruct Hi; by split).
  destruct r as [t'|e]; [|by eexists]. unfold enqueue.
  destruct (is_running (with_cache (now h) c)) eqn:Er; [|by eexists].
  destruct (CAPACITY <=? _)%nat eqn:El; [by eexists|]. apply Nat.leb_gt in El. eexists. split; [done|].
  assert (worker (now h) = Running) as Hrun by (unfold is_running in Er; simpl in Er; by destruct (worker (now h))).
  destruct Hi1 as [H1 H2 H3 H4 H5 H6 H7]. simpl in *. split; simpl; try done.
  - rewrite length_app. simpl. lia.
  - apply Forall_app. split; [done|]. by constructor.
  - rewrite frames_snoc. by apply prefix_app_r.
  - intros _. unfold unwritten. simpl. rewrite frames_snoc, <- (H6 Hrun), join_app. unfold unwritten. simpl. by rewrite app_nil_r, !app_assoc.
Qed.

Lemma recv_inv start h : session_inv start h → ∃ h', apply_event EvRecv h = Some h' ∧ session_inv start h'.
Proof.
  intros Hi. simpl. unfold recv_from. destruct (incoming (now h)) as [|x rest] eqn:Ein.
  - destruct (worker (now h)) eqn:Ew; [by eexists|by eexists|]. eexists. split; [done|].
    destruct Hi as [H1 H2 H3 H4 H5 H6 (ds & xs & es & Hp & He & Hs & _)]. split; simpl; try done.
    rewrite Ein, app_nil_r in *. exists ds, xs, (es ++ ["Trojan UDP session closed"%string]).
    rewrite fmap_app, app_assoc, <- He. split_and!; [done|done|done|by rewrite Ew].
  - eexists. split; [done|]. destruct Hi as [H1 H2 H3 H4 H5 H6 (ds & xs & es & Hp & He & Hs & Hg)]. rewrite Ein in *.
    split; simpl in *; try done; [lia|]. exists ds, xs, es. by rewrite <- app_assoc.
Qed.

(** The worker stops having written [w]. *)
Lemma stop_inv start e h w : session_inv start h → worker (now h) = Running → w `prefix_of` frames (accepted h) →
  session_inv start (mkHistory (mkSession (Ending e) [] None (incoming (now h)) (cache (now h)) (input (now h)) w) (accepted h) (received h)).
Proof.
  intros [H1 H2 H3 H4 H5 H6 (ds & xs & es & Hp & He & Hs & Hg)] Hr Hw. split; simpl; try done; [lia|].
  exists ds, xs, es. split_and!; try done. intros _. apply Hg. by rewrite Hr.
Qed.

Lemma write_inv start h w : session_inv start h →
  session_inv start (mkHistory (worker_write w (now h)) (accepted h) (received h)).
Proof.
  intros Hi. assert (session_inv start (mkHistory (now h) (accepted h) (received h))) as Hsame by (by destruct h).
  unfold worker_write. destruct (worker (now h)) eqn:Ew; [|done..].
  pose proof Hi as [H1 H2 H3 H4 H5 H6 (ds & xs & es & Hp & He & Hs & Hg)]. specialize (H6 Ew). unfold unwritten in H6.
  assert (∀ s', incoming s' = incoming (now h) → cache s' = cache (now h) → input s' = input (now h) → worker s' = Running →
    (length (outgoing s') ≤ CAPACITY)%nat → wire s' ++ unwritten s' = frames (accepted h) →
    session_inv start (mkHistory s' (accepted h) (received h))) as Hgo.
  { intros s' E1 E2 E3 E4 E5 E6. split; simpl; try done; rewrite ?E1, ?E2, ?E3; try done.
    - rewrite <- E6. by apply prefix_app_r.
    - exists ds, xs, es. split_and!; try done. intros _. apply Hg. by rewrite Ew. }
  destruct (writing (now h)) as [f|]; simpl in H6.
  - destruct w as [|n| |e]; [by destruct f| | |].
    + assert (session_inv start (mkHistory (mkSession Running (outgoing (now h)) (Some (drop n f)) (incoming (now h))
        (cache (now h)) (input (now h)) (wire (now h) ++ take n f)) (accepted h) (received h))) as Hw.
      { apply Hgo; try done. unfold unwritten. simpl. by rewrite <- H6, <- app_assoc, (app_assoc (take n f)), take_drop. }
      by destruct f.
    + destruct f; [|done]. by apply Hgo.
    + assert (session_inv start (mkHistory (stop e (now h)) (accepted h) (received h))) as Hw
        by (apply stop_inv; [done|done|rewrite <- H6; by apply prefix_app_r]).
      by destruct f.
  - destruct w; try done. destruct (outgoing (now h)) as [|f rest] eqn:Eo; [done|]. apply Hgo; try done. simpl in *. lia.
Qed.

Lemma tunnel_read_inv start h expired : session_inv start h →
  session_inv start (mkHistory (worker_read expired (now h)) (accepted h) (received h)).
Proof.
  intros Hi. assert (session_inv start (mkHistory (now h) (accepted h) (received h))) as Hsame by (by destruct h).
  unfold worker_read. destruct (worker (now h)) eqn:Ew; [|done..].
  assert (∀ e, session_inv start (mkHistory (stop e (now h)) (accepted h) (received h))) as Hstop
    by (intros e; apply stop_inv; [done|done|apply (si_wire _ _ Hi)]).
  destruct expired; [done|]. destruct (read_packet (input (now h))) as [[d rest]|e] eqn:Er; [|done].
  destruct Hi as [H1 H2 H3 H4 H5 H6 (ds & xs & es & Hp & He & Hs & Hg)]. rewrite (Hg ltac:(by rewrite Ew)) in He.
  simpl in He. rewrite app_nil_r in He. pose proof (packets_snoc _ _ _ _ _ Hp Er) as Hp'.
  destruct (length (incoming (now h)) <? CAPACITY)%nat eqn:El; [apply Nat.ltb_lt in El|]; split; simpl; try done; auto.
  - rewrite length_app. simpl. lia.
  - exists (ds ++ [d]), (xs ++ [d]), []. rewrite app_assoc, He, fmap_app, app_nil_r. split_and!; try done.
    by apply sublist_app.
  - exists (ds ++ [d]), xs, []. rewrite He, app_nil_r. split_and!; try done. by apply sublist_inserts_r.
Qed.

Lemma tunnel_end_inv start h : session_inv start h →
  session_inv start (mkHistory (worker_end (now h)) (accepted h) (received h)).
Proof.
  intros Hi. assert (session_inv start (mkHistory (now h) (accepted h) (received h))) as Hsame by (by destruct h).
  unfold worker_end. destruct (worker (now h)) as [|e|] eqn:Ew; [done| |done].
  destruct (length (incoming (now h)) <? CAPACITY)%nat eqn:El; [apply Nat.ltb_lt in El|done].
  destruct Hi as [H1 H2 H3 H4 H5 H6 (ds & xs & es & Hp & He & Hs & Hg)]. rewrite (Hg ltac:(by rewrite Ew)) in He.
  simpl in He. rewrite app_nil_r in He. split; simpl; try done.
  - rewrite length_app. simpl. lia.
  - exists ds, xs, [e]. by rewrite app_assoc, He.
Qed.

Lemma apply_event_inv start v h : session_inv start h → event_ok v → ∃ h', apply_event v h = Some h' ∧ session_inv start h'.
Proof.
  intros Hi Hv. destruct v as [dns bytes t| |w|expired|].
  - by apply send_to_inv.
  - by apply recv_inv.
  - eexists. split; [done|]. by apply write_inv.
  - eexists. split; [done|]. by apply tunnel_read_inv.
  - eexists. split; [done|]. by apply tunnel_end_inv.
Qed.

Lemma run_session_inv start events h : session_inv start h → Forall event_ok events →
  ∃ h', run events h = Some h' ∧ session_inv start h'.
Proof.
  intros Hi Hv. revert h Hi. induction Hv as [|v events Hv _ IH]; intros h Hi; simpl; [by eexists|].
  destruct (apply_event_inv start v h Hi Hv) as (h1 & -> & Hi1). by apply IH.
Qed.

Lemma trojan_inv start : session_inv start (mkHistory (trojan start) [] []).
Proof.
  split; simpl; try done; try apply prefix_nil; try (unfold CAPACITY; lia).
  exists [], [], []. split_and!; try done. constructor.
Qed.

(** ** Properties *)

(** C28: a Trojan UDP session is faithful in both directions, for every interleaving of sends,
    receives, writes in pieces, reads, failures and time-outs, and never panics. What it
    writes is a prefix of the frames of the datagrams it accepted, in order; while it runs, it
    is all of it but the unwritten rest of the frame in hand and at most two frames in the
    queue. A peer reads these frames as exactly those datagrams, whatever follows. What it
    gives to its owner is, in order, taken from the packets the server sent, at most two of
    them waiting, and errors only come after them. *)
Theorem trojan_session_faithful start events : Forall event_ok events →
  ∃ h, run events (mkHistory (trojan start) [] []) = Some h ∧
    let s := now h in
    (wire s `prefix_of` frames (accepted h)) ∧
    (worker s = Running → wire s ++ default [] (writing s) ++ mjoin (outgoing s) = frames (accepted h)) ∧
    (length (outgoing s) ≤ 2 ∧ length (incoming s) ≤ 2)%nat ∧
    (∀ rest, packets (frames (accepted h) ++ rest) ((λ tp, mkDatagram (canonical (fst tp)) (snd tp)) <$> accepted h) rest) ∧
    ∃ ds xs es, packets start ds (input s) ∧ xs `sublist_of` ds ∧
      received h ++ incoming s = (Ok <$> xs) ++ (Err <$> es).
Proof.
  intros Hv. destruct (run_session_inv start events _ (trojan_inv start) Hv) as (h & Hr & Hi). exists h. split; [done|].
  destruct Hi as [H1 H2 H3 H4 H5 H6 (ds & xs & es & Hp & He & Hs & _)]. split_and!; try done.
  - intros rest. apply packets_frames. eapply Forall_impl; [exact H3|]. intros [t bytes] [Hl Hb]. by apply literal_sendable.
  - by exists ds, xs, es.
Qed.

End Frames.

(** ** Witnesses *)

(** A codec of IPv4 addresses and names of RFC 1928 with its reader. *)
Definition demo_write (a : Address) : str :=
  match a with
  | SocketAddress (mkSocketAddr (V4 a b c d) p) => [1; a; b; c; d] ++ be16 p
  | SocketAddress (mkSocketAddr (V6 segs) p) => [4] ++ mjoin (be16 <$> segs) ++ be16 p
  | DomainNameAddress name p => [3; len name] ++ name ++ be16 p
  end.

#[local] Instance demo_codec : AddressCodec.
Proof. refine {| write_to_buf := demo_write |}; done. Defined.

Definition demo_port (k : str → Z → option (Address * str)) (s : str) : option (Address * str) :=
  match s with x :: y :: rest => k rest (from_be [x; y]) | _ => None end.

Definition demo_read (s : str) : option (Address * str) :=
  match s with
  | 1 :: a :: b :: c :: d :: s => demo_port (λ rest p, Some (SocketAddress (mkSocketAddr (V4 a b c d) p), rest)) s
  | 4 :: s => demo_port (λ rest p, Some (SocketAddress (mkSocketAddr (V6 (Socks.be_pairs (take 16 s))) p), rest)) (drop 16 s)
  | 3 :: l :: s => demo_port (λ rest p, Some (DomainNameAddress (take (Z.to_nat l) s) p, rest)) (drop (Z.to_nat l) s)
  | _ => None
  end.

Lemma demo_port_be k p rest : 0 ≤ p ≤ u16_max → demo_port k (be16 p ++ rest) = k rest p.
Proof. intros Hp. pose proof (from_be16 p Hp) as Hf. unfold be16 in *. simpl. by rewrite Hf. Qed.

#[local] Arguments be16 : simpl never.

Lemma demo_read_destination t rest : target_wf t → (parse_ip (host t) = None → utf8_valid (host t) = true) →
  demo_read (write_to_buf (destination t) ++ rest) = Some (destination t, rest).
Proof.
  intros (Hne & Hl & Hp) _. assert (0 ≤ port t ≤ u16_max) as Hp' by (unfold u16_max; lia).
  unfold destination. destruct (parse_ip (host t)) as [[a b c d|segs]|] eqn:E; simpl.
  - exact (demo_port_be (λ rest p, Some (SocketAddress (mkSocketAddr (V4 a b c d) p), rest)) _ rest Hp').
  - destruct (parse_ip_wf _ _ E) as [H8 Hs]. pose proof (Socks.be16_all_length segs) as Hlen. rewrite H8 in Hlen.
    rewrite <- app_assoc. rewrite take_app_le, take_ge, drop_app_ge by lia. rewrite Hlen, Nat.sub_diag, drop_0.
    rewrite demo_port_be by done. by rewrite Socks.be_pairs_be16.
  - unfold len. rewrite Nat2Z.id, <- app_assoc, take_app_length, drop_app_length. by rewrite demo_port_be.
Qed.

#[local] Instance demo_reader : AddressReader := {| read_from := demo_read; read_from_destination := demo_read_destination |}.

Definition demo_server : Target := mkTarget (lit "192.0.2.7") 53.
Definition demo_name : Target := mkTarget (lit "example.com") 53.

(** A send to a name that the writer takes, three more to it, of which the last does not fit
    while the first is half written, a packet of the server, and a write that fails in the
    second frame. *)
Definition demo_events : list Event :=
  [EvSend (Ok [V4 192 0 2 7]) (lit "a") demo_name; EvWrite Take; EvWrite (Write 4);
   EvSend (Err "gone"%string) (lit "bc") demo_name; EvSend (Err "gone"%string) (lit "d") demo_name;
   EvSend (Err "gone"%string) (lit "full") demo_name; EvRead false; EvWrite (Write 100); EvWrite Flushed;
   EvWrite Take; EvWrite (Write 9); EvWrite (Failed "broken"); EvRecv; EvEnd; EvRecv; EvRecv].

Lemma demo_events_ok : Forall event_ok demo_events.
Proof.
  assert (target_wf demo_name) as Hn by (split_and!; [discriminate|by compute|by compute|by compute]).
  assert (∀ bytes, event_ok (EvSend (Err "gone"%string) bytes demo_name)) as He by (intros bytes; split; [done|discriminate]).
  constructor; [split; [done|]; intros l [= <-]; split; [discriminate|]; constructor; [unfold ip_wf, octet; split_and!; lia|constructor]|].
  repeat (constructor; [first [apply He|exact I]|]). constructor.
Qed.

Lemma trojan_session_faithful_witness :
  ∃ h, run demo_events (mkHistory (trojan (frame demo_server (lit "reply"))) [] []) = Some h ∧
    accepted h = [(demo_server, lit "a"); (demo_server, lit "bc"); (demo_server, lit "d")] ∧
    wire (now h) `prefix_of` frames (accepted h).
Proof.
  destruct (trojan_session_faithful (frame demo_server (lit "reply")) demo_events demo_events_ok) as (h & Hr & Hw & _).
  exists h. split; [exact Hr|]. split; [|exact Hw]. vm_compute in Hr. injection Hr as <-. vm_compute. reflexivity.
Defined.

End UdpFacts.
