(* ===== verification/ZigMap.v ===== *)
(** * Order of rule providers (src/src/override_script.rs: [zig_map_order],
      [zig_string_hash])

    Canonical YAML lists rule providers in the order in which the hash table of an earlier
    implementation would: Wyhash over 64-bit words and open addressing in a table whose
    length is a power of two. The order is part of the format, so both are modelled as they
    are computed, with [None] for a panic of the code (a slice out of range, the
    [unreachable!] after the last probe). *)
From S2P Require Import Prelude.

Module ZigMap.

(** ** Wyhash *)

Definition u64 (z : Z) : Z := z mod 2 ^ 64.

Definition SECRET0 : Z := 0xa0761d6478bd642f.
Definition SECRET1 : Z := 0xe7037ed1a0b428db.
Definition SECRET2 : Z := 0x8ebc6af09c88c6e3.
Definition SECRET3 : Z := 0x589965cc75374cc3.

(** [mix]: the product has 128 bits. *)
Definition mix (a b : Z) : Z := Z.lxor (u64 (a * b)) (u64 (Z.shiftr (a * b) 64)).

Fixpoint little_endian (i v : Z) (b : str) : Z :=
  match b with
  | [] => v
  | x :: b => little_endian (i + 1) (Z.lor v (u64 (Z.shiftl x (i * 8)))) b
  end.

(** [read(&bytes[at..], n)] *)
Definition read (bytes : str) (at_ n : nat) : option Z :=
  if (at_ + n <=? length bytes)%nat then Some (little_endian 0 0 (take n (drop at_ bytes))) else None.

(** One lane of a block: [mix(read(..) ^ secret, read(..) ^ state)]. *)
Definition lane (bytes : str) (i : nat) (secret state : Z) : option Z :=
  let? x := read bytes i 8 in
  let? y := read bytes (i + 8) 8 in
  Some (mix (Z.lxor x secret) (Z.lxor y state)).

(** [while i + 48 < len] *)
Fixpoint blocks (fuel : nat) (bytes : str) (i : nat) (s0 s1 s2 : Z) : option (nat * Z * Z * Z) :=
  if (length bytes <=? i + 48)%nat then Some (i, s0, s1, s2)
  else
    match fuel with
    | O => None
    | S fuel =>
        let? s0 := lane bytes i SECRET1 s0 in
        let? s1 := lane bytes (i + 16) SECRET2 s1 in
        let? s2 := lane bytes (i + 32) SECRET3 s2 in
        blocks fuel bytes (i + 48) s0 s1 s2
    end.

(** [while i + 16 < len] *)
Fixpoint rounds (fuel : nat) (bytes : str) (i : nat) (s0 : Z) : option Z :=
  if (length bytes <=? i + 16)%nat then Some s0
  else
    match fuel with
    | O => None
    | S fuel => let? s0 := lane bytes i SECRET1 s0 in rounds fuel bytes (i + 16) s0
    end.

(** At most 16 bytes: the two words, the state stays. *)
Definition short_words (bytes : str) : option (Z * Z) :=
  let n := length bytes in
  if (4 <=? n)%nat then
    let end_ := (n - 4)%nat in
    let quarter := (n / 8 * 4)%nat in
    let? w := read bytes 0 4 in
    let? x := read bytes quarter 4 in
    let? y := read bytes end_ 4 in
    let? z := read bytes (end_ - quarter) 4 in
    Some (Z.lor (Z.shiftl w 32) x, Z.lor (Z.shiftl y 32) z)
  else if (0 <? n)%nat then
    let? x := bytes !! 0%nat in
    let? y := bytes !! (n / 2)%nat in
    let? z := bytes !! (n - 1)%nat in
    Some (Z.lor (Z.lor (Z.shiftl x 16) (Z.shiftl y 8)) z, 0)
  else Some (0, 0).

(** More than 16 bytes: the words at the end and the state of everything before. *)
Definition long_words (bytes : str) (seed : Z) : option (Z * Z * Z) :=
  let n := length bytes in
  let? '(i, s0) :=
    (if (48 <=? n)%nat then
       let? '(i, s0, s1, s2) := blocks n bytes 0 seed seed seed in
       Some (i, Z.lxor s0 (Z.lxor s1 s2))
     else Some (0%nat, seed)) in
  let? s0 := rounds n bytes i s0 in
  let? a := read bytes (n - 16) 8 in
  let? b := read bytes (n - 8) 8 in
  Some (a, b, s0).

Definition zig_string_hash (bytes : str) : option Z :=
  let seed := mix SECRET0 SECRET1 in
  let? '(a, b, s0) :=
    (if (length bytes <=? 16)%nat then let? '(a, b) := short_words bytes in Some (a, b, seed)
     else long_words bytes seed) in
  let product := Z.lxor a SECRET1 * Z.lxor b s0 in
  Some (mix (Z.lxor (Z.lxor (u64 product) SECRET0) (len bytes))
            (Z.lxor (u64 (Z.shiftr product 64)) SECRET1)).

(** ** The table *)

Abbreviation slots := (list (option str)).

(** [for _ in 0..slots.len()]: the probes from [index] on; without a free slot the code is
    [unreachable!]. *)
Fixpoint probe (n : nat) (s : slots) (index : Z) (name : str) : option slots :=
  match n with
  | O => None
  | S n =>
      let? slot := s !! Z.to_nat index in
      match slot with
      | None => Some (<[Z.to_nat index := Some name]> s)
      | Some _ => probe n s (Z.land (index + 1) (len s - 1)) name
      end
  end.

Definition insert (s : slots) (name : str) : option slots :=
  let? h := zig_string_hash name in
  probe (length s) s (Z.land h (len s - 1)) name.

Fixpoint insert_all (s : slots) (names : list str) : option slots :=
  match names with
  | [] => Some s
  | name :: names => let? s := insert s name in insert_all s names
  end.

(** [into_iter().flatten().collect()] *)
Definition flatten (s : slots) : list str := omap id s.

(** [usize::next_power_of_two] *)
Definition next_power_of_two (n : Z) : Z := 2 ^ Z.log2_up n.

Definition capacity (count : nat) : nat :=
  Z.to_nat (Z.max 8 (next_power_of_two ((Z.of_nat count + 1) * 100 / 80 + 1))).

(** The table with room for one more than [count] names. *)
Definition grow (s : slots) (count : nat) : option slots :=
  if (length s * 80 / 100 <? S count)%nat
  then insert_all (replicate (capacity count) None) (flatten s)
  else Some s.

Fixpoint fill (s : slots) (count : nat) (names : list str) : option slots :=
  match names with
  | [] => Some s
  | name :: names =>
      let? s := grow s count in
      let? s := insert s name in
      fill s (S count) names
  end.

Definition zig_map_order (names : list str) : option (list str) :=
  let? s := fill [] 0 names in
  Some (flatten s).

(** ** The hash is defined for every name *)

Lemma read_total bytes i n : (i + n ≤ length bytes)%nat → is_Some (read bytes i n).
Proof. intros H. unfold read. apply Nat.leb_le in H. rewrite H. by eexists. Qed.

Lemma lane_total bytes i secret s : (i + 16 ≤ length bytes)%nat → is_Some (lane bytes i secret s).
Proof.
  intros H. unfold lane. destruct (read_total bytes i 8) as [x ->]; [lia|].
  destruct (read_total bytes (i + 8) 8) as [y ->]; [lia|]. by eexists.
Qed.

Lemma blocks_total fuel bytes i s0 s1 s2 : (length bytes ≤ i + fuel)%nat → (i ≤ length bytes)%nat →
  ∃ j t0 t1 t2, blocks fuel bytes i s0 s1 s2 = Some (j, t0, t1, t2) ∧ (j ≤ length bytes)%nat.
Proof.
  revert i s0 s1 s2. induction fuel as [|fuel IH]; intros i s0 s1 s2 Hf Hi; simpl.
  - destruct (Nat.leb_spec (length bytes) (i + 48)); [|lia]. naive_solver.
  - destruct (Nat.leb_spec (length bytes) (i + 48)) as [H|H]; [naive_solver|].
    destruct (lane_total bytes i SECRET1 s0) as [? ->]; [lia|].
    destruct (lane_total bytes (i + 16) SECRET2 s1) as [? ->]; [lia|].
    destruct (lane_total bytes (i + 32) SECRET3 s2) as [? ->]; [lia|].
    apply IH; lia.
Qed.

Lemma rounds_total fuel bytes i s0 : (length bytes ≤ i + fuel)%nat → is_Some (rounds fuel bytes i s0).
Proof.
  revert i s0. induction fuel as [|fuel IH]; intros i s0 Hf; simpl;
    destruct (Nat.leb_spec (length bytes) (i + 16)); try (by eexists); [lia|].
  destruct (lane_total bytes i SECRET1 s0) as [? ->]; [lia|]. apply IH. lia.
Qed.

Lemma short_words_total bytes : (length bytes ≤ 16)%nat → is_Some (short_words bytes).
Proof.
  intros H. unfold short_words. destruct (Nat.leb_spec 4 (length bytes)) as [H4|H4].
  - pose proof (Nat.div_mod_eq (length bytes) 8) as Hd.
    pose proof (Nat.mod_upper_bound (length bytes) 8 ltac:(lia)) as Hm.
    destruct (read_total bytes 0 4) as [? ->]; [lia|].
    destruct (read_total bytes (length bytes / 8 * 4) 4) as [? ->]; [lia|].
    destruct (read_total bytes (length bytes - 4) 4) as [? ->]; [lia|].
    destruct (read_total bytes (length bytes - 4 - length bytes / 8 * 4) 4) as [? ->]; [lia|].
    by eexists.
  - destruct (Nat.ltb_spec 0 (length bytes)) as [H0|H0]; [|by eexists].
    pose proof (Nat.div_mod_eq (length bytes) 2) as Hd.
    destruct (lookup_lt_is_Some_2 bytes 0) as [? ->]; [lia|].
    destruct (lookup_lt_is_Some_2 bytes (length bytes / 2)) as [? ->]; [lia|].
    destruct (lookup_lt_is_Some_2 bytes (length bytes - 1)) as [? ->]; [lia|]. by eexists.
Qed.

Lemma long_words_total bytes seed : (16 < length bytes)%nat → is_Some (long_words bytes seed).
Proof.
  intros H. unfold long_words.
  assert (∃ i s0, (if (48 <=? length bytes)%nat then
      let? '(i, s0, s1, s2) := blocks (length bytes) bytes 0 seed seed seed in
      Some (i, Z.lxor s0 (Z.lxor s1 s2)) else Some (0%nat, seed)) = Some (i, s0)) as (i & s0 & ->).
  { destruct (Nat.leb_spec 48 (length bytes)); [|naive_solver].
    destruct (blocks_total (length bytes) bytes 0 seed seed seed) as (j & ? & ? & ? & -> & _); [lia..|].
    naive_solver. }
  destruct (rounds_total (length bytes) bytes i s0) as [? ->]; [lia|].
  destruct (read_total bytes (length bytes - 16) 8) as [? ->]; [lia|].
  destruct (read_total bytes (length bytes - 8) 8) as [? ->]; [lia|]. by eexists.
Qed.

Lemma zig_string_hash_total bytes : is_Some (zig_string_hash bytes).
Proof.
  unfold zig_string_hash. destruct (Nat.leb_spec (length bytes) 16) as [H|H].
  - destruct (short_words_total bytes H) as [[a b] ->]. by eexists.
  - destruct (long_words_total bytes (mix SECRET0 SECRET1) H) as [[[a b] s0] ->]. by eexists.
Qed.

(** ** Probing *)

(** The table's length is a power of two: masking is reduction modulo it. *)
Definition sized (s : slots) : Prop := ∃ k, 0 ≤ k ∧ len s = 2 ^ k.

Lemma mask_mod s h : sized s → Z.land h (len s - 1) = h mod len s.
Proof.
  intros (k & Hk & ->). rewrite <- Z.land_ones by done. f_equal. rewrite Z.ones_equiv. lia.
Qed.

Lemma sized_pos s : sized s → 0 < len s.
Proof. intros (k & Hk & ->). by apply Z.pow_pos_nonneg. Qed.

Definition taken (s : slots) : nat := length (flatten s).

Lemma flatten_insert s i name : s !! i = Some None → flatten (<[i := Some name]> s) ≡ₚ name :: flatten s.
Proof.
  unfold flatten. revert i. induction s as [|x s IH]; intros [|i] H; simpl in *; simplify_eq; [done|].
  destruct x as [y|]; simpl; rewrite IH by done; [constructor|done].
Qed.

(** A free slot [d] places after [index] is reached within [d + 1] probes. *)
Lemma probe_finds n s index name (d : nat) :
  sized s → 0 ≤ index < len s → s !! Z.to_nat ((index + Z.of_nat d) mod len s) = Some None →
  (d < n)%nat →
  ∃ i, s !! i = Some None ∧ probe n s index name = Some (<[i := Some name]> s).
Proof.
  intros Hs. revert index d. induction n as [|n IH]; intros index d Hi Hd Hn; [lia|]. simpl.
  destruct (lookup_lt_is_Some_2 s (Z.to_nat index)) as [x Hx]; [unfold len in Hi; lia|]. rewrite Hx.
  destruct x as [y|]; [|naive_solver].
  destruct d as [|d].
  { rewrite Z.add_0_r, Z.mod_small in Hd by lia. congruence. }
  rewrite mask_mod by done. apply (IH _ d).
  - apply Z.mod_pos_bound. lia.
  - rewrite Z.add_mod_idemp_l by lia. replace (index + 1 + Z.of_nat d) with (index + Z.of_nat (S d)) by lia.
    done.
  - lia.
Qed.

Lemma free_slot s : (taken s < length s)%nat → ∃ j, s !! j = Some None.
Proof.
  unfold taken, flatten. induction s as [|x s IH]; simpl; [lia|].
  destruct x as [y|]; simpl; [|by exists 0%nat].
  intros H%Nat.succ_lt_mono. destruct (IH H) as [j Hj]. by exists (S j).
Qed.

(** A table with a free slot takes one more name. *)
Lemma insert_total s name : sized s → (taken s < length s)%nat →
  ∃ s', insert s name = Some s' ∧ flatten s' ≡ₚ name :: flatten s ∧ length s' = length s.
Proof.
  intros Hs Hfree. unfold insert. destruct (zig_string_hash_total name) as [h ->].
  destruct (free_slot s Hfree) as [j Hj]. rewrite mask_mod by done.
  pose proof (sized_pos s Hs) as Hpos. pose proof (Z.mod_pos_bound h (len s) Hpos) as Hi.
  pose proof (lookup_lt_Some _ _ _ Hj) as Hjl.
  set (d := (Z.of_nat j - h mod len s) mod len s).
  assert (0 ≤ d < len s) as Hd by (by apply Z.mod_pos_bound).
  destruct (probe_finds (length s) s (h mod len s) name (Z.to_nat d)) as (i & Hfi & ->); [done|done| |unfold len in *; lia|].
  - rewrite Z2Nat.id by lia. unfold d. rewrite Z.add_mod_idemp_r by lia.
    replace (h mod len s + (Z.of_nat j - h mod len s)) with (Z.of_nat j) by lia.
    rewrite Z.mod_small by (unfold len; lia). by rewrite Nat2Z.id.
  - eexists. split; [done|]. split; [by apply flatten_insert|apply length_insert].
Qed.

Lemma insert_all_total names s : sized s → (taken s + length names ≤ length s)%nat →
  ∃ s', insert_all s names = Some s' ∧ flatten s' ≡ₚ names ++ flatten s ∧ length s' = length s.
Proof.
  revert s. induction names as [|name names IH]; intros s Hs Hn; simpl in *; [naive_solver|].
  destruct (insert_total s name Hs) as (s1 & -> & Hp & Hl); [lia|].
  destruct (IH s1) as (s2 & -> & Hp2 & Hl2).
  - unfold sized, len. by rewrite Hl.
  - unfold taken in *. rewrite Hp, Hl. simpl. lia.
  - exists s2. split; [done|]. split; [|congruence]. rewrite Hp2, Hp.
    by rewrite Permutation_middle.
Qed.

(** ** Growing *)

Lemma next_power_of_two_ge n : 0 < n → n ≤ next_power_of_two n.
Proof.
  intros Hn. unfold next_power_of_two. destruct (decide (n = 1)) as [->|]; [done|].
  apply Z.log2_up_spec. lia.
Qed.

Lemma capacity_pow count : ∃ k, 0 ≤ k ∧ Z.of_nat (capacity count) = 2 ^ k.
Proof.
  unfold capacity. set (n := (Z.of_nat count + 1) * 100 / 80 + 1).
  rewrite Z2Nat.id by lia. pose proof (Z.log2_up_nonneg n) as Hl.
  destruct (Z.max_spec 8 (next_power_of_two n)) as [[_ ->]|[_ ->]].
  - by exists (Z.log2_up n).
  - by exists 3.
Qed.

(** The new table keeps the load below four fifths. *)
Lemma capacity_room count : (S count < capacity count)%nat.
Proof.
  unfold capacity. set (q := (Z.of_nat count + 1) * 100 / 80).
  assert (Z.of_nat count + 1 ≤ q) as Hq.
  { apply Z.div_le_lower_bound; lia. }
  pose proof (next_power_of_two_ge (q + 1)). lia.
Qed.

Lemma flatten_free n : flatten (replicate n None) = [].
Proof. induction n as [|n IH]; [done|]. exact IH. Qed.

Definition table (s : slots) : Prop := s = [] ∨ sized s.

Lemma grow_total s : table s → ∃ s', grow s (taken s) = Some s' ∧ sized s' ∧
  flatten s' ≡ₚ flatten s ∧ (taken s' < length s')%nat.
Proof.
  intros Ht. unfold grow. destruct (Nat.ltb_spec (length s * 80 / 100) (S (taken s))) as [H|H].
  - destruct (insert_all_total (flatten s) (replicate (capacity (taken s)) None)) as (s' & -> & Hp & Hl).
    + destruct (capacity_pow (taken s)) as (k & Hk & Hc). exists k. unfold len.
      by rewrite length_replicate.
    + rewrite length_replicate. unfold taken at 1. rewrite flatten_free. simpl.
      pose proof (capacity_room (taken s)). unfold taken in *. lia.
    + rewrite flatten_free, app_nil_r in Hp. rewrite length_replicate in Hl.
      exists s'. split_and!; [done| |done|].
      * destruct (capacity_pow (taken s)) as (k & Hk & Hc). exists k. unfold len. by rewrite Hl.
      * unfold taken at 1. rewrite Hp, Hl. pose proof (capacity_room (taken s)). unfold taken in *. lia.
  - exists s. destruct Ht as [->|Hs]; [simpl in H; lia|]. split_and!; [done..|].
    pose proof (Nat.Div0.div_le_upper_bound (length s * 80) 100 (length s)). lia.
Qed.

Lemma fill_total names s : table s →
  ∃ s', fill s (taken s) names = Some s' ∧ flatten s' ≡ₚ names ++ flatten s.
Proof.
  revert s. induction names as [|name names IH]; intros s Hs; simpl; [naive_solver|].
  destruct (grow_total s Hs) as (s1 & -> & Hs1 & Hp1 & Hf1).
  destruct (insert_total s1 name Hs1 Hf1) as (s2 & -> & Hp2 & Hl2).
  assert (taken s2 = S (taken s)) as Hc.
  { unfold taken. rewrite Hp2. simpl. by rewrite Hp1. }
  rewrite <- Hc. destruct (IH s2) as (s3 & -> & Hp3).
  - right. unfold sized, len. by rewrite Hl2.
  - exists s3. split; [done|]. rewrite Hp3, Hp2, Hp1. by rewrite Permutation_middle.
Qed.

Lemma zig_map_order_spec names : ∃ l, zig_map_order names = Some l ∧ l ≡ₚ names.
Proof.
  unfold zig_map_order. destruct (fill_total names []) as (s & Hf & Hp); [by left|].
  change (taken []) with 0%nat in Hf. rewrite Hf. exists (flatten s).
  split; [done|]. by rewrite Hp, app_nil_r.
Qed.

Lemma zig_map_order_total names : zig_map_order names ≠ None.
Proof. destruct (zig_map_order_spec names) as (l & -> & _). done. Qed.

Lemma zig_map_order_perm names l : zig_map_order names = Some l → l ≡ₚ names.
Proof. destruct (zig_map_order_spec names) as (l' & -> & H). by intros [= <-]. Qed.

(** ** Property *)

(** Ordering the names of rule providers never panics and loses or invents none: for any
    list of names, of any length and with any bytes, every slice of the hash is in range, every
    probe finds a free slot of the power-of-two table, and the order is a permutation. *)
Theorem zig_map_order_permutes names : ∃ l, zig_map_order names = Some l ∧ l ≡ₚ names.
Proof. apply zig_map_order_spec. Qed.

(** The providers of the repository's fixture in the order of its source and of its output
    (src/tests/fixtures/state_provider_source.yaml and state_provider_public.yaml). *)
Definition fixture_names : list str := reverse [
  lit "zed"; lit "alpha"; lit "beta"; lit "provider-0-"; lit "provider-1-x"; lit "provider-2-xx";
  lit "provider-3-xxx"; lit "provider-4-xxxx"; lit "provider-5-xxxxx"; lit "provider-6-xxxxxx";
  lit "provider-7-xxxxxxx"; lit "provider-8-xxxxxxxx"; lit "provider-9-xxxxxxxxx";
  lit "provider-10-xxxxxxxxxx"; lit "provider-11-xxxxxxxxxxx"; lit "provider-12-xxxxxxxxxxxx";
  lit "provider-13-xxxxxxxxxxxxx"; lit "provider-14-xxxxxxxxxxxxxx"; lit "provider-15-xxxxxxxxxxxxxxx";
  lit "long-aaaaaaaaaaaaaaaaaaaaaaaaaaaaaaaaaaaaaaaaaaaaaaaaaaaaaaaaaaaa";
  [228; 184; 173] ++ lit ".example"; lit "x\u2066:#"].

Definition fixture_order : list str := [
  lit "zed"; lit "beta"; lit "provider-4-xxxx"; lit "provider-1-x"; lit "provider-12-xxxxxxxxxxxx";
  lit "provider-8-xxxxxxxx"; lit "provider-7-xxxxxxx"; lit "provider-15-xxxxxxxxxxxxxxx"; lit "alpha";
  lit "long-aaaaaaaaaaaaaaaaaaaaaaaaaaaaaaaaaaaaaaaaaaaaaaaaaaaaaaaaaaaa"; lit "provider-13-xxxxxxxxxxxxx";
  [228; 184; 173] ++ lit ".example"; lit "provider-6-xxxxxx"; lit "provider-10-xxxxxxxxxx";
  lit "provider-0-"; lit "provider-11-xxxxxxxxxxx"; lit "provider-14-xxxxxxxxxxxxxx"; lit "provider-3-xxx";
  lit "x\u2066:#"; lit "provider-9-xxxxxxxxx"; lit "provider-5-xxxxx"; lit "provider-2-xx"].

Example fixture_ordered :
  (let? l := zig_map_order fixture_names in zig_map_order l) = Some fixture_order.
Proof. vm_compute. reflexivity. Qed.

End ZigMap.
