(* ===== verification/Invocation.v ===== *)
(** * Invoking an override script (src/src/override_script.rs: [OverrideArg], [CliOptions],
      [Invocation])

    The options of the command line that select a script, their forwarding to another
    process, and the environment a script runs in. *)
From S2P Require Import Prelude BTree.

Module Invocation.

Definition MAX_OUTPUT_BYTES : Z := 1024 * 1024.

(** ** Arguments of a script *)

Record OverrideArg := mkArg { arg_key : str; arg_value : str }.

(** [OverrideArg::parse] *)
Definition parse_arg (pair : str) : res OverrideArg :=
  let! '(key, value) := ok_or (split_once 61 pair) "INVALID_OVERRIDE_ARG: expected key=value"%string in
  let key := trim_blank key in
  if bool_decide (key = []) then Err "INVALID_OVERRIDE_ARG: key must not be empty"
  else Ok (mkArg key value).

Definition TIMEOUT_MS_DEFAULT : Z := 5000.
Definition TIMEOUT_MS_MAX : Z := 60000.
Definition timeout_message : string := "INVALID_OVERRIDE_TIMEOUT: expected 1..60000 milliseconds".

Definition validate_timeout (timeout : Z) : res unit :=
  if (1 <=? timeout) && (timeout <=? TIMEOUT_MS_MAX) then Ok tt else Err timeout_message.

Definition parse_timeout_ms (text : str) : res Z :=
  if bool_decide (text = []) || negb (forallb is_ascii_digit text) then Err timeout_message
  else
    let! timeout := ok_or (parse_uint u32_max text) timeout_message in
    let! _ := validate_timeout timeout in
    Ok timeout.

Record CliOptions := mkOptions { script_path : option str; timeout_ms : Z; args : list OverrideArg }.

Definition default_options : CliOptions := mkOptions None TIMEOUT_MS_DEFAULT [].

(** One flag of the [match] in [CliOptions::parse]. *)
Definition set_option (flag value : str) (o : CliOptions) : res CliOptions :=
  if eq_str flag (lit "--override-script") then
    if bool_decide (value = []) then Err "MISSING_OVERRIDE_SCRIPT_PATH"
    else Ok (mkOptions (Some value) (timeout_ms o) (args o))
  else if eq_str flag (lit "--override-arg") then
    let! a := parse_arg value in
    Ok (mkOptions (script_path o) (timeout_ms o) (args o ++ [a]))
  else
    let! t := parse_timeout_ms value in
    Ok (mkOptions (script_path o) t (args o)).

(** The message quotes the flag, one of three literals. *)
Definition missing_value (flag : str) : string :=
  if eq_str flag (lit "--override-script") then "missing value for --override-script"
  else if eq_str flag (lit "--override-arg") then "missing value for --override-arg"
  else "missing value for --override-timeout-ms".

(** The loop of [CliOptions::parse]; [pending] is the flag whose value comes next. *)
Fixpoint parse_options (argv : list str) (pending : option str) (o : CliOptions) : res CliOptions :=
  match argv, pending with
  | [], Some flag => Err (missing_value flag)
  | [], None => Ok o
  | argument :: argv, Some flag =>
      let! o := set_option flag argument o in parse_options argv None o
  | argument :: argv, None =>
      let '(flag, inline) :=
        match split_once 61 argument with
        | Some (a, b) => (a, Some b)
        | None => (argument, None)
        end in
      if one_of flag ["--override-dump-json"; "--override-dump-yaml"]
      then Err "OVERRIDE_OPTION_DEPRECATED: use config dump instead"
      else if negb (one_of flag ["--override-script"; "--override-arg"; "--override-timeout-ms"])
      then parse_options argv None o
      else
        match inline with
        | Some value => let! o := set_option flag value o in parse_options argv None o
        | None => parse_options argv (Some flag) o
        end
  end.

(** [CliOptions::parse]: the first argument is the command's name. *)
Definition options_parse (argv : list str) : res CliOptions := parse_options (drop 1 argv) None default_options.

Definition forward_args (o : CliOptions) : list str :=
  (match script_path o with Some path => [lit "--override-script"; path] | None => [] end)
  ++ flat_map (λ a, [lit "--override-arg"; arg_key a ++ lit "=" ++ arg_value a]) (args o)
  ++ (if timeout_ms o =? TIMEOUT_MS_DEFAULT then []
      else [lit "--override-timeout-ms"; print_dec (timeout_ms o)]).

(** ** The environment of a script *)

Record Invocation := mkInvocation {
  iv_command : str;
  iv_config_path : str;
  iv_script_path : str;
  iv_timeout_ms : Z;
  iv_args : list OverrideArg;
}.

(** Sums saturate at [usize::MAX]. *)
Definition saturating_add (a b : Z) : Z := Z.min u64_max (a + b).

Definition input_bytes (iv : Invocation) : Z :=
  foldl (λ n a, saturating_add (saturating_add (saturating_add n (len (arg_key a))) (len (arg_value a))) 2)
    (saturating_add (saturating_add (len (iv_command iv)) (len (iv_config_path iv))) (len (iv_script_path iv)))
    (iv_args iv).

Definition to_ascii_uppercase_byte (b : Z) : Z := if is_ascii_lower b then b - 32 else b.

Definition env_key (key : str) : str :=
  (λ b, if is_ascii_alphanumeric b then to_ascii_uppercase_byte b else 95) <$> key.

Definition indexed_key (index : nat) (suffix : string) : str :=
  lit "ZC_OVERRIDE_ARG_" ++ print_dec (Z.of_nat index) ++ lit suffix.

Definition named_key (key : str) : str := lit "ZC_OVERRIDE_ARG_" ++ env_key key.

(** The loop over the arguments: the environment and the legacy list. *)
Fixpoint arg_env (index : nat) (as_ : list OverrideArg) (env : bmap str) (legacy : list str)
    : res (bmap str * list str) :=
  match as_ with
  | [] => Ok (env, legacy)
  | a :: as_ =>
      if bool_decide (arg_key a = []) then Err "INVALID_OVERRIDE_ARG: empty key"
      else
        let env := binsert (indexed_key index "_KEY") (arg_key a) env in
        let env := binsert (indexed_key index "_VALUE") (arg_value a) env in
        let env := binsert (named_key (arg_key a)) (arg_value a) env in
        arg_env (S index) as_ env (legacy ++ [arg_key a ++ lit "=" ++ arg_value a])
  end.

(** [legacy.join(";")] *)
Fixpoint join (sep : str) (ss : list str) : str :=
  match ss with
  | [] => []
  | [s] => s
  | s :: ss => s ++ sep ++ join sep ss
  end.

Definition base_env (iv : Invocation) : bmap str :=
  foldl (λ env kv, binsert (lit (fst kv)) (snd kv) env) []
    [("ZC_OVERRIDE_COMMAND"%string, iv_command iv);
     ("ZC_OVERRIDE_CONFIG_PATH"%string, iv_config_path iv);
     ("ZC_OVERRIDE_SCRIPT_PATH"%string, iv_script_path iv);
     ("ZC_OVERRIDE_TIMEOUT_MS"%string, print_dec (iv_timeout_ms iv));
     ("ZC_OVERRIDE_ARG_COUNT"%string, print_dec (len (iv_args iv)))].

Definition env_bytes (env : bmap str) : Z := foldr (λ kv n, len (fst kv) + len (snd kv) + 2 + n) 0 env.

Definition invocation_message : string := "INVALID_OVERRIDE_ARG: invocation exceeds 1 MiB".

(** [Invocation::environment] *)
Definition environment (iv : Invocation) : res (bmap str) :=
  let! _ := validate_timeout (iv_timeout_ms iv) in
  if MAX_OUTPUT_BYTES <? input_bytes iv then Err invocation_message
  else
    let! '(env, legacy) := arg_env 0 (iv_args iv) (base_env iv) [] in
    let env := binsert (lit "ZC_OVERRIDE_ARGS") (join (lit ";") legacy) env in
    if existsb (contains_byte 0) (values env)
    then Err "INVALID_OVERRIDE_ARG: environment values cannot contain NUL"
    else if MAX_OUTPUT_BYTES <? env_bytes env then Err invocation_message
    else Ok env.

End Invocation.
