(* ===== verification/Override.v ===== *)
(** * Overrides (src/src/override_script.rs: documents, normalisation, merging and the
      capability gate, the projection for the runtime)

    An override replaces fields of a configuration by the output of a script. Documents are
    parsed within limits, checked, normalised to a complete configuration, and the result must
    pass the gate [materializable] before anything uses it. Canonical YAML and merging are in
    [ConfigYaml]. A panic of the code ([unwrap] and indexing) is [None]. *)
From S2P Require Import Prelude Utf8 BTree Json Proxy.

Definition MAX_SOURCE_BYTES : Z := 16 * 1024 * 1024.
Definition MAX_OUTPUT_BYTES : Z := 1024 * 1024.
Definition MAX_COLLECTION_ENTRIES : Z := 262144.

Definition json_str (s : string) : Value := VString (lit s).
Definition json_int (n : Z) : Value := VNumber (PosInt n).

Definition is_string (v : Value) : bool := is_some (as_str v).
Definition is_object (v : Value) : bool := is_some (as_object v).
Definition is_null (v : Value) : bool := match v with VNull => true | _ => false end.
Definition is_boolean (v : Value) : bool := match v with VBool _ => true | _ => false end.

(** ** Documents *)

Definition entries_message : string := "OVERRIDE_OUTPUT_INVALID: collection entry limit exceeded".

(** [remaining.checked_sub(count)] *)
Definition charge (remaining count : Z) : res Z :=
  if remaining <? count then Err entries_message else Ok (remaining - count).

(** [for item in items { count_entries(item, remaining)?; }] *)
Definition count_each (count : Value → Z → res Z) :=
  fix go (items : list Value) (remaining : Z) : res Z :=
    match items with
    | [] => Ok remaining
    | item :: items => let! remaining := count item remaining in go items remaining
    end.

Definition count_fields (count : Value → Z → res Z) :=
  fix go (fields : list (str * Value)) (remaining : Z) : res Z :=
    match fields with
    | [] => Ok remaining
    | (_, item) :: fields => let! remaining := count item remaining in go fields remaining
    end.

Fixpoint count_entries (value : Value) (remaining : Z) : res Z :=
  match value with
  | VArray items => let! remaining := charge remaining (len items) in count_each count_entries items remaining
  | VObject fields => let! remaining := charge remaining (len fields) in count_fields count_entries fields remaining
  | _ => charge remaining 0
  end.

Definition empty_patch (patch : str) : bool :=
  forallb (λ b, (b =? 32) || (b =? 9) || (b =? 13) || (b =? 10)) patch.

(** [value.get("type")] names a kind of group. *)
Definition is_group (v : Value) : bool :=
  is_some_and (get "type" v ≫= as_str)
    (λ s, one_of s ["select"; "url-test"; "fallback"; "load-balance"; "relay"]).

Definition merge_failed (s : string) : string := "OVERRIDE_MERGE_FAILED: " +:+ s.

(** The members of an item of [proxies] or [proxy-groups]. *)
Definition check_members (item : Value) : res unit :=
  match get "proxies" item with
  | None => Ok tt
  | Some members =>
      let! members := ok_or (as_array members) (merge_failed "group proxies must be a list") in
      if 5122 <? len members then Err (merge_failed "proxy-group member limit exceeded")
      else if forallb is_string members then Ok tt
      else Err (merge_failed "group members must be strings")
  end.

Definition check_item (field : string) (item : Value) : res unit :=
  if String.eqb field "rules" then
    if is_string item then Ok tt else Err (merge_failed "rules must contain strings")
  else if negb (is_object item) || negb (is_some_and (get "name" item) is_string)
          || negb (is_some_and (get "type" item) is_string)
  then Err (merge_failed "proxy/group requires name and type strings")
  else check_members item.

Definition check_list (value : Value) (field_limit : string * Z) : res unit :=
  let '(field, limit) := field_limit in
  match get field value with
  | None => Ok tt
  | Some v =>
      let! l := ok_or (as_array v) (merge_failed (field +:+ " must be a list")) in
      if limit <? len l then Err (merge_failed (field +:+ " collection limit exceeded"))
      else validate_all (check_item field) l
  end.

Definition counts_message : string := merge_failed "proxy/group count limit exceeded".

(** The mixed list of [proxies] and its groups, counted with [proxy-groups]. *)
Definition check_counts (value : Value) : res unit :=
  let mixed := default [] (get "proxies" value ≫= as_array) in
  let groups := len (filter (λ item, is_group item = true) mixed) in
  if (4096 <? len mixed - groups)
     || (1024 <? groups + len (default [] (get "proxy-groups" value ≫= as_array)))
  then Err counts_message else Ok tt.

Definition check_providers (value : Value) : res unit :=
  match get "rule-providers" value with
  | None => Ok tt
  | Some v =>
      let! providers := ok_or (as_object v) (merge_failed "rule-providers must be a map") in
      if 4096 <? len providers then Err (merge_failed "rule-provider count limit exceeded")
      else if forallb is_object (values providers) then Ok tt
      else Err (merge_failed "rule-providers must contain maps")
  end.

Definition validate_collections (value : Value) : res unit :=
  let! _ := validate_all (check_list value) [("proxies"%string, 5120); ("proxy-groups"%string, 1024); ("rules"%string, 262144)] in
  let! _ := check_counts value in
  check_providers value.

(** ** Groups and plugin options *)

(** [split_source_groups] on the fields of the document: groups among the proxies go before
    the others. *)
Definition split_source_groups (map : bmap Value) : bmap Value :=
  match bget (lit "proxies") map ≫= as_array with
  | None => map
  | Some proxies =>
      let groups := filter (λ item, is_group item = true) proxies in
      let nodes := filter (λ item, is_group item = false) proxies in
      let map := binsert (lit "proxies") (VArray nodes) map in
      if bool_decide (groups = []) then map
      else
        let existing := default [] (bget (lit "proxy-groups") map ≫= as_array) in
        binsert (lit "proxy-groups") (VArray (groups ++ existing)) (bremove (lit "proxy-groups") map)
  end.

(** The options of one proxy under their canonical name. *)
Definition plugin_options (proxy : Value) : res Value :=
  let! map := ok_or (as_object proxy) (merge_failed "invalid proxy mapping") in
  let! map :=
    match bget (lit "plugin_opts") map with
    | None => Ok map
    | Some alias =>
        let map := bremove (lit "plugin_opts") map in
        if bcontains (lit "plugin-opts") map then Err (merge_failed "duplicate plugin options aliases")
        else Ok (binsert (lit "plugin-opts") alias map)
    end in
  match bget (lit "plugin-opts") map with
  | None => Ok (VObject map)
  | Some options =>
      let! options := ok_or (as_object options) (merge_failed "plugin options must be a mapping") in
      if existsb (λ kv, negb (one_of (fst kv) ["mode"; "host"]) || negb (is_string (snd kv))) options
      then Err (merge_failed "unsupported plugin options")
      else Ok (VObject map)
  end.

Fixpoint map_res {A B} (f : A → res B) (l : list A) : res (list B) :=
  match l with
  | [] => Ok []
  | a :: l => let! b := f a in let! bs := map_res f l in Ok (b :: bs)
  end.

(** [value.get_mut("proxies").and_then(Value::as_array_mut)] updated by [f]. *)
Definition canonical_plugin_options (map : bmap Value) : res (bmap Value) :=
  match bget (lit "proxies") map ≫= as_array with
  | None => Ok map
  | Some proxies =>
      let! proxies := map_res plugin_options proxies in
      Ok (binsert (lit "proxies") (VArray proxies) map)
  end.

(** ** Normalisation *)

Definition invalid_type (key : string) : string := merge_failed ("invalid " +:+ key +:+ " type").

(** [value] has the type of [default]. *)
Definition same_type (default value : Value) : bool :=
  match default with
  | VBool _ => is_boolean value
  | VNumber _ => is_some (as_i64 value)
  | VString _ => is_string value
  | VArray _ => is_some (as_array value)
  | VObject _ => is_object value
  | VNull => false
  end.

(** [map.entry(key).or_insert(default)], then the type of what is there. *)
Definition typed_default (map : bmap Value) (key_default : string * Value) : res (bmap Value) :=
  let '(key, default) := key_default in
  let map := if bcontains (lit key) map then map else binsert (lit key) default map in
  if is_some_and (bget (lit key) map) (same_type default) then Ok map else Err (invalid_type key).

Fixpoint typed_defaults (map : bmap Value) (l : list (string * Value)) : res (bmap Value) :=
  match l with
  | [] => Ok map
  | kd :: l => let! map := typed_default map kd in typed_defaults map l
  end.

Definition optional_string (nullable : bool) (map : bmap Value) (key : string) : res (bmap Value) :=
  match bget (lit key) map with
  | None => Ok map
  | Some v =>
      if is_null v && nullable then Ok (bremove (lit key) map)
      else if is_string v then Ok map
      else Err (invalid_type key)
  end.

Fixpoint optional_strings (nullable : bool) (map : bmap Value) (keys : list string) : res (bmap Value) :=
  match keys with
  | [] => Ok map
  | key :: keys => let! map := optional_string nullable map key in optional_strings nullable map keys
  end.

Definition integer_range (value : Value) (max : Z) (key : string) : res unit :=
  if is_some_and (get key value ≫= as_u64) (λ n, n <=? max) then Ok tt
  else Err (merge_failed ("invalid " +:+ key +:+ " range")).

Definition config_defaults : list (string * Value) := [
  ("port"%string, json_int 0); ("socks-port"%string, json_int 0); ("mixed-port"%string, json_int 0);
  ("redir-port"%string, json_int 0); ("tproxy-port"%string, json_int 0); ("allow-lan"%string, VBool false);
  ("bind-address"%string, json_str "*"); ("mode"%string, json_str "rule");
  ("log-level"%string, json_str "info"); ("ipv6"%string, VBool true);
  ("idle-session-check-interval"%string, json_int 30); ("idle-session-timeout"%string, json_int 30);
  ("min-idle-session"%string, json_int 0); ("proxies"%string, VArray []);
  ("proxy-groups"%string, VArray []); ("rule-providers"%string, VObject []); ("rules"%string, VArray [])].

Definition plugin_message : string := "UnsupportedCapability: plugin metadata".

(** [proxy["type"].as_str().unwrap()] *)
Definition type_of (proxy : Value) : option str := as_str (index "type" proxy).

(** [validate_plugin_metadata], with [simple_obfs::validate_host]. *)
Definition validate_plugin_metadata (proxy : Value) : pres unit :=
  try! kind := unwrap (type_of proxy) in
  match get "plugin" proxy, get "plugin-opts" proxy with
  | None, None => pok tt
  | Some plugin, Some options =>
      if eq_str kind (lit "ss") && is_some_and (as_str plugin) (λ s, one_of s ["obfs"; "obfs-local"])
         && is_some_and (get "mode" options ≫= as_str) (λ s, eq_str s (lit "http"))
      then
        match get "host" options ≫= as_str with
        | None => perr "UnsupportedCapability: missing obfs host"
        | Some host =>
            if obfs_host_ok host then pok tt
            else perr "obfs host must be 1..255 bytes without NUL, CR or LF"
        end
      else perr plugin_message
  | _, _ => perr plugin_message
  end.

Definition transport_message : string := merge_failed "transport options must be a map".

(** The [ws-opts] of a proxy; nothing is changed. *)
Definition check_ws (map : bmap Value) : res unit :=
  match bget (lit "ws-opts") map ≫= as_object with
  | None => Ok tt
  | Some ws =>
      let! _ := optional_string false ws "path" in
      match bget (lit "headers") ws with
      | None => Ok tt
      | Some headers =>
          let! headers := ok_or (as_object headers) "invalid ws headers"%string in
          let! _ := optional_string false headers "Host" in
          Ok tt
      end
  end.

Definition server_port_ok (map : bmap Value) : bool :=
  is_some_and (bget (lit "server") map) is_string
  && is_some_and (bget (lit "port") map ≫= as_u64) (λ p, (0 <? p) && (p <=? 65535)).

(** One iteration over [proxies]. *)
Definition normalize_proxy (proxy : Value) : pres Value :=
  try! map := unwrap (as_object proxy) in
  try! kind := unwrap (bget (lit "type") map ≫= as_str) in
  if negb (one_of kind ["direct"; "reject"; "http"; "socks5"; "ss"; "vmess"; "trojan"; "vless"; "anytls"])
  then perr (merge_failed "unknown proxy type")
  else
    try! map := Some (
      if one_of kind ["direct"; "reject"]
      then Ok (binsert (lit "port") (json_int 0) (binsert (lit "server") (json_str "") map))
      else if server_port_ok map then Ok map
      else Err (merge_failed "proxy server/port required")) in
    try! map := Some (optional_strings false map ["password"; "cipher"; "uuid"; "sni"; "network"; "plugin"]) in
    try! map := Some (typed_defaults map [("tls"%string, VBool false); ("skip-cert-verify"%string, VBool false);
                                          ("udp"%string, VBool false); ("alterId"%string, json_int 0)]) in
    if existsb (λ key, is_some_and (bget (lit key) map) (negb ∘ is_object)) ["grpc-opts"; "ws-opts"]%string
    then perr transport_message
    else
      try! _ := Some (check_ws map) in
      try! _ := Some (integer_range (VObject map) 65535 "alterId") in
      try! _ := validate_plugin_metadata (VObject map) in
      pok (VObject map).

(** One iteration over [proxy-groups]. *)
Definition normalize_group (group : Value) : pres Value :=
  if negb (is_group group) then perr (merge_failed "unknown group type")
  else
    try! map := unwrap (as_object group) in
    try! map := Some (optional_string false map "url") in
    try! map := Some (typed_defaults map [("proxies"%string, VArray []); ("interval"%string, json_int 300);
                                          ("tolerance"%string, json_int 100); ("lazy"%string, VBool true)]) in
    try! _ := Some (integer_range (VObject map) u32_max "interval") in
    try! _ := Some (integer_range (VObject map) 65535 "tolerance") in
    pok (VObject map).

Definition provider_message : string := merge_failed "invalid provider declaration".

Section Normalize.
(** [reqwest::Url::parse]: the scheme and the host, when there is one. The message of its
    failure is the crate's. *)
Context (url_parse : str → option (str * option str)).

Definition check_url (provider : Value) : res unit :=
  match get "url" provider ≫= as_str with
  | None => Ok tt
  | Some url =>
      let! '(scheme, host) := ok_or (url_parse url) "invalid URL"%string in
      if negb (one_of scheme ["http"; "https"]) || negb (is_some host)
      then Err "invalid provider URL" else Ok tt
  end.

(** One iteration over [rule-providers]. *)
Definition normalize_provider (provider : Value) : pres Value :=
  try! map := unwrap (as_object provider) in
  if negb (forallb (λ key, is_some_and (bget (lit key) map) is_string) ["type"; "behavior"; "path"]%string)
  then perr (merge_failed "provider fields required")
  else
    try! map := Some (optional_string true map "url") in
    try! map := Some (typed_default map ("interval"%string, json_int 86400)) in
    let provider := VObject map in
    try! _ := Some (integer_range provider u32_max "interval") in
    if is_int (index "interval" provider) 0
       || negb (is_some_and (as_str (index "type" provider)) (λ s, one_of s ["file"; "http"]))
       || negb (is_some_and (as_str (index "behavior" provider)) (λ s, one_of s ["domain"; "ipcidr"; "classical"]))
       || bool_decide (as_str (index "path" provider) = Some [])
    then perr provider_message
    else
      try! _ := Some (check_url provider) in
      pok provider.

(** [rule.trim_matches([' ', '\t', '\r', '\n'])] *)
Definition trim_rule (s : str) : str := trim_by (λ b, blank b || (b =? 13) || (b =? 10)) s.

Definition rule_kinds : list string :=
  ["DOMAIN"; "DOMAIN-SUFFIX"; "DOMAIN-KEYWORD"; "IP-CIDR"; "IP-CIDR6"; "GEOIP"; "RULE-SET"; "SRC-IP-CIDR";
   "DST-PORT"; "SRC-PORT"; "PROCESS-NAME"; "MATCH"]%string.

Fixpoint join_commas (fields : list str) : str :=
  match fields with
  | [] => []
  | [f] => f
  | f :: fields => f ++ lit "," ++ join_commas fields
  end.

(** One rule: its normal form and whether it is a MATCH. *)
Definition normalize_rule (rule : Value) : pres (Value * bool) :=
  try! source := unwrap (as_str rule) in
  let fields := split_byte 44 (trim_rule source) in
  try! kind := unwrap (fields !! 0%nat) in
  if negb (one_of kind rule_kinds) then perr (merge_failed "unknown rule type")
  else
    let count := if eq_str kind (lit "MATCH") then 2%nat else 3%nat in
    if (length fields <? count)%nat then perr (merge_failed "incomplete rule")
    else
      let normalized := join_commas (trim_blank <$> take count fields) in
      let normalized :=
        if existsb (λ field, eq_str (trim_blank field) (lit "no-resolve")) (drop count fields)
        then normalized ++ lit ",no-resolve" else normalized in
      pok (VString normalized, eq_str kind (lit "MATCH")).

(** The loop over [rules]: the rules and whether the last is a MATCH. *)
Fixpoint normalize_rules (rules : list Value) (final_seen : bool) : pres (list Value * bool) :=
  match rules with
  | [] => pok ([], final_seen)
  | rule :: rules =>
      if final_seen then perr (merge_failed "MATCH must be last")
      else
        try! '(r, final_seen) := normalize_rule rule in
        try! '(rs, final_seen) := normalize_rules rules final_seen in
        pok (r :: rs, final_seen)
  end.

Fixpoint map_try {A B} (f : A → pres B) (l : list A) : pres (list B) :=
  match l with
  | [] => pok []
  | a :: l => try! b := f a in try! bs := map_try f l in pok (b :: bs)
  end.

Definition map_values {A B} (f : A → pres B) (m : bmap A) : pres (bmap B) :=
  map_try (λ kv : str * A, try! b := f (snd kv) in pok (fst kv, b)) m.

(** [value[key].as_array_mut().unwrap()] updated by [f]. *)
Definition update_array (f : list Value → pres (list Value)) (key : string) (map : bmap Value) : pres (bmap Value) :=
  try! l := unwrap (bget (lit key) map ≫= as_array) in
  try! l := f l in
  pok (binsert (lit key) (VArray l) map).

Definition normalize_config (value : Value) : pres Value :=
  try! _ := Some (validate_anytls_fields value) in
  try! map := unwrap (as_object value) in
  try! map := Some (typed_defaults map config_defaults) in
  try! map := Some (optional_strings true map ["external-controller"; "external-ui"; "secret"]) in
  try! _ := Some (validate_all (integer_range (VObject map) 65535)
                    ["port"; "socks-port"; "mixed-port"; "redir-port"; "tproxy-port"]%string) in
  try! _ := Some (integer_range (VObject map) u32_max "min-idle-session") in
  try! map := update_array (map_try normalize_proxy) "proxies" map in
  try! map := update_array (map_try normalize_group) "proxy-groups" map in
  try! providers := unwrap (bget (lit "rule-providers") map ≫= as_object) in
  try! providers := map_values normalize_provider providers in
  let map := binsert (lit "rule-providers") (VObject providers) map in
  try! map := update_array (λ rules,
                try! '(rules, final_seen) := normalize_rules rules false in
                pok (if final_seen then rules else rules ++ [json_str "MATCH,REJECT"])) "rules" map in
  pok (VObject map).

(** ** Documents, normalised *)

(** [config::parse_document] *)
Context (parse_document : str → res Value).

Definition document (bytes : str) (limit : Z) : res Value :=
  if limit <? len bytes then Err "OVERRIDE_OUTPUT_INVALID: document byte limit exceeded"
  else if negb (utf8_valid bytes) then Err "OVERRIDE_OUTPUT_INVALID: YAML must be UTF-8"
  else
    let! value := map_err (λ _, "OVERRIDE_OUTPUT_INVALID: invalid YAML mapping, duplicate key or resource limit"%string)
                    (parse_document bytes) in
    if negb (is_object value) then Err "OVERRIDE_OUTPUT_INVALID: expected a YAML mapping"
    else let! _ := count_entries value MAX_COLLECTION_ENTRIES in Ok value.

Definition config_document (source : str) : pres Value :=
  try! value := Some (document source MAX_SOURCE_BYTES) in
  try! _ := Some (validate_collections value) in
  try! map := unwrap (as_object value) in
  try! map := Some (canonical_plugin_options (split_source_groups map)) in
  normalize_config (VObject map).

(** ** The capability gate *)

Definition group_supported (group : Value) : bool :=
  is_text (index "type" group) "select"
  && negb (is_some_and (as_str (index "name" group)) (λ s, one_of s ["DIRECT"; "REJECT"])).

(** One iteration over [proxies] of [materializable]. *)
Definition proxy_supported (proxy : Value) : pres unit :=
  try! kind := unwrap (type_of proxy) in
  if negb (one_of kind ["direct"; "reject"; "ss"; "trojan"; "anytls"])
     || is_some_and (as_str (index "name" proxy)) (λ s, one_of s ["DIRECT"; "REJECT"])
     || is_some (get "ws-opts" proxy) || is_some (get "grpc-opts" proxy)
     || is_some_and (get "network" proxy) (λ v, negb (is_text v "tcp"))
  then perr "UnsupportedCapability: proxy transport"
  else if eq_str kind (lit "ss")
          && (is_bool (index "tls" proxy) true
              || is_some_and (get "cipher" proxy) (λ v,
                   negb (is_some_and (as_str v) (λ s,
                     one_of s ["aes-128-gcm"; "aes-256-gcm"; "chacha20-ietf-poly1305"; "chacha20-poly1305"]))))
  then perr "UnsupportedCapability: Shadowsocks cipher/TLS"
  else validate_plugin_metadata proxy.

Fixpoint each_try {A} (f : A → pres unit) (l : list A) : pres unit :=
  match l with
  | [] => pok tt
  | a :: l => try! _ := f a in each_try f l
  end.

Definition materializable (value : Value) : pres unit :=
  if is_int (index "mixed-port" value) 0
     && (negb (is_int (index "port" value) 0) || negb (is_int (index "socks-port" value) 0))
  then perr "UnsupportedCapability: standalone listeners"
  else
    try! groups := unwrap (as_array (index "proxy-groups" value)) in
    if negb (forallb group_supported groups) then perr "UnsupportedCapability: proxy group"
    else
      try! proxies := unwrap (as_array (index "proxies" value)) in
      each_try proxy_supported proxies.

(** ** The projection for the runtime *)

Definition remove_keys (keys : list string) (map : bmap Value) : bmap Value :=
  foldl (λ map key, bremove (lit key) map) map keys.

Definition metadata_keys : list string :=
  ["dns"; "hosts"; "sniffer"; "profile"; "experimental"; "unified-delay"; "clash-for-android"; "redir-port";
   "tproxy-port"; "ipv6"; "external-ui"; "idle-session-check-interval"; "idle-session-timeout";
   "min-idle-session"]%string.

Definition runtime_group (group : Value) : pres Value :=
  try! map := unwrap (as_object group) in
  pok (VObject (remove_keys ["url"; "interval"; "tolerance"; "lazy"] map)).

(** Fields the connectors of a kind do not use. *)
Definition unused (kind : option str) : list string :=
  match kind with
  | Some kind =>
      if one_of kind ["direct"; "reject"] then ["password"; "cipher"; "uuid"; "alterId"; "tls"; "sni"; "skip-cert-verify"]
      else if eq_str kind (lit "ss") then ["uuid"; "alterId"; "sni"; "skip-cert-verify"]
      else if eq_str kind (lit "trojan") then ["uuid"; "alterId"; "cipher"; "tls"]
      else []
  | None => []
  end%string.

Definition runtime_proxy (proxy : Value) : pres Value :=
  try! map := unwrap (as_object proxy) in
  let map := foldl (λ map key, if is_some_and (bget (lit key) map) (λ v, is_bool v false)
                               then bremove (lit key) map else map) map ["tls"; "skip-cert-verify"]%string in
  let map := remove_keys (unused (bget (lit "type") map ≫= as_str)) map in
  pok (VObject (if is_some_and (bget (lit "alterId") map) (λ v, is_int v 0)
                then bremove (lit "alterId") map else map)).

(** [runtime_source] up to its text; [map["allow-lan"]] panics when there is no such key. *)
Definition runtime_value (source : str) : pres Value :=
  try! value := config_document source in
  try! map := unwrap (as_object value) in
  let map := remove_keys metadata_keys map in
  try! lan := unwrap (bget (lit "allow-lan") map) in
  let map := if is_bool lan false then binsert (lit "bind-address") (json_str "127.0.0.1") map else map in
  try! map := update_array (map_try runtime_group) "proxy-groups" map in
  try! map := update_array (map_try runtime_proxy) "proxies" map in
  pok (VObject map).

End Normalize.
