(* ===== verification/ConfigYaml.v ===== *)
(** * Canonical YAML (src/src/override_script.rs: [BoundedText], [yaml_quote],
      [canonical_config_yaml], [merge], the dumps)

    A normalised configuration is written in one fixed format. The writer is bounded and
    replaces characters that could deceive a terminal by escapes. Merging an override ends in
    this format, and so do the public dump, in which secrets are replaced, and the snapshot of
    a running instance. *)
From S2P Require Import Prelude Utf8 BTree Json Document Proxy Override ZigMap.

(** ** The bounded writer *)

Definition unsafe_unicode (c : Z) : bool :=
  (c =? 0x61c) || (c =? 0x200e) || (c =? 0x200f) || in_range 0x2028 0x202e c
  || in_range 0x2066 0x2069 c || (c =? 0xfeff) || in_range 0x80 0x9f c.

(** [format!("\\u{:04x}", c)] *)
Definition unicode_escape (c : Z) : str := lit "\u" ++ pad_left 4 48 (print_hex c).

(** One character of [BoundedText::write_str]; [None] is [fmt::Error]. *)
Definition write_char (limit : Z) (text : str) (c : Z) : option str :=
  let room := Z.max 0 (limit - len text) in
  if unsafe_unicode c then
    if room <? 6 then None else Some (text ++ unicode_escape c)
  else if room <? len_utf8 c then None
  else Some (text ++ encode1 c).

Fixpoint write_chars (limit : Z) (text : str) (cs : list Z) : option str :=
  match cs with
  | [] => Some text
  | c :: cs => let? text := write_char limit text c in write_chars limit text cs
  end.

Definition write_str (limit : Z) (text s : str) : option str := write_chars limit text (chars s).

Definition output_limit : string := "CONFIG_DUMP_FAILED: output limit exceeded".

(** Writing to the output of this format, whose limit is that of sources. *)
Definition put (out s : str) : pres str := Some (ok_or (write_str MAX_SOURCE_BYTES out s) output_limit).

(** ** Quoting *)

Definition quote_char (c : Z) : str :=
  if c =? 92 then lit "\\"
  else if c =? 34 then [92; 34]
  else if c =? 10 then lit "\n"
  else if c =? 13 then lit "\r"
  else if c =? 9 then lit "\t"
  else if in_range 0 31 c || (c =? 127) then lit "\x" ++ pad_left 2 48 (print_hex c)
  else if unsafe_unicode c then unicode_escape c
  else encode1 c.

Definition yaml_quote (text : str) : str := [34] ++ flat_map quote_char (chars text) ++ [34].

Definition newline : str := [10].

Section Yaml.
(** [Value::to_string] of serde_json. *)
Context (to_json : Value → str).

(** [yaml_field] *)
Definition yaml_field (prefix key : string) (v : Value) (out : str) : pres str :=
  let scalar := match as_str v with Some s => yaml_quote s | None => to_json v end in
  put out (lit prefix ++ lit key ++ lit ": " ++ scalar ++ newline).

(** A field that is written when it is there. *)
Definition present_field (prefix : string) (v : Value) (key : string) (out : str) : pres str :=
  match get key v with Some x => yaml_field prefix key x out | None => pok out end.

(** [for a in l { f(a, out)? }] *)
Fixpoint each {A} (f : A → str → pres str) (l : list A) (out : str) : pres str :=
  match l with
  | [] => pok out
  | a :: l => try! out := f a out in each f l out
  end.

Definition indexed_field (prefix : string) (v : Value) (key : string) : str → pres str :=
  yaml_field prefix key (index key v).

(** ** The format *)

Inductive ConfigYamlKind := Effective | Public | Runtime.
#[export] Instance ConfigYamlKind_eq_dec : EqDecision ConfigYamlKind.
Proof. solve_decision. Defined.

Definition is_kind (a b : ConfigYamlKind) : bool := bool_decide (a = b).

Definition write_provider (value : Value) (name : str) (out : str) : pres str :=
  try! out := put out (lit "  " ++ yaml_quote name ++ lit ":" ++ newline) in
  let provider := default VNull (as_object (index "rule-providers" value) ≫= bget name) in
  each (present_field "    " provider) ["type"; "behavior"; "url"; "path"; "interval"]%string out.

Definition write_providers (kind : ConfigYamlKind) (value : Value) (providers : list str) (out : str) : pres str :=
  if is_kind kind Runtime then pok out
  else if bool_decide (providers = []) then
    if is_kind kind Effective then put out (lit "rule-providers: {}" ++ newline) else pok out
  else
    try! out := put out (lit "rule-providers:" ++ newline) in
    each (write_provider value) providers out.

Definition write_ws (ws : Value) (out : str) : pres str :=
  let path := get "path" ws in
  let host := get "headers" ws ≫= get "Host" in
  try! out := put out (if is_some path || is_some host then lit "    ws-opts:" ++ newline
                       else lit "    ws-opts: {}" ++ newline) in
  try! out := match path with Some v => yaml_field "      " "path" v out | None => pok out end in
  match host with
  | None => pok out
  | Some v =>
      try! out := put out (lit "      headers:" ++ newline) in
      yaml_field "        " "Host" v out
  end.

Definition write_plugin_opts (options : Value) (out : str) : pres str :=
  try! fields := unwrap (as_object options) in
  try! out := put out (if bool_decide (length fields = 0%nat) then lit "    plugin-opts: {}" ++ newline
                       else lit "    plugin-opts:" ++ newline) in
  each (present_field "      " options) ["mode"; "host"]%string out.

Definition true_field (prefix : string) (v : Value) (key : string) (out : str) : pres str :=
  if is_bool (index key v) true then indexed_field prefix v key out else pok out.

Definition write_proxy (kind : ConfigYamlKind) (proxy : Value) (out : str) : pres str :=
  try! out := indexed_field "  - " proxy "name" out in
  try! out := indexed_field "    " proxy "type" out in
  let local := is_some_and (as_str (index "type" proxy)) (λ s, one_of s ["direct"; "reject"]) in
  try! out := if negb (is_kind kind Effective) || negb local
              then each (indexed_field "    " proxy) ["server"; "port"]%string out else pok out in
  try! out := each (present_field "    " proxy) ["password"; "cipher"; "uuid"]%string out in
  try! out := if is_int (index "alterId" proxy) 0 then pok out else indexed_field "    " proxy "alterId" out in
  try! out := each (true_field "    " proxy) ["tls"; "skip-cert-verify"]%string out in
  try! out := if is_kind kind Effective then true_field "    " proxy "udp" out else pok out in
  try! out := each (present_field "    " proxy) ["sni"; "network"]%string out in
  try! out := if is_text (index "type" proxy) "anytls" then present_field "    " proxy "disable-reuse" out
              else pok out in
  try! out := if is_some (get "grpc-opts" proxy) then put out (lit "    grpc-opts: {}" ++ newline) else pok out in
  try! out := if is_kind kind Effective then pok out else true_field "    " proxy "udp" out in
  try! out := match get "ws-opts" proxy with Some ws => write_ws ws out | None => pok out end in
  try! out := present_field "    " proxy "plugin" out in
  match get "plugin-opts" proxy with Some options => write_plugin_opts options out | None => pok out end.

(** A line of a list: [{indent}- "text"]; the item is a string. *)
Definition list_line (indent : string) (item : Value) (out : str) : pres str :=
  try! s := unwrap (as_str item) in
  put out (lit indent ++ lit "- " ++ yaml_quote s ++ newline).

Definition write_group (kind : ConfigYamlKind) (group : Value) (out : str) : pres str :=
  try! out := indexed_field "  - " group "name" out in
  try! out := indexed_field "    " group "type" out in
  try! members := unwrap (as_array (index "proxies" group)) in
  try! out := put out (if bool_decide (length members = 0%nat) && is_kind kind Effective
                       then lit "    proxies: []" ++ newline else lit "    proxies:" ++ newline) in
  try! out := each (list_line "      ") members out in
  each (present_field "    " group) ["url"; "interval"; "tolerance"; "lazy"]%string out.

Definition canonical_config_yaml (value : Value) (providers : list str) (kind : ConfigYamlKind) : pres str :=
  let top := indexed_field "" value in
  try! out := each top ["port"; "socks-port"; "mixed-port"; "redir-port"; "tproxy-port"; "allow-lan"]%string [] in
  try! out := if is_kind kind Effective then pok out else top "ipv6" out in
  try! out := each top ["bind-address"; "mode"; "log-level"]%string out in
  try! out := if is_kind kind Effective then top "ipv6" out else pok out in
  try! out := each (present_field "" value)
                ["external-controller"; "external-ui"; "secret"; "idle-session-check-interval";
                 "idle-session-timeout"; "min-idle-session"]%string out in
  try! out := write_providers kind value providers out in
  try! proxies := unwrap (as_array (index "proxies" value)) in
  try! out := put out (if bool_decide (length proxies = 0%nat) then lit "proxies: []" ++ newline
                       else lit "proxies:" ++ newline) in
  try! out := each (write_proxy kind) proxies out in
  try! groups := unwrap (as_array (index "proxy-groups" value)) in
  try! out := put out (if bool_decide (length groups = 0%nat) then lit "proxy-groups: []" ++ newline
                       else lit "proxy-groups:" ++ newline) in
  try! out := each (write_group kind) groups out in
  try! out := put out (lit "rules:" ++ newline) in
  try! rules := unwrap (as_array (index "rules" value)) in
  each (list_line "  ") rules out.

(** ** Merging *)

(** The names of the declared rule providers in the order of the text, as the JSON and the
    YAML parser report them, and how the scoped parser thread ends. *)
Context (json_names yaml_names : str → option (list str)) (spawn : Spawn).

Definition order_message : string := "OVERRIDE_MERGE_FAILED: provider ordering resource limit".

Definition zig_ordered (names : list str) : pres (list str) := unwrap (ZigMap.zig_map_order names).

Definition provider_order (source : str) : pres (list str) :=
  if negb (utf8_valid source) then perr "invalid utf-8"
  else
    match (if forallb is_ascii source && negb (contains_byte 127 source) then json_names source else None) with
    | Some names => zig_ordered names
    | None =>
        try! names := Some (on_document_stack spawn source (ok_or (yaml_names source) order_message)) in
        zig_ordered names
    end.

Context (url_parse : str → option (str * option str)) (parse_document : str → res Value).

(** [key] may be replaced by [value]. *)
Definition patch_field_ok (key : str) (value : Value) : bool :=
  if one_of key ["port"; "socks-port"; "mixed-port"] then is_some_and (as_u64 value) (λ port, port <=? 65535)
  else if eq_str key (lit "allow-lan") then is_boolean value
  else if one_of key ["bind-address"; "mode"; "log-level"] then is_string value
  else if eq_str key (lit "external-controller") then is_null value || is_string value
  else if one_of key ["proxies"; "proxy-groups"; "rules"] then is_some (as_array value)
  else if eq_str key (lit "rule-providers") then is_object value
  else false.

Definition patch_message : string := "OVERRIDE_OUTPUT_INVALID: unsupported patch key or invalid field type".

(** One field of the patch replaces that of the base. *)
Definition patch_field (base : bmap Value) (key : str) (value : Value) : pres (bmap Value) :=
  if negb (patch_field_ok key value) then perr patch_message
  else if eq_str key (lit "external-controller") && is_null value then pok (bremove key base)
  else if eq_str key (lit "proxies") then
    try! items := unwrap (as_array value) in
    pok (binsert key (VArray (filter (λ item, is_group item = false) items)) base)
  else pok (binsert key value base).

Fixpoint patch_fields (base : bmap Value) (patch : bmap Value) : pres (bmap Value) :=
  match patch with
  | [] => pok base
  | (key, value) :: patch => try! base := patch_field base key value in patch_fields base patch
  end.

(** The configuration a patch makes of a source, normalised and past the gate; a blank patch
    is dealt with before. *)
Definition merged (base : Value) (source patch : str) : pres (Value * Value) :=
  try! base := unwrap (as_object base) in
  let base := split_source_groups base in
  try! patch := Some (document parse_document patch MAX_OUTPUT_BYTES) in
  try! _ := Some (validate_collections patch) in
  try! fields := unwrap (as_object patch) in
  try! base := patch_fields base fields in
  try! _ := Some (count_entries (VObject base) MAX_COLLECTION_ENTRIES) in
  try! _ := Some (validate_collections (VObject base)) in
  try! base := Some (canonical_plugin_options base) in
  try! _ := config_document url_parse parse_document source in
  try! value := normalize_config url_parse (VObject base) in
  try! _ := materializable value in
  pok (value, patch).

(** [merge] *)
Definition merge (source patch : str) : pres str :=
  try! base := Some (document parse_document source MAX_SOURCE_BYTES) in
  try! _ := Some (validate_collections base) in
  if MAX_OUTPUT_BYTES <? len patch then perr "OVERRIDE_OUTPUT_INVALID: patch exceeds 1 MiB"
  else if empty_patch patch then pok source
  else
    try! '(value, fields) := merged base source patch in
    try! providers := provider_order (if is_some (get "rule-providers" fields) then patch else source) in
    try! providers := zig_ordered providers in
    canonical_config_yaml value providers Effective.

Definition materialize_source (source patch : str) : pres str :=
  try! _ := (if empty_patch patch
             then try! value := config_document url_parse parse_document source in materializable value
             else pok tt) in
  merge source patch.

(** ** Dumps *)

Definition stars : Value := json_str "******".

(** [value.get_mut(key)] replaced by stars when it is there. *)
Definition hide (map : bmap Value) (key : string) : bmap Value :=
  if bcontains (lit key) map then binsert (lit key) stars map else map.

Definition redact_proxy (proxy : Value) : Value :=
  match proxy with
  | VObject map => VObject (foldl hide map ["password"; "uuid"; "sni"]%string)
  | _ => proxy
  end.

Definition redact (value : Value) : Value :=
  match value with
  | VObject map =>
      let map := hide map "secret" in
      match bget (lit "proxies") map ≫= as_array with
      | Some proxies => VObject (binsert (lit "proxies") (VArray (redact_proxy <$> proxies)) map)
      | None => VObject map
      end
  | _ => value
  end.

Definition dump_config_yaml (source : str) : pres str :=
  try! value := config_document url_parse parse_document source in
  try! providers := provider_order source in
  canonical_config_yaml (redact value) providers Public.

(** [map.retain(|key, _| keep(key))] *)
Definition retain (keep : str → Value → bool) (map : bmap Value) : bmap Value :=
  filter (λ kv, keep (fst kv) (snd kv) = true) map.

Definition keep_keys (keys : list string) (map : bmap Value) : bmap Value := retain (λ k _, one_of k keys) map.

Definition json_group (group : Value) : pres Value :=
  try! map := unwrap (as_object group) in
  pok (VObject (keep_keys ["name"; "type"; "proxies"]%string map)).

Definition json_ws (ws : Value) : Value :=
  match ws with
  | VObject ws =>
      let ws := keep_keys ["path"; "headers"]%string ws in
      VObject (match bget (lit "headers") ws ≫= as_object with
               | Some headers => binsert (lit "headers") (VObject (keep_keys ["Host"]%string headers)) ws
               | None => ws
               end)
  | _ => ws
  end.

Definition json_proxy (proxy : Value) : pres Value :=
  try! map := unwrap (as_object proxy) in
  let map := retain (λ key value,
      if one_of key ["tls"; "skip-cert-verify"; "udp"] then is_bool value true
      else one_of key ["name"; "type"; "server"; "port"; "password"; "cipher"; "plugin"; "plugin-opts"; "uuid";
                       "sni"; "network"; "grpc-opts"; "ws-opts"]) map in
  let map := if bcontains (lit "grpc-opts") map then binsert (lit "grpc-opts") (VObject []) map else map in
  pok (VObject (match bget (lit "ws-opts") map with
                | Some ws => binsert (lit "ws-opts") (json_ws ws) map
                | None => map
                end)).

Definition dump_config_json (source : str) : pres str :=
  try! value := config_document url_parse parse_document source in
  try! map := unwrap (as_object (redact value)) in
  let map := keep_keys ["port"; "socks-port"; "mixed-port"; "allow-lan"; "bind-address"; "mode"; "log-level";
                        "external-controller"; "rule-providers"; "proxies"; "proxy-groups"; "rules"]%string map in
  try! map := update_array (map_try json_group) "proxy-groups" map in
  try! map := update_array (map_try json_proxy) "proxies" map in
  put [] (to_json (VObject map)).

Definition is_rule_set (rule : Value) : bool :=
  is_some_and (as_str rule) (λ r, is_some_and (split_byte 44 r !! 0%nat) (λ kind, eq_str (trim kind) (lit "RULE-SET"))).

Definition dump_runtime_config_yaml (source : str) : pres str :=
  try! value := config_document url_parse parse_document source in
  if is_some_and (get "rules" value ≫= as_array) (existsb is_rule_set)
  then perr "CONFIG_DUMP_FAILED: expand rule providers before creating a runtime snapshot"
  else
    try! map := unwrap (as_object value) in
    canonical_config_yaml (VObject (bremove (lit "rule-providers") map)) [] Runtime.

(** [runtime_source] *)
Definition runtime_source (source : str) : pres str :=
  try! value := runtime_value url_parse parse_document source in
  pok (to_json value).

End Yaml.
