(* ===== verification/OverrideFacts.v ===== *)
(** * What normalisation establishes (src/src/override_script.rs)

    Shapes of checked and normalised configurations, and that each step takes one to the next
    without a panic. *)
From S2P Require Import Prelude Utf8 BTree Json Proxy Rules Override.

#[local] Arguments typed_default : simpl never.
#[local] Arguments optional_string : simpl never.
#[local] Arguments one_of : simpl never.

(** ** Shapes of values *)

Definition string_value (v : Value) : Prop := is_string v = true.
Definition list_of (P : Value → Prop) (v : Value) : Prop := ∃ l, v = VArray l ∧ Forall P l.
Definition map_of (P : bmap Value → Prop) (v : Value) : Prop := ∃ m, v = VObject m ∧ P m.
Definition at_most (max : Z) (v : Value) : Prop := ∃ n, as_u64 v = Some n ∧ n ≤ max.

(** A field that must be there, and one that may be. *)
Definition holds (P : Value → Prop) (key : string) (m : bmap Value) : Prop :=
  ∃ v, bget (lit key) m = Some v ∧ P v.
Definition optional (P : Value → Prop) (key : string) (m : bmap Value) : Prop :=
  ∀ v, bget (lit key) m = Some v → P v.

(** An entry of [proxies] or [proxy-groups]. *)
Definition item_map (m : bmap Value) : Prop :=
  holds string_value "name" m ∧ holds string_value "type" m ∧ optional (list_of string_value) "proxies" m.

(** What [validate_collections] establishes. *)
Record checked (m : bmap Value) : Prop := {
  checked_proxies : optional (list_of (map_of item_map)) "proxies" m;
  checked_groups : optional (list_of (map_of item_map)) "proxy-groups" m;
  checked_rules : optional (list_of string_value) "rules" m;
  checked_providers : optional (map_of (λ ps, Forall (λ v, is_object v = true) (values ps))) "rule-providers" m;
}.

(** Options of a plugin are a mapping. *)
Definition plugged (v : Value) : Prop := map_of (optional (map_of (λ _, True)) "plugin-opts") v.

(** The proxies have canonical plugin options. *)
Definition prepared (m : bmap Value) : Prop := checked m ∧ optional (list_of plugged) "proxies" m.

(** *** Normalised configurations *)

Definition proxy_kinds : list string :=
  ["direct"; "reject"; "http"; "socks5"; "ss"; "vmess"; "trojan"; "vless"; "anytls"]%string.

Definition port_number (v : Value) : Prop := ∃ n, as_u64 v = Some n ∧ 0 < n ≤ 65535.

Record proxy_normal (m : bmap Value) : Prop := {
  pn_name : holds string_value "name" m;
  pn_type : ∃ kind, bget (lit "type") m = Some (VString kind) ∧ one_of kind proxy_kinds = true ∧
    (one_of kind ["direct"; "reject"] = true
     ∨ holds string_value "server" m ∧ holds port_number "port" m);
  pn_strings : Forall (λ key, optional string_value key m) ["password"; "cipher"; "uuid"; "sni"; "network"; "plugin"]%string;
  pn_flags : Forall (λ key, holds (λ v, is_boolean v = true) key m) ["tls"; "skip-cert-verify"; "udp"]%string;
  pn_alter : holds (at_most 65535) "alterId" m;
  pn_plugin : validate_plugin_metadata (VObject m) = pok tt;
  pn_options : optional (map_of (λ _, True)) "plugin-opts" m;
}.

Record group_normal (m : bmap Value) : Prop := {
  gn_name : holds string_value "name" m;
  gn_type : is_group (VObject m) = true;
  gn_members : holds (list_of string_value) "proxies" m;
  gn_url : optional string_value "url" m;
  gn_interval : holds (at_most u32_max) "interval" m;
  gn_tolerance : holds (at_most 65535) "tolerance" m;
  gn_lazy : holds (λ v, is_boolean v = true) "lazy" m;
}.

Definition provider_normal (v : Value) : Prop := map_of (λ m,
  Forall (λ key, holds string_value key m) ["type"; "behavior"; "path"]%string ∧
  ∃ n, (bget (lit "interval") m ≫= as_u64) = Some n ∧ n ≠ 0 ∧ n ≤ u32_max) v.

(** A rule of a kind that satisfies [P]. *)
Definition rule_of (P : string → Prop) (v : Value) : Prop :=
  ∃ kind rest, kind ∈ rule_kinds ∧ P kind ∧ v = VString (lit kind ++ lit "," ++ rest).

(** Exactly one MATCH, at the end. *)
Definition rules_normal (v : Value) : Prop :=
  ∃ front final, v = VArray (front ++ [final]) ∧ Forall (rule_of (λ k, k ≠ "MATCH"%string)) front ∧
    rule_of (λ k, k = "MATCH"%string) final.

Record normal (m : bmap Value) : Prop := {
  normal_ports : Forall (λ key, holds (at_most 65535) key m) ["port"; "socks-port"; "mixed-port"; "redir-port"; "tproxy-port"]%string;
  normal_lan : holds (λ v, is_boolean v = true) "allow-lan" m;
  normal_strings : Forall (λ key, holds string_value key m) ["bind-address"; "mode"; "log-level"]%string;
  normal_proxies : holds (list_of (map_of proxy_normal)) "proxies" m;
  normal_groups : holds (list_of (map_of group_normal)) "proxy-groups" m;
  normal_providers : holds (map_of (λ ps, Forall provider_normal (values ps))) "rule-providers" m;
  normal_rules : holds rules_normal "rules" m;
}.

(** ** Fields of maps *)

Lemma get_bget key m : get key (VObject m) = bget (lit key) m.
Proof.
  unfold get, field. induction m as [|[k v] m IH]; [done|]. simpl.
  assert (eq_str k (lit key) = eq_str (lit key) k) as ->.
  { unfold eq_str. apply bool_decide_ext. split; congruence. }
  by destruct (eq_str (lit key) k).
Qed.

Lemma index_bget key m : index key (VObject m) = default VNull (bget (lit key) m).
Proof. unfold index. by rewrite get_bget. Qed.

Lemma bget_lit_ne {A} (k k' : string) (a : A) m :
  k' ≠ k → bget (lit k') (binsert (lit k) a m) = bget (lit k') m.
Proof. intros H. apply bget_insert_ne. by intros ?%lit_inj. Qed.

Lemma holds_insert_eq P key v m : P v → holds P key (binsert (lit key) v m).
Proof. intros H. exists v. by rewrite bget_insert_eq. Qed.

Lemma holds_insert P key key' v m : key ≠ key' → holds P key m → holds P key (binsert (lit key') v m).
Proof. intros Hne (x & Hx & HP). exists x. by rewrite bget_lit_ne. Qed.

Lemma optional_insert_eq (P : Value → Prop) key v m : P v → optional P key (binsert (lit key) v m).
Proof. intros H x. rewrite bget_insert_eq. by intros [= <-]. Qed.

Lemma optional_insert P key key' v m : key ≠ key' → optional P key m → optional P key (binsert (lit key') v m).
Proof. intros Hne H x. rewrite bget_lit_ne by done. apply H. Qed.

Lemma optional_remove P key key' m : key ≠ key' → optional P key m → optional P key (bremove (lit key') m).
Proof. intros Hne H x. rewrite bget_remove_ne; [apply H|]. by intros ?%lit_inj. Qed.

Lemma optional_ext P key m m' : bget (lit key) m' = bget (lit key) m → optional P key m → optional P key m'.
Proof. intros E H x. rewrite E. apply H. Qed.

Lemma holds_ext P key m m' : bget (lit key) m' = bget (lit key) m → holds P key m → holds P key m'.
Proof. intros E (x & Hx & HP). exists x. by rewrite E. Qed.

Lemma holds_optional P key m : holds P key m → optional P key m.
Proof. intros (v & Hv & HP) x Hx. congruence. Qed.

Lemma holds_mono (P Q : Value → Prop) key m : (∀ v, P v → Q v) → holds P key m → holds Q key m.
Proof. intros H (v & ? & ?). exists v. auto. Qed.

Lemma list_of_mono (P Q : Value → Prop) v : (∀ v, P v → Q v) → list_of P v → list_of Q v.
Proof. intros H (l & -> & Hl). exists l. split; [done|]. by eapply Forall_impl. Qed.

Lemma string_value_inv v : string_value v → ∃ s, v = VString s.
Proof. unfold string_value, is_string. destruct v; try done. by eexists. Qed.

Lemma map_res_Forall {A B} (f : A → res B) (P : A → Prop) (Q : B → Prop) l l' :
  (∀ a b, P a → f a = Ok b → Q b) → Forall P l → map_res f l = Ok l' → Forall Q l'.
Proof.
  intros Hf. revert l'. induction l as [|a l IH]; simpl; intros l' Hl H.
  - injection H as <-. constructor.
  - inversion Hl; subst. destruct (f a) as [b|] eqn:E; [|done].
    destruct (map_res f l) as [bs|]; [|done]. injection H as <-. constructor; eauto.
Qed.

Lemma post_map_try {A B} (f : A → pres B) (P : A → Prop) (Q : B → Prop) l :
  (∀ a, P a → post Q (f a)) → Forall P l → post (Forall Q) (map_try f l).
Proof.
  intros Hf. induction 1 as [|a l Ha _ IH]; simpl; [constructor|].
  eapply post_bind; [by apply Hf|]. intros b Hb. eapply post_bind; [exact IH|].
  intros bs Hbs. by constructor.
Qed.

Lemma post_map_values {A B} (f : A → pres B) (P : A → Prop) (Q : B → Prop) (m : bmap A) :
  (∀ a, P a → post Q (f a)) → Forall P (values m) →
  post (λ m', Forall Q (values m')) (map_values f m).
Proof.
  intros Hf Hm. unfold map_values.
  apply (post_mono (Forall (λ kv : str * B, Q (snd kv)))).
  - apply (post_map_try _ (λ kv : str * A, P (snd kv))).
    + intros [k a] Ha. simpl. eapply post_bind; [by apply Hf|]. done.
    + unfold values in Hm. by rewrite Forall_fmap in Hm.
  - intros m' H. unfold values. by rewrite Forall_fmap.
Qed.

(** Updating the array in a field. *)
Lemma post_update_array f key m (P : Value → Prop) (Q : list Value → Prop) :
  holds (list_of P) key m → (∀ l, Forall P l → post Q (f l)) →
  post (λ m', ∃ l, m' = binsert (lit key) (VArray l) m ∧ Q l) (update_array f key m).
Proof.
  intros (v & Hv & l & -> & Hl) Hf. unfold update_array. rewrite Hv. simpl.
  eapply post_bind; [by apply Hf|]. intros l' Hl'. by exists l'.
Qed.

(** ** Checked collections *)

Lemma check_members_Ok item : check_members item = Ok tt →
  ∀ v, get "proxies" item = Some v → list_of string_value v.
Proof.
  unfold check_members. intros H v Hv. rewrite Hv in H. destruct v as [| | | |l|]; try done. simpl in H.
  destruct (5122 <? len l); [done|]. destruct (forallb is_string l) eqn:E; [|done].
  exists l. split; [done|]. apply Forall_forall. intros x Hx.
  rewrite forallb_forall in E. apply E. by apply list_elem_of_In.
Qed.

Lemma check_item_map field item : field ≠ "rules"%string → check_item field item = Ok tt →
  map_of item_map item.
Proof.
  unfold check_item. intros Hne. destruct (String.eqb_spec field "rules"); [done|].
  destruct item as [| | | | |m]; try done. unfold holds. rewrite !get_bget.
  destruct (negb _ || _ || _) eqn:E; [done|]. rewrite !orb_false_iff in E. destruct E as [[_ E1] E2].
  intros H. exists m. split; [done|].
  destruct (bget (lit "name") m) as [nm|] eqn:En; [|done]. destruct (bget (lit "type") m) as [t|] eqn:Et; [|done].
  simpl in E1, E2. destruct_bool. split_and!; [by exists nm|by exists t|].
  intros v Hv. by apply (check_members_Ok (VObject m) H v); rewrite get_bget.
Qed.

Lemma check_item_rule item : check_item "rules" item = Ok tt → string_value item.
Proof. unfold check_item. simpl. unfold string_value. by destruct (is_string item). Qed.

Lemma check_list_Ok field limit value v : check_list value (field, limit) = Ok tt →
  get field value = Some v → list_of (λ item, check_item field item = Ok tt) v.
Proof.
  unfold check_list. intros H Hv. rewrite Hv in H. destruct v as [| | | |l|]; try done. simpl in H.
  destruct (limit <? len l); [done|]. apply validate_all_Ok in H. by exists l.
Qed.

Lemma validate_collections_checked m : validate_collections (VObject m) = Ok tt → checked m.
Proof.
  unfold validate_collections.
  destruct (validate_all _ _) as [[]|] eqn:E; [|done]. apply validate_all_Ok in E.
  apply Forall_cons in E as [E1 E]. apply Forall_cons in E as [E2 E]. apply Forall_cons in E as [E3 _].
  destruct (check_counts _) as [[]|]; [|done]. unfold check_providers. rewrite get_bget. intros H4. split.
  - intros v Hv. rewrite <- get_bget in Hv. eapply list_of_mono; [|exact (check_list_Ok _ _ _ _ E1 Hv)].
    intros item. by apply check_item_map.
  - intros v Hv. rewrite <- get_bget in Hv. eapply list_of_mono; [|exact (check_list_Ok _ _ _ _ E2 Hv)].
    intros item. by apply check_item_map.
  - intros v Hv. rewrite <- get_bget in Hv. eapply list_of_mono; [|exact (check_list_Ok _ _ _ _ E3 Hv)].
    apply check_item_rule.
  - intros v Hv. rewrite Hv in H4. destruct v as [| | | | |ps]; try done. simpl in H4.
    destruct (4096 <? len ps); [done|]. destruct (forallb is_object (values ps)) eqn:E; [|done].
    exists ps. split; [done|]. apply Forall_forall. intros x Hx. rewrite forallb_forall in E.
    apply E. by apply list_elem_of_In.
Qed.

Lemma list_of_filter P (f : Value → Prop) `{∀ x, Decision (f x)} l : Forall P l → list_of P (VArray (filter f l)).
Proof.
  intros H0. exists (filter f l). split; [done|]. apply Forall_forall. intros x Hx.
  apply list_elem_of_filter in Hx as [_ Hx]. rewrite Forall_forall in H0. by apply H0.
Qed.

Lemma split_checked m : checked m → checked (split_source_groups m).
Proof.
  intros [Hp Hg Hr Hv]. unfold split_source_groups.
  destruct (bget (lit "proxies") m) as [v|] eqn:E; [|done]. simpl.
  destruct (as_array v) as [l|] eqn:El; [|done]. destruct v as [| | | |l'|]; try done. simplify_eq/=.
  destruct (Hp _ E) as (? & [= <-] & Hl).
  set (nodes := VArray (filter _ l)). set (m1 := binsert (lit "proxies") nodes m).
  assert (checked m1) as Hm1.
  { split; unfold m1.
    - apply optional_insert_eq. by apply list_of_filter.
    - by apply optional_insert.
    - by apply optional_insert.
    - by apply optional_insert. }
  case_bool_decide; [done|]. destruct Hm1 as [Hp1 Hg1 Hr1 Hv1]. split.
  - apply optional_insert; [done|]. by apply optional_remove.
  - apply optional_insert_eq. destruct (list_of_filter _ (λ item, is_group item = true) l Hl) as (gs & [= <-] & Hgs).
    destruct (bget (lit "proxy-groups") m1) as [g|] eqn:Eg; simpl.
    + destruct (Hg1 _ Eg) as (gl & -> & Hgl). simpl. eexists. split; [done|]. by apply Forall_app.
    + eexists. split; [done|]. apply Forall_app. by split.
  - apply optional_insert; [done|]. by apply optional_remove.
  - apply optional_insert; [done|]. by apply optional_remove.
Qed.

Lemma item_map_other m m' : item_map m →
  (∀ key, key ∈ ["name"; "type"; "proxies"]%string → bget (lit key) m' = bget (lit key) m) → item_map m'.
Proof.
  intros (H1 & H2 & H3) H. split_and!.
  - eapply holds_ext; [|done]. apply H. set_solver.
  - eapply holds_ext; [|done]. apply H. set_solver.
  - eapply optional_ext; [|done]. apply H. set_solver.
Qed.

Lemma plugin_options_Ok v v' : map_of item_map v → plugin_options v = Ok v' →
  map_of item_map v' ∧ plugged v'.
Proof.
  intros (m & -> & Hm). unfold plugin_options. simpl.
  destruct (match bget (lit "plugin_opts") m with Some _ => _ | None => _ end) as [m1|] eqn:E; [|done].
  assert (item_map m1) as Hm1.
  { destruct (bget (lit "plugin_opts") m) as [alias|]; [|by simplify_eq].
    destruct (bcontains _ _); [done|]. simplify_eq. eapply item_map_other; [done|].
    intros key Hk. rewrite bget_lit_ne by set_solver. apply bget_remove_ne. intros ->%lit_inj. set_solver. }
  destruct (bget (lit "plugin-opts") m1) as [o|] eqn:Eo.
  - destruct o as [| | | | |fs]; try done. simpl. destruct (existsb _ fs); [done|]. intros [= <-].
    split; [by exists m1|]. exists m1. split; [done|]. intros x Hx. rewrite Eo in Hx. injection Hx as <-. by exists fs.
  - intros [= <-]. split; [by exists m1|]. exists m1. split; [done|]. intros x Hx. congruence.
Qed.

Lemma plugin_options_prepared m m' : checked m → canonical_plugin_options m = Ok m' → prepared m'.
Proof.
  intros [Hp Hg Hr Hv]. unfold canonical_plugin_options.
  destruct (bget (lit "proxies") m) as [v|] eqn:E; simpl.
  - destruct (Hp _ E) as (l & -> & Hl). simpl.
    destruct (map_res plugin_options l) as [l'|] eqn:El; [|done]. intros [= <-].
    assert (Forall (λ v, map_of item_map v ∧ plugged v) l') as Hl'.
    { eapply map_res_Forall; [|exact Hl|exact El]. apply plugin_options_Ok. }
    apply Forall_and in Hl' as [H1 H2]. split; [split|].
    + apply optional_insert_eq. by exists l'.
    + by apply optional_insert.
    + by apply optional_insert.
    + by apply optional_insert.
    + apply optional_insert_eq. by exists l'.
  - intros [= <-]. split; [done|]. intros x Hx. congruence.
Qed.

(** ** Defaults *)

(** The default of a key, the first one listed. *)
Fixpoint default_of (l : list (string * Value)) (key : str) : option Value :=
  match l with
  | [] => None
  | (k, d) :: l => if eq_str key (lit k) then Some d else default_of l key
  end.

Lemma typed_default_spec m key d m' : typed_default m (key, d) = Ok m' →
  (∀ k, bget k m' = match bget k m with Some v => Some v | None => default_of [(key, d)] k end) ∧
  holds (λ v, same_type d v = true) key m'.
Proof.
  unfold typed_default. set (m1 := if bcontains (lit key) m then m else binsert (lit key) d m).
  destruct (is_some_and _ _) eqn:E; [|done]. intros [= <-].
  assert (∀ k, bget k m1 = match bget k m with Some v => Some v | None => default_of [(key, d)] k end) as H1.
  { intros k. unfold m1, bcontains. simpl. unfold eq_str. destruct (bget (lit key) m) as [v|] eqn:Ek; simpl.
    - destruct (bget k m) eqn:E2; [done|]. case_bool_decide; [|done]. subst. congruence.
    - rewrite bget_insert. case_decide; subst.
      + rewrite Ek. by rewrite bool_decide_eq_true_2.
      + rewrite bool_decide_eq_false_2 by done. by destruct (bget k m). }
  split; [done|]. destruct (bget (lit key) m1) as [v|] eqn:Ev; [|done]. by exists v.
Qed.

Lemma typed_defaults_spec l m m' : typed_defaults m l = Ok m' →
  (∀ k, bget k m' = match bget k m with Some v => Some v | None => default_of l k end) ∧
  Forall (λ kd, holds (λ v, same_type (snd kd) v = true) (fst kd) m') l.
Proof.
  revert m. induction l as [|[key d] l IH]; intros m; cbn [typed_defaults default_of].
  - intros [= <-]. split; [|constructor]. intros k. by destruct (bget k m).
  - destruct (typed_default m (key, d)) as [m1|] eqn:E; [|done]. intros H.
    destruct (typed_default_spec _ _ _ _ E) as [H1 (v & Hv & Ht)]. destruct (IH _ H) as [H2 H3].
    split.
    + intros k. rewrite H2, H1. simpl. destruct (bget k m); [done|]. by destruct (eq_str k (lit key)).
    + constructor; [|done]. simpl. exists v. by rewrite H2, Hv.
Qed.

Lemma typed_defaults_keep l m m' key : typed_defaults m l = Ok m' → default_of l (lit key) = None →
  bget (lit key) m' = bget (lit key) m.
Proof.
  intros H Hd. destruct (typed_defaults_spec _ _ _ H) as [H1 _]. rewrite H1, Hd. by destruct (bget _ m).
Qed.

Lemma optional_string_spec nullable m key m' : optional_string nullable m key = Ok m' →
  (nullable = false → m' = m ∧ optional string_value key m) ∧ (∀ k, k ≠ lit key → bget k m' = bget k m).
Proof.
  unfold optional_string. destruct (bget (lit key) m) as [v|] eqn:E.
  - destruct (is_null v && nullable) eqn:En.
    + intros [= <-]. split; [intros ->; by rewrite andb_false_r in En|]. intros k Hk. by apply bget_remove_ne.
    + destruct (is_string v) eqn:Es; [|done]. intros [= <-]. split; [|done]. intros _. split; [done|].
      intros x Hx. congruence.
  - intros [= <-]. split; [|done]. intros _. split; [done|]. intros x Hx. congruence.
Qed.

Lemma optional_strings_keep keys nullable m m' : optional_strings nullable m keys = Ok m' →
  ∀ key, key ∉ keys → bget (lit key) m' = bget (lit key) m.
Proof.
  revert m. induction keys as [|k ks IH]; intros m; simpl; [by intros [= <-]|].
  destruct (optional_string nullable m k) as [m1|] eqn:E; [|done]. intros H key Hk.
  apply not_elem_of_cons in Hk as [Hk1 Hk2]. rewrite (IH _ H key Hk2).
  apply (optional_string_spec _ _ _ _ E). by intros ?%lit_inj.
Qed.

Lemma optional_strings_same keys m m' : optional_strings false m keys = Ok m' →
  m' = m ∧ Forall (λ key, optional string_value key m) keys.
Proof.
  revert m. induction keys as [|k ks IH]; intros m; simpl; [by intros [= <-]|].
  destruct (optional_string false m k) as [m1|] eqn:E; [|done]. intros H.
  destruct (proj1 (optional_string_spec _ _ _ _ E) eq_refl) as [-> Hk].
  destruct (IH _ H) as [-> Hks]. split; [done|by constructor].
Qed.

Lemma integer_range_Ok key max m : integer_range (VObject m) max key = Ok tt → holds (at_most max) key m.
Proof.
  unfold integer_range. rewrite get_bget. destruct (bget (lit key) m) as [v|] eqn:E; [|done]. simpl.
  destruct (as_u64 v) as [n|] eqn:En; [|done]. simpl. destruct (n <=? max) eqn:Hn; [|done].
  intros _. exists v. split; [done|]. exists n. split; [done|]. blia.
Qed.

Lemma validate_ranges keys max m : validate_all (integer_range (VObject m) max) keys = Ok tt →
  Forall (λ key, holds (at_most max) key m) keys.
Proof. intros H%validate_all_Ok. eapply Forall_impl; [exact H|]. intros key. apply integer_range_Ok. Qed.

(** ** One entry at a time *)

#[local] Arguments typed_defaults : simpl never.
#[local] Arguments optional_strings : simpl never.

Lemma validate_plugin_total proxy m s : proxy = VObject m → bget (lit "type") m = Some (VString s) →
  post (λ _, validate_plugin_metadata proxy = pok tt) (validate_plugin_metadata proxy).
Proof.
  intros -> Ht. destruct (validate_plugin_metadata (VObject m)) as [[[]|e]|] eqn:E; [done|done|].
  exfalso. revert E. unfold validate_plugin_metadata, type_of. rewrite index_bget, Ht. simpl.
  by repeat case_match.
Qed.

Lemma server_port_ok_spec m : server_port_ok m = true →
  holds string_value "server" m ∧ holds port_number "port" m.
Proof.
  unfold server_port_ok. intros [H1 H2]%andb_prop. split.
  - destruct (bget (lit "server") m) as [v|] eqn:E; [|done]. by exists v.
  - destruct (bget (lit "port") m) as [v|] eqn:E; [|done]. simpl in H2. exists v. split; [done|].
    destruct (as_u64 v) as [n|] eqn:En; [|done]. simpl in H2. exists n. split; [done|]. blia.
Qed.

(** The fields the kind decides. *)
Lemma endpoint_spec kind m m1 :
  (if one_of kind ["direct"; "reject"]
   then Ok (binsert (lit "port") (json_int 0) (binsert (lit "server") (json_str "") m))
   else if server_port_ok m then Ok m else Err (merge_failed "proxy server/port required")) = Ok m1 →
  (∀ key, key ≠ "server"%string → key ≠ "port"%string → bget (lit key) m1 = bget (lit key) m) ∧
  (one_of kind ["direct"; "reject"] = true ∨ holds string_value "server" m1 ∧ holds port_number "port" m1).
Proof.
  destruct (one_of kind _) eqn:E.
  - intros [= <-]. split; [|by left]. intros key H1 H2. by rewrite !bget_lit_ne.
  - destruct (server_port_ok m) eqn:Es; [|done]. intros [= <-]. split; [done|]. right.
    by apply server_port_ok_spec.
Qed.

Definition proxy_defaults : list (string * Value) :=
  [("tls"%string, VBool false); ("skip-cert-verify"%string, VBool false);
   ("udp"%string, VBool false); ("alterId"%string, json_int 0)].

Lemma normalize_proxy_post v : map_of item_map v → plugged v → post (map_of proxy_normal) (normalize_proxy v).
Proof.
  intros (m & -> & Hname & Htype & _) (? & [= <-] & Hplug). destruct Htype as (tv & Ht & [kind ->]%string_value_inv).
  unfold normalize_proxy. eapply post_unwrap_bind; [done|]. eapply post_unwrap_bind; [by rewrite Ht|].
  destruct (one_of kind ["direct"; "reject"; "http"; "socks5"; "ss"; "vmess"; "trojan"; "vless"; "anytls"]) eqn:Ek; [|done].
  cbn [negb].
  apply post_res_bind; intros m1 [H1 Hsp]%endpoint_spec.
  apply post_res_bind; intros m2 [-> Hstr]%optional_strings_same.
  apply post_res_bind; intros m2 [H2 Hdef]%typed_defaults_spec.
  destruct (existsb _ _); [done|].
  apply post_res_bind; intros _ _.
  apply post_res_bind; intros [] Halter%integer_range_Ok.
  assert (∀ key, default_of proxy_defaults (lit key) = None → bget (lit key) m2 = bget (lit key) m1) as H3.
  { intros key Hk. rewrite H2. change (default_of _ _) with (default_of proxy_defaults (lit key)).
    rewrite Hk. by destruct (bget _ m1). }
  assert (bget (lit "type") m2 = Some (VString kind)) as Ht2 by (rewrite H3, H1; done).
  eapply post_bind; [by eapply validate_plugin_total|]. intros [] Hp. exists m2. split; [done|]. split.
  - eapply holds_ext; [|exact Hname]. by rewrite H3, H1.
  - exists kind. split_and!; [done|done|]. destruct Hsp as [Hs|[Hs Hpn]]; [by left|right].
    split; eapply holds_ext; [|exact Hs| |exact Hpn]; by apply H3.
  - repeat (apply Forall_cons in Hstr as [? Hstr]). repeat constructor;
      (eapply optional_ext; [apply H3; done|done]).
  - repeat (apply Forall_cons in Hdef as [? Hdef]). by repeat constructor.
  - done.
  - done.
  - eapply optional_ext; [|exact Hplug]. by rewrite H3, H1.
Qed.

Lemma is_group_bget m : is_group (VObject m) = is_some_and (bget (lit "type") m ≫= as_str)
    (λ s, one_of s ["select"; "url-test"; "fallback"; "load-balance"; "relay"]).
Proof. unfold is_group. by rewrite get_bget. Qed.

Definition group_defaults : list (string * Value) :=
  [("proxies"%string, VArray []); ("interval"%string, json_int 300); ("tolerance"%string, json_int 100);
   ("lazy"%string, VBool true)].

Lemma normalize_group_post v : map_of item_map v → post (map_of group_normal) (normalize_group v).
Proof.
  intros (m & -> & Hname & _ & Hmem). unfold normalize_group. destruct (is_group (VObject m)) eqn:Eg; [|done].
  cbn [negb].
  eapply post_unwrap_bind; [done|]. apply post_res_bind; intros m1 [Hs _]%optional_string_spec. destruct (Hs eq_refl) as [-> Hurl]. clear Hs.
  apply post_res_bind; intros m1 [H2 Hdef]%typed_defaults_spec.
  apply post_res_bind; intros [] Hint%integer_range_Ok.
  apply post_res_bind; intros [] Htol%integer_range_Ok.
  assert (∀ key, default_of group_defaults (lit key) = None → bget (lit key) m1 = bget (lit key) m) as H3.
  { intros key Hk. rewrite H2. change (default_of _ _) with (default_of group_defaults (lit key)).
    rewrite Hk. by destruct (bget _ m). }
  exists m1. split; [done|]. split; [| | | |done|done|].
  - eapply holds_ext; [|exact Hname]. by apply H3.
  - rewrite is_group_bget in Eg |- *. by rewrite H3.
  - apply Forall_cons in Hdef as [(x & Hx & _) _]. exists x. split; [done|].
    cbn [fst] in Hx. rewrite H2 in Hx. destruct (bget (lit "proxies") m) as [y|] eqn:Ey.
    + injection Hx as <-. by apply Hmem.
    + vm_compute in Hx. injection Hx as <-. by exists [].
  - eapply optional_ext; [|exact Hurl]. by apply H3.
  - by repeat (apply Forall_cons in Hdef as [? Hdef]).
Qed.

Lemma normalize_provider_post url v : is_object v = true → post provider_normal (normalize_provider url v).
Proof.
  destruct v as [| | | | |m]; try done. intros _. unfold normalize_provider.
  eapply post_unwrap_bind; [done|].
  destruct (negb _) eqn:Er; [done|]. apply negb_false_iff in Er. simpl in Er.
  apply post_res_bind; intros m1 [_ H1]%optional_string_spec.
  apply post_res_bind; intros m2 [H2 _]%typed_default_spec.
  apply post_res_bind; intros [] Hint%integer_range_Ok.
  destruct (_ || _) eqn:Eb; [done|]. rewrite !orb_false_iff in Eb. destruct Eb as [[[Ez _] _] _].
  apply post_res_bind; intros _ _. exists m2. split; [done|].
  rewrite !andb_true_iff in Er. destruct Er as (R1 & R2 & R3 & _).
  assert (∀ key, key ≠ "url"%string → key ≠ "interval"%string → is_some_and (bget (lit key) m) is_string = true →
    holds string_value key m2) as Hk.
  { intros key Hu Hi Hs. destruct (bget (lit key) m) as [x|] eqn:Ex; [|done]. exists x. split; [|done].
    by rewrite H2, H1, Ex by (by intros ?%lit_inj). }
  split; [by repeat constructor; apply Hk|].
  destruct Hint as (x & Hx & n & Hn & Hle). exists n. rewrite Hx. split; [done|].
  rewrite index_bget, Hx in Ez. simpl in Ez. unfold is_int in Ez. apply bool_decide_eq_false in Ez.
  split; [|done]. intros ->. apply Ez. destruct x as [| |[k|k|k]| | |]; by simplify_eq/=.
Qed.

(** ** Rules *)

Definition ordinary (v : Value) : Prop := rule_of (λ k, k ≠ "MATCH"%string) v.
Definition final_rule (v : Value) : Prop := rule_of (λ k, k = "MATCH"%string) v.

Lemma trim_kind k : k ∈ rule_kinds → trim_blank (lit k) = lit k.
Proof.
  intros H. unfold rule_kinds in H. repeat (apply elem_of_cons in H as [->|H]; [by vm_compute|]).
  by apply not_elem_of_nil in H.
Qed.

Lemma join_two a b l : join_commas (a :: b :: l) = a ++ lit "," ++ join_commas (b :: l).
Proof. done. Qed.

Lemma normalize_rule_post v : string_value v →
  post (λ rb : Value * bool, if snd rb then final_rule (fst rb) else ordinary (fst rb)) (normalize_rule v).
Proof.
  intros [s ->]%string_value_inv. unfold normalize_rule. eapply post_unwrap_bind; [done|].
  set (fields := split_byte 44 (trim_rule s)). cbv zeta.
  destruct fields as [|kind fs] eqn:Ef; [by apply split_byte_ne in Ef|].
  eapply post_unwrap_bind; [done|]. destruct (one_of kind rule_kinds) eqn:Ek; [|done]. cbn [negb].
  set (count := if eq_str kind (lit "MATCH") then 2%nat else 3%nat).
  destruct (length (kind :: fs) <? count)%nat eqn:El; [done|]. apply Nat.ltb_ge in El.
  apply one_of_true in Ek as (k & Hk & ->).
  assert (∃ c f fs', count = S (S c) ∧ fs = f :: fs') as (c & f & fs' & Hc & ->).
  { destruct fs as [|f fs']; [by unfold count in El; destruct (eq_str _ _); simpl in El; lia|].
    unfold count. destruct (eq_str _ _); by do 3 eexists. }
  rewrite Hc. cbn [take fmap list_fmap]. rewrite trim_kind, join_two by done.
  set (rest := join_commas _). set (tail := existsb _ _).
  assert (∃ r, (if tail then (lit k ++ lit "," ++ rest) ++ lit ",no-resolve" else lit k ++ lit "," ++ rest)
    = lit k ++ lit "," ++ r) as [r ->].
  { destruct tail; [|by eexists]. exists (rest ++ lit ",no-resolve"). by rewrite <- !app_assoc. }
  cbn [post pok fst snd]. destruct (eq_str (lit k) (lit "MATCH")) eqn:Em.
  - apply eq_str_true, lit_inj in Em. by exists k, r.
  - apply eq_str_false in Em. exists k, r. split_and!; [done| |done]. by intros ->.
Qed.

Definition rules_shape (seen : bool) (rs : list Value) (fin : bool) : Prop :=
  if seen then rs = [] ∧ fin = true
  else if fin then ∃ front final, rs = front ++ [final] ∧ Forall ordinary front ∧ final_rule final
  else Forall ordinary rs.

Lemma normalize_rules_post rules seen : Forall string_value rules →
  post (λ rb : list Value * bool, rules_shape seen (fst rb) (snd rb)) (normalize_rules rules seen).
Proof.
  intros H. revert seen. induction H as [|v rules Hv _ IH]; intros seen; cbn [normalize_rules].
  - by destruct seen; simpl.
  - destruct seen; [done|]. eapply post_bind; [by apply normalize_rule_post|]. intros [r b] Hr.
    eapply post_bind; [apply IH|]. intros [rs fin] Hrs. simpl in Hr, Hrs |- *.
    destruct b; simpl in Hrs.
    + destruct Hrs as [-> ->]. by exists [], r.
    + destruct fin; [|by constructor]. destruct Hrs as (front & final & -> & Hf & Hl).
      exists (r :: front), final. split_and!; [done|by constructor|done].
Qed.

(** ** Whole configurations *)

Lemma normalize_config_post url m : prepared m → post (map_of normal) (normalize_config url (VObject m)).
Proof.
  intros [[Hp Hg Hr Hv] Hplug]. unfold normalize_config.
  apply post_res_bind; intros _ _. eapply post_unwrap_bind; [done|].
  apply post_res_bind; intros m1 [H1 Hdef]%typed_defaults_spec.
  apply post_res_bind; intros m2 H2. pose proof (optional_strings_keep _ _ _ _ H2) as Hkeep. clear H2.
  apply post_res_bind; intros [] Hports%validate_ranges. apply post_res_bind; intros _ _.
  assert (∀ P key d, key ∉ ["external-controller"; "external-ui"; "secret"]%string →
    default_of config_defaults (lit key) = Some d → P d → optional P key m → holds P key m2) as Hfield.
  { intros P key d Hk Hd HP Ho. unfold holds. rewrite Hkeep, H1, Hd by done.
    destruct (bget (lit key) m) as [x|] eqn:Ex; [by eauto|by exists d]. }
  assert (holds (λ v, is_boolean v = true) "allow-lan" m2 ∧
    Forall (λ key, holds string_value key m2) ["bind-address"; "mode"; "log-level"]%string) as [Hlan Hstr].
  { repeat (apply Forall_cons in Hdef as [? Hdef]).
    split; [|repeat constructor]; (eapply holds_ext; [apply Hkeep; set_solver|done]). }
  eapply post_bind.
  { apply (post_update_array _ _ _ (λ v, map_of item_map v ∧ plugged v) (Forall (map_of proxy_normal))).
    - apply (Hfield _ _ (VArray [])); [set_solver|done|by exists []|].
      intros v Hx. destruct (Hp v Hx) as (l & -> & Hl). destruct (Hplug _ Hx) as (? & [= <-] & Hl2).
      exists l. split; [done|]. by apply Forall_and.
    - intros l Hl. eapply post_map_try; [|exact Hl]. intros v [Ha Hb]. by apply normalize_proxy_post. }
  intros m3 (lp & -> & Hlp). eapply post_bind.
  { apply (post_update_array _ _ _ (map_of item_map) (Forall (map_of group_normal))).
    - apply holds_insert; [done|]. by apply (Hfield _ _ (VArray [])); [set_solver|done|exists []|].
    - intros l Hl. by eapply post_map_try; [apply normalize_group_post|]. }
  intros m4 (lg & -> & Hlg).
  assert (holds (map_of (λ ps, Forall (λ v, is_object v = true) (values ps))) "rule-providers" m2)
    as (pv & Hpv & ps & -> & Hps).
  { apply (Hfield _ _ (VObject [])); [set_solver|done|by exists []|done]. }
  eapply post_unwrap_bind; [by rewrite !bget_lit_ne, Hpv|].
  eapply post_bind; [by eapply post_map_values; [apply normalize_provider_post|]|]. intros ps' Hps'.
  eapply post_bind.
  { apply (post_update_array _ _ _ string_value (λ l, rules_normal (VArray l))).
    - do 3 (apply holds_insert; [done|]). by apply (Hfield _ _ (VArray [])); [set_solver|done|exists []|].
    - intros l Hl. eapply post_bind; [by apply normalize_rules_post|]. intros [rs fin] Hrs. simpl in Hrs |- *.
      destruct fin; [by destruct Hrs as (front & final & -> & ? & ?); exists front, final|].
      exists rs, (json_str "MATCH,REJECT"). split_and!; [done|done|]. exists "MATCH"%string, (lit "REJECT").
      split_and!; [set_solver|done|done]. }
  intros m5 (lr & -> & Hlr). exists (binsert (lit "rules") (VArray lr) (binsert (lit "rule-providers") (VObject ps')
    (binsert (lit "proxy-groups") (VArray lg) (binsert (lit "proxies") (VArray lp) m2)))).
  split; [done|]. split.
  - repeat (apply Forall_cons in Hports as [? Hports]).
    repeat constructor; by do 4 (apply holds_insert; [done|]).
  - by do 4 (apply holds_insert; [done|]).
  - repeat (apply Forall_cons in Hstr as [? Hstr]).
    repeat constructor; by do 4 (apply holds_insert; [done|]).
  - do 3 (apply holds_insert; [done|]). apply holds_insert_eq. by exists lp.
  - do 2 (apply holds_insert; [done|]). apply holds_insert_eq. by exists lg.
  - apply holds_insert; [done|]. apply holds_insert_eq. by exists ps'.
  - by apply holds_insert_eq.
Qed.

Lemma document_object parse bytes limit v : document parse bytes limit = Ok v → ∃ m, v = VObject m ∧ parse bytes = Ok v.
Proof.
  unfold document. destruct (limit <? len bytes); [done|]. destruct (utf8_valid bytes); [|done]. cbn [negb].
  destruct (parse bytes) as [x|]; [|done]. cbn [map_err]. destruct x as [| | | | |m]; try done. cbn [is_object as_object is_some negb].
  destruct (count_entries (VObject m) MAX_COLLECTION_ENTRIES); [|done]. intros [= <-]. by exists m.
Qed.

(** Every document that is accepted is normalised without a panic. *)
Lemma config_document_post url parse source : post (map_of normal) (config_document url parse source).
Proof.
  unfold config_document. apply post_res_bind; intros v (m & -> & _)%document_object.
  apply post_res_bind; intros [] Hc%validate_collections_checked. eapply post_unwrap_bind; [done|].
  apply post_res_bind; intros m2 H2%plugin_options_prepared; [|by apply split_checked].
  by apply normalize_config_post.
Qed.

(** ** The gate *)

(** What a proxy that passes the gate is limited to. *)
Definition reserved_name (v : Value) : bool := is_some_and (as_str v) (λ s, one_of s ["DIRECT"; "REJECT"]).

(** A Shadowsocks proxy is not wrapped in TLS and names no cipher but these. *)
Definition shadowsocks_allowed (m : bmap Value) : Prop :=
  bget (lit "tls") m ≠ Some (VBool true) ∧
  optional (λ v, v ∈ (VString ∘ lit <$> ["aes-128-gcm"; "aes-256-gcm"; "chacha20-ietf-poly1305"; "chacha20-poly1305"]%string))
    "cipher" m.

Definition proxy_allowed (v : Value) : Prop := map_of (λ m,
  (∃ kind, bget (lit "type") m = Some (VString kind) ∧ one_of kind ["direct"; "reject"; "ss"; "trojan"; "anytls"] = true) ∧
  (∃ name, bget (lit "name") m = Some (VString name) ∧ one_of name ["DIRECT"; "REJECT"] = false) ∧
  bget (lit "ws-opts") m = None ∧ bget (lit "grpc-opts") m = None ∧
  optional (λ v, v = VString (lit "tcp")) "network" m ∧
  (bget (lit "type") m = Some (VString (lit "ss")) → shadowsocks_allowed m)) v.

Definition group_allowed (v : Value) : Prop := map_of (λ m,
  bget (lit "type") m = Some (VString (lit "select")) ∧
  ∃ name, bget (lit "name") m = Some (VString name) ∧ one_of name ["DIRECT"; "REJECT"] = false) v.

Definition port_of (key : string) (m : bmap Value) : Z := default 0 (bget (lit key) m ≫= as_u64).

(** A configuration past the gate: normal, without reserved names, unsupported kinds,
    transports or ciphers, and without a listener of its own unless there is a mixed port. *)
Record allowed (m : bmap Value) : Prop := {
  allowed_normal : normal m;
  allowed_proxies : holds (list_of proxy_allowed) "proxies" m;
  allowed_groups : holds (list_of group_allowed) "proxy-groups" m;
  allowed_ports : port_of "mixed-port" m = 0 → port_of "port" m = 0 ∧ port_of "socks-port" m = 0;
}.

Lemma each_try_post {A} (f : A → pres unit) (P Q : A → Prop) l :
  (∀ a, P a → post (λ _, Q a) (f a)) → Forall P l → post (λ _, Forall Q l) (each_try f l).
Proof.
  intros Hf. induction 1 as [|a l Ha _ IH]; simpl; [constructor|].
  eapply post_bind; [by apply Hf|]. intros u Hq. eapply post_mono; [exact IH|]. by constructor.
Qed.

Lemma is_text_true v s : is_text v s = true → v = VString (lit s).
Proof. destruct v; try done. simpl. by intros ->%eq_str_true. Qed.

Lemma one_of_elem s l : one_of s l = true → s ∈ lit <$> l.
Proof.
  unfold one_of. intros (x & Hx & E)%existsb_exists. apply eq_str_true in E as ->. by apply list_elem_of_fmap_2, list_elem_of_In.
Qed.

Lemma shadowsocks_allowed_spec m :
  is_bool (default VNull (bget (lit "tls") m)) true = false →
  is_some_and (bget (lit "cipher") m) (λ v, negb (is_some_and (as_str v) (λ s,
    one_of s ["aes-128-gcm"; "aes-256-gcm"; "chacha20-ietf-poly1305"; "chacha20-poly1305"]))) = false →
  shadowsocks_allowed m.
Proof.
  intros Htls Hc. split; [intros E; by rewrite E in Htls|]. intros v Hv. rewrite Hv in Hc. simpl in Hc.
  apply negb_false_iff in Hc. destruct v as [| | |s| |]; try done. apply one_of_elem in Hc.
  rewrite list_fmap_compose. by apply list_elem_of_fmap_2.
Qed.

Lemma proxy_supported_post v : map_of proxy_normal v → post (λ _, proxy_allowed v) (proxy_supported v).
Proof.
  intros (m & -> & Hn). destruct Hn as [(nv & Hname & [name ->]%string_value_inv) (kind & Ht & _) _ _ _ Hplug _].
  unfold proxy_supported. eapply post_unwrap_bind; [by unfold type_of; rewrite index_bget, Ht|].
  rewrite !get_bget, !index_bget, Hname. simpl.
  destruct (negb _ || _ || _ || _ || _) eqn:E; [done|]. rewrite !orb_false_iff in E.
  destruct E as [[[[E1 E2] E3] E4] E5]. destruct (eq_str kind _ && _) eqn:Ess; [done|].
  rewrite Hplug. exists m. split; [done|]. split_and!.
  - exists kind. split; [done|]. by apply negb_false_iff.
  - by exists name.
  - by destruct (bget (lit "ws-opts") m).
  - by destruct (bget (lit "grpc-opts") m).
  - intros x Hx. rewrite Hx in E5. simpl in E5. apply negb_false_iff in E5. by apply is_text_true.
  - rewrite Ht. intros [= ->]. rewrite eq_str_refl in Ess. apply orb_false_iff in Ess as [Htls Hc].
    by apply shadowsocks_allowed_spec.
Qed.

Lemma group_supported_spec v : map_of group_normal v → group_supported v = true → group_allowed v.
Proof.
  intros (m & -> & [(nv & Hname & [name ->]%string_value_inv) _ _ _ _ _ _]). unfold group_supported.
  rewrite !index_bget, Hname. simpl. intros [H1%is_text_true H2%negb_true_iff]%andb_prop.
  exists m. split; [done|]. split; [|by exists name].
  destruct (bget (lit "type") m) as [t|]; [by simpl in H1; subst|done].
Qed.

Lemma port_is_zero key m : holds (at_most 65535) key m →
  is_int (index key (VObject m)) 0 = bool_decide (port_of key m = 0).
Proof.
  intros (v & Hv & n & Hn & Hle). unfold port_of, is_int. rewrite index_bget, Hv. simpl. rewrite Hn. simpl.
  apply bool_decide_ext. destruct v as [| |[k|k|k]| | |]; simplify_eq/=. destruct (n <=? _) eqn:E; [naive_solver|blia].
Qed.

Lemma materializable_post v : map_of normal v → post (λ _, map_of allowed v) (materializable v).
Proof.
  intros (m & -> & Hn). pose proof Hn as [Hports _ _ Hp Hg _ _].
  destruct Hp as (? & Hp & lp & -> & Hlp). destruct Hg as (? & Hg & lg & -> & Hlg).
  apply Forall_cons in Hports as [P1 Hports]. apply Forall_cons in Hports as [P2 Hports].
  apply Forall_cons in Hports as [P3 _].
  unfold materializable. rewrite !port_is_zero by done.
  destruct (_ && _) eqn:E; [done|].
  eapply post_unwrap_bind; [by rewrite index_bget, Hg|].
  destruct (forallb group_supported lg) eqn:Eg; [|done]. cbn [negb].
  eapply post_unwrap_bind; [by rewrite index_bget, Hp|].
  eapply post_mono; [by eapply each_try_post; [apply proxy_supported_post|]|].
  intros u Ha. exists m. split; [done|]. split; [done| | |].
  - exists (VArray lp). split; [done|]. by exists lp.
  - exists (VArray lg). split; [done|]. exists lg. split; [done|]. rewrite Forall_forall in Hlg |- *.
    intros x Hx. apply group_supported_spec; [by apply Hlg|]. rewrite forallb_forall in Eg.
    apply Eg. by apply list_elem_of_In.
  - intros H0. rewrite (bool_decide_eq_true_2 _ H0) in E. simpl in E. apply orb_false_iff in E as [E1 E2].
    apply negb_false_iff, bool_decide_eq_true in E1, E2. done.
Qed.

(** ** The projection *)

Lemma remove_keys_get keys m key : key ∉ keys → bget (lit key) (remove_keys keys m) = bget (lit key) m.
Proof.
  unfold remove_keys. revert m. induction keys as [|k ks IH]; intros m Hk; [done|]. simpl.
  apply not_elem_of_cons in Hk as [Hk1 Hk2]. rewrite IH by done. apply bget_remove_ne. by intros ?%lit_inj.
Qed.

Lemma runtime_value_total url parse source : runtime_value url parse source ≠ None.
Proof.
  apply (post_total (λ _, True)). unfold runtime_value.
  eapply post_bind; [apply config_document_post|]. intros v (m & -> & [_ Hl _ Hp Hg _ _]).
  eapply post_unwrap_bind; [done|]. destruct Hl as (lan & Hl & _).
  eapply post_unwrap_bind; [rewrite remove_keys_get; [exact Hl|set_solver]|].
  set (m1 := if is_bool lan false then _ else _).
  assert (∀ key, key ∈ ["proxies"; "proxy-groups"]%string → bget (lit key) m1 = bget (lit key) m) as Hk.
  { intros key Hk. unfold m1. destruct (is_bool lan false); [rewrite bget_lit_ne by set_solver|];
      (rewrite remove_keys_get; [done|set_solver]). }
  eapply post_bind.
  { apply (post_update_array _ _ _ (map_of group_normal) (λ _, True)).
    - eapply holds_ext; [apply Hk; set_solver|done].
    - intros l Hlst. eapply post_mono; [|done]. eapply (post_map_try _ _ (λ _, True)); [|exact Hlst]. by intros ? (? & -> & _). }
  intros m2 (l & -> & _). eapply post_bind; [|done].
  apply (post_update_array _ _ _ (map_of proxy_normal) (λ _, True)).
  - apply holds_insert; [done|]. eapply holds_ext; [apply Hk; set_solver|done].
  - intros lst Hlst. eapply post_mono; [|done]. eapply (post_map_try _ _ (λ _, True)); [|exact Hlst]. by intros ? (? & -> & _).
Qed.
