(* ===== verification/YamlText.v ===== *)
(** * Written text: safety and reading back (src/src/override_script.rs: [BoundedText], [yaml_quote])

    The writer lets only displayable characters through and stays within its limit; a quoted
    string reads back as the characters quoted. *)
From S2P Require Import Prelude Utf8 Net Json Override ConfigYaml.

(** ** Safe text *)

(** What goes in: no control character of ASCII but the newline. *)
Definition plain (c : Z) : Prop := c = 10 ∨ 32 ≤ c.

(** What comes out: in addition nothing that could deceive a terminal. *)
Definition displayable (c : Z) : Prop := plain c ∧ unsafe_unicode c = false.

Definition safe_text (out : str) : Prop := text displayable out ∧ len out ≤ MAX_SOURCE_BYTES.

Definition plain_byte (b : Z) : bool := (b =? 10) || (32 <=? b).

Lemma plain_ascii s : forallb (λ b, (0 <=? b) && (b <? 128) && plain_byte b) s = true → text plain s.
Proof.
  apply text_lit. intros b _ [->%Z.eqb_eq|H%Z.leb_le]%orb_prop; [by left|by right].
Qed.

Lemma unsafe_unicode_bound c : unsafe_unicode c = true → 128 ≤ c ≤ 65279.
Proof.
  unfold unsafe_unicode, in_range. intros H. rewrite !orb_true_iff, !andb_true_iff in H.
  destruct_or?; destruct_and?; blia.
Qed.

Lemma print_hex_digits n : 0 ≤ n → Forall (λ b, 48 ≤ b < 58 ∨ 97 ≤ b < 103) (print_hex n).
Proof.
  unfold print_hex. generalize (S (Z.to_nat (Z.log2 n))). intros fuel. revert n.
  assert (∀ d, 0 ≤ d < 16 → 48 ≤ hex_digit d < 58 ∨ 97 ≤ hex_digit d < 103) as Hd.
  { intros d Hd. unfold hex_digit. destruct (Z.ltb_spec d 10); lia. }
  induction fuel as [|fuel IH]; intros n Hn; simpl; [constructor|]. destruct (Z.ltb_spec n 16) as [H|H].
  - constructor; [|constructor]. apply Hd. lia.
  - apply Forall_app. split; [apply IH; apply Z.div_pos; lia|]. constructor; [|constructor].
    apply Hd. apply Z.mod_pos_bound. lia.
Qed.

(** Escapes are plain ASCII. *)
Lemma escape_text (prefix : string) w n : 0 ≤ n →
  Forall (λ b, 32 ≤ b < 127) (lit prefix) →
  Forall (λ b, 32 ≤ b < 127) (lit prefix ++ pad_left w 48 (print_hex n)).
Proof.
  intros Hn Hp. apply Forall_app. split; [done|]. apply pad_left_Forall; [lia|].
  eapply Forall_impl; [by apply print_hex_digits|]. intros b. simpl. lia.
Qed.

Lemma printable_safe b : 32 ≤ b < 127 → displayable b.
Proof.
  intros H. split; [right; lia|]. apply not_true_iff_false. intros Hu%unsafe_unicode_bound. lia.
Qed.

Lemma printable_text s : Forall (λ b, 32 ≤ b < 127) s → text displayable s.
Proof.
  intros H. apply text_ascii; (eapply Forall_impl; [exact H|]); [intros b; simpl; lia|].
  intros b. apply printable_safe.
Qed.

(** [\u] and four digits. *)
Lemma unicode_escape_len c : unsafe_unicode c = true → len (unicode_escape c) = 6.
Proof.
  intros H%unsafe_unicode_bound. unfold unicode_escape. rewrite len_app. unfold len at 2.
  rewrite pad_left_length; [done|]. apply hex_go_length; [lia|]. simpl. lia.
Qed.

Lemma unicode_escape_safe c : unsafe_unicode c = true → text displayable (unicode_escape c).
Proof.
  intros H%unsafe_unicode_bound. apply printable_text. apply escape_text; [lia|].
  by repeat constructor.
Qed.

(** ** The writer *)

Lemma write_char_safe out c : safe_text out → plain c → scalar c = true →
  ∀ out', write_char MAX_SOURCE_BYTES out c = Some out' → safe_text out'.
Proof.
  intros [Ht Hl] Hp Hs out'. unfold write_char. rewrite Z.max_r by lia.
  destruct (unsafe_unicode c) eqn:Eu.
  - destruct (Z.ltb_spec (MAX_SOURCE_BYTES - len out) 6); [done|]. intros [= <-]. split.
    + apply text_app; [done|by apply unicode_escape_safe].
    + rewrite len_app, unicode_escape_len by done. lia.
  - destruct (Z.ltb_spec (MAX_SOURCE_BYTES - len out) (len_utf8 c)) as [|H]; [done|]. intros [= <-]. split.
    + apply text_app; [done|]. rewrite <- (app_nil_r (encode1 c)). change (encode1 c ++ []) with (utf8_encode [c]).
      apply text_encode; [simpl; by rewrite Hs|]. constructor; [by split|constructor].
    + rewrite len_app. unfold len_utf8 in H. lia.
Qed.

Lemma put_post out s : safe_text out → text plain s → post safe_text (put out s).
Proof.
  intros Ho (cs & Hd & Hp). unfold put, write_str, chars. rewrite Hd. simpl.
  apply utf8_decode_inv in Hd as [_ Hs]. apply post_res.
  revert out Ho. induction Hp as [|c cs Hc _ IH]; intros out Ho a; simpl.
  - by intros [= <-].
  - simpl in Hs. apply andb_prop in Hs as [Hs1 Hs2].
    destruct (write_char MAX_SOURCE_BYTES out c) as [out1|] eqn:E; [|done].
    apply IH; [done|]. by eapply write_char_safe.
Qed.

(** ** Quoting *)

Lemma quote_char_plain c : scalar c = true → text plain (quote_char c).
Proof.
  intros Hs. assert (∀ w p, Forall (λ b, 32 ≤ b < 127) (lit p) → text plain (lit p ++ pad_left w 48 (print_hex c))) as Hesc.
  { intros w p Hp. apply (text_mono displayable); [by intros ? []|]. apply printable_text.
    apply escape_text; [|done]. unfold scalar, in_range in Hs. rewrite orb_true_iff, !andb_true_iff in Hs.
    destruct Hs as [[? _]|[? _]]; blia. }
  unfold quote_char. destruct (c =? 92); [by apply plain_ascii|]. destruct (c =? 34); [by apply plain_ascii|].
  destruct (c =? 10); [by apply plain_ascii|]. destruct (c =? 13); [by apply plain_ascii|].
  destruct (c =? 9); [by apply plain_ascii|].
  destruct (in_range 0 31 c || (c =? 127)) eqn:Ec; [apply Hesc; by repeat constructor|].
  destruct (unsafe_unicode c); [apply Hesc; by repeat constructor|].
  rewrite <- (app_nil_r (encode1 c)). change (encode1 c ++ []) with (utf8_encode [c]).
  apply text_encode; [simpl; by rewrite Hs|]. constructor; [|constructor]. right.
  apply orb_false_elim in Ec as [Ec _]. apply in_range_false in Ec. unfold scalar in Hs.
  rewrite orb_true_iff, !in_range_true in Hs. lia.
Qed.

Lemma yaml_quote_plain s : text plain (yaml_quote s).
Proof.
  unfold yaml_quote. apply text_app; [by apply plain_ascii|]. apply text_app; [|by apply plain_ascii].
  pose proof (chars_scalar s) as H. induction (chars s) as [|c cs IH]; [apply text_nil|].
  simpl in H. apply andb_prop in H as [Hc Hcs]. simpl. apply text_app; [by apply quote_char_plain|by apply IH].
Qed.
(** ** Reading a quoted scalar *)

(** [n] hexadecimal digits. *)
Fixpoint read_hex (n : nat) (acc : Z) (s : list Z) : option (Z * list Z) :=
  match n, s with
  | O, _ => Some (acc, s)
  | S n, b :: s => let? d := to_digit 16 b in read_hex n (acc * 16 + d) s
  | S n, [] => None
  end.

(** The character an escape stands for (YAML 1.2, double-quoted style), after the backslash. *)
Definition read_escape (s : list Z) : option (Z * list Z) :=
  match s with
  | [] => None
  | c :: s =>
      if (c =? 92) || (c =? 34) then Some (c, s)
      else if c =? 110 then Some (10, s)
      else if c =? 114 then Some (13, s)
      else if c =? 116 then Some (9, s)
      else if c =? 120 then read_hex 2 0 s
      else if c =? 117 then read_hex 4 0 s
      else None
  end.

(** The characters up to the closing quote, and what follows it. *)
Fixpoint read_quoted (fuel : nat) (s : list Z) : option (list Z * list Z) :=
  match fuel, s with
  | S fuel, c :: s =>
      if c =? 34 then Some ([], s)
      else
        let? '(x, s) := (if c =? 92 then read_escape s else Some (c, s)) in
        let? '(xs, rest) := read_quoted fuel s in
        Some (x :: xs, rest)
  | _, _ => None
  end.

Definition read_scalar (s : list Z) : option (list Z * list Z) :=
  match s with
  | c :: s => if c =? 34 then read_quoted (length s) s else None
  | [] => None
  end.

#[local] Arguments to_digit : simpl never.

Lemma read_hex_numeral w acc r : numeral 16 w → read_hex (length w) acc (w ++ r) = Some (radix_value 16 acc w, r).
Proof.
  intros Hw. revert acc. induction Hw as [|b w [d Hd] _ IH]; intros acc; simpl; [done|].
  rewrite Hd. apply IH.
Qed.

Lemma read_hex_padded w c r : (0 < w)%nat → 0 ≤ c < 16 ^ Z.of_nat w → c ≤ 65535 →
  read_hex w 0 (pad_left w 48 (print_hex c) ++ r) = Some (c, r).
Proof.
  intros Hw Hc Hb. destruct (print_hex_spec c) as (Hn & _ & Hv & _); [lia|].
  assert (numeral 16 (pad_left w 48 (print_hex c))) as Hp by (apply pad_left_Forall; [by exists 0|done]).
  pose proof (read_hex_numeral _ 0 r Hp) as H. rewrite pad_left_length in H.
  - by rewrite H, pad_left_value, Hv.
  - apply hex_go_length; [done|lia].
Qed.

(** [quote_char] as characters. *)
Definition quote_codes (c : Z) : list Z :=
  if (128 <=? c) && negb (unsafe_unicode c) then [c] else quote_char c.

Lemma unsafe_unicode_high c : c < 128 → unsafe_unicode c = false.
Proof. intros H. apply not_true_iff_false. intros ?%unsafe_unicode_bound. lia. Qed.

Lemma quote_char_ascii c : scalar c = true → c < 128 ∨ unsafe_unicode c = true → Forall (λ b, 32 ≤ b < 127) (quote_char c).
Proof.
  intros Hs Hc. assert (0 ≤ c) as H0.
  { unfold scalar in Hs. rewrite orb_true_iff, !in_range_true in Hs. lia. }
  unfold quote_char. destruct (c =? 92); [by repeat constructor|]. destruct (c =? 34); [by repeat constructor|].
  destruct (c =? 10); [by repeat constructor|]. destruct (c =? 13); [by repeat constructor|].
  destruct (c =? 9); [by repeat constructor|].
  destruct (in_range 0 31 c || (c =? 127)) eqn:E; [apply escape_text; [done|by repeat constructor]|].
  destruct (unsafe_unicode c) eqn:Eu; [apply escape_text; [done|by repeat constructor]|].
  destruct Hc as [Hc|]; [|done]. apply orb_false_elim in E as [E1 E2]. apply in_range_false in E1.
  apply Z.eqb_neq in E2. unfold encode1. rewrite (proj2 (Z.ltb_lt c 128)) by lia.
  constructor; [lia|constructor].
Qed.

Lemma quote_codes_encode c : scalar c = true → utf8_encode (quote_codes c) = quote_char c ∧ forallb scalar (quote_codes c) = true.
Proof.
  intros Hs. unfold quote_codes. destruct ((128 <=? c) && negb (unsafe_unicode c)) eqn:E.
  - apply andb_prop in E as [E1%Z.leb_le E2%negb_true_iff]. split; [|simpl; by rewrite Hs]. unfold quote_char.
    repeat match goal with |- context [c =? ?n] => rewrite (proj2 (Z.eqb_neq c n)) by lia end.
    rewrite (proj2 (in_range_false 0 31 c)), E2 by lia. simpl. unfold utf8_encode. simpl. by rewrite app_nil_r.
  - assert (Forall (λ b, 32 ≤ b < 127) (quote_char c)) as Ha.
    { apply quote_char_ascii; [done|]. apply andb_false_iff in E as [E%Z.leb_gt|E%negb_false_iff]; auto. }
    split; [apply encode_ascii; eapply Forall_impl; [exact Ha|intros b; simpl; lia]|].
    apply forallb_forall. intros b Hb. apply list_elem_of_In in Hb. rewrite Forall_forall in Ha.
    specialize (Ha b Hb). unfold scalar. apply orb_true_iff. left. apply in_range_true. lia.
Qed.

Definition scalar_codes (s : str) : list Z := [34] ++ flat_map quote_codes (chars s) ++ [34].

Lemma quote_codes_all cs : forallb scalar cs = true →
  utf8_encode (flat_map quote_codes cs) = flat_map quote_char cs ∧ forallb scalar (flat_map quote_codes cs) = true.
Proof.
  induction cs as [|c cs IH]; [done|]. simpl. intros [Hc Hcs]%andb_prop.
  destruct (quote_codes_encode c Hc) as [H1 H2]. destruct (IH Hcs) as [H3 H4].
  by rewrite utf8_encode_app, H1, H3, forallb_app, H2, H4.
Qed.

Lemma chars_yaml_quote s : utf8_decode (yaml_quote s) = Some (scalar_codes s).
Proof.
  destruct (quote_codes_all (chars s) (chars_scalar s)) as [H1 H2].
  rewrite <- (utf8_roundtrip (scalar_codes s)).
  - f_equal. unfold scalar_codes, yaml_quote. by rewrite !utf8_encode_app, H1.
  - unfold scalar_codes. by rewrite !forallb_app, H2.
Qed.

(** One quoted character is read back. *)
Lemma read_code fuel c r : scalar c = true →
  read_quoted (S fuel) (quote_codes c ++ r) =
    (let? '(xs, rest) := read_quoted fuel r in Some (c :: xs, rest)).
Proof.
  intros Hs. unfold quote_codes. destruct ((128 <=? c) && negb (unsafe_unicode c)) eqn:E.
  - apply andb_prop in E as [E1%Z.leb_le _]. cbn [app read_quoted].
    by rewrite (proj2 (Z.eqb_neq c 34)), (proj2 (Z.eqb_neq c 92)) by lia.
  - assert (0 ≤ c) as H0 by (unfold scalar in Hs; rewrite orb_true_iff, !in_range_true in Hs; lia).
    unfold quote_char. destruct (Z.eqb_spec c 92) as [->|N1]; [done|].
    destruct (Z.eqb_spec c 34) as [->|N2]; [done|]. destruct (Z.eqb_spec c 10) as [->|N3]; [done|].
    destruct (Z.eqb_spec c 13) as [->|N4]; [done|]. destruct (Z.eqb_spec c 9) as [->|N5]; [done|].
    destruct (in_range 0 31 c || (c =? 127)) eqn:Ec; [|destruct (unsafe_unicode c) eqn:Eu].
    + assert (c ≤ 127) by (apply orb_prop in Ec as [Ec%in_range_true|Ec%Z.eqb_eq]; lia).
      change ((lit "\x" ++ pad_left 2 48 (print_hex c)) ++ r) with (92 :: 120 :: (pad_left 2 48 (print_hex c) ++ r)).
      cbn [read_quoted]. change (92 =? 34) with false. change (92 =? 92) with true. cbv iota.
      assert (read_escape (120 :: pad_left 2 48 (print_hex c) ++ r) = Some (c, r)) as ->; [|done].
      unfold read_escape. simpl (_ =? _). cbn [orb]. apply read_hex_padded; simpl; lia.
    + pose proof (unsafe_unicode_bound c Eu).
      change (unicode_escape c ++ r) with (92 :: 117 :: (pad_left 4 48 (print_hex c) ++ r)).
      cbn [read_quoted]. change (92 =? 34) with false. change (92 =? 92) with true. cbv iota.
      assert (read_escape (117 :: pad_left 4 48 (print_hex c) ++ r) = Some (c, r)) as ->; [|done].
      unfold read_escape. simpl (_ =? _). cbn [orb]. apply read_hex_padded; simpl; lia.
    + rewrite andb_true_r in E. apply Z.leb_gt in E. unfold encode1. rewrite (proj2 (Z.ltb_lt c 128)) by lia.
      cbn [app read_quoted]. by rewrite (proj2 (Z.eqb_neq c 34)), (proj2 (Z.eqb_neq c 92)) by lia.
Qed.

Lemma read_codes cs fuel r : forallb scalar cs = true → (length cs < fuel)%nat →
  read_quoted fuel (flat_map quote_codes cs ++ 34 :: r) = Some (cs, r).
Proof.
  revert fuel. induction cs as [|c cs IH]; intros [|fuel] Hs Hf; simpl in Hf; try lia; [done|].
  cbn [forallb] in Hs. apply andb_prop in Hs as [Hc Hcs]. cbn [flat_map]. rewrite <- app_assoc, read_code by done.
  rewrite IH; [done|done|lia].
Qed.

Lemma quote_codes_length cs : (length cs ≤ length (flat_map quote_codes cs))%nat.
Proof.
  induction cs as [|c cs IH]; simpl; [lia|]. rewrite length_app.
  assert (0 < length (quote_codes c))%nat; [|lia].
  unfold quote_codes. destruct (_ && _); [simpl; lia|]. unfold quote_char.
  repeat (destruct (_ =? _); [simpl; lia|]). destruct (_ || _); [simpl; lia|].
  destruct (unsafe_unicode c); [simpl; lia|]. pose proof (encode1_ne c). destruct (encode1 c); [done|simpl; lia].
Qed.

Lemma read_scalar_quote s r : read_scalar (scalar_codes s ++ r) = Some (chars s, r).
Proof.
  unfold read_scalar, scalar_codes. rewrite <- app_assoc. cbn [app]. change (34 =? 34) with true. cbv iota.
  rewrite <- app_assoc. apply read_codes; [apply chars_scalar|].
  pose proof (quote_codes_length (chars s)). rewrite !length_app. simpl. lia.
Qed.

(** The writer leaves displayable text as it is. *)
Lemma write_displayable limit out cs : forallb scalar cs = true → Forall (λ c, unsafe_unicode c = false) cs →
  len out + len (utf8_encode cs) ≤ limit → write_chars limit out cs = Some (out ++ utf8_encode cs).
Proof.
  revert out. induction cs as [|c cs IH]; intros out Hs Hu Hl; cbn [write_chars].
  - by rewrite app_nil_r.
  - cbn [forallb] in Hs. apply andb_prop in Hs as [Hc Hcs]. inversion Hu as [|? ? Hu1 Hu2]; subst.
    rewrite utf8_encode_cons, len_app in Hl. unfold write_char. rewrite Hu1.
    pose proof (len_nonneg (utf8_encode cs)). rewrite Z.max_r by (unfold len in *; lia).
    unfold len_utf8. rewrite (proj2 (Z.ltb_ge _ _)) by lia.
    rewrite IH, utf8_encode_cons, app_assoc; [done|done|done|]. rewrite len_app. lia.
Qed.

Lemma scalar_codes_safe s : Forall (λ c, unsafe_unicode c = false) (scalar_codes s).
Proof.
  apply Forall_app. split; [by repeat constructor|]. apply Forall_app. split; [|by repeat constructor].
  pose proof (chars_scalar s) as H. induction (chars s) as [|c cs IH]; [constructor|].
  cbn [forallb] in H. apply andb_prop in H as [Hc Hcs]. cbn [flat_map]. apply Forall_app. split; [|by apply IH].
  unfold quote_codes. destruct ((128 <=? c) && negb (unsafe_unicode c)) eqn:E.
  - apply andb_prop in E as [_ E%negb_true_iff]. by repeat constructor.
  - eapply Forall_impl; [apply quote_char_ascii; [done|]|].
    + apply andb_false_iff in E as [E%Z.leb_gt|E%negb_false_iff]; auto.
    + intros b Hb. simpl in Hb. apply unsafe_unicode_high. lia.
Qed.

Lemma write_quoted limit out s : len out + len (yaml_quote s) ≤ limit →
  write_str limit out (yaml_quote s) = Some (out ++ yaml_quote s).
Proof.
  intros Hl. pose proof (chars_yaml_quote s) as Hd. unfold write_str, chars. rewrite Hd. simpl (default _ _).
  apply utf8_decode_inv in Hd as [He Hs]. rewrite He. rewrite He in Hl.
  apply write_displayable; [done|apply scalar_codes_safe|done].
Qed.

Lemma encode1_high c : 128 ≤ c → scalar c = true → 10 ∉ encode1 c.
Proof.
  intros Hc Hs Hin. unfold scalar in Hs. rewrite orb_true_iff, !in_range_true in Hs. unfold encode1 in Hin.
  rewrite (proj2 (Z.ltb_ge c 128)) in Hin by lia.
  assert (∀ x, 0 ≤ x mod 64 < 64) as Hm by (intros; apply Z.mod_pos_bound; lia).
  repeat case_match; rewrite ?elem_of_cons, elem_of_nil in Hin; destruct_or? Hin; try done;
    pose proof (Hm c); pose proof (Hm (c / 64)); pose proof (Hm (c / 4096)); try lia;
    pose proof (Z.div_pos c 64); pose proof (Z.div_pos c 4096); pose proof (Z.div_pos c 262144); lia.
Qed.

Lemma quote_char_line c : scalar c = true → 10 ∉ quote_char c.
Proof.
  intros Hs. destruct (decide (c < 128 ∨ unsafe_unicode c = true)) as [H|H].
  - intros Hin. pose proof (quote_char_ascii c Hs H) as Ha. rewrite Forall_forall in Ha. specialize (Ha _ Hin). lia.
  - pose proof (quote_codes_encode c Hs) as [<- _]. apply Decidable.not_or in H as [H1 H2%not_true_iff_false].
    unfold quote_codes. rewrite (proj2 (Z.leb_le 128 c)), H2 by lia. cbn [andb negb].
    rewrite utf8_encode_cons, app_nil_r. apply encode1_high; [lia|done].
Qed.

Lemma yaml_quote_line s : 10 ∉ yaml_quote s.
Proof.
  unfold yaml_quote. rewrite !elem_of_app, !elem_of_cons, elem_of_nil. intros [[H|H]|[H|[H|H]]]; try done.
  apply list_elem_of_In, in_flat_map in H as (c & Hc%list_elem_of_In & H%list_elem_of_In).
  pose proof (chars_scalar s) as Hs. rewrite forallb_forall in Hs.
  apply (quote_char_line c); [by apply Hs, list_elem_of_In|done].
Qed.

(** ** Property *)

(** A quoted string reads back: every string [s] of Unicode text, written where there is
    room for it, stands unchanged in the output, on one line and without deceptive characters,
    and a YAML reader of double-quoted scalars gets the characters of [s] from it, whatever
    follows. *)
Theorem yaml_quote_roundtrip limit out s : utf8_valid s = true → len out + len (yaml_quote s) ≤ limit →
  write_str limit out (yaml_quote s) = Some (out ++ yaml_quote s) ∧
  (10 ∉ yaml_quote s) ∧
  ∃ codes, utf8_decode (yaml_quote s) = Some codes ∧ Forall (λ c, unsafe_unicode c = false) codes ∧
    ∀ rest, ∃ cs, read_scalar (codes ++ rest) = Some (cs, rest) ∧ utf8_encode cs = s.
Proof.
  intros Hs Hl. split_and!; [by apply write_quoted|apply yaml_quote_line|].
  exists (scalar_codes s). split_and!; [apply chars_yaml_quote|apply scalar_codes_safe|].
  intros rest. exists (chars s). split; [apply read_scalar_quote|by apply chars_encode].
Qed.

Lemma yaml_quote_roundtrip_witness :
  yaml_quote [10; 34; 0xe2; 0x80; 0xae; 92] = [34; 92; 110; 92; 34] ++ lit "\u202e\\" ++ [34] ∧
  write_str 100 [] (yaml_quote [10; 34; 0xe2; 0x80; 0xae; 92]) = Some ([] ++ yaml_quote [10; 34; 0xe2; 0x80; 0xae; 92]).
Proof. split; [reflexivity|]. apply yaml_quote_roundtrip; [vm_compute; reflexivity|vm_compute; discriminate]. Defined.
