(* ===== verification/ConfigYamlFacts.v ===== *)
(** * Canonical YAML and merging: what is written (src/src/override_script.rs)

    Writing a normalised configuration never panics and gives safe text; a merged configuration
    consists of the fields of source and patch, and it passed the gate. *)
From S2P Require Import Prelude Utf8 Net BTree Json Document Proxy Rules Override OverrideFacts ZigMap ConfigYaml YamlText.

(** ** Writing a normalised configuration *)

#[local] Hint Extern 1 (text plain (lit _)) => (apply plain_ascii; reflexivity) : zc.
#[local] Hint Extern 1 (text plain newline) => (apply plain_ascii; reflexivity) : zc.
#[local] Hint Extern 2 (text plain (_ ++ _)) => apply text_app : zc.
#[local] Hint Resolve yaml_quote_plain : zc.

(** [f] extends a safe text to a safe text, or fails; it does not panic. *)
Definition writes (f : str → pres str) : Prop := ∀ out, safe_text out → post safe_text (f out).

Lemma writes_nothing : writes pok.
Proof. by intros out H. Qed.

Lemma writes_put s : text plain s → writes (λ out, put out s).
Proof. intros Hs out Ho. by apply put_post. Qed.

Lemma writes_then f g : writes f → writes g → writes (λ out, try! out := f out in g out).
Proof. intros Hf Hg out Ho. eapply post_bind; [by apply Hf|]. apply Hg. Qed.

Lemma writes_if (b : bool) f g : writes f → writes g → writes (λ out, if b then f out else g out).
Proof. by destruct b. Qed.

Lemma writes_each {A} (f : A → str → pres str) (P : A → Prop) l :
  (∀ a, P a → writes (f a)) → Forall P l → writes (each f l).
Proof.
  intros Hf. induction 1 as [|a l Ha _ IH]; [apply writes_nothing|].
  apply (writes_then (f a) (each f l)); [by apply Hf|done].
Qed.

Section Writing.
Context (to_json : Value → str).
(** serde_json escapes control characters. *)
Hypothesis to_json_plain : ∀ v, text plain (to_json v).

Lemma writes_field prefix key v : text plain (lit prefix) → text plain (lit key) → writes (yaml_field to_json prefix key v).
Proof.
  intros Hp Hk out Ho. unfold yaml_field. apply put_post; [done|].
  do 4 (apply text_app; auto with zc). destruct (as_str v); auto with zc.
Qed.

Lemma writes_present prefix v key : text plain (lit prefix) → text plain (lit key) → writes (present_field to_json prefix v key).
Proof.
  intros Hp Hk. unfold present_field. destruct (get key v); [by apply writes_field|apply writes_nothing].
Qed.

(** Fields whose names are literals. *)
Lemma writes_fields (f : string → str → pres str) keys :
  (∀ key, text plain (lit key) → writes (f key)) → Forall (λ key, text plain (lit key)) keys → writes (each f keys).
Proof. intros Hf. by apply writes_each. Qed.

Ltac names := repeat (apply Forall_cons; split; [auto with zc|]); apply Forall_nil_2.

Lemma writes_presents prefix v keys : text plain (lit prefix) → Forall (λ key, text plain (lit key)) keys →
  writes (each (present_field to_json prefix v) keys).
Proof. intros Hp. apply writes_fields. intros key. by apply writes_present. Qed.

Lemma writes_indexed prefix v keys : text plain (lit prefix) → Forall (λ key, text plain (lit key)) keys →
  writes (each (indexed_field to_json prefix v) keys).
Proof. intros Hp. apply writes_fields. intros key. by apply writes_field. Qed.

Lemma writes_true prefix v key : text plain (lit prefix) → text plain (lit key) → writes (true_field to_json prefix v key).
Proof.
  intros Hp Hk. unfold true_field. destruct (is_bool _ _); [by apply writes_field|apply writes_nothing].
Qed.

Lemma writes_provider value name : writes (write_provider to_json value name).
Proof.
  unfold write_provider. apply writes_then.
  - apply writes_put. auto 10 with zc.
  - apply writes_presents; [auto with zc|names].
Qed.

Lemma writes_providers kind value providers : writes (write_providers to_json kind value providers).
Proof.
  unfold write_providers. destruct (is_kind kind Runtime); [apply writes_nothing|].
  case_bool_decide.
  - destruct (is_kind kind Effective); [apply writes_put; auto with zc|apply writes_nothing].
  - apply writes_then; [apply writes_put; auto with zc|].
    apply (writes_each _ (λ _, True)); [intros ? _; apply writes_provider|]. by apply Forall_true.
Qed.

Lemma writes_ws ws : writes (write_ws to_json ws).
Proof.
  unfold write_ws. apply writes_then; [destruct (_ || _); apply writes_put; auto with zc|].
  apply writes_then.
  - destruct (get "path" ws); [apply writes_field; auto with zc|apply writes_nothing].
  - destruct (get "headers" ws ≫= get "Host"); [|apply writes_nothing].
    apply writes_then; [apply writes_put; auto with zc|apply writes_field; auto with zc].
Qed.

Lemma writes_plugin_opts m : writes (write_plugin_opts to_json (VObject m)).
Proof.
  intros out Ho. unfold write_plugin_opts. eapply post_unwrap_bind; [done|].
  revert out Ho. apply writes_then.
  - case_bool_decide; apply writes_put; auto with zc.
  - apply writes_presents; [auto with zc|names].
Qed.

Lemma writes_list_line indent v : text plain (lit indent) → string_value v → writes (list_line indent v).
Proof.
  intros Hi [s ->]%string_value_inv out Ho. unfold list_line. eapply post_unwrap_bind; [done|].
  apply put_post; [done|]. auto 10 with zc.
Qed.

Lemma writes_proxy kind v : map_of proxy_normal v → writes (write_proxy to_json kind v).
Proof.
  intros (m & -> & Hn). unfold write_proxy.
  apply writes_then; [apply writes_field; auto with zc|].
  apply writes_then; [apply writes_field; auto with zc|].
  apply writes_then.
  { destruct (_ || _); [|apply writes_nothing]. apply writes_indexed; [auto with zc|names]. }
  apply writes_then; [apply writes_presents; [auto with zc|names]|].
  apply writes_then.
  { destruct (is_int _ _); [apply writes_nothing|apply writes_field; auto with zc]. }
  apply writes_then.
  { apply writes_fields; [|names]. intros key. apply writes_true. auto with zc. }
  apply writes_then.
  { destruct (is_kind kind Effective); [apply writes_true; auto with zc|apply writes_nothing]. }
  apply writes_then; [apply writes_presents; [auto with zc|names]|].
  apply writes_then.
  { destruct (is_text _ _); [apply writes_present; auto with zc|apply writes_nothing]. }
  apply writes_then.
  { destruct (is_some _); [apply writes_put; auto with zc|apply writes_nothing]. }
  apply writes_then.
  { destruct (is_kind kind Effective); [apply writes_nothing|apply writes_true; auto with zc]. }
  apply writes_then.
  { destruct (get "ws-opts" _); [apply writes_ws|apply writes_nothing]. }
  apply writes_then; [apply writes_present; auto with zc|].
  rewrite get_bget. destruct (bget (lit "plugin-opts") m) as [o|] eqn:Eo; [|apply writes_nothing].
  destruct (pn_options _ Hn o Eo) as (fs & -> & _). apply writes_plugin_opts.
Qed.

Lemma writes_unwrap {A} (o : option A) a f : o = Some a → writes (f a) → writes (λ out, try! x := unwrap o in f x out).
Proof. intros -> Hf. apply Hf. Qed.

Lemma writes_group kind v : map_of group_normal v → writes (write_group to_json kind v).
Proof.
  intros (m & -> & Hn). unfold write_group.
  destruct (gn_members _ Hn) as (x & Hx & l & -> & Hl).
  apply writes_then; [apply writes_field; auto with zc|].
  apply writes_then; [apply writes_field; auto with zc|].
  eapply (writes_unwrap _ l (λ members out, _)); [by rewrite index_bget, Hx|].
  apply writes_then; [destruct (_ && _); apply writes_put; auto with zc|].
  apply writes_then.
  { apply (writes_each _ string_value); [|done]. intros s Hs. apply writes_list_line; auto with zc. }
  apply writes_presents; [auto with zc|names].
Qed.

Lemma ordinary_string v : ordinary v → string_value v.
Proof. by intros (? & ? & _ & _ & ->). Qed.

Lemma rules_strings l : rules_normal (VArray l) → Forall string_value l.
Proof.
  intros (front & final & [= ->] & Hf & (? & ? & _ & _ & ->)). apply Forall_app. split; [|by constructor].
  eapply Forall_impl; [exact Hf|apply ordinary_string].
Qed.

(** What the format needs of a configuration: [rule-providers] may be gone. *)
Definition writable (m : bmap Value) : Prop :=
  holds (list_of (map_of proxy_normal)) "proxies" m ∧ holds (list_of (map_of group_normal)) "proxy-groups" m ∧
  holds rules_normal "rules" m.

Lemma normal_writable m : normal m → writable m.
Proof. intros []. by split_and!. Qed.

Lemma canonical_post m providers kind : writable m →
  post safe_text (canonical_config_yaml to_json (VObject m) providers kind).
Proof.
  intros (Hp & Hg & Hr). destruct Hp as (? & Hp & lp & -> & Hlp). destruct Hg as (? & Hg & lg & -> & Hlg).
  destruct Hr as (rv & Hr & Hrules). destruct Hrules as (front & final & -> & Hrules).
  unfold canonical_config_yaml.
  assert (safe_text []) as H0 by (split; [apply text_nil|done]).
  eapply post_bind; [apply writes_indexed; [auto with zc|names|exact H0]|].
  apply writes_then.
  { destruct (is_kind kind Effective); [apply writes_nothing|apply writes_field; auto with zc]. }
  apply writes_then; [apply writes_indexed; [auto with zc|names]|].
  apply writes_then.
  { destruct (is_kind kind Effective); [apply writes_field; auto with zc|apply writes_nothing]. }
  apply writes_then; [apply writes_presents; [auto with zc|names]|].
  apply writes_then; [apply writes_providers|].
  eapply (writes_unwrap _ lp (λ proxies out, _)); [by rewrite index_bget, Hp|].
  apply writes_then; [case_bool_decide; apply writes_put; auto with zc|].
  apply writes_then.
  { apply (writes_each _ (map_of proxy_normal)); [|done]. intros v Hv. by apply writes_proxy. }
  eapply (writes_unwrap _ lg (λ groups out, _)); [by rewrite index_bget, Hg|].
  apply writes_then; [case_bool_decide; apply writes_put; auto with zc|].
  apply writes_then.
  { apply (writes_each _ (map_of group_normal)); [|done]. intros v Hv. by apply writes_group. }
  apply writes_then; [apply writes_put; auto with zc|].
  eapply (writes_unwrap _ (front ++ [final]) (λ rules out, _)); [by rewrite index_bget, Hr|].
  apply (writes_each _ string_value).
  - intros v Hv. apply writes_list_line; auto with zc.
  - apply rules_strings. by exists front, final.
Qed.

End Writing.

(** ** Merging *)

Section Merging.
Context (to_json : Value → str) (json_names yaml_names : str → option (list str)) (spawn : Spawn).
Context (url_parse : str → option (str * option str)) (parse_document : str → res Value).
Hypothesis to_json_plain : ∀ v, text plain (to_json v).

Abbreviation document := (document parse_document).
Abbreviation config_document := (config_document url_parse parse_document).
Abbreviation provider_order := (provider_order json_names yaml_names spawn).
Abbreviation merged := (merged url_parse parse_document).
Abbreviation merge := (merge to_json json_names yaml_names spawn url_parse parse_document).
Abbreviation materialize_source := (materialize_source to_json json_names yaml_names spawn url_parse parse_document).

Lemma zig_ordered_post names : post (λ l, l ≡ₚ names) (zig_ordered names).
Proof.
  unfold zig_ordered. destruct (ZigMap.zig_map_order names) as [l|] eqn:E; simpl.
  - by eapply ZigMap.zig_map_order_perm.
  - by apply ZigMap.zig_map_order_total in E.
Qed.

Lemma provider_order_post source : post (λ _, True) (provider_order source).
Proof.
  unfold ConfigYaml.provider_order. destruct (utf8_valid source); [|done]. cbn [negb].
  destruct (if forallb is_ascii source && negb (contains_byte 127 source) then json_names source else None) as [names|].
  - by eapply post_mono; [apply zig_ordered_post|].
  - apply post_res_bind. intros names _. by eapply post_mono; [apply zig_ordered_post|].
Qed.

(** *** What a patch replaces *)

Definition nodes_of (v : Value) : Value :=
  VArray (filter (λ item, is_group item = false) (default [] (as_array v))).

(** The field [key] of the patched document. *)
Definition replaced (base patch : bmap Value) (key : str) : option Value :=
  match bget key patch with
  | None => bget key base
  | Some v =>
      if eq_str key (lit "external-controller") && is_null v then None
      else if eq_str key (lit "proxies") then Some (nodes_of v)
      else Some v
  end.

Lemma patch_field_spec base key v : bmap_wf base →
  post (λ b, (∀ k, bget k b = replaced base [(key, v)] k) ∧ bmap_wf b) (patch_field base key v).
Proof.
  intros Hnd. unfold patch_field, replaced. cbn [bget].
  destruct (patch_field_ok key v) eqn:Eok; [|done]. cbn [negb].
  assert (∀ k x, bmap_wf (binsert k x base)) as Hins by (intros; by apply binsert_wf).
  assert (∀ x k, bget k (binsert key x base) = if eq_str k key then Some x else bget k base) as Hget.
  { intros x k. rewrite bget_insert. unfold eq_str. case_decide; [by rewrite bool_decide_eq_true_2|].
    by rewrite bool_decide_eq_false_2. }
  destruct (eq_str key (lit "external-controller") && is_null v) eqn:Enull.
  - simpl. split; [|by apply bremove_wf]. intros k. destruct (eq_str k key) eqn:Ek.
    + apply eq_str_true in Ek as ->. rewrite Enull. by apply bget_remove_eq, bmap_wf_nodup.
    + apply bget_remove_ne. by apply eq_str_false in Ek.
  - destruct (eq_str key (lit "proxies")) eqn:Ep.
    + destruct (as_array v) as [l|] eqn:El.
      * simpl. split; [|apply Hins]. intros k. rewrite Hget. destruct (eq_str k key) eqn:Ek; [|done].
        apply eq_str_true in Ek as ->. rewrite Enull, Ep. unfold nodes_of. by rewrite El.
      * apply eq_str_true in Ep as ->. unfold patch_field_ok in Eok. simpl in Eok. by rewrite El in Eok.
    + simpl. split; [|apply Hins]. intros k. rewrite Hget. destruct (eq_str k key) eqn:Ek; [|done].
      apply eq_str_true in Ek as ->. by rewrite Enull, Ep.
Qed.

Lemma patch_fields_spec base patch : bmap_wf base → NoDup (keys patch) →
  post (λ b, ∀ k, bget k b = replaced base patch k) (patch_fields base patch).
Proof.
  revert base. induction patch as [|[key v] patch IH]; intros base Hb Hp; simpl; [done|].
  simpl in Hp. apply NoDup_cons in Hp as [Hk Hp].
  eapply post_bind; [by apply patch_field_spec|]. intros b [H1 Hnb].
  eapply post_mono; [by apply IH|]. intros b' H2 k. rewrite H2. unfold replaced. rewrite H1. cbn [bget].
  destruct (bget k patch) as [x|] eqn:Ex.
  - destruct (eq_str k key) eqn:E; [|done]. apply eq_str_true in E as ->.
    apply bget_None in Hk. congruence.
  - unfold replaced. cbn [bget]. by destruct (eq_str k key).
Qed.

(** *** Merged configurations *)

Lemma split_wf m : bmap_wf m → bmap_wf (split_source_groups m).
Proof.
  intros H. unfold split_source_groups. destruct (bget (lit "proxies") m ≫= as_array) as [l|]; [|done].
  cbv zeta. case_bool_decide; [by apply binsert_wf|]. by apply binsert_wf, bremove_wf, binsert_wf.
Qed.

(** The configuration [value] comes from the fields of [base] as [patch] replaces them. *)
Definition comes_from (base patch value : bmap Value) : Prop :=
  ∃ b b', (∀ key, bget key b = replaced (split_source_groups base) patch key) ∧
    canonical_plugin_options b = Ok b' ∧ normalize_config url_parse (VObject b') = Some (Ok (VObject value)).

(** Documents are maps with sorted keys. *)
Hypothesis parse_sorted : ∀ s m, parse_document s = Ok (VObject m) → bmap_wf m.

Lemma merged_post base source patch : bmap_wf base →
  post (λ vp, ∃ m p, fst vp = VObject m ∧ snd vp = VObject p ∧ allowed m ∧
          document patch MAX_OUTPUT_BYTES = Ok (VObject p) ∧ comes_from base p m)
    (merged (VObject base) source patch).
Proof.
  intros Hb. unfold ConfigYaml.merged. eapply post_unwrap_bind; [done|].
  apply post_res_bind; intros v Hdoc. destruct (document_object _ _ _ _ Hdoc) as (p & -> & Hparse).
  apply post_res_bind; intros _ _. eapply post_unwrap_bind; [done|].
  eapply post_bind; [apply patch_fields_spec; [by apply split_wf|by eapply bmap_wf_nodup, parse_sorted]|].
  intros b Hget. apply post_res_bind; intros _ _.
  apply post_res_bind; intros [] Hchecked%validate_collections_checked.
  apply post_res_bind; intros b' Hplug. pose proof (plugin_options_prepared _ _ Hchecked Hplug) as Hprep.
  eapply post_bind; [apply config_document_post|]. intros _ _.
  destruct (normalize_config url_parse (VObject b')) as [[v|e]|] eqn:En; [|done|].
  - pose proof (post_Ok _ _ _ (normalize_config_post url_parse _ Hprep) En) as Hv.
    eapply post_bind; [by apply materializable_post|]. intros u (m & -> & Ha).
    exists m, p. split_and!; [done..|]. by exists b, b'.
  - by apply (post_total _ _ (normalize_config_post url_parse _ Hprep)) in En.
Qed.

(** What a materialised override is. *)
Definition materialized (source patch out : str) : Prop :=
  if empty_patch patch then
    out = source ∧ ∃ m, config_document source = Some (Ok (VObject m)) ∧ allowed m
  else
    ∃ base p m providers,
      document source MAX_SOURCE_BYTES = Ok (VObject base) ∧ document patch MAX_OUTPUT_BYTES = Ok (VObject p) ∧
      comes_from base p m ∧ allowed m ∧
      canonical_config_yaml to_json (VObject m) providers Effective = Some (Ok out) ∧ safe_text out.

Lemma merge_post source patch :
  post (λ out, if empty_patch patch then out = source else materialized source patch out) (merge source patch).
Proof.
  unfold ConfigYaml.merge. apply post_res_bind; intros v Hdoc.
  destruct (document_object _ _ _ _ Hdoc) as (base & -> & Hparse).
  apply post_res_bind; intros _ _. destruct (MAX_OUTPUT_BYTES <? len patch); [done|].
  destruct (empty_patch patch) eqn:Ee; [done|].
  eapply post_bind; [by apply merged_post; eapply parse_sorted|].
  intros [v1 v2] (m & p & Hv1 & Hv2 & Ha & Hp & Hfrom). simpl in Hv1, Hv2. subst v1 v2.
  eapply post_bind; [apply provider_order_post|]. intros names _.
  eapply post_bind; [apply zig_ordered_post|]. intros providers _.
  pose proof (canonical_post to_json to_json_plain m providers Effective (normal_writable _ (allowed_normal _ Ha))) as Hc.
  destruct (canonical_config_yaml _ _ _ _) as [[out|e]|] eqn:Eo; [|done|done].
  unfold materialized. rewrite Ee. by exists base, p, m, providers.
Qed.

Lemma materialize_post source patch : post (materialized source patch) (materialize_source source patch).
Proof.
  unfold ConfigYaml.materialize_source. pose proof (merge_post source patch) as Hm.
  destruct (empty_patch patch) eqn:Ee; [|exact Hm].
  eapply (post_bind (λ _, ∃ m, config_document source = Some (Ok (VObject m)) ∧ allowed m)).
  - destruct (config_document source) as [[v|e]|] eqn:Ec; [|done|].
    + destruct (post_Ok _ _ _ (config_document_post url_parse parse_document source) Ec) as (m & -> & Hn).
      eapply post_mono; [by apply materializable_post; exists m|]. intros u (m' & [= <-] & Ha). by exists m.
    + by apply (post_total _ _ (config_document_post url_parse parse_document source)) in Ec.
  - intros u Hdoc. eapply post_mono; [exact Hm|]. intros out ->. unfold materialized. by rewrite Ee.
Qed.

End Merging.
