(* ===== verification/ConfigDumps.v ===== *)
(** * Dumps (src/src/override_script.rs: [redact] and the three dumps)

    Dumps are safe text, and the public ones do not depend on secrets. *)
From S2P Require Import Prelude Utf8 BTree Json Document Proxy Override OverrideFacts ZigMap ConfigYaml YamlText ConfigYamlFacts.

(** ** Redaction *)

Lemma hide_get m key k : bget k (hide m key) = if eq_str k (lit key) && bcontains (lit key) m then Some stars else bget k m.
Proof.
  unfold hide. destruct (bcontains (lit key) m) eqn:Ec.
  - rewrite bget_insert, andb_true_r. unfold eq_str. case_decide; [by rewrite bool_decide_eq_true_2|].
    by rewrite bool_decide_eq_false_2.
  - by rewrite andb_false_r.
Qed.

Lemma hide_ne m key k : k ≠ key → bget (lit k) (hide m key) = bget (lit k) m.
Proof. intros Hk. rewrite hide_get, (proj2 (eq_str_false _ _)); [done|]. by intros ?%lit_inj. Qed.

Definition credentials : list string := ["password"; "uuid"; "sni"]%string.

Lemma credentials_ne m k : k ∉ credentials → bget (lit k) (foldl hide m credentials) = bget (lit k) m.
Proof. intros Hk. simpl. by rewrite !hide_ne by set_solver. Qed.

Lemma credentials_hidden m key : key ∈ credentials →
  bget (lit key) (foldl hide m credentials) = const stars <$> bget (lit key) m.
Proof.
  unfold credentials. intros Hk. cbn [foldl]. unfold bcontains. rewrite !hide_get. unfold bcontains.
  rewrite !hide_get. unfold bcontains. rewrite !hide_get. unfold bcontains.
  rewrite !elem_of_cons in Hk. destruct Hk as [->|[->|[->|Hk]]]; [| | |by apply not_elem_of_nil in Hk];
    vm_compute (eq_str (lit _) (lit _)); cbn [andb]; by destruct (bget _ m).
Qed.

Lemma validate_plugin_ext m m' : (∀ key, key ∈ ["type"; "plugin"; "plugin-opts"]%string → bget (lit key) m' = bget (lit key) m) →
  validate_plugin_metadata (VObject m') = validate_plugin_metadata (VObject m).
Proof.
  intros H. unfold validate_plugin_metadata, type_of. rewrite !index_bget, !get_bget, !H by set_solver. done.
Qed.

Lemma redact_proxy_normal v : map_of proxy_normal v → map_of proxy_normal (redact_proxy v).
Proof.
  intros (m & -> & [Hname Ht Hs Hf Ha Hp Ho]). simpl. fold credentials.
  change (hide (hide (hide m "password") "uuid") "sni") with (foldl hide m credentials).
  eexists. split; [done|].
  assert (∀ P key, key ∉ credentials → holds P key m → holds P key (foldl hide m credentials)) as Hk.
  { intros P key Hn Hh. eapply holds_ext; [by apply credentials_ne|done]. }
  split.
  - apply Hk; [set_solver|done].
  - destruct Ht as (kind & Ht & ? & Hep). exists kind. rewrite credentials_ne by set_solver.
    split_and!; [done|done|]. destruct Hep as [?|[? ?]]; [by left|right]. split; (apply Hk; [set_solver|done]).
  - apply Forall_forall. intros key Hkey. rewrite Forall_forall in Hs.
    destruct (decide (key ∈ credentials)) as [Hc|Hc].
    + intros x. rewrite credentials_hidden by done. destruct (bget (lit key) m); simpl; [by intros [= <-]|done].
    + eapply optional_ext; [by apply credentials_ne|]. by apply Hs.
  - repeat (apply Forall_cons in Hf as [? Hf]). repeat constructor; (apply Hk; [set_solver|done]).
  - apply Hk; [set_solver|done].
  - rewrite <- Hp. apply validate_plugin_ext. intros key Hkey. apply credentials_ne. set_solver.
  - eapply optional_ext; [apply credentials_ne; set_solver|done].
Qed.

Lemma redact_writable m : writable m → ∃ m', redact (VObject m) = VObject m' ∧ writable m' ∧
  (∀ key, key ∉ ["secret"; "proxies"]%string → bget (lit key) m' = bget (lit key) m).
Proof.
  intros (Hp & Hg & Hr). destruct Hp as (? & Hp & l & -> & Hl). unfold redact.
  rewrite hide_ne, Hp by done. simpl. eexists. split; [done|]. split; [split_and!|].
  - exists (VArray (redact_proxy <$> l)). rewrite bget_insert_eq. split; [done|]. eexists. split; [done|].
    apply Forall_fmap. eapply Forall_impl; [exact Hl|]. intros v. apply redact_proxy_normal.
  - apply holds_insert; [done|]. eapply holds_ext; [by apply hide_ne|done].
  - apply holds_insert; [done|]. eapply holds_ext; [by apply hide_ne|done].
  - intros key Hk. rewrite bget_lit_ne by set_solver. apply hide_ne. set_solver.
Qed.

(** *** Equal public parts *)

(** The same fields, which agree but for those in [hidden]. *)
Definition agree_but (hidden : list string) (m m' : bmap Value) : Prop :=
  (∀ k, is_Some (bget k m) ↔ is_Some (bget k m')) ∧
  ∀ k, k ∉ lit <$> hidden → bget k m = bget k m'.

Definition same_proxy (v v' : Value) : Prop :=
  ∃ m m', v = VObject m ∧ v' = VObject m' ∧ agree_but credentials m m'.

(** The configurations differ at most in the controller's secret and in the credentials of
    proxies. *)
Definition same_public (m m' : bmap Value) : Prop :=
  agree_but ["secret"; "proxies"]%string m m' ∧
  ∃ l l', bget (lit "proxies") m = Some (VArray l) ∧ bget (lit "proxies") m' = Some (VArray l') ∧
    Forall2 same_proxy l l'.

Lemma hide_wf m key : bmap_wf m → bmap_wf (hide m key).
Proof. intros H. unfold hide. destruct (bcontains _ _); [by apply binsert_wf|done]. Qed.

Lemma bcontains_agree hidden m m' k : agree_but hidden m m' → bcontains k m = bcontains k m'.
Proof.
  intros [H _]. specialize (H k). unfold bcontains.
  destruct (bget k m), (bget k m'); try done; destruct H as [H1 H2].
  - by destruct H1.
  - by destruct H2.
Qed.

(** Hiding a field that may differ leaves one less. *)
Lemma hide_agree key hidden m m' : agree_but (key :: hidden) m m' →
  agree_but hidden (hide m key) (hide m' key).
Proof.
  intros H. pose proof (bcontains_agree _ _ _ (lit key) H) as Hc. destruct H as [H1 H2]. split.
  - intros k. rewrite !hide_get, Hc. destruct (eq_str k (lit key) && _); [done|apply H1].
  - intros k Hk. rewrite !hide_get, <- Hc. destruct (eq_str k (lit key)) eqn:E; simpl.
    + apply eq_str_true in E as ->. unfold bcontains. destruct (bget (lit key) m) eqn:Em; [done|].
      specialize (H1 (lit key)). rewrite Em in H1. destruct (bget (lit key) m'); [|done].
      exfalso. by destruct (proj2 H1 ltac:(by eexists)).
    + apply eq_str_false in E. apply H2. rewrite fmap_cons, not_elem_of_cons. done.
Qed.

Lemma agree_nothing m m' : bmap_wf m → bmap_wf m' → agree_but [] m m' → m = m'.
Proof. intros Hm Hm' [_ H]. apply bmap_ext; [done..|]. intros k. apply H. apply not_elem_of_nil. Qed.

Lemma redact_proxy_same v v' : map_of bmap_wf v → map_of bmap_wf v' → same_proxy v v' →
  redact_proxy v = redact_proxy v'.
Proof.
  intros (? & -> & Hm) (? & -> & Hm') (m & m' & [= ->] & [= ->] & H). simpl. f_equal.
  apply agree_nothing; [by repeat apply hide_wf..|].
  by apply hide_agree, hide_agree, hide_agree.
Qed.

(** Objects with sorted keys down to the proxies. *)
Definition sorted_config (m : bmap Value) : Prop :=
  bmap_wf m ∧ optional (list_of (map_of bmap_wf)) "proxies" m.

Lemma redact_same m m' : sorted_config m → sorted_config m' → same_public m m' →
  redact (VObject m) = redact (VObject m').
Proof.
  intros [Hw Hs] [Hw' Hs'] [Ha (l & l' & Hl & Hl' & Hf)]. unfold redact. rewrite !hide_ne, Hl, Hl' by done.
  cbn [mbind option_bind as_array].
  assert (redact_proxy <$> l = redact_proxy <$> l') as ->.
  { destruct (Hs _ Hl) as (? & [= <-] & Hsl). destruct (Hs' _ Hl') as (? & [= <-] & Hsl').
    clear -Hf Hsl Hsl'. induction Hf as [|v v' l l' Hv _ IH]; [done|]. inversion Hsl; inversion Hsl'; subst.
    rewrite !fmap_cons. f_equal; [by apply redact_proxy_same|by apply IH]. }
  f_equal. apply bmap_ext; [by apply binsert_wf, hide_wf..|]. intros k. rewrite !bget_insert. case_decide as Hk; [done|].
  destruct (hide_agree _ _ _ _ Ha) as [_ H]. apply H. rewrite fmap_cons, not_elem_of_cons.
  split; [done|]. apply not_elem_of_nil.
Qed.

(** *** Sorted configurations *)

(** What [m] returns satisfies [Q]; it may panic. *)
Definition returns {A} (Q : A → Prop) (m : pres A) : Prop := ∀ a, m = Some (Ok a) → Q a.

Lemma returns_bind {A B} (P : A → Prop) (Q : B → Prop) (m : pres A) (k : A → pres B) :
  returns P m → (∀ a, P a → returns Q (k a)) → returns Q (try! a := m in k a).
Proof. intros Hm Hk. destruct m as [[a|e]|]; try done. by apply Hk, Hm. Qed.

Lemma returns_ok {A} (Q : A → Prop) a : Q a → returns Q (pok a).
Proof. by intros H b [= <-]. Qed.

Lemma returns_post {A} (Q : A → Prop) (m : pres A) : post Q m → returns Q m.
Proof. intros H a ->. exact H. Qed.

Lemma returns_map_try {A B} (f : A → pres B) (P : A → Prop) (Q : B → Prop) l :
  (∀ a, P a → returns Q (f a)) → Forall P l → returns (Forall Q) (map_try f l).
Proof.
  intros Hf. induction 1 as [|a l Ha _ IH]; simpl; [by apply returns_ok|].
  eapply returns_bind; [by apply Hf|]. intros b Hb. eapply returns_bind; [exact IH|].
  intros bs Hbs. apply returns_ok. by constructor.
Qed.

Lemma typed_default_wf m kd m' : typed_default m kd = Ok m' → bmap_wf m → bmap_wf m'.
Proof.
  unfold typed_default. destruct kd as [key d]. destruct (bcontains (lit key) m);
    destruct (is_some_and _ _); try done; intros [= <-] H; [done|by apply binsert_wf].
Qed.

Lemma typed_defaults_wf l m m' : typed_defaults m l = Ok m' → bmap_wf m → bmap_wf m'.
Proof.
  revert m. induction l as [|kd l IH]; intros m; cbn [typed_defaults]; [by intros [= <-]|].
  destruct (typed_default m kd) as [m1|] eqn:E; [|done]. intros H Hm. eapply IH; [done|].
  by eapply typed_default_wf.
Qed.

Lemma optional_strings_wf nullable keys m m' : optional_strings nullable m keys = Ok m' → bmap_wf m → bmap_wf m'.
Proof.
  revert m. induction keys as [|k ks IH]; intros m; cbn [optional_strings]; [by intros [= <-]|].
  destruct (optional_string nullable m k) as [m1|] eqn:E; [|done]. intros H Hm. eapply IH; [done|].
  revert E. unfold optional_string. destruct (bget _ m) as [v|]; [|by intros [= <-]].
  destruct (_ && _); [intros [= <-]; by apply bremove_wf|]. destruct (is_string v); [by intros [= <-]|done].
Qed.

Lemma split_sorted m : sorted_config m → sorted_config (split_source_groups m).
Proof.
  intros [Hw Hs]. split; [by apply split_wf|]. unfold split_source_groups.
  destruct (bget (lit "proxies") m) as [v|] eqn:E; [|done]. simpl.
  destruct (Hs _ E) as (l & -> & Hl). cbn [as_array]. cbv zeta.
  set (nodes := VArray (filter _ l)).
  assert (list_of (map_of bmap_wf) nodes) as Hnodes by (by apply list_of_filter).
  case_bool_decide; [by apply optional_insert_eq|]. apply optional_insert; [done|].
  apply optional_remove; [done|]. by apply optional_insert_eq.
Qed.

Lemma plugin_options_sorted v v' : map_of bmap_wf v → plugin_options v = Ok v' → map_of bmap_wf v'.
Proof.
  intros (m & -> & Hm). unfold plugin_options. cbn [as_object ok_or].
  destruct (match bget (lit "plugin_opts") m with Some _ => _ | None => _ end) as [m1|] eqn:E; [|done].
  assert (bmap_wf m1) as Hm1.
  { destruct (bget (lit "plugin_opts") m) as [alias|]; [|by simplify_eq].
    destruct (bcontains _ _); [done|]. simplify_eq. by apply binsert_wf, bremove_wf. }
  destruct (bget (lit "plugin-opts") m1) as [o|]; [|intros [= <-]; by exists m1].
  destruct (as_object o) as [fs|]; [|done]. simpl. destruct (existsb _ fs); [done|].
  intros [= <-]. by exists m1.
Qed.

Lemma canonical_plugin_sorted m m' : sorted_config m → canonical_plugin_options m = Ok m' → sorted_config m'.
Proof.
  intros [Hw Hs]. unfold canonical_plugin_options. destruct (bget (lit "proxies") m) as [v|] eqn:E; simpl.
  - destruct (Hs _ E) as (l & -> & Hl). cbn [as_array].
    destruct (map_res plugin_options l) as [l'|] eqn:El; [|done]. intros [= <-].
    split; [by apply binsert_wf|]. apply optional_insert_eq. exists l'. split; [done|].
    eapply map_res_Forall; [|exact Hl|exact El]. apply plugin_options_sorted.
  - intros [= <-]. by split.
Qed.

Lemma returns_res_bind {A B} (Q : B → Prop) (r : res A) (k : A → pres B) :
  (∀ a, r = Ok a → returns Q (k a)) → returns Q (try! a := Some r in k a).
Proof. destruct r as [a|e]; simpl; [auto|by intros _ ? ?]. Qed.

Lemma returns_unwrap_bind {A B} (Q : B → Prop) (o : option A) (k : A → pres B) :
  (∀ a, o = Some a → returns Q (k a)) → returns Q (try! a := unwrap o in k a).
Proof. destruct o as [a|]; simpl; [auto|by intros _ ? ?]. Qed.

Lemma returns_skip {A B} (Q : B → Prop) (m : pres A) (k : A → pres B) :
  (∀ a, returns Q (k a)) → returns Q (try! a := m in k a).
Proof. intros H. by apply (returns_bind (λ _, True)). Qed.

Lemma normalize_proxy_sorted v : map_of bmap_wf v → returns (map_of bmap_wf) (normalize_proxy v).
Proof.
  intros (m & -> & Hm). unfold normalize_proxy.
  apply returns_unwrap_bind; intros m0 [= <-]. apply returns_unwrap_bind; intros kind _.
  destruct (negb _); [done|]. apply returns_res_bind; intros m1 H1.
  assert (bmap_wf m1) as Hm1.
  { destruct (one_of kind _); [injection H1 as <-; by do 2 apply binsert_wf|].
    destruct (server_port_ok m); [by injection H1 as <-|done]. }
  apply returns_res_bind; intros m2 H2. pose proof (optional_strings_wf _ _ _ _ H2 Hm1) as Hm2.
  apply returns_res_bind; intros m3 H3. pose proof (typed_defaults_wf _ _ _ H3 Hm2) as Hm3.
  destruct (existsb _ _); [done|]. do 2 (apply returns_res_bind; intros _ _). apply returns_skip; intros _.
  apply returns_ok. by exists m3.
Qed.

Lemma update_array_sorted f key m (P : list Value → Prop) :
  returns P (try! l := unwrap (bget (lit key) m ≫= as_array) in f l) → bmap_wf m →
  returns (λ m', bmap_wf m' ∧ ∃ l, m' = binsert (lit key) (VArray l) m ∧ P l) (update_array f key m).
Proof.
  intros Hf Hm. unfold update_array. apply returns_unwrap_bind; intros l Hl. rewrite Hl in Hf. simpl in Hf.
  eapply returns_bind; [exact Hf|]. intros l' Hl'. apply returns_ok. split; [by apply binsert_wf|by exists l'].
Qed.

Lemma normalize_config_sorted url m : sorted_config m →
  returns (λ v, map_of sorted_config v) (normalize_config url (VObject m)).
Proof.
  intros [Hw Hs]. unfold normalize_config. apply returns_res_bind; intros _ _.
  apply returns_unwrap_bind; intros m0 [= <-].
  apply returns_res_bind; intros m1 H1. pose proof (typed_defaults_wf _ _ _ H1 Hw) as W1.
  apply typed_defaults_spec in H1 as [H1 _].
  apply returns_res_bind; intros m2 H2. pose proof (optional_strings_wf _ _ _ _ H2 W1) as W2.
  pose proof (optional_strings_keep _ _ _ _ H2) as Hkeep. do 2 (apply returns_res_bind; intros _ _).
  assert (optional (list_of (map_of bmap_wf)) "proxies" m2) as Hs2.
  { intros v. rewrite Hkeep, H1 by set_solver. destruct (bget (lit "proxies") m) as [x|] eqn:E.
    - intros [= <-]. by apply Hs.
    - vm_compute (default_of _ _). intros [= <-]. by exists []. }
  eapply returns_bind.
  { apply (update_array_sorted _ _ _ (Forall (map_of bmap_wf))); [|done].
    apply returns_unwrap_bind; intros l Hl. destruct (bget (lit "proxies") m2) as [v|] eqn:E; [|done].
    destruct (Hs2 _ E) as (l' & -> & Hl'). simpl in Hl. injection Hl as <-.
    eapply returns_map_try; [apply normalize_proxy_sorted|done]. }
  intros m3 (W3 & lp & -> & Hlp). eapply returns_bind.
  { apply (update_array_sorted _ _ _ (λ _, True)); [done|done]. }
  intros m4 (W4 & lg & -> & _). apply returns_unwrap_bind; intros ps _. apply returns_skip; intros ps'.
  eapply returns_bind.
  { apply (update_array_sorted _ _ _ (λ _, True)); [done|by apply binsert_wf]. }
  intros m5 (W5 & lr & -> & _). apply returns_ok. eexists. split; [done|]. split; [done|].
  do 3 (apply optional_insert; [done|]). apply optional_insert_eq. by exists lp.
Qed.

Lemma value_keys_sorted m : checked m → value_keys_ok (VObject m) → sorted_config m.
Proof.
  intros Hc. simpl. intros (Hw & _ & Hf). apply value_keys_ok_forall in Hf. split; [done|].
  intros v Hv. destruct (checked_proxies _ Hc v Hv) as (l & -> & Hl).
  apply bget_elem in Hv. rewrite Forall_forall in Hf. specialize (Hf _ Hv). cbn [snd value_keys_ok] in Hf.
  exists l. split; [done|]. clear -Hl Hf. induction Hl as [|v l (m & -> & _) _ IH]; [constructor|].
  cbn [foldr] in Hf. destruct Hf as [(Hm & _) Hf]. constructor; [by exists m|by apply IH].
Qed.

Section Dumps.
Context (to_json : Value → str) (json_names yaml_names : str → option (list str)) (spawn : Spawn).
Context (url_parse : str → option (str * option str)) (parse_document : str → res Value).

Abbreviation config_document := (config_document url_parse parse_document).
Abbreviation provider_order := (provider_order json_names yaml_names spawn).

(** Documents have sorted keys at every level ([Document.parse_document_bounded]). *)
Hypothesis parse_keys : ∀ s v, parse_document s = Ok v → value_keys_ok v.

Lemma config_document_sorted source m : config_document source = Some (Ok (VObject m)) → sorted_config m.
Proof.
  intros H. cut (returns (map_of sorted_config) (config_document source)).
  { intros Hr. by destruct (Hr _ H) as (? & [= <-] & ?). }
  clear H. unfold Override.config_document. apply returns_res_bind; intros v Hdoc.
  destruct (document_object _ _ _ _ Hdoc) as (d & -> & Hparse).
  apply returns_res_bind; intros [] Hc%validate_collections_checked.
  apply returns_unwrap_bind; intros d' [= <-]. apply returns_res_bind; intros m2 Hplug.
  apply normalize_config_sorted. eapply canonical_plugin_sorted; [|exact Hplug].
  apply split_sorted, value_keys_sorted; [done|]. by eapply parse_keys.
Qed.

Lemma dumps_same source source' m m' :
  config_document source = Some (Ok (VObject m)) → config_document source' = Some (Ok (VObject m')) →
  same_public m m' → provider_order source = provider_order source' →
  dump_config_yaml to_json json_names yaml_names spawn url_parse parse_document source =
    dump_config_yaml to_json json_names yaml_names spawn url_parse parse_document source' ∧
  dump_config_json to_json url_parse parse_document source = dump_config_json to_json url_parse parse_document source'.
Proof.
  intros H H' Hs Ho. unfold dump_config_yaml, dump_config_json. rewrite H, H', Ho.
  rewrite (redact_same m m'); [done|by eapply config_document_sorted..|done].
Qed.

Hypothesis to_json_plain : ∀ v, text plain (to_json v).

Lemma dump_yaml_post source : post safe_text (dump_config_yaml to_json json_names yaml_names spawn url_parse parse_document source).
Proof.
  unfold dump_config_yaml. eapply post_bind; [apply config_document_post|]. intros v (m & -> & Hn).
  eapply post_bind; [apply provider_order_post|]. intros names _.
  destruct (redact_writable m (normal_writable m Hn)) as (m' & -> & Hw & _).
  by apply canonical_post.
Qed.

Lemma dump_runtime_post source : post safe_text (dump_runtime_config_yaml to_json url_parse parse_document source).
Proof.
  unfold dump_runtime_config_yaml. eapply post_bind; [apply config_document_post|]. intros v (m & -> & Hn).
  destruct (is_some_and _ _); [done|]. eapply post_unwrap_bind; [done|]. apply canonical_post; [done|].
  destruct (normal_writable m Hn) as (H1 & H2 & H3).
  split_and!; (eapply holds_ext; [apply bget_remove_ne; by intros ?%lit_inj|done]).
Qed.

Lemma json_proxy_total v : map_of proxy_normal v → post (λ _, True) (json_proxy v).
Proof. by intros (m & -> & _). Qed.

Lemma json_group_total v : map_of group_normal v → post (λ _, True) (json_group v).
Proof. by intros (m & -> & _). Qed.

Lemma bget_retain (f : str → bool) (m : bmap Value) k : f k = true →
  bget k (retain (λ k _, f k) m) = bget k m.
Proof.
  intros Hf. unfold retain. induction m as [|[k0 v0] m IH]; [done|]. rewrite filter_cons. simpl.
  case_decide as Hd; simpl; [by rewrite IH|]. destruct (eq_str k k0) eqn:E; [|done].
  apply eq_str_true in E as ->. done.
Qed.

Lemma dump_json_post source : post safe_text (dump_config_json to_json url_parse parse_document source).
Proof.
  unfold dump_config_json. eapply post_bind; [apply config_document_post|]. intros v (m & -> & Hn).
  destruct (redact_writable m (normal_writable m Hn)) as (m' & -> & (Hp & Hg & _) & _).
  eapply post_unwrap_bind; [done|]. eapply post_bind.
  { apply (post_update_array _ _ _ (map_of group_normal) (λ _, True)).
    - eapply holds_ext; [|exact Hg]. unfold keep_keys. by apply bget_retain.
    - intros l Hl. eapply post_mono; [|done]. by eapply (post_map_try _ _ (λ _, True)); [apply json_group_total|]. }
  intros m2 (l & -> & _). eapply post_bind.
  { apply (post_update_array _ _ _ (map_of proxy_normal) (λ _, True)).
    - apply holds_insert; [done|]. eapply holds_ext; [|exact Hp]. unfold keep_keys. by apply bget_retain.
    - intros lst Hl. eapply post_mono; [|done]. by eapply (post_map_try _ _ (λ _, True)); [apply json_proxy_total|]. }
  intros m3 _. apply put_post; [|done]. split; [apply text_nil|done].
Qed.

End Dumps.
