(* ===== verification/OverrideDemo.v ===== *)
(** * An override to run (the fixtures under src/tests/fixtures)

    The sources and outputs of a test of the program, with the event trees a YAML parser
    delivers for them: materialising the override and dumping its result give the bytes of the
    fixtures. *)
From S2P Require Import Prelude Utf8 Net BTree Json Document Proxy Override OverrideFacts ZigMap ConfigYaml YamlText ConfigYamlFacts ConfigDumps.

Module OverrideDemo.

(** The text of a fixture, [~] standing for the quotation mark. *)
Definition fixture (s : string) : str := (λ b, if b =? 126 then 34 else b) <$> lit s.

#[local] Abbreviation str := (λ s, NStr (lit s)).
#[local] Abbreviation seq l := (NSeq l None).
Definition map (l : list (string * Node)) : Node := NMap (prod_map lit id <$> l) None.

(** ** Fixtures *)

(** [state_full_source.yaml] *)
Definition full_source : Prelude.str := fixture "port: 8080
socks-port: 1080
mixed-port: 9000
redir-port: 0
tproxy-port: 0
allow-lan: false
bind-address: '*'
mode: rule
log-level: debug
ipv6: false
external-controller: '127.0.0.1:19091'
external-ui: ~a\u202e\u009b\x01\n\~\\中~
secret: ~private\x7f\tkey~
idle-session-check-interval: -2
idle-session-timeout: 12
min-idle-session: 3
rule-providers:
  zed: {type: file, behavior: domain, path: zed.yaml}
  alpha: {type: http, behavior: classical, path: alpha.yaml, url: 'https://example.com/a?b=c', interval: 77}
  beta: {type: file, behavior: ipcidr, path: beta.yaml}
proxies:
  - {name: direct-node, type: direct}
  - {name: reject-node, type: reject, udp: true}
  - name: ss-node
    type: ss
    server: example.com
    port: 8388
    password: ~a\n\~\\b~
    cipher: aes-128-gcm
    uuid: 'extra-uuid'
    alterId: 9
    sni: 'private.example'
    network: tcp
    udp: true
    skip-cert-verify: true
    plugin: obfs
    plugin_opts: {host: obfs.example.com, mode: http}
  - {name: trojan-node, type: trojan, server: example.com, port: 443, password: key, tls: true, sni: tls.example.com}
  - {name: Mixed, type: select, proxies: [DIRECT, ss-node], url: 'https://example.com/check', interval: 12, tolerance: 7, lazy: false}
proxy-groups:
  - {name: Proxy, type: select, proxies: [Mixed, trojan-node, REJECT]}
rules:
  - 'DOMAIN, example.com , Proxy'
  - 'IP-CIDR,10.0.0.0/8,REJECT,no-resolve'
  - 'RULE-SET,zed,DIRECT'
".

Definition full_source_events : Node :=
  map [
   ("port"%string, NU64 8080);
   ("socks-port"%string, NU64 1080);
   ("mixed-port"%string, NU64 9000);
   ("redir-port"%string, NU64 0);
   ("tproxy-port"%string, NU64 0);
   ("allow-lan"%string, NBool false);
   ("bind-address"%string, str "*");
   ("mode"%string, str "rule");
   ("log-level"%string, str "debug");
   ("ipv6"%string, NBool false);
   ("external-controller"%string, str "127.0.0.1:19091");
   ("external-ui"%string, NStr (utf8_encode [97; 8238; 155; 1; 10; 34; 92; 20013]));
   ("secret"%string, NStr (utf8_encode [112; 114; 105; 118; 97; 116; 101; 127; 9; 107; 101; 121]));
   ("idle-session-check-interval"%string, NI64 (-2));
   ("idle-session-timeout"%string, NU64 12);
   ("min-idle-session"%string, NU64 3);
   ("rule-providers"%string, map [("zed"%string, map [("type"%string, str "file"); ("behavior"%string, str "domain"); ("path"%string, str "zed.yaml")]); ("alpha"%string, map [("type"%string, str "http"); ("behavior"%string, str "classical"); ("path"%string, str "alpha.yaml"); ("url"%string, str "https://example.com/a?b=c"); ("interval"%string, NU64 77)]); ("beta"%string, map [("type"%string, str "file"); ("behavior"%string, str "ipcidr"); ("path"%string, str "beta.yaml")])]);
   ("proxies"%string, seq [map [("name"%string, str "direct-node"); ("type"%string, str "direct")];
map [("name"%string, str "reject-node"); ("type"%string, str "reject"); ("udp"%string, NBool true)];
map [("name"%string, str "ss-node"); ("type"%string, str "ss"); ("server"%string, str "example.com"); ("port"%string, NU64 8388); ("password"%string, NStr (utf8_encode [97; 10; 34; 92; 98])); ("cipher"%string, str "aes-128-gcm"); ("uuid"%string, str "extra-uuid"); ("alterId"%string, NU64 9); ("sni"%string, str "private.example"); ("network"%string, str "tcp"); ("udp"%string, NBool true); ("skip-cert-verify"%string, NBool true); ("plugin"%string, str "obfs"); ("plugin_opts"%string, map [("host"%string, str "obfs.example.com"); ("mode"%string, str "http")])];
map [("name"%string, str "trojan-node"); ("type"%string, str "trojan"); ("server"%string, str "example.com"); ("port"%string, NU64 443); ("password"%string, str "key"); ("tls"%string, NBool true); ("sni"%string, str "tls.example.com")];
map [("name"%string, str "Mixed"); ("type"%string, str "select"); ("proxies"%string, seq [str "DIRECT";
str "ss-node"]); ("url"%string, str "https://example.com/check"); ("interval"%string, NU64 12); ("tolerance"%string, NU64 7); ("lazy"%string, NBool false)]]);
   ("proxy-groups"%string, seq [map [("name"%string, str "Proxy"); ("type"%string, str "select"); ("proxies"%string, seq [str "Mixed";
str "trojan-node";
str "REJECT"])]]);
   ("rules"%string, seq [str "DOMAIN, example.com , Proxy";
str "IP-CIDR,10.0.0.0/8,REJECT,no-resolve";
str "RULE-SET,zed,DIRECT"])].

(** [state_patch.yaml] *)
Definition patch : Prelude.str := fixture "mixed-port: 9001
".

Definition patch_events : Node := map [("mixed-port"%string, NU64 9001)].

(** [state_full_effective.yaml] *)
Definition full_effective : Prelude.str := fixture "port: 8080
socks-port: 1080
mixed-port: 9001
redir-port: 0
tproxy-port: 0
allow-lan: false
bind-address: ~*~
mode: ~rule~
log-level: ~debug~
ipv6: false
external-controller: ~127.0.0.1:19091~
external-ui: ~a\u202e\u009b\x01\n\~\\中~
secret: ~private\x7f\tkey~
idle-session-check-interval: -2
idle-session-timeout: 12
min-idle-session: 3
rule-providers:
  ~zed~:
    type: ~file~
    behavior: ~domain~
    path: ~zed.yaml~
    interval: 86400
  ~beta~:
    type: ~file~
    behavior: ~ipcidr~
    path: ~beta.yaml~
    interval: 86400
  ~alpha~:
    type: ~http~
    behavior: ~classical~
    url: ~https://example.com/a?b=c~
    path: ~alpha.yaml~
    interval: 77
proxies:
  - name: ~direct-node~
    type: ~direct~
  - name: ~reject-node~
    type: ~reject~
    udp: true
  - name: ~ss-node~
    type: ~ss~
    server: ~example.com~
    port: 8388
    password: ~a\n\~\\b~
    cipher: ~aes-128-gcm~
    uuid: ~extra-uuid~
    alterId: 9
    skip-cert-verify: true
    udp: true
    sni: ~private.example~
    network: ~tcp~
    plugin: ~obfs~
    plugin-opts:
      mode: ~http~
      host: ~obfs.example.com~
  - name: ~trojan-node~
    type: ~trojan~
    server: ~example.com~
    port: 443
    password: ~key~
    tls: true
    sni: ~tls.example.com~
proxy-groups:
  - name: ~Mixed~
    type: ~select~
    proxies:
      - ~DIRECT~
      - ~ss-node~
    url: ~https://example.com/check~
    interval: 12
    tolerance: 7
    lazy: false
  - name: ~Proxy~
    type: ~select~
    proxies:
      - ~Mixed~
      - ~trojan-node~
      - ~REJECT~
    interval: 300
    tolerance: 100
    lazy: true
rules:
  - ~DOMAIN,example.com,Proxy~
  - ~IP-CIDR,10.0.0.0/8,REJECT,no-resolve~
  - ~RULE-SET,zed,DIRECT~
  - ~MATCH,REJECT~
".

Definition full_effective_events : Node :=
  map [
   ("port"%string, NU64 8080);
   ("socks-port"%string, NU64 1080);
   ("mixed-port"%string, NU64 9001);
   ("redir-port"%string, NU64 0);
   ("tproxy-port"%string, NU64 0);
   ("allow-lan"%string, NBool false);
   ("bind-address"%string, str "*");
   ("mode"%string, str "rule");
   ("log-level"%string, str "debug");
   ("ipv6"%string, NBool false);
   ("external-controller"%string, str "127.0.0.1:19091");
   ("external-ui"%string, NStr (utf8_encode [97; 8238; 155; 1; 10; 34; 92; 20013]));
   ("secret"%string, NStr (utf8_encode [112; 114; 105; 118; 97; 116; 101; 127; 9; 107; 101; 121]));
   ("idle-session-check-interval"%string, NI64 (-2));
   ("idle-session-timeout"%string, NU64 12);
   ("min-idle-session"%string, NU64 3);
   ("rule-providers"%string, map [("zed"%string, map [("type"%string, str "file"); ("behavior"%string, str "domain"); ("path"%string, str "zed.yaml"); ("interval"%string, NU64 86400)]); ("beta"%string, map [("type"%string, str "file"); ("behavior"%string, str "ipcidr"); ("path"%string, str "beta.yaml"); ("interval"%string, NU64 86400)]); ("alpha"%string, map [("type"%string, str "http"); ("behavior"%string, str "classical"); ("path"%string, str "alpha.yaml"); ("url"%string, str "https://example.com/a?b=c"); ("interval"%string, NU64 77)])]);
   ("proxies"%string, seq [map [("name"%string, str "direct-node"); ("type"%string, str "direct")];
map [("name"%string, str "reject-node"); ("type"%string, str "reject"); ("udp"%string, NBool true)];
map [("name"%string, str "ss-node"); ("type"%string, str "ss"); ("server"%string, str "example.com"); ("port"%string, NU64 8388); ("password"%string, NStr (utf8_encode [97; 10; 34; 92; 98])); ("cipher"%string, str "aes-128-gcm"); ("uuid"%string, str "extra-uuid"); ("alterId"%string, NU64 9); ("sni"%string, str "private.example"); ("network"%string, str "tcp"); ("udp"%string, NBool true); ("skip-cert-verify"%string, NBool true); ("plugin"%string, str "obfs"); ("plugin-opts"%string, map [("mode"%string, str "http"); ("host"%string, str "obfs.example.com")])];
map [("name"%string, str "trojan-node"); ("type"%string, str "trojan"); ("server"%string, str "example.com"); ("port"%string, NU64 443); ("password"%string, str "key"); ("tls"%string, NBool true); ("sni"%string, str "tls.example.com")]]);
   ("proxy-groups"%string, seq [map [("name"%string, str "Mixed"); ("type"%string, str "select"); ("proxies"%string, seq [str "DIRECT";
str "ss-node"]); ("url"%string, str "https://example.com/check"); ("interval"%string, NU64 12); ("tolerance"%string, NU64 7); ("lazy"%string, NBool false)];
map [("name"%string, str "Proxy"); ("type"%string, str "select"); ("proxies"%string, seq [str "Mixed";
str "trojan-node";
str "REJECT"]); ("interval"%string, NU64 300); ("tolerance"%string, NU64 100); ("lazy"%string, NBool true)]]);
   ("rules"%string, seq [str "DOMAIN,example.com,Proxy";
str "IP-CIDR,10.0.0.0/8,REJECT,no-resolve";
str "RULE-SET,zed,DIRECT";
str "MATCH,REJECT"])].

(** [state_full_public.yaml] *)
Definition full_public : Prelude.str := fixture "port: 8080
socks-port: 1080
mixed-port: 9001
redir-port: 0
tproxy-port: 0
allow-lan: false
ipv6: false
bind-address: ~*~
mode: ~rule~
log-level: ~debug~
external-controller: ~127.0.0.1:19091~
external-ui: ~a\u202e\u009b\x01\n\~\\中~
secret: ~******~
idle-session-check-interval: -2
idle-session-timeout: 12
min-idle-session: 3
rule-providers:
  ~zed~:
    type: ~file~
    behavior: ~domain~
    path: ~zed.yaml~
    interval: 86400
  ~beta~:
    type: ~file~
    behavior: ~ipcidr~
    path: ~beta.yaml~
    interval: 86400
  ~alpha~:
    type: ~http~
    behavior: ~classical~
    url: ~https://example.com/a?b=c~
    path: ~alpha.yaml~
    interval: 77
proxies:
  - name: ~direct-node~
    type: ~direct~
    server: ~~
    port: 0
  - name: ~reject-node~
    type: ~reject~
    server: ~~
    port: 0
    udp: true
  - name: ~ss-node~
    type: ~ss~
    server: ~example.com~
    port: 8388
    password: ~******~
    cipher: ~aes-128-gcm~
    uuid: ~******~
    alterId: 9
    skip-cert-verify: true
    sni: ~******~
    network: ~tcp~
    udp: true
    plugin: ~obfs~
    plugin-opts:
      mode: ~http~
      host: ~obfs.example.com~
  - name: ~trojan-node~
    type: ~trojan~
    server: ~example.com~
    port: 443
    password: ~******~
    tls: true
    sni: ~******~
proxy-groups:
  - name: ~Mixed~
    type: ~select~
    proxies:
      - ~DIRECT~
      - ~ss-node~
    url: ~https://example.com/check~
    interval: 12
    tolerance: 7
    lazy: false
  - name: ~Proxy~
    type: ~select~
    proxies:
      - ~Mixed~
      - ~trojan-node~
      - ~REJECT~
    interval: 300
    tolerance: 100
    lazy: true
rules:
  - ~DOMAIN,example.com,Proxy~
  - ~IP-CIDR,10.0.0.0/8,REJECT,no-resolve~
  - ~RULE-SET,zed,DIRECT~
  - ~MATCH,REJECT~
".

(** Two sources that differ in their secrets only. *)
Definition secret_source (secret password : string) : Prelude.str :=
  lit "secret: " ++ lit secret ++ newline ++ lit "proxies: [{name: a, type: trojan, server: h, port: 1, password: "
  ++ lit password ++ lit "}]" ++ newline.

Definition secret_events (secret password : string) : Node :=
  map [("secret"%string, str secret);
       ("proxies"%string, seq [map [("name"%string, str "a"); ("type"%string, str "trojan"); ("server"%string, str "h");
                                    ("port"%string, NU64 1); ("password"%string, str password)]])].

(** ** The parsers and the printer *)

Definition demo_json (s : Prelude.str) : Node * option DeError := (NError OtherError, None).

Definition demo_yaml (s : Prelude.str) : list Node * option DeError :=
  if eq_str s full_source then ([full_source_events], None)
  else if eq_str s patch then ([patch_events], None)
  else if eq_str s full_effective then ([full_effective_events], None)
  else if eq_str s (secret_source "x" "y") then ([secret_events "x" "y"], None)
  else if eq_str s (secret_source "hidden" "key") then ([secret_events "hidden" "key"], None)
  else ([], Some OtherError).

Definition demo_parse : Prelude.str → res Value := parse_document demo_json demo_yaml Joined.

(** The order of the declarations; the fixture of the result is in the order of the hash map. *)
Definition demo_names (s : Prelude.str) : option (list Prelude.str) :=
  if eq_str s full_source then Some [lit "zed"; lit "alpha"; lit "beta"]
  else if eq_str s full_effective then Some [lit "zed"; lit "beta"; lit "alpha"]
  else Some [].

Definition demo_url (s : Prelude.str) : option (Prelude.str * option Prelude.str) :=
  if starts_with (lit "https://") s then Some (lit "https", Some (lit "example.com")) else None.

(** A printer of scalars. *)
Definition demo_to_json (v : Value) : Prelude.str :=
  match v with
  | VNull => lit "null"
  | VBool b => lit (if b then "true" else "false")
  | VNumber (PosInt n) => print_dec (Z.abs n)
  | VNumber (NegInt n) => lit "-" ++ print_dec (Z.abs n)
  | VNumber (Float _) => lit "0.0"
  | VString s => yaml_quote s
  | VArray _ => lit "[]"
  | VObject _ => lit "{}"
  end.

Definition demo_materialize : Prelude.str → Prelude.str → pres Prelude.str :=
  materialize_source demo_to_json (λ _, None) demo_names Joined demo_url demo_parse.

Definition demo_dump : Prelude.str → pres Prelude.str :=
  dump_config_yaml demo_to_json (λ _, None) demo_names Joined demo_url demo_parse.

(** ** The fixtures are what the definitions give *)

Example materialize_fixture : demo_materialize full_source patch = Some (Ok full_effective).
Proof. vm_compute. reflexivity. Qed.

Example dump_fixture : demo_dump full_effective = Some (Ok full_public).
Proof. vm_compute. reflexivity. Qed.

End OverrideDemo.
