(* ===== verification/OverrideSafety.v ===== *)
(** * Overrides: what the whole pipeline guarantees (src/src/override_script.rs)

    The properties of materialising overrides and dumping configurations, with the document
    parser of the program in place; the libraries stay parameters. *)
From S2P Require Import Prelude Utf8 Net BTree Json Document Proxy Override OverrideFacts ZigMap ConfigYaml YamlText ConfigYamlFacts ConfigDumps OverrideDemo.

Module OverrideSafety.
Import OverrideDemo.

Lemma parse_document_keys json yaml spawn s v : parse_document json yaml spawn s = Ok v → value_keys_ok v.
Proof.
  unfold parse_document. destruct (yaml_value json yaml spawn s) as [v'|] eqn:E; [|done]. cbn.
  destruct (is_some (as_object v')); [|done]. intros [= <-]. by apply yaml_value_wf in E as [(_ & _ & ?) _].
Qed.

Lemma parse_document_sorted json yaml spawn s m : parse_document json yaml spawn s = Ok (VObject m) → bmap_wf m.
Proof. intros H%parse_document_keys. apply H. Qed.

(** ** The demo's printer *)

Lemma print_dec_plain n : 0 ≤ n → text plain (print_dec n).
Proof.
  intros Hn. destruct (print_dec_spec n Hn) as (Hd & _). apply plain_ascii.
  apply forallb_forall. intros b Hb. rewrite forallb_forall in Hd. specialize (Hd b Hb). revert Hd.
  unfold is_ascii_digit, in_range, plain_byte. intros ?. rewrite !andb_true_iff, orb_true_iff in *. blia.
Qed.

Lemma demo_to_json_plain v : text plain (demo_to_json v).
Proof.
  destruct v as [|b|[n|n|bits]|s|vs|fields]; simpl; [by apply plain_ascii|by destruct b; apply plain_ascii| | | | | |].
  - apply print_dec_plain. lia.
  - apply (text_app _ (lit "-")); [by apply plain_ascii|]. apply print_dec_plain. lia.
  - by apply plain_ascii.
  - apply yaml_quote_plain.
  - by apply plain_ascii.
  - by apply plain_ascii.
Qed.

Lemma agree_but_check hidden m m' :
  Forall2 (λ a b : str * Value, fst a = fst b ∧ (fst a ∈ lit <$> hidden ∨ snd a = snd b)) m m' → agree_but hidden m m'.
Proof.
  induction 1 as [|[k v] [k' v'] m m' [Hk Hv] _ [IH1 IH2]]; [done|]. simpl in Hk, Hv. subst k'. split; intros k0; simpl.
  - destruct (eq_str k0 k); [by split; intros _|apply IH1].
  - intros Hk. destruct (eq_str k0 k) eqn:E; [|by apply IH2]. apply eq_str_true in E as ->. by destruct Hv as [Hin| ->].
Qed.

(** ** Properties *)

Section Pipeline.
Context (to_json : Value → str) (json_names yaml_names : str → option (list str)) (spawn : Spawn).
Context (url_parse : str → option (str * option str)).
Context (json_events : str → Node * option DeError) (yaml_events : str → list Node * option DeError).

Abbreviation parse := (parse_document json_events yaml_events spawn).
Abbreviation materialize := (materialize_source to_json json_names yaml_names spawn url_parse parse).
Abbreviation public_yaml := (dump_config_yaml to_json json_names yaml_names spawn url_parse parse).
Abbreviation public_json := (dump_config_json to_json url_parse parse).
Abbreviation runtime_yaml := (dump_runtime_config_yaml to_json url_parse parse).

(** C35: nothing gets past the capability gate, and materialising never panics. A blank patch
    gives the source itself, which was checked; any other gives the canonical text of the
    normal form of the source in which the patch replaced fields (a null controller removes it,
    group entries among the proxies are dropped), all of whose proxies, groups and listeners
    the runtime supports: proxies of the five kinds over plain TCP, a Shadowsocks one with one
    of four ciphers and no TLS, selector groups, no reserved names, and no HTTP or SOCKS
    listener when the mixed port is 0; the text is displayable and within 16 MiB. *)
Theorem override_gated source patch : (∀ v, text plain (to_json v)) →
  post (materialized to_json url_parse parse source patch) (materialize source patch).
Proof. intros H. apply materialize_post; [exact H|]. apply parse_document_sorted. Qed.

(** Normalising a document never panics and gives a complete configuration: every field
    the runtime reads is there with its type and range, every proxy and group has its normal
    form, plugin options are consistent, and the rules end with the only MATCH. Its projection
    for the runtime never panics either. *)
Theorem config_document_normal source :
  post (map_of normal) (config_document url_parse parse source) ∧ runtime_value url_parse parse source ≠ None.
Proof. split; [apply config_document_post|apply runtime_value_total]. Qed.

(** The three dumps never panic, and what they write is valid UTF-8 of at most 16 MiB with
    no control character but the line end and no character that reorders, hides or breaks the
    text on a terminal. *)
Theorem dumps_displayable source : (∀ v, text plain (to_json v)) →
  post safe_text (public_yaml source) ∧ post safe_text (public_json source) ∧ post safe_text (runtime_yaml source).
Proof. intros H. split_and!; [by apply dump_yaml_post|by apply dump_json_post|by apply dump_runtime_post]. Qed.

(** C37: the public dumps conceal secrets: sources whose configurations differ only in the
    controller's secret and in the passwords, UUIDs and server names of proxies, and that
    declare providers in the same order, have the same dumps. *)
Theorem dumps_conceal source source' m m' :
  config_document url_parse parse source = Some (Ok (VObject m)) →
  config_document url_parse parse source' = Some (Ok (VObject m')) →
  same_public m m' → provider_order json_names yaml_names spawn source = provider_order json_names yaml_names spawn source' →
  public_yaml source = public_yaml source' ∧ public_json source = public_json source'.
Proof. apply dumps_same. apply parse_document_keys. Qed.

End Pipeline.

(** ** Instances: the fixtures *)

Lemma override_gated_witness : materialized demo_to_json demo_url demo_parse full_source patch full_effective.
Proof.
  pose proof (override_gated demo_to_json (λ _, None) demo_names Joined demo_url demo_json demo_yaml full_source patch
                demo_to_json_plain) as H.
  fold demo_parse in H. fold (demo_materialize full_source patch) in H. rewrite materialize_fixture in H. exact H.
Defined.

Lemma dumps_displayable_witness : safe_text full_public.
Proof.
  destruct (dumps_displayable demo_to_json (λ _, None) demo_names Joined demo_url demo_json demo_yaml full_effective
              demo_to_json_plain) as [H _].
  fold demo_parse in H. fold (demo_dump full_effective) in H. rewrite dump_fixture in H. exact H.
Defined.

Definition secrets_value (secret password : string) : bmap Value :=
  match config_document demo_url demo_parse (secret_source secret password) with
  | Some (Ok (VObject m)) => m
  | _ => []
  end.

Lemma dumps_conceal_witness :
  demo_dump (secret_source "x" "y") = demo_dump (secret_source "hidden" "key") ∧
  is_Some (demo_dump (secret_source "x" "y") ≫= to_option).
Proof.
  split; [|vm_compute; by eexists].
  refine (proj1 (dumps_conceal demo_to_json (λ _, None) demo_names Joined demo_url demo_json demo_yaml
    (secret_source "x" "y") (secret_source "hidden" "key") (secrets_value "x" "y") (secrets_value "hidden" "key") _ _ _ _)).
  - vm_compute. reflexivity.
  - vm_compute. reflexivity.
  - split.
    + apply agree_but_check. vm_compute. repeat (constructor; [split; [reflexivity|first [by right|left]]|]); try constructor.
      all: repeat (first [apply list_elem_of_here|apply list_elem_of_further]).
    + eexists _, _. split_and!; [vm_compute; reflexivity..|]. constructor; [|constructor].
      eexists _, _. split_and!; [reflexivity..|]. apply agree_but_check.
      repeat (constructor; [split; [reflexivity|first [by right|left]]|]); try constructor.
      all: repeat (first [apply list_elem_of_here|apply list_elem_of_further]).
  - vm_compute. reflexivity.
Defined.

End OverrideSafety.
