(* ===== verification/InvocationFacts.v ===== *)
(** * Options and environments of override scripts: what they establish

    Options survive forwarding to another process, and the environment of a script says what
    the invocation says, within its limits. *)
From S2P Require Import Prelude Utf8 BTree Rules Invocation.

Module InvocationFacts.
Import Invocation.

#[local] Arguments one_of : simpl never.

(** ** Options *)

Definition arg_wf (a : OverrideArg) : Prop :=
  arg_key a ≠ [] ∧ trim_blank (arg_key a) = arg_key a ∧ 61 ∉ arg_key a.

Record options_wf (o : CliOptions) : Prop := {
  wf_path : script_path o ≠ Some [];
  wf_timeout : 1 ≤ timeout_ms o ≤ TIMEOUT_MS_MAX;
  wf_args : Forall arg_wf (args o);
}.

Lemma trim_start_by_head f (s : list Z) b r : trim_start_by f s = b :: r → f b = false.
Proof.
  induction s as [|x s IH]; simpl; [done|]. destruct (f x) eqn:E; [done|]. by intros [= -> ->].
Qed.

Lemma trim_start_by_id f (s : list Z) : (∀ b r, s = b :: r → f b = false) → trim_start_by f s = s.
Proof. intros H. destruct s as [|b s]; [done|]. simpl. by rewrite (H b s). Qed.

Lemma trim_by_idem f (s : list Z) : trim_by f (trim_by f s) = trim_by f s.
Proof.
  unfold trim_by, trim_end_by. set (a := trim_start_by f s). set (r := trim_start_by f (reverse a)).
  assert (trim_start_by f (reverse r) = reverse r) as ->.
  { apply trim_start_by_id. intros b l Hl.
    assert (∃ p, reverse a = p ++ r) as [p Hp] by apply trim_start_by_suffix.
    assert (a = reverse r ++ reverse p) as Ha by (rewrite <- (reverse_involutive a), Hp; apply reverse_app).
    rewrite Hl in Ha. simpl in Ha. by eapply (trim_start_by_head f s). }
  rewrite reverse_involutive. f_equal. apply trim_start_by_id. intros b l. apply trim_start_by_head.
Qed.

Lemma parse_arg_wf pair a : parse_arg pair = Ok a → arg_wf a.
Proof.
  unfold parse_arg. destruct (split_once 61 pair) as [[k v]|] eqn:E; [|done]. simpl.
  case_bool_decide as Hk; [done|]. intros [= <-]. split_and!; simpl; [done|apply trim_by_idem|].
  apply split_once_Some in E as (_ & Hn). intros Hin. apply Hn. by eapply trim_by_elem.
Qed.

Lemma parse_arg_forward a : arg_wf a → parse_arg (arg_key a ++ lit "=" ++ arg_value a) = Ok a.
Proof.
  intros (Hk & Ht & Hn). unfold parse_arg.
  assert (split_once 61 (arg_key a ++ lit "=" ++ arg_value a) = Some (arg_key a, arg_value a)) as ->.
  { apply split_once_Some. done. }
  simpl. rewrite Ht, bool_decide_eq_false_2 by done. by destruct a.
Qed.

Lemma validate_timeout_Ok t : validate_timeout t = Ok tt ↔ 1 ≤ t ≤ TIMEOUT_MS_MAX.
Proof.
  unfold validate_timeout. destruct (_ && _) eqn:E.
  - apply andb_prop in E as [H1%Z.leb_le H2%Z.leb_le]. split; [intros _; lia|done].
  - split; [done|]. intros H. exfalso. apply not_true_iff_false in E. apply E.
    apply andb_true_iff. rewrite !Z.leb_le. lia.
Qed.

Lemma parse_timeout_forward t : 1 ≤ t ≤ TIMEOUT_MS_MAX → parse_timeout_ms (print_dec t) = Ok t.
Proof.
  intros Ht. unfold parse_timeout_ms. destruct (print_dec_spec t) as (H1 & H2 & _); [lia|].
  rewrite H1, bool_decide_eq_false_2 by done. simpl.
  rewrite parse_print_dec by (unfold TIMEOUT_MS_MAX, u32_max in *; lia). simpl.
  apply validate_timeout_Ok in Ht. by rewrite Ht.
Qed.

Lemma set_option_wf flag value o o' : options_wf o → set_option flag value o = Ok o' → options_wf o'.
Proof.
  intros [H1 H2 H3]. unfold set_option. destruct (eq_str flag (lit "--override-script")).
  - case_bool_decide as Hv; [done|]. intros [= <-]. split; simpl; [congruence|done|done].
  - destruct (eq_str flag (lit "--override-arg")).
    + destruct (parse_arg value) as [a|] eqn:E; [|done]. intros [= <-]. split; simpl; [done|done|].
      apply Forall_app. split; [done|]. constructor; [by eapply parse_arg_wf|constructor].
    + destruct (parse_timeout_ms value) as [t|] eqn:E; [|done]. intros [= <-]. split; simpl; [done| |done].
      revert E. unfold parse_timeout_ms. destruct (_ || _); [done|]. destruct (parse_uint _ _); [|done]. simpl.
      destruct (validate_timeout z) as [[]|] eqn:Ev; [|done]. intros [= <-]. by apply validate_timeout_Ok.
Qed.

Lemma parse_options_wf argv pending o o' : options_wf o → parse_options argv pending o = Ok o' → options_wf o'.
Proof.
  revert pending o. induction argv as [|argument argv IH]; intros pending o Hwf; simpl.
  - destruct pending; [done|]. by intros [= <-].
  - destruct pending as [flag|].
    + destruct (set_option flag argument o) as [o1|] eqn:E; [|done]. apply IH. by eapply set_option_wf.
    + destruct (match split_once 61 argument with Some _ => _ | None => _ end) as [flag inline].
      destruct (one_of flag ["--override-dump-json"; "--override-dump-yaml"]%string); [done|].
      destruct (negb _); [by apply IH|].
      destruct inline as [value|]; [|by apply IH].
      destruct (set_option flag value o) as [o1|] eqn:E; [|done]. apply IH. by eapply set_option_wf.
Qed.

Lemma default_options_wf : options_wf default_options.
Proof. by split; simpl; [|unfold TIMEOUT_MS_DEFAULT, TIMEOUT_MS_MAX; lia|constructor]. Qed.

(** A flag and its value in the next argument. *)
Lemma parse_flag flag value argv o :
  one_of flag ["--override-script"; "--override-arg"; "--override-timeout-ms"] = true →
  parse_options (flag :: value :: argv) None o =
    (let! o := set_option flag value o in parse_options argv None o).
Proof.
  intros H. apply one_of_true in H as (n & Hn & ->).
  rewrite !elem_of_cons in Hn. destruct Hn as [->|[->|[->|Hn]]]; [done..|]. by apply not_elem_of_nil in Hn.
Qed.

Lemma set_script path o : path ≠ [] →
  set_option (lit "--override-script") path o = Ok (mkOptions (Some path) (timeout_ms o) (args o)).
Proof.
  intros H. unfold set_option. change (eq_str (lit "--override-script") (lit "--override-script")) with true.
  cbv iota. by rewrite bool_decide_eq_false_2.
Qed.

Lemma set_arg a o : arg_wf a → set_option (lit "--override-arg") (arg_key a ++ lit "=" ++ arg_value a) o =
  Ok (mkOptions (script_path o) (timeout_ms o) (args o ++ [a])).
Proof.
  intros H. unfold set_option. change (eq_str (lit "--override-arg") (lit "--override-script")) with false.
  change (eq_str (lit "--override-arg") (lit "--override-arg")) with true. cbv iota. by rewrite parse_arg_forward.
Qed.

Lemma set_timeout t o : 1 ≤ t ≤ TIMEOUT_MS_MAX →
  set_option (lit "--override-timeout-ms") (print_dec t) o = Ok (mkOptions (script_path o) t (args o)).
Proof.
  intros H. unfold set_option. change (eq_str (lit "--override-timeout-ms") (lit "--override-script")) with false.
  change (eq_str (lit "--override-timeout-ms") (lit "--override-arg")) with false. cbv iota.
  by rewrite parse_timeout_forward.
Qed.

Lemma forward_args_loop path t done_ as_ rest :
  Forall arg_wf as_ →
  parse_options (flat_map (λ a, [lit "--override-arg"; arg_key a ++ lit "=" ++ arg_value a]) as_ ++ rest) None
    (mkOptions path t done_) = parse_options rest None (mkOptions path t (done_ ++ as_)).
Proof.
  intros H. revert done_. induction H as [|a as_ Ha _ IH]; intros done_; [by rewrite app_nil_r|].
  cbn [flat_map app]. rewrite parse_flag, set_arg by done. cbn [script_path timeout_ms args].
  rewrite IH. by rewrite <- app_assoc.
Qed.

Lemma options_forward o command : options_wf o → options_parse (command :: forward_args o) = Ok o.
Proof.
  intros [H1 H2 H3]. unfold options_parse, forward_args. cbn [drop].
  assert (∀ rest, parse_options ((match script_path o with Some path => [lit "--override-script"; path] | None => [] end)
      ++ rest) None default_options = parse_options rest None (mkOptions (script_path o) TIMEOUT_MS_DEFAULT [])) as Hp.
  { intros rest. destruct (script_path o) as [path|]; [|done]. cbn [app]. by rewrite parse_flag, set_script by (done || congruence). }
  rewrite drop_0, Hp, forward_args_loop by done. cbn [app].
  destruct (Z.eqb_spec (timeout_ms o) TIMEOUT_MS_DEFAULT) as [Ht|Ht].
  - simpl. rewrite <- Ht. by destruct o.
  - rewrite parse_flag, set_timeout by done. by destruct o.
Qed.

(** ** The environment *)

Definition suffixes : list string := ["_KEY"; "_VALUE"]%string.

Lemma indexed_key_inj i j s s' : s ∈ suffixes → s' ∈ suffixes → indexed_key i s = indexed_key j s' → i = j ∧ s = s'.
Proof.
  intros Hs Hs' H. unfold indexed_key in H. apply app_inv_head in H.
  destruct (print_dec_spec (Z.of_nat i)) as (D1 & _ & V1 & _); [lia|].
  destruct (print_dec_spec (Z.of_nat j)) as (D2 & _ & V2 & _); [lia|].
  assert (∀ d, forallb is_ascii_digit d = true → 95 ∉ d) as Hd.
  { intros d Hd Hin%list_elem_of_In. rewrite forallb_forall in Hd. by apply Hd in Hin. }
  assert (∀ s, s ∈ suffixes → ∃ t, lit s = 95 :: lit t ∧ (s = "_KEY"%string ∧ t = "KEY"%string ∨ s = "_VALUE"%string ∧ t = "VALUE"%string)) as Hsuf.
  { intros x Hx. unfold suffixes in Hx. rewrite !elem_of_cons in Hx. destruct Hx as [->|[->|Hx]].
    - by exists "KEY"%string; split; [|left].
    - by exists "VALUE"%string; split; [|right].
    - by apply not_elem_of_nil in Hx. }
  destruct (Hsuf s Hs) as (t & Et & Ht). destruct (Hsuf s' Hs') as (t' & Et' & Ht').
  rewrite Et, Et' in H.
  assert (split_once 95 (print_dec (Z.of_nat i) ++ 95 :: lit t) = Some (print_dec (Z.of_nat i), lit t)) as S1.
  { apply split_once_Some. split; [done|by apply Hd]. }
  assert (split_once 95 (print_dec (Z.of_nat j) ++ 95 :: lit t') = Some (print_dec (Z.of_nat j), lit t')) as S2.
  { apply split_once_Some. split; [done|by apply Hd]. }
  rewrite H, S2 in S1. injection S1 as E1 E2. apply lit_inj in E2. split; [|naive_solver].
  apply Nat2Z.inj. by rewrite <- V1, <- V2, E1.
Qed.

(** No argument's own name is that of an entry with an index below [n]. *)
Definition unreserved (n : nat) (a : OverrideArg) : Prop :=
  named_key (arg_key a) ≠ lit "ZC_OVERRIDE_ARG_COUNT" ∧
  ∀ i s, (i < n)%nat → s ∈ suffixes → named_key (arg_key a) ≠ indexed_key i s.

(** The value of the last argument whose name in the environment is [k]. *)
Definition last_named (k : str) (as_ : list OverrideArg) : option str :=
  arg_value <$> last (filter (λ a, named_key (arg_key a) = k) as_).

Lemma arg_env_legacy i as_ env legacy env' legacy' : arg_env i as_ env legacy = Ok (env', legacy') →
  legacy' = legacy ++ ((λ a, arg_key a ++ lit "=" ++ arg_value a) <$> as_).
Proof.
  revert i env legacy. induction as_ as [|a as_ IH]; intros i env legacy; simpl.
  - intros [= _ <-]. by rewrite app_nil_r.
  - case_bool_decide; [done|]. intros ->%IH. by rewrite <- app_assoc.
Qed.

(** Entries that no argument sets. *)
Lemma arg_env_other k i as_ env legacy env' legacy' : arg_env i as_ env legacy = Ok (env', legacy') →
  (∀ j s, (i ≤ j)%nat → s ∈ suffixes → k ≠ indexed_key j s) → Forall (λ a, named_key (arg_key a) ≠ k) as_ →
  bget k env' = bget k env.
Proof.
  intros H Hi Hn. revert i env legacy H Hi. induction Hn as [|a as_ Ha _ IH]; intros i env legacy; cbn [arg_env].
  - by intros [= <- _].
  - case_bool_decide; [done|]. intros H' Hi. rewrite (IH _ _ _ H') by (intros j s Hj; apply Hi; lia).
    rewrite !bget_insert_ne; [done|apply Hi|apply Hi|by apply not_eq_sym]; first [lia|set_solver].
Qed.

(** The entries with an index. *)
Lemma arg_env_indexed n i as_ env legacy env' legacy' j a : arg_env i as_ env legacy = Ok (env', legacy') →
  Forall (unreserved n) as_ → (i + length as_ ≤ n)%nat → as_ !! j = Some a →
  bget (indexed_key (i + j) "_KEY") env' = Some (arg_key a) ∧
  bget (indexed_key (i + j) "_VALUE") env' = Some (arg_value a).
Proof.
  intros H Hn. revert i j env legacy H. induction Hn as [|x as_ Hx Hxs IH]; intros i j env legacy; [done|].
  cbn [arg_env length]. case_bool_decide; [done|]. intros H' Hl Hj. destruct j as [|j].
  - injection Hj as ->. rewrite Nat.add_0_r.
    assert (∀ s, s ∈ suffixes → ∀ k s', (S i ≤ k)%nat → s' ∈ suffixes → indexed_key i s ≠ indexed_key k s') as Hne.
    { intros s Hs k s' Hk Hs' Heq. apply indexed_key_inj in Heq as [Heq _]; [lia|done|done]. }
    assert (∀ s, s ∈ suffixes → Forall (λ b, named_key (arg_key b) ≠ indexed_key i s) as_) as Hnm.
    { intros s Hs. eapply Forall_impl; [exact Hxs|]. intros b [_ Hb]. apply Hb; [lia|done]. }
    destruct Hx as [_ Hx].
    rewrite !(arg_env_other _ _ _ _ _ _ _ H') by (apply Hne || apply Hnm; set_solver).
    rewrite !(bget_insert_ne (named_key _)) by (apply not_eq_sym, Hx; [lia|set_solver]).
    rewrite bget_insert_eq. split; [|done]. rewrite bget_insert_ne.
    + by rewrite bget_insert_eq.
    + intros Heq. apply indexed_key_inj in Heq as [_ ?]; [done|set_solver|set_solver].
  - simpl in Hj. replace (i + S j)%nat with (S i + j)%nat by lia. eapply IH; [exact H'|lia|done].
Qed.

Lemma last_cons_filter {A} (P : A → Prop) `{∀ x, Decision (P x)} x l :
  last (filter P (x :: l)) = match last (filter P l) with Some y => Some y | None => if decide (P x) then Some x else None end.
Proof.
  rewrite filter_cons. case_decide; [|by destruct (last _)]. destruct (filter P l) as [|y ys] eqn:E; [done|].
  rewrite last_cons. by destruct (last (y :: ys)) eqn:El; [|apply last_None in El].
Qed.

(** The entries under the arguments' own names: later arguments replace earlier ones. *)
Lemma arg_env_named k i as_ env legacy env' legacy' : arg_env i as_ env legacy = Ok (env', legacy') →
  (∀ j s, (i ≤ j)%nat → s ∈ suffixes → k ≠ indexed_key j s) →
  bget k env' = match last_named k as_ with Some v => Some v | None => bget k env end.
Proof.
  revert i env legacy. induction as_ as [|a as_ IH]; intros i env legacy; cbn [arg_env]; [by intros [= <- _]|].
  case_bool_decide; [done|]. intros H' Hi. rewrite (IH _ _ _ H') by (intros j s Hj; apply Hi; lia).
  unfold last_named. rewrite last_cons_filter. destruct (last (filter _ as_)); [done|]. simpl.
  rewrite bget_insert. destruct (decide (k = named_key (arg_key a))) as [Hk|Hk].
  - by rewrite decide_True.
  - rewrite decide_False by congruence. simpl.
    rewrite !bget_insert_ne; [done|apply Hi|apply Hi]; first [lia|set_solver].
Qed.

Lemma base_env_get iv : 
  bget (lit "ZC_OVERRIDE_COMMAND") (base_env iv) = Some (iv_command iv) ∧
  bget (lit "ZC_OVERRIDE_CONFIG_PATH") (base_env iv) = Some (iv_config_path iv) ∧
  bget (lit "ZC_OVERRIDE_SCRIPT_PATH") (base_env iv) = Some (iv_script_path iv) ∧
  bget (lit "ZC_OVERRIDE_TIMEOUT_MS") (base_env iv) = Some (print_dec (iv_timeout_ms iv)) ∧
  bget (lit "ZC_OVERRIDE_ARG_COUNT") (base_env iv) = Some (print_dec (len (iv_args iv))).
Proof.
  unfold base_env. cbn [foldl fst snd].
  split_and!; rewrite ?bget_insert_eq; repeat (rewrite bget_insert_ne by (by intros ?%lit_inj));
    by rewrite ?bget_insert_eq.
Qed.

(** The names of arguments share a prefix the fixed names do not have. *)
Lemma fixed_name (k : string) : starts_with (lit "ZC_OVERRIDE_ARG_") (lit k) = false →
  (∀ j s, lit k ≠ indexed_key j s) ∧ ∀ key, named_key key ≠ lit k.
Proof.
  intros H. split.
  - intros j s Hk. rewrite Hk in H. unfold indexed_key in H. by rewrite (proj2 (starts_with_true _ _)) in H by eauto.
  - intros key Hk. rewrite <- Hk in H. unfold named_key in H. by rewrite (proj2 (starts_with_true _ _)) in H by eauto.
Qed.

Lemma count_not_indexed j s : s ∈ suffixes → lit "ZC_OVERRIDE_ARG_COUNT" ≠ indexed_key j s.
Proof.
  intros _. unfold indexed_key. change (lit "ZC_OVERRIDE_ARG_COUNT") with (lit "ZC_OVERRIDE_ARG_" ++ lit "COUNT").
  intros H%app_inv_head. destruct (print_dec_spec (Z.of_nat j)) as (D & Hne & _); [lia|].
  destruct (print_dec (Z.of_nat j)) as [|d ds]; [done|]. injection H as <- _. done.
Qed.

(** What the environment of an accepted invocation holds. *)
Record env_exact (iv : Invocation) (env : bmap str) : Prop := {
  env_command : bget (lit "ZC_OVERRIDE_COMMAND") env = Some (iv_command iv);
  env_config_path : bget (lit "ZC_OVERRIDE_CONFIG_PATH") env = Some (iv_config_path iv);
  env_script_path : bget (lit "ZC_OVERRIDE_SCRIPT_PATH") env = Some (iv_script_path iv);
  env_timeout : bget (lit "ZC_OVERRIDE_TIMEOUT_MS") env = Some (print_dec (iv_timeout_ms iv));
  env_args : bget (lit "ZC_OVERRIDE_ARGS") env =
    Some (join (lit ";") ((λ a, arg_key a ++ lit "=" ++ arg_value a) <$> iv_args iv));
  env_count : bget (lit "ZC_OVERRIDE_ARG_COUNT") env =
    Some (default (print_dec (len (iv_args iv))) (last_named (lit "ZC_OVERRIDE_ARG_COUNT") (iv_args iv)));
  env_named : ∀ a, a ∈ iv_args iv → unreserved (length (iv_args iv)) a →
    (∀ j s, named_key (arg_key a) ≠ indexed_key j s) →
    bget (named_key (arg_key a)) env = last_named (named_key (arg_key a)) (iv_args iv);
  env_indexed : Forall (unreserved (length (iv_args iv))) (iv_args iv) → ∀ i a, iv_args iv !! i = Some a →
    bget (indexed_key i "_KEY") env = Some (arg_key a) ∧ bget (indexed_key i "_VALUE") env = Some (arg_value a);
  env_limit : env_bytes env ≤ MAX_OUTPUT_BYTES;
  env_no_nul : Forall (λ v, 0 ∉ v) (values env);
}.

Lemma environment_spec iv env : environment iv = Ok env → 1 ≤ iv_timeout_ms iv ≤ TIMEOUT_MS_MAX ∧ env_exact iv env.
Proof.
  unfold environment. destruct (validate_timeout _) as [[]|] eqn:Et; [|done]. apply validate_timeout_Ok in Et.
  destruct (MAX_OUTPUT_BYTES <? input_bytes iv); [done|].
  destruct (arg_env 0 (iv_args iv) (base_env iv) []) as [[env1 legacy]|] eqn:E; [|done].
  pose proof (arg_env_legacy _ _ _ _ _ _ E) as Hl. simpl in Hl. subst legacy.
  set (env2 := binsert _ _ env1). destruct (existsb _ _) eqn:En; [done|].
  destruct (Z.ltb_spec MAX_OUTPUT_BYTES (env_bytes env2)) as [|Hb]; [done|]. intros [= <-]. split; [done|].
  destruct (base_env_get iv) as (B1 & B2 & B3 & B4 & B5).
  assert (∀ k : string, starts_with (lit "ZC_OVERRIDE_ARG_") (lit k) = false → k ≠ "ZC_OVERRIDE_ARGS"%string →
    bget (lit k) env2 = bget (lit k) (base_env iv)) as Hfix.
  { intros k Hk Hne. destruct (fixed_name k Hk) as [F1 F2]. unfold env2.
    rewrite bget_insert_ne by (by intros ?%lit_inj). eapply arg_env_other; [exact E|by intros|].
    apply Forall_forall. intros a _. apply F2. }
  assert (∀ k, starts_with (lit "ZC_OVERRIDE_ARG_") k = true → bget k env2 = bget k env1) as Harg.
  { intros k [r ->]%starts_with_true. apply bget_insert_ne. done. }
  assert (∀ key, starts_with (lit "ZC_OVERRIDE_ARG_") (named_key key) = true) as Hnk
    by (intros; apply starts_with_true; eauto).
  split.
  - by rewrite Hfix.
  - by rewrite Hfix.
  - by rewrite Hfix.
  - by rewrite Hfix.
  - unfold env2. apply bget_insert_eq.
  - rewrite Harg by done. rewrite (arg_env_named _ _ _ _ _ _ _ E) by (intros; by apply count_not_indexed).
    rewrite B5. by destruct (last_named _ _).
  - intros a Ha Hu Hi. rewrite Harg by done. rewrite (arg_env_named _ _ _ _ _ _ _ E) by (intros; apply Hi).
    unfold last_named. destruct (last (filter _ (iv_args iv))) eqn:El; [done|].
    apply last_None in El. exfalso. apply (not_elem_of_nil a). rewrite <- El. by apply list_elem_of_filter.
  - intros Hu i a Ha. rewrite !Harg by (apply starts_with_true; unfold indexed_key; eauto).
    by apply (arg_env_indexed (length (iv_args iv)) 0 _ _ _ _ _ i a E).
  - done.
  - apply Forall_forall. intros v Hv Hin. apply not_true_iff_false in En. apply En. apply existsb_exists.
    exists v. split; [by apply list_elem_of_In|]. unfold contains_byte. apply existsb_exists. exists 0.
    split; [by apply list_elem_of_In|done].
Qed.

(** ** Properties *)

(** Forwarding options is exact: whatever command line was accepted, the arguments
    [forward_args] makes of its options, behind any command name, parse to the same options
    (script, timeout and the arguments in order, duplicates included). *)
Theorem forward_args_roundtrip argv o : options_parse argv = Ok o →
  ∀ command, options_parse (command :: forward_args o) = Ok o.
Proof.
  intros H command. apply options_forward. eapply parse_options_wf; [apply default_options_wf|exact H].
Qed.

Lemma forward_args_roundtrip_witness :
  options_parse (lit "reload" :: forward_args (mkOptions (Some (lit "a.lua")) 100 [mkArg (lit "k") (lit "a=b")])) =
  Ok (mkOptions (Some (lit "a.lua")) 100 [mkArg (lit "k") (lit "a=b")]).
Proof.
  apply (forward_args_roundtrip
    [lit "start"; lit "-c"; lit "x"; lit "--override-script=a.lua"; lit "--override-arg"; lit " k =a=b";
     lit "--override-timeout-ms=100"]). vm_compute. reflexivity.
Defined.

(** The environment of an accepted invocation says exactly what the invocation says: the
    command, both paths, the timeout (1 to 60000 ms) and the joined arguments; every argument by
    its index and the last one of each name by its name, provided the names do not collide with
    those entries; it holds no NUL and at most 1 MiB. *)
Theorem environment_exact iv env : environment iv = Ok env →
  1 ≤ iv_timeout_ms iv ≤ TIMEOUT_MS_MAX ∧ env_exact iv env.
Proof. apply environment_spec. Qed.

Definition demo_invocation : Invocation :=
  mkInvocation (lit "start") [] (lit "a.lua") 5000 [mkArg (lit "count") (lit "7"); mkArg (lit "x") []].

(** The argument named [count] takes the place of the number of arguments. *)
Lemma environment_exact_witness : ∃ env, environment demo_invocation = Ok env ∧
  env_exact demo_invocation env ∧ bget (lit "ZC_OVERRIDE_ARG_COUNT") env = Some (lit "7").
Proof.
  destruct (environment demo_invocation) as [env|] eqn:E; [|discriminate E].
  destruct (environment_exact demo_invocation env E) as [_ H].
  exists env. split; [reflexivity|]. split; [exact H|]. apply (env_count _ _ H).
Defined.

End InvocationFacts.
