(* ===== verification/Diagnostics.v ===== *)
(** * Diagnostics (src/src/config/diagnostics.rs)

    The doctor looks at a document the runtime would load and says everything that is wrong
    with it. What it finds is a list of messages, in order; the report keeps a bounded number of
    them, of bounded size and without characters that could deceive a terminal. *)
From S2P Require Import Prelude Utf8 Net Target BTree Json Rules Groups Proxy Provider.

Module Diagnostics.

Definition COUNT_MAX : nat := 256.
Definition BYTES_MAX : Z := 512.
Definition SUFFIX : str := lit " ... [truncated]".

Definition unsafe_character (c : Z) : bool :=
  is_control c || (c =? 0x61c) || (c =? 0x200e) || (c =? 0x200f) || in_range 0x2028 0x202e c
  || in_range 0x2066 0x2069 c || (c =? 0xfeff).

(** ** Messages *)

(** A call of [error!] or [warning!]. *)
Record Message := mkMessage { is_error : bool; template : string; args : list str }.

Definition error (template : string) (args : list str) : Message := mkMessage true template args.
Definition warning (template : string) (args : list str) : Message := mkMessage false template args.

(** [if b { error!(..) }] *)
Definition when (b : bool) (m : Message) : list Message := if b then [m] else [].

(** [format_args!]: the arguments take the places of [{}]. *)
Fixpoint format_args (template : str) (args : list str) : str :=
  match template with
  | b :: ((c :: rest') as rest) =>
      if (b =? 123) && (c =? 125) then default [] (head args) ++ format_args rest' (tail args)
      else b :: format_args rest args
  | rest => rest
  end.

(** The loop over [literal.split_once("{}")]. *)
Definition elided (template : str) : str := format_args template (replicate (length template) (lit "...")).

(** [Message::write_str]: the text and the bytes charged for it; [None] is [fmt::Error]. *)
Fixpoint write_message (text : str) (rendered_bytes : Z) (cs : list Z) : option str :=
  match cs with
  | [] => Some text
  | c :: cs =>
      if BYTES_MAX <? rendered_bytes + len_utf8 c then None
      else write_message (text ++ (if unsafe_character c then [32] else encode1 c)) (rendered_bytes + len_utf8 c) cs
  end.

(** [str::is_char_boundary] *)
Definition is_char_boundary (s : str) (i : nat) : bool :=
  (i =? 0)%nat || match s !! i with
                  | Some b => negb (in_range 128 191 b)
                  | None => (i =? length s)%nat
                  end.

(** [while !is_char_boundary(end) { end -= 1; }] *)
Fixpoint floor_boundary (s : str) (end_ : nat) : nat :=
  match end_ with
  | O => O
  | S e => if is_char_boundary s end_ then end_ else floor_boundary s e
  end.

Definition truncated_text (template : str) : str :=
  let text := elided template in
  take (floor_boundary text (Nat.min (length text) (Z.to_nat (BYTES_MAX - len SUFFIX)))) text ++ SUFFIX.

(** The text of a message and whether it was cut. *)
Definition message_text (m : Message) : str * bool :=
  match write_message [] 0 (chars (format_args (lit (template m)) (args m))) with
  | Some text => (text, false)
  | None => (truncated_text (lit (template m)), true)
  end.

(** ** The report *)

Record Report := mkReport {
  errors : list str;
  warnings : list str;
  migration_hints : list string;
  truncated : bool;
  has_errors : bool;
}.

Definition empty_report : Report := mkReport [] [] [] false false.

(** [warnings.pop()] *)
Definition pop (l : list str) : list str := take (pred (length l)) l.

(** The end of [Diagnostics::add]: the message is formatted and kept. *)
Definition push (r : Report) (m : Message) : Report :=
  let '(text, cut) := message_text m in
  let truncated := truncated r || cut in
  if is_error m
  then mkReport (errors r ++ [text]) (warnings r) (migration_hints r) truncated (has_errors r)
  else mkReport (errors r) (warnings r ++ [text]) (migration_hints r) truncated (has_errors r).

(** [Diagnostics::add] *)
Definition add (r : Report) (m : Message) : Report :=
  let has_errors := has_errors r || is_error m in
  if (length (errors r) + length (warnings r) =? COUNT_MAX)%nat then
    if negb (is_error m) || bool_decide (warnings r = [])
    then mkReport (errors r) (warnings r) (migration_hints r) true has_errors
    else push (mkReport (errors r) (pop (warnings r)) (migration_hints r) true has_errors) m
  else push (mkReport (errors r) (warnings r) (migration_hints r) (truncated r) has_errors) m.

(** All calls of a run in order. *)
Definition report (ms : list Message) : Report := foldl add empty_report ms.

(** ** Settings *)

Definition text_of (key : string) (v : Value) : str := default [] (as_str (index key v)).

Definition show_i64 (n : Z) : str := if n <? 0 then 45 :: print_dec (- n) else print_dec n.
Definition show_nat (n : nat) : str := print_dec (Z.of_nat n).

(** [str::parse::<Ipv4Addr>()] *)
Definition is_ipv4 (s : str) : bool :=
  match read_ipv4_addr s with Some (_, _, _, _, []) => true | _ => false end.

Definition secret_byte (c : Z) : bool := is_ascii_alphanumeric c || one_of [c] ["-"; "."; "_"; "~"].

Definition basic (doc : Value) : list Message :=
  let bind := default (lit "*") (as_str (index "bind-address" doc)) in
  match as_str (index "mode" doc) with
  | Some mode => when (negb (one_of mode ["rule"; "global"; "direct"]))
      (error "Invalid mode: '{}' (must be 'rule', 'global', or 'direct')" [mode])
  | None => []
  end ++
  match as_str (index "log-level" doc) with
  | Some level => when (negb (one_of level ["debug"; "info"; "warning"; "error"; "silent"]))
      (error "Unknown log level: '{}'" [level])
  | None => []
  end ++
  when (negb (eq_str bind (lit "*")) && negb (is_ipv4 bind))
    (error "Invalid bind-address: '{}' (use '*' or IPv4)" [bind]) ++
  when (negb (is_bool (index "allow-lan" doc) true) && negb (eq_str bind (lit "*")))
    (warning "allow-lan=false: bind-address '{}' will be ignored, using 127.0.0.1" [bind]) ++
  match as_str (index "external-controller" doc) with
  | Some endpoint => when (negb (is_ok (parse_controller_endpoint endpoint)))
      (error "Invalid external-controller (expected 127.0.0.1:PORT or 0.0.0.0:PORT)" [])
  | None => []
  end ++
  match as_str (index "secret" doc) with
  | Some secret => when ((256 <? len secret) || negb (forallb secret_byte secret))
      (error "Invalid controller secret (use at most 256 characters from A-Z, a-z, 0-9, '-', '.', '_' or '~')" [])
  | None => []
  end ++
  flat_map (λ field,
    match as_i64 (index field doc) with
    | Some seconds => when (seconds <=? 5)
        (warning "{}={}s is too low (<=5s); clamped to 30s" [lit field; show_i64 seconds])
    | None => []
    end) ["idle-session-check-interval"; "idle-session-timeout"]%string.

Definition runtime_fields : list string :=
  ["proxies"; "proxy-groups"; "rules"; "rule-providers"; "allow-lan"; "bind-address"; "mixed-port"; "port";
   "socks-port"; "mode"; "log-level"; "external-controller"; "secret"]%string.

Definition check_fields (runtime : Value) : list Message :=
  match as_object runtime with
  | Some fields => flat_map (λ field, when (negb (one_of field runtime_fields))
                               (error "Unsupported configuration field '{}'" [field])) (keys fields)
  | None => []
  end.

(** ** Proxies *)

(** A name as a proxy or a group of the given number has it. *)
Definition check_name (control padded : string) (name : str) (number : str) : list Message :=
  if existsb unsafe_character (chars name) then [error control [number]]
  else when (negb (is_ok (validate_name name))) (error padded [number]).

Definition protocol (kind : str) : string :=
  if eq_str kind (lit "ss") then "Shadowsocks" else if eq_str kind (lit "anytls") then "AnyTLS" else "Trojan".

Definition server_invalid (server : str) : bool :=
  negb (bool_decide (server = []))
  && ((253 <? len server)
      || (ends_with [46] server && is_some (parse_ip (strip_dot server)))
      || negb (is_ok (target_new server 1))).

(** [proxy["sni"]] of a Trojan or AnyTLS proxy, or its absence. *)
Definition check_sni (proxy : Value) (kind name : str) : list Message :=
  match as_str (index "sni" proxy) with
  | Some sni =>
      when ((253 <? len sni) || ends_with [46] sni || is_some (parse_ip sni) || negb (is_ok (target_new sni 1)))
        (error (protocol kind +:+ " proxy '{}': sni must be a valid RFC hostname (1-253 bytes; no IP, wildcard, whitespace, or control characters)") [name])
  | None =>
      when (negb (is_bool (index "skip-cert-verify" proxy) true) && is_some (parse_ip (text_of "server" proxy)))
        (error (protocol kind +:+ " proxy '{}': verified IP server requires an explicit hostname sni") [name])
  end.

(** The block for [ss], [trojan] and [anytls]: each error of it makes the proxy [invalid]. *)
Definition check_protocol (proxy : Value) (kind name : str) : list Message :=
  let ss := eq_str kind (lit "ss") in
  let server := text_of "server" proxy in
  let password := text_of "password" proxy in
  (if bool_decide (server = []) then [error (protocol kind +:+ " proxy '{}': server cannot be empty") [name]]
   else when (ss && server_invalid server)
          (error "Shadowsocks proxy '{}': server must be a valid IP literal or RFC hostname" [name])) ++
  when (negb (is_some_and (as_u64 (index "port" proxy)) (λ p, (0 <? p) && (p <=? 65535))))
    (error "Proxy '{}': invalid port (must be 1-65535)" [name]) ++
  (if bool_decide (password = []) then [error (protocol kind +:+ " proxy '{}': password is required") [name]]
   else when (existsb is_control (chars password)) (error "Proxy '{}': password contains control characters" [name])) ++
  when (ss && negb (is_some_and (as_str (index "cipher" proxy)) (λ c, negb (bool_decide (c = [])))))
    (error "Shadowsocks proxy '{}': cipher is required" [name]) ++
  (if ss then []
   else
     when (server_invalid server)
       (error (protocol kind +:+ " proxy '{}': server must be a valid IP literal or RFC hostname (1-253 bytes)") [name]) ++
     check_sni proxy kind name).

Section Doctor.
Context `{IpNetLib}.
(** [Url::parse], [ServerName::try_from], and the derived deserializers of [RawProxy],
    [RawGroup] and [Provider]. *)
Context (url_parse : str → option (str * option str)) (server_name_ok : str → bool)
  (de_proxy : Value → option RawProxy) (de_group : Value → option RawGroup) (de_provider : Value → option Provider).

(** The runtime's own check of one proxy. *)
Definition check_build (proxy : Value) (name number : str) (invalid : bool) : list Message :=
  match de_proxy proxy with
  | Some p =>
      if invalid then []
      else match build server_name_ok p with
           | Err e => [error "Proxy '{}': {}" [name; lit e]]
           | Ok _ => []
           end
  | None => [error "Proxy #{}: invalid fields or types" [number]]
  end.

Definition check_proxy (proxy : Value) (index_ : nat) (duplicate : bool) : list Message :=
  let name := text_of "name" proxy in
  let number := show_nat index_ in
  let kind := text_of "type" proxy in
  if bool_decide (name = []) then [error "Proxy #{}: name cannot be empty" [number]]
  else
    let problems := if one_of kind ["ss"; "trojan"; "anytls"] then check_protocol proxy kind name else [] in
    check_name "Proxy #{}: name contains terminal control characters"
               "Proxy #{}: name must be unpadded and contain no commas" name number ++
    when (is_some_and (as_str (index "server" proxy)) (λ s, existsb unsafe_character (chars s)))
      (error "Proxy #{}: server contains terminal control characters" [number]) ++
    when duplicate (error "Duplicate proxy name: '{}'" [name]) ++
    when (one_of kind ["trojan"; "anytls"] && is_bool (index "skip-cert-verify" proxy) true)
      (warning (protocol kind +:+ " proxy '{}': skip-cert-verify=true disables TLS certificate verification") [name]) ++
    problems ++
    check_build proxy name number (negb (bool_decide (problems = []))).

(** [names.entry(name).or_insert(index)] *)
Definition or_insert (name : str) (index_ : nat) (names : gmap str nat) : gmap str nat :=
  match names !! name with Some _ => names | None => <[name := index_]> names end.

(** The loop over the proxies: the names so far, those of proxies, and the messages. *)
Fixpoint proxy_messages (index_ : nat) (proxies : list Value) (names : gmap str nat) (seen : gset str)
    : gmap str nat * gset str * list Message :=
  match proxies with
  | [] => (names, seen, [])
  | proxy :: proxies =>
      let name := text_of "name" proxy in
      let duplicate := negb (bool_decide (name = [])) && bool_decide (name ∈ seen) in
      let seen := if bool_decide (name = []) then seen else {[name]} ∪ seen in
      let '(names, seen, ms) := proxy_messages (S index_) proxies (or_insert name (index_ + 2) names) seen in
      (names, seen, check_proxy proxy (S index_) duplicate ++ ms)
  end.

(** ** Groups *)

Definition group_members (group : Value) : list Value := default [] (as_array (index "proxies" group)).

Definition check_group (group : Value) (index_ : nat) (seen : gset str) (duplicate : bool) : list Message :=
  let name := text_of "name" group in
  let number := show_nat index_ in
  if bool_decide (name = []) then [error "Proxy group #{}: name cannot be empty" [number]]
  else
    check_name "Proxy group #{}: name contains terminal control characters"
               "Proxy group #{}: name must be unpadded and contain no commas" name number ++
    when (bool_decide (name ∈ seen)) (error "Policy name '{}' is used by both a proxy and a proxy group" [name]) ++
    when duplicate (error "Duplicate proxy group name: '{}'" [name]) ++
    when (bool_decide (group_members group = [])) (error "Proxy group '{}': proxy list cannot be empty" [name]) ++
    when (negb (is_some (de_group group))) (error "Proxy group #{}: invalid fields or types" [number]).

(** The loop over the groups, after [pc] proxies. *)
Fixpoint group_messages (pc index_ : nat) (groups : list Value) (names : gmap str nat) (group_names : gmap str nat)
    (seen : gset str) : gmap str nat * gmap str nat * list Message :=
  match groups with
  | [] => (names, group_names, [])
  | group :: groups =>
      let name := text_of "name" group in
      let duplicate := is_some (group_names !! name) in
      let '(names, group_names, ms) :=
        group_messages pc (S index_) groups (or_insert name (pc + index_ + 2) names) (<[name := index_]> group_names) seen in
      (names, group_names, check_group group (S index_) seen duplicate ++ ms)
  end.

(** ** Rule providers *)

Fixpoint provider_messages (declarations : list (str * Value)) (providers : bmap Provider) (names : gmap str nat)
    : bmap Provider * list Message :=
  match declarations with
  | [] => (providers, [])
  | (name, value) :: declarations =>
      let unsafe := when (existsb unsafe_character (chars name))
                      (error "Rule provider name contains terminal control characters" []) in
      match de_provider value with
      | Some provider =>
          let '(ps, ms) := provider_messages declarations (binsert name provider providers) names in
          (ps, unsafe ++
               match validate_rule_declarations url_parse [] [(name, provider)] names with
               | Err e => [error "Rule provider '{}': {}" [name; lit e]]
               | Ok _ => []
               end ++ ms)
      | None =>
          let '(ps, ms) := provider_messages declarations providers names in
          (ps, unsafe ++ [error "Rule provider '{}': invalid fields or types" [name]] ++ ms)
      end
  end.

(** ** Rules *)

Definition cidr_ok (kind payload : str) : bool :=
  is_some_and (ipnet_parse payload) (λ net, Bool.eqb (negb (ipnet_is_ipv4 net)) (eq_str kind (lit "IP-CIDR6"))).

Definition port_range_ok (payload : str) : bool :=
  let '(first, last) := default (payload, payload) (split_once 45 payload) in
  match parse_port first, parse_port last with Ok a, Ok b => a <=? b | _, _ => false end.

(** Messages about the payload of a kind, each of which is a [specific_error]. *)
Definition check_payload (kind payload number : str) : list Message :=
  if one_of kind ["IP-CIDR"; "IP-CIDR6"; "SRC-IP-CIDR"] then
    when (negb (cidr_ok kind payload))
      (error (if eq_str kind (lit "IP-CIDR6") then "Rule #{}: invalid IPv6 CIDR format '{}'"
              else "Rule #{}: invalid IPv4 CIDR format '{}'") [number; payload])
  else if one_of kind ["DST-PORT"; "SRC-PORT"] then
    when (negb (port_range_ok payload)) (error "Rule #{}: invalid port range '{}'" [number; payload])
  else [].

Definition check_rule (source : str) (index_ : nat) (names : gmap str nat) : list Message :=
  let number := show_nat index_ in
  let fields := rule_fields source in
  let kind := default [] (fields !! 0%nat) in
  let payload := default [] (fields !! 1%nat) in
  let empty := negb (eq_str kind (lit "MATCH")) && bool_decide (payload = []) in
  when empty (error "Rule #{}: payload cannot be empty" [number]) ++
  (if eq_str kind (lit "RULE-SET") then
     when empty (error "Rule #{}: RULE-SET provider name cannot be empty" [number]) ++
     when (negb (is_ok (rule_set fields))) (error "Rule #{}: invalid RULE-SET declaration" [number])
   else
     let problems := check_payload kind payload number in
     problems ++
     match rule_parse source names with
     | Err e => when (negb empty && bool_decide (problems = []) && negb (bool_decide (e = unknown_target)))
                  (error "Rule #{}: {}" [number; lit e])
     | Ok _ => []
     end).

Definition rule_messages (index_ : nat) (rule : Value) (names : gmap str nat) : list Message :=
  match as_str rule with
  | None => [error "Rule #{}: expected a string" [show_nat index_]]
  | Some source => check_rule source index_ names
  end.

(** [for (index, x) in xs.iter().enumerate()], numbered from 1. *)
Fixpoint numbered {A} (f : nat → A → list Message) (index_ : nat) (xs : list A) : list Message :=
  match xs with
  | [] => []
  | x :: xs => f (S index_) x ++ numbered f (S index_) xs
  end.

(** ** Cycles *)

(** The loop over [proxy-groups] that collects [edges]: the members that are groups, by the
    index of the group, and the messages about members. *)
Fixpoint member_edges (name : str) (members : list Value) (names group_names : gmap str nat)
    : list nat * list Message :=
  match members with
  | [] => ([], [])
  | member :: members =>
      let '(es, ms) := member_edges name members names group_names in
      match as_str member with
      | None => (es, error "Proxy group '{}': member must be a string" [name] :: ms)
      | Some m =>
          (match group_names !! m with Some child => child :: es | None => es end,
           when (negb (is_some (names !! m)))
             (error "Proxy group '{}': references undefined proxy or group '{}'" [name; m]) ++ ms)
      end
  end.

Fixpoint edge_messages (groups : list Value) (names group_names : gmap str nat) : list (list nat) * list Message :=
  match groups with
  | [] => ([], [])
  | group :: groups =>
      let '(es, ms) := member_edges (text_of "name" group) (group_members group) names group_names in
      let '(edges, ms') := edge_messages groups names group_names in
      (es :: edges, ms ++ ms')
  end.

(** The target and the provider a rule names. *)
Definition check_references (index_ : nat) (rule : Value) (providers : bmap Provider) (names : gmap str nat)
    : list Message :=
  match as_str rule with
  | None => []
  | Some source =>
      let number := show_nat index_ in
      let fields := rule_fields source in
      match fields with
      | kind :: provider :: _ =>
          when (eq_str kind (lit "RULE-SET") && negb (bcontains provider providers))
            (error "Rule #{}: references undefined rule-provider '{}'" [number; provider])
      | _ => []
      end ++
      match fields !! (if eq_str (default [] (fields !! 0%nat)) (lit "MATCH") then 1 else 2)%nat with
      | Some target => when (negb (is_some (names !! target)))
                         (error "Rule #{}: references undefined target '{}'" [number; target])
      | None => []
      end
  end.

(** One iteration of [while let Some(&(node, next)) = stack.last()]: the state, the stack and
    whether an edge to a group on the stack was met; the stack's top is the head of the list.
    [None] is an index out of range. *)
Definition cycle_step (edges : list (list nat)) (state : list Z) (stack : list (nat * nat))
    : option (list Z * list (nat * nat) * option nat) :=
  match stack with
  | [] => None
  | (node, next) :: rest =>
      let? children := edges !! node in
      match children !! next with
      | None => Some (<[node := 2]> state, rest, None)
      | Some child =>
          let stack := (node, S next) :: rest in
          let? c := state !! child in
          if c =? 0 then Some (<[child := 1]> state, (child, 0%nat) :: stack, None)
          else if c =? 1 then Some (state, stack, Some node)
          else Some (state, stack, None)
      end
  end.

(** The whole loop: the groups at which a cycle was found; [None] also when the fuel runs out. *)
Fixpoint cycle_loop (fuel : nat) (edges : list (list nat)) (state : list Z) (stack : list (nat * nat))
    : option (list Z * list nat) :=
  match stack with
  | [] => Some (state, [])
  | _ =>
      match fuel with
      | O => None
      | S fuel =>
          let? '(state, stack, found) := cycle_step edges state stack in
          let? '(state, nodes) := cycle_loop fuel edges state stack in
          Some (state, match found with Some node => node :: nodes | None => nodes end)
      end
  end.

(** [for root in 0..edges.len()] *)
Fixpoint cycle_roots (fuel : nat) (edges : list (list nat)) (roots : list nat) (state : list Z)
    : option (list nat) :=
  match roots with
  | [] => Some []
  | root :: roots =>
      let? s := state !! root in
      if negb (s =? 0) then cycle_roots fuel edges roots state
      else
        let? '(state, nodes) := cycle_loop fuel edges (<[root := 1]> state) [(root, 0%nat)] in
        let? more := cycle_roots fuel edges roots state in
        Some (nodes ++ more)
  end.

Definition cycle_nodes (edges : list (list nat)) : option (list nat) :=
  cycle_roots (dfs_fuel edges) edges (seq 0 (length edges)) (replicate (length edges) 0).

(** [cycles]; [groups[node]] is never out of range where [edges[node]] is not. *)
Definition cycles (edges : list (list nat)) (groups : list Value) : option (list Message) :=
  let? nodes := cycle_nodes edges in
  Some ((λ node, error "Proxy group '{}': cycle detected, including unselected branches"
                   [text_of "name" (default VNull (groups !! node))]) <$> nodes).

(** ** The doctor *)

(** [runtime[key].as_array().unwrap_or(&[])] *)
Definition items (key : string) (runtime : Value) : list Value := default [] (as_array (index key runtime)).

(** Everything the doctor says, in order; [None] is a panic. *)
Definition validate_messages (original runtime : Value) : option (list Message) :=
  let proxies := items "proxies" runtime in
  let groups := items "proxy-groups" runtime in
  let rules := items "rules" runtime in
  let builtin : gmap str nat := {[ lit "DIRECT" := 0%nat; lit "REJECT" := 1%nat ]} in
  let '(names, proxy_names, ms1) := proxy_messages 0 proxies builtin ∅ in
  let '(names, group_names, ms2) := group_messages (length proxies) 0 groups names ∅ proxy_names in
  let '(providers, ms3) :=
    match as_object (index "rule-providers" runtime) with
    | Some declarations => provider_messages declarations [] names
    | None => ([], [])
    end in
  let ms4 := numbered (λ i rule, rule_messages i rule names) 0 rules in
  let '(edges, ms5) := edge_messages groups names group_names in
  let ms6 := numbered (λ i rule, check_references i rule providers names) 0 rules in
  let? ms7 := cycles edges groups in
  Some (basic original ++ check_fields runtime ++ ms1 ++ ms2 ++ ms3 ++ ms4 ++ ms5 ++ ms6 ++ ms7).

(** [validate] *)
Definition validate (original runtime : Value) : option Report :=
  report <$> validate_messages original runtime.

End Doctor.

(** ** Migration hints *)

Definition hint_table : list (string * string) :=
  [("tun:", "tun mode is not supported by zc and will be ignored");
   ("enhanced-mode:", "dns.enhanced-mode is not supported and will be ignored");
   ("rule-providers:", "rule-providers remote update is not fully implemented; manual refresh recommended");
   ("proxy-providers:", "proxy-providers is not supported; declare proxies statically in the config")]%string.

Definition hints_of (source : str) : list string :=
  if 1024 * 1024 <? len source then []
  else
    let source := if utf8_valid source then source else [] in
    snd <$> filter (λ nh, contains_sub (lit (fst nh)) source = true) hint_table.

(** [diagnostics.migration_hints = hints] of [service::diagnose_config] *)
Definition with_hints (r : Report) (hints : list string) : Report :=
  mkReport (errors r) (warnings r) hints (truncated r) (has_errors r).

End Diagnostics.
