(* ===== verification/DoctorFacts.v ===== *)
(** * Diagnostics: the report (src/src/config/diagnostics.rs)

    What the report keeps of the messages, exactly, and that every text in it is bounded and
    displayable. The module [DoctorCycles] is about the cycle search, [DoctorFacts] about the
    messages of every check. *)
From S2P Require Import Prelude Utf8 Net Target BTree Json Rules Groups Proxy Provider Diagnostics.

Module DiagnosticsFacts.
Import Diagnostics.

(** ** What is kept *)

Definition errors_of (ms : list Message) : list Message := filter (λ m, is_error m = true) ms.
Definition warnings_of (ms : list Message) : list Message := filter (λ m, is_error m = false) ms.
Definition texts (ms : list Message) : list str := fst ∘ message_text <$> ms.
Definition cut (m : Message) : bool := snd (message_text m).

(** The first 256 errors, and the first warnings in the room that errors leave. *)
Record kept (ms : list Message) (r : Report) : Prop := {
  kept_errors : errors r = take COUNT_MAX (texts (errors_of ms));
  kept_warnings : warnings r = take (COUNT_MAX - length (errors_of ms)) (texts (warnings_of ms));
  kept_truncated : truncated r = (COUNT_MAX <? length ms)%nat || existsb cut ms;
  kept_has_errors : has_errors r = existsb is_error ms;
}.

Lemma split_length ms : (length (errors_of ms) + length (warnings_of ms) = length ms)%nat.
Proof.
  induction ms as [|m ms IH]; [done|]. unfold errors_of, warnings_of in *. rewrite !filter_cons.
  destruct (is_error m); simpl; lia.
Qed.

Lemma errors_snoc ms m : errors_of (ms ++ [m]) = errors_of ms ++ (if is_error m then [m] else []).
Proof. unfold errors_of. rewrite filter_app. f_equal. rewrite filter_cons. by destruct (is_error m). Qed.

Lemma warnings_snoc ms m : warnings_of (ms ++ [m]) = warnings_of ms ++ (if is_error m then [] else [m]).
Proof. unfold warnings_of. rewrite filter_app. f_equal. rewrite filter_cons. by destruct (is_error m). Qed.

Lemma texts_app ms ms' : texts (ms ++ ms') = texts ms ++ texts ms'.
Proof. apply fmap_app. Qed.

Lemma texts_length ms : length (texts ms) = length ms.
Proof. apply length_fmap. Qed.

Lemma pop_take {A} n (l : list A) (f : list A → list A) : (S n ≤ length l)%nat → f = (λ l, take (pred (length l)) l) →
  f (take (S n) l) = take n l.
Proof. intros Hl ->. rewrite length_take, take_take. f_equal. lia. Qed.

Lemma kept_add ms r m : kept ms r → kept (ms ++ [m]) (add r m).
Proof.
  intros [He Hw Ht Hh]. pose proof (split_length ms) as Hl.
  assert (length (errors r) = Nat.min COUNT_MAX (length (errors_of ms))) as Le
    by (rewrite He, length_take, texts_length; lia).
  assert (length (warnings r) = Nat.min (COUNT_MAX - length (errors_of ms)) (length (warnings_of ms))) as Lw
    by (rewrite Hw, length_take, texts_length; lia).
  assert (has_errors r || is_error m = existsb is_error (ms ++ [m])) as Hh'
    by (rewrite existsb_app; simpl; by rewrite orb_false_r, Hh).
  assert (length (ms ++ [m]) = S (length ms)) as Hlen by (rewrite length_app; simpl; lia).
  unfold add. destruct (Nat.eqb_spec (length (errors r) + length (warnings r)) COUNT_MAX) as [Hfull|Hroom].
  - assert ((COUNT_MAX <? length (ms ++ [m]))%nat = true) as Hover by (apply Nat.ltb_lt; lia).
    destruct (is_error m) eqn:Em; cbn [negb orb].
    + case_bool_decide as Hnil.
      * rewrite Hnil in Lw, Hfull. cbn [length] in Lw, Hfull. split; cbn [errors warnings truncated has_errors].
        -- rewrite errors_snoc, Em, texts_app, take_app_le by (rewrite texts_length; lia). done.
        -- rewrite errors_snoc, Em, length_app. simpl. replace (COUNT_MAX - _)%nat with 0%nat by lia. done.
        -- by rewrite Hover.
        -- done.
      * assert (0 < length (warnings r))%nat as Hpos by (destruct (warnings r); [done|simpl; lia]).
        unfold push. destruct (message_text m) as [text c] eqn:Etext. rewrite Em.
        split; cbn [errors warnings truncated has_errors].
        -- rewrite errors_snoc, Em, texts_app, He, !take_ge by (rewrite ?length_app, ?texts_length; simpl; lia).
           unfold texts. simpl. by rewrite Etext.
        -- rewrite errors_snoc, Em, warnings_snoc, Em, app_nil_r, length_app, Hw. simpl.
           replace (COUNT_MAX - length (errors_of ms))%nat with (S (COUNT_MAX - (length (errors_of ms) + 1))) by lia.
           apply pop_take; [|done]. rewrite texts_length. lia.
        -- by rewrite Hover.
        -- done.
    + split; cbn [errors warnings truncated has_errors].
      * by rewrite errors_snoc, Em, app_nil_r.
      * rewrite errors_snoc, warnings_snoc, Em, app_nil_r, texts_app, take_app_le; [done|]. rewrite texts_length. lia.
      * by rewrite Hover.
      * done.
  - assert (length ms < COUNT_MAX)%nat as Hlt by lia.
    assert (truncated r || cut m = (COUNT_MAX <? length (ms ++ [m]))%nat || existsb cut (ms ++ [m])) as Htr.
    { rewrite Ht, existsb_app, Hlen. simpl. rewrite orb_false_r.
      rewrite (proj2 (Nat.ltb_ge _ _)), (proj2 (Nat.ltb_ge _ _)) by lia. done. }
    unfold push. unfold cut in Htr. destruct (message_text m) as [text c] eqn:Etext. cbn [snd] in Htr.
    destruct (is_error m) eqn:Em; split; cbn [errors warnings truncated has_errors]; try done.
    + rewrite errors_snoc, Em, texts_app, He, !take_ge by (rewrite ?length_app, ?texts_length; simpl; lia).
      unfold texts. simpl. by rewrite Etext.
    + rewrite errors_snoc, warnings_snoc, Em, app_nil_r, length_app, Hw, !take_ge by (rewrite ?texts_length; simpl; lia).
      done.
    + by rewrite errors_snoc, Em, app_nil_r.
    + rewrite errors_snoc, warnings_snoc, Em, app_nil_r, texts_app, Hw, !take_ge
        by (rewrite ?length_app, ?texts_length; simpl; lia).
      unfold texts. simpl. by rewrite Etext.
Qed.

Lemma report_kept ms : kept ms (report ms).
Proof.
  unfold report. induction ms as [|m ms IH] using rev_ind; [by split|].
  rewrite foldl_app. by apply kept_add.
Qed.

(** ** Every text is bounded and displayable *)

(** Characters that a text of the report shows. *)
Definition shown (c : Z) : Prop := unsafe_character c = false.

Definition plain_template (t : string) : bool := forallb (λ b, (32 <=? b) && (b <? 127)) (lit t).

Lemma ascii_shown b : 32 ≤ b < 127 → shown b.
Proof.
  intros H. apply not_true_iff_false. unfold unsafe_character, is_control, in_range. intros Hu.
  rewrite !orb_true_iff, !andb_true_iff in Hu. destruct_or?; destruct_and?; blia.
Qed.

Lemma ascii_text s : Forall (λ b, 32 ≤ b < 127) s → text shown s.
Proof.
  intros H. apply text_ascii; (eapply Forall_impl; [exact H|]); [intros b; simpl; lia|].
  intros b. apply ascii_shown.
Qed.

Lemma encode1_text c : scalar c = true → shown c → text shown (encode1 c).
Proof.
  intros Hs Hc. rewrite <- (app_nil_r (encode1 c)). change (encode1 c ++ []) with (utf8_encode [c]).
  apply text_encode; [simpl; by rewrite Hs|]. by repeat constructor.
Qed.

Lemma write_message_spec cs text_ n text' : forallb scalar cs = true → text shown text_ → len text_ ≤ n ≤ BYTES_MAX →
  write_message text_ n cs = Some text' → text shown text' ∧ len text' ≤ BYTES_MAX.
Proof.
  revert text_ n. induction cs as [|c cs IH]; intros t n Hs Ht Hn; simpl.
  - intros [= <-]. split; [done|lia].
  - simpl in Hs. apply andb_prop in Hs as [Hc Hcs]. destruct (Z.ltb_spec BYTES_MAX (n + len_utf8 c)) as [|Hle]; [done|].
    assert (1 ≤ len_utf8 c) as H1.
    { unfold len_utf8. pose proof (encode1_ne c). pose proof (len_nonneg (encode1 c)).
      destruct (encode1 c); [done|]. rewrite len_cons. pose proof (len_nonneg l). lia. }
    apply IH; [done| |].
    + apply text_app; [done|]. destruct (unsafe_character c) eqn:Eu; [|by apply encode1_text].
      apply ascii_text. repeat constructor; lia.
    + rewrite len_app. destruct (unsafe_character c); [change (len [32]) with 1|fold (len_utf8 c)]; lia.
Qed.

Lemma format_args_cons b c t args :
  format_args (b :: c :: t) args =
    if (b =? 123) && (c =? 125) then default [] (head args) ++ format_args t (tail args)
    else b :: format_args (c :: t) args.
Proof. done. Qed.

Lemma format_args_plain t args : Forall (λ b, 32 ≤ b < 127) t → Forall (Forall (λ b, 32 ≤ b < 127)) args →
  Forall (λ b, 32 ≤ b < 127) (format_args t args).
Proof.
  assert (∀ n t args, (length t ≤ n)%nat → Forall (λ b, 32 ≤ b < 127) t → Forall (Forall (λ b, 32 ≤ b < 127)) args →
    Forall (λ b, 32 ≤ b < 127) (format_args t args)) as H; [|by apply (H (length t))].
  clear. induction n as [|n IH]; intros t args Hn Ht Ha; (destruct t as [|b [|c t]]; [done|done|]); simpl in Hn; [lia|].
  rewrite format_args_cons. inversion Ht as [|? ? Hb Ht1]; subst. inversion Ht1 as [|? ? Hc Ht2]; subst.
  destruct ((b =? 123) && (c =? 125)).
  - apply Forall_app. split; [destruct Ha; simpl; [constructor|done]|]. apply IH; [lia|done|]. by destruct Ha.
  - constructor; [done|]. apply IH; [simpl; lia|done|done].
Qed.

Lemma plain_template_Forall t : plain_template t = true → Forall (λ b, 32 ≤ b < 127) (lit t).
Proof.
  unfold plain_template. rewrite forallb_forall. intros H. apply Forall_forall. intros b Hb%list_elem_of_In.
  specialize (H b Hb). rewrite andb_true_iff in H. blia.
Qed.

Lemma message_bounded m : plain_template (template m) = true →
  text shown (fst (message_text m)) ∧ len (fst (message_text m)) ≤ BYTES_MAX.
Proof.
  intros Ht%plain_template_Forall. unfold message_text. destruct (write_message _ _ _) as [text_|] eqn:E; cbn [fst].
  - eapply write_message_spec; [apply chars_scalar|apply text_nil|done|exact E].
  - unfold truncated_text. assert (Forall (λ b, 32 ≤ b < 127) (elided (lit (template m)))) as He.
    { apply format_args_plain; [done|]. apply Forall_replicate. apply plain_template_Forall. reflexivity. }
    split.
    + apply ascii_text. apply Forall_app. split; [by apply Forall_take|]. by apply (plain_template_Forall " ... [truncated]").
    + rewrite len_app. change (len SUFFIX) with 16. unfold len. rewrite length_take.
      assert (∀ s e, (floor_boundary s e ≤ e)%nat) as Hf.
      { intros s. induction e as [|e IHe]; [done|]. simpl. destruct (is_char_boundary s (S e)); lia. }
      set (s := elided _). set (e := floor_boundary s _).
      assert (e ≤ 496)%nat; [|change BYTES_MAX with 512; lia].
      etrans; [apply Hf|]. change (Z.to_nat (BYTES_MAX - 16)) with 496%nat. lia.
Qed.

(** At most 256 texts of at most 512 bytes without characters that deceive. *)
Definition bounded (r : Report) : Prop :=
  (length (errors r) + length (warnings r) ≤ COUNT_MAX)%nat ∧
  Forall (λ s, text shown s ∧ len s ≤ BYTES_MAX) (errors r ++ warnings r).

Lemma report_bounded ms : Forall (λ m, plain_template (template m) = true) ms → bounded (report ms).
Proof.
  intros Hp. destruct (report_kept ms) as [He Hw _ _]. unfold bounded. rewrite He, Hw. split.
  - rewrite !length_take, !texts_length. lia.
  - rewrite Forall_forall in Hp.
    apply Forall_app. split; apply Forall_take, Forall_fmap, Forall_forall;
      intros m [_ Hm]%list_elem_of_filter; by apply message_bounded, Hp.
Qed.

End DiagnosticsFacts.

(** * The doctor's cycle search (src/src/config/diagnostics.rs: [cycles])

    It visits every edge once, goes on after a cycle, and reports one exactly when the graph
    of the groups has one; it agrees with the search of [Groups] that loading runs. *)

Module DoctorCycles.
Import Diagnostics.

Section Cycles.
Context (edges : list (list nat)).
Hypothesis Hwf : edges_wf 0 edges.

Abbreviation potential := (potential 0 edges).
Abbreviation white := (white 0 edges).

(** What every step keeps, cycles or not. *)
Record searching (state : list Z) (stack : list (nat * nat)) : Prop := {
  s_len : length state = length edges;
  s_frames : Forall (λ f : nat * nat, state !! fst f ≠ Some 0 ∧
    ∃ children, edges !! fst f = Some children ∧ (snd f ≤ length children)%nat) stack;
}.

Lemma child_below node children next child :
  edges !! node = Some children → children !! next = Some child → (child < length edges)%nat.
Proof.
  intros He Hc. unfold edges_wf in Hwf. rewrite Forall_forall in Hwf. specialize (Hwf children).
  rewrite Forall_forall in Hwf. apply Hwf; by eapply list_elem_of_lookup_2.
Qed.

Lemma insert_nonzero (state : list Z) (n : nat) v i : v ≠ 0 → state !! i ≠ Some 0 → <[n:=v]> state !! i ≠ Some 0.
Proof.
  intros Hv Hi. destruct (decide (i = n)) as [->|Hne]; [|by rewrite list_lookup_insert_ne].
  destruct (decide (n < length state)%nat).
  - rewrite list_lookup_insert_eq by done. congruence.
  - by rewrite list_insert_ge by lia.
Qed.

Lemma frames_insert (state : list Z) (n : nat) v stack : v ≠ 0 →
  Forall (λ f : nat * nat, state !! fst f ≠ Some 0 ∧
    ∃ children, edges !! fst f = Some children ∧ (snd f ≤ length children)%nat) stack →
  Forall (λ f : nat * nat, <[n:=v]> state !! fst f ≠ Some 0 ∧
    ∃ children, edges !! fst f = Some children ∧ (snd f ≤ length children)%nat) stack.
Proof. intros Hv H. eapply Forall_impl; [exact H|]. intros f [H1 H2]. split; [by apply insert_nonzero|done]. Qed.

Lemma frame_weight_node node next children : edges !! node = Some children →
  frame_weight 0 edges (node, next) = (S (length children) - next)%nat.
Proof. intros H. unfold frame_weight, weight. simpl. by rewrite Nat.sub_0_r, H. Qed.

(** Every step is defined and uses up one unit of the potential. *)
Lemma cycle_step_spec state stack : searching state stack → stack ≠ [] →
  ∃ state' stack' found, cycle_step edges state stack = Some (state', stack', found) ∧
    searching state' stack' ∧ (S (potential state' stack') = potential state stack)%nat ∧
    (∀ i, state !! i ≠ Some 0 → state' !! i ≠ Some 0).
Proof.
  intros [Hlen Hf] Hne. destruct stack as [|[node next] rest]; [done|].
  inversion Hf as [|? ? (Hn & children & Hc & Hle) Hrest]; subst. simpl in Hn, Hc, Hle.
  pose proof (frame_weight_node node next children Hc) as Hw. unfold Groups.potential.
  cbn [cycle_step sum_list_with]. rewrite Hc. destruct (children !! next) as [child|] eqn:Ech.
  - pose proof (child_below _ _ _ _ Hc Ech) as Hb. pose proof (lookup_lt_Some _ _ _ Ech) as Hnext.
    destruct (lookup_lt_is_Some_2 state child) as [c Hs]; [lia|]. rewrite Hs.
    assert (Forall (λ f : nat * nat, state !! fst f ≠ Some 0 ∧
      ∃ children, edges !! fst f = Some children ∧ (snd f ≤ length children)%nat) ((node, S next) :: rest)) as Hf'.
    { constructor; [|done]. split; [done|]. exists children. split; [done|simpl; lia]. }
    pose proof (frame_weight_node node (S next) children Hc) as Hw'.
    destruct (Z.eqb_spec c 0) as [->|Hc0]; [|destruct (c =? 1)].
    + eexists _, _, _. split; [done|]. split_and!.
      * split; [by rewrite length_insert|]. constructor; [|by apply frames_insert].
        destruct (lookup_lt_is_Some_2 edges child) as [cs Hcs]; [lia|]. split; [|exists cs; split; [done|simpl; lia]].
        simpl. by rewrite list_lookup_insert_eq by lia.
      * cbn [sum_list_with]. pose proof (white_enter 0 edges state child ltac:(lia) Hs) as Hwhite.
        assert (frame_weight 0 edges (child, 0%nat) = weight edges (child - 0)) as ->
          by (unfold frame_weight; cbn [fst snd]; lia).
        lia.
      * intros i. by apply insert_nonzero.
    + eexists _, _, _. split; [done|]. split_and!; [by split|cbn [sum_list_with]; lia|done].
    + eexists _, _, _. split; [done|]. split_and!; [by split|cbn [sum_list_with]; lia|done].
  - apply lookup_ge_None in Ech. eexists _, _, _. split; [done|]. split_and!.
    + split; [by rewrite length_insert|by apply frames_insert].
    + rewrite white_insert by done. replace next with (length children) in * by lia. lia.
    + intros i. by apply insert_nonzero.
Qed.

(** Where [Groups] goes on so does the doctor; where it stops the doctor reports a cycle. *)
Lemma cycle_step_dfs state stack : dfs_inv 0 edges state stack → stack ≠ [] →
  ∃ state' stack' found, cycle_step edges state stack = Some (state', stack', found) ∧
    match found with None => dfs_inv 0 edges state' stack' | Some _ => ¬ acyclic 0 edges end.
Proof.
  intros Hinv Hne. destruct stack as [|[node next] rest]; [done|].
  destruct (dfs_step_progress 0 edges Hwf _ _ Hinv Hne) as [(st & sk & Hs)|[Hs Hc]].
  - destruct (dfs_step_next 0 edges _ _ _ _ Hinv Hs) as [Hinv' _]. exists st, sk, None. split; [|done].
    revert Hs. cbn [dfs_step cycle_step]. rewrite Nat.sub_0_r.
    destruct (edges !! node) as [children|]; [|done]. destruct (Nat.eqb_spec next (length children)) as [->|Hn].
    + rewrite (lookup_ge_None_2 children (length children)) by lia. by intros [= <- <-].
    + destruct (children !! next) as [child|]; [|done]. destruct (state !! child) as [c|]; [|done].
      destruct (c =? 0); [by intros [= <- <-]|]. by destruct (c =? 1); intros [= <- <-].
  - revert Hs. cbn [dfs_step cycle_step]. rewrite Nat.sub_0_r.
    destruct (edges !! node) as [children|]; [|done]. destruct (Nat.eqb_spec next (length children)); [done|].
    destruct (children !! next) as [child|]; [|done]. destruct (state !! child) as [c|]; [|done].
    destruct (c =? 0); [done|]. destruct (c =? 1); [|done]. intros _. by eexists _, _, _.
Qed.

Lemma cycle_loop_spec fuel state stack : searching state stack → (potential state stack ≤ fuel)%nat →
  ∃ state' nodes, cycle_loop fuel edges state stack = Some (state', nodes) ∧ searching state' [] ∧
    (white state' ≤ potential state stack)%nat ∧ (∀ i, state !! i ≠ Some 0 → state' !! i ≠ Some 0) ∧
    (dfs_inv 0 edges state stack →
       (nodes = [] ∧ dfs_inv 0 edges state' []) ∨ (nodes ≠ [] ∧ ¬ acyclic 0 edges)).
Proof.
  revert state stack. induction fuel as [|fuel IH]; intros state stack Hs Hf;
    (destruct stack as [|f rest];
      [exists state, []; simpl; split_and!; [done|done|unfold Groups.potential; lia|done|by left]|]);
    destruct (cycle_step_spec state (f :: rest) Hs) as (st & sk & found & Hstep & Hs' & Hp & Hm); try done; [lia|].
  destruct (IH st sk Hs') as (st' & nodes & Hl & Hs'' & Hw & Hm' & Hinv); [lia|].
  cbn [cycle_loop]. rewrite Hstep, Hl. eexists _, _. split_and!; [done|done|lia|auto|].
  intros Hd. destruct (cycle_step_dfs state (f :: rest) Hd) as (st1 & sk1 & found1 & Hstep1 & H1); [done|].
  rewrite Hstep in Hstep1. injection Hstep1 as <- <- <-. destruct found; [by right|]. by apply Hinv.
Qed.

Lemma enter_root state root : searching state [] → state !! root = Some 0 → (root < length edges)%nat →
  searching (<[root:=1]> state) [(root, 0%nat)] ∧ potential (<[root:=1]> state) [(root, 0%nat)] = white state.
Proof.
  intros [Hlen _] H0 Hr. split.
  - split; [by rewrite length_insert|]. constructor; [|constructor]. simpl.
    rewrite list_lookup_insert_eq by lia. split; [done|].
    destruct (lookup_lt_is_Some_2 edges root) as [cs Hcs]; [lia|]. exists cs. split; [done|lia].
  - unfold Groups.potential. cbn [sum_list_with].
    pose proof (white_enter 0 edges state root ltac:(lia) H0).
    assert (frame_weight 0 edges (root, 0%nat) = weight edges (root - 0)) as ->
      by (unfold frame_weight; cbn [fst snd]; lia). lia.
Qed.

Lemma cycle_roots_spec fuel roots state : searching state [] → (white state ≤ fuel)%nat →
  Forall (λ r, (r < length edges)%nat) roots →
  ∃ nodes, cycle_roots fuel edges roots state = Some nodes ∧
    (dfs_inv 0 edges state [] →
       (nodes = [] ∧ ∃ state', dfs_inv 0 edges state' [] ∧ (∀ i, state !! i ≠ Some 0 → state' !! i ≠ Some 0) ∧
          Forall (λ r, state' !! r ≠ Some 0) roots)
       ∨ (nodes ≠ [] ∧ ¬ acyclic 0 edges)).
Proof.
  revert state. induction roots as [|root roots IH]; intros state Hs Hf Hr; cbn [cycle_roots].
  - exists []. split; [done|]. intros Hd. left. split; [done|]. by exists state.
  - inversion Hr as [|? ? Hroot Hr']; subst. destruct (lookup_lt_is_Some_2 state root) as [s Hst]; [rewrite (s_len _ _ Hs); lia|].
    rewrite Hst. destruct (Z.eqb_spec s 0) as [->|Hs0]; cbn [negb].
    + destruct (enter_root state root Hs Hst Hroot) as [Hs' Hp].
      destruct (cycle_loop_spec fuel _ _ Hs') as (st & nodes & -> & Hst' & Hw & Hm & Hd); [lia|].
      destruct (IH st Hst') as (more & -> & Hmore); [lia|done|]. exists (nodes ++ more). split; [done|].
      intros Hinv. destruct (dfs_enter_root 0 edges state root Hinv) as (Hinv' & _); [lia|congruence|].
      destruct (Hd Hinv') as [[-> Hi]|[Hn Hc]]; [|right; split; [by destruct nodes|done]].
      destruct (Hmore Hi) as [(-> & st' & Hi' & Hm' & Hall)|?]; [|by right]. left. split; [done|].
      exists st'. split_and!; [done| |constructor; [|done]].
      * intros i Hi0. apply Hm', Hm. by apply insert_nonzero.
      * apply Hm', Hm. rewrite list_lookup_insert_eq; [done|]. by apply lookup_lt_Some in Hst.
    + destruct (IH state Hs Hf Hr') as (more & -> & Hmore). exists more. split; [done|]. intros Hinv.
      destruct (Hmore Hinv) as [(-> & st' & Hi' & Hm' & Hall)|?]; [|by right]. left. split; [done|].
      exists st'. split_and!; [done|done|]. constructor; [|done]. apply Hm'. congruence.
Qed.

(** The search ends, and reports a group exactly when the graph has a cycle. *)
Lemma cycle_nodes_decides : ∃ nodes, cycle_nodes edges = Some nodes ∧ (nodes = [] ↔ acyclic 0 edges).
Proof.
  unfold cycle_nodes. set (init := replicate (length edges) 0).
  assert (searching init []) as Hs by (split; [apply length_replicate|constructor]).
  pose proof (white_bound 0 edges init) as Hw.
  destruct (cycle_roots_spec (dfs_fuel edges) (seq 0 (length edges)) init Hs) as (nodes & Hn & Hd).
  { unfold dfs_fuel. lia. }
  { apply Forall_forall. intros r Hr%elem_of_seq. lia. }
  exists nodes. split; [done|]. destruct (Hd (dfs_init_inv 0 edges)) as [(-> & st & Hi & _ & Hall)|[? ?]]; [|naive_solver].
  split; [|done]. intros _ i Ht. apply (acc_irrefl 0 edges i); [|done]. apply (inv_acc _ _ _ _ Hi).
  destruct (tc_first 0 edges i i Ht) as (j & (_ & ms & Hms & _) & _). rewrite Nat.sub_0_r in Hms.
  apply lookup_lt_Some in Hms. rewrite Forall_forall in Hall. specialize (Hall i). rewrite elem_of_seq in Hall.
  specialize (Hall ltac:(lia)). destruct (lookup_lt_is_Some_2 st i) as [c Hc]; [rewrite (inv_len _ _ _ _ Hi); simpl; lia|].
  unfold black. destruct (inv_colors _ _ _ _ Hi _ _ Hc) as [-> |[-> | ->]]; [done| |done].
  apply (inv_gray _ _ _ _ Hi) in Hc. simpl in Hc. by apply not_elem_of_nil in Hc.
Qed.

End Cycles.

End DoctorCycles.

(** * The doctor: it always reports, in plain templates, and finds exactly the cycles
      (src/src/config/diagnostics.rs) *)

Module DoctorFacts.
Import Diagnostics DiagnosticsFacts.

(** ** Templates *)

Definition plain (m : Message) : Prop := plain_template (template m) = true.

Lemma plain_when b m : plain m → Forall plain (when b m).
Proof. intros H. destruct b; [by constructor|constructor]. Qed.

Lemma plain_protocol kind t as_ : plain_template t = true → plain (error (protocol kind +:+ t) as_).
Proof.
  intros H. unfold plain, plain_template, error, protocol. cbn [template]. unfold lit. destruct (eq_str kind _); [exact H|].
  destruct (eq_str kind _); exact H.
Qed.

Lemma plain_protocol_warning kind t as_ : plain_template t = true → plain (warning (protocol kind +:+ t) as_).
Proof. exact (plain_protocol kind t as_). Qed.

Create HintDb plain.
#[local] Hint Extern 1 (plain (error (_ +:+ _) _)) => (apply plain_protocol; reflexivity) : plain.
#[local] Hint Extern 1 (plain (warning (_ +:+ _) _)) => (apply plain_protocol_warning; reflexivity) : plain.
#[local] Hint Extern 2 (plain _) => reflexivity : plain.
#[local] Hint Extern 1 (Forall plain (when _ _)) => apply plain_when : plain.
#[local] Hint Extern 1 (Forall plain (_ ++ _)) => (apply Forall_app; split) : plain.
#[local] Hint Extern 1 (Forall plain (_ :: _)) => (apply Forall_cons; split) : plain.
#[local] Hint Extern 1 (Forall plain []) => constructor : plain.
#[local] Hint Extern 3 (Forall plain (if ?b then _ else _)) => destruct b : plain.
#[local] Hint Extern 3 (Forall plain match ?b with _ => _ end) => destruct b : plain.
#[local] Hint Extern 3 (Forall plain (let '(_, _) := ?p in _)) => destruct p : plain.

Lemma plain_flat_map {A} (f : A → list Message) l : (∀ a, Forall plain (f a)) → Forall plain (flat_map f l).
Proof. intros H. induction l as [|a l IH]; [constructor|]. simpl. apply Forall_app. by split. Qed.

Lemma basic_plain doc : Forall plain (basic doc).
Proof. unfold basic. cbv zeta. repeat (apply Forall_app; split); try (apply plain_flat_map; intros a); auto with plain. Qed.

Lemma fields_plain runtime : Forall plain (check_fields runtime).
Proof. unfold check_fields. destruct (as_object runtime); [|constructor]. apply plain_flat_map. intros a. auto with plain. Qed.

Lemma name_plain c p name number : plain_template c = true → plain_template p = true → Forall plain (check_name c p name number).
Proof. intros Hc Hp. unfold check_name. destruct (existsb _ _); [by repeat constructor|by apply plain_when]. Qed.

#[local] Hint Extern 1 (Forall plain (check_name _ _ _ _)) => (apply name_plain; reflexivity) : plain.

Lemma protocol_plain proxy kind name : Forall plain (check_protocol proxy kind name).
Proof.
  unfold check_protocol, check_sni. cbv zeta. repeat (apply Forall_app; split); auto 10 with plain.
Qed.

#[local] Hint Resolve protocol_plain : plain.

Section Doctor.
Context `{IpNetLib}.
Context (url_parse : str → option (str * option str)) (server_name_ok : str → bool)
  (de_proxy : Value → option RawProxy) (de_group : Value → option RawGroup) (de_provider : Value → option Provider).

Abbreviation check_proxy := (check_proxy server_name_ok de_proxy).
Abbreviation proxy_messages := (proxy_messages server_name_ok de_proxy).
Abbreviation group_messages := (group_messages de_group).
Abbreviation provider_messages := (provider_messages url_parse de_provider).
Abbreviation validate_messages := (validate_messages url_parse server_name_ok de_proxy de_group de_provider).
Abbreviation validate := (validate url_parse server_name_ok de_proxy de_group de_provider).

Lemma proxy_plain proxy i d : Forall plain (check_proxy proxy i d).
Proof.
  unfold Diagnostics.check_proxy, check_build. cbv zeta. destruct (bool_decide _); [auto with plain|].
  repeat (apply Forall_app; split); auto 10 with plain.
Qed.

Lemma proxies_plain i ps names seen : Forall plain (snd (proxy_messages i ps names seen)).
Proof.
  revert i names seen. induction ps as [|p ps IH]; intros i names seen; [constructor|]. cbn [Diagnostics.proxy_messages]. cbv zeta.
  match goal with |- context [Diagnostics.proxy_messages _ _ ?i ps ?n ?s] => specialize (IH i n s);
    destruct (Diagnostics.proxy_messages _ _ i ps n s) as [[names' seen'] ms] end.
  apply Forall_app. split; [apply proxy_plain|exact IH].
Qed.

Lemma group_plain g i seen d : Forall plain (check_group de_group g i seen d).
Proof.
  unfold check_group. cbv zeta. destruct (bool_decide _); [auto with plain|].
  repeat (apply Forall_app; split); auto 10 with plain.
Qed.

Lemma groups_plain pc i gs names gn seen : Forall plain (snd (group_messages pc i gs names gn seen)).
Proof.
  revert i names gn. induction gs as [|g gs IH]; intros i names gn; [constructor|]. cbn [Diagnostics.group_messages]. cbv zeta.
  match goal with |- context [Diagnostics.group_messages _ _ ?i gs ?n ?s _] => specialize (IH i n s);
    destruct (Diagnostics.group_messages _ _ i gs n s _) as [[names' gn'] ms] end.
  apply Forall_app. split; [apply group_plain|exact IH].
Qed.

Lemma providers_plain ds ps names : Forall plain (snd (provider_messages ds ps names)).
Proof.
  revert ps. induction ds as [|[name value] ds IH]; intros ps; [constructor|]. cbn [Diagnostics.provider_messages]. cbv zeta.
  destruct (de_provider value) as [p|].
  - specialize (IH (binsert name p ps)). destruct (Diagnostics.provider_messages _ _ ds _ names) as [ps' ms].
    cbn [snd] in *. repeat (apply Forall_app; split); auto with plain.
  - specialize (IH ps). destruct (Diagnostics.provider_messages _ _ ds _ names) as [ps' ms].
    cbn [snd] in *. auto with plain.
Qed.

Lemma rule_plain source i names : Forall plain (check_rule source i names).
Proof.
  unfold check_rule, check_payload. cbv zeta. apply Forall_app. split; [auto with plain|].
  destruct (eq_str _ _); [auto with plain|]. apply Forall_app. split; [|auto with plain].
  destruct (one_of _ _); [|auto with plain]. apply plain_when. by destruct (eq_str _ _).
Qed.

Lemma numbered_plain {A} (f : nat → A → list Message) i l : (∀ i a, Forall plain (f i a)) → Forall plain (numbered f i l).
Proof. intros Hf. revert i. induction l as [|a l IH]; intros i; simpl; [constructor|]. apply Forall_app. by split. Qed.

Lemma member_plain name ms names gn : Forall plain (snd (member_edges name ms names gn)).
Proof.
  induction ms as [|m ms IH]; [constructor|]. simpl. destruct (member_edges name ms names gn) as [es rest].
  destruct (as_str m); simpl in *; auto with plain.
Qed.

Lemma edges_plain gs names gn : Forall plain (snd (edge_messages gs names gn)).
Proof.
  induction gs as [|g gs IH]; [constructor|]. simpl. pose proof (member_plain (text_of "name" g) (group_members g) names gn) as Hm.
  destruct (member_edges _ _ names gn) as [es rest]. destruct (edge_messages gs names gn). simpl in *. auto with plain.
Qed.

Lemma references_plain i rule ps names : Forall plain (check_references i rule ps names).
Proof. unfold check_references. destruct (as_str rule); [|constructor]. cbv zeta. auto with plain. Qed.

Lemma validate_plain original runtime ms : validate_messages original runtime = Some ms → Forall plain ms.
Proof.
  unfold Diagnostics.validate_messages. cbv zeta.
  match goal with |- context [Diagnostics.proxy_messages _ _ ?i ?ps ?n ?s] => pose proof (proxies_plain i ps n s) as H1;
    destruct (Diagnostics.proxy_messages _ _ i ps n s) as [[names seen] ms1] end.
  match goal with |- context [Diagnostics.group_messages _ ?pc ?i ?gs ?n ?g ?s] => pose proof (groups_plain pc i gs n g s) as H2;
    destruct (Diagnostics.group_messages _ pc i gs n g s) as [[names' gn] ms2] end.
  destruct (match as_object _ with Some declarations => _ | None => _ end) as [ps ms3] eqn:E3.
  assert (Forall plain ms3) as H3.
  { destruct (as_object _) as [ds|]; [|by simplify_eq]. pose proof (providers_plain ds [] names') as H3. by rewrite E3 in H3. }
  match goal with |- context [edge_messages ?gs ?n ?gn] => pose proof (edges_plain gs n gn) as H5;
    destruct (edge_messages gs n gn) as [edges ms5] end.
  unfold cycles. destruct (cycle_nodes edges) as [nodes|]; [|done]. intros [= <-]. cbn [snd] in *.
  apply Forall_app. split; [apply basic_plain|]. apply Forall_app. split; [apply fields_plain|].
  do 3 (apply Forall_app; split; [done|]). apply Forall_app. split.
  { apply numbered_plain. intros i a. unfold rule_messages. destruct (as_str a); [apply rule_plain|auto with plain]. }
  apply Forall_app. split; [done|]. apply Forall_app. split.
  { apply numbered_plain. intros i a. apply references_plain. }
  apply Forall_fmap, Forall_forall. intros n _. reflexivity.
Qed.

End Doctor.

End DoctorFacts.
