(* ===== verification/DoctorSound.v ===== *)
(** * What the doctor passes loads, part by part (src/src/config/diagnostics.rs: [validate])

    Each part the doctor has no error for succeeds when the configuration is loaded
    ([Config]): proxies build, names are valid and unique, groups resolve without cycles,
    providers are valid, rules refer to what exists, mode, log level and controller are
    accepted and every field is one loading knows. *)
From S2P Require Import Prelude Utf8 Net Target BTree Json Rules Groups Proxy Provider Config Diagnostics DoctorFacts.

Module DoctorSound.
Import Diagnostics DiagnosticsFacts DoctorFacts DoctorCycles.

(** ** Messages without an error *)

Definition quiet (ms : list Message) : Prop := existsb is_error ms = false.

Lemma quiet_app a b : quiet (a ++ b) ↔ quiet a ∧ quiet b.
Proof. unfold quiet. by rewrite existsb_app, orb_false_iff. Qed.

Lemma quiet_when b t as_ : quiet (when b (error t as_)) ↔ b = false.
Proof. by destruct b. Qed.

Lemma quiet_error t as_ ms : ¬ quiet (error t as_ :: ms).
Proof. done. Qed.

Lemma numbered_quiet {A} (f : nat → A → list Message) i l :
  quiet (numbered f i l) → Forall (λ a, ∃ i, quiet (f i a)) l.
Proof.
  revert i. induction l as [|a l IH]; intros i; simpl; [constructor|]. rewrite quiet_app. intros [Ha Hl].
  constructor; [by eexists|by eapply IH].
Qed.

Lemma check_name_quiet c p name number : quiet (check_name c p name number) → validate_name name = Ok tt.
Proof.
  unfold check_name. destruct (existsb _ _); [by intros ?%quiet_error|]. rewrite quiet_when.
  destruct (validate_name name) as [[]|]; [done|done].
Qed.

(** A list of errors is quiet only when it is empty. *)
Definition all_errors (ms : list Message) : Prop := Forall (λ m, is_error m = true) ms.

Lemma all_errors_quiet ms : all_errors ms → quiet ms → ms = [].
Proof. unfold quiet. destruct 1 as [|m ms Hm]; [done|]. simpl. by rewrite Hm. Qed.

Lemma all_errors_when b t as_ : all_errors (when b (error t as_)).
Proof. destruct b; by repeat constructor. Qed.

Lemma all_errors_app a b : all_errors (a ++ b) ↔ all_errors a ∧ all_errors b.
Proof. apply Forall_app. Qed.

Lemma protocol_errors proxy kind name : all_errors (check_protocol proxy kind name).
Proof.
  unfold check_protocol, check_sni. cbv zeta.
  repeat match goal with
  | |- all_errors (_ ++ _) => apply all_errors_app; split
  | |- all_errors (if ?b then _ else _) => destruct b
  | |- all_errors (match ?b with _ => _ end) => destruct b
  | |- all_errors (when _ _) => apply all_errors_when
  | |- all_errors _ => by repeat constructor
  end.
Qed.

(** ** Proxies *)

Lemma build_name ok p x : build ok p = Ok x → p_name x = rp_name p.
Proof.
  unfold build. destruct (is_some_and _ _); [done|]. destruct (_ && _); [done|].
  destruct (build_obfs p) as [o|]; [|done]. destruct (one_of (rp_kind p) ["direct"; "reject"]%string); [by intros [= <-]|].
  destruct (_ || _); [done|]. destruct (target_new _ _); [|done]. cbn [map_err].
  destruct (if eq_str (rp_kind p) (lit "ss") then build_ss p
            else if one_of (rp_kind p) ["trojan"; "anytls"]%string then build_tls ok p else Err unsupported_proxy); [|done].
  by intros [= <-].
Qed.

Definition reserved (name : str) : Prop := name = lit "DIRECT" ∨ name = lit "REJECT".

Section Sound.
Context `{IpNetLib}.
Context (url_parse : str → option (str * option str)) (server_name_ok : str → bool)
  (de_proxy : Value → option RawProxy) (de_group : Value → option RawGroup) (de_provider : Value → option Provider).

(** What the derived deserializers read from an object. *)
Hypothesis de_proxy_name : ∀ fields p, de_proxy (VObject fields) = Some p → rp_name p = text_of "name" (VObject fields).
Hypothesis de_group_fields : ∀ fields g, let v := VObject fields in de_group v = Some g →
  rg_name g = text_of "name" v ∧ rg_kind g = text_of "type" v ∧ group_members v = VString <$> rg_proxies g.

(** An entry with a name is an object. *)
Lemma named_object v : text_of "name" v ≠ [] → ∃ fields, v = VObject fields.
Proof. destruct v; try done. by eexists. Qed.

Lemma check_proxy_quiet v i d : quiet (check_proxy server_name_ok de_proxy v i d) →
  text_of "name" v ≠ [] ∧ d = false ∧ validate_name (text_of "name" v) = Ok tt ∧
  ∃ p x, de_proxy v = Some p ∧ build server_name_ok p = Ok x.
Proof.
  unfold check_proxy. cbv zeta. case_bool_decide; [by intros ?%quiet_error|]. rewrite !quiet_app, !quiet_when.
  intros (Hn%check_name_quiet & _ & Hd & _ & Hp & Hb). split_and!; [done|done|done|].
  unfold check_build in Hb. destruct (de_proxy v) as [p|]; [|by apply quiet_error in Hb].
  exists p. set (problems := if one_of _ _ then _ else _) in *.
  assert (problems = []) as Hnil.
  { apply all_errors_quiet; [|done]. unfold problems. destruct (one_of _ _); [apply protocol_errors|constructor]. }
  rewrite Hnil, bool_decide_eq_true_2 in Hb by done. cbn [negb] in Hb.
  destruct (build server_name_ok p) as [x|e]; [by exists x|by apply quiet_error in Hb].
Qed.

(** The names seen so far: the built-in ones and those in [seen]. *)
Definition known (l : list str) (seen : gset str) : Prop := ∀ n, n ∈ l ↔ reserved n ∨ n ∈ seen.

Lemma fresh_or_insert names l seen n : names_exact names l → known l seen → ¬ reserved n → n ∉ seen →
  names !! n = None ∧ or_insert n (length l) names = <[n := length l]> names.
Proof.
  intros Hx Hk Hr Hs. assert (names !! n = None) as E.
  { destruct (names !! n) as [i|] eqn:E; [|done]. apply Hx, list_elem_of_lookup_2 in E. apply Hk in E. tauto. }
  split; [done|]. unfold or_insert. by rewrite E.
Qed.

Lemma proxy_messages_quiet i vs names seen l names' seen' ms :
  proxy_messages server_name_ok de_proxy i vs names seen = (names', seen', ms) → quiet ms →
  names_exact names l → length l = (i + 2)%nat → known l seen → Forall (λ v, ¬ reserved (text_of "name" v)) vs →
  ∃ ps xs, Forall2 (λ v p, de_proxy v = Some p) vs ps ∧ Forall2 (λ p x, build server_name_ok p = Ok x) ps xs ∧
    name_proxies (i + 2) xs names = Ok names' ∧ known (l ++ (p_name <$> xs)) seen'.
Proof.
  revert i names seen l names' seen' ms. induction vs as [|v vs IH]; intros i names seen l names' seen' ms; cbn [proxy_messages].
  - intros [= <- <- <-] _ Hx Hl Hk _. exists [], []. split_and!; [constructor|constructor|done|]. by rewrite fmap_nil, app_nil_r.
  - cbv zeta. destruct (proxy_messages _ _ (S i) vs _ _) as [[names1 seen1] ms1] eqn:E.
    intros [= <- <- <-] [Hv Hms]%quiet_app Hx Hl Hk Hr. inversion Hr as [|? ? Hrv Hrvs]; subst.
    destruct (check_proxy_quiet _ _ _ Hv) as (Hne & Hd & Hname & p & x & Hp & Hb).
    rewrite (bool_decide_eq_false_2 (text_of "name" v = [])) in E, Hd by done. cbn [negb andb] in Hd.
    apply bool_decide_eq_false in Hd. pose proof (build_name _ _ _ Hb) as Hbn.
    assert (rp_name p = text_of "name" v) as Hpn by (destruct (named_object v Hne) as [fields ->]; by apply de_proxy_name).
    rewrite Hpn in Hbn.
    destruct (fresh_or_insert names l seen _ Hx Hk Hrv Hd) as [Hfresh Hins]. rewrite Hl in Hins. rewrite Hins in E.
    destruct (IH _ _ _ (l ++ [text_of "name" v]) _ _ _ E Hms) as (ps & xs & H1 & H2 & H3 & H4).
    + rewrite <- Hl. by apply names_exact_snoc.
    + rewrite length_app. simpl. lia.
    + intros n. rewrite elem_of_app, list_elem_of_singleton, (Hk n), elem_of_union, elem_of_singleton. tauto.
    + done.
    + exists (p :: ps), (x :: xs). split_and!; [by constructor..| |].
      * cbn [name_proxies]. rewrite Hbn, Hname, Hfresh. exact H3.
      * rewrite <- app_assoc in H4. by rewrite fmap_cons, Hbn.
Qed.

(** ** Groups *)

(** A group as it was read. *)
Definition read_group (v : Value) (g : RawGroup) : Prop := de_group v = Some g ∧
  rg_name g = text_of "name" v ∧ rg_kind g = text_of "type" v ∧ group_members v = VString <$> rg_proxies g.

Lemma check_group_quiet v i seen d : quiet (check_group de_group v i seen d) →
  (text_of "name" v ∉ seen) ∧ d = false ∧ validate_name (text_of "name" v) = Ok tt ∧
  ∃ g, read_group v g ∧ rg_proxies g ≠ [].
Proof.
  unfold check_group. cbv zeta. case_bool_decide as Hne; [by intros ?%quiet_error|]. rewrite !quiet_app, !quiet_when.
  intros (Hn%check_name_quiet & Hs%bool_decide_eq_false & Hd & Hm%bool_decide_eq_false & Hg).
  split_and!; [done|done|done|]. destruct (de_group v) as [g|] eqn:E; [|done]. exists g.
  assert (read_group v g) as Hg' by (split; [done|]; destruct (named_object v Hne) as [fields ->]; by apply de_group_fields).
  split; [done|]. destruct Hg' as (_ & _ & _ & Hp). intros Hnil. apply Hm. by rewrite Hp, Hnil.
Qed.

(** [group_names] holds the groups of the list of names, by their position after [pc]. *)
Definition positions (pc : nat) (l : list str) (group_names : gmap str nat) : Prop :=
  ∀ n j, group_names !! n = Some j ↔ (l !! (pc + j)%nat = Some n).

Lemma positions_snoc pc l gn n : positions pc l gn → (pc ≤ length l)%nat → n ∉ l →
  positions pc (l ++ [n]) (<[n := (length l - pc)%nat]> gn).
Proof.
  intros Hp Hl Hn m j. rewrite lookup_insert. case_decide as Hd.
  - subst m. rewrite lookup_app_Some, list_lookup_singleton_Some. split.
    + intros [= <-]. right. split; [lia|]. split; [lia|done].
    + intros [Hi|(? & ? & _)]; [by apply list_elem_of_lookup_2 in Hi|]. f_equal. lia.
  - rewrite (Hp m j), lookup_app_Some, list_lookup_singleton_Some. naive_solver.
Qed.

Lemma group_messages_quiet pc i vs names gn seen l names' gn' ms :
  group_messages de_group pc i vs names gn seen = (names', gn', ms) → quiet ms →
  names_exact names l → length l = (pc + i + 2)%nat → positions (pc + 2) l gn →
  (∀ n, n ∈ l → reserved n ∨ n ∈ seen ∨ is_Some (gn !! n)) →
  Forall (λ v, ¬ reserved (text_of "name" v) ∧ text_of "type" v = lit "select") vs →
  ∃ gs, Forall2 read_group vs gs ∧ name_groups (pc + i + 2) gs names = Ok names' ∧
    positions (pc + 2) (l ++ (rg_name <$> gs)) gn'.
Proof.
  revert i names gn l names' gn' ms. induction vs as [|v vs IH]; intros i names gn l names' gn' ms; cbn [group_messages].
  - intros [= <- <- <-] _ Hx Hl Hp _ _. exists []. split_and!; [constructor|done|]. by rewrite fmap_nil, app_nil_r.
  - cbv zeta. destruct (group_messages _ pc (S i) vs _ _ _) as [[names1 gn1] ms1] eqn:E.
    intros [= <- <- <-] [Hv Hms]%quiet_app Hx Hl Hp Hk Hr. inversion Hr as [|? ? [Hrv Hsel] Hrvs]; subst.
    destruct (check_group_quiet _ _ _ _ Hv) as (Hns & Hd & Hname & g & Hg & Hne).
    destruct Hg as (Hdg & Hgn & Hgk & Hgm). set (n := text_of "name" v) in *.
    assert (n ∉ l) as Hnl.
    { intros Hin. destruct (Hk n Hin) as [?|[?|[j Hj]]]; [done|done|]. by rewrite Hj in Hd. }
    assert (names !! n = None) as Hfresh.
    { destruct (names !! n) as [j|] eqn:Ej; [|done]. apply Hx, list_elem_of_lookup_2 in Ej. done. }
    assert (or_insert n (pc + i + 2) names = <[n := (pc + i + 2)%nat]> names) as Hins
      by (unfold or_insert; by rewrite Hfresh). rewrite Hins in E.
    destruct (IH _ _ _ (l ++ [n]) _ _ _ E Hms) as (gs & H1 & H2 & H3).
    + rewrite <- Hl. by apply names_exact_snoc.
    + rewrite length_app. simpl. lia.
    + replace i with (length l - (pc + 2))%nat by lia. apply positions_snoc; [done|lia|done].
    + intros m. rewrite elem_of_app, list_elem_of_singleton. intros [Hm|Hm].
      * destruct (Hk m Hm) as [?|[?|[j Hj]]]; [by left|by right; left|]. right. right.
        destruct (decide (m = n)) as [->|Hmn]; [by rewrite Hj in Hd|]. rewrite lookup_insert_ne by done. by exists j.
      * right. right. rewrite Hm, lookup_insert_eq. by eexists.
    + done.
    + exists (g :: gs). split_and!; [by constructor| |].
      * cbn [name_groups]. rewrite Hgn, Hname, Hgk, Hsel, eq_str_refl, (bool_decide_eq_false_2 (rg_proxies g = [])), Hfresh by done.
        replace (S (pc + i + 2)) with (pc + S i + 2)%nat by lia. exact H2.
      * rewrite <- app_assoc in H3. by rewrite fmap_cons, Hgn.
Qed.

(** ** Edges *)

(** The members that are groups, counted from the first group. *)
Definition group_edges (pc : nat) (ids : list nat) : list nat :=
  omap (λ j, if (pc <=? j)%nat then Some (j - pc)%nat else None) ids.

Lemma member_edges_quiet pc l names gn name members es ms :
  names_exact names l → positions pc l gn →
  member_edges name (VString <$> members) names gn = (es, ms) → quiet ms →
  ∃ ids, resolve_members names members = Ok ids ∧ es = group_edges pc ids.
Proof.
  intros Hx Hp. revert es ms. induction members as [|m members IH]; intros es ms.
  - intros [= <- <-] _. by exists [].
  - rewrite fmap_cons. cbn [member_edges as_str resolve_members]. destruct (member_edges name (VString <$> members) names gn) as [es1 ms1]. intros [= <- <-].
    rewrite quiet_app, quiet_when. intros [Hm Hms]. destruct (names !! m) as [j|] eqn:Ej; [|done].
    destruct (IH _ _ eq_refl Hms) as (ids & -> & ->). exists (j :: ids). split; [done|].
    unfold group_edges. simpl. apply Hx in Ej. destruct (Nat.leb_spec pc j) as [Hle|Hlt].
    + rewrite (proj2 (Hp m (j - pc)%nat)); [done|]. by replace (pc + (j - pc))%nat with j by lia.
    + destruct (gn !! m) as [c|] eqn:Ec; [|done]. apply Hp in Ec. exfalso.
      pose proof (names_exact_nodup _ _ Hx) as Hnd. pose proof (NoDup_lookup _ _ _ _ Hnd Ej Ec). lia.
Qed.

Lemma edge_messages_quiet pc l names gn vs gs edges ms :
  names_exact names l → positions pc l gn → Forall2 read_group vs gs →
  edge_messages vs names gn = (edges, ms) → quiet ms →
  ∃ all, resolve_edges names gs = Ok all ∧ edges = group_edges pc <$> all.
Proof.
  intros Hx Hp Hf. revert edges ms. induction Hf as [|v g vs gs Hg _ IH]; intros edges ms; simpl.
  - intros [= <- <-] _. by exists [].
  - destruct Hg as (_ & _ & _ & Hm). rewrite Hm.
    destruct (member_edges _ _ names gn) as [es ms1] eqn:E1. destruct (edge_messages vs names gn) as [edges1 ms2].
    intros [= <- <-]. rewrite quiet_app. intros [H1 H2].
    destruct (member_edges_quiet _ _ _ _ _ _ _ _ Hx Hp E1 H1) as (ids & -> & ->).
    destruct (IH _ _ eq_refl H2) as (all & -> & ->). by exists (ids :: all).
Qed.

(** A cycle among all edges is one among those between groups. *)
Lemma group_edges_edge pc all i j : edge pc all i j → (pc ≤ j)%nat →
  edge 0 (group_edges pc <$> all) (i - pc)%nat (j - pc)%nat.
Proof.
  intros (Hi & ms & Hms & Hj) Hle. split; [lia|]. exists (group_edges pc ms). split.
  - by rewrite Nat.sub_0_r, list_lookup_fmap, Hms.
  - unfold group_edges. apply list_elem_of_omap. exists j. split; [done|]. by rewrite (proj2 (Nat.leb_le pc j)).
Qed.

Lemma group_edges_tc pc all i k : tc (edge pc all) i k → (pc ≤ k)%nat →
  tc (edge 0 (group_edges pc <$> all)) (i - pc)%nat (k - pc)%nat.
Proof.
  intros Ht Hk. induction Ht as [i k He|i j k He Ht IH].
  - apply tc_once. by apply group_edges_edge.
  - eapply tc_l; [|by apply IH]. apply group_edges_edge; [done|]. by destruct (tc_first _ _ _ _ Ht) as (? & [? _] & _).
Qed.

Lemma group_edges_acyclic pc all : acyclic 0 (group_edges pc <$> all) → acyclic pc all.
Proof.
  intros Ha i Ht. apply (Ha (i - pc)%nat). apply group_edges_tc; [done|].
  by destruct (tc_first _ _ _ _ Ht) as (? & [? _] & _).
Qed.

Lemma group_edges_wf pc all : edges_wf pc all → edges_wf 0 (group_edges pc <$> all).
Proof.
  unfold edges_wf. rewrite length_fmap. intros Hw. apply Forall_fmap. eapply Forall_impl; [exact Hw|].
  intros ms Hms. simpl. apply Forall_forall. intros j Hj. unfold group_edges in Hj.
  apply list_elem_of_omap in Hj as (k & Hk & Hj). rewrite Forall_forall in Hms. specialize (Hms k Hk).
  destruct (Nat.leb_spec pc k); simplify_eq. lia.
Qed.

Lemma cycles_quiet edges vs ms : edges_wf 0 edges → cycles edges vs = Some ms → quiet ms → acyclic 0 edges.
Proof.
  intros Hw. unfold cycles. destruct (cycle_nodes_decides edges Hw) as (nodes & -> & Hn). intros [= <-] Hq.
  apply Hn. by destruct nodes.
Qed.

(** Declared groups that the doctor has no error for resolve. *)
Lemma groups_resolve names names' l gs all pc :
  names_exact names l → length l = pc → name_groups pc gs names = Ok names' → resolve_edges names' gs = Ok all →
  acyclic 0 (group_edges pc <$> all) → ∃ groups, resolve_groups gs names pc = Some (Ok (groups, names')).
Proof.
  intros Hx Hl Hn He Ha. subst pc.
  destruct (resolve_groups_spec gs names (length l)) as (r & Hr & H1); [by apply names_exact_below|].
  rewrite Hn, He in H1. destruct H1 as [(groups & -> & _)|[_ Hc]]; [by exists groups|].
  destruct Hc. by apply group_edges_acyclic.
Qed.

(** ** Rule providers *)

Definition provider_ok (kv : str * Provider) : Prop := validate_provider url_parse (fst kv) (snd kv) = Ok tt.

(** The declarations that were read, later ones of a name in place of earlier ones. *)
Definition providers_of (ds : list (str * Provider)) (ps : bmap Provider) : bmap Provider :=
  foldl (λ m kv, binsert (fst kv) (snd kv) m) ps ds.

Definition declares (kv : str * Value) (kp : str * Provider) : Prop :=
  fst kv = fst kp ∧ de_provider (snd kv) = Some (snd kp) ∧ provider_ok kp.

Lemma provider_messages_quiet ds ps names ps' ms :
  provider_messages url_parse de_provider ds ps names = (ps', ms) → quiet ms →
  ∃ ds', Forall2 declares ds ds' ∧ ps' = providers_of ds' ps.
Proof.
  revert ps ps' ms. induction ds as [|[name v] ds IH]; intros ps ps' ms; cbn [provider_messages].
  - intros [= <- <-] _. by exists [].
  - cbv zeta. destruct (de_provider v) as [p|] eqn:Ep.
    + destruct (provider_messages _ _ ds _ names) as [ps1 ms1] eqn:E. intros [= <- <-].
      rewrite !quiet_app. intros (_ & Hv & Hms). destruct (IH _ _ _ E Hms) as (ds' & Hd & ->).
      exists ((name, p) :: ds'). split; [|done]. constructor; [|done]. split_and!; [done|done|].
      unfold provider_ok. cbn [fst snd]. revert Hv. unfold validate_rule_declarations, Provider.validate. simpl.
      destruct (validate_provider url_parse name p) as [[]|]; [done|by intros ?%quiet_error].
    + destruct (provider_messages _ _ ds _ names) as [ps1 ms1]. intros [= <- <-]. rewrite !quiet_app.
      intros [_ Hq]. by apply quiet_error in Hq.
Qed.

(** ** Rules *)

(** A rule that loading accepts: it parses, or refers to a declared provider and a known
    target. *)
Definition loadable (providers : bmap Provider) (names : gmap str nat) (source : str) : Prop :=
  if is_rule_set (rule_fields source) then
    ∃ provider target flag, rule_set (rule_fields source) = Ok (provider, target, flag) ∧
      bcontains provider providers = true ∧ is_Some (names !! target)
  else ∃ r, rule_parse source names = Ok r.

(** Matchers fail with messages of their own. *)
Definition own_error {A} (r : res A) : Prop := ∀ e, r = Err e → e ≠ unknown_target.

Lemma domain_own kind p : own_error (domain_matcher kind p).
Proof.
  intros e. unfold domain_matcher. destruct (negb _); [destruct (target_new p 1)|]; cbn [map_err];
    try (destruct (_ || _)); by intros [= <-].
Qed.

Lemma ip_own kind p b : own_error (ip_matcher kind p b).
Proof. intros e. unfold ip_matcher. destruct (ipnet_parse p); [|by intros [= <-]]. simpl. destruct (negb _); by intros [= <-]. Qed.

Lemma source_ip_own p : own_error (source_ip_matcher p).
Proof. intros e. unfold source_ip_matcher. destruct (ipnet_parse p); [|by intros [= <-]]. simpl. destruct (negb _); by intros [= <-]. Qed.

Lemma parse_port_own p : own_error (parse_port p).
Proof.
  intros e. unfold parse_port. destruct (_ || _); [by intros [= <-]|]. destruct (parse_uint _ _) as [n|]; simpl; [|by intros [= <-]].
  destruct (n =? 0); by intros [= <-].
Qed.

Lemma port_own kind p : own_error (port_matcher kind p).
Proof.
  intros e. unfold port_matcher. destruct (default _ _) as [first last].
  pose proof (parse_port_own first) as H1. destruct (parse_port first); [|intros [= <-]; by apply H1].
  pose proof (parse_port_own last) as H2. destruct (parse_port last); [|intros [= <-]; by apply H2].
  simpl. destruct (_ <? _); by intros [= <-].
Qed.

(** The name of a rule's target is where the doctor looks for it. *)
Definition target_of (fields : list str) : option str :=
  fields !! (if eq_str (default [] (fields !! 0%nat)) (lit "MATCH") then 1 else 2)%nat.

Definition named_target (fields : list str) (r : res (Matcher * str)) : Prop :=
  match r with Ok (_, name) => target_of fields = Some name | Err e => e ≠ unknown_target end.

Lemma named_target_bind fields (r : res Matcher) name : own_error r → target_of fields = Some name →
  named_target fields (let! m := r in Ok (m, name)).
Proof. intros Hr Ht. destruct r as [m|e]; [exact Ht|by apply Hr]. Qed.

Lemma rule_matcher_target fields : named_target fields (rule_matcher fields).
Proof.
  destruct fields as [|kind [|payload [|name [|option [|x fields]]]]]; try done.
  - cbn [rule_matcher]. destruct (eq_str kind (lit "MATCH")) eqn:E; [|done].
    unfold named_target, target_of. simpl. by rewrite E.
  - destruct (eq_str kind (lit "MATCH")) eqn:E; [by apply eq_str_true in E as ->|].
    assert (target_of [kind; payload; name] = Some name) as Ht by (unfold target_of; simpl; by rewrite E).
    cbn [rule_matcher].
    destruct (one_of kind ["DOMAIN"; "DOMAIN-SUFFIX"; "DOMAIN-KEYWORD"]%string);
      [apply named_target_bind; [apply domain_own|done]|].
    destruct (one_of kind ["IP-CIDR"; "IP-CIDR6"]%string); [apply named_target_bind; [apply ip_own|done]|].
    destruct (eq_str kind (lit "SRC-IP-CIDR")); [apply named_target_bind; [apply source_ip_own|done]|].
    destruct (eq_str kind (lit "PROCESS-NAME") && _); [done|]. destruct (eq_str kind (lit "GEOIP") && _); [done|].
    destruct (one_of kind ["DST-PORT"; "SRC-PORT"]%string); [apply named_target_bind; [apply port_own|done]|done].
  - destruct (eq_str kind (lit "MATCH")) eqn:E.
    { apply eq_str_true in E as ->. cbn [rule_matcher]. by destruct (negb _). }
    assert (target_of [kind; payload; name; option] = Some name) as Ht by (unfold target_of; simpl; by rewrite E).
    cbn [rule_matcher]. destruct (negb _); [done|].
    destruct (one_of kind ["IP-CIDR"; "IP-CIDR6"]%string); [apply named_target_bind; [apply ip_own|done]|].
    by destruct (eq_str kind (lit "GEOIP") && _).
Qed.

Lemma rule_quiet source i j providers names :
  quiet (check_rule source i names) → quiet (check_references j (VString source) providers names) →
  loadable providers names source.
Proof.
  unfold check_rule, check_references, loadable. cbv zeta. cbn [as_str]. rewrite !quiet_app, quiet_when.
  set (fields := rule_fields source). fold (target_of fields). set (kind := default [] (fields !! 0%nat)).
  intros [He Hq] [Hprov Ht].
  assert (is_rule_set fields = eq_str kind (lit "RULE-SET")) as ->.
  { unfold is_rule_set, kind. by destruct fields. }
  destruct (eq_str kind (lit "RULE-SET")) eqn:Ek.
  - rewrite quiet_app, !quiet_when in Hq. destruct Hq as [_ Hset].
    destruct (rule_set fields) as [[[provider target] flag]|] eqn:Es; [|done]. exists provider, target, flag.
    apply eq_str_true in Ek. unfold target_of in Ht. fold kind in Ht. rewrite Ek in Ht.
    assert (∃ k rest, fields = k :: provider :: target :: rest) as (k & rest & Hf).
    { unfold rule_set in Es. destruct fields as [|k [|x [|y [|o [|? ?]]]]]; try done; [by simplify_eq; eexists _, _|].
      destruct (eq_str o _); [|done]. simplify_eq. by eexists _, _. }
    rewrite Hf in Hprov, Ht. unfold kind in Ek. rewrite Hf in Ek. simpl in Ek. subst k.
    change (eq_str (lit "RULE-SET") (lit "MATCH")) with false in Ht. cbn in Ht. rewrite quiet_when in Ht, Hprov.
    apply negb_false_iff in Ht. split_and!; [done|by apply negb_false_iff in Hprov|].
    destruct (names !! target); [by eexists|done].
  - rewrite quiet_app in Hq. destruct Hq as [Hpay Hrule]. unfold rule_parse in Hrule |- *. cbv zeta in Hrule |- *. fold fields in Hrule |- *.
    assert (check_payload kind (default [] (fields !! 1%nat)) (show_nat i) = []) as Hnil.
    { apply all_errors_quiet; [|done]. unfold check_payload.
      repeat (destruct (one_of _ _); [apply all_errors_when|]). constructor. }
    rewrite Hnil, He in Hrule. rewrite (bool_decide_eq_true_2 ([] = [])) in Hrule by done. cbn [negb andb] in Hrule.
    pose proof (rule_matcher_target fields) as Hm. destruct (rule_matcher fields) as [[m name]|e].
    + cbn [named_target] in Hm. rewrite Hm in Ht. rewrite quiet_when in Ht. apply negb_false_iff in Ht.
      destruct (names !! name) as [p|]; [|done]. by eexists.
    + rewrite quiet_when in Hrule. apply negb_false_iff, bool_decide_eq_true in Hrule. by destruct Hm.
Qed.

(** ** The whole document *)

(** What the capability gate ([Override.materializable]) and the limits of collections
    establish before the doctor runs. *)
Record gated (d : Value) : Prop := {
  gated_proxies : Forall (λ v, ¬ reserved (text_of "name" v)) (items "proxies" d);
  gated_groups : Forall (λ v, ¬ reserved (text_of "name" v) ∧ text_of "type" v = lit "select") (items "proxy-groups" d);
  gated_proxy_count : len (items "proxies" d) ≤ MAX_PROXIES;
  gated_group_count : len (items "proxy-groups" d) ≤ MAX_GROUPS;
}.

Lemma build_entries_proxies ps xs acc gs : Forall2 (λ p x, build server_name_ok p = Ok x) ps xs →
  len acc + len ps ≤ MAX_PROXIES + 2 →
  build_entries server_name_ok (EntryProxy <$> ps) acc gs = Ok (acc ++ xs, gs).
Proof.
  intros Hf. revert acc. induction Hf as [|p x ps xs Hp _ IH]; intros acc Hl.
  - by rewrite fmap_nil, app_nil_r.
  - rewrite len_cons in Hl. pose proof (len_nonneg ps). rewrite fmap_cons. cbn [build_entries].
    rewrite (proj2 (Z.eqb_neq _ _)), Hp by lia. cbn. rewrite IH; [by rewrite <- app_assoc|].
    rewrite len_app. change (len [x]) with 1. lia.
Qed.

Definition builtin_names : gmap str nat := {[ lit "DIRECT" := 0%nat; lit "REJECT" := 1%nat ]}.

Lemma name_builtin xs : name_proxies 0 (builtin_proxies ++ xs) ∅ = name_proxies 2 xs builtin_names.
Proof.
  unfold builtin_proxies. cbn [app name_proxies p_name].
  change (validate_name (lit "DIRECT")) with (Ok (E:=string) tt). change (validate_name (lit "REJECT")) with (Ok (E:=string) tt).
  cbn. rewrite lookup_insert_ne by done. rewrite lookup_empty. cbn. f_equal.
Qed.

Lemma builtin_exact : names_exact builtin_names [lit "DIRECT"; lit "REJECT"].
Proof.
  assert (builtin_names = <[lit "REJECT" := 1%nat]> {[lit "DIRECT" := 0%nat]}) as ->
    by (apply map_eq; intros k; unfold builtin_names; rewrite !lookup_insert, !lookup_singleton; repeat case_decide; by subst).
  apply (names_exact_snoc _ [lit "DIRECT"]).
  - intros n i. rewrite lookup_singleton_Some, list_lookup_singleton_Some. naive_solver.
  - by rewrite lookup_singleton_ne.
Qed.

Lemma rules_loadable providers names rules :
  quiet (numbered (λ i rule, rule_messages i rule names) 0 rules) →
  quiet (numbered (λ i rule, check_references i rule providers names) 0 rules) →
  Forall (λ v, ∃ source, v = VString source ∧ loadable providers names source) rules.
Proof.
  intros H1%numbered_quiet H2%numbered_quiet. apply Forall_forall. intros v Hv.
  rewrite Forall_forall in H1, H2. destruct (H1 v Hv) as [i Hi]. destruct (H2 v Hv) as [j Hj].
  unfold rule_messages in Hi. destruct v as [| | |source| |]; try (by apply quiet_error in Hi).
  exists source. split; [done|]. exact (rule_quiet _ _ _ _ _ Hi Hj).
Qed.

(** *** The search for cycles never leaves the edges *)

Lemma group_messages_below pc i vs names gn seen names' gn' ms :
  group_messages de_group pc i vs names gn seen = (names', gn', ms) →
  (∀ n j, gn !! n = Some j → (j < i)%nat) → ∀ n j, gn' !! n = Some j → (j < i + length vs)%nat.
Proof.
  revert i names gn names' gn' ms. induction vs as [|v vs IH]; intros i names gn names' gn' ms; cbn [group_messages].
  - intros [= <- <- <-] Hb n j Hj. apply Hb in Hj. simpl. lia.
  - cbv zeta. destruct (group_messages _ pc (S i) vs _ _ _) as [[names1 gn1] ms1] eqn:E.
    intros [= <- <- <-] Hb n j Hj. simpl. rewrite Nat.add_succ_r. eapply (IH (S i)); [exact E| |exact Hj].
    intros m k. rewrite lookup_insert. case_decide; [intros [= <-]; lia|]. intros Hk%Hb. lia.
Qed.

Lemma edge_messages_wf vs names gn edges ms n :
  edge_messages vs names gn = (edges, ms) → (∀ m j, gn !! m = Some j → (j < n)%nat) →
  length edges = length vs ∧ Forall (Forall (λ j, (j < n)%nat)) edges.
Proof.
  intros He Hb. revert edges ms He. induction vs as [|v vs IH]; intros edges ms; cbn [edge_messages].
  - intros [= <- <-]. split; [done|constructor].
  - destruct (member_edges _ _ names gn) as [es ms1] eqn:E1. destruct (edge_messages vs names gn) as [edges1 ms2].
    intros [= <- <-]. destruct (IH _ _ eq_refl) as [Hl Hf]. split; [simpl; lia|]. constructor; [|done].
    clear -E1 Hb. revert es ms1 E1. induction (group_members v) as [|m members IHm]; intros es ms1; cbn [member_edges].
    + intros [= <- <-]. constructor.
    + destruct (member_edges _ members names gn) as [es1 ms1']. specialize (IHm _ _ eq_refl).
      destruct (as_str m) as [s|]; [|by intros [= <- <-]]. intros [= <- <-].
      destruct (gn !! s) as [c|] eqn:Ec; [|done]. constructor; [by eapply Hb|done].
Qed.

Abbreviation validate_messages := (validate_messages url_parse server_name_ok de_proxy de_group de_provider).
Abbreviation validate := (validate url_parse server_name_ok de_proxy de_group de_provider).

Lemma validate_total original runtime : ∃ ms, validate_messages original runtime = Some ms.
Proof.
  unfold Diagnostics.validate_messages. cbv zeta.
  destruct (proxy_messages _ _ _ _ _ _) as [[names seen] ms1].
  destruct (group_messages _ _ _ _ _ _ _) as [[names' gn] ms2] eqn:E2.
  destruct (match as_object _ with Some declarations => _ | None => _ end) as [ps ms3].
  destruct (edge_messages _ _ _) as [edges ms5] eqn:E5.
  pose proof (group_messages_below _ _ _ _ _ _ _ _ _ E2) as Hb.
  destruct (edge_messages_wf _ _ _ _ _ (length (items "proxy-groups" runtime)) E5) as [Hl Hf].
  { intros m j Hj. apply (Hb (λ n j (Hn : (∅ : gmap str nat) !! n = Some j), ltac:(by rewrite lookup_empty in Hn)) m j Hj). }
  unfold cycles. destruct (cycle_nodes_decides edges) as (nodes & -> & _); [|by eexists].
  unfold edges_wf. by rewrite Hl.
Qed.

(** *** Settings *)

(** The scalar settings of a document are accepted by the checks of loading. *)
Definition settings_accepted (d : Value) : Prop := ∀ raw,
  rc_mode raw = as_str (index "mode" d) → rc_log_level raw = as_str (index "log-level" d) →
  rc_external_controller raw = as_str (index "external-controller" d) →
  check_mode raw = Ok tt ∧ check_log_level raw = Ok tt ∧ is_ok (parse_controller raw) = true.

(** The fields of [RawConfig]. *)
Definition raw_fields : list str := lit <$>
  ["proxies"; "proxy-groups"; "rules"; "rule-providers"; "allow-lan"; "bind-address"; "mixed-port"; "port"; "socks-port";
   "mode"; "log-level"; "external-controller"; "secret"]%string.

Definition fields_known (d : Value) : Prop := ∀ m k v, d = VObject m → (k, v) ∈ m → k ∈ raw_fields.

Lemma one_of_weaken s l l' : one_of s l = true → l ⊆ l' → one_of s l' = true.
Proof.
  unfold one_of. rewrite !existsb_exists. intros (x & Hx & E) Hl. exists x. split; [|done].
  by apply list_elem_of_In, Hl, list_elem_of_In.
Qed.

Lemma basic_quiet d : quiet (basic d) → settings_accepted d.
Proof.
  unfold basic. cbv zeta. rewrite !quiet_app. intros (Hm & Hl & _ & _ & Hc & _) raw E1 E2 E3.
  unfold check_mode, check_log_level, parse_controller. rewrite E1, E2, E3. split_and!.
  - destruct (as_str (index "mode" d)) as [mode|]; [|done]. rewrite quiet_when in Hm. cbn [is_some_and]. by rewrite Hm.
  - destruct (as_str (index "log-level" d)) as [level|]; [|done]. rewrite quiet_when, negb_false_iff in Hl. cbn [is_some_and].
    assert (one_of level ["silent"; "error"; "warning"; "info"; "debug"]%string = true) as ->; [|done].
    eapply one_of_weaken; [exact Hl|set_solver].
  - destruct (as_str (index "external-controller" d)) as [endpoint|]; [|done]. rewrite quiet_when, negb_false_iff in Hc.
    by destruct (parse_controller_endpoint endpoint).
Qed.

Lemma flat_map_quiet {A} (f : A → list Message) l a : quiet (flat_map f l) → a ∈ l → quiet (f a).
Proof.
  induction l as [|x l IH]; [by intros _ ?%not_elem_of_nil|]. simpl. rewrite quiet_app.
  intros [Hx Hl] [->|Ha]%elem_of_cons; [done|by apply IH].
Qed.

Lemma check_fields_quiet d : quiet (check_fields d) → fields_known d.
Proof.
  intros Hq m k v -> Hin. unfold check_fields in Hq. cbn [as_object] in Hq.
  assert (k ∈ keys m) as Hk by (change k with (fst (k, v)); by apply list_elem_of_fmap_2).
  pose proof (flat_map_quiet _ _ _ Hq Hk) as Hf. cbv beta in Hf. rewrite quiet_when, negb_false_iff in Hf.
  unfold one_of in Hf. apply existsb_exists in Hf as (x & Hx & ->%eq_str_true).
  by apply list_elem_of_fmap_2, list_elem_of_In.
Qed.

(** What loading makes of a document without errors. *)
Record loads (d : Value) (ps : list RawProxy) (gs : list RawGroup) (providers : list (str * Provider))
    (proxies : list Proxy) (groups : list Group) (names : gmap str nat) : Prop := {
  loads_proxies : Forall2 (λ v p, de_proxy v = Some p) (items "proxies" d) ps;
  loads_groups : Forall2 (λ v g, de_group v = Some g) (items "proxy-groups" d) gs;
  loads_providers : Forall2 declares (default [] (as_object (index "rule-providers" d))) providers;
  loads_nodes : ∀ raw, rc_proxies raw = EntryProxy <$> ps → rc_proxy_groups raw = gs →
    ∃ names0, parse_proxies server_name_ok raw = Ok (proxies, gs, names0) ∧
      resolve_groups gs names0 (length proxies) = Some (Ok (groups, names));
  loads_rules : Forall (λ v, ∃ source, v = VString source ∧ loadable (providers_of providers []) names source) (items "rules" d);
}.

Lemma validate_sound original d ms : gated d → validate_messages original d = Some ms → quiet ms →
  settings_accepted original ∧ fields_known d ∧
  ∃ ps gs providers proxies groups names, loads d ps gs providers proxies groups names.
Proof.
  intros [Hgp Hgg Hcp Hcg]. unfold Diagnostics.validate_messages. cbv zeta.
  destruct (proxy_messages _ _ _ _ _ _) as [[names0 seen] ms1] eqn:E1.
  destruct (group_messages _ _ _ _ _ _ _) as [[names gn] ms2] eqn:E2.
  destruct (match as_object _ with Some declarations => _ | None => _ end) as [declared ms3] eqn:E3.
  destruct (edge_messages _ _ _) as [edges ms5] eqn:E5.
  destruct (cycles edges _) as [ms7|] eqn:E7; [|done]. intros [= <-].
  rewrite !quiet_app. intros (Hbasic & Hfields & H1 & H2 & H3 & H4 & H5 & H6 & H7).
  split; [by apply basic_quiet|]. split; [by apply check_fields_quiet|].
  destruct (proxy_messages_quiet _ _ _ _ _ _ _ _ E1 H1 builtin_exact) as (ps & xs & Hps & Hxs & Hn & Hknown);
    [done| |done|].
  { intros n. unfold reserved. rewrite !elem_of_cons, elem_of_nil, elem_of_empty. tauto. }
  pose proof (name_proxies_exact _ _ _ _ _ builtin_exact eq_refl Hn) as Hx.
  set (l := [lit "DIRECT"; lit "REJECT"] ++ (p_name <$> xs)) in *.
  assert (length xs = length (items "proxies" d)) as Hlen by (by rewrite <- (Forall2_length _ _ _ Hxs), <- (Forall2_length _ _ _ Hps)).
  assert (length l = length (items "proxies" d) + 0 + 2)%nat as Hl by (unfold l; rewrite length_app, length_fmap; simpl; lia).
  destruct (group_messages_quiet _ _ _ _ _ _ _ _ _ _ E2 H2 Hx Hl) as (gs & Hgs & Hng & Hpos).
  { intros n j. rewrite lookup_empty. split; [done|]. intros Hj. apply lookup_lt_Some in Hj. lia. }
  { intros n Hin%Hknown. tauto. }
  { done. }
  pose proof (name_groups_exact _ _ _ _ _ Hx (eq_sym Hl) Hng) as Hx'.
  destruct (edge_messages_quiet _ _ _ _ _ _ _ _ Hx' Hpos Hgs E5 H5) as (all & Hall & ->).
  assert (∃ providers, Forall2 declares (default [] (as_object (index "rule-providers" d))) providers ∧
            declared = providers_of providers []) as (providers & Hprov & ->).
  { destruct (as_object _) as [ds|]; [by eapply provider_messages_quiet|]. injection E3 as <- <-. by exists []. }
  pose proof (name_groups_below _ _ _ _ (names_exact_below _ _ Hx) (eq_ind _ (λ k, name_groups k gs names0 = Ok names) Hng _ (eq_sym Hl))) as [Hb _].
  pose proof (resolved_edges_wf _ _ _ _ _ Hb eq_refl (resolve_edges_inv _ _ _ Hall)) as Hew.
  assert (length (builtin_proxies ++ xs) = length l) as Hpc by (unfold l; rewrite !length_app, length_fmap; done).
  destruct (groups_resolve names0 names l gs all (length l) Hx eq_refl) as [groups Hres].
  { by rewrite Hl. }
  { done. }
  { rewrite Nat.add_0_r in Hl. rewrite <- Hl in E7. eapply cycles_quiet; [|exact E7|exact H7]. by apply group_edges_wf. }
  exists ps, gs, providers, (builtin_proxies ++ xs), groups, names.
  split; [done|eapply Forall2_impl; [exact Hgs|]; by intros ? ? [? _]|done| |].
  - intros raw Hr1 Hr2. exists names0. rewrite Hpc. split; [|done]. unfold parse_proxies. rewrite Hr1, Hr2.
    rewrite (build_entries_proxies _ _ _ _ Hxs).
    + cbn [app]. assert (len gs ≤ MAX_GROUPS) as Hlg by (unfold len in *; by rewrite <- (Forall2_length _ _ _ Hgs)).
      rewrite (proj2 (Z.ltb_ge _ _)) by done. rewrite name_builtin. change (name_proxies 2 xs builtin_names) with (name_proxies (0 + 2) xs builtin_names).
      unfold builtin_names. by rewrite Hn.
    + change (len builtin_proxies) with 2. assert (len ps ≤ MAX_PROXIES); [|lia].
      unfold len in *. by rewrite <- (Forall2_length _ _ _ Hps).
  - by apply rules_loadable.
Qed.

(** ** Properties *)

(** C36: what the doctor has no error for loads, part by part: when the capability gate and
    the limits of collections let a document pass and the doctor reports no error, then every
    proxy and group is read, all proxies build, names are valid, unique and not reserved, the
    groups resolve (so no cycle of members exists), every declared provider is valid, and
    every rule parses or refers to a declared provider and an existing target; loading's
    checks accept the mode, the log level and the controller of the original document, and
    every field is one that loading knows. Ports, the bind address and the types of the
    scalar fields are left to the gate and to loading itself. *)
Theorem doctor_sound original d r : gated d → validate original d = Some r → has_errors r = false →
  settings_accepted original ∧ fields_known d ∧
  ∃ ps gs providers proxies groups names, loads d ps gs providers proxies groups names.
Proof.
  intros Hg. unfold Diagnostics.validate. destruct (validate_total original d) as [ms Hms].
  rewrite Hms. intros [= <-] He. rewrite (kept_has_errors _ _ (report_kept ms)) in He.
  by eapply validate_sound.
Qed.

End Sound.

Section Report.
Context `{IpNetLib}.
Context (url_parse : str → option (str * option str)) (server_name_ok : str → bool)
  (de_proxy : Value → option RawProxy) (de_group : Value → option RawGroup) (de_provider : Value → option Provider).

(** The doctor always reports, whatever the documents hold: it never panics and its search
    ends. Of the messages it found, in order, the report has the first 256 errors and as many
    of the first warnings as there is room for, says whether anything was left out or cut, and
    its verdict depends on all errors, retained or not. Every text is at most 512 bytes of
    valid UTF-8 without control characters and without characters that deceive a terminal. *)
Theorem doctor_report original runtime :
  ∃ ms r, validate_messages url_parse server_name_ok de_proxy de_group de_provider original runtime = Some ms ∧
    validate url_parse server_name_ok de_proxy de_group de_provider original runtime = Some r ∧
    kept ms r ∧ bounded r.
Proof.
  destruct (validate_total url_parse server_name_ok de_proxy de_group de_provider original runtime) as [ms Hms].
  exists ms, (report ms). split_and!; [done|unfold validate; by rewrite Hms|apply report_kept|].
  apply report_bounded. by eapply validate_plain.
Qed.

End Report.

End DoctorSound.
