(* ===== verification/DoctorDemo.v ===== *)
(** * Documents for the doctor (src/tests/diagnostics_validation.rs)

    A document that passes, and the document of a test of the program with the errors the
    test expects. *)
From S2P Require Import Prelude Utf8 Net Target BTree Json Rules Groups Proxy Provider Config Diagnostics DoctorFacts DoctorSound.

Module DoctorDemo.
Import Diagnostics DiagnosticsFacts DoctorSound.

(** ** A document to check *)

Definition demo_de_proxy (v : Value) : option RawProxy :=
  Some (mkRawProxy (text_of "name" v) (text_of "type" v) (text_of "server" v)
          (default 0 (as_u64 (index "port" v))) (text_of "password" v) None (as_str (index "sni" v)) None None None
          false None None None).

Definition demo_de_group (v : Value) : option RawGroup :=
  let? ms := mapM as_str (group_members v) in Some (mkRawGroup (text_of "name" v) (text_of "type" v) ms).

Lemma demo_de_group_fields v g : demo_de_group v = Some g →
  rg_name g = text_of "name" v ∧ rg_kind g = text_of "type" v ∧ group_members v = VString <$> rg_proxies g.
Proof.
  unfold demo_de_group. destruct (mapM as_str (group_members v)) as [ms|] eqn:E; [|done]. intros [= <-].
  split_and!; [done|done|]. simpl. apply mapM_Some in E. induction E as [|x y xs ys Hxy _ IH]; [done|].
  rewrite fmap_cons, <- IH. f_equal. destruct x; try done. by injection Hxy as ->.
Qed.

#[local] Instance demo_net : IpNetLib :=
  {| IpNet := unit; ipnet_parse := λ _, None; ipnet_is_ipv4 := λ _, true; ipnet_contains := λ _ _, false |}.

Definition object (l : list (string * Value)) : Value := VObject ((λ kv, (lit (fst kv), snd kv)) <$> l).

Definition demo_document : Value := object [
  ("proxies"%string, VArray [object [("name"%string, VString (lit "edge")); ("type"%string, VString (lit "trojan"));
     ("server"%string, VString (lit "example.com")); ("port"%string, VNumber (PosInt 443));
     ("password"%string, VString (lit "key"))]]);
  ("proxy-groups"%string, VArray [object [("name"%string, VString (lit "Proxy")); ("type"%string, VString (lit "select"));
     ("proxies"%string, VArray [VString (lit "edge"); VString (lit "DIRECT")])]]);
  ("rules"%string, VArray [VString (lit "DOMAIN,example.org,Proxy"); VString (lit "MATCH,edge")]);
  ("mode"%string, VString (lit "rule")); ("log-level"%string, VString (lit "info"));
  ("external-controller"%string, VString (lit "127.0.0.1:9090"))].

Lemma demo_gated : gated demo_document.
Proof.
  split; [| |by vm_compute|by vm_compute].
  - apply Forall_cons; split; [|constructor]. by intros [?|?].
  - apply Forall_cons; split; [|constructor]. split; [by intros [?|?]|done].
Qed.

Lemma doctor_sound_witness : settings_accepted demo_document ∧ fields_known demo_document ∧ ∃ ps gs providers proxies groups names,
  loads (λ _, None) (λ _, true) demo_de_proxy demo_de_group (λ _, None) demo_document ps gs providers proxies groups names.
Proof.
  refine (doctor_sound (λ _, None) (λ _, true) demo_de_proxy demo_de_group (λ _, None) _ (λ fields g, demo_de_group_fields (VObject fields) g)
    demo_document demo_document empty_report demo_gated _ eq_refl).
  - intros v p [= <-]. reflexivity.
  - vm_compute. reflexivity.
Defined.


(** ** The messages a test expects *)

Definition proxy_value (name kind : string) (more : list (string * Value)) : Value :=
  object ([("name"%string, VString (lit name)); ("type"%string, VString (lit kind))] ++ more).

Definition group_value (name : string) (members : list string) : Value :=
  proxy_value name "select" [("proxies"%string, VArray ((λ m, VString (lit m)) <$> members))].

Definition bad_document : Value := object [
  ("proxies"%string, VArray [
     proxy_value "dup" "direct" []; proxy_value "dup" "reject" [];
     proxy_value "bad" "trojan" [("server"%string, VString (lit "bad host")); ("port"%string, VNumber (PosInt 443));
       ("password"%string, VString []); ("sni"%string, VString (lit "127.0.0.1"))]]);
  ("proxy-groups"%string, VArray [
     group_value "dup" []; group_value "empty" []; group_value "empty" ["missing"]; group_value "cycle" ["DIRECT"; "cycle"]]%string);
  ("rules"%string, VArray ((λ r, VString (lit r)) <$>
     ["IP-CIDR,bad,missing"; "SRC-PORT,0,missing"; "RULE-SET,absent,missing"; "MATCH,REJECT"]%string))].

Definition demo_report (d : Value) : option Report :=
  validate (λ _, None) (λ _, true) demo_de_proxy demo_de_group (λ _, None) d d.

Example bad_errors : (errors <$> demo_report bad_document) = Some (lit <$> [
  "Duplicate proxy name: 'dup'";
  "Trojan proxy 'bad': password is required";
  "Trojan proxy 'bad': server must be a valid IP literal or RFC hostname (1-253 bytes)";
  "Trojan proxy 'bad': sni must be a valid RFC hostname (1-253 bytes; no IP, wildcard, whitespace, or control characters)";
  "Policy name 'dup' is used by both a proxy and a proxy group";
  "Proxy group 'dup': proxy list cannot be empty";
  "Proxy group 'empty': proxy list cannot be empty";
  "Duplicate proxy group name: 'empty'";
  "Rule #1: invalid IPv4 CIDR format 'bad'";
  "Rule #2: invalid port range '0'";
  "Proxy group 'empty': references undefined proxy or group 'missing'";
  "Rule #1: references undefined target 'missing'";
  "Rule #2: references undefined target 'missing'";
  "Rule #3: references undefined rule-provider 'absent'";
  "Rule #3: references undefined target 'missing'";
  "Proxy group 'cycle': cycle detected, including unselected branches"]%string).
Proof. vm_compute. reflexivity. Qed.

Definition level (s : str) : Value := object [("log-level"%string, VString s)].

(** The template with its values takes 512 bytes at most, or the values are left out. *)
Example boundary :
  (λ n, (λ r, (len <$> errors r, truncated r)) <$> demo_report (level (replicate n 97))) <$> [491; 492]%nat =
  [Some ([512], false); Some ([40], true)] ∧
  (errors <$> demo_report (level (replicate 492 97))) = Some [lit "Unknown log level: '...' ... [truncated]"].
Proof. vm_compute. done. Qed.

End DoctorDemo.
