(* ===== verification/Evidence.v ===== *)
(** * Runtime evidence (src/src/observability.rs): what is counted, captured and reported

    Counters, error categories, the projections of errors and panics that may reach the log,
    the resource sampler's parser and the reporter's decisions. Writing the events to the log
    is in EventLog. An [anyhow::Error] is its contexts, its root error and the sources of the
    root; formatting a backtrace is the sequence of pieces its formatter writes; clocks are
    arguments, in milliseconds. *)
From S2P Require Import Prelude Utf8 BTree Json.

Module Evidence.

Definition LOG_LIMIT : Z := 8 * 1024 * 1024.
Definition RECORD_LIMIT : Z := 4096.
Definition EXIT_MARKER : str := lit "zc.exit.json".
Definition SAMPLE_INTERVAL : Z := 30000.
Definition MAINTENANCE_INTERVAL : Z := 1000.
Definition PS_TIMEOUT : Z := 500.

Definition KINDS : list string :=
  ["Other"; "TimedOut"; "ConnectionRefused"; "ConnectionReset"; "ConnectionAborted"; "BrokenPipe";
   "UnexpectedEof"; "InvalidData"; "InvalidInput"; "PermissionDenied"; "AddrNotAvailable";
   "NotConnected"; "NotFound"; "AddrInUse"; "OutOfMemory"; "Unsupported"]%string.

(** ** Stages and sources *)

Inductive FailureStage := Ingress | Dns | Connect | Tls | Transfer | Udp.

Definition STAGES : list FailureStage := [Ingress; Dns; Connect; Tls; Transfer; Udp].

Definition stage_label (s : FailureStage) : string :=
  match s with
  | Ingress => "ingress"
  | Dns => "dns"
  | Connect => "connect"
  | Tls => "tls"
  | Transfer => "transfer"
  | Udp => "udp"
  end.

(** [stage as usize] *)
Definition stage_index (s : FailureStage) : nat :=
  match s with Ingress => 0 | Dns => 1 | Connect => 2 | Tls => 3 | Transfer => 4 | Udp => 5 end.

Inductive FailureSource := Unspecified | TargetSource | ProxySource | ProxyProtocol.

Definition SOURCES : list FailureSource := [Unspecified; TargetSource; ProxySource; ProxyProtocol].

Definition source_label (s : FailureSource) : string :=
  match s with
  | Unspecified => "unspecified"
  | TargetSource => "target"
  | ProxySource => "proxy"
  | ProxyProtocol => "proxy_protocol"
  end.

(** [source as usize] *)
Definition source_index (s : FailureSource) : nat :=
  match s with Unspecified => 0 | TargetSource => 1 | ProxySource => 2 | ProxyProtocol => 3 end.

Record FailureContext := mkFailureContext { stage : FailureStage; source : FailureSource }.

(** [From<FailureStage>] *)
Definition from_stage (s : FailureStage) : FailureContext := mkFailureContext s Unspecified.

(** ** Errors *)

(** [std::io::ErrorKind]: the kinds with a category of their own, and all others. *)
Module ErrorKind.
Inductive t :=
| TimedOut | ConnectionRefused | ConnectionReset | ConnectionAborted | BrokenPipe | UnexpectedEof
| InvalidData | InvalidInput | PermissionDenied | AddrNotAvailable | NotConnected | NotFound
| AddrInUse | OutOfMemory | Unsupported | Uncategorized.
End ErrorKind.

Inductive RuntimeFault :=
| SelectionPublicationFailed
| TaskPanic
| TaskCancelled
| InstancePanic
| InstanceDropPanic.

Definition fault_cause (f : RuntimeFault) : string :=
  match f with
  | SelectionPublicationFailed => "selection_publication_failed"
  | TaskPanic => "task_panic"
  | TaskCancelled => "task_cancelled"
  | InstancePanic => "instance_panic"
  | InstanceDropPanic => "instance_drop_panic"
  end.

Definition fault_text (f : RuntimeFault) : string :=
  match f with
  | SelectionPublicationFailed => "RUNTIME_FAILED: selection publication failed"
  | TaskPanic => "RUNTIME_FAILED: task panicked"
  | TaskCancelled => "RUNTIME_FAILED: task cancelled"
  | InstancePanic => "RUNTIME_FAILED: instance future panicked"
  | InstanceDropPanic => "RUNTIME_FAILED: instance future drop panicked"
  end.

Inductive FatalOperation := MixedRun | ControllerRun.

Definition operation_labels (o : FatalOperation) : string * string :=
  match o with
  | MixedRun => ("mixed_listener", "run_listener")
  | ControllerRun => ("controller", "run_listener")
  end%string.

Definition operation_text (o : FatalOperation) : string :=
  match o with
  | MixedRun => "RUNTIME_FAILED: mixed listener failed"
  | ControllerRun => "RUNTIME_FAILED: controller listener failed"
  end.

(** What an error is made of: an I/O error with its [raw_os_error], a fault, an operation,
    a stage or source, or anything else with the text it displays. *)
Inductive Cause :=
| IoCause (kind : ErrorKind.t) (errno : option Z)
| FaultCause (f : RuntimeFault)
| OperationCause (o : FatalOperation)
| SourceCause (s : FailureSource)
| StageCause (s : FailureStage)
| TextCause (text : str).

(** Outermost context first. *)
Record Error := mkError { contexts : list Cause; base : Cause; sources : list Cause }.

(** [anyhow::Error::new] of an error without a source. *)
Definition error_of (c : Cause) : Error := mkError [] c [].

(** [error.context(c)] *)
Definition context (c : Cause) (e : Error) : Error := mkError (c :: contexts e) (base e) (sources e).

(** [error.downcast_ref::<T>()] looks at the contexts and the root error. *)
Definition downcast {A} (pick : Cause → option A) (e : Error) : option A :=
  head (omap pick (contexts e ++ [base e])).

(** [error.chain().find_map(|cause| cause.downcast_ref::<T>())]: a context in the chain is
    the wrapper, not the value it carries. *)
Definition chain_find {A} (pick : Cause → option A) (e : Error) : option A :=
  head (omap pick (base e :: sources e)).

Definition as_io (c : Cause) : option (ErrorKind.t * option Z) :=
  match c with IoCause k n => Some (k, n) | _ => None end.
Definition as_fault (c : Cause) : option RuntimeFault := match c with FaultCause f => Some f | _ => None end.
Definition as_operation (c : Cause) : option FatalOperation := match c with OperationCause o => Some o | _ => None end.
Definition as_source (c : Cause) : option FailureSource := match c with SourceCause s => Some s | _ => None end.

(** [FailureSource::context]: the source, and on top of it the message the caller had;
    [text] is [error.to_string()]. *)
Definition source_context (s : FailureSource) (text : str) (e : Error) : Error :=
  context (TextCause text) (context (SourceCause s) e).

Definition error_index (e : Error) : nat :=
  match fst <$> chain_find as_io e with
  | Some ErrorKind.TimedOut => 1
  | Some ErrorKind.ConnectionRefused => 2
  | Some ErrorKind.ConnectionReset => 3
  | Some ErrorKind.ConnectionAborted => 4
  | Some ErrorKind.BrokenPipe => 5
  | Some ErrorKind.UnexpectedEof => 6
  | Some ErrorKind.InvalidData => 7
  | Some ErrorKind.InvalidInput => 8
  | Some ErrorKind.PermissionDenied => 9
  | Some ErrorKind.AddrNotAvailable => 10
  | Some ErrorKind.NotConnected => 11
  | Some ErrorKind.NotFound => 12
  | Some ErrorKind.AddrInUse => 13
  | Some ErrorKind.OutOfMemory => 14
  | Some ErrorKind.Unsupported => 15
  | _ => 0
  end.

Definition kind_label (k : nat) : string := default "Other"%string (KINDS !! k).

Record FatalDiagnostic := mkFatalDiagnostic {
  component : string;
  operation : string;
  cause : string;
  error_kind : string;
  os_errno : option Z;
}.

Definition phase_labels (phase : string) : string * string :=
  match phase with
  | "lifecycle_lock" => ("runtime_owner", "acquire_lifecycle_lock")
  | "config" => ("configuration", "parse_snapshot")
  | "mixed_bind" => ("mixed_listener", "initialize_and_bind")
  | "controller_bind" => ("controller", "bind")
  | "readiness" => ("daemon", "publish_readiness")
  | "runtime_guard" => ("runtime_owner", "validate_and_check_stop")
  | "shutdown" => ("daemon", "drain_tasks")
  | "observability" => ("observability", "spawn_reporter")
  | _ => ("daemon", "run_instance")
  end%string.

(** [FatalDiagnostic::capture] *)
Definition capture (phase : string) (e : Error) : FatalDiagnostic :=
  let io := chain_find as_io e in
  let fault := downcast as_fault e in
  let labels := match downcast as_operation e with
                | Some o => operation_labels o
                | None => phase_labels phase
                end in
  let labels := match fault with
                | Some SelectionPublicationFailed => ("controller", "publish_selection")%string
                | _ => labels
                end in
  mkFatalDiagnostic (fst labels) (snd labels)
    (match fault with
     | Some f => fault_cause f
     | None => if is_some io then "io" else "unclassified"
     end)
    (match fault with
     | Some TaskCancelled => "Cancelled"
     | Some SelectionPublicationFailed => "StateInvariant"
     | Some _ => "Panic"
     | None => kind_label (error_index e)
     end)
    (io ≫= snd).

(** [task_error]: what a [JoinError] becomes. *)
Definition task_error (is_panic : bool) : Error := error_of (FaultCause (if is_panic then TaskPanic else TaskCancelled)).

(** The future [catch_instance_panic] owns: what its polls answer and whether its
    destructor panics. *)
Inductive Poll := Pending | Ready (r : result Error unit) | Panicking.

(** [catch_instance_panic]; [None]: still pending. *)
Fixpoint catch_instance_panic (polls : list Poll) (drop_panics : bool) : option (result Error unit) :=
  let finish r := Some (if drop_panics then Err (error_of (FaultCause InstanceDropPanic)) else r) in
  match polls with
  | [] => None
  | Pending :: polls => catch_instance_panic polls drop_panics
  | Ready r :: _ => finish r
  | Panicking :: _ => finish (Err (error_of (FaultCause InstancePanic)))
  end.

(** ** Symbols of a backtrace *)

Record TraceSymbols := mkTraceSymbols { line : str; frames : list str; bytes : Z; truncated : bool }.

Definition no_symbols : TraceSymbols := mkTraceSymbols [] [] 0 false.

(** [line.split_once(": ")] *)
Definition split_index (s : str) : option (str * str) :=
  let? n := find_sub (lit ": ") s in Some (take n s, drop (n + 2) s).

Definition symbol_byte (b : Z) : bool :=
  is_ascii_alphanumeric b || existsb (Z.eqb b) (lit "_:<> ,{}[]()&;*!+-.#").

(** [end_line]: the state and whether the formatter may go on. *)
Definition end_line (t : TraceSymbols) : TraceSymbols * bool :=
  let text := trim (line t) in
  match split_index text with
  | Some (index, symbol) =>
      if negb (bool_decide (index = [])) && forallb is_ascii_digit index then
        if bool_decide (symbol = []) || negb (forallb symbol_byte symbol) then
          (mkTraceSymbols [] (frames t) (bytes t) true, true)
        else if (len (frames t) =? 16) || (2048 <? bytes t + len text) then
          (mkTraceSymbols (line t) (frames t) (bytes t) true, false)
        else (mkTraceSymbols [] (frames t ++ [text]) (bytes t + len text) (truncated t), true)
      else (mkTraceSymbols [] (frames t) (bytes t) (truncated t), true)
  | None => (mkTraceSymbols [] (frames t) (bytes t) (truncated t), true)
  end.

(** [write_str], of the characters of the piece. *)
Fixpoint write_str (cs : list Z) (t : TraceSymbols) : TraceSymbols * bool :=
  match cs with
  | [] => (t, true)
  | c :: cs =>
      if c =? 10 then
        let '(t, ok) := end_line t in if ok then write_str cs t else (t, false)
      else if 512 <? len (line t) + len_utf8 c then
        (mkTraceSymbols (line t) (frames t) (bytes t) true, false)
      else write_str cs (mkTraceSymbols (line t ++ encode1 c) (frames t) (bytes t) (truncated t))
  end.

(** [write!(&mut symbols, "{trace}")]: the pieces the formatter writes, until one fails. *)
Fixpoint write_trace (pieces : list str) (t : TraceSymbols) : TraceSymbols * bool :=
  match pieces with
  | [] => (t, true)
  | p :: pieces => let '(t, ok) := write_str (chars p) t in if ok then write_trace pieces t else (t, false)
  end.

(** ** Panics *)

Record CrashLocation := mkCrashLocation { file : str; line_number : Z; column : Z }.

Record PanicDiagnostic := mkPanicDiagnostic {
  location : option CrashLocation;
  payload_policy : string;
  backtrace_status : string;
  backtrace : list str;
  backtrace_truncated : bool;
}.

Inductive BacktraceStatus := Captured | Disabled | OtherStatus.

(** [path.rsplit(['/', '\\']).next()] *)
Fixpoint basename (s : str) : str :=
  match s with
  | [] => []
  | b :: s => if existsb (λ b, (b =? 47) || (b =? 92)) (b :: s) then basename s else b :: s
  end.

Definition safe_file (s : str) : str :=
  let name := basename s in
  if negb (bool_decide (name = [])) && (len name <=? 96)
     && forallb (λ b, is_ascii_alphanumeric b || existsb (Z.eqb b) (lit "_.-")) name
  then name else lit "omitted".

(** [PanicDiagnostic::capture]: [place] is the panic's location, [pieces] the backtrace as
    it formats itself. *)
Definition capture_panic (place : option (str * Z * Z)) (status : BacktraceStatus) (pieces : list str) : PanicDiagnostic :=
  let symbols := match status with
                 | Captured =>
                     let '(t, ok) := write_trace pieces no_symbols in
                     if ok then fst (end_line t) else mkTraceSymbols (line t) (frames t) (bytes t) true
                 | _ => no_symbols
                 end in
  mkPanicDiagnostic
    ((λ '(f, l, c), mkCrashLocation (safe_file f) l c) <$> place)
    "omitted"
    (match status with Captured => "captured" | Disabled => "disabled" | OtherStatus => "unsupported" end)
    (frames symbols) (truncated symbols).

(** ** The observer *)

(** [[[[T; KINDS]; SOURCES]; STAGES]] *)
Abbreviation Table A := (list (list (list A))).

Definition table {A} (a : A) : Table A := replicate 6 (replicate 4 (replicate 16 a)).

Definition at_ (t : Table Z) (i j k : nat) : Z := default 0 (let? row := t !! i in let? cells := row !! j in cells !! k).

Definition update (f : Z → Z) (i j k : nat) (t : Table Z) : Table Z := alter (alter (alter f k) j) i t.

(** [increment]: [saturating_add] on a [u64]. *)
Definition increment (n : Z) : Z := Z.min (n + 1) u64_max.

Record Observer := mkObserver {
  active : Z;
  total : Z;
  rejected : Z;
  panics : Z;
  panic_claimed : bool;
  first_panic : option PanicDiagnostic;
  failures : Table Z;
}.

Definition new_observer : Observer := mkObserver 0 0 0 0 false None (table 0).

Definition connection (o : Observer) : Observer :=
  mkObserver (increment (active o)) (increment (total o)) (rejected o) (panics o) (panic_claimed o) (first_panic o) (failures o).

(** [ConnectionGuard::drop]: [fetch_sub] wraps. *)
Definition connection_drop (o : Observer) : Observer :=
  mkObserver ((active o - 1) mod (u64_max + 1)) (total o) (rejected o) (panics o) (panic_claimed o) (first_panic o) (failures o).

Definition failure (c : FailureContext) (e : Error) (o : Observer) : Observer :=
  mkObserver (active o) (total o) (rejected o) (panics o) (panic_claimed o) (first_panic o)
    (update increment (stage_index (stage c)) (source_index (source c)) (error_index e) (failures o)).

Definition reject (o : Observer) : Observer :=
  mkObserver (active o) (total o) (increment (rejected o)) (panics o) (panic_claimed o) (first_panic o) (failures o).

(** The panic hook: the first panic to claim it is sampled. [set] fails on a full cell. *)
Definition panic_hook (sample : PanicDiagnostic) (o : Observer) : Observer :=
  let o := mkObserver (active o) (total o) (rejected o) (increment (panics o)) (panic_claimed o) (first_panic o) (failures o) in
  if panic_claimed o then o
  else mkObserver (active o) (total o) (rejected o) (panics o) true
         (match first_panic o with Some p => Some p | None => Some sample end) (failures o).

(** ** Resources *)

Record Resources := mkResources { cpu_ms : Z; rss_bytes : Z }.

Definition checked_mul (a b : Z) : option Z := if a * b <=? u64_max then Some (a * b) else None.
Definition checked_add (a b : Z) : option Z := if a + b <=? u64_max then Some (a + b) else None.

(** The colon-separated components: the seconds they make, and how many there are. *)
Fixpoint clock (components : list str) (seconds : Z) (fields : nat) : option (Z * nat) :=
  match components with
  | [] => Some (seconds, fields)
  | c :: components =>
      let? value := parse_uint u64_max c in
      if (0 <? fields)%nat && (60 <=? value) then None
      else let? seconds := checked_mul seconds 60 in
           let? seconds := checked_add seconds value in
           clock components seconds (S fields)
  end.

(** The first three digits of a fraction, as milliseconds. *)
Definition millis (fraction : str) : Z :=
  foldl Z.add 0 (zip_with (λ b w, (b - 48) * w) (take 3 fraction) [100; 10; 1]).

Definition parse_cpu_time (value : str) : option Z :=
  let? '(days, rest) := match split_once 45 value with
                        | Some (days, rest) => let? n := parse_uint u64_max days in Some (n, rest)
                        | None => Some (0, value)
                        end in
  let '(whole, fraction) := default (rest, []) (split_once 46 rest) in
  if negb (forallb is_ascii_digit fraction) then None
  else let? '(seconds, fields) := clock (split_byte 58 whole) 0 0 in
       if negb ((2 <=? fields) && (fields <=? 3))%nat then None
       else let? a := checked_mul days 86400 in
            let? a := checked_add a seconds in
            let? a := checked_mul a 1000 in
            checked_add a (millis fraction).

(** [str::split_whitespace] *)
Fixpoint split_whitespace (s : str) (word : str) : list str :=
  match s with
  | [] => if bool_decide (word = []) then [] else [word]
  | b :: s =>
      if is_whitespace b then
        (if bool_decide (word = []) then [] else [word]) ++ split_whitespace s []
      else split_whitespace s (word ++ [b])
  end.

(** The sampler's output, once read. *)
Definition parse_resources (output : str) : res Resources :=
  let! cs := ok_or (utf8_decode output) "invalid utf-8"%string in
  let fields := utf8_encode <$> split_whitespace cs [] in
  let! first := ok_or (fields !! 0%nat) "CPU time unavailable"%string in
  let! cpu := ok_or (parse_cpu_time first) "invalid CPU time"%string in
  let! second := ok_or (fields !! 1%nat) "RSS unavailable"%string in
  let! kib := ok_or (parse_uint u64_max second) "invalid digit found in string"%string in
  let! rss := ok_or (checked_mul kib 1024) "RSS overflow"%string in
  if is_some (fields !! 2%nat) then Err "invalid resource output"%string
  else Ok (mkResources cpu rss).

(** What one read of the pipe gives: bytes (none at its end), nothing yet, or an error. *)
Inductive PipeRead := Data (bytes : str) | WouldBlock | Interrupted | Broken.

(** One turn of the loop: the read, [try_wait] (an error, still running, or the exit and
    whether it was a success) and the time since the start. *)
Record Turn := mkTurn { got : PipeRead; waited : option (option bool); elapsed : Z }.

Definition take_data (used bytes : str) : str := used ++ take (1025 - length used) bytes.

(** Draining after the child has exited. *)
Fixpoint drain (reads : list PipeRead) (used : str) : option (res str) :=
  match reads with
  | [] => None
  | Data [] :: _ => Some (Ok used)
  | Data bs :: reads =>
      let used := take_data used bs in
      if 1024 <? len used then Some (Err "resource output exceeds limit"%string) else drain reads used
  | Interrupted :: reads => drain reads used
  | WouldBlock :: _ | Broken :: _ => Some (Err "I/O error"%string)
  end.

(** [read_resources]; [None]: still reading. *)
Fixpoint read_resources (turns : list Turn) (rest : list PipeRead) (used : str) : option (res Resources) :=
  match turns with
  | [] => None
  | t :: turns =>
      match got t with
      | Broken => Some (Err "I/O error"%string)
      | _ =>
          let used := match got t with Data bs => take_data used bs | _ => used end in
          if 1024 <? len used then Some (Err "resource output exceeds limit"%string)
          else match waited t with
               | None => Some (Err "I/O error"%string)
               | Some (Some success) =>
                   if success then
                     let? r := drain rest used in
                     Some (let! output := r in parse_resources output)
                   else Some (Err "resource sampler failed"%string)
               | Some None =>
                   if PS_TIMEOUT <=? elapsed t then Some (Err "resource sampler timed out"%string)
                   else read_resources turns rest used
               end
      end
  end.

End Evidence.
