(* ===== verification/EventLog.v ===== *)
(** * The event log and the exit marker (src/src/observability.rs: [append_log], [EventLog])

    Two files of the runtime directory, zc.log and its archive zc.log.1, written under a
    lock, and zc.exit.json, which is there while an instance has not certified its exit. All
    of it over the disk of [Disk], so every system call can fail or be the last. The JSON
    encoder, the clock and the process id are parameters; the clock may answer differently in
    every state of the disk. *)
From S2P Require Import Prelude Utf8 BTree Json Disk DiskFacts Bundle Revision Evidence.

Module EventLog.
Import Evidence Disk.

(** ** Values *)

(** [json!({..})] *)
Definition json_object (fields : list (string * Value)) : Value :=
  VObject (foldl (λ m '(k, v), binsert (lit k) v m) [] fields).

(** [value[key] = v] on an object *)
Definition set_index (key : string) (v : Value) (value : Value) : Value :=
  match value with VObject m => VObject (binsert (lit key) v m) | _ => value end.

Definition json_str (s : string) : Value := VString (lit s).
Definition json_int (n : Z) : Value := VNumber (if n <? 0 then NegInt n else PosInt n).
Definition json_opt {A} (f : A → Value) (o : option A) : Value := match o with Some a => f a | None => VNull end.

(** ** The exit marker *)

Record ExitMarker := mkExitMarker { schema_version : Z; marker_pid : Z; instance : str }.

Definition i32_max : Z := 2147483647.

Section Log.
Context (to_json : Value → str) (wall : Disk → option Z) (process : Z) {marker_serde : Revision.Serde ExitMarker}.

Definition marker_bytes (m : ExitMarker) : str := Revision.line m.

Definition valid_marker (bytes : str) : option ExitMarker :=
  let? m := Revision.from_slice bytes in
  if (schema_version m =? 1) && (0 <? marker_pid m) && (marker_pid m <=? i32_max)
     && (len (instance m) =? 32) && forallb is_lower_hex (instance m)
     && eq_str (marker_bytes m) bytes
  then Some m else None.

(** ** The log *)

Definition LOG : str := lit "zc.log".
Definition ARCHIVE : str := lit "zc.log.1".
Definition LOG_LOCK : str := lit "zc.log.lock".
Definition INSTANCE_LOCK : str := lit "zc.lock".

(** The line of an event: the value with the time, the process and the instance. *)
Definition event_line (value : Value) (owner : option str) (time : option Z) : str :=
  let value := set_index "timestamp_ms" (json_opt json_int time) value in
  let value := set_index "pid" (json_int process) value in
  let value := set_index "instance" (json_opt VString owner) value in
  to_json value ++ [10].

Definition event_bytes (value : Value) (owner : option str) : IO str := λ d,
  let bytes := event_line value owner (wall d) in
  (d, if len bytes <=? RECORD_LIMIT then Ok bytes else Err (Invalid "runtime event exceeds limit")).

Definition retention_warning : Value :=
  json_object [("level", json_str "warn"); ("event", json_str "log_retention_exceeded")]%string.

Definition rotate_log (dir : list str) (additional : Z) (owner : option str) : IO unit :=
  do! metadata := tried (file_metadata dir LOG) in
  match metadata with
  | Err NotFound => sret tt
  | Err e => serr e
  | Ok length =>
      if Z.min (length + additional) u64_max <=? LOG_LIMIT then sret tt
      else
        do! present := exists_ dir ARCHIVE in
        do! _ := (if present then do! _ := file_metadata dir ARCHIVE in sret tt else sret tt) in
        do! _ := (if LOG_LIMIT <? length then
                    do! warning := event_bytes retention_warning owner in
                    do! _ := atomic_write dir LOG warning in
                    sret tt
                  else sret tt) in
        do! _ := rename dir LOG ARCHIVE in
        do! _ := atomic_write dir LOG [] in
        sret tt
  end.

Definition append_log_for_instance (dir : list str) (bytes : str) (owner : option str) : IO unit :=
  if RECORD_LIMIT <? len bytes then serr (Invalid "runtime event exceeds limit")
  else
    do! _ := lock dir LOG_LOCK in
    do! _ := validate dir LOG_LOCK in
    do! _ := rotate_log dir (len bytes) owner in
    append_bounded dir LOG bytes LOG_LIMIT.

Definition append_log (dir : list str) (bytes : str) : IO unit := append_log_for_instance dir bytes None.

(** ** [EventLog] *)

Record EventLog := mkEventLog { dir : list str; nonce : str }.

Definition guarded (l : EventLog) : IO unit :=
  do! _ := validate_path (dir l) in validate (dir l) INSTANCE_LOCK.

Definition event (l : EventLog) (value : Value) : IO unit :=
  do! bytes := event_bytes value (Some (nonce l)) in
  do! _ := guarded l in
  append_log_for_instance (dir l) bytes (Some (nonce l)).

Definition maintenance (l : EventLog) : IO unit :=
  do! _ := guarded l in
  do! _ := lock (dir l) LOG_LOCK in
  do! _ := validate (dir l) LOG_LOCK in
  rotate_log (dir l) 0 (Some (nonce l)).

(** [let _ = self.event(..)] *)
Definition emit (l : EventLog) (value : Value) : IO unit := do! _ := tried (event l value) in sret tt.

Definition diagnostic (l : EventLog) (name : string) : IO unit :=
  emit l (json_object [("level", json_str "warn"); ("event", json_str name); ("phase", json_str "exit_marker")]%string).

Definition previous_exit (m : ExitMarker) : Value :=
  json_object [("level", json_str "warn"); ("event", json_str "previous_exit_unknown");
               ("previous_pid", json_int (marker_pid m)); ("previous_instance", VString (instance m))]%string.

(** What [begin_marker] makes of the marker it finds: go on, or leave it as it is. *)
Definition previous_marker (l : EventLog) : IO bool :=
  do! found := tried (read (dir l) EXIT_MARKER 1024) in
  match found with
  | Ok bytes =>
      match valid_marker bytes with
      | None => do! _ := diagnostic l "exit_marker_invalid" in sret false
      | Some previous => do! _ := emit l (previous_exit previous) in sret true
      end
  | Err NotFound => sret true
  | Err _ => do! _ := diagnostic l "exit_marker_unavailable" in sret false
  end.

Definition begin_marker (l : EventLog) : IO (option str) :=
  do! usable := tried (guarded l) in
  if negb (is_ok usable) then sret None
  else
    do! go := previous_marker l in
    if negb go then sret None
    else
      let bytes := marker_bytes (mkExitMarker 1 process (nonce l)) in
      do! written := tried (atomic_write (dir l) EXIT_MARKER bytes) in
      match written with
      | Ok None => sret (Some bytes)
      | Ok (Some _) => do! _ := diagnostic l "exit_marker_durability_uncertain" in sret (Some bytes)
      | Err _ => do! _ := diagnostic l "exit_marker_unavailable" in sret None
      end.

Definition finish_marker (l : EventLog) (owned : option str) : IO unit :=
  match owned with
  | None => sret tt
  | Some owned =>
      do! cleared := tried (
        do! _ := guarded l in
        do! bytes := read (dir l) EXIT_MARKER 1024 in
        do! _ := (if eq_str bytes owned then sret tt else serr (Invalid "exit marker identity changed")) in
        do! _ := remove_file (dir l) EXIT_MARKER in
        sync) in
      if is_ok cleared then sret tt else diagnostic l "exit_marker_cleanup_uncertain"
  end.

(** [serde_json::to_value] of a diagnostic *)
Definition diagnostic_fields (f : FatalDiagnostic) : list (string * Value) :=
  [("component", json_str (Evidence.component f)); ("operation", json_str (operation f)); ("cause", json_str (cause f));
   ("error_kind", json_str (error_kind f)); ("os_errno", json_opt json_int (os_errno f))]%string.

Definition lifecycle_event (name phase : string) (failure : option FatalDiagnostic) : Value :=
  let value := [("level", json_str (if is_some failure then "error" else "info")); ("event", json_str name);
                ("phase", json_str phase); ("error_kind", VNull)]%string in
  json_object (value ++ match failure with Some f => diagnostic_fields f | None => [] end).

Definition lifecycle (l : EventLog) (name phase : string) (failure : option FatalDiagnostic) : IO unit :=
  event l (lifecycle_event name phase failure).

End Log.

End EventLog.
