(* ===== verification/Reporter.v ===== *)
(** * The reporter thread (src/src/observability.rs: [Reporter], [Evidence])

    What is reported when, over the counters of the observer. Connections go on counting
    while the reporter runs, so each turn of its loop carries the counters its loads find and
    the clock readings it makes. [Evidence::start], the loop and its end are operations on
    the disk. *)
From S2P Require Import Prelude Utf8 BTree Json Disk DiskFacts Bundle Revision Evidence EventLog.

Module Reporter.
Import Evidence Disk EventLog.

Record Reporter := mkReporter {
  started : Z;
  reported : Table Z;
  last_report : Table Z;
  previous : option (Z * Resources);
  panic_reported : bool;
}.

Definition new_reporter (now : Z) : Reporter := mkReporter now (table 0) (table now) None false.

(** ** Failures *)

(** A [connection_failed] event, or a [connection_failure_summary]. *)
Record FailureEvent := mkFailureEvent {
  summarised : bool;
  cell : nat * nat * nat;
  count : Z;
  running : Z;
}.

Definition cells : list (nat * nat * nat) :=
  i ← seq 0 6; j ← seq 0 4; k ← seq 0 16; [(i, j, k)].

Definition set_reported (c : nat * nat * nat) (n now : Z) (r : Reporter) : Reporter :=
  let '(i, j, k) := c in
  mkReporter (started r) (update (λ _, n) i j k (reported r)) (update (λ _, now) i j k (last_report r))
    (previous r) (panic_reported r).

Definition reported_at (c : nat * nat * nat) (r : Reporter) : Z := let '(i, j, k) := c in at_ (reported r) i j k.
Definition last_at (c : nat * nat * nat) (r : Reporter) : Z := let '(i, j, k) := c in at_ (last_report r) i j k.

(** One counter: its first failure at once, later ones in summaries. *)
Definition report_first (c : nat * nat * nat) (total now : Z) (r : Reporter) : list FailureEvent * Reporter :=
  if (0 <? total) && (reported_at c r =? 0)
  then ([mkFailureEvent false c 1 1], set_reported c 1 now r)
  else ([], r).

Definition report_rest (final : bool) (c : nat * nat * nat) (total now : Z) (r : Reporter) : list FailureEvent * Reporter :=
  let old := reported_at c r in
  if (old <? total) && (final || (SAMPLE_INTERVAL <=? Z.max 0 (now - last_at c r)))
  then ([mkFailureEvent true c (Z.max 0 (total - old)) total], set_reported c total now r)
  else ([], r).

Definition report_cell (final : bool) (now : Z) (loads : Table Z) (c : nat * nat * nat) (r : Reporter) :
    list FailureEvent * Reporter :=
  let '(i, j, k) := c in
  let total := at_ loads i j k in
  let '(e1, r) := report_first c total now r in
  let '(e2, r) := report_rest final c total now r in
  (e1 ++ e2, r).

Fixpoint report_cells (final : bool) (now : Z) (loads : Table Z) (cs : list (nat * nat * nat)) (r : Reporter) :
    list FailureEvent * Reporter :=
  match cs with
  | [] => ([], r)
  | c :: cs =>
      let '(e1, r) := report_cell final now loads c r in
      let '(e2, r) := report_cells final now loads cs r in
      (e1 ++ e2, r)
  end.

(** [failures]: its events, which are sent as it goes with their outcome ignored. *)
Definition failures (final : bool) (now : Z) (loads : Table Z) (r : Reporter) : list FailureEvent * Reporter :=
  report_cells final now loads cells r.

Definition failure_json (e : FailureEvent) : Value :=
  let '(i, j, k) := cell e in
  json_object
    [("level", json_str "error");
     ("event", json_str (if summarised e then "connection_failure_summary" else "connection_failed"));
     ("stage", json_opt (λ s, json_str (stage_label s)) (STAGES !! i));
     ("source", json_opt (λ s, json_str (source_label s)) (SOURCES !! j));
     ("error_kind", json_str (kind_label k)); ("count", json_int (count e)); ("total", json_int (running e))]%string.

(** ** Summaries *)

(** [saturating_add] *)
Definition saturating_add (a b : Z) : Z := Z.min (a + b) u64_max.

Definition stage_total (counters : list (list Z)) : Z := foldl saturating_add 0 (mjoin counters).

Definition failures_by_stage (loads : Table Z) : list Z := stage_total <$> loads.

(** CPU milliseconds, elapsed milliseconds and resident bytes since the sample before. *)
Definition resource_delta (resources : option Resources) (prev : option (Z * Resources)) (now : Z) : option (Z * Z * Z) :=
  let? current := resources in
  let? '(time, old) := prev in
  if cpu_ms current <? cpu_ms old then None
  else
    let rss := rss_bytes current - rss_bytes old in
    if (rss <? - 9223372036854775808) || (9223372036854775807 <? rss) then None
    else Some (cpu_ms current - cpu_ms old, Z.max 0 (now - time), rss).

Definition summary_json (phase : string) (uptime : Z) (o : Observer) (resources : option Resources) (delta : option (Z * Z * Z)) : Value :=
  let stages := failures_by_stage (Evidence.failures o) in
  json_object
    [("level", json_str "info"); ("event", json_str "runtime_summary"); ("phase", json_str phase);
     ("uptime_ms", json_int uptime); ("sample_interval_seconds", json_int (SAMPLE_INTERVAL / 1000));
     ("active_connections", json_int (active o)); ("total_connections", json_int (total o));
     ("failures", json_int (foldl saturating_add 0 stages));
     ("failures_by_stage", json_object (zip (stage_label <$> STAGES) (json_int <$> stages)));
     ("rejections", json_int (rejected o)); ("panics", json_int (panics o));
     ("resource_status", json_str (if is_some resources then "available" else "unavailable"));
     ("cpu_time_ms", json_opt json_int (cpu_ms <$> resources)); ("rss_bytes", json_opt json_int (rss_bytes <$> resources));
     ("cpu_delta_ms", json_opt (λ d, json_int d.1.1) delta); ("sample_elapsed_ms", json_opt (λ d, json_int d.1.2) delta);
     ("rss_delta_bytes", json_opt (λ d, json_int d.2) delta)]%string.

(** ** Panics *)

Definition location_json (l : CrashLocation) : Value :=
  json_object [("file", VString (file l)); ("line", json_int (line_number l)); ("column", json_int (column l))]%string.

Definition panic_json (version : string) (sample : PanicDiagnostic) (n : Z) : Value :=
  json_object
    [("location", json_opt location_json (location sample)); ("payload_policy", json_str (payload_policy sample));
     ("backtrace_status", json_str (backtrace_status sample)); ("backtrace", VArray (VString <$> backtrace sample));
     ("backtrace_truncated", VBool (backtrace_truncated sample));
     ("level", json_str "error"); ("event", json_str "runtime_panic"); ("count", json_int n);
     ("version", json_str version)]%string.

(** ** The loop *)

Record Finish := mkFinish { phase : string; outcome : option FatalDiagnostic }.

(** What [recv_timeout] gives. *)
Inductive Heard := Finished (f : Finish) | Disconnected | Timeout.

(** One turn: what was heard, the counters as they are found, a resource sample, and the
    readings of the monotonic clock, in the order of the code. *)
Record Turn := mkTurn {
  heard : Heard;
  seen : Observer;
  resources : option Resources;
  failures_now : Z;
  maintenance_now : Z;
  maintained_now : Z;
  sample_now : Z;
  summary_now : Z;
  uptime_now : Z;
  sampled_now : Z;
}.

Section Run.
Context (to_json : Value → str) (wall : Disk → option Z) (process : Z) (version : string)
  {marker_serde : Revision.Serde ExitMarker}.
Local Abbreviation emit := (emit to_json wall process).
Local Abbreviation lifecycle := (lifecycle to_json wall process).
Local Abbreviation finish_marker := (finish_marker to_json wall process).

Fixpoint emit_all (l : EventLog) (values : list Value) : IO unit :=
  match values with
  | [] => sret tt
  | v :: values => do! _ := emit l v in emit_all l values
  end.

Definition report_failures (l : EventLog) (final : bool) (t : Turn) (r : Reporter) : IO Reporter :=
  let '(events, r) := failures final (failures_now t) (Evidence.failures (seen t)) r in
  do! _ := emit_all l (failure_json <$> events) in sret r.

Definition panic (l : EventLog) (t : Turn) (r : Reporter) : IO Reporter :=
  match panic_reported r, first_panic (seen t) with
  | false, Some sample =>
      do! sent := tried (event to_json wall process l (panic_json version sample (panics (seen t)))) in
      sret (mkReporter (started r) (reported r) (last_report r) (previous r) (is_ok sent))
  | _, _ => sret r
  end.

Definition summary (l : EventLog) (name : string) (t : Turn) (r : Reporter) : IO Reporter :=
  let delta := resource_delta (resources t) (previous r) (summary_now t) in
  do! _ := emit l (summary_json name (uptime_now t - started r) (seen t) (resources t) delta) in
  sret (mkReporter (started r) (reported r) (last_report r) ((λ s, (summary_now t, s)) <$> resources t) (panic_reported r)).

(** The end of an instance that says how it ended. *)
Definition conclude (l : EventLog) (marker : option str) (f : Finish) (t : Turn) (r : Reporter) : IO Reporter :=
  do! r := report_failures l true t r in
  do! r := panic l t r in
  do! r := summary l "final" t r in
  do! logged := tried (lifecycle l (if is_some (outcome f) then "daemon_failed" else "daemon_stopped") (phase f) (outcome f)) in
  do! _ := (if is_ok logged then finish_marker l marker else sret tt) in
  sret r.

(** The loop; the turns are those that happen, and the result says whether it ended. *)
Fixpoint turns (l : EventLog) (marker : option str) (ts : list Turn) (next_sample next_maintenance : Z) (r : Reporter) :
    IO (Reporter * bool) :=
  match ts with
  | [] => sret (r, false)
  | t :: ts =>
      match heard t with
      | Finished f => do! r := conclude l marker f t r in sret (r, true)
      | Disconnected =>
          do! r := panic l t r in
          do! r := report_failures l true t r in
          sret (r, true)
      | Timeout =>
          do! r := report_failures l false t r in
          do! r := panic l t r in
          do! _ := (if next_maintenance <=? maintenance_now t
                    then do! _ := tried (maintenance to_json wall process l) in sret tt else sret tt) in
          let next_maintenance := if next_maintenance <=? maintenance_now t
                                  then maintained_now t + MAINTENANCE_INTERVAL else next_maintenance in
          do! r := (if next_sample <=? sample_now t then summary l "periodic" t r else sret r) in
          let next_sample := if next_sample <=? sample_now t then sampled_now t + SAMPLE_INTERVAL else next_sample in
          turns l marker ts next_sample next_maintenance r
      end
  end.

(** [Reporter::run]: [first] has the readings before the loop. *)
Definition run (l : EventLog) (marker : option str) (first : Turn) (ts : list Turn) (r : Reporter) : IO (Reporter * bool) :=
  do! r := summary l "initial" first r in
  turns l marker ts (sampled_now first + SAMPLE_INTERVAL) (maintained_now first + MAINTENANCE_INTERVAL) r.

(** [Evidence::start], [spawned] being whether the thread started. *)
Definition start (directory : list str) (id : str) (spawned : result Error unit) : IO (EventLog * option str) :=
  do! _ := chance in
  let l := mkEventLog directory id in
  do! _ := validate_path directory in
  do! _ := validate directory INSTANCE_LOCK in
  do! _ := lock directory LOG_LOCK in
  do! _ := lifecycle l "daemon_starting" "startup" None in
  do! marker := begin_marker to_json wall process l in
  match spawned with
  | Ok _ => sret (l, marker)
  | Err e =>
      do! logged := tried (lifecycle l "daemon_failed" "observability" (Some (capture "observability" e))) in
      do! _ := (if is_ok logged then finish_marker l marker else sret tt) in
      serr (Invalid "START_FAILED: cannot start runtime evidence reporter")
  end.

(** [Evidence::ready] *)
Definition ready (l : EventLog) : IO unit := lifecycle l "daemon_ready" "ready" None.

(** What [Evidence::finish] sends. *)
Definition finish_message (name : string) (error : option Error) : Finish := mkFinish name (capture name <$> error).

(** A whole instance: it starts, may become ready, and the reporter runs. *)
Definition instance_log (directory : list str) (id : str) (now : Z) (becomes_ready : bool) (first : Turn) (ts : list Turn) :
    IO (option str * bool) :=
  do! started := start directory id (Ok tt) in
  let '(l, marker) := started in
  do! _ := (if becomes_ready then do! _ := tried (ready l) in sret tt else sret tt) in
  do! ended := run l marker first ts (new_reporter now) in
  sret (marker, snd ended).

End Run.

End Reporter.
