(* ===== verification/DirSpec.v ===== *)
(** * What operations on one directory do to its files

    [runs dir v m Q]: started when the directory [dir] holds the files [v], temporary files
    apart, the operation [m] changes nothing outside of the directory, and whatever fails or
    wherever the process dies its result and the files it leaves satisfy [Q]. *)
From S2P Require Import Prelude Disk DiskFacts.

Module DirSpec.
Import Disk DiskFacts.

Implicit Types (t v : Entries) (n : str).

(** Names [atomic_write] gives to files that are not finished. *)
Definition temporary (n : str) : bool := starts_with (lit ".write-") n.

Definition visible (t : Entries) : Entries := filter (λ kv, temporary kv.1 = false) t.

(** No file has two names. *)
Definition plain (t : Entries) : Prop := ∀ n b o, t !! n ≠ Some (Linked b o).

(** From a directory with exactly the entries [t]. *)
Definition exactly {E A : Type} (dir : list str) (t : Entries) (m : SE Disk E A) (Q : result E A → Entries → Prop) : Prop :=
  ∀ d, node_at dir (root d) = Some (Dir t) →
    let '(d', r) := m d in ∃ t', root d' = set_at dir (Dir t') (root d) ∧ Q r t'.

Definition runs {E A : Type} (dir : list str) (v : Entries) (m : SE Disk E A) (Q : result E A → Entries → Prop) : Prop :=
  ∀ t, plain t → visible t = v → exactly dir t m (λ r t', plain t' ∧ Q r (visible t')).

(** ** Views *)

Lemma visible_lookup t n : temporary n = false → visible t !! n = t !! n.
Proof.
  intros Hn. unfold visible. destruct (t !! n) as [x|] eqn:E.
  - by apply map_lookup_filter_Some.
  - apply map_lookup_filter_None. by left.
Qed.

Lemma visible_insert t n x : temporary n = false → visible (<[n := x]> t) = <[n := x]> (visible t).
Proof. intros Hn. unfold visible. by rewrite map_filter_insert_True. Qed.

Lemma visible_insert_temp t n x : temporary n = true → visible (<[n := x]> t) = visible (delete n t).
Proof. intros Hn. unfold visible. rewrite map_filter_insert_False; [done|]. simpl. congruence. Qed.

Lemma visible_delete t n : visible (delete n t) = delete n (visible t).
Proof. apply map_filter_delete. Qed.

Lemma visible_temp t n : temporary n = true → visible t !! n = None.
Proof. intros Hn. apply map_lookup_filter_None. right. intros x _. simpl. congruence. Qed.

Lemma visible_delete_temp t n : temporary n = true → visible (delete n t) = visible t.
Proof. intros Hn. rewrite visible_delete, delete_id; [done|]. by apply visible_temp. Qed.

Lemma plain_insert t n x : plain t → (∀ b o, x ≠ Linked b o) → plain (<[n := x]> t).
Proof.
  intros Ht Hx m b o. destruct (decide (m = n)) as [->|]; [rewrite lookup_insert_eq; congruence|].
  rewrite lookup_insert_ne by done. apply Ht.
Qed.

Lemma plain_delete t n : plain t → plain (delete n t).
Proof.
  intros Ht m b o. destruct (decide (m = n)) as [->|]; [by rewrite lookup_delete_eq|].
  rewrite lookup_delete_ne by done. apply Ht.
Qed.

Lemma temp_visible n m : temporary n = false → temporary m = true → n ≠ m.
Proof. congruence. Qed.

(** From a state of the disk. *)
Lemma runs_at {E A : Type} (dir : list str) v (m : SE Disk E A) Q d t :
  runs dir v m Q → node_at dir (root d) = Some (Dir t) → plain t → visible t = v →
  let '(d', r) := m d in ∃ t', root d' = set_at dir (Dir t') (root d) ∧ plain t' ∧ Q r (visible t').
Proof. intros Hm Hd Hp Hv. exact (Hm t Hp Hv d Hd). Qed.

(** ** Composition *)

Lemma exactly_bind {E A B : Type} (dir : list str) t (m : SE Disk E A) (k : A → SE Disk E B) Q S :
  exactly dir t m Q → (∀ a t', Q (Ok a) t' → exactly dir t' (k a) S) → (∀ e t', Q (Err e) t' → S (Err e) t') →
  exactly dir t (sbind m k) S.
Proof.
  intros Hm Hk He d Hd. specialize (Hm d Hd). unfold sbind. destruct (m d) as [d1 [a|e]].
  - destruct Hm as (t1 & H1 & HQ). assert (node_at dir (root d1) = Some (Dir t1)) as Hd1.
    { rewrite H1. by eapply node_at_set_eq. }
    specialize (Hk a _ HQ d1 Hd1). destruct (k a d1) as [d2 r]. destruct Hk as (t2 & H2 & HS).
    exists t2. rewrite H2, H1, set_at_set. done.
  - destruct Hm as (t1 & H1 & HQ). exists t1. auto.
Qed.

Lemma exactly_same {E A : Type} (dir : list str) t (m : SE Disk E A) (Q : result E A → Entries → Prop) :
  (∀ d, root (fst (m d)) = root d ∧ Q (snd (m d)) t) → exactly dir t m Q.
Proof.
  intros H d Hd. specialize (H d). destruct (m d) as [d' r]. destruct H as [H1 H2]. simpl in *.
  exists t. split; [|done]. rewrite H1. symmetry. by apply set_at_same.
Qed.

Lemma exactly_mono {E A : Type} (dir : list str) t (m : SE Disk E A) (Q S : result E A → Entries → Prop) :
  exactly dir t m Q → (∀ r t', Q r t' → S r t') → exactly dir t m S.
Proof. intros Hm HQ d Hd. specialize (Hm d Hd). destruct (m d). destruct Hm as (t' & H1 & H2). eauto. Qed.

Lemma exactly_tried {E A : Type} (dir : list str) t (m : SE Disk E A) (Q : result E (result E A) → Entries → Prop) :
  exactly dir t m (λ r t', Q (Ok r) t') → exactly dir t (tried m) Q.
Proof. intros Hm d Hd. specialize (Hm d Hd). unfold tried. by destruct (m d). Qed.

Lemma runs_seq {E A B : Type} (dir : list str) v (m : SE Disk E A) (k : A → SE Disk E B) Q S :
  runs dir v m Q → (∀ a v', Q (Ok a) v' → runs dir v' (k a) S) → (∀ e v', Q (Err e) v' → S (Err e) v') →
  runs dir v (sbind m k) S.
Proof.
  intros Hm Hk He t Hp Hv. eapply exactly_bind; [by apply Hm| |].
  - intros a t' [Hp' HQ]. by apply (Hk a (visible t')).
  - intros e t' [Hp' HQ]. eauto.
Qed.

Lemma runs_weaken {E A : Type} (dir : list str) v (m : SE Disk E A) Q S :
  runs dir v m Q → (∀ r v', Q r v' → S r v') → runs dir v m S.
Proof. intros Hm HQ t Hp Hv. eapply exactly_mono; [by apply Hm|]. intros r t' [H1 H2]. auto. Qed.

Lemma runs_same {E A : Type} (dir : list str) v (m : SE Disk E A) (Q : result E A → Entries → Prop) :
  (∀ d, root (fst (m d)) = root d ∧ Q (snd (m d)) v) → runs dir v m Q.
Proof.
  intros H t Hp <-. apply exactly_same. intros d. destruct (H d). auto.
Qed.

Lemma runs_ret {E A : Type} (dir : list str) v (a : A) (Q : result E A → Entries → Prop) : Q (Ok a) v → runs dir v (sret a) Q.
Proof. intros H. by apply runs_same. Qed.

Lemma runs_err {E A : Type} (dir : list str) v (e : E) (Q : result E A → Entries → Prop) : Q (Err e) v → runs dir v (serr e) Q.
Proof. intros H. by apply runs_same. Qed.

Lemma runs_lifted {E A : Type} (dir : list str) v (r : result E A) Q : Q r v → runs dir v (lifted r) Q.
Proof. intros H. by apply runs_same. Qed.

Lemma runs_tried {E A : Type} (dir : list str) v (m : SE Disk E A) (Q : result E (result E A) → Entries → Prop) :
  runs dir v m (λ r v', Q (Ok r) v') → runs dir v (tried m) Q.
Proof. intros Hm t Hp Hv. by apply exactly_tried, Hm. Qed.

(** The result of an operation that is looked at. *)
Lemma exactly_try {E A B : Type} (dir : list str) t (m : SE Disk E A) (k : result E A → SE Disk E B) Q S :
  exactly dir t m Q → (∀ r t', Q r t' → exactly dir t' (k r) S) → exactly dir t (sbind (tried m) k) S.
Proof.
  intros Hm Hk. apply (exactly_bind dir t (tried m) k (λ r t', ∃ r', r = Ok r' ∧ Q r' t')).
  - apply exactly_tried. eapply exactly_mono; [exact Hm|]. eauto.
  - intros r t' (r' & [= ->] & HQ). auto.
  - by intros e t' (r' & H & _).
Qed.

Lemma runs_try {E A B : Type} (dir : list str) v (m : SE Disk E A) (k : result E A → SE Disk E B) Q S :
  runs dir v m Q → (∀ r v', Q r v' → runs dir v' (k r) S) → runs dir v (sbind (tried m) k) S.
Proof.
  intros Hm Hk t Hp Hv. eapply exactly_try; [by apply Hm|]. intros r t' [Hp' HQ]. by apply (Hk r (visible t')).
Qed.

(** A failure that changes nothing is passed on. *)
Lemma runs_then {E A B : Type} (dir : list str) v (m : SE Disk E A) (k : A → SE Disk E B) Q S :
  runs dir v m (λ r v', v' = v ∧ ∀ a, r = Ok a → Q a) → (∀ a, Q a → runs dir v (k a) S) → (∀ e, S (Err e) v) →
  runs dir v (sbind m k) S.
Proof.
  intros Hm Hk He. eapply runs_seq; [exact Hm| |].
  - intros a v' [-> HQ]. by apply Hk, HQ.
  - intros e v' [-> _]. done.
Qed.

(** ** Steps *)

Lemma exactly_in_dir {A : Type} (dir : list str) t (f : Entries → result IoError (Entries * A)) (Q : result IoError A → Entries → Prop) :
  (∀ e, (e = Crashed ∨ e = Invalid "I/O error" ∨ f t = Err e) → Q (Err e) t) →
  (∀ t' a, f t = Ok (t', a) → Q (Ok a) t' ∧ Q (Err (Invalid "I/O error")) t' ∧ Q (Err Crashed) t') →
  exactly dir t (atomic (in_dir dir f)) Q.
Proof.
  intros He Ho d Hd. unfold atomic, prim, whole, in_dir. rewrite Hd.
  assert (∀ e, (e = Crashed ∨ e = Invalid "I/O error" ∨ f t = Err e) →
    ∃ t', root d = set_at dir (Dir t') (root d) ∧ Q (Err e) t') as Hsame.
  { intros e H. exists t. split; [symmetry; by apply set_at_same|by apply He]. }
  destruct (crashed d); [apply Hsame; by left|].
  destruct (f t) as [[t' a]|e] eqn:Ef.
  - destruct (Ho t' a eq_refl) as (H2 & H3 & H4).
    destruct (script d) as [|[|[]|[]] s]; simpl; try (exists t'; done); apply Hsame; auto.
  - destruct (script d) as [|[|[]|[]] s]; simpl; apply Hsame; auto.
Qed.

Lemma runs_in_dir {A : Type} (dir : list str) v (f : Entries → result IoError (Entries * A)) (Q : result IoError A → Entries → Prop) :
  (∀ t e, plain t → visible t = v → (e = Crashed ∨ e = Invalid "I/O error" ∨ f t = Err e) → Q (Err e) v) →
  (∀ t t' a, plain t → visible t = v → f t = Ok (t', a) →
     plain t' ∧ Q (Ok a) (visible t') ∧ Q (Err (Invalid "I/O error")) (visible t') ∧ Q (Err Crashed) (visible t')) →
  runs dir v (atomic (in_dir dir f)) Q.
Proof.
  intros He Ho t Hp Hv. apply exactly_in_dir.
  - intros e H. split; [done|]. rewrite Hv. by eapply He.
  - intros t' a Hf. destruct (Ho t t' a Hp Hv Hf) as (H1 & H2 & H3 & H4). done.
Qed.

(** A step that only looks. *)
Lemma runs_look {A : Type} (dir : list str) v (f : Entries → result IoError (Entries * A)) (Q : result IoError A → Prop) :
  (∀ t e, plain t → visible t = v → (e = Crashed ∨ e = Invalid "I/O error" ∨ f t = Err e) → Q (Err e)) →
  (∀ t t' a, plain t → visible t = v → f t = Ok (t', a) → t' = t ∧ Q (Ok a)) →
  runs dir v (atomic (in_dir dir f)) (λ r v', v' = v ∧ Q r).
Proof.
  intros He Ho. apply runs_in_dir; [eauto|]. intros t t' a Hp Hv Hf. destruct (Ho t t' a Hp Hv Hf) as [-> HQ].
  split; [done|]. split; [done|]. split; (split; [done|]); apply (He t); auto.
Qed.

Lemma runs_chance (dir : list str) v : runs dir v chance (λ r v', v' = v ∧ ∀ e, r = Err e → e ≠ NotFound).
Proof.
  apply runs_same. intros d. unfold chance, atomic, prim, whole.
  destruct (crashed d); [|destruct (script d) as [|[|[]|[]] s]]; (split; [done|]); split; try done; by intros e [= <-].
Qed.

Lemma runs_component (dir : list str) v n : runs dir v (component n) (λ r v', v' = v ∧ ∀ e, r = Err e → e ≠ NotFound).
Proof.
  unfold component. destruct (single_component n); [apply runs_ret|apply runs_err]; (split; [done|]); [done|by intros e [= <-]].
Qed.

Lemma runs_nonce (dir : list str) v : runs dir v nonce (λ r v', v' = v).
Proof.
  unfold nonce. eapply runs_then with (Q := λ _, True); [|by intros; apply runs_ret|done].
  apply runs_same. intros d. unfold getrandom. destruct (crashed d); [done|]. destruct (random d) as [|b bs]; [done|].
  by destruct (_ =? _)%nat.
Qed.

(** What opening a checked file says of it. *)
Definition opened (v : Entries) (n : str) (r : result IoError str) : Prop :=
  match r with
  | Ok b => v !! n = Some (File b)
  | Err e => e = NotFound → v !! n = None
  end.

Lemma runs_open_file (dir : list str) v n : temporary n = false → runs dir v (open_file dir n) (λ r v', v' = v ∧ opened v n r).
Proof.
  intros Hn. unfold open_file. eapply runs_seq; [apply runs_component| |].
  - intros [] v' [-> _]. apply (runs_look dir v _ (opened v n)).
    + intros t e _ <- [->|[->|H]]; simpl; try done. rewrite visible_lookup by done.
      destruct (t !! n) as [[]|]; try done; by injection H as <-.
    + intros t t' a _ <- H. simpl. rewrite visible_lookup by done. destruct (t !! n) as [[b| | |]|]; try done.
      by injection H as <- <-.
  - intros e v' [-> He]. split; [done|]. simpl. intros ->. by destruct (He _ eq_refl).
Qed.

Lemma runs_read (dir : list str) v n (limit : Z) : temporary n = false → runs dir v (read dir n limit) (λ r v', v' = v ∧ opened v n r).
Proof.
  intros Hn. unfold read. eapply runs_seq; [by apply runs_open_file| |by auto].
  intros b v' [-> Hb]. eapply runs_seq; [apply runs_chance| |].
  - intros [] v' [-> _]. destruct (limit <? len b); [by apply runs_err|by apply runs_ret].
  - intros e v' [-> He]. split; [done|]. intros ->. by destruct (He _ eq_refl).
Qed.

Lemma runs_metadata (dir : list str) v n : temporary n = false →
  runs dir v (file_metadata dir n) (λ r v', v' = v ∧
    match r with Ok l => ∃ b, v !! n = Some (File b) ∧ l = len b | Err e => e = NotFound → v !! n = None end).
Proof.
  intros Hn. unfold file_metadata. eapply runs_seq; [by apply runs_open_file| |by auto].
  intros b v' [-> Hb]. eapply runs_seq; [apply runs_chance| |].
  - intros [] v' [-> _]. apply runs_ret. eauto.
  - intros e v' [-> He]. split; [done|]. intros ->. by destruct (He _ eq_refl).
Qed.

Lemma runs_validate (dir : list str) v n : temporary n = false → runs dir v (validate dir n) (λ r v', v' = v).
Proof.
  intros Hn. unfold validate. eapply runs_seq; [by apply runs_open_file|intros b v' [-> _]; by apply runs_ret|by intros e v' [-> _]].
Qed.

Lemma runs_exists (dir : list str) v n : temporary n = false →
  runs dir v (exists_ dir n) (λ r v', v' = v ∧ ∀ b, r = Ok b → b = is_some (v !! n)).
Proof.
  intros Hn. unfold exists_. eapply runs_seq; [apply runs_component| |by intros e v' [-> _]].
  intros [] v' [-> _]. apply (runs_look dir v _ (λ r, ∀ b, r = Ok b → b = is_some (v !! n))); [done|].
  intros t t' a _ <- [= <- <-]. split; [done|]. rewrite visible_lookup by done. by intros b [= <-].
Qed.

(** Creating an empty file. *)
Lemma runs_create (dir : list str) v n : temporary n = false →
  runs dir v (create_file dir n) (λ r v', (v' = v ∧ is_ok r = false) ∨ (v !! n = None ∧ v' = <[n := File []]> v)).
Proof.
  intros Hn. unfold create_file. eapply runs_then with (Q := λ _, True).
  - eapply runs_weaken; [apply runs_component|]. by intros r v' [-> _].
  - intros [] _. apply runs_in_dir; [by left|].
    intros t t' a Hp <- H. rewrite visible_lookup by done. destruct (t !! n) eqn:E; [done|]. injection H as <- _.
    split; [by apply plain_insert|]. rewrite visible_insert by done. auto.
  - by left.
Qed.

(** Writing to a file that is there: whole on success, torn otherwise. *)
Lemma exactly_write (dir : list str) t n (b new : str) (torn : nat → str) (Q : result IoError unit → Entries → Prop) :
  t !! n = Some (File b) →
  (∀ e, Q (Err e) t) → Q (Ok tt) (<[n := File new]> t) → (∀ e k, Q (Err e) (<[n := File (torn k)]> t)) →
  exactly dir t (prim (λ x, Ok (put dir n new x, tt)) (λ k x, put dir n (torn k) x)) Q.
Proof.
  intros Hb He Ho Ht d Hd.
  assert (∀ c, put dir n c (root d) = set_at dir (Dir (<[n := File c]> t)) (root d)) as Hput.
  { intros c. unfold put. by eapply set_at_snoc. }
  unfold prim. destruct (crashed d).
  { exists t. split; [symmetry; by apply set_at_same|apply He]. }
  destruct (script d) as [|[|k|k] s]; simpl; eexists; (split; [apply Hput|auto]).
Qed.

Lemma runs_prim_write (dir : list str) v n (b new : str) (torn : nat → str) (Q : result IoError unit → Entries → Prop) :
  temporary n = false → v !! n = Some (File b) →
  (∀ e, Q (Err e) v) → Q (Ok tt) (<[n := File new]> v) → (∀ e k, Q (Err e) (<[n := File (torn k)]> v)) →
  runs dir v (prim (λ x, Ok (put dir n new x, tt)) (λ k x, put dir n (torn k) x)) Q.
Proof.
  intros Hn Hb He Ho Ht t Hp <-. rewrite visible_lookup in Hb by done.
  apply (exactly_write dir t n b); [done|by split|..]; intros; (split; [by apply plain_insert|]); by rewrite visible_insert.
Qed.

Lemma runs_append (dir : list str) v n (old bytes : str) : temporary n = false → v !! n = Some (File old) →
  runs dir v (append_file dir n old bytes) (λ r v',
    match r with
    | Ok _ => v' = <[n := File (old ++ bytes)]> v
    | Err _ => v' = v ∨ ∃ k, v' = <[n := File (old ++ take k bytes)]> v
    end).
Proof.
  intros Hn Hold. apply (runs_prim_write dir v n old _ (λ k, old ++ take k bytes)); eauto.
Qed.

Lemma runs_remove (dir : list str) v n : temporary n = false →
  runs dir v (remove_file dir n) (λ r v',
    match r with Ok _ => v' = delete n v | Err _ => v' = v ∨ v' = delete n v end).
Proof.
  intros Hn. unfold remove_file. eapply runs_then with (Q := λ _, True); [|intros [] _|by left].
  { eapply runs_weaken; [apply runs_component|]. by intros r v' [-> _]. }
  apply runs_in_dir; [by left|]. intros t t' a Hp <- H.
  assert (unlink n t = delete n t) as Hu.
  { unfold unlink. destruct (t !! n) as [[|b o| |]|] eqn:E; try done. by destruct (Hp n b o). }
  assert (t' = delete n t) as -> by (destruct (t !! n) as [[]|]; congruence).
  split; [by apply plain_delete|]. rewrite visible_delete. auto.
Qed.

(** Renaming a file over a file. *)
Definition moved (v : Entries) (from to b : str) : Entries := <[to := File b]> (delete from v).

Lemma runs_move (dir : list str) v (from to b : str) : temporary from = false → temporary to = false → from ≠ to →
  v !! from = Some (File b) → (v !! to = None ∨ ∃ c, v !! to = Some (File c)) →
  runs dir v (rename dir from to) (λ r v',
    match r with Ok _ => v' = moved v from to b | Err _ => v' = v ∨ v' = moved v from to b end).
Proof.
  intros Hf Ht Hne Hb Hto. unfold rename.
  eapply runs_then with (Q := λ _, True); [|intros [] _|by left].
  { eapply runs_weaken; [apply runs_component|]. by intros r v' [-> _]. }
  eapply runs_then with (Q := λ _, True); [|intros [] _|by left].
  { eapply runs_weaken; [apply runs_component|]. by intros r v' [-> _]. }
  apply runs_in_dir; [by left|]. intros t t' a Hp <- H. rewrite visible_lookup in Hb, Hto by done.
  unfold rename_entry in H. rewrite Hb, bool_decide_eq_false_2 in H by done.
  assert (t' = <[to := File b]> (delete from t)) as ->.
  { assert (unlink to t = delete to t) as Hu.
    { unfold unlink. destruct Hto as [->|[c ->]]; done. }
    rewrite Hu in H. assert (Ok (<[to:=File b]> (delete from (delete to t)), tt) = Ok (t', a)) as H'
      by (destruct Hto as [E|[c E]]; rewrite E in H; done).
    injection H' as <- _. apply map_eq. intros m. destruct (decide (m = to)) as [->|Hm]; [by rewrite !lookup_insert_eq|].
    rewrite !lookup_insert_ne by done. destruct (decide (m = from)) as [->|]; [by rewrite !lookup_delete_eq|].
    by rewrite !lookup_delete_ne. }
  split; [apply plain_insert; [by apply plain_delete|done]|]. unfold moved. rewrite visible_insert, visible_delete by done. auto.
Qed.

(** ** Replacing a file *)

Lemma runs_remove_temp (dir : list str) v n : temporary n = true → runs dir v (remove_file dir n) (λ _ v', v' = v).
Proof.
  intros Hn. unfold remove_file. eapply runs_then with (Q := λ _, True); [|intros [] _|done].
  { eapply runs_weaken; [apply runs_component|]. by intros r v' [-> _]. }
  apply runs_in_dir; [done|]. intros t t' a Hp <- H.
  assert (unlink n t = delete n t) as Hu.
  { unfold unlink. destruct (t !! n) as [[|b o| |]|] eqn:E; try done. by destruct (Hp n b o). }
  assert (t' = delete n t) as -> by (destruct (t !! n) as [[]|]; congruence).
  split; [by apply plain_delete|]. by rewrite visible_delete_temp.
Qed.

Section Replace.
Context (dir : list str) (name temp bytes : str) (v : Entries).
Context (Hname : temporary name = false) (Htemp : temporary temp = true).

(** The temporary file, however far it has come. *)
Definition staged (t t' : Entries) : Prop := t' = t ∨ (t !! temp = None ∧ ∃ c, t' = <[temp := File c]> t).

Lemma staged_view t t' : plain t → staged t t' → plain t' ∧ visible t' = visible t.
Proof.
  intros Hp [->|[H [c ->]]]; [done|]. split; [by apply plain_insert|].
  rewrite visible_insert_temp by done. by rewrite delete_id.
Qed.

Lemma exactly_component t n : exactly dir t (component n) (λ _ t', t' = t).
Proof. apply exactly_same. intros d. unfold component. by destruct (single_component n). Qed.

Lemma exactly_chance t : exactly dir t chance (λ _ t', t' = t).
Proof.
  apply exactly_same. intros d. unfold chance, atomic, prim, whole.
  by destruct (crashed d); [|destruct (script d) as [|[|[]|[]] s]].
Qed.

Lemma exactly_write_new t : exactly dir t (write_new dir temp bytes) (λ r t',
  staged t t' ∧ (is_ok r = true → t !! temp = None ∧ t' = <[temp := File bytes]> t)).
Proof.
  unfold write_new, create_file.
  eapply exactly_bind with (Q := λ r t', staged t t' ∧ (is_ok r = true → t !! temp = None ∧ t' = <[temp := File []]> t)).
  - eapply exactly_bind; [apply exactly_component| |by intros e t' ->; split; [left|]].
    intros [] t' ->. apply exactly_in_dir; [by intros e _; split; [left|]|].
    intros t' a. destruct (t !! temp) eqn:E; [done|]. intros [= <- _].
    assert (staged t (<[temp:=File []]> t)) by (right; eauto). done.
  - intros [] t' [_ H]. destruct (H eq_refl) as [H1 ->]. clear H.
    eapply exactly_bind with (Q := λ r t', staged t t' ∧ (is_ok r = true → t !! temp = None ∧ t' = <[temp := File bytes]> t)).
    + unfold write_file. apply (exactly_write dir _ temp [] bytes (λ k, take k bytes)); [by rewrite lookup_insert_eq|..].
      * intros e. split; [right; eauto|done].
      * rewrite insert_insert_eq. split; [right; eauto|done].
      * intros e k. rewrite insert_insert_eq. split; [right; eauto|done].
    + intros [] t' [H2 H3]. eapply exactly_mono; [apply exactly_chance|]. intros r t'' ->. split; [done|]. intros _. by apply H3.
    + intros e t' [H2 H3]. done.
  - intros e t' [H _]. done.
Qed.

Lemma exactly_publish t : plain t → visible t = v → t !! temp = None → (v !! name = None ∨ ∃ c, v !! name = Some (File c)) →
  exactly dir (<[temp := File bytes]> t) (rename dir temp name) (λ r t',
    plain t' ∧ (visible t' = v ∨ visible t' = <[name := File bytes]> v) ∧
    (is_ok r = true → visible t' = <[name := File bytes]> v)).
Proof.
  intros Hp Hv Ht Hn. assert (name ≠ temp) as Hne by congruence.
  destruct (staged_view t (<[temp := File bytes]> t) Hp) as [Hp1 Hv1]; [right; eauto|]. rewrite Hv in Hv1.
  unfold rename. eapply exactly_bind; [apply exactly_component| |intros e t' ->; naive_solver]. intros [] t' ->.
  eapply exactly_bind; [apply exactly_component| |intros e t' ->; naive_solver]. intros [] t' ->.
  apply exactly_in_dir; [intros e _; naive_solver|]. intros t' a H.
  unfold rename_entry in H. rewrite lookup_insert_eq, bool_decide_eq_false_2, lookup_insert_ne in H by done.
  assert (visible t !! name = t !! name) as El by by apply visible_lookup. rewrite <- Hv, El in Hn.
  assert (t' = <[name := File bytes]> (delete temp (unlink name (<[temp := File bytes]> t)))) as ->.
  { destruct Hn as [E|[c E]]; rewrite E in H; by injection H as <- _. }
  assert (unlink name (<[temp := File bytes]> t) = delete name (<[temp := File bytes]> t)) as ->.
  { unfold unlink. rewrite lookup_insert_ne by done. by destruct Hn as [->|[c ->]]. }
  assert (visible (<[name := File bytes]> (delete temp (delete name (<[temp := File bytes]> t)))) = <[name := File bytes]> v) as Hw.
  { rewrite visible_insert, visible_delete_temp, visible_delete, Hv1 by done. by rewrite insert_delete_eq. }
  assert (plain (<[name := File bytes]> (delete temp (delete name (<[temp := File bytes]> t))))) as Hq.
  { apply plain_insert; [|done]. by apply plain_delete, plain_delete. }
  rewrite Hw. naive_solver.
Qed.

End Replace.

Lemma runs_atomic_write (dir : list str) v (name bytes : str) : temporary name = false →
  runs dir v (atomic_write dir name bytes) (λ r v',
    (v' = v ∨ v' = <[name := File bytes]> v) ∧ (is_ok r = true → v' = <[name := File bytes]> v)).
Proof.
  intros Hname. unfold atomic_write.
  eapply runs_then with (Q := λ _, True); [|intros [] _|naive_solver].
  { eapply runs_weaken; [apply runs_component|]. by intros r v' [-> _]. }
  eapply runs_then with (Q := λ b, b = is_some (v !! name)); [by apply runs_exists| |naive_solver]. intros present Hpresent.
  eapply runs_then with (Q := λ _, v !! name = None ∨ ∃ c, v !! name = Some (File c)); [| |naive_solver].
  { destruct present; [|apply runs_ret; split; [done|]; intros _ _; left; by destruct (v !! name)].
    eapply runs_then with (Q := λ c, v !! name = Some (File c)); [|intros c Hc; apply runs_ret; eauto|done].
    eapply runs_weaken; [by apply runs_open_file|]. intros r v' [-> Ho]. split; [done|]. by intros c ->. }
  intros [] Hfile. eapply runs_seq; [apply runs_nonce| |intros e v' ->; naive_solver]. intros s v' ->. cbv zeta.
  set (temp := lit ".write-" ++ s). assert (temporary temp = true) as Htemp.
  { unfold temporary. apply starts_with_true. by exists s. }
  eapply runs_seq with (Q := λ r v', ∃ r', r = Ok r' ∧ (v' = v ∨ v' = <[name := File bytes]> v) ∧
    (is_ok r' = true → v' = <[name := File bytes]> v)).
  - apply runs_tried. intros t Hp Hv. eapply exactly_bind; [apply exactly_write_new| |].
    + intros [] t' [_ H]. destruct (H eq_refl) as [Ht ->]. eapply exactly_bind; [by apply (exactly_publish dir name temp bytes v)| |].
      * intros [] t' (H1 & H2 & H3). eapply exactly_try; [apply exactly_chance|].
        intros r t'' ->. apply exactly_same. intros d. simpl. naive_solver.
      * intros e t' (H1 & H2 & H3). split; [done|]. eauto.
    + intros e t' [H _]. destruct (staged_view temp Htemp t t' Hp H) as [H1 H2]. split; [done|]. exists (Err e). rewrite H2, Hv. naive_solver.
  - intros r v' (r' & [= ->] & H1 & H2). eapply runs_try; [by apply runs_remove_temp|].
    intros r'' v'' ->. by apply runs_lifted.
  - by intros e v' (r' & H & _).
Qed.

(** ** Locks and appending *)

Definition content (v : Entries) (n : str) : str := match v !! n with Some (File b) => b | _ => [] end.

Lemma content_visible t n : temporary n = false → content (visible t) n = content t n.
Proof. intros Hn. unfold content. by rewrite visible_lookup. Qed.

(** Only entry [n] may differ. *)
Definition only (n : str) (v v' : Entries) : Prop := ∀ m, m ≠ n → v' !! m = v !! m.

Lemma only_refl n v : only n v v.
Proof. by intros m _. Qed.

Lemma only_insert n v x : only n v (<[n := x]> v).
Proof. intros m Hm. by rewrite lookup_insert_ne. Qed.

Lemma only_trans n v v' v'' : only n v v' → only n v' v'' → only n v v''.
Proof. intros H1 H2 m Hm. by rewrite H2, H1. Qed.

Lemma content_insert v n b : content (<[n := File b]> v) n = b.
Proof. unfold content. by rewrite lookup_insert_eq. Qed.

(** Entry [n] may be added. *)
Definition adds (n : str) (v v' : Entries) : Prop := only n v v' ∧ v ⊆ v'.

Lemma adds_refl n v : adds n v v.
Proof. split; [apply only_refl|done]. Qed.

Lemma adds_trans n v v' v'' : adds n v v' → adds n v' v'' → adds n v v''.
Proof. intros [H1 H2] [H3 H4]. split; [by eapply only_trans|by etrans]. Qed.

Lemma adds_insert n v x : v !! n = None → adds n v (<[n := x]> v).
Proof. intros H. split; [apply only_insert|by apply insert_subseteq]. Qed.

Lemma runs_open_lock (dir : list str) v n (rounds : nat) : temporary n = false →
  runs dir v (open_lock rounds dir n) (λ _ v', adds n v v').
Proof.
  intros Hn. revert v. induction rounds as [|rounds IH]; intros v; simpl; [apply runs_err, adds_refl|].
  eapply runs_try; [by apply runs_open_file|]. intros r v' [-> Ho].
  destruct r as [b|[]]; try (apply runs_err, adds_refl); [apply runs_ret, adds_refl|].
  eapply runs_try; [by apply runs_create|]. intros r v1 Hv1.
  assert (adds n v v1) as H1 by (destruct Hv1 as [[-> _]|[H ->]]; [apply adds_refl|by apply adds_insert]).
  eapply runs_seq with (Q := λ _ v', v' = v1); [| |by intros e v' ->].
  { destruct r as [[]|[]]; try by apply runs_err. 2: by apply runs_ret.
    eapply runs_seq with (Q := λ _ v', v' = v1); [eapply runs_weaken; [apply runs_chance|by intros ? ? [-> _]]| |by intros e v' ->].
    intros [] v' ->. eapply runs_weaken; [apply runs_chance|by intros ? ? [-> _]]. }
  intros [] v' ->. eapply runs_seq; [apply runs_chance| |by intros e v' [-> _]]. intros [] v' [-> _].
  eapply runs_weaken; [apply IH|]. intros r' v2 H2. by eapply adds_trans.
Qed.

(** A lock that is held has its file. *)
Lemma runs_locked (dir : list str) v n : temporary n = false →
  runs dir v (lock dir n) (λ r v', adds n v v' ∧ (is_ok r = true → ∃ b, v' !! n = Some (File b))).
Proof.
  intros Hn. unfold lock. eapply runs_seq; [by apply runs_open_lock| |done]. intros [] v' Hv.
  eapply runs_seq; [apply runs_chance| |by intros e v'' [-> _]]. intros [] v'' [-> _].
  unfold validate. eapply runs_seq; [by apply runs_open_file| |by intros e v'' [-> _]].
  intros b v'' [-> Hb]. apply runs_ret. split; [done|]. by exists b.
Qed.

Lemma runs_lock (dir : list str) v n : temporary n = false → runs dir v (lock dir n) (λ _ v', only n v v').
Proof. intros Hn. eapply runs_weaken; [by apply runs_locked|]. by intros r v' [[H _] _]. Qed.

(** A new file: all of it, or some of it when the operation fails. *)
Lemma runs_write_new (dir : list str) v n (bytes : str) : temporary n = false →
  runs dir v (write_new dir n bytes) (λ r v',
    (v' = v ∧ is_ok r = false) ∨
    (v !! n = None ∧ ∃ c, v' = <[n := File c]> v ∧ (is_ok r = true → c = bytes))).
Proof.
  intros Hn. unfold write_new. eapply runs_seq; [by apply runs_create| |].
  - intros [] v1 [[_ H]|[Hno ->]]; [done|].
    eapply runs_seq with (Q := λ r v', ∃ c, v' = <[n := File c]> v ∧ (is_ok r = true → c = bytes)).
    + unfold write_file. apply (runs_prim_write dir _ n [] bytes (λ k, take k bytes)); [done|by rewrite lookup_insert_eq|..].
      * intros e. by exists [].
      * rewrite insert_insert_eq. by exists bytes.
      * intros e k. rewrite insert_insert_eq. by exists (take k bytes).
    + intros [] v2 (c & -> & Hc). eapply runs_weaken; [apply runs_chance|]. intros r v3 [-> _]. right. split; [done|].
      exists c. split; [done|]. intros _. by apply Hc.
    + intros e v2 (c & -> & Hc). right. split; [done|]. by exists c.
  - intros e v1 [[-> _]|[Hno ->]]; [by left|]. right. split; [done|]. by exists [].
Qed.

Lemma runs_write_contents (dir : list str) v n (old bytes : str) : temporary n = false → v !! n = Some (File old) →
  runs dir v (write_contents dir n bytes) (λ _ v', only n v v').
Proof.
  intros Hn Hold. unfold write_contents, truncate.
  eapply runs_seq with (Q := λ r v', only n v v' ∧ (is_ok r = true → v' !! n = Some (File []))).
  - apply runs_in_dir; [intros; by split; [apply only_refl|]|]. intros t t' a Hp <- H.
    destruct (t !! n) as [[]|]; try done. injection H as <- _. rewrite visible_insert by done.
    split; [by apply plain_insert|]. split; [|split]; (split; [apply only_insert|]); try done. intros _. by rewrite lookup_insert_eq.
  - intros [] v1 [H1 H2]. eapply runs_seq with (Q := λ _ v', only n v v').
    + apply (runs_prim_write dir v1 n [] bytes (λ k, take k bytes)); [done|by apply H2|done|..]; intros; (eapply only_trans; [exact H1|apply only_insert]).
    + intros [] v2 H3. eapply runs_weaken; [apply runs_chance|]. by intros r v3 [-> _].
    + done.
  - by intros e v1 [H _].
Qed.

Lemma runs_append_bounded (dir : list str) v n (bytes : str) (limit : Z) : temporary n = false →
  len (content v n) + len bytes ≤ limit →
  runs dir v (append_bounded dir n bytes limit) (λ r v', only n v v' ∧
    ∃ k, content v' n = content v n ++ take k bytes ∧ (is_ok r = true → take k bytes = bytes)).
Proof.
  intros Hn Hfit. pose proof (len_nonneg (content v n)).
  assert (∀ e : IoError, only n v v ∧ ∃ k, content v n = content v n ++ take k bytes ∧ (is_ok (A:=unit) (Err e) = true → take k bytes = bytes)) as Hnone.
  { intros e. split; [apply only_refl|]. exists 0%nat. by rewrite app_nil_r. }
  unfold append_bounded. destruct (Z.ltb_spec limit (len bytes)); [lia|].
  eapply runs_try; [by apply runs_open_file|]. intros r v' [-> Ho].
  eapply runs_seq with (Q := λ r v', only n v v' ∧ content v' n = content v n ∧
    ∀ old, r = Ok old → old = content v n ∧ v' !! n = Some (File old)).
  - destruct r as [b|[]]; try (apply runs_err; split; [apply only_refl|done]).
    + apply runs_ret. split; [apply only_refl|]. split; [done|]. intros old [= <-]. unfold content. by rewrite Ho.
    + assert (v !! n = None) as Hno by by apply Ho.
      eapply runs_seq; [by apply runs_create| |].
      * intros [] v1 [[_ H1]|[_ ->]]; [done|]. apply runs_ret. split; [apply only_insert|].
        rewrite content_insert. unfold content. rewrite Hno, lookup_insert_eq. naive_solver.
      * intros e v1 [[-> _]|[_ ->]]; [split; [apply only_refl|done]|]. split; [apply only_insert|].
        rewrite content_insert. unfold content. by rewrite Hno.
  - intros old v1 (H1 & H2 & H3). destruct (H3 old eq_refl) as [-> Hold]. clear H3.
    eapply runs_seq; [apply runs_chance| |].
    + intros [] v2 [-> _]. destruct (Z.ltb_spec limit (len (content v n) + len bytes)); [lia|].
      assert (∀ e : IoError, only n v v1 ∧
        ∃ k, content v1 n = content v n ++ take k bytes ∧ (is_ok (A:=unit) (Err e) = true → take k bytes = bytes)) as Hsame.
      { intros e. split; [done|]. exists 0%nat. by rewrite app_nil_r. }
      eapply runs_seq; [apply runs_chance| |by intros e v' [-> _]; apply (Hsame e)].
      intros [] v' [-> _]. eapply runs_weaken; [by apply runs_append|]. intros [[]|e] v'; simpl.
      * intros ->. split; [eapply only_trans; [exact H1|apply only_insert]|]. exists (length bytes).
        by rewrite content_insert, firstn_all.
      * intros [->|[k ->]]; [apply (Hsame e)|]. split; [eapply only_trans; [exact H1|apply only_insert]|].
        exists k. by rewrite content_insert.
    + intros e v' [-> _]. split; [done|]. exists 0%nat. rewrite app_nil_r. done.
  - intros e v1 (H1 & H2 & _). split; [done|]. exists 0%nat. rewrite app_nil_r. done.
Qed.

(** ** Reading when nothing fails *)

(** A directory whose files are [v], on a disk without further failures. *)
Definition calm (dir : list str) v (d : Disk) : Prop :=
  (∃ t, node_at dir (root d) = Some (Dir t) ∧ visible t = v) ∧ script d = [] ∧ crashed d = false.

(** The operation answers [a] and changes nothing. *)
Definition sees {E A : Type} (dir : list str) v (m : SE Disk E A) (a : A) : Prop := ∀ d, calm dir v d → m d = (d, Ok a).

Lemma sees_bind {E A B : Type} (dir : list str) v (m : SE Disk E A) (k : A → SE Disk E B) a b :
  sees dir v m a → sees dir v (k a) b → sees dir v (sbind m k) b.
Proof. intros Hm Hk d Hd. unfold sbind. rewrite (Hm d Hd). by apply Hk. Qed.

Lemma sees_ret {E A : Type} (dir : list str) v (a : A) : sees dir v (sret (E:=E) a) a.
Proof. by intros d _. Qed.

Lemma sees_tried {E A : Type} (dir : list str) v (m : SE Disk E A) a : sees dir v m a → sees (E:=E) dir v (tried m) (Ok a).
Proof. intros Hm d Hd. unfold tried. by rewrite (Hm d Hd). Qed.

Lemma sees_chance (dir : list str) v : sees dir v chance tt.
Proof.
  intros [x s rs c] (_ & H1 & H2). simpl in *. subst. done.
Qed.

Lemma sees_look {A : Type} (dir : list str) v (f : Entries → result IoError (Entries * A)) a :
  (∀ t, visible t = v → f t = Ok (t, a)) → sees dir v (atomic (in_dir dir f)) a.
Proof.
  intros Hf [x s rs c] ((t & Hd & Hv) & H1 & H2). simpl in *. subst s c. unfold atomic, prim, in_dir. simpl.
  rewrite Hd, (Hf t Hv). simpl. by rewrite set_at_same.
Qed.

Lemma sees_component (dir : list str) v n : single_component n = true → sees dir v (component n) tt.
Proof. intros Hn. unfold component. rewrite Hn. apply sees_ret. Qed.

Lemma sees_open_file (dir : list str) v n b : single_component n = true → temporary n = false → v !! n = Some (File b) →
  sees dir v (open_file dir n) b.
Proof.
  intros Hc Hn Hb. eapply sees_bind; [by apply sees_component|]. apply sees_look. intros t <-.
  rewrite visible_lookup in Hb by done. by rewrite Hb.
Qed.

Lemma sees_read (dir : list str) v n b (limit : Z) : single_component n = true → temporary n = false →
  v !! n = Some (File b) → len b ≤ limit → sees dir v (read dir n limit) b.
Proof.
  intros Hc Hn Hb Hl. eapply sees_bind; [by apply sees_open_file|]. eapply sees_bind; [apply sees_chance|].
  destruct (Z.ltb_spec limit (len b)); [lia|apply sees_ret].
Qed.

Lemma sees_lock (dir : list str) v n b : single_component n = true → temporary n = false → v !! n = Some (File b) →
  sees dir v (lock dir n) tt.
Proof.
  intros Hc Hn Hb. assert (sees dir v (open_lock 2 dir n) tt) as Ho.
  { simpl. eapply sees_bind; [by eapply sees_tried, sees_open_file|]. apply sees_ret. }
  eapply sees_bind; [exact Ho|]. eapply sees_bind; [apply sees_chance|].
  eapply sees_bind; [by apply sees_open_file|apply sees_ret].
Qed.

Lemma sees_exists (dir : list str) v n : single_component n = true → temporary n = false →
  sees dir v (exists_ dir n) (is_some (v !! n)).
Proof.
  intros Hc Hn. eapply sees_bind; [by apply sees_component|]. apply sees_look. intros t <-. by rewrite visible_lookup.
Qed.

End DirSpec.
