(* ===== verification/EventLogFacts.v ===== *)
(** * The log keeps what it is given, the marker what it says

    One append adds its record at the end of the history (the archive followed by the log),
    or a prefix of it when it fails; what rotation drops is the old archive, so the history
    always holds nearly eight MiB of the latest records. The other files of the directory,
    the exit marker among them, are not touched. *)
From S2P Require Import Prelude Utf8 BTree Json Disk DiskFacts DirSpec Bundle Revision Evidence EventLog.

Module EventLogFacts.
Import Evidence Disk DirSpec EventLog.

Implicit Types (v t : Entries).

(** ** One record *)

Definition log_names : list str := [LOG; ARCHIVE; LOG_LOCK].

(** Files that are none of the log's are as they were. *)
Definition frame (v v' : Entries) : Prop := ∀ n, n ∉ log_names → v' !! n = v !! n.

Definition fits (v : Entries) : Prop := len (content v LOG) ≤ LOG_LIMIT ∧ len (content v ARCHIVE) ≤ LOG_LIMIT.

Definition history (v : Entries) : str := content v ARCHIVE ++ content v LOG.

(** The log gained [piece], perhaps after it became the archive. *)
Definition gained (v : Entries) (piece : str) (v' : Entries) : Prop :=
  frame v v' ∧ fits v' ∧
  ((content v' LOG = content v LOG ++ piece ∧ content v' ARCHIVE = content v ARCHIVE) ∨
   (LOG_LIMIT - RECORD_LIMIT < len (content v LOG) ∧ content v' LOG = piece ∧ content v' ARCHIVE = content v LOG)).

Lemma frame_refl v : frame v v.
Proof. by intros n _. Qed.

Lemma frame_trans v v' v'' : frame v v' → frame v' v'' → frame v v''.
Proof. intros H1 H2 n Hn. by rewrite H2, H1. Qed.

Lemma only_frame n v v' : n ∈ log_names → only n v v' → frame v v'.
Proof. intros Hn H m Hm. apply H. by intros ->. Qed.

Lemma gained_nothing v : fits v → gained v [] v.
Proof. intros Hf. split; [apply frame_refl|]. split; [done|]. left. by rewrite app_nil_r. Qed.

Lemma content_only n m v v' : only n v v' → m ≠ n → content v' m = content v m.
Proof. intros H Hm. unfold content. by rewrite H. Qed.

Lemma gained_lock v piece v' v'' : only LOG_LOCK v v' → gained v' piece v'' → gained v piece v''.
Proof.
  intros Ho (Hf & Hfit & H). split; [|split; [done|]].
  - eapply frame_trans; [|exact Hf]. eapply only_frame; [|exact Ho]. do 2 right. left.
  - rewrite (content_only LOG_LOCK LOG v v' Ho), (content_only LOG_LOCK ARCHIVE v v' Ho) in H by done. done.
Qed.

Lemma fits_only v v' : only LOG_LOCK v v' → fits v → fits v'.
Proof.
  intros Ho. unfold fits. by rewrite (content_only LOG_LOCK LOG v v' Ho), (content_only LOG_LOCK ARCHIVE v v' Ho) by done.
Qed.

Lemma gained_append v v1 v2 piece : gained v [] v1 → only LOG v1 v2 → content v2 LOG = content v1 LOG ++ piece →
  len (content v1 LOG) + len piece ≤ LOG_LIMIT → gained v piece v2.
Proof.
  intros (Hf & [Hl Ha] & H) Ho Hc Hlen.
  assert (content v2 ARCHIVE = content v1 ARCHIVE) as Earch by by apply (content_only LOG).
  split; [|split].
  - eapply frame_trans; [exact Hf|]. eapply only_frame; [|exact Ho]. left.
  - unfold fits. rewrite Hc, Earch, len_app. lia.
  - rewrite Hc, Earch. destruct H as [[H1 H2]|(H1 & H2 & H3)].
    + left. by rewrite H1, app_nil_r.
    + right. by rewrite H2.
Qed.

(** ** Operations *)

Section Log.
Context (to_json : Value → str) (wall : Disk → option Z) (process : Z) {marker_serde : Revision.Serde ExitMarker}.
Implicit Types (dir : list str).

Local Abbreviation rotate_log := (rotate_log to_json wall process).
Local Abbreviation append_log_for_instance := (append_log_for_instance to_json wall process).
Local Abbreviation event := (event to_json wall process).

Lemma runs_rotate dir v extra owner : fits v → 0 ≤ extra ≤ RECORD_LIMIT →
  runs dir v (rotate_log dir extra owner) (λ r v', gained v [] v' ∧ (is_ok r = true → len (content v' LOG) + extra ≤ LOG_LIMIT)).
Proof.
  intros Hfit Hextra. assert (gained v [] v) as Hsame by by apply gained_nothing. destruct Hfit as [Hl Ha].
  unfold EventLog.rotate_log. eapply runs_try; [by apply runs_metadata|]. intros r v0 [-> Hr].
  destruct r as [length|[]]; try (by apply runs_err).
  2: { apply runs_ret. split; [done|]. intros _. assert (v !! LOG = None) as E by by apply Hr.
       unfold content. rewrite E, len_nil. unfold LOG_LIMIT, RECORD_LIMIT in *. lia. }
  destruct Hr as (old & Hold & ->). assert (content v LOG = old) as Ec by (unfold content; by rewrite Hold).
  rewrite Ec in Hl. destruct (Z.leb_spec (Z.min (len old + extra) u64_max) LOG_LIMIT) as [Hle|Hgt].
  { apply runs_ret. split; [done|]. intros _. rewrite Ec. unfold u64_max, LOG_LIMIT in *. lia. }
  assert (LOG_LIMIT < len old + extra) as Hbig by (unfold u64_max, LOG_LIMIT in *; lia).
  eapply runs_then with (Q := λ b, b = is_some (v !! ARCHIVE)); [by apply runs_exists| |done]. intros present Hp.
  eapply runs_then with (Q := λ _, v !! ARCHIVE = None ∨ ∃ c, v !! ARCHIVE = Some (File c)); [| |done].
  { destruct present; [|apply runs_ret; split; [done|]; intros _ _; left; by destruct (v !! ARCHIVE)].
    eapply runs_then with (Q := λ _, ∃ c, v !! ARCHIVE = Some (File c)); [|intros c Hc; apply runs_ret; eauto|done].
    eapply runs_weaken; [by apply runs_metadata|]. intros r v' [-> H]. split; [done|]. intros l ->.
    destruct H as (c & H & _). eauto. }
  intros [] Harch. destruct (Z.ltb_spec LOG_LIMIT (len old)); [lia|].
  eapply runs_then with (Q := λ _, True); [by apply runs_ret| |done]. intros [] _.
  assert (gained v [] (moved v LOG ARCHIVE old)) as Hmoved.
  { split; [|split].
    - intros n Hn. unfold moved. unfold log_names in Hn. rewrite !not_elem_of_cons in Hn. rewrite lookup_insert_ne, lookup_delete_ne by naive_solver. done.
    - unfold fits, moved, content. rewrite lookup_insert_eq, lookup_insert_ne, lookup_delete_eq by done. split; [done|lia].
    - right. unfold moved. rewrite content_insert, Ec. split; [lia|]. split; [|done].
      unfold content. by rewrite lookup_insert_ne, lookup_delete_eq. }
  eapply runs_seq; [by apply (runs_move dir v LOG ARCHIVE old)| |by intros e v' [->| ->]].
  intros [] v' ->. eapply runs_seq; [by apply runs_atomic_write| |].
  - intros o v1 [_ Hw]. specialize (Hw eq_refl) as ->. apply runs_ret.
    assert (content (moved v LOG ARCHIVE old) LOG = []) as Hempty.
    { unfold content, moved. by rewrite lookup_insert_ne, lookup_delete_eq. }
    split.
    + eapply gained_append; [exact Hmoved|apply only_insert| |]; rewrite ?content_insert, ?Hempty; [done|by vm_compute].
    + intros _. rewrite content_insert, len_nil. unfold LOG_LIMIT, RECORD_LIMIT in *. lia.
  - intros e v' [[->| ->] _]; (split; [|done]); [done|].
    eapply gained_append; [exact Hmoved|apply only_insert| |]; rewrite ?content_insert; unfold content, moved;
      rewrite lookup_insert_ne, lookup_delete_eq by done; [done|by vm_compute].
Qed.

Lemma runs_append_log dir v bytes owner : fits v →
  runs dir v (append_log_for_instance dir bytes owner) (λ r v', ∃ k,
    gained v (take k bytes) v' ∧ (is_ok r = true → take k bytes = bytes)).
Proof.
  intros Hfit. pose proof (len_nonneg bytes). assert (∀ v', only LOG_LOCK v v' → ∃ k, gained v (take k bytes) v') as Hsame.
  { intros v' Ho. exists 0%nat. eapply gained_lock; [exact Ho|]. by apply gained_nothing, (fits_only v). }
  assert (∀ v', only LOG_LOCK v v' → ∀ e : IoError, ∃ k, gained v (take k bytes) v' ∧ (is_ok (A:=unit) (Err e) = true → take k bytes = bytes)) as Hfail.
  { intros v' Ho e. destruct (Hsame v' Ho) as [k Hk]. by exists k. }
  unfold EventLog.append_log_for_instance. destruct (Z.ltb_spec RECORD_LIMIT (len bytes)); [apply runs_err, Hfail, only_refl|].
  eapply runs_seq; [by apply runs_lock| |by eauto]. intros [] v1 Ho.
  eapply runs_seq; [by apply runs_validate| |by intros e v' ->; eauto]. intros [] v' ->.
  assert (fits v1) as Hfit1 by by apply (fits_only v).
  eapply runs_seq; [apply (runs_rotate dir v1 (len bytes) owner Hfit1); lia| |].
  - intros [] v2 [Hg Hlen]. specialize (Hlen eq_refl). eapply runs_weaken; [by apply runs_append_bounded|].
    intros r v3 (Ho3 & k & Hk & Hok). exists k. split; [|done]. eapply gained_lock; [exact Ho|].
    eapply gained_append; [exact Hg|exact Ho3|exact Hk|]. rewrite len_take. lia.
  - intros e v2 [Hg _]. exists 0%nat. split; [|done]. by eapply gained_lock.
Qed.

Lemma runs_guarded l v : runs (dir l) v (guarded l) (λ _ v', v' = v).
Proof.
  unfold guarded, validate_path. eapply runs_then with (Q := λ _, True); [|intros [] _; by apply runs_validate|done].
  eapply runs_then with (Q := λ _, True); [|intros [] _|done]; (eapply runs_weaken; [apply runs_chance|by intros ? ? [-> _]]).
Qed.

(** An event adds its line, whole if it succeeds. *)
Lemma runs_event l v value : fits v →
  runs (dir l) v (event l value) (λ r v', ∃ time k,
    let bytes := event_line to_json process value (Some (nonce l)) time in
    gained v (take k bytes) v' ∧ (is_ok r = true → take k bytes = bytes)).
Proof.
  intros Hfit. assert (∀ (e : IoError) time, ∃ k, gained v (take k (event_line to_json process value (Some (nonce l)) time)) v ∧
    (is_ok (A:=unit) (Err e) = true → take k (event_line to_json process value (Some (nonce l)) time) = event_line to_json process value (Some (nonce l)) time)) as Hsame.
  { intros e time. exists 0%nat. split; [by apply gained_nothing|done]. }
  unfold EventLog.event.
  eapply runs_then with (Q := λ bytes, ∃ time, bytes = event_line to_json process value (Some (nonce l)) time).
  - apply runs_same. intros d. simpl. split; [done|]. split; [done|]. intros bytes. destruct (_ <=? _); [|done]. intros [= <-]. eauto.
  - intros bytes [time ->]. eapply runs_then with (Q := λ _, True); [| |by exists time].
    { eapply runs_weaken; [apply runs_guarded|]. by intros r v' ->. }
    intros [] _. eapply runs_weaken; [by apply runs_append_log|]. intros r v' (k & H). by exists time, k.
  - intros e. destruct (Hsame e None) as [k Hk]. by exists None, k.
Qed.

Lemma runs_maintenance l v : fits v →
  runs (dir l) v (maintenance to_json wall process l) (λ _ v', gained v [] v').
Proof.
  intros Hv. unfold maintenance. eapply runs_seq; [apply runs_guarded| |intros e v' ->; by apply gained_nothing]. intros [] v' ->.
  assert (∀ v', only LOG_LOCK v v' → gained v [] v') as Hlock.
  { intros v' Ho. eapply gained_lock; [exact Ho|]. by apply gained_nothing, (fits_only v). }
  eapply runs_seq; [by apply runs_lock| |by intros e v' Ho; apply Hlock]. intros [] v1 Ho.
  eapply runs_seq; [by apply runs_validate| |by intros e v' ->; apply Hlock]. intros [] v' ->.
  eapply runs_weaken; [apply runs_rotate; [by apply (fits_only v)|by split]|]. intros r v2 [H _]. by eapply gained_lock.
Qed.

(** ** Any number of records *)

Inductive LogOp := Append (bytes : str) (owner : option str) | Maintain.

(** Operations one after the other, whatever becomes of each. *)
Fixpoint log_session l (ops : list LogOp) : IO (list (result IoError unit)) :=
  match ops with
  | [] => sret []
  | op :: ops =>
      do! r := tried (match op with
                      | Append bytes owner => append_log_for_instance (dir l) bytes owner
                      | Maintain => maintenance to_json wall process l
                      end) in
      do! rs := log_session l ops in
      sret (r :: rs)
  end.

(** What an operation that ended in [r] put into the log. *)
Definition delivered (op : LogOp) (r : result IoError unit) (piece : str) : Prop :=
  match op with
  | Append bytes _ => piece `prefix_of` bytes ∧ (is_ok r = true → piece = bytes)
  | Maintain => piece = []
  end.

(** [v'] has the history of [v] and then [new], but for what came before the latest
    [LOG_LIMIT - RECORD_LIMIT] bytes. *)
Definition retained (v : Entries) (new : str) (v' : Entries) : Prop :=
  ∃ lost, lost ++ history v' = history v ++ new ∧ (lost = [] ∨ LOG_LIMIT - RECORD_LIMIT < len (history v')).

Lemma retained_gained v piece v1 new v' : gained v piece v1 → retained v1 new v' → retained v (piece ++ new) v'.
Proof.
  intros (_ & _ & Hg) (lost & Hl & Hlost). unfold retained, history in *. destruct Hg as [[H1 H2]|(Hbig & H1 & H2)].
  - exists lost. split; [|done]. rewrite Hl, H1, H2. by rewrite <- !app_assoc.
  - exists (content v ARCHIVE ++ lost). split; [rewrite <- app_assoc, Hl, H1, H2; by rewrite <- !app_assoc|].
    right. destruct Hlost as [->|Hlost]; [|done]. simpl in Hl. rewrite Hl, H2, !len_app.
    pose proof (len_nonneg (content v1 LOG)). pose proof (len_nonneg new). lia.
Qed.

Lemma runs_log_session l ops v : fits v →
  runs (dir l) v (log_session l ops) (λ r v', frame v v' ∧ fits v' ∧ ∃ results pieces, r = Ok results ∧
    length results = length ops ∧ Forall3 delivered ops results pieces ∧ retained v (mjoin pieces) v').
Proof.
  revert v. induction ops as [|op ops IH]; intros v Hv; simpl.
  { apply runs_ret. split; [apply frame_refl|]. split; [done|]. exists [], []. split; [done|]. split; [done|]. split; [constructor|].
    exists []. split; [by rewrite app_nil_r|by left]. }
  eapply runs_try with (Q := λ r v1, ∃ piece, delivered op r piece ∧ gained v piece v1).
  { destruct op as [bytes owner|].
    - eapply runs_weaken; [by apply runs_append_log|]. intros r v1 (k & Hg & Hok). exists (take k bytes). split; [|done].
      split; [apply prefix_take|done].
    - eapply runs_weaken; [by apply runs_maintenance|]. intros r v1 Hg. by exists []. }
  intros r v1 (piece & Hd & Hg). assert (frame v v1 ∧ fits v1) as [Hf1 Hfit1] by (destruct Hg as (? & ? & _); done).
  eapply runs_seq; [by apply IH| |by intros e v' (_ & _ & rs & ps & H & _)].
  intros rs v' (Hf & Hfit & rs' & pieces & [= <-] & Hlen & Hall & Hret). apply runs_ret.
  split; [by eapply frame_trans|]. split; [done|]. exists (r :: rs), (piece :: pieces).
  split; [done|]. split; [simpl; by rewrite Hlen|]. split; [by constructor|]. rewrite mjoin_cons.
  eapply retained_gained; [|exact Hret]. done.
Qed.

Lemma fits_visible t : fits (visible t) ↔ fits t.
Proof. unfold fits. by rewrite !content_visible. Qed.

Lemma history_visible t : history (visible t) = history t.
Proof. unfold history. by rewrite !content_visible. Qed.

(** C31: Whatever appends and maintenance the program makes, in any order, whatever system call fails and wherever the process dies: the log and its archive stay within eight MiB each; a record whose append succeeded is in the history whole, in order and after everything before it, a failed one leaves at most a prefix; what rotation drops is older than the latest eight MiB less one record; and no other file of the directory is touched. *)
Theorem log_keeps_recent l ops d t : node_at (dir l) (root d) = Some (Dir t) → plain t → fits t →
  let '(d', r) := log_session l ops d in
  ∃ t' results pieces,
    root d' = set_at (dir l) (Dir t') (root d) ∧ r = Ok results ∧ length results = length ops ∧
    Forall3 delivered ops results pieces ∧ fits t' ∧ retained t (mjoin pieces) t' ∧
    ∀ n, n ∉ log_names → temporary n = false → t' !! n = t !! n.
Proof.
  intros Hd Hp Hf. pose proof (runs_at (dir l) (visible t) _ _ d t (runs_log_session l ops (visible t) (proj2 (fits_visible t) Hf)) Hd Hp eq_refl) as H.
  destruct (log_session l ops d) as [d' r]. destruct H as (t' & H1 & H2 & H3 & H4 & results & pieces & H5 & H6 & H7 & H8).
  exists t', results, pieces. split_and!; try done; [by apply fits_visible| |].
  - destruct H8 as (lost & H8 & H9). exists lost. by rewrite !history_visible in *.
  - intros n Hn Ht. rewrite <- (visible_lookup t' n Ht), <- (visible_lookup t n Ht). by apply H3.
Qed.

End Log.

End EventLogFacts.
