(* ===== verification/ExitFacts.v ===== *)
(** * The exit marker certifies the end

    The marker an instance begins is there until the instance has written how it ended, and
    a marker nobody can read is never touched, whatever fails and wherever the process dies. *)
From S2P Require Import Prelude Utf8 BTree Json Disk DiskFacts DirSpec Bundle Revision Evidence EventLog Reporter EventLogFacts.

Module ExitFacts.
Import Evidence Disk DirSpec EventLog Reporter EventLogFacts.

Implicit Types (v : Entries).

(** ** Events leave everything but the log alone *)

Definition quiet (v v' : Entries) : Prop := frame v v' ∧ fits v'.

Lemma quiet_here v : fits v → quiet v v.
Proof. split; [apply frame_refl|done]. Qed.

Lemma quiet_seq v v' v'' : quiet v v' → quiet v' v'' → quiet v v''.
Proof. intros [H1 _] [H2 H3]. split; [by eapply frame_trans|done]. Qed.

Lemma gained_quiet v piece v' : gained v piece v' → quiet v v'.
Proof. intros (H1 & H2 & _). by split. Qed.

Lemma quiet_marker v v' : quiet v v' → v' !! EXIT_MARKER = v !! EXIT_MARKER.
Proof. intros [H _]. apply H. unfold log_names. rewrite !not_elem_of_cons. by split_and!; [..|apply not_elem_of_nil]. Qed.

(** The log ends with a record; the history has it. *)
Definition at_end (rec : str) (v : Entries) : Prop := ∃ pre, content v LOG = pre ++ rec.
Definition recorded (rec : str) (v : Entries) : Prop := ∃ pre post, history v = pre ++ rec ++ post.

Lemma at_end_recorded rec v : at_end rec v → recorded rec v.
Proof. intros [pre H]. exists (content v ARCHIVE ++ pre), []. unfold history. by rewrite H, app_nil_r, app_assoc. Qed.

Lemma gained_at_end v rec v' : gained v rec v' → at_end rec v'.
Proof. intros (_ & _ & [[H _]|(_ & H & _)]); [by exists (content v LOG)|by exists []]. Qed.

Lemma gained_recorded v rec piece v' : at_end rec v → gained v piece v' → recorded rec v'.
Proof.
  intros [pre Hp] (_ & _ & [[H1 H2]|(_ & H1 & H2)]); unfold recorded, history; rewrite H1, H2, Hp.
  - exists (content v ARCHIVE ++ pre), piece. by rewrite <- !app_assoc.
  - exists pre, piece. by rewrite <- app_assoc.
Qed.

Lemma recorded_marker rec v v' : only EXIT_MARKER v v' → recorded rec v → recorded rec v'.
Proof.
  intros H. unfold recorded, history.
  by rewrite (content_only EXIT_MARKER LOG v v' H), (content_only EXIT_MARKER ARCHIVE v v' H) by done.
Qed.

Section Exit.
Context (to_json : Value → str) (wall : Disk → option Z) (process : Z) (version : string)
  {marker_serde : Revision.Serde ExitMarker}.
Implicit Types (l : EventLog).

Lemma runs_emit l v value : fits v →
  runs (dir l) v (emit to_json wall process l value) (λ r v', is_ok r = true ∧ ∃ piece, gained v piece v').
Proof.
  intros Hfit. unfold emit. eapply runs_try; [by apply runs_event|]. intros r v' (time & k & H & _). apply runs_ret. eauto.
Qed.

(** Operations on the log only, whose own result is a success. *)
Definition talks {A} (l : EventLog) (m : IO A) : Prop := ∀ v, fits v → runs (dir l) v m (λ r v', is_ok r = true ∧ quiet v v').

Lemma talks_ret {A} l (a : A) : talks l (sret a).
Proof. intros v Hv. apply runs_ret. split; [done|by apply quiet_here]. Qed.

Lemma talks_bind {A B} l (m : IO A) (k : A → IO B) : talks l m → (∀ a, talks l (k a)) → talks l (sbind m k).
Proof.
  intros Hm Hk v Hv. eapply runs_seq; [by apply Hm| |by intros e v' [H _]].
  intros a v' [_ Hq]. eapply runs_weaken; [apply Hk, Hq|]. intros r v'' [H1 H2]. split; [done|by apply (quiet_seq v v' v'')].
Qed.

Lemma talks_try {A B} l (m : IO A) (k : result IoError A → IO B) :
  (∀ v, fits v → runs (dir l) v m (λ _ v', quiet v v')) → (∀ r, talks l (k r)) → talks l (sbind (tried m) k).
Proof.
  intros Hm Hk v Hv. eapply runs_try; [by apply Hm|].
  intros r v' Hq. eapply runs_weaken; [apply Hk, Hq|]. intros r' v'' [H1 H2]. split; [done|by apply (quiet_seq v v' v'')].
Qed.

Lemma quiet_event l v value : fits v → runs (dir l) v (event to_json wall process l value) (λ _ v', quiet v v').
Proof.
  intros Hv. eapply runs_weaken; [by apply runs_event|]. intros r v' (time & k & H & _). by eapply gained_quiet.
Qed.

Lemma talks_emit l value : talks l (emit to_json wall process l value).
Proof. intros v Hv. eapply runs_weaken; [by apply runs_emit|]. intros r v' [H [p Hp]]. split; [done|by eapply gained_quiet]. Qed.

Lemma talks_emit_all l values : talks l (emit_all to_json wall process l values).
Proof. induction values as [|x values IH]; [apply talks_ret|]. apply talks_bind; [apply talks_emit|]. by intros _. Qed.

Lemma quiet_maintenance l v : fits v → runs (dir l) v (maintenance to_json wall process l) (λ _ v', quiet v v').
Proof. intros Hv. eapply runs_weaken; [by apply runs_maintenance|]. intros r v'. apply gained_quiet. Qed.

Lemma talks_failures l final (t : Turn) r : talks l (report_failures to_json wall process l final t r).
Proof.
  unfold report_failures. destruct (failures _ _ _ _) as [events r']. apply talks_bind; [apply talks_emit_all|].
  intros _. apply talks_ret.
Qed.

Lemma talks_panic l (t : Turn) r : talks l (panic to_json wall process version l t r).
Proof.
  unfold panic. destruct (panic_reported r); [apply talks_ret|]. destruct (first_panic (seen t)); [|apply talks_ret].
  apply talks_try; [intros v Hv; by apply quiet_event|]. intros r'. apply talks_ret.
Qed.

Lemma talks_summary l name (t : Turn) r : talks l (summary to_json wall process l name t r).
Proof. apply talks_bind; [apply talks_emit|]. intros _. apply talks_ret. Qed.

(** ** The marker *)

Definition own (l : EventLog) : str := marker_bytes (mkExitMarker 1 process (nonce l)).

(** A marker that is not one, or cannot be read. *)
Definition foreign (v : Entries) : Prop :=
  match v !! EXIT_MARKER with
  | None => False
  | Some (File b) => valid_marker b = None
  | Some _ => True
  end.

Lemma runs_previous l v : fits v →
  runs (dir l) v (previous_marker to_json wall process l) (λ r v', quiet v v' ∧ ∃ go, r = Ok go ∧ (go = true → ¬ foreign v)).
Proof.
  intros Hv. unfold previous_marker. eapply runs_try; [by apply runs_read|]. intros r v' [-> Ho].
  assert (∀ value (b : bool), (b = true → ¬ foreign v) → runs (dir l) v (do! _ := emit to_json wall process l value in sret b)
    (λ r v', quiet v v' ∧ ∃ go, r = Ok go ∧ (go = true → ¬ foreign v))) as Hsay.
  { intros value b Hb. eapply runs_seq; [by apply runs_emit| |by intros e v' [H _]].
    intros a v' (_ & piece & H). apply runs_ret. split; [by eapply gained_quiet|eauto]. }
  destruct r as [b|e]; simpl in Ho.
  - destruct (valid_marker b) as [m|] eqn:Em; [|by apply (Hsay _ false)]. apply (Hsay _ true). intros _. unfold foreign. rewrite Ho. congruence.
  - destruct e; try (by apply (Hsay _ false)). apply runs_ret. split; [by apply quiet_here|]. exists true. split; [done|].
    intros _. unfold foreign. rewrite (Ho eq_refl). by intros [].
Qed.

Lemma fits_marker v v' : only EXIT_MARKER v v' → fits v → fits v'.
Proof.
  intros H. unfold fits.
  by rewrite (content_only EXIT_MARKER LOG v v' H), (content_only EXIT_MARKER ARCHIVE v v' H) by done.
Qed.

Definition begun (l : EventLog) (v : Entries) (r : result IoError (option str)) (v' : Entries) : Prop :=
  fits v' ∧ (v' !! EXIT_MARKER = v !! EXIT_MARKER ∨ v' !! EXIT_MARKER = Some (File (own l)) ∧ ¬ foreign v) ∧
  ∃ o, r = Ok o ∧ ∀ b, o = Some b → b = own l ∧ v' !! EXIT_MARKER = Some (File (own l)) ∧ ¬ foreign v.

Lemma begun_quiet l v v1 r v' : quiet v v1 → begun l v1 r v' → begun l v r v'.
Proof.
  intros Hq (H1 & H2 & H3). unfold begun, foreign in *. rewrite (quiet_marker v v1 Hq) in H2, H3. done.
Qed.

Lemma runs_begin l v : fits v → runs (dir l) v (begin_marker to_json wall process l) (begun l v).
Proof.
  intros Hv. assert (∀ v', quiet v v' → begun l v (Ok None) v') as Hnone.
  { intros v' Hq. split; [apply Hq|]. split; [left; by apply quiet_marker|]. exists None. done. }
  unfold begin_marker. eapply runs_try; [apply runs_guarded|]. intros usable v' ->.
  destruct (negb (is_ok usable)); [apply runs_ret, Hnone; by apply quiet_here|].
  eapply runs_seq; [by apply runs_previous| |by intros e v' (_ & go & H & _)].
  intros go v1 (Hq & go' & [= <-] & Hgo). destruct go; simpl; [|by apply runs_ret, Hnone]. specialize (Hgo eq_refl).
  fold (own l). eapply runs_weaken; [|intros r v'; apply (begun_quiet l v v1 r v' Hq)].
  assert (foreign v1 → False) as Hf by (unfold foreign in *; by rewrite (quiet_marker v v1 Hq)).
  assert (fits v1) as Hv1 by apply Hq. clear Hv Hnone Hgo Hq.
  set (w := <[EXIT_MARKER := File (own l)]> v1).
  assert (fits w) as Hw by (eapply fits_marker; [apply only_insert|done]).
  assert (w !! EXIT_MARKER = Some (File (own l))) as Ew by apply lookup_insert_eq.
  eapply runs_try; [by apply runs_atomic_write|]. intros r v' [Hr Hok].
  assert (∀ v2 o, quiet v' v2 → (o = None ∨ o = Some (own l) ∧ v' = w) → begun l v1 (Ok o) v2) as Hend.
  { intros v2 o Hq Ho. split; [apply Hq|]. rewrite (quiet_marker v' v2 Hq). split; [destruct Hr as [->| ->]; auto|].
    exists o. split; [done|]. intros b ->. by destruct Ho as [Ho|[[= ->] ->]]. }
  assert (fits v') as Hv' by by destruct Hr as [->| ->].
  assert (∀ value o, (o = None ∨ o = Some (own l) ∧ v' = w) →
    runs (dir l) v' (do! _ := emit to_json wall process l value in sret o) (begun l v1)) as Hsay.
  { intros value o Ho. eapply runs_seq; [by apply runs_emit| |by intros e v2 [H _]].
    intros a v2 (_ & piece & H). apply runs_ret, Hend; [by eapply gained_quiet|done]. }
  destruct r as [[e|]|e]; [apply Hsay; right; auto|apply runs_ret, Hend; [by apply quiet_here|right; auto]|apply Hsay; by left].
Qed.

Lemma runs_finish l owned v rec : fits v → at_end rec v →
  runs (dir l) v (finish_marker to_json wall process l owned) (λ r v', is_ok r = true ∧ fits v' ∧ recorded rec v' ∧
    (v' !! EXIT_MARKER = v !! EXIT_MARKER ∨
     ∃ b, owned = Some b ∧ v !! EXIT_MARKER = Some (File b) ∧ v' !! EXIT_MARKER = None)).
Proof.
  intros Hv Hend. destruct owned as [b|]; simpl.
  2: { apply runs_ret. split; [done|]. split; [done|]. split; [by apply at_end_recorded|by left]. }
  eapply runs_try with (Q := λ _ v', v' = v ∨ v !! EXIT_MARKER = Some (File b) ∧ v' = delete EXIT_MARKER v).
  - eapply runs_seq; [apply runs_guarded| |by intros e v' ->; left]. intros [] v' ->.
    eapply runs_then with (Q := λ c, v !! EXIT_MARKER = Some (File c)); [| |by left].
    { eapply runs_weaken; [by apply runs_read|]. intros r v' [-> Ho]. split; [done|]. by intros c ->. }
    intros c Hc. eapply runs_then with (Q := λ _, c = b); [| |by left].
    { destruct (eq_str c b) eqn:E; [apply runs_ret; split; [done|]; intros _ _; by apply eq_str_true|by apply runs_err]. }
    intros [] ->. eapply runs_seq; [by apply runs_remove| |].
    + intros [] v' ->. eapply runs_weaken; [apply runs_chance|]. intros r v' [-> _]. auto.
    + intros e v' [->| ->]; auto.
  - intros r v' Hr. assert (only EXIT_MARKER v v') as Ho.
    { destruct Hr as [->|[_ ->]]; [apply only_refl|]. intros m Hm. by rewrite lookup_delete_ne. }
    assert (fits v') as Hv' by by eapply fits_marker. assert (at_end rec v') as Hend'.
    { unfold at_end in *. by rewrite (content_only EXIT_MARKER LOG v v' Ho). }
    assert (v' !! EXIT_MARKER = v !! EXIT_MARKER ∨
     ∃ c, Some b = Some c ∧ v !! EXIT_MARKER = Some (File c) ∧ v' !! EXIT_MARKER = None) as Hm.
    { destruct Hr as [->|[Hb ->]]; [by left|]. right. exists b. by rewrite lookup_delete_eq. }
    destruct (is_ok r); [apply runs_ret; split; [done|]; split; [done|]; split; [by apply at_end_recorded|done]|].
    eapply runs_weaken; [by apply runs_emit|]. intros r' v2 (H1 & piece & Hg). split; [done|]. split; [apply Hg|].
    split; [by eapply gained_recorded|]. by rewrite (quiet_marker v' v2) by by eapply gained_quiet.
Qed.

(** ** An instance *)

Definition final_event (f : Finish) : Value :=
  lifecycle_event (if is_some (outcome f) then "daemon_failed" else "daemon_stopped") (phase f) (outcome f).

Definition final_line (l : EventLog) (f : Finish) (time : option Z) : str :=
  event_line to_json process (final_event f) (Some (nonce l)) time.

(** The marker is as it was, or it was the one given, the loop heard how the instance
    finished, and the log says it. *)
Definition certified (l : EventLog) (marker : option str) (ts : list Turn) (v v' : Entries) : Prop :=
  fits v' ∧
  (v' !! EXIT_MARKER = v !! EXIT_MARKER ∨
   ∃ b f time, marker = Some b ∧ v !! EXIT_MARKER = Some (File b) ∧ v' !! EXIT_MARKER = None ∧
     f ∈ omap (λ t, match heard t with Finished f => Some f | _ => None end) ts ∧ recorded (final_line l f time) v').

Lemma certified_quiet l marker ts v v1 v' : quiet v v1 → certified l marker ts v1 v' → certified l marker ts v v'.
Proof. intros Hq (H1 & H2). unfold certified. by rewrite (quiet_marker v v1 Hq) in H2. Qed.

Lemma quiet_certified l marker ts v v' : quiet v v' → certified l marker ts v v'.
Proof. intros Hq. split; [apply Hq|left; by apply quiet_marker]. Qed.

Lemma runs_quietly {A B} (P : result IoError B → Prop) l marker ts (m : IO A) (k : A → IO B) v : talks l m → fits v →
  (∀ a v1, fits v1 → runs (dir l) v1 (k a) (λ r v', P r ∧ certified l marker ts v1 v')) →
  runs (dir l) v (sbind m k) (λ r v', P r ∧ certified l marker ts v v').
Proof.
  intros Hm Hv Hk. eapply runs_seq; [by apply Hm| |by intros e v' [H _]]. intros a v1 [_ Hq].
  eapply runs_weaken; [apply Hk, Hq|]. intros r v' [H1 H2]. split; [done|by eapply certified_quiet].
Qed.

Lemma runs_conclude l marker f t ts r v : fits v → heard t = Finished f →
  runs (dir l) v (conclude to_json wall process version l marker f t r) (λ r v', is_ok r = true ∧ certified l marker (t :: ts) v v').
Proof.
  intros Hv Hf. unfold conclude.
  apply (runs_quietly (λ r, is_ok r = true)); [apply talks_failures|done|]. intros r1 v1 Hv1.
  apply (runs_quietly (λ r, is_ok r = true)); [apply talks_panic|done|]. intros r2 v2 Hv2.
  apply (runs_quietly (λ r, is_ok r = true)); [apply talks_summary|done|]. intros r3 v3 Hv3.
  unfold lifecycle. fold (final_event f). eapply runs_try; [by apply runs_event|].
  intros logged v4 (time & k & Hg & Hok). fold (final_line l f time) in Hg, Hok. pose proof (gained_quiet _ _ _ Hg) as Hq.
  destruct (is_ok logged).
  - specialize (Hok eq_refl). rewrite Hok in Hg. eapply runs_seq; [apply runs_finish; [apply Hq|by eapply gained_at_end]| |by intros e v' [H _]].
    intros a v' (_ & Hv' & Hrec & Hm). apply runs_ret. split; [done|]. eapply certified_quiet; [exact Hq|]. split; [done|].
    destruct Hm as [Hm|(b & H1 & H2 & H3)]; [by left|]. right. exists b, f, time. simpl. rewrite Hf. split_and!; try done. left.
  - eapply runs_seq with (Q := λ r v', is_ok r = true ∧ v' = v4); [by apply runs_ret| |by intros e v' [H _]].
    intros a v' [_ ->]. apply runs_ret. split; [done|by apply quiet_certified].
Qed.

Lemma certified_later l marker t ts v v' : certified l marker ts v v' → certified l marker (t :: ts) v v'.
Proof.
  intros (H1 & H2). split; [done|]. destruct H2 as [H2|(b & f & time & H3 & H4 & H5 & H6 & H7)]; [by left|].
  right. exists b, f, time. split_and!; try done. simpl. destruct (heard t); [by right|done..].
Qed.

Lemma talks_maintenance l (due : bool) : talks l (if due then do! _ := tried (maintenance to_json wall process l) in sret tt else sret tt).
Proof.
  destruct due; [|apply talks_ret]. apply talks_try; [intros v Hv; by apply quiet_maintenance|]. intros r. apply talks_ret.
Qed.

Lemma runs_turns l marker ts a b r v : fits v →
  runs (dir l) v (turns to_json wall process version l marker ts a b r) (λ r v', is_ok r = true ∧ certified l marker ts v v').
Proof.
  revert a b r v. induction ts as [|t ts IH]; intros a b r v Hv; simpl.
  { apply runs_ret. split; [done|]. by apply quiet_certified, quiet_here. }
  destruct (heard t) as [f| |] eqn:Hf.
  - eapply runs_seq; [by apply (runs_conclude l marker f t ts)|intros r' v' [_ H]; by apply runs_ret|by intros e v' [H _]].
  - apply runs_quietly; [apply talks_panic|done|]. intros r1 v1 Hv1.
    apply (runs_quietly (λ r, is_ok r = true)); [apply talks_failures|done|]. intros r2 v2 Hv2.
    apply runs_ret. split; [done|]. by apply quiet_certified, quiet_here.
  - apply runs_quietly; [apply talks_failures|done|]. intros r1 v1 Hv1.
    apply (runs_quietly (λ r, is_ok r = true)); [apply talks_panic|done|]. intros r2 v2 Hv2.
    apply (runs_quietly (λ r, is_ok r = true)); [apply talks_maintenance|done|]. intros _ v3 Hv3.
    apply (runs_quietly (λ r, is_ok r = true)); [destruct (_ <=? _); [apply talks_summary|apply talks_ret]|done|]. intros r3 v4 Hv4.
    eapply runs_weaken; [by apply IH|]. intros r' v' [H1 H2]. split; [done|by apply certified_later].
Qed.

(** The reporter heard how the instance finished, and the log says it. *)
Definition ended (l : EventLog) (ts : list Turn) (v : Entries) : Prop :=
  ∃ f time, f ∈ omap (λ t, match heard t with Finished f => Some f | _ => None end) ts ∧ recorded (final_line l f time) v.

(** What an instance leaves: its log, and a marker that says whether it is known how it
    ended. [marker] is what it has begun, if it got as far. *)
Definition accounted (l : EventLog) (ts : list Turn) (v : Entries) (marker : option str) (v' : Entries) : Prop :=
  fits v' ∧ (foreign v → v' !! EXIT_MARKER = v !! EXIT_MARKER) ∧
  (v' !! EXIT_MARKER = v !! EXIT_MARKER ∨ v' !! EXIT_MARKER = Some (File (own l)) ∨ v' !! EXIT_MARKER = None ∧ ended l ts v') ∧
  (is_some marker = true → v' !! EXIT_MARKER = Some (File (own l)) ∨ v' !! EXIT_MARKER = None ∧ ended l ts v').

Lemma runs_start directory id v : fits v →
  runs directory v (start to_json wall process directory id (Ok tt)) (λ r v',
    let l := mkEventLog directory id in
    ∃ v1, quiet v v1 ∧ match r with Ok (l', o) => l' = l ∧ begun l v1 (Ok o) v' | Err _ => v' = v1 end).
Proof.
  intros Hv. unfold start. set (l := mkEventLog directory id).
  assert (∀ v', only LOG_LOCK v v' → quiet v v') as Hlock.
  { intros v' Ho. split; [|by eapply fits_only]. eapply only_frame; [|exact Ho]. do 2 right. left. }
  assert (quiet v v) as Hq by by apply quiet_here.
  eapply runs_then with (Q := λ _, True); [eapply runs_weaken; [apply runs_chance|by intros ? ? [-> _]]| |eauto]. intros [] _.
  eapply runs_then with (Q := λ _, True); [| |eauto].
  { unfold validate_path. eapply runs_then with (Q := λ _, True); [|intros [] _|done]; (eapply runs_weaken; [apply runs_chance|by intros ? ? [-> _]]). }
  intros [] _. eapply runs_then with (Q := λ _, True); [|intros [] _|eauto].
  { eapply runs_weaken; [by apply runs_validate|]. by intros r v' ->. }
  eapply runs_seq; [by apply runs_lock| |intros e v1 Ho; exists v1; split; [by apply Hlock|done]]. intros [] v1 Ho. specialize (Hlock v1 Ho).
  eapply runs_seq; [apply (quiet_event l), Hlock| |intros e v2 H2; exists v2; split; [by apply (quiet_seq v v1 v2)|done]].
  intros [] v2 H2. assert (quiet v v2) as Hq2 by by apply (quiet_seq v v1 v2).
  eapply runs_seq; [apply (runs_begin l), Hq2| |]; [|by intros e v3 (_ & _ & o & H & _)].
  intros o v3 H3. apply runs_ret. by exists v2.
Qed.

Lemma quiet_foreign v v' : quiet v v' → foreign v → foreign v'.
Proof. intros Hq. unfold foreign. by rewrite (quiet_marker v v' Hq). Qed.

Lemma accounted_begun l ts v v1 o v2 v3 : quiet v v1 → begun l v1 (Ok o) v2 → certified l o ts v2 v3 → accounted l ts v o v3.
Proof.
  intros Hq (Hf2 & Hm2 & o' & [= <-] & Ho) (Hf3 & Hm3). split; [done|].
  rewrite <- (quiet_marker v v1 Hq).
  assert (foreign v → v2 !! EXIT_MARKER = v1 !! EXIT_MARKER ∧ o = None) as Hforeign.
  { intros Hf. apply (quiet_foreign v v1 Hq) in Hf. destruct Hm2 as [Hm2|[_ Hn]]; [|by destruct Hn].
    split; [done|]. destruct o as [b|]; [|done]. by destruct (Ho b eq_refl) as (_ & _ & Hn). }
  split; [|split].
  - intros Hf. destruct (Hforeign Hf) as [E ->]. destruct Hm3 as [Hm3|(b & f & time & H & _)]; [congruence|done].
  - destruct Hm3 as [->|(b & f & time & _ & _ & H3 & H4 & H5)].
    + destruct Hm2 as [->|[-> _]]; auto.
    + right; right. split; [done|]. by exists f, time.
  - destruct o as [b|]; [|done]. intros _. destruct (Ho b eq_refl) as (_ & Hown & _).
    destruct Hm3 as [->|(b' & f & time & _ & _ & H3 & H4 & H5)]; [by left|]. right. split; [done|]. by exists f, time.
Qed.

Lemma talks_ready l (becomes_ready : bool) :
  talks l (if becomes_ready then do! _ := tried (ready to_json wall process l) in sret tt else sret tt).
Proof.
  destruct becomes_ready; [|apply talks_ret]. apply talks_try; [intros v Hv; by apply quiet_event|]. intros r. apply talks_ret.
Qed.

Lemma runs_instance directory id now becomes_ready first ts v : fits v →
  runs directory v (instance_log to_json wall process version directory id now becomes_ready first ts) (λ r v',
    accounted (mkEventLog directory id) ts v (match r with Ok (marker, _) => marker | Err _ => None end) v').
Proof.
  intros Hv. set (l := mkEventLog directory id). unfold instance_log.
  eapply runs_seq; [by apply runs_start| |].
  - intros [l' o] v2 (v1 & Hq & -> & Hb). fold l in Hb |- *. destruct Hb as (Hf2 & Hb).
    eapply runs_weaken with (Q := λ r v3, (∃ e, r = Ok (o, e)) ∧ certified l o ts v2 v3);
      [|intros r v3 [[e ->] Hc]; by apply (accounted_begun l ts v v1 o v2 v3)].
    apply (runs_quietly (λ r, ∃ e, r = Ok (o, e)) l); [apply talks_ready|done|]. intros [] v3 Hv3. unfold run.
    eapply runs_seq with (Q := λ r v4, is_ok r = true ∧ certified l o ts v3 v4); [| |by intros e v4 [H _]].
    + apply (runs_quietly (λ r, is_ok r = true) l); [apply talks_summary|done|]. intros r v4 Hv4. by apply runs_turns.
    + intros [r e] v4 [_ Hc]. apply runs_ret. eauto.
  - intros e v' (v1 & Hq & ->). split; [apply Hq|]. rewrite (quiet_marker v v1 Hq). naive_solver.
Qed.

Lemma visible_marker t : visible t !! EXIT_MARKER = t !! EXIT_MARKER.
Proof. by apply visible_lookup. Qed.

Lemma accounted_visible l ts t marker t' : accounted l ts (visible t) marker (visible t') → accounted l ts t marker t'.
Proof. unfold accounted, foreign, ended, recorded. by rewrite !visible_marker, fits_visible, history_visible. Qed.

(** The marker an instance writes is one the next instance reads. *)
Lemma valid_own l : 0 < process ≤ i32_max → len (nonce l) = 32 → forallb is_lower_hex (nonce l) = true →
  valid_marker (own l) = Some (mkExitMarker 1 process (nonce l)).
Proof.
  intros Hp Hl Hh. unfold valid_marker, own, marker_bytes, Revision.line. rewrite Revision.from_slice_line. simpl.
  rewrite Hl, Hh, eq_str_refl, !andb_true_r. destruct (Z.ltb_spec 0 process); [|lia]. by destruct (Z.leb_spec process i32_max); [|lia].
Qed.

(** C30: Over the whole life of an instance, whatever system call fails and wherever the process dies, the exit marker tells the truth: once an instance has begun its marker it is there, and valid for the next start, until the reporter has heard how the instance finished and that line is in the log whole; a marker that is not valid or cannot be read is never changed; and the log stays within its limits. *)
Theorem exit_marker_certifies directory id now becomes_ready first ts d t :
  node_at directory (root d) = Some (Dir t) → plain t → fits t →
  0 < process ≤ i32_max → len id = 32 → forallb is_lower_hex id = true →
  let l := mkEventLog directory id in
  let '(d', r) := instance_log to_json wall process version directory id now becomes_ready first ts d in
  ∃ t', root d' = set_at directory (Dir t') (root d) ∧
    fits t' ∧ valid_marker (own l) = Some (mkExitMarker 1 process id) ∧
    (foreign t → t' !! EXIT_MARKER = t !! EXIT_MARKER) ∧
    (t' !! EXIT_MARKER = t !! EXIT_MARKER ∨ t' !! EXIT_MARKER = Some (File (own l)) ∨ t' !! EXIT_MARKER = None ∧ ended l ts t') ∧
    ∀ b e, r = Ok (Some b, e) → t' !! EXIT_MARKER = Some (File (own l)) ∨ t' !! EXIT_MARKER = None ∧ ended l ts t'.
Proof.
  intros Hd Hp Hf Hpid Hlen Hhex l.
  pose proof (runs_at directory (visible t) _ _ d t (runs_instance directory id now becomes_ready first ts (visible t) (proj2 (fits_visible t) Hf)) Hd Hp eq_refl) as H.
  destruct (instance_log _ _ _ _ _ _ _ _ _ _ d) as [d' r]. destruct H as (t' & H1 & H2 & H3).
  apply accounted_visible in H3 as (H3 & H4 & H5 & H6). exists t'. split_and!; try done; [by apply (valid_own l)|].
  intros b e ->. by apply H6.
Qed.

End Exit.

End ExitFacts.
