(* ===== verification/FailureFacts.v ===== *)
(** * Failure events add up

    What the reporter says of a counter depends on that counter only; the events it hands to
    the log report every failure once, at a bounded rate. *)
From S2P Require Import Prelude Utf8 BTree Json Disk DiskFacts Bundle Revision Evidence EventLog Reporter.

Module FailureFacts.
Import Evidence Reporter.

Implicit Types (c : nat * nat * nat) (r : Reporter) (e : FailureEvent).

(** ** Tables *)

Definition shaped {A} (t : Table A) : Prop :=
  length t = 6%nat ∧ Forall (λ rows, length rows = 4%nat ∧ Forall (λ row, length row = 16%nat) rows) t.

Lemma shaped_table {A} (a : A) : shaped (table a).
Proof.
  split; [done|]. unfold table. apply Forall_replicate. split; [done|]. by apply Forall_replicate.
Qed.

Lemma shaped_update f i j k (t : Table Z) : shaped t → shaped (update f i j k t).
Proof.
  intros [H1 H2]. split; [by unfold update; rewrite length_alter|].
  unfold update. apply Forall_alter; [done|]. intros rows _ [H3 H4]. rewrite length_alter. split; [done|].
  apply Forall_alter; [done|]. intros row _ H. by rewrite length_alter.
Qed.

Lemma at_update_eq f i j k (t : Table Z) : shaped t → (i < 6 → j < 4 → k < 16 →
  at_ (update f i j k t) i j k = f (at_ t i j k))%nat.
Proof.
  intros [H1 H2] Hi Hj Hk. unfold at_, update. rewrite list_lookup_alter_eq.
  destruct (lookup_lt_is_Some_2 t i) as [rows Hr]; [lia|]. rewrite Hr. simpl.
  rewrite Forall_lookup in H2. destruct (H2 _ _ Hr) as [H3 H4]. rewrite list_lookup_alter_eq.
  destruct (lookup_lt_is_Some_2 rows j) as [row Hrow]; [lia|]. rewrite Hrow. simpl.
  rewrite Forall_lookup in H4. specialize (H4 _ _ Hrow). rewrite list_lookup_alter_eq.
  destruct (lookup_lt_is_Some_2 row k) as [x Hx]; [lia|]. by rewrite Hx.
Qed.

Lemma at_update_ne f i j k i' j' k' (t : Table Z) : (i, j, k) ≠ (i', j', k') →
  at_ (update f i j k t) i' j' k' = at_ t i' j' k'.
Proof.
  intros Hne. unfold at_, update. destruct (decide (i = i')) as [<-|]; [|by rewrite list_lookup_alter_ne].
  rewrite list_lookup_alter_eq. destruct (t !! i) as [rows|]; [|done]. simpl.
  destruct (decide (j = j')) as [<-|]; [|by rewrite list_lookup_alter_ne].
  rewrite list_lookup_alter_eq. destruct (rows !! j) as [row|]; [|done]. simpl. rewrite list_lookup_alter_ne; [done|]. congruence.
Qed.

Lemma elem_of_cells i j k : (i, j, k) ∈ cells ↔ (i < 6 ∧ j < 4 ∧ k < 16)%nat.
Proof.
  unfold cells. rewrite list_elem_of_bind. setoid_rewrite list_elem_of_bind. setoid_rewrite list_elem_of_bind.
  setoid_rewrite elem_of_seq. setoid_rewrite list_elem_of_singleton. split.
  - intros (a & (b & (x & [= -> -> ->] & H1) & H2) & H3). lia.
  - intros (H1 & H2 & H3). exists i. split; [|lia]. exists j. split; [|lia]. exists k. split; [done|lia].
Qed.

Lemma nodup_cells : NoDup cells.
Proof. apply (bool_decide_unpack _). by vm_compute. Qed.

(** ** One counter *)

Definition wf r : Prop := shaped (reported r) ∧ shaped (last_report r).

Lemma wf_set c n now r : wf r → wf (set_reported c n now r).
Proof. intros [H1 H2]. destruct c as [[i j] k]. split; by apply shaped_update. Qed.

Lemma set_reported_eq c n now r : wf r → c ∈ cells →
  reported_at c (set_reported c n now r) = n ∧ last_at c (set_reported c n now r) = now.
Proof.
  destruct c as [[i j] k]. intros [H1 H2] (Hi & Hj & Hk)%elem_of_cells. unfold reported_at, last_at, set_reported. simpl.
  by rewrite !at_update_eq.
Qed.

Lemma set_reported_ne c c' n now r : c ≠ c' →
  reported_at c' (set_reported c n now r) = reported_at c' r ∧ last_at c' (set_reported c n now r) = last_at c' r.
Proof.
  destruct c as [[i j] k], c' as [[i' j'] k']. intros Hne. unfold reported_at, last_at, set_reported. simpl.
  by rewrite !at_update_ne.
Qed.

Definition loaded (loads : Table Z) c : Z := let '(i, j, k) := c in at_ loads i j k.

(** The events about a counter. *)
Definition about c (events : list FailureEvent) : list FailureEvent := filter (λ e, cell e = c) events.

Lemma about_app c a b : about c (a ++ b) = about c a ++ about c b.
Proof. apply filter_app. Qed.

(** Reporting one counter leaves the others as they are. *)
Lemma report_cell_other final now loads c c' r : c ≠ c' →
  let '(events, r') := report_cell final now loads c r in
  about c' events = [] ∧ reported_at c' r' = reported_at c' r ∧ last_at c' r' = last_at c' r.
Proof.
  intros Hne. destruct c as [[i j] k] eqn:Ec. cbn [report_cell]. rewrite <- Ec in *. clear Ec. unfold report_first, report_rest.
  destruct (_ && _); (destruct (_ && _)); cbn [app]; unfold about; rewrite ?filter_cons, ?filter_nil; cbn [cell];
    rewrite ?decide_False by done; (split; [done|]); split; try done;
    destruct (set_reported_ne c c' (at_ loads i j k) now r Hne) as [E1 E2];
    destruct (set_reported_ne c c' (at_ loads i j k) now (set_reported c 1 now r) Hne) as [E3 E4];
    destruct (set_reported_ne c c' 1 now r Hne) as [E5 E6]; congruence.
Qed.

Lemma report_cell_wf final now loads c r : wf r → wf (snd (report_cell final now loads c r)).
Proof.
  intros H. destruct c as [[i j] k]. cbn [report_cell]. unfold report_first, report_rest.
  destruct (_ && _); (destruct (_ && _)); cbn [snd]; auto using wf_set.
Qed.

(** The reports of a list of counters, seen from one of them. *)
Lemma report_cells_at final now loads cs c r : NoDup cs → wf r →
  let '(events, r') := report_cells final now loads cs r in
  wf r' ∧
  (c ∉ cs → about c events = [] ∧ reported_at c r' = reported_at c r ∧ last_at c r' = last_at c r) ∧
  (c ∈ cs → ∃ r0, wf r0 ∧ reported_at c r0 = reported_at c r ∧ last_at c r0 = last_at c r ∧
     about c events = about c (fst (report_cell final now loads c r0)) ∧
     reported_at c r' = reported_at c (snd (report_cell final now loads c r0)) ∧
     last_at c r' = last_at c (snd (report_cell final now loads c r0))).
Proof.
  revert r. induction cs as [|c0 cs IH]; intros r Hnd Hr; simpl.
  { split; [done|]. split; [done|]. by intros ?%not_elem_of_nil. }
  inversion Hnd as [|? ? Hnot Hnd']; subst. pose proof (report_cell_wf final now loads c0 r Hr) as Hr1.
  pose proof (report_cell_other final now loads c0 c r) as Hother.
  destruct (report_cell final now loads c0 r) as [e1 r1] eqn:E1. simpl in Hr1. specialize (IH r1 Hnd' Hr1).
  destruct (report_cells final now loads cs r1) as [e2 r2]. destruct IH as (Hr2 & Hout & Hin). rewrite about_app.
  split; [done|]. split.
  - intros [Hne Hn]%not_elem_of_cons. destruct Hother as (-> & H1 & H2); [done|]. destruct (Hout Hn) as (-> & -> & ->). done.
  - intros [->|Hc]%elem_of_cons.
    + destruct (Hout Hnot) as (-> & -> & ->). exists r. rewrite E1, app_nil_r. done.
    + destruct (decide (c0 = c)) as [->|Hne]; [done|]. destruct (Hother Hne) as (-> & H1 & H2).
      destruct (Hin Hc) as (r0 & H3 & H4 & H5 & H6). exists r0. split; [done|]. by rewrite H4, H5, H1, H2.
Qed.

(** ** The invariant of one counter *)

Definition sum (ns : list Z) : Z := foldr Z.add 0 ns.

Lemma sum_app a b : sum (a ++ b) = sum a + sum b.
Proof. induction a as [|x a IH]; simpl; [done|]. rewrite IH. lia. Qed.

(** Every event carries the number of failures reported up to it. *)
Definition running_totals (events : list FailureEvent) : Prop :=
  ∀ pre e post, events = pre ++ e :: post → 0 < count e ∧ running e = sum (count <$> pre) + count e.

Lemma running_snoc events e : running_totals events → 0 < count e → running e = sum (count <$> events) + count e →
  running_totals (events ++ [e]).
Proof.
  intros H Hc Hr pre e' post Heq. destruct post as [|e2 post _] using rev_ind.
  - apply app_inj_tail in Heq as [-> ->]. done.
  - rewrite app_comm_cons, app_assoc in Heq. apply app_inj_tail in Heq as [-> ->]. by eapply H.
Qed.

Record sound (start now finals total : Z) (events : list FailureEvent) (n last : Z) : Prop := {
  so_sum : sum (count <$> events) = n;
  so_bounds : 0 ≤ n ≤ total;
  so_running : running_totals events;
  so_first : n = 0 → events = [];
  so_rate : SAMPLE_INTERVAL * (len events - 1 - finals) ≤ last - start;
  so_time : start ≤ last ≤ now;
  so_finals : 0 ≤ finals;
}.

Lemma sound_later start now finals total events n last now' finals' total' :
  sound start now finals total events n last → now ≤ now' → finals ≤ finals' → total ≤ total' →
  sound start now' finals' total' events n last.
Proof. intros [H1 H2 H3 H4 H5 H6 H7] Hn Hf Ht. split; auto; unfold SAMPLE_INTERVAL in *; lia. Qed.

Lemma sound_event start now finals total events n last e now' :
  sound start now finals total events n last → 0 < count e → running e = n + count e → n + count e ≤ total → now ≤ now' →
  SAMPLE_INTERVAL * (len events - finals) ≤ now' - start →
  sound start now' finals total (events ++ [e]) (n + count e) now'.
Proof.
  intros [H1 H2 H3 H4 H5 H6 H7] Hc Hr Ht Hn Hd. split.
  - rewrite fmap_app, sum_app. simpl. lia.
  - lia.
  - apply running_snoc; [done..|lia].
  - lia.
  - rewrite len_app. change (len [e]) with 1. unfold SAMPLE_INTERVAL in *. lia.
  - lia.
  - done.
Qed.

Lemma about_cell c (events : list FailureEvent) : Forall (λ e, cell e = c) events → about c events = events.
Proof. intros H. unfold about. induction H as [|e events He H IH]; [done|]. by rewrite filter_cons, decide_True, IH. Qed.

Lemma report_first_sound start now0 now finals total c r events : wf r → c ∈ cells → now0 ≤ now →
  sound start now0 finals total events (reported_at c r) (last_at c r) →
  let '(e1, r1) := report_first c total now r in
  wf r1 ∧ Forall (λ e, cell e = c) e1 ∧ (0 < total → 0 < reported_at c r1) ∧
  sound start now finals total (events ++ e1) (reported_at c r1) (last_at c r1).
Proof.
  intros Hr Hc Hnow Hs. unfold report_first. pose proof (so_bounds _ _ _ _ _ _ _ Hs).
  destruct (0 <? total) eqn:E1, (reported_at c r =? 0) eqn:E2; simpl; rewrite ?app_nil_r;
    try (split; [done|]; split; [done|]; split; [blia|]; eapply sound_later; [exact Hs|lia..]).
  destruct (set_reported_eq c 1 now r Hr Hc) as [-> ->]. split; [by apply wf_set|]. split; [by repeat constructor|]. split; [lia|].
  assert (reported_at c r = 0) as E0 by blia. rewrite E0 in *. pose proof (so_first _ _ _ _ _ _ _ Hs eq_refl) as ->.
  apply (sound_event _ _ _ _ _ _ _ (mkFailureEvent false c 1 1) now) in Hs; simpl; try done; [blia|].
  destruct Hs. rewrite len_nil. unfold SAMPLE_INTERVAL. lia.
Qed.

Lemma report_rest_sound (final : bool) start now0 now finals total c r events : wf r → c ∈ cells → now0 ≤ now →
  sound start now0 finals total events (reported_at c r) (last_at c r) →
  let '(e2, r2) := report_rest final c total now r in
  Forall (λ e, cell e = c) e2 ∧ (final = true → reported_at c r2 = total) ∧ reported_at c r ≤ reported_at c r2 ∧
  sound start now (finals + (if final then 1 else 0)) total (events ++ e2) (reported_at c r2) (last_at c r2).
Proof.
  intros Hr Hc Hnow Hs. unfold report_rest. pose proof (so_bounds _ _ _ _ _ _ _ Hs). pose proof (so_rate _ _ _ _ _ _ _ Hs).
  pose proof (so_time _ _ _ _ _ _ _ Hs). pose proof (so_finals _ _ _ _ _ _ _ Hs).
  destruct ((reported_at c r <? total) && _) eqn:E.
  - apply andb_true_iff in E as [E1 E2]. destruct (set_reported_eq c total now r Hr Hc) as [-> ->].
    split; [by repeat constructor|]. split; [done|]. split; [lia|].
    set (e := mkFailureEvent true c (Z.max 0 (total - reported_at c r)) total).
    replace total with (reported_at c r + count e) at 2 by (simpl; lia).
    apply (sound_event _ now0 _ _ _ _ (last_at c r)); simpl; try blia.
    + eapply sound_later; [exact Hs|destruct final; lia..].
    + destruct final; unfold SAMPLE_INTERVAL in *; [lia|]. simpl in E2. apply Z.leb_le in E2. lia.
  - rewrite app_nil_r. split; [constructor|]. split; [|split; [lia|]].
    + intros ->. simpl in E. rewrite andb_true_r in E. blia.
    + eapply sound_later; [exact Hs|destruct final; lia..].
Qed.

Lemma report_cell_sound (final : bool) start now0 now finals total0 loads c r events : wf r → c ∈ cells →
  now0 ≤ now → total0 ≤ loaded loads c →
  sound start now0 finals total0 events (reported_at c r) (last_at c r) →
  let '(more, r') := report_cell final now loads c r in
  let total := loaded loads c in
  (0 < total → 0 < reported_at c r') ∧ (final = true → reported_at c r' = total) ∧
  sound start now (finals + (if final then 1 else 0)) total (events ++ about c more) (reported_at c r') (last_at c r').
Proof.
  intros Hr Hc Hnow Htotal Hs. set (total := loaded loads c) in *.
  assert (report_cell final now loads c r = let '(e1, r1) := report_first c total now r in
    let '(e2, r2) := report_rest final c total now r1 in (e1 ++ e2, r2)) as -> by by destruct c as [[i j] k].
  apply (sound_later _ _ _ _ _ _ _ now finals total) in Hs; [|done..].
  pose proof (report_first_sound start now now finals total c r events Hr Hc (Z.le_refl now) Hs) as H1.
  destruct (report_first c total now r) as [e1 r1]. destruct H1 as (Hr1 & Hc1 & Hpos & Hs1).
  pose proof (report_rest_sound final start now now finals total c r1 (events ++ e1) Hr1 Hc (Z.le_refl now) Hs1) as H2.
  destruct (report_rest final c total now r1) as [e2 r2]. destruct H2 as (Hc2 & Hfin & Hge & Hs2).
  rewrite about_cell by by apply Forall_app. rewrite app_assoc. split; [intros Ht; specialize (Hpos Ht); lia|done].
Qed.

(** ** A whole run *)

Record Report := mkReport { is_final : bool; at_time : Z; counters : Table Z }.

(** The reports of a run, in order: [failures] at each of them. *)
Fixpoint run_reports (reports : list Report) (r : Reporter) : list FailureEvent * Reporter :=
  match reports with
  | [] => ([], r)
  | p :: reports =>
      let '(e1, r) := failures (is_final p) (at_time p) (counters p) r in
      let '(e2, r) := run_reports reports r in
      (e1 ++ e2, r)
  end.

(** Time goes on and counters only grow. *)
Fixpoint growing (now : Z) (totals : Table Z) (reports : list Report) : Prop :=
  match reports with
  | [] => True
  | p :: reports =>
      now ≤ at_time p ∧ (∀ c, c ∈ cells → loaded totals c ≤ loaded (counters p) c) ∧
      growing (at_time p) (counters p) reports
  end.

Definition finals (reports : list Report) : Z := len (filter (λ p, is_final p = true) reports).

Lemma failures_sound p start now n totals c r events : wf r → c ∈ cells → now ≤ at_time p → loaded totals c ≤ loaded (counters p) c →
  sound start now n (loaded totals c) events (reported_at c r) (last_at c r) →
  let '(more, r') := failures (is_final p) (at_time p) (counters p) r in
  let total := loaded (counters p) c in
  wf r' ∧ (0 < total → 0 < reported_at c r') ∧ (is_final p = true → reported_at c r' = total) ∧
  sound start (at_time p) (n + (if is_final p then 1 else 0)) total (events ++ about c more) (reported_at c r') (last_at c r').
Proof.
  intros Hr Hc Hnow Htotal Hs. unfold failures.
  pose proof (report_cells_at (is_final p) (at_time p) (counters p) cells c r nodup_cells Hr) as H.
  destruct (report_cells _ _ _ _ r) as [more r']. destruct H as (Hr' & _ & Hin). split; [done|].
  destruct (Hin Hc) as (r0 & Hr0 & E1 & E2 & -> & -> & ->). rewrite <- E1, <- E2 in Hs.
  pose proof (report_cell_sound (is_final p) start now (at_time p) n _ (counters p) c r0 events Hr0 Hc Hnow Htotal Hs) as H.
  by destruct (report_cell _ _ _ c r0).
Qed.

(** The state of a counter at the time of a report. *)
Definition reported_so_far start n p c r events : Prop :=
  wf r ∧ (0 < loaded (counters p) c → 0 < reported_at c r) ∧ (is_final p = true → reported_at c r = loaded (counters p) c) ∧
  sound start (at_time p) n (loaded (counters p) c) events (reported_at c r) (last_at c r).

Lemma run_reports_sound reports start n p c r events : c ∈ cells → growing (at_time p) (counters p) reports →
  reported_so_far start n p c r events →
  let '(more, r') := run_reports reports r in
  reported_so_far start (n + finals reports) (default p (last reports)) c r' (events ++ about c more).
Proof.
  revert n p r events. induction reports as [|q reports IH]; intros n p r events Hc Hg (Hr & Hpos & Hfin & Hs); cbn [run_reports].
  { rewrite app_nil_r, Z.add_0_r. done. }
  destruct Hg as (Hnow & Ht & Hg). pose proof (failures_sound q start _ n _ c r events Hr Hc Hnow (Ht c Hc) Hs) as H.
  destruct (failures _ _ _ r) as [e1 r1]. specialize (IH _ q r1 _ Hc Hg H). destruct (run_reports reports r1) as [e2 r2].
  rewrite about_app, app_assoc, last_cons. unfold finals in *. rewrite filter_cons.
  replace (default p match last reports with Some y => Some y | None => Some q end) with (default q (last reports)) by by destruct (last reports).
  replace (n + len _) with (n + (if is_final q then 1 else 0) + len (filter (λ p, is_final p = true) reports)); [done|].
  destruct (is_final q); simpl; rewrite ?len_cons; lia.
Qed.

Lemma at_table c (a : Z) : c ∈ cells → loaded (table a) c = a.
Proof.
  destruct c as [[i j] k]. intros (Hi & Hj & Hk)%elem_of_cells. unfold loaded, at_, table.
  by rewrite !lookup_replicate_2; simpl; rewrite ?lookup_replicate_2.
Qed.

(** C34: the failure events the reporter produces account for the counters. Over any run of
    the reporter during which time goes on and the counters grow, for each counter: the
    counts of its events add up to what was reported, every event also carries the right
    running total, a first failure has its event at the next poll and after a final report
    there is an event for every failure; and the events about one counter are at most one,
    one for each final report, and one for every thirty seconds. This is about the events
    handed to the log: the code goes on when writing one of them fails, so the file itself
    may lack events. *)
Theorem failures_accounted start reports c : c ∈ cells → growing start (table 0) reports →
  let (events, _) := run_reports reports (new_reporter start) in
  let mine := about c events in
  let final := default (mkReport false start (table 0)) (last reports) in
  let total := loaded (counters final) c in
  sum (count <$> mine) ≤ total ∧ (0 < total → mine ≠ []) ∧
  (is_final final = true → sum (count <$> mine) = total) ∧ running_totals mine ∧
  len mine ≤ 1 + finals reports + (at_time final - start) / SAMPLE_INTERVAL.
Proof.
  intros Hc Hg. set (p := mkReport false start (table 0)).
  assert (reported_so_far start 0 p c (new_reporter start) []) as H0.
  { assert (reported_at c (new_reporter start) = 0 ∧ last_at c (new_reporter start) = start) as [E1 E2].
    { destruct c as [[i j] k]. split; [by apply (at_table (i, j, k) 0)|by apply (at_table (i, j, k) start)]. }
    unfold reported_so_far. rewrite E1, E2. unfold p. simpl. rewrite (at_table c 0) by done. split; [split; apply shaped_table|].
    split; [lia|]. split; [done|]. split; try done; [|unfold SAMPLE_INTERVAL; rewrite len_nil; lia]. by intros []. }
  pose proof (run_reports_sound reports start 0 p c (new_reporter start) [] Hc Hg H0) as H.
  destruct (run_reports reports (new_reporter start)) as [events r]. destruct H as (_ & Hpos & Hfin & Hs). simpl in Hs.
  cbv zeta. destruct Hs as [H1 H2 H3 H4 H5 H6 H7]. rewrite H1. split_and!; [lia| |done|done|].
  - intros Ht E. specialize (Hpos Ht). rewrite E in H1. simpl in H1. lia.
  - assert (len (about c events) - 1 - (0 + finals reports) ≤ (at_time (default p (last reports)) - start) / SAMPLE_INTERVAL) as H; [|lia].
    apply Z.div_le_lower_bound; [done|lia].
Qed.

End FailureFacts.
