(* ===== verification/EvidenceFacts.v ===== *)
(** * What panics and the sampler may say

    The evidence of a panic is bounded and made of a few characters only, whatever its
    location and its backtrace hold and however the formatter cuts its output; the CPU time
    read from the sampler is exact or refused. *)
From S2P Require Import Prelude Utf8 BTree Json Evidence.

Module EvidenceFacts.
Import Evidence.

(** ** Backtraces *)

Definition plain_frame (s : str) : Prop :=
  ∃ index symbol, s = index ++ lit ": " ++ symbol ∧ index ≠ [] ∧ symbol ≠ [] ∧
    forallb is_ascii_digit index = true ∧ forallb symbol_byte symbol = true.

Definition frame_bytes (ss : list str) : Z := foldr (λ s n, len s + n) 0 ss.

Lemma frame_bytes_app a b : frame_bytes (a ++ b) = frame_bytes a + frame_bytes b.
Proof. induction a as [|s a IH]; simpl; [done|]. rewrite IH. lia. Qed.

Record traced (t : TraceSymbols) : Prop := {
  tr_frames : len (frames t) ≤ 16;
  tr_sum : frame_bytes (frames t) = bytes t;
  tr_bytes : bytes t ≤ 2048;
  tr_plain : Forall plain_frame (frames t);
  tr_line : len (line t) ≤ 512;
}.

Lemma split_index_Some s index symbol : split_index s = Some (index, symbol) → s = index ++ lit ": " ++ symbol.
Proof.
  unfold split_index. destruct (find_sub (lit ": ") s) as [n|] eqn:E; simpl; [|done]. intros [= <- <-].
  pose proof (find_sub_length _ _ _ E) as Hl. apply find_sub_Some in E as [[r Hr] _].
  assert (drop (n + 2) s = r) as ->; [|done].
  rewrite Hr at 1. rewrite drop_app_ge by (rewrite length_take; lia). rewrite length_take.
  replace (n + 2 - n `min` length s)%nat with 2%nat by (simpl in Hl; lia). done.
Qed.

Lemma end_line_traced t : traced t → traced (fst (end_line t)).
Proof.
  intros [H1 H2 H3 H4 H5]. unfold end_line. destruct (split_index (trim (line t))) as [[index symbol]|] eqn:Es; [|by split].
  destruct (negb _ && _) eqn:E1; [|by split]. apply andb_true_iff in E1 as [E1 E2].
  destruct (bool_decide (symbol = []) || _) eqn:E3; [by split|]. apply orb_false_iff in E3 as [E3 E4].
  destruct ((_ =? 16) || _) eqn:E5; [by split|]. apply orb_false_iff in E5 as [E5 E6]. split; simpl; [|..|done].
  - rewrite len_app. change (len [trim (line t)]) with 1. lia.
  - rewrite frame_bytes_app, H2. simpl. lia.
  - lia.
  - apply Forall_app. split; [done|]. repeat constructor. apply split_index_Some in Es. exists index, symbol.
    apply negb_true_iff, bool_decide_eq_false in E1. apply bool_decide_eq_false in E3. apply negb_false_iff in E4. done.
Qed.

Lemma write_str_traced cs t : traced t → traced (fst (write_str cs t)).
Proof.
  revert t. induction cs as [|c cs IH]; intros t Ht; simpl; [done|]. destruct (c =? 10).
  - pose proof (end_line_traced t Ht) as H. destruct (end_line t) as [t' []]; [by apply IH|done].
  - destruct (512 <? _) eqn:E; [by destruct Ht|]. apply IH. destruct Ht as [H1 H2 H3 H4 H5]. split; try done. simpl.
    rewrite len_app. unfold len_utf8 in E. lia.
Qed.

Lemma write_trace_traced pieces t : traced t → traced (fst (write_trace pieces t)).
Proof.
  revert t. induction pieces as [|p pieces IH]; intros t Ht; simpl; [done|].
  pose proof (write_str_traced (chars p) t Ht) as H. destruct (write_str (chars p) t) as [t' []]; [by apply IH|done].
Qed.

Lemma write_str_app a b t :
  write_str (a ++ b) t = let '(t, ok) := write_str a t in if ok then write_str b t else (t, false).
Proof.
  revert t. induction a as [|c a IH]; intros t; simpl; [by destruct (write_str b t)|]. destruct (c =? 10).
  - destruct (end_line t) as [t' []]; [apply IH|done].
  - destruct (512 <? _); [done|apply IH].
Qed.

(** However the formatter cuts its text, the symbols are those of the whole. *)
Lemma write_trace_joined pieces t : write_trace pieces t = write_str (mjoin (chars <$> pieces)) t.
Proof.
  revert t. induction pieces as [|p pieces IH]; intros t; [done|]. simpl. rewrite write_str_app.
  destruct (write_str (chars p) t) as [t' []]; [apply IH|done].
Qed.

(** ** Locations *)

Definition file_byte (b : Z) : bool := is_ascii_alphanumeric b || existsb (Z.eqb b) (lit "_.-").

Lemma safe_file_plain s : let f := safe_file s in f ≠ [] ∧ len f ≤ 96 ∧ forallb file_byte f = true.
Proof.
  unfold safe_file. destruct (_ && _) eqn:E; simpl.
  - apply andb_true_iff in E as [E E3]. apply andb_true_iff in E as [E1 E2]. apply negb_true_iff, bool_decide_eq_false in E1.
    apply Z.leb_le in E2. done.
  - done.
Qed.

(** Whatever the location of a panic and its backtrace hold, and however the formatter cuts the backtrace into pieces, the evidence kept of it is bounded and anonymous: at most sixteen frames of 2048 bytes together, each a number, a colon and symbol characters without a path separator, quote or line break; a file name of at most 96 characters without a directory; and the same frames for every way to cut the same text. *)
Theorem panic_evidence_private place status pieces :
  let d := capture_panic place status pieces in
  len (backtrace d) ≤ 16 ∧ frame_bytes (backtrace d) ≤ 2048 ∧ Forall plain_frame (backtrace d) ∧
  (∀ l, location d = Some l → file l ≠ [] ∧ len (file l) ≤ 96 ∧ forallb file_byte (file l) = true) ∧
  (∀ b, symbol_byte b = true → b ∉ [47; 92; 34; 10]) ∧ (∀ b, file_byte b = true → b ∉ [47; 92; 34; 10]) ∧
  ∀ pieces', mjoin (chars <$> pieces') = mjoin (chars <$> pieces) → capture_panic place status pieces' = d.
Proof.
  set (symbols := match status with
                 | Captured =>
                     let '(t, ok) := write_trace pieces no_symbols in
                     if ok then fst (end_line t) else mkTraceSymbols (line t) (frames t) (bytes t) true
                 | _ => no_symbols
                 end).
  assert (traced no_symbols) as H0 by by split.
  assert (traced symbols) as [H1 H2 H3 H4 _].
  { unfold symbols. destruct status; try done. pose proof (write_trace_traced pieces no_symbols H0) as H.
    destruct (write_trace pieces no_symbols) as [t []]; [by apply end_line_traced|by destruct H]. }
  simpl. fold symbols. split_and!; [done|lia|done| | | |].
  - intros l. destruct place as [[[f n] c]|]; [|done]. intros [= <-]. apply safe_file_plain.
  - intros b Hb Hin. repeat (apply elem_of_cons in Hin as [->|Hin]; [done|]). by apply elem_of_nil in Hin.
  - intros b Hb Hin. repeat (apply elem_of_cons in Hin as [->|Hin]; [done|]). by apply elem_of_nil in Hin.
  - intros pieces' Hp. unfold capture_panic. by rewrite !write_trace_joined, Hp.
Qed.

(** ** CPU time *)

(** The same reading in unbounded arithmetic. *)
Fixpoint exact_clock (components : list str) (seconds : Z) (fields : nat) : option (Z * nat) :=
  match components with
  | [] => Some (seconds, fields)
  | c :: components =>
      let? value := parse_uint u64_max c in
      if (0 <? fields)%nat && (60 <=? value) then None
      else exact_clock components (seconds * 60 + value) (S fields)
  end.

Definition exact_cpu_time (value : str) : option Z :=
  let? '(days, rest) := match split_once 45 value with
                        | Some (days, rest) => let? n := parse_uint u64_max days in Some (n, rest)
                        | None => Some (0, value)
                        end in
  let '(whole, fraction) := default (rest, []) (split_once 46 rest) in
  if negb (forallb is_ascii_digit fraction) then None
  else let? '(seconds, fields) := exact_clock (split_byte 58 whole) 0 0 in
       if negb ((2 <=? fields) && (fields <=? 3))%nat then None
       else Some ((days * 86400 + seconds) * 1000 + millis fraction).

Lemma exact_clock_mono cs s f n k : 0 ≤ s → exact_clock cs s f = Some (n, k) → s ≤ n.
Proof.
  revert s f. induction cs as [|c cs IH]; intros s f Hs; simpl; [by intros [= <- _]|].
  destruct (parse_uint u64_max c) as [v|] eqn:E; simpl; [|done]. apply parse_uint_bound in E.
  destruct (_ && _); [done|]. intros H%IH; lia.
Qed.

Lemma clock_exact cs s f : 0 ≤ s ≤ u64_max →
  clock cs s f = let? '(n, k) := exact_clock cs s f in if n <=? u64_max then Some (n, k) else None.
Proof.
  revert s f. induction cs as [|c cs IH]; intros s f Hs; simpl; [by destruct (Z.leb_spec s u64_max); [|lia]|].
  destruct (parse_uint u64_max c) as [v|] eqn:E; simpl; [|done]. apply parse_uint_bound in E. destruct (_ && _); [done|].
  unfold checked_mul, checked_add.
  assert (u64_max < s * 60 + v → (let? '(n, k) := exact_clock cs (s * 60 + v) (S f) in if n <=? u64_max then Some (n, k) else None) = None) as Hbig.
  { intros Hb. destruct (exact_clock cs (s * 60 + v) (S f)) as [[n k]|] eqn:Ec; simpl; [|done].
    apply exact_clock_mono in Ec; [|lia]. by destruct (Z.leb_spec n u64_max); [lia|]. }
  destruct (Z.leb_spec (s * 60) u64_max); simpl; [|rewrite Hbig; [done|lia]].
  destruct (Z.leb_spec (s * 60 + v) u64_max); simpl; [|by rewrite Hbig]. apply IH. lia.
Qed.

Lemma millis_bounds f : forallb is_ascii_digit f = true → 0 ≤ millis f ≤ 999.
Proof.
  intros H. unfold millis. destruct f as [|a [|b [|c f]]]; simpl in *; rewrite ?take_0; simpl; unfold is_ascii_digit in H;
    rewrite ?andb_true_iff, ?Z.leb_le in H; lia.
Qed.

(** Reading the CPU time gives the exact number of milliseconds, or nothing exactly when the text is not a time or the number does not fit 64 bits; no step of the computation wraps around. *)
Theorem cpu_time_exact value :
  parse_cpu_time value = let? n := exact_cpu_time value in if n <=? u64_max then Some n else None.
Proof.
  unfold parse_cpu_time, exact_cpu_time.
  destruct (match split_once 45 value with Some _ => _ | None => _ end) as [[days rest]|] eqn:Ed; simpl; [|done].
  assert (0 ≤ days) as Hd.
  { destruct (split_once 45 value) as [[d r]|]; [|by injection Ed as <- _]. simpl in Ed.
    destruct (parse_uint u64_max d) eqn:E; [|done]. injection Ed as <- _. apply parse_uint_bound in E. lia. }
  destruct (default (rest, []) (split_once 46 rest)) as [whole fraction]. destruct (forallb is_ascii_digit fraction) eqn:Ef; simpl; [|done].
  pose proof (millis_bounds fraction Ef) as Hm. rewrite clock_exact by (unfold u64_max; lia).
  destruct (exact_clock (split_byte 58 whole) 0 0) as [[n k]|] eqn:Ec; simpl; [|done]. apply exact_clock_mono in Ec; [|lia].
  unfold checked_mul, checked_add.
  destruct (Z.leb_spec n u64_max) as [Hn|Hn]; simpl.
  - destruct (_ && _)%nat; simpl; [|done].
    destruct (Z.leb_spec ((days * 86400 + n) * 1000 + millis fraction) u64_max) as [H|H];
      destruct (Z.leb_spec (days * 86400) u64_max); simpl; try done; try lia;
      destruct (Z.leb_spec (days * 86400 + n) u64_max); simpl; try done; try lia;
      destruct (Z.leb_spec ((days * 86400 + n) * 1000) u64_max); simpl; try done; try lia;
      destruct (Z.leb_spec ((days * 86400 + n) * 1000 + millis fraction) u64_max); try done; lia.
  - destruct (_ && _)%nat; simpl; [|done].
    by destruct (Z.leb_spec ((days * 86400 + n) * 1000 + millis fraction) u64_max); [lia|].
Qed.

End EvidenceFacts.
