(* ===== verification/EvidenceDemo.v ===== *)
(** * A runtime directory

    An instance's life on a concrete disk: a clean end, a process that dies, a marker that
    is not one; and the instances of the theorems about the log and the reporter. *)
From S2P Require Import Prelude Utf8 BTree Json Disk DiskFacts DirSpec Bundle Revision Evidence EventLog Reporter EventLogFacts ExitFacts FailureFacts.

Module EvidenceDemo.
Import Evidence Disk DirSpec EventLog Reporter EventLogFacts ExitFacts FailureFacts.

(** ** Parameters *)

Definition write_marker (m : ExitMarker) : str := schema_version m :: marker_pid m :: instance m.
Definition read_marker (b : str) : option ExitMarker :=
  match b with s :: p :: i => Some (mkExitMarker s p (removelast i)) | _ => None end.

Lemma read_write_marker m : read_marker (write_marker m ++ [10]) = Some m.
Proof. destruct m as [s p i]. simpl. by rewrite removelast_last. Qed.

#[local] Instance marker_codec : Revision.Serde ExitMarker :=
  Revision.Build_Serde ExitMarker write_marker read_marker read_write_marker.

(** An event is its name. *)
Definition show (v : Value) : str := match get "event" v with Some (VString s) => s | _ => [] end.

Definition id : str := lit "0123456789abcdef0123456789abcdef".
Definition log : EventLog.EventLog := mkEventLog [] id.

Definition files (extra : Entries) : Entries := <[INSTANCE_LOCK := File []]> extra.
Definition disk (extra : Entries) (fates : list Fate) : Disk :=
  mkDisk (Dir (files extra)) fates (replicate 20 (replicate 16 0)) false.

Definition turn (h : Heard) (o : Observer) (now : Z) : Turn := mkTurn h o None now now now now now now now.

Definition busy : Observer :=
  failure (from_stage Tls) (error_of (IoCause ErrorKind.TimedOut None))
    (failure (from_stage Tls) (error_of (IoCause ErrorKind.TimedOut None)) (connection new_observer)).

Definition life (end_ : Heard) : list Turn := [turn Timeout new_observer 100; turn Timeout busy 200; turn end_ busy 300].

Definition live (end_ : Heard) (d : Disk) : Disk * result IoError (option str * bool) :=
  instance_log show (λ _, None) 7 "1.1.0" [] id 0 true (turn Timeout new_observer 0) (life end_) d.

Definition file_of (n : str) (d : Disk) : option str :=
  match node_at [n] (root d) with Some (File b) => Some b | _ => None end.

(** ** Lives *)

Example clean_end :
  let '(d, r) := live (Finished (mkFinish "stop_request" None)) (disk ∅ []) in
  r = Ok (Some (own 7 log), true) ∧ file_of EXIT_MARKER d = None ∧
  (lines <$> file_of LOG d) =
    Some (lit <$> ["daemon_starting"; "daemon_ready"; "runtime_summary"; "connection_failed"; "connection_failure_summary";
                   "runtime_summary"; "daemon_stopped"]%string).
Proof. by vm_compute. Qed.

(** The owner disappears without saying how the instance ended. *)
Example dropped_end :
  let '(d, r) := live Disconnected (disk ∅ []) in
  r = Ok (Some (own 7 log), true) ∧ file_of EXIT_MARKER d = Some (own 7 log).
Proof. by vm_compute. Qed.

(** The process dies while it writes to its log. *)
Example dies :
  let '(d, _) := live (Finished (mkFinish "stop_request" None)) (disk ∅ (replicate 70 Fine ++ [Crash 3])) in
  crashed d = true ∧ file_of EXIT_MARKER d = Some (own 7 log).
Proof. by vm_compute. Qed.

(** A marker that is not one stays, and the log says so. *)
Example foreign_marker :
  let '(d, r) := live (Finished (mkFinish "stop_request" None)) (disk {[EXIT_MARKER := File (lit "garbage")]} []) in
  r = Ok (None, true) ∧ file_of EXIT_MARKER d = Some (lit "garbage") ∧
  (default [] (lines <$> file_of LOG d) !! 1%nat) = Some (lit "exit_marker_invalid").
Proof. by vm_compute. Qed.

(** The next instance finds what a dead one left. *)
Example previous_exit_reported :
  let '(d, r) := live (Finished (mkFinish "stop_request" None)) (disk {[EXIT_MARKER := File (own 9 log)]} []) in
  r = Ok (Some (own 7 log), true) ∧ (default [] (lines <$> file_of LOG d) !! 1%nat) = Some (lit "previous_exit_unknown").
Proof. by vm_compute. Qed.

(** ** The theorems *)

Lemma files_plain : plain (files ∅).
Proof. intros n b o. unfold files. rewrite insert_empty, lookup_singleton_Some. by intros [_ ?]. Qed.

Lemma files_fit : fits (files ∅).
Proof. by vm_compute. Qed.

Definition records : list LogOp := [Append (lit "first") None; Maintain; Append (lit "second") (Some id)].
Definition faulty : Disk := disk ∅ [Fine; Faulty 2].

Lemma log_keeps_recent_witness :
  node_at (dir log) (root faulty) = Some (Dir (files ∅)) ∧
  (let '(d', r) := log_session show (λ _, None) 7 log records faulty in
   ∃ t' results pieces,
    root d' = set_at (dir log) (Dir t') (root faulty) ∧ r = Ok results ∧ length results = length records ∧
    Forall3 delivered records results pieces ∧
    fits t' ∧ retained (files ∅) (mjoin pieces) t' ∧
    ∀ n, n ∉ log_names → temporary n = false → t' !! n = files ∅ !! n).
Proof.
  assert (node_at (dir log) (root faulty) = Some (Dir (files ∅))) as Hd by reflexivity.
  pose proof (log_keeps_recent show (λ _, None) 7 log records faulty (files ∅) Hd files_plain files_fit) as H.
  split; [exact Hd|exact H].
Defined.

Definition ending : list Turn := life (Finished (mkFinish "stop_request" None)).
Definition start_turn : Turn := turn Timeout new_observer 0.
Definition healthy : Disk := disk ∅ [].

Lemma exit_marker_certifies_witness :
  len id = 32 ∧
  (let l := mkEventLog [] id in
   let '(d', r) := instance_log show (λ _, None) 7 "1.1.0" [] id 0 true start_turn ending healthy in
   ∃ t', root d' = set_at [] (Dir t') (root healthy) ∧
    fits t' ∧ valid_marker (own 7 l) = Some (mkExitMarker 1 7 id) ∧
    (foreign (files ∅) → t' !! EXIT_MARKER = files ∅ !! EXIT_MARKER) ∧
    (t' !! EXIT_MARKER = files ∅ !! EXIT_MARKER ∨ t' !! EXIT_MARKER = Some (File (own 7 l)) ∨
     t' !! EXIT_MARKER = None ∧ ended show 7 l ending t') ∧
    ∀ b e, r = Ok (Some b, e) → t' !! EXIT_MARKER = Some (File (own 7 l)) ∨
      t' !! EXIT_MARKER = None ∧ ended show 7 l ending t').
Proof.
  assert (node_at [] (root healthy) = Some (Dir (files ∅))) as Hd by reflexivity.
  assert (0 < 7 ≤ i32_max) as Hpid by (split; [reflexivity|discriminate]).
  assert (len id = 32) as Hlen by reflexivity. assert (forallb is_lower_hex id = true) as Hhex by reflexivity.
  pose proof (exit_marker_certifies show (λ _, None) 7 "1.1.0" [] id 0 true start_turn ending healthy (files ∅)
    Hd files_plain files_fit Hpid Hlen Hhex) as H.
  split; [exact Hlen|exact H].
Defined.

Definition polls : list Report :=
  [mkReport false 100 (Evidence.failures busy); mkReport false 40000 (Evidence.failures busy);
   mkReport true 40100 (Evidence.failures busy)].

Lemma polls_grow : growing 0 (table 0) polls.
Proof.
  assert (∀ c, c ∈ cells → loaded (table 0) c ≤ loaded (Evidence.failures busy) c) as H.
  { apply Forall_forall. apply (bool_decide_unpack _). by vm_compute. }
  split; [done|]. split; [exact H|]. split; [done|]. split; [intros c _; apply Z.le_refl|].
  split; [done|]. split; [intros c _; apply Z.le_refl|exact I].
Qed.

Lemma failures_accounted_witness :
  (3, 0, 1)%nat ∈ cells ∧
  (let (events, _) := run_reports polls (new_reporter 0) in
   let mine := about (3, 0, 1)%nat events in
   let final := default (mkReport false 0 (table 0)) (last polls) in
   let total := loaded (counters final) (3, 0, 1)%nat in
   sum (count <$> mine) ≤ total ∧ (0 < total → mine ≠ []) ∧
   (is_final final = true → sum (count <$> mine) = total) ∧ running_totals mine ∧
   len mine ≤ 1 + finals polls + (at_time final - 0) / SAMPLE_INTERVAL).
Proof.
  assert ((3, 0, 1)%nat ∈ cells) as Hc by (apply elem_of_cells; lia).
  pose proof (failures_accounted 0 polls (3, 0, 1)%nat Hc polls_grow) as H.
  split; [exact Hc|exact H].
Defined.

Example polls_reported :
  (λ e, (summarised e, count e, running e)) <$> about (3, 0, 1)%nat (fst (run_reports polls (new_reporter 0))) =
  [(false, 1, 1); (true, 1, 2)].
Proof. by vm_compute. Qed.

End EvidenceDemo.
