(* ===== verification/Snapshot.v ===== *)
(** * What a daemon leaves for others (src/src/daemon.rs: descriptors and snapshots)

    The runtime directory holds the descriptor of the running instance and the snapshot of
    what it was prepared from, a file whose name carries a MAC of its contents under a key
    that never leaves the directory. Reading either back checks all of it. JSON codecs,
    SHA-256 and the configuration loader are parameters; the module [ConfigLoader] implements
    the latter by the configuration parser. *)
From S2P Require Import Prelude Utf8 Net BTree Json Rules Disk DiskFacts Bundle Revision Store Config Invocation.

Module Snapshot.
Import Disk Bundle Revision Store.

(** ** Data *)

Record RunInvocation := mkRunInvocation {
  foreground : bool;
  prepared : bool;
  config_path : option str;
  source_path : option str;
  port_override : option Z;
}.

Record Prepared := mkPrepared {
  source : str;
  assets : bmap str;
  identity : option ActiveIdentity;
  generation : Z;
  selections : list Selection;
  invocation : RunInvocation;
  port : Z;
  override_options : Invocation.CliOptions;
  controller_secret : option str;
}.

Record Descriptor := mkDescriptor {
  d_schema : Z;
  d_pid : Z;
  d_nonce : str;
  d_endpoint : option str;
  d_identity : option ActiveIdentity;
  d_generation : Z;
  d_ready : bool;
  d_invocation : option RunInvocation;
  d_service : option str;
}.

Record SnapshotFile := mkSnapshotFile { sf_schema : Z; sf_nonce : str; sf_prepared : Prepared }.

(** The path of a directory and the handle on it. *)
Record Directory := mkDirectory { path : str; handle : list str }.

#[export] Instance identity_eq_dec : EqDecision ActiveIdentity.
Proof. solve_decision. Defined.

#[export] Instance invocation_eq_dec : EqDecision RunInvocation.
Proof. solve_decision. Defined.

#[export] Instance descriptor_eq_dec : EqDecision Descriptor.
Proof. solve_decision. Defined.

Definition DESCRIPTOR : str := lit "zc.daemon.json".
Definition KEY : str := lit "zc.prepared.key".
Definition KEY_LOCK : str := lit "zc.prepared.key.lock".
Definition SNAPSHOT_LIMIT : Z := 6 * (FILE_LIMIT + AGGREGATE_LIMIT) + 1024 * 1024.

(** ** Text *)

Definition valid_hex (value : str) (length : Z) : bool := (len value =? length) && forallb is_lower_hex value.

(** [bytes[n..n + 2]] read as hexadecimal *)
Fixpoint hex_pairs (text : str) : option str :=
  match text with
  | a :: b :: text =>
      let? x := hex_value a in
      let? y := hex_value b in
      let? rest := hex_pairs text in
      Some (16 * x + y :: rest)
  | [] => Some []
  | [_] => None
  end.

Definition hex_error : string := "START_SNAPSHOT_INVALID: invalid hex metadata".

Definition decode_hex (text : str) (limit : Z) : res str :=
  if negb (negb (bool_decide (text = [])) && (len text <=? limit * 2) && Z.even (len text) && forallb is_ascii_hexdigit text)
  then Err hex_error
  else
    let! bytes := ok_or (hex_pairs text) hex_error in
    if negb (utf8_valid bytes) then Err "invalid utf-8 sequence"
    else if contains_byte 0 bytes then Err "START_SNAPSHOT_INVALID: NUL in metadata"
    else Ok bytes.

(** ** Paths: the components of a path that names no directory twice *)

Definition components (p : str) : list str :=
  filter (λ c, negb (bool_decide (c = [])) && negb (eq_str c (lit "."))) (split_byte 47 p).

(** [Path::file_name] *)
Definition file_name (p : str) : option str :=
  match last (components p) with
  | Some name => if eq_str name (lit "..") then None else Some name
  | None => None
  end.

(** [path.parent() == Some(directory)], for an absolute directory *)
Definition directly_in (p directory : str) : bool :=
  starts_with [47] p && negb (bool_decide (components p = [])) &&
  bool_decide (removelast (components p) = components directory).

(** [path.extension() == "yaml"] *)
Definition yaml_extension (p : str) : bool :=
  is_some_and (file_name p) (λ name,
    is_some_and (rsplit_once 46 name) (λ '(stem, ext), negb (bool_decide (stem = [])) && eq_str ext (lit "yaml"))).

Definition join (directory name : str) : str := directory ++ 47 :: name.

(** ** The configuration of a snapshot *)

(** [Config::parse_with_assets] on what [override_script::runtime_source] makes of a source,
    and [Config::parse]: what loads is well-formed. *)
Class Loader `{IpNetLib} := {
  server_name_ok : str → bool;
  load_config : str → bmap str → res Config;
  load_source : str → res Config;
  load_config_wf s a c : load_config s a = Ok c → config_wf server_name_ok c;
}.

Fixpoint insert_selections (entries : list Selection) (map : bmap str) : res (bmap str) :=
  match entries with
  | [] => Ok map
  | s :: entries =>
      if bcontains (sl_group s) map then Err "duplicate selection"
      else insert_selections entries (binsert (sl_group s) (sl_proxy s) map)
  end.

Definition selection_map (entries : list Selection) : res (bmap str) :=
  if 1024 <? len entries then Err "selection count limit exceeded" else insert_selections entries [].

Definition identity_ok (i : option ActiveIdentity) : bool :=
  match i with Some i => valid_key (ac_key i) && valid_hex (ac_revision i) 32 | None => true end.

Section Config.
Context `{Loader}.

(** [service::apply_controller_secret] *)
Definition apply_controller_secret (p : Prepared) (c : Config) : res Config :=
  match controller_secret p with
  | None => Ok c
  | Some s =>
      if is_some (identity p) && identity_ok (identity p) && is_some (controller c) && bool_decide (secret c = [])
      then Ok (set_runtime_controller_secret c s)
      else Err "START_SNAPSHOT_INVALID: invalid controller secret overlay"
  end.

(** What [parse_config] does before the selections. *)
Definition parse_base (p : Prepared) : res Config :=
  if (FILE_LIMIT <? len (source p)) || (4096 <? len (assets p)) || (AGGREGATE_LIMIT <? foldr Z.add 0 (len <$> values (assets p)))
  then Err "START_CONFIG_INVALID: prepared source limit exceeded"
  else if negb (identity_ok (identity p)) then Err "START_CONFIG_INVALID: invalid prepared identity"
  else if port p =? 0 then Err "START_PORT_INVALID: port must be nonzero"
  else if negb (is_some (identity p) || (generation p =? 0)) then Err "START_FAILED: unmanaged generation"
  else
    let! c := load_config (source p) (assets p) in
    let! c := apply_controller_secret p c in
    let! _ := validate_controller_auth c in
    Ok c.

Definition parse_config (p : Prepared) : res Config :=
  let! c := parse_base p in
  let! map := selection_map (selections p) in
  let '(c, r) := set_selections c map in
  let! _ := r in
  if is_some_and (controller c) (λ a, sa_port a =? port p)
  then Err "START_PORT_CONFLICT: mixed and controller ports must differ"
  else Ok c.

(** [config.controller_client_endpoint().map(|a| a.to_string())] *)
Definition endpoint_of (c : Config) : option str := print_socket_addr <$> controller_client_endpoint c.

End Config.

(** ** Descriptors *)

Section Files.
Context `{Loader, Sha256, !Serde Descriptor, !Serde SnapshotFile} (parse_document : str → res Value) (to_string : Value → str).

(** An error of the kind [InvalidData], as opposed to a failing system call. *)
Definition invalid_data (e : IoError) : bool :=
  match e with Invalid m => negb (String.eqb m "I/O error" || String.eqb m "stale directory") | _ => false end.

(** The reading loop of [read_descriptor]. *)
Fixpoint read_stable (attempts : nat) (dir : list str) : SM (option str) :=
  do! found := io (tried (read dir DESCRIPTOR (64 * 1024))) in
  match found with
  | Ok bytes => sret (Some bytes)
  | Err NotFound => sret None
  | Err e =>
      match attempts with
      | S attempts =>
          if invalid_data e then
            do! again := io (tried (file_metadata dir DESCRIPTOR)) in
            if is_ok again then read_stable attempts dir else serr (Io e)
          else serr (Io e)
      | O => serr (Io e)
      end
  end.

Definition invocation_ok (i : RunInvocation) : bool :=
  negb (prepared i && foreground i) && (negb (prepared i) || is_some (config_path i)) &&
  negb (bool_decide (port_override i = Some 0)) &&
  forallb (λ p, match p with
                | Some p => negb (bool_decide (p = [])) && (len p <=? 4096) && negb (contains_byte 0 p)
                | None => true
                end) [config_path i; source_path i].

Definition endpoint_ok (endpoint : str) : bool :=
  match parse_socket_addr endpoint with
  | Some a => bool_decide (sa_ip a = V4 127 0 0 1) && negb (sa_port a =? 0) && eq_str (print_socket_addr a) endpoint
  | None => false
  end.

Definition descriptor_ok (d : Descriptor) (bytes : str) : bool :=
  (d_schema d =? 2) && (0 <? d_pid d) && valid_hex (d_nonce d) 32 && eq_str (line d) bytes &&
  identity_ok (d_identity d) && (is_some (d_identity d) || (d_generation d =? 0)) &&
  match d_endpoint d with Some e => endpoint_ok e | None => true end &&
  match d_service d with Some id => valid_hex id 32 | None => true end &&
  match d_invocation d with Some i => invocation_ok i | None => true end.

Definition decode_descriptor (bytes : str) : res Descriptor :=
  let! d := ok_or (from_slice bytes) "RUNTIME_DESCRIPTOR_INVALID: corrupt descriptor"%string in
  if descriptor_ok d bytes then Ok d else Err "RUNTIME_DESCRIPTOR_INVALID: invalid descriptor".

Definition read_descriptor (dir : list str) : SM (option Descriptor) :=
  do! bytes := read_stable 3 dir in
  match bytes with
  | None => sret None
  | Some bytes => do! d := checked (decode_descriptor bytes) in sret (Some d)
  end.

Definition pid (dir : list str) : SM (option Z) :=
  do! found := io (tried (read dir (lit "zc.pid") 32)) in
  match found with
  | Ok bytes =>
      do! _ := ensure (utf8_valid bytes) (Message "invalid utf-8 sequence") in
      do! n := checked (ok_or (parse_uint u32_max (trim bytes)) "invalid digit found in string"%string) in
      do! _ := ensure ((0 <? n) && (n <=? 2147483647)) (Message "RUNTIME_PID_INVALID: invalid PID") in
      sret (Some n)
  | Err NotFound => sret None
  | Err e => serr (Io e)
  end.

(** ** Snapshots *)

(** [inner[index] ^= byte], from [0x36; 64] or [0x5c; 64]; the key has 32 bytes. *)
Definition pad_key (pad : Z) (key : str) : str := (Z.lxor pad <$> key) ++ replicate (64 - length key) pad.

Definition hmac (key bytes : str) : str := hex (sha256 (pad_key 92 key ++ sha256 (pad_key 54 key ++ bytes))).

Definition snapshot_key (dir : list str) (create : bool) : SM str :=
  do! _ := io (lock dir KEY_LOCK) in
  do! present := io (exists_ dir KEY) in
  do! _ := (if negb present && create then
              do! bytes := io (getrandom 32) in
              do! _ := io (write_new dir KEY bytes) in
              io sync
            else sret tt) in
  do! key := io (read dir KEY 32) in
  do! _ := ensure (len key =? 32) (Message "START_SNAPSHOT_INVALID: invalid snapshot key") in
  sret key.

Definition snapshot_name (mac nonce : str) : str := lit "zc.prepared." ++ mac ++ 46 :: nonce ++ lit ".snapshot".

Definition schema_of (p : Prepared) : Z := if is_some (controller_secret p) then 2 else 1.

Definition save_snapshot (dir : list str) (p : Prepared) (nonce : str) : SM str :=
  let bytes := line (mkSnapshotFile (schema_of p) nonce p) in
  do! _ := ensure (len bytes <=? SNAPSHOT_LIMIT) (Message "START_SNAPSHOT_INVALID: snapshot too large") in
  do! key := snapshot_key dir true in
  let name := snapshot_name (hmac key bytes) nonce in
  do! present := io (exists_ dir name) in
  do! _ := (if present then
              do! old := io (read dir name SNAPSHOT_LIMIT) in
              ensure (bool_decide (old = bytes)) (Message "START_SNAPSHOT_INVALID: immutable snapshot changed")
            else
              do! _ := io (write_new dir name bytes) in
              io sync) in
  sret name.

Definition bad_name : Error := Message "START_SNAPSHOT_INVALID: invalid snapshot name".

(** The MAC in a snapshot's name. *)
Definition name_mac (name nonce : str) : option str :=
  match split_byte 46 name with
  | [zc; kind; mac; owner; ext] =>
      if eq_str zc (lit "zc") && eq_str kind (lit "prepared") && valid_hex mac 64 && eq_str owner nonce && eq_str ext (lit "snapshot")
      then Some mac else None
  | _ => None
  end.

Definition decode_snapshot (bytes nonce : str) : res Prepared :=
  let! s := ok_or (from_slice bytes) "START_SNAPSHOT_INVALID: invalid snapshot fields"%string in
  if negb (eq_str (sf_nonce s) nonce && (sf_schema s =? schema_of (sf_prepared s)))
  then Err "START_SNAPSHOT_INVALID: invalid snapshot schema or nonce"
  else if is_some (controller_secret (sf_prepared s)) && negb (is_ok (parse_config (sf_prepared s)))
  then Err "START_SNAPSHOT_INVALID: invalid controller secret overlay"
  else Ok (sf_prepared s).

Definition load_snapshot (dir : list str) (name nonce : str) : SM Prepared :=
  do! _ := ensure (valid_hex nonce 32 && single_component name) bad_name in
  do! mac := checked (ok_or (name_mac name nonce) "START_SNAPSHOT_INVALID: invalid snapshot name"%string) in
  do! bytes := io (read dir name SNAPSHOT_LIMIT) in
  do! key := snapshot_key dir false in
  do! _ := ensure (eq_str (hmac key bytes) mac) (Message "START_SNAPSHOT_INVALID: snapshot authentication failed") in
  checked (decode_snapshot bytes nonce).

End Files.

End Snapshot.

(** * The loader of a snapshot's configuration

    What a daemon relies on when it parses a snapshot is what the configuration parser
    promises: the interface [Loader] is discharged by [runtime_source] of the override
    scripts followed by [Config::parse_with_assets]. *)
From S2P Require Import ZigMap Override ConfigYaml.

Module ConfigLoader.

Section Instance_.
Context `{IpNetLib} (to_json : Value → str)
  (document_url : str → option (str * option str)) (parse_value : str → res Value)
  (parse_document yaml : str → res Value) (deserialize : Value → option RawConfig)
  (url_parse : str → option (str * option str)) (name_ok : str → bool).
Hypothesis deserialize_u16 : ∀ d raw, deserialize d = Some raw → Forall entry_wf (rc_proxies raw).

(** A panic is no configuration either. *)
Definition settled {A : Type} (r : option (res A)) : res A := match r with Some r => r | None => Err "panic" end.

Definition load (source : str) (assets : bmap str) : res Config :=
  let! text := settled (ConfigYaml.runtime_source to_json document_url parse_value source) in
  settled (parse_with_assets parse_document yaml deserialize url_parse name_ok text assets).

Definition load_plain (source : str) : res Config := settled (parse parse_document yaml deserialize url_parse name_ok source).

Lemma load_wf s a c : load s a = Ok c → config_wf name_ok c.
Proof.
  unfold load. destruct (settled _) as [text|]; [|done]. unfold parse_with_assets.
  destruct (parse_inner_spec parse_document yaml deserialize url_parse name_ok deserialize_u16 text (Some a)) as (r & -> & Hr).
  simpl. intros Hc. by apply Hr.
Qed.

(** The parser never panics, so what [settled] adds does not happen. *)
Lemma load_total s a : ∃ r, parse_with_assets parse_document yaml deserialize url_parse name_ok s a = Some r.
Proof.
  destruct (parse_inner_spec parse_document yaml deserialize url_parse name_ok deserialize_u16 s (Some a)) as (r & Hr & _). by exists r.
Qed.

#[export] Instance config_loader : Snapshot.Loader := {|
  Snapshot.server_name_ok := name_ok;
  Snapshot.load_config := load;
  Snapshot.load_source := load_plain;
  Snapshot.load_config_wf := load_wf;
|}.

End Instance_.

End ConfigLoader.
