(* ===== verification/SnapshotFacts.v ===== *)
(** * Snapshots are what their names say

    The names of snapshots, what saving and loading one does to the runtime directory, and
    the round trip: a snapshot that was saved, whatever failed on the way, is loaded back
    as it was by every later process, and an existing file is never replaced. The module
    [SelectionFacts]: parsing a snapshot and applying selections. *)
From S2P Require Import Prelude Utf8 Net BTree Json Rules Config Disk DiskFacts DirSpec Bundle Revision RevisionFacts Store Invocation Snapshot.

Module SnapshotFacts.
Import Disk DirSpec Bundle Revision RevisionFacts Store Snapshot.

Implicit Types (v t : Entries) (dir : list str).

(** ** Text *)

Lemma split_byte_mid c x s : split_byte c (x ++ c :: s) = split_byte c x ++ split_byte c s.
Proof.
  induction x as [|b x IH]; simpl; [by rewrite Z.eqb_refl|]. rewrite IH. destruct (b =? c); [done|].
  pose proof (split_byte_ne c x). by destruct (split_byte c x).
Qed.

Fixpoint glue (c : Z) (parts : list str) : str :=
  match parts with
  | [] => []
  | [x] => x
  | x :: parts => x ++ c :: glue c parts
  end.

Lemma glue_split c s : glue c (split_byte c s) = s.
Proof.
  induction s as [|b s IH]; [done|]. cbn [split_byte]. pose proof (split_byte_ne c s) as Hne. destruct (Z.eqb_spec b c) as [->|].
  - destruct (split_byte c s) as [|f fs] eqn:E; [done|]. cbn [glue app] in *. by rewrite IH.
  - destruct (split_byte c s) as [|f [|g fs]] eqn:E; [done|..]; simpl in *; by rewrite IH.
Qed.

Lemma rsplit_once_app c s x y : rsplit_once c s = Some (x, y) → s = x ++ c :: y.
Proof.
  unfold rsplit_once. destruct (split_once c (reverse s)) as [[a b]|] eqn:E; [|done]. intros [= <- <-].
  apply split_once_Some in E as [E _]. apply (f_equal reverse) in E.
  by rewrite reverse_involutive, reverse_app, reverse_cons, <- app_assoc in E.
Qed.

Lemma valid_hex_spec s n : valid_hex s n = true ↔ len s = n ∧ Forall (λ c, is_lower_hex c = true) s.
Proof.
  unfold valid_hex. rewrite andb_true_iff, Z.eqb_eq, forallb_forall, Forall_forall. setoid_rewrite <- list_elem_of_In. done.
Qed.

Lemma lower_hex_no s c : Forall (λ c, is_lower_hex c = true) s → is_lower_hex c = false → c ∉ s.
Proof. intros Hs Hc Hin. rewrite Forall_forall in Hs. specialize (Hs c Hin). congruence. Qed.

Lemma component_no_slash n : single_component n = true → (47 ∉ n) ∧ n ≠ [] ∧ n ≠ lit "." ∧ n ≠ lit "..".
Proof.
  unfold single_component. rewrite !andb_true_iff, !negb_true_iff. intros [[[H1 H2] H3] H4].
  apply bool_decide_eq_false in H1. apply eq_str_false in H2, H3. split; [|done]. intros Hin.
  assert (existsb (λ b, (b =? 47) || (b =? 92) || (b =? 0)) n = true); [|congruence].
  apply existsb_exists. exists 47. split; [by apply list_elem_of_In|done].
Qed.

(** ** Paths *)

Lemma components_join (p n : str) : single_component n = true → components (join p n) = components p ++ [n].
Proof.
  intros Hn. destruct (component_no_slash n Hn) as (H1 & H2 & H3 & _). unfold components, join.
  rewrite split_byte_mid, filter_app. f_equal. rewrite split_byte_no by done. rewrite filter_cons_True; [by rewrite filter_nil|].
  by rewrite bool_decide_eq_false_2, (proj2 (eq_str_false _ _)).
Qed.

Lemma file_name_join (p n : str) : single_component n = true → file_name (join p n) = Some n.
Proof.
  intros Hn. unfold file_name. rewrite components_join, last_snoc by done.
  destruct (component_no_slash n Hn) as (_ & _ & _ & H). by rewrite (proj2 (eq_str_false _ _)).
Qed.

Lemma directly_in_join (p n : str) : single_component n = true → starts_with [47] p = true → directly_in (join p n) p = true.
Proof.
  intros Hn Hp. unfold directly_in. rewrite components_join by done. rewrite removelast_last.
  rewrite bool_decide_eq_false_2 by (by destruct (components p)). rewrite bool_decide_eq_true_2 by done.
  apply starts_with_true in Hp as [r ->]. rewrite (proj2 (starts_with_true [47] (join ([47] ++ r) n))); [done|].
  exists (r ++ 47 :: n). unfold join. by rewrite <- app_assoc.
Qed.

(** ** The names of snapshots *)

Definition is_snapshot (n : str) : bool := ends_with (lit ".snapshot") n.

Lemma snapshot_ends mac nonce : is_snapshot (snapshot_name mac nonce) = true.
Proof. apply ends_with_true. exists (lit "zc.prepared." ++ mac ++ 46 :: nonce). unfold snapshot_name. by rewrite <- !app_assoc. Qed.

Lemma snapshot_temporary mac nonce : temporary (snapshot_name mac nonce) = false.
Proof. done. Qed.

Lemma snapshot_component mac nonce : Forall (λ c, is_lower_hex c = true) mac → Forall (λ c, is_lower_hex c = true) nonce →
  single_component (snapshot_name mac nonce) = true.
Proof.
  intros Hm Hn.
  assert (Forall (λ c, ((c =? 47) || (c =? 92) || (c =? 0)) = false) (snapshot_name mac nonce)) as Hall.
  { assert (∀ s, Forall (λ c, is_lower_hex c = true) s → Forall (λ c, ((c =? 47) || (c =? 92) || (c =? 0)) = false) s) as Hx.
    { intros s Hs. eapply Forall_impl; [exact Hs|]. intros c. unfold is_lower_hex, is_ascii_digit.
      rewrite orb_true_iff, !andb_true_iff, !Z.leb_le. rewrite !orb_false_iff, !Z.eqb_neq. lia. }
    unfold snapshot_name. rewrite !Forall_app, Forall_cons, Forall_app. split; [by repeat constructor|]. split; [by apply Hx|].
    split; [done|]. split; [by apply Hx|by repeat constructor]. }
  unfold single_component, snapshot_name in *. rewrite bool_decide_eq_false_2 by done. simpl.
  apply negb_true_iff, not_true_iff_false. rewrite existsb_exists. intros (c & Hin & E).
  rewrite Forall_forall in Hall. rewrite (Hall c) in E; [done|].
  apply elem_of_app. right. by apply list_elem_of_In.
Qed.

Lemma name_mac_snapshot mac nonce : valid_hex mac 64 = true → Forall (λ c, is_lower_hex c = true) nonce →
  name_mac (snapshot_name mac nonce) nonce = Some mac.
Proof.
  intros Hm Hn. unfold name_mac, snapshot_name. pose proof Hm as [_ Hl]%valid_hex_spec.
  change (lit "zc.prepared." ++ mac ++ 46 :: nonce ++ lit ".snapshot")
    with (lit "zc" ++ 46 :: lit "prepared" ++ 46 :: mac ++ 46 :: nonce ++ 46 :: lit "snapshot").
  rewrite split_byte_app by (by vm_compute; set_solver).
  rewrite split_byte_app by (by vm_compute; set_solver).
  rewrite split_byte_app by (by apply lower_hex_no). rewrite split_byte_app by (by apply lower_hex_no).
  rewrite split_byte_no by (by vm_compute; set_solver). by rewrite Hm, !eq_str_refl.
Qed.

Lemma name_mac_shape name nonce mac : name_mac name nonce = Some mac → name = snapshot_name mac nonce ∧ valid_hex mac 64 = true.
Proof.
  unfold name_mac. destruct (split_byte 46 name) as [|zc [|kind [|m [|owner [|ext []]]]]] eqn:E; try done.
  destruct (_ && _) eqn:Hc; [|done]. intros [= ->]. rewrite !andb_true_iff in Hc. destruct Hc as [[[[H1 H2] H3] H4] H5].
  apply eq_str_true in H1, H2, H4, H5. subst. split; [|done]. by rewrite <- (glue_split 46 name), E.
Qed.

Lemma not_yaml (p mac nonce : str) : single_component (snapshot_name mac nonce) = true →
  yaml_extension (join p (snapshot_name mac nonce)) = false.
Proof.
  intros Hn. unfold yaml_extension. rewrite file_name_join by done. simpl.
  destruct (rsplit_once 46 _) as [[stem ext]|] eqn:E; [|done]. simpl. apply rsplit_once_app in E.
  destruct (eq_str ext (lit "yaml")) eqn:He; [|by rewrite andb_false_r]. apply eq_str_true in He. subst ext.
  apply (f_equal last) in E. unfold snapshot_name in E. rewrite !app_assoc in E.
  change (46 :: lit "yaml") with (lit ".yam" ++ [108]) in E. rewrite app_assoc, last_snoc in E.
  change (lit ".snapshot") with (lit ".snapsho" ++ [116]) in E.
  by rewrite app_comm_cons, !app_assoc, last_snoc in E.
Qed.

Section Macs.
Context `{Sha256}.

Lemma hmac_valid key bytes : valid_hex (hmac key bytes) 64 = true.
Proof.
  unfold hmac. apply valid_hex_spec. match goal with |- context [sha256 ?x] => pose proof (sha256_length x); pose proof (sha256_bytes x) as Hb end.
  apply hex_spec in Hb as [Hl Hf]. split; [|done]. unfold len. lia.
Qed.

End Macs.

(** ** The runtime directory *)

Lemma runs_io {A : Type} dir v (m : IO A) (Q : result IoError A → Entries → Prop) (S : result Error A → Entries → Prop) :
  runs dir v m Q → (∀ r v', Q r v' → S (map_err Io r) v') → runs dir v (io m) S.
Proof.
  intros Hm HS t Hp Hv d Hd. specialize (Hm t Hp Hv d Hd). unfold io. destruct (m d) as [d' r].
  destruct Hm as (t' & H1 & H2 & H3). eauto 6.
Qed.

Lemma runs_io_files {A : Type} dir v (m : IO A) (P : Entries → Prop) :
  runs dir v m (λ _ v', P v') → runs dir v (io m) (λ _ v', P v').
Proof. intros Hm. by eapply runs_io. Qed.

Lemma sees_io {A : Type} dir v (m : IO A) a : sees dir v m a → sees dir v (io m) a.
Proof. intros Hm d Hd. unfold io. by rewrite (Hm d Hd). Qed.

Lemma runs_ensure dir v (b : bool) (e : Error) : runs dir v (ensure b e) (λ r v', v' = v ∧ ∀ u, r = Ok u → b = true).
Proof. unfold ensure. destruct b; [by apply runs_ret|by apply runs_err]. Qed.

Lemma sees_ensure dir v (b : bool) (e : Error) : b = true → sees dir v (ensure b e) tt.
Proof. intros ->. apply sees_ret. Qed.

Lemma sees_checked {A : Type} dir v (r : res A) a : r = Ok a → sees dir v (checked r) a.
Proof. intros -> d _. done. Qed.

(** A failure of the disk is passed on by an operation that only looks. *)
Lemma runs_io_look {A B : Type} dir v (m : IO A) (k : A → SM B) (Q : A → Prop) (S : result Error B → Entries → Prop) :
  runs dir v m (λ r v', v' = v ∧ ∀ a, r = Ok a → Q a) → (∀ a, Q a → runs dir v (k a) S) → (∀ e, S (Err e) v) →
  runs dir v (sbind (io m) k) S.
Proof.
  intros Hm Hk He. eapply runs_then with (Q := Q); [|exact Hk|exact He].
  eapply runs_io; [exact Hm|]. intros r v' [-> HQ]. split; [done|]. intros a Ha. apply HQ. destruct r; simpl in Ha; congruence.
Qed.

Lemma runs_check {B : Type} dir v (b : bool) (e : Error) (k : unit → SM B) (S : result Error B → Entries → Prop) :
  (b = true → runs dir v (k tt) S) → (∀ e, S (Err e) v) → runs dir v (sbind (ensure b e) k) S.
Proof. intros Hk He. unfold ensure. destruct b; [by apply Hk|by apply (runs_err dir v)]. Qed.

Lemma look_read dir v n (limit : Z) : temporary n = false →
  runs dir v (read dir n limit) (λ r v', v' = v ∧ ∀ b, r = Ok b → v !! n = Some (File b)).
Proof. intros Hn. eapply runs_weaken; [by apply runs_read|]. intros r v' [-> Ho]. split; [done|]. by intros b ->. Qed.

(** What a key that is asked for leaves: the key that was there, or a new one. *)
Definition keyed v v' : Prop :=
  (∀ n, n ≠ KEY → n ≠ KEY_LOCK → v' !! n = v !! n) ∧ v ⊆ v'.

Lemma keyed_lock v v' : adds KEY_LOCK v v' → keyed v v'.
Proof. intros [Ho Hs]. split; [auto|done]. Qed.

Definition locked v : Prop := ∃ b, v !! KEY_LOCK = Some (File b).

Lemma runs_snapshot_key dir v (create : bool) :
  runs dir v (snapshot_key dir create) (λ r v', keyed v v' ∧ ∀ k, r = Ok k → v' !! KEY = Some (File k) ∧ len k = 32 ∧ locked v').
Proof.
  unfold snapshot_key. eapply runs_seq with (Q := λ r v', adds KEY_LOCK v v' ∧ (is_ok r = true → locked v')).
  { eapply runs_io; [by apply runs_locked|]. intros [[]|e] v' [H1 H2]; (split; [exact H1|done]). }
  2: { intros e v' [H _]. split; [by apply keyed_lock|done]. }
  intros [] v1 [H1 H2]. specialize (H2 eq_refl). apply keyed_lock in H1.
  eapply runs_io_look; [by apply runs_exists| |done]. intros present Hp. cbv beta in Hp.
  eapply runs_seq with (Q := λ r v', keyed v v' ∧ locked v').
  - destruct (negb present && create) eqn:Ec; [|by apply runs_ret].
    apply andb_true_iff in Ec as [Ec _]. apply negb_true_iff in Ec. subst present.
    eapply runs_io_look with (Q := λ _, True); [|intros bytes _|done].
    { apply runs_same. intros d. unfold getrandom. destruct (crashed d); [done|]. destruct (random d) as [|b bs]; [done|].
      by destruct (_ =? _)%nat. }
    assert (v1 !! KEY = None) as Hno by by destruct (v1 !! KEY).
    assert (∀ c, keyed v (<[KEY := File c]> v1) ∧ locked (<[KEY := File c]> v1)) as Hnew.
    { intros c. destruct H1 as [Ha Hb]. split; [split|].
      - intros n Hn1 Hn2. rewrite lookup_insert_ne by done. by apply Ha.
      - etrans; [exact Hb|by apply insert_subseteq].
      - destruct H2 as [b Hbb]. exists b. by rewrite lookup_insert_ne. }
    eapply runs_seq with (Q := λ r v', keyed v v' ∧ locked v').
    + eapply runs_io; [by apply runs_write_new|]. intros r v' [[-> _]|(_ & c & -> & _)]; [done|apply Hnew].
    + intros [] v2 H3. eapply runs_io; [apply runs_chance|]. by intros r v' [-> _].
    + done.
  - intros [] v2 [H3 H4]. eapply runs_io_look; [by apply look_read| |done]. intros k Hk. cbv beta in Hk.
    apply runs_check; [|done]. rewrite Z.eqb_eq. intros Hl. apply runs_ret. split; [done|]. by intros ? [= <-].
  - by intros e v2 [H3 _].
Qed.

(** Asking for the key of others leaves at most the lock file. *)
Lemma runs_key dir v :
  runs dir v (snapshot_key dir false) (λ r v', adds KEY_LOCK v v' ∧ ∀ k, r = Ok k → v' !! KEY = Some (File k) ∧ len k = 32 ∧ locked v').
Proof.
  unfold snapshot_key. eapply runs_seq with (Q := λ r v', adds KEY_LOCK v v' ∧ (is_ok r = true → locked v')).
  { eapply runs_io; [by apply runs_locked|]. intros [[]|e] v' [H1 H2]; (split; [exact H1|done]). }
  2: { intros e v' [H _]. done. }
  intros [] v1 [H1 H2]. specialize (H2 eq_refl).
  eapply runs_io_look; [by apply runs_exists| |done]. intros present _. rewrite andb_false_r.
  eapply runs_seq with (Q := λ _ v', v' = v1); [by apply runs_ret| |by intros e v' ->]. intros _ v' ->.
  eapply runs_io_look; [by apply look_read| |done]. intros k Hk. cbv beta in Hk.
  apply runs_check; [|done]. rewrite Z.eqb_eq. intros Hl. apply runs_ret. split; [done|]. by intros ? [= <-].
Qed.

Section Snapshots.
Context `{HN : IpNetLib, HL : !Loader, HS : Sha256, HD : !Serde Descriptor, HF : !Serde SnapshotFile}.

Definition file_bytes (p : Prepared) (nonce : str) : str := line (mkSnapshotFile (schema_of p) nonce p).

(** The snapshot [n] of [p] is complete. *)
Definition stored v (p : Prepared) (nonce n : str) : Prop := ∃ k,
  v !! KEY = Some (File k) ∧ len k = 32 ∧ n = snapshot_name (hmac k (file_bytes p nonce)) nonce ∧
  v !! n = Some (File (file_bytes p nonce)) ∧ len (file_bytes p nonce) ≤ SNAPSHOT_LIMIT.

(** Saving adds a snapshot, and perhaps the key; what is there stays. *)
Definition saved v v' : Prop :=
  (∀ n, n ≠ KEY → n ≠ KEY_LOCK → is_snapshot n = false → v' !! n = v !! n) ∧ v ⊆ v'.

Lemma keyed_saved v v' : keyed v v' → saved v v'.
Proof.
  intros [H1 H2]. split; [auto|done].
Qed.

Lemma saved_refl v : saved v v.
Proof. done. Qed.

Lemma saved_new v v1 n x : saved v v1 → is_snapshot n = true → v1 !! n = None → saved v (<[n := x]> v1).
Proof.
  intros [H1 H2] Hn Hno. split.
  - intros m ?? Hm. rewrite lookup_insert_ne by congruence. by apply H1.
  - etrans; [exact H2|by apply insert_subseteq].
Qed.

Lemma not_snapshot n m : is_snapshot n = true → is_snapshot m = false → m ≠ n.
Proof. congruence. Qed.

Lemma runs_save dir v p nonce :
  runs dir v (save_snapshot dir p nonce) (λ r v', saved v v' ∧ ∀ n, r = Ok n → stored v' p nonce n ∧ locked v').
Proof.
  unfold save_snapshot. fold (file_bytes p nonce). apply runs_check; [|done]. rewrite Z.leb_le. intros Hlen.
  eapply runs_seq; [apply runs_snapshot_key| |]. 2: { intros e v' [Hk _]. split; [by apply keyed_saved|done]. }
  intros k v1 [Hk H1]. destruct (H1 k eq_refl) as (Hkey & Hl & Hlock). apply keyed_saved in Hk. cbv zeta.
  set (n := snapshot_name _ nonce). assert (is_snapshot n = true) as Hn by apply snapshot_ends.
  assert (temporary n = false) as Ht by done.
  eapply runs_io_look; [by apply runs_exists| |done]. intros present Hp. cbv beta in Hp.
  eapply runs_seq with (Q := λ r v', saved v v' ∧ (is_ok r = true → stored v' p nonce n ∧ locked v')).
  - destruct present.
    + eapply runs_io_look; [by apply look_read| |done]. intros old Hold. cbv beta in Hold. eapply runs_weaken; [apply runs_ensure|].
      intros r v' [-> Hr]. split; [done|]. destruct r as [u|]; [|done]. intros _. specialize (Hr u eq_refl).
      apply bool_decide_eq_true in Hr as ->. split; [|done]. by exists k.
    + assert (v1 !! n = None) as Hno by by destruct (v1 !! n).
      eapply runs_seq with (Q := λ r v', saved v v' ∧ (is_ok r = true → stored v' p nonce n ∧ locked v')).
      * eapply runs_io; [by apply runs_write_new|]. intros r v' [[-> Hr]|(_ & c & -> & Hc)].
        { split; [done|]. destruct r; [done|]. done. }
        split; [by apply saved_new|]. destruct r as [[]|]; [|done]. rewrite Hc by done. intros _.
        destruct Hlock as [b Hb]. split; [|exists b; rewrite lookup_insert_ne; [done|by apply not_eq_sym, not_snapshot]].
        exists k. rewrite lookup_insert_ne by (by apply not_eq_sym, not_snapshot). by rewrite lookup_insert_eq.
      * intros [] v2 [H2 H3]. eapply runs_io; [apply runs_chance|]. intros r v' [-> _]. split; [done|]. intros _. by apply H3.
      * by intros e v2 [H2 _].
  - intros [] v2 [H2 H3]. apply runs_ret. split; [done|]. intros m [= <-]. by apply H3.
  - by intros e v2 [H2 _].
Qed.

(** ** Loading *)

Lemma runs_load dir v name nonce :
  runs dir v (load_snapshot dir name nonce) (λ r v', adds KEY_LOCK v v' ∧ ∀ p, r = Ok p → ∃ k b,
    valid_hex nonce 32 = true ∧ name_mac name nonce = Some (hmac k b) ∧ v !! name = Some (File b) ∧
    v' !! KEY = Some (File k) ∧ decode_snapshot b nonce = Ok p).
Proof.
  unfold load_snapshot. apply runs_check; [|done]. rewrite andb_true_iff. intros [Hn _].
  destruct (name_mac name nonce) as [mac|] eqn:Em; [|by apply (runs_err dir v)].
  pose proof (name_mac_shape _ _ _ Em) as [-> _].
  eapply runs_then with (Q := λ m, m = mac); [by apply runs_lifted; split; [|intros m [= <-]]|intros m ->|done].
  eapply runs_io_look; [by apply look_read| |done]. intros b Hb. cbv beta in Hb.
  eapply runs_seq; [apply runs_key| |by intros e v' [H _]].
  intros k v' [Hk Hok]. destruct (Hok k eq_refl) as (Hkey & _). apply runs_check; [|done].
  intros Hmac%eq_str_true. subst mac. apply runs_lifted. split; [done|]. intros p Hp.
  exists k, b. split_and!; try done. by destruct (decode_snapshot b nonce); [injection Hp as ->|].
Qed.

(** A snapshot whose secret overlays its configuration. *)
Definition overlaid (p : Prepared) : Prop := is_some (controller_secret p) = true → is_ok (parse_config p) = true.

Lemma decode_file_bytes p nonce : overlaid p → decode_snapshot (file_bytes p nonce) nonce = Ok p.
Proof.
  intros Ho. unfold decode_snapshot, file_bytes, line. rewrite from_slice_line. simpl. rewrite eq_str_refl, Z.eqb_refl. simpl.
  destruct (is_some (controller_secret p)) eqn:E; [|done]. by rewrite Ho.
Qed.

Lemma decode_file_bytes_Ok p p' nonce : decode_snapshot (file_bytes p nonce) nonce = Ok p' → p' = p.
Proof.
  unfold decode_snapshot, file_bytes, line. rewrite from_slice_line. simpl. rewrite eq_str_refl, Z.eqb_refl. simpl.
  destruct (_ && _); [done|]. by intros [= <-].
Qed.

(** What is loaded from a complete snapshot is what it was made of. *)
Lemma runs_load_stored dir v p nonce n : stored v p nonce n →
  runs dir v (load_snapshot dir n nonce) (λ r v', keyed v v' ∧ ∀ p', r = Ok p' → p' = p).
Proof.
  intros (k & _ & _ & _ & Hn & _). eapply runs_weaken; [apply runs_load|]. intros r v' [Hk Hok]. split; [by apply keyed_lock|].
  intros p' Hr. destruct (Hok p' Hr) as (? & b & _ & _ & Hb & _ & Hd). rewrite Hn in Hb. injection Hb as <-. by eapply decode_file_bytes_Ok.
Qed.

Lemma stored_component v p nonce n : stored v p nonce n → Forall (λ c, is_lower_hex c = true) nonce → single_component n = true.
Proof.
  intros (k & _ & _ & -> & _) Hn. apply snapshot_component; [|done]. apply (valid_hex_spec _ 64), hmac_valid.
Qed.

Lemma sees_load dir v p nonce n : stored v p nonce n → locked v → valid_hex nonce 32 = true → overlaid p →
  sees dir v (load_snapshot dir n nonce) p.
Proof.
  intros Hs [lb Hlb] Hn Ho. pose proof Hn as [_ Hf]%valid_hex_spec. pose proof (stored_component _ _ _ _ Hs Hf) as Hc.
  destruct Hs as (k & Hkey & Hk & -> & Hfile & Hl). unfold load_snapshot.
  eapply sees_bind; [by apply sees_ensure; rewrite Hn, Hc|].
  eapply sees_bind; [apply sees_checked; rewrite name_mac_snapshot; [done|by apply hmac_valid|done]|].
  eapply sees_bind; [by eapply sees_io, sees_read|]. unfold snapshot_key.
  eapply sees_bind.
  { eapply sees_bind; [by eapply sees_io, sees_lock|]. eapply sees_bind; [by eapply sees_io, sees_exists|].
    rewrite andb_false_r. eapply sees_bind; [apply sees_ret|].
    eapply sees_bind; [eapply sees_io, sees_read; [done|done|exact Hkey|lia]|].
    eapply sees_bind; [apply sees_ensure; by apply Z.eqb_eq|apply sees_ret]. }
  eapply sees_bind; [apply sees_ensure, eq_str_refl|]. by apply sees_checked, decode_file_bytes.
Qed.

Lemma stored_mono v v' p nonce n : stored v p nonce n → v' !! KEY = v !! KEY → v' !! n = v !! n → stored v' p nonce n.
Proof. intros (k & H1 & H2 & H3 & H4 & H5) E1 E2. exists k. by rewrite E1, E2. Qed.

(** C24: a snapshot that is saved is there for good: whatever fails while it is written, no
    file that was there (the key and the snapshots of this and other instances among them)
    is changed, and when saving succeeds every later process that finds the key and the
    snapshot as they were left, on a disk that works, loads exactly the configuration source,
    assets, identity, selections and invocation that were saved. A configuration with a
    controller secret laid over it has to parse, as it does where the code saves it. *)
Theorem snapshot_roundtrip dir p nonce d t
    (Hd : node_at dir (root d) = Some (Dir t)) (Hp : plain t)
    (Hn : valid_hex nonce 32 = true) (Ho : is_some (controller_secret p) = true → is_ok (parse_config p) = true) :
  let '(d', r) := save_snapshot dir p nonce d in
  ∃ t', root d' = set_at dir (Dir t') (root d) ∧
    (∀ n x, temporary n = false → t !! n = Some x → t' !! n = Some x) ∧
    ∀ name, r = Ok name → ∀ v2 d2, calm dir v2 d2 →
      (∀ n, n ∈ [KEY; KEY_LOCK; name] → v2 !! n = t' !! n) → load_snapshot dir name nonce d2 = (d2, Ok p).
Proof.
  pose proof (runs_at dir _ _ _ d t (runs_save dir (visible t) p nonce) Hd Hp eq_refl) as H.
  destruct (save_snapshot dir p nonce d) as [d' r]. destruct H as (t' & Hroot & _ & [_ Hkeep] & Hok).
  exists t'. split; [done|]. split.
  - intros n x Ht Hx. rewrite <- (visible_lookup t') by done. eapply lookup_weaken; [|exact Hkeep]. by rewrite visible_lookup.
  - intros name Hr v2 d2 Hcalm Hsame. destruct (Hok name Hr) as [Hs [b Hb]].
    assert (temporary name = false) as Hname by by destruct Hs as (? & _ & _ & -> & _).
    assert (∀ n, n ∈ [KEY; KEY_LOCK; name] → v2 !! n = visible t' !! n) as Hv.
    { intros n Hin. rewrite Hsame by done. symmetry. apply visible_lookup.
      apply list_elem_of_In in Hin. by destruct Hin as [<-|[<-|[<-|[]]]]. }
    apply (sees_load dir v2); [| |done..].
    + eapply stored_mono; [exact Hs|apply Hv; set_solver..].
    + exists b. rewrite Hv by set_solver. done.
Qed.

End Snapshots.

End SnapshotFacts.

(** * Selections of a snapshot

    Parsing what a snapshot holds gives a well-formed configuration; applying the desired
    selections to the running configuration gives the very configuration the next snapshot
    parses to, and every one of them is in effect. *)
From S2P Require Import Groups Proxy.

Module SelectionFacts.
Import Store Snapshot.

Section Facts.
Context `{HN : IpNetLib, HL : !Loader}.

Implicit Types (c : Config) (p : Prepared).

(** ** The map of selections *)

Lemma insert_selections_spec entries m m' : bmap_wf m → insert_selections entries m = Ok m' →
  bmap_wf m' ∧ (∀ k px, bget k m = Some px → bget k m' = Some px) ∧
  ∀ s, s ∈ entries → bget (sl_group s) m' = Some (sl_proxy s).
Proof.
  revert m. induction entries as [|s entries IH]; intros m Hm; simpl.
  - intros [= <-]. split_and!; [done|done|]. by intros s ?%not_elem_of_nil.
  - destruct (bcontains _ m) eqn:E; [done|]. intros Hi. apply IH in Hi as (H1 & H2 & H3); [|by apply binsert_wf].
    split_and!; [done| |].
    + intros k px Hk. apply H2. rewrite bget_insert. case_decide; [|done]. subst k. unfold bcontains in E. by rewrite Hk in E.
    + intros x [->|Hx]%elem_of_cons; [|by apply H3]. apply H2. by rewrite bget_insert_eq.
Qed.

Lemma selection_map_spec entries m : selection_map entries = Ok m →
  bmap_wf m ∧ ∀ s, s ∈ entries → bget (sl_group s) m = Some (sl_proxy s).
Proof.
  unfold selection_map. destruct (_ <? _); [done|]. intros Hm. apply insert_selections_spec in Hm as (H1 & _ & H2); [done|constructor].
Qed.

(** ** Applying them *)

Lemma apply_selections_ext c s wanted next :
  apply_selections (with_selections c s) wanted next = apply_selections c wanted next.
Proof.
  revert next. induction wanted as [|[k px] wanted IH]; intros next; [done|]. simpl.
  change (selection (with_selections c s) k px) with (selection c k px). destruct (selection c k px) as [[i m]|]; [apply IH|done].
Qed.

(** The current selections do not matter. *)
Lemma set_selections_ext c s wanted c' : set_selections c wanted = (c', Ok tt) → set_selections (with_selections c s) wanted = (c', Ok tt).
Proof.
  unfold set_selections. destruct (_ <? _); [done|]. rewrite apply_selections_ext. simpl.
  destruct (apply_selections _ _ _); [|done]. by intros [= <-].
Qed.

Lemma apply_selections_found c wanted next next' : apply_selections c wanted next = Ok next' →
  ∀ k px, (k, px) ∈ wanted → ∃ im, selection c k px = Ok im.
Proof.
  revert next. induction wanted as [|[k px] wanted IH]; intros next; simpl; [by intros _ ? ? ?%not_elem_of_nil|].
  destruct (selection c k px) as [[i m]|] eqn:E; [|done]. intros Ha k' px' [[= -> ->]|H]%elem_of_cons; [eauto|by eapply IH].
Qed.

(** A snapshot's selections that were applied are in effect. *)
Lemma set_selections_effective c entries wanted c' : config_wf server_name_ok c →
  selection_map entries = Ok wanted → set_selections c wanted = (c', Ok tt) →
  config_wf server_name_ok c' ∧ (∃ next, c' = with_selections c next) ∧
  ∃ m, selected c' = Some m ∧ ∀ s, s ∈ entries → bget (sl_group s) m = Some (sl_proxy s).
Proof.
  intros Hc Hm Hs. apply selection_map_spec in Hm as [Hwf Hget].
  destruct (set_selections_spec server_name_ok c wanted Hc) as [[e He]|(next & Hn & Hc' & Hall)]; [by apply bmap_wf_nodup|congruence|].
  assert (∀ k px, (k, px) ∈ wanted → ∃ im, selection c k px = Ok im) as Hfound.
  { unfold set_selections in Hs. destruct (_ <? _); [done|]. destruct (apply_selections c _ _) eqn:Ea; [|done]. by eapply apply_selections_found. }
  rewrite Hs in Hn. injection Hn as ->. split; [done|]. split; [by exists next|].
  destruct (selected_total server_name_ok _ Hc') as (m & -> & _ & _ & Hsel & _). exists m. split; [done|]. intros s Hs'.
  pose proof (Hget s Hs') as Hg. destruct (Hfound _ _ (bget_elem _ _ _ Hg)) as [[i k] Hi].
  apply selection_Ok in Hi as (g & n & Hgi & Hgn & _). specialize (Hall i g Hgi). rewrite Hgn, Hg in Hall.
  destruct Hall as (m' & n' & Hnext & Hmem & Hname). destruct (Hsel i g m' Hgi Hnext) as (n2 & name & Hmem2 & Hname2 & Hb).
  simpl in Hb. rewrite Hmem in Hmem2. injection Hmem2 as <-.
  change (node_name c n' = Some name) in Hname2. rewrite Hname in Hname2. injection Hname2 as <-. by rewrite <- Hgn.
Qed.

(** ** Parsing a snapshot *)

Lemma apply_controller_secret_wf p c c' : config_wf server_name_ok c → apply_controller_secret p c = Ok c' → config_wf server_name_ok c'.
Proof.
  intros Hc. unfold apply_controller_secret. destruct (controller_secret p) as [s|]; [|by intros [= <-]].
  destruct (_ && _); [|done]. intros [= <-]. by destruct Hc.
Qed.

Lemma parse_base_wf p c : parse_base p = Ok c → config_wf server_name_ok c.
Proof.
  unfold parse_base. do 4 (case_match; [done|]). destruct (load_config _ _) as [c0|] eqn:E; [|done].
  destruct (apply_controller_secret p c0) as [c1|] eqn:E1; [|done]. destruct (validate_controller_auth c1); [|done].
  intros [= <-]. eapply apply_controller_secret_wf; [|done]. by eapply load_config_wf.
Qed.

(** A snapshot that parses: its base, its selections and what they make of it. *)
Lemma parse_config_Ok p c : parse_config p = Ok c → ∃ base wanted,
  parse_base p = Ok base ∧ selection_map (selections p) = Ok wanted ∧ set_selections base wanted = (c, Ok tt) ∧
  is_some_and (controller c) (λ a, sa_port a =? port p) = false.
Proof.
  unfold parse_config. destruct (parse_base p) as [base|]; [|done]. destruct (selection_map _) as [wanted|]; [|done].
  destruct (set_selections base wanted) as [c' [[]|]] eqn:E; [|done]. destruct (is_some_and _ _) eqn:Ec; [done|].
  intros [= <-]. by exists base, wanted.
Qed.

Lemma snapshot_config_wf p c : parse_config p = Ok c →
  config_wf server_name_ok c ∧ ∃ m, selected c = Some m ∧ ∀ s, s ∈ selections p → bget (sl_group s) m = Some (sl_proxy s).
Proof.
  intros (base & wanted & Hb & Hw & Hs & _)%parse_config_Ok. apply parse_base_wf in Hb.
  destruct (set_selections_effective base (selections p) wanted c) as (H1 & _ & H2); done.
Qed.

(** The same snapshot with other selections parses to the configuration they were applied to. *)
Definition reselect (p : Prepared) (generation : Z) (entries : list Selection) : Prepared :=
  mkPrepared (source p) (assets p) (identity p) generation entries (invocation p) (port p) (override_options p) (controller_secret p).

Lemma parse_base_reselect p generation entries : is_some (identity p) = true →
  parse_base (reselect p generation entries) = parse_base p.
Proof. intros Hi. unfold parse_base, apply_controller_secret. simpl. by rewrite Hi. Qed.

Lemma parse_config_reselect p c sel generation entries wanted c' :
  is_some (identity p) = true → parse_config p = Ok c →
  selection_map entries = Ok wanted → set_selections (with_selections c sel) wanted = (c', Ok tt) →
  parse_config (reselect p generation entries) = Ok c'.
Proof.
  intros Hi Hp Hw Hs. apply parse_config_Ok in Hp as (base & w0 & Hb & Hw0 & Hs0 & Hport).
  assert (∃ next, c = with_selections base next) as [next ->].
  { unfold set_selections in Hs0. destruct (_ <? _); [done|]. destruct (apply_selections base _ _) as [next|]; [|done].
    injection Hs0 as <-. by exists next. }
  assert (set_selections base wanted = (c', Ok tt)) as Hbase.
  { apply (set_selections_ext _ (Config.selections base)) in Hs. by destruct base. }
  unfold parse_config. rewrite parse_base_reselect, Hb by done. simpl. rewrite Hw. simpl. rewrite Hbase. simpl.
  assert (controller c' = controller base) as ->; [|simpl in *; by rewrite Hport].
  unfold set_selections in Hbase. destruct (_ <? _); [done|]. destruct (apply_selections base _ _); [|done]. by injection Hbase as <-.
Qed.

End Facts.

End SelectionFacts.
