(* ===== verification/Instance.v ===== *)
(** * The running instance (src/src/daemon.rs: snapshots of older versions, [prepared_for],
      [observe], cleanup)

    What may be taken back of an instance, and what may be deleted of it. The process table
    and the holder of the instance lock are the environment's. *)
From S2P Require Import Prelude Utf8 Net BTree Json Rules Disk DiskFacts Bundle Revision Store Config Invocation Snapshot Evidence EventLog.

Module Instance.
Import Disk Bundle Revision Store Snapshot.

(** ** Snapshots of the original runtime *)

Definition unsupported_field : string := "START_SNAPSHOT_INVALID: unsupported runtime snapshot field".

(** Removes the fields that hold their default; another value is an error. *)
Fixpoint drop_defaults (defaults : list (string * (Value → bool))) (map : bmap Value) : res (bmap Value) :=
  match defaults with
  | [] => Ok map
  | (field, is_default) :: defaults =>
      match bget (lit field) map with
      | None => drop_defaults defaults map
      | Some v => if is_default v then drop_defaults defaults (bremove (lit field) map) else Err unsupported_field
      end
  end.

Definition runtime_defaults : list (string * (Value → bool)) :=
  [("redir-port", λ v, is_int v 0); ("tproxy-port", λ v, is_int v 0); ("ipv6", λ v, is_bool v true);
   ("idle-session-check-interval", λ v, is_int v 30); ("idle-session-timeout", λ v, is_int v 30);
   ("min-idle-session", λ v, is_int v 0)]%string.

Definition group_defaults : list (string * (Value → bool)) :=
  [("interval", λ v, is_int v 300); ("tolerance", λ v, is_int v 100); ("lazy", λ v, is_bool v true)]%string.

Definition zig_group (group : Value) : res Value :=
  let! map := ok_or (as_object group) "START_SNAPSHOT_INVALID: invalid group"%string in
  if is_text (index "type" group) "select" then
    let! map := drop_defaults group_defaults map in Ok (VObject map)
  else Ok group.

Fixpoint zig_groups (groups : list Value) : res (list Value) :=
  match groups with
  | [] => Ok []
  | g :: groups => let! g := zig_group g in let! gs := zig_groups groups in Ok (g :: gs)
  end.

(** The members of a document the original runtime wrote. *)
Definition zig_document (document : Value) : res Value :=
  let! map := ok_or (as_object document) "START_SNAPSHOT_INVALID: expected mapping"%string in
  let! map := drop_defaults runtime_defaults map in
  let map := if is_some_and (bget (lit "allow-lan") map) (λ v, is_bool v false)
             then binsert (lit "bind-address") (VString (lit "127.0.0.1")) map else map in
  match bget (lit "proxy-groups") map ≫= as_array with
  | None => Ok (VObject map)
  | Some groups =>
      let! groups := zig_groups groups in
      Ok (VObject (binsert (lit "proxy-groups") (VArray groups) map))
  end.

(** [text.splitn(n, '\n')] *)
Fixpoint splitn (n : nat) (s : str) : list str :=
  match n with
  | O => []
  | S O => [s]
  | S n => match split_once 10 s with
           | Some (line, rest) => line :: splitn n rest
           | None => [s]
           end
  end.

(** The four parts of an envelope: identity, source path, port and document. *)
Definition header (prefix : string) (line : option str) (missing : string) : res str :=
  ok_or (line ≫= strip_prefix (lit prefix)) missing.

Definition zig_identity (encoded : str) : res (option ActiveIdentity) :=
  if eq_str encoded (lit "-") then Ok None
  else
    let! '(key, revision) := ok_or (split_once 58 encoded) "START_SNAPSHOT_INVALID: invalid identity"%string in
    let! key := decode_hex key 255 in
    if valid_key key && valid_hex revision 32 then Ok (Some (mkActive key revision))
    else Err "START_SNAPSHOT_INVALID: invalid identity".

Definition zig_source_path (encoded : str) : res (option str) :=
  if eq_str encoded (lit "-") then Ok None else let! p := decode_hex encoded 4096 in Ok (Some p).

Definition zig_port (encoded : str) : res (option Z) :=
  if eq_str encoded (lit "-") then Ok None
  else if negb (forallb is_ascii_digit encoded) then Err "START_SNAPSHOT_INVALID: invalid port"
  else
    let! n := ok_or (parse_uint u16_max encoded) "invalid digit found in string"%string in
    if 0 <? n then Ok (Some n) else Err "START_SNAPSHOT_INVALID: invalid port".

Definition zig_name_mac (name : str) : option str :=
  match split_byte 46 name with
  | [zc; kind; mac; owner; ext] =>
      if single_component name && eq_str zc (lit "zc") && eq_str kind (lit "prepared") && valid_hex mac 64
         && valid_hex owner 32 && eq_str ext (lit "yaml")
      then Some mac else None
  | _ => None
  end.

(** What [processes] answers: whether a process is alive, and its command line ([Err]: it
    cannot be read); [lock_owned]: another open description holds zc.lock. *)
Record Env := mkEnv { alive : Z → bool; command : Z → res str; lock_owned : bool; own_pid : Z }.

Section Files.
Context `{Loader, Sha256, !Serde Descriptor, !Serde SnapshotFile} (parse_document : str → res Value) (to_string : Value → str)
  (value_json : Value → str) (wall : Disk → option Z) (process : Z).

Definition zig_runtime_source (yaml : str) : res str :=
  let! document := parse_document yaml in
  let! document := zig_document document in
  Ok (to_string document).

(** The envelope's contents, authenticated or not. *)
Definition decode_zig (bytes : str) (d : Descriptor) : res Prepared :=
  let! _ := (if utf8_valid bytes then Ok tt else Err "invalid utf-8 sequence") in
  let lines := splitn 4 bytes in
  let! id := header "# zc-prepared-v1 " (lines !! 0%nat) "START_SNAPSHOT_INVALID: missing identity header" in
  let! id := zig_identity id in
  let! from := header "# zc-prepared-source-v1 " (lines !! 1%nat) "START_SNAPSHOT_INVALID: missing source header" in
  let! from := zig_source_path from in
  let! p := header "# zc-prepared-port-v1 " (lines !! 2%nat) "START_SNAPSHOT_INVALID: missing port header" in
  let! p := zig_port p in
  let! payload := ok_or (lines !! 3%nat) "START_SNAPSHOT_INVALID: missing payload"%string in
  let! text := zig_runtime_source payload in
  let! inv := ok_or (d_invocation d) "START_SNAPSHOT_INVALID: missing invocation"%string in
  let! _ := (if prepared inv && bool_decide (source_path inv = from) && bool_decide (port_override inv = p)
                && bool_decide (id = d_identity d)
             then Ok tt else Err "START_SNAPSHOT_INVALID: prepared invocation mismatch") in
  let! c := load_source text in
  let mixed := as_u64 (index "mixed-port" (document c)) ≫= (λ n, if n <=? u16_max then Some n else None) in
  let! n := ok_or (match p with Some n => Some n | None => mixed end ≫= (λ n, if 0 <? n then Some n else None))
                  "START_SNAPSHOT_INVALID: no mixed port"%string in
  Ok (mkPrepared text [] id (d_generation d) [] inv n Invocation.default_options None).

Definition load_zig_prepared (dir : list str) (name : str) (d : Descriptor) : SM Prepared :=
  do! mac := checked (ok_or (zig_name_mac name) "START_SNAPSHOT_INVALID: invalid prepared name"%string) in
  do! bytes := io (read dir name (FILE_LIMIT + 16 * 1024)) in
  do! key := snapshot_key dir false in
  do! _ := ensure (eq_str (hmac key bytes) mac) (Message "START_SNAPSHOT_INVALID: snapshot authentication failed") in
  checked (decode_zig bytes d).

(** ** Taking back and deleting *)

(** Deletes the snapshot a descriptor names, if it is one of this directory and authentic. *)
Definition remove_descriptor_snapshot (rt : Directory) (d : Descriptor) : SM unit :=
  match d_invocation d ≫= config_path with
  | None => sret tt
  | Some p =>
      match file_name p with
      | None => sret tt
      | Some name =>
          do! yaml := (if ends_with (lit ".yaml") name
                       then do! r := tried (load_zig_prepared (handle rt) name d) in sret (is_ok r) else sret false) in
          if negb (directly_in p (path rt)) || negb (starts_with (lit "zc.prepared.") name) then sret tt
          else
            do! own := tried (load_snapshot (handle rt) name (d_nonce d)) in
            if negb (is_ok own) && negb yaml then sret tt
            else do! _ := tried (io (remove_file (handle rt) name)) in sret tt
      end
  end.

Definition prepared_for (rt : Directory) (d : Descriptor) : SM Prepared :=
  do! p := checked (ok_or (d_invocation d ≫= config_path) "RUNTIME_SNAPSHOT_MISSING: exact snapshot unavailable"%string) in
  do! _ := ensure (directly_in p (path rt)) (Message "RUNTIME_SNAPSHOT_INVALID: snapshot directory mismatch") in
  do! name := checked (ok_or (file_name p) "invalid snapshot path"%string) in
  do! frozen := (if yaml_extension p then load_zig_prepared (handle rt) name d
                 else load_snapshot (handle rt) name (d_nonce d)) in
  do! _ := ensure (bool_decide (identity frozen = d_identity d) && (generation frozen =? d_generation d))
                  (Message "RUNTIME_SNAPSHOT_INVALID: snapshot identity mismatch") in
  do! c := checked (parse_config frozen) in
  do! _ := ensure (bool_decide (endpoint_of c = d_endpoint d)) (Message "RUNTIME_SNAPSHOT_INVALID: snapshot identity mismatch") in
  sret frozen.

Definition durability_warning : str := lit "Warning: runtime descriptor durability is uncertain." ++ [10].

(** A descriptor that is visible but not synced is reported, not taken back. *)
Definition publish (dir : list str) (d : Descriptor) : SM unit :=
  do! receipt := io (atomic_write dir DESCRIPTOR (line d)) in
  match receipt with
  | None => sret tt
  | Some _ => do! _ := tried (io (EventLog.append_log value_json wall process dir durability_warning)) in sret tt
  end.

Fixpoint remove_all (dir : list str) (names : list str) : SM unit :=
  match names with
  | [] => sret tt
  | name :: names => do! _ := tried (io (remove_file dir name)) in remove_all dir names
  end.

Definition cleanup_names (dir : list str) (nonce snapshot : str) : SM unit :=
  do! own := tried (load_snapshot dir snapshot nonce) in
  do! _ := (if is_ok own then do! _ := tried (io (remove_file dir snapshot)) in sret tt else sret tt) in
  remove_all dir [lit "zc.stop." ++ nonce; lit "zc.start." ++ nonce; lit "zc.restore." ++ nonce].

Definition INSTANCE_LOCK : str := lit "zc.lock".
Definition DAEMON_LOCK : str := lit "zc.daemon.lock".

(** The part of [cleanup_instance] that runs when the descriptor is the instance's own. *)
Definition cleanup_own (e : Env) (rt : Directory) (nonce : str) (current : option Descriptor) : SM unit :=
  match current with
  | Some d =>
      if eq_str (d_nonce d) nonce && (d_pid d =? own_pid e) then
        do! _ := remove_descriptor_snapshot rt d in
        do! _ := tried (io (remove_file (handle rt) DESCRIPTOR)) in
        do! p := tried (pid (handle rt)) in
        match p with
        | Ok (Some n) => if n =? own_pid e then do! _ := tried (io (remove_file (handle rt) (lit "zc.pid"))) in sret tt else sret tt
        | _ => sret tt
        end
      else sret tt
  | None => sret tt
  end.

Definition cleanup_instance (e : Env) (rt : Directory) (nonce name : str) : SM unit :=
  do! locked := tried (io (lock (handle rt) DAEMON_LOCK)) in
  do! _ := (if is_ok locked then
              do! current := tried (read_descriptor (handle rt)) in
              match current with Ok current => cleanup_own e rt nonce current | Err _ => sret tt end
            else sret tt) in
  cleanup_names (handle rt) nonce name.

(** ** Observing *)

Definition lock_held (e : Env) (dir : list str) : SM bool :=
  if lock_owned e then
    do! _ := io (open_lock 2 dir INSTANCE_LOCK) in
    do! _ := io chance in
    sret true
  else do! _ := io (lock dir INSTANCE_LOCK) in sret false.

(** [args.iter().skip(1).find(|a| !a.starts_with(b"-")) == Some(b"start")] *)
Definition first_operand (args : list str) : option str := List.find (λ a, negb (starts_with [45] a)) (drop 1 args).

(** Whether a command line is a daemon's. *)
Definition daemon_command (bytes : str) : bool :=
  let args := filter (λ a, negb (bool_decide (a = []))) (split_byte 0 bytes) in
  let has flag := existsb (λ a, eq_str a (lit flag)) args in
  match args with
  | [] => false
  | binary :: _ =>
      utf8_valid binary &&
      (has "--service-run" || is_some_and (file_name binary) (λ n, one_of n ["zc"; "zclash"])) &&
      (has "--service-run" || has "--daemon-run" || (has "--foreground" && bool_decide (first_operand args = Some (lit "start"))))
  end%string.

Definition daemon_process (e : Env) (p : Z) : SM bool :=
  if negb (alive e p) then sret false
  else
    do! bytes := checked (command e p) in
    do! _ := ensure (len bytes <=? 64 * 1024) (Message "RUNTIME_IDENTITY_CHANGED: process command exceeds limit") in
    sret (daemon_command bytes).

Definition changed (m : string) : Error := Message ("RUNTIME_IDENTITY_CHANGED: " ++ m).

(** A pid file's process must be gone when nothing holds the lock. *)
Definition unverified (e : Env) (process : option Z) : SM (option Descriptor) :=
  do! _ := ensure (negb (is_some_and process (alive e))) (changed "unverified live PID") in sret None.

(** The identity of the lock file is that it still exists: nothing else replaces a node here. *)
Fixpoint observe_rounds (rounds : nat) (e : Env) (rt : Directory) : SM (option Descriptor) :=
  match rounds with
  | O => serr (changed "descriptor did not stabilize")
  | S rounds =>
      do! d := read_descriptor (handle rt) in
      do! before := io (tried (file_metadata (handle rt) INSTANCE_LOCK)) in
      do! held := lock_held e (handle rt) in
      do! process := pid (handle rt) in
      match d with
      | None => if held then sret None else unverified e process
      | Some d =>
          if held then
            do! running := (if bool_decide (process = Some (d_pid d)) then daemon_process e (d_pid d) else sret false) in
            do! _ := ensure running (changed "PID and daemon lock disagree") in
            do! _ := ensure (is_ok before) (changed "missing daemon lock") in
            do! _ := io (file_metadata (handle rt) INSTANCE_LOCK) in
            do! held := lock_held e (handle rt) in
            do! process := (if held then pid (handle rt) else sret None) in
            do! _ := ensure (held && bool_decide (process = Some (d_pid d))) (changed "runtime changed during observation") in
            do! next := read_descriptor (handle rt) in
            if bool_decide (next = Some d) then do! _ := io (validate_path (handle rt)) in sret (Some d)
            else
              do! _ := ensure (is_some_and next (λ n, (d_pid n =? d_pid d) && eq_str (d_nonce n) (d_nonce d)))
                              (changed "runtime changed during observation") in
              observe_rounds rounds e rt
          else
            do! _ := ensure (negb (alive e (d_pid d))) (changed "live PID without its daemon lock") in
            unverified e process
      end
  end.

Definition observe (e : Env) (rt : Directory) : SM (option Descriptor) :=
  do! _ := io (validate_path (handle rt)) in observe_rounds 4 e rt.

(** [cleanup_stale]: [None] when the instance lock is held. *)
Definition cleanup_stale (e : Env) (rt : Directory) : SM (option Z) :=
  do! held := lock_held e (handle rt) in
  if held then sret None
  else
    do! _ := io (validate_path (handle rt)) in
    do! _ := io (validate (handle rt) INSTANCE_LOCK) in
    do! stale := pid (handle rt) in
    do! _ := ensure (negb (is_some_and stale (alive e))) (changed "live PID cannot be cleaned") in
    do! _ := io (lock (handle rt) DAEMON_LOCK) in
    do! current := read_descriptor (handle rt) in
    do! _ := match current with
             | None => sret tt
             | Some d =>
                 do! _ := ensure (negb (alive e (d_pid d))) (changed "live descriptor cannot be cleaned") in
                 do! _ := remove_descriptor_snapshot rt d in
                 io (remove_file (handle rt) DESCRIPTOR)
             end in
    do! _ := (if is_some stale then io (remove_file (handle rt) (lit "zc.pid")) else sret tt) in
    sret stale.

End Files.

End Instance.
