(* ===== verification/InstanceFacts.v ===== *)
(** * What observing, publishing and cleaning up do to the runtime directory

    Observing an instance changes nothing but the lock file and reports only a descriptor
    that is there and valid. Publishing replaces the descriptor or leaves it. Cleaning up
    removes what is the instance's own. *)
From S2P Require Import Prelude Utf8 Net BTree Json Rules Config Disk DiskFacts DirSpec Bundle Revision RevisionFacts Store Invocation Snapshot SnapshotFacts Evidence EventLog EventLogFacts Instance.

Module InstanceFacts.
Import Disk DirSpec Bundle Revision Store Snapshot SnapshotFacts EventLogFacts Instance.

Implicit Types (v t : Entries) (dir : list str).

(** ** Composition *)

Lemma runs_io_try {A B : Type} dir v (m : IO A) (k : result IoError A → SM B) (Q : result IoError A → Entries → Prop)
    (S : result Error B → Entries → Prop) :
  runs dir v m Q → (∀ r v', Q r v' → runs dir v' (k r) S) → runs dir v (sbind (io (tried m)) k) S.
Proof.
  intros Hm Hk. eapply runs_seq with (Q := λ r v', ∃ r', r = Ok r' ∧ Q r' v').
  - eapply runs_io; [apply (runs_tried dir v m (λ r v', ∃ r', r = Ok r' ∧ Q r' v')); eapply runs_weaken; [exact Hm|eauto]|].
    intros r v' (r' & -> & HQ). simpl. eauto.
  - intros r v' (r' & [= ->] & HQ). auto.
  - by intros e v' (r' & H & _).
Qed.

(** An outcome that is dropped. *)
Lemma runs_ignore {A B : Type} dir v (m : SM A) (k : SM B) (Q : Entries → Prop) (S : result Error B → Entries → Prop) :
  runs dir v m (λ _ v', Q v') → (∀ v', Q v' → runs dir v' k S) → runs dir v (sbind (tried m) (λ _, k)) S.
Proof. intros Hm Hk. eapply runs_try; [exact Hm|]. auto. Qed.

Lemma runs_checked {A B : Type} dir v (r : res A) (k : A → SM B) (S : result Error B → Entries → Prop) :
  (∀ a, r = Ok a → runs dir v (k a) S) → (∀ e, S (Err e) v) → runs dir v (sbind (checked r) k) S.
Proof.
  intros Hk He. eapply runs_then with (Q := λ a, r = Ok a); [|exact Hk|exact He].
  apply runs_lifted. split; [done|]. by destruct r; intros ? [= ->].
Qed.

Section Facts.
Context `{HN : IpNetLib, HL : !Loader, HS : Sha256, HD : !Serde Descriptor, HF : !Serde SnapshotFile}.

(** ** Descriptors *)

Definition published v (d : Descriptor) : Prop :=
  v !! DESCRIPTOR = Some (File (line d)) ∧ descriptor_ok d (line d) = true.

Lemma line_inj {A : Type} `{Serde A} (a b : A) : line a = line b → a = b.
Proof. intros E. apply (f_equal from_slice) in E. unfold line in E. rewrite !from_slice_line in E. by injection E. Qed.

Lemma published_eq v d d' : published v d → published v d' → d = d'.
Proof. intros [H1 _] [H2 _]. rewrite H1 in H2. injection H2 as H2. by apply line_inj. Qed.

Lemma published_mono v v' d : published v d → v' !! DESCRIPTOR = v !! DESCRIPTOR → published v' d.
Proof. intros [H1 H2] E. split; [by rewrite E|done]. Qed.

Lemma runs_read_stable dir v (attempts : nat) :
  runs dir v (read_stable attempts dir) (λ r v', v' = v ∧ ∀ b, r = Ok (Some b) → v !! DESCRIPTOR = Some (File b)).
Proof.
  induction attempts as [|n IH]; (eapply runs_io_try; [by apply runs_read|]; intros r v' [-> Ho]).
  - destruct r as [b|[]]; simpl; try (by apply runs_err); apply runs_ret; (split; [done|]); by intros ? [= <-].
  - destruct r as [b|e]; simpl; [apply runs_ret; split; [done|]; by intros ? [= <-]|].
    destruct e; try (by apply runs_err); try (by apply runs_ret).
    destruct (invalid_data _); [|by apply runs_err]. eapply runs_io_try; [by apply runs_metadata|].
    intros r v' [-> _]. destruct (is_ok r); [exact IH|by apply runs_err].
Qed.

Lemma decode_descriptor_Ok b d : decode_descriptor b = Ok d → b = line d ∧ descriptor_ok d (line d) = true.
Proof.
  unfold decode_descriptor. destruct (from_slice b) as [d'|]; [|done]. cbn [ok_or].
  destruct (descriptor_ok d' b) eqn:E; [|done]. intros [= <-].
  assert (line d' = b) as <-; [|done]. unfold descriptor_ok in E. rewrite !andb_true_iff in E.
  apply eq_str_true. tauto.
Qed.

Lemma runs_read_descriptor dir v :
  runs dir v (read_descriptor dir) (λ r v', v' = v ∧ ∀ d, r = Ok (Some d) → published v d).
Proof.
  unfold read_descriptor. eapply runs_seq; [apply runs_read_stable| |by intros e v' [-> _]]. intros [b|] v' [-> Hb]; [|by apply runs_ret].
  apply runs_checked; [|done]. intros d Hd. apply runs_ret. split; [done|]. intros ? [= <-].
  apply decode_descriptor_Ok in Hd as [-> Hok]. split; [by apply Hb|done].
Qed.

(** The process the pid file names. *)
Definition pid_file v (p : Z) : Prop := ∃ b, v !! lit "zc.pid" = Some (File b) ∧ parse_uint u32_max (trim b) = Some p.

Lemma runs_pid_file dir v : runs dir v (pid dir) (λ r v', v' = v ∧ ∀ o, r = Ok o → ∀ p, pid_file v p ↔ o = Some p).
Proof.
  unfold pid. eapply runs_io_try; [by apply runs_read|]. intros r v' [-> Ho].
  destruct r as [b|[]]; try (by apply runs_err).
  - apply runs_check; [intros _|done]. apply runs_checked; [|done]. intros n Hn. apply runs_check; [intros _|done]. apply runs_ret.
    split; [done|]. intros o [= <-] p. unfold pid_file. simpl in Ho. rewrite Ho. split.
    + intros (b' & [= <-] & Hp). rewrite Hp in Hn. by injection Hn as ->.
    + intros [= <-]. exists b. split; [done|]. unfold ok_or in Hn. destruct (parse_uint _ _); [|done]. by injection Hn as ->.
  - apply runs_ret. split; [done|]. intros o [= <-] p. split; [|done]. intros (b & Hb & _). by rewrite (Ho eq_refl) in Hb.
Qed.

Lemma runs_pid dir v : runs dir v (pid dir) (λ _ v', v' = v).
Proof. eapply runs_weaken; [apply runs_pid_file|]. by intros r v' [-> _]. Qed.

(** ** Observing *)

Context (e : Env) (rt : Directory).
Local Abbreviation dir := (handle rt).

Lemma runs_held v : runs dir v (lock_held e dir) (λ r v', adds INSTANCE_LOCK v v' ∧ ∀ b, r = Ok b → b = lock_owned e).
Proof.
  unfold lock_held. destruct (lock_owned e).
  - eapply runs_seq with (Q := λ _ v', adds INSTANCE_LOCK v v'); [by apply runs_io_files, runs_open_lock| |done]. intros [] v' Hv.
    eapply runs_io_look with (Q := λ _, True); [eapply runs_weaken; [apply runs_chance|by intros ? ? [-> _]]|intros [] _|done].
    apply runs_ret. split; [done|]. by intros b [= <-].
  - eapply runs_seq with (Q := λ _ v', adds INSTANCE_LOCK v v'); [| |done].
    { apply runs_io_files. eapply runs_weaken; [by apply runs_locked|]. by intros r v' [H _]. }
    intros [] v' Hv. apply runs_ret. split; [done|]. by intros b [= <-].
Qed.

Lemma runs_lock_held v : runs dir v (lock_held e dir) (λ _ v', only INSTANCE_LOCK v v').
Proof. eapply runs_weaken; [apply runs_held|]. by intros r v' [[H _] _]. Qed.

Lemma runs_validate_path v : runs dir v (validate_path dir) (λ _ v', v' = v).
Proof.
  unfold validate_path. eapply runs_then with (Q := λ _, True); [|intros [] _|done];
    (eapply runs_weaken; [apply runs_chance|by intros ? ? [-> _]]).
Qed.

Lemma runs_daemon_process v p : runs dir v (daemon_process e p) (λ _ v', v' = v).
Proof.
  unfold daemon_process. destruct (negb _); [by apply runs_ret|]. apply runs_checked; [intros b _|done].
  apply runs_check; [intros _|done]. by apply runs_ret.
Qed.

Definition seen v (r : result Error (option Descriptor)) v' : Prop :=
  only INSTANCE_LOCK v v' ∧ ∀ d, r = Ok (Some d) → published v' d.

Lemma seen_from v v1 r v' : only INSTANCE_LOCK v v1 → seen v1 r v' → seen v r v'.
Proof. intros H1 [H2 H3]. split; [by eapply only_trans|done]. Qed.

Lemma seen_none v v' r : only INSTANCE_LOCK v v' → (∀ d, r ≠ Ok (Some d)) → seen v r v'.
Proof. intros H Hr. split; [done|]. intros d ->. by destruct (Hr d). Qed.

Lemma runs_unverified v v0 process : only INSTANCE_LOCK v v0 → runs dir v0 (unverified e process) (seen v).
Proof. intros H. unfold unverified. apply runs_check; [intros _|by intros; apply seen_none]. apply runs_ret. by apply seen_none. Qed.

Lemma runs_observe_rounds (rounds : nat) v : runs dir v (observe_rounds rounds e rt) (seen v).
Proof.
  revert v. induction rounds as [|rounds IH]; intros v; simpl; [apply runs_err, seen_none; [apply only_refl|done]|].
  assert (∀ v' (err : Error), only INSTANCE_LOCK v v' → seen v (Err err) v') as Herr by (intros; by apply seen_none).
  eapply runs_seq; [apply runs_read_descriptor| |by intros err v' [-> _]; apply Herr, only_refl].
  intros d v' [-> Hd]. eapply runs_io_try; [by apply runs_metadata|]. intros before v' [-> _].
  eapply runs_seq; [apply runs_lock_held| |by auto]. intros held v1 H1.
  eapply runs_seq; [apply runs_pid| |by intros err v' ->; auto]. intros process v' ->.
  destruct d as [d|].
  2: { destruct held; [by apply runs_ret, seen_none|by apply runs_unverified]. }
  destruct held; [|apply runs_check; [intros _|by auto]; by apply runs_unverified].
  eapply runs_seq with (Q := λ _ v', v' = v1); [case_match; [apply runs_daemon_process|by apply runs_ret]| |by intros err v' ->; auto].
  intros running v' ->. apply runs_check; [intros _|by auto]. apply runs_check; [intros _|by auto].
  eapply runs_io_look with (Q := λ _, True); [|intros _ _|by auto].
  { eapply runs_weaken; [by apply runs_metadata|]. by intros r v' [-> _]. }
  eapply runs_seq; [apply runs_lock_held| |intros err v' H; apply Herr; by eapply only_trans].
  intros held v2 H2. assert (only INSTANCE_LOCK v v2) as H12 by by eapply only_trans.
  eapply runs_seq with (Q := λ _ v', v' = v2); [destruct held; [apply runs_pid|by apply runs_ret]| |by intros err v' ->; auto].
  intros process' v' ->. apply runs_check; [intros _|by auto].
  eapply runs_seq; [apply runs_read_descriptor| |by intros err v' [-> _]; auto]. intros next v' [-> Hnext]. destruct (bool_decide _) eqn:En.
  - apply bool_decide_eq_true in En as ->.
    eapply runs_io_look with (Q := λ _, True); [eapply runs_weaken; [apply runs_validate_path|by intros ? ? ->]|intros _ _|by auto].
    apply runs_ret. split; [done|]. intros ? [= <-]. by apply Hnext.
  - apply runs_check; [intros _|by auto]. eapply runs_weaken; [apply IH|]. intros r v' H. by eapply seen_from.
Qed.

Lemma runs_observe v : runs dir v (observe e rt) (seen v).
Proof.
  unfold observe. eapply runs_io_look with (Q := λ _, True); [eapply runs_weaken; [apply runs_validate_path|by intros ? ? ->]|intros _ _|].
  - apply runs_observe_rounds.
  - intros err. apply seen_none; [apply only_refl|done].
Qed.

(** ** Publishing *)

Lemma fits_same v v' : v' !! EventLog.LOG = v !! EventLog.LOG → v' !! EventLog.ARCHIVE = v !! EventLog.ARCHIVE → fits v → fits v'.
Proof. intros E1 E2. unfold fits, content. by rewrite E1, E2. Qed.

Definition republished v (d : Descriptor) (r : result Error unit) v' : Prop :=
  (∀ n, n ≠ DESCRIPTOR → n ∉ log_names → v' !! n = v !! n) ∧ fits v' ∧
  (v' !! DESCRIPTOR = v !! DESCRIPTOR ∨ v' !! DESCRIPTOR = Some (File (line d))) ∧
  (is_ok r = true → v' !! DESCRIPTOR = Some (File (line d))).

Lemma descriptor_no_log : DESCRIPTOR ∉ log_names.
Proof. intros H%list_elem_of_In. by destruct H as [H|[H|[H|[]]]]. Qed.

Lemma runs_publish_descriptor to_json wall process v d : fits v →
  runs dir v (publish to_json wall process dir d) (republished v d).
Proof.
  intros Hfit. unfold publish.
  assert (∀ v1 r, (v1 = v ∨ v1 = <[DESCRIPTOR := File (line d)]> v) →
    (is_ok r = true → v1 = <[DESCRIPTOR := File (line d)]> v) → republished v d r v1) as Hbase.
  { intros v1 r H1 H2. split_and!.
    - intros n Hn _. destruct H1 as [->| ->]; [done|by rewrite lookup_insert_ne].
    - destruct H1 as [->| ->]; [done|]. by eapply fits_same; [rewrite lookup_insert_ne..|].
    - destruct H1 as [->| ->]; [by left|right; by rewrite lookup_insert_eq].
    - intros Hr. rewrite H2 by done. by rewrite lookup_insert_eq. }
  eapply runs_seq with (Q := λ r v', (v' = v ∨ v' = <[DESCRIPTOR := File (line d)]> v) ∧
    (is_ok r = true → v' = <[DESCRIPTOR := File (line d)]> v)).
  { eapply runs_io; [by apply runs_atomic_write|]. intros r v' [H1 H2]. split; [done|]. by destruct r. }
  2: { intros err v' [H1 _]. by apply Hbase. }
  intros [w|] v1 [H1 H2]; [|by apply runs_ret, Hbase].
  specialize (H2 eq_refl). destruct (Hbase v1 (Ok tt) H1 (λ _, H2)) as (Hsame & Hf & _ & Hd).
  eapply runs_ignore with (Q := λ v', ∃ piece, gained v1 piece v').
  - eapply runs_io; [by apply runs_append_log|]. intros r v' (k & Hg & _). eauto.
  - intros v2 (piece & Hframe & Hf2 & _). apply runs_ret. rewrite <- (Hframe DESCRIPTOR) in Hd by apply descriptor_no_log.
    split_and!; [|done|right; by apply Hd|done]. intros n Hn Hl. rewrite Hframe by done. by apply Hsame.
Qed.

(** ** The snapshot of a descriptor *)

(** [d]'s snapshot is the complete file [n] of [p], which parses to [c]. *)
Definition backed v (d : Descriptor) (n : str) (p : Prepared) (c : Config) : Prop :=
  ∃ i, d_invocation d = Some i ∧ config_path i = Some (join (path rt) n) ∧ stored v p (d_nonce d) n ∧
    identity p = d_identity d ∧ generation p = d_generation d ∧ parse_config p = Ok c ∧ endpoint_of c = d_endpoint d.

Hypothesis rooted : starts_with [47] (path rt) = true.

Lemma descriptor_nonce d b : descriptor_ok d b = true → valid_hex (d_nonce d) 32 = true.
Proof. unfold descriptor_ok. rewrite !andb_true_iff. tauto. Qed.

Lemma stored_yaml v p nonce n : stored v p nonce n → single_component n = true → yaml_extension (join (path rt) n) = false.
Proof. intros (k & _ & _ & -> & _) Hc. by apply not_yaml. Qed.

Section Backed.
Context (parse_document : str → res Value) (to_string : Value → str).
Context (v : Entries) (d : Descriptor) (n : str) (p : Prepared) (c : Config).
Context (Hnonce : valid_hex (d_nonce d) 32 = true) (Hbacked : backed v d n p c).

Lemma backed_component : single_component n = true.
Proof.
  destruct Hbacked as (i & _ & _ & Hs & _). eapply stored_component; [done|]. by apply (valid_hex_spec _ 32).
Qed.

Lemma backed_path : d_invocation d ≫= config_path = Some (join (path rt) n).
Proof. destruct Hbacked as (i & Hi & Hq & _). by rewrite Hi. Qed.

Lemma runs_prepared_for : runs dir v (prepared_for parse_document to_string rt d) (λ r v', keyed v v' ∧ ∀ p', r = Ok p' → p' = p).
Proof.
  pose proof backed_component as Hc. pose proof backed_path as Hq. destruct Hbacked as (i & _ & _ & Hs & _).
  assert (keyed v v) as Hsame by done.
  unfold prepared_for. rewrite Hq. apply runs_checked; [intros q [= <-]|done]. apply runs_check; [intros _|done].
  apply runs_checked; [|done]. rewrite file_name_join by done. intros m [= <-].
  rewrite (stored_yaml v p (d_nonce d)) by done. eapply runs_seq; [by apply runs_load_stored| |by intros err v' [H _]].
  intros p' v' [Hk Hp]. specialize (Hp p' eq_refl) as ->. apply runs_check; [intros _|done].
  apply runs_checked; [intros c' _|done]. apply runs_check; [intros _|done]. apply runs_ret. split; [done|]. by intros p' [= <-].
Qed.

(** On a disk that works the instance can be taken back. *)
Lemma sees_prepared_for : locked v → sees dir v (prepared_for parse_document to_string rt d) p.
Proof.
  intros Hl. pose proof backed_component as Hc. pose proof backed_path as Hq.
  destruct Hbacked as (i & _ & _ & Hs & Hid & Hgen & Hparse & Hend). unfold prepared_for. rewrite Hq.
  eapply sees_bind; [by apply sees_checked|]. eapply sees_bind; [by apply sees_ensure, directly_in_join|].
  eapply sees_bind; [apply sees_checked; by rewrite file_name_join|].
  rewrite (stored_yaml v p (d_nonce d)) by done.
  eapply sees_bind; [apply sees_load; [done..|]; intros _; by rewrite Hparse|].
  eapply sees_bind; [apply sees_ensure; by rewrite bool_decide_eq_true_2, Hgen, Z.eqb_refl|].
  eapply sees_bind; [by apply sees_checked|]. eapply sees_bind; [apply sees_ensure; by apply bool_decide_eq_true|]. apply sees_ret.
Qed.

(** Deleting the snapshot deletes that file. *)
Definition dropped v' : Prop :=
  (∀ m, m ≠ KEY → m ≠ KEY_LOCK → m ≠ n → v' !! m = v !! m) ∧ base.delete n v ⊆ v'.

Lemma keyed_dropped v' : keyed v v' → dropped v'.
Proof. intros [H1 H2]. split; [auto|]. etrans; [apply delete_subseteq|done]. Qed.

Lemma deleted_dropped v1 : keyed v v1 → dropped (base.delete n v1).
Proof.
  intros [H1 H2]. split; [|by apply delete_mono]. intros m ???. rewrite lookup_delete_ne by done. by apply H1.
Qed.

Lemma stored_no_yaml : ends_with (lit ".yaml") n = false.
Proof.
  destruct Hbacked as (i & _ & _ & (k & _ & _ & Hname & _) & _).
  destruct (ends_with _ n) eqn:E; [|done]. apply ends_with_true in E as [r E].
  pose proof (snapshot_ends (hmac k (file_bytes p (d_nonce d))) (d_nonce d)) as H2. rewrite <- Hname in H2.
  apply ends_with_true in H2 as [r2 H2]. rewrite H2 in E. apply (f_equal last) in E.
  change (lit ".yaml") with (lit ".yam" ++ [108]) in E. change (lit ".snapshot") with (lit ".snapsho" ++ [116]) in E.
  by rewrite !app_assoc, !last_snoc in E.
Qed.

Lemma runs_remove_descriptor_snapshot :
  runs dir v (remove_descriptor_snapshot parse_document to_string rt d) (λ r v', r = Ok tt ∧ dropped v').
Proof.
  pose proof backed_component as Hc. pose proof backed_path as Hq.
  assert (keyed v v) as Hsame by done. apply keyed_dropped in Hsame.
  assert (temporary n = false) as Ht by by destruct Hbacked as (i & _ & _ & (k & _ & _ & -> & _) & _).
  unfold remove_descriptor_snapshot. rewrite Hq, file_name_join, stored_no_yaml by done.
  eapply runs_seq with (Q := λ r v', v' = v ∧ is_ok r = true); [by apply runs_ret| |by intros err v' [_ H]]. intros yaml v' [-> _].
  destruct (_ || _); [by apply runs_ret|].
  eapply runs_try; [apply runs_load|]. intros own v1 [Hk%keyed_lock _]. destruct (_ && _); [by apply runs_ret; split; [|apply keyed_dropped]|].
  eapply runs_ignore with (Q := dropped); [|intros v2 H2; by apply runs_ret].
  pose proof (keyed_dropped v1 Hk) as H1. pose proof (deleted_dropped v1 Hk) as H2.
  eapply runs_io; [by apply runs_remove|]. intros [|] v2; simpl; [by intros ->|]. by intros [->| ->].
Qed.

End Backed.

End Facts.

End InstanceFacts.
