(* ===== verification/Control.v ===== *)
(** * The instance behind its controller (src/src/daemon.rs: [run_instance_inner], [Control])

    A running instance has its configuration, its descriptor in memory and on disk, and the
    store it was selected in. It becomes ready, says its status, takes over selections the
    store has durably recorded, and stops on request. The runtime directory and the store
    are two directory trees with fates of their own. *)
From S2P Require Import Prelude Utf8 Net BTree Json Rules Groups Proxy Config Connection Disk DiskFacts Bundle Revision Store Snapshot Evidence EventLog Reporter Instance Api.

Module Control.
Import Disk Bundle Revision Store Snapshot Instance.

(** ** State *)

Record Control := mkControl {
  runtime : Disk;
  store : Handle;
  descriptor : Descriptor;
  persisted : bmap unit;
  stopped : bool;
}.

Section State.
Context `{IpNetLib}.

Definition State : Type := Control * Config.

Abbreviation SC := (SE State Error).

Definition on_runtime {A} (m : SM A) : SC A := λ '(s, c),
  let '(d, r) := m (runtime s) in (mkControl d (store s) (descriptor s) (persisted s) (stopped s), c, r).

Definition on_store {A} (m : SH A) : SC A := λ '(s, c),
  let '(h, r) := m (store s) in (mkControl (runtime s) h (descriptor s) (persisted s) (stopped s), c, r).

(** An operation of the configuration that may change it. *)
Definition on_config {A} (f : Config → Config * res A) : SC A := λ '(s, c),
  let '(c, r) := f c in (s, c, map_err Message r).

Definition the_config : SC Config := λ '(s, c), (s, c, Ok c).
Definition the_descriptor : SC Descriptor := λ '(s, c), (s, c, Ok (descriptor s)).
Definition the_persisted : SC (bmap unit) := λ '(s, c), (s, c, Ok (persisted s)).
Definition is_stopped : SC bool := λ '(s, c), (s, c, Ok (stopped s)).

Definition set_descriptor (d : Descriptor) : SC unit := λ '(s, c),
  (mkControl (runtime s) (store s) d (persisted s) (stopped s), c, Ok tt).
Definition set_persisted (names : bmap unit) : SC unit := λ '(s, c),
  (mkControl (runtime s) (store s) (descriptor s) names (stopped s), c, Ok tt).
Definition stop : SC unit := λ '(s, c),
  (mkControl (runtime s) (store s) (descriptor s) (persisted s) true, c, Ok tt).

Definition must (b : bool) (e : Error) : SC unit := if b then sret tt else serr e.

End State.

Abbreviation SC := (SE State Error).

(** The groups of selections. *)
Definition group_set (selections : list Selection) : bmap unit :=
  foldl (λ m s, binsert (sl_group s) tt m) [] selections.

Definition with_path (d : Descriptor) (generation : Z) (i : RunInvocation) (p : str) : Descriptor :=
  mkDescriptor (d_schema d) (d_pid d) (d_nonce d) (d_endpoint d) (d_identity d) generation (d_ready d)
    (Some (mkRunInvocation (foreground i) (prepared i) (Some p) (source_path i) (port_override i))) (d_service d).

Definition with_ready (d : Descriptor) : Descriptor :=
  mkDescriptor (d_schema d) (d_pid d) (d_nonce d) (d_endpoint d) (d_identity d) (d_generation d) true (d_invocation d) (d_service d).

Definition with_desired (p : Prepared) (desired : Desired) : Prepared :=
  mkPrepared (source p) (assets p) (identity p) (de_generation desired) (de_selections desired) (invocation p) (port p)
    (override_options p) (controller_secret p).

Definition missing_invocation : Error := Message "runtime invocation missing".

(** ** The store's word *)

Section Desired.
Context `{HS : Sha256, HI : Serde Identity, HM : Serde Manifest, HC : Serde Catalog, HJ : !CatalogJson, HP : Parsers}
  (takeover : SH Store.Snapshot).

(** [Store::open] of a directory that is there. *)
Definition open_store : SH unit := λ h,
  let '(d, r) := chance (disk h) in (mkHandle d false, map_err Io r).

Definition desired_of (c : Catalog) (i : ActiveIdentity) : option Desired :=
  p_desired <$> List.find (λ p, eq_str (p_key p) (ac_key i) && eq_str (p_head p) (ac_revision i)) (ct_profiles c).

Fixpoint desired_rounds (rounds : nat) (i : ActiveIdentity) : SH (option Desired) :=
  match rounds with
  | O => serr (Message "RUNTIME_DESIRED_CHANGED: desired state did not stabilize")
  | S rounds =>
      do! before := load takeover in
      do! _ := on_disk (io chance) in
      do! _ := on_disk (io (lock [] LOCK_NAME)) in
      do! current := on_disk (io (read [] CATALOG_NAME CATALOG_LIMIT)) in
      do! _ := on_disk (io (validate [] LOCK_NAME)) in
      if eq_str current (line (sn_catalog before)) then sret (desired_of (sn_catalog before) i)
      else desired_rounds rounds i
  end.

Definition desired_guard (i : ActiveIdentity) : SH (option Desired) :=
  do! _ := open_store in desired_rounds 4 i.

End Desired.

Section Control.
Context `{Loader, HS : Sha256, !Serde Descriptor, !Serde SnapshotFile}
  `{HI : Serde Identity, HM : Serde Manifest, HC : Serde Catalog, HJ : !CatalogJson, HP : Parsers}
  (takeover : SH Store.Snapshot)
  (parse_document : str → res Value) (to_string : Value → str)
  (value_json : Value → str) (wall : Disk → option Z) (process : Z) (e : Instance.Env) (rt : Directory).

Local Abbreviation prepared_for := (prepared_for parse_document to_string).
Local Abbreviation publish := (publish value_json wall process).
Local Abbreviation remove_descriptor_snapshot := (remove_descriptor_snapshot parse_document to_string).
Local Abbreviation desired_guard := (desired_guard takeover).

(** ** The interface of the controller *)

Definition validate_instance (d : Descriptor) : SC unit :=
  do! halted := is_stopped in
  do! same := (if halted then sret false
               else do! seen := on_runtime (observe e rt) in sret (bool_decide (seen = Some d))) in
  must same (changed "runtime instance changed").

Definition status : SC Value :=
  do! d := the_descriptor in
  do! _ := validate_instance d in
  do! c := the_config in
  do! names := the_persisted in
  do! v := lifted (ok_or (Api.selected_json c names) (Message "index out of bounds")) in
  sret (Registry.object [(lit "config_key", match d_identity d with Some i => VString (ac_key i) | None => VNull end);
                (lit "selected_proxies", v)]).

(** The request names this instance, its revision and a generation to come. *)
Definition is_current (d : Descriptor) (i : ActiveIdentity) (metadata : Value) (generation : Z) : bool :=
  bool_decide (as_str (index "instance_nonce" metadata) = Some (d_nonce d)) &&
  bool_decide (as_str (index "identity_key" metadata) = Some (ac_key i)) &&
  bool_decide (as_str (index "identity_revision" metadata) = Some (ac_revision i)) &&
  (d_generation d <? generation).

Definition requested (desired : Desired) (generation : Z) (group proxy : str) : bool :=
  (de_generation desired =? generation) &&
  existsb (λ s, eq_str (sl_group s) group && eq_str (sl_proxy s) proxy) (de_selections desired).

(** What follows once the next snapshot is saved. *)
Definition switch (d : Descriptor) (desired : Desired) (snapshot : str) : SC bool :=
  do! c := the_config in
  do! previous := lifted (ok_or (selected c) (Message "index out of bounds")) in
  do! wanted := lifted (map_err Message (selection_map (de_selections desired))) in
  do! _ := on_config (λ c, set_selections c wanted) in
  do! i := lifted (ok_or (d_invocation d) missing_invocation) in
  let next := with_path d (de_generation desired) i (join (path rt) snapshot) in
  do! published := tried (on_runtime (publish (handle rt) next)) in
  match published with
  | Err error =>
      do! _ := on_config (λ c, set_selections c previous) in
      do! _ := stop in
      serr error
  | Ok _ =>
      do! _ := set_persisted (group_set (de_selections desired)) in
      do! _ := on_runtime (remove_descriptor_snapshot rt d) in
      do! _ := set_descriptor next in
      sret true
  end.

(** With the desired selections at hand, under the lock of the runtime directory. *)
Definition apply_desired (d : Descriptor) (desired : Desired) : SC bool :=
  do! _ := on_runtime (io (lock (handle rt) DAEMON_LOCK)) in
  do! _ := validate_instance d in
  do! frozen := on_runtime (prepared_for rt d) in
  do! snapshot := on_runtime (save_snapshot (handle rt) (with_desired frozen desired) (d_nonce d)) in
  switch d desired snapshot.

Definition select (group proxy : str) (metadata : Value) : SC bool :=
  do! d := the_descriptor in
  do! _ := validate_instance d in
  match d_identity d with
  | None => sret false
  | Some i =>
      let generation := default 0 (as_u64 (index "generation" metadata)) in
      if negb (is_current d i metadata generation) then sret false
      else
        do! desired := on_store (desired_guard i) in
        match desired with
        | None => sret false
        | Some desired =>
            if negb (requested desired generation group proxy) then sret false else apply_desired d desired
        end
  end.

(** What the controller sees of it. *)
Definition answer {A} (m : SC A) (s : State) : State * res A :=
  let '(s, r) := m s in (s, map_err (λ _, "runtime error"%string) r).

Definition managed : Api.Managed Control := {|
  Api.managed_status := answer status;
  Api.managed_select group proxy metadata := answer (select group proxy metadata);
|}.

(** ** From the bound listeners to readiness *)

Definition initial_descriptor (p : Prepared) (c : Config) (nonce name : str) (service : option str) : Descriptor :=
  let i := invocation p in
  mkDescriptor 2 (own_pid e) nonce (endpoint_of c) (identity p) (generation p) false
    (Some (mkRunInvocation (foreground i) (negb (foreground i)) (Some (join (path rt) name)) (source_path i) (port_override i)))
    service.

Definition initial (d : Disk) (h : Handle) (p : Prepared) (c : Config) (nonce name : str) (service : option str) : State :=
  (mkControl d h (initial_descriptor p c nonce name service) (group_set (selections p)) false, c).

(** The selections the store has by now replace those the instance was prepared with, unless
    it restores an exact earlier state. *)
Definition reread_desired (p : Prepared) (nonce : str) (exact : bool) (d : Descriptor) : SC Descriptor :=
  match exact, identity p with
  | false, Some i =>
      do! desired := on_store (desired_guard i) in
      do! desired := lifted (ok_or desired (Message "START_FAILED: prepared revision changed before readiness")) in
      do! wanted := lifted (map_err Message (selection_map (de_selections desired))) in
      do! _ := on_config (λ c, set_selections c wanted) in
      do! name := on_runtime (save_snapshot (handle rt) (with_desired p desired) nonce) in
      do! i := lifted (ok_or (d_invocation d) missing_invocation) in
      do! _ := set_persisted (group_set (de_selections desired)) in
      sret (with_path d (de_generation desired) i (join (path rt) name))
  | _, _ => sret d
  end.

(** The handlers of the two signals are registered in between. *)
Definition readiness (p : Prepared) (nonce : str) (exact : bool) : SC unit :=
  let dir := handle rt in
  do! d := the_descriptor in
  do! _ := on_runtime (io (validate dir INSTANCE_LOCK)) in
  do! _ := on_runtime (io (validate_path dir)) in
  do! _ := on_runtime (io (write_contents dir INSTANCE_LOCK [])) in
  do! _ := on_runtime (io (atomic_write dir (lit "zc.pid") (print_dec (d_pid d) ++ [10]))) in
  do! _ := on_runtime (io (lock dir DAEMON_LOCK)) in
  do! _ := on_runtime (publish dir d) in
  do! d := reread_desired p nonce exact d in
  do! _ := on_runtime (io chance) in
  do! _ := on_runtime (io chance) in
  do! _ := on_runtime (io (lock dir DAEMON_LOCK)) in
  do! _ := on_runtime (io (validate dir INSTANCE_LOCK)) in
  do! _ := on_runtime (io (validate_path dir)) in
  let d := with_ready d in
  do! _ := on_runtime (publish dir d) in
  do! _ := set_descriptor d in
  do! _ := tried (on_runtime (io (Reporter.ready value_json wall process (EventLog.mkEventLog dir nonce)))) in
  sret tt.

(** ** While it runs *)

(** One round of the loop: whether to stop. The lifecycle lock is in another directory. *)
Definition poll (nonce : str) : SC bool :=
  let dir := handle rt in
  do! _ := on_runtime (io (validate_path dir)) in
  do! _ := on_runtime (io (validate dir INSTANCE_LOCK)) in
  do! _ := on_runtime (io chance) in
  do! halted := is_stopped in
  do! _ := must (negb halted) (Message "selection publication failed") in
  let name := lit "zc.stop." ++ nonce in
  do! asked := on_runtime (io (exists_ dir name)) in
  if negb asked then sret false
  else
    do! request := on_runtime (io (read dir name 33)) in
    if negb (eq_str request (nonce ++ [10])) then sret false
    else
      do! removed := tried (on_runtime (io (remove_file dir name))) in
      match removed with
      | Ok _ => sret true
      | Err (Io NotFound) => sret false
      | Err e => serr e
      end.

End Control.

(** ** A whole instance *)

(** What happens to an instance while it runs: requests of its controller, rounds of its
    loop, and requests of other processes to stop it. *)
Inductive Op :=
| Select (e : Instance.Env) (group proxy : str) (metadata : Value)
| Status (e : Instance.Env)
| Poll
| StopRequest (bytes : str).

Section Session.
Context `{Loader, HS : Sha256, !Serde Descriptor, !Serde SnapshotFile}
  `{HI : Serde Identity, HM : Serde Manifest, HC : Serde Catalog, HJ : !CatalogJson, HP : Parsers}
  (takeover : SH Store.Snapshot)
  (parse_document : str → res Value) (to_string : Value → str)
  (value_json : Value → str) (wall : Disk → option Z) (process : Z) (rt : Directory) (nonce : str).

Definition perform (op : Op) : SC unit :=
  match op with
  | Select e group proxy metadata =>
      do! _ := tried (select takeover parse_document to_string value_json wall process e rt group proxy metadata) in sret tt
  | Status e => do! _ := tried (status e rt) in sret tt
  | Poll => do! _ := tried (poll rt nonce) in sret tt
  | StopRequest bytes => do! _ := tried (on_runtime (io (write_new (handle rt) (lit "zc.stop." ++ nonce) bytes))) in sret tt
  end.

Fixpoint session (ops : list Op) : SC unit :=
  match ops with
  | [] => sret tt
  | op :: ops => do! _ := perform op in session ops
  end.

(** From the bound listeners on. *)
Definition live (p : Prepared) (exact : bool) (ops : list Op) : SC unit :=
  do! _ := readiness takeover value_json wall process rt p nonce exact in session ops.

End Session.

End Control.
