(* ===== verification/ControlFacts.v ===== *)
(** * The controller's server may rely on the instance

    The API's server is proved against the interface [Managed] with its laws; the instance
    of a daemon keeps them: it changes nothing of the configuration but the selections, and
    those within their groups (module [ControlApi]). Selecting is a transaction (module
    [ControlFacts]). *)
From S2P Require Import Prelude Utf8 Net BTree Json Rules Groups Proxy Config Connection Disk Bundle Revision Store Snapshot SnapshotFacts Evidence EventLog Instance Api Control.

Module ControlApi.
Import Disk Bundle Revision Store Snapshot SelectionFacts Instance Control.

Section Laws.
Context `{HN : IpNetLib}.

Lemma reselected_refl c : Api.reselected c c.
Proof. exists (Config.selections c). split; [by destruct c|done]. Qed.

Lemma reselected_trans c c' c'' : Api.reselected c c' → Api.reselected c' c'' → Api.reselected c c''.
Proof. intros (s & -> & H1) (s' & -> & H2). exists s'. split; [done|]. auto. Qed.

#[export] Instance reselected_preorder : PreOrder Api.reselected.
Proof. split; [exact reselected_refl|exact reselected_trans]. Qed.

Lemma apply_selections_wf c wanted next next' : apply_selections c wanted next = Ok next' →
  selections_wf (groups c) next → selections_wf (groups c) next'.
Proof.
  revert next. induction wanted as [|[k px] wanted IH]; intros next; simpl; [by intros [= <-]|].
  destruct (selection c k px) as [[i m]|] eqn:E; [|done]. intros Ha Hn. eapply IH; [done|].
  apply selection_Ok in E as (g & n & Hg & _ & Hm & _). apply Forall2_same_length_lookup_2.
  { rewrite length_insert. exact (Forall2_length _ _ _ Hn). }
  intros j g' x Hg' Hx. apply list_lookup_insert_Some in Hx as [(-> & -> & _)|[_ Hx]].
  - rewrite Hg in Hg'. injection Hg' as <-. by eapply lookup_lt_Some.
  - by eapply Forall2_lookup_lr in Hn.
Qed.

Lemma set_selections_reselected c wanted : Api.reselected c (fst (set_selections c wanted)).
Proof.
  unfold set_selections. destruct (_ <? _); [apply reselected_refl|].
  destruct (apply_selections c wanted _) as [next|] eqn:E; [|apply reselected_refl]. exists next. split; [done|].
  intros Hwf. eapply apply_selections_wf; [exact E|]. apply Forall2_same_length_lookup_2; [by rewrite length_replicate|].
  intros i g s Hg Hs. apply lookup_replicate in Hs as [-> _].
  destruct (Forall2_lookup_l _ _ _ _ _ Hwf Hg) as (x & _ & Hx). lia.
Qed.

(** ** Operations of an instance *)

Definition keeps {A : Type} (m : SC A) : Prop := ∀ s, Api.reselected (snd s) (snd (fst (m s))).

Lemma keeps_bind {A B : Type} (m : SC A) (f : A → SC B) : keeps m → (∀ a, keeps (f a)) → keeps (sbind m f).
Proof.
  intros Hm Hf s. unfold sbind. specialize (Hm s). destruct (m s) as [s' [a|e]]; [|done]. simpl in Hm. by etrans; [|apply Hf].
Qed.

Lemma keeps_same {A : Type} (m : SC A) : (∀ s, snd (fst (m s)) = snd s) → keeps m.
Proof. intros H s. rewrite H. apply reselected_refl. Qed.

Lemma keeps_ret {A : Type} (a : A) : keeps (sret a).
Proof. by apply keeps_same. Qed.

Lemma keeps_err {A : Type} (e : Error) : keeps (A:=A) (serr e).
Proof. by apply keeps_same. Qed.

Lemma keeps_lifted {A : Type} (r : result Error A) : keeps (lifted r).
Proof. by apply keeps_same. Qed.

Lemma keeps_runtime {A : Type} (m : SM A) : keeps (on_runtime m).
Proof. apply keeps_same. intros [s c]. unfold on_runtime. simpl. by destruct (m (runtime s)). Qed.

Lemma keeps_store {A : Type} (m : SH A) : keeps (on_store m).
Proof. apply keeps_same. intros [s c]. unfold on_store. simpl. by destruct (m (store s)). Qed.

Lemma keeps_tried {A : Type} (m : SC A) : keeps m → keeps (tried m).
Proof. intros Hm s. unfold tried. specialize (Hm s). by destruct (m s). Qed.

Lemma keeps_selections wanted : keeps (on_config (λ c, set_selections c wanted)).
Proof.
  intros [s c]. unfold on_config. simpl. pose proof (set_selections_reselected c wanted). by destruct (set_selections c wanted).
Qed.

Lemma keeps_must (b : bool) (e : Error) : keeps (must b e).
Proof. unfold must. destruct b; [apply keeps_ret|apply keeps_err]. Qed.

Lemma keeps_config : keeps the_config.
Proof. apply keeps_same. by intros []. Qed.
Lemma keeps_descriptor : keeps the_descriptor.
Proof. apply keeps_same. by intros []. Qed.
Lemma keeps_persisted : keeps the_persisted.
Proof. apply keeps_same. by intros []. Qed.
Lemma keeps_is_stopped : keeps is_stopped.
Proof. apply keeps_same. by intros []. Qed.
Lemma keeps_set_descriptor d : keeps (set_descriptor d).
Proof. apply keeps_same. by intros []. Qed.
Lemma keeps_set_persisted n : keeps (set_persisted n).
Proof. apply keeps_same. by intros []. Qed.
Lemma keeps_stop : keeps stop.
Proof. apply keeps_same. by intros []. Qed.

End Laws.

Create HintDb keeps.
#[export] Hint Resolve keeps_ret keeps_err keeps_lifted keeps_runtime keeps_store keeps_selections keeps_must keeps_config
  keeps_descriptor keeps_persisted keeps_is_stopped keeps_set_descriptor keeps_set_persisted keeps_stop : keeps.

(** Each step keeps the configuration but for its selections. *)
Ltac keeps := repeat (first
  [ progress intros
  | apply keeps_bind
  | apply keeps_tried
  | solve [auto with keeps]
  | match goal with |- keeps (match ?x with _ => _ end) => destruct x end ]).

Section Instances.
Context `{HN : IpNetLib, HL : !Loader, HS : Sha256, HD : !Serde Descriptor, HF : !Serde SnapshotFile}
  `{HI : Serde Identity, HM : Serde Manifest, HC : Serde Catalog, HJ : !CatalogJson, HP : Parsers}
  (takeover : SH Store.Snapshot) (parse_document : str → res Value) (to_string : Value → str)
  (value_json : Value → str) (wall : Disk → option Z) (process : Z) (e : Instance.Env) (rt : Directory).

Lemma keeps_validate d : keeps (validate_instance e rt d).
Proof. unfold validate_instance. keeps. Qed.

Lemma keeps_status : keeps (status e rt).
Proof. unfold status. pose proof keeps_validate. keeps. Qed.

Lemma keeps_select group proxy metadata :
  keeps (Control.select takeover parse_document to_string value_json wall process e rt group proxy metadata).
Proof. unfold Control.select, apply_desired, switch. pose proof keeps_validate. keeps. Qed.

(** The laws of the interface. *)
Lemma control_laws : Api.ManagedLaws (Managed0 := managed takeover parse_document to_string value_json wall process e rt) Control.
Proof.
  split; intros; simpl; unfold answer.
  - pose proof (keeps_status (d, c)) as H. by destruct (status e rt (d, c)).
  - pose proof (keeps_select g p b (d, c)) as H. by destruct (Control.select _ _ _ _ _ _ _ _ _ _ _ (d, c)).
Qed.

End Instances.

End ControlApi.

(** * Selecting is a transaction

    An instance that serves has a descriptor on disk whose snapshot parses to the
    configuration that runs, up to the members its groups use. Whatever fails while the
    controller selects, the descriptor on disk names a complete snapshot; a selection that is
    acknowledged is in memory, on disk and in effect, and one that is not changes none of
    them for good. *)
From S2P Require Import DiskFacts DirSpec RevisionFacts Invocation EventLogFacts Reporter InstanceFacts.

Module ControlFacts.
Import Disk DiskFacts DirSpec Bundle Revision Store Snapshot SnapshotFacts SelectionFacts EventLogFacts Instance InstanceFacts Control.

Implicit Types (v : Entries).

(** ** Operations on an instance *)

Section Acts.
Context `{HN : IpNetLib} (rt : Directory).

(** What an instance has besides its directory. *)
Record Memory := mkMemory {
  m_store : Handle;
  m_descriptor : Descriptor;
  m_persisted : bmap unit;
  m_stopped : bool;
  m_config : Config;
}.

Implicit Types (k : Memory).

Definition memory (s : State) : Memory :=
  mkMemory (store (fst s)) (descriptor (fst s)) (persisted (fst s)) (stopped (fst s)) (snd s).

(** From the files [v] and the memory [k]. *)
Definition acts {A : Type} (v : Entries) (k : Memory) (m : SC A) (Q : result Error A → Entries → Memory → Prop) : Prop :=
  ∀ s t, node_at (handle rt) (root (runtime (fst s))) = Some (Dir t) → plain t → visible t = v → memory s = k →
    let '(s', r) := m s in
    ∃ t', root (runtime (fst s')) = set_at (handle rt) (Dir t') (root (runtime (fst s))) ∧ plain t' ∧
      Q r (visible t') (memory s').

Lemma acts_bind {A B : Type} v k (m : SC A) (f : A → SC B) (Q : result Error A → Entries → Memory → Prop)
    (S : result Error B → Entries → Memory → Prop) :
  acts v k m Q → (∀ a v' k', Q (Ok a) v' k' → acts v' k' (f a) S) → (∀ e v' k', Q (Err e) v' k' → S (Err e) v' k') →
  acts v k (sbind m f) S.
Proof.
  intros Hm Hf He s t Hd Hp Hv Hk. specialize (Hm s t Hd Hp Hv Hk). unfold sbind. destruct (m s) as [s1 [a|e]].
  - destruct Hm as (t1 & H1 & Hp1 & HQ). assert (node_at (handle rt) (root (runtime (fst s1))) = Some (Dir t1)) as Hd1.
    { rewrite H1. by eapply node_at_set_eq. }
    specialize (Hf a _ _ HQ s1 t1 Hd1 Hp1 eq_refl eq_refl). destruct (f a s1) as [s2 r]. destruct Hf as (t2 & H2 & Hp2 & HS).
    exists t2. rewrite H2, H1, set_at_set. done.
  - destruct Hm as (t1 & H1 & Hp1 & HQ). exists t1. auto.
Qed.

Lemma acts_weaken {A : Type} v k (m : SC A) (Q S : result Error A → Entries → Memory → Prop) :
  acts v k m Q → (∀ r v' k', Q r v' k' → S r v' k') → acts v k m S.
Proof.
  intros Hm HQ s t Hd Hp Hv Hk. specialize (Hm s t Hd Hp Hv Hk). destruct (m s). destruct Hm as (t' & H1 & H2 & H3). eauto 6.
Qed.

(** Steps that leave the directory. *)
Lemma acts_memory {A : Type} v k (m : SC A) (Q : result Error A → Entries → Memory → Prop) :
  (∀ s, memory s = k → runtime (fst (fst (m s))) = runtime (fst s) ∧ Q (snd (m s)) v (memory (fst (m s)))) → acts v k m Q.
Proof.
  intros H s t Hd Hp <- Hk. specialize (H s Hk). destruct (m s) as [s' r]. simpl in H. destruct H as [Hr HQ].
  exists t. rewrite Hr, set_at_same by done. done.
Qed.

Lemma acts_ret {A : Type} v k (a : A) (Q : result Error A → Entries → Memory → Prop) : Q (Ok a) v k → acts v k (sret a) Q.
Proof. intros H. apply acts_memory. by intros s <-. Qed.

Lemma acts_err {A : Type} v k (e : Error) (Q : result Error A → Entries → Memory → Prop) : Q (Err e) v k → acts v k (serr e) Q.
Proof. intros H. apply acts_memory. by intros s <-. Qed.

Lemma acts_runtime {A : Type} v k (m : SM A) (Q : result Error A → Entries → Prop) :
  runs (handle rt) v m Q → acts v k (on_runtime m) (λ r v' k', Q r v' ∧ k' = k).
Proof.
  intros Hm [c cfg] t Hd Hp Hv Hk. specialize (Hm t Hp Hv (runtime c) Hd). unfold on_runtime. simpl in *.
  destruct (m (runtime c)) as [d r]. destruct Hm as (t' & H1 & H2 & H3). eauto 6.
Qed.

(** A step of the directory followed by the rest. *)
Lemma acts_then {A B : Type} v k (m : SM A) (f : A → SC B) (Q : result Error A → Entries → Prop)
    (S : result Error B → Entries → Memory → Prop) :
  runs (handle rt) v m Q → (∀ a v', Q (Ok a) v' → acts v' k (f a) S) → (∀ e v', Q (Err e) v' → S (Err e) v' k) →
  acts v k (sbind (on_runtime m) f) S.
Proof.
  intros Hm Hf He. eapply acts_bind; [by apply acts_runtime| |].
  - intros a v' k' [HQ ->]. auto.
  - intros e v' k' [HQ ->]. auto.
Qed.

Lemma acts_given {A B : Type} v k (r : result Error A) (f : A → SC B) (S : result Error B → Entries → Memory → Prop) :
  (∀ a, r = Ok a → acts v k (f a) S) → (∀ e, r = Err e → S (Err e) v k) → acts v k (sbind (lifted r) f) S.
Proof.
  intros Hf He. eapply acts_bind with (Q := λ r' v' k', r' = r ∧ v' = v ∧ k' = k).
  - apply acts_memory. by intros s <-.
  - intros a v' k' (<- & -> & ->). by apply Hf.
  - intros e v' k' (<- & -> & ->). by apply He.
Qed.

Lemma acts_must {B : Type} v k (b : bool) (e : Error) (f : unit → SC B) (S : result Error B → Entries → Memory → Prop) :
  (b = true → acts v k (f tt) S) → (b = false → S (Err e) v k) → acts v k (sbind (must b e) f) S.
Proof. intros Hf He. unfold must. destruct b; [by apply Hf|]. apply (acts_err v k e). by apply He. Qed.

Lemma acts_get {A B : Type} v k (m : SC A) (get : Memory → A) (f : A → SC B) (S : result Error B → Entries → Memory → Prop) :
  (∀ s, m s = (s, Ok (get (memory s)))) → acts v k (f (get k)) S → acts v k (sbind m f) S.
Proof.
  intros Hm Hf s t Hd Hp Hv Hk. unfold sbind. rewrite Hm. subst k. exact (Hf s t Hd Hp Hv eq_refl).
Qed.

Lemma acts_set {B : Type} v k (m : SC unit) (set : Memory → Memory) (f : unit → SC B) (S : result Error B → Entries → Memory → Prop) :
  (∀ s, runtime (fst (fst (m s))) = runtime (fst s) ∧ snd (m s) = Ok tt ∧ memory (fst (m s)) = set (memory s)) →
  acts v (set k) (f tt) S → acts v k (sbind m f) S.
Proof.
  intros Hm Hf. eapply acts_bind with (Q := λ r v' k', r = Ok tt ∧ v' = v ∧ k' = set k).
  - apply acts_memory. intros s <-. destruct (Hm s) as (H1 & H2 & H3). done.
  - intros [] v' k' (_ & -> & ->). done.
  - by intros e v' k' (H & _).
Qed.

Lemma acts_tried {A B : Type} v k (m : SC A) (f : result Error A → SC B) (Q : result Error A → Entries → Memory → Prop)
    (S : result Error B → Entries → Memory → Prop) :
  acts v k m Q → (∀ r v' k', Q r v' k' → acts v' k' (f r) S) → acts v k (sbind (tried m) f) S.
Proof.
  intros Hm Hf. apply (acts_bind v k (tried m) f (λ r v' k', ∃ r', r = Ok r' ∧ Q r' v' k')).
  - intros s t Hd Hp Hv Hk. specialize (Hm s t Hd Hp Hv Hk). unfold tried. destruct (m s) as [s' r].
    destruct Hm as (t' & H1 & H2 & H3). eauto 8.
  - intros r v' k' (r' & [= ->] & HQ). auto.
  - by intros e v' k' (r' & H & _).
Qed.

Definition with_store (k : Memory) (h : Handle) : Memory := mkMemory h (m_descriptor k) (m_persisted k) (m_stopped k) (m_config k).
Definition with_config (k : Memory) (c : Config) : Memory := mkMemory (m_store k) (m_descriptor k) (m_persisted k) (m_stopped k) c.
Definition with_descriptor (k : Memory) (d : Descriptor) : Memory := mkMemory (m_store k) d (m_persisted k) (m_stopped k) (m_config k).
Definition with_persisted (k : Memory) (n : bmap unit) : Memory := mkMemory (m_store k) (m_descriptor k) n (m_stopped k) (m_config k).
Definition halted (k : Memory) : Memory := mkMemory (m_store k) (m_descriptor k) (m_persisted k) true (m_config k).

Lemma acts_store {A B : Type} v k (m : SH A) (f : A → SC B) (S : result Error B → Entries → Memory → Prop) :
  (∀ a h, m (m_store k) = (h, Ok a) → acts v (with_store k h) (f a) S) →
  (∀ e h, m (m_store k) = (h, Err e) → S (Err e) v (with_store k h)) → acts v k (sbind (on_store m) f) S.
Proof.
  intros Hf He. eapply acts_bind with (Q := λ r v' k', v' = v ∧ ∃ h, m (m_store k) = (h, r) ∧ k' = with_store k h).
  - apply acts_memory. intros [c cfg] <-. unfold on_store. simpl. destruct (m (store c)) as [h r]. eauto.
  - intros a v' k' [-> (h & H & ->)]. auto.
  - intros e v' k' [-> (h & H & ->)]. auto.
Qed.

Lemma acts_config {A B : Type} v k (g : Config → Config * res A) (f : A → SC B) (S : result Error B → Entries → Memory → Prop) :
  (∀ a c, g (m_config k) = (c, Ok a) → acts v (with_config k c) (f a) S) →
  (∀ e c, g (m_config k) = (c, Err e) → S (Err (Message e)) v (with_config k c)) → acts v k (sbind (on_config g) f) S.
Proof.
  intros Hf He. eapply acts_bind with (Q := λ r v' k', v' = v ∧ ∃ c r', g (m_config k) = (c, r') ∧ r = map_err Message r' ∧ k' = with_config k c).
  - apply acts_memory. intros [s c] <-. unfold on_config. simpl. destruct (g c) as [c' r]. eauto 8.
  - intros a v' k' [-> (c & [a'|] & H & Hr & ->)]; [|done]. injection Hr as ->. auto.
  - intros e v' k' [-> (c & [a'|e'] & H & Hr & ->)]; [done|]. injection Hr as ->. auto.
Qed.

End Acts.

(** ** The files an instance relies on *)

(** The key and the snapshots stay. *)
Definition stays v v' : Prop :=
  ∀ n x, n = KEY ∨ n = KEY_LOCK ∨ is_snapshot n = true → v !! n = Some x → v' !! n = Some x.

(** And the descriptor and the log are as they were. *)
Definition steady v v' : Prop :=
  (∀ n, n ∈ [DESCRIPTOR; EventLog.LOG; EventLog.ARCHIVE] → v' !! n = v !! n) ∧ stays v v'.

Lemma steady_refl v : steady v v.
Proof. split; [done|by intros n x _]. Qed.

Lemma steady_trans v v' v'' : steady v v' → steady v' v'' → steady v v''.
Proof. intros [H1 H2] [H3 H4]. split; [intros n Hn; by rewrite H3, H1|intros n x Hn Hx; auto]. Qed.

Lemma steady_only x v v' : forallb (λ n, negb (eq_str n x)) [DESCRIPTOR; EventLog.LOG; EventLog.ARCHIVE; KEY; KEY_LOCK] = true →
  is_snapshot x = false → only x v v' → steady v v'.
Proof.
  intros Hx Hs Ho. rewrite forallb_forall in Hx.
  assert (∀ n, n ∈ [DESCRIPTOR; EventLog.LOG; EventLog.ARCHIVE; KEY; KEY_LOCK] → v' !! n = v !! n) as Hsame.
  { intros n Hn. apply Ho. apply list_elem_of_In, Hx, negb_true_iff, eq_str_false in Hn. done. }
  split; [intros n Hn; apply Hsame; set_solver|]. intros n y Hn Hy. rewrite <- Hy.
  destruct Hn as [->|[->|Hn]]; [apply Hsame; set_solver..|]. apply Ho. congruence.
Qed.

Lemma concrete_names n : n ∈ [DESCRIPTOR; EventLog.LOG; EventLog.ARCHIVE] → n ≠ KEY ∧ n ≠ KEY_LOCK ∧ is_snapshot n = false.
Proof. intros Hn%list_elem_of_In. by destruct Hn as [<-|[<-|[<-|[]]]]. Qed.

Lemma steady_keyed v v' : keyed v v' → steady v v'.
Proof.
  intros [H1 H2]. split; [intros n Hn; destruct (concrete_names n Hn) as (? & ? & ?); by apply H1|]. intros n x _ Hx. by eapply lookup_weaken.
Qed.

Lemma steady_saved v v' : saved v v' → steady v v'.
Proof.
  intros [H1 H2]. split; [intros n Hn; destruct (concrete_names n Hn) as (? & ? & ?); by apply H1|]. intros n x _ Hx. by eapply lookup_weaken.
Qed.

(** ** The invariant *)

Section Serving.
Context `{HN : IpNetLib, HL : !Loader, HS : Sha256, HD : !Serde Descriptor, HF : !Serde SnapshotFile} (rt : Directory).

(** Every group of [c] uses the member it uses in [c1]. *)
Definition agree (c c1 : Config) : Prop :=
  ∃ sel, c = with_selections c1 sel ∧ same_choice (groups c1) sel (Config.selections c1).

Definition shown v (d : Descriptor) (n : str) (p : Prepared) (c : Config) : Prop :=
  published v d ∧ is_some (d_identity d) = true ∧ backed rt v d n p c.

Record serving v (k : Memory) : Prop := {
  sv_fits : fits v;
  sv_locked : locked v;
  sv_config : config_wf server_name_ok (m_config k);
  sv_disk : ∃ d n p c, shown v d n p c ∧ (m_stopped k = false → d = m_descriptor k ∧ agree (m_config k) c);
}.

Lemma backed_stays v v' d n p c : stays v v' → backed rt v d n p c → backed rt v' d n p c.
Proof.
  intros H (i & H1 & H2 & (k & Hk & Hl & Hn & Hf & Hlen) & H3). exists i. split; [done|]. split; [done|]. split; [|done]. exists k.
  split_and!; [by apply H; [left|]|done|done| |done].
  apply H; [|done]. do 2 right. rewrite Hn. apply snapshot_ends.
Qed.

Lemma shown_steady v v' d n p c : steady v v' → shown v d n p c → shown v' d n p c.
Proof.
  intros H (H1 & H2 & H3). split; [|split; [done|by eapply backed_stays; [apply H|]]].
  eapply published_mono; [done|]. apply H. set_solver.
Qed.

Lemma fits_steady v v' : steady v v' → fits v → fits v'.
Proof. intros [H _]. apply fits_same; apply H; set_solver. Qed.

Lemma locked_stays v v' : stays v v' → locked v → locked v'.
Proof. intros H [b Hb]. exists b. apply H; auto. Qed.

Lemma serving_steady v v' k : steady v v' → serving v k → serving v' k.
Proof.
  intros H [H1 H2 H3 (d & n & p & c & H4 & H5)]. split; [by eapply fits_steady|eapply locked_stays; [apply H|done]|done|].
  exists d, n, p, c. split; [by eapply shown_steady|done].
Qed.

Lemma serving_store v k h : serving v k → serving v (with_store k h).
Proof. intros []. by split. Qed.

Lemma republished_stays v v' d r : republished v d r v' → stays v v'.
Proof.
  intros [H _] n x Hn Hx. rewrite H; [done|..].
  - intros ->. by destruct Hn as [|[|]].
  - intros Hl%list_elem_of_In. by destruct Hl as [<-|[<-|[<-|[]]]]; destruct Hn as [|[|]].
Qed.

Lemma stored_eq v p p' nonce n : stored v p nonce n → stored v p' nonce n → p = p'.
Proof.
  intros (_ & _ & _ & _ & H1 & _) (_ & _ & _ & _ & H2 & _). rewrite H1 in H2. injection H2 as H2.
  apply line_inj in H2. by injection H2.
Qed.

Lemma stored_length v v' p p' nonce n n' : stored v p nonce n → stored v' p' nonce n' → length n' = length n.
Proof.
  assert (∀ k b, length (snapshot_name (hmac k b) nonce) = (12 + 64 + 1 + length nonce + 9)%nat) as Hlen.
  { intros k b. unfold snapshot_name. rewrite length_app, length_app. simpl length. rewrite length_app.
    pose proof (hmac_valid k b) as [H _]%valid_hex_spec. unfold len in H. simpl. lia. }
  intros (k & _ & _ & -> & _) (k' & _ & _ & -> & _). by rewrite !Hlen.
Qed.

Lemma stored_snapshot v p nonce n : stored v p nonce n → is_snapshot n = true.
Proof. intros (k & _ & _ & -> & _). apply snapshot_ends. Qed.

Lemma set_selections_refused c wanted c' e : set_selections c wanted = (c', Err e) → c' = c.
Proof. unfold set_selections. destruct (_ <? _); [by intros [= <-]|]. destruct (apply_selections _ _ _); [done|]. by intros [= <-]. Qed.

(** ** The next descriptor *)

Lemma contains_zero n : single_component n = true → contains_byte 0 n = false.
Proof.
  unfold single_component. rewrite !andb_true_iff, !negb_true_iff. intros [_ H]. unfold contains_byte.
  apply not_true_iff_false. rewrite existsb_exists. intros (b & Hb & E). apply not_true_iff_false in H. apply H.
  apply existsb_exists. exists b. split; [done|]. apply Z.eqb_eq in E. subst b. done.
Qed.

Lemma with_path_ok d (generation : Z) i (n n' : str) : descriptor_ok d (line d) = true → is_some (d_identity d) = true →
  d_invocation d = Some i → config_path i = Some (join (path rt) n) → length n' = length n → single_component n' = true →
  let d' := with_path d generation i (join (path rt) n') in descriptor_ok d' (line d') = true.
Proof.
  intros Hok Hid Hi Hq Hlen Hc. cbv zeta. unfold descriptor_ok in *. simpl. rewrite Hi in Hok. rewrite Hid in *.
  rewrite !andb_true_iff in Hok. destruct Hok as [[[[[[[[H1 H2] H3] H4] H5] H6] H7] H8] H9].
  rewrite H1, H2, H3, H5, H7, H8, eq_str_refl. simpl. unfold invocation_ok in *. simpl. rewrite Hq in H9. simpl in H9.
  rewrite !andb_true_iff in H9. destruct H9 as [[[Ha Hb] He] [[[Hf1 Hf2] Hf3] [Hg _]]].
  rewrite Ha, He, Hg, !orb_true_r. simpl. rewrite !andb_true_iff. split_and!; try done.
  - unfold join. apply negb_true_iff, bool_decide_eq_false. by destruct (path rt).
  - unfold join in *. apply Z.leb_le. apply Z.leb_le in Hf2. unfold len in *. rewrite length_app in *. simpl in *. lia.
  - unfold join, contains_byte in *. rewrite existsb_app in *. simpl in *. apply negb_true_iff in Hf3. apply orb_false_iff in Hf3 as [Hf3 _].
    rewrite Hf3. apply negb_true_iff. simpl. by apply contains_zero.
Qed.

End Serving.

(** ** Selecting *)

Section Select.
Context `{HN : IpNetLib, HL : !Loader, HS : Sha256, HD : !Serde Descriptor, HF : !Serde SnapshotFile}
  `{HI : Serde Identity, HM : Serde Manifest, HC : Serde Catalog, HJ : !CatalogJson, HP : Parsers}
  (takeover : SH Store.Snapshot) (parse_document : str → res Value) (to_string : Value → str)
  (value_json : Value → str) (wall : Disk → option Z) (process : Z) (e : Instance.Env) (rt : Directory).
Hypothesis rooted : starts_with [47] (path rt) = true.

Local Abbreviation serving := (serving rt).
Local Abbreviation acts := (acts rt).
Local Abbreviation shown := (shown rt).
Local Abbreviation desired_guard := (desired_guard takeover).
Local Abbreviation switch := (switch parse_document to_string value_json wall process rt).
Local Abbreviation apply_desired := (apply_desired parse_document to_string value_json wall process e rt).
Local Abbreviation select := (Control.select takeover parse_document to_string value_json wall process e rt).

Lemma acts_validate v k d :
  acts v k (validate_instance e rt d) (λ r v' k', k' = k ∧ steady v v' ∧ (is_ok r = true → m_stopped k = false ∧ published v' d)).
Proof.
  unfold validate_instance. apply (acts_get rt v k _ m_stopped); [by intros [? ?]|].
  eapply acts_bind with (Q := λ r v' k', k' = k ∧ steady v v' ∧ (r = Ok true → m_stopped k = false ∧ published v' d)).
  - destruct (m_stopped k); [by apply acts_ret; split; [|split; [apply steady_refl|]]|]. eapply acts_then; [apply runs_observe| |].
    + intros seen v' [Ho Hs]. apply acts_ret. split; [done|]. split; [by eapply steady_only; [..|exact Ho]|].
      intros [= H%bool_decide_eq_true]. split; [done|]. apply Hs. by rewrite H.
    + intros err v' [Ho _]. split; [done|]. split; [by eapply steady_only; [..|exact Ho]|done].
  - intros same v' k' (-> & H1 & H2). unfold must. destruct same; [apply acts_ret|apply acts_err]; (split; [done|]); (split; [done|]); [|done].
    intros _. by apply H2.
  - intros err v' k' (-> & H1 & _). done.
Qed.

(** A select that is not acknowledged. *)
Definition kept (k k' : Memory) : Prop :=
  m_descriptor k' = m_descriptor k ∧ m_persisted k' = m_persisted k ∧ agree (m_config k') (m_config k).

(** A select that is: the instance now has what the store desired. *)
Definition taken v (k : Memory) (desired : Desired) (k' : Memory) : Prop :=
  m_descriptor k' ≠ m_descriptor k ∧ m_stopped k' = false ∧ m_persisted k' = group_set (de_selections desired) ∧
  (∃ m, selected (m_config k') = Some m ∧ ∀ s, s ∈ de_selections desired → bget (sl_group s) m = Some (sl_proxy s)) ∧
  ∃ n p, shown v (m_descriptor k') n p (m_config k') ∧ generation p = de_generation desired ∧
    Snapshot.selections p = de_selections desired.

Definition outcome (k : Memory) (desired : Desired) (r : result Error bool) v' (k' : Memory) : Prop :=
  serving v' k' ∧ match r with Ok true => taken v' k desired k' | _ => kept k k' end.

Lemma agree_refl c : agree c c.
Proof. exists (Config.selections c). split; [by destruct c|]. split; [done|]. congruence. Qed.

Lemma kept_refl k : kept k k.
Proof. split; [done|]. split; [done|apply agree_refl]. Qed.

Lemma kept_outcome k desired v (r : result Error bool) : serving v k → r ≠ Ok true → outcome k desired r v k.
Proof. intros H Hr. split; [done|]. destruct r as [[]|]; [done|apply kept_refl..]. Qed.

(** The restored configuration, the new descriptor. *)
Lemma restore_agrees c wanted c' m : config_wf server_name_ok c → set_selections c wanted = (c', Ok tt) → selected c = Some m →
  ∃ back, set_selections c' m = (back, Ok tt) ∧ agree back c ∧ config_wf server_name_ok back.
Proof.
  intros Hc Hs Hm. destruct (restore_selected server_name_ok c Hc) as (m' & next & Hm' & Hback & Hsame).
  rewrite Hm in Hm'. injection Hm' as <-.
  assert (∃ sel, c' = with_selections c sel) as [sel ->].
  { unfold set_selections in Hs. destruct (_ <? _); [done|]. destruct (apply_selections c _ _) as [sel|]; [|done]. injection Hs as <-. by exists sel. }
  exists (with_selections c next). split; [by apply set_selections_ext|]. split; [by exists next|].
  destruct (selected_total server_name_ok c Hc) as (m' & Hm' & Hwf & _). rewrite Hm in Hm'. injection Hm' as <-.
  destruct (set_selections_spec server_name_ok c m Hc) as [[err He]|(next' & Hn & Hwf' & _)]; [by apply bmap_wf_nodup|congruence|].
  rewrite Hback in Hn. injection Hn as Hn. by rewrite Hn.
Qed.

Lemma shown_next v v1 d n n' p c desired i r c' : shown v d n p c → single_component n' = true →
  d_invocation d = Some i → stored v (with_desired p desired) (d_nonce d) n' →
  parse_config (with_desired p desired) = Ok c' → endpoint_of c' = endpoint_of c →
  let next := with_path d (de_generation desired) i (join (path rt) n') in
  republished v next r v1 → v1 !! DESCRIPTOR = Some (File (line next)) →
  shown v1 next n' (with_desired p desired) c'.
Proof.
  intros ((_ & Hok) & Hid & (i' & Hi' & Hq & Hs & H1 & H2 & H3 & H4)) Hc Hi Hn Hparse Hend next Hr Hd.
  rewrite Hi in Hi'. injection Hi' as <-. split; [split; [done|]|split; [done|]].
  - eapply with_path_ok; [done..|by eapply stored_length|done].
  - eapply (backed_stays rt v); [by eapply republished_stays|]. exists (mkRunInvocation (foreground i) (prepared i) (Some (join (path rt) n')) (source_path i) (port_override i)).
    split_and!; try done. simpl. by rewrite Hend.
Qed.

Lemma backed_single v d n p c b : descriptor_ok d b = true → backed rt v d n p c → single_component n = true.
Proof. intros Hok Hb. eapply backed_component; [by eapply descriptor_nonce|done]. Qed.

Section Switch.
Context (v : Entries) (k : Memory) (d : Descriptor) (n n' : str) (p : Prepared) (c : Config) (desired : Desired) (i : RunInvocation).
Context (Hserving : serving v k) (Hrunning : m_stopped k = false) (Hd : d = m_descriptor k).
Context (Hshown : shown v d n p c) (Hagree : agree (m_config k) c).
Context (Hstored : stored v (with_desired p desired) (d_nonce d) n') (Hnew : d_generation d < de_generation desired).
Context (Hi : d_invocation d = Some i).

Local Abbreviation next := (with_path d (de_generation desired) i (join (path rt) n')).

Lemma next_component : single_component n' = true.
Proof.
  eapply stored_component; [done|]. destruct Hshown as ((_ & Hok) & _). by apply descriptor_nonce, valid_hex_spec in Hok as [_ ?].
Qed.

Lemma next_other : n ≠ n'.
Proof.
  intros E. destruct Hshown as (_ & _ & (i' & _ & _ & Hs & _ & Hgen & _)). subst n'.
  pose proof (stored_eq _ _ _ _ _ Hs Hstored) as E. rewrite E in Hgen. simpl in Hgen. lia.
Qed.

(** The configuration the desired selections give. *)
Context (wanted : bmap str) (c' : Config).
Context (Hwanted : selection_map (de_selections desired) = Ok wanted).
Context (Hset : set_selections (m_config k) wanted = (c', Ok tt)).

Lemma next_parses : parse_config (with_desired p desired) = Ok c'.
Proof.
  destruct Hagree as (sel & Hc & _). rewrite Hc in Hset. destruct Hshown as (_ & Hid & (i' & _ & _ & _ & Hpid & _ & Hparse & _)).
  eapply (parse_config_reselect p c sel); [by rewrite Hpid|done..].
Qed.

Lemma next_endpoint : endpoint_of c' = endpoint_of c.
Proof.
  destruct Hagree as (sel & Hc & _). rewrite Hc in Hset. unfold set_selections in Hset. destruct (_ <? _); [done|].
  destruct (apply_selections _ _ _); [|done]. by injection Hset as <-.
Qed.

Lemma next_shown v1 r : republished v next r v1 → v1 !! DESCRIPTOR = Some (File (line next)) →
  shown v1 next n' (with_desired p desired) c'.
Proof. intros Hr H1. eapply shown_next; [exact Hshown|apply next_component|done|done|apply next_parses|apply next_endpoint|done|done]. Qed.

(** The descriptor is as it was, or the next one. *)
Lemma refused_serving v1 r back : republished v next r v1 → config_wf server_name_ok back →
  serving v1 (halted (with_config (with_config k c') back)).
Proof.
  intros Hr Hback. pose proof (republished_stays _ _ _ _ Hr) as Hst. destruct Hserving as [_ Hlock _ _]. pose proof Hr as (_ & Hf & Hdesc & _).
  split; [done|by eapply locked_stays|done|]. destruct Hdesc as [E|E].
  - exists d, n, p, c. split; [|done]. destruct Hshown as (H1 & H2 & H3). split; [by eapply published_mono|]. split; [done|by eapply backed_stays].
  - exists next, n', (with_desired p desired), c'. split; [by eapply next_shown|done].
Qed.

Lemma accepted_serving v1 v2 r : republished v next r v1 → v1 !! DESCRIPTOR = Some (File (line next)) → dropped v1 n v2 →
  shown v2 next n' (with_desired p desired) c' ∧ fits v2 ∧ locked v2.
Proof.
  intros Hr H1 [Hsame Hsub]. pose proof (next_shown v1 r Hr H1) as (Hp1 & Hid & (i1 & Ha & Hb & Hs & Hrest)). pose proof Hr as (_ & Hf & _).
  destruct Hshown as (_ & _ & (i0 & _ & _ & Hs0 & _)). pose proof (stored_snapshot _ _ _ _ Hs0) as Hsnap.
  assert (∀ m x, m ≠ n → v1 !! m = Some x → v2 !! m = Some x) as Hkeep.
  { intros m x Hm Hx. eapply lookup_weaken; [|exact Hsub]. by rewrite lookup_delete_ne. }
  assert (∀ m, is_snapshot m = false → m ≠ n) as Hne by (intros m Hm ->; congruence).
  split; [split; [|split; [done|]]|split].
  - eapply published_mono; [exact Hp1|]. apply Hsame; [done|done|]. by apply Hne.
  - exists i1. split; [done|]. split; [done|]. split; [|done]. eapply stored_mono; [exact Hs|..].
    + destruct Hs as (key & Hkey & _). rewrite Hkey. apply Hkeep; [by apply Hne|done].
    + destruct Hs as (key & _ & _ & _ & Hfile & _). rewrite Hfile. apply Hkeep; [apply not_eq_sym, next_other|done].
  - eapply fits_same; [..|exact Hf]; (apply Hsame; [done|done|by apply Hne]).
  - destruct Hserving as [_ Hlock _ _]. eapply (locked_stays v v1) in Hlock as [b Hbk]; [|by eapply republished_stays].
    exists b. apply Hkeep; [by apply Hne|done].
Qed.

End Switch.

Lemma acts_switch v k d n n' p c desired : serving v k → m_stopped k = false → d = m_descriptor k →
  shown v d n p c → agree (m_config k) c → stored v (with_desired p desired) (d_nonce d) n' →
  d_generation d < de_generation desired → acts v k (switch d desired n') (outcome k desired).
Proof.
  intros Hk Hrun Hd Hshown Hagree Hstored Hnew. pose proof (sv_config _ _ _ Hk) as Hcfg.
  destruct (selected_total server_name_ok _ Hcfg) as (m & Hm & _).
  unfold switch. apply (acts_get rt v k _ m_config); [by intros [? ?]|].
  apply acts_given; [|intros err _; by apply kept_outcome]. rewrite Hm. intros ? [= <-].
  apply acts_given; [|intros err _; by apply kept_outcome].
  destruct (selection_map (de_selections desired)) as [wanted|] eqn:Hw; [|done]. intros ? [= <-].
  apply acts_config; [|intros err c' Hs; apply set_selections_refused in Hs as ->; destruct k; by apply kept_outcome].
  intros [] c' Hset. destruct (restore_agrees _ _ _ _ Hcfg Hset Hm) as (back & Hback & Hsame & Hwf).
  apply acts_given; [|intros err Hnone; destruct Hshown as (_ & _ & (i & Hi & _)); by rewrite Hi in Hnone].
  destruct (d_invocation d) as [i|] eqn:Hi; [|done]. intros ? [= <-].
  destruct (set_selections_effective _ _ _ _ Hcfg Hw Hset) as (Hcfg' & _ & Heff).
  eapply acts_tried; [apply acts_runtime, runs_publish_descriptor, (sv_fits _ _ _ Hk)|]. intros r v1 k1 [Hr ->]. destruct r as [[]|err].
  - pose proof Hr as (_ & _ & _ & H1). specialize (H1 eq_refl).
    apply (acts_set rt v1 _ _ (λ k, with_persisted k (group_set (de_selections desired)))); [by intros [? ?]|].
    assert (backed rt v1 d n p c) as Hb by (destruct Hshown as (_ & _ & Hb); eapply backed_stays; [by eapply republished_stays|done]).
    assert (valid_hex (d_nonce d) 32 = true) as Hn by (destruct Hshown as ((_ & Hok) & _); by eapply descriptor_nonce).
    assert (∀ v2, dropped v1 n v2 → outcome k desired (Ok true) v2 (with_descriptor (with_persisted (with_config k c')
      (group_set (de_selections desired))) (with_path d (de_generation desired) i (join (path rt) n')))) as Hout.
    { intros v2 H2. destruct (accepted_serving v k d n n' p c desired i Hk Hshown Hagree Hstored Hnew Hi wanted c' Hw Hset v1 v2 _ Hr H1 H2) as (Hsh & Hf & Hl).
      split.
      - split; [done|done|done|]. do 4 eexists. split; [exact Hsh|]. intros _. split; [done|apply agree_refl].
      - split; [|split; [done|split; [done|split; [done|]]]]; simpl; [|exists n', (with_desired p desired); done].
        rewrite <- Hd. intros E. apply (f_equal d_generation) in E. simpl in E. lia. }
    eapply acts_bind; [by eapply acts_runtime, runs_remove_descriptor_snapshot| |].
    + intros [] v2 k2 [[_ H2] ->].
      apply (acts_set rt v2 _ _ (λ k, with_descriptor k (with_path d (de_generation desired) i (join (path rt) n')))); [by intros [? ?]|].
      by apply acts_ret, Hout.
    + by intros err v2 k2 [[H2 _] _].
  - apply acts_config; [|intros err' back' Hs; simpl in Hs; rewrite Hback in Hs; done].
    intros [] back' Hs. simpl in Hs. rewrite Hback in Hs. injection Hs as <-.
    apply (acts_set rt v1 _ _ halted); [by intros [? ?]|]. apply acts_err. split; [|done].
    by eapply (refused_serving v k d n n' p c desired i).
Qed.

Lemma serving_shown v k : serving v k → m_stopped k = false →
  ∃ n p c, shown v (m_descriptor k) n p c ∧ agree (m_config k) c.
Proof. intros [_ _ _ (d & n & p & c & H1 & H2)] Hs. destruct (H2 Hs) as [-> H3]. eauto. Qed.

Lemma acts_apply v k desired : serving v k → d_generation (m_descriptor k) < de_generation desired →
  acts v k (apply_desired (m_descriptor k) desired) (outcome k desired).
Proof.
  intros Hk Hnew. unfold apply_desired.
  eapply acts_then with (Q := λ _ v', steady v v').
  { eapply runs_io; [by apply runs_lock|]. intros r v' Ho. by eapply steady_only; [..|exact Ho]. }
  2: { intros err v' Hst. apply kept_outcome; [by eapply serving_steady|done]. }
  intros [] v1 H1. pose proof (serving_steady _ _ _ _ H1 Hk) as Hk1. clear H1.
  eapply acts_bind; [apply acts_validate| |].
  2: { intros err v' k' (-> & Hst & _). apply kept_outcome; [by eapply serving_steady|done]. }
  intros [] v2 k' (-> & H2 & Hrun). destruct (Hrun eq_refl) as [Hs _]. pose proof (serving_steady _ _ _ _ H2 Hk1) as Hk2. clear H2 Hrun.
  destruct (serving_shown _ _ Hk2 Hs) as (n & p & c & Hshown & Hagree). pose proof Hshown as ((_ & Hok) & _ & Hbacked).
  pose proof (descriptor_nonce _ _ Hok) as Hn.
  eapply acts_then; [by eapply runs_prepared_for| |].
  2: { intros err v' [Hst _]. apply kept_outcome; [by eapply serving_steady, Hk2; apply steady_keyed|done]. }
  intros frozen v3 [H3 Hp]. specialize (Hp frozen eq_refl) as ->. apply steady_keyed in H3.
  pose proof (serving_steady _ _ _ _ H3 Hk2) as Hk3. pose proof (shown_steady rt _ _ _ _ _ _ H3 Hshown) as Hshown3.
  eapply acts_then; [apply runs_save| |].
  2: { intros err v' [Hst _]. apply kept_outcome; [by eapply serving_steady, Hk3; apply steady_saved|done]. }
  intros n' v4 [H4 Hstored]. destruct (Hstored n' eq_refl) as [Hst _]. apply steady_saved in H4.
  eapply (acts_switch v4 k _ n n' p c); [by eapply serving_steady|done|done|by eapply shown_steady|done|done|done].
Qed.

(** What the request asks and the store confirms. *)
Definition confirmed (k : Memory) (group px : str) (metadata : Value) (desired : Desired) : Prop :=
  ∃ i, d_identity (m_descriptor k) = Some i ∧ snd (desired_guard i (m_store k)) = Ok (Some desired) ∧
    de_generation desired = default 0 (as_u64 (index "generation" metadata)) ∧
    d_generation (m_descriptor k) < de_generation desired ∧ mkSelection group px ∈ de_selections desired.

Definition selected_or_kept (k : Memory) (group px : str) (metadata : Value) (r : result Error bool) v' (k' : Memory) : Prop :=
  serving v' k' ∧
  match r with
  | Ok true => ∃ desired, confirmed k group px metadata desired ∧ taken v' k desired k'
  | _ => kept k k'
  end.

Lemma acts_select v k group px metadata : serving v k → acts v k (select group px metadata) (selected_or_kept k group px metadata).
Proof.
  intros Hk.
  assert (∀ v' (r : result Error bool) h, serving v' k → r ≠ Ok true → selected_or_kept k group px metadata r v' (with_store k h)) as Hkept.
  { intros v' r h Hk' Hr. split; [by apply serving_store|].
    assert (kept k (with_store k h)) as H by (split; [done|]; split; [done|apply agree_refl]). destruct r as [[]|]; done. }
  assert (∀ v' (r : result Error bool), serving v' k → r ≠ Ok true → selected_or_kept k group px metadata r v' k) as Hsame.
  { intros v' r Hk' Hr. specialize (Hkept v' r (m_store k) Hk' Hr). by destruct k. }
  unfold select. apply (acts_get rt v k _ m_descriptor); [by intros [? ?]|].
  eapply acts_bind; [apply acts_validate| |].
  2: { intros err v' k' (-> & Hst & _). apply Hsame; [by eapply serving_steady|done]. }
  intros [] v1 k' (-> & H1 & _). pose proof (serving_steady _ _ _ _ H1 Hk) as Hk1.
  destruct (d_identity (m_descriptor k)) as [i|] eqn:Hi; [|by apply acts_ret, Hsame].
  set (generation := default 0 _). destruct (is_current _ i metadata generation) eqn:Hcur; [simpl|by apply acts_ret, Hsame].
  apply acts_store; [|intros err h _; by apply Hkept]. intros [desired|] h Hg; [|by apply acts_ret, Hkept].
  destruct (requested desired generation group px) eqn:Hreq; [simpl|by apply acts_ret, Hkept].
  unfold is_current in Hcur. apply andb_true_iff in Hcur as [_ Hgen%Z.ltb_lt].
  unfold requested in Hreq. apply andb_true_iff in Hreq as [Heq%Z.eqb_eq Hin].
  eapply acts_weaken; [apply (acts_apply v1 (with_store k h)); [by apply serving_store|simpl; lia]|].
  intros r v' k' [Hserv Hr]. split; [done|]. destruct r as [[]|]; [|done..]. exists desired. split; [|done].
  exists i. split_and!; try done; [by rewrite Hg|lia|].
  apply existsb_exists in Hin as ([g x] & Hin & E). apply andb_true_iff in E as [E1 E2]. simpl in *.
  apply eq_str_true in E1, E2. subst. by apply list_elem_of_In.
Qed.

(** What the files say to another process, on a disk that works. *)
Definition restorable (t : Entries) (k : Memory) : Prop :=
  ∃ d p c, t !! DESCRIPTOR = Some (File (line d)) ∧ parse_config p = Ok c ∧
    (∀ disk, calm (handle rt) (visible t) disk → prepared_for parse_document to_string rt d disk = (disk, Ok p)) ∧
    (m_stopped k = false → d = m_descriptor k ∧ agree (m_config k) c).

Lemma serving_restorable t k : serving (visible t) k → restorable t k.
Proof.
  intros [_ Hl _ (d & n & p & c & ((Hd & Hok) & _ & Hb) & Hrun)]. exists d, p, c.
  split; [by rewrite visible_lookup in Hd|]. split; [by destruct Hb as (i & _ & _ & _ & _ & _ & H & _)|]. split; [|done].
  intros disk Hc. eapply (sees_prepared_for rt rooted parse_document to_string (visible t)); [by eapply descriptor_nonce|done|done|done].
Qed.

(** C10: selecting through the controller is a transaction. From an instance that serves (its
    descriptor on disk names a complete snapshot of the configuration that runs), whatever
    the disk does during the request (any step may fail, have part of its effect, or be the
    last one), whatever the store answers and whatever the request holds: the files outside
    of the runtime directory are untouched; the instance still serves or has stopped; the
    descriptor on disk still names a snapshot from which another process takes the instance
    back, exactly what runs unless the instance has stopped. An answer of success means that
    the store's desired state has the requested generation, newer than the instance's, and
    the requested selection, and that all desired selections are in effect in memory and in
    the snapshot the new descriptor names; any other answer leaves the descriptor in memory,
    and every group uses the member it used before. *)
Theorem select_transactional group px metadata s t
    (Hd : node_at (handle rt) (root (runtime (fst s))) = Some (Dir t)) (Hp : plain t) (Hs : serving (visible t) (memory s)) :
  let '(s', r) := select group px metadata s in
  ∃ t', root (runtime (fst s')) = set_at (handle rt) (Dir t') (root (runtime (fst s))) ∧ plain t' ∧
    serving (visible t') (memory s') ∧ restorable t' (memory s') ∧
    match r with
    | Ok true => ∃ desired, confirmed (memory s) group px metadata desired ∧ taken (visible t') (memory s) desired (memory s')
    | _ => kept (memory s) (memory s')
    end.
Proof.
  pose proof (acts_select _ _ group px metadata Hs s t Hd Hp eq_refl eq_refl) as H.
  destruct (select group px metadata s) as [s' r]. destruct H as (t' & H1 & H2 & H3 & H4). exists t'.
  split; [done|]. split; [done|]. split; [done|]. split; [by apply serving_restorable|done].
Qed.

End Select.

End ControlFacts.
