(* ===== verification/ReadyFacts.v ===== *)
(** * An instance that became ready can be taken back

    Readiness establishes what selecting preserves: from a saved snapshot, through the
    store's latest selections, to a published descriptor. The whole life of an instance then
    leaves files from which another process restores it. *)
From S2P Require Import Prelude Utf8 Net BTree Json Rules Groups Proxy Config Connection Disk DiskFacts DirSpec Bundle Revision RevisionFacts Store Invocation Snapshot SnapshotFacts Evidence EventLog EventLogFacts Reporter Instance InstanceFacts Api Control ControlFacts.

Module ReadyFacts.
Import Disk DiskFacts DirSpec Bundle Revision Store Snapshot SnapshotFacts SelectionFacts EventLogFacts Instance InstanceFacts Control ControlFacts.

Implicit Types (v : Entries).

Section Ready.
Context `{HN : IpNetLib, HL : !Loader, HS : Sha256, HD : !Serde Descriptor, HF : !Serde SnapshotFile}
  `{HI : Serde Identity, HM : Serde Manifest, HC : Serde Catalog, HJ : !CatalogJson, HP : Parsers}
  (takeover : SH Store.Snapshot) (parse_document : str → res Value) (to_string : Value → str)
  (value_json : Value → str) (wall : Disk → option Z) (process : Z) (rt : Directory) (nonce : str).
Hypothesis rooted : starts_with [47] (path rt) = true.
Hypothesis nonce_hex : valid_hex nonce 32 = true.

Local Abbreviation serving := (serving rt).
Local Abbreviation acts := (acts rt).
Local Abbreviation shown := (shown rt).
Local Abbreviation dir := (handle rt).
Local Abbreviation reread_desired := (reread_desired takeover rt).
Local Abbreviation readiness := (readiness takeover value_json wall process rt).
Local Abbreviation perform := (perform takeover parse_document to_string value_json wall process rt nonce).
Local Abbreviation session := (session takeover parse_document to_string value_json wall process rt nonce).
Local Abbreviation live := (live takeover parse_document to_string value_json wall process rt nonce).

(** ** What the steps of readiness need *)

(** The snapshot is saved, the running configuration is what it parses to, and the
    descriptor [d] in hand says so. *)
Record prepared_state v (d : Descriptor) (n : str) (p : Prepared) (c : Config) : Prop := {
  ps_fits : fits v;
  ps_locked : locked v;
  ps_ok : descriptor_ok d (line d) = true;
  ps_identity : is_some (d_identity d) = true;
  ps_nonce : d_nonce d = nonce;
  ps_backed : backed rt v d n p c;
}.

Lemma prepared_config v d n p c : prepared_state v d n p c → config_wf server_name_ok c.
Proof. intros [_ _ _ _ _ (i & _ & _ & _ & _ & _ & H & _)]. by apply snapshot_config_wf in H as [H _]. Qed.

(** Files other than the log's, the key and the snapshots. *)
Definition aside (x : str) : bool :=
  forallb (λ n, negb (eq_str n x)) [EventLog.LOG; EventLog.ARCHIVE; KEY; KEY_LOCK] && negb (is_snapshot x).

Lemma prepared_same v v' d n p c : fits v' → stays v v' → prepared_state v d n p c → prepared_state v' d n p c.
Proof. intros Hf Hs [H1 H2 H3 H4 H5 H6]. split; try done; [by eapply locked_stays|by eapply backed_stays]. Qed.

Lemma prepared_only x v v' d n p c : aside x = true → only x v v' → prepared_state v d n p c → prepared_state v' d n p c.
Proof.
  unfold aside. rewrite andb_true_iff, forallb_forall, negb_true_iff. intros [Hx Hs] Ho Hp.
  assert (∀ n, n ∈ [EventLog.LOG; EventLog.ARCHIVE; KEY; KEY_LOCK] → v' !! n = v !! n) as Hsame.
  { intros m Hm. apply Ho. apply list_elem_of_In, Hx, negb_true_iff, eq_str_false in Hm. done. }
  eapply prepared_same; [|..|exact Hp].
  - eapply fits_same; [apply Hsame; set_solver..|apply Hp].
  - intros m y Hm Hy. rewrite <- Hy. destruct Hm as [->|[->|Hm]]; [apply Hsame; set_solver..|]. apply Ho. congruence.
Qed.

Lemma prepared_steady v v' d n p c : steady v v' → prepared_state v d n p c → prepared_state v' d n p c.
Proof. intros H Hp. eapply prepared_same; [by eapply fits_steady; [|apply Hp]|apply H|done]. Qed.

Lemma prepared_republished v v' d d' r n p c : republished v d' r v' → prepared_state v d n p c → prepared_state v' d n p c.
Proof. intros H Hp. eapply prepared_same; [apply H|by eapply republished_stays|done]. Qed.

(** ** The store's latest selections *)

Lemma prepared_next v d n p c i n' desired wanted c' : prepared_state v d n p c → d_invocation d = Some i →
  stored v (with_desired p desired) nonce n' → selection_map (de_selections desired) = Ok wanted →
  set_selections c wanted = (c', Ok tt) →
  prepared_state v (with_path d (de_generation desired) i (join (path rt) n')) n' (with_desired p desired) c'.
Proof.
  intros [H1 H2 H3 H4 H5 (i' & Hi' & Hq & Hs & Hid & Hgen & Hparse & Hend)] Hi Hst Hw Hset.
  rewrite Hi in Hi'. injection Hi' as <-. rewrite <- H5 in Hst.
  assert (single_component n' = true) as Hc by (eapply stored_component; [done|]; rewrite H5; by apply (valid_hex_spec _ 32)).
  split; try done.
  - eapply with_path_ok; [done..|by eapply stored_length|done].
  - exists (mkRunInvocation (foreground i) (prepared i) (Some (join (path rt) n')) (source_path i) (port_override i)).
    split; [done|]. split; [done|]. split; [done|]. split; [done|]. split; [done|]. split.
    + apply (parse_config_reselect p c (Config.selections c) (de_generation desired) (de_selections desired) wanted); [by rewrite Hid|done|done|].
      by destruct c.
    + unfold set_selections in Hset. destruct (_ <? _); [done|]. destruct (apply_selections c _ _); [|done]. by injection Hset as <-.
Qed.

(** What readiness works towards. *)
Definition towards (d : Descriptor) (k : Memory) v : Prop :=
  m_stopped k = false ∧ ∃ n p, prepared_state v d n p (m_config k).

Lemma acts_reread v k d n p (exact : bool) : m_stopped k = false → prepared_state v d n p (m_config k) →
  acts v k (reread_desired p nonce exact d) (λ r v' k', ∀ d', r = Ok d' → towards d' k' v').
Proof.
  intros Hrun Hp. unfold Control.reread_desired.
  assert (∀ v' k' (e : Error), (∀ d', Err e = Ok d' → towards d' k' v')) as Herr by done.
  destruct exact; [apply acts_ret; intros d' [= <-]; split; [done|by exists n, p]|].
  destruct (identity p) as [i|]; [|apply acts_ret; intros d' [= <-]; split; [done|by exists n, p]].
  apply acts_store; [|done]. intros [desired|] h _; [|by apply acts_given].
  apply acts_given; [|done]. intros ? [= <-]. apply acts_given; [|done].
  destruct (selection_map (de_selections desired)) as [wanted|] eqn:Hw; [|done]. intros ? [= <-].
  apply acts_config; [|done]. simpl. intros [] c' Hset. eapply acts_then; [apply runs_save| |done].
  intros n' v1 [H1 Hst]. destruct (Hst n' eq_refl) as [Hst' _]. apply steady_saved in H1.
  apply acts_given; [|done]. destruct (d_invocation d) as [j|] eqn:Hj; [|done]. intros ? [= <-].
  apply (acts_set rt v1 _ _ (λ k, with_persisted k (group_set (de_selections desired)))); [by intros [? ?]|].
  apply acts_ret. intros d' [= <-]. split; [done|]. exists n', (with_desired p desired). simpl.
  eapply prepared_next; [by eapply prepared_steady|done|done|done|done].
Qed.

(** ** Readiness *)

Lemma prepared_ready v d n p c : prepared_state v d n p c → prepared_state v (with_ready d) n p c.
Proof.
  intros [H1 H2 H3 H4 H5 H6]. split; try done. unfold descriptor_ok in *. simpl. rewrite eq_str_refl.
  rewrite !andb_true_iff in *. tauto.
Qed.

Lemma prepared_serving v k n p : prepared_state v (m_descriptor k) n p (m_config k) → published v (m_descriptor k) → serving v k.
Proof.
  intros Hp Hd. pose proof (prepared_config _ _ _ _ _ Hp) as Hc. destruct Hp as [H1 H2 H3 H4 H5 H6].
  split; [done|done|done|]. exists (m_descriptor k), n, p, (m_config k). split; [done|]. intros _. split; [done|apply agree_refl].
Qed.

Lemma runs_validated v n : temporary n = false →
  runs dir v (validate dir n) (λ r v', v' = v ∧ (is_ok r = true → ∃ b, v !! n = Some (File b))).
Proof.
  intros Hn. unfold validate. eapply runs_seq; [by apply runs_open_file| |by intros e v' [-> _]].
  intros b v' [-> Hb]. apply runs_ret. split; [done|]. intros _. by exists b.
Qed.

Lemma runs_looked v : runs dir v chance (λ _ v', v' = v).
Proof. eapply runs_weaken; [apply runs_chance|]. by intros r v' [-> _]. Qed.

(** The log gains a record: nothing else changes. *)
Lemma gained_serving v piece v' k : gained v piece v' → serving v k → serving v' k.
Proof.
  intros (Hf & Hfit & _) [H1 H2 H3 (d & n & p & c & (Ha & Hb & Hc) & Hd)].
  assert (∀ m, m = DESCRIPTOR ∨ m = KEY ∨ m = KEY_LOCK ∨ is_snapshot m = true → v' !! m = v !! m) as Hsame.
  { intros m Hm. apply Hf. intros Hl%list_elem_of_In.
    by destruct Hl as [<-|[<-|[<-|[]]]]; destruct Hm as [|[|[|]]]. }
  assert (stays v v') as Hst by (intros m x Hm Hx; rewrite Hsame; auto).
  split; [done|by eapply locked_stays|done|]. exists d, n, p, c. split; [|done]. split; [|split; [done|by eapply backed_stays]].
  eapply published_mono; [done|]. apply Hsame. auto.
Qed.

Definition ready_state (r : result Error unit) v (k : Memory) : Prop :=
  r = Ok tt → serving v k ∧ m_stopped k = false ∧ d_ready (m_descriptor k) = true.

Lemma acts_announce v k d n p : m_stopped k = false → prepared_state v d n p (m_config k) →
  acts v k (do! _ := on_runtime (publish value_json wall process dir (with_ready d)) in
            do! _ := set_descriptor (with_ready d) in
            do! _ := tried (on_runtime (io (Reporter.ready value_json wall process (EventLog.mkEventLog dir nonce)))) in
            sret tt) ready_state.
Proof.
  intros Hrun Hp. apply prepared_ready in Hp. eapply acts_then; [apply runs_publish_descriptor, (ps_fits _ _ _ _ _ Hp)| |done].
  intros [] v1 Hr. pose proof (prepared_republished _ _ _ _ _ _ _ _ Hr Hp) as Hp1. pose proof Hr as (_ & _ & _ & Hdesc).
  apply (acts_set rt v1 _ _ (λ k, with_descriptor k (with_ready d))); [by intros [? ?]|].
  assert (serving v1 (with_descriptor k (with_ready d))) as Hs.
  { eapply prepared_serving; [exact Hp1|]. split; [by apply Hdesc|apply Hp1]. }
  eapply acts_tried.
  - apply acts_runtime, (runs_io_files _ _ _ (λ v', ∃ piece, gained v1 piece v')). eapply runs_weaken.
    + apply (runs_event value_json wall process (EventLog.mkEventLog dir nonce)), Hs.
    + intros r v' (time & j & Hg & _). eauto.
  - intros r v2 k2 [[piece Hg] ->]. apply acts_ret. intros _. split; [by eapply gained_serving|done].
Qed.

Lemma acts_readiness v k n p c0 (exact : bool) : m_stopped k = false →
  prepared_state v (m_descriptor k) n p c0 → c0 = m_config k → acts v k (readiness p nonce exact) ready_state.
Proof.
  intros Hrun Hp ->. unfold Control.readiness. cbv zeta. apply (acts_get rt v k _ m_descriptor); [by intros [? ?]|].
  eapply acts_then with (Q := λ r v', v' = v ∧ (is_ok r = true → ∃ b, v !! INSTANCE_LOCK = Some (File b))).
  { eapply runs_io; [by apply runs_validated|]. by intros [] v'. }
  2: done. intros [] v' [-> Hlock]. destruct (Hlock eq_refl) as [old Hold]. clear Hlock.
  eapply acts_then; [apply runs_io_files; by apply (runs_validate_path rt)| |done]. intros [] v' ->.
  eapply acts_then; [apply runs_io_files; by eapply runs_write_contents| |done]. intros [] v1 H1.
  eapply (prepared_only INSTANCE_LOCK) in Hp; [|done|exact H1].
  eapply acts_then with (Q := λ _ v', only (lit "zc.pid") v1 v').
  { eapply runs_io; [by apply runs_atomic_write|]. intros r v' [[->| ->] _]; [apply only_refl|apply only_insert]. }
  2: done. intros _ v2 H2. eapply (prepared_only (lit "zc.pid")) in Hp; [|done|exact H2].
  eapply acts_then; [apply runs_io_files; by apply runs_lock| |done]. intros [] v3 H3.
  eapply (prepared_only DAEMON_LOCK) in Hp; [|done|exact H3].
  eapply acts_then; [apply runs_publish_descriptor, (ps_fits _ _ _ _ _ Hp)| |done]. intros [] v4 H4.
  eapply prepared_republished in Hp; [|exact H4].
  eapply acts_bind; [by eapply acts_reread| |done]. intros d' v5 k5 Hd'. destruct (Hd' d' eq_refl) as (Hrun5 & n5 & p5 & Hp5).
  do 2 (eapply acts_then; [apply runs_io_files, runs_looked| |done]; intros [] v' ->).
  eapply acts_then; [apply runs_io_files; by apply runs_lock| |done]. intros [] v6 H6.
  eapply (prepared_only DAEMON_LOCK) in Hp5; [|done|exact H6].
  eapply acts_then; [apply runs_io_files; by apply runs_validate| |done]. intros [] v' ->.
  eapply acts_then; [apply runs_io_files; by apply (runs_validate_path rt)| |done]. intros [] v' ->.
  by eapply acts_announce.
Qed.

(** ** While it runs *)

Definition stop_name : str := lit "zc.stop." ++ nonce.

Lemma stop_steady v v' : only stop_name v v' → steady v v'.
Proof.
  intros Ho. apply (steady_only stop_name); [done| |done]. unfold is_snapshot.
  destruct (ends_with _ stop_name) eqn:E; [|done]. exfalso. apply ends_with_true in E as [r E]. unfold stop_name in E.
  change (lit ".snapshot") with (lit ".snapsho" ++ [116]) in E. rewrite app_assoc in E.
  apply valid_hex_spec in nonce_hex as [Hl Hf]. destruct nonce as [|b l _] using rev_ind; [done|].
  rewrite app_assoc in E. apply app_inj_tail in E as [_ ->]. apply Forall_app in Hf as [_ Hf].
  inversion Hf as [|? ? Hx]. discriminate Hx.
Qed.

Lemma acts_poll v k : serving v k → acts v k (poll rt nonce) (λ _ v' k', serving v' k').
Proof.
  intros Hk. unfold poll. cbv zeta. fold stop_name.
  eapply acts_then; [apply runs_io_files, (runs_validate_path rt)| |by intros err v' ->]. intros [] v' ->.
  eapply acts_then; [by apply runs_io_files, runs_validate| |by intros err v' ->]. intros [] v' ->.
  eapply acts_then; [apply runs_io_files, runs_looked| |by intros err v' ->]. intros [] v' ->.
  apply (acts_get rt v k _ m_stopped); [by intros [? ?]|]. apply acts_must; [intros _|done].
  eapply acts_then with (Q := λ _ v', v' = v); [| |by intros err v' ->].
  { apply runs_io_files. eapply runs_weaken; [by apply runs_exists|]. by intros r v' [-> _]. }
  intros asked v' ->. destruct asked; [simpl|by apply acts_ret].
  eapply acts_then with (Q := λ _ v', v' = v); [| |by intros err v' ->].
  { apply runs_io_files. eapply runs_weaken; [by apply runs_read|]. by intros r v' [-> _]. }
  intros request v' ->. destruct (negb _); [by apply acts_ret|].
  eapply acts_tried; [apply acts_runtime, (runs_io_files _ _ _ (λ v', steady v v'))|].
  - eapply runs_weaken; [by apply runs_remove|]. intros r v' Hr.
    assert (v' = v ∨ v' = base.delete stop_name v) as [->| ->]; [destruct r; auto|apply steady_refl|].
    apply stop_steady. intros m Hm. by rewrite lookup_delete_ne.
  - intros r v' k' [Hst ->]. assert (serving v' k) as Hk' by by eapply serving_steady.
    destruct r as [|[[]| |]]; by (apply acts_ret || apply acts_err).
Qed.

Lemma acts_status e v k : serving v k → acts v k (status e rt) (λ _ v' k', serving v' k').
Proof.
  intros Hk. unfold status. apply (acts_get rt v k _ m_descriptor); [by intros [? ?]|].
  eapply acts_bind; [apply acts_validate| |].
  2: { intros err v' k' (-> & Hst & _). by eapply serving_steady. }
  intros [] v1 k' (-> & H1 & _). pose proof (serving_steady rt _ _ _ H1 Hk) as Hk1.
  apply (acts_get rt v1 k _ m_config); [by intros [? ?]|]. apply (acts_get rt v1 k _ m_persisted); [by intros [? ?]|].
  apply acts_given; [|done]. intros value _. by apply acts_ret.
Qed.

Lemma acts_perform v k op : serving v k → acts v k (perform op) (λ r v' k', serving v' k' ∧ r = Ok tt).
Proof.
  intros Hk. destruct op as [e group px metadata|e| |bytes]; simpl.
  - eapply acts_tried; [by apply acts_select|]. intros r v' k' [H _]. by apply acts_ret.
  - eapply acts_tried; [by apply acts_status|]. intros r v' k' H. by apply acts_ret.
  - eapply acts_tried; [by apply acts_poll|]. intros r v' k' H. by apply acts_ret.
  - eapply acts_tried; [apply acts_runtime, (runs_io_files _ _ _ (λ v', steady v v'))|].
    + eapply runs_weaken; [by apply (runs_write_new _ _ stop_name)|].
      intros r v' [[-> _]|(_ & b & -> & _)]; [apply steady_refl|apply stop_steady, only_insert].
    + intros r v' k' [Hst ->]. apply acts_ret. split; [by eapply serving_steady|done].
Qed.

Lemma acts_session v k ops : serving v k → acts v k (session ops) (λ r v' k', serving v' k' ∧ r = Ok tt).
Proof.
  revert v k. induction ops as [|op ops IH]; intros v k Hk; simpl; [by apply acts_ret|].
  eapply acts_bind; [by apply acts_perform| |by intros err v' k' [_ H]]. intros [] v' k' [H _]. by apply IH.
Qed.

(** ** From a saved snapshot *)

Section Saved.
Context (e : Instance.Env) (p : Prepared) (name : str) (c : Config) (service : option str) (d0 d : Disk) (h : Handle) (t : Entries).
Context (Hsaved : save_snapshot dir p nonce d0 = (d, Ok name)).
Context (Hd0 : node_at dir (root d0) = Some (Dir t)) (Hplain : plain t) (Hfits : fits t).
Context (Hparse : parse_config p = Ok c) (Hid : is_some (identity p) = true).
Context (Hok : let i := initial_descriptor e rt p c nonce name service in descriptor_ok i (line i) = true).

Local Abbreviation start := (initial e rt d h p c nonce name service).

Lemma saved_prepared : ∃ t1, node_at dir (root d) = Some (Dir t1) ∧ plain t1 ∧
  prepared_state (visible t1) (initial_descriptor e rt p c nonce name service) name p c.
Proof.
  pose proof (runs_at dir _ _ _ d0 t (runs_save dir (visible t) p nonce) Hd0 Hplain eq_refl) as H. rewrite Hsaved in H.
  destruct H as (t1 & Hroot & Hp1 & [Hsv Hst]). destruct (Hst name eq_refl) as [Hstored Hlock].
  exists t1. split; [rewrite Hroot; by eapply node_at_set_eq|]. split; [done|].
  split; [|done|done|done|done|].
  - eapply fits_steady; [by apply steady_saved|]. unfold fits in *. by rewrite !content_visible.
  - eexists. split; [done|]. split; [done|]. by repeat (split; [done|]).
Qed.

(** What an operation on the new instance guarantees. *)
Lemma started {A : Type} (m : SC A) (Q : result Error A → Entries → Memory → Prop) :
  (∀ v, prepared_state v (initial_descriptor e rt p c nonce name service) name p c → acts v (memory start) m Q) →
  let '(s, r) := m start in
  ∃ t', root (runtime (fst s)) = set_at dir (Dir t') (root d) ∧ plain t' ∧ Q r (visible t') (memory s).
Proof.
  intros Hm. destruct saved_prepared as (t1 & Hd1 & Hp1 & Hps). exact (Hm _ Hps start t1 Hd1 Hp1 eq_refl eq_refl).
Qed.

Lemma ready_serving (exact : bool) :
  snd (readiness p nonce exact start) = Ok tt → let s := fst (readiness p nonce exact start) in
  ∃ t', node_at dir (root (runtime (fst s))) = Some (Dir t') ∧ plain t' ∧ serving (visible t') (memory s).
Proof.
  pose proof (started (readiness p nonce exact) ready_state) as H. destruct (readiness p nonce exact start) as [s r].
  simpl. intros ->. destruct H as (t' & Hr & Hp & Hs); [intros v Hv; by eapply acts_readiness|].
  exists t'. split; [|split; [done|by apply Hs]]. destruct saved_prepared as (t1 & Hd1 & _). rewrite Hr. by eapply node_at_set_eq.
Qed.

End Saved.

(** C11: from the moment a managed instance is ready to its end, other processes can take it
    back. Managed is an instance whose prepared configuration has an identity in the store;
    one without keeps live selections in memory only, and nothing is claimed of it. A managed
    instance runs what was prepared and saved; if it becomes ready, then after any
    sequence of selections, status requests, stop requests and rounds of its loop, with any
    failures of the disk and the store in between and also when the process dies in one of
    them, the descriptor in its directory names a snapshot that a process on a working disk
    loads and that parses, and while the instance has not stopped itself this is its own
    descriptor and the configuration it runs, group for group. Nothing outside of the
    runtime directory changes. *)
Theorem instance_restorable e p name c service d0 d h t (exact : bool) ops
    (Hsaved : save_snapshot dir p nonce d0 = (d, Ok name))
    (Hd0 : node_at dir (root d0) = Some (Dir t)) (Hplain : plain t) (Hfits : fits t)
    (Hparse : parse_config p = Ok c) (Hid : is_some (identity p) = true)
    (Hok : let i := initial_descriptor e rt p c nonce name service in descriptor_ok i (line i) = true) :
  let '(s, r) := live p exact ops (initial e rt d h p c nonce name service) in
  r = Ok tt → ∃ t', root (runtime (fst s)) = set_at dir (Dir t') (root d) ∧ plain t' ∧
    restorable parse_document to_string rt t' (memory s).
Proof.
  assert (∀ v, prepared_state v (initial_descriptor e rt p c nonce name service) name p c →
    acts v (memory (initial e rt d h p c nonce name service)) (live p exact ops) (λ r v' k', r = Ok tt → serving v' k')) as Ha.
  { intros v Hp. unfold Control.live. eapply acts_bind; [by eapply acts_readiness| |done].
    intros [] v' k' Hr. destruct (Hr eq_refl) as (Hs & _). eapply acts_weaken; [by apply acts_session|]. by intros r v2 k2 [H _]. }
  pose proof (started e p name c service d0 d h t Hsaved Hd0 Hplain Hfits Hparse Hid Hok _ _ Ha) as H.
  destruct (live p exact ops _) as [s r]. intros ->. destruct H as (t' & H1 & H2 & H3). exists t'. split; [done|].
  split; [done|]. by apply serving_restorable, H3.
Qed.

End Ready.

End ReadyFacts.
