(* ===== verification/CleanupFacts.v ===== *)
(** * Cleaning up spares what belongs to others

    An instance that ends removes its descriptor, its pid file and its snapshots, and only
    when the descriptor on disk is its own; a snapshot is removed only when its contents
    authenticate its name. What a dead instance left is removed only when nobody holds the
    instance lock and its processes are gone. *)
From S2P Require Import Prelude Utf8 Net BTree Json Rules Config Disk DiskFacts DirSpec Bundle Revision RevisionFacts Store Invocation Snapshot SnapshotFacts Evidence EventLog EventLogFacts Instance InstanceFacts.

Module CleanupFacts.
Import Disk DirSpec Bundle Revision Store Snapshot SnapshotFacts Instance InstanceFacts.

Implicit Types (v t : Entries).

Section Cleanup.
Context `{HN : IpNetLib, HL : !Loader, HS : Sha256, HD : !Serde Descriptor, HF : !Serde SnapshotFile}
  (parse_document : str → res Value) (to_string : Value → str) (e : Env) (rt : Directory).

Local Abbreviation dir := (handle rt).
Local Abbreviation remove_descriptor_snapshot := (remove_descriptor_snapshot parse_document to_string).
Local Abbreviation load_zig_prepared := (load_zig_prepared parse_document to_string).
Local Abbreviation cleanup_own := (cleanup_own parse_document to_string e rt).
Local Abbreviation cleanup_instance := (cleanup_instance parse_document to_string e rt).
Local Abbreviation cleanup_stale := (cleanup_stale parse_document to_string).

(** ** What may be gone *)

(** The contents of [n] authenticate its name, with the key of the directory. *)
Definition authentic v (n nonce : str) : Prop := ∃ k b,
  v !! KEY = Some (File k) ∧ v !! n = Some (File b) ∧
  (name_mac n nonce = Some (hmac k b) ∨ zig_name_mac n = Some (hmac k b)).

Definition lock_names : list str := [KEY_LOCK; DAEMON_LOCK; INSTANCE_LOCK].

(** Against [v], lock files may be new and files in [gone] may be missing. *)
Definition cleaned (gone : str → Prop) v v' : Prop := ∀ n,
  v' !! n = v !! n ∨ (n ∈ lock_names ∧ v !! n = None) ∨
  (gone n ∧ (n ∉ lock_names) ∧ n ≠ KEY ∧ v' !! n = None).

Lemma cleaned_refl gone v : cleaned gone v v.
Proof. intros n. by left. Qed.

Lemma cleaned_weaken (gone gone' : str → Prop) v v' : (∀ n, gone n → gone' n) → cleaned gone v v' → cleaned gone' v v'.
Proof. intros H Hc n. destruct (Hc n) as [|[|(H1 & H2)]]; auto. Qed.

Lemma cleaned_adds gone x v v' v'' : x ∈ lock_names → cleaned gone v v' → adds x v' v'' → cleaned gone v v''.
Proof.
  intros Hx Hc [Ho Hs] n. destruct (decide (n = x)) as [->|Hn].
  - destruct (Hc x) as [E|[E|(_ & H & _)]]; [|by right; left|done]. destruct (v' !! x) as [y|] eqn:Ey.
    + left. rewrite <- E. by eapply lookup_weaken.
    + right. left. by rewrite <- E.
  - rewrite Ho by done. apply Hc.
Qed.

Lemma cleaned_delete (gone : str → Prop) v v' x : gone x → x ∉ lock_names → x ≠ KEY → cleaned gone v v' → cleaned gone v (base.delete x v').
Proof.
  intros H1 H2 H3 Hc n. destruct (decide (n = x)) as [->|Hn].
  - right. right. by rewrite lookup_delete_eq.
  - rewrite lookup_delete_ne by done. apply Hc.
Qed.

Lemma cleaned_visible gone t t' : cleaned gone (visible t) (visible t') →
  ∀ n, temporary n = false → t' !! n ≠ t !! n → (n ∈ lock_names ∧ t !! n = None) ∨ (gone n ∧ t' !! n = None).
Proof.
  intros Hc n Hn Hne. rewrite <- (visible_lookup t' n), <- (visible_lookup t n) in Hne |- * by done.
  destruct (Hc n) as [|[|(H1 & _ & _ & H2)]]; [done|by left|by right].
Qed.

(** A file that is not a lock and is there was there. *)
Lemma cleaned_lookup gone v v' n x : cleaned gone v v' → n ∉ lock_names → v' !! n = Some x → v !! n = Some x.
Proof. intros Hc Hn Hx. destruct (Hc n) as [E|[[H _]|(_ & _ & _ & H)]]; [by rewrite <- E|done|congruence]. Qed.

Lemma cleaned_authentic gone v v' n nonce : cleaned gone v v' → n ∉ lock_names → authentic v' n nonce → authentic v n nonce.
Proof.
  intros Hc Hn (k & b & H1 & H2 & H3). exists k, b. split; [|split; [by eapply cleaned_lookup|done]].
  eapply cleaned_lookup; [done| |done]. intros H%list_elem_of_In. by destruct H as [H|[H|[H|[]]]].
Qed.

(** Operations that may leave locks. *)
Lemma runs_cleaned_lock gone v v' x : x ∈ lock_names → temporary x = false → cleaned gone v v' →
  runs dir v' (lock dir x) (λ _ v'', cleaned gone v v'').
Proof. intros Hx Ht Hc. eapply runs_weaken; [by apply runs_locked|]. intros r v'' [H _]. by eapply cleaned_adds. Qed.

Lemma key_lock_name : KEY_LOCK ∈ lock_names.
Proof. by left. Qed.

Lemma runs_removed (gone : str → Prop) v v' x : temporary x = false → gone x → x ∉ lock_names → x ≠ KEY → cleaned gone v v' →
  runs dir v' (io (remove_file dir x)) (λ _ v'', cleaned gone v v'').
Proof.
  intros Ht H1 H2 H3 Hc. apply runs_io_files. eapply runs_weaken; [by apply runs_remove|].
  pose proof (cleaned_delete gone v v' x H1 H2 H3 Hc) as Hd. intros [|] v''; simpl; [by intros ->|]. by intros [->| ->].
Qed.

(** ** Snapshots *)

Lemma runs_load_zig v n d :
  runs dir v (load_zig_prepared dir n d) (λ r v', adds KEY_LOCK v v' ∧ ∀ p, r = Ok p → authentic v n (d_nonce d)).
Proof.
  unfold Instance.load_zig_prepared. assert (adds KEY_LOCK v v) as Hsame by apply adds_refl. apply runs_checked; [|done]. intros mac Hm.
  destruct (zig_name_mac n) as [m|] eqn:Em; [|done]. injection Hm as <-.
  assert (temporary n = false) as Ht.
  { unfold zig_name_mac in Em. destruct (split_byte 46 n) as [|zc [|kind [|? [|? [|? []]]]]] eqn:E; try done.
    destruct (_ && _) eqn:Hc; [|done]. rewrite !andb_true_iff in Hc. destruct Hc as [[[[[_ H] _] _] _] _]. apply eq_str_true in H as ->.
    apply (f_equal (glue 46)) in E. rewrite glue_split in E. by rewrite E. }
  eapply runs_io_look; [by apply look_read| |done]. intros b Hb. cbv beta in Hb.
  eapply runs_seq; [apply runs_key| |by intros err v' [H _]]. intros k v' [Hk Hok]. destruct (Hok k eq_refl) as (Hkey & _).
  apply runs_check; [|done]. intros Hmac%eq_str_true. apply runs_lifted. split; [done|]. intros p _. exists k, b.
  split; [|split; [done|right; by rewrite Hmac]]. destruct Hk as [Ho _]. by rewrite <- Ho.
Qed.

Lemma runs_load_own v n nonce :
  runs dir v (load_snapshot dir n nonce) (λ r v', adds KEY_LOCK v v' ∧ ∀ p, r = Ok p → authentic v n nonce).
Proof.
  eapply runs_weaken; [apply runs_load|]. intros r v' [Hk Hok]. split; [done|]. intros p Hp.
  destruct (Hok p Hp) as (k & b & _ & H1 & H2 & H3 & _). exists k, b. split; [|split; [done|by left]].
  destruct Hk as [Ho _]. by rewrite <- Ho.
Qed.

(** An authentic file has none of the other names. *)
Lemma authentic_name v n nonce : authentic v n nonce → (n ∉ lock_names) ∧ n ≠ KEY ∧ temporary n = false.
Proof.
  intros (k & b & _ & _ & Hn).
  assert (length (split_byte 46 n) = 5%nat ∧ head (split_byte 46 n) = Some (lit "zc")) as [Hl Hh].
  { destruct Hn as [Hn|Hn]; [unfold name_mac in Hn|unfold zig_name_mac in Hn];
      (destruct (split_byte 46 n) as [|zc [|kind [|? [|? [|? []]]]]] eqn:E; try done;
       destruct (_ && _) eqn:Hc; [|done]; rewrite !andb_true_iff in Hc; split; [done|]; simpl; f_equal;
       apply eq_str_true; tauto). }
  split; [|split].
  - intros H%list_elem_of_In. by destruct H as [<-|[<-|[<-|[]]]].
  - intros ->. done.
  - destruct (split_byte 46 n) as [|zc [|kind rest]] eqn:E; [done..|]. injection Hh as ->.
    apply (f_equal (glue 46)) in E. rewrite glue_split in E. by rewrite E.
Qed.

(** [d] names the file [n] of the directory as its snapshot. *)
Definition names_snapshot (d : Descriptor) (n : str) : Prop := ∃ q,
  d_invocation d ≫= config_path = Some q ∧ directly_in q (path rt) = true ∧ file_name q = Some n.

Lemma runs_removed_snapshot gone v v' d : cleaned gone v v' →
  (∀ n, names_snapshot d n → authentic v n (d_nonce d) → gone n) →
  runs dir v' (remove_descriptor_snapshot rt d) (λ _ v'', cleaned gone v v'').
Proof.
  intros Hc Hgone. unfold Instance.remove_descriptor_snapshot.
  destruct (d_invocation d ≫= config_path) as [q|] eqn:Eq; [|by apply runs_ret].
  destruct (file_name q) as [n|] eqn:En; [|by apply runs_ret].
  assert (∀ v1, cleaned gone v v1 → authentic v1 n (d_nonce d) → authentic v n (d_nonce d)) as Hauth.
  { intros v1 H1 H2. eapply cleaned_authentic; [done| |done]. by apply authentic_name in H2 as [H2 _]. }
  eapply runs_seq with (Q := λ r v1, cleaned gone v v1 ∧ (r = Ok true → authentic v n (d_nonce d))).
  - destruct (ends_with _ n); [|by apply runs_ret]. eapply runs_try; [apply runs_load_zig|]. intros r v1 [H1 H2].
    apply runs_ret. split; [eapply cleaned_adds; [apply key_lock_name|done..]|]. destruct r as [p|]; [|done]. intros _. by eapply Hauth, H2.
  - intros yaml v1 [H1 Hyaml]. destruct (directly_in q (path rt)) eqn:Ed; simpl; [|by apply runs_ret].
    destruct (negb _); [by apply runs_ret|]. eapply runs_try; [apply runs_load_own|]. intros own v2 [H2 Hown].
    assert (cleaned gone v v2) as Hc2 by (eapply cleaned_adds; [apply key_lock_name|done..]).
    destruct (negb (is_ok own) && negb yaml) eqn:Eo; [by apply runs_ret|].
    assert (authentic v n (d_nonce d)) as Ha.
    { destruct own as [p|]; [by eapply Hauth, Hown|]. destruct yaml; [by apply Hyaml|done]. }
    destruct (authentic_name _ _ _ Ha) as (Hn1 & Hn2 & Hn3).
    eapply runs_ignore; [apply runs_removed; [done| |done|done|exact Hc2]|intros v3 H3; by apply runs_ret].
    apply Hgone; [|done]. by exists q.
  - by intros err v1 [H1 _].
Qed.

(** ** An instance that ends *)

Definition requests (nonce : str) : list str := [lit "zc.stop." ++ nonce; lit "zc.start." ++ nonce; lit "zc.restore." ++ nonce].

Lemma request_name nonce n : n ∈ requests nonce → temporary n = false ∧ (n ∉ lock_names) ∧ n ≠ KEY.
Proof.
  intros H%list_elem_of_In.
  assert (∀ m, take 4 m ≠ take 4 n → m ≠ n) as Hne by congruence.
  assert (n ∉ lock_names ↔ Forall (λ m, m ≠ n) lock_names) as Hlock.
  { rewrite Forall_forall. split; [intros Hn m Hm ->; done|]. intros Hall Hn. by apply (Hall n Hn). }
  destruct H as [<-|[<-|[<-|[]]]]; (split; [done|]; split; [|by apply not_eq_sym, Hne]); apply Hlock; repeat constructor; by apply Hne.
Qed.

Lemma runs_remove_all (gone : str → Prop) v v' names : (∀ n, n ∈ names → gone n ∧ temporary n = false ∧ (n ∉ lock_names) ∧ n ≠ KEY) →
  cleaned gone v v' → runs dir v' (remove_all dir names) (λ _ v'', cleaned gone v v'').
Proof.
  revert v'. induction names as [|n names IH]; intros v' Hn Hc; simpl; [by apply runs_ret|].
  destruct (Hn n) as (H1 & H2 & H3 & H4); [by left|].
  eapply runs_ignore; [by apply runs_removed|]. intros v1 H. apply IH; [|done]. intros m Hm. apply Hn. by right.
Qed.

Lemma runs_cleanup_names (gone : str → Prop) v v' nonce n : (authentic v n nonce → gone n) → (∀ m, m ∈ requests nonce → gone m) →
  cleaned gone v v' → runs dir v' (cleanup_names dir nonce n) (λ _ v'', cleaned gone v v'').
Proof.
  intros H1 H2 Hc. unfold cleanup_names. eapply runs_try; [apply runs_load_own|]. intros own v1 [Hk Hown].
  assert (cleaned gone v v1) as Hc1 by (eapply cleaned_adds; [apply key_lock_name|done..]).
  eapply runs_seq with (Q := λ _ v2, cleaned gone v v2).
  - destruct own as [p|]; [|by apply runs_ret]. simpl. specialize (Hown p eq_refl).
    destruct (authentic_name _ _ _ Hown) as (Hn1 & Hn2 & Hn3).
    eapply runs_ignore; [apply runs_removed; [done| |done|done|exact Hc1]|intros v2 Hv2; by apply runs_ret].
    apply H1. by apply (cleaned_authentic gone v v').
  - intros [] v2 Hv2. apply runs_remove_all; [|done]. intros m Hm. split; [by apply H2|by eapply request_name].
  - done.
Qed.

(** What an instance that ends may remove. *)
Definition own (v : Entries) (nonce name n : str) : Prop :=
  n ∈ requests nonce ∨ (n = name ∧ authentic v n nonce) ∨
  ∃ d, published v d ∧ d_nonce d = nonce ∧ d_pid d = own_pid e ∧
    (n = DESCRIPTOR ∨ (n = lit "zc.pid" ∧ pid_file v (own_pid e)) ∨ (names_snapshot d n ∧ authentic v n nonce)).

Lemma descriptor_name : temporary DESCRIPTOR = false ∧ (DESCRIPTOR ∉ lock_names) ∧ DESCRIPTOR ≠ KEY.
Proof. split; [done|]. split; [|done]. intros Hl%list_elem_of_In. by destruct Hl as [|[|[|[]]]]. Qed.

Lemma pid_name : temporary (lit "zc.pid") = false ∧ (lit "zc.pid" ∉ lock_names) ∧ lit "zc.pid" ≠ KEY.
Proof. split; [done|]. split; [|done]. intros Hl%list_elem_of_In. by destruct Hl as [|[|[|[]]]]. Qed.

Lemma cleaned_published gone v v' d : cleaned gone v v' → published v' d → published v d.
Proof. intros Hc [H1 H2]. split; [|done]. eapply cleaned_lookup; [done|apply descriptor_name|done]. Qed.

Lemma cleaned_pid_file gone v v' p : cleaned gone v v' → pid_file v' p → pid_file v p.
Proof. intros Hc (b & Hb & Hp). exists b. split; [|done]. eapply cleaned_lookup; [done|apply pid_name|done]. Qed.

Lemma runs_cleanup_own v v' nonce name current : cleaned (own v nonce name) v v' →
  (∀ d, current = Some d → published v d) →
  runs dir v' (cleanup_own nonce current) (λ _ v'', cleaned (own v nonce name) v v'').
Proof.
  intros Hc Hcur. unfold Instance.cleanup_own. destruct current as [d|]; [|by apply runs_ret]. specialize (Hcur d eq_refl).
  destruct (_ && _) eqn:E; [|by apply runs_ret]. apply andb_true_iff in E as [E1%eq_str_true E2%Z.eqb_eq].
  assert (∀ n, (n = DESCRIPTOR ∨ (n = lit "zc.pid" ∧ pid_file v (own_pid e)) ∨ (names_snapshot d n ∧ authentic v n nonce)) →
    own v nonce name n) as Hown.
  { intros n Hn. right. right. by exists d. }
  eapply runs_seq with (Q := λ _ v1, cleaned (own v nonce name) v v1); [| |done].
  { apply runs_removed_snapshot; [done|]. intros n H1 H2. apply Hown. rewrite E1 in H2. auto. }
  intros [] v1 H1. destruct descriptor_name as (Hd1 & Hd2 & Hd3).
  eapply runs_ignore; [apply (runs_removed (own v nonce name) v); [done|by apply Hown; left|done|done|done]|]. intros v2 H2.
  eapply runs_try; [apply runs_pid_file|]. intros p v3 [-> Hpid]. destruct p as [[n|]|]; [|by apply runs_ret..].
  destruct (n =? own_pid e) eqn:En; [apply Z.eqb_eq in En as ->|by apply runs_ret].
  assert (pid_file v (own_pid e)) as Hmine by (eapply cleaned_pid_file; [exact H2|by apply (Hpid _ eq_refl)]).
  destruct pid_name as (Hp1 & Hp2 & Hp3).
  eapply runs_ignore; [apply (runs_removed (own v nonce name) v); [done|by apply Hown; auto|done|done|exact H2]|].
  intros v4 H4. by apply runs_ret.
Qed.

(** C33: an instance that ends spares what is not its own. Whatever fails during
    [cleanup_instance], the files it changes are: lock files that were missing; the requests
    made under its nonce; the snapshot it was started from, only if its contents authenticate
    its name; and, only if the descriptor on disk has its nonce and its process id, that
    descriptor, the pid file if it holds the process id too, and the snapshot the descriptor
    names in this directory, again only if it is authentic. So the descriptor, the pid file,
    the requests and the snapshots of another instance in the same directory, which has
    another process id and another nonce, are not touched. *)
Theorem cleanup_spares_others nonce name d t (Hd : node_at dir (root d) = Some (Dir t)) (Hp : plain t) :
  let '(d', r) := cleanup_instance nonce name d in
  ∃ t', root d' = set_at dir (Dir t') (root d) ∧ plain t' ∧
    ∀ n, temporary n = false → t' !! n ≠ t !! n →
      (n ∈ lock_names ∧ t !! n = None) ∨ (own (visible t) nonce name n ∧ t' !! n = None).
Proof.
  assert (runs dir (visible t) (cleanup_instance nonce name) (λ _ v', cleaned (own (visible t) nonce name) (visible t) v')) as H.
  { unfold Instance.cleanup_instance. set (v := visible t).
    assert (cleaned (own v nonce name) v v) as Hc by apply cleaned_refl.
    eapply runs_try with (Q := λ _ v1, cleaned (own v nonce name) v v1).
    { apply runs_io_files, runs_cleaned_lock; [by right; left|done|done]. }
    intros locked v1 H1. eapply runs_seq with (Q := λ _ v2, cleaned (own v nonce name) v v2).
    - destruct (is_ok locked); [|by apply runs_ret]. eapply runs_try; [apply runs_read_descriptor|]. intros current v' [-> Hcur].
      destruct current as [current|]; [|by apply runs_ret]. apply runs_cleanup_own; [done|]. intros x ->.
      eapply cleaned_published; [done|by apply Hcur].
    - intros [] v2 H2. apply runs_cleanup_names; [|by left|done]. intros Ha. right. by left.
    - intros err v2 H2. done. }
  pose proof (runs_at dir _ _ _ d t H Hd Hp eq_refl) as Hr. destruct (cleanup_instance nonce name d) as [d' r].
  destruct Hr as (t' & Hroot & Hp' & Hc). exists t'. split; [done|]. split; [done|]. by apply cleaned_visible.
Qed.

(** ** An instance that is dead *)

(** What may be removed of an instance that is dead: nobody holds its lock and its process
    is gone. *)
Definition dead v (n : str) : Prop :=
  lock_owned e = false ∧ (∀ p, pid_file v p → alive e p = false) ∧
  (n = lit "zc.pid" ∨ ∃ d, published v d ∧ alive e (d_pid d) = false ∧
     (n = DESCRIPTOR ∨ (names_snapshot d n ∧ authentic v n (d_nonce d)))).

Lemma runs_cleanup_stale v : runs dir v (cleanup_stale e rt) (λ _ v', cleaned (dead v) v v').
Proof.
  unfold Instance.cleanup_stale. pose proof (cleaned_refl (dead v) v) as Hc.
  eapply runs_seq; [apply runs_held| |by intros err v' [H _]; eapply cleaned_adds; [right; right; left|exact Hc|exact H]].
  intros held v1 [H1 Hheld]. specialize (Hheld held eq_refl). subst held.
  assert (cleaned (dead v) v v1) as Hc1 by (eapply cleaned_adds; [by right; right; left|exact Hc|exact H1]).
  destruct (lock_owned e) eqn:Eowned; [by apply runs_ret|].
  eapply runs_seq; [apply runs_io_files, runs_validate_path| |by intros err v' ->]. intros [] v' ->.
  eapply runs_seq; [by apply runs_io_files, runs_validate| |by intros err v' ->]. intros [] v' ->.
  eapply runs_seq; [apply runs_pid_file| |by intros err v' [-> _]]. intros stale v' [-> Hstale].
  apply runs_check; [intros Hgone|done]. apply negb_true_iff in Hgone.
  assert (∀ p, pid_file v p → alive e p = false) as Hdead.
  { intros p (b & Hb & Hp). assert (pid_file v1 p) as Hp1 by (exists b; split; [by rewrite (proj1 H1)|done]).
    by rewrite (proj1 (Hstale stale eq_refl p) Hp1) in Hgone. }
  assert (∀ n, (n = lit "zc.pid" ∨ ∃ d, published v d ∧ alive e (d_pid d) = false ∧
    (n = DESCRIPTOR ∨ (names_snapshot d n ∧ authentic v n (d_nonce d)))) → dead v n) as Hd by (intros n Hn; by split).
  eapply runs_seq with (Q := λ _ v', cleaned (dead v) v v'); [by apply runs_io_files, runs_cleaned_lock; [right; left| |]| |done].
  intros [] v2 H2. eapply runs_seq; [apply runs_read_descriptor| |by intros err v' [-> _]]. intros current v' [-> Hcur].
  eapply runs_seq with (Q := λ _ v', cleaned (dead v) v v'); [| |done].
  - destruct current as [d|]; [|by apply runs_ret].
    assert (published v d) as Hpub by (eapply cleaned_published; [done|by apply Hcur]).
    apply runs_check; [intros Ha%negb_true_iff|done].
    eapply runs_seq with (Q := λ _ v', cleaned (dead v) v v'); [apply runs_removed_snapshot; [done|]| |done].
    + intros n Hn Ha2. apply Hd. right. exists d. auto.
    + intros [] v3 H3. destruct descriptor_name as (Hn1 & Hn2 & Hn3). apply runs_removed; [done| |done|done|done].
      apply Hd. right. exists d. auto.
  - intros [] v3 H3. eapply runs_seq with (Q := λ _ v', cleaned (dead v) v v'); [| |done].
    + destruct (is_some stale); [|by apply runs_ret]. destruct pid_name as (Hn1 & Hn2 & Hn3).
      apply runs_removed; [done| |done|done|done]. apply Hd. by left.
    + intros [] v4 H4. by apply runs_ret.
Qed.

(** C32: cleaning up after a dead instance spares the living. Whatever fails during
    [cleanup_stale], a file it removes is the pid file, the descriptor or the snapshot this
    descriptor names in the directory, and then nobody else holds the instance lock, the
    process in the pid file is not alive, and neither is the one in the descriptor whose
    files are removed; the snapshot is authentic. Everything else stays as it was, apart
    from lock files that were missing. *)
Theorem stale_spares_living d t (Hd : node_at dir (root d) = Some (Dir t)) (Hp : plain t) :
  let '(d', r) := cleanup_stale e rt d in
  ∃ t', root d' = set_at dir (Dir t') (root d) ∧ plain t' ∧
    ∀ n, temporary n = false → t' !! n ≠ t !! n →
      (n ∈ lock_names ∧ t !! n = None) ∨ (dead (visible t) n ∧ t' !! n = None).
Proof.
  pose proof (runs_at dir _ _ _ d t (runs_cleanup_stale (visible t)) Hd Hp eq_refl) as Hr. destruct (cleanup_stale e rt d) as [d' r].
  destruct Hr as (t' & Hroot & Hp' & Hc). exists t'. split; [done|]. split; [done|]. by apply cleaned_visible.
Qed.

End Cleanup.

End CleanupFacts.
