(* ===== verification/ControlDemo.v ===== *)
(** * An instance to run

    A runtime directory, a store with one profile and an instance of it: it becomes ready,
    takes over a selection and stops. What the theorems assume of the codecs, the digest and
    the loader holds of the concrete ones here. *)
From stdpp Require Import countable.
From S2P Require Import Prelude Utf8 Net BTree Json Rules Groups Proxy Config Connection Disk DiskFacts DirSpec Bundle Revision RevisionFacts Store CatalogFacts StoreFacts StoreSpec StoreSafety StoreDemo Invocation Snapshot SnapshotFacts Evidence EventLog EventLogFacts Reporter Instance InstanceFacts Api Control ControlFacts ReadyFacts CleanupFacts.

Module ControlDemo.
Import Disk DirSpec Bundle Revision Store StoreDemo Snapshot SnapshotFacts Instance Control ControlFacts.

(** ** Parameters *)

#[local] Existing Instance no_nets.

#[local] Instance arg_eq : EqDecision Invocation.OverrideArg. Proof. solve_decision. Defined.
#[local] Instance options_eq : EqDecision Invocation.CliOptions. Proof. solve_decision. Defined.
#[local] Instance prepared_eq : EqDecision Prepared. Proof. solve_decision. Defined.
#[local] Instance snapshot_eq : EqDecision SnapshotFile. Proof. solve_decision. Defined.

#[local] Instance arg_countable : Countable Invocation.OverrideArg.
Proof. by refine (inj_countable' (λ a, (Invocation.arg_key a, Invocation.arg_value a)) (λ '(a, b), Invocation.mkArg a b) _); intros []. Defined.
#[local] Instance options_countable : Countable Invocation.CliOptions.
Proof.
  by refine (inj_countable' (λ o, (Invocation.script_path o, Invocation.timeout_ms o, Invocation.args o))
    (λ '(a, b, c), Invocation.mkOptions a b c) _); intros [].
Defined.
#[local] Instance invocation_countable : Countable RunInvocation.
Proof.
  by refine (inj_countable' (λ i, (foreground i, prepared i, config_path i, source_path i, port_override i))
    (λ '(a, b, c, d, e), mkRunInvocation a b c d e) _); intros [].
Defined.
#[local] Instance prepared_countable : Countable Prepared.
Proof.
  by refine (inj_countable' (λ p, (source p, assets p, identity p, generation p, selections p, invocation p, port p, override_options p, controller_secret p))
    (λ '(a, b, c, d, e, f, g, h, i), mkPrepared a b c d e f g h i) _); intros [].
Defined.
#[local] Instance snapshot_countable : Countable SnapshotFile.
Proof. by refine (inj_countable' (λ s, (sf_schema s, sf_nonce s, sf_prepared s)) (λ '(a, b, c), mkSnapshotFile a b c) _); intros []. Defined.
#[local] Instance descriptor_countable : Countable Descriptor.
Proof.
  by refine (inj_countable' (λ d, (d_schema d, d_pid d, d_nonce d, d_endpoint d, d_identity d, d_generation d, d_ready d, d_invocation d, d_service d))
    (λ '(a, b, c, d, e, f, g, h, i), mkDescriptor a b c d e f g h i) _); intros [].
Defined.

#[local] Instance descriptor_codec : Serde Descriptor := serde_of Descriptor.
#[local] Instance snapshot_codec : Serde SnapshotFile := serde_of SnapshotFile.

#[local, refine] Instance loader : Loader :=
  { server_name_ok _ := true; load_config _ _ := Ok demo_config; load_source _ := Ok demo_config }.
Proof. intros s a c [= <-]. exact demo_config_wf. Defined.

(** ** The store: its profile desires a selection *)

Definition catalog_at (x : Node) : Catalog :=
  match node_at [CATALOG_NAME] x with Some (File b) => default empty_catalog (parse_catalog b) | _ => empty_catalog end.
Definition home_catalog : Catalog := catalog_at (root (disk second)).

Definition desired : Desired := mkDesired 1 [mkSelection (lit "main") (lit "DIRECT")].

Definition desiring (c : Catalog) : Catalog :=
  mkCatalog (ct_schema c) (ct_sequence c) (ct_active c)
    ((λ p, mkProfile (p_key p) (p_storage p) (p_head p) desired (p_secret p)) <$> ct_profiles c).

Definition first_head (c : Catalog) : str := default [] (p_head <$> head (ct_profiles c)).
Definition head_of : str := first_head home_catalog.

Definition with_catalog (c : Catalog) (x : Node) : Node :=
  match x with Dir t => Dir (<[CATALOG_NAME := File (line c)]> t) | _ => x end.
Definition shelf (fates : list Fate) : Handle :=
  mkHandle (mkDisk (with_catalog (desiring home_catalog) (root (disk second))) fates [] false) false.

Example shelf_desires : snd (desired_guard (serr (Message "legacy")) (mkActive (lit "home") head_of) (shelf [])) = Ok (Some desired).
Proof. vm_compute. reflexivity. Qed.

(** ** The instance *)

Definition rt : Directory := mkDirectory (lit "/run/zc") [].
Definition id : str := lit "0123456789abcdef0123456789abcdef".
Definition show (v : Value) : str := match get "event" v with Some (VString s) => s | _ => [] end.
Definition env : Instance.Env := mkEnv (λ _, true) (λ _, Ok (lit "/usr/bin/zclash" ++ [0] ++ lit "--daemon-run")) true 7.
Definition legacy : SH Store.Snapshot := serr (Message "legacy").

Definition managed_by : ActiveIdentity := mkActive (lit "home") head_of.
Definition prepared_home : Prepared :=
  mkPrepared [] [] (Some managed_by) 0 [] (mkRunInvocation false false None None None) 7890 Invocation.default_options None.

Definition files : Entries := {[INSTANCE_LOCK := File []]}.
Definition empty_disk (fates : list Fate) : Disk := mkDisk (Dir files) fates (replicate 32 5 :: replicate 9 (replicate 16 6)) false.

Definition kept_disk : Disk := fst (save_snapshot [] prepared_home id (empty_disk [])).
Definition kept_name : str := match snd (save_snapshot [] prepared_home id (empty_disk [])) with Ok n => n | Err _ => [] end.

Definition born (fates : list Fate) : State :=
  initial env rt (mkDisk (root kept_disk) fates (random kept_disk) false) (shelf []) prepared_home demo_config id kept_name None.

Definition metadata (generation : Z) : Value :=
  VObject [(lit "generation", VNumber (PosInt generation)); (lit "identity_key", VString (lit "home"));
           (lit "identity_revision", VString head_of); (lit "instance_nonce", VString id)].

Local Abbreviation live := (live legacy (λ _, Err "none"%string) (λ _, []) show (λ _, None) 7 rt id).
Local Abbreviation select := (Control.select legacy (λ _, Err "none"%string) (λ _, []) show (λ _, None) 7 env rt).
Local Abbreviation readiness := (readiness legacy show (λ _, None) 7 rt).

Example ready_exact :
  let '(s, r) := readiness prepared_home id true (born []) in
  r = Ok tt ∧ d_ready (descriptor (fst s)) = true ∧ d_generation (descriptor (fst s)) = 0.
Proof. vm_compute. done. Qed.

Example ready_desired :
  let '(s, r) := readiness prepared_home id false (born []) in
  r = Ok tt ∧ d_generation (descriptor (fst s)) = 1 ∧ Config.selections (snd s) = [1%nat; 0%nat].
Proof. vm_compute. done. Qed.

(** A selection the store desires is taken over; one it does not is refused. *)
Definition ready : State := fst (readiness prepared_home id true (born [])).

Example selects :
  let '(s, r) := select (lit "main") (lit "DIRECT") (metadata 1) ready in
  r = Ok true ∧ Config.selections (snd s) = [1%nat; 0%nat] ∧ d_generation (descriptor (fst s)) = 1.
Proof. vm_compute. done. Qed.

Example refuses : snd (select (lit "main") (lit "node") (metadata 1) ready) = Ok false.
Proof. vm_compute. reflexivity. Qed.

(** The descriptor cannot be published: the configuration is restored and the instance stops. *)
Definition failing (n : nat) (s : State) : State :=
  let c := fst s in
  (mkControl (mkDisk (root (runtime c)) (replicate n Fine ++ [Faulty 0]) (random (runtime c)) false) (store c) (descriptor c)
     (persisted c) (stopped c), snd s).

Example publication_fails :
  let '(s, r) := select (lit "main") (lit "DIRECT") (metadata 1) (failing 66 ready) in
  is_ok r = false ∧ stopped (fst s) = true ∧ Config.selections (snd s) = [0%nat; 0%nat].
Proof. vm_compute. done. Qed.

(** A write that stops half-way leaves its file, and the same snapshot can never be saved. *)
Definition mended (d : Disk) : Disk := mkDisk (root d) [] (random d) false.

Example torn_snapshot_blocks :
  let save := save_snapshot [] prepared_home id in
  let '(d1, r1) := save (mended kept_disk) in
  let '(d2, r2) := save (empty_disk (replicate 16 Fine ++ [Faulty 1])) in
  let '(d3, r3) := save (mended d2) in
  is_ok r1 = true ∧ r2 = Err (Io (Invalid "I/O error")) ∧ r3 = Err (Message "START_SNAPSHOT_INVALID: immutable snapshot changed").
Proof. vm_compute. done. Qed.

(** ** Cleaning up *)

Definition present (d : Disk) (n : str) : bool := match node_at [n] (root d) with Some _ => true | None => false end.

Local Abbreviation cleanup_instance := (cleanup_instance (λ _, Err "none"%string) (λ _, [])).
Local Abbreviation cleanup_stale := (cleanup_stale (λ _, Err "none"%string) (λ _, [])).

(** The instance removes its own files; another process removes nothing of it. *)
Example ends :
  let '(d, _) := cleanup_instance env rt id kept_name (runtime (fst ready)) in
  present d DESCRIPTOR = false ∧ present d (lit "zc.pid") = false ∧ present d kept_name = false ∧ present d KEY = true.
Proof. vm_compute. done. Qed.

Definition other : Instance.Env := mkEnv (λ _, true) (λ _, Err "gone"%string) true 8.

Example spares :
  let '(d, _) := cleanup_instance other rt (lit "ffffffffffffffffffffffffffffffff") kept_name (runtime (fst ready)) in
  present d DESCRIPTOR = true ∧ present d (lit "zc.pid") = true ∧ present d kept_name = true.
Proof. vm_compute. done. Qed.

(** What is dead is cleaned up. *)
Definition after : Instance.Env := mkEnv (λ _, false) (λ _, Err "gone"%string) false 9.

Example buries :
  let '(d, r) := cleanup_stale after rt (runtime (fst ready)) in
  r = Ok (Some 7) ∧ present d DESCRIPTOR = false ∧ present d (lit "zc.pid") = false ∧ present d kept_name = false.
Proof. vm_compute. done. Qed.

Example leaves : snd (cleanup_stale env rt (runtime (fst ready))) = Ok None.
Proof. vm_compute. reflexivity. Qed.

(** ** The theorems *)

Lemma home_plain : plain files.
Proof. intros n b o. unfold files. rewrite lookup_singleton_Some. by intros [_ ?]. Qed.

Lemma id_hex : valid_hex id 32 = true.
Proof. reflexivity. Qed.

Lemma home_saved : save_snapshot [] prepared_home id (empty_disk []) = (kept_disk, Ok kept_name).
Proof.
  assert (is_ok (snd (save_snapshot [] prepared_home id (empty_disk []))) = true) as H by (vm_compute; reflexivity).
  unfold kept_disk, kept_name. by destruct (save_snapshot [] prepared_home id (empty_disk [])) as [d [n|err]].
Qed.

Lemma kept_calm : kept_disk = mkDisk (root kept_disk) [] (random kept_disk) false.
Proof.
  assert (script kept_disk = [] ∧ crashed kept_disk = false) as [H1 H2] by (vm_compute; done).
  destruct kept_disk. simpl in *. by subst.
Qed.

Lemma home_parses : parse_config prepared_home = Ok demo_config.
Proof. vm_compute. reflexivity. Qed.

Lemma home_descriptor : let i := initial_descriptor env rt prepared_home demo_config id kept_name None in descriptor_ok i (line i) = true.
Proof. vm_compute. reflexivity. Qed.

Lemma snapshot_roundtrip_witness :
  node_at [] (root (empty_disk [])) = Some (Dir files) ∧
  (let '(d', r) := save_snapshot [] prepared_home id (empty_disk []) in
   ∃ t', root d' = set_at [] (Dir t') (root (empty_disk [])) ∧
    (∀ n x, temporary n = false → files !! n = Some x → t' !! n = Some x) ∧
    ∀ name, r = Ok name → ∀ v2 d2, calm [] v2 d2 →
      (∀ n, n ∈ [KEY; KEY_LOCK; name] → v2 !! n = t' !! n) → load_snapshot [] name id d2 = (d2, Ok prepared_home)).
Proof.
  assert (node_at [] (root (empty_disk [])) = Some (Dir files)) as Hd by reflexivity.
  assert (is_some (controller_secret prepared_home) = true → is_ok (parse_config prepared_home) = true) as Ho by discriminate.
  pose proof (snapshot_roundtrip [] prepared_home id (empty_disk []) files Hd home_plain id_hex Ho) as H.
  split; [exact Hd|exact H].
Defined.

Lemma ready_serves : ∃ t, node_at [] (root (runtime (fst ready))) = Some (Dir t) ∧ plain t ∧ serving rt (visible t) (memory ready).
Proof.
  assert (starts_with [47] (path rt) = true) as Hroot by reflexivity.
  assert (node_at [] (root (empty_disk [])) = Some (Dir files)) as Hd by reflexivity.
  assert (EventLogFacts.fits files) as Hfit by (split; vm_compute; discriminate).
  assert (born [] = initial env rt kept_disk (shelf []) prepared_home demo_config id kept_name None) as Hborn by (by rewrite kept_calm at 1).
  assert (snd (readiness prepared_home id true (born [])) = Ok tt) as Hok by (vm_compute; reflexivity).
  unfold ready. rewrite Hborn in *.
  exact (ReadyFacts.ready_serving legacy (λ _, Err "none"%string) show (λ _, None) 7 rt id Hroot id_hex env prepared_home kept_name
    demo_config None (empty_disk []) kept_disk (shelf []) files home_saved Hd home_plain Hfit home_parses eq_refl home_descriptor true Hok).
Qed.

Lemma cleanup_spares_others_witness : ∃ t, node_at [] (root (runtime (fst ready))) = Some (Dir t) ∧
  (λ '((d', r) : Disk * result Error unit), ∃ t', root d' = set_at [] (Dir t') (root (runtime (fst ready))) ∧ plain t' ∧
    ∀ n, temporary n = false → t' !! n ≠ t !! n →
      (n ∈ CleanupFacts.lock_names ∧ t !! n = None) ∨ (CleanupFacts.own env rt (visible t) id kept_name n ∧ t' !! n = None))
  (cleanup_instance env rt id kept_name (runtime (fst ready))).
Proof.
  destruct ready_serves as (t & Hd & Hp & _).
  pose proof (CleanupFacts.cleanup_spares_others (λ _, Err "none"%string) (λ _, []) env rt id kept_name (runtime (fst ready)) t Hd Hp) as H.
  exists t. split; [exact Hd|exact H].
Defined.

Lemma stale_spares_living_witness : ∃ t, node_at [] (root (runtime (fst ready))) = Some (Dir t) ∧
  (λ '((d', r) : Disk * result Error (option Z)), ∃ t', root d' = set_at [] (Dir t') (root (runtime (fst ready))) ∧ plain t' ∧
    ∀ n, temporary n = false → t' !! n ≠ t !! n →
      (n ∈ CleanupFacts.lock_names ∧ t !! n = None) ∨ (CleanupFacts.dead after rt (visible t) n ∧ t' !! n = None)) (cleanup_stale after rt (runtime (fst ready))).
Proof.
  destruct ready_serves as (t & Hd & Hp & _).
  pose proof (CleanupFacts.stale_spares_living (λ _, Err "none"%string) (λ _, []) after rt (runtime (fst ready)) t Hd Hp) as H.
  exists t. split; [exact Hd|exact H].
Defined.

Local Abbreviation confirmed := (confirmed legacy).
Local Abbreviation restorable := (restorable (λ _, Err "none"%string) (λ _, []) rt).

Lemma select_transactional_witness : ∃ t, serving rt (visible t) (memory ready) ∧
  (λ '((s', r) : State * result Error bool), ∃ t', root (runtime (fst s')) = set_at [] (Dir t') (root (runtime (fst ready))) ∧ plain t' ∧
    serving rt (visible t') (memory s') ∧ restorable t' (memory s') ∧
    match r with
    | Ok true => ∃ desired, confirmed (memory ready) (lit "main") (lit "DIRECT") (metadata 1) desired ∧
                   taken rt (visible t') (memory ready) desired (memory s')
    | _ => kept (memory ready) (memory s')
    end) (select (lit "main") (lit "DIRECT") (metadata 1) ready).
Proof.
  assert (starts_with [47] (path rt) = true) as Hroot by reflexivity.
  destruct ready_serves as (t & Hd & Hp & Hs).
  pose proof (select_transactional legacy (λ _, Err "none"%string) (λ _, []) show (λ _, None) 7 env rt Hroot
    (lit "main") (lit "DIRECT") (metadata 1) ready t Hd Hp Hs) as H.
  exists t. split; [exact Hs|exact H].
Defined.

Definition course : list Op := [Status env; Select env (lit "main") (lit "DIRECT") (metadata 1); StopRequest (id ++ [10]); Poll].

Lemma instance_restorable_witness :
  save_snapshot [] prepared_home id (empty_disk []) = (kept_disk, Ok kept_name) ∧
  (λ '((s, r) : State * result Error unit), r = Ok tt → ∃ t', root (runtime (fst s)) = set_at [] (Dir t') (root kept_disk) ∧ plain t' ∧ restorable t' (memory s))
  (live prepared_home true course (initial env rt kept_disk (shelf []) prepared_home demo_config id kept_name None)).
Proof.
  assert (starts_with [47] (path rt) = true) as Hroot by reflexivity.
  assert (node_at [] (root (empty_disk [])) = Some (Dir files)) as Hd by reflexivity.
  assert (EventLogFacts.fits files) as Hfit by (split; vm_compute; discriminate).
  pose proof (ReadyFacts.instance_restorable legacy (λ _, Err "none"%string) (λ _, []) show (λ _, None) 7 rt id Hroot id_hex env prepared_home
    kept_name demo_config None (empty_disk []) kept_disk (shelf []) files true course
    home_saved Hd home_plain Hfit home_parses eq_refl home_descriptor) as H.
  split; [exact home_saved|exact H].
Defined.

End ControlDemo.
