(* ===== verification/Cli.v ===== *)
(** * The command line (src/src/cli.rs)

    From the tokens of a command line to the command it asks for, with every usage error and
    its code; from the outcome of a command to the answer on the terminal and the exit code.
    What the commands do is elsewhere (the store, the daemon); printing JSON, the layout of
    help pages by clap, Unicode lower case and the version are parameters. *)
From S2P Require Import Prelude Utf8 BTree Json Connection Invocation.

Module Cli.
Import Invocation.

(** ** Failures *)

Record Failure := mkFailure { f_code : str; f_message : str; f_hint : str; f_exit : Z; f_data : option Value }.

(** [fail] *)
Definition failure (code message hint : str) (exit : Z) : Failure := mkFailure code message hint exit None.

Definition usage (code command : str) : Failure :=
  failure code (lit "unknown, missing or invalid command argument")
    (lit "run `zc help " ++ command ++ lit "` for usage") 2.

(** ** Commands *)

Definition COMMANDS : list (string * string) := [
  ("start", "[-c <config>] [--port <port>] [--foreground]");
  ("service start", "[-c <config>] [--port <port>]");
  ("service stop", "");
  ("service restart", "[-c <config>] [--port <port>]");
  ("service enable", "[-c <config>] [--port <port>]");
  ("service disable", "");
  ("service status", "");
  ("stop", "");
  ("restart", "[-c <config>] [--port <port>]");
  ("reload", "");
  ("status", "");
  ("connection list", "");
  ("connection close", "<id>");
  ("log", "[-n <lines>] [-f|--no-follow]");
  ("test", "[-c <config>] [--port <port>]");
  ("doctor", "[-c <config>]");
  ("version", "");
  ("config load", "<path>");
  ("config list", "");
  ("config download", "<url> [-n <name>] [-d]");
  ("config update", "[name] [--apply auto|hot|restart]");
  ("config use", "<name>");
  ("config delete", "<name>");
  ("config dump", "[-c <config>] [--no-override]");
  ("config override", "[script|--clear]");
  ("proxy list", "[-c <config>]");
  ("proxy select", "[-g <group>] [-p <proxy>] [-c <config>]");
  ("proxy test", "[-c <config>] [--port <port>]");
  ("profile list", "[-c <config>]");
  ("profile select", "[-g <group>] [-p <proxy>] [-c <config>]");
  ("profile test", "[-c <config>] [--port <port>]");
  ("diag doctor", "[-c <config>]")
]%string.

(** [COMMANDS.iter().any(|(p, _)| *p == command)] *)
Definition known (command : str) : bool := one_of command COMMANDS.*1.

Definition group (s : str) : bool := one_of s ["config"; "proxy"; "profile"; "diag"; "connection"; "service"].

Definition canonical (s : str) : str :=
  if eq_str s (lit "up") then lit "start"
  else if eq_str s (lit "down") then lit "stop"
  else if eq_str s (lit "--version") then lit "version"
  else s.

Definition sub_alias (s : str) : str :=
  if eq_str s (lit "ls") then lit "list"
  else if one_of s ["rm"; "remove"] then lit "delete"
  else s.

(** [text.replace(' ', "_")]; upper case of the ASCII names of commands. *)
Definition replace_byte (a b : Z) (s : str) : str := (λ c, if c =? a then b else c) <$> s.
Definition to_uppercase (s : str) : str := to_ascii_uppercase_byte <$> s.

Definition argument_code (path : str) : str :=
  if one_of path ["start"; "restart"] then lit "START_ARGS_INVALID"
  else if one_of path ["doctor"; "diag doctor"] then lit "DIAG_DOCTOR_ARGUMENT_INVALID"
  else to_uppercase (replace_byte 32 95 path) ++ lit "_ARGUMENT_INVALID".

(** ** Arguments *)

Record Args := mkArgs {
  path : str;
  values : bmap str;
  flags : bmap unit;
  positionals : list str;
  overrides : CliOptions;
}.

Definition value (k : string) (a : Args) : option str := bget (lit k) (values a).
Definition flag (k : string) (a : Args) : bool := bcontains (lit k) (flags a).
Definition port (a : Args) : option Z := value "--port" a ≫= parse_uint u16_max.

Definition with_value (k v : str) (a : Args) : Args :=
  mkArgs (path a) (binsert k v (values a)) (flags a) (positionals a) (overrides a).
Definition with_flag (k : str) (a : Args) : Args :=
  mkArgs (path a) (values a) (binsert k tt (flags a)) (positionals a) (overrides a).
Definition with_positional (p : str) (a : Args) : Args :=
  mkArgs (path a) (values a) (flags a) (positionals a ++ [p]) (overrides a).
Definition with_overrides (o : CliOptions) (a : Args) : Args :=
  mkArgs (path a) (values a) (flags a) (positionals a) o.

Definition override_flag (normalized : str) : bool :=
  one_of normalized ["--override-script"; "--override-arg"; "--override-timeout-ms"].

(** [token.split_once('=')] *)
Definition split_token (token : str) : str * option str :=
  match split_once 61 token with Some (a, b) => (a, Some b) | None => (token, None) end.

Definition normalize (flag : str) : str :=
  if eq_str flag (lit "--config") then lit "-c"
  else if eq_str flag (lit "--follow") then lit "-f"
  else flag.

Definition takes_value (path normalized : str) : bool :=
  override_flag normalized ||
  (if eq_str normalized (lit "-c") then
     one_of path ["start"; "service start"; "service restart"; "service enable"; "restart"; "test"; "doctor"; "diag doctor";
                  "config dump"; "proxy list"; "proxy select"; "proxy test"; "profile list"; "profile select"; "profile test"]
   else if eq_str normalized (lit "--port") then
     one_of path ["start"; "restart"; "test"; "proxy test"; "profile test"; "service start"; "service restart"; "service enable"]
   else if eq_str normalized (lit "-n") then one_of path ["log"; "config download"]
   else if eq_str normalized (lit "--apply") then eq_str path (lit "config update")
   else if one_of normalized ["-g"; "-p"] then ends_with (lit " select") path
   else false).

Definition missing_code (path normalized : str) : str :=
  if eq_str normalized (lit "-c") && one_of path ["start"; "restart"] then lit "START_CONFIG_PATH_REQUIRED"
  else if eq_str normalized (lit "--port") && one_of path ["start"; "restart"] then lit "START_PORT_REQUIRED"
  else if eq_str normalized (lit "-n") && eq_str path (lit "config download") then lit "CONFIG_DOWNLOAD_NAME_REQUIRED"
  else if eq_str normalized (lit "--override-script") then lit "OVERRIDE_SCRIPT_NOT_FOUND"
  else if eq_str normalized (lit "--override-arg") then lit "OVERRIDE_OUTPUT_INVALID"
  else if eq_str normalized (lit "--override-timeout-ms") then lit "OVERRIDE_SCRIPT_TIMEOUT"
  else argument_code path.

(** [value.parse::<u16>().ok().filter(|n| *n != 0)] of digits only. *)
Definition port_ok (v : str) : bool :=
  is_some_and (parse_uint u16_max v) (λ n, negb (n =? 0)) && forallb is_ascii_digit v.

Definition lines_ok (v : str) : bool := is_some (parse_uint u64_max v) && forallb is_ascii_digit v.

(** The [match] on an option with its value. *)
Definition take_value (path normalized v : str) (a : Args) : result Failure Args :=
  if eq_str normalized (lit "--port") then
    if port_ok v then Ok (with_value normalized v a)
    else Err (usage (if one_of path ["start"; "restart"] then lit "START_PORT_INVALID" else argument_code path) path)
  else if eq_str normalized (lit "-n") && eq_str path (lit "log") then
    if lines_ok v then Ok (with_value normalized v a) else Err (usage (lit "LOG_ARGUMENT_INVALID") path)
  else if eq_str normalized (lit "--apply") && negb (one_of v ["auto"; "hot"; "restart"]) then
    Err (usage (lit "CONFIG_UPDATE_APPLY_INVALID") path)
  else if eq_str normalized (lit "--override-script") then
    let o := overrides a in Ok (with_overrides (mkOptions (Some v) (timeout_ms o) (args o)) a)
  else if eq_str normalized (lit "--override-arg") then
    let! x := map_err (λ _, usage (lit "OVERRIDE_OUTPUT_INVALID") path) (parse_arg v) in
    let o := overrides a in Ok (with_overrides (mkOptions (script_path o) (timeout_ms o) (args o ++ [x])) a)
  else if eq_str normalized (lit "--override-timeout-ms") then
    let! t := map_err (λ _, usage (lit "OVERRIDE_SCRIPT_TIMEOUT") path) (parse_timeout_ms v) in
    let o := overrides a in Ok (with_overrides (mkOptions (script_path o) t (args o)) a)
  else Ok (with_value normalized v a).

Definition boolean (path normalized : str) : bool :=
  if eq_str normalized (lit "--foreground") then eq_str path (lit "start")
  else if one_of normalized ["-f"; "--no-follow"] then eq_str path (lit "log")
  else if eq_str normalized (lit "-d") then eq_str path (lit "config download")
  else if eq_str normalized (lit "--clear") then eq_str path (lit "config override")
  else if eq_str normalized (lit "--no-override") then eq_str path (lit "config dump")
  else false.

Definition dashed (token : str) : bool := starts_with [45] token.

(** [value.filter(|v| !v.is_empty())] *)
Definition nonempty (v : option str) : option str := if bool_decide (v = Some []) then None else v.

(** The loop over the tokens. *)
Fixpoint parse_tokens (tokens : list str) (a : Args) : result Failure Args :=
  let path := path a in
  match tokens with
  | [] => Ok a
  | token :: rest =>
      let '(flag, inline) := split_token token in
      let normalized := normalize flag in
      if one_of normalized ["--json"; "--no-color"] && negb (is_some inline) then parse_tokens rest (with_flag normalized a)
      else if one_of normalized ["--override-dump-yaml"; "--override-dump-json"]
      then Err (usage (lit "OVERRIDE_OPTION_DEPRECATED") path)
      else if override_flag normalized && (starts_with (lit "connection ") path || starts_with (lit "service ") path)
      then Err (usage (argument_code path) path)
      else if takes_value path normalized then
        let missing := usage (missing_code path normalized) path in
        match inline, rest with
        | Some v, _ =>
            let! v := ok_or (nonempty (Some v)) missing in
            let! a := take_value path normalized v a in parse_tokens rest a
        | None, v :: rest =>
            let! v := ok_or (nonempty (if dashed v then None else Some v)) missing in
            let! a := take_value path normalized v a in parse_tokens rest a
        | None, [] => Err missing
        end
      else if boolean path normalized && negb (is_some inline) then parse_tokens rest (with_flag normalized a)
      else if negb (dashed token) then parse_tokens rest (with_positional token a)
      else Err (usage (argument_code path) path)
  end.

(** The least and the greatest number of operands, and the code when there are too few. *)
Definition arity (path : str) : nat * nat * string :=
  if eq_str path (lit "connection close") then (1, 1, "CONNECTION_CLOSE_ID_REQUIRED"%string)%nat
  else if eq_str path (lit "config load") then (1, 1, "CONFIG_LOAD_PATH_REQUIRED"%string)%nat
  else if eq_str path (lit "config download") then (1, 1, "CONFIG_DOWNLOAD_URL_REQUIRED"%string)%nat
  else if eq_str path (lit "config use") then (1, 1, "CONFIG_USE_NAME_REQUIRED"%string)%nat
  else if eq_str path (lit "config delete") then (1, 1, "CONFIG_DELETE_NAME_REQUIRED"%string)%nat
  else if one_of path ["config update"; "config override"] then (0, 1, ""%string)%nat
  else (0, 0, ""%string)%nat.

Definition check_operands (a : Args) : result Failure Args :=
  let path := path a in
  let '(min, max, missing) := arity path in
  if (length (positionals a) <? min)%nat then Err (usage (lit missing) path)
  else if (max <? length (positionals a))%nat || (flag "--clear" a && negb (bool_decide (positionals a = [])))
  then Err (usage (argument_code path) path)
  else if eq_str path (lit "connection close") && negb (is_some (positionals a !! 0%nat ≫= Registry.split_id))
  then Err (usage (lit "CONNECTION_CLOSE_ARGUMENT_INVALID") path)
  else Ok a.

Definition parse (path : str) (tokens : list str) : result Failure Args :=
  let! a := parse_tokens tokens (mkArgs path [] [] [] default_options) in check_operands a.

(** ** From the command line to a command *)

Definition nl : str := [10].

Section Run.
Context (version : str) (render_long_help : str → str → str) (to_string : Value → str) (lower : str → str).

(** [render_long_help usage after] is clap's page with this usage line and this appendix. *)
Definition help (topic : str) : result Failure str :=
  if bool_decide (topic = []) then
    let names := filter (λ p, negb (contains_byte 32 p)) (lit <$> COMMANDS.*1) in
    Ok (lit "zc " ++ version ++ lit " — proxy runtime" ++ nl ++ nl ++ lit "Usage: zc <command> [options]" ++ nl ++ nl ++
        lit "Commands:" ++ nl ++ join nl ((λ p, lit "  " ++ p) <$> names) ++ nl ++
        join nl (lit <$> ["  config"; "  proxy"; "  profile"; "  diag"; "  connection"; "  service"; "  help"; "";
          "Aliases: up = start, down = stop, ls = list"; ""; "Options:"; "  --json        Machine-readable output";
          "  --no-color    Disable ANSI colors"; ""; "Examples:"; "  zc help start"; ""]%string))
  else if group topic then
    let items := filter (λ c, starts_with (topic ++ [32]) (lit c.1)) COMMANDS in
    Ok (lit "Usage: zc " ++ topic ++ lit " <subcommand> [options]" ++ nl ++ nl ++ lit "Subcommands:" ++ nl ++
        join nl ((λ c, lit "  " ++ lit c.1 ++ [32] ++ lit c.2) <$> items) ++ nl ++ nl ++
        lit "Options:" ++ nl ++ lit "  --json" ++ nl ++ nl ++ lit "Examples:" ++ nl ++ lit "  zc help " ++ topic ++ nl)
  else
    let! '(p, args) := ok_or (List.find (λ c, eq_str topic (lit c.1)) COMMANDS) (usage (lit "HELP_TOPIC_UNKNOWN") []) in
    let overrides :=
      if one_of topic ["start"; "restart"; "config dump"] then
        nl ++ join nl (lit <$> ["  --override-script <path>"; "  --override-arg <key=value>"; "  --override-timeout-ms <n>"]%string)
      else [] in
    Ok (render_long_help
          (lit "zc " ++ lit p ++ [32] ++ lit args ++ lit " [--json]")
          (lit "Options:" ++ nl ++ lit "  " ++ lit args ++ nl ++ lit "  --json" ++ nl ++ lit "  --no-color" ++ overrides ++ nl ++ nl ++
           lit "Aliases: up = start, down = stop, ls = list" ++ nl ++ nl ++ lit "Examples:" ++ nl ++ lit "  zc " ++ lit p ++ lit " --help")).

(** What a command line asks for: a text, an action of the service manager, or a command. *)
Inductive Plan :=
| Show (text : str)
| Service (action : str) (a : Args)
| Dispatch (a : Args).

Definition global_flag (t : str) : bool := one_of t ["--json"; "--no-color"].
Definition help_flag (t : str) : bool := one_of t ["-h"; "--help"].

(** [zc help]: the topic of the remaining tokens. *)
Definition help_topic (tokens : list str) : result Failure str :=
  match filter (λ t, negb (global_flag t)) tokens with
  | [] => Ok []
  | [one] => Ok (canonical one)
  | [one; two] => Ok (canonical one ++ [32] ++ sub_alias two)
  | _ => Err (usage (lit "HELP_TOPIC_UNKNOWN") [])
  end.

(** Once the name of the command and the tokens after it are known. *)
Definition plan_command (command : str) (rest : list str) : result Failure Plan :=
  if negb (known command) then
    Err (failure (lit "COMMAND_UNKNOWN") (lit "unknown command") (lit "use `zc help` to list supported commands") 1)
  else if is_some_and (head rest) (λ t, eq_str t (lit "help")) || existsb help_flag rest then
    let! text := help command in Ok (Show text)
  else
    let! a := parse command rest in
    match strip_prefix (lit "service ") (path a) with
    | Some action => Ok (Service action a)
    | None => Ok (Dispatch a)
    end.

(** A command of a group: [family] and the tokens after it. *)
Definition plan_group (family : str) (rest : list str) : str * result Failure Plan :=
  match rest with
  | sub :: rest =>
      if one_of sub ["help"; "-h"; "--help"; "--json"; "--no-color"] then
        (family, if eq_str family (lit "diag") && negb (one_of sub ["help"; "-h"; "--help"])
                 then Err (usage (lit "DIAG_SUBCOMMAND_MISSING") (lit "diag"))
                 else let! text := help family in Ok (Show text))
      else
        let command := family ++ [32] ++ sub_alias sub in
        (command, if known command then plan_command command rest
                  else Err (usage (to_uppercase family ++ lit "_SUBCOMMAND_UNKNOWN") family))
  | [] => (family, let! text := help family in Ok (Show text))
  end.

(** The block of [run_with_services] up to the call of the command: the command's name, as the
    answer will carry it, and what to do. *)
Definition plan (tokens : list str) : str * result Failure Plan :=
  match tokens with
  | [] => ([], Err (usage (lit "COMMAND_UNKNOWN") []))
  | first :: rest =>
      if help_flag first then ([], let! text := help [] in Ok (Show text))
      else if eq_str first (lit "help") then
        (lit "help", let! topic := help_topic rest in let! text := help topic in Ok (Show text))
      else
        let command := canonical first in
        if one_of command ["connection"; "service"] && is_some_and (head rest) global_flag &&
           existsb (λ t, negb (global_flag t)) rest && negb (existsb help_flag rest)
        then (command, Err (usage (to_uppercase command ++ lit "_ARGUMENT_INVALID") command))
        else if group command then plan_group command rest
        else (command, plan_command command rest)
  end.

End Run.

(** ** From the outcome of a command to the answer *)

(** What a command gives: data, a text of its own, or nothing to say. *)
Inductive Output :=
| Data (v : Value)
| Raw (text : str)
| Silent.

(** An [anyhow::Error]: the [Failure] it downcasts to, if any, and its causes from the
    outermost. *)
Record Error := mkError { failed : option Failure; chain : list str }.

Definition usage_error (f : Failure) : Error := mkError (Some f) [f_code f ++ lit ": " ++ f_message f].

(** [format!("{error:#}")] *)
Definition alternate (e : Error) : str := join (lit ": ") (chain e).

Fixpoint without_nulls (v : Value) : Value :=
  match v with
  | VObject fields =>
      VObject ((fix go (fs : list (str * Value)) :=
                  match fs with
                  | [] => []
                  | (k, VNull) :: fs => go fs
                  | (k, v) :: fs => (k, without_nulls v) :: go fs
                  end) fields)
  | VArray vs => VArray (without_nulls <$> vs)
  | v => v
  end.

(** [c.encode_utf16] *)
Definition encode_utf16 (c : Z) : list Z :=
  if c <? 65536 then [c] else [55296 + (c - 65536) / 1024; 56320 + (c - 65536) mod 1024].

Definition escape_unit (u : Z) : str := 92 :: 117 :: pad_left 4 48 (print_hex u).

(** What [ascii_json] makes of one character. *)
Definition ascii_char (c : Z) : str := if is_ascii c then [c] else flat_map escape_unit (encode_utf16 c).

Definition ascii_text (text : str) : str := flat_map ascii_char (chars text).

(** Control characters and those that reorder or hide text. *)
Definition unsafe_char (c : Z) : bool :=
  is_control c || (c =? 1564) || in_range 8206 8207 c || in_range 8232 8238 c || in_range 8294 8297 c || (c =? 65279).

(** [char::escape_default] *)
Definition escape_default (c : Z) : str :=
  if c =? 9 then [92; 116]
  else if c =? 13 then [92; 114]
  else if c =? 10 then [92; 110]
  else if one_of [c] ["'"; "\"]%string || (c =? 34) then [92; c]
  else if in_range 32 126 c then [c]
  else 92 :: 117 :: 123 :: print_hex c ++ [125].

Definition safe_text (text : str) : str :=
  flat_map (λ c, if unsafe_char c then escape_default c else encode1 c) (chars text).

Section Answer.
Context (version : str) (to_string : Value → str) (lower : str → str).

Definition ascii_json (v : Value) : str := ascii_text (to_string v).

(** *** Errors *)

Definition default_code (command : str) : str :=
  if eq_str command (lit "start") then lit "START_FAILED"
  else if eq_str command (lit "restart") then lit "RESTART_FAILED"
  else if eq_str command (lit "reload") then lit "RELOAD_FAILED"
  else if eq_str command (lit "stop") then lit "STOP_FAILED"
  else if eq_str command (lit "status") then lit "STATUS_FAILED"
  else if eq_str command (lit "log") then lit "LOG_FAILED"
  else if one_of command ["doctor"; "diag doctor"] then lit "DIAG_DOCTOR_FAILED"
  else if one_of command ["test"; "proxy test"; "profile test"] then lit "PROXY_TEST_FAILED"
  else if one_of command ["proxy select"; "profile select"] then lit "PROXY_SELECT_FAILED"
  else if one_of command ["proxy list"; "profile list"] then lit "PROXY_CONFIG_LOAD_FAILED"
  else if eq_str command (lit "config use") then lit "CONFIG_SWITCH_FAILED"
  else if eq_str command (lit "config override") then lit "CONFIG_OVERRIDE_FAILED"
  else if eq_str command (lit "config dump") then lit "CONFIG_DUMP_FAILED"
  else if eq_str command (lit "config load") then lit "CONFIG_LOAD_FAILED"
  else if eq_str command (lit "config list") then lit "CONFIG_LIST_FAILED"
  else if eq_str command (lit "config update") then lit "CONFIG_UPDATE_FAILED"
  else if eq_str command (lit "config download") then lit "CONFIG_DOWNLOAD_FAILED"
  else if eq_str command (lit "config delete") then lit "CONFIG_DELETE_FAILED"
  else if starts_with (lit "service ") command then lit "SERVICE_FAILED"
  else lit "COMMAND_UNKNOWN".

(** The first cause that starts with a code and a colon. *)
Fixpoint find_code (accept : str → bool) (causes : list str) : option str :=
  match causes with
  | [] => None
  | cause :: causes =>
      match split_once 58 cause with
      | Some (code, _) => if accept code then Some code else find_code accept causes
      | None => find_code accept causes
      end
  end.

Definition code_like (code : str) : bool := contains_byte 95 code && forallb (λ b, is_ascii_upper b || (b =? 95)) code.

Definition connection_text (code : str) : string * string :=
  if eq_str code (lit "CONNECTION_NOT_RUNNING") then
    ("daemon is not running", "start the daemon with an explicitly prepared configuration first")
  else if eq_str code (lit "CONNECTION_CONTROLLER_REQUIRED") then
    ("running configuration has no controller",
     "configure external-controller, then explicitly reprepare with `zc restart -c <config>`; managed profiles supply a secret, unmanaged files also need a nonempty secret; default restart reuses the frozen snapshot")
  else if eq_str code (lit "CONNECTION_SECRET_REQUIRED") then
    ("running configuration requires a nonempty secret",
     "for a managed profile, explicitly reprepare with `zc restart -c <profile>` to enable its automatic secret; unmanaged files need a nonempty secret first; default restart reuses the frozen snapshot")
  else if eq_str code (lit "CONNECTION_UNAUTHORIZED") then
    ("connection access was denied", "verify the running instance and its frozen secret; do not share credentials")
  else if eq_str code (lit "CONNECTION_INSTANCE_CHANGED") then
    ("daemon instance changed or could not be verified",
     "run `zc connection list` again and use an ID from the current instance")
  else if eq_str code (lit "CONNECTION_NOT_FOUND") then
    ("connection no longer exists", "run `zc connection list` to inspect current connections")
  else if eq_str code (lit "CONNECTION_RESPONSE_INVALID") then
    ("controller response was invalid or exceeded 4 MiB",
     "verify the controller version and reduce oversized rule or proxy metadata")
  else ("connection operation failed", "check `zc status` and the configured controller; no new listener is started")%string.

Definition connection_failure (e : Error) : Failure :=
  let code := default (lit "CONNECTION_FAILED") (find_code (starts_with (lit "CONNECTION_")) (chain e)) in
  let '(message, hint) := connection_text code in failure code (lit message) (lit hint) 1.

Definition has (text : str) (word : string) : bool := contains_sub (lit word) text.

(** What [start] and [restart] refine of a code. *)
Definition start_code (command text : str) (code : str) : str :=
  let prefix := to_uppercase command in
  let code :=
    if has text "external-controller must" then prefix ++ lit "_EXTERNAL_CONTROLLER_INVALID"
    else if has text "bind-address must" || has text "non-loopback bind-address" then prefix ++ lit "_BIND_ADDRESS_INVALID"
    else if has text "unsupported" || has text "supported classic AEAD" || has text "proxy-group must be select"
    then lit "CONFIG_CAPABILITY_UNSUPPORTED"
    else if eq_str code (default_code command) && (has text "invalid configuration" || has text "configuration must be")
    then prefix ++ lit "_PREFLIGHT_FAILED"
    else code in
  let code := if has text "previous snapshot restored" then lit "RESTART_FAILED_ROLLED_BACK" else code in
  if has text "rollback failed" then lit "RESTART_ROLLBACK_FAILED" else code.

(** What the commands that take in a configuration refine. *)
Definition import_code (command text : str) (code : str) : str :=
  let prefix := to_uppercase (replace_byte 32 95 command) in
  let lower := lower text in
  if has lower "limit exceeded" || has text "LimitExceeded" || has text "AssetTooLarge" ||
     (has lower "provider" && (has lower "too large" || has lower "byte limit"))
  then prefix ++ lit "_LIMIT_EXCEEDED"
  else if has text "SourceTooLarge" || has lower "16 mib" then prefix ++ lit "_TOO_LARGE"
  else if eq_str command (lit "config load") && (has lower "invalid configuration" || has lower "utf-8" || has lower "yaml")
  then lit "CONFIG_LOAD_INVALID"
  else if eq_str command (lit "config update") && has text "Conflict" then lit "CONFIG_UPDATE_CONFLICT"
  else code.

Definition error_code (command : str) (e : Error) : str :=
  let text := alternate e in
  let default_ := default_code command in
  let code := default default_ (find_code code_like (chain e)) in
  let code := if starts_with (lit "RUNTIME_") code then default_ else code in
  let code := if one_of command ["start"; "restart"] then start_code command text code else code in
  let code := if eq_str command (lit "config override") && eq_str code (lit "OVERRIDE_SCRIPT_NOT_FOUND")
              then lit "CONFIG_OVERRIDE_SCRIPT_NOT_FOUND" else code in
  let code := if has text "ProfileNotFound" then lit "CONFIG_NOT_FOUND" else code in
  let code := if has text "ProfileNotRuntimeReady" || has text "UnsupportedCapability:"
              then lit "CONFIG_CAPABILITY_UNSUPPORTED" else code in
  let code := match strip_prefix (lit "START_") code with
              | Some rest => if eq_str command (lit "restart") then lit "RESTART_" ++ rest else code
              | None => code
              end in
  if one_of command ["config load"; "config download"; "config update"] then import_code command text code else code.

Definition hint_of (command code : str) : string :=
  if eq_str code (lit "CONFIG_CAPABILITY_UNSUPPORTED") then
    (if eq_str command (lit "config update") then "repair the subscription source and retry `zc config update`"
     else "retry download without -d; inspect `zc config dump -c <name> --no-override`, then repair the subscription source")
  else if one_of code ["START_CONFIG_NOT_SELECTED"; "RESTART_CONFIG_NOT_SELECTED"] then
    "run `zc config list`, then `zc config use <name>`"
  else if eq_str code (lit "SERVICE_OWNED") then
    "use `zc service start/stop/restart`; explicit `-c` reprepares a service configuration"
  else if eq_str code (lit "SERVICE_MANUAL_INSTANCE") then
    "confirm the exact manual runtime, stop it with its original command, then run `zc service start -c <config> --port <port>`"
  else if one_of code ["SERVICE_FOREIGN"; "SERVICE_STATE_INVALID"] then
    "retain the registration, unit and snapshot; inspect ownership and restore a verified backup instead of deleting state"
  else if eq_str code (lit "SERVICE_TARGET_MISMATCH") then
    "use the registered executable, HOME and XDG_RUNTIME_DIR; do not switch namespace to bypass the check"
  else if one_of code ["SERVICE_MANAGER_FAILED"; "SERVICE_MANAGER_UNAVAILABLE"] then
    "check the current user's login session and service-manager access; no sudo or linger is needed"
  else if eq_str code (lit "CONFIG_NAME_INVALID") then "use 1-250 UTF-8 bytes, excluding slashes, controls, . and .."
  else if eq_str code (lit "CONFIG_ALREADY_EXISTS") then "choose another name or run `zc config update`"
  else if eq_str code (lit "CONFIG_NOT_FOUND") then "run `zc config list` and pick an existing config name"
  else "check the configuration and permissions; use `zc help` and `zc log --no-follow` for next steps"%string.

Definition message_of (command code text : str) : str :=
  if eq_str code (lit "CONFIG_NAME_INVALID") then lit "invalid config name"
  else if one_of command ["config download"; "config update"]
  then command ++ lit " failed; source or authoritative state was not accepted"
  else text.

Definition map_error (command : str) (e : Error) : Failure :=
  match failed e with
  | Some f => f
  | None =>
      if starts_with (lit "connection ") command then connection_failure e
      else
        let code := error_code command e in
        failure code (message_of command code (alternate e)) (lit (hint_of command code)) 1
  end.

(** *** Text for people *)

(** [data[key]], its text, and whether it is [true]. *)
Definition text_or (default_ key : string) (v : Value) : str := default (lit default_) (as_str (index key v)).
Definition is_true (key : string) (v : Value) : bool := is_bool (index key v) true.
Definition items (key : string) (v : Value) : option (list Value) := as_array (index key v).

Definition line (parts : list str) : str := mjoin parts ++ nl.

Definition yes_no (b : bool) : str := if b then lit "yes" else lit "no".

Definition render_service (data : Value) : str :=
  flat_map (λ c, line [lit c.1; lit ": "; yes_no (is_true c.2 data)])
    [("Registered", "registered"); ("Loaded", "loaded"); ("Running", "running"); ("Login autostart", "enabled")]%string ++
  match as_u64 (index "pid" data) with Some n => line [lit "PID: "; print_dec n] | None => [] end ++
  match as_u64 (index "mixed_port" data) with Some n => line [lit "Port: "; print_dec n] | None => [] end.

Definition is_object (v : Value) : bool := is_some (as_object v).

Definition target_text (name : string) (entry : Value) : str :=
  let t := index name entry in
  if is_object t then safe_text (text_or "-" "host" t) ++ lit ":" ++ to_string (index "port" t) else lit "-".

Definition object_text (name : string) (entry : Value) : str :=
  let v := index name entry in if is_object v then safe_text (to_string v) else lit "-".

Definition connection_line (entry : Value) : str :=
  let field name := safe_text (text_or "-" name entry) in
  let gap := lit "  " in let slash := lit "/" in
  line [field "id"; gap; field "source"; gap; field "protocol"; slash; field "phase"; gap; field "inbound"; gap;
        target_text "target" entry; gap; target_text "routed_target" entry; gap; object_text "rule" entry; gap;
        object_text "proxy" entry; gap; field "datagram_source"; slash; field "target_scope"]%string.

Definition render_connections (data : Value) : str :=
  line [lit "ID  SOURCE  PROTOCOL/PHASE  INBOUND  TARGET  ROUTED TARGET  RULE  LEAF  DATAGRAM SOURCE/SCOPE"] ++
  match items "connections" data with
  | Some entries => flat_map connection_line entries ++ (if bool_decide (entries = []) then line [lit "(no active connections)"] else [])
  | None => []
  end.

Definition render_configs (data : Value) : str :=
  line [lit "Available configs:"; nl] ++
  match items "configs" data with
  | Some configs =>
      flat_map (λ item, line [lit "  "; if is_true "active" item then lit "*" else lit " "; lit " ";
                              safe_text (text_or "" "display" item); lit " (ID: "; safe_text (text_or "" "name" item); lit ")"]) configs ++
      (if bool_decide (configs = []) then line [lit "  (no config files found)"] else [])
  | None => []
  end.

Definition render_group (g : Value) : str :=
  line [safe_text (text_or "" "name" g); lit " ("; text_or "select" "type" g; lit ") -> "; safe_text (text_or "(none)" "now" g)] ++
  flat_map (λ m, line [lit "  "; safe_text (text_or "" "name" m)]) (default [] (items "proxies" g)).

Definition render_selected (data : Value) : str :=
  let applied := is_true "applied" data in
  line [if applied then lit "Applied" else lit "Saved"; lit ": "; safe_text (text_or "" "group" data); lit " -> ";
        safe_text (text_or "" "proxy" data)] ++
  (if applied then [] else
     line [lit "Live apply: not confirmed ("; text_or "runtime_unverifiable" "apply_reason" data; lit ")"] ++
     line [lit "Hint: "; safe_text (text_or "" "apply_hint" data)]) ++
  (if is_true "durability_uncertain" data
   then line [lit "Warning: selection is visible, but crash durability is uncertain."] else []) ++
  (if is_true "mirror_out_of_sync" data
   then line [lit "Warning: compatibility mirror is out of sync; the catalog remains authoritative."] else []).

(** [data.get(key).map(Value::to_string).unwrap_or("(none)")] *)
Definition shown (key : string) (data : Value) : str :=
  match get key data with Some v => to_string v | None => lit "(none)" end.

Definition render_status (data : Value) : str :=
  line [lit "Daemon: "; text_or "stopped" "state" data] ++
  line [lit "PID: "; shown "pid" data] ++
  line [lit "Mixed port: "; shown "mixed_port" data] ++
  (if is_text (index "state" data) "running" && negb (is_true "runtime_state_available" data)
   then line [lit "Selected proxies: (unavailable)"]
   else match items "selected_proxies" data with
        | Some (s :: ss) =>
            line [lit "Selected proxies:"] ++
            flat_map (λ s, line [lit "  "; safe_text (text_or "" "group" s); lit " -> "; safe_text (text_or "" "proxy" s)]) (s :: ss)
        | _ => line [lit "Selected proxies: (none)"]
        end).

Definition render_text (command : str) (data : Value) : str :=
  if starts_with (lit "service ") command then render_service data
  else if eq_str command (lit "version") then line [lit "zc "; version]
  else if eq_str command (lit "connection list") then render_connections data
  else if eq_str command (lit "connection close") then
    line [lit "Close requested: "; safe_text (text_or "-" "id" data); lit " (closing)"]
  else if eq_str command (lit "config list") then render_configs data
  else if one_of command ["config use"; "config load"] then
    line [lit "Config is active; run `zc reload` or `zc restart` to apply it"]
  else if one_of command ["proxy list"; "profile list"] then flat_map render_group (default [] (items "groups" data))
  else if one_of command ["proxy select"; "profile select"] then render_selected data
  else if eq_str command (lit "status") then render_status data
  else if one_of command ["doctor"; "diag doctor"; "test"; "proxy test"; "profile test"] then []
  else line [command; lit ": "; ascii_json data].

(** *** The answer *)

(** What is printed, provided that printing works, and the exit code of the process. *)
Record Answer := mkAnswer { stdout : str; stderr : str; exit : Z }.

(** What a command prints itself while it runs, on stdout and on stderr: reports of the
    doctor and of tests, dumps, dialogues, warnings. *)
Definition Printed : Type := str * str.

(** An answer printed after that. *)
Definition after (own : Printed) (a : Answer) : Answer := mkAnswer (fst own ++ stdout a) (snd own ++ stderr a) (exit a).

(** [value[key] = v] on an object. *)
Definition set_field (key : string) (v value : Value) : Value :=
  match value with VObject fields => VObject (binsert (lit key) v fields) | value => value end.

Definition envelope (command : str) (f : Failure) : Value :=
  let error := Registry.object [(lit "code", VString (f_code f)); (lit "message", VString (f_message f)); (lit "hint", VString (f_hint f))] in
  let answer := Registry.object [(lit "ok", VBool false); (lit "command", VString command); (lit "error", error)] in
  without_nulls (match f_data f with Some data => set_field "data" data answer | None => answer end).

Definition success (command : str) (data : Value) : Value :=
  Registry.object [(lit "ok", VBool true); (lit "command", VString command); (lit "data", data)].

(** The stopped port stays an explicit null. *)
Definition answer_data (command : str) (data : Value) : Value :=
  let data := without_nulls data in
  if eq_str command (lit "status") && is_text (index "state" data) "stopped" then set_field "mixed_port" VNull data else data.

Definition render_failure (command : str) (f : Failure) : str :=
  (if bool_decide (command = []) then line [lit "Usage: zc <command> [options]"] else []) ++
  line [lit "error: "; safe_text (f_message f); nl; lit "hint: "; safe_text (f_hint f); nl; lit "code: "; f_code f] ++
  flat_map (λ error, line [lit "  "; safe_text (default (lit "invalid configuration") (as_str error))])
    (default [] (f_data f ≫= items "config_errors")).

(** The last [match] of [run_with_services]. *)
Definition respond (command : str) (json : bool) (r : result Error Output) : Answer :=
  match r with
  | Ok (Raw text) => mkAnswer text [] 0
  | Ok Silent => mkAnswer [] [] 0
  | Ok (Data data) =>
      let data := answer_data command data in
      mkAnswer (if json then ascii_json (success command data) ++ nl else render_text command data) [] 0
  | Err error =>
      let f := map_error command error in
      if json then mkAnswer (ascii_json (envelope command f) ++ nl) [] (f_exit f)
      else mkAnswer [] (render_failure command f) (f_exit f)
  end.

End Answer.

(** [run_with_services]: [perform] does what was asked, printing what it prints. *)
Definition run (version : str) (render_long_help : str → str → str) (to_string : Value → str) (lower : str → str)
  (perform : Plan → Printed * result Error Output) (tokens : list str) : Answer :=
  let json := existsb (λ t, eq_str t (lit "--json")) tokens in
  let '(command, asked) := plan version render_long_help tokens in
  let '(own, result) :=
    match asked with
    | Ok (Show text) => ([], [], Ok (Raw text))
    | Ok asked => perform asked
    | Err f => ([], [], Err (usage_error f))
    end in
  after own (respond version to_string lower command json result).

End Cli.

(** * Choosing a proxy (src/src/cli/selection.rs)

    A page of choices, a line of input, and so on until something is chosen. The terminal is
    the text printed so far and what the next writes do. *)
Module Selection.
Import Cli.

(** A fault is a write that fails after so many bytes. *)
Record Terminal := mkTerminal { output : str; faults : list (option nat) }.

(** How it can end without an answer; a slice or an index out of bounds is a panic. *)
Inductive Stop := WriteFailed | InvalidLine | Panic.

Abbreviation T := (SE Terminal Stop).

(** One [write!] or [flush]. *)
Definition emit (text : str) : T unit := λ t,
  match faults t with
  | Some n :: fs => (mkTerminal (output t ++ take n text) fs, Err WriteFailed)
  | None :: fs => (mkTerminal (output t ++ text) fs, Ok tt)
  | [] => (mkTerminal (output t ++ text) [], Ok tt)
  end.

(** What [read_line] finds, call after call. *)
Definition read_lines (bytes : str) : list str :=
  let pieces := split_byte 10 bytes in
  ((λ p, p ++ [10]) <$> take (pred (length pieces)) pieces) ++
  (if bool_decide (List.last pieces [] = []) then [] else [List.last pieces []]).

Definition PAGE_SIZE : nat := 15.

Section Choose.
Context (lower : str → str) (choices : list str) (current : option str).

Definition pages (matches : list nat) : nat := Nat.max 1 ((length matches + 14) / 15).

(** [matches[start..(start + PAGE_SIZE).min(matches.len())]] *)
Definition visible (matches : list nat) (page : nat) : option (list nat) :=
  let start := (page * PAGE_SIZE)%nat in
  if (length matches <? start)%nat then None else Some (take PAGE_SIZE (drop start matches)).

Definition choice_line (index : nat) (name : str) : str :=
  line [[if bool_decide (current = Some name) then 42 else 32]; lit " "; print_dec (Z.of_nat index + 1); lit ": "; safe_text name].

Fixpoint show_choices (indices : list nat) : T unit :=
  match indices with
  | [] => sret tt
  | index :: indices =>
      match choices !! index with
      | Some name => do! _ := emit (choice_line index name) in show_choices indices
      | None => serr Panic
      end
  end.

(** Everything printed before a line is read. *)
Definition show_page (matches shown : list nat) (page : nat) : T unit :=
  do! _ := emit (line [lit "Page "; print_dec (Z.of_nat page + 1); lit "/"; print_dec (Z.of_nat (pages matches)); lit " (";
                       print_dec (len matches); lit " matches)"]) in
  do! _ := show_choices shown in
  do! _ := (if bool_decide (matches = []) then emit (line [lit "No matches. Try /text or / to clear."]) else sret tt) in
  do! _ := emit (lit "Select: ") in
  emit [].

Definition search (query : str) : list nat :=
  filter (λ i, is_some_and (choices !! i) (λ name, contains_sub (lower query) (lower name))) (seq 0 (length choices)).

(** [command.parse::<usize>().ok().and_then(|n| n.checked_sub(1)).filter(|i| visible.contains(i))] *)
Definition number_in (shown : list nat) (command : str) : option nat :=
  parse_uint u64_max command ≫= λ n, List.find (λ i, Z.of_nat i + 1 =? n) shown.

(** The loop, on the lines that are left to be read. *)
Fixpoint rounds (lines : list str) (matches : list nat) (page : nat) : T (option str) :=
  match visible matches page with
  | None => serr Panic
  | Some shown =>
      do! _ := show_page matches shown page in
      match lines with
      | [] => sret None
      | l :: lines =>
          if negb (utf8_valid l) then serr InvalidLine
          else
            let command := trim l in
            if bool_decide (command = []) || eq_str command (lit "q") || eq_str command [27] then sret None
            else if eq_str command (lit "n") then rounds lines matches (Nat.min (S page) (pages matches - 1))
            else if eq_str command (lit "p") then rounds lines matches (pred page)
            else
              match strip_prefix [47] command with
              | Some query => rounds lines (search query) 0
              | None =>
                  match number_in shown command with
                  | Some index => match choices !! index with Some name => sret (Some name) | None => serr Panic end
                  | None => do! _ := emit (line [lit "Enter a number shown on this page."]) in rounds lines matches page
                  end
              end
      end
  end.

Definition choose (group : str) (bytes : str) : T (option str) :=
  do! _ := emit (line [lit "Group: "; safe_text group]) in
  do! _ := emit (line [lit "Profile selection (saved/default): "; match current with Some c => safe_text c | None => lit "(none)" end]) in
  do! _ := emit (line [lit "Enter a shown number, /text to search, / to clear, n/p for pages."]) in
  do! _ := emit (line [lit "Blank, q, Escape, or EOF cancels. * marks the profile selection, not live state."]) in
  rounds (read_lines bytes) (seq 0 (length choices)) 0.

End Choose.

End Selection.
