(* ===== verification/CliFacts.v ===== *)
(** * What command lines mean

    The parser's language: the arguments it can return, each with a command line that means
    it (module [CliFacts]). Choosing: only what is shown, and all of it (module [ChooseFacts]).
    Answers: one line of ASCII for programs, displayable text for people, exit codes, and
    messages that do not repeat what may be secret (module [AnswerFacts]). *)
From S2P Require Import Prelude Utf8 BTree Json Rules Connection Invocation InvocationFacts YamlText Cli.

Module CliFacts.
Import Invocation InvocationFacts Cli.

#[local] Arguments one_of : simpl never.
#[local] Arguments lit : simpl never.
#[local] Arguments strip_prefix : simpl never.

(** ** The arguments of a command *)

Definition value_ok (path k v : str) : bool :=
  takes_value path k && negb (override_flag k) && negb (bool_decide (v = [])) &&
  (if eq_str k (lit "--port") then port_ok v
   else if eq_str k (lit "-n") && eq_str path (lit "log") then lines_ok v
   else if eq_str k (lit "--apply") then one_of v ["auto"; "hot"; "restart"] else true).

Definition flag_ok (path f : str) : bool := one_of f ["--json"; "--no-color"] || boolean path f.

Definition no_overrides (path : str) : bool := starts_with (lit "connection ") path || starts_with (lit "service ") path.

Record operands_ok (path : str) (a : Args) : Prop := {
  op_least : (fst (fst (arity path)) ≤ length (positionals a))%nat;
  op_most : (length (positionals a) ≤ snd (fst (arity path)))%nat;
  op_clear : flag "--clear" a = true → positionals a = [];
  op_close : path = lit "connection close" → ∃ id, positionals a = [id] ∧ is_some (Registry.split_id id) = true;
}.

(** The arguments of [path] that the loop can build. *)
Record args_inv (p : str) (a : Args) : Prop := {
  in_path : path a = p;
  in_values : bmap_wf (values a);
  in_value : Forall (λ kv, value_ok p kv.1 kv.2 = true) (values a);
  in_flags : bmap_wf (flags a);
  in_flag : Forall (λ kv, flag_ok p kv.1 = true) (flags a);
  in_operands : Forall (λ t, dashed t = false) (positionals a);
  in_overrides : options_wf (overrides a);
  in_none : no_overrides p = true → overrides a = default_options;
}.

Definition args_wf (p : str) (a : Args) : Prop := args_inv p a ∧ operands_ok p a.

(** A command line for given arguments. *)
Definition render_overrides (o : CliOptions) : list str :=
  match script_path o with Some v => [lit "--override-script=" ++ v] | None => [] end ++
  ((λ x, lit "--override-arg=" ++ arg_key x ++ lit "=" ++ arg_value x) <$> args o) ++
  (if timeout_ms o =? TIMEOUT_MS_DEFAULT then [] else [lit "--override-timeout-ms=" ++ print_dec (timeout_ms o)]).

Definition render (a : Args) : list str :=
  keys (flags a) ++ ((λ kv, kv.1 ++ 61 :: kv.2) <$> values a) ++ render_overrides (overrides a) ++ positionals a.

(** ** Names of options *)

Lemma eq_lit a b : eq_str (lit a) (lit b) = String.eqb a b.
Proof.
  destruct (String.eqb_spec a b) as [->|H]; [apply eq_str_refl|]. apply eq_str_false. intros E. by apply lit_inj in E.
Qed.

(** Decides a condition on the name of an option, one of finitely many. *)
Lemma one_of_cases (P : str → Prop) s names : one_of s names = true → Forall (λ n, P (lit n)) names → P s.
Proof. intros H Hall. apply one_of_true in H as (n & Hn & ->). rewrite Forall_forall in Hall. by apply Hall. Qed.

Ltac by_name H := match type of H with one_of ?k _ = true => pattern k; refine (one_of_cases _ _ _ H _) end.

Definition value_names : list string := ["-c"; "--port"; "-n"; "--apply"; "-g"; "-p"].
Definition override_names : list string := ["--override-script"; "--override-arg"; "--override-timeout-ms"].
Definition boolean_names : list string := ["--foreground"; "-f"; "--no-follow"; "-d"; "--clear"; "--no-override"].

Lemma takes_value_name p k : takes_value p k = true → override_flag k = true ∨ one_of k value_names = true.
Proof.
  unfold takes_value. destruct (override_flag k) eqn:Ho; [by left|]. simpl. right. revert H.
  destruct (eq_str k (lit "-c")) eqn:E1; [by apply eq_str_true in E1 as ->|].
  destruct (eq_str k (lit "--port")) eqn:E2; [by apply eq_str_true in E2 as ->|].
  destruct (eq_str k (lit "-n")) eqn:E3; [by apply eq_str_true in E3 as ->|].
  destruct (eq_str k (lit "--apply")) eqn:E4; [by apply eq_str_true in E4 as ->|].
  destruct (one_of k ["-g"; "-p"]) eqn:E5; [|done]. intros _. by_name E5. by repeat constructor.
Qed.

Lemma boolean_name p k : boolean p k = true → one_of k boolean_names = true.
Proof.
  unfold boolean.
  destruct (eq_str k (lit "--foreground")) eqn:E1; [by apply eq_str_true in E1 as ->|].
  destruct (one_of k ["-f"; "--no-follow"]) eqn:E2; [intros _; by_name E2; by repeat constructor|].
  destruct (eq_str k (lit "-d")) eqn:E3; [by apply eq_str_true in E3 as ->|].
  destruct (eq_str k (lit "--clear")) eqn:E4; [by apply eq_str_true in E4 as ->|].
  by destruct (eq_str k (lit "--no-override")) eqn:E5; [apply eq_str_true in E5 as ->|].
Qed.

(** The names of options start with a dash, and none holds an equals sign or is an alias. *)
Definition plain_name (k : str) : Prop := dashed k = true ∧ split_token k = (k, None) ∧ normalize k = k ∧
  one_of k ["--override-dump-yaml"; "--override-dump-json"] = false.

Lemma plain_names k : one_of k (["--json"%string; "--no-color"%string] ++ value_names ++ override_names ++ boolean_names) = true → plain_name k.
Proof. intros H. by_name H. repeat constructor; vm_compute; reflexivity. Qed.

Lemma one_of_app s a b : one_of s (a ++ b) = one_of s a || one_of s b.
Proof. unfold one_of. by rewrite existsb_app. Qed.

Ltac off c H := destruct c eqn:H; [try done; exfalso; revert H|].

Lemma not_dashed_names s names : dashed s = false → Forall (λ n, dashed (lit n) = true) names → one_of s names = false.
Proof.
  intros Hs Hn. apply not_true_iff_false. intros H. apply one_of_true in H as (n & Hin & ->).
  rewrite Forall_forall in Hn. by rewrite Hn in Hs.
Qed.

Lemma dashed_cons c s : dashed (c :: s) = bool_decide (45 = c).
Proof. unfold dashed, starts_with. change (strip_prefix [45] (c :: s)) with (if 45 =? c then Some s else None). destruct (Z.eqb_spec 45 c); case_bool_decide; first [reflexivity|congruence]. Qed.

(** An operand is not an option, with or without a value behind an equals sign. *)
Lemma operand_not_option p t : dashed t = false →
  let n := normalize (split_token t).1 in
  one_of n ["--json"; "--no-color"] = false ∧ one_of n ["--override-dump-yaml"; "--override-dump-json"] = false ∧
  override_flag n = false ∧ takes_value p n = false ∧ boolean p n = false.
Proof.
  intros Ht n. assert (dashed n = false) as Hn.
  { assert (dashed (split_token t).1 = false) as Hs.
    { unfold split_token. destruct (split_once 61 t) as [[a b]|] eqn:E; [|done]. apply split_once_Some in E as [-> _]. simpl.
      destruct a as [|c a]; [done|]. change ((c :: a) ++ 61 :: b) with (c :: (a ++ 61 :: b)) in Ht. rewrite dashed_cons in Ht. by rewrite dashed_cons. }
    unfold n, normalize. destruct (eq_str _ (lit "--config")) eqn:E1; [by apply eq_str_true in E1; rewrite E1 in Hs|].
    by destruct (eq_str _ (lit "--follow")) eqn:E2; [apply eq_str_true in E2; rewrite E2 in Hs|]. }
  assert (override_flag n = false) as Ho by (apply not_dashed_names; [done|by repeat constructor]).
  split_and!; [apply not_dashed_names; [done|by repeat constructor]..|done| |].
  - apply not_true_iff_false. intros H. apply takes_value_name in H as [H|H]; [congruence|].
    rewrite not_dashed_names in H; [done..|by repeat constructor].
  - apply not_true_iff_false. intros H. apply boolean_name in H.
    rewrite not_dashed_names in H; [done..|by repeat constructor].
Qed.

(** ** What the loop builds *)

Lemma inv_flag p f a : flag_ok p f = true → args_inv p a → args_inv p (with_flag f a).
Proof.
  intros Hf []. split; try done; simpl; [by apply binsert_wf|].
  apply Forall_forall. intros x Hx. apply elem_of_binsert in Hx as [->|Hx]; [done|]. by rewrite Forall_forall in in_flag0; apply in_flag0.
Qed.

Lemma inv_operand p t a : dashed t = false → args_inv p a → args_inv p (with_positional t a).
Proof. intros Ht []. split; try done. simpl. apply Forall_app. by split; [|constructor]. Qed.

Lemma inv_value p k v a : value_ok p k v = true → args_inv p a → args_inv p (with_value k v a).
Proof.
  intros Hf []. split; try done; simpl; [by apply binsert_wf|].
  apply Forall_forall. intros x Hx. apply elem_of_binsert in Hx as [->|Hx]; [done|]. by rewrite Forall_forall in in_value0; apply in_value0.
Qed.

(** An override option means what it means when it is forwarded to a child. *)
Lemma take_override p k v a : override_flag k = true → v ≠ [] →
  match set_option k v (overrides a) with
  | Ok o => take_value p k v a = Ok (with_overrides o a)
  | Err _ => is_ok (take_value p k v a) = false
  end.
Proof.
  intros H Hv. revert H. unfold override_flag. intros H. by_name H.
  repeat constructor; unfold set_option, take_value; rewrite !eq_lit; simpl.
  - by rewrite bool_decide_eq_false_2.
  - by destruct (parse_arg v).
  - by destruct (parse_timeout_ms v).
Qed.

Lemma take_plain p k v a : takes_value p k = true → override_flag k = false → v ≠ [] →
  if value_ok p k v then take_value p k v a = Ok (with_value k v a) else is_ok (take_value p k v a) = false.
Proof.
  intros Ht Ho Hv. unfold value_ok. rewrite Ht, Ho, bool_decide_eq_false_2 by done. cbn [negb andb].
  destruct (takes_value_name _ _ Ht) as [H|H]; [congruence|]. clear Ht Ho. by_name H.
  repeat constructor; unfold take_value; rewrite !eq_lit; simpl; try reflexivity.
  - by destruct (port_ok v).
  - by destruct (eq_str p (lit "log")); [destruct (lines_ok v)|].
  - by destruct (one_of v _).
Qed.

Lemma inv_take p k v a a' : takes_value p k = true → (override_flag k = true → no_overrides p = false) → v ≠ [] →
  take_value p k v a = Ok a' → args_inv p a → args_inv p a'.
Proof.
  intros Ht Hn Hv Hok Ha. destruct (override_flag k) eqn:Ho.
  - pose proof (take_override p k v a Ho Hv) as H. destruct (set_option k v (overrides a)) as [o|e] eqn:E; [|by rewrite Hok in H].
    rewrite Hok in H. injection H as ->. destruct Ha. split; try done; simpl; [by eapply set_option_wf|].
    rewrite Hn by done. done.
  - pose proof (take_plain p k v a Ht Ho Hv) as H. destruct (value_ok p k v) eqn:E; [|by rewrite Hok in H].
    rewrite Hok in H. injection H as ->. by apply inv_value.
Qed.

Lemma nonempty_Some v x : nonempty v = Some x → v = Some x ∧ x ≠ [].
Proof. unfold nonempty. case_bool_decide; [done|]. intros ->. split; [done|]. by intros ->. Qed.

Lemma parse_tokens_inv p tokens a a' : args_inv p a → parse_tokens tokens a = Ok a' → args_inv p a'.
Proof.
  remember (length tokens) as n eqn:Hn. assert (length tokens ≤ n)%nat as Hle by lia. clear Hn. revert tokens a Hle.
  induction n as [|n IH]; intros [|token rest] a Hle Ha; simpl in *; try lia; [by intros [= <-]..|].
  destruct (split_token token) as [f inline] eqn:Es. rewrite (in_path _ _ Ha). set (k := normalize f).
  destruct (one_of k ["--json"; "--no-color"] && _) eqn:E1.
  { apply andb_prop in E1 as [E1 _]. apply IH; [lia|]. apply inv_flag; [|done]. unfold flag_ok. by rewrite E1. }
  destruct (one_of k ["--override-dump-yaml"; "--override-dump-json"]); [done|]. destruct (override_flag k && _) eqn:E2; [done|].
  destruct (takes_value p k) eqn:Et.
  { assert (override_flag k = true → no_overrides p = false) as Hno by (intros Ho; by rewrite Ho in E2).
    destruct inline as [v|]; [|destruct rest as [|v rest]; [done|]]; simpl in Hle |- *.
    1: destruct (nonempty (Some v)) as [x|] eqn:Ev; [|done].
    2: destruct (nonempty (if dashed v then None else Some v)) as [x|] eqn:Ev; [|done].
    all: apply nonempty_Some in Ev as [_ Hx]; simpl; destruct (take_value p k x a) as [a1|] eqn:E; [|done].
    all: apply IH; [lia|by eapply inv_take]. }
  destruct (boolean p k && _) eqn:Eb.
  { apply andb_prop in Eb as [Eb _]. apply IH; [lia|]. apply inv_flag; [|done]. unfold flag_ok. by rewrite Eb, orb_true_r. }
  destruct (dashed token) eqn:Ed; [done|]. simpl. apply IH; [lia|]. by apply inv_operand.
Qed.

Lemma check_operands_Ok a a' : check_operands a = Ok a' ↔ a' = a ∧ operands_ok (path a) a.
Proof.
  unfold check_operands. destruct (arity (path a)) as [[least most] missing] eqn:Ea.
  destruct (Nat.ltb_spec (length (positionals a)) least) as [H1|H1].
  { split; [done|]. intros [_ []]. rewrite Ea in *. simpl in *. lia. }
  destruct (Nat.ltb_spec most (length (positionals a))) as [H2|H2].
  { split; [done|]. intros [_ []]. rewrite Ea in *. simpl in *. lia. }
  simpl. destruct (flag "--clear" a && _) eqn:E3.
  { split; [done|]. intros [_ []]. apply andb_prop in E3 as [Hc Hp]. apply negb_true_iff, bool_decide_eq_false in Hp. by destruct Hp; apply op_clear0. }
  destruct (eq_str (path a) (lit "connection close") && _) eqn:E4.
  { split; [done|]. intros [_ []]. apply andb_prop in E4 as [Hc Hp]. apply eq_str_true in Hc.
    destruct (op_close0 Hc) as (id & E & Hid). rewrite E in Hp. simpl in Hp. by rewrite Hid in Hp. }
  split; [|by intros [-> _]]. intros [= <-]. split; [done|]. split; rewrite ?Ea; simpl; [lia..| |].
  - intros Hc. rewrite Hc in E3. by apply negb_false_iff, bool_decide_eq_true in E3.
  - intros Hc. rewrite Hc, eq_str_refl in E4. apply negb_false_iff in E4.
    rewrite Hc in Ea. injection Ea as <- <- <-. destruct (positionals a) as [|id [|? ?]]; simpl in *; [done| |lia]. by exists id.
Qed.

(** ** A command line that means given arguments *)

Lemma no_overrides_other p k : override_flag k && no_overrides p = false →
  override_flag k && (starts_with (lit "connection ") p || starts_with (lit "service ") p) = false.
Proof. done. Qed.

Lemma split_name k v : 61 ∉ k → split_token (k ++ 61 :: v) = (k, Some v).
Proof. intros H. unfold split_token. by rewrite (proj2 (split_once_Some 61 _ k v)). Qed.

Lemma name_no_equals k : split_token k = (k, None) → 61 ∉ k.
Proof. unfold split_token. destruct (split_once 61 k) as [[a b]|] eqn:E; [done|]. intros _. by apply split_once_None. Qed.

Lemma flag_plain p f : flag_ok p f = true → plain_name f ∧ takes_value p f = false ∧ override_flag f = false.
Proof.
  intros H. assert (one_of f ["--json"; "--no-color"] = true ∨ one_of f boolean_names = true) as Hf.
  { unfold flag_ok in H. apply orb_prop in H as [H|H]; [by left|right; by eapply boolean_name]. }
  split; [apply plain_names; rewrite !one_of_app; destruct Hf as [->| ->]; by rewrite ?orb_true_r|].
  clear H. destruct Hf as [H|H]; by_name H; repeat constructor; split_and?; try reflexivity;
    unfold takes_value; rewrite ?eq_lit; reflexivity.
Qed.

Lemma value_plain p k : takes_value p k = true →
  plain_name k ∧ one_of k ["--json"; "--no-color"] = false.
Proof.
  intros Ht. destruct (takes_value_name _ _ Ht) as [H|H].
  - split; [apply plain_names; rewrite !one_of_app; unfold override_flag in H; unfold override_names; rewrite H; by rewrite ?orb_true_r|].
    unfold override_flag in H. by_name H. by repeat constructor.
  - split; [apply plain_names; rewrite !one_of_app, H; by rewrite ?orb_true_r|]. by_name H. by repeat constructor.
Qed.

Lemma parse_flag_token p f rest a : path a = p → flag_ok p f = true →
  parse_tokens (f :: rest) a = parse_tokens rest (with_flag f a).
Proof.
  intros Hp Hf. destruct (flag_plain _ _ Hf) as ((_ & Hs & Hn & Hd) & Ht & Ho). cbn [parse_tokens]. rewrite Hs, Hn, Hp. simpl.
  unfold flag_ok in Hf. destruct (one_of f ["--json"; "--no-color"]); [done|]. simpl in *. by rewrite Hd, Ho, Ht, Hf.
Qed.

Lemma parse_value_token p k v rest a : path a = p → takes_value p k = true → v ≠ [] →
  (override_flag k = true → no_overrides p = false) →
  parse_tokens ((k ++ 61 :: v) :: rest) a = (let! a := take_value p k v a in parse_tokens rest a).
Proof.
  intros Hp Ht Hv Hno. destruct (value_plain _ _ Ht) as [(_ & Hs & Hn & Hd) Hj]. cbn [parse_tokens].
  rewrite (split_name k v) by (by apply name_no_equals). rewrite Hn, Hp, Hj, Hd, Ht. simpl.
  assert (override_flag k && (starts_with (lit "connection ") p || starts_with (lit "service ") p) = false) as ->.
  { destruct (override_flag k); [by apply Hno|done]. }
  unfold nonempty. rewrite bool_decide_eq_false_2 by congruence. done.
Qed.

Lemma parse_operand_token p t rest a : path a = p → dashed t = false →
  parse_tokens (t :: rest) a = parse_tokens rest (with_positional t a).
Proof.
  intros Hp Ht. destruct (operand_not_option p t Ht) as (H1 & H2 & H3 & H4 & H5). cbn [parse_tokens].
  destruct (split_token t) as [f inline]. simpl in *. by rewrite H1, H2, H3, Hp, H4, H5, Ht.
Qed.

Lemma parse_flags p fl done rest a : path a = p → flags a = done → bmap_wf (done ++ fl) →
  Forall (λ kv, flag_ok p kv.1 = true) fl →
  parse_tokens (keys fl ++ rest) a = parse_tokens rest (mkArgs p (values a) (done ++ fl) (positionals a) (overrides a)).
Proof.
  revert done a. induction fl as [|[f []] fl IH]; intros done a Hp Hd Hwf Hok.
  { subst. rewrite app_nil_r. by destruct a. }
  inversion Hok; subst. change (keys ((f, ()) :: fl) ++ rest) with (f :: (keys fl ++ rest)). rewrite (parse_flag_token (path a)) by done.
  rewrite (IH (flags a ++ [(f, ())])); [by rewrite <- app_assoc|done| |by rewrite <- app_assoc|done]. simpl. apply binsert_last.
  apply (bmap_wf_prefix _ fl). by rewrite <- app_assoc.
Qed.

Lemma parse_values p vs done rest a : path a = p → values a = done → bmap_wf (done ++ vs) →
  Forall (λ kv, value_ok p kv.1 kv.2 = true) vs →
  parse_tokens (((λ kv, kv.1 ++ 61 :: kv.2) <$> vs) ++ rest) a =
  parse_tokens rest (mkArgs p (done ++ vs) (flags a) (positionals a) (overrides a)).
Proof.
  revert done a. induction vs as [|[k v] vs IH]; intros done a Hp Hd Hwf Hok.
  { subst. rewrite app_nil_r. by destruct a. }
  inversion Hok as [|x y Hv Hok']; subst. cbn [fmap list_fmap app fst snd] in *.
  pose proof Hv as Hv'. unfold value_ok in Hv'. rewrite !andb_true_iff in Hv'. destruct Hv' as [[[Ht Ho] Hne] _].
  apply negb_true_iff in Ho, Hne. apply bool_decide_eq_false in Hne.
  rewrite (parse_value_token (path a)) by (done || congruence).
  pose proof (take_plain _ _ _ a Ht Ho Hne) as H. rewrite Hv in H. rewrite H.
  rewrite (IH (values a ++ [(k, v)])); [by rewrite <- app_assoc|done| |by rewrite <- app_assoc|done]. simpl. apply binsert_last.
  apply (bmap_wf_prefix _ vs). by rewrite <- app_assoc.
Qed.

Lemma parse_operands p ts rest a : path a = p → Forall (λ t, dashed t = false) ts →
  parse_tokens (ts ++ rest) a = parse_tokens rest (mkArgs p (values a) (flags a) (positionals a ++ ts) (overrides a)).
Proof.
  revert a. induction ts as [|t ts IH]; intros a Hp Hok; [rewrite app_nil_r; subst; by destruct a|].
  inversion Hok; subst. change ((t :: ts) ++ rest) with (t :: (ts ++ rest)). rewrite (parse_operand_token (path a)) by done. rewrite IH by done. simpl. by rewrite <- app_assoc.
Qed.

Lemma parse_override_token p k v o rest a : path a = p → one_of k override_names = true → v ≠ [] → no_overrides p = false →
  set_option k v (overrides a) = Ok o →
  parse_tokens ((k ++ 61 :: v) :: rest) a = parse_tokens rest (with_overrides o a).
Proof.
  intros Hp Hk Hv Hno Hset. rewrite (parse_value_token p) by (done || unfold takes_value, override_flag; unfold override_names in Hk; by rewrite Hk).
  pose proof (take_override p k v a Hk Hv) as H. rewrite Hset in H. by rewrite H.
Qed.

Lemma parse_override_args p as_ rest a : path a = p → no_overrides p = false → Forall arg_wf as_ →
  parse_tokens (((λ x, lit "--override-arg=" ++ arg_key x ++ lit "=" ++ arg_value x) <$> as_) ++ rest) a =
  parse_tokens rest (with_overrides (mkOptions (script_path (overrides a)) (timeout_ms (overrides a)) (args (overrides a) ++ as_)) a).
Proof.
  intros Hp Hno. revert a Hp. induction as_ as [|x as_ IH]; intros a Hp Hwf.
  { simpl. rewrite app_nil_r. by destruct a as [???? []]. }
  inversion Hwf; subst. cbn [fmap list_fmap app].
  change (lit "--override-arg=" ++ arg_key x ++ lit "=" ++ arg_value x)
    with (lit "--override-arg" ++ 61 :: (arg_key x ++ lit "=" ++ arg_value x)).
  rewrite (parse_override_token (path a) _ _ (mkOptions (script_path (overrides a)) (timeout_ms (overrides a)) (args (overrides a) ++ [x])));
    [|done|done|by destruct (arg_key x)|done|by apply set_arg].
  rewrite IH by done. simpl. by rewrite <- app_assoc.
Qed.

Lemma parse_overrides p o rest a : path a = p → overrides a = default_options → options_wf o →
  (no_overrides p = true → o = default_options) →
  parse_tokens (render_overrides o ++ rest) a = parse_tokens rest (with_overrides o a).
Proof.
  intros Hp Ha [H1 H2 H3] Hno. destruct (no_overrides p) eqn:En.
  { rewrite Hno by done. simpl. rewrite <- Ha. by destruct a. }
  unfold render_overrides. rewrite <- !app_assoc.
  transitivity (parse_tokens (((λ x, lit "--override-arg=" ++ arg_key x ++ lit "=" ++ arg_value x) <$> args o) ++
    ((if timeout_ms o =? TIMEOUT_MS_DEFAULT then [] else [lit "--override-timeout-ms=" ++ print_dec (timeout_ms o)]) ++ rest))
    (with_overrides (mkOptions (script_path o) TIMEOUT_MS_DEFAULT []) a)).
  { destruct (script_path o) as [v|] eqn:Es; [|change (mkOptions None TIMEOUT_MS_DEFAULT []) with default_options; rewrite <- Ha; by destruct a].
    change (lit "--override-script=" ++ v) with (lit "--override-script" ++ 61 :: v). rewrite <- app_comm_cons, app_nil_l.
    rewrite (parse_override_token p _ _ (mkOptions (Some v) TIMEOUT_MS_DEFAULT [])); [done|done|done|congruence|done|].
    rewrite set_script by congruence. by rewrite Ha. }
  rewrite (parse_override_args p) by done. unfold with_overrides. cbn [script_path timeout_ms args overrides path values flags positionals].
  destruct (Z.eqb_spec (timeout_ms o) TIMEOUT_MS_DEFAULT) as [E|_]; [destruct o; simpl in *; by subst|].
  change (lit "--override-timeout-ms=" ++ print_dec (timeout_ms o)) with (lit "--override-timeout-ms" ++ 61 :: print_dec (timeout_ms o)).
  match goal with |- context [[?x] ++ rest] => change ([x] ++ rest) with (x :: rest) end. rewrite (parse_override_token p _ _ o); [done|done|done| |done|].
  - unfold TIMEOUT_MS_MAX in H2. by destruct (print_dec_spec (timeout_ms o)) as (_ & H & _); [lia|].
  - rewrite set_timeout by done. by destruct o.
Qed.

Lemma parse_render p a : args_wf p a → parse p (render a) = Ok a.
Proof.
  intros [[Hp Hv Hvs Hf Hfs Hops Ho Hno] Hop]. unfold parse, render.
  rewrite (parse_flags p _ []) by done. simpl. rewrite (parse_values p _ []) by done. simpl.
  rewrite (parse_overrides p) by done. unfold with_overrides. simpl.
  rewrite <- (app_nil_r (positionals a)) at 1. rewrite (parse_operands p) by done. simpl.
  assert (mkArgs p (values a) (flags a) (positionals a) (overrides a) = a) as -> by (destruct a; simpl in *; by subst).
  apply check_operands_Ok. by rewrite Hp.
Qed.

Lemma parse_wf p tokens a : parse p tokens = Ok a → args_wf p a.
Proof.
  unfold parse. destruct (parse_tokens _ _) as [a'|] eqn:E; [|done]. intros H. apply check_operands_Ok in H as [-> Hop].
  apply (parse_tokens_inv p) in E; [|split; try done; constructor || apply default_options_wf]. split; [done|].
  by rewrite <- (in_path _ _ E).
Qed.

(** C21: the language of command lines, exactly. The arguments the parser can return for a
    command are those that are well-formed for it: options and flags that the command takes,
    each once, with a value where one is due, ports and line counts in range, override options
    within their limits and none for commands about connections and services, operands in the
    number the command takes and none that looks like an option. Each of them has a command
    line, which the parser reads back as exactly these arguments. *)
Theorem cli_args_exact p a :
  (args_wf p a ↔ ∃ tokens, parse p tokens = Ok a) ∧ (args_wf p a ↔ parse p (render a) = Ok a).
Proof.
  split; split.
  - intros H. exists (render a). by apply parse_render.
  - intros [tokens H]. by eapply parse_wf.
  - apply parse_render.
  - apply parse_wf.
Qed.

End CliFacts.

(** * Choosing a proxy *)
Module ChooseFacts.
Import Cli Selection.

(** ** What may be printed *)

Definition shown_char (c : Z) : Prop := c = 10 ∨ unsafe_char c = false.

(** Text that shows as it is written, line by line. *)
Definition displayable : str → Prop := text shown_char.

Lemma printable_shown b : 32 ≤ b < 127 → shown_char b.
Proof.
  intros H. right. unfold unsafe_char, is_control. rewrite !orb_false_iff, !in_range_false, !Z.eqb_neq. lia.
Qed.

Lemma displayable_lit s : forallb (λ b, (b =? 10) || ((32 <=? b) && (b <? 127))) (lit s) = true → displayable (lit s).
Proof.
  intros H. rewrite forallb_forall in H. apply text_ascii; apply Forall_forall; intros b Hb; apply list_elem_of_In, H in Hb.
  - cbv beta in Hb. lia.
  - cbv beta in Hb. destruct (decide (b = 10)) as [E|E]; [by left|]. apply printable_shown. lia.
Qed.

Lemma displayable_ascii s : Forall (λ b, 32 ≤ b < 127) s → displayable s.
Proof.
  intros H. apply text_ascii; [eapply Forall_impl; [exact H|simpl; lia]|]. eapply Forall_impl; [exact H|]. apply printable_shown.
Qed.

Lemma displayable_app a b : displayable a → displayable b → displayable (a ++ b).
Proof. apply text_app. Qed.

Lemma displayable_join ss : Forall displayable ss → displayable (mjoin ss).
Proof. induction 1; [apply text_nil|]. rewrite mjoin_cons. by apply displayable_app. Qed.

Lemma displayable_line ss : Forall displayable ss → displayable (line ss).
Proof. intros H. apply displayable_app; [by apply displayable_join|]. exists [10]. split; [done|]. constructor; [by left|done]. Qed.

Lemma displayable_dec n : 0 ≤ n → displayable (print_dec n).
Proof.
  intros Hn. apply displayable_ascii. destruct (print_dec_spec n Hn) as (H & _). apply Forall_forall. intros b Hb.
  rewrite forallb_forall in H. apply list_elem_of_In, H in Hb. unfold is_ascii_digit in Hb. lia.
Qed.

Lemma scalar_nonneg c : scalar c = true → 0 ≤ c.
Proof. unfold scalar. rewrite orb_true_iff, !in_range_true. lia. Qed.

Lemma displayable_escape c : 0 ≤ c → displayable (escape_default c).
Proof.
  intros Hc. unfold escape_default. repeat match goal with |- displayable (if ?b then _ else _) => destruct b eqn:? end;
    try (apply displayable_ascii; repeat constructor; lia).
  - apply orb_prop in Heqb2. apply displayable_ascii. constructor; [lia|]. constructor; [|constructor].
    destruct Heqb2 as [H|H%Z.eqb_eq]; [|lia]. apply Rules.one_of_true in H as (n & Hn & Hl).
    rewrite !elem_of_cons in Hn. destruct Hn as [->|[->|Hn]]; [injection Hl as ->; lia..|]. by apply not_elem_of_nil in Hn.
  - apply in_range_true in Heqb3. apply displayable_ascii. repeat constructor; lia.
  - apply displayable_ascii. repeat (constructor; [lia|]). apply Forall_app. split; [|by repeat constructor; lia].
    eapply Forall_impl; [by apply YamlText.print_hex_digits|]. simpl. lia.
Qed.

Lemma safe_text_displayable s : displayable (safe_text s).
Proof.
  unfold safe_text. pose proof (chars_scalar s) as H. induction (chars s) as [|c cs IH]; [apply text_nil|]. simpl in *.
  apply andb_prop in H as [Hc Hcs]. apply displayable_app; [|by apply IH].
  destruct (unsafe_char c) eqn:E; [by apply displayable_escape, scalar_nonneg|].
  exists [c]. split; [|constructor; [by right|done]].
  pose proof (utf8_roundtrip [c]) as Hr. unfold utf8_encode in Hr. simpl in Hr. rewrite app_nil_r in Hr. apply Hr. by rewrite Hc.
Qed.

(** ** What an operation prints *)

(** Started anywhere, [m] prints displayable text, [s] in all when it ends without a failing
    write; its answer satisfies [P s], it does not panic, and it stops at an unreadable line
    only if [U]. *)
Definition prints {A} (U : Prop) (m : T A) (P : str → A → Prop) : Prop := ∀ t,
  let '(t', r) := m t in
  ∃ s cut, output t' = output t ++ s ∧ displayable (s ++ cut) ∧ faults t' `suffix_of` faults t ∧
    match r with
    | Ok a => cut = [] ∧ P s a
    | Err WriteFailed => Exists is_Some (faults t)
    | Err InvalidLine => U
    | Err Panic => False
    end.

Lemma prints_ret {A} U (a : A) (P : str → A → Prop) : P [] a → prints U (sret a) P.
Proof. intros H t. exists [], []. split_and!; [by rewrite app_nil_r|apply text_nil|done|done|done]. Qed.

Lemma prints_bind {A B} U (m : T A) (k : A → T B) P Q :
  prints U m P → (∀ s a, P s a → prints U (k a) (λ s' b, Q (s ++ s') b)) → prints U (sbind m k) Q.
Proof.
  intros Hm Hk t. unfold sbind. specialize (Hm t). destruct (m t) as [t1 [a|e]].
  - destruct Hm as (s & cut & Ho & Hd & Hf & -> & HP). rewrite app_nil_r in Hd. specialize (Hk s a HP t1).
    destruct (k a t1) as [t2 r]. destruct Hk as (s2 & cut2 & Ho2 & Hd2 & Hf2 & Hr). exists (s ++ s2), cut2.
    split_and!; [by rewrite Ho2, Ho, app_assoc|rewrite <- app_assoc; by apply displayable_app|by etransitivity|].
    destruct r as [b|[]]; try done. destruct Hf as [x ->]. apply Exists_app. by right.
  - destruct Hm as (s & cut & Ho & Hd & Hf & Hr). exists s, cut. by split_and!.
Qed.

Lemma prints_weaken {A} U (m : T A) (P Q : str → A → Prop) : prints U m P → (∀ s a, P s a → Q s a) → prints U m Q.
Proof.
  intros Hm H t. specialize (Hm t). destruct (m t) as [t' [a|e]]; [|done].
  destruct Hm as (s & cut & ? & ? & ? & ? & ?). exists s, cut. split_and!; auto.
Qed.

Lemma prints_emit U text (P : str → unit → Prop) : displayable text → P text tt → prints U (emit text) P.
Proof.
  intros Hd HP [o fs]. unfold emit. destruct fs as [|[n|] fs]; simpl.
  - exists text, []. rewrite app_nil_r. by split_and!.
  - exists (take n text), (drop n text). rewrite take_drop. split_and!; [done|done|by exists [Some n]|by constructor].
  - exists text, []. rewrite app_nil_r. split_and!; [done|done|by exists [None]|done|done].
Qed.

(** One operation after another, when only the last one's answer matters. *)
Lemma prints_then {B} U (m : T unit) (k : T B) Q :
  prints U m (λ _ _, True) → (∀ s, prints U k (λ s' b, Q (s ++ s') b)) → prints U (sbind m (λ _, k)) Q.
Proof. intros Hm Hk. eapply prints_bind; [exact Hm|]. intros s [] _. apply Hk. Qed.

(** ** A page *)

Section Choose.
Context (lower : str → str) (choices : list str) (current : option str) (U : Prop).

Definition valid (indices : list nat) : Prop := Forall (λ i, is_Some (choices !! i)) indices.

(** Every choice among [indices] is printed with its number. *)
Definition listed (indices : list nat) (s : str) : Prop :=
  ∀ i name, i ∈ indices → choices !! i = Some name → ∃ x y, s = x ++ choice_line current i name ++ y.

Lemma listed_app_l indices s x : listed indices s → listed indices (x ++ s).
Proof. intros H i name Hi Hn. destruct (H i name Hi Hn) as (a & b & ->). exists (x ++ a), b. by rewrite !app_assoc. Qed.

Lemma listed_app_r indices s x : listed indices s → listed indices (s ++ x).
Proof. intros H i name Hi Hn. destruct (H i name Hi Hn) as (a & b & ->). exists a, (b ++ x). by rewrite <- !app_assoc. Qed.

Lemma choice_line_displayable i name : displayable (choice_line current i name).
Proof.
  apply displayable_line. repeat constructor; [by case_bool_decide; apply displayable_ascii; repeat constructor|by apply displayable_lit| |
    by apply displayable_lit|apply safe_text_displayable]. apply displayable_dec. lia.
Qed.

Lemma prints_choices indices : valid indices → prints U (show_choices choices current indices) (λ s _, listed indices s).
Proof.
  induction 1 as [|i indices [name Hi] _ IH]; simpl; [apply prints_ret; by intros ? ? ?%not_elem_of_nil|]. rewrite Hi.
  eapply prints_bind; [apply prints_emit with (P := λ s _, s = choice_line current i name); [apply choice_line_displayable|done]|].
  intros s [] ->. eapply prints_weaken; [exact IH|]. intros s2 [] H2 j n Hj Hn. apply elem_of_cons in Hj as [->|Hj].
  - simplify_eq. exists [], s2. done.
  - by eapply listed_app_l.
Qed.

Lemma prints_page matches shown page : valid shown → prints U (show_page choices current matches shown page) (λ s _, listed shown s).
Proof.
  intros Hv. apply prints_then.
  { apply prints_emit; [|done]. apply displayable_line. repeat constructor; try (by apply displayable_lit); apply displayable_dec; unfold len; lia. }
  intros s1. eapply prints_bind; [by apply prints_choices|]. intros s2 [] H2. apply prints_then.
  { case_bool_decide; [|by apply prints_ret]. apply prints_emit; [|done]. apply displayable_line. constructor; [by apply displayable_lit|done]. }
  intros s3. apply prints_then; [apply prints_emit; [by apply displayable_lit|done]|]. intros s4.
  apply prints_emit; [apply text_nil|]. rewrite app_nil_r. apply listed_app_l. by apply listed_app_r.
Qed.

(** ** The loop *)

Lemma number_valid shown command i : number_in shown command = Some i → i ∈ shown.
Proof.
  unfold number_in. destruct (parse_uint _ _) as [n|]; [|done]. simpl. intros H. apply find_some in H as [H _].
  by apply list_elem_of_In.
Qed.

Lemma valid_all : valid (seq 0 (length choices)).
Proof. apply Forall_forall. intros i Hi. apply elem_of_seq in Hi. apply lookup_lt_is_Some. lia. Qed.

Lemma valid_search query : valid (search lower choices query).
Proof. apply Forall_forall. intros i Hi. apply list_elem_of_filter in Hi as [_ Hi]. pose proof valid_all as H. unfold valid in H. rewrite Forall_forall in H. by apply H. Qed.

Lemma visible_Some matches page : valid matches → (page < pages matches)%nat →
  ∃ shown, visible matches page = Some shown ∧ valid shown.
Proof.
  intros Hv Hp. unfold visible, PAGE_SIZE, pages in *.
  assert (page * 15 ≤ length matches)%nat as Hle.
  { pose proof (Nat.div_mod (length matches + 14) 15 ltac:(lia)). pose proof (Nat.mod_upper_bound (length matches + 14) 15 ltac:(lia)). lia. }
  rewrite (proj2 (Nat.ltb_ge _ _)) by lia. eexists. split; [done|]. by apply Forall_take, Forall_drop.
Qed.

(** Whatever is read, a name that is returned was listed before. *)
Definition chosen (s : str) (r : option str) : Prop := ∀ name, r = Some name →
  ∃ i x y, choices !! i = Some name ∧ s = x ++ choice_line current i name ++ y.

Lemma chosen_app x s r : chosen s r → chosen (x ++ s) r.
Proof. intros H name Hr. destruct (H name Hr) as (i & a & b & Hi & ->). exists i, (x ++ a), b. by rewrite !app_assoc. Qed.

Lemma prints_rounds lines matches page : (Exists (λ l, utf8_valid l = false) lines → U) → valid matches → (page < pages matches)%nat →
  prints U (rounds lower choices current lines matches page) chosen.
Proof.
  revert matches page. induction lines as [|l lines IH]; intros matches page HU Hv Hp; cbn [rounds];
    destruct (visible_Some matches page Hv Hp) as (shown & -> & Hs).
  all: eapply prints_bind; [by apply prints_page|]; intros s [] Hl.
  { by apply prints_ret. }
  destruct (utf8_valid l) eqn:El; cbn [negb].
  2:{ intros t. exists [], []. split_and!; [by rewrite app_nil_r|apply text_nil|done|]. apply HU. by left. }
  assert (∀ x m p, valid m → (p < pages m)%nat → prints U (rounds lower choices current lines m p) (λ s' r, chosen (x ++ s') r)) as Hnext.
  { intros x m p Hm Hpm. eapply prints_weaken; [apply IH; [intros H; apply HU; by right|done|done]|]. intros s' r. apply chosen_app. }
  destruct (bool_decide _ || _ || _); [by apply prints_ret|].
  destruct (eq_str _ (lit "n")); [apply Hnext; [done|lia]|]. destruct (eq_str _ (lit "p")); [apply Hnext; [done|lia]|].
  destruct (strip_prefix [47] _) as [query|]; [apply Hnext; [apply valid_search|unfold pages; lia]|].
  destruct (number_in shown _) as [i|] eqn:En.
  - apply number_valid in En. unfold valid in Hs. rewrite Forall_forall in Hs. destruct (Hs i En) as [name Hi]. rewrite Hi.
    apply prints_ret. intros n [= <-]. rewrite app_nil_r. destruct (Hl i name En Hi) as (x & y & E). by exists i, x, y.
  - apply prints_then; [apply prints_emit; [|done]; apply displayable_line; constructor; [by apply displayable_lit|done]|].
    intros s2. eapply prints_weaken; [by apply (Hnext (s ++ s2))|]. intros s' r. by rewrite app_assoc.
Qed.

Lemma prints_choose group bytes : (Exists (λ l, utf8_valid l = false) (read_lines bytes) → U) →
  prints U (choose lower choices current group bytes) chosen.
Proof.
  intros HU. unfold choose.
  assert (∀ ss, Forall displayable ss → ∀ k, prints U k chosen → prints U (do! _ := emit (line ss) in k) chosen) as Hemit.
  { intros ss Hss k Hk. apply prints_then; [by apply prints_emit; [apply displayable_line|]|].
    intros s. eapply prints_weaken; [exact Hk|]. intros s' r. apply chosen_app. }
  apply Hemit; [repeat constructor; [by apply displayable_lit|apply safe_text_displayable]|].
  apply Hemit; [repeat constructor; [by apply displayable_lit|destruct current; [apply safe_text_displayable|by apply displayable_lit]]|].
  apply Hemit; [constructor; [by apply displayable_lit|done]|]. apply Hemit; [constructor; [by apply displayable_lit|done]|].
  apply prints_rounds; [done|apply valid_all|unfold pages; lia].
Qed.

End Choose.

(** ** Every choice can be reached *)

Section Reach.
Context (lower : str → str) (choices : list str) (current : option str).

Definition all : list nat := seq 0 (length choices).

Lemma page_ok matches shown page t : valid choices shown → faults t = [] →
  ∃ t', show_page choices current matches shown page t = (t', Ok tt) ∧ faults t' = [].
Proof.
  intros Hs Ht. pose proof (prints_page choices current False matches shown page Hs t) as H.
  destruct (show_page _ _ _ _ _ t) as [t' [[]|[]]]; destruct H as (s & cut & _ & _ & [x Hf] & H); rewrite Ht in *; try done.
  - exists t'. split; [done|]. symmetry in Hf. by apply app_nil in Hf as [_ ?].
  - by inversion H.
Qed.

Lemma all_visible page i : (page * 15 ≤ i < page * 15 + 15)%nat → (i < length choices)%nat →
  ∃ shown, visible all page = Some shown ∧ valid choices shown ∧ i ∈ shown.
Proof.
  intros Hi Hl. destruct (visible_Some choices all page) as (shown & Hv & Hs); [apply valid_all| |].
  { unfold pages, all. rewrite length_seq. assert (page < (length choices + 14) / 15)%nat; [|lia].
    apply (Nat.lt_le_trans _ (S page)); [lia|]. apply Nat.div_le_lower_bound; lia. }
  exists shown. split; [done|]. split; [done|]. unfold visible, PAGE_SIZE in Hv. destruct (_ <? _)%nat; [done|]. injection Hv as <-.
  apply list_elem_of_lookup. exists (i - page * 15)%nat. rewrite lookup_take_lt by lia. rewrite lookup_drop. unfold all.
  rewrite lookup_seq. lia.
Qed.

Lemma number_found shown i : Z.of_nat i < u64_max → i ∈ shown → number_in shown (print_dec (Z.of_nat i + 1)) = Some i.
Proof.
  intros Hi Hin. unfold number_in. rewrite parse_print_dec by lia. simpl.
  destruct (List.find _ shown) as [j|] eqn:E.
  - apply find_some in E as [_ E]. f_equal. lia.
  - exfalso. apply list_elem_of_In in Hin. eapply find_none in E; [|exact Hin]. simpl in E. lia.
Qed.

(** A line that holds a number. *)
Lemma number_line n : 0 ≤ n → utf8_valid (print_dec n ++ [10]) = true ∧ trim (print_dec n ++ [10]) = print_dec n.
Proof.
  intros Hn. destruct (print_dec_spec n Hn) as (Hd & Hne & _). set (s := print_dec n) in *. clearbody s.
  assert (Forall (λ b, 48 ≤ b ≤ 57) s) as Hs.
  { apply Forall_forall. intros b Hb. rewrite forallb_forall in Hd. apply list_elem_of_In, Hd in Hb. unfold is_ascii_digit in Hb. lia. }
  assert (Forall (λ b, 0 ≤ b < 128) (s ++ [10])) as Ha.
  { apply Forall_app. split; [eapply Forall_impl; [exact Hs|simpl; lia]|by repeat constructor]. }
  assert (utf8_decode (s ++ [10]) = Some (s ++ [10])) as E.
  { rewrite <- (encode_ascii (s ++ [10])) at 1 by done. apply utf8_roundtrip. apply forallb_forall. intros b Hb.
    apply list_elem_of_In in Hb. rewrite Forall_forall in Ha. specialize (Ha b Hb). unfold scalar. apply orb_true_iff. left. apply in_range_true. lia. }
  split; [unfold utf8_valid; by rewrite E|]. unfold trim, chars. rewrite E. simpl.
  assert (∀ b, b ∈ s → is_whitespace b = false) as Hw.
  { intros b Hb. rewrite Forall_forall in Hs. specialize (Hs b Hb). unfold is_whitespace. rewrite !orb_false_iff, !in_range_false, !Z.eqb_neq. lia. }
  assert (trim_by is_whitespace (s ++ [10]) = s) as ->.
  { unfold trim_by, trim_end_by. rewrite (InvocationFacts.trim_start_by_id is_whitespace (s ++ [10])).
    - rewrite reverse_app. simpl. rewrite InvocationFacts.trim_start_by_id; [apply reverse_involutive|]. intros b r Hr. apply Hw.
      rewrite <- elem_of_reverse, Hr. by left.
    - intros b r Hr. destruct s as [|c s]; [done|]. injection Hr as -> _. apply Hw. by left. }
  apply encode_ascii. eapply Forall_impl; [exact Hs|simpl; lia].
Qed.

(** From page [page], [k] times to the next one and then the number. *)
Lemma reach k page t i name : choices !! i = Some name → Z.of_nat i < u64_max → faults t = [] →
  ((page + k) * 15 ≤ i < (page + k) * 15 + 15)%nat →
  (rounds lower choices current (replicate k (lit "n" ++ [10]) ++ [print_dec (Z.of_nat i + 1) ++ [10]]) all page t).2 = Ok (Some name).
Proof.
  intros Hi Hu. assert (i < length choices)%nat as Hl by by eapply lookup_lt_Some.
  revert page t. induction k as [|k IH]; intros page t Ht Hp; cbn [replicate app rounds].
  - destruct (all_visible page i) as (shown & -> & Hs & Hin); [lia|done|]. unfold sbind.
    destruct (page_ok all shown page t Hs Ht) as (t' & -> & Ht').
    destruct (number_line (Z.of_nat i + 1)) as [Hv Htr]; [lia|]. rewrite Hv, Htr. cbn [negb].
    destruct (print_dec_spec (Z.of_nat i + 1)) as (Hd & Hne & _); [lia|].
    pose proof (number_found shown i Hu Hin) as Hn. destruct (print_dec _) as [|b s] eqn:Ep; [done|]. cbn [forallb] in Hd.
    apply andb_prop in Hd as [Hb _]. unfold is_ascii_digit in Hb.
    assert (∀ c r, c < 48 ∨ 57 < c → eq_str (b :: s) (c :: r) = false) as Hneq.
    { intros c r Hc. apply eq_str_false. intros [= -> _]. lia. }
    rewrite bool_decide_eq_false_2 by done. change (lit "q") with [113]. change (lit "n") with [110]. change (lit "p") with [112].
    rewrite !Hneq by lia. cbn [orb strip_prefix]. destruct (Z.eqb_spec 47 b); [lia|]. by rewrite Hn, Hi.
  - set (j := ((page * 15))%nat).
    destruct (all_visible page j) as (shown & -> & Hs & _); [lia|lia|]. unfold sbind.
    destruct (page_ok all shown page t Hs Ht) as (t' & -> & Ht').
    change (utf8_valid (lit "n" ++ [10])) with true. change (trim (lit "n" ++ [10])) with (lit "n"). cbn [negb].
    assert (bool_decide (lit "n" = []) || eq_str (lit "n") (lit "q") || eq_str (lit "n") [27] = false) as -> by reflexivity.
    rewrite eq_str_refl.
    assert (Nat.min (S page) (pages all - 1) = S page) as ->.
    { unfold pages, all. rewrite length_seq. assert (S (S page) ≤ (length choices + 14) / 15)%nat; [|lia]. apply Nat.div_le_lower_bound; lia. }
    apply IH; [done|lia].
Qed.

End Reach.

Lemma read_lines_cons x s : 10 ∉ x → read_lines (x ++ 10 :: s) = (x ++ [10]) :: read_lines s.
Proof.
  intros Hx. unfold read_lines. rewrite split_byte_app by done. pose proof (split_byte_ne 10 s) as Hne.
  destruct (split_byte 10 s) as [|p ps]; [done|]. by destruct ps.
Qed.

Lemma read_lines_pages k x : 10 ∉ x →
  read_lines (mjoin (replicate k (lit "n" ++ [10])) ++ x ++ [10]) = replicate k (lit "n" ++ [10]) ++ [x ++ [10]].
Proof.
  intros Hx. induction k as [|k IH].
  - simpl. rewrite read_lines_cons by done. reflexivity.
  - change (mjoin (replicate (S k) (lit "n" ++ [10])) ++ x ++ [10])
      with ([110] ++ 10 :: (mjoin (replicate k (lit "n" ++ [10])) ++ x ++ [10])).
    rewrite read_lines_cons by (intros ?%list_elem_of_singleton; lia). by rewrite IH.
Qed.

Lemma choose_rounds lower choices current group bytes :
  ∃ t, faults t = [] ∧ choose lower choices current group bytes (mkTerminal [] []) =
    rounds lower choices current (read_lines bytes) (all choices) 0 t.
Proof. eexists. split; [|reflexivity]. done. Qed.

(** C23: choosing a proxy on the terminal. Whatever is typed, however the search folds case,
    and whichever write fails: the dialogue never indexes out of bounds, everything it prints
    is displayable, names with control or direction-changing characters included, and a name
    it returns is the choice whose number and name it printed before; it fails only when a
    write fails or a line is not UTF-8. And every choice can be reached: going to its page
    and typing its number returns exactly this name. *)
Theorem choose_exact lower choices current group :
  (∀ bytes fs,
    let '(t, r) := choose lower choices current group bytes (mkTerminal [] fs) in
    (∃ cut, displayable (output t ++ cut) ∧ (r ≠ Err WriteFailed → r ≠ Err InvalidLine → cut = [])) ∧
    match r with
    | Ok (Some name) => ∃ i x y, choices !! i = Some name ∧ output t = x ++ choice_line current i name ++ y
    | Ok None => True
    | Err WriteFailed => Exists is_Some fs
    | Err InvalidLine => Exists (λ l, utf8_valid l = false) (read_lines bytes)
    | Err Panic => False
    end) ∧
  (∀ i name, choices !! i = Some name → Z.of_nat i < u64_max →
    (choose lower choices current group (mjoin (replicate (i / 15) (lit "n" ++ [10])) ++ print_dec (Z.of_nat i + 1) ++ [10])
       (mkTerminal [] [])).2 = Ok (Some name)).
Proof.
  split.
  - intros bytes fs.
    pose proof (prints_choose lower choices current _ group bytes id (mkTerminal [] fs)) as H.
    destruct (choose _ _ _ _ _ _) as [t r]. destruct H as (s & cut & Ho & Hd & _ & Hr). simpl in *. rewrite Ho. split.
    + exists cut. split; [done|]. destruct r as [a|[]]; [by destruct Hr|done|done|done].
    + destruct r as [[name|]|[]]; [|done|done|done|done]. destruct Hr as [_ Hc]. destruct (Hc name eq_refl) as (i & x & y & Hi & ->).
      by exists i, x, y.
  - intros i name Hi Hu.
    destruct (choose_rounds lower choices current group (mjoin (replicate (i / 15) (lit "n" ++ [10])) ++ print_dec (Z.of_nat i + 1) ++ [10]))
      as (t & Ht & ->).
    rewrite read_lines_pages.
    + apply (reach lower choices current _ 0); [done|done|done|].
      pose proof (Nat.div_mod i 15 ltac:(lia)). pose proof (Nat.mod_upper_bound i 15 ltac:(lia)). lia.
    + intros Hin. destruct (print_dec_spec (Z.of_nat i + 1)) as (Hd & _); [lia|]. rewrite forallb_forall in Hd.
      apply list_elem_of_In, Hd in Hin. done.
Qed.

End ChooseFacts.

(** * Answers *)
Module AnswerFacts.
Import Invocation Cli ChooseFacts.

#[local] Arguments one_of : simpl never.
#[local] Arguments lit : simpl never.
#[local] Arguments strip_prefix : simpl never.

(** ** Codes *)











(** ** Lines for programs *)





(** ** Text for people *)


#[local] Hint Resolve safe_text_displayable : core.
#[local] Hint Extern 1 (displayable (lit _)) => (apply displayable_lit; reflexivity) : core.
#[local] Hint Extern 1 (displayable nl) => (apply (displayable_line []); constructor) : core.



(** ** Usage errors *)















Section Answers.
Context (version : str) (to_string : Value → str) (lower : str → str).
Hypothesis printed : ∀ v, text (λ c, 32 ≤ c) (to_string v).

Local Abbreviation respond := (respond version to_string lower).
Local Abbreviation map_error := (map_error lower).











End Answers.

End AnswerFacts.
