(* ===== verification/CliDemo.v ===== *)
(** * Command lines: runs

    Command lines of the program's manual and tests, and concrete instances of the theorems. *)
From S2P Require Import Prelude Utf8 BTree Json Connection Invocation YamlText Cli CliFacts.

Module CliDemo.
Import Invocation Cli.

(** ** A printer of JSON *)

Definition json_char (c : Z) : str :=
  if c <? 32 then escape_unit c else if (c =? 34) || (c =? 92) then [92; c] else encode1 c.

Definition json_text (s : str) : str := 34 :: flat_map json_char (chars s) ++ [34].

Fixpoint show (v : Value) : str :=
  match v with
  | VNull => lit "null"
  | VBool true => lit "true"
  | VBool false => lit "false"
  | VNumber (PosInt n) => print_dec (Z.abs n)
  | VNumber (NegInt n) => 45 :: print_dec (Z.abs n)
  | VNumber (Float _) => lit "0.5"
  | VString s => json_text s
  | VArray vs => 91 :: join [44] (show <$> vs) ++ [93]
  | VObject fields =>
      123 :: join [44] ((fix go (fs : list (str * Value)) :=
                           match fs with [] => [] | (k, v) :: fs => (json_text k ++ 58 :: show v) :: go fs end) fields) ++ [125]
  end.









(** ** Command lines *)

Definition tokens (words : list string) : list str := lit <$> words.
Definition outcome (words : list string) : str * result Failure Plan := plan (lit "1.1.0-rc1") (λ usage after, usage ++ nl ++ after) (tokens words).
Definition code (words : list string) : option (str * Z) :=
  match snd (outcome words) with Err f => Some (f_code f, f_exit f) | Ok _ => None end.

Example up_ok : outcome ["up"; "--config=home.yaml"; "--port"; "7890"; "--override-arg=a=b=c"; "--json"]%string =
  (lit "start", Ok (Dispatch (mkArgs (lit "start") [(lit "--port", lit "7890"); (lit "-c", lit "home.yaml")] [(lit "--json", tt)] []
     (mkOptions None 5000 [mkArg (lit "a") (lit "b=c")])))).
Proof. vm_compute. reflexivity. Qed.

Example service_ok : outcome ["service"; "enable"; "-c"; "home"]%string =
  (lit "service enable", Ok (Service (lit "enable") (mkArgs (lit "service enable") [(lit "-c", lit "home")] [] [] default_options))).
Proof. vm_compute. reflexivity. Qed.

Example usage_codes :
  code [] = Some (lit "COMMAND_UNKNOWN", 2) ∧
  code ["frobnicate"]%string = Some (lit "COMMAND_UNKNOWN", 1) ∧
  code ["start"; "--port"; "0"]%string = Some (lit "START_PORT_INVALID", 2) ∧
  code ["start"; "--port"; "+80"]%string = Some (lit "START_PORT_INVALID", 2) ∧
  code ["start"; "-c"; "--json"]%string = Some (lit "START_CONFIG_PATH_REQUIRED", 2) ∧
  code ["config"; "rm"]%string = Some (lit "CONFIG_DELETE_NAME_REQUIRED", 2) ∧
  code ["config"; "what"]%string = Some (lit "CONFIG_SUBCOMMAND_UNKNOWN", 2) ∧
  code ["connection"; "close"; "1"]%string = Some (lit "CONNECTION_CLOSE_ARGUMENT_INVALID", 2) ∧
  code ["connection"; "--json"; "list"]%string = Some (lit "CONNECTION_ARGUMENT_INVALID", 2) ∧
  code ["log"; "-n"; "-1"]%string = Some (lit "LOG_ARGUMENT_INVALID", 2) ∧
  code ["stop"; "now"]%string = Some (lit "STOP_ARGUMENT_INVALID", 2).
Proof. vm_compute. repeat split. Qed.

(** ** Answers *)

Definition secret_error : Error := mkError None [lit "CONFIG_UPDATE_FAILED: https://example.com/?token=hidden"; lit "refused"].
(** An update that warns before it fails. *)
Definition warning : str := lit "Rule-provider refresh failed; using validated cached bytes" ++ nl.
Definition failing (p : Plan) : Printed * result Error Output := ([], warning, Err secret_error).

Example answers_ok :
  run (lit "1") (λ u a, u) show id (λ _, ([], [], Ok (Data (VObject [(lit "name", VString [195; 169]); (lit "url", VNull)]))))
    (tokens ["config"; "list"; "--json"]%string) =
  mkAnswer (lit "{" ++ mjoin [json_text (lit "command"); lit ":"; json_text (lit "config list"); lit ",";
     json_text (lit "data"); lit ":{"; json_text (lit "name"); lit ":"; [34]; lit "\u00e9"; [34]; lit "},";
     json_text (lit "ok"); lit ":true}"] ++ nl) [] 0.
Proof. vm_compute. reflexivity. Qed.

Example answers_failure :
  run (lit "1") (λ u a, u) show id failing (tokens ["config"; "update"]%string) =
  mkAnswer [] (warning ++ lit "error: config update failed; source or authoritative state was not accepted" ++ nl ++
    lit "hint: check the configuration and permissions; use `zc help` and `zc log --no-follow` for next steps" ++ nl ++
    lit "code: CONFIG_UPDATE_FAILED" ++ nl) 1.
Proof. vm_compute. reflexivity. Qed.


(** ** Choosing *)

Import Selection.

Example choose_page :
  (choose id [lit "Alpha"; lit "Beta"] (Some (lit "Beta")) (lit "G") (lit "x" ++ nl ++ lit "2" ++ nl) (mkTerminal [] [])).2 = Ok (Some (lit "Beta")).
Proof. vm_compute. reflexivity. Qed.

End CliDemo.
